(* ===== verification/_CoqProject ===== *)
-Q . S2P
Prelude.v
RustStr.v
Net.v
Codec.v
Routing.v
Sql.v
RunsDb.v
RunsInv.v
RunsProps.v
RunsOps.v
InFlight.v
Cron.v
WorkflowSocket.v
WorkflowHost.v
Instances.v
Health.v
Rolling.v
RequestDrain.v
Limits.v
ProxyProtocol.v
ImageSource.v
Images.v
ImageProps.v
Request.v
StaticFiles.v
Cursor.v
ChannelDb.v
ChannelInv.v
ChannelLog.v
ChannelProps.v
ChannelReplay.v
WebSocket.v
ColdStart.v
Enrollment.v
Registry.v
RegistryProps.v
NetServices.v
NetRuntime.v
NetRuntimeProps.v
Protocol.v
ManagementPolicy.v
ManagementProps.v
Management.v
ManagementTrust.v
JsonValue.v
ComposeModel.v
ComposeValidation.v
ComposePlan.v
ComposePlanProps.v
ComposeRollout.v
ComposeRolloutProps.v
ComposeConfinement.v
ComposeSpec.v
PosixFs.v
ImageCache.v
ImageCacheProps.v
ImageCacheSpec.v
SourceCache.v
ImageWorker.v
ImageWorkerProps.v
ImageWorkerSpec.v
ImageServe.v
ImageServeSpec.v
ServerDrain.v
ServerDrainSem.v
ServerDrainLocks.v
ServerDrainSpec.v
