(* ===== verification/Prelude.v ===== *)
(** * Verification of the Tako application platform

    Tako runs applications on a server: a proxy routes HTTP requests to the
    instances (processes) of the deployed apps, the server starts, checks, replaces
    and stops the instances, a workflow engine keeps durable runs in SQLite and
    hands them to worker processes over a Unix socket, channels fan messages out to
    clients with a durable replay log, an optimizer serves resized images, Compose
    projects are updated service by service on a Docker engine, and servers
    and the devices of their users form a network in which commands are authorized by a
    registry of members.  This library models the
    parts of it that decide: who gets a request, which instance is alive, which
    worker owns a run, what a subscriber of a channel gets, which image may be fetched and what is
    answered, who is a member and what a member may do, which containers an update may touch, what a
    byte stream means.  The definitions
    are executable translations of the Rust sources; the examples and witnesses evaluate
    them.

    ** Parts, files and sources (paths below src/)

    - [Prelude] (this file): results and options with the notations [let?] and
      [let!] for Rust's [?], machine integers with their saturation and wrap-around,
      iteration over hash maps ([HashIter]: the theorems hold for every order),
      stable sorting, sums over maps, the tactics [break_match], [bool_to_prop], [break_all].
    - [RustStr], [Net], [Sql]: the parts of the Rust standard library and of SQLite
      that the sources use: byte strings, trimming, integer parsing and printing,
      UTF-8, big-endian integers, IP addresses; tables and the statements on them
      (conditional update and delete, ordered selection with a limit).
    - [Codec]: JSON, base64, SHA-256 and HMAC, which are other crates, as classes of
      functions with classes of laws, and instances that satisfy them.
    - [Routing]: tako-server/src/routing.rs.  Route patterns, their specificity, the
      compiled and sorted table, selection of an app for a host and path.
    - [RunsDb], [RunsInv], [RunsProps], [RunsOps]: tako-workflows/src/schema.rs,
      enqueue.rs, enqueue/sqlite.rs.  The tables as a record [Db] and one definition
      per store operation; [RunsInv] has the invariant, [RunsProps] its preservation
      and the refinement of the abstract life cycle of a run, [RunsOps] what each
      operation does.
    - [InFlight]: tako-workflows/src/in_flight.rs, the per-worker claim budget.
    - [Cron]: tako-workflows/src/cron.rs, registration and firing of schedules.
      The cron expression library is a parameter with its documented contract.
    - [WorkflowSocket]: tako-workflows/src/enqueue_socket.rs with the commands of
      tako-core/src/protocol.rs: peers, authorization and dispatch to the store, with the
      channel store that a publish changes.
    - [WorkflowHost]: the runtimes of an app (manager.rs) that share one store, with the
      critical sections of claims, requests and ticks as separate steps.
    - [Instances]: tako-server/src/instances/ (the app, its instances and its routing
      list) and tako-server/src/lb/.  Instances are shared objects: the app holds a
      heap of them ([objs]) and the tables hold their ids.
    - [Health]: instances/health.rs, scaling/idle.rs, runtime_events.rs: one health
      check, one idle scan, the idle handler.
    - [Rolling]: instances/rolling.rs and instances/spawner/mod.rs: the update of an
      app to a new build.  A [World] records the states other threads can see, an
      [Env] acts at every await.
    - [RequestDrain], [Limits], [ColdStart]: tako-server/src/request_drain.rs,
      proxy/limits.rs and scaling/cold_start.rs: admission, the per-address limit and
      the queue in front of a starting app, each as its operations and a step
      relation for the interleavings of threads.
    - [ProxyProtocol], [WebSocket]: proxy/proxy_protocol.rs and
      tako-channels/src/websocket.rs, websocket/serve.rs: parsers and writers of
      bytes.
    - [ImageSource], [Images], [ImageProps]: tako-images/src/source.rs and lib.rs:
      which sources may be fetched, signed paths, public requests.
    - [Request], [StaticFiles]: proxy/request.rs, config.rs, cloudflare_ips.rs and
      static_files.rs: whose address and scheme a request has behind other proxies, cache
      keys, which paths are looked up as files and how a file is opened.
    - [Cursor]: tako-channels/src/cursor.rs, replay cursors and their text.
    - [ChannelDb], [ChannelInv], [ChannelLog], [ChannelProps], [ChannelReplay]:
      tako-channels/src/store/sqlite.rs and store/presence.rs.  The tables with their
      triggers as a record [ChannelDb], one definition per operation; [ChannelInv] has
      the invariant of the tables and the budget loops, [ChannelLog] the abstract log
      of commits and its relation to the tables, [ChannelProps] runs of operations and
      reads, [ChannelReplay] clients and the theorems.
    - [JsonValue]: the JSON values of serde_json, their accessors and the in-place updates
      through an index; reading and printing them is a class.
    - [ComposeModel], [ComposeValidation], [ComposePlan], [ComposeRollout]: tako-compose/src/
      with tako-core/src/compose.rs: the configuration of a project and the native network
      (lib.rs, native_network.rs, prepared.rs), what a production model may say (validation.rs),
      the order, fingerprints and container models of its services (plan.rs), containers and
      updates (engine.rs, rollout.rs).  Effects are a monad over the history of commands and
      answers; the engine, the file system and SHA-256 are parameters.  [ComposePlanProps],
      [ComposeRolloutProps] and [ComposeConfinement] have the lemmas on plans, on traces of
      commands (a rule says which command a history justifies) and on container models;
      [ComposeSpec] has the theorems and a project of two services on an executable engine.
    - [PosixFs]: files and directories of several users with owners, modes and links, and the
      system calls on them; between calls the environment acts.
    - [ImageCache], [ImageCacheProps], [ImageCacheSpec]: tako-server/src/proxy/service/image/
      cache.rs: transformed images on disk in a temporary directory that others write to.
      [ImageCacheProps] is a rely-guarantee argument: what strangers and other tasks of the
      service may do, and what each step of reading and writing keeps; [ImageCacheSpec] has
      the injectivity of keys, the theorem and the leases.
    - [SourceCache]: tako-server/src/proxy/service/image/source_cache.rs: sources in memory and
      [get_or_load] as a step relation on tasks.
    - [ImageWorker], [ImageWorkerProps], [ImageWorkerSpec]: tako-server/src/image_worker.rs and
      image_worker/: frames, messages, the loop of a worker, and the pool as actions of tasks
      on shared state.  The transformation of pixels is a parameter.
    - [ImageServe], [ImageServeSpec]: tako-server/src/proxy/service/image.rs: the handler of
      image requests as a computation in any world that answers its calls; [may] says which
      calls are allowed when, and the rules of [runs] follow the handler.
    - [ServerDrain], [ServerDrainSem], [ServerDrainLocks], [ServerDrainSpec]: draining and
      resuming a host (tako-server/src/operations/drain.rs, drain_observer.rs,
      state_store/drain.rs), and what runs beside it: cold starts (proxy/service/backend.rs),
      replacements and idle eviction (runtime_events.rs), management commands
      (management_http.rs), startup and retirement (startup/native_promotion.rs).
      [ServerDrain] has the tasks as programs over atomic actions, [ServerDrainSem] the state
      of the processes, the actions and the events of a host, built on [Instances],
      [RequestDrain] and [ColdStart]; [ServerDrainLocks] is a discipline that says what a task
      may rely on under which lock, with its soundness; [ServerDrainSpec] checks every program
      against it and has the theorem, a host of three processes, and three schedules in which
      the protocol goes wrong.
    - [Enrollment]: tako-network/src/types.rs, keys.rs, enrollment.rs, challenge.rs:
      identifiers and keys, the request a device signs to join, the challenge for its
      WireGuard key.  SSH keys, X25519 and X.509 are classes of functions with laws.
    - [Registry], [RegistryProps]: tako-network/src/registry.rs: the append-only records
      of members, approvals and revocations, validation, and who is a member now.
      [RegistryProps] relates the loop of the source to an inductive derivation.
    - [NetServices]: tako-network/src/services.rs, profile.rs: leases of services, host
      names, the checks of an imported profile.
    - [NetRuntime], [NetRuntimeProps]: tako-network/src/runtime.rs, api.rs: signed
      requests, the local database of clock, nonces and observed records, every operation
      of the runtime.  The trait [RegistryStore] of the source is a class; the theorems
      quantify over every sequence of requests, restarts and changes of the store.
    - [Protocol], [ManagementPolicy], [ManagementProps]: tako-core/src/protocol.rs,
      storage.rs, tako-server/src/release.rs and native_management_policy.rs: commands,
      their signed texts, and which the policy authorizes.
    - [Management], [ManagementTrust]: tako-server/src/native_management.rs and
      native_management/upload.rs: from the headers and body of a request to the operation
      that runs.  The transport is parametric in the authority, as in the source;
      [ManagementTrust] composes it with [NetRuntime].

    ** What the theorems show

    - Routing (C1): the compiled table selects what a linear scan selects, and that is the
      most specific match.  [Routing] also characterizes wildcards and subtrees.
    - The workflow store (C2-C5): every reachable database satisfies its keys and
      constraints; every operation refines the life cycle of each run; claims take
      the oldest due run; a worker that lost its run writes nothing; events wake exactly
      their waiters; the background passes release expired leases and delete only old
      finished runs, the oldest first.  [enqueue_is_idempotent] has retries of enqueue.
    - Workers, cron and the socket (C6, C7, C9): under every interleaving, restarts and
      redeploys included, an admitted claim keeps its worker within the budget unless the
      worker claimed through another runtime since the limiter last read the store
      ([replacement_race_exceeds_budget] shows that exception); a tick fires a schedule exactly
      when an instant of it has passed; a request does what it stands for to the app it is
      addressed to, and nothing else.  [oversized_schedule_name_stops_tick] is a defect: an
      over-long schedule name stops every later tick.
    - Draining a host (C8): in every interleaving of processes and tasks, a completed drain
      means that no process has a registered instance or a request, until a resume; a drain
      never stops an instance that is still being spawned.  Three lemmas of [ServerDrainSpec]
      are defects: a failed read or a stale test can stop and restart every app, and a
      late cold start can orphan an instance.
    - Instances (C10-C12): the routing list holds exactly the healthy instances that
      are not withheld, and those that were killed while listed until they are removed; health
      checks escalate at their thresholds and do not revive an instance that was drained or
      stopped while they waited; a rolling update is all or nothing, also when kills fail, and
      leaves a serving app with a routed instance if no thread takes healthy instances away
      (concurrent replacement of dead instances is not in its environment).  Further: the balancer is fair; idle eviction keeps the
      minimum and spares busy instances ([idle_eviction_kills_a_routed_instance] in
      [Health] is a defect: the instance is still routed while it is killed).
    - Requests (C13-C14): only a trusted peer can state another client address or scheme; a
      static file is reached from the app's public directory by plain names and no links.
    - Admission (C15, C18): the drain registry holds exactly the live requests
      and admits nothing while draining; a start has one leader, its queue is
      bounded, and no queued request misses its end.  In [Limits] the per-address limit
      holds for every interleaving of the atomic actions, and [zero_entry_can_stay] shows
      that an emptied counter can stay in the map.
    - Wire formats (C16-C17): PROXY headers round-trip and take exactly their bytes;
      WebSocket frames round-trip and do not depend on the chunks they arrive in.
    - Channels (C19-C22): a read with a cursor refines a read of the abstract log of
      commits, with no gap; a follower gets everything once and in order; the counters
      are exact and within the budgets; remote events are committed once and in order, and
      a gap makes every older cursor stale.  Further: the budget loops end and what was just
      published is kept; [Cursor] has the round trip of cursors.
    - Images (C23): a verified or public request is authentic, well formed, within the
      app's configuration and safe to fetch; signed paths round-trip until they expire.
    - The registry (C24-C25): the loop computes exactly the members that a chain of live
      approvals derives from the roots; nobody holds a permission that its approver could
      not give; a revocation cuts everything below it.  [approval_takes_effect] has
      approvals.
    - The runtime (C26-C28): a signed request is answered at most once, across restarts; a
      revocation that a server has observed is final even if the store forgets it; every
      answer was asked for by a member entitled to it.  [host_state_is_membership]: the
      state of the host that is applied is that of the members.
    - Management (C29-C30): what is run was signed by a member of the network with the
      right to it, for this server, and once; the policy authorizes exactly the commands that
      the specification of C30 allows: rights, directories and paths as they are when checked,
      and the provisioned values of the fields that a deployer may not choose.
    - Enrollment (C31): enrollment requests and challenges round-trip.  In [NetServices] a
      lease that is accepted was signed by the server it names and is fresh.
    - Compose stacks (C32-C35), for every Docker engine, as a function of the history of
      commands and answers: a plan starts services after what they depend on, or there is a
      cycle or a dependency that does not run; an update asks only for containers of its
      plan, confined to what production allows, starts the container that takes a slot, stops
      nothing but what that container displaces from its slot or volume, and ends with one
      ready container per slot; a rollback and the end of an update remove nothing they have
      to keep; waiting for a container ends.  Further: fingerprints stand for the contents of a
      service, and a deployment without changes is left alone.
    - Image caches (C36-C37): between any two system calls other users do what the permissions
      of the file system let them, and still an image that is read under a key was made by the
      worker for that key; the cache of sources in memory stays within its limits, answers with
      what was loaded for the key a few seconds before, and one request loads it for all.
    - Image workers (C38): through frames, messages and a pool of processes that fail, time out
      and are cancelled, a request gets the result of its own transformation, or a failure;
      a request that nothing disturbs gets the result unless the queue was full, and one that
      has a permit gets there on its own.
    - Serving images (C39-C40), for every world that answers the calls of the handler: nothing
      is fetched but accepted sources, from public addresses or the app itself and within the
      limits, and the cache gets only answers of the worker for its key; a refusal has the
      status of a cause that the handler met, and an image is the one for its source.  C36 and C39 meet in the keys: what C39 writes is what C36 assumes was written.

    ** Bounds and fuel

    Loops that are not structural have fuel that provably suffices: string functions
    and [frames_loop] use the length of their input (every step consumes a byte),
    [read_v1_line] the limit of 108 bytes, [run_batches] the number of instances
    (every batch starts one), the budget loops of the channel store the number of rows
    (every round deletes one), the cron loop the time it has to cover (every boundary
    is later than the one before), [effective_loop] of the registry one round more than
    there are members (every round but the last admits one), [visit] of a plan one more than
    there are services (the services on the path are distinct), [poll] two rounds more than
    intervals fit before the deadline (the clock moves on by what was slept), [restore_all]
    the number of predecessors (every round restores one), [hash_entry] the longest path that
    the operating system accepts (every level of a directory takes two bytes of it), [prune_loop] of the cache of sources and
    [reap_loop] of the workers the number of entries (every round removes or passes one),
    [run_stdio_loop] the length of the input (every frame takes four bytes).  The rounds of
    [transform_uncached_image] are an argument: each waits for another request, and the handler
    is left waiting only after all of them.  Timeouts of the rolling
    update are numbers of polls, and so are the waits of a drain: its theorem is for every number.  Integers are [Z]
    with the width of the source written out where it can matter.

    ** What is not modelled

    Process, file and network I/O, timers, logging and metrics; JSON, SQL, URL and cron
    libraries and cryptography beyond the laws that are named; Postgres as a store; live
    delivery of channel messages (broadcast queues between tasks); image codecs
    (what a transformation does to pixels); the start and isolation of worker processes; TLS; the bodies of deployments and of the restore of
    apps (in [ServerDrain] they are any sequence of operations on apps); of
    Compose, the private copy of the sources, builds and pulls, and development mode;
    the podman runtime, the native agent's process, the WireGuard interface, the command
    line. *)

From Stdlib Require Export ZArith Lia ZifyBool ZifyNat Ascii.
From stdpp Require Export base tactics option list sorting gmap strings.

(** ** Results: the values of fallible Rust code *)

Inductive result (A E : Type) : Type :=
| Ok (a : A)
| Err (e : E).
Arguments Ok {A E} _.
Arguments Err {A E} _.

#[global] Instance result_eq_dec {A E} `{EqDecision A, EqDecision E} :
  EqDecision (result A E).
Proof. solve_decision. Defined.

Declare Scope tako_scope.
Delimit Scope tako_scope with tako.
Open Scope tako_scope.

(** [let? x := e in k] is Rust's [let x = e?; k]. *)
Notation "'let?' x := c 'in' k" :=
  (match c with Ok x => k | Err e => Err e end)
  (at level 10, x pattern, c at level 100, k at level 200,
   format "'let?'  x  :=  c  'in' '//' k") : tako_scope.

(** [let! x := o in k] is the same for [Option] ([None] returns early). *)
Notation "'let!' x := c 'in' k" :=
  (match c with Some x => k | None => None end)
  (at level 10, x pattern, c at level 100, k at level 200,
   format "'let!'  x  :=  c  'in' '//' k") : tako_scope.

(** [Option::ok_or]. *)
Definition ok_or {A E} (o : option A) (e : E) : result A E :=
  match o with Some a => Ok a | None => Err e end.

(** [Result::map_err]. *)
Definition map_err {A E F} (f : E -> F) (r : result A E) : result A F :=
  match r with Ok a => Ok a | Err e => Err (f e) end.

Definition is_ok {A E} (r : result A E) : bool :=
  match r with Ok _ => true | Err _ => false end.

(** [Option::transpose] on an optional fallible value. *)
Definition transpose {A E} (o : option (result A E)) : result (option A) E :=
  match o with
  | None => Ok None
  | Some (Ok a) => Ok (Some a)
  | Some (Err e) => Err e
  end.

(** ** Machine integers *)

Definition u8_max : Z := 255.
Definition u16_max : Z := 65535.
Definition u32_max : Z := 4294967295.
Definition u64_max : Z := 18446744073709551615.
Definition i64_max : Z := 9223372036854775807.
Definition i64_min : Z := -9223372036854775808.

Definition clamp (lo hi x : Z) : Z := Z.max lo (Z.min hi x).

(** [i64::saturating_add], [i64::saturating_sub]. *)
Definition i64_saturating_add (a b : Z) : Z := clamp i64_min i64_max (a + b).
Definition i64_saturating_sub (a b : Z) : Z := clamp i64_min i64_max (a - b).

(** [u64::saturating_sub], [u32::saturating_add]. *)
Definition u64_saturating_sub (a b : Z) : Z := Z.max 0 (a - b).
Definition u32_saturating_add (a b : Z) : Z := Z.min u32_max (a + b).

(** [as u32] on a wider integer, and wrapping arithmetic of atomics. *)
Definition as_u32 (a : Z) : Z := a mod 4294967296.
Definition u32_wrapping_add (a b : Z) : Z := (a + b) mod 4294967296.
Definition u32_wrapping_sub (a b : Z) : Z := (a - b) mod 4294967296.
Definition u64_wrapping_add (a b : Z) : Z := (a + b) mod 18446744073709551616.
Definition u64_wrapping_sub (a b : Z) : Z := (a - b) mod 18446744073709551616.

(** ** Hash maps

    Iteration over a [HashMap] or a [DashMap] is in an unspecified order.
    [HashIter] is what the code may rely on: every entry appears exactly once.
    The theorems are proved against the class; [hash_iter_default] discharges
    it. *)
Class HashIter (K V : Type) `{Countable K} := {
  hash_iter : gmap K V -> list (K * V);
  hash_iter_perm m : hash_iter m ≡ₚ map_to_list m;
}.

#[global] Program Instance hash_iter_default {K V} `{Countable K} :
  HashIter K V | 100 := {| hash_iter := map_to_list |}.
Next Obligation. done. Qed.

(** ** Stable sorting, as [slice::sort_by_key]

    [leb x y] says that [x] may come before [y].  An element is inserted before
    the first element it may precede, so equal keys keep their order. *)
Section Sort.
Context {A : Type} (leb : A -> A -> bool).

Fixpoint insert_by (x : A) (l : list A) : list A :=
  match l with
  | [] => [x]
  | y :: l' => if leb x y then x :: y :: l' else y :: insert_by x l'
  end.

Fixpoint sort_by (l : list A) : list A :=
  match l with
  | [] => []
  | x :: l' => insert_by x (sort_by l')
  end.

(** [Iterator::find]. *)
Fixpoint find_first (p : A -> bool) (l : list A) : option A :=
  match l with
  | [] => None
  | x :: l' => if p x then Some x else find_first p l'
  end.

(** The first of the best elements that satisfy [p]. *)
Fixpoint best (p : A -> bool) (l : list A) : option A :=
  match l with
  | [] => None
  | x :: l' =>
      if p x then
        match best p l' with
        | None => Some x
        | Some y => if leb x y then Some x else Some y
        end
      else best p l'
  end.
End Sort.

(** [Iterator::any], [Iterator::all], [Iterator::filter]: the bool versions. *)
Definition any {A} (p : A -> bool) (l : list A) : bool := existsb p l.
Definition all {A} (p : A -> bool) (l : list A) : bool := forallb p l.

Fixpoint retain {A} (p : A -> bool) (l : list A) : list A :=
  match l with
  | [] => []
  | x :: l' => if p x then x :: retain p l' else retain p l'
  end.

(** ** Automation *)

Create HintDb tako.
Create Rewrite HintDb tako.

(** Case analysis on the tests of a definition, in the goal or a hypothesis. *)
Ltac break_match :=
  match goal with
  | |- context [match ?x with _ => _ end] =>
      lazymatch x with context [match _ with _ => _ end] => fail | _ => destruct x eqn:? end
  | H : context [match ?x with _ => _ end] |- _ =>
      lazymatch x with context [match _ with _ => _ end] => fail | _ => destruct x eqn:? end
  end.

(** Boolean tests to propositions. *)
Ltac bool_to_prop :=
  repeat match goal with
  | H : (_ && _) = true |- _ => apply andb_true_iff in H; destruct H
  | H : (_ || _) = false |- _ => apply orb_false_iff in H; destruct H
  | H : negb _ = true |- _ => apply negb_true_iff in H
  | H : negb _ = false |- _ => apply negb_false_iff in H
  | H : bool_decide _ = true |- _ => apply bool_decide_eq_true in H
  | H : bool_decide _ = false |- _ => apply bool_decide_eq_false in H
  | H : (_ =? _)%Z = true |- _ => apply Z.eqb_eq in H
  | H : (_ =? _)%Z = false |- _ => apply Z.eqb_neq in H
  | H : (_ <=? _)%Z = true |- _ => apply Z.leb_le in H
  | H : (_ <=? _)%Z = false |- _ => apply Z.leb_gt in H
  | H : (_ <? _)%Z = true |- _ => apply Z.ltb_lt in H
  | H : (_ <? _)%Z = false |- _ => apply Z.ltb_ge in H
  | H : (_ =? _)%nat = true |- _ => apply Nat.eqb_eq in H
  | H : (_ =? _)%nat = false |- _ => apply Nat.eqb_neq in H
  | H : (_ <=? _)%nat = true |- _ => apply Nat.leb_le in H
  | H : (_ <=? _)%nat = false |- _ => apply Nat.leb_gt in H
  | H : (_ <? _)%nat = true |- _ => apply Nat.ltb_lt in H
  | H : (_ <? _)%nat = false |- _ => apply Nat.ltb_ge in H
  end.

(** Break the tests of a hypothesis about a definition and clean up. *)
Ltac break_all := repeat (break_match; simplify_eq/=); bool_to_prop; simplify_eq/=.

(** ** Lemmas on integers *)

Lemma clamp_range lo hi x : (lo <= hi)%Z -> (lo <= clamp lo hi x <= hi)%Z.
Proof. unfold clamp; lia. Qed.

Lemma clamp_id lo hi x : (lo <= x <= hi)%Z -> clamp lo hi x = x.
Proof. unfold clamp; lia. Qed.

Lemma i64_saturating_add_exact a b :
  (i64_min <= a + b <= i64_max)%Z -> i64_saturating_add a b = (a + b)%Z.
Proof. intros; by apply clamp_id. Qed.

Lemma i64_saturating_add_ge a b :
  (i64_min <= a <= i64_max)%Z -> (0 <= b)%Z -> (a <= i64_saturating_add a b)%Z.
Proof. unfold i64_saturating_add, clamp, i64_min, i64_max; lia. Qed.

(** ** Lemmas on lists *)

Lemma retain_filter {A} (p : A -> bool) (l : list A) :
  retain p l = List.filter p l.
Proof. induction l as [|x l IH]; simpl; [done|]. by rewrite IH. Qed.

#[global] Instance retain_perm {A} (p : A -> bool) :
  Proper ((≡ₚ) ==> (≡ₚ)) (retain p).
Proof.
  induction 1 as [|x l l' H IH|x y l|l1 l2 l3 H1 IH1 H2 IH2]; simpl; [done| | |by etrans].
  - destruct (p x); by rewrite IH.
  - destruct (p x), (p y); try done. by rewrite Permutation_swap.
Qed.

Lemma elem_of_retain {A} (p : A -> bool) (l : list A) x :
  x ∈ retain p l <-> p x = true /\ x ∈ l.
Proof.
  induction l as [|y l IH]; simpl; [set_solver|].
  destruct (p y) eqn:Hp; rewrite ?elem_of_cons, IH; naive_solver congruence.
Qed.

Lemma retain_ext {A} (p q : A -> bool) (l : list A) :
  (forall x, x ∈ l -> p x = q x) -> retain p l = retain q l.
Proof.
  induction l as [|x l IH]; intros H; simpl; [done|]. rewrite (H x) by left.
  destruct (q x); rewrite IH; try done; intros; apply H; by right.
Qed.

Lemma find_first_Some {A} (p : A -> bool) (l : list A) x :
  find_first p l = Some x -> p x = true /\ x ∈ l.
Proof.
  induction l as [|y l IH]; simpl; [done|].
  destruct (p y) eqn:Hp; [|rewrite elem_of_cons; naive_solver].
  intros [= ->]. split; [done|]. left.
Qed.

Lemma find_first_None {A} (p : A -> bool) (l : list A) :
  find_first p l = None <-> forall x, x ∈ l -> p x = false.
Proof.
  induction l as [|y l IH]; simpl; [set_solver|].
  destruct (p y) eqn:Hp.
  - split; [done|]. intros H. specialize (H y). rewrite H in Hp; [done|]. left.
  - rewrite IH. split; intros H x; rewrite ?elem_of_cons; [naive_solver|].
    intros ?; apply H; by right.
Qed.

Lemma find_first_ext {A} (p q : A -> bool) (l : list A) :
  (forall x, x ∈ l -> p x = q x) -> find_first p l = find_first q l.
Proof.
  induction l as [|y l IH]; simpl; intros H; [done|].
  rewrite (H y) by left. rewrite IH; [done|]. intros; apply H; by right.
Qed.

Lemma StronglySorted_take_impl {A} (R S : A -> A -> Prop) n (l : list A) :
  (forall x y, R x y -> S x y) -> StronglySorted R l -> StronglySorted S (take n l).
Proof.
  intros HRS H. revert n.
  induction H as [|x l Hl IH Hx]; intros n; [rewrite take_nil; constructor|].
  destruct n as [|n]; simpl; constructor; [apply IH|]. apply Forall_take.
  eapply List.Forall_impl; [|exact Hx]. intros y. apply HRS.
Qed.

(** ** Stable sorting: order, permutation, and the first match *)
Section SortLemmas.
Context {A : Type} (leb : A -> A -> bool).
Hypothesis leb_total : forall x y, leb x y = true \/ leb y x = true.
Hypothesis leb_trans : forall x y z, leb x y = true -> leb y z = true -> leb x z = true.

Lemma insert_by_perm x l : insert_by leb x l ≡ₚ x :: l.
Proof.
  induction l as [|y l IH]; simpl; [done|].
  destruct (leb x y); [done|]. rewrite IH. by rewrite Permutation_swap.
Qed.

Lemma sort_by_perm l : sort_by leb l ≡ₚ l.
Proof. induction l as [|x l IH]; simpl; [done|]. by rewrite insert_by_perm, IH. Qed.

Lemma insert_by_sorted x l :
  StronglySorted (fun a b => leb a b = true) l ->
  StronglySorted (fun a b => leb a b = true) (insert_by leb x l).
Proof using leb_total leb_trans.
  induction 1 as [|y l Hl IH Hy]; simpl; [repeat constructor|].
  destruct (leb x y) eqn:Hxy.
  - constructor; [by constructor|]. constructor; [done|].
    eapply List.Forall_impl; [|done]. intros z Hz. by eapply leb_trans.
  - constructor; [done|]. rewrite insert_by_perm. constructor; [|done].
    destruct (leb_total x y); congruence.
Qed.

Lemma sort_by_sorted l : StronglySorted (fun a b => leb a b = true) (sort_by leb l).
Proof using leb_total leb_trans.
  induction l as [|x l IH]; simpl; [constructor|]. by apply insert_by_sorted.
Qed.

Lemma find_insert_by p x l :
  StronglySorted (fun a b => leb a b = true) l ->
  find_first p (insert_by leb x l) =
    if p x then
      match find_first p l with
      | None => Some x
      | Some y => if leb x y then Some x else Some y
      end
    else find_first p l.
Proof using leb_trans.
  induction 1 as [|y l Hl IH Hy]; simpl; [by destruct (p x)|].
  destruct (leb x y) eqn:Hxy; simpl.
  - destruct (p x) eqn:Hpx; [|done].
    destruct (p y) eqn:Hpy; [by rewrite Hxy|].
    destruct (find_first p l) as [z|] eqn:Hz; [|done].
    apply find_first_Some in Hz as [_ Hz].
    rewrite List.Forall_forall in Hy. rewrite list_elem_of_In in Hz.
    by rewrite (leb_trans _ _ _ Hxy (Hy _ Hz)).
  - destruct (p y) eqn:Hpy; [|done].
    destruct (p x); [by rewrite Hxy|done].
Qed.

(** The first match of the sorted list is the first of the best matches. *)
Lemma find_sort_by p l : find_first p (sort_by leb l) = best leb p l.
Proof using leb_total leb_trans.
  induction l as [|x l IH]; simpl; [done|].
  rewrite find_insert_by by apply sort_by_sorted. by rewrite IH.
Qed.

Lemma best_Some p l x :
  best leb p l = Some x ->
  p x = true /\ x ∈ l /\ forall y, y ∈ l -> p y = true -> leb x y = true.
Proof using leb_total leb_trans.
  rewrite <- find_sort_by. intros H.
  destruct (find_first_Some _ _ _ H) as [Hp Hin].
  split; [done|]. split; [by rewrite <- (sort_by_perm l)|].
  intros y Hy Hpy. rewrite <- (sort_by_perm l) in Hy.
  pose proof (sort_by_sorted l) as Hs. revert H Hy. clear Hin.
  induction Hs as [|z s Hs IH Hz]; simpl; [done|].
  rewrite elem_of_cons. destruct (p z) eqn:Hpz; [|naive_solver congruence].
  intros [= ->] [->|Hy]; [by destruct (leb_total x x)|].
  rewrite List.Forall_forall in Hz. by apply Hz, list_elem_of_In.
Qed.

Lemma best_None p l : best leb p l = None <-> forall x, x ∈ l -> p x = false.
Proof using leb_total leb_trans.
  rewrite <- find_sort_by, find_first_None.
  split; intros H x Hx; apply H; [by rewrite sort_by_perm|by rewrite <- (sort_by_perm l)].
Qed.
End SortLemmas.

(** ** Sums over maps *)

Definition map_sum {K V} `{Countable K} (f : V -> Z) (m : gmap K V) : Z := map_fold (fun _ x acc => f x + acc)%Z 0%Z m.

Section MapSum.
Context {K V : Type} `{Countable K}.
Implicit Types (f g : V -> Z) (m : gmap K V).

Lemma map_sum_empty f : map_sum f (∅ : gmap K V) = 0%Z.
Proof. apply map_fold_empty. Qed.

Lemma map_sum_insert f m k x : m !! k = None -> map_sum f (<[k := x]> m) = (f x + map_sum f m)%Z.
Proof. intros Hk. unfold map_sum. rewrite map_fold_insert_L; [done| |done]. intros; lia. Qed.

Lemma map_sum_delete f m k x : m !! k = Some x -> map_sum f m = (f x + map_sum f (delete k m))%Z.
Proof. intros Hk. rewrite <- (insert_delete_id m k x) at 1 by done. apply map_sum_insert, lookup_delete_eq. Qed.

Lemma map_sum_update f m k x y : m !! k = Some x -> map_sum f (<[k := y]> m) = (map_sum f m - f x + f y)%Z.
Proof.
  intros Hk. rewrite <- insert_delete_eq, map_sum_insert by apply lookup_delete_eq. rewrite (map_sum_delete f m k x Hk). lia.
Qed.

Lemma map_sum_le f g m : (forall k x, m !! k = Some x -> f x <= g x)%Z -> (map_sum f m <= map_sum g m)%Z.
Proof.
  induction m as [|k x m Hk IH] using map_ind; intros Hm; [done|]. rewrite !map_sum_insert by done.
  pose proof (Hm k x (lookup_insert_eq _ _ _)). enough (map_sum f m <= map_sum g m)%Z by lia. apply IH.
  intros k' x' Hx'. apply (Hm k'). rewrite lookup_insert_ne; [done|]. intros ->. congruence.
Qed.

Lemma map_sum_nonneg f m : (forall k x, m !! k = Some x -> 0 <= f x)%Z -> (0 <= map_sum f m)%Z.
Proof.
  intros Hm. enough (map_sum (fun _ => 0%Z) m = 0%Z) as Hz by (rewrite <- Hz at 1; by apply map_sum_le).
  clear Hm. induction m as [|k x m Hk IH] using map_ind; [done|]. by rewrite map_sum_insert, IH.
Qed.
End MapSum.
