(* ===== verification/RustStr.v ===== *)
(** * Rust strings and byte slices

    A Rust [&str] is the list of its UTF-8 bytes, so that the byte indices the
    source computes ([find], [len], slices) are list positions.  The functions of
    [core::str], [u8::is_ascii_*] and the integer parsers and printers that the
    modelled code calls are defined here. *)

From S2P Require Import Prelude.

Abbreviation str := (list ascii).

(** String literals. *)
Definition bs (s : string) : str := String.list_ascii_of_string s.

Definition byte_of (c : ascii) : Z := Z.of_nat (nat_of_ascii c).
Definition of_byte (z : Z) : ascii := ascii_of_nat (Z.to_nat z).

Definition str_eqb (a b : str) : bool := bool_decide (a = b).

(** [Ord] of strings and byte arrays. *)
Fixpoint str_leb (a b : str) : bool :=
  match a, b with
  | [], _ => true
  | _ :: _, [] => false
  | x :: a', y :: b' => (byte_of x <? byte_of y)%Z || ((byte_of x =? byte_of y)%Z && str_leb a' b')
  end.

(** [str::strip_prefix], [str::strip_suffix], [starts_with], [ends_with]. *)
Fixpoint strip_prefix (p s : str) : option str :=
  match p, s with
  | [], _ => Some s
  | c :: p', d :: s' => if bool_decide (c = d) then strip_prefix p' s' else None
  | _ :: _, [] => None
  end.

Definition strip_suffix (p s : str) : option str :=
  match strip_prefix (rev p) (rev s) with
  | Some r => Some (rev r)
  | None => None
  end.

Definition starts_with (s p : str) : bool :=
  match strip_prefix p s with Some _ => true | None => false end.

Definition ends_with (s p : str) : bool :=
  match strip_suffix p s with Some _ => true | None => false end.

(** [str::find] and [contains] of an ASCII character. *)
Fixpoint find_char (c : ascii) (s : str) : option nat :=
  match s with
  | [] => None
  | d :: s' => if bool_decide (c = d) then Some 0 else S <$> find_char c s'
  end.

Definition contains_char (s : str) (c : ascii) : bool := existsb (fun d => bool_decide (c = d)) s.

(** [str::split_once], [str::rsplit_once] on an ASCII character. *)
Fixpoint split_once (c : ascii) (s : str) : option (str * str) :=
  match s with
  | [] => None
  | d :: s' =>
      if bool_decide (c = d) then Some ([], s')
      else match split_once c s' with
           | Some (a, b) => Some (d :: a, b)
           | None => None
           end
  end.

Definition rsplit_once (c : ascii) (s : str) : option (str * str) :=
  match split_once c (rev s) with
  | Some (a, b) => Some (rev b, rev a)
  | None => None
  end.

(** [str::split] on an ASCII character: never empty. *)
Fixpoint split (c : ascii) (s : str) : list str :=
  match s with
  | [] => [[]]
  | d :: s' =>
      if bool_decide (c = d) then [] :: split c s'
      else match split c s' with
           | [] => [[d]]
           | w :: ws => (d :: w) :: ws
           end
  end.

(** [splitn(2, c)]: the key and what follows the first separator. *)
Definition splitn2 (c : ascii) (s : str) : str * option str :=
  match split_once c s with
  | Some (a, b) => (a, Some b)
  | None => (s, None)
  end.

(** White space: [char::is_whitespace] on the UTF-8 encodings.  [ws_strip s]
    removes one leading white-space character; [ws_strip_rev] does the same on
    a reversed string. *)
Definition ws_strip (s : str) : option str :=
  match byte_of <$> s with
  | b :: r =>
      if ((9 <=? b) && (b <=? 13) || (b =? 32))%Z then Some (drop 1 s)
      else match b, r with
      | 194, 133 :: _ => Some (drop 2 s)
      | 194, 160 :: _ => Some (drop 2 s)
      | 225, 154 :: 128 :: _ => Some (drop 3 s)
      | 226, 128 :: c :: _ =>
          if ((128 <=? c) && (c <=? 138) || (c =? 168) || (c =? 169) || (c =? 175))%Z
          then Some (drop 3 s) else None
      | 226, 129 :: 159 :: _ => Some (drop 3 s)
      | 227, 128 :: 128 :: _ => Some (drop 3 s)
      | _, _ => None
      end%Z
  | [] => None
  end.

Definition ws_strip_rev (s : str) : option str :=
  match byte_of <$> s with
  | b :: r =>
      if ((9 <=? b) && (b <=? 13) || (b =? 32))%Z then Some (drop 1 s)
      else match b, r with
      | 133, 194 :: _ => Some (drop 2 s)
      | 160, 194 :: _ => Some (drop 2 s)
      | 128, 154 :: 225 :: _ => Some (drop 3 s)
      | 159, 129 :: 226 :: _ => Some (drop 3 s)
      | 128, 128 :: 227 :: _ => Some (drop 3 s)
      | c, 128 :: 226 :: _ =>
          if ((128 <=? c) && (c <=? 138) || (c =? 168) || (c =? 169) || (c =? 175))%Z
          then Some (drop 3 s) else None
      | _, _ => None
      end%Z
  | [] => None
  end.

Fixpoint strip_while (step : str -> option str) (fuel : nat) (s : str) : str :=
  match fuel with
  | O => s
  | S fuel' => match step s with Some s' => strip_while step fuel' s' | None => s end
  end.

(** [str::trim_start], [str::trim_end], [str::trim]: every step removes a byte, so
    the length is enough fuel. *)
Definition trim_start (s : str) : str := strip_while ws_strip (length s) s.
Definition trim_end (s : str) : str := rev (strip_while ws_strip_rev (length s) (rev s)).
Definition trim (s : str) : str := trim_end (trim_start s).

(** [str::contains] of a string. *)
Fixpoint contains_str (s p : str) : bool :=
  starts_with s p || match s with [] => false | _ :: s' => contains_str s' p end.

(** [str::split_whitespace]. *)
Fixpoint take_word (s : str) : str * str :=
  match s with
  | [] => ([], [])
  | c :: s' =>
      match ws_strip s with
      | Some _ => ([], s)
      | None => let '(w, rest) := take_word s' in (c :: w, rest)
      end
  end.

Fixpoint split_ws_loop (fuel : nat) (s : str) : list str :=
  match fuel with
  | O => []
  | S fuel' =>
      match trim_start s with
      | [] => []
      | s' => let '(w, rest) := take_word s' in w :: split_ws_loop fuel' rest
      end
  end.

Definition split_whitespace (s : str) : list str := split_ws_loop (length s) s.

(** [trim_start_matches], [trim_end_matches], [trim_matches] of an ASCII character. *)
Fixpoint trim_start_matches (c : ascii) (s : str) : str :=
  match s with
  | d :: s' => if bool_decide (c = d) then trim_start_matches c s' else s
  | [] => []
  end.

Definition trim_end_matches (c : ascii) (s : str) : str := rev (trim_start_matches c (rev s)).
Definition trim_matches (c : ascii) (s : str) : str := trim_end_matches c (trim_start_matches c s).

(** ASCII case. *)
Definition to_ascii_lowercase_char (c : ascii) : ascii :=
  let b := byte_of c in
  if ((65 <=? b) && (b <=? 90))%Z then of_byte (b + 32) else c.

Definition to_ascii_lowercase (s : str) : str := to_ascii_lowercase_char <$> s.

Definition eq_ignore_ascii_case (a b : str) : bool :=
  bool_decide (to_ascii_lowercase a = to_ascii_lowercase b).

Definition is_ascii_digit (c : ascii) : bool :=
  ((48 <=? byte_of c) && (byte_of c <=? 57))%Z.

(** ** Decimal integers *)

Definition digit_value (c : ascii) : option Z :=
  if is_ascii_digit c then Some (byte_of c - 48)%Z else None.

(** The digit loop of [from_str_radix], failing on overflow past [max]. *)
Fixpoint parse_digits (max acc : Z) (s : str) : option Z :=
  match s with
  | [] => Some acc
  | c :: s' =>
      match digit_value c with
      | Some d =>
          let acc' := (acc * 10 + d)%Z in
          if (acc' <=? max)%Z then parse_digits max acc' s' else None
      | None => None
      end
  end.

(** [<unsigned>::from_str]: an optional [+], then at least one digit. *)
Definition parse_unsigned (max : Z) (s : str) : option Z :=
  match s with
  | [] => None
  | c :: s' =>
      if bool_decide (c = "+"%char)
      then match s' with [] => None | _ => parse_digits max 0 s' end
      else parse_digits max 0 s
  end.

Definition parse_u8 := parse_unsigned u8_max.
Definition parse_u16 := parse_unsigned u16_max.
Definition parse_u32 := parse_unsigned u32_max.
Definition parse_u64 := parse_unsigned u64_max.

(** [i64::from_str]: an optional sign, then at least one digit. *)
Definition parse_i64 (s : str) : option Z :=
  match s with
  | [] => None
  | c :: s' =>
      if bool_decide (c = "-"%char)
      then match s' with
           | [] => None
           | _ => match parse_digits (- i64_min) 0 s' with
                  | Some n => Some (- n)%Z
                  | None => None
                  end
           end
      else if bool_decide (c = "+"%char)
      then match s' with [] => None | _ => parse_digits i64_max 0 s' end
      else parse_digits i64_max 0 s
  end.

Definition digit_char (d : Z) : ascii := of_byte (d + 48).

(** [Display] of an integer. *)
Fixpoint show_nat_digits (fuel : nat) (n : Z) (acc : str) : str :=
  match fuel with
  | O => acc
  | S fuel' =>
      let acc' := digit_char (n mod 10) :: acc in
      if (n / 10 =? 0)%Z then acc' else show_nat_digits fuel' (n / 10) acc'
  end.

Definition show_Z (n : Z) : str :=
  if (n <? 0)%Z
  then "-"%char :: show_nat_digits (S (Z.to_nat (Z.log2 (- n)))) (- n) []
  else show_nat_digits (S (Z.to_nat (Z.log2 n))) n [].

(** ** Lemmas *)

Lemma byte_of_range c : (0 <= byte_of c <= 255)%Z.
Proof. unfold byte_of. pose proof (nat_ascii_bounded c). lia. Qed.

Lemma byte_of_of_byte z : (0 <= z <= 255)%Z -> byte_of (of_byte z) = z.
Proof. intros H. unfold byte_of, of_byte. rewrite nat_ascii_embedding; lia. Qed.

Lemma of_byte_byte_of c : of_byte (byte_of c) = c.
Proof. unfold byte_of, of_byte. rewrite Nat2Z.id. apply ascii_nat_embedding. Qed.

Lemma byte_of_inj a b : byte_of a = byte_of b -> a = b.
Proof. intros H. by rewrite <- (of_byte_byte_of a), H, of_byte_byte_of. Qed.

Lemma strip_prefix_Some p s r : strip_prefix p s = Some r <-> s = p ++ r.
Proof.
  revert s. induction p as [|c p IH]; intros s; simpl; [split; congruence|].
  destruct s as [|d s]; [split; congruence|].
  case_bool_decide as Hc; [subst; rewrite IH; split; congruence|].
  split; [done|]. congruence.
Qed.

Lemma strip_prefix_app p r : strip_prefix p (p ++ r) = Some r.
Proof. by apply strip_prefix_Some. Qed.

Lemma strip_suffix_Some p s r : strip_suffix p s = Some r <-> s = r ++ p.
Proof.
  unfold strip_suffix. split.
  - destruct (strip_prefix _ _) as [q|] eqn:H; [|done]. intros [= <-].
    apply strip_prefix_Some in H. apply (f_equal (@rev _)) in H.
    by rewrite rev_app_distr, !rev_involutive in H.
  - intros ->. rewrite rev_app_distr, strip_prefix_app. by rewrite rev_involutive.
Qed.

Lemma strip_suffix_app p r : strip_suffix p (r ++ p) = Some r.
Proof. by apply strip_suffix_Some. Qed.

Lemma starts_with_iff s p : starts_with s p = true <-> exists r, s = p ++ r.
Proof.
  unfold starts_with. destruct (strip_prefix p s) as [r|] eqn:H.
  - apply strip_prefix_Some in H. naive_solver.
  - split; [done|]. intros [r Hr]. apply strip_prefix_Some in Hr. congruence.
Qed.

Lemma ends_with_iff s p : ends_with s p = true <-> exists r, s = r ++ p.
Proof.
  unfold ends_with. destruct (strip_suffix p s) as [r|] eqn:H.
  - apply strip_suffix_Some in H. naive_solver.
  - split; [done|]. intros [r Hr]. apply strip_suffix_Some in Hr. congruence.
Qed.

Lemma contains_char_iff s c : contains_char s c = true <-> c ∈ s.
Proof.
  unfold contains_char. rewrite existsb_exists. split.
  - intros (d & Hd & Heq%bool_decide_eq_true). subst. by apply list_elem_of_In.
  - intros H%list_elem_of_In. exists c. by rewrite bool_decide_eq_true.
Qed.

Lemma contains_char_false s c : contains_char s c = false <-> c ∉ s.
Proof. rewrite <- contains_char_iff. destruct (contains_char s c); naive_solver. Qed.

Lemma find_char_Some c s i :
  find_char c s = Some i ->
  exists a b, s = a ++ c :: b /\ length a = i /\ c ∉ a.
Proof.
  revert i. induction s as [|d s IH]; intros i; simpl; [done|].
  case_bool_decide as Hc.
  - intros [= <-]. exists [], s. subst. split; [done|]. split; [done|]. set_solver.
  - destruct (find_char c s) as [j|] eqn:Hj; simpl; [|done]. intros [= <-].
    destruct (IH j eq_refl) as (a & b & -> & Ha & Hn).
    exists (d :: a), b. simpl. rewrite Ha. set_solver.
Qed.

Lemma find_char_None c s : find_char c s = None <-> c ∉ s.
Proof.
  induction s as [|d s IH]; simpl; [set_solver|].
  case_bool_decide as Hc; [set_solver|].
  rewrite fmap_None, IH. set_solver.
Qed.

Lemma find_char_app c a b : c ∉ a -> find_char c (a ++ c :: b) = Some (length a).
Proof.
  induction a as [|d a IH]; simpl; intros Hn.
  - by rewrite bool_decide_eq_true_2.
  - rewrite bool_decide_eq_false_2 by set_solver. rewrite IH by set_solver. done.
Qed.

Lemma split_once_Some c s a b :
  split_once c s = Some (a, b) <-> s = a ++ c :: b /\ c ∉ a.
Proof.
  revert a. induction s as [|d s IH]; intros a; simpl.
  - split; [done|]. intros [H _]. by destruct a.
  - case_bool_decide as Hc.
    + subst. split; [intros [= <- <-]; set_solver|].
      intros [H Hn]. destruct a as [|e a]; simplify_eq/=; [done|set_solver].
    + destruct (split_once c s) as [[a' b']|] eqn:Hs.
      * split.
        -- intros [= <- <-]. destruct (proj1 (IH a') eq_refl) as [-> Hn]. set_solver.
        -- intros [H Hn]. destruct a as [|e a]; simplify_eq/=.
           assert (Some (a', b') = Some (a, b)) as [= -> ->]; [|done].
           apply IH. set_solver.
      * split; [done|]. intros [H Hn]. destruct a as [|e a]; simplify_eq/=.
        assert (None = Some (a, b)); [apply IH; set_solver|done].
Qed.

Lemma split_once_None c s : split_once c s = None <-> c ∉ s.
Proof.
  induction s as [|d s IH]; simpl; [set_solver|].
  case_bool_decide as Hc; [set_solver|].
  destruct (split_once c s) as [[]|] eqn:Hs; [|set_solver].
  split; [done|]. intros Hn. assert (c ∉ s) as H%IH by set_solver. done.
Qed.

Lemma rsplit_once_Some c s a b :
  rsplit_once c s = Some (a, b) <-> s = a ++ c :: b /\ c ∉ b.
Proof.
  unfold rsplit_once. split.
  - destruct (split_once c (rev s)) as [[x y]|] eqn:H; [|done]. intros [= <- <-].
    apply split_once_Some in H as [H Hn]. apply (f_equal (@rev _)) in H.
    rewrite rev_involutive, rev_app_distr in H. simpl in H.
    rewrite <- app_assoc in H. split; [done|].
    by rewrite list_elem_of_In, <- in_rev, <- list_elem_of_In.
  - intros [-> Hn]. rewrite rev_app_distr. simpl. rewrite <- app_assoc. simpl.
    assert (split_once c (rev b ++ c :: rev a) = Some (rev b, rev a)) as ->.
    { apply split_once_Some. split; [done|].
      by rewrite list_elem_of_In, <- in_rev, <- list_elem_of_In. }
    by rewrite !rev_involutive.
Qed.

Lemma split_no_sep c s : c ∉ s -> split c s = [s].
Proof.
  induction s as [|d s IH]; simpl; intros Hn; [done|].
  rewrite bool_decide_eq_false_2 by set_solver. by rewrite IH by set_solver.
Qed.

Lemma split_app c a b : c ∉ a -> split c (a ++ c :: b) = a :: split c b.
Proof.
  induction a as [|d a IH]; simpl; intros Hn.
  - by rewrite bool_decide_eq_true_2.
  - rewrite bool_decide_eq_false_2 by set_solver. by rewrite IH by set_solver.
Qed.

Lemma to_ascii_lowercase_length s : length (to_ascii_lowercase s) = length s.
Proof. apply length_fmap. Qed.

Lemma eq_ignore_ascii_case_length a b :
  eq_ignore_ascii_case a b = true -> length a = length b.
Proof.
  unfold eq_ignore_ascii_case. intros H%bool_decide_eq_true.
  by rewrite <- (to_ascii_lowercase_length a), H, to_ascii_lowercase_length.
Qed.

#[global] Instance eq_ignore_case_equivalence :
  Equivalence (fun a b => eq_ignore_ascii_case a b = true).
Proof.
  unfold eq_ignore_ascii_case.
  split; [intros a|intros a b|intros a b c]; rewrite ?bool_decide_eq_true; congruence.
Qed.

Lemma eq_ignore_ascii_case_refl s : eq_ignore_ascii_case s s = true.
Proof. by apply bool_decide_eq_true. Qed.

Lemma eq_ignore_ascii_case_sym a b : eq_ignore_ascii_case a b = eq_ignore_ascii_case b a.
Proof. unfold eq_ignore_ascii_case. by apply bool_decide_ext. Qed.

(** ** Printing and parsing decimals *)

Lemma digit_char_value d : (0 <= d < 10)%Z -> digit_value (digit_char d) = Some d.
Proof.
  intros H. unfold digit_value, digit_char, is_ascii_digit.
  rewrite byte_of_of_byte by lia.
  replace ((48 <=? d + 48) && (d + 48 <=? 57))%Z with true by lia.
  f_equal; lia.
Qed.

Lemma parse_digits_show max fuel n rest acc :
  (0 <= n)%Z -> (n < 2 ^ Z.of_nat fuel)%Z ->
  (0 <= acc)%Z -> fuel <> 0%nat ->
  exists k, (0 <= k)%Z /\ (n < 10 ^ k)%Z /\
  ((acc * 10 ^ k + n <= max)%Z ->
   parse_digits max acc (show_nat_digits fuel n rest)
   = parse_digits max (acc * 10 ^ k + n) rest).
Proof.
  revert n rest. induction fuel as [|fuel IH]; intros n rest Hn Hlt Hacc Hf; [done|].
  simpl. pose proof (Z.mod_pos_bound n 10 ltac:(lia)) as Hm.
  pose proof (Z.div_mod n 10 ltac:(lia)) as Hd.
  destruct (Z.eqb_spec (n / 10) 0) as [H0|H0].
  - exists 1%Z. split; [lia|]. split; [lia|]. intros Hle. simpl.
    rewrite digit_char_value by lia.
    replace (acc * 10 + n mod 10)%Z with (acc * 10 ^ 1 + n)%Z by lia.
    by rewrite (proj2 (Z.leb_le _ _) Hle).
  - rewrite Nat2Z.inj_succ, Z.pow_succ_r in Hlt by lia.
    assert (0 <= n / 10)%Z by (apply Z.div_pos; lia).
    destruct (IH (n / 10)%Z (digit_char (n mod 10) :: rest)) as (k & Hk & Hk' & HIH);
      [lia|lia|lia| |].
    { intros ->. simpl in Hlt. lia. }
    exists (k + 1)%Z. rewrite Z.pow_add_r by lia. split; [lia|]. split; [lia|].
    intros Hle. rewrite HIH by nia. simpl. rewrite digit_char_value by lia.
    replace ((acc * 10 ^ k + n / 10) * 10 + n mod 10)%Z
      with (acc * (10 ^ k * 10 ^ 1) + n)%Z by lia.
    by rewrite (proj2 (Z.leb_le _ _) Hle).
Qed.

Lemma show_Z_fuel n : (0 <= n)%Z -> (n < 2 ^ Z.of_nat (S (Z.to_nat (Z.log2 n))))%Z.
Proof.
  intros H. rewrite Nat2Z.inj_succ, Z2Nat.id by apply Z.log2_nonneg.
  destruct (Z.eq_dec n 0%Z) as [->|]; [done|]. apply Z.log2_spec. lia.
Qed.

Lemma parse_digits_show_Z max n :
  (0 <= n <= max)%Z -> parse_digits max 0 (show_Z n) = Some n.
Proof.
  intros H. unfold show_Z. rewrite (proj2 (Z.ltb_ge n 0%Z)) by lia.
  destruct (parse_digits_show max (S (Z.to_nat (Z.log2 n))) n [] 0) as (k & _ & _ & Hk);
    [lia|by apply show_Z_fuel; lia|lia|done|].
  rewrite Hk by lia. done.
Qed.

Lemma show_nat_digits_head fuel n rest :
  (0 <= n)%Z -> fuel <> 0%nat ->
  exists d t, show_nat_digits fuel n rest = digit_char d :: t /\ (0 <= d < 10)%Z.
Proof.
  revert n rest. induction fuel as [|fuel IH]; intros n rest Hn Hf; [done|]. simpl.
  pose proof (Z.mod_pos_bound n 10 ltac:(lia)).
  destruct (n / 10 =? 0)%Z eqn:H0; [by eauto|].
  destruct fuel as [|fuel]; [by simpl; eauto|].
  apply IH; [apply Z.div_pos; lia|done].
Qed.

Lemma show_nat_digits_chars fuel n rest c :
  (0 <= n)%Z ->
  c ∈ show_nat_digits fuel n rest -> is_ascii_digit c = true \/ c ∈ rest.
Proof.
  revert n rest. induction fuel as [|fuel IH]; intros n rest Hn; simpl; [by right|].
  pose proof (Z.mod_pos_bound n 10 ltac:(lia)).
  assert (is_ascii_digit (digit_char (n mod 10)) = true) as Hd.
  { unfold is_ascii_digit, digit_char. rewrite byte_of_of_byte by lia. lia. }
  destruct (n / 10 =? 0)%Z; [rewrite elem_of_cons; naive_solver|].
  intros [?|[->|?]%elem_of_cons]%IH; [by left|by left|by right|by apply Z.div_pos; lia].
Qed.

Lemma show_Z_digits n c : (0 <= n)%Z -> c ∈ show_Z n -> is_ascii_digit c = true.
Proof.
  intros Hn. unfold show_Z. rewrite (proj2 (Z.ltb_ge n 0%Z)) by lia.
  intros [?|?%elem_of_nil]%show_nat_digits_chars; done.
Qed.

Lemma show_Z_nonempty_digit n :
  (0 <= n)%Z -> exists d t, show_Z n = digit_char d :: t /\ (0 <= d < 10)%Z.
Proof.
  intros Hn. unfold show_Z. rewrite (proj2 (Z.ltb_ge n 0%Z)) by lia.
  by apply show_nat_digits_head.
Qed.

Lemma digit_char_not_sign d :
  (0 <= d < 10)%Z -> digit_char d <> "-"%char /\ digit_char d <> "+"%char.
Proof.
  intros H. split; intros Heq; apply (f_equal byte_of) in Heq;
    unfold digit_char in Heq; rewrite byte_of_of_byte in Heq by lia;
    change (byte_of "-") with 45%Z in *; change (byte_of "+") with 43%Z in *; lia.
Qed.

(** Printing then parsing a machine integer gives it back. *)
Lemma parse_unsigned_show max n :
  (0 <= n <= max)%Z -> parse_unsigned max (show_Z n) = Some n.
Proof.
  intros H. destruct (show_Z_nonempty_digit n) as (d & t & Hs & Hd); [lia|].
  pose proof (parse_digits_show_Z max n H) as Hp. rewrite Hs in *.
  unfold parse_unsigned. rewrite bool_decide_eq_false_2; [done|].
  by apply digit_char_not_sign.
Qed.

Lemma parse_i64_show n :
  (0 <= n <= i64_max)%Z -> parse_i64 (show_Z n) = Some n.
Proof.
  intros H. destruct (show_Z_nonempty_digit n) as (d & t & Hs & Hd); [lia|].
  pose proof (parse_digits_show_Z i64_max n H) as Hp. rewrite Hs in *.
  unfold parse_i64. rewrite !bool_decide_eq_false_2; [done|by apply digit_char_not_sign..].
Qed.

Lemma parse_digits_range max acc s n :
  (0 <= acc)%Z -> (acc <= max)%Z -> parse_digits max acc s = Some n -> (0 <= n <= max)%Z.
Proof.
  revert acc. induction s as [|c s IH]; intros acc H0 H1; simpl; [intros [= <-]; lia|].
  unfold digit_value, is_ascii_digit. pose proof (byte_of_range c).
  destruct ((48 <=? byte_of c) && (byte_of c <=? 57))%Z eqn:E; [|done]. bool_to_prop.
  destruct (_ <=? max)%Z eqn:E'; [|done]. bool_to_prop. apply IH; lia.
Qed.

Lemma parse_i64_range s n : parse_i64 s = Some n -> (i64_min <= n <= i64_max)%Z.
Proof.
  unfold parse_i64. destruct s as [|c s]; [done|]. intros E.
  assert (0 <= - i64_min)%Z by (unfold i64_min; lia). assert (0 <= i64_max)%Z by (unfold i64_max; lia).
  case_bool_decide; [|case_bool_decide].
  - destruct s as [|d s]; [done|]. destruct (parse_digits (- i64_min) 0 (d :: s)) as [m|] eqn:Ed; [|done].
    apply parse_digits_range in Ed; [|lia..]. injection E as <-. lia.
  - destruct s as [|d s]; [done|]. apply parse_digits_range in E; [|lia..]. unfold i64_min. lia.
  - apply parse_digits_range in E; [|lia..]. unfold i64_min. lia.
Qed.

Lemma parse_unsigned_range max s n :
  (0 <= max)%Z -> parse_unsigned max s = Some n -> (0 <= n <= max)%Z.
Proof.
  intros Hm. unfold parse_unsigned. destruct s as [|c s]; [done|].
  case_bool_decide; [destruct s as [|d s]; [done|]|]; apply parse_digits_range; lia.
Qed.

#[export] Hint Rewrite byte_of_of_byte using lia : tako.
#[export] Hint Resolve byte_of_range strip_prefix_app strip_suffix_app eq_ignore_ascii_case_refl : tako.

(** Trimming does not lengthen a string. *)
Lemma ws_strip_length s s' : ws_strip s = Some s' -> (length s' <= length s)%nat.
Proof. unfold ws_strip. intros H. repeat case_match; try done; injection H as <-; rewrite length_drop; lia. Qed.

Lemma ws_strip_rev_length s s' : ws_strip_rev s = Some s' -> (length s' <= length s)%nat.
Proof. unfold ws_strip_rev. intros H. repeat case_match; try done; injection H as <-; rewrite length_drop; lia. Qed.

Lemma strip_while_length step fuel s :
  (forall s s', step s = Some s' -> (length s' <= length s)%nat) -> (length (strip_while step fuel s) <= length s)%nat.
Proof.
  intros Hs. revert s. induction fuel as [|fuel IH]; intros s; simpl; [lia|].
  destruct (step s) as [s'|] eqn:E; [|lia]. specialize (IH s'). apply Hs in E. lia.
Qed.

Lemma trim_length s : (length (trim s) <= length s)%nat.
Proof.
  unfold trim, trim_end, trim_start. rewrite length_rev.
  pose proof (strip_while_length ws_strip (length s) s ws_strip_length) as H1.
  set (t := strip_while ws_strip (length s) s) in *.
  pose proof (strip_while_length ws_strip_rev (length t) (rev t) ws_strip_rev_length) as H2.
  rewrite length_rev in H2. lia.
Qed.
