(* ===== verification/Net.v ===== *)
(** * Bytes on the wire and IP addresses

    Big-endian integers, UTF-8 validity, and the IP address parser of the Rust
    standard library ([core::net::parser]), shared by the network components. *)

From S2P Require Import Prelude RustStr.

(** ** Big-endian integers ([from_be_bytes], [to_be_bytes]) *)

Definition from_be (l : str) : Z := fold_left (fun acc c => acc * 256 + byte_of c)%Z l 0%Z.

Fixpoint to_be (n : nat) (z : Z) : str :=
  match n with
  | O => []
  | S n' => to_be n' (z / 256) ++ [of_byte (z mod 256)]
  end.

Lemma length_to_be n z : length (to_be n z) = n.
Proof. revert z. induction n as [|n IH]; intros z; simpl; [done|]. rewrite length_app, IH. simpl. lia. Qed.

Lemma from_be_snoc l c : from_be (l ++ [c]) = (from_be l * 256 + byte_of c)%Z.
Proof. unfold from_be. by rewrite fold_left_app. Qed.

Lemma from_to_be n z : (0 <= z < 256 ^ Z.of_nat n)%Z -> from_be (to_be n z) = z.
Proof.
  revert z. induction n as [|n IH]; intros z Hz; simpl; [change (256 ^ Z.of_nat 0)%Z with 1%Z in Hz; cbn; lia|].
  rewrite Nat2Z.inj_succ, Z.pow_succ_r in Hz by lia.
  pose proof (Z.mod_pos_bound z 256). pose proof (Z.div_mod z 256).
  rewrite from_be_snoc, IH, byte_of_of_byte by (split; [apply Z.div_pos; lia|apply Z.div_lt_upper_bound; lia] || lia).
  lia.
Qed.

Lemma from_be_range l : (0 <= from_be l < 256 ^ Z.of_nat (length l))%Z.
Proof.
  induction l as [|c l IH] using rev_ind; [cbn; lia|]. rewrite from_be_snoc, length_app. simpl.
  rewrite Nat.add_1_r, Nat2Z.inj_succ, Z.pow_succ_r by lia. pose proof (byte_of_range c). lia.
Qed.

(** ** Bytes by position *)

Definition byte_at (l : str) (i : nat) : Z := default 0%Z (byte_of <$> l !! i).
Definition slice (s : str) (from n : nat) : str := take n (drop from s).

Lemma byte_at_app l r i : (i < length l)%nat -> byte_at (l ++ r) i = byte_at l i.
Proof. intros H. unfold byte_at. by rewrite lookup_app_l. Qed.

Lemma take_app_exact {A} n (a b : list A) : length a = n -> take n (a ++ b) = a.
Proof. intros <-. apply take_app_length. Qed.

Lemma drop_app_exact {A} n (a b : list A) : length a = n -> drop n (a ++ b) = b.
Proof. intros <-. apply drop_app_length. Qed.

Lemma slice_app s r a n : (a + n <= length s)%nat -> slice (s ++ r) a n = slice s a n.
Proof. intros H. unfold slice. rewrite drop_app_le, take_app_le by (rewrite ?length_drop; lia). done. Qed.

(** ** UTF-8 ([core::str::from_utf8]) *)

Definition between (lo hi : Z) (c : ascii) : bool := (lo <=? byte_of c)%Z && (byte_of c <=? hi)%Z.

(** The number of bytes of the first character, [None] if it is malformed. *)
Definition utf8_char (s : str) : option nat :=
  match s with
  | [] => None
  | a :: s1 =>
      if between 0 127 a then Some 1
      else match s1 with
      | [] => None
      | b :: s2 =>
          if between 194 223 a then if between 128 191 b then Some 2 else None
          else match s2 with
          | [] => None
          | c :: s3 =>
              if between 224 224 a then if between 160 191 b && between 128 191 c then Some 3 else None
              else if between 225 236 a || between 238 239 a
                   then if between 128 191 b && between 128 191 c then Some 3 else None
              else if between 237 237 a
                   then if between 128 159 b && between 128 191 c then Some 3 else None
              else match s3 with
              | [] => None
              | d :: _ =>
                  let tail := between 128 191 c && between 128 191 d in
                  if between 240 240 a then if between 144 191 b && tail then Some 4 else None
                  else if between 241 243 a then if between 128 191 b && tail then Some 4 else None
                  else if between 244 244 a then if between 128 143 b && tail then Some 4 else None
                  else None
              end
          end
      end
  end.

Fixpoint utf8_loop (fuel : nat) (s : str) : bool :=
  match s with
  | [] => true
  | _ =>
      match fuel with
      | O => false
      | S fuel' =>
          match utf8_char s with
          | Some n => utf8_loop fuel' (drop n s)
          | None => false
          end
      end
  end.

(** Every character has at least one byte. *)
Definition utf8_valid (s : str) : bool := utf8_loop (length s) s.

(** ** IP addresses *)

(** An IPv4 address is its four octets, an IPv6 address its eight groups. *)
Inductive IpAddr := V4 (octets : list Z) | V6 (groups : list Z).

#[global] Instance IpAddr_eq_dec : EqDecision IpAddr.
Proof. solve_decision. Defined.

#[global] Program Instance IpAddr_countable : Countable IpAddr :=
  inj_countable' (fun ip => match ip with V4 o => inl o | V6 g => inr g end)
    (fun x => match x with inl o => V4 o | inr g => V6 g end) _.
Next Obligation. by intros []. Qed.

(** [char::to_digit]. *)
Definition to_digit (radix : Z) (c : ascii) : option Z :=
  let b := byte_of c in
  let d := if (48 <=? b)%Z && (b <=? 57)%Z then (b - 48)%Z
           else if (97 <=? b)%Z && (b <=? 122)%Z then (b - 87)%Z
           else if (65 <=? b)%Z && (b <=? 90)%Z then (b - 55)%Z else 255%Z in
  if (d <? radix)%Z then Some d else None.

(** The loop of [read_number]: digits read so far, value, rest of the input; [None]
    when the value overflows [max] or there are more than [max_digits] digits. *)
Fixpoint read_digits (radix max max_digits : Z) (count acc : Z) (s : str) : option (Z * Z * str) :=
  match s with
  | [] => Some (count, acc, s)
  | c :: s' =>
      match to_digit radix c with
      | None => Some (count, acc, s)
      | Some d =>
          let acc' := (acc * radix + d)%Z in
          if (max <? acc')%Z || (max_digits <? count + 1)%Z then None
          else read_digits radix max max_digits (count + 1) acc' s'
      end
  end.

Definition read_number (radix max max_digits : Z) (allow_zero_prefix : bool) (s : str)
    : option (Z * str) :=
  match read_digits radix max max_digits 0 0 s with
  | Some (count, v, rest) =>
      if (count =? 0)%Z then None
      else if negb allow_zero_prefix && bool_decide (s !! 0 = Some "0"%char) && (1 <? count)%Z then None
      else Some (v, rest)
  | None => None
  end.

(** [read_separator]: the separator is expected before every element but the first. *)
Definition read_separator {A} (sep : ascii) (index : nat) (inner : str -> option (A * str)) (s : str)
    : option (A * str) :=
  match index, s with
  | O, _ => inner s
  | S _, c :: s' => if bool_decide (c = sep) then inner s' else None
  | S _, [] => None
  end.

Fixpoint read_octets (n index : nat) (s : str) : option (list Z * str) :=
  match n with
  | O => Some ([], s)
  | S n' =>
      match read_separator "."%char index (read_number 10 255 3 false) s with
      | None => None
      | Some (o, s') =>
          match read_octets n' (S index) s' with
          | None => None
          | Some (os, rest) => Some (o :: os, rest)
          end
      end
  end.

Definition read_ipv4 (s : str) : option (list Z * str) := read_octets 4 0 s.

(** [read_groups]: up to [limit] groups; the groups read, whether they ended in an
    embedded IPv4 address, and the rest. *)
Fixpoint read_groups (left index limit : nat) (s : str) : list Z * bool * str :=
  match left with
  | O => ([], false, s)
  | S left' =>
      let v4 := if (index <? limit - 1)%nat then read_separator ":"%char index read_ipv4 s else None in
      match v4 with
      | Some ([a; b; c; d], rest) => ([a * 256 + b; c * 256 + d]%Z, true, rest)
      | _ =>
          match read_separator ":"%char index (read_number 16 65535 4 true) s with
          | Some (g, s') =>
              let '(gs, is4, rest) := read_groups left' (S index) limit s' in (g :: gs, is4, rest)
          | None => ([], false, s)
          end
      end
  end.

Definition read_ipv6 (s : str) : option (list Z * str) :=
  let '(head, head4, rest) := read_groups 8 0 8 s in
  if (length head =? 8)%nat then Some (head, rest)
  else if head4 then None
  else match rest with
       | ":"%char :: ":"%char :: rest' =>
           let limit := (8 - (length head + 1))%nat in
           let '(tail, _, rest'') := read_groups limit 0 limit rest' in
           Some (head ++ replicate (8 - length head - length tail) 0%Z ++ tail, rest'')
       | _ => None
       end.

(** [str::parse::<IpAddr>]. *)
Definition parse_ip (s : str) : option IpAddr :=
  match (match read_ipv4 s with
         | Some (o, rest) => Some (V4 o, rest)
         | None => match read_ipv6 s with Some (g, rest) => Some (V6 g, rest) | None => None end
         end) with
  | Some (ip, []) => Some ip
  | _ => None
  end.

(** [Ipv4Addr]'s [Display]. *)
Definition show_octets (o : list Z) : str :=
  match o with
  | [a; b; c; d] => show_Z a ++ "."%char :: show_Z b ++ "."%char :: show_Z c ++ "."%char :: show_Z d
  | _ => []
  end.

Example parse_ip_v4 : parse_ip (bs "203.0.113.9") = Some (V4 [203; 0; 113; 9]%Z).
Proof. vm_compute. reflexivity. Qed.
Example parse_ip_octal : parse_ip (bs "203.01.113.9") = None.
Proof. vm_compute. reflexivity. Qed.
Example parse_ip_v6 : parse_ip (bs "2001:db8::1") = Some (V6 [8193; 3512; 0; 0; 0; 0; 0; 1]%Z).
Proof. vm_compute. reflexivity. Qed.
Example parse_ip_mapped : parse_ip (bs "::ffff:1.2.3.4") = Some (V6 [0; 0; 0; 0; 0; 65535; 258; 772]%Z).
Proof. vm_compute. reflexivity. Qed.
