(* ===== verification/Codec.v ===== *)
(** * Codecs and digests of other crates

    The program encodes with serde_json, base64 (URL-safe alphabet, no padding), and
    digests with SHA-256 and HMAC-SHA-256.  Each crate is a class of functions, a
    parameter of the definitions that use it, and what the program relies on is a class
    of laws.  [hex_base64] and [demo_sha256] show that the laws can hold. *)

From S2P Require Import Prelude RustStr Net.

(** ** JSON (serde_json) *)
Class JsonApi := {
  Json : Type;
  Json_eq_dec :: EqDecision Json;
  Json_null : Json;
  Json_empty_object : Json;
  (** [serde_json::to_string], [serde_json::from_str]. *)
  json_to_string : Json -> option str;
  json_from_str : str -> option Json;
}.

(** A document reads back from the text it was written to. *)
Class JsonLaws (J : JsonApi) := {
  json_read_back v t : json_to_string v = Some t -> json_from_str t = Some v;
}.

(** ** base64 ([URL_SAFE_NO_PAD]) *)
Class Base64Api := {
  b64_encode : str -> str;
  b64_decode : str -> option str;
}.

(** The alphabet: letters, digits, [-] and [_]. *)
Definition is_ascii_alphanumeric (c : ascii) : bool :=
  let b := byte_of c in
  is_ascii_digit c || ((65 <=? b) && (b <=? 90))%Z || ((97 <=? b) && (b <=? 122))%Z.

Definition url_safe (c : ascii) : bool :=
  is_ascii_alphanumeric c || bool_decide (c = "-"%char) || bool_decide (c = "_"%char).

Class Base64Laws (B : Base64Api) := {
  b64_decode_encode s : b64_decode (b64_encode s) = Some s;
  b64_alphabet s c : c ∈ b64_encode s -> url_safe c = true;
  b64_encode_nil s : b64_encode s = [] -> s = [];
}.

(** ** Digests *)
Class Sha256Api := { sha256 : str -> str }.
Class Sha256Laws (H : Sha256Api) := { sha256_length s : length (sha256 s) = 32 }.

(** [Hmac::<Sha256>]: key and message. *)
Class HmacApi := { hmac_sha256 : str -> str -> str }.

Lemma b64_encode_inj {B : Base64Api} {L : Base64Laws B} a b : b64_encode a = b64_encode b -> a = b.
Proof. intros E. pose proof (b64_decode_encode a) as Ha. rewrite E, b64_decode_encode in Ha. congruence. Qed.

(** No separator of the program's formats is in the alphabet. *)
Lemma b64_no_sep {B : Base64Api} {L : Base64Laws B} s c : url_safe c = false -> c ∉ b64_encode s.
Proof. intros Hc Hin. apply b64_alphabet in Hin. congruence. Qed.

(** ** Instances *)

(** Two letters of [a]..[p] per byte. *)
Definition nibble (z : Z) : ascii := of_byte (97 + z).
Definition unnibble (c : ascii) : option Z :=
  let v := (byte_of c - 97)%Z in if ((0 <=? v) && (v <=? 15))%Z then Some v else None.

Definition hex_encode (s : str) : str :=
  concat ((fun c => [nibble (byte_of c / 16); nibble (byte_of c mod 16)]) <$> s).

Fixpoint hex_decode (s : str) : option str :=
  match s with
  | [] => Some []
  | a :: b :: s' =>
      match unnibble a, unnibble b, hex_decode s' with
      | Some x, Some y, Some r => Some (of_byte (x * 16 + y) :: r)
      | _, _, _ => None
      end
  | [_] => None
  end.

Lemma unnibble_nibble z : (0 <= z <= 15)%Z -> unnibble (nibble z) = Some z.
Proof.
  intros H. unfold unnibble, nibble. rewrite byte_of_of_byte by lia.
  replace (97 + z - 97)%Z with z by lia. by replace ((0 <=? z) && (z <=? 15))%Z with true by lia.
Qed.

Lemma nibble_range c : (0 <= byte_of c / 16 <= 15 /\ 0 <= byte_of c mod 16 <= 15)%Z.
Proof.
  pose proof (byte_of_range c). pose proof (Z.mod_pos_bound (byte_of c) 16).
  pose proof (Z.div_mod (byte_of c) 16). lia.
Qed.

Definition hex_base64 : Base64Api := {| b64_encode := hex_encode; b64_decode := hex_decode |}.

Lemma hex_base64_laws : Base64Laws hex_base64.
Proof.
  split; simpl.
  - induction s as [|c s IH]; [done|]. pose proof (nibble_range c) as [H1 H2].
    change (hex_encode (c :: s)) with (nibble (byte_of c / 16) :: nibble (byte_of c mod 16) :: hex_encode s).
    cbn [hex_decode]. rewrite !unnibble_nibble, IH by done.
    do 2 f_equal. rewrite <- (of_byte_byte_of c) at 3. f_equal. pose proof (Z.div_mod (byte_of c) 16). lia.
  - induction s as [|d s IH]; [intros c; by intros ?%elem_of_nil|]. intros c.
    change (hex_encode (d :: s)) with (nibble (byte_of d / 16) :: nibble (byte_of d mod 16) :: hex_encode s).
    pose proof (nibble_range d) as [H1 H2]. rewrite !elem_of_cons.
    assert (Hn : forall z, (0 <= z <= 15)%Z -> url_safe (nibble z) = true).
    { intros z Hz. unfold url_safe, is_ascii_alphanumeric, nibble. rewrite byte_of_of_byte by lia.
      replace ((97 <=? 97 + z) && (97 + z <=? 122))%Z with true by lia. by rewrite !orb_true_r. }
    intros [->|[->|Hc]]; auto.
  - by intros [|c s].
Qed.

(** The first 32 bytes, padded. *)
Definition demo_sha256 : Sha256Api := {| sha256 s := take 32 (s ++ replicate 32 "0"%char) |}.

Lemma demo_sha256_laws : Sha256Laws demo_sha256.
Proof. split. intros s. cbn [sha256 demo_sha256]. rewrite length_take, length_app, length_replicate. lia. Qed.

(** Documents that are their own text. *)
Definition text_json : JsonApi := {|
  Json := str; Json_null := bs "null"; Json_empty_object := bs "{}";
  json_to_string := Some; json_from_str := Some |}.

Lemma text_json_laws : JsonLaws text_json.
Proof. split. by intros v t [= ->]. Qed.
