(* ===== verification/Routing.v ===== *)
(** * Request routing (tako-server/src/routing.rs)

    A [RouteTable] maps apps to route patterns [host\[/path\]] and keeps them
    compiled, most specific first.  A request is answered by the first compiled
    entry that matches its host and path.  The reference implementation
    [select_app_for_request] of the source scans the uncompiled entries for the
    best match; the two are proved equal. *)

From S2P Require Import Prelude RustStr.

(** ** Data *)

Inductive SourceIpMode := Auto | Direct | CloudflareProxy | TrustedProxy.

#[global] Instance SourceIpMode_eq_dec : EqDecision SourceIpMode.
Proof. solve_decision. Defined.

Record RouteEntry := mkRouteEntry {
  re_app : str;
  re_pattern : str;
  re_source_ip : SourceIpMode;
}.

(** [(host score, path length, exact-path bonus)]. *)
Definition specificity : Type := nat * nat * nat.

Record CompiledRouteEntry := mkCompiledRouteEntry {
  ce_app : str;
  ce_host : str;
  ce_path : option str;
  ce_source_ip : SourceIpMode;
  ce_specificity : specificity;
}.

Record SelectedRoute := mkSelectedRoute {
  sr_app : str;
  sr_path : option str;
  sr_source_ip : SourceIpMode;
}.

Record RouteTable := mkRouteTable {
  app_routes : gmap str (list str);
  app_source_ip : gmap str SourceIpMode;
  compiled : list CompiledRouteEntry;
}.

Definition RouteTable_default : RouteTable := mkRouteTable ∅ ∅ [].

(** ** Matching *)

Definition split_route (route : str) : str * option str :=
  match find_char "/" route with
  | Some idx => (take idx route, Some (drop idx route))
  | None => (route, None)
  end.

Definition hostname_matches (pattern hostname : str) : bool :=
  match strip_prefix (bs "*.") pattern with
  | Some suffix =>
      if eq_ignore_ascii_case hostname suffix then false
      else
        (length suffix <? length hostname)%nat
        && bool_decide (hostname !! (length hostname - length suffix - 1)%nat = Some "."%char)
        && eq_ignore_ascii_case (drop (length hostname - length suffix) hostname) suffix
  | None => eq_ignore_ascii_case pattern hostname
  end.

Definition normalize_exact_path (path : str) : str :=
  if str_eqb path (bs "/") then bs "/"
  else
    let trimmed := trim_end_matches "/" path in
    match trimmed with [] => bs "/" | _ => trimmed end.

Definition path_matches (pattern path : str) : bool :=
  match strip_suffix (bs "/*") pattern with
  | Some prefix =>
      starts_with path prefix
      && ((length path =? length prefix)%nat
          || starts_with (drop (length prefix) path) (bs "/"))
  | None =>
      if ends_with pattern (bs "*")
      then starts_with path (take (length pattern - 1) pattern)
      else str_eqb (normalize_exact_path pattern) (normalize_exact_path path)
  end.

Definition route_specificity (pattern : str) : specificity :=
  match pattern with
  | [] => (0, 0, 0)
  | _ =>
      let '(pattern_host, pattern_path) := split_route pattern in
      let host_score := if starts_with pattern_host (bs "*.") then 1 else 2 in
      let '(path_len, exact_bonus) :=
        match pattern_path with
        | None => (0, 0)
        | Some p =>
            match strip_suffix (bs "/*") p with
            | Some prefix => (length prefix, 0)
            | None =>
                if ends_with p (bs "*")
                then (length (take (length p - 1) p), 0)
                else (length (normalize_exact_path p), 1)
            end
        end in
      (host_score, path_len, exact_bonus)
  end.

(** Lexicographic order of the [(u8, usize, u8)] tuples. *)
Definition spec_ltb (a b : specificity) : bool :=
  let '(a1, a2, a3) := a in
  let '(b1, b2, b3) := b in
  (a1 <? b1)%nat
  || (a1 =? b1)%nat && ((a2 <? b2)%nat || (a2 =? b2)%nat && (a3 <? b3)%nat).

(** The order of [sort_by_key(|e| Reverse(e.specificity))]: [x] may precede [y]
    unless it is strictly less specific. *)
Definition more_specific_leb (x y : CompiledRouteEntry) : bool :=
  negb (spec_ltb (ce_specificity x) (ce_specificity y)).

Definition compile_entry (entry : RouteEntry) : CompiledRouteEntry :=
  let '(pattern_host, pattern_path) := split_route (re_pattern entry) in
  mkCompiledRouteEntry (re_app entry) pattern_host pattern_path
    (re_source_ip entry) (route_specificity (re_pattern entry)).

Fixpoint compile_list (routes : list RouteEntry) : list CompiledRouteEntry :=
  match routes with
  | [] => []
  | entry :: routes' =>
      if str_eqb (re_pattern entry) [] then compile_list routes'
      else compile_entry entry :: compile_list routes'
  end.

Definition compile_routes (routes : list RouteEntry) : list CompiledRouteEntry :=
  sort_by more_specific_leb (compile_list routes).

Fixpoint select_route_for_request_compiled
    (routes : list CompiledRouteEntry) (host path : str) : option SelectedRoute :=
  match routes with
  | [] => None
  | entry :: routes' =>
      if negb (hostname_matches (ce_host entry) host)
      then select_route_for_request_compiled routes' host path
      else if match ce_path entry with
              | Some p => negb (path_matches p path)
              | None => false
              end
      then select_route_for_request_compiled routes' host path
      else Some (mkSelectedRoute (ce_app entry) (ce_path entry) (ce_source_ip entry))
  end.

(** ** The reference implementation *)

Definition route_matches (pattern host path : str) : bool :=
  match pattern with
  | [] => false
  | _ =>
      let '(pattern_host, pattern_path) := split_route pattern in
      if negb (hostname_matches pattern_host host) then false
      else match pattern_path with
           | None => true
           | Some p => path_matches p path
           end
  end.

Definition select_step (host path : str) (found : option (RouteEntry * specificity))
    (entry : RouteEntry) : option (RouteEntry * specificity) :=
  if negb (route_matches (re_pattern entry) host path) then found
  else
    let spec := route_specificity (re_pattern entry) in
    match found with
    | None => Some (entry, spec)
    | Some (_, best_spec) => if spec_ltb best_spec spec then Some (entry, spec) else found
    end.

Definition select_app_for_request (routes : list RouteEntry) (host path : str) : option str :=
  (fun b => re_app b.1) <$> fold_left (select_step host path) routes None.

(** ** The route table *)
Section Table.
Context {iter : HashIter str (list str)}.

Definition route_entries (t : RouteTable) : list RouteEntry :=
  flat_map (fun '(app, patterns) =>
    let source_ip := default Auto (app_source_ip t !! app) in
    flat_map (fun pattern =>
      if str_eqb pattern [] then [] else [mkRouteEntry app pattern source_ip]) patterns)
    (hash_iter (app_routes t)).

Definition rebuild (t : RouteTable) : RouteTable :=
  mkRouteTable (app_routes t) (app_source_ip t) (compile_routes (route_entries t)).

Definition set_app_routes_with_source_ip (t : RouteTable) (app : str) (routes : list str)
    (source_ip : SourceIpMode) : RouteTable :=
  rebuild (mkRouteTable (<[app := routes]> (app_routes t))
                        (<[app := source_ip]> (app_source_ip t)) (compiled t)).

Definition set_app_routes (t : RouteTable) (app : str) (routes : list str) : RouteTable :=
  set_app_routes_with_source_ip t app routes Auto.

Definition remove_app_routes (t : RouteTable) (app : str) : RouteTable :=
  rebuild (mkRouteTable (delete app (app_routes t)) (delete app (app_source_ip t)) (compiled t)).

Definition routes_for_app (t : RouteTable) (app : str) : list str :=
  default [] (app_routes t !! app).

Definition needs_cloudflare_ip_ranges (t : RouteTable) : bool :=
  any (fun entry => match ce_source_ip entry with
                    | Auto | CloudflareProxy => true
                    | _ => false
                    end) (compiled t).

Definition app_for_route_domain (t : RouteTable) (domain : str) : option str :=
  fst <$> find_first (fun '(_, routes) =>
            any (fun route => eq_ignore_ascii_case (split_route route).1 domain) routes)
          (hash_iter (app_routes t)).

Definition select_with_route (t : RouteTable) (host path : str) : option SelectedRoute :=
  select_route_for_request_compiled (compiled t) host path.

Definition select (t : RouteTable) (host path : str) : option str :=
  sr_app <$> select_with_route t host path.
End Table.

(** ** The specificity order *)

Lemma more_specific_total x y :
  more_specific_leb x y = true \/ more_specific_leb y x = true.
Proof.
  unfold more_specific_leb, spec_ltb.
  destruct (ce_specificity x) as [[??]?], (ce_specificity y) as [[??]?]. lia.
Qed.

Lemma more_specific_trans x y z :
  more_specific_leb x y = true -> more_specific_leb y z = true -> more_specific_leb x z = true.
Proof.
  unfold more_specific_leb.
  destruct (ce_specificity x) as [[??]?], (ce_specificity y) as [[??]?],
    (ce_specificity z) as [[??]?]. simpl. lia.
Qed.

Lemma spec_ltb_trans a b c :
  spec_ltb a b = true -> spec_ltb b c = true -> spec_ltb a c = true.
Proof. destruct a as [[??]?], b as [[??]?], c as [[??]?]. simpl. lia. Qed.

Lemma spec_ltb_neg_trans a b c :
  spec_ltb a b = false -> spec_ltb b c = false -> spec_ltb a c = false.
Proof. destruct a as [[??]?], b as [[??]?], c as [[??]?]. simpl. lia. Qed.

#[local] Hint Resolve more_specific_total more_specific_trans : tako.

(** ** Compiled selection as a search *)

Definition entry_matches (host path : str) (e : CompiledRouteEntry) : bool :=
  hostname_matches (ce_host e) host
  && match ce_path e with Some p => path_matches p path | None => true end.

Definition to_selected (e : CompiledRouteEntry) : SelectedRoute :=
  mkSelectedRoute (ce_app e) (ce_path e) (ce_source_ip e).

Lemma select_compiled_find l host path :
  select_route_for_request_compiled l host path =
  to_selected <$> find_first (entry_matches host path) l.
Proof.
  induction l as [|e l IH]; simpl; [done|]. unfold entry_matches at 1.
  destruct (hostname_matches _ _); simpl; [|exact IH].
  unfold to_selected at 1. destruct (ce_path e) as [p|] eqn:Ep;
    [destruct (path_matches p path); [|exact IH]|]; simpl; by rewrite Ep.
Qed.

Lemma compile_entry_matches host path e :
  re_pattern e <> [] ->
  entry_matches host path (compile_entry e) = route_matches (re_pattern e) host path.
Proof.
  unfold entry_matches, compile_entry, route_matches.
  destruct (re_pattern e) as [|c p] eqn:Hp; [done|]. intros _.
  destruct (split_route (c :: p)) as [h q]; simpl.
  by destruct (hostname_matches h host).
Qed.

Lemma compile_entry_specificity e :
  ce_specificity (compile_entry e) = route_specificity (re_pattern e).
Proof. unfold compile_entry. by destruct (split_route _). Qed.

Lemma compile_entry_app e : ce_app (compile_entry e) = re_app e.
Proof. unfold compile_entry. by destruct (split_route _). Qed.

Definition entry_leb (x y : RouteEntry) : bool :=
  negb (spec_ltb (route_specificity (re_pattern x)) (route_specificity (re_pattern y))).

Lemma best_compile_list host path rs :
  best more_specific_leb (entry_matches host path) (compile_list rs) =
  compile_entry <$> best entry_leb (fun e => route_matches (re_pattern e) host path) rs.
Proof.
  induction rs as [|e rs IH]; simpl; [done|].
  unfold str_eqb. case_bool_decide as Hp; simpl; [by rewrite Hp, IH|].
  rewrite compile_entry_matches by done.
  destruct (route_matches _ _ _); [|done]. rewrite IH.
  destruct (best entry_leb _ rs) as [y|]; simpl; [|done].
  unfold more_specific_leb, entry_leb. rewrite !compile_entry_specificity.
  by destruct (spec_ltb _ _).
Qed.

Lemma select_fold_best host path rs acc :
  fold_left (select_step host path) rs acc =
  match acc, best entry_leb (fun e => route_matches (re_pattern e) host path) rs with
  | None, b => (fun e => (e, route_specificity (re_pattern e))) <$> b
  | Some _, None => acc
  | Some (x, sx), Some y =>
      if spec_ltb sx (route_specificity (re_pattern y))
      then Some (y, route_specificity (re_pattern y)) else acc
  end.
Proof.
  revert acc. induction rs as [|e rs IH]; intros acc; simpl.
  - by destruct acc as [[]|].
  - rewrite IH. unfold select_step.
    destruct (route_matches _ host path); simpl; [|done].
    destruct (best entry_leb _ rs) as [y|] eqn:Hb;
      destruct acc as [[x sx]|]; simpl; unfold entry_leb; try done.
    + destruct (spec_ltb (route_specificity (re_pattern e)) (route_specificity (re_pattern y))) eqn:E2,
        (spec_ltb sx (route_specificity (re_pattern e))) eqn:E1; simpl;
        rewrite ?E1, ?E2; [|done..|].
      * by rewrite (spec_ltb_trans _ _ _ E1 E2).
      * by rewrite (spec_ltb_neg_trans _ _ _ E1 E2).
    + destruct (spec_ltb (route_specificity (re_pattern e)) (route_specificity (re_pattern y))) eqn:E;
        simpl; by rewrite ?E.
    + by destruct (spec_ltb sx _).
Qed.

(** The compiled selector, on the sorted entries, chooses the same app as the
    reference implementation's scan for the most specific match. *)
Lemma compiled_selection_equals_reference rs host path :
  sr_app <$> select_route_for_request_compiled (compile_routes rs) host path
  = select_app_for_request rs host path.
Proof.
  unfold select_app_for_request, compile_routes.
  rewrite select_compiled_find, find_sort_by by eauto with tako.
  rewrite best_compile_list, select_fold_best. simpl.
  destruct (best entry_leb _ rs) as [e|]; simpl; [|done].
  by rewrite compile_entry_app.
Qed.

(** ** The table invariant *)
Section TableLemmas.
Context {iter : HashIter str (list str)}.

Definition table_ok (t : RouteTable) : Prop := compiled t = compile_routes (route_entries t).

Inductive table_reachable : RouteTable -> Prop :=
| reach_default : table_reachable RouteTable_default
| reach_set t app routes mode :
    table_reachable t -> table_reachable (set_app_routes_with_source_ip t app routes mode)
| reach_remove t app :
    table_reachable t -> table_reachable (remove_app_routes t app).

Lemma hash_iter_empty : hash_iter (∅ : gmap str (list str)) = [].
Proof.
  apply Permutation_nil. rewrite hash_iter_perm. by rewrite map_to_list_empty.
Qed.

Lemma elem_of_hash_iter (m : gmap str (list str)) k v :
  (k, v) ∈ hash_iter m <-> m !! k = Some v.
Proof. by rewrite hash_iter_perm, elem_of_map_to_list. Qed.

Lemma table_reachable_ok t : table_reachable t -> table_ok t.
Proof.
  destruct 1; [|done..]. unfold table_ok, route_entries. simpl. by rewrite hash_iter_empty.
Qed.

(** A pattern of the table, with the app and mode it belongs to. *)
Definition has_route (t : RouteTable) (app pattern : str) : Prop :=
  exists routes, app_routes t !! app = Some routes /\ pattern ∈ routes.

Lemma elem_of_route_entries t e :
  e ∈ route_entries t <->
  has_route t (re_app e) (re_pattern e) /\ re_pattern e <> []
  /\ re_source_ip e = default Auto (app_source_ip t !! re_app e).
Proof.
  unfold route_entries, has_route. rewrite list_elem_of_In, in_flat_map. split.
  - intros ([app pats] & Hin & (pat & Hpat & He)%in_flat_map).
    apply list_elem_of_In, elem_of_hash_iter in Hin. apply list_elem_of_In in Hpat.
    unfold str_eqb in He. case_bool_decide; simpl in He; [done|].
    destruct He as [<-|[]]. simpl. eauto.
  - intros ((routes & Hr & Hp) & Hne & Hmode). exists (re_app e, routes). split.
    { by apply list_elem_of_In, elem_of_hash_iter. }
    apply in_flat_map. exists (re_pattern e). split; [by apply list_elem_of_In|].
    unfold str_eqb. rewrite bool_decide_eq_false_2 by done. left.
    rewrite <- Hmode. by destruct e.
Qed.

Lemma elem_of_compile_list rs c :
  c ∈ compile_list rs <-> exists e, e ∈ rs /\ re_pattern e <> [] /\ c = compile_entry e.
Proof.
  induction rs as [|e rs IH]; simpl; [set_solver|].
  unfold str_eqb. case_bool_decide; rewrite ?elem_of_cons, IH; set_solver.
Qed.

Lemma elem_of_compiled t c :
  table_ok t ->
  c ∈ compiled t <->
  exists e, e ∈ route_entries t /\ c = compile_entry e.
Proof.
  intros ->. unfold compile_routes. rewrite sort_by_perm, elem_of_compile_list.
  split; [naive_solver|]. intros (e & He & ->). exists e. repeat split; try done.
  by apply elem_of_route_entries in He as (? & ? & ?).
Qed.

(** On every table built from the empty one by setting and removing routes,
    a selected route belongs to an app registered with a pattern that matches
    the request, no pattern of any app that matches is more specific, and the
    client-IP mode is the app's. *)
Lemma selected_route_is_best_match t host path r :
  table_reachable t ->
  select_with_route t host path = Some r ->
  exists pattern,
    has_route t (sr_app r) pattern /\ route_matches pattern host path = true /\
    sr_path r = (split_route pattern).2 /\
    sr_source_ip r = default Auto (app_source_ip t !! sr_app r) /\
    forall app' pattern',
      has_route t app' pattern' -> route_matches pattern' host path = true ->
      spec_ltb (route_specificity pattern) (route_specificity pattern') = false.
Proof.
  intros Hr%table_reachable_ok. unfold select_with_route.
  rewrite select_compiled_find, Hr. unfold compile_routes.
  rewrite find_sort_by by eauto with tako.
  destruct (best _ _ _) as [c|] eqn:Hb; simpl; [|done]. intros [= <-].
  apply best_Some in Hb as (Hm & Hin & Hbest); [|by eauto with tako..].
  apply elem_of_compile_list in Hin as (e & He & Hne & ->).
  pose proof He as He'. apply elem_of_route_entries in He' as (Hhas & _ & Hmode).
  rewrite compile_entry_matches in Hm by done.
  exists (re_pattern e). simpl. rewrite compile_entry_app.
  assert ((ce_path (compile_entry e), ce_source_ip (compile_entry e))
          = ((split_route (re_pattern e)).2, re_source_ip e)) as [= -> ->].
  { unfold compile_entry. by destruct (split_route _). }
  repeat split; try done. intros app' pat' Hh' Hm'.
  set (e' := mkRouteEntry app' pat' (default Auto (app_source_ip t !! app'))).
  assert (pat' <> []) as Hne' by (intros ->; done).
  assert (more_specific_leb (compile_entry e) (compile_entry e') = true) as H.
  { apply Hbest; [|by rewrite compile_entry_matches].
    apply elem_of_compile_list. exists e'. split; [|done].
    by apply elem_of_route_entries. }
  unfold more_specific_leb in H. rewrite !compile_entry_specificity in H.
  by apply negb_true_iff in H.
Qed.

(** A request is left unrouted exactly when no registered pattern matches it. *)
Lemma unrouted_iff_no_match t host path :
  table_reachable t ->
  select t host path = None <->
  forall app pattern, has_route t app pattern -> route_matches pattern host path = false.
Proof.
  intros Hr%table_reachable_ok. unfold select, select_with_route.
  rewrite select_compiled_find, !fmap_None, find_first_None. split.
  - intros H app pat Hh. destruct pat as [|a p] eqn:Hp; [done|]. rewrite <- Hp in *.
    set (e := mkRouteEntry app pat (default Auto (app_source_ip t !! app))).
    change pat with (re_pattern e). rewrite <- compile_entry_matches by (simpl; congruence).
    apply H. apply elem_of_compiled; [done|]. exists e. split; [|done].
    apply elem_of_route_entries. simpl. split; [done|]. split; [congruence|done].
  - intros H c Hc. apply elem_of_compiled in Hc as (e & He & ->); [|done].
    apply elem_of_route_entries in He as (Hh & Hne & _).
    rewrite compile_entry_matches by done. by eapply H.
Qed.

(** After an app is removed no request is routed to it. *)
Lemma removed_app_is_not_selected t app host path :
  select (remove_app_routes t app) host path <> Some app.
Proof.
  unfold select, select_with_route. rewrite select_compiled_find. intros H.
  destruct (find_first _ _) as [c|] eqn:Hf; [|done]. simpl in H.
  apply find_first_Some in Hf as [_ Hc].
  apply elem_of_compiled in Hc as (e & He & ->); [|done].
  apply elem_of_route_entries in He as ((routes & Hr & _) & _).
  rewrite compile_entry_app in H. simplify_eq. simpl in Hr.
  by rewrite lookup_delete_eq in Hr.
Qed.

(** C1: on every table built from the empty one by setting and removing routes, selection
    in the compiled, sorted table is what the reference scan of the route entries selects,
    and it is the most specific match: a request is left unrouted exactly when no registered
    pattern matches it; a selected route belongs to an app registered with a pattern that
    matches, no matching pattern of any app is more specific, and the client-IP mode is the
    app's.  An app whose routes are removed is not selected. *)
Theorem selection_is_best_match t host path :
  table_reachable t ->
  select t host path = select_app_for_request (route_entries t) host path
  /\ (select_with_route t host path = None <->
     forall app pattern, has_route t app pattern -> route_matches pattern host path = false)
  /\ (forall r, select_with_route t host path = Some r ->
        exists pattern,
          has_route t (sr_app r) pattern /\ route_matches pattern host path = true /\
          sr_path r = (split_route pattern).2 /\
          sr_source_ip r = default Auto (app_source_ip t !! sr_app r) /\
          forall app' pattern',
            has_route t app' pattern' -> route_matches pattern' host path = true ->
            spec_ltb (route_specificity pattern) (route_specificity pattern') = false)
  /\ (forall app, select (remove_app_routes t app) host path <> Some app).
Proof.
  intros Hr. split_and!; [|
    |intros r; by apply selected_route_is_best_match|intros app; apply removed_app_is_not_selected].
  - unfold select, select_with_route. rewrite (table_reachable_ok t Hr). apply compiled_selection_equals_reference.
  - rewrite <- unrouted_iff_no_match by done. unfold select. by rewrite fmap_None.
Qed.
End TableLemmas.

(** ** What host and path patterns match *)

(** The pattern [*.suffix] matches exactly the hosts made of a label, a dot
    and a case-insensitive copy of [suffix]; in particular not [suffix] itself. *)
Lemma wildcard_host_spec suffix hostname :
  hostname_matches (bs "*." ++ suffix) hostname = true <->
  exists label domain,
    hostname = label ++ "."%char :: domain /\ eq_ignore_ascii_case domain suffix = true.
Proof.
  unfold hostname_matches. rewrite strip_prefix_app. split.
  - destruct (eq_ignore_ascii_case hostname suffix) eqn:E; [done|]. intros H. bool_to_prop.
    set (k := (length hostname - length suffix)%nat) in *.
    exists (take (k - 1) hostname), (drop k hostname). split; [|done].
    rewrite <- (take_drop (k - 1) hostname) at 1. f_equal.
    erewrite drop_S by done. f_equal. f_equal. lia.
  - intros (label & domain & -> & Heq).
    pose proof (eq_ignore_ascii_case_length _ _ Heq) as Hlen.
    destruct (eq_ignore_ascii_case (label ++ _) suffix) eqn:E.
    { apply eq_ignore_ascii_case_length in E. rewrite length_app in E. simpl in E. lia. }
    rewrite length_app. simpl.
    replace (length label + S (length domain) - length suffix)%nat
      with (S (length label)) by lia.
    replace (S (length label) - 1)%nat with (length label) by lia.
    rewrite drop_app_ge by lia. replace (S _ - _)%nat with 1%nat by lia. simpl. rewrite drop_0.
    rewrite Heq, bool_decide_eq_true_2 by (by rewrite lookup_app_r, Nat.sub_diag).
    rewrite !andb_true_r. apply Nat.ltb_lt. lia.
Qed.

(** The path pattern [prefix/*] matches [prefix] itself and everything below
    [prefix/], and nothing that merely shares the prefix. *)
Lemma subtree_path_spec prefix path :
  path_matches (prefix ++ bs "/*") path = true <->
  path = prefix \/ exists rest, path = prefix ++ "/"%char :: rest.
Proof.
  unfold path_matches. rewrite strip_suffix_app, andb_true_iff, orb_true_iff,
    !starts_with_iff, Nat.eqb_eq. split.
  - intros [[r ->] [H|[q H]]]; rewrite ?length_app in H.
    + left. destruct r; simpl in *; [by rewrite app_nil_r|lia].
    + rewrite drop_app_length in H. subst. right. by exists q.
  - intros [->|[rest ->]].
    + split; [exists []; by rewrite app_nil_r|by left].
    + split; [by eauto|]. right. rewrite drop_app_length. by exists rest.
Qed.

(** What patterns match: a host pattern [*.suffix] exactly the hosts made of a label, a
    dot and a case-insensitive copy of [suffix], so not [suffix] itself; a path pattern
    [prefix/*] exactly [prefix] and everything below [prefix/], and nothing that merely
    shares the prefix. *)
Lemma wildcard_patterns_spec :
  (forall suffix hostname, hostname_matches (bs "*." ++ suffix) hostname = true <->
     exists label domain,
       hostname = label ++ "."%char :: domain /\ eq_ignore_ascii_case domain suffix = true)
  /\ (forall prefix path, path_matches (prefix ++ bs "/*") path = true <->
     path = prefix \/ exists rest, path = prefix ++ "/"%char :: rest).
Proof. split; [apply wildcard_host_spec|apply subtree_path_spec]. Qed.

(** ** Witnesses *)

Definition demo_table : RouteTable :=
  set_app_routes
    (set_app_routes RouteTable_default (bs "shop") [bs "*.example.com"; bs "api.example.com/v1/*"])
    (bs "blog") [bs "api.example.com"].

Lemma demo_table_reachable : table_reachable demo_table.
Proof. repeat constructor. Qed.

Lemma selection_is_best_match_witness :
  (exists pattern,
    has_route demo_table (bs "shop") pattern /\
    route_matches pattern (bs "API.example.com") (bs "/v1/users") = true /\
    (Some (bs "/v1/*") = (split_route pattern).2))
  /\ (forall app pattern, has_route demo_table app pattern ->
       route_matches pattern (bs "other.org") (bs "/") = false).
Proof.
  split.
  - destruct (proj1 (proj2 (proj2 (selection_is_best_match demo_table (bs "API.example.com") (bs "/v1/users") demo_table_reachable)))
      (mkSelectedRoute (bs "shop") (Some (bs "/v1/*")) Auto)) as (p & H1 & H2 & H3 & _); [vm_compute; reflexivity|].
    exists p. auto.
  - apply (selection_is_best_match demo_table (bs "other.org") (bs "/") demo_table_reachable). vm_compute. reflexivity.
Defined.
