(* ===== verification/Sql.v ===== *)
(** * SQL tables

    The SQLite stores of the program issue a small set of SQL statements.  A
    table is the list of its rows in rowid order and a statement is a function on
    that list: the new table and the number of rows affected.  [ORDER BY k] is
    the stable sort on [k], so ties are resolved in rowid order. *)

From S2P Require Import Prelude.

Section Statements.
Context {R : Type}.
Implicit Types (p : R -> bool) (t : list R).

(** [SELECT ... FROM t WHERE p]. *)
Definition sql_select p t : list R := retain p t.

(** [SELECT COUNT( * ) FROM t WHERE p]. *)
Definition sql_count p t : nat := length (sql_select p t).

(** [UPDATE t SET f WHERE p]: the new table; the rows affected are [sql_count p t]. *)
Definition sql_update p (f : R -> R) t : list R := (fun r => if p r then f r else r) <$> t.

(** [DELETE FROM t WHERE p]. *)
Definition sql_delete p t : list R := retain (fun r => negb (p r)) t.

(** [INSERT OR IGNORE] and [INSERT ... ON CONFLICT DO NOTHING]: [clash] is the
    unique-key conflict with the new row. *)
Definition sql_insert_or_ignore (clash : R -> bool) (r : R) t : list R :=
  if any clash t then t else t ++ [r].

(** [INSERT OR REPLACE]: conflicting rows are deleted, the row gets a new rowid. *)
Definition sql_insert_or_replace (clash : R -> bool) (r : R) t : list R :=
  sql_delete clash t ++ [r].

(** [INSERT ... ON CONFLICT DO UPDATE SET f]. *)
Definition sql_upsert (clash : R -> bool) (r : R) (f : R -> R) t : list R :=
  if any clash t then sql_update clash f t else t ++ [r].

(** [SELECT ... WHERE p ORDER BY k LIMIT 1] and [LIMIT n]. *)
Definition order_leb (k : R -> Z) (x y : R) : bool := (k x <=? k y)%Z.
Definition sql_first_by (k : R -> Z) p t : option R := best (order_leb k) p t.
Definition sql_select_by (k : R -> Z) (n : nat) p t : list R :=
  take n (sort_by (order_leb k) (sql_select p t)).
End Statements.

(** ** Lemmas *)
Section StatementLemmas.
Context {R : Type}.
Implicit Types (p : R -> bool) (t : list R).

Lemma order_leb_total (k : R -> Z) x y : order_leb k x y = true \/ order_leb k y x = true.
Proof. unfold order_leb. lia. Qed.

Lemma order_leb_trans (k : R -> Z) x y z :
  order_leb k x y = true -> order_leb k y z = true -> order_leb k x z = true.
Proof. unfold order_leb. lia. Qed.

Lemma sql_first_by_Some (k : R -> Z) p t r :
  sql_first_by k p t = Some r ->
  p r = true /\ r ∈ t /\ forall r', r' ∈ t -> p r' = true -> (k r <= k r')%Z.
Proof.
  intros H. apply best_Some in H as (Hp & Hin & Hb);
    [|apply order_leb_total|apply order_leb_trans].
  split; [done|]. split; [done|]. intros r' Hr' Hp'.
  specialize (Hb _ Hr' Hp'). unfold order_leb in Hb. lia.
Qed.

Lemma sql_first_by_None (k : R -> Z) p t :
  sql_first_by k p t = None <-> forall r, r ∈ t -> p r = false.
Proof. apply best_None; [apply order_leb_total|apply order_leb_trans]. Qed.

Lemma elem_of_sql_update p f t r' :
  r' ∈ sql_update p f t <-> exists r, r ∈ t /\ r' = (if p r then f r else r).
Proof. unfold sql_update. rewrite list_elem_of_fmap. naive_solver. Qed.

Lemma elem_of_sql_delete p t r : r ∈ sql_delete p t <-> p r = false /\ r ∈ t.
Proof. unfold sql_delete. rewrite elem_of_retain, negb_true_iff. done. Qed.

Lemma elem_of_sql_select p t r : r ∈ sql_select p t <-> p r = true /\ r ∈ t.
Proof. apply elem_of_retain. Qed.

Lemma any_true p t : any p t = true <-> exists r, r ∈ t /\ p r = true.
Proof. unfold any. rewrite existsb_exists. by setoid_rewrite list_elem_of_In. Qed.

Lemma any_false p t : any p t = false <-> forall r, r ∈ t -> p r = false.
Proof.
  rewrite <- not_true_iff_false, any_true. split.
  - intros H r Hr. apply not_true_iff_false. eauto.
  - intros H (r & Hr & Hp). rewrite H in Hp; done.
Qed.

Lemma elem_of_insert_or_ignore clash (r r' : R) t :
  r' ∈ sql_insert_or_ignore clash r t <-> r' ∈ t \/ (any clash t = false /\ r' = r).
Proof. unfold sql_insert_or_ignore. destruct (any clash t); set_solver. Qed.

Lemma elem_of_insert_or_replace clash (r r' : R) t :
  r' ∈ sql_insert_or_replace clash r t <-> (r' ∈ t /\ clash r' = false) \/ r' = r.
Proof.
  unfold sql_insert_or_replace. rewrite elem_of_app, elem_of_sql_delete, list_elem_of_singleton.
  naive_solver.
Qed.

Lemma sql_count_0 p t : sql_count p t = 0 <-> forall r, r ∈ t -> p r = false.
Proof.
  unfold sql_count. rewrite length_zero_iff_nil. split.
  - intros H r Hr. apply not_true_iff_false. intros Hp.
    assert (r ∈ sql_select p t) as Hin by (by apply elem_of_sql_select).
    rewrite H in Hin. by apply elem_of_nil in Hin.
  - intros H. destruct (sql_select p t) as [|r l] eqn:E; [done|].
    assert (r ∈ sql_select p t) as [Hp Hin]%elem_of_sql_select by (rewrite E; left).
    rewrite H in Hp; done.
Qed.

Lemma sql_count_pos p t : (0 < sql_count p t)%nat <-> exists r, r ∈ t /\ p r = true.
Proof.
  rewrite <- any_true. destruct (any p t) eqn:E.
  - split; [done|]. intros _. apply any_true in E as (r & Hr & Hp).
    destruct (sql_count p t) eqn:E; [|lia].
    rewrite (proj1 (sql_count_0 p t) E r Hr) in Hp. done.
  - rewrite any_false, <- sql_count_0 in E. rewrite E. split; [lia|done].
Qed.

Lemma sql_update_none p f t : (forall r, r ∈ t -> p r = false) -> sql_update p f t = t.
Proof.
  unfold sql_update. intros H. rewrite <- (list_fmap_id t) at 2.
  apply list_fmap_ext. intros i r Hr. rewrite H; [done|]. by eapply list_elem_of_lookup_2.
Qed.

Lemma sql_delete_none p t : (forall r, r ∈ t -> p r = false) -> sql_delete p t = t.
Proof.
  unfold sql_delete. induction t as [|r t IH]; intros H; simpl; [done|].
  rewrite H by left. simpl. rewrite IH; [done|]. intros; apply H; by right.
Qed.

(** Keys: updates that keep the key keep the key column; deletes keep a
    sub-sequence; an insert of a fresh key keeps keys unique. *)
Lemma sql_update_keys {K} (key : R -> K) p f t :
  (forall r, key (f r) = key r) -> key <$> sql_update p f t = key <$> t.
Proof.
  intros H. unfold sql_update. rewrite <- list_fmap_compose. apply list_fmap_ext.
  intros i r _. simpl. destruct (p r); [apply H|done].
Qed.

Lemma sql_delete_sublist {K} (key : R -> K) p t :
  key <$> sql_delete p t `sublist_of` key <$> t.
Proof.
  unfold sql_delete. induction t as [|r t IH]; simpl; [constructor|].
  destruct (p r); simpl; [by constructor|by constructor].
Qed.

Lemma sql_delete_NoDup {K} (key : R -> K) p t :
  NoDup (key <$> t) -> NoDup (key <$> sql_delete p t).
Proof. intros H. eapply sublist_NoDup; [done|apply sql_delete_sublist]. Qed.

Lemma NoDup_app_singleton {K} (l : list K) x : NoDup l -> x ∉ l -> NoDup (l ++ [x]).
Proof.
  intros Hl Hx. apply NoDup_app. split; [done|]. split; [set_solver|].
  apply NoDup_singleton.
Qed.

Lemma insert_or_ignore_NoDup {K} (key : R -> K) clash r t :
  (forall r', r' ∈ t -> key r' = key r -> clash r' = true) ->
  NoDup (key <$> t) -> NoDup (key <$> sql_insert_or_ignore clash r t).
Proof.
  intros Hc Hn. unfold sql_insert_or_ignore. destruct (any clash t) eqn:E; [done|].
  rewrite fmap_app. apply NoDup_app_singleton; [done|].
  intros (r' & Hk & Hin)%list_elem_of_fmap. rewrite any_false in E.
  specialize (Hc r' Hin (eq_sym Hk)). by rewrite (E r' Hin) in Hc.
Qed.

Lemma insert_or_replace_NoDup {K} (key : R -> K) clash r t :
  (forall r', r' ∈ t -> key r' = key r -> clash r' = true) ->
  NoDup (key <$> t) -> NoDup (key <$> sql_insert_or_replace clash r t).
Proof.
  intros Hc Hn. unfold sql_insert_or_replace. rewrite fmap_app.
  apply NoDup_app_singleton; [by apply sql_delete_NoDup|].
  intros (r' & Hk & (Hf & Hin)%elem_of_sql_delete)%list_elem_of_fmap.
  by rewrite (Hc r' Hin (eq_sym Hk)) in Hf.
Qed.

Lemma NoDup_key_eq {K} (key : R -> K) t (r r' : R) :
  NoDup (key <$> t) -> r ∈ t -> r' ∈ t -> key r = key r' -> r = r'.
Proof.
  intros Hn [i Hi]%list_elem_of_lookup [j Hj]%list_elem_of_lookup Hk.
  assert (i = j) as ->; [|congruence].
  eapply NoDup_lookup; [exact Hn| |]; rewrite list_lookup_fmap.
  - by rewrite Hi.
  - rewrite Hj. simpl. by rewrite Hk.
Qed.

Lemma elem_of_sql_select_by (k : R -> Z) n p t r :
  r ∈ sql_select_by k n p t -> p r = true /\ r ∈ t.
Proof.
  unfold sql_select_by. intros H. apply elem_of_sql_select.
  rewrite <- (sort_by_perm (order_leb k) (sql_select p t)).
  eapply elem_of_submseteq; [done|]. apply sublist_submseteq, sublist_take.
Qed.

Lemma length_sql_select_by (k : R -> Z) n p t : (length (sql_select_by k n p t) <= n)%nat.
Proof. unfold sql_select_by. rewrite length_take. lia. Qed.

(** The rows an ordered selection leaves out come after those it takes, and there are
    none when the limit was not reached. *)
Lemma sql_select_by_split (k : R -> Z) n p t :
  exists rest, sql_select_by k n p t ++ rest ≡ₚ sql_select p t
    /\ (forall x y, x ∈ sql_select_by k n p t -> y ∈ rest -> (k x <= k y)%Z)
    /\ ((length (sql_select_by k n p t) < n)%nat -> rest = []).
Proof.
  unfold sql_select_by. set (l := sort_by (order_leb k) (sql_select p t)). exists (drop n l).
  split_and!; [rewrite take_drop; apply sort_by_perm| |].
  - intros x y Hx Hy. pose proof (sort_by_sorted (order_leb k) (order_leb_total k) (order_leb_trans k)
      (sql_select p t)) as Hs. fold l in Hs. rewrite <- (take_drop n l) in Hs.
    pose proof (StronglySorted_app_1_elem_of _ _ _ _ _ Hs Hx Hy) as H. unfold order_leb in H. lia.
  - rewrite length_take. intros H. apply drop_ge. lia.
Qed.

(** A lookup through an update that keeps the looked-up column. *)
Lemma find_first_sql_update q p f t :
  (forall r, q (f r) = q r) ->
  find_first q (sql_update p f t) = (fun r => if p r then f r else r) <$> find_first q t.
Proof.
  intros Hq. unfold sql_update. induction t as [|r t IH]; simpl; [done|].
  assert (q (if p r then f r else r) = q r) as -> by (destruct (p r); [apply Hq|done]).
  by destruct (q r).
Qed.
End StatementLemmas.
