(* ===== verification/RunsDb.v ===== *)
(** * The workflow run store (tako-workflows/src/enqueue.rs, enqueue/sqlite.rs, schema.rs)

    Runs, memoized steps, parked event waiters and cron schedules are four SQL
    tables.  Every operation is one SQLite statement or one transaction on them,
    and is modelled as the new database together with its [Result].  Wall-clock
    reads ([now_ms]) and generated ids ([nanoid]) are arguments.  JSON documents
    and their text form belong to serde_json and are the class [JsonApi] of [Codec]. *)

From S2P Require Import Prelude RustStr Codec Sql.

(** ** Tables (schema.rs) *)

Inductive RunStatus := pending | running | succeeded | cancelled | dead.

#[global] Instance RunStatus_eq_dec : EqDecision RunStatus.
Proof. solve_decision. Defined.

Definition status_is (s : RunStatus) (s' : RunStatus) : bool := bool_decide (s' = s).

(** [status IN ('succeeded', 'cancelled', 'dead')]. *)
Definition terminal (s : RunStatus) : bool :=
  match s with succeeded | cancelled | dead => true | pending | running => false end.

Record Run := mkRun {
  run_id : str;
  run_name : str;
  run_payload : str;
  run_status : RunStatus;
  run_attempts : Z;
  run_max_attempts : Z;
  run_at : Z;
  run_lease_until : option Z;
  run_worker_id : option str;
  run_last_error : option str;
  run_created_at : Z;
  run_finished_at : option Z;
}.

Record Step := mkStep {
  step_run_id : str;
  step_name : str;
  step_result : str;
  step_completed_at : Z;
}.

Record Waiter := mkWaiter {
  waiter_run_id : str;
  waiter_step_name : str;
  waiter_event_name : str;
  waiter_expires_at : option Z;
}.

Record ScheduleRow := mkScheduleRow {
  schedule_name : str;
  schedule_cron : str;
  schedule_last_run_at : option Z;
}.

Record Db := mkDb {
  runs : list Run;
  steps : list Step;
  schedules : list ScheduleRow;
  event_waiters : list Waiter;
}.

Definition Db_empty : Db := mkDb [] [] [] [].

Definition set_runs (db : Db) (t : list Run) : Db :=
  mkDb t (steps db) (schedules db) (event_waiters db).
Definition set_steps (db : Db) (t : list Step) : Db :=
  mkDb (runs db) t (schedules db) (event_waiters db).
Definition set_schedules (db : Db) (t : list ScheduleRow) : Db :=
  mkDb (runs db) (steps db) t (event_waiters db).
Definition set_waiters (db : Db) (t : list Waiter) : Db :=
  mkDb (runs db) (steps db) (schedules db) t.

(** ** Errors and messages *)

Inductive RunsDbError :=
| Sqlite (message : str)
| JsonError
| Storage (message : str)
| IdConflict (id : str)
| InvalidId
| StaleWorker.

Record EnqueueOpts := mkEnqueueOpts {
  opt_run_at_ms : option Z;
  opt_max_attempts : option Z;
  opt_id : option str;
}.

Record EnqueueRunResponse := mkEnqueueRunResponse {
  resp_id : str;
  resp_deduplicated : bool;
}.

Record ScheduleSpec := mkScheduleSpec {
  spec_name : str;
  spec_cron : str;
}.

Record RunPayload `{JsonApi} := mkRunPayload {
  rp_id : str;
  rp_worker_id : str;
  rp_name : str;
  rp_payload : Json;
  rp_status : RunStatus;
  rp_attempts : Z;
  rp_max_attempts : Z;
  rp_run_at_ms : Z;
  rp_step_state : gmap str Json;
}.

Definition DEFAULT_MAX_ATTEMPTS : Z := 3.
Definition MAX_LEASE_MS : Z := 7 * 24 * 60 * 60 * 1000.

Definition clamp_lease_ms (lease_ms : Z) : Z := Z.min lease_ms MAX_LEASE_MS.

Section Store.
Context `{J : JsonApi}.

(** ** Enqueue *)

Definition check_existing_run (id name : str) (payload : Json)
    (existing_name existing_payload : str) : result unit RunsDbError :=
  if negb (str_eqb existing_name name) then Err (IdConflict id)
  else match json_from_str existing_payload with
       | None => Err JsonError
       | Some existing =>
           if negb (bool_decide (existing = payload)) then Err (IdConflict id) else Ok tt
       end.

Definition id_is (id : str) (r : Run) : bool := str_eqb (run_id r) id.

Definition sqlite_enqueue (now : Z) (nanoid : str) (db : Db) (name : str) (payload : Json)
    (opts : EnqueueOpts) : Db * result EnqueueRunResponse RunsDbError :=
  let run_at := default now (opt_run_at_ms opts) in
  let max_attempts := default DEFAULT_MAX_ATTEMPTS (opt_max_attempts opts) in
  match json_to_string payload with
  | None => (db, Err JsonError)
  | Some payload_json =>
      let id := default nanoid (opt_id opts) in
      let row := mkRun id name payload_json pending 0 max_attempts run_at None None None now None in
      if any (id_is id) (runs db) then
        match find_first (id_is id) (runs db) with
        | None => (db, Err (Sqlite (bs "Query returned no rows")))
        | Some existing =>
            match check_existing_run id name payload (run_name existing) (run_payload existing) with
            | Err e => (db, Err e)
            | Ok tt => (db, Ok (mkEnqueueRunResponse id true))
            end
        end
      else (set_runs db (sql_insert_or_ignore (id_is id) row (runs db)),
            Ok (mkEnqueueRunResponse id false))
  end.

(** [RunsDb::enqueue]: caller-supplied ids have 1 to 255 bytes and no NUL. *)
Definition valid_run_id (id : str) : bool :=
  negb (str_eqb id [] || (255 <? length id)%nat || contains_char id (of_byte 0)).

Definition enqueue (now : Z) (nanoid : str) (db : Db) (name : str) (payload : Json)
    (opts : EnqueueOpts) : Db * result EnqueueRunResponse RunsDbError :=
  match opt_id opts with
  | Some id =>
      if valid_run_id id then sqlite_enqueue now nanoid db name payload opts
      else (db, Err InvalidId)
  | None => sqlite_enqueue now nanoid db name payload opts
  end.

(** ** Claim *)

Definition claimable (now : Z) (names : list str) (r : Run) : bool :=
  status_is pending (run_status r) && (run_at r <=? now)%Z
  && any (str_eqb (run_name r)) names.

Definition set_claimed (worker_id : str) (lease_until : Z) (r : Run) : Run :=
  mkRun (run_id r) (run_name r) (run_payload r) running (run_attempts r + 1)
    (run_max_attempts r) (run_at r) (Some lease_until) (Some worker_id)
    (run_last_error r) (run_created_at r) (run_finished_at r).

Definition waiter_expired (now : Z) (id : str) (w : Waiter) : bool :=
  str_eqb (waiter_run_id w) id
  && match waiter_expires_at w with Some e => (e <=? now)%Z | None => false end.

Definition same_step (run_id name : str) (s : Step) : bool :=
  str_eqb (step_run_id s) run_id && str_eqb (step_name s) name.

(** [INSERT OR IGNORE INTO steps SELECT ... FROM event_waiters WHERE expired]. *)
Definition materialize_expired (now : Z) (id : str) (db : Db) : list Step :=
  fold_left (fun t w =>
      sql_insert_or_ignore (same_step (waiter_run_id w) (waiter_step_name w))
        (mkStep (waiter_run_id w) (waiter_step_name w) (bs "null") now) t)
    (sql_select (waiter_expired now id) (event_waiters db)) (steps db).

Definition step_state (id : str) (t : list Step) : gmap str Json :=
  fold_left (fun m s => <[step_name s := default Json_null (json_from_str (step_result s))]> m)
    (sql_select (fun s => str_eqb (step_run_id s) id) t) ∅.

Definition claim (now : Z) (db : Db) (worker_id : str) (names : list str) (lease_ms : Z)
    : Db * result (option RunPayload) RunsDbError :=
  match names with
  | [] => (db, Ok None)
  | _ =>
      let lease_until := i64_saturating_add now (clamp_lease_ms lease_ms) in
      match sql_first_by run_at (claimable now names) (runs db) with
      | None => (db, Ok None)
      | Some picked =>
          let id := run_id picked in
          let claimed := set_claimed worker_id lease_until picked in
          let runs' := sql_update (id_is id) (set_claimed worker_id lease_until) (runs db) in
          let steps' := materialize_expired now id db in
          let waiters' := sql_delete (waiter_expired now id) (event_waiters db) in
          (mkDb runs' steps' (schedules db) waiters',
           Ok (Some (mkRunPayload _ id worker_id (run_name claimed)
                 (default Json_null (json_from_str (run_payload claimed)))
                 (run_status claimed) (as_u32 (run_attempts claimed))
                 (as_u32 (run_max_attempts claimed)) (RunsDb.run_at claimed)
                 (step_state id steps'))))
      end
  end.

(** ** Lifecycle writes, guarded by [id = ? AND worker_id = ? AND status='running'] *)

Definition owned (id worker_id : str) (r : Run) : bool :=
  id_is id r && bool_decide (run_worker_id r = Some worker_id) && status_is running (run_status r).

(** The shared tail of the lifecycle writes: zero rows means a stale worker. *)
Definition update_owned (db : Db) (id worker_id : str) (f : Run -> Run)
    : Db * result unit RunsDbError :=
  let rows := sql_count (owned id worker_id) (runs db) in
  (set_runs db (sql_update (owned id worker_id) f (runs db)),
   if (rows =? 0)%nat then Err StaleWorker else Ok tt).

Definition set_lease (lease_until : Z) (r : Run) : Run :=
  mkRun (run_id r) (run_name r) (run_payload r) (run_status r) (run_attempts r)
    (run_max_attempts r) (run_at r) (Some lease_until) (run_worker_id r)
    (run_last_error r) (run_created_at r) (run_finished_at r).

Definition heartbeat (now : Z) (db : Db) (id worker_id : str) (lease_ms : Z)
    : Db * result unit RunsDbError :=
  update_owned db id worker_id
    (set_lease (i64_saturating_add now (clamp_lease_ms lease_ms))).

Definition save_step (now : Z) (db : Db) (run_id worker_id step_name : str) (value : Json)
    : Db * result unit RunsDbError :=
  match json_to_string value with
  | None => (db, Err JsonError)
  | Some r =>
      let sources := sql_select (owned run_id worker_id) (runs db) in
      let steps' := fold_left (fun t _ =>
          sql_insert_or_ignore (same_step run_id step_name) (mkStep run_id step_name r now) t)
          sources (steps db) in
      let db' := set_steps db steps' in
      if (length steps' - length (steps db) =? 0)%nat then
        match find_first (fun r => id_is run_id r && status_is running (run_status r)) (runs db) with
        | Some row =>
            if bool_decide (run_worker_id row = Some worker_id) then (db', Ok tt)
            else (db', Err StaleWorker)
        | None => (db', Err StaleWorker)
        end
      else (db', Ok tt)
  end.

(** [status=s, worker_id=NULL, lease_until=NULL, finished_at=now], keeping or
    replacing [last_error]. *)
Definition set_finished (s : RunStatus) (now : Z) (last_error : option str) (r : Run) : Run :=
  mkRun (run_id r) (run_name r) (run_payload r) s (run_attempts r)
    (run_max_attempts r) (run_at r) None None last_error (run_created_at r) (Some now).

Definition complete (now : Z) (db : Db) (id worker_id : str) : Db * result unit RunsDbError :=
  update_owned db id worker_id (fun r => set_finished succeeded now (run_last_error r) r).

Definition cancel (now : Z) (db : Db) (id worker_id : str) (reason : option str)
    : Db * result unit RunsDbError :=
  update_owned db id worker_id (set_finished cancelled now reason).

(** [status='pending', worker_id=NULL, lease_until=NULL, run_at=?]. *)
Definition set_retry (error : str) (next : Z) (r : Run) : Run :=
  mkRun (run_id r) (run_name r) (run_payload r) pending (run_attempts r)
    (run_max_attempts r) next None None (Some error) (run_created_at r) (run_finished_at r).

Definition fail (now : Z) (db : Db) (id worker_id error : str) (next_run_at_ms : option Z)
    (finalize : bool) : Db * result unit RunsDbError :=
  if finalize then update_owned db id worker_id (set_finished dead now (Some error))
  else match next_run_at_ms with
       | None => (db, Err (Storage (bs "fail(finalize=false) requires next_run_at_ms")))
       | Some next => update_owned db id worker_id (set_retry error next)
       end.

Definition set_deferred (run_at : Z) (r : Run) : Run :=
  mkRun (run_id r) (run_name r) (run_payload r) pending (run_attempts r - 1)
    (run_max_attempts r) run_at None None (run_last_error r) (run_created_at r)
    (run_finished_at r).

Definition defer (db : Db) (id worker_id : str) (wake_at_ms : option Z)
    : Db * result unit RunsDbError :=
  update_owned db id worker_id (set_deferred (default i64_max wake_at_ms)).

(** ** Retention *)

Definition prunable (cutoff_ms : Z) (r : Run) : bool :=
  terminal (run_status r)
  && match run_finished_at r with Some f => (f <=? cutoff_ms)%Z | None => false end.

(** The [ORDER BY finished_at] key of a prunable row. *)
Definition finished_key (r : Run) : Z := default 0%Z (run_finished_at r).

(** [DELETE FROM runs WHERE id IN (...)], with [ON DELETE CASCADE]. *)
Definition delete_runs (ids : list str) (db : Db) : Db :=
  let gone id := any (str_eqb id) ids in
  mkDb (sql_delete (fun r => gone (run_id r)) (runs db))
       (sql_delete (fun s => gone (step_run_id s)) (steps db))
       (schedules db)
       (sql_delete (fun w => gone (waiter_run_id w)) (event_waiters db)).

Definition prune_finished_before (db : Db) (cutoff_ms : Z) (limit : nat)
    : Db * result nat RunsDbError :=
  let ids := run_id <$> sql_select_by finished_key limit (prunable cutoff_ms) (runs db) in
  (delete_runs ids db, Ok (sql_count (fun r => any (str_eqb (run_id r)) ids) (runs db))).

(** ** Expired leases *)

Definition lease_expired (now : Z) (r : Run) : bool :=
  status_is running (run_status r)
  && match run_lease_until r with Some l => (l <? now)%Z | None => false end.

Definition set_reclaimed (r : Run) : Run :=
  mkRun (run_id r) (run_name r) (run_payload r) pending (run_attempts r)
    (run_max_attempts r) (run_at r) None None (run_last_error r) (run_created_at r)
    (run_finished_at r).

Definition reclaim_expired (now : Z) (db : Db) : Db * result nat RunsDbError :=
  (set_runs db (sql_update (lease_expired now) set_reclaimed (runs db)),
   Ok (sql_count (lease_expired now) (runs db))).

Definition reclaim_expired_with_workers (now : Z) (db : Db)
    : Db * result (list str) RunsDbError :=
  let workers := omap run_worker_id (sql_select (lease_expired now) (runs db)) in
  (set_runs db (sql_update (lease_expired now) set_reclaimed (runs db)), Ok workers).

(** [SELECT worker_id, COUNT( * ) ... GROUP BY worker_id] of the running rows. *)
Definition running_owner (r : Run) : option str :=
  if status_is running (run_status r) then run_worker_id r else None.

Definition in_flight_by_worker (db : Db) : gmap str Z :=
  as_u32 <$>
  fold_left (fun (m : gmap str Z) w => <[w := (default 0 (m !! w) + 1)%Z]> m)
    (omap running_owner (runs db)) ∅.

(** ** Events *)

Definition same_waiter (run_id step_name : str) (w : Waiter) : bool :=
  str_eqb (waiter_run_id w) run_id && str_eqb (waiter_step_name w) step_name.

Definition wait_for_event (db : Db) (run_id worker_id step_name event_name : str)
    (timeout_at_ms : option Z) : Db * result unit RunsDbError :=
  let '(db1, r) := update_owned db run_id worker_id
                     (set_deferred (default i64_max timeout_at_ms)) in
  match r with
  | Err e => (db, Err e)
  | Ok tt =>
      (set_waiters db1 (sql_insert_or_replace (same_waiter run_id step_name)
                          (mkWaiter run_id step_name event_name timeout_at_ms)
                          (event_waiters db1)), Ok tt)
  end.

Definition set_woken (now : Z) (r : Run) : Run :=
  mkRun (run_id r) (run_name r) (run_payload r) pending (run_attempts r)
    (run_max_attempts r) now (run_lease_until r) (run_worker_id r) (run_last_error r)
    (run_created_at r) (run_finished_at r).

(** One waiter of the loop of [signal].  The step insert is refused by the foreign
    key when the run does not exist. *)
Definition signal_one (now : Z) (payload_json : str) (db : Db) (run_id step_name : str)
    : option Db :=
  if any (id_is run_id) (runs db) then
    Some (mkDb
      (sql_update (fun r => id_is run_id r && status_is pending (run_status r)) (set_woken now)
         (runs db))
      (sql_insert_or_ignore (same_step run_id step_name)
         (mkStep run_id step_name payload_json now) (steps db))
      (schedules db)
      (sql_delete (same_waiter run_id step_name) (event_waiters db)))
  else None.

Fixpoint signal_loop (now : Z) (payload_json : str) (waiters : list Waiter) (db : Db) (woken : nat)
    : option (Db * nat) :=
  match waiters with
  | [] => Some (db, woken)
  | w :: ws =>
      match signal_one now payload_json db (waiter_run_id w) (waiter_step_name w) with
      | Some db' => signal_loop now payload_json ws db' (S woken)
      | None => None
      end
  end.

Definition signal (now : Z) (db : Db) (event_name : str) (payload : Json)
    : Db * result nat RunsDbError :=
  match json_to_string payload with
  | None => (db, Err JsonError)
  | Some payload_json =>
      let waiters := sql_select (fun w => str_eqb (waiter_event_name w) event_name)
                       (event_waiters db) in
      match signal_loop now payload_json waiters db 0 with
      | Some (db', woken) => (db', Ok woken)
      | None => (db, Err (Sqlite (bs "FOREIGN KEY constraint failed")))
      end
  end.

(** ** Queries *)

Definition pending_count (db : Db) : nat :=
  sql_count (fun r => status_is pending (run_status r)) (runs db).

Definition has_runnable_work (now : Z) (db : Db) : bool :=
  any (fun r => status_is pending (run_status r) && (run_at r <=? now)%Z) (runs db).

(** ** Schedules *)

Definition schedule_is (name : str) (s : ScheduleRow) : bool := str_eqb (schedule_name s) name.

Definition replace_schedules (now : Z) (db : Db) (specs : list ScheduleSpec)
    : Db * result unit RunsDbError :=
  let kept :=
    match specs with
    | [] => []
    | _ => sql_delete (fun s => negb (any (fun p => schedule_is (spec_name p) s) specs))
             (schedules db)
    end in
  let t := fold_left (fun t p =>
      sql_upsert (schedule_is (spec_name p))
        (mkScheduleRow (spec_name p) (spec_cron p) (Some now))
        (fun s => mkScheduleRow (schedule_name s) (spec_cron p) (schedule_last_run_at s)) t)
      specs kept in
  (set_schedules db t, Ok tt).

Definition list_schedules (db : Db) : list ScheduleRow := schedules db.

Definition set_schedule_last_run_at (db : Db) (name : str) (ts : Z) : Db :=
  set_schedules db (sql_update (schedule_is name)
    (fun s => mkScheduleRow (schedule_name s) (schedule_cron s) (Some ts)) (schedules db)).
End Store.
