(* ===== verification/RunsInv.v ===== *)
(** * The workflow store: well-formedness of every reachable database

    [db_wf] collects the key, foreign-key and column invariants of the four
    tables; [db_reachable] is reachability by any sequence of store operations.
    Every reachable database is well formed. *)

From S2P Require Import Prelude RustStr Codec Sql RunsDb.

(** ** Column invariants of a run row *)
Record run_wf (r : Run) : Prop := {
  wf_running : run_status r = running ->
    is_Some (run_worker_id r) /\ is_Some (run_lease_until r) /\ (1 <= run_attempts r)%Z;
  wf_idle : run_status r <> running -> run_worker_id r = None /\ run_lease_until r = None;
  wf_finished : terminal (run_status r) = true <-> is_Some (run_finished_at r);
  wf_attempts : (0 <= run_attempts r)%Z;
}.

Definition step_key (s : Step) : str * str := (step_run_id s, step_name s).

(** A parked run is pending and wakes at the waiter's deadline. *)
Definition parked (db : Db) (w : Waiter) : Prop :=
  exists r, r ∈ runs db /\ run_id r = waiter_run_id w /\ run_status r = pending
    /\ run_at r = default i64_max (waiter_expires_at w).

Record db_wf (db : Db) : Prop := {
  wf_run_ids : NoDup (run_id <$> runs db);
  wf_runs : forall r, r ∈ runs db -> run_wf r;
  wf_step_keys : NoDup (step_key <$> steps db);
  wf_step_fk : forall s, s ∈ steps db -> exists r, r ∈ runs db /\ run_id r = step_run_id s;
  wf_waiter_keys : NoDup (waiter_run_id <$> event_waiters db);
  wf_parked : forall w, w ∈ event_waiters db -> parked db w;
  wf_schedule_keys : NoDup (schedule_name <$> schedules db);
}.

(** ** Operations as data *)
Section Ops.
Context `{J : JsonApi}.

Inductive DbOp :=
| OpEnqueue (now : Z) (nanoid name : str) (payload : Json) (opts : EnqueueOpts)
| OpClaim (now : Z) (worker_id : str) (names : list str) (lease_ms : Z)
| OpHeartbeat (now : Z) (id worker_id : str) (lease_ms : Z)
| OpSaveStep (now : Z) (id worker_id step_name : str) (value : Json)
| OpComplete (now : Z) (id worker_id : str)
| OpCancel (now : Z) (id worker_id : str) (reason : option str)
| OpFail (now : Z) (id worker_id error : str) (next : option Z) (finalize : bool)
| OpDefer (id worker_id : str) (wake_at : option Z)
| OpPrune (cutoff : Z) (limit : nat)
| OpReclaim (now : Z)
| OpWaitForEvent (id worker_id step_name event_name : str) (timeout_at : option Z)
| OpSignal (now : Z) (event_name : str) (payload : Json)
| OpReplaceSchedules (now : Z) (specs : list ScheduleSpec)
| OpSetLastRun (name : str) (ts : Z).

Definition exec (op : DbOp) (db : Db) : Db :=
  match op with
  | OpEnqueue now nanoid name payload opts => (enqueue now nanoid db name payload opts).1
  | OpClaim now w names lease => (claim now db w names lease).1
  | OpHeartbeat now id w lease => (heartbeat now db id w lease).1
  | OpSaveStep now id w step v => (save_step now db id w step v).1
  | OpComplete now id w => (complete now db id w).1
  | OpCancel now id w reason => (cancel now db id w reason).1
  | OpFail now id w e next fin => (fail now db id w e next fin).1
  | OpDefer id w wake => (defer db id w wake).1
  | OpPrune cutoff limit => (prune_finished_before db cutoff limit).1
  | OpReclaim now => (reclaim_expired now db).1
  | OpWaitForEvent id w step ev t => (wait_for_event db id w step ev t).1
  | OpSignal now ev payload => (signal now db ev payload).1
  | OpReplaceSchedules now specs => (replace_schedules now db specs).1
  | OpSetLastRun name ts => set_schedule_last_run_at db name ts
  end.

(** The clock is below the [i64::MAX] that parks a run without a deadline. *)
Definition op_clock_ok (op : DbOp) : Prop :=
  match op with OpClaim now _ _ _ => (now < i64_max)%Z | _ => True end.

Definition db_step (db db' : Db) : Prop := exists op, op_clock_ok op /\ db' = exec op db.

Definition db_reachable : Db -> Prop := rtc db_step Db_empty.

(** ** Rows by id *)

Lemma str_eqb_true a b : str_eqb a b = true <-> a = b.
Proof. apply bool_decide_eq_true. Qed.

Lemma str_eqb_false a b : str_eqb a b = false <-> a <> b.
Proof. apply bool_decide_eq_false. Qed.

Lemma id_is_true id r : id_is id r = true <-> run_id r = id.
Proof. apply str_eqb_true. Qed.

Lemma status_is_true s s' : status_is s s' = true <-> s' = s.
Proof. apply bool_decide_eq_true. Qed.

Lemma owned_true id w r :
  owned id w r = true <-> run_id r = id /\ run_worker_id r = Some w /\ run_status r = running.
Proof.
  unfold owned. rewrite !andb_true_iff, id_is_true, bool_decide_eq_true, status_is_true.
  naive_solver.
Qed.

Lemma same_step_true id name s :
  same_step id name s = true <-> step_key s = (id, name).
Proof.
  unfold same_step, step_key. rewrite andb_true_iff, !str_eqb_true.
  split; [intros [-> ->]; done|]. by intros [= -> ->].
Qed.

Lemma any_str_eqb_true x (l : list str) : any (str_eqb x) l = true <-> x ∈ l.
Proof.
  rewrite any_true. split.
  - intros (y & Hy & ->%str_eqb_true). done.
  - intros H. exists x. by rewrite str_eqb_true.
Qed.

(** ** Preservation, table by table *)

Lemma running_no_waiter db r w :
  db_wf db -> r ∈ runs db -> run_status r = running -> w ∈ event_waiters db ->
  waiter_run_id w <> run_id r.
Proof.
  intros Hwf Hr Hs Hw Heq. destruct (wf_parked _ Hwf w Hw) as (r' & Hr' & Hid & Hp & _).
  assert (r = r') as <-; [|congruence].
  apply (NoDup_key_eq run_id (runs db)); [apply Hwf|done|done|congruence].
Qed.

Lemma terminal_no_waiter db r w :
  db_wf db -> r ∈ runs db -> terminal (run_status r) = true -> w ∈ event_waiters db ->
  waiter_run_id w <> run_id r.
Proof.
  intros Hwf Hr Hs Hw Heq. destruct (wf_parked _ Hwf w Hw) as (r' & Hr' & Hid & Hp & _).
  assert (r = r') as <-; [|by rewrite Hp in Hs].
  apply (NoDup_key_eq run_id (runs db)); [apply Hwf|done|done|congruence].
Qed.

(** Updating rows of [runs]: ids stay, rows stay well formed, and the rows touched
    have no waiter. *)
Lemma wf_update_runs db p f :
  db_wf db ->
  (forall r, run_id (f r) = run_id r) ->
  (forall r, r ∈ runs db -> p r = true -> run_wf (f r)) ->
  (forall r w, r ∈ runs db -> p r = true -> w ∈ event_waiters db -> waiter_run_id w <> run_id r) ->
  db_wf (set_runs db (sql_update p f (runs db))).
Proof.
  intros Hwf Hid Hrow Hno. destruct Hwf as [H1 H2 H3 H4 H5 H6 H7]. constructor; simpl; try done.
  - by rewrite sql_update_keys.
  - intros r (r0 & Hr0 & ->)%elem_of_sql_update. destruct (p r0) eqn:Hp; auto.
  - intros s Hs. destruct (H4 s Hs) as (r & Hr & Hk).
    exists (if p r then f r else r). split; [apply elem_of_sql_update; eauto|].
    destruct (p r); by rewrite ?Hid.
  - intros w Hw. destruct (H6 w Hw) as (r & Hr & Hk & Hs & Ha). exists r.
    split; [|done]. apply elem_of_sql_update. exists r. split; [done|].
    destruct (p r) eqn:Hp; [|done]. by destruct (Hno r w Hr Hp Hw).
Qed.

Lemma wf_update_owned db id w f :
  db_wf db ->
  (forall r, run_id (f r) = run_id r) ->
  (forall r, run_wf r -> run_status r = running -> run_wf (f r)) ->
  db_wf (update_owned db id w f).1.
Proof.
  intros Hwf Hid Hrow. apply wf_update_runs; try done.
  - intros r Hr (? & ? & ?)%owned_true. apply Hrow; [by apply Hwf|done].
  - intros r w' Hr (? & ? & ?)%owned_true Hw. by eapply running_no_waiter.
Qed.

(** Adding steps for existing runs. *)
Lemma wf_insert_step db id name v now :
  db_wf db -> (exists r, r ∈ runs db /\ run_id r = id) ->
  db_wf (set_steps db (sql_insert_or_ignore (same_step id name) (mkStep id name v now) (steps db))).
Proof.
  intros [H1 H2 H3 H4 H5 H6 H7] Hr. constructor; simpl; try done.
  - apply insert_or_ignore_NoDup; [|done]. intros s _ Hk. by apply same_step_true.
  - intros s [Hs|[_ ->]]%elem_of_insert_or_ignore; [by apply H4|done].
Qed.

Lemma set_steps_id db : set_steps db (steps db) = db.
Proof. by destruct db. Qed.

Lemma set_steps_twice db t t' : set_steps (set_steps db t) t' = set_steps db t'.
Proof. done. Qed.

(** A fold of step inserts, all for runs that exist. *)
Lemma wf_insert_steps {A} (l : list A) (key : A -> str * str) v now db :
  db_wf db ->
  (forall a, a ∈ l -> exists r, r ∈ runs db /\ run_id r = (key a).1) ->
  db_wf (set_steps db
    (fold_left (fun t a => sql_insert_or_ignore (same_step (key a).1 (key a).2)
                             (mkStep (key a).1 (key a).2 v now) t) l (steps db))).
Proof.
  revert db. induction l as [|a l IH]; intros db Hwf Hfk; simpl; [by rewrite set_steps_id|].
  set (db1 := set_steps db (sql_insert_or_ignore (same_step (key a).1 (key a).2)
                              (mkStep (key a).1 (key a).2 v now) (steps db))).
  change (db_wf (set_steps db1 (fold_left (fun t a => sql_insert_or_ignore
     (same_step (key a).1 (key a).2) (mkStep (key a).1 (key a).2 v now) t) l (steps db1)))).
  apply IH.
  - apply wf_insert_step; [done|]. apply Hfk. left.
  - intros b Hb. apply Hfk. by right.
Qed.

Lemma materialize_expired_fold now id db :
  materialize_expired now id db =
  fold_left (fun t w => sql_insert_or_ignore
      (same_step (waiter_run_id w, waiter_step_name w).1 (waiter_run_id w, waiter_step_name w).2)
      (mkStep (waiter_run_id w, waiter_step_name w).1 (waiter_run_id w, waiter_step_name w).2
         (bs "null") now) t)
    (sql_select (waiter_expired now id) (event_waiters db)) (steps db).
Proof. done. Qed.

Lemma wf_delete_waiters db p :
  db_wf db -> db_wf (set_waiters db (sql_delete p (event_waiters db))).
Proof.
  intros [H1 H2 H3 H4 H5 H6 H7]. constructor; simpl; try done.
  - by apply sql_delete_NoDup.
  - intros w [_ Hw]%elem_of_sql_delete. by apply H6.
Qed.

(** ** One lemma per operation *)

Lemma run_wf_pending_fresh id name payload max at_ now :
  run_wf (mkRun id name payload pending 0 max at_ None None None now None).
Proof. by constructor; simpl. Qed.

Lemma enqueue_cases now nanoid db name payload opts :
  (enqueue now nanoid db name payload opts).1 = db \/
  exists row, (enqueue now nanoid db name payload opts).1 = set_runs db (runs db ++ [row])
    /\ any (id_is (run_id row)) (runs db) = false /\ run_wf row /\ run_status row = pending.
Proof.
  assert ((sqlite_enqueue now nanoid db name payload opts).1 = db \/
    exists row, (sqlite_enqueue now nanoid db name payload opts).1 = set_runs db (runs db ++ [row])
    /\ any (id_is (run_id row)) (runs db) = false /\ run_wf row /\ run_status row = pending) as H.
  { unfold sqlite_enqueue. destruct (json_to_string payload) as [p|]; [|by left].
    destruct (any _ (runs db)) eqn:E.
    - left. destruct (find_first _ _); [|done]. by destruct (check_existing_run _ _ _ _ _) as [[]|].
    - right. unfold sql_insert_or_ignore. rewrite E. simpl.
      eexists. split; [done|]. simpl. auto using run_wf_pending_fresh. }
  unfold enqueue. destruct (opt_id opts) as [id|]; [|done].
  destruct (valid_run_id id); [done|by left].
Qed.

Lemma wf_enqueue now nanoid db name payload opts :
  db_wf db -> db_wf (enqueue now nanoid db name payload opts).1.
Proof.
  intros Hwf. destruct (enqueue_cases now nanoid db name payload opts)
    as [->|(row & -> & Hn & Hrow & _)]; [done|].
  destruct Hwf as [H1 H2 H3 H4 H5 H6 H7]. constructor; simpl; try done.
  - rewrite fmap_app. apply NoDup_app_singleton; [done|].
    intros (r & Hk & Hr)%list_elem_of_fmap. rewrite any_false in Hn.
    specialize (Hn r Hr). apply not_true_iff_false in Hn. apply Hn, id_is_true. done.
  - intros r [Hr| ->%list_elem_of_singleton]%elem_of_app; [by apply H2|done].
  - intros s Hs. destruct (H4 s Hs) as (r & Hr & Hk). exists r. rewrite elem_of_app. auto.
  - intros w Hw. destruct (H6 w Hw) as (r & Hr & Hk). exists r. simpl. rewrite elem_of_app. auto.
Qed.

Lemma claimable_true now names r :
  claimable now names r = true <->
  run_status r = pending /\ (run_at r <= now)%Z /\ run_name r ∈ names.
Proof.
  unfold claimable. rewrite !andb_true_iff, status_is_true, Z.leb_le, any_str_eqb_true. naive_solver.
Qed.

Lemma waiter_expired_true now id w :
  waiter_expired now id w = true <->
  waiter_run_id w = id /\ exists e, waiter_expires_at w = Some e /\ (e <= now)%Z.
Proof.
  unfold waiter_expired. rewrite andb_true_iff, str_eqb_true.
  destruct (waiter_expires_at w) as [e|]; [|naive_solver].
  rewrite Z.leb_le. naive_solver.
Qed.

(** The claim on the tables, once a row is picked. *)
Definition claimed_db (now : Z) (db : Db) (worker_id : str) (lease : Z) (id : str) : Db :=
  mkDb (sql_update (id_is id) (set_claimed worker_id lease) (runs db))
       (materialize_expired now id db) (schedules db)
       (sql_delete (waiter_expired now id) (event_waiters db)).

Lemma claim_cases now db w names lease_ms :
  ((claim now db w names lease_ms) = (db, Ok None)
   /\ forall r, r ∈ runs db -> claimable now names r = false) \/
  exists r p,
    claim now db w names lease_ms =
      (claimed_db now db w (i64_saturating_add now (clamp_lease_ms lease_ms)) (run_id r), Ok (Some p))
    /\ r ∈ runs db /\ claimable now names r = true
    /\ (forall r', r' ∈ runs db -> claimable now names r' = true -> (run_at r <= run_at r')%Z)
    /\ p = mkRunPayload _ (run_id r) w (run_name r)
             (default Json_null (json_from_str (run_payload r))) running
             (as_u32 (run_attempts r + 1)) (as_u32 (run_max_attempts r)) (run_at r)
             (step_state (run_id r) (materialize_expired now (run_id r) db)).
Proof.
  unfold claim. destruct names as [|n names].
  { left. split; [done|]. intros r _. apply not_true_iff_false.
    intros (_ & _ & Hn)%claimable_true. by apply elem_of_nil in Hn. }
  destruct (sql_first_by _ _ _) as [r|] eqn:E.
  - right. apply sql_first_by_Some in E as (Hc & Hr & Hmin). by exists r; eauto 10.
  - left. split; [done|]. exact (proj1 (sql_first_by_None _ _ _) E).
Qed.

Lemma run_wf_claimed w lease r : run_wf r -> run_status r = pending -> run_wf (set_claimed w lease r).
Proof.
  intros [H1 H2 H3 H4] Hs. rewrite Hs in H3. constructor; simpl; try done; try lia.
  intros _. split; [by eauto|]. split; [by eauto|]. lia.
Qed.

Lemma claimed_expired_waiters now db r w names :
  db_wf db -> (now < i64_max)%Z -> r ∈ runs db -> claimable now names r = true ->
  w ∈ event_waiters db -> waiter_run_id w = run_id r -> waiter_expired now (run_id r) w = true.
Proof.
  intros Hwf Hnow Hr (Hs & Hat & _)%claimable_true Hw Hid.
  destruct (wf_parked _ Hwf w Hw) as (r' & Hr' & Hid' & _ & Hat').
  assert (r = r') as <- by (apply (NoDup_key_eq run_id (runs db)); [apply Hwf|done|done|congruence]).
  apply waiter_expired_true. split; [done|].
  destruct (waiter_expires_at w) as [e|]; simpl in Hat'; [exists e; split; [done|lia]|lia].
Qed.

Lemma wf_claim now db w names lease_ms :
  db_wf db -> (now < i64_max)%Z -> db_wf (claim now db w names lease_ms).1.
Proof.
  intros Hwf Hnow.
  destruct (claim_cases now db w names lease_ms) as [[-> _]|(r & p & -> & Hr & Hc & _)]; [done|]. simpl.
  set (lease := i64_saturating_add now (clamp_lease_ms lease_ms)).
  (* materialize, then drop the waiters, then mark the row *)
  set (db1 := set_steps db (materialize_expired now (run_id r) db)).
  assert (db_wf db1) as H1.
  { unfold db1. rewrite materialize_expired_fold. apply wf_insert_steps; [done|]. simpl.
    intros x [_ Hx]%elem_of_sql_select. destruct (wf_parked _ Hwf x Hx) as (q & ? & ? & _). eauto. }
  set (db2 := set_waiters db1 (sql_delete (waiter_expired now (run_id r)) (event_waiters db1))).
  assert (db_wf db2) as H2 by (by apply wf_delete_waiters).
  change (db_wf (set_runs db2 (sql_update (id_is (run_id r)) (set_claimed w lease) (runs db2)))).
  apply wf_update_runs; try done.
  - intros q Hq Hid%id_is_true. apply run_wf_claimed; [by apply H2|].
    assert (q = r) as -> by (by apply (NoDup_key_eq run_id (runs db)); [apply Hwf|..]).
    by apply claimable_true in Hc as (? & _).
  - intros q x Hq Hid%id_is_true [Hx Hin]%elem_of_sql_delete Heq.
    rewrite (claimed_expired_waiters now db r x names) in Hx; try done. congruence.
Qed.

Lemma run_wf_to_pending r att at_ err :
  run_wf r -> run_status r = running -> (0 <= att)%Z ->
  run_wf (mkRun (run_id r) (run_name r) (run_payload r) pending att (run_max_attempts r) at_
            None None err (run_created_at r) (run_finished_at r)).
Proof.
  intros [H1 H2 H3 H4] Hs Ha. rewrite Hs in H3. constructor; simpl; done.
Qed.

Lemma run_wf_finished s now err r :
  terminal s = true -> run_wf r -> run_wf (set_finished s now err r).
Proof.
  intros Ht [H1 H2 H3 H4]. constructor; simpl; [by destruct s|done| |done].
  rewrite Ht. split; eauto.
Qed.

Lemma run_wf_lease l r : run_wf r -> run_status r = running -> run_wf (set_lease l r).
Proof.
  intros [H1 H2 H3 H4] Hs. constructor; simpl; [|by intros []|done|done].
  intros _. destruct (H1 Hs) as (? & ? & ?). eauto.
Qed.

Lemma wf_save_step now db id w name v : db_wf db -> db_wf (save_step now db id w name v).1.
Proof.
  intros Hwf. unfold save_step. destruct (json_to_string v) as [r|]; [|done].
  assert (db_wf (set_steps db (fold_left (fun t _ => sql_insert_or_ignore (same_step id name)
     (mkStep id name r now) t) (sql_select (owned id w) (runs db)) (steps db)))) as H.
  { apply (wf_insert_steps _ (fun _ => (id, name))); [done|]. simpl.
    intros q [(Hid & _)%owned_true Hq]%elem_of_sql_select. eauto. }
  destruct (_ =? 0)%nat; [|done]. destruct (find_first _ _) as [row|]; [|done].
  by case_bool_decide.
Qed.

Lemma wf_prune db cutoff limit : db_wf db -> db_wf (prune_finished_before db cutoff limit).1.
Proof.
  intros Hwf. unfold prune_finished_before. simpl.
  set (ids := run_id <$> _).
  assert (forall r, r ∈ runs db -> run_id r ∈ ids -> terminal (run_status r) = true) as Hterm.
  { intros r Hr (q & Hk & [Hp Hq]%elem_of_sql_select_by)%list_elem_of_fmap.
    assert (r = q) as -> by (by apply (NoDup_key_eq run_id (runs db)); [apply Hwf|..]).
    by apply andb_true_iff in Hp as [Hp _]. }
  pose proof Hwf as [H1 H2 H3 H4 H5 H6 H7]. constructor; simpl; try done.
  - by apply sql_delete_NoDup.
  - intros r [_ Hr]%elem_of_sql_delete. by apply H2.
  - by apply sql_delete_NoDup.
  - intros s [Hf Hs]%elem_of_sql_delete. destruct (H4 s Hs) as (r & Hr & Hk).
    exists r. split; [|done]. apply elem_of_sql_delete. by rewrite Hk.
  - by apply sql_delete_NoDup.
  - intros w [Hf Hw]%elem_of_sql_delete. destruct (H6 w Hw) as (r & Hr & Hk & Hrest).
    exists r. split; [|done]. apply elem_of_sql_delete. by rewrite Hk.
Qed.

Lemma lease_expired_true now r :
  lease_expired now r = true <->
  run_status r = running /\ exists l, run_lease_until r = Some l /\ (l < now)%Z.
Proof.
  unfold lease_expired. rewrite andb_true_iff, status_is_true.
  destruct (run_lease_until r) as [l|]; [rewrite Z.ltb_lt|]; naive_solver.
Qed.

Lemma wf_reclaim now db : db_wf db -> db_wf (reclaim_expired now db).1.
Proof.
  intros Hwf. apply wf_update_runs; try done.
  - intros r Hr [Hs _]%lease_expired_true. apply run_wf_to_pending; [by apply Hwf|done|].
    by apply Hwf.
  - intros r w Hr [Hs _]%lease_expired_true Hw. by eapply running_no_waiter.
Qed.

Lemma wf_deferred r at_ : run_wf r -> run_status r = running -> run_wf (set_deferred at_ r).
Proof.
  intros Hwf Hs. apply run_wf_to_pending; [done|done|].
  destruct (wf_running _ Hwf Hs) as (_ & _ & ?). lia.
Qed.

Lemma same_waiter_true id name w :
  same_waiter id name w = true <-> waiter_run_id w = id /\ waiter_step_name w = name.
Proof. unfold same_waiter. by rewrite andb_true_iff, !str_eqb_true. Qed.

Lemma update_owned_Ok db id w f :
  (update_owned db id w f).2 = Ok tt <-> exists r, r ∈ runs db /\ owned id w r = true.
Proof.
  unfold update_owned. simpl. rewrite <- sql_count_pos.
  destruct (_ =? 0)%nat eqn:E; bool_to_prop; split; intros; try done; lia.
Qed.

Lemma wait_for_event_cases db id w step ev t :
  (wait_for_event db id w step ev t = (db, Err StaleWorker)
   /\ forall r, r ∈ runs db -> owned id w r = false) \/
  (wait_for_event db id w step ev t =
     (mkDb (sql_update (owned id w) (set_deferred (default i64_max t)) (runs db))
        (steps db) (schedules db)
        (sql_insert_or_replace (same_waiter id step) (mkWaiter id step ev t) (event_waiters db)),
      Ok tt)
   /\ exists r, r ∈ runs db /\ owned id w r = true).
Proof.
  unfold wait_for_event, update_owned. simpl.
  destruct (_ =? 0)%nat eqn:E; bool_to_prop.
  - left. split; [done|]. by apply sql_count_0.
  - right. split; [done|]. apply sql_count_pos. lia.
Qed.

Lemma wf_wait_for_event db id w step ev t :
  db_wf db -> db_wf (wait_for_event db id w step ev t).1.
Proof.
  intros Hwf. destruct (wait_for_event_cases db id w step ev t)
    as [[-> _]|[-> (r & Hr & Ho)]]; [done|]. simpl.
  pose proof Ho as (Hid & _ & Hs)%owned_true.
  assert (db_wf (update_owned db id w (set_deferred (default i64_max t))).1) as H.
  { apply wf_update_owned; [done|done|]. intros q Hq Hsq. by apply wf_deferred. }
  assert (forall x, x ∈ event_waiters db -> waiter_run_id x <> id) as Hno.
  { intros x Hx. rewrite <- Hid. exact (running_no_waiter db r x Hwf Hr Hs Hx). }
  destruct H as [H1 H2 H3 H4 H5 H6 H7]. simpl in *. constructor; simpl; try done.
  - unfold sql_insert_or_replace. rewrite sql_delete_none.
    + rewrite fmap_app. apply NoDup_app_singleton; [apply Hwf|].
      intros (x & Hk & Hx)%list_elem_of_fmap. by eapply Hno.
    + intros x Hx. apply not_true_iff_false. intros [Hk _]%same_waiter_true. by eapply Hno.
  - intros x [[Hx _]| ->]%elem_of_insert_or_replace; [exact (H6 x Hx)|].
    exists (set_deferred (default i64_max t) r). simpl. split; [|done].
    apply elem_of_sql_update. exists r. by rewrite Ho.
Qed.

Lemma wf_signal_one now v db db' id name :
  db_wf db -> signal_one now v db id name = Some db' ->
  (exists w, w ∈ event_waiters db /\ waiter_run_id w = id /\ waiter_step_name w = name) ->
  db_wf db'.
Proof.
  intros Hwf Hs (w0 & Hw0 & Hid0 & Hname0). unfold signal_one in Hs.
  destruct (any _ _) eqn:E; [|done]. simplify_eq.
  apply any_true in E as (r & Hr & Hid%id_is_true).
  set (db1 := set_steps db (sql_insert_or_ignore (same_step (waiter_run_id w0) (waiter_step_name w0))
                (mkStep (waiter_run_id w0) (waiter_step_name w0) v now) (steps db))).
  assert (db_wf db1) as H1 by (apply wf_insert_step; eauto).
  set (dbw := set_waiters db1 (sql_delete (same_waiter (waiter_run_id w0) (waiter_step_name w0))
                                 (event_waiters db1))).
  assert (db_wf dbw) as H2 by (by apply wf_delete_waiters).
  change (db_wf (set_runs dbw (sql_update (fun r => id_is (waiter_run_id w0) r
     && status_is pending (run_status r)) (set_woken now) (runs dbw)))).
  apply wf_update_runs; try done.
  - intros q Hq [Hq1 Hq2%status_is_true]%andb_true_iff.
    destruct (wf_runs _ H2 q Hq) as [W1 W2 W3 W4]. rewrite Hq2 in W2, W3.
    constructor; simpl; done.
  - intros q x Hq [Hq1%id_is_true Hq2]%andb_true_iff [Hx Hin]%elem_of_sql_delete Heq.
    assert (x = w0) as ->.
    { apply (NoDup_key_eq waiter_run_id (event_waiters db)); [apply Hwf|done|done|congruence]. }
    apply not_true_iff_false in Hx. apply Hx. by apply same_waiter_true.
Qed.

Lemma signal_one_waiters now v db db' id name :
  signal_one now v db id name = Some db' ->
  event_waiters db' = sql_delete (same_waiter id name) (event_waiters db).
Proof. unfold signal_one. destruct (any _ _); [|done]. by intros [= <-]. Qed.

Lemma wf_signal_loop now v ws db db' n m :
  db_wf db -> NoDup (waiter_run_id <$> ws) -> (forall w, w ∈ ws -> w ∈ event_waiters db) ->
  signal_loop now v ws db n = Some (db', m) -> db_wf db'.
Proof.
  revert db n. induction ws as [|w ws IH]; intros db n Hwf Hnd Hin; simpl; [by intros [= <- <-]|].
  destruct (signal_one now v db _ _) as [db1|] eqn:E; [|done].
  apply NoDup_cons in Hnd as [Hx Hnd]. intros H. eapply IH; [| |..|exact H]; try done.
  - eapply wf_signal_one; [exact Hwf|exact E|]. exists w. split; [apply Hin; left|done].
  - intros x Hx'. erewrite signal_one_waiters by done. apply elem_of_sql_delete.
    split; [|apply Hin; by right]. apply not_true_iff_false.
    intros [Heq _]%same_waiter_true. apply Hx. rewrite <- Heq. by apply list_elem_of_fmap_2.
Qed.

Lemma sql_select_sublist {R K} (key : R -> K) (p : R -> bool) t :
  key <$> sql_select p t `sublist_of` key <$> t.
Proof.
  unfold sql_select. induction t as [|r t IH]; simpl; [constructor|].
  destruct (p r); simpl; by constructor.
Qed.

Lemma wf_signal now db ev payload : db_wf db -> db_wf (signal now db ev payload).1.
Proof.
  intros Hwf. unfold signal. destruct (json_to_string payload) as [v|]; [|done].
  destruct (signal_loop _ _ _ _ _) as [[db' n]|] eqn:E; [|done]. simpl.
  eapply wf_signal_loop; [exact Hwf| | |exact E].
  - eapply sublist_NoDup; [apply (wf_waiter_keys _ Hwf)|]. apply sql_select_sublist.
  - by intros w [_ Hw]%elem_of_sql_select.
Qed.

Lemma upsert_NoDup clash r f (t : list ScheduleRow) :
  (forall s, clash s = true <-> schedule_name s = schedule_name r) ->
  (forall s, schedule_name (f s) = schedule_name s) ->
  NoDup (schedule_name <$> t) -> NoDup (schedule_name <$> sql_upsert clash r f t).
Proof.
  intros Hc Hf Hn. unfold sql_upsert. destruct (any clash t) eqn:E.
  - by rewrite sql_update_keys.
  - rewrite fmap_app. apply NoDup_app_singleton; [done|].
    intros (s & Hk & Hs)%list_elem_of_fmap. rewrite any_false in E.
    specialize (E s Hs). apply not_true_iff_false in E. apply E, Hc. done.
Qed.

Lemma wf_set_schedules db t :
  db_wf db -> NoDup (schedule_name <$> t) -> db_wf (set_schedules db t).
Proof. intros [H1 H2 H3 H4 H5 H6 H7] Hn. by constructor. Qed.

Lemma wf_replace_schedules now db specs : db_wf db -> db_wf (replace_schedules now db specs).1.
Proof.
  intros Hwf. unfold replace_schedules. simpl. apply wf_set_schedules; [done|].
  set (kept := match specs with [] => [] | _ => _ end).
  assert (NoDup (schedule_name <$> kept)) as Hk.
  { unfold kept. destruct specs; [constructor|]. apply sql_delete_NoDup, Hwf. }
  clearbody kept. revert kept Hk. induction specs as [|p specs IH]; intros kept Hk; simpl; [done|].
  apply IH. apply upsert_NoDup; try done. intros s. apply str_eqb_true.
Qed.

Lemma wf_exec op db : db_wf db -> op_clock_ok op -> db_wf (exec op db).
Proof.
  intros Hwf Hop. destruct op; simpl in *.
  - by apply wf_enqueue.
  - by apply wf_claim.
  - apply wf_update_owned; [done|done|]. intros; by apply run_wf_lease.
  - by apply wf_save_step.
  - apply wf_update_owned; [done|done|]. intros; by apply run_wf_finished.
  - apply wf_update_owned; [done|done|]. intros; by apply run_wf_finished.
  - unfold fail. destruct finalize; [|destruct next as [n|]; [|done]];
      (apply wf_update_owned; [done|done|]); intros r Hr Hs.
    + by apply run_wf_finished.
    + apply run_wf_to_pending; [done|done|apply Hr].
  - apply wf_update_owned; [done|done|]. intros; by apply wf_deferred.
  - by apply wf_prune.
  - by apply wf_reclaim.
  - by apply wf_wait_for_event.
  - by apply wf_signal.
  - by apply wf_replace_schedules.
  - apply wf_set_schedules; [done|]. rewrite sql_update_keys; [apply Hwf|done].
Qed.

Lemma db_wf_empty : db_wf Db_empty.
Proof. constructor; simpl; try constructor; set_solver. Qed.

Lemma db_reachable_wf db : db_reachable db -> db_wf db.
Proof.
  unfold db_reachable. revert db. apply (rtc_ind_r (R := db_step) db_wf Db_empty).
  - apply db_wf_empty.
  - intros x y _ (op & Hop & ->) Hx. by apply wf_exec.
Qed.
End Ops.

#[export] Hint Resolve wf_exec db_wf_empty db_reachable_wf : tako.
