(* ===== verification/RunsProps.v ===== *)
(** * The workflow store: what its operations guarantee

    The lifecycle of a run is the abstract machine [life]; every store operation
    refines it.  Then: claims, stale workers, idempotent enqueue, durable
    checkpoints, event delivery, lease reclaim and retention. *)

From S2P Require Import Prelude RustStr Codec Sql RunsDb RunsInv.

Section Props.
Context `{J : JsonApi}.

(** ** The run with a given id *)

Definition find_run (id : str) (db : Db) : option Run := find_first (id_is id) (runs db).

Lemma find_run_Some id db r :
  find_run id db = Some r -> r ∈ runs db /\ run_id r = id.
Proof. intros [H ?]%find_first_Some. by rewrite id_is_true in H. Qed.

Lemma find_run_iff id db r :
  NoDup (run_id <$> runs db) -> find_run id db = Some r <-> r ∈ runs db /\ run_id r = id.
Proof.
  intros Hn. split; [apply find_run_Some|]. intros [Hr Hid].
  destruct (find_run id db) as [r'|] eqn:E.
  - apply find_run_Some in E as [Hr' Hid']. f_equal.
    apply (NoDup_key_eq run_id (runs db)); congruence.
  - unfold find_run in E. rewrite find_first_None in E.
    specialize (E r Hr). apply not_true_iff_false in E. by rewrite id_is_true in E.
Qed.

Lemma find_first_update id p f (t : list Run) :
  (forall r, run_id (f r) = run_id r) ->
  find_first (id_is id) (sql_update p f t) =
  (fun r => if p r then f r else r) <$> find_first (id_is id) t.
Proof.
  intros Hid. apply find_first_sql_update. intros r. unfold id_is. by rewrite Hid.
Qed.

Lemma find_first_delete_ids id (gone : str -> bool) (t : list Run) :
  find_first (id_is id) (sql_delete (fun r => gone (run_id r)) t) =
  if gone id then None else find_first (id_is id) t.
Proof.
  unfold sql_delete. induction t as [|r t IH]; simpl; [by destruct (gone id)|].
  destruct (gone (run_id r)) eqn:Hg; simpl.
  - rewrite IH. destruct (gone id) eqn:Hg'; [done|].
    destruct (id_is id r) eqn:Hi; [|done]. apply id_is_true in Hi. congruence.
  - destruct (id_is id r) eqn:Hi; [|done]. apply id_is_true in Hi. subst. by rewrite Hg.
Qed.

Lemma find_first_app_fresh id r (t : list Run) :
  any (id_is (run_id r)) t = false ->
  find_first (id_is id) (t ++ [r]) =
  if str_eqb (run_id r) id then Some r else find_first (id_is id) t.
Proof.
  intros Hn. induction t as [|x t IH]; simpl in *.
  - unfold id_is. by destruct (str_eqb _ _).
  - apply orb_false_iff in Hn as [Hx Hn]. specialize (IH Hn).
    destruct (id_is id x) eqn:Hi; [|done].
    destruct (str_eqb (run_id r) id) eqn:E; [|done].
    apply id_is_true in Hi. apply str_eqb_true in E. subst.
    apply not_true_iff_false in Hx. destruct Hx. apply id_is_true. congruence.
Qed.

(** ** The abstract lifecycle *)

Inductive Phase := Absent | Waiting | Owned (worker : str) | Finished (s : RunStatus).

Definition row_phase (r : Run) : Phase :=
  match run_status r with
  | pending => Waiting
  | running => Owned (default [] (run_worker_id r))
  | s => Finished s
  end.

Definition phase (db : Db) (id : str) : Phase :=
  match find_run id db with Some r => row_phase r | None => Absent end.

(** Who may move a run, and where.  [id] is the run, [op] the operation. *)
Inductive life (id : str) : DbOp -> Phase -> Phase -> Prop :=
| life_stay op p : life id op p p
| life_create now nanoid name payload opts :
    default nanoid (opt_id opts) = id ->
    life id (OpEnqueue now nanoid name payload opts) Absent Waiting
| life_claim now w names lease : life id (OpClaim now w names lease) Waiting (Owned w)
| life_complete now w : life id (OpComplete now id w) (Owned w) (Finished succeeded)
| life_cancel now w reason : life id (OpCancel now id w reason) (Owned w) (Finished cancelled)
| life_die now w e next : life id (OpFail now id w e next true) (Owned w) (Finished dead)
| life_retry now w e next : life id (OpFail now id w e (Some next) false) (Owned w) Waiting
| life_defer w wake : life id (OpDefer id w wake) (Owned w) Waiting
| life_wait w step ev t : life id (OpWaitForEvent id w step ev t) (Owned w) Waiting
| life_reclaim now w : life id (OpReclaim now) (Owned w) Waiting
| life_prune cutoff limit s : life id (OpPrune cutoff limit) (Finished s) Absent.

#[local] Hint Constructors life : tako.

Lemma phase_set_runs_update db p f id :
  (forall r, run_id (f r) = run_id r) ->
  phase (set_runs db (sql_update p f (runs db))) id =
  match find_run id db with
  | Some r => row_phase (if p r then f r else r)
  | None => Absent
  end.
Proof.
  intros Hid. unfold phase, find_run. simpl. rewrite find_first_update by done.
  by destruct (find_first _ _).
Qed.

(** A lifecycle write moves only the run it names, out of the caller's hands. *)
Lemma life_update_owned op db id' id w f q :
  (forall r, run_id (f r) = run_id r) ->
  (forall r, row_phase (f r) = q r) ->
  (id' = id -> forall r, life id op (Owned w) (q r)) ->
  life id op (phase db id) (phase (update_owned db id' w f).1 id).
Proof.
  intros Hid Hq Hl. unfold update_owned. simpl. rewrite phase_set_runs_update by done.
  unfold phase. destruct (find_run id db) as [r|] eqn:E; [|constructor].
  destruct (owned id' w r) eqn:Ho; [|constructor].
  apply owned_true in Ho as (Ho & Hw & Hs). apply find_run_Some in E as [_ E].
  rewrite Hq. unfold row_phase at 1. rewrite Hs, Hw. simpl. apply Hl. congruence.
Qed.

Lemma phase_same_runs db db' id : runs db' = runs db -> phase db' id = phase db id.
Proof. unfold phase, find_run. by intros ->. Qed.

Lemma life_heartbeat now db id' w lease id :
  phase (heartbeat now db id' w lease).1 id = phase db id.
Proof.
  unfold heartbeat, update_owned. simpl. rewrite phase_set_runs_update by done.
  unfold phase. destruct (find_run id db) as [r|]; [|done]. by destruct (owned id' w r).
Qed.

Lemma save_step_runs now db id w name v : runs (save_step now db id w name v).1 = runs db.
Proof.
  unfold save_step. destruct (json_to_string v); [|done].
  destruct (_ =? 0)%nat; [|done]. destruct (find_first _ _); [|done]. by case_bool_decide.
Qed.

Lemma signal_loop_phase now v ws db db' n m id :
  signal_loop now v ws db n = Some (db', m) -> phase db' id = phase db id.
Proof.
  revert db n. induction ws as [|w ws IH]; intros db n; simpl; [by intros [= <- <-]|].
  destruct (signal_one _ _ _ _ _) as [db1|] eqn:E; [|done]. intros H.
  rewrite (IH _ _ H). unfold signal_one in E. destruct (any _ _); [|done].
  simplify_eq. unfold phase, find_run. simpl. rewrite find_first_update by done.
  destruct (find_first _ _) as [r|]; simpl; [|done].
  destruct (_ && _) eqn:Hp; [|done]. apply andb_true_iff in Hp as [_ Hp%status_is_true].
  unfold row_phase. simpl. by rewrite Hp.
Qed.

Lemma life_of_enqueue now nanoid db name payload opts id :
  life id (OpEnqueue now nanoid name payload opts)
    (phase db id) (phase (enqueue now nanoid db name payload opts).1 id).
Proof.
  destruct (enqueue now nanoid db name payload opts) as [db' res] eqn:E. simpl.
  unfold enqueue in E. destruct (match opt_id opts with Some id => negb (valid_run_id id) | None => false end) eqn:Hv.
  { destruct (opt_id opts) as [i|]; [|done]. destruct (valid_run_id i); simplify_eq/=. constructor. }
  assert (sqlite_enqueue now nanoid db name payload opts = (db', res)) as E'.
  { destruct (opt_id opts) as [i|]; [|done]. by destruct (valid_run_id i). }
  clear E Hv. unfold sqlite_enqueue in E'. destruct (json_to_string payload) as [p|]; [|simplify_eq; constructor].
  destruct (any _ (runs db)) eqn:Ha.
  { destruct (find_first _ _) as [r|]; [|simplify_eq; constructor].
    destruct (check_existing_run _ _ _ _ _) as [[]|]; simplify_eq; constructor. }
  simplify_eq. unfold phase, find_run at 2. simpl. unfold sql_insert_or_ignore. rewrite Ha.
  rewrite find_first_app_fresh by done. simpl.
  destruct (str_eqb (default nanoid (opt_id opts)) id) eqn:Hid; [|constructor].
  apply str_eqb_true in Hid. assert (find_run id db = None) as ->; [|by constructor].
  unfold find_run. rewrite find_first_None. subst. by apply any_false.
Qed.

Lemma find_run_claimed now db w lease id' id :
  find_run id (claimed_db now db w lease id') =
  (fun r => if id_is id' r then set_claimed w lease r else r) <$> find_run id db.
Proof. unfold find_run, claimed_db. simpl. by rewrite find_first_update. Qed.

Lemma life_of_claim now db w names lease id :
  db_wf db ->
  life id (OpClaim now w names lease) (phase db id) (phase (claim now db w names lease).1 id).
Proof.
  intros Hwf. destruct (claim_cases now db w names lease) as [[-> _]|(r & p & -> & Hr & Hc & _)];
    [constructor|]. simpl. unfold phase. rewrite find_run_claimed.
  destruct (find_run id db) as [q|] eqn:E; simpl; [|constructor].
  destruct (id_is (run_id r) q) eqn:Hi; [|constructor].
  apply id_is_true in Hi. apply find_run_Some in E as [Hq _].
  assert (q = r) as -> by (by apply (NoDup_key_eq run_id (runs db)); [apply Hwf|..]).
  apply claimable_true in Hc as (Hs & _). unfold row_phase. rewrite Hs. simpl. constructor.
Qed.

Lemma life_of_prune db cutoff limit id :
  db_wf db ->
  life id (OpPrune cutoff limit) (phase db id) (phase (prune_finished_before db cutoff limit).1 id).
Proof.
  intros Hwf. unfold prune_finished_before, delete_runs. simpl. unfold phase, find_run at 2. simpl.
  set (ids := run_id <$> _). rewrite (find_first_delete_ids id (fun i => any (str_eqb i) ids)).
  destruct (any (str_eqb id) ids) eqn:E; [|constructor].
  apply any_str_eqb_true, list_elem_of_fmap in E as (r & Hid & [Hp Hr]%elem_of_sql_select_by).
  assert (find_run id db = Some r) as -> by (apply find_run_iff; [apply Hwf|done]).
  apply andb_true_iff in Hp as [Ht _]. unfold row_phase. destruct (run_status r); try done; constructor.
Qed.

(** C2: every reachable database satisfies the key, foreign-key and column
    invariants: a run is owned and leased exactly while running, has a finish
    time exactly when terminal, its attempts never go negative, checkpoints and
    waiters belong to existing runs, and a run with a waiter is pending. *)
Theorem reachable_db_well_formed db : db_reachable db -> db_wf db.
Proof. apply db_reachable_wf. Qed.

(** C3: refinement of the lifecycle machine.  Each operation, on each run,
    either leaves its phase or performs the one move the machine allows: only a
    claim takes a waiting run, only the owner finishes or releases it, only an
    expired lease takes it away, and a finished run can only be pruned. *)
Theorem store_refines_lifecycle op db id :
  db_reachable db -> life id op (phase db id) (phase (exec op db) id).
Proof.
  intros Hwf%db_reachable_wf. destruct op; cbn [exec].
  - apply life_of_enqueue.
  - by apply life_of_claim.
  - rewrite life_heartbeat. constructor.
  - rewrite (phase_same_runs db _ id (save_step_runs now db _ worker_id step_name value)). constructor.
  - apply (life_update_owned _ _ _ _ _ _ (fun _ => Finished succeeded)); [done|done|].
    intros ->; constructor.
  - apply (life_update_owned _ _ _ _ _ _ (fun _ => Finished cancelled)); [done|done|].
    intros ->; constructor.
  - unfold fail. destruct finalize; [|destruct next as [n|]; [|constructor]].
    + apply (life_update_owned _ _ _ _ _ _ (fun _ => Finished dead)); [done|done|].
      intros ->; constructor.
    + apply (life_update_owned _ _ _ _ _ _ (fun _ => Waiting)); [done|done|].
      intros ->; constructor.
  - apply (life_update_owned _ _ _ _ _ _ (fun _ => Waiting)); [done|done|].
    intros ->; constructor.
  - by apply life_of_prune.
  - unfold reclaim_expired. simpl. rewrite phase_set_runs_update by done.
    unfold phase. destruct (find_run id db) as [r|]; [|constructor].
    destruct (lease_expired now r) eqn:E; [|constructor].
    apply lease_expired_true in E as [Hs _]. unfold row_phase. rewrite Hs. constructor.
  - destruct (wait_for_event_cases db id0 worker_id step_name event_name timeout_at)
      as [[-> _]|[-> _]]; [constructor|]. simpl.
    change (phase (mkDb _ _ _ _) id) with
      (phase (update_owned db id0 worker_id (set_deferred (default i64_max timeout_at))).1 id).
    apply (life_update_owned _ _ _ _ _ _ (fun _ => Waiting)); [done|done|].
    intros ->; constructor.
  - unfold signal. destruct (json_to_string payload); [|constructor].
    destruct (signal_loop _ _ _ _ _) as [[db' n]|] eqn:E; [|constructor]. simpl.
    rewrite (signal_loop_phase _ _ _ _ _ _ _ _ E). constructor.
  - constructor.
  - constructor.
Qed.
End Props.

(** ** A concrete store, for the witnesses: JSON documents as their text *)

#[local] Existing Instance text_json.

Lemma db_reachable_exec (J : JsonApi) db op :
  db_reachable db -> op_clock_ok op -> db_reachable (exec op db).
Proof. intros H Hop. eapply rtc_r; [exact H|]. by exists op. Qed.

Definition demo_opts : EnqueueOpts := mkEnqueueOpts None None (Some (bs "job-1")).

(** One run enqueued, claimed by [w1], parked on the event [paid]. *)
Definition demo_db1 : Db := exec (OpEnqueue 100 (bs "n") (bs "mail") (bs "{}") demo_opts) Db_empty.
Definition demo_db2 : Db := exec (OpClaim 200 (bs "w1") [bs "mail"] 1000) demo_db1.
Definition demo_db3 : Db := exec (OpWaitForEvent (bs "job-1") (bs "w1") (bs "s") (bs "paid") None) demo_db2.

Lemma demo_db1_reachable : db_reachable demo_db1.
Proof. apply db_reachable_exec; [apply rtc_refl|exact I]. Defined.

Lemma demo_db2_reachable : db_reachable demo_db2.
Proof. apply db_reachable_exec; [exact demo_db1_reachable|reflexivity]. Defined.

Lemma demo_db3_reachable : db_reachable demo_db3.
Proof. apply db_reachable_exec; [exact demo_db2_reachable|exact I]. Defined.

Lemma reachable_db_well_formed_witness : db_wf demo_db3 /\ length (event_waiters demo_db3) = 1.
Proof. split; [apply (reachable_db_well_formed demo_db3 demo_db3_reachable)|vm_compute; reflexivity]. Defined.

Lemma store_refines_lifecycle_witness :
  life (bs "job-1") (OpClaim 200 (bs "w1") [bs "mail"] 1000) Waiting (Owned (bs "w1")).
Proof.
  exact (store_refines_lifecycle (OpClaim 200 (bs "w1") [bs "mail"] 1000) demo_db1 (bs "job-1")
           demo_db1_reachable).
Defined.
