(* ===== verification/RunsOps.v ===== *)
(** * The workflow store: guarantees of the single operations

    Claims, stale workers, idempotent enqueue, durable checkpoints, event
    delivery, lease reclaim and retention, with concrete runs of the store as
    witnesses. *)

From S2P Require Import Prelude RustStr Codec Sql RunsDb RunsInv RunsProps.

Section Guarantees.
Context `{J : JsonApi}.

(** ** Claims *)

(** The conditions of the store's statements, spelled out. *)
Definition due_for (now : Z) (names : list str) (r : Run) : Prop :=
  run_status r = pending /\ (run_at r <= now)%Z /\ run_name r ∈ names.

Definition expired_at (now : Z) (r : Run) : Prop :=
  run_status r = running /\ exists l, run_lease_until r = Some l /\ (l < now)%Z.

Definition finished_by (cutoff : Z) (r : Run) : Prop :=
  (run_status r = succeeded \/ run_status r = cancelled \/ run_status r = dead)
  /\ exists f, run_finished_at r = Some f /\ (f <= cutoff)%Z.

Lemma claimable_due now names r : claimable now names r = true <-> due_for now names r.
Proof. apply claimable_true. Qed.

Lemma lease_expired_at now r : lease_expired now r = true <-> expired_at now r.
Proof. apply lease_expired_true. Qed.

Lemma prunable_finished cutoff r : prunable cutoff r = true <-> finished_by cutoff r.
Proof.
  unfold prunable, finished_by. rewrite andb_true_iff.
  assert (terminal (run_status r) = true <->
    run_status r = succeeded \/ run_status r = cancelled \/ run_status r = dead) as ->
    by (destruct (run_status r); simpl; naive_solver).
  destruct (run_finished_at r) as [f|]; [rewrite Z.leb_le|]; naive_solver.
Qed.

(** A claim is answered with the due run of a requested workflow that has the
    smallest [run_at]; that row, and no other, becomes running under the caller's
    id with one more attempt and a lease in the future, so that the lease cannot
    be reclaimed at once; nothing is claimed exactly when no run is due. *)
Lemma claim_takes_oldest_due_run now db w names lease_ms :
  db_reachable db -> (i64_min <= now < i64_max)%Z -> (0 <= lease_ms)%Z ->
  match claim now db w names lease_ms with
  | (_, Err _) => False
  | (db', Ok None) => db' = db /\ forall r, r ∈ runs db -> ~ due_for now names r
  | (db', Ok (Some p)) =>
      exists r lease_until,
        find_run (rp_id p) db = Some r /\ due_for now names r
        /\ (forall r', r' ∈ runs db -> due_for now names r' -> (run_at r <= run_at r')%Z)
        /\ find_run (rp_id p) db' = Some (set_claimed w lease_until r)
        /\ (forall id, id <> rp_id p -> find_run id db' = find_run id db)
        /\ (now <= lease_until <= i64_max)%Z
        /\ ~ expired_at now (set_claimed w lease_until r)
        /\ rp_worker_id p = w /\ rp_name p = run_name r
  end.
Proof.
  intros Hwf%db_reachable_wf Hnow Hlease.
  destruct (claim_cases now db w names lease_ms) as [[-> Hn]|(r & p & -> & Hr & Hc & Hmin & Hp)].
  { split; [done|]. intros r Hr Hd%claimable_due. by rewrite Hn in Hd. }
  apply claimable_due in Hc. setoid_rewrite claimable_due in Hmin.
  set (l := i64_saturating_add now (clamp_lease_ms lease_ms)).
  assert (now <= l <= i64_max)%Z as Hl.
  { subst l. unfold i64_saturating_add, clamp, clamp_lease_ms, MAX_LEASE_MS, i64_max, i64_min in *. lia. }
  exists r, l. subst p. simpl.
  assert (find_run (run_id r) db = Some r) as Hf by (apply find_run_iff; [apply Hwf|done]).
  rewrite !find_run_claimed, Hf. simpl. rewrite (proj2 (id_is_true (run_id r) r) eq_refl).
  split_and!; try done; try lia; try apply Hc.
  - intros id Hne. rewrite find_run_claimed. destruct (find_run id db) as [q|] eqn:E; [|done]. simpl.
    apply find_run_Some in E as [_ E]. destruct (id_is (run_id r) q) eqn:Hi; [|done].
    apply id_is_true in Hi. congruence.
  - intros (_ & l' & [= <-] & Hlt). lia.
Qed.

(** ** Stale workers *)

(** The lifecycle writes a worker sends for a run it claimed. *)
Inductive WorkerWrite :=
| WHeartbeat (now lease_ms : Z)
| WSaveStep (now : Z) (step_name : str) (value : Json)
| WComplete (now : Z)
| WCancel (now : Z) (reason : option str)
| WFail (now : Z) (error : str) (next : option Z) (finalize : bool)
| WDefer (wake_at : option Z)
| WWaitForEvent (step_name event_name : str) (timeout_at : option Z).

Definition worker_write (db : Db) (id w : str) (x : WorkerWrite) : Db * result unit RunsDbError :=
  match x with
  | WHeartbeat now lease => heartbeat now db id w lease
  | WSaveStep now name v => save_step now db id w name v
  | WComplete now => complete now db id w
  | WCancel now reason => cancel now db id w reason
  | WFail now e next fin => fail now db id w e next fin
  | WDefer wake => defer db id w wake
  | WWaitForEvent step ev t => wait_for_event db id w step ev t
  end.

(** The writes whose arguments are refused before the store is consulted. *)
Definition malformed (x : WorkerWrite) : Prop :=
  match x with
  | WSaveStep _ _ v => json_to_string v = None
  | WFail _ _ None false => True
  | _ => False
  end.

Definition owns (db : Db) (id w : str) : Prop :=
  exists r, find_run id db = Some r /\ run_status r = running /\ run_worker_id r = Some w.

Lemma set_runs_id db : set_runs db (runs db) = db.
Proof. by destruct db. Qed.

Lemma update_owned_stale db id w f :
  (forall r, r ∈ runs db -> owned id w r = false) ->
  update_owned db id w f = (db, Err StaleWorker).
Proof.
  intros H. unfold update_owned. rewrite (proj2 (sql_count_0 _ _) H).
  by rewrite sql_update_none, set_runs_id.
Qed.

Lemma not_owner_rows db id w :
  db_wf db -> ~ owns db id w -> forall r, r ∈ runs db -> owned id w r = false.
Proof.
  intros Hwf Hn r Hr. apply not_true_iff_false. intros (Hid & Hw & Hs)%owned_true.
  apply Hn. exists r. split; [|done]. apply find_run_iff; [apply Hwf|done].
Qed.

Lemma sql_select_none {R} (p : R -> bool) t : (forall r, r ∈ t -> p r = false) -> sql_select p t = [].
Proof. intros H. apply length_zero_iff_nil. by apply sql_count_0. Qed.

(** C5: a worker that does not own the running run (its lease was reclaimed, the
    run finished, or another worker claimed it) changes nothing: every write is
    refused, with [StaleWorker] unless the request itself was malformed. *)
Theorem stale_worker_writes_nothing db id w x :
  db_reachable db -> ~ owns db id w ->
  exists e, worker_write db id w x = (db, Err e) /\ (e = StaleWorker \/ malformed x).
Proof.
  intros Hwf%db_reachable_wf Hn. pose proof (not_owner_rows _ _ _ Hwf Hn) as Hno.
  destruct x; simpl; unfold heartbeat, complete, cancel, defer;
    try (rewrite update_owned_stale by done; by eauto).
  - unfold save_step. destruct (json_to_string value) as [v|] eqn:E; [|by eauto].
    rewrite (sql_select_none (owned id w)) by done. simpl. rewrite set_steps_id, Nat.sub_diag. simpl.
    destruct (find_first _ _) as [r|] eqn:Ef; [|by eauto].
    case_bool_decide as Hw; [|by eauto]. exfalso.
    apply find_first_Some in Ef as [[Hi Hs%status_is_true]%andb_true_iff Hr].
    apply id_is_true in Hi.
    pose proof (Hno r Hr) as Hf. apply not_true_iff_false in Hf. apply Hf. by apply owned_true.
  - unfold fail. destruct finalize; [|destruct next as [n|]; [|by eauto]];
      rewrite update_owned_stale by done; by eauto.
  - destruct (wait_for_event_cases db id w step_name event_name timeout_at)
      as [[-> _]|[_ (r & Hr & Ho)]]; [by eauto|]. by rewrite Hno in Ho.
Qed.

(** ** Enqueue *)

(** Enqueue with a caller-supplied id is idempotent: once accepted, the same
    request is answered with the same id as a duplicate and changes nothing,
    whatever happened to the clock and the options, and a request that reuses
    the id for another workflow or payload is refused. *)
Lemma enqueue_is_idempotent now nanoid db name payload opts id db' resp text :
  opt_id opts = Some id ->
  json_to_string payload = Some text -> json_from_str text = Some payload ->
  enqueue now nanoid db name payload opts = (db', Ok resp) ->
  resp_id resp = id /\
  forall now' nanoid' name' payload' text' opts',
    opt_id opts' = Some id -> json_to_string payload' = Some text' ->
    enqueue now' nanoid' db' name' payload' opts' =
      (db', if decide (name' = name /\ payload' = payload)
            then Ok (mkEnqueueRunResponse id true) else Err (IdConflict id)).
Proof.
  intros Hid Ht Hrt. unfold enqueue. rewrite Hid. destruct (valid_run_id id) eqn:Hv; [|done].
  unfold sqlite_enqueue at 1. rewrite Ht, Hid. simpl.
  assert (forall row, find_run id db' = Some row -> run_name row = name ->
    json_from_str (run_payload row) = Some payload ->
    forall now' nanoid' name' payload' text' opts',
    opt_id opts' = Some id -> json_to_string payload' = Some text' ->
    (match opt_id opts' with
     | Some id => if valid_run_id id then sqlite_enqueue now' nanoid' db' name' payload' opts'
                  else (db', Err InvalidId)
     | None => sqlite_enqueue now' nanoid' db' name' payload' opts' end) =
      (db', if decide (name' = name /\ payload' = payload)
            then Ok (mkEnqueueRunResponse id true) else Err (IdConflict id))) as Hdup.
  { intros row Hf Hn Hp now' nanoid' name' payload' text' opts' Hid' Ht'. rewrite Hid', Hv.
    unfold sqlite_enqueue. rewrite Ht', Hid'. simpl. unfold find_run in Hf.
    rewrite (proj2 (any_true _ _)) by (destruct (find_first_Some _ _ _ Hf); eauto).
    rewrite Hf. unfold check_existing_run. rewrite Hn, Hp.
    destruct (str_eqb name name') eqn:E1; simpl.
    - apply str_eqb_true in E1 as <-. case_bool_decide as E2; simpl; case_decide as D; naive_solver.
    - apply str_eqb_false in E1. case_decide as D; [|done]. naive_solver. }
  destruct (any (id_is id) (runs db)) eqn:Ha.
  - destruct (find_first (id_is id) (runs db)) as [row|] eqn:Hf; [|done].
    unfold check_existing_run. destruct (str_eqb (run_name row) name) eqn:En; simpl; [|done].
    destruct (json_from_str (run_payload row)) as [v|] eqn:Ev; [|done].
    case_bool_decide as Hv'; simpl; [|done]. intros [= <- <-]. split; [done|].
    apply str_eqb_true in En. subst v. by apply (Hdup row).
  - intros [= <- <-]. split; [done|]. eapply Hdup.
    + unfold find_run. simpl. unfold sql_insert_or_ignore. rewrite Ha.
      rewrite find_first_app_fresh by done. simpl. unfold str_eqb. by rewrite bool_decide_eq_true_2.
    + done.
    + done.
Qed.

(** ** Checkpoints *)

Lemma insert_step_incl id name v now t (s : Step) :
  s ∈ t -> s ∈ sql_insert_or_ignore (same_step id name) (mkStep id name v now) t.
Proof. intros H. apply elem_of_insert_or_ignore. by left. Qed.

Lemma fold_insert_incl {A} (l : list A) (key : A -> str * str) v now t s :
  s ∈ t ->
  s ∈ fold_left (fun t a => sql_insert_or_ignore (same_step (key a).1 (key a).2)
                              (mkStep (key a).1 (key a).2 v now) t) l t.
Proof.
  revert t. induction l as [|a l IH]; intros t Hs; simpl; [done|].
  apply IH. by apply insert_step_incl.
Qed.

Lemma signal_loop_steps now v ws db db' n m s :
  signal_loop now v ws db n = Some (db', m) -> s ∈ steps db -> s ∈ steps db'.
Proof.
  revert db n. induction ws as [|w ws IH]; intros db n; simpl; [by intros [= <- <-]|].
  destruct (signal_one _ _ _ _ _) as [db1|] eqn:E; [|done]. intros H Hs.
  eapply IH; [exact H|]. unfold signal_one in E. destruct (any _ _); [|done].
  simplify_eq/=. by apply insert_step_incl.
Qed.

(** A stored checkpoint is durable and first-write-wins: no operation
    changes or drops it as long as its run is kept; it disappears only when
    retention prunes the run itself. *)
Lemma checkpoint_survives db op s :
  db_reachable db -> s ∈ steps db ->
  s ∈ steps (exec op db)
  \/ (exists cutoff limit, op = OpPrune cutoff limit) /\ find_run (step_run_id s) (exec op db) = None.
Proof.
  intros Hwf%db_reachable_wf Hs. destruct op; cbn [exec]; try by left.
  - left. destruct (enqueue_cases now nanoid db name payload opts) as [->|(row & -> & _)]; done.
  - left. destruct (claim_cases now db worker_id names lease_ms) as [[-> _]|(r & p & -> & _)]; [done|].
    simpl. rewrite materialize_expired_fold. by apply (fold_insert_incl _ (fun w => (waiter_run_id w, waiter_step_name w))).
  - left. unfold save_step. destruct (json_to_string value) as [v|]; [|done].
    pose proof (fold_insert_incl (sql_select (owned id worker_id) (runs db)) (fun _ => (id, step_name)) v now _ _ Hs) as H.
    simpl in H. destruct (_ =? 0)%nat; [|done]. destruct (find_first _ _); [|done]. by case_bool_decide.
  - left. unfold fail. destruct finalize; [done|]. by destruct next.
  - unfold prune_finished_before, delete_runs. simpl. unfold find_run. simpl.
    set (ids := run_id <$> _). rewrite (find_first_delete_ids _ (fun i => any (str_eqb i) ids)).
    destruct (any (str_eqb (step_run_id s)) ids) eqn:E; [right; eauto|].
    left. apply elem_of_sql_delete. by rewrite E.
  - left. destruct (wait_for_event_cases db id worker_id step_name event_name timeout_at)
      as [[-> _]|[-> _]]; done.
  - left. unfold signal. destruct (json_to_string payload) as [v|]; [|done].
    destruct (signal_loop _ _ _ _ _) as [[db' n]|] eqn:E; [|done]. by eapply signal_loop_steps.
Qed.

(** ** Events *)

Lemma signal_one_wf now v db w :
  db_wf db -> w ∈ event_waiters db ->
  exists db1 r, signal_one now v db (waiter_run_id w) (waiter_step_name w) = Some db1 /\ db_wf db1
    /\ find_run (waiter_run_id w) db = Some r
    /\ find_run (waiter_run_id w) db1 = Some (set_woken now r)
    /\ (forall id, id <> waiter_run_id w -> find_run id db1 = find_run id db)
    /\ steps db1 = sql_insert_or_ignore (same_step (waiter_run_id w) (waiter_step_name w))
         (mkStep (waiter_run_id w) (waiter_step_name w) v now) (steps db)
    /\ event_waiters db1 =
         sql_delete (same_waiter (waiter_run_id w) (waiter_step_name w)) (event_waiters db).
Proof.
  intros Hwf Hw. destruct (wf_parked _ Hwf w Hw) as (r & Hr & Hid & Hs & _).
  assert (find_run (waiter_run_id w) db = Some r) as Hf by (apply find_run_iff; [apply Hwf|done]).
  destruct (signal_one now v db (waiter_run_id w) (waiter_step_name w)) as [db1|] eqn:E.
  2:{ exfalso. unfold signal_one in E. destruct (any _ _) eqn:Ha; [done|].
      rewrite any_false in Ha. specialize (Ha r Hr). apply not_true_iff_false in Ha.
      by rewrite id_is_true in Ha. }
  exists db1, r. split; [done|]. split; [by eapply wf_signal_one; eauto|]. split; [done|].
  unfold signal_one in E. destruct (any _ _); [|done]. simplify_eq/=.
  unfold find_run in *. simpl. rewrite find_first_update, Hf by done. simpl.
  rewrite (proj2 (id_is_true _ _) Hid), Hs. simpl. repeat split; try done.
  intros id Hne. rewrite find_first_update by done.
  destruct (find_first (id_is id) (runs db)) as [q|] eqn:Eq; [|done]. simpl.
  destruct (id_is (waiter_run_id w) q) eqn:Hi; [|done].
  apply find_first_Some in Eq as [Eq _]. apply id_is_true in Eq, Hi. congruence.
Qed.

Lemma signal_loop_spec now v ws db n :
  db_wf db -> NoDup (waiter_run_id <$> ws) -> (forall w, w ∈ ws -> w ∈ event_waiters db) ->
  exists db', signal_loop now v ws db n = Some (db', (n + length ws)%nat)
    /\ (forall id, id ∉ waiter_run_id <$> ws -> find_run id db' = find_run id db)
    /\ (forall w, w ∈ ws -> exists r, find_run (waiter_run_id w) db = Some r
          /\ find_run (waiter_run_id w) db' = Some (set_woken now r))
    /\ (forall w, w ∈ ws ->
          (forall s, s ∈ steps db -> step_key s <> (waiter_run_id w, waiter_step_name w)) ->
          mkStep (waiter_run_id w) (waiter_step_name w) v now ∈ steps db')
    /\ (forall x, x ∈ event_waiters db' <-> x ∈ event_waiters db /\
          forall w, w ∈ ws -> same_waiter (waiter_run_id w) (waiter_step_name w) x = false).
Proof.
  revert db n. induction ws as [|w ws IH]; intros db n Hwf Hnd Hin; simpl.
  { exists db. rewrite Nat.add_0_r. repeat split; set_solver. }
  apply NoDup_cons in Hnd as [Hx Hnd].
  destruct (signal_one_wf now v db w Hwf) as (db1 & r & -> & Hwf1 & Hf & Hf1 & Hfr & Hst & Hw1);
    [apply Hin; left|].
  assert (forall y, y ∈ ws -> same_waiter (waiter_run_id w) (waiter_step_name w) y = false) as Hother.
  { intros y Hy. apply not_true_iff_false. intros [Heq _]%same_waiter_true. apply Hx.
    rewrite <- Heq. by apply list_elem_of_fmap_2. }
  destruct (IH db1 (S n) Hwf1 Hnd) as (db' & Hloop & H1 & H2 & H3 & H4).
  { intros y Hy. rewrite Hw1. apply elem_of_sql_delete. split; [by apply Hother|].
    apply Hin. by right. }
  exists db'. rewrite Hloop. split; [f_equal; f_equal; lia|]. split; [|split; [|split]].
  - intros id Hid. rewrite H1 by set_solver. apply Hfr. set_solver.
  - intros y [->|Hy]%elem_of_cons.
    + exists r. rewrite H1 by done. done.
    + destruct (H2 y Hy) as (q & Hq & Hq'). exists q. split; [|done].
      rewrite <- Hfr; [done|]. intros Heq. apply Hx. rewrite <- Heq. by apply list_elem_of_fmap_2.
  - intros y [->|Hy]%elem_of_cons Hfresh.
    + eapply signal_loop_steps; [exact Hloop|]. rewrite Hst.
      apply elem_of_insert_or_ignore. right. split; [|done].
      apply any_false. intros s Hs. apply not_true_iff_false. intros Hk%same_step_true.
      by eapply Hfresh.
    + apply H3; [done|]. intros s Hs. rewrite Hst in Hs.
      apply elem_of_insert_or_ignore in Hs as [Hs|[_ ->]]; [by apply Hfresh|].
      unfold step_key. simpl. intros [= Heq _]. apply Hx. rewrite Heq. by apply list_elem_of_fmap_2.
  - intros x. rewrite H4, Hw1, elem_of_sql_delete. setoid_rewrite elem_of_cons. naive_solver.
Qed.

(** Delivering an event wakes exactly the parked runs that wait for it: each
    is due at once, its waiter is gone, and the payload is its step's result
    unless that step already had one; every other run and waiter is untouched,
    and the count returned is the number of runs woken. *)
Lemma signal_wakes_exactly_its_waiters now db ev payload text :
  db_reachable db -> json_to_string payload = Some text ->
  exists db' ws, ws = sql_select (fun w => str_eqb (waiter_event_name w) ev) (event_waiters db)
    /\ signal now db ev payload = (db', Ok (length ws))
    /\ NoDup (waiter_run_id <$> ws)
    /\ (forall w, w ∈ ws -> exists r, find_run (waiter_run_id w) db = Some r
          /\ find_run (waiter_run_id w) db' = Some (set_woken now r) /\ run_status r = pending)
    /\ (forall w, w ∈ ws ->
          (forall s, s ∈ steps db -> step_key s <> (waiter_run_id w, waiter_step_name w)) ->
          mkStep (waiter_run_id w) (waiter_step_name w) text now ∈ steps db')
    /\ (forall x, x ∈ event_waiters db' <-> x ∈ event_waiters db /\ waiter_event_name x <> ev)
    /\ (forall id, id ∉ waiter_run_id <$> ws -> find_run id db' = find_run id db).
Proof.
  intros Hwf%db_reachable_wf Ht. unfold signal. rewrite Ht.
  set (ws := sql_select _ _).
  assert (forall w, w ∈ ws <-> w ∈ event_waiters db /\ waiter_event_name w = ev) as Hws.
  { intros w. unfold ws. rewrite elem_of_sql_select, str_eqb_true. naive_solver. }
  assert (NoDup (waiter_run_id <$> ws)) as Hnd.
  { eapply sublist_NoDup; [apply (wf_waiter_keys _ Hwf)|]. apply sql_select_sublist. }
  destruct (signal_loop_spec now text ws db 0 Hwf Hnd) as (db' & -> & H1 & H2 & H3 & H4).
  { by intros w [? _]%Hws. }
  exists db', ws. split; [done|]. split; [done|]. split; [done|]. split; [|split; [done|split; [|done]]].
  - intros w Hw. destruct (H2 w Hw) as (r & Hr & Hr'). exists r. split; [done|]. split; [done|].
    destruct (wf_parked _ Hwf w) as (r' & Hin & Hid & Hs & _); [by apply Hws|].
    assert (find_run (waiter_run_id w) db = Some r') by (apply find_run_iff; [apply Hwf|done]).
    congruence.
  - intros x. rewrite H4. split; intros [Hx Hno]; (split; [done|]).
    + intros Hev. assert (x ∈ ws) as Hin by (by apply Hws).
      specialize (Hno x Hin). apply not_true_iff_false in Hno. apply Hno. by apply same_waiter_true.
    + intros w Hw. apply not_true_iff_false. intros [Heq _]%same_waiter_true. apply Hno.
      apply Hws in Hw as [Hw <-].
      by rewrite (NoDup_key_eq waiter_run_id _ _ _ (wf_waiter_keys _ Hwf) Hx Hw Heq).
Qed.

(** ** Expired leases *)

(** The two reclaim operations do the same to the database; afterwards no
    running row has an expired lease, rows whose lease is current are untouched,
    and the workers reported are the owners of the reclaimed rows, one per row. *)
Lemma reclaim_releases_expired_leases now db :
  db_reachable db ->
  let '(db', res) := reclaim_expired_with_workers now db in
  exists workers,
    res = Ok workers
    /\ reclaim_expired now db = (db', Ok (length workers))
    /\ Some <$> workers = run_worker_id <$> sql_select (lease_expired now) (runs db)
    /\ (forall id, find_run id db' =
          (fun r => if lease_expired now r then set_reclaimed r else r) <$> find_run id db)
    /\ (forall r, lease_expired now r = true <-> expired_at now r)
    /\ (forall r, r ∈ runs db' -> ~ expired_at now r).
Proof.
  intros Hwf%db_reachable_wf. simpl. eexists. split; [done|].
  assert (Some <$> omap run_worker_id (sql_select (lease_expired now) (runs db))
          = run_worker_id <$> sql_select (lease_expired now) (runs db)) as Hw.
  { assert (forall r, r ∈ sql_select (lease_expired now) (runs db) -> is_Some (run_worker_id r)) as Hsome.
    { intros r [[Hs _]%lease_expired_true Hr]%elem_of_sql_select.
      by destruct (wf_running _ (wf_runs _ Hwf r Hr) Hs). }
    clear -Hsome. induction (sql_select _ _) as [|r l IH]; [done|]. simpl.
    destruct (Hsome r) as [w Hr]; [left|]. rewrite Hr. simpl. f_equal. apply IH.
    intros; apply Hsome; by right. }
  split_and!; [|done| |apply lease_expired_at|].
  - unfold reclaim_expired, sql_count. f_equal. f_equal.
    apply (f_equal length) in Hw. rewrite !length_fmap in Hw. done.
  - intros id. unfold find_run. simpl. by rewrite find_first_update.
  - intros r (r0 & Hr0 & ->)%elem_of_sql_update Hx%lease_expired_at.
    destruct (lease_expired now r0) eqn:E; [done|congruence].
Qed.

(** ** Retention *)

Lemma count_selected db cutoff limit :
  NoDup (run_id <$> runs db) ->
  let sel := sql_select_by finished_key limit (prunable cutoff) (runs db) in
  sql_count (fun r => any (str_eqb (run_id r)) (run_id <$> sel)) (runs db) = length sel.
Proof.
  intros Hn sel. destruct (sql_select_by_split finished_key limit (prunable cutoff) (runs db))
    as (rest & Hperm & _). fold sel in Hperm. unfold sql_count.
  rewrite <- (length_fmap run_id), <- (length_fmap run_id sel). apply Permutation_length, NoDup_Permutation.
  - eapply sublist_NoDup; [exact Hn|]. apply sql_select_sublist.
  - assert (Hs : NoDup (run_id <$> sel ++ rest)).
    { rewrite Hperm. eapply sublist_NoDup; [exact Hn|]. apply sql_select_sublist. }
    rewrite fmap_app in Hs. by apply NoDup_app in Hs as [? _].
  - intros i. split.
    + intros (r & -> & [Hr _]%elem_of_sql_select)%list_elem_of_fmap. by apply any_str_eqb_true.
    + intros (r & -> & Hr)%list_elem_of_fmap. apply list_elem_of_fmap. exists r. split; [done|].
      apply elem_of_sql_select. split; [|by apply elem_of_sql_select_by in Hr as [_ ?]].
      apply any_str_eqb_true, list_elem_of_fmap. eauto.
Qed.

Lemma prune_length (ids : list str) db :
  (length (runs db) = sql_count (fun r => any (str_eqb (run_id r)) ids) (runs db)
                      + length (runs (delete_runs ids db)))%nat.
Proof.
  unfold sql_count, sql_select. simpl. unfold sql_delete.
  induction (runs db) as [|r l IH]; simpl; [done|].
  destruct (any (str_eqb (run_id r)) ids); simpl in *; lia.
Qed.

(** A prunable run that is kept is none of the selected ones. *)
Lemma prune_leaves_later db cutoff limit r' :
  NoDup (run_id <$> runs db) ->
  let sel := sql_select_by finished_key limit (prunable cutoff) (runs db) in
  r' ∈ runs db -> run_id r' ∉ run_id <$> sel -> prunable cutoff r' = true ->
  (forall r, r ∈ sel -> (finished_key r <= finished_key r')%Z) /\ (limit <= length sel)%nat.
Proof.
  intros Hn sel Hr' Hid Hp. destruct (sql_select_by_split finished_key limit (prunable cutoff) (runs db))
    as (rest & Hperm & Hle & Hnil). fold sel in Hperm, Hle, Hnil.
  assert (Hin : r' ∈ sel ++ rest) by (rewrite Hperm; by apply elem_of_sql_select).
  apply elem_of_app in Hin as [Hin|Hin]; [exfalso; apply Hid, list_elem_of_fmap; eauto|].
  split; [eauto|]. destruct (decide (limit <= length sel)); [done|].
  rewrite Hnil in Hin by lia. by apply elem_of_nil in Hin.
Qed.

(** Pruning deletes only terminal runs that finished at or before the cutoff, at
    most [limit] of them, the oldest first, and all of them if they are fewer; it reports
    how many, deletes exactly the checkpoints of the deleted runs with them, and keeps
    every other run. *)
Lemma prune_only_old_finished_runs db cutoff limit :
  db_reachable db ->
  exists db' n, prune_finished_before db cutoff limit = (db', Ok n) /\ (n <= limit)%nat
    /\ (length (runs db) = n + length (runs db'))%nat
    /\ (forall id, find_run id db' = find_run id db
         \/ find_run id db' = None /\ exists r, find_run id db = Some r /\ finished_by cutoff r)
    /\ (forall r r', r ∈ runs db -> find_run (run_id r) db' = None -> r' ∈ runs db' ->
          finished_by cutoff r' -> (finished_key r <= finished_key r')%Z)
    /\ ((n < limit)%nat -> forall r', r' ∈ runs db' -> ~ finished_by cutoff r')
    /\ (forall s, s ∈ steps db' <-> s ∈ steps db /\ is_Some (find_run (step_run_id s) db')).
Proof.
  intros Hwf%db_reachable_wf. pose proof (wf_run_ids _ Hwf) as Hn.
  unfold prune_finished_before. rewrite count_selected by done. eexists _, _. split; [done|].
  pose proof (prune_leaves_later db cutoff limit) as Hlater.
  assert (Hsel : forall r, r ∈ sql_select_by finished_key limit (prunable cutoff) (runs db) ->
                 prunable cutoff r = true /\ r ∈ runs db) by apply elem_of_sql_select_by.
  pose proof (length_sql_select_by finished_key limit (prunable cutoff) (runs db)) as Hlen.
  pose proof (count_selected db cutoff limit Hn) as Hcount.
  set (sel := sql_select_by _ _ _ _) in *. set (ids := run_id <$> sel) in *.
  assert (Hfind : forall id, find_run id (delete_runs ids db)
                    = if any (str_eqb id) ids then None else find_run id db).
  { intros id. unfold find_run. simpl. apply (find_first_delete_ids _ (fun i => any (str_eqb i) ids)). }
  assert (Hkept : forall r', r' ∈ runs (delete_runs ids db) -> r' ∈ runs db /\ run_id r' ∉ ids).
  { intros r' [Ha Hr']%elem_of_sql_delete. split; [done|]. intros Hin. apply any_str_eqb_true in Hin. congruence. }
  split_and!.
  - exact Hlen.
  - rewrite <- Hcount. apply prune_length.
  - intros id. rewrite Hfind. destruct (any (str_eqb id) ids) eqn:E; [|by left]. right. split; [done|].
    apply any_str_eqb_true, list_elem_of_fmap in E as (r & -> & [Hp Hr]%Hsel).
    exists r. split; [by apply find_run_iff|by apply prunable_finished].
  - intros r r' Hr Hgone [Hr' Hid]%Hkept Hp%prunable_finished. apply (Hlater r' Hn Hr' Hid Hp).
    rewrite Hfind in Hgone. destruct (any (str_eqb (run_id r)) ids) eqn:E.
    + apply any_str_eqb_true, list_elem_of_fmap in E as (q & Hq & Hin).
      by rewrite (NoDup_key_eq run_id (runs db) r q Hn Hr (proj2 (Hsel q Hin)) Hq).
    + rewrite (proj2 (find_run_iff (run_id r) db r Hn)) in Hgone; done.
  - intros Hlt r' [Hr' Hid]%Hkept Hp%prunable_finished.
    destruct (Hlater r' Hn Hr' Hid Hp). lia.
  - intros s. rewrite Hfind. simpl. rewrite elem_of_sql_delete.
    destruct (any (str_eqb (step_run_id s)) ids) eqn:E; [split; [naive_solver|by intros [_ []]]|].
    split; [|naive_solver]. intros [_ Hs]. split; [done|]. destruct (wf_step_fk _ Hwf s Hs) as (r & Hr & Hid). exists r. by apply find_run_iff.
Qed.

(** The background passes.  The two reclaim operations do the same to the database;
    afterwards no running row has an expired lease, rows whose lease is current are
    untouched, and the workers reported are the owners of the reclaimed rows, one per row.
    Pruning deletes only terminal runs that finished at or before the cutoff, at most
    [limit] of them, the oldest first, and all of them if they are fewer; it reports how
    many, deletes exactly the checkpoints of the deleted runs with them, and keeps every
    other run. *)
Lemma background_passes_spec now db cutoff limit :
  db_reachable db ->
  (exists db' workers, reclaim_expired_with_workers now db = (db', Ok workers)
     /\ reclaim_expired now db = (db', Ok (length workers))
     /\ Some <$> workers = run_worker_id <$> sql_select (lease_expired now) (runs db)
     /\ (forall id, find_run id db' = (fun r => if lease_expired now r then set_reclaimed r else r) <$> find_run id db)
     /\ (forall r, lease_expired now r = true <-> expired_at now r)
     /\ (forall r, r ∈ runs db' -> ~ expired_at now r))
  /\ (exists db' n, prune_finished_before db cutoff limit = (db', Ok n) /\ (n <= limit)%nat
     /\ (length (runs db) = n + length (runs db'))%nat
     /\ (forall id, find_run id db' = find_run id db
          \/ find_run id db' = None /\ exists r, find_run id db = Some r /\ finished_by cutoff r)
     /\ (forall r r', r ∈ runs db -> find_run (run_id r) db' = None -> r' ∈ runs db' ->
           finished_by cutoff r' -> (finished_key r <= finished_key r')%Z)
     /\ ((n < limit)%nat -> forall r', r' ∈ runs db' -> ~ finished_by cutoff r')
     /\ (forall s, s ∈ steps db' <-> s ∈ steps db /\ is_Some (find_run (step_run_id s) db'))).
Proof.
  intros Hr. split; [|by apply prune_only_old_finished_runs]. pose proof (reclaim_releases_expired_leases now db Hr) as Hx.
  destruct (reclaim_expired_with_workers now db) as [db' res]. destruct Hx as (workers & -> & Hx). by exists db', workers.
Qed.

(** C4: what the store does with its queue.  A claim is answered with the due run of a requested
    workflow that has the smallest [run_at]; that row, and no other, becomes running under the
    caller's id with one more attempt and a lease in the future; nothing is claimed exactly when
    no run is due.  Delivering an event wakes exactly the parked runs that wait for it: each is
    due at once, its waiter is gone, and the payload is the result of its step unless that step
    already had one.  Reclaiming returns exactly the runs with an expired lease and reports
    their owners.  Pruning deletes at most the given number of runs, only ones that finished by
    the cutoff, the oldest first, with their steps. *)
Theorem queue_operations_spec now db :
  db_reachable db ->
  (forall w names lease_ms, (i64_min <= now < i64_max)%Z -> (0 <= lease_ms)%Z ->
     match claim now db w names lease_ms with
     | (_, Err _) => False
     | (db', Ok None) => db' = db /\ forall r, r ∈ runs db -> ~ due_for now names r
     | (db', Ok (Some p)) =>
         exists r lease_until,
           find_run (rp_id p) db = Some r /\ due_for now names r
           /\ (forall r', r' ∈ runs db -> due_for now names r' -> (run_at r <= run_at r')%Z)
           /\ find_run (rp_id p) db' = Some (set_claimed w lease_until r)
           /\ (forall id, id <> rp_id p -> find_run id db' = find_run id db)
           /\ (now <= lease_until <= i64_max)%Z
           /\ ~ expired_at now (set_claimed w lease_until r)
           /\ rp_worker_id p = w /\ rp_name p = run_name r
     end)
  /\ (forall ev payload text, json_to_string payload = Some text ->
     exists db' ws, ws = sql_select (fun w => str_eqb (waiter_event_name w) ev) (event_waiters db)
       /\ signal now db ev payload = (db', Ok (length ws))
       /\ NoDup (waiter_run_id <$> ws)
       /\ (forall w, w ∈ ws -> exists r, find_run (waiter_run_id w) db = Some r
             /\ find_run (waiter_run_id w) db' = Some (set_woken now r) /\ run_status r = pending)
       /\ (forall w, w ∈ ws ->
             (forall s, s ∈ steps db -> step_key s <> (waiter_run_id w, waiter_step_name w)) ->
             mkStep (waiter_run_id w) (waiter_step_name w) text now ∈ steps db')
       /\ (forall x, x ∈ event_waiters db' <-> x ∈ event_waiters db /\ waiter_event_name x <> ev)
       /\ (forall id, id ∉ waiter_run_id <$> ws -> find_run id db' = find_run id db))
  /\ (forall cutoff limit,
     (exists db' workers, reclaim_expired_with_workers now db = (db', Ok workers)
        /\ reclaim_expired now db = (db', Ok (length workers))
        /\ Some <$> workers = run_worker_id <$> sql_select (lease_expired now) (runs db)
        /\ (forall id, find_run id db' = (fun r => if lease_expired now r then set_reclaimed r else r) <$> find_run id db)
        /\ (forall r, lease_expired now r = true <-> expired_at now r)
        /\ (forall r, r ∈ runs db' -> ~ expired_at now r))
     /\ (exists db' n, prune_finished_before db cutoff limit = (db', Ok n) /\ (n <= limit)%nat
        /\ (length (runs db) = n + length (runs db'))%nat
        /\ (forall id, find_run id db' = find_run id db
             \/ find_run id db' = None /\ exists r, find_run id db = Some r /\ finished_by cutoff r)
        /\ (forall r r', r ∈ runs db -> find_run (run_id r) db' = None -> r' ∈ runs db' ->
              finished_by cutoff r' -> (finished_key r <= finished_key r')%Z)
        /\ ((n < limit)%nat -> forall r', r' ∈ runs db' -> ~ finished_by cutoff r')
        /\ (forall s, s ∈ steps db' <-> s ∈ steps db /\ is_Some (find_run (step_run_id s) db')))).
Proof.
  intros Hr. split_and!.
  - intros w names lease_ms. by apply claim_takes_oldest_due_run.
  - intros ev payload text. by apply signal_wakes_exactly_its_waiters.
  - intros cutoff limit. by apply background_passes_spec.
Qed.
End Guarantees.

(** ** Witnesses *)

#[local] Existing Instance text_json.

(** A JSON value of the demonstration instance, where a value is its text. *)
Definition jv (s : string) : @Json text_json := bs s.

Lemma not_owner_demo : ~ owns demo_db2 (bs "job-1") (bs "w2").
Proof. intros (r & Hr & _ & Hw). vm_compute in Hr. injection Hr as <-. vm_compute in Hw. discriminate Hw. Qed.

Lemma stale_worker_writes_nothing_witness :
  exists e, worker_write demo_db2 (bs "job-1") (bs "w2") (WComplete 300) = (demo_db2, Err e)
    /\ (e = StaleWorker \/ malformed (WComplete 300)).
Proof.
  exact (stale_worker_writes_nothing demo_db2 (bs "job-1") (bs "w2") (WComplete 300)
           demo_db2_reachable not_owner_demo).
Defined.

Lemma enqueue_is_idempotent_witness :
  enqueue 500 (bs "m") demo_db1 (bs "mail") (jv "{}") demo_opts
  = (demo_db1, Ok (mkEnqueueRunResponse (bs "job-1") true)).
Proof.
  destruct (enqueue_is_idempotent 100 (bs "n") Db_empty (bs "mail") (jv "{}") demo_opts (bs "job-1")
              demo_db1 (mkEnqueueRunResponse (bs "job-1") false) (jv "{}")) as [_ H];
    [reflexivity|reflexivity|reflexivity|vm_compute; reflexivity|].
  rewrite (H 500%Z (bs "m") (bs "mail") (jv "{}") (jv "{}") demo_opts eq_refl eq_refl).
  rewrite decide_True by (split; reflexivity). reflexivity.
Defined.

Definition demo_step_db : Db := exec (OpSaveStep 250 (bs "job-1") (bs "w1") (bs "a") (jv "1")) demo_db2.

Lemma checkpoint_survives_witness :
  mkStep (bs "job-1") (bs "a") (bs "1") 250 ∈ steps (exec (OpComplete 300 (bs "job-1") (bs "w1")) demo_step_db).
Proof.
  destruct (checkpoint_survives demo_step_db (OpComplete 300 (bs "job-1") (bs "w1"))
              (mkStep (bs "job-1") (bs "a") (bs "1") 250)) as [H|((c & l & H) & _)].
  - apply db_reachable_exec; [exact demo_db2_reachable|exact I].
  - vm_compute. left.
  - exact H.
  - discriminate H.
Defined.

Lemma queue_operations_spec_witness :
  (exists r lease_until, find_run (bs "job-1") demo_db1 = Some r /\ (200 <= lease_until)%Z
     /\ find_run (bs "job-1") demo_db2 = Some (set_claimed (bs "w1") lease_until r))
  /\ (exists db', signal 300 demo_db3 (bs "paid") (jv "yes") = (db', Ok 1))
  /\ (reclaim_expired_with_workers 5000 demo_db2).2 = Ok [bs "w1"]
  /\ exists db' n, prune_finished_before (exec (OpComplete 300 (bs "job-1") (bs "w1")) demo_db2) 400 10 = (db', Ok n) /\ n = 1.
Proof.
  split_and!.
  - destruct (queue_operations_spec 200 demo_db1 demo_db1_reachable) as [Hclaim _].
    destruct (Hclaim (bs "w1") [bs "mail"] 1000%Z) as (r & l & H1 & _ & _ & H2 & _ & H3 & _); [unfold i64_min, i64_max; lia|lia|].
    exists r, l. split; [exact H1|]. split; [lia|exact H2].
  - destruct (queue_operations_spec 300 demo_db3 demo_db3_reachable) as (_ & Hsignal & _).
    destruct (Hsignal (bs "paid") (jv "yes") (bs "yes") eq_refl) as (db' & ws & Hws & H & _).
    exists db'. rewrite H, Hws. vm_compute. reflexivity.
  - destruct (queue_operations_spec 5000 demo_db2 demo_db2_reachable) as (_ & _ & Hpass). destruct (Hpass 0%Z 0) as [(db' & ws & E & _) _].
    rewrite E. vm_compute in E. injection E as _ <-. reflexivity.
  - destruct (queue_operations_spec 0 (exec (OpComplete 300 (bs "job-1") (bs "w1")) demo_db2)) as (_ & _ & Hpass).
    + apply db_reachable_exec; [exact demo_db2_reachable|exact I].
    + destruct (Hpass 400%Z 10) as [_ (db' & n & E & _)]. exists db', n. split; [exact E|]. vm_compute in E. injection E as _ <-. reflexivity.
Defined.
