(* ===== verification/InFlight.v ===== *)
(** * The per-worker in-flight limiter (tako-workflows/src/in_flight.rs)

    A claim is made under an owner name [<worker>:<nanoid>]; the limiter caches the
    owners whose runs it believes to be running and refuses a claim of a worker
    whose budget is used up, after a refresh from the database.  The lemmas
    relate the cache to the rows of the store: [covers] says that every running
    row of a worker is accounted for, and the count of a covering cache is never
    below the number of rows it stands for. *)

From S2P Require Import Prelude RustStr Codec Sql RunsDb RunsInv.

Definition new_claim_owner (worker_id nanoid : str) : str := worker_id ++ ":"%char :: nanoid.

Definition process_worker (claim_owner : str) : str :=
  match rsplit_once ":"%char claim_owner with
  | Some (worker, _) => worker
  | None => claim_owner
  end.

Section Limiter.
Context `{J : JsonApi} `{HI : !HashIter str Z}.

Definition count_worker (claims : gmap str Z) (worker_id : str) : Z :=
  fold_left (fun total '(_, count) => u32_saturating_add total count)
    (retain (fun '(owner, _) => str_eqb (process_worker owner) worker_id) (hash_iter claims)) 0%Z.

Record InFlightLimiter := mkInFlightLimiter {
  max_per_worker : Z;
  claims : gmap str Z;
}.

Definition InFlightLimiter_new (max : Z) : InFlightLimiter := mkInFlightLimiter (Z.max max 1) ∅.

Definition limiter_claim (now : Z) (nanoid : str) (lim : InFlightLimiter) (db : Db)
    (worker_id : str) (names : list str) (lease_ms : Z)
    : InFlightLimiter * Db * result (option RunPayload) RunsDbError :=
  let admit_with claims :=
    let owner := new_claim_owner worker_id nanoid in
    let '(db', run) := claim now db owner names lease_ms in
    match run with
    | Err e => (mkInFlightLimiter (max_per_worker lim) claims, db', Err e)
    | Ok None => (mkInFlightLimiter (max_per_worker lim) claims, db', Ok None)
    | Ok (Some r) =>
        (mkInFlightLimiter (max_per_worker lim) (<[owner := 1%Z]> claims), db', Ok (Some r))
    end in
  if (max_per_worker lim <=? count_worker (claims lim) worker_id)%Z then
    let claims' := in_flight_by_worker db in
    if (max_per_worker lim <=? count_worker claims' worker_id)%Z then
      (mkInFlightLimiter (max_per_worker lim) claims', db, Ok None)
    else admit_with claims'
  else admit_with (claims lim).

Definition release_claim (lim : InFlightLimiter) (claim_owner : str) : InFlightLimiter :=
  match claims lim !! claim_owner with
  | Some count =>
      if (1 <? count)%Z
      then mkInFlightLimiter (max_per_worker lim) (<[claim_owner := (count - 1)%Z]> (claims lim))
      else mkInFlightLimiter (max_per_worker lim) (delete claim_owner (claims lim))
  | None => lim
  end.

Definition rehydrate (lim : InFlightLimiter) (snapshot : gmap str Z) : InFlightLimiter :=
  mkInFlightLimiter (max_per_worker lim) snapshot.

(** ** Owners *)

Lemma process_worker_new_claim_owner worker nanoid :
  ":"%char ∉ nanoid -> process_worker (new_claim_owner worker nanoid) = worker.
Proof.
  intros Hn. unfold process_worker, new_claim_owner.
  replace (rsplit_once ":"%char (worker ++ ":"%char :: nanoid)) with (Some (worker, nanoid)); [done|].
  symmetry. apply rsplit_once_Some. done.
Qed.

(** The owners of the running rows. *)
Definition owners (db : Db) : list str := omap running_owner (runs db).

Definition of_worker (w : str) (o : str) : bool := str_eqb (process_worker o) w.

(** The number of running rows of a worker. *)
Definition in_flight (db : Db) (w : str) : nat := length (retain (of_worker w) (owners db)).

(** ** The saturating count *)

Lemma count_fold_ge (l : list (str * Z)) t :
  (0 <= t)%Z -> (forall o c, (o, c) ∈ l -> (1 <= c)%Z) ->
  (Z.min u32_max (t + Z.of_nat (length l))
   <= fold_left (fun total '(_, count) => u32_saturating_add total count) l t
      \/ (u32_max < t)%Z)%Z.
Proof.
  revert t. induction l as [|[o c] l IH]; simpl; intros t Ht Hc; [left; lia|].
  assert (1 <= c)%Z by (apply (Hc o); left).
  destruct (IH (u32_saturating_add t c)) as [H'|H'].
  - unfold u32_saturating_add, u32_max; lia.
  - intros; eapply Hc; right; done.
  - left. unfold u32_saturating_add, u32_max in *; lia.
  - unfold u32_saturating_add, u32_max in *; lia.
Qed.

(** A cache covers the running rows of a worker when each of their owners holds a
    slot. *)
Record covers (m : gmap str Z) (db : Db) (w : str) : Prop := {
  covers_pos : forall o c, m !! o = Some c -> (1 <= c)%Z;
  covers_owner : forall o, o ∈ owners db -> process_worker o = w -> is_Some (m !! o);
}.

Lemma covers_count m db w :
  covers m db w -> NoDup (owners db) ->
  (Z.min u32_max (Z.of_nat (in_flight db w)) <= count_worker m w)%Z.
Proof.
  intros [Hpos Hown] Hnd. unfold count_worker, in_flight.
  set (l := retain (fun '(owner, _) => str_eqb (process_worker owner) w) (hash_iter m)).
  assert (Hsub : (length (retain (of_worker w) (owners db)) <= length l)%nat).
  { rewrite <- (length_fmap fst l). apply submseteq_length, NoDup_submseteq.
    - rewrite retain_filter. apply NoDup_ListNoDup, List.NoDup_filter, NoDup_ListNoDup, Hnd.
    - intros o [Ho1 Ho2]%elem_of_retain.
      destruct (Hown o Ho2) as [c Hc]; [by apply str_eqb_true|].
      apply list_elem_of_fmap. exists (o, c). split; [done|].
      apply elem_of_retain. split; [exact Ho1|].
      rewrite hash_iter_perm. by apply elem_of_map_to_list. }
  destruct (count_fold_ge l 0) as [H|H]; [lia| |lia|unfold u32_max in H; lia].
  intros o c [_ Hc]%elem_of_retain. rewrite hash_iter_perm in Hc.
  apply elem_of_map_to_list in Hc. by eapply Hpos.
Qed.

(** ** Refresh from the database *)

Lemma in_flight_fold (l : list str) (m : gmap str Z) (o : str) :
  NoDup l -> (forall x, x ∈ l -> m !! x = None) ->
  fold_left (fun (m : gmap str Z) w => <[w := (default 0 (m !! w) + 1)%Z]> m) l m !! o
  = if decide (o ∈ l) then Some 1%Z else m !! o.
Proof.
  revert m. induction l as [|x l IH]; intros m Hnd Hm.
  { rewrite decide_False by apply not_elem_of_nil. done. }
  cbn [fold_left].
  inversion Hnd as [|? ? Hx Hl]; subst.
  rewrite (Hm x) by left. simpl. rewrite IH; [|done|].
  - destruct (decide (o ∈ l)) as [Ho|Ho]; [by rewrite decide_True by set_solver|].
    destruct (decide (o = x)) as [->|Hox].
    + rewrite decide_True by set_solver. by rewrite lookup_insert_eq.
    + rewrite decide_False by set_solver. by rewrite lookup_insert_ne.
  - intros y Hy. rewrite lookup_insert_ne by set_solver. apply Hm. by right.
Qed.

Lemma in_flight_by_worker_lookup db o :
  NoDup (owners db) ->
  in_flight_by_worker db !! o = if decide (o ∈ owners db) then Some 1%Z else None.
Proof.
  intros Hnd. unfold in_flight_by_worker. fold (owners db).
  rewrite lookup_fmap, in_flight_fold; [|done|by intros; rewrite lookup_empty].
  case_decide; [done|]. by rewrite lookup_empty.
Qed.

Lemma covers_refresh db w : NoDup (owners db) -> covers (in_flight_by_worker db) db w.
Proof.
  intros Hnd. split; intros o; rewrite in_flight_by_worker_lookup by done.
  - intros c. case_decide; [|done]. intros [= <-]. lia.
  - intros Ho _. by rewrite decide_True.
Qed.

(** ** Release *)

Lemma max_per_worker_release lim o : max_per_worker (release_claim lim o) = max_per_worker lim.
Proof. unfold release_claim. repeat case_match; done. Qed.

Lemma release_claim_lookup lim o o' :
  o <> o' -> claims (release_claim lim o) !! o' = claims lim !! o'.
Proof.
  intros Hne. unfold release_claim. repeat case_match; simpl; [| |done].
  - by rewrite lookup_insert_ne.
  - by rewrite lookup_delete_ne.
Qed.

(** Releasing an owner that runs nothing keeps the cache covering. *)
Lemma covers_release lim db w o :
  covers (claims lim) db w -> o ∉ owners db -> covers (claims (release_claim lim o)) db w.
Proof.
  intros [Hpos Hown] Ho. split.
  - intros o' c. unfold release_claim.
    destruct (claims lim !! o) as [n|] eqn:Hn; [|apply Hpos].
    destruct (1 <? n)%Z eqn:Hlt; simpl.
    + destruct (decide (o = o')) as [<-|Hne].
      * rewrite lookup_insert_eq. intros [= <-]. lia.
      * rewrite lookup_insert_ne by done. apply Hpos.
    + rewrite lookup_delete_Some. intros [_ H]. by eapply Hpos.
  - intros o' Ho' Hw. rewrite release_claim_lookup; [by apply Hown|]. intros ->. done.
Qed.

Lemma covers_mono m db db' w :
  covers m db w -> (forall o, o ∈ owners db' -> process_worker o = w -> o ∈ owners db) ->
  covers m db' w.
Proof. intros [Hpos Hown] Hsub. split; [done|]. intros o Ho Hw. by apply Hown; [apply Hsub|]. Qed.

(** Reserving the slot of a new owner. *)
Lemma covers_insert m db db' w owner :
  covers m db w -> (forall o, o ∈ owners db' -> o = owner \/ o ∈ owners db) ->
  covers (<[owner := 1%Z]> m) db' w.
Proof.
  intros [Hpos Hown] Hsub. split.
  - intros o c. destruct (decide (o = owner)) as [->|Hne].
    + rewrite lookup_insert_eq. intros [= <-]. lia.
    + rewrite lookup_insert_ne by done. apply Hpos.
  - intros o Ho Hw. destruct (decide (o = owner)) as [->|Hne]; [by rewrite lookup_insert_eq|].
    rewrite lookup_insert_ne by done. destruct (Hsub o Ho) as [->|Ho']; [done|]. by apply Hown.
Qed.
End Limiter.
