(* ===== verification/Cron.v ===== *)
(** * The cron ticker (tako-workflows/src/cron.rs)

    Registration of schedules, the tick that enqueues due schedules, reclaim of
    expired leases and retention.  The [cron] and [chrono] crates are the
    parameter [CronApi]; [CronLaws] is what the code relies on. *)

From S2P Require Import Prelude RustStr Codec Sql RunsDb RunsInv RunsProps InFlight.

Class CronApi := {
  Schedule : Type;
  (** [Schedule::from_str], with the text of a parse error. *)
  schedule_from_str : str -> result Schedule str;
  (** The first element of [schedule.after(t)]; the iterator continues from it. *)
  next_after : Schedule -> Z -> option Z;
  (** [DateTime::from_timestamp_millis] is [Some]. *)
  timestamp_in_range : Z -> bool;
}.

Class CronLaws `(C : CronApi) : Prop := {
  next_after_gt s t t' : next_after s t = Some t' -> (t < t')%Z;
  next_after_in_range s t t' : next_after s t = Some t' -> timestamp_in_range t' = true;
}.

Definition PRUNE_BATCH_SIZE : nat := 1000.
Definition PRUNE_IDLE_INTERVAL_MS : Z := 24 * 60 * 60 * 1000.
Definition PRUNE_BACKLOG_INTERVAL_MS : Z := 60 * 1000.

Section Cron.
Context `{J : JsonApi} `{HI : !HashIter str Z} `{C : CronApi}.

(** The validation loop of [register_schedules]. *)
Fixpoint validate_schedules (specs : list ScheduleSpec) : result unit RunsDbError :=
  match specs with
  | [] => Ok tt
  | s :: rest =>
      let? _ := map_err (fun e => Storage (bs "invalid cron '" ++ spec_cron s ++ bs "' for '"
                           ++ spec_name s ++ bs "': " ++ e)) (schedule_from_str (spec_cron s)) in
      validate_schedules rest
  end.

Definition register_schedules (now : Z) (db : Db) (specs : list ScheduleSpec)
    : Db * result unit RunsDbError :=
  match validate_schedules specs with
  | Err e => (db, Err e)
  | Ok tt => replace_schedules now db specs
  end.

(** The loop over [schedule.after(&after)]: keep the latest boundary that is not
    in the future. *)
Fixpoint fast_forward_loop (fuel : nat) (s : Schedule) (from now : Z) (latest : option Z) : option Z :=
  match fuel with
  | O => latest
  | S fuel' =>
      match next_after s from with
      | None => latest
      | Some t => if (now <? t)%Z then latest else fast_forward_loop fuel' s t now (Some t)
      end
  end.

(** Every boundary is later than the one before, by at least a millisecond. *)
Definition fast_forward (s : Schedule) (after now : Z) : option Z :=
  fast_forward_loop (Z.to_nat (now - after)) s after now None.

(** Where the search of a row starts. *)
Definition row_after (now : Z) (row : ScheduleRow) : Z :=
  match schedule_last_run_at row with
  | Some ts => if timestamp_in_range ts then ts else now
  | None => (now - 1000)%Z
  end.

(** The boundary a row fires for, [None] for an invalid expression or when
    nothing is due. *)
Definition row_due (now : Z) (row : ScheduleRow) : option Z :=
  match schedule_from_str (schedule_cron row) with
  | Err _ => None
  | Ok s => fast_forward s (row_after now row) now
  end.

Definition cron_run_id (name : str) (bucket_ms : Z) : str :=
  bs "cron:" ++ name ++ ":"%char :: show_Z bucket_ms.

Definition cron_opts (name : str) (bucket_ms : Z) : EnqueueOpts :=
  mkEnqueueOpts (Some bucket_ms) None (Some (cron_run_id name bucket_ms)).

(** The loop of [tick_once]; [clock n] is the store's clock at the n-th enqueue. *)
Fixpoint tick_rows (clock : nat -> Z) (now : Z) (rows : list ScheduleRow) (db : Db) (enqueued : nat)
    : Db * result nat RunsDbError :=
  match rows with
  | [] => (db, Ok enqueued)
  | row :: rest =>
      match row_due now row with
      | None => tick_rows clock now rest db enqueued
      | Some bucket_ms =>
          let '(db1, r) := enqueue (clock enqueued) [] db (schedule_name row) Json_empty_object
                             (cron_opts (schedule_name row) bucket_ms) in
          match r with
          | Err e => (db1, Err e)
          | Ok _ =>
              tick_rows clock now rest
                (set_schedule_last_run_at db1 (schedule_name row) bucket_ms) (S enqueued)
          end
      end
  end.

Definition tick_once (clock : nat -> Z) (utc_now : Z) (db : Db) (now_ms : Z)
    : Db * result nat RunsDbError :=
  let now := if timestamp_in_range now_ms then now_ms else utc_now in
  tick_rows clock now (list_schedules db) db 0.

(** The result of one tick: the state, and whether [on_enqueue] was called. *)
Definition tick_and_reclaim (clock : nat -> Z) (utc_now store_now : Z) (db : Db) (now_ms : Z)
    (limiter : option InFlightLimiter) : Db * option InFlightLimiter * bool :=
  let '(db1, tick) := tick_once clock utc_now db now_ms in
  let cron_enqueued := match tick with Ok n => n | Err _ => 0 end in
  let '(db2, reclaimed_workers) :=
    match limiter with
    | Some _ =>
        let '(db2, r) := reclaim_expired_with_workers store_now db1 in
        (db2, match r with Ok workers => workers | Err _ => [] end)
    | None =>
        let '(db2, r) := reclaim_expired store_now db1 in
        (db2, match r with Ok n => replicate n [] | Err _ => [] end)
    end in
  let limiter' := match limiter with
                  | Some lim => Some (fold_left release_claim reclaimed_workers lim)
                  | None => None
                  end in
  (db2, limiter', ((0 <? cron_enqueued)%nat || negb (length reclaimed_workers =? 0)%nat)).

Definition prune_if_due (db : Db) (now_ms : Z) (retention_ms : option Z) (next_at_ms : Z) : Db * Z :=
  match retention_ms with
  | None => (db, next_at_ms)
  | Some retention_ms =>
      if (now_ms <? next_at_ms)%Z then (db, next_at_ms)
      else
        let '(db', r) := prune_finished_before db (i64_saturating_sub now_ms retention_ms)
                           PRUNE_BATCH_SIZE in
        match r with
        | Ok count =>
            let delay := if (count =? PRUNE_BATCH_SIZE)%nat then PRUNE_BACKLOG_INTERVAL_MS
                         else PRUNE_IDLE_INTERVAL_MS in
            (db', i64_saturating_add now_ms delay)
        | Err _ => (db', i64_saturating_add now_ms PRUNE_BACKLOG_INTERVAL_MS)
        end
  end.

(** ** The fast-forward loop *)

(** [t] is one of the instants of [schedule.after(a)]. *)
Inductive fires (s : Schedule) : Z -> Z -> Prop :=
| fires_next a t : next_after s a = Some t -> fires s a t
| fires_later a b t : next_after s a = Some b -> fires s b t -> fires s a t.

(** No boundary of [s] lies in [(a, now]]. *)
Definition quiet (s : Schedule) (a now : Z) : Prop :=
  forall t, next_after s a = Some t -> (now < t)%Z.

Lemma fires_quiet_le s a now t : CronLaws C -> quiet s a now -> fires s a t -> (now < t)%Z.
Proof.
  intros L Hq H. revert Hq.
  induction H as [a t H|a b t H H' IH]; intros Hq; [by apply Hq|].
  apply IH. intros t' Ht'. specialize (Hq b H). pose proof (next_after_gt s b t' Ht'). lia.
Qed.

Lemma fast_forward_loop_spec fuel s from now latest :
  CronLaws C -> (Z.to_nat (now - from) <= fuel)%nat -> (forall t, latest = Some t -> t = from) ->
  match fast_forward_loop fuel s from now latest with
  | None => latest = None /\ quiet s from now
  | Some t => (latest = Some t \/ (fires s from t /\ (t <= now)%Z)) /\ quiet s t now
  end.
Proof.
  intros L. revert from latest. induction fuel as [|fuel IH]; intros from latest Hf Hl; simpl.
  - assert (quiet s from now) as Hq.
    { intros t Ht. pose proof (next_after_gt s from t Ht). lia. }
    destruct latest as [t|]; [|done]. rewrite (Hl t) in * by done. auto.
  - destruct (next_after s from) as [t|] eqn:Hn.
    + pose proof (next_after_gt s from t Hn) as Hlt. destruct (now <? t)%Z eqn:Hgt; bool_to_prop.
      * assert (quiet s from now) as Hq by (intros t' Ht'; congruence).
        destruct latest as [u|]; [|done]. rewrite (Hl u) in * by done. auto.
      * specialize (IH t (Some t)).
        destruct (fast_forward_loop fuel s t now (Some t)) as [u|] eqn:E.
        -- destruct IH as [[Hu|[Hu Hle]] Hq]; [lia|naive_solver| |].
           ++ injection Hu as <-. split; [right|done]. split; [by apply fires_next|done].
           ++ split; [right|done]. split; [by eapply fires_later|done].
        -- destruct IH as [? _]; [lia|naive_solver|done].
    + assert (quiet s from now) as Hq by (intros t' Ht'; congruence).
      destruct latest as [u|]; [|done]. rewrite (Hl u) in * by done. auto.
Qed.

Lemma fast_forward_spec s after now :
  CronLaws C ->
  match fast_forward s after now with
  | None => quiet s after now
  | Some t => fires s after t /\ (t <= now)%Z /\ quiet s t now
  end.
Proof.
  intros L. pose proof (fast_forward_loop_spec (Z.to_nat (now - after)) s after now None L) as H.
  unfold fast_forward. destruct (fast_forward_loop _ _ _ _ _).
  - destruct H as [[?|[? ?]] ?]; [lia|done|done|auto].
  - by destruct H as [_ ?]; [lia|done|].
Qed.

Lemma fast_forward_quiet s after now :
  quiet s after now -> fast_forward s after now = None.
Proof.
  intros Hq. unfold fast_forward. destruct (Z.to_nat (now - after)) as [|n]; [done|]. simpl.
  destruct (next_after s after) as [t|] eqn:Hn; [|done].
  specialize (Hq t Hn). by rewrite (proj2 (Z.ltb_lt now t)).
Qed.

(** ** One tick *)

Lemma enqueue_Ok_id now nanoid db name payload opts id db' resp :
  opt_id opts = Some id -> enqueue now nanoid db name payload opts = (db', Ok resp) ->
  valid_run_id id = true /\ schedules db' = schedules db /\
  ((db' = db /\ exists r, find_run id db = Some r /\ run_name r = name)
   \/ exists r, runs db' = runs db ++ [r] /\ find_run id db = None /\ run_id r = id
        /\ run_name r = name /\ run_status r = pending /\ run_at r = default now (opt_run_at_ms opts)).
Proof.
  intros Hid. unfold enqueue, sqlite_enqueue. rewrite Hid.
  destruct (valid_run_id id); [|done]. destruct (json_to_string payload) as [p|]; [|done]. simpl.
  destruct (any (id_is id) (runs db)) eqn:Ha.
  - destruct (find_first (id_is id) (runs db)) as [r|] eqn:Hr; [|done].
    unfold check_existing_run. destruct (str_eqb (run_name r) name) eqn:Hn; [|done]. simpl.
    destruct (json_from_str (run_payload r)); [|done].
    destruct (bool_decide _); simpl; [|done]. intros [= <- <-].
    split; [done|]. split; [done|]. left. split; [done|].
    exists r. split; [exact Hr|]. by apply str_eqb_true.
  - intros [= <- <-]. split; [done|]. split; [done|]. right. eexists. simpl.
    unfold sql_insert_or_ignore. rewrite Ha. split; [done|]. split; [|done].
    unfold find_run. apply find_first_None. by apply any_false.
Qed.

(** The row after a tick that fired it. *)
Definition advance (now : Z) (row : ScheduleRow) : ScheduleRow :=
  match row_due now row with
  | Some t => mkScheduleRow (schedule_name row) (schedule_cron row) (Some t)
  | None => row
  end.

Definition due (now : Z) (row : ScheduleRow) : bool := bool_decide (is_Some (row_due now row)).

(** A run that the tick created for a due row. *)
Definition cron_run (now : Z) (rows : list ScheduleRow) (r : Run) : Prop :=
  exists row t, row ∈ rows /\ row_due now row = Some t
    /\ run_id r = cron_run_id (schedule_name row) t /\ run_name r = schedule_name row
    /\ run_status r = pending /\ run_at r = t.

Lemma set_last_run_middle done row rest t :
  NoDup (schedule_name <$> done ++ row :: rest) ->
  sql_update (schedule_is (schedule_name row))
    (fun s => mkScheduleRow (schedule_name s) (schedule_cron s) (Some t)) (done ++ row :: rest)
  = done ++ mkScheduleRow (schedule_name row) (schedule_cron row) (Some t) :: rest.
Proof.
  intros Hn. rewrite fmap_app in Hn. simpl in Hn. apply NoDup_app in Hn as (_ & Hd & Hr).
  inversion Hr as [|? ? Hrow _]; subst.
  unfold sql_update. rewrite fmap_app. simpl.
  assert (forall l, schedule_name row ∉ schedule_name <$> l ->
     sql_update (schedule_is (schedule_name row))
       (fun s => mkScheduleRow (schedule_name s) (schedule_cron s) (Some t)) l = l) as Hskip.
  { intros l Hl. apply sql_update_none. intros s Hs. apply str_eqb_false. intros Heq.
    apply Hl. rewrite <- Heq. by apply list_elem_of_fmap_2. }
  unfold sql_update in Hskip. rewrite !Hskip; [|done|].
  - unfold schedule_is. by rewrite (proj2 (str_eqb_true _ _)).
  - intros Hin. eapply Hd; [exact Hin|left].
Qed.

Lemma tick_rows_Ok clock now rows : forall dn db n db' m,
  NoDup (schedule_name <$> dn ++ rows) -> schedules db = dn ++ rows ->
  tick_rows clock now rows db n = (db', Ok m) ->
  schedules db' = dn ++ (advance now <$> rows)
  /\ m = (n + length (retain (due now) rows))%nat
  /\ exists new, runs db' = runs db ++ new /\ Forall (cron_run now rows) new
       /\ forall row t, row ∈ rows -> row_due now row = Some t ->
            exists r, r ∈ runs db' /\ run_id r = cron_run_id (schedule_name row) t
              /\ run_name r = schedule_name row.
Proof.
  induction rows as [|row rows IH]; intros dn db n db' m Hn Hs; simpl.
  - intros [= <- <-]. split; [by rewrite Hs|]. split; [lia|]. exists []. rewrite app_nil_r.
    split; [done|]. split; [constructor|]. intros ? ? H. by apply elem_of_nil in H.
  - assert (Hweak : forall r, cron_run now rows r -> cron_run now (row :: rows) r).
    { intros r (row' & t & Hin & H). exists row', t. split; [by right|done]. }
    unfold advance at 1, due at 1. destruct (row_due now row) as [t|] eqn:Hdue.
    + destruct (enqueue _ _ _ _ _ _) as [db1 [resp|e]] eqn:Henq; [|done]. intros Htick.
      destruct (enqueue_Ok_id _ _ _ _ _ (cron_opts (schedule_name row) t) _ _ _ eq_refl Henq) as (_ & Hs1 & Hruns).
      set (row' := mkScheduleRow (schedule_name row) (schedule_cron row) (Some t)) in *.
      destruct (IH (dn ++ [row']) (set_schedule_last_run_at db1 (schedule_name row) t) (S n) db' m)
        as (Hs' & Hm & new & Hnew & Hcron & Hall); [| |exact Htick|].
      * rewrite <- app_assoc. rewrite fmap_app in Hn |- *. exact Hn.
      * unfold set_schedule_last_run_at, set_schedules. cbn [schedules].
        rewrite Hs1, Hs, set_last_run_middle by done. by rewrite <- app_assoc.
      * split; [by rewrite Hs', <- app_assoc|].
        split; [rewrite bool_decide_eq_true_2 by eauto; simpl; lia|].
        destruct Hruns as [[-> (r & Hr & Hname)]|(r & Hr1 & _ & Hid & Hname & Hst & Hat)].
        -- apply find_run_Some in Hr as [Hr Hid]. simpl in Hnew. exists new. split; [done|].
           split; [by eapply Forall_impl|]. intros row0 t0 [->|Hin]%elem_of_cons Ht0.
           ++ rewrite Hdue in Ht0. injection Ht0 as <-. exists r. rewrite Hnew, elem_of_app. auto.
           ++ by apply Hall.
        -- simpl in Hnew. rewrite Hr1, <- app_assoc in Hnew. exists (r :: new). split; [done|].
           split.
           ++ constructor; [|by eapply Forall_impl]. exists row, t. split; [left|]. done.
           ++ intros row0 t0 [->|Hin]%elem_of_cons Ht0; [|by apply Hall].
              rewrite Hdue in Ht0. injection Ht0 as <-. exists r. rewrite Hnew.
              split; [set_solver|done].
    + intros Htick. destruct (IH (dn ++ [row]) db n db' m) as (Hs' & Hm & new & Hnew & Hcron & Hall);
        [by rewrite <- app_assoc|by rewrite <- app_assoc|done|].
      split; [by rewrite Hs', <- app_assoc|]. split; [by rewrite bool_decide_eq_false_2 by (intros [? [=]])|].
      exists new. split; [done|]. split; [by eapply Forall_impl|].
      intros row0 t0 [->|Hin]%elem_of_cons Ht0; [congruence|by apply Hall].
Qed.

Lemma tick_rows_quiet clock now rows db n :
  (forall row, row ∈ rows -> row_due now row = None) -> tick_rows clock now rows db n = (db, Ok n).
Proof.
  induction rows as [|row rows IH]; simpl; intros H; [done|].
  rewrite (H row) by left. apply IH. intros; apply H; by right.
Qed.

Lemma advance_not_due now row : CronLaws C -> row_due now (advance now row) = None.
Proof.
  intros L. unfold advance. destruct (row_due now row) as [t|] eqn:Hd; [|done].
  unfold row_due in *. cbn [schedule_cron]. destruct (schedule_from_str (schedule_cron row)) as [s|]; [|done].
  pose proof (fast_forward_spec s (row_after now row) now L) as Hff. rewrite Hd in Hff.
  destruct Hff as (Hf & _ & Hq). apply fast_forward_quiet. unfold row_after. cbn [schedule_last_run_at].
  assert (timestamp_in_range t = true) as ->; [|done].
  clear -Hf L. induction Hf as [a t H|]; [|done]. by eapply next_after_in_range.
Qed.

(** ** When a row is due, told without the loop *)

(** Where the boundaries of a row are counted from. *)
Inductive starts_from (now : Z) (row : ScheduleRow) : Z -> Prop :=
| starts_at_last_run ts : schedule_last_run_at row = Some ts -> timestamp_in_range ts = true ->
    starts_from now row ts
| starts_now ts : schedule_last_run_at row = Some ts -> timestamp_in_range ts = false ->
    starts_from now row now
| starts_a_second_ago : schedule_last_run_at row = None -> starts_from now row (now - 1000).

Definition due_at (now : Z) (row : ScheduleRow) (t : Z) : Prop :=
  exists s from, schedule_from_str (schedule_cron row) = Ok s /\ starts_from now row from
    /\ fires s from t /\ (t <= now)%Z /\ forall t', fires s t t' -> (now < t')%Z.

Lemma starts_from_row_after now row from : starts_from now row from <-> from = row_after now row.
Proof.
  unfold row_after. split.
  - intros [ts H Hr|ts H Hr|H]; by rewrite H, ?Hr.
  - intros ->. destruct (schedule_last_run_at row) as [ts|] eqn:H; [|by constructor].
    destruct (timestamp_in_range ts) eqn:Hr; [by eapply starts_at_last_run|by eapply starts_now].
Qed.

Lemma fires_gt s a t : CronLaws C -> fires s a t -> (a < t)%Z.
Proof.
  intros L. induction 1 as [a t H|a b t H _ IH]; [by eapply next_after_gt|].
  pose proof (next_after_gt s a b H). lia.
Qed.

Lemma fires_total s a t u : fires s a t -> fires s a u -> t = u \/ fires s t u \/ fires s u t.
Proof.
  intros Ht Hu. revert u Hu. induction Ht as [a t H|a b t H Ht IH]; intros u Hu.
  - inversion Hu as [? ? H'|? b ? H' Hb]; subst; rewrite H in H'; injection H' as <-; auto.
  - inversion Hu as [? ? H'|? b' ? H' Hb]; subst; rewrite H in H'; injection H' as <-; auto.
Qed.

Lemma row_due_passed (L : CronLaws C) now row s from t0 :
  schedule_from_str (schedule_cron row) = Ok s -> starts_from now row from ->
  fires s from t0 -> (t0 <= now)%Z -> exists t, row_due now row = Some t /\ (t0 <= t)%Z.
Proof.
  intros Hs ->%starts_from_row_after Hf Hle. unfold row_due. rewrite Hs.
  pose proof (fast_forward_spec s (row_after now row) now L) as H.
  destruct (fast_forward _ _ _) as [t|]; [|pose proof (fires_quiet_le _ _ _ _ L H Hf); lia].
  destruct H as (Ht & Hn & Hq). exists t. split; [done|].
  destruct (fires_total _ _ _ _ Hf Ht) as [->|[H|H]]; [lia|pose proof (fires_gt _ _ _ L H); lia|].
  pose proof (fires_quiet_le _ _ _ _ L Hq H). lia.
Qed.

Lemma row_due_iff (L : CronLaws C) now row t : row_due now row = Some t <-> due_at now row t.
Proof.
  split.
  - unfold row_due. destruct (schedule_from_str _) as [s|] eqn:Hs; [|done]. intros Hd.
    pose proof (fast_forward_spec s (row_after now row) now L) as H. rewrite Hd in H.
    destruct H as (H1 & H2 & H3). exists s, (row_after now row).
    rewrite starts_from_row_after. split_and!; [done..|]. intros t' Ht'. by eapply fires_quiet_le.
  - intros (s & from & Hs & Hfrom & Hf & Hle & Hlast).
    destruct (row_due_passed L now row s from t) as (u & Hu & Htu); [done..|]. rewrite Hu. f_equal.
    apply starts_from_row_after in Hfrom as ->. unfold row_due in Hu. rewrite Hs in Hu.
    pose proof (fast_forward_spec s (row_after now row) now L) as H. rewrite Hu in H.
    destruct H as (H1 & H2 & _).
    destruct (fires_total _ _ _ _ Hf H1) as [->|[H|H]]; [done|apply Hlast in H; lia|].
    pose proof (fires_gt _ _ _ L H). lia.
Qed.

(** ** Registration *)

Definition find_schedule (name : str) (t : list ScheduleRow) : option ScheduleRow :=
  find_first (schedule_is name) t.

Definition spec_is (name : str) (p : ScheduleSpec) : bool := str_eqb (spec_name p) name.

Definition upsert_spec (now : Z) (t : list ScheduleRow) (p : ScheduleSpec) : list ScheduleRow :=
  sql_upsert (schedule_is (spec_name p)) (mkScheduleRow (spec_name p) (spec_cron p) (Some now))
    (fun s => mkScheduleRow (schedule_name s) (spec_cron p) (schedule_last_run_at s)) t.

(** The row a spec leaves behind, given the row of that name before. *)
Definition registered (now : Z) (old : option ScheduleRow) (p : ScheduleSpec) : ScheduleRow :=
  mkScheduleRow (spec_name p) (spec_cron p)
    (match old with Some s => schedule_last_run_at s | None => Some now end).

Lemma find_schedule_upsert now t p name :
  find_schedule name (upsert_spec now t p) =
  if str_eqb (spec_name p) name then Some (registered now (find_schedule name t) p)
  else find_schedule name t.
Proof.
  unfold find_schedule, upsert_spec, sql_upsert. destruct (any _ t) eqn:Ha.
  - rewrite find_first_sql_update by done.
    destruct (find_first (schedule_is name) t) as [s|] eqn:Hf; simpl.
    + apply find_first_Some in Hf as [Hs%str_eqb_true _].
      unfold schedule_is, registered. destruct (str_eqb (spec_name p) name) eqn:Hn.
      * apply str_eqb_true in Hn. rewrite (proj2 (str_eqb_true _ _)) by congruence. congruence.
      * apply str_eqb_false in Hn. by rewrite (proj2 (str_eqb_false _ _)) by congruence.
    + destruct (str_eqb (spec_name p) name) eqn:Hn; [|done]. apply str_eqb_true in Hn. subst name.
      rewrite find_first_None in Hf. apply any_true in Ha as (s & Hs & Hn). by rewrite Hf in Hn.
  - rewrite any_false in Ha. assert (find_first (schedule_is (spec_name p)) t = None) as Hnone
      by (by apply find_first_None).
    assert (forall l, find_first (schedule_is name) (t ++ l) =
      match find_first (schedule_is name) t with Some s => Some s | None => find_first (schedule_is name) l end)
      as ->. { intros l. clear. induction t as [|s t IH]; simpl; [done|]. by destruct (schedule_is name s). }
    simpl. change (schedule_is name (mkScheduleRow _ _ _)) with (str_eqb (spec_name p) name).
    destruct (str_eqb (spec_name p) name) eqn:Hn; [|by destruct (find_first (schedule_is name) t)].
    apply str_eqb_true in Hn. subst name. by rewrite Hnone.
Qed.

Lemma find_schedule_fold now specs t name :
  find_schedule name (fold_left (upsert_spec now) specs t) =
  match find_first (spec_is name) (rev specs) with
  | Some p => Some (registered now (find_schedule name t) p)
  | None => find_schedule name t
  end.
Proof.
  induction specs as [|p specs IH] using rev_ind; [done|].
  rewrite fold_left_app, rev_app_distr. simpl. rewrite find_schedule_upsert, IH.
  change (spec_is name p) with (str_eqb (spec_name p) name).
  destruct (str_eqb (spec_name p) name) eqn:Hn; [|done].
  apply str_eqb_true in Hn. destruct (find_first _ (rev specs)) as [q|] eqn:Hq; [|done].
  unfold registered. simpl. by destruct (find_schedule name t).
Qed.

Lemma find_schedule_kept specs t name :
  find_schedule name (sql_delete (fun s => negb (any (fun p => schedule_is (spec_name p) s) specs)) t)
  = if any (spec_is name) specs then find_schedule name t else None.
Proof.
  unfold find_schedule, sql_delete. induction t as [|s t IH]; simpl; [by destruct (any _ _)|].
  rewrite negb_involutive.
  assert (schedule_is name s = true ->
    any (fun p => schedule_is (spec_name p) s) specs = any (spec_is name) specs) as Hs.
  { intros Hs%str_eqb_true. unfold any, schedule_is, spec_is, str_eqb. rewrite Hs.
    clear. induction specs as [|p l IHl]; simpl; [done|]. rewrite IHl. f_equal.
    by apply bool_decide_ext. }
  destruct (schedule_is name s) eqn:Hn.
  - rewrite Hs by done. destruct (any (spec_is name) specs); simpl; [by rewrite Hn|by rewrite IH].
  - destruct (any (fun p => schedule_is (spec_name p) s) specs); simpl; [|exact IH].
    rewrite Hn. exact IH.
Qed.

Lemma any_rev_find {A} (p : A -> bool) (l : list A) :
  any p l = bool_decide (is_Some (find_first p (rev l))).
Proof.
  destruct (find_first p (rev l)) as [x|] eqn:H.
  - apply find_first_Some in H as [Hp Hx]. rewrite list_elem_of_In, <- in_rev in Hx.
    rewrite bool_decide_eq_true_2 by eauto. apply existsb_exists. eauto.
  - rewrite bool_decide_eq_false_2 by (intros [? [=]]). rewrite find_first_None in H.
    apply not_true_iff_false. intros (x & Hx & Hp)%existsb_exists.
    rewrite in_rev, <- list_elem_of_In in Hx. rewrite H in Hp; done.
Qed.

Lemma find_schedule_replace now db specs name :
  find_schedule name (schedules (replace_schedules now db specs).1) =
  match find_first (spec_is name) (rev specs) with
  | Some p => Some (registered now (find_schedule name (schedules db)) p)
  | None => None
  end.
Proof.
  unfold replace_schedules. cbn [fst set_schedules schedules].
  change (fold_left _ specs ?k) with (fold_left (upsert_spec now) specs k).
  rewrite find_schedule_fold. destruct specs as [|p0 specs]; [done|].
  rewrite find_schedule_kept, any_rev_find.
  destruct (find_first (spec_is name) (rev (p0 :: specs))); [|done].
  by rewrite bool_decide_eq_true_2 by eauto.
Qed.

Lemma validate_schedules_Ok specs :
  validate_schedules specs = Ok tt <->
  forall p, p ∈ specs -> is_ok (schedule_from_str (spec_cron p)) = true.
Proof.
  induction specs as [|p specs IH]; simpl; [split; [intros _ p []%elem_of_nil|done]|].
  destruct (schedule_from_str (spec_cron p)) as [s|e] eqn:Hp; simpl.
  - rewrite IH. split; intros H q; [|intros Hq; apply H; by right].
    intros [->|Hq]%elem_of_cons; [by rewrite Hp|by apply H].
  - split; [done|]. intros H. specialize (H p). rewrite Hp in H. by discriminate H; left.
Qed.
End Cron.

Section CronClaims.
Context `{J : JsonApi} `{HI : !HashIter str Z} `{C : CronApi}.


(** A tick is idempotent: a second tick at the same instant, whatever the
    clocks read, enqueues nothing and leaves the database as the first left it. *)
Lemma tick_once_is_idempotent (L : CronLaws C) clock clock2 utc_now utc_now2 db now_ms db' n :
  db_wf db -> timestamp_in_range now_ms = true ->
  tick_once clock utc_now db now_ms = (db', Ok n) ->
  tick_once clock2 utc_now2 db' now_ms = (db', Ok 0).
Proof.
  intros Hwf Hr Ht. unfold tick_once in *. rewrite Hr in *.
  destruct (tick_rows_Ok clock now_ms (schedules db) [] db 0 db' n) as (Hs & _);
    [apply Hwf|done|exact Ht|].
  apply tick_rows_quiet. unfold list_schedules. rewrite Hs.
  intros row (row0 & -> & _)%list_elem_of_fmap. by apply advance_not_due.
Qed.

(** Registration replaces the schedules: with valid expressions the table holds
    exactly the registered names, each with its newly registered expression (the last
    one given for the name) and the last run it had before, or the current time for a
    new name; with any invalid expression nothing changes and an error is returned. *)
Lemma register_schedules_spec now db specs :
  let '(db', res) := register_schedules now db specs in
  ((forall p, p ∈ specs -> is_ok (schedule_from_str (spec_cron p)) = true) ->
     res = Ok tt /\ forall name, find_schedule name (schedules db') =
       match find_first (spec_is name) (rev specs) with
       | Some p => Some (registered now (find_schedule name (schedules db)) p)
       | None => None
       end)
  /\ (~ (forall p, p ∈ specs -> is_ok (schedule_from_str (spec_cron p)) = true) ->
      db' = db /\ is_ok res = false)
  /\ runs db' = runs db /\ steps db' = steps db /\ event_waiters db' = event_waiters db.
Proof.
  unfold register_schedules. pose proof (validate_schedules_Ok specs) as Hv.
  destruct (validate_schedules specs) as [[]|e] eqn:E.
  - destruct (replace_schedules now db specs) as [db' res] eqn:Er.
    pose proof (find_schedule_replace now db specs) as Hf. rewrite Er in Hf.
    injection Er as <- <-. split; [by intros _|]. split; [|done]. intros H. destruct H. by apply Hv.
  - split; [intros H; apply Hv in H; done|]. split; [done|done].
Qed.

(** A schedule whose run id [cron:<name>:<boundary>] is longer than 255 bytes
    aborts every tick once it is due: the tick returns [InvalidId], changes nothing, and
    fires none of the schedules behind it in the table. *)
Lemma oversized_schedule_name_stops_tick clock utc_now db now_ms row rest t :
  schedules db = row :: rest -> timestamp_in_range now_ms = true ->
  row_due now_ms row = Some t -> (255 < length (cron_run_id (schedule_name row) t))%nat ->
  tick_once clock utc_now db now_ms = (db, Err InvalidId).
Proof.
  intros Hs Hr Hd Hlen. unfold tick_once, list_schedules. rewrite Hr, Hs. cbn [tick_rows]. rewrite Hd.
  unfold enqueue. cbn [cron_opts opt_id]. unfold valid_run_id.
  rewrite (proj2 (Nat.ltb_lt _ _) Hlen). by rewrite orb_true_r.
Qed.
End CronClaims.

(** ** A concrete calendar: an expression is a period in seconds *)

Definition demo_in_range (t : Z) : bool := (Z.abs t <=? 8000000000000000)%Z.

Definition demo_next (period t : Z) : option Z :=
  let t' := ((t / period + 1) * period)%Z in
  if (0 <? period)%Z && demo_in_range t' then Some t' else None.

Definition demo_cron : CronApi := {|
  Schedule := Z;
  schedule_from_str s :=
    match parse_u32 s with Some n => Ok (n * 1000)%Z | None => Err (bs "no number") end;
  next_after := demo_next;
  timestamp_in_range := demo_in_range;
|}.

Lemma demo_cron_laws : CronLaws demo_cron.
Proof.
  split; cbn; intros s t t'; unfold demo_next; destruct (0 <? s)%Z eqn:Hs; [|done| |done]; simpl;
    destruct (demo_in_range _) eqn:Hr; [|done| |done]; intros [= <-]; [|done].
  apply Z.ltb_lt in Hs. pose proof (Z.mod_pos_bound t s Hs). pose proof (Z.div_mod t s). nia.
Qed.

#[local] Existing Instance demo_cron.
#[local] Existing Instance text_json.

(** A minute job whose last run was three minutes ago, and an hourly job. *)
Definition demo_schedules : Db :=
  mkDb [] [] [mkScheduleRow (bs "minute") (bs "60") (Some 120000%Z);
              mkScheduleRow (bs "hour") (bs "3600") (Some 120000%Z)] [].

Definition demo_ticked : Db := (tick_once (fun _ => 300500%Z) 0 demo_schedules 300500).1.

Lemma demo_schedules_wf : db_wf demo_schedules.
Proof.
  constructor; simpl; try (intros ? []%elem_of_nil); try constructor; try set_solver.
  vm_compute. repeat constructor; set_solver.
Qed.

Lemma demo_tick : tick_once (fun _ => 300500%Z) 0 demo_schedules 300500 = (demo_ticked, Ok 1).
Proof. vm_compute. reflexivity. Qed.

(** A minute job of which exactly one boundary, 300000, has passed. *)
Definition demo_single : Db :=
  mkDb [] [] [mkScheduleRow (bs "minute") (bs "60") (Some 299999%Z)] [].

Definition demo_single_ticked : Db := (tick_once (fun _ => 300500%Z) 0 demo_single 300500).1.


Lemma tick_once_is_idempotent_witness :
  tick_once (fun _ => 300501%Z) 0 demo_ticked 300500 = (demo_ticked, Ok 0).
Proof.
  exact (tick_once_is_idempotent demo_cron_laws (fun _ => 300500%Z) (fun _ => 300501%Z) 0 0
           demo_schedules 300500 demo_ticked 1 demo_schedules_wf eq_refl demo_tick).
Defined.

Definition long_name_row : ScheduleRow :=
  mkScheduleRow (replicate 250 "x"%char) (bs "60") (Some 120000%Z).

Definition long_name_db : Db :=
  mkDb [] [] [long_name_row; mkScheduleRow (bs "minute") (bs "60") (Some 120000%Z)] [].

Lemma oversized_schedule_name_stops_tick_witness :
  (register_schedules 0 Db_empty [mkScheduleSpec (replicate 250 "x"%char) (bs "60")]).2 = Ok tt
  /\ tick_once (fun _ => 300500%Z) 0 long_name_db 300500 = (long_name_db, Err InvalidId).
Proof.
  split; [vm_compute; reflexivity|].
  apply (oversized_schedule_name_stops_tick _ _ long_name_db 300500 long_name_row
           [mkScheduleRow (bs "minute") (bs "60") (Some 120000%Z)] 300000);
    [reflexivity|reflexivity|vm_compute; reflexivity|vm_compute; lia].
Defined.
