(* ===== verification/WorkflowSocket.v ===== *)
(** * The internal socket of the workflow engine (tako-workflows/src/enqueue_socket.rs)

    [handle_command] is the dispatcher of every SDK request: peer authorization,
    the route of channel publishes, the lookup of the app, and the handler of each
    workflow command over the app's store and limiter.  The publish closure acts on a
    channel store that is part of the state, so a publish has an effect here too.
    The lemmas on [owners] say which store operations may add a running row; the
    in-flight budget over all interleavings is in WorkflowHost. *)

From S2P Require Import Prelude RustStr Codec Sql RunsDb RunsInv RunsProps InFlight Cron.

Section Socket.
Context `{J : JsonApi} `{HI : !HashIter str Z} `{C : CronApi}.

Inductive Command :=
| EnqueueRun (app name : str) (payload : Json) (opts : EnqueueOpts)
| RegisterSchedules (app : str) (specs : list ScheduleSpec)
| ClaimRun (app worker_id : str) (names : list str) (lease_ms : Z)
| HeartbeatRun (app id worker_id : str) (lease_ms : Z)
| SaveStep (app id worker_id step_name : str) (value : Json)
| CompleteRun (app id worker_id : str)
| CancelRun (app id worker_id : str) (reason : option str)
| FailRun (app id worker_id error : str) (next_run_at_ms : option Z) (finalize : bool)
| DeferRun (app id worker_id : str) (wake_at_ms : option Z)
| WaitForEvent (app id worker_id step_name event_name : str) (timeout_at_ms : option Z)
| Signal (app event_name : str) (payload : Json)
| ChannelPublish (app channel : str) (payload : Json)
| ManagementCommand.  (** the remaining constructors, all of the management socket *)

(** The JSON body of a successful response. *)
Inductive ResponseBody :=
| BodyEmpty                                   (** [{}] *)
| BodyNull                                    (** [null] *)
| BodyEnqueued (r : EnqueueRunResponse)
| BodyCount (n : nat)                         (** [{"count": n}] *)
| BodyRun (r : RunPayload)
| BodyWoken (n : nat)                         (** [{"woken": n}] *)
| BodyMessage (m : Json).

(** The reason of an error response: the message's constant text and its argument. *)
Inductive ResponseError :=
| NotAccepted
| PeerRejected (reason : str)
| PublishNotConfigured
| PublishFailed (reason : str)
| UnknownApp (app : str)
| Draining
| WorkerUnhealthy (reason : str)
| StoreFailed (operation : str) (e : RunsDbError).

Definition Response : Type := result ResponseBody ResponseError.

Record AppHandlers := mkAppHandlers {
  h_db : Db;
  h_limiter : InFlightLimiter;
  accepting_new_work : bool;
  health_check : result unit str;
  on_enqueue_calls : nat;   (** how often the callbacks fired *)
  on_claimed_calls : nat;
}.

Definition set_db (h : AppHandlers) (db : Db) : AppHandlers :=
  mkAppHandlers db (h_limiter h) (accepting_new_work h) (health_check h)
    (on_enqueue_calls h) (on_claimed_calls h).
Definition set_limiter (h : AppHandlers) (lim : InFlightLimiter) : AppHandlers :=
  mkAppHandlers (h_db h) lim (accepting_new_work h) (health_check h)
    (on_enqueue_calls h) (on_claimed_calls h).
Definition on_enqueue (h : AppHandlers) : AppHandlers :=
  mkAppHandlers (h_db h) (h_limiter h) (accepting_new_work h) (health_check h)
    (S (on_enqueue_calls h)) (on_claimed_calls h).
Definition on_claimed (h : AppHandlers) : AppHandlers :=
  mkAppHandlers (h_db h) (h_limiter h) (accepting_new_work h) (health_check h)
    (on_enqueue_calls h) (S (on_claimed_calls h)).

Definition command_app (cmd : Command) : option str :=
  match cmd with
  | EnqueueRun app _ _ _ | RegisterSchedules app _ | ClaimRun app _ _ _ | HeartbeatRun app _ _ _
  | SaveStep app _ _ _ _ | CompleteRun app _ _ | CancelRun app _ _ _ | FailRun app _ _ _ _ _
  | DeferRun app _ _ _ | WaitForEvent app _ _ _ _ _ | Signal app _ _ | ChannelPublish app _ _ =>
      Some app
  | ManagementCommand => None
  end.

(** The authorization closure is a function of the app and the peer's uid. *)
Definition authorize_peer (peer_auth : option (str -> Z -> result unit str)) (peer_uid : option Z)
    (app : str) : result unit str :=
  match peer_auth with
  | None => Ok tt
  | Some auth =>
      match peer_uid with
      | None => Err (bs "missing peer credentials")
      | Some uid => auth app uid
      end
  end.

(** The shape of the handlers that end an attempt: a successful store write
    releases the claim. *)
Definition finish (h : AppHandlers) (operation worker_id : str) (w : Db * result unit RunsDbError)
    : AppHandlers * Response :=
  let '(db', r) := w in
  match r with
  | Ok tt => (set_limiter (set_db h db') (release_claim (h_limiter h) worker_id), Ok BodyEmpty)
  | Err e => (set_db h db', Err (StoreFailed operation e))
  end.

Definition handle_workflow (now : Z) (nanoid : str) (h : AppHandlers) (cmd : Command)
    : AppHandlers * Response :=
  match cmd with
  | EnqueueRun _ name payload opts =>
      if negb (accepting_new_work h) then (h, Err Draining)
      else match health_check h with
           | Err reason => (h, Err (WorkerUnhealthy reason))
           | Ok tt =>
               let '(db', r) := enqueue now nanoid (h_db h) name payload opts in
               match r with
               | Ok r => (on_enqueue (set_db h db'), Ok (BodyEnqueued r))
               | Err e => (set_db h db', Err (StoreFailed (bs "enqueue") e))
               end
           end
  | RegisterSchedules _ specs =>
      if negb (accepting_new_work h) then (h, Ok (BodyCount 0))
      else let '(db', r) := register_schedules now (h_db h) specs in
           match r with
           | Ok tt => (set_db h db', Ok (BodyCount (length specs)))
           | Err e => (set_db h db', Err (StoreFailed (bs "register_schedules") e))
           end
  | ClaimRun _ worker_id names lease_ms =>
      if negb (accepting_new_work h) then (h, Ok BodyNull)
      else let '(lim', db', r) :=
             limiter_claim now nanoid (h_limiter h) (h_db h) worker_id names lease_ms in
           let h' := set_limiter (set_db h db') lim' in
           match r with
           | Ok (Some run) => (on_claimed h', Ok (BodyRun run))
           | Ok None => (h', Ok BodyNull)
           | Err e => (h', Err (StoreFailed (bs "claim") e))
           end
  | HeartbeatRun _ id worker_id lease_ms =>
      let '(db', r) := heartbeat now (h_db h) id worker_id lease_ms in
      (set_db h db', match r with
                     | Ok tt => Ok BodyEmpty
                     | Err e => Err (StoreFailed (bs "heartbeat") e)
                     end)
  | SaveStep _ id worker_id step_name value =>
      let '(db', r) := save_step now (h_db h) id worker_id step_name value in
      (set_db h db', match r with
                     | Ok tt => Ok BodyEmpty
                     | Err e => Err (StoreFailed (bs "save_step") e)
                     end)
  | CompleteRun _ id worker_id =>
      finish h (bs "complete") worker_id (complete now (h_db h) id worker_id)
  | CancelRun _ id worker_id reason =>
      finish h (bs "cancel") worker_id (cancel now (h_db h) id worker_id reason)
  | FailRun _ id worker_id error next_run_at_ms finalize =>
      finish h (bs "fail") worker_id (fail now (h_db h) id worker_id error next_run_at_ms finalize)
  | DeferRun _ id worker_id wake_at_ms =>
      finish h (bs "defer") worker_id (defer (h_db h) id worker_id wake_at_ms)
  | WaitForEvent _ id worker_id step_name event_name timeout_at_ms =>
      finish h (bs "wait_for_event") worker_id
        (wait_for_event (h_db h) id worker_id step_name event_name timeout_at_ms)
  | Signal _ event_name payload =>
      let '(db', r) := signal now (h_db h) event_name payload in
      match r with
      | Ok woken => ((if (0 <? woken)%nat then on_enqueue (set_db h db') else set_db h db'),
                     Ok (BodyWoken woken))
      | Err e => (set_db h db', Err (StoreFailed (bs "signal") e))
      end
  | ChannelPublish _ _ _ | ManagementCommand => (h, Err NotAccepted)  (** unreachable *)
  end.

(** [St] is the state behind the publish closure (the channel stores). *)
Definition handle_command {St : Type} (now : Z) (nanoid : str) (apps : gmap str AppHandlers)
    (channel_publish : option (St -> str -> str -> Json -> St * result Json str)) (chan : St)
    (peer_auth : option (str -> Z -> result unit str)) (peer_uid : option Z) (cmd : Command)
    : gmap str AppHandlers * St * Response :=
  match command_app cmd with
  | None => (apps, chan, Err NotAccepted)
  | Some app =>
      match authorize_peer peer_auth peer_uid app with
      | Err error => (apps, chan, Err (PeerRejected error))
      | Ok tt =>
          match cmd with
          | ChannelPublish _ channel payload =>
              match channel_publish with
              | None => (apps, chan, Err PublishNotConfigured)
              | Some publish =>
                  let '(chan', published) := publish chan app channel payload in
                  (apps, chan', match published with
                                | Ok message => Ok (BodyMessage message)
                                | Err e => Err (PublishFailed e)
                                end)
              end
          | _ =>
              match apps !! app with
              | None => (apps, chan, Err (UnknownApp app))
              | Some h =>
                  let '(h', r) := handle_workflow now nanoid h cmd in
                  (<[app := h']> apps, chan, r)
              end
          end
      end
  end.

(** ** Running rows: only a claim adds an owner *)

Lemma owners_update db p f :
  (forall r, p r = true -> running_owner (f r) = None \/ running_owner (f r) = running_owner r) ->
  owners (set_runs db (sql_update p f (runs db))) `sublist_of` owners db.
Proof.
  intros H. unfold owners, sql_update. simpl. induction (runs db) as [|r t IH]; simpl; [done|].
  destruct (p r) eqn:Hp.
  - destruct (H r Hp) as [->| ->].
    + destruct (running_owner r); [by constructor|done].
    + destruct (running_owner r); [by constructor|done].
  - destruct (running_owner r); [by constructor|done].
Qed.

Lemma owners_update_owned db id w f :
  (forall r, running_owner (f r) = None \/ running_owner (f r) = running_owner r) ->
  owners (update_owned db id w f).1 `sublist_of` owners db.
Proof. intros H. apply owners_update. intros r _. apply H. Qed.

Lemma owners_delete db ids : owners (delete_runs ids db) `sublist_of` owners db.
Proof.
  unfold owners, delete_runs, sql_delete. simpl. induction (runs db) as [|r t IH]; simpl; [done|].
  destruct (any _ ids); simpl; destruct (running_owner r); by constructor || done.
Qed.

Lemma owners_signal_loop now v ws : forall db db' n m,
  signal_loop now v ws db n = Some (db', m) -> owners db' `sublist_of` owners db.
Proof.
  induction ws as [|w ws IH]; simpl; intros db db' n m; [by intros [= <- <-]|].
  unfold signal_one at 1. destruct (any _ (runs db)); [|done]. intros H.
  etrans; [eapply IH; exact H|]. 
  change (owners (set_runs db (sql_update (fun r => id_is (waiter_run_id w) r
     && status_is pending (run_status r)) (set_woken now) (runs db))) `sublist_of` owners db).
  apply owners_update. intros r _. left. done.
Qed.

Definition is_claim (op : DbOp) : bool := match op with OpClaim _ _ _ _ => true | _ => false end.

Lemma owners_exec op db :
  is_claim op = false -> owners (exec op db) `sublist_of` owners db.
Proof.
  intros Hop. destruct op; cbn [exec]; try done.
  - destruct (enqueue_cases now nanoid db name payload opts) as [->|(row & -> & _ & _ & Hp)]; [done|].
    unfold owners. simpl. rewrite omap_app. simpl. unfold running_owner at 2. rewrite Hp. simpl.
    by rewrite app_nil_r.
  - apply owners_update_owned. by right.
  - unfold save_step. destruct (json_to_string value) as [r|]; [|done]. simpl.
    repeat case_match; done.
  - apply owners_update_owned. by left.
  - apply owners_update_owned. by left.
  - unfold fail. destruct finalize; [apply owners_update_owned; by left|].
    destruct next; [apply owners_update_owned; by left|done].
  - apply owners_update_owned. by left.
  - apply owners_delete.
  - apply owners_update. by left.
  - unfold wait_for_event.
    assert (owners (update_owned db id worker_id (set_deferred (default i64_max timeout_at))).1
              `sublist_of` owners db) as H by (apply owners_update_owned; by left).
    destruct (update_owned _ _ _ _) as [db1 [[]|]]; done.
  - unfold signal. destruct (json_to_string payload); [|done].
    destruct (signal_loop _ _ _ _ _) as [[db' n]|] eqn:E; [|done]. by eapply owners_signal_loop.
Qed.

(** A claim adds at most its own owner. *)
Lemma owners_claim now db w names lease :
  db_wf db ->
  match (claim now db w names lease).2 with
  | Ok (Some _) => owners (claim now db w names lease).1 ≡ₚ w :: owners db
  | Ok None | Err _ => (claim now db w names lease).1 = db
  end.
Proof.
  intros Hwf. unfold claim. destruct names as [|name names]; [done|].
  destruct (sql_first_by _ _ _) as [r|] eqn:E; [|done]. simpl.
  apply sql_first_by_Some in E as (Hc & Hr & _).
  assert (run_status r = pending) as Hp.
  { unfold claimable in Hc. bool_to_prop. by apply status_is_true. }
  unfold owners. simpl. pose proof (wf_run_ids _ Hwf) as Hn.
  induction (runs db) as [|x t IH]; [by apply elem_of_nil in Hr|].
  simpl in Hn |- *. inversion Hn as [|? ? Hx Ht]; subst.
  apply elem_of_cons in Hr as [<-|Hr].
  - unfold id_is at 1. rewrite (proj2 (str_eqb_true _ _)) by done.
    assert (running_owner r = None) as -> by (unfold running_owner; by rewrite Hp).
    change (running_owner (set_claimed w ?l r)) with (Some w). cbn [option_fmap].
    rewrite (sql_update_none (id_is (run_id r))); [done|].
    intros y Hy. apply str_eqb_false. intros Heq. apply Hx. rewrite <- Heq.
    by apply list_elem_of_fmap_2.
  - unfold id_is at 1. rewrite (proj2 (str_eqb_false _ _)).
    + destruct (running_owner x); [|by apply IH]. rewrite (IH Hr Ht). by rewrite Permutation_swap.
    + intros Heq. apply Hx. rewrite Heq. by apply list_elem_of_fmap_2.
Qed.

(** ** Rows that leave the running state free their owner *)

Lemma omap_owner_inj (t : list Run) r r' o :
  NoDup (omap running_owner t) -> r ∈ t -> r' ∈ t ->
  running_owner r = Some o -> running_owner r' = Some o -> r = r'.
Proof.
  induction t as [|x t IH]; simpl; intros Hn Hr Hr' Ho Ho'; [by apply elem_of_nil in Hr|].
  assert (Hin : forall y, y ∈ t -> running_owner y = Some o -> o ∈ omap running_owner t).
  { intros y Hy Hyo. apply list_elem_of_omap. eauto. }
  apply elem_of_cons in Hr as [->|Hr]; apply elem_of_cons in Hr' as [->|Hr']; [done| | |].
  - rewrite Ho in Hn. inversion Hn as [|? ? Hx _]; subst. destruct Hx. by eapply Hin.
  - rewrite Ho' in Hn. inversion Hn as [|? ? Hx _]; subst. destruct Hx. by eapply Hin.
  - apply IH; try done. destruct (running_owner x); [by inversion Hn|done].
Qed.

Lemma owners_freed db p f o :
  NoDup (owners db) -> (forall r, running_owner (f r) = None) ->
  (exists r, r ∈ runs db /\ p r = true /\ running_owner r = Some o) ->
  o ∉ owners (set_runs db (sql_update p f (runs db))).
Proof.
  intros Hn Hf (r & Hr & Hp & Ho). unfold owners. simpl. intros (x & Hx & Hxo)%list_elem_of_omap.
  apply elem_of_sql_update in Hx as (y & Hy & Hxy). destruct (p y) eqn:Hpy; subst x.
  - by rewrite Hf in Hxo.
  - assert (r = y) by (by eapply (omap_owner_inj (runs db) r y o)). congruence.
Qed.

Lemma owned_running id w r : owned id w r = true -> running_owner r = Some w.
Proof. intros (_ & Hw & Hs)%owned_true. unfold running_owner. by rewrite Hs. Qed.

Lemma update_owned_freed db id w f :
  NoDup (owners db) -> (forall r, running_owner (f r) = None) ->
  (update_owned db id w f).2 = Ok tt -> w ∉ owners (update_owned db id w f).1.
Proof.
  intros Hn Hf. unfold update_owned. cbn [fst snd]. intros Hc.
  destruct (sql_count (owned id w) (runs db)) as [|n] eqn:E; [done|].
  destruct (proj1 (sql_count_pos (owned id w) (runs db))) as (r & Hr & Hp); [lia|].
  apply owners_freed; [done|done|]. exists r. split; [done|]. split; [done|]. by eapply owned_running.
Qed.

Lemma wait_for_event_freed db id w step ev t :
  NoDup (owners db) -> (wait_for_event db id w step ev t).2 = Ok tt ->
  w ∉ owners (wait_for_event db id w step ev t).1.
Proof.
  intros Hn. pose proof (update_owned_freed db id w (set_deferred (default i64_max t)) Hn) as H.
  unfold wait_for_event. destruct (update_owned _ _ _ _) as [db1 [[]|]]; [|done].
  intros _. by apply H.
Qed.

Lemma reclaim_freed now db o :
  NoDup (owners db) ->
  o ∈ omap run_worker_id (sql_select (lease_expired now) (runs db)) ->
  o ∉ owners (reclaim_expired now db).1.
Proof.
  intros Hn (r & [He Hr]%elem_of_sql_select & Ho)%list_elem_of_omap.
  apply owners_freed; [done|done|]. exists r. split; [done|]. split; [done|].
  unfold lease_expired in He. apply andb_true_iff in He as [He _].
  unfold running_owner. by rewrite He.
Qed.

(** ** What each request asks for, told without the dispatcher *)

(** The app a request is addressed to: the field of that name of its message. *)
Inductive addressed_to : Command -> str -> Prop :=
| to_enqueue app name payload opts : addressed_to (EnqueueRun app name payload opts) app
| to_register app specs : addressed_to (RegisterSchedules app specs) app
| to_claim app worker names lease : addressed_to (ClaimRun app worker names lease) app
| to_heartbeat app id worker lease : addressed_to (HeartbeatRun app id worker lease) app
| to_save_step app id worker step value : addressed_to (SaveStep app id worker step value) app
| to_complete app id worker : addressed_to (CompleteRun app id worker) app
| to_cancel app id worker reason : addressed_to (CancelRun app id worker reason) app
| to_fail app id worker error next fin : addressed_to (FailRun app id worker error next fin) app
| to_defer app id worker wake : addressed_to (DeferRun app id worker wake) app
| to_wait app id worker step event timeout :
    addressed_to (WaitForEvent app id worker step event timeout) app
| to_signal app event payload : addressed_to (Signal app event payload) app
| to_publish app channel payload : addressed_to (ChannelPublish app channel payload) app.

(** A peer may speak for an app when the socket asks for no credentials, or when
    its user is known and approved for the app. *)
Inductive permitted (auth : option (str -> Z -> result unit str)) (uid : option Z) (app : str) : Prop :=
| permitted_open : auth = None -> permitted auth uid app
| permitted_user f u : auth = Some f -> uid = Some u -> f app u = Ok tt -> permitted auth uid app.

(** The store operation a request stands for. *)
Inductive performs (now : Z) (nanoid : str) : Command -> DbOp -> Prop :=
| does_enqueue app name payload opts :
    performs now nanoid (EnqueueRun app name payload opts) (OpEnqueue now nanoid name payload opts)
| does_register app specs :
    performs now nanoid (RegisterSchedules app specs) (OpReplaceSchedules now specs)
| does_claim app worker names lease :
    performs now nanoid (ClaimRun app worker names lease)
      (OpClaim now (new_claim_owner worker nanoid) names lease)
| does_heartbeat app id worker lease :
    performs now nanoid (HeartbeatRun app id worker lease) (OpHeartbeat now id worker lease)
| does_save_step app id worker step value :
    performs now nanoid (SaveStep app id worker step value) (OpSaveStep now id worker step value)
| does_complete app id worker :
    performs now nanoid (CompleteRun app id worker) (OpComplete now id worker)
| does_cancel app id worker reason :
    performs now nanoid (CancelRun app id worker reason) (OpCancel now id worker reason)
| does_fail app id worker error next fin :
    performs now nanoid (FailRun app id worker error next fin) (OpFail now id worker error next fin)
| does_defer app id worker wake :
    performs now nanoid (DeferRun app id worker wake) (OpDefer id worker wake)
| does_wait app id worker step event timeout :
    performs now nanoid (WaitForEvent app id worker step event timeout)
      (OpWaitForEvent id worker step event timeout)
| does_signal app event payload :
    performs now nanoid (Signal app event payload) (OpSignal now event payload).

(** The requests an app may turn away without touching its store: new work while it
    drains, an enqueue for an unhealthy worker, an invalid schedule, a claim over
    the budget. *)
Definition turned_away (h : AppHandlers) (cmd : Command) (resp : Response) : Prop :=
  match cmd with
  | EnqueueRun _ _ _ _ => accepting_new_work h = false /\ resp = Err Draining
      \/ exists reason, health_check h = Err reason /\ resp = Err (WorkerUnhealthy reason)
  | RegisterSchedules _ specs => accepting_new_work h = false /\ resp = Ok (BodyCount 0)
      \/ exists e, validate_schedules specs = Err e /\ resp = Err (StoreFailed (bs "register_schedules") e)
  | ClaimRun _ worker _ _ => resp = Ok BodyNull /\
      (accepting_new_work h = false
       \/ (max_per_worker (h_limiter h) <= count_worker (in_flight_by_worker (h_db h)) worker)%Z)
  | _ => False
  end.

Lemma addressed_to_iff cmd app : addressed_to cmd app <-> command_app cmd = Some app.
Proof. split; [by intros []|]. destruct cmd; intros [= ->]; constructor. Qed.

Lemma permitted_iff auth uid app : permitted auth uid app <-> authorize_peer auth uid app = Ok tt.
Proof.
  unfold authorize_peer. split.
  - intros [->|f u -> -> H]; done.
  - destruct auth as [f|]; [|by constructor]. destruct uid as [u|]; [|done]. by eapply permitted_user.
Qed.

Lemma handle_workflow_store now nanoid h cmd op h' resp :
  performs now nanoid cmd op -> handle_workflow now nanoid h cmd = (h', resp) ->
  h_db h' = exec op (h_db h) \/ h_db h' = h_db h /\ turned_away h cmd resp.
Proof.
  intros Hop. destruct Hop; cbn [handle_workflow exec turned_away].
  - destruct (accepting_new_work h) eqn:Ha; simpl; [|intros [= <- <-]; auto].
    destruct (health_check h) as [[]|] eqn:Hh; [|intros [= <- <-]; eauto 6].
    destruct (enqueue _ _ _ _ _ _) as [db' [r|e]]; intros [= <- <-]; by left.
  - destruct (accepting_new_work h) eqn:Ha; simpl; [|intros [= <- <-]; auto].
    unfold register_schedules. destruct (validate_schedules specs) as [[]|] eqn:Hv.
    + intros [= <- <-]. by left.
    + intros [= <- <-]. right. eauto.
  - destruct (accepting_new_work h) eqn:Ha; simpl; [|intros [= <- <-]; auto].
    unfold limiter_claim. repeat case_match; intros; simplify_eq/=; auto.
    right. bool_to_prop. auto.
  - destruct (heartbeat _ _ _ _ _) as [db' r]. intros [= <- <-]. by left.
  - destruct (save_step _ _ _ _ _ _) as [db' r]. intros [= <- <-]. by left.
  - unfold finish. destruct (complete _ _ _ _) as [db' [[]|]]; intros [= <- <-]; by left.
  - unfold finish. destruct (cancel _ _ _ _ _) as [db' [[]|]]; intros [= <- <-]; by left.
  - unfold finish. destruct (fail _ _ _ _ _ _ _) as [db' [[]|]]; intros [= <- <-]; by left.
  - unfold finish. destruct (defer _ _ _ _) as [db' [[]|]]; intros [= <- <-]; by left.
  - unfold finish. destruct (wait_for_event _ _ _ _ _ _) as [db' [[]|]]; intros [= <- <-]; by left.
  - destruct (signal _ _ _ _) as [db' [n|e]]; [destruct (0 <? n)%nat|]; intros [= <- <-]; by left.
Qed.

End Socket.

(** ** Two apps and a publisher that records its calls *)

#[local] Existing Instance text_json.
#[local] Existing Instance demo_cron.

Definition app_start (max : Z) : AppHandlers :=
  mkAppHandlers Db_empty (InFlightLimiter_new max) true (Ok tt) 0 0.

Definition demo_apps : gmap str AppHandlers := <[bs "a" := app_start 1]> {[ bs "b" := app_start 1 ]}.

Definition demo_publish (sent : list (str * str * Json)) (app channel : str) (payload : Json)
    : list (str * str * Json) * result Json str := ((app, channel, payload) :: sent, Ok payload).

(** Only user 7 may speak for app [a]. *)
Definition demo_auth (app : str) (uid : Z) : result unit str :=
  if str_eqb app (bs "a") && (uid =? 7)%Z then Ok tt else Err (bs "forbidden").

Definition demo_enqueue : Command := EnqueueRun (bs "a") (bs "mail") Json_null demo_opts.

