(* ===== verification/WorkflowHost.v ===== *)
(** * The in-flight budget over all interleavings (tako-workflows/src/in_flight.rs,
    enqueue_socket.rs, cron.rs, manager.rs)

    Several runtimes of an app, on one server or on many, share one run store.  Each
    runtime has its own limiter, behind a mutex.  What the code does in several
    critical sections is several steps here: a handler writes the store in one step
    and releases its claim in another, a tick writes, reclaims and releases in
    separate steps, and a claim takes the mutex, reads the cache or the store, and
    commits in separate steps, with the mutex held in between.  A redeploy or a restart
    adds a runtime whose cache is seeded from a snapshot of the store.

    Three ghost fields tell the history: the owner names ever used, which worker
    claimed through which runtime, and, per runtime, the workers that claimed through
    another runtime since its cache last equalled the store. *)

From S2P Require Import Prelude RustStr Codec Sql RunsDb RunsInv RunsProps InFlight Cron WorkflowSocket.

Section Host.
Context `{J : JsonApi} `{HI : !HashIter str Z} `{C : CronApi}.

(** ** A claim in its three critical parts *)

(** The first test under the mutex: the cached count uses the budget up. *)
Definition claim_enter (lim : InFlightLimiter) (worker : str) : bool :=
  (max_per_worker lim <=? count_worker (claims lim) worker)%Z.

(** The refresh: the cache becomes the store's, and the test is repeated. *)
Definition claim_refresh (lim : InFlightLimiter) (db : Db) (worker : str) : InFlightLimiter * bool :=
  let lim' := mkInFlightLimiter (max_per_worker lim) (in_flight_by_worker db) in
  (lim', claim_enter lim' worker).

Definition claim_commit (now : Z) (nanoid : str) (lim : InFlightLimiter) (db : Db) (worker : str)
    (names : list str) (lease_ms : Z) : InFlightLimiter * Db * result (option RunPayload) RunsDbError :=
  let owner := new_claim_owner worker nanoid in
  let '(db', run) := claim now db owner names lease_ms in
  (match run with
   | Ok (Some _) => mkInFlightLimiter (max_per_worker lim) (<[owner := 1%Z]> (claims lim))
   | _ => lim
   end, db', run).

Lemma limiter_claim_phases now nanoid lim db worker names lease :
  limiter_claim now nanoid lim db worker names lease =
  if claim_enter lim worker then
    let '(lim', full) := claim_refresh lim db worker in
    if full then (lim', db, Ok None) else claim_commit now nanoid lim' db worker names lease
  else claim_commit now nanoid lim db worker names lease.
Proof.
  unfold limiter_claim, claim_refresh, claim_commit, claim_enter. destruct lim as [m cs]. cbn.
  destruct (m <=? count_worker cs worker)%Z;
    destruct (m <=? count_worker (in_flight_by_worker db) worker)%Z;
    try destruct (claim now db (new_claim_owner worker nanoid) names lease) as [? [[?|]|?]]; done.
Qed.

(** ** The releases a request leads to, after its store write *)

Definition is_claim_run (cmd : Command) : bool :=
  match cmd with ClaimRun _ _ _ _ => true | _ => false end.

Definition command_releases (cmd : Command) (resp : Response) : list str :=
  match cmd, resp with
  | CompleteRun _ _ worker_id, Ok _ | CancelRun _ _ worker_id _, Ok _
  | FailRun _ _ worker_id _ _ _, Ok _ | DeferRun _ _ worker_id _, Ok _
  | WaitForEvent _ _ worker_id _ _ _, Ok _ => [worker_id]
  | _, _ => []
  end.

(** The limiter a handler leaves behind is its limiter after those releases. *)
Lemma handle_workflow_limiter now nanoid h cmd h' resp :
  is_claim_run cmd = false -> handle_workflow now nanoid h cmd = (h', resp) ->
  h_limiter h' = fold_left release_claim (command_releases cmd resp) (h_limiter h).
Proof.
  intros Hc. destruct cmd; try done; cbn [handle_workflow]; unfold finish;
    repeat case_match; intros; by simplify_eq/=.
Qed.

(** ** The host *)

Inductive ClaimPhase :=
| Refreshing (worker : str) (names : list str) (lease_ms : Z)
| Committing (worker : str) (names : list str) (lease_ms : Z).

Record AppRuntime := mkAppRuntime {
  rt_limiter : InFlightLimiter;
  rt_lock : option ClaimPhase;    (** the claim that holds the limiter's mutex *)
  rt_pending : list str;          (** releases whose store write is done *)
  rt_strangers : list str;        (** ghost *)
}.

Record Host := mkHost {
  host_db : Db;
  host_runtimes : gmap nat AppRuntime;
  host_used : list str;           (** ghost: owner names of all claims *)
  host_via : list (str * nat);    (** ghost: who claimed through which runtime *)
  host_lapsed : list str;         (** ghost: workers that claimed as strangers *)
}.

Definition set_lock (rt : AppRuntime) (l : option ClaimPhase) : AppRuntime :=
  mkAppRuntime (rt_limiter rt) l (rt_pending rt) (rt_strangers rt).
Definition add_pending (rt : AppRuntime) (os : list str) : AppRuntime :=
  mkAppRuntime (rt_limiter rt) (rt_lock rt) (rt_pending rt ++ os) (rt_strangers rt).
Definition add_stranger (w : str) (rt : AppRuntime) : AppRuntime :=
  mkAppRuntime (rt_limiter rt) (rt_lock rt) (rt_pending rt) (w :: rt_strangers rt).

Definition put (s : Host) (db : Db) (r : nat) (rt : AppRuntime) : Host :=
  mkHost db (<[r := rt]> (host_runtimes s)) (host_used s) (host_via s) (host_lapsed s).

(** A committed claim: the mutex is free again, and the worker is now a stranger to
    every other runtime. *)
Definition committed (s : Host) (r : nat) (rt : AppRuntime) (worker owner : str) (lim' : InFlightLimiter)
    (db' : Db) : Host :=
  mkHost db'
    (<[r := mkAppRuntime lim' None (rt_pending rt) (rt_strangers rt)]>
       (add_stranger worker <$> host_runtimes s))
    (owner :: host_used s) ((worker, r) :: host_via s)
    (if bool_decide (worker ∈ rt_strangers rt) then worker :: host_lapsed s else host_lapsed s).

Inductive host_step (max : Z) (s : Host) : Host -> Prop :=
(** A request other than a claim: its store write; the releases are still to come. *)
| step_request r rt now nanoid accepting health cmd h' resp :
    host_runtimes s !! r = Some rt -> is_claim_run cmd = false ->
    handle_workflow now nanoid (mkAppHandlers (host_db s) (rt_limiter rt) accepting health 0 0) cmd
      = (h', resp) ->
    host_step max s (put s (h_db h') r (add_pending rt (command_releases cmd resp)))
(** A release, in any order, when the mutex is free. *)
| step_release r rt before o after :
    host_runtimes s !! r = Some rt -> rt_lock rt = None -> rt_pending rt = before ++ o :: after ->
    host_step max s (put s (host_db s) r
      (mkAppRuntime (release_claim (rt_limiter rt) o) None (before ++ after) (rt_strangers rt)))
(** Any other write of the store, by a cron tick, retention or another process. *)
| step_store op :
    is_claim op = false ->
    host_step max s (mkHost (exec op (host_db s)) (host_runtimes s) (host_used s) (host_via s) (host_lapsed s))
(** The reclaim of a tick; the releases are still to come. *)
| step_reclaim r rt now db' workers :
    host_runtimes s !! r = Some rt -> reclaim_expired_with_workers now (host_db s) = (db', Ok workers) ->
    host_step max s (put s db' r (add_pending rt workers))
(** A claim takes the mutex and reads the cache. *)
| step_enter r rt worker names lease_ms :
    host_runtimes s !! r = Some rt -> rt_lock rt = None ->
    host_step max s (put s (host_db s) r
      (set_lock rt (Some (if claim_enter (rt_limiter rt) worker then Refreshing worker names lease_ms
                          else Committing worker names lease_ms))))
(** At capacity: the cache is refreshed, and the claim refused or admitted. *)
| step_refresh r rt worker names lease_ms lim' full :
    host_runtimes s !! r = Some rt -> rt_lock rt = Some (Refreshing worker names lease_ms) ->
    claim_refresh (rt_limiter rt) (host_db s) worker = (lim', full) ->
    host_step max s (put s (host_db s) r
      (mkAppRuntime lim' (if full then None else Some (Committing worker names lease_ms))
         (rt_pending rt) []))
(** An admitted claim finds a run. *)
| step_commit r rt worker names lease_ms now nanoid lim' db' run :
    host_runtimes s !! r = Some rt -> rt_lock rt = Some (Committing worker names lease_ms) ->
    (now < i64_max)%Z -> ":"%char ∉ nanoid -> new_claim_owner worker nanoid ∉ host_used s ->
    claim_commit now nanoid (rt_limiter rt) (host_db s) worker names lease_ms = (lim', db', Ok (Some run)) ->
    host_step max s (committed s r rt worker (new_claim_owner worker nanoid) lim' db')
(** A claim that finds nothing, fails in the store, or dies with its process. *)
| step_give_up r rt :
    host_runtimes s !! r = Some rt -> host_step max s (put s (host_db s) r (set_lock rt None))
(** A deploy or a restart: a new limiter, seeded from the store. *)
| step_ensure r budget :
    host_runtimes s !! r = None -> (0 <= budget <= max)%Z ->
    host_step max s (put s (host_db s) r
      (mkAppRuntime (rehydrate (InFlightLimiter_new budget) (in_flight_by_worker (host_db s))) None [] []))
(** The same when the snapshot could not be read: the cache stays empty. *)
| step_ensure_unread r budget :
    host_runtimes s !! r = None -> (0 <= budget <= max)%Z ->
    host_step max s (put s (host_db s) r
      (mkAppRuntime (InFlightLimiter_new budget) None [] (process_worker <$> owners (host_db s)))).

Definition host_start : Host := mkHost Db_empty ∅ [] [] [].

Definition host_reachable (max : Z) : Host -> Prop := rtc (host_step max) host_start.

(** ** The invariant *)

Record rt_inv (max : Z) (s : Host) (r : nat) (rt : AppRuntime) : Prop := {
  rt_max : (1 <= max_per_worker (rt_limiter rt) <= Z.max max 1)%Z;
  rt_covers : forall w, w ∉ rt_strangers rt -> covers (claims (rt_limiter rt)) (host_db s) w;
  rt_freed : forall o, o ∈ rt_pending rt -> o ∈ host_used s /\ o ∉ owners (host_db s);
  rt_room : forall worker names lease_ms, rt_lock rt = Some (Committing worker names lease_ms) ->
    (count_worker (claims (rt_limiter rt)) worker < max_per_worker (rt_limiter rt))%Z;
  rt_met : forall w, w ∈ rt_strangers rt -> exists r', r' <> r /\ (w, r') ∈ host_via s;
}.

Record host_inv (max : Z) (s : Host) : Prop := {
  inv_db : db_wf (host_db s);
  inv_owners : NoDup (owners (host_db s));
  inv_used : forall o, o ∈ owners (host_db s) ->
    o ∈ host_used s /\ exists r, (process_worker o, r) ∈ host_via s;
  inv_rt : forall r rt, host_runtimes s !! r = Some rt -> rt_inv max s r rt;
  inv_via : forall w r, (w, r) ∈ host_via s -> is_Some (host_runtimes s !! r);
  inv_lapsed : forall w, w ∈ host_lapsed s ->
    exists r r', r <> r' /\ (w, r) ∈ host_via s /\ (w, r') ∈ host_via s;
  inv_cap : forall w, w ∉ host_lapsed s -> (Z.of_nat (in_flight (host_db s) w) <= Z.max max 1)%Z;
}.

Lemma in_flight_mono db db' w :
  owners db' `sublist_of` owners db -> (in_flight db' w <= in_flight db w)%nat.
Proof.
  intros H. unfold in_flight. induction H as [|o l l' H IH|o l l' H IH]; simpl; [done| |];
    destruct (of_worker w o); simpl; lia.
Qed.

(** A runtime keeps its invariant when the store loses owners. *)
Lemma rt_inv_write max s r rt db' :
  rt_inv max s r rt -> owners db' `sublist_of` owners (host_db s) ->
  rt_inv max (put s db' r rt) r rt.
Proof.
  intros [H1 H2 H3 H4 H5] Hsub. constructor; simpl; try done.
  - intros w Hw. eapply covers_mono; [by apply H2|]. intros o Ho _. by eapply elem_of_sublist.
  - intros o Ho. destruct (H3 o Ho) as [? Hno]. split; [done|].
    intros Hin. apply Hno. by eapply elem_of_sublist.
Qed.

Lemma rt_inv_ext max s s' r rt :
  host_db s' = host_db s -> host_used s' = host_used s -> host_via s' = host_via s ->
  rt_inv max s r rt -> rt_inv max s' r rt.
Proof. intros Hd Hu Hv [H1 H2 H3 H4 H5]. constructor; rewrite ?Hd, ?Hu, ?Hv; done. Qed.

(** A step of one runtime in which the store loses owners at most. *)
Lemma host_inv_put max s db' r rt :
  host_inv max s -> db_wf db' -> owners db' `sublist_of` owners (host_db s) ->
  rt_inv max (put s db' r rt) r rt -> host_inv max (put s db' r rt).
Proof.
  intros [Hwf Hnd Hus Hrt Hvia Hlap Hcap] Hwf' Hsub Hr. constructor; simpl; try done.
  - by eapply sublist_NoDup.
  - intros o Ho. apply Hus. by eapply elem_of_sublist.
  - intros r0 rt0. destruct (decide (r0 = r)) as [->|Hne].
    + rewrite lookup_insert_eq. intros [= <-]. done.
    + rewrite lookup_insert_ne by done. intros H0.
      eapply rt_inv_ext; [..|exact (rt_inv_write max s r0 rt0 db' (Hrt _ _ H0) Hsub)]; done.
  - intros w r0 Hw. rewrite lookup_insert_is_Some'. right. by eapply Hvia.
  - intros w Hw. specialize (Hcap w Hw). pose proof (in_flight_mono _ _ w Hsub). lia.
Qed.

(** The same for a write that belongs to no runtime. *)
Lemma host_inv_store max s op :
  is_claim op = false -> host_inv max s ->
  host_inv max (mkHost (exec op (host_db s)) (host_runtimes s) (host_used s) (host_via s) (host_lapsed s)).
Proof.
  intros Hop [Hwf Hnd Hus Hrt Hvia Hlap Hcap]. pose proof (owners_exec op (host_db s) Hop) as Hsub.
  constructor; simpl; try done.
  - apply wf_exec; [done|]. by destruct op.
  - by eapply sublist_NoDup.
  - intros o Ho. apply Hus. by eapply elem_of_sublist.
  - intros r rt H. eapply rt_inv_ext; [..|exact (rt_inv_write max s r rt _ (Hrt _ _ H) Hsub)]; done.
  - intros w Hw. specialize (Hcap w Hw). pose proof (in_flight_mono _ _ w Hsub). lia.
Qed.

(** ** Requests *)

(** The write of a request other than a claim loses owners at most, and an owner it
    is about to release was running and runs no more. *)
Lemma finish_frees h operation w op (write : Db * result unit RunsDbError) h' resp :
  db_wf (h_db h) -> is_claim op = false -> write.1 = exec op (h_db h) ->
  (write.2 = Ok tt -> w ∈ owners (h_db h) /\ w ∉ owners write.1) ->
  finish h operation w write = (h', resp) ->
  db_wf (h_db h') /\ owners (h_db h') `sublist_of` owners (h_db h)
  /\ (is_ok resp = true -> w ∈ owners (h_db h) /\ w ∉ owners (h_db h')).
Proof.
  intros Hwf Hop Hw Hf. destruct write as [db' r]. simpl in Hw, Hf. subst db'.
  assert (db_wf (exec op (h_db h))) by (apply wf_exec; [done|]; by destruct op).
  pose proof (owners_exec op (h_db h) Hop).
  unfold finish. destruct r as [[]|e]; intros [= <- <-]; simpl; split_and!; auto; done.
Qed.

Lemma update_owned_owner db id w f :
  NoDup (owners db) -> (forall r, running_owner (f r) = None) ->
  (update_owned db id w f).2 = Ok tt -> w ∈ owners db /\ w ∉ owners (update_owned db id w f).1.
Proof.
  intros Hn Hf Hok. split; [|by apply update_owned_freed].
  unfold update_owned in Hok. cbn [snd] in Hok.
  destruct (sql_count (owned id w) (runs db)) as [|n] eqn:E; [done|].
  destruct (proj1 (sql_count_pos (owned id w) (runs db))) as (r & Hr & Hp); [lia|].
  apply list_elem_of_omap. exists r. split; [done|]. by eapply owned_running.
Qed.

Lemma wait_for_event_owner db id w step ev t :
  NoDup (owners db) -> (wait_for_event db id w step ev t).2 = Ok tt ->
  w ∈ owners db /\ w ∉ owners (wait_for_event db id w step ev t).1.
Proof.
  intros Hn Hok. split; [|by apply wait_for_event_freed].
  pose proof (update_owned_owner db id w (set_deferred (default i64_max t)) Hn) as H.
  unfold wait_for_event in Hok. destruct (update_owned _ _ _ _) as [db1 [[]|]]; [|done]. by apply H.
Qed.

Lemma exec_register now db specs :
  (register_schedules now db specs).1 = db
  \/ (register_schedules now db specs).1 = exec (OpReplaceSchedules now specs) db.
Proof. unfold register_schedules. destruct (validate_schedules specs) as [[]|]; auto. Qed.

(** A write of the store by an operation that is no claim, whatever it answers. *)
Lemma exec_loses op db db' :
  db_wf db -> is_claim op = false -> db' = db \/ db' = exec op db ->
  db_wf db' /\ owners db' `sublist_of` owners db.
Proof.
  intros Hwf Hop [->| ->]; [done|]. split; [|by apply owners_exec].
  apply wf_exec; [done|]. by destruct op.
Qed.

Lemma request_frees now nanoid h cmd h' resp :
  db_wf (h_db h) -> NoDup (owners (h_db h)) -> is_claim_run cmd = false ->
  handle_workflow now nanoid h cmd = (h', resp) ->
  db_wf (h_db h') /\ owners (h_db h') `sublist_of` owners (h_db h)
  /\ forall o, o ∈ command_releases cmd resp -> o ∈ owners (h_db h) /\ o ∉ owners (h_db h').
Proof.
  intros Hwf Hn Hc Hh.
  assert (Hnone : (exists op, is_claim op = false
             /\ (h_db h' = h_db h \/ h_db h' = exec op (h_db h))) -> command_releases cmd resp = [] ->
    db_wf (h_db h') /\ owners (h_db h') `sublist_of` owners (h_db h)
    /\ forall o, o ∈ command_releases cmd resp -> o ∈ owners (h_db h) /\ o ∉ owners (h_db h')).
  { intros (op & Hop & Hdb) ->. destruct (exec_loses op (h_db h) (h_db h') Hwf Hop Hdb).
    split_and!; [done..|]. by intros o ?%elem_of_nil. }
  assert (Hfin : forall w operation write op, is_claim op = false -> write.1 = exec op (h_db h) ->
    (write.2 = Ok tt -> w ∈ owners (h_db h) /\ w ∉ owners write.1) ->
    finish h operation w write = (h', resp) ->
    command_releases cmd resp = (if is_ok resp then [w] else []) ->
    db_wf (h_db h') /\ owners (h_db h') `sublist_of` owners (h_db h)
    /\ forall o, o ∈ command_releases cmd resp -> o ∈ owners (h_db h) /\ o ∉ owners (h_db h')).
  { intros w operation write op Hop Hw Hf Heq ->.
    destruct (finish_frees h operation w op write h' resp Hwf Hop Hw Hf Heq) as (H1 & H2 & H3).
    split_and!; [done..|]. destruct (is_ok resp); [|by intros o ?%elem_of_nil].
    intros o ->%list_elem_of_singleton. by apply H3. }
  destruct cmd; try done; cbn [handle_workflow] in Hh.
  - apply Hnone; [|done]. exists (OpEnqueue now nanoid name payload opts). split; [done|].
    cbn [exec]. destruct (accepting_new_work h); simpl in Hh; [|simplify_eq; auto].
    destruct (health_check h) as [[]|]; [|simplify_eq; auto].
    destruct (enqueue _ _ _ _ _ _) as [db' [?|?]]; simplify_eq; auto.
  - apply Hnone; [|done]. exists (OpReplaceSchedules now specs). split; [done|].
    destruct (accepting_new_work h); simpl in Hh; [|simplify_eq; auto].
    pose proof (exec_register now (h_db h) specs) as Hr.
    destruct (register_schedules _ _ _) as [db' [[]|?]]; simplify_eq; auto.
  - apply Hnone; [|done]. exists (OpHeartbeat now id worker_id lease_ms). split; [done|].
    cbn [exec]. destruct (heartbeat _ _ _ _ _) as [db' r]. simplify_eq. auto.
  - apply Hnone; [|done]. exists (OpSaveStep now id worker_id step_name value). split; [done|].
    cbn [exec]. destruct (save_step _ _ _ _ _ _) as [db' r]. simplify_eq. auto.
  - eapply (Hfin worker_id _ _ (OpComplete now id worker_id)); [done..| |done|by destruct resp].
    by apply update_owned_owner.
  - eapply (Hfin worker_id _ _ (OpCancel now id worker_id reason)); [done..| |done|by destruct resp].
    by apply update_owned_owner.
  - eapply (Hfin worker_id _ _ (OpFail now id worker_id error next_run_at_ms finalize));
      [done..| |done|by destruct resp].
    unfold fail. destruct finalize, next_run_at_ms; try done; by apply update_owned_owner.
  - eapply (Hfin worker_id _ _ (OpDefer id worker_id wake_at_ms)); [done..| |done|by destruct resp].
    by apply update_owned_owner.
  - eapply (Hfin worker_id _ _ (OpWaitForEvent id worker_id step_name event_name timeout_at_ms));
      [done..| |done|by destruct resp].
    by apply wait_for_event_owner.
  - apply Hnone; [|done]. exists (OpSignal now event_name payload). split; [done|].
    cbn [exec]. destruct (signal _ _ _ _) as [db' [n|?]]; [destruct (0 <? n)%nat|]; simplify_eq; auto.
  - apply Hnone; [|done]. exists (OpReclaim now). split; [done|]. simplify_eq. auto.
  - apply Hnone; [|done]. exists (OpReclaim now). split; [done|]. simplify_eq. auto.
Qed.

(** ** Claims *)

Lemma claim_commit_owner max s r rt worker names lease now nanoid lim' db' run :
  host_inv max s -> host_runtimes s !! r = Some rt -> (now < i64_max)%Z ->
  claim_commit now nanoid (rt_limiter rt) (host_db s) worker names lease = (lim', db', Ok (Some run)) ->
  db_wf db' /\ owners db' ≡ₚ new_claim_owner worker nanoid :: owners (host_db s)
  /\ lim' = mkInFlightLimiter (max_per_worker (rt_limiter rt))
              (<[new_claim_owner worker nanoid := 1%Z]> (claims (rt_limiter rt))).
Proof.
  intros Hi Hr Hnow. unfold claim_commit. set (owner := new_claim_owner worker nanoid).
  pose proof (owners_claim now (host_db s) owner names lease (inv_db _ _ Hi)) as Ho.
  pose proof (wf_claim now (host_db s) owner names lease (inv_db _ _ Hi) Hnow) as Hwf.
  destruct (claim _ _ _ _ _) as [db1 r1]. intros [= <- <- ->]. done.
Qed.

(** A claim that a runtime admits, for a worker it knows everything about, leaves the
    worker within that runtime's budget. *)
Lemma commit_within_budget max s r rt worker names lease now nanoid lim' db' run :
  (0 <= max <= u32_max)%Z -> host_inv max s -> host_runtimes s !! r = Some rt ->
  rt_lock rt = Some (Committing worker names lease) -> (now < i64_max)%Z -> ":"%char ∉ nanoid ->
  worker ∉ rt_strangers rt ->
  claim_commit now nanoid (rt_limiter rt) (host_db s) worker names lease = (lim', db', Ok (Some run)) ->
  (Z.of_nat (in_flight db' worker) <= max_per_worker (rt_limiter rt))%Z.
Proof.
  intros Hmax Hi Hr Hl Hnow Hnano Hst Hc. pose proof (inv_rt _ _ Hi r rt Hr) as [Hm Hcov _ Hroom _].
  destruct (claim_commit_owner _ _ _ _ _ _ _ _ _ _ _ _ Hi Hr Hnow Hc) as (_ & Ho & _).
  specialize (Hroom _ _ _ Hl).
  pose proof (covers_count _ _ worker (Hcov worker Hst) (inv_owners _ _ Hi)) as Hcc.
  unfold in_flight in *. rewrite Ho. simpl. unfold of_worker at 1.
  rewrite process_worker_new_claim_owner by done. rewrite (proj2 (str_eqb_true _ _)) by done. simpl.
  unfold u32_max in *. lia.
Qed.

Lemma in_flight_other db db' owner w :
  owners db' ≡ₚ owner :: owners db -> process_worker owner <> w -> in_flight db' w = in_flight db w.
Proof.
  intros Ho Hne. unfold in_flight. rewrite Ho. simpl. unfold of_worker at 1.
  by rewrite (proj2 (str_eqb_false _ _)).
Qed.

Lemma host_inv_commit max s r rt worker names lease now nanoid lim' db' run :
  (0 <= max <= u32_max)%Z -> host_inv max s -> host_runtimes s !! r = Some rt ->
  rt_lock rt = Some (Committing worker names lease) -> (now < i64_max)%Z -> ":"%char ∉ nanoid ->
  new_claim_owner worker nanoid ∉ host_used s ->
  claim_commit now nanoid (rt_limiter rt) (host_db s) worker names lease = (lim', db', Ok (Some run)) ->
  host_inv max (committed s r rt worker (new_claim_owner worker nanoid) lim' db').
Proof.
  intros Hmax Hi Hr Hl Hnow Hnano Hfresh Hc.
  destruct (claim_commit_owner _ _ _ _ _ _ _ _ _ _ _ _ Hi Hr Hnow Hc) as (Hwf' & Ho & ->).
  assert (Hwithin : worker ∉ rt_strangers rt ->
    (Z.of_nat (in_flight db' worker) <= max_per_worker (rt_limiter rt))%Z).
  { intros Hst. by eapply commit_within_budget. }
  pose proof (process_worker_new_claim_owner worker nanoid Hnano) as Hpw.
  set (owner := new_claim_owner worker nanoid) in *.
  destruct Hi as [Hwf Hnd Hus Hrt Hvia Hlap Hcap].
  assert (Hin : forall o, o ∈ owners db' <-> o = owner \/ o ∈ owners (host_db s))
    by (intros o; by rewrite Ho, elem_of_cons).
  assert (Hfree : forall o, o ∈ host_used s -> o ∉ owners (host_db s) -> o ∉ owners db').
  { intros o Hu Hno [->|?]%Hin; done. }
  pose proof (Hrt r rt Hr) as [Hm Hcov Hpen Hroom Hmet].
  constructor; simpl; try done.
  - rewrite Ho. constructor; [|done]. intros H. by apply Hfresh, Hus.
  - intros o [->|H]%Hin; [rewrite Hpw; split; [left|exists r; left]|].
    destruct (Hus o H) as [? [r' ?]]. split; [by right|exists r'; by right].
  - intros r0 rt0. destruct (decide (r0 = r)) as [->|Hne].
    + rewrite lookup_insert_eq. intros [= <-]. constructor; simpl; [done| | |done|].
      * intros w Hw. eapply covers_insert; [by apply Hcov|]. intros o. apply Hin.
      * intros o Hop. destruct (Hpen o Hop). split; [by right|by apply Hfree].
      * intros w Hw. destruct (Hmet w Hw) as (r' & ? & ?). exists r'. split; [done|by right].
    + rewrite lookup_insert_ne, lookup_fmap by done.
      destruct (host_runtimes s !! r0) as [rt1|] eqn:H1; [|done]. intros [= <-].
      destruct (Hrt r0 rt1 H1) as [Hm1 Hcov1 Hpen1 Hroom1 Hmet1]. constructor; simpl; [done| | |done|].
      * intros w [Hw1 Hw2]%not_elem_of_cons. eapply covers_mono; [by apply Hcov1|].
        intros o [->|?]%Hin Hpo; [congruence|done].
      * intros o Hop. destruct (Hpen1 o Hop). split; [by right|by apply Hfree].
      * intros w [->|Hw]%elem_of_cons; [exists r; split; [done|left]|].
        destruct (Hmet1 w Hw) as (r' & ? & ?). exists r'. split; [done|by right].
  - intros w r0 [[= -> ->]|Hw]%elem_of_cons; apply lookup_insert_is_Some'; [by left|].
    right. rewrite lookup_fmap. apply fmap_is_Some. by eapply Hvia.
  - intros w Hw. assert (w ∈ host_lapsed s \/ w = worker /\ worker ∈ rt_strangers rt) as [Hw'|[-> Hst]].
    { case_bool_decide; [|by left]. apply elem_of_cons in Hw as [->|?]; auto. }
    + destruct (Hlap w Hw') as (a & b & ? & ? & ?). exists a, b. split_and!; [done|by right..].
    + destruct (Hmet worker Hst) as (r' & ? & ?). exists r, r'. split_and!; [done|left|by right].
  - intros w Hw. destruct (decide (w = worker)) as [->|Hne].
    + assert (worker ∉ rt_strangers rt) as Hst.
      { intros Hst. apply Hw. rewrite bool_decide_eq_true_2 by done. left. }
      specialize (Hwithin Hst). lia.
    + rewrite (in_flight_other (host_db s) db' owner) by congruence. apply Hcap.
      intros H. apply Hw. case_bool_decide; [by right|done].
Qed.

(** ** Every step *)

Lemma rt_inv_fresh max s r budget m strangers :
  host_inv max s -> (0 <= budget <= max)%Z -> host_runtimes s !! r = None ->
  (forall w, w ∉ strangers -> covers m (host_db s) w) ->
  (forall w, w ∈ strangers -> exists o, o ∈ owners (host_db s) /\ process_worker o = w) ->
  host_inv max (put s (host_db s) r
    (mkAppRuntime (mkInFlightLimiter (Z.max budget 1) m) None [] strangers)).
Proof.
  intros Hi Hb Hr Hc Hs. apply host_inv_put; [done|apply Hi|done|]. constructor; simpl; [lia|done| |done|].
  - by intros o ?%elem_of_nil.
  - intros w Hw. destruct (Hs w Hw) as (o & Ho & <-). destruct (inv_used _ _ Hi o Ho) as (_ & r' & Hr').
    exists r'. split; [|done]. intros ->. destruct (inv_via _ _ Hi _ _ Hr') as [? H]. congruence.
Qed.

Lemma host_inv_step max s s' :
  (0 <= max <= u32_max)%Z -> host_inv max s -> host_step max s s' -> host_inv max s'.
Proof.
  intros Hmax Hi Hs. destruct Hs as [r rt now nanoid acc hl cmd h' resp Hr Hc Hh|r rt b o a Hr Hl Hp
    |op Hop|r rt now db' workers Hr Hre|r rt worker names lease Hr Hl|r rt worker names lease lim' full Hr Hl Hf
    |r rt worker names lease now nanoid lim' db' run Hr Hl Hnow Hnano Hfresh Hc|r rt Hr|r budget Hr Hb|r budget Hr Hb].
  - destruct (request_frees now nanoid (mkAppHandlers (host_db s) (rt_limiter rt) acc hl 0 0) cmd h' resp)
      as (Hwf & Hsub & Hfr); [apply Hi|apply Hi|done|done|]. simpl in Hsub, Hfr. apply host_inv_put; [done..|].
    destruct (rt_inv_write _ _ _ _ _ (inv_rt _ _ Hi r rt Hr) Hsub) as [H1 H2 H3 H4 H5].
    constructor; simpl; try done. intros o [Ho|Ho]%elem_of_app; [by apply H3|].
    destruct (Hfr o Ho). split; [by apply (inv_used _ _ Hi)|done].
  - apply host_inv_put; [done|apply Hi|done|].
    destruct (inv_rt _ _ Hi r rt Hr) as [H1 H2 H3 H4 H5]. rewrite Hp in H3.
    constructor; simpl; try done.
    + by rewrite max_per_worker_release.
    + intros w Hw. apply covers_release; [by apply H2|]. apply H3. set_solver.
    + intros o' Ho'. apply H3. set_solver.
  - by apply host_inv_store.
  - injection Hre as <- <-. assert (owners (reclaim_expired now (host_db s)).1 `sublist_of` owners (host_db s))
      as Hsub by apply (owners_exec (OpReclaim now) _ eq_refl).
    apply host_inv_put; [done|by apply (wf_exec (OpReclaim now)), I; apply Hi|done|].
    destruct (rt_inv_write _ _ _ _ _ (inv_rt _ _ Hi r rt Hr) Hsub) as [H1 H2 H3 H4 H5].
    constructor; simpl; try done. intros o [Ho|Ho]%elem_of_app; [by apply H3|].
    split; [|apply reclaim_freed; [apply Hi|done]].
    apply (inv_used _ _ Hi). apply list_elem_of_omap in Ho as (x & [He Hx]%elem_of_sql_select & Hox).
    apply list_elem_of_omap. exists x. split; [done|]. unfold lease_expired in He.
    apply andb_true_iff in He as [He _]. unfold running_owner. by rewrite He.
  - apply host_inv_put; [done|apply Hi|done|].
    destruct (inv_rt _ _ Hi r rt Hr) as [H1 H2 H3 H4 H5]. constructor; simpl; try done.
    intros w' n' l'. unfold claim_enter. destruct (_ <=? _)%Z eqn:E; [done|].
    intros [= <- <- <-]. bool_to_prop. done.
  - apply host_inv_put; [done|apply Hi|done|]. injection Hf as <- <-.
    destruct (inv_rt _ _ Hi r rt Hr) as [H1 H2 H3 H4 H5]. constructor; simpl; try done.
    + intros w _. apply covers_refresh, Hi.
    + intros w' n' l'. unfold claim_enter. simpl. destruct (_ <=? _)%Z eqn:E; [done|].
      intros [= <- <- <-]. bool_to_prop. done.
    + by intros w ?%elem_of_nil.
  - by eapply host_inv_commit.
  - apply host_inv_put; [done|apply Hi|done|].
    destruct (inv_rt _ _ Hi r rt Hr) as [H1 H2 H3 H4 H5]. by constructor.
  - apply rt_inv_fresh; try done; [|by intros w ?%elem_of_nil]. intros w _. apply covers_refresh, Hi.
  - apply rt_inv_fresh; try done.
    + intros w Hw. split; [intros o c; by rewrite lookup_empty|]. intros o Ho Hpo.
      destruct Hw. rewrite <- Hpo. by apply list_elem_of_fmap_2.
    + intros w (o & -> & Ho)%list_elem_of_fmap. by exists o.
Qed.

Lemma host_reachable_inv max s : (0 <= max <= u32_max)%Z -> host_reachable max s -> host_inv max s.
Proof.
  intros Hmax. unfold host_reachable. revert s.
  apply (rtc_ind_r (R := host_step max) (fun s => host_inv max s) host_start).
  - constructor; simpl.
    + apply db_wf_empty.
    + by apply NoDup_nil.
    + by intros o ?%elem_of_nil.
    + intros r rt. by rewrite lookup_empty.
    + by intros w r ?%elem_of_nil.
    + by intros w ?%elem_of_nil.
    + intros w _. unfold in_flight, owners. simpl. lia.
  - intros s s' _ Hs Hi. by eapply host_inv_step.
Qed.

(** ** Uninterrupted runs *)

(** The code run without interruption is a run of the host: a request is its write
    followed by its releases. *)
Lemma releases_run max s r rt os :
  host_runtimes s !! r = Some rt -> rt_lock rt = None -> rt_pending rt = os ->
  rtc (host_step max) s (put s (host_db s) r
    (mkAppRuntime (fold_left release_claim os (rt_limiter rt)) None [] (rt_strangers rt))).
Proof.
  intros Hr Hl Hp. revert s rt Hr Hl Hp. induction os as [|o os IH]; intros s rt Hr Hl Hp; simpl.
  - unfold put. rewrite insert_id; [by destruct s|]. rewrite Hr. destruct rt. simpl in *. by subst.
  - eapply rtc_l; [eapply (step_release max s r rt [] o os); done|]. simpl.
    set (rt1 := mkAppRuntime (release_claim (rt_limiter rt) o) None os (rt_strangers rt)).
    pose proof (IH (put s (host_db s) r rt1) rt1) as H. simpl in H.
    rewrite lookup_insert_eq in H. specialize (H eq_refl eq_refl eq_refl).
    unfold put in *. simpl in *. by rewrite insert_insert_eq in H.
Qed.

(** The runtime [r], idle, with its store and limiter. *)
Definition idle_at (s : Host) (r : nat) (db : Db) (lim : InFlightLimiter) : Prop :=
  host_db s = db /\ exists rt, host_runtimes s !! r = Some rt /\ rt_limiter rt = lim
    /\ rt_lock rt = None /\ rt_pending rt = [].

Lemma writes_run max s r rt db' os :
  host_runtimes s !! r = Some rt -> rt_lock rt = None -> rt_pending rt = [] ->
  host_step max s (put s db' r (add_pending rt os)) ->
  exists s', rtc (host_step max) s s' /\ idle_at s' r db' (fold_left release_claim os (rt_limiter rt)).
Proof.
  intros Hr Hl Hp Hs. eexists. split.
  - eapply rtc_l; [exact Hs|]. apply (releases_run max _ r (add_pending rt os) os); simpl; [|done|by rewrite Hp].
    by rewrite lookup_insert_eq.
  - split; [done|]. eexists. simpl. rewrite lookup_insert_eq. split; [done|]. done.
Qed.

(** A request other than a claim, handled without interruption. *)
Lemma request_runs max s r db lim now nanoid accepting health cmd h' resp :
  idle_at s r db lim -> is_claim_run cmd = false ->
  handle_workflow now nanoid (mkAppHandlers db lim accepting health 0 0) cmd = (h', resp) ->
  exists s', rtc (host_step max) s s' /\ idle_at s' r (h_db h') (h_limiter h').
Proof.
  intros (<- & rt & Hr & <- & Hl & Hp) Hc Hh.
  rewrite (handle_workflow_limiter _ _ _ _ _ _ Hc Hh). simpl.
  eapply writes_run; [done..|]. by eapply step_request.
Qed.

(** The writes of a tick before its reclaim. *)
Lemma tick_rows_ops clock now rows : forall db n, exists ops,
  Forall (fun op => is_claim op = false) ops
  /\ (tick_rows clock now rows db n).1 = fold_left (fun db op => exec op db) ops db.
Proof.
  induction rows as [|row rows IH]; intros db n; simpl; [by exists []|].
  destruct (row_due now row) as [t|]; [|apply IH].
  set (op := OpEnqueue (clock n) [] (schedule_name row) Json_empty_object (cron_opts (schedule_name row) t)).
  assert (exec op db = (enqueue (clock n) [] db (schedule_name row) Json_empty_object
    (cron_opts (schedule_name row) t)).1) as Hop by done.
  destruct (enqueue _ _ _ _ _ _) as [db1 [resp|e]]; simpl in Hop.
  - destruct (IH (set_schedule_last_run_at db1 (schedule_name row) t) (S n)) as (ops & Hops & ->).
    exists (op :: OpSetLastRun (schedule_name row) t :: ops). simpl. rewrite Hop. auto.
  - exists [op]. simpl. rewrite Hop. auto.
Qed.

Lemma stores_run max ops : forall s, Forall (fun op => is_claim op = false) ops ->
  rtc (host_step max) s (mkHost (fold_left (fun db op => exec op db) ops (host_db s)) (host_runtimes s)
    (host_used s) (host_via s) (host_lapsed s)).
Proof.
  induction ops as [|op ops IH]; intros s Hops; simpl; [by destruct s|].
  inversion Hops as [|? ? H1 H2]; subst. eapply rtc_l; [by apply (step_store max s op)|].
  apply (IH (mkHost (exec op (host_db s)) (host_runtimes s) (host_used s) (host_via s) (host_lapsed s)) H2).
Qed.

(** A tick with its reclaim and releases, run without interruption. *)
Lemma tick_runs max s r db lim clock utc_now store_now now_ms db' lim' woke :
  idle_at s r db lim ->
  tick_and_reclaim clock utc_now store_now db now_ms (Some lim) = (db', Some lim', woke) ->
  exists s', rtc (host_step max) s s' /\ idle_at s' r db' lim'.
Proof.
  intros (<- & rt & Hr & <- & Hl & Hp). unfold tick_and_reclaim, tick_once.
  set (now := if timestamp_in_range now_ms then now_ms else utc_now).
  destruct (tick_rows_ops clock now (list_schedules (host_db s)) (host_db s) 0) as (ops & Hops & Heq).
  destruct (tick_rows _ _ _ _ _) as [db1 tick]. simpl in Heq. subst db1.
  set (s1 := mkHost (fold_left (fun db op => exec op db) ops (host_db s)) (host_runtimes s)
    (host_used s) (host_via s) (host_lapsed s)).
  unfold reclaim_expired_with_workers. intros [= <- <- _].
  destruct (writes_run max s1 r rt (reclaim_expired_with_workers store_now (host_db s1)).1
    (omap run_worker_id (sql_select (lease_expired store_now) (runs (host_db s1))))) as (s2 & H2 & Hidle);
    [done..|by eapply step_reclaim|].
  exists s2. split; [|exact Hidle]. etrans; [by apply stores_run|exact H2].
Qed.

(** A claim that finds a run, handled without interruption. *)
Lemma claim_runs max s r db lim now nanoid worker names lease lim' db' run :
  idle_at s r db lim -> (now < i64_max)%Z -> ":"%char ∉ nanoid ->
  new_claim_owner worker nanoid ∉ host_used s ->
  limiter_claim now nanoid lim db worker names lease = (lim', db', Ok (Some run)) ->
  exists s', rtc (host_step max) s s' /\ idle_at s' r db' lim'.
Proof.
  intros (<- & rt & Hr & <- & Hl & Hp) Hnow Hnano Hfresh. rewrite limiter_claim_phases.
  destruct (claim_enter (rt_limiter rt) worker) eqn:He.
  - destruct (claim_refresh _ _ _) as [lim1 full] eqn:Hre. destruct full; [done|]. intros Hc.
    eexists. split.
    + eapply rtc_l; [by apply (step_enter max s r rt worker names lease)|]. rewrite He.
      eapply rtc_l; [eapply step_refresh; simpl; [by rewrite lookup_insert_eq|done|exact Hre]|].
      eapply rtc_once. eapply step_commit; simpl; [by rewrite lookup_insert_eq|done..|exact Hc].
    + split; [done|]. eexists. simpl. rewrite lookup_insert_eq. by split.
  - intros Hc. eexists. split.
    + eapply rtc_l; [by apply (step_enter max s r rt worker names lease)|]. rewrite He.
      eapply rtc_once. eapply step_commit; simpl; [by rewrite lookup_insert_eq|done..|exact Hc].
    + split; [done|]. eexists. simpl. rewrite lookup_insert_eq. by split.
Qed.

(** C6: whatever the interleaving of requests, claims, cron ticks, retention, writes of
    other servers, deploys and restarts over a shared run store, where store writes,
    limiter updates and releases are separate steps, a worker process is kept within its
    budget.  A claim that a runtime's limiter admits, and that finds a run, leaves the
    worker with at most that runtime's maximum of running rows, unless the worker has
    claimed through another runtime since the limiter last read the store; so a worker
    that claims through one runtime never has more running rows than the largest
    configured maximum (at least one), in any reachable state, and more generally no
    worker has unless it made such a claim.  Nothing else adds a running row: every
    running row is owned by a name that some such claim introduced. *)
Theorem in_flight_budget_holds max s :
  (0 <= max <= u32_max)%Z -> host_reachable max s ->
  (forall r rt worker names lease now nanoid lim' db' run,
     host_runtimes s !! r = Some rt -> rt_lock rt = Some (Committing worker names lease) ->
     (now < i64_max)%Z -> ":"%char ∉ nanoid -> worker ∉ rt_strangers rt ->
     claim_commit now nanoid (rt_limiter rt) (host_db s) worker names lease = (lim', db', Ok (Some run)) ->
     (1 <= Z.of_nat (in_flight db' worker) <= max_per_worker (rt_limiter rt))%Z)
  /\ (forall w, (forall r r', (w, r) ∈ host_via s -> (w, r') ∈ host_via s -> r = r') ->
        (Z.of_nat (in_flight (host_db s) w) <= Z.max max 1)%Z)
  /\ (forall w, w ∉ host_lapsed s -> (Z.of_nat (in_flight (host_db s) w) <= Z.max max 1)%Z)
  /\ (forall r rt, host_runtimes s !! r = Some rt ->
        (1 <= max_per_worker (rt_limiter rt) <= Z.max max 1)%Z)
  /\ NoDup (owners (host_db s)) /\ forall o, o ∈ owners (host_db s) -> o ∈ host_used s.
Proof.
  intros Hmax Hr. pose proof (host_reachable_inv max s Hmax Hr) as Hi. split_and!.
  - intros r rt worker names lease now nanoid lim' db' run H1 H2 H3 H4 H5 H6.
    split; [|by eapply commit_within_budget].
    destruct (claim_commit_owner _ _ _ _ _ _ _ _ _ _ _ _ Hi H1 H3 H6) as (_ & Ho & _).
    unfold in_flight. rewrite Ho. simpl. unfold of_worker at 1.
    rewrite process_worker_new_claim_owner by done. rewrite (proj2 (str_eqb_true _ _)) by done. simpl. lia.
  - intros w Hw. apply Hi. intros Hl. destruct (inv_lapsed _ _ Hi w Hl) as (r & r' & Hne & H1 & H2).
    apply Hne. by apply Hw.
  - apply Hi.
  - intros r rt H. apply (inv_rt _ _ Hi r rt H).
  - apply Hi.
  - intros o Ho. by apply (inv_used _ _ Hi).
Qed.
End Host.

(** ** Two runtimes with a budget of one *)

#[local] Existing Instance text_json.
#[local] Existing Instance demo_cron.

Definition demo_runtime (db : Db) : AppRuntime :=
  mkAppRuntime (rehydrate (InFlightLimiter_new 1) (in_flight_by_worker db)) None [] [].

(** Two queued jobs. *)
Definition demo_jobs : Db :=
  exec (OpEnqueue 100 (bs "n2") (bs "mail") Json_null (mkEnqueueOpts None None (Some (bs "job-2"))))
    (exec (OpEnqueue 100 (bs "n1") (bs "mail") Json_null demo_opts) Db_empty).

Definition demo_stored : Host := mkHost demo_jobs ∅ [] [] [].
Definition demo_one : Host := put demo_stored demo_jobs 0 (demo_runtime demo_jobs).
Definition demo_host : Host := put demo_one demo_jobs 1 (demo_runtime demo_jobs).

Lemma demo_host_reachable : host_reachable 1 demo_host.
Proof.
  eapply rtc_l; [by apply (step_store 1 host_start (OpEnqueue 100 (bs "n1") (bs "mail") Json_null demo_opts))|].
  eapply rtc_l; [by eapply (step_store 1 _ (OpEnqueue 100 (bs "n2") (bs "mail") Json_null
    (mkEnqueueOpts None None (Some (bs "job-2")))))|].
  eapply (rtc_l _ demo_stored demo_one); [by apply (step_ensure 1 demo_stored 0 1)|].
  apply rtc_once. by apply (step_ensure 1 demo_one 1 1).
Qed.

(** An uninterrupted claim of worker [w] through a runtime that has room for it. *)
Definition demo_claim (s : Host) (r : nat) (rt : AppRuntime) (now : Z) (nanoid : str) : Host :=
  let rt1 := set_lock rt (Some (Committing (bs "w") [bs "mail"] 1000)) in
  let s1 := put s (host_db s) r rt1 in
  let c := claim_commit now nanoid (rt_limiter rt1) (host_db s1) (bs "w") [bs "mail"] 1000 in
  committed s1 r rt1 (bs "w") (new_claim_owner (bs "w") nanoid) c.1.1 c.1.2.

Lemma demo_claim_runs s r rt now nanoid run :
  host_runtimes s !! r = Some rt -> rt_lock rt = None -> claim_enter (rt_limiter rt) (bs "w") = false ->
  (now < i64_max)%Z -> ":"%char ∉ nanoid -> new_claim_owner (bs "w") nanoid ∉ host_used s ->
  (claim_commit now nanoid (rt_limiter rt) (host_db s) (bs "w") [bs "mail"] 1000).2 = Ok (Some run) ->
  rtc (host_step 1) s (demo_claim s r rt now nanoid).
Proof.
  intros Hr Hl He Hnow Hnano Hu Hc.
  eapply rtc_l; [by apply (step_enter 1 s r rt (bs "w") [bs "mail"] 1000)|]. rewrite He.
  apply rtc_once. eapply step_commit; simpl; [by rewrite lookup_insert_eq|done..|].
  rewrite <- Hc. unfold set_lock. cbn [rt_limiter]. by destruct (claim_commit _ _ _ _ _ _ _) as [[? ?] ?].
Qed.

Definition demo_first : Host := demo_claim demo_host 0 (demo_runtime demo_jobs) 200 (bs "n3").

Lemma demo_first_reachable : host_reachable 1 demo_first.
Proof.
  unfold host_reachable; etrans; [exact demo_host_reachable|].
  eapply demo_claim_runs; vm_compute; [reflexivity..|set_solver|set_solver|reflexivity].
Qed.

Lemma in_flight_budget_holds_witness :
  in_flight (host_db demo_first) (bs "w") = 1
  /\ (Z.of_nat (in_flight (host_db demo_first) (bs "w")) <= 1)%Z.
Proof.
  split; [vm_compute; reflexivity|].
  destruct (in_flight_budget_holds 1 demo_first) as (_ & H & _);
    [unfold u32_max; lia|exact demo_first_reachable|].
  apply (H (bs "w")). intros r r'. change (host_via demo_first) with [(bs "w", 0%nat)].
  intros [= ->]%list_elem_of_singleton [= ->]%list_elem_of_singleton. reflexivity.
Defined.

(** A redeploy while the old runtime still admits claims: the new limiter's snapshot
    misses the claim made after it, and a worker of the old runtime gets a second
    run through the new limiter with a budget of one. *)
Lemma replacement_race_exceeds_budget :
  exists s, host_reachable 1 s /\ in_flight (host_db s) (bs "w") = 2.
Proof.
  exists (demo_claim demo_first 1 (add_stranger (bs "w") (demo_runtime demo_jobs)) 300 (bs "n4")).
  split; [|vm_compute; reflexivity]. unfold host_reachable; etrans; [exact demo_first_reachable|].
  eapply demo_claim_runs; vm_compute; [reflexivity..|set_solver|set_solver|reflexivity].
Qed.
