(* ===== verification/Instances.v ===== *)
(** * App instances and the routing list (tako-server/src/instances/, lb/mod.rs)

    An app owns a set of instances; the load balancer picks, round robin, from the
    list of instances eligible for public traffic.  Instances are shared
    ([Arc<Instance>]): the heap [objs] holds every instance ever allocated, and
    [instances] is the set of ids in the app's map, so that an instance that was
    removed can still be written through a handle.  [routing_ok] says that the
    routing list is exactly the healthy, non-suppressed instances; [routing_inv]
    allows for the instances that were killed through a handle while listed. *)

From S2P Require Import Prelude RustStr.

(** ** Instances *)

Inductive InstanceState := Starting | Ready | Healthy | Unhealthy | Draining | Stopped.

#[global] Instance InstanceState_eq_dec : EqDecision InstanceState.
Proof. solve_decision. Defined.

Definition state_eqb (a b : InstanceState) : bool := bool_decide (a = b).

Definition encode_instance_state (s : InstanceState) : Z :=
  match s with
  | Starting => 0 | Ready => 1 | Healthy => 2 | Unhealthy => 3 | Draining => 4 | Stopped => 5
  end.

Definition decode_instance_state (encoded : Z) : InstanceState :=
  if (encoded =? 0)%Z then Starting
  else if (encoded =? 1)%Z then Ready
  else if (encoded =? 2)%Z then Healthy
  else if (encoded =? 3)%Z then Unhealthy
  else if (encoded =? 4)%Z then Draining
  else if (encoded =? 5)%Z then Stopped
  else Unhealthy.

(** A socket address: the IP's text and the port. *)
Definition SocketAddr : Type := str * Z.

Definition loopback (port : Z) : SocketAddr := (bs "127.0.0.1", port).

(** The fields of [Instance] that the modelled code reads or writes. [process]
    tells whether a child handle is held; [compose] is its [owned] flag. *)
Record Instance := mkInstance {
  build_version : str;
  health_probe : option (str * str);
  upstream : option SocketAddr;
  process : bool;
  container : bool;
  compose : option bool;
  state_code : Z;
  requests_total : Z;
  in_flight : Z;
  last_request_ms : Z;
  last_heartbeat_ms : Z;
}.

Definition Instance_new (build : str) (now_ms : Z) : Instance :=
  mkInstance build None None false false None (encode_instance_state Starting) 0 0 now_ms now_ms.

Definition inst_state (i : Instance) : InstanceState := decode_instance_state (state_code i).

(** [Instance::set_state]: the raw swap, with the previous state. *)
Definition with_state (s : InstanceState) (i : Instance) : Instance :=
  mkInstance (build_version i) (health_probe i) (upstream i) (process i) (container i) (compose i)
    (encode_instance_state s) (requests_total i) (in_flight i) (last_request_ms i) (last_heartbeat_ms i).

Definition set_port (port : Z) (i : Instance) : Instance :=
  mkInstance (build_version i) (health_probe i) (Some (loopback port)) (process i) (container i)
    (compose i) (state_code i) (requests_total i) (in_flight i) (last_request_ms i) (last_heartbeat_ms i).

Definition set_process (i : Instance) : Instance :=
  mkInstance (build_version i) (health_probe i) (upstream i) true (container i) (compose i)
    (state_code i) (requests_total i) (in_flight i) (last_request_ms i) (last_heartbeat_ms i).

Definition set_health_probe (host path : str) (i : Instance) : Instance :=
  mkInstance (build_version i) (Some (host, path)) (upstream i) (process i) (container i) (compose i)
    (state_code i) (requests_total i) (in_flight i) (last_request_ms i) (last_heartbeat_ms i).

Definition set_requests (total inflight last : Z) (i : Instance) : Instance :=
  mkInstance (build_version i) (health_probe i) (upstream i) (process i) (container i) (compose i)
    (state_code i) total inflight last (last_heartbeat_ms i).

Definition request_started (i : Instance) : Instance :=
  set_requests (u64_wrapping_add (requests_total i) 1) (u64_wrapping_add (in_flight i) 1)
    (last_request_ms i) i.

Definition request_finished (now_ms : Z) (i : Instance) : Instance :=
  set_requests (requests_total i) (u64_wrapping_sub (in_flight i) 1)
    (if (in_flight i =? 1)%Z then now_ms else last_request_ms i) i.

Definition idle_time (now_ms : Z) (i : Instance) : Z := u64_saturating_sub now_ms (last_request_ms i).

Definition record_heartbeat (now_ms : Z) (i : Instance) : Instance :=
  mkInstance (build_version i) (health_probe i) (upstream i) (process i) (container i) (compose i)
    (state_code i) (requests_total i) (in_flight i) (last_request_ms i) now_ms.

(** What the container runtimes and the operating system answer to one [kill]. *)
Record KillEnv := mkKillEnv {
  stop_compose : result unit str;
  remove_container : result unit str;
  start_kill : result unit str;
  wait_exit : result unit str;   (** the outcome of polling [try_wait] *)
}.

(** The fields [kill] clears. *)
Definition set_runtime (proc cont : bool) (comp : option bool) (up : option SocketAddr)
    (code : Z) (i : Instance) : Instance :=
  mkInstance (build_version i) (health_probe i) up proc cont comp code (requests_total i)
    (in_flight i) (last_request_ms i) (last_heartbeat_ms i).

Definition kill (env : KillEnv) (i : Instance) : Instance * result unit str :=
  match match compose i with Some true => stop_compose env | _ => Ok tt end with
  | Err e => (i, Err e)
  | Ok tt =>
      let i1 := set_runtime (process i) (container i) None (upstream i) (state_code i) i in
      match (if container i then remove_container env else Ok tt) with
      | Err e => (i1, Err e)
      | Ok tt =>
          let i2 := set_runtime (process i) false None (upstream i) (state_code i) i in
          match (if process i then let? _ := start_kill env in wait_exit env else Ok tt) with
          | Err e => (i2, Err e)
          | Ok tt => (set_runtime false false None None (encode_instance_state Stopped) i, Ok tt)
          end
      end
  end.

(** ** Apps *)

Inductive AppState := AppRunning | AppIdle | AppDeploying | AppStopped | AppError.

Record AppConfig := mkAppConfig {
  config_name : str;
  environment : str;
  version : str;
  min_instances : Z;
  max_instances : Z;
  health_check_path : str;
  health_check_host : str;
  startup_timeout_ms : Z;
  idle_timeout_ms : Z;
}.

Definition deployment_app_id (app_name env_name : str) : str := app_name ++ "/"%char :: env_name.

Definition split_deployment_app_id (app_id : str) : option (str * str) :=
  match split_once "/"%char app_id with
  | None => None
  | Some (app_name, env_name) =>
      if str_eqb app_name [] || str_eqb env_name [] || contains_char env_name "/"%char then None
      else Some (app_name, env_name)
  end.

Definition deployment_id (c : AppConfig) : str :=
  if str_eqb (environment c) [] then config_name c
  else deployment_app_id (config_name c) (environment c).

Definition internal_app_host (app_name : str) : str :=
  let app_name := trim app_name in
  let app_name := if str_eqb app_name [] then bs "app" else app_name in
  app_name ++ bs ".tako".

Definition internal_app_host_for_app_id (app_id : str) : str :=
  internal_app_host (match split_deployment_app_id app_id with Some (name, _) => name | None => app_id end).

Definition apply_internal_defaults (c : AppConfig) : AppConfig :=
  if str_eqb (health_check_host c) [] then
    mkAppConfig (config_name c) (environment c) (version c) (min_instances c) (max_instances c)
      (health_check_path c) (internal_app_host (config_name c)) (startup_timeout_ms c) (idle_timeout_ms c)
  else c.

Definition host_instance_limit_for_parallelism (parallelism : Z) : Z :=
  Z.max 1 (Z.min u32_max (parallelism * 2)).

Definition effective_instance_limit (parallelism max_instances : Z) : Z :=
  Z.min max_instances (host_instance_limit_for_parallelism parallelism).

Definition validate_requested_instances (parallelism requested max_instances : Z) : result unit Z :=
  let limit := effective_instance_limit parallelism max_instances in
  if (limit <? requested)%Z then Err limit else Ok tt.

Definition clamp_instances_to_limit (parallelism : Z) (c : AppConfig) : AppConfig * option (Z * Z) :=
  let limit := effective_instance_limit parallelism (max_instances c) in
  if (min_instances c <=? limit)%Z then (c, None)
  else (mkAppConfig (config_name c) (environment c) (version c) limit (max_instances c)
          (health_check_path c) (health_check_host c) (startup_timeout_ms c) (idle_timeout_ms c),
        Some (min_instances c, limit)).

Record App := mkApp {
  config : AppConfig;
  objs : gmap str Instance;                              (** every instance, by id *)
  instances : gset str;                                  (** the keys of the map *)
  healthy_instances : list (str * option SocketAddr);    (** id and captured endpoint *)
  routing_suppressed : gset str;
  app_state : AppState;
  last_error : option str;
}.

Definition App_new (c : AppConfig) : App :=
  mkApp (apply_internal_defaults c) ∅ ∅ [] ∅ AppStopped None.

Definition with_objs (a : App) (m : gmap str Instance) : App :=
  mkApp (config a) m (instances a) (healthy_instances a) (routing_suppressed a) (app_state a) (last_error a).
Definition with_healthy (a : App) (l : list (str * option SocketAddr)) : App :=
  mkApp (config a) (objs a) (instances a) l (routing_suppressed a) (app_state a) (last_error a).
Definition with_suppressed (a : App) (s : gset str) : App :=
  mkApp (config a) (objs a) (instances a) (healthy_instances a) s (app_state a) (last_error a).
Definition with_instances (a : App) (s : gset str) : App :=
  mkApp (config a) (objs a) s (healthy_instances a) (routing_suppressed a) (app_state a) (last_error a).
Definition set_app_state (a : App) (s : AppState) : App :=
  mkApp (config a) (objs a) (instances a) (healthy_instances a) (routing_suppressed a) s (last_error a).
Definition set_last_error (a : App) (e : option str) : App :=
  mkApp (config a) (objs a) (instances a) (healthy_instances a) (routing_suppressed a) (app_state a) e.
Definition update_config (a : App) (c : AppConfig) : App :=
  mkApp (apply_internal_defaults c) (objs a) (instances a) (healthy_instances a) (routing_suppressed a)
    (app_state a) (last_error a).

(** A write through an [Arc<Instance>]. *)
Definition write_instance (a : App) (id : str) (f : Instance -> Instance) : App :=
  match objs a !! id with Some i => with_objs a (<[id := f i]> (objs a)) | None => a end.

(** The state and the endpoint read through a handle. *)
Definition state_of (a : App) (id : str) : option InstanceState := inst_state <$> objs a !! id.
Definition endpoint_of (a : App) (id : str) : option SocketAddr :=
  match objs a !! id with Some i => upstream i | None => None end.

Definition id_listed (id : str) (h : str * option SocketAddr) : bool := str_eqb h.1 id.

Definition add_healthy_instance (a : App) (id : str) : App :=
  if bool_decide (id ∈ routing_suppressed a) then a
  else if any (id_listed id) (healthy_instances a) then a
  else with_healthy a (healthy_instances a ++ [(id, endpoint_of a id)]).

Fixpoint refresh_first (id : str) (ep : option SocketAddr) (l : list (str * option SocketAddr))
    : list (str * option SocketAddr) :=
  match l with
  | [] => []
  | h :: l' => if id_listed id h then (h.1, ep) :: l' else h :: refresh_first id ep l'
  end.

Definition refresh_healthy_instance (a : App) (id : str) : App :=
  with_healthy a (refresh_first id (endpoint_of a id) (healthy_instances a)).

Definition remove_healthy_instance (a : App) (id : str) : App :=
  with_healthy a (retain (fun h => negb (id_listed id h)) (healthy_instances a)).

Definition set_instance_state_locked (a : App) (id : str) (s : InstanceState) : App :=
  match state_of a id with
  | None => a
  | Some previous =>
      let a1 := write_instance a id (with_state s) in
      if state_eqb previous s then
        if state_eqb s Healthy then refresh_healthy_instance a1 id else a1
      else if state_eqb previous Healthy then remove_healthy_instance a1 id
      else if state_eqb s Healthy then add_healthy_instance a1 id
      else a1
  end.

Definition set_instance_state := set_instance_state_locked.

Definition set_instance_health_state (a : App) (id : str) (s : InstanceState) : App * bool :=
  match state_of a id with
  | Some Draining | Some Stopped | None => (a, false)
  | Some _ => (set_instance_state_locked a id s, true)
  end.

Definition suppress_instance_routing (a : App) (id : str) : App :=
  remove_healthy_instance (with_suppressed a ({[id]} ∪ routing_suppressed a)) id.

Definition enable_instance_routing_locked (a : App) (id : str) : App * bool :=
  let a1 := with_suppressed a (routing_suppressed a ∖ {[id]}) in
  if bool_decide (state_of a1 id = Some Healthy) then (add_healthy_instance a1 id, true)
  else (a1, false).

Definition enable_instance_routing := enable_instance_routing_locked.

Definition enable_rollout_routing (a : App) (ids : list str)
    : App * result unit (str * option InstanceState) :=
  match find_first (fun id => negb (bool_decide (state_of a id = Some Healthy))) ids with
  | Some id => (a, Err (id, state_of a id))
  | None => (fold_left (fun a id => (enable_instance_routing_locked a id).1) ids a, Ok tt)
  end.

Definition is_instance_routing_suppressed (a : App) (id : str) : bool :=
  bool_decide (id ∈ routing_suppressed a).

Definition healthy_backend_for_request (a : App) (request_index : Z) : option (str * option SocketAddr) :=
  match healthy_instances a with
  | [] => None
  | l => l !! Z.to_nat (request_index mod Z.of_nat (length l))
  end.

Definition has_starting_instance (a : App) : bool :=
  negb (bool_decide (routing_suppressed a = ∅))
  || any (fun id => bool_decide (state_of a id = Some Starting) || bool_decide (state_of a id = Some Ready))
       (elements (instances a)).

Definition get_instance (a : App) (id : str) : option Instance :=
  if bool_decide (id ∈ instances a) then objs a !! id else None.

Definition allocate_instance (a : App) (id : str) (now_ms : Z) : App :=
  with_instances (with_objs a (<[id := Instance_new (version (config a)) now_ms]> (objs a)))
    ({[id]} ∪ instances a).

Definition remove_instance (a : App) (id : str) : App :=
  if bool_decide (id ∈ instances a) then
    remove_healthy_instance
      (with_suppressed (with_instances a (instances a ∖ {[id]})) (routing_suppressed a ∖ {[id]})) id
  else a.

Definition kill_instance (a : App) (id : str) (env : KillEnv) : App * result unit str :=
  match objs a !! id with
  | Some i => let '(i', r) := kill env i in (with_objs a (<[id := i']> (objs a)), r)
  | None => (a, Ok tt)
  end.

(** ** The load balancer *)

(** [AppLoadBalancer::get_backend]: the counter is a wrapping [usize]. *)
Definition get_backend (rr_counter : Z) (a : App) : Z * option (str * option SocketAddr) :=
  (u64_wrapping_add rr_counter 1, healthy_backend_for_request a rr_counter).

(** [n] consecutive requests. *)
Fixpoint get_backends (n : nat) (rr_counter : Z) (a : App) : list (option (str * option SocketAddr)) :=
  match n with
  | O => []
  | S n' => let '(rr', b) := get_backend rr_counter a in b :: get_backends n' rr' a
  end.

(** ** Lemmas: states *)

Lemma decode_encode s : decode_instance_state (encode_instance_state s) = s.
Proof. by destruct s. Qed.

Lemma inst_state_with_state s i : inst_state (with_state s i) = s.
Proof. apply decode_encode. Qed.

Lemma state_eqb_true a b : state_eqb a b = true <-> a = b.
Proof. apply bool_decide_eq_true. Qed.

Lemma id_listed_true id h : id_listed id h = true <-> h.1 = id.
Proof. apply bool_decide_eq_true. Qed.

Lemma state_of_write a id f id' :
  state_of (write_instance a id f) id' =
  if decide (id = id') then inst_state ∘ f <$> objs a !! id' else state_of a id'.
Proof.
  unfold write_instance, state_of. destruct (decide (id = id')) as [<-|Hne].
  - destruct (objs a !! id) as [i|] eqn:Hi; simpl; [by rewrite lookup_insert_eq|by rewrite Hi].
  - destruct (objs a !! id); simpl; [by rewrite lookup_insert_ne|done].
Qed.

Lemma write_instance_frame a id f :
  healthy_instances (write_instance a id f) = healthy_instances a
  /\ instances (write_instance a id f) = instances a
  /\ routing_suppressed (write_instance a id f) = routing_suppressed a.
Proof. unfold write_instance. by destruct (objs a !! id). Qed.

(** ** The routing invariant *)

Definition routed (a : App) : list str := fst <$> healthy_instances a.

Record routing_ok (a : App) : Prop := {
  routed_once : NoDup (routed a);
  routed_sound : forall id, id ∈ routed a ->
    state_of a id = Some Healthy /\ id ∉ routing_suppressed a;
  routed_complete : forall id, id ∈ instances a -> state_of a id = Some Healthy ->
    id ∉ routing_suppressed a -> id ∈ routed a;
}.

(** The same, but for the listed instances in [stale], whose state was written
    without the list. *)
Record routing_inv (stale : gset str) (a : App) : Prop := {
  inv_once : NoDup (routed a);
  inv_known : forall id, id ∈ routed a -> is_Some (state_of a id) /\ id ∉ routing_suppressed a;
  inv_sound : forall id, id ∈ routed a -> id ∉ stale -> state_of a id = Some Healthy;
  inv_complete : forall id, id ∈ instances a -> state_of a id = Some Healthy ->
    id ∉ routing_suppressed a -> id ∈ routed a;
}.

Lemma routing_ok_inv a : routing_ok a <-> routing_inv ∅ a.
Proof.
  split; intros H; destruct H.
  - constructor; try done; intros id Hid.
    + destruct (routed_sound0 id Hid) as [-> ?]. by eauto.
    + intros _. by apply routed_sound0.
  - constructor; try done. intros id Hid. split; [apply inv_sound0; set_solver|by apply inv_known0].
Qed.

Lemma routing_inv_mono stale stale' a :
  routing_inv stale a -> (forall id, id ∈ routed a -> id ∈ stale -> id ∈ stale') -> routing_inv stale' a.
Proof. intros [H1 H2 H3 H4] Hs. constructor; try done. intros id Hid Hn. apply H3; [done|]. eauto. Qed.

Lemma routed_remove a id id' :
  id' ∈ routed (remove_healthy_instance a id) <-> id' ∈ routed a /\ id' <> id.
Proof.
  unfold routed, remove_healthy_instance. simpl. rewrite !list_elem_of_fmap. split.
  - intros (h & -> & [Hn Hh]%elem_of_retain). apply negb_true_iff in Hn.
    split; [by eauto|]. intros Heq. apply id_listed_true in Heq. congruence.
  - intros [(h & -> & Hh) Hne]. exists h. split; [done|]. apply elem_of_retain. split; [|done].
    apply negb_true_iff, not_true_iff_false. by rewrite id_listed_true.
Qed.

Lemma routed_remove_NoDup a id : NoDup (routed a) -> NoDup (routed (remove_healthy_instance a id)).
Proof.
  intros H. eapply sublist_NoDup; [exact H|]. unfold routed, remove_healthy_instance. simpl.
  induction (healthy_instances a) as [|h l IH]; simpl; [done|].
  destruct (id_listed id h); simpl; by constructor.
Qed.

Lemma any_id_listed a id : any (id_listed id) (healthy_instances a) = true <-> id ∈ routed a.
Proof.
  unfold routed, any. rewrite existsb_exists, list_elem_of_fmap. split.
  - intros (h & Hh & <-%id_listed_true). exists h. by rewrite list_elem_of_In.
  - intros (h & -> & Hh). exists h. rewrite <- list_elem_of_In. split; [done|]. by apply id_listed_true.
Qed.

Lemma routed_add a id id' :
  id' ∈ routed (add_healthy_instance a id)
  <-> id' ∈ routed a \/ (id' = id /\ id ∉ routing_suppressed a).
Proof.
  unfold add_healthy_instance. case_bool_decide as Hs; [naive_solver|].
  destruct (any _ _) eqn:Ha.
  - apply any_id_listed in Ha. naive_solver.
  - unfold routed. simpl. rewrite fmap_app, elem_of_app. simpl. rewrite list_elem_of_singleton. naive_solver.
Qed.

Lemma routed_add_NoDup a id : NoDup (routed a) -> NoDup (routed (add_healthy_instance a id)).
Proof.
  intros H. unfold add_healthy_instance. case_bool_decide; [done|].
  destruct (any _ _) eqn:Ha; [done|]. unfold routed. simpl. rewrite fmap_app. simpl.
  apply not_true_iff_false in Ha. rewrite any_id_listed in Ha.
  apply NoDup_app. split; [done|]. split; [|apply NoDup_singleton].
  intros x Hx ->%list_elem_of_singleton. done.
Qed.

Lemma routed_refresh a id : routed (refresh_healthy_instance a id) = routed a.
Proof.
  unfold routed, refresh_healthy_instance. simpl.
  induction (healthy_instances a) as [|h l IH]; simpl; [done|].
  destruct (id_listed id h); simpl; [done|f_equal; exact IH].
Qed.

(** The frame of the list operations. *)
Lemma add_frame a id :
  objs (add_healthy_instance a id) = objs a /\ instances (add_healthy_instance a id) = instances a
  /\ routing_suppressed (add_healthy_instance a id) = routing_suppressed a.
Proof. unfold add_healthy_instance. repeat case_match; done. Qed.

Lemma state_of_add a id id' : state_of (add_healthy_instance a id) id' = state_of a id'.
Proof. unfold state_of. by destruct (add_frame a id) as (-> & _). Qed.

(** Writes through a handle that do not make the instance healthy: a listed one
    becomes stale, unless the write keeps its state. *)
Lemma routing_inv_write stale a id f :
  routing_inv stale a ->
  (forall i, inst_state (f i) = inst_state i \/ (inst_state (f i) <> Healthy /\ (id ∈ routed a -> id ∈ stale))) ->
  routing_inv stale (write_instance a id f).
Proof.
  intros [H1 H2 H3 H4] Hf. destruct (write_instance_frame a id f) as (Eh & Ei & Es).
  assert (routed (write_instance a id f) = routed a) as Er by (unfold routed; by rewrite Eh).
  constructor; rewrite ?Er, ?Ei, ?Es; [done| | |].
  - intros id' Hid'. rewrite state_of_write. destruct (H2 id' Hid') as [Hs Hn]. split; [|done].
    case_decide as He; [subst id'|done]. unfold state_of in Hs. by destruct (objs a !! id).
  - intros id' Hid' Hst. rewrite state_of_write. specialize (H3 id' Hid' Hst) as Hs.
    case_decide as He; [subst id'|done]. unfold state_of in Hs.
    destruct (objs a !! id) as [i|]; [|done]. simpl in *. injection Hs as Hs.
    destruct (Hf i) as [->|[_ Hin]]; [by rewrite Hs|]. destruct Hst. auto.
  - intros id' Hm. rewrite state_of_write. case_decide as He; [subst id'|by apply H4].
    intros Hs Hn. destruct (objs a !! id) as [i|] eqn:Hi; [|done]. simpl in Hs. injection Hs as Hs.
    destruct (Hf i) as [E|[? _]]; [|done]. apply H4; [done| |done].
    unfold state_of. rewrite Hi. simpl. by rewrite <- E, Hs.
Qed.

Lemma routing_ok_write a id f :
  routing_ok a -> (forall i, inst_state (f i) = inst_state i \/ (inst_state (f i) <> Healthy /\ id ∉ routed a)) ->
  routing_ok (write_instance a id f).
Proof.
  rewrite !routing_ok_inv. intros H Hf. apply routing_inv_write; [done|]. intros i.
  destruct (Hf i) as [?|[? ?]]; [by left|by right].
Qed.

Lemma state_of_set_locked a id s id' :
  state_of (set_instance_state_locked a id s) id' =
  if decide (id = id') then (fun _ => s) <$> state_of a id' else state_of a id'.
Proof.
  unfold set_instance_state_locked. destruct (state_of a id) as [previous|] eqn:Hp.
  - assert (state_of (write_instance a id (with_state s)) id' =
            if decide (id = id') then (fun _ => s) <$> state_of a id' else state_of a id') as E.
    { rewrite state_of_write. case_decide; [|done]. unfold state_of. destruct (objs a !! id'); [|done].
      simpl. by rewrite inst_state_with_state. }
    repeat case_match; rewrite ?state_of_add; exact E.
  - case_decide; [subst id'; by rewrite Hp|done].
Qed.

Lemma set_locked_frame a id s :
  instances (set_instance_state_locked a id s) = instances a
  /\ routing_suppressed (set_instance_state_locked a id s) = routing_suppressed a.
Proof.
  unfold set_instance_state_locked. destruct (state_of a id); [|done].
  destruct (write_instance_frame a id (with_state s)) as (_ & E1 & E2).
  destruct (add_frame (write_instance a id (with_state s)) id) as (_ & E3 & E4).
  repeat case_match; rewrite ?E3, ?E4; done.
Qed.

(** Setting a state changes only the listing of that instance: it is listed after the
    call when it is then healthy and not suppressed, and otherwise only if it was
    stale. *)
Lemma routed_set_locked_other a id s id' :
  id' <> id -> id' ∈ routed (set_instance_state_locked a id s) <-> id' ∈ routed a.
Proof.
  intros Hne. unfold set_instance_state_locked. destruct (state_of a id) as [p|]; [|done].
  set (a1 := write_instance a id (with_state s)).
  assert (Er : routed a1 = routed a).
  { unfold routed, a1. by destruct (write_instance_frame a id (with_state s)) as (-> & _). }
  repeat case_match; rewrite ?routed_refresh, ?routed_remove, ?routed_add, ?Er; naive_solver.
Qed.

Lemma routed_set_locked_self stale a id s :
  routing_inv stale a -> id ∉ stale -> id ∈ routed (set_instance_state_locked a id s) -> s = Healthy.
Proof.
  intros [_ _ H3 _] Hst. unfold set_instance_state_locked.
  destruct (state_of a id) as [p|] eqn:Hp; [|intros Hr; specialize (H3 id Hr Hst); congruence].
  set (a1 := write_instance a id (with_state s)).
  assert (Er : routed a1 = routed a).
  { unfold routed, a1. by destruct (write_instance_frame a id (with_state s)) as (-> & _). }
  assert (Hh : id ∈ routed a -> p = Healthy) by (intros Hr; specialize (H3 id Hr Hst); congruence).
  destruct (state_eqb p s) eqn:Hps.
  - apply state_eqb_true in Hps as ->. case_match; rewrite ?routed_refresh, Er; auto.
  - apply bool_decide_eq_false in Hps. destruct (state_eqb p Healthy) eqn:Hph.
    + rewrite routed_remove. naive_solver.
    + apply bool_decide_eq_false in Hph. destruct (state_eqb s Healthy) eqn:Hs.
      * intros _. by apply state_eqb_true.
      * rewrite Er. naive_solver.
Qed.

Lemma routed_set_locked_healthy stale a id :
  routing_inv stale a -> id ∈ instances a -> is_Some (state_of a id) -> id ∉ routing_suppressed a ->
  id ∈ routed (set_instance_state_locked a id Healthy).
Proof.
  intros [_ _ _ H4] Hm [p Hp] Hn. unfold set_instance_state_locked. rewrite Hp.
  set (a1 := write_instance a id (with_state Healthy)).
  destruct (write_instance_frame a id (with_state Healthy)) as (Eh & _ & Es).
  assert (Er : routed a1 = routed a) by (unfold routed, a1; by rewrite Eh).
  destruct (state_eqb p Healthy) eqn:Hps.
  - apply state_eqb_true in Hps as ->. simpl. rewrite routed_refresh, Er. by apply H4.
  - simpl. rewrite routed_add. right. split; [done|]. unfold a1. by rewrite Es.
Qed.

Lemma routed_set_locked_NoDup a id s :
  NoDup (routed a) -> NoDup (routed (set_instance_state_locked a id s)).
Proof.
  intros H. unfold set_instance_state_locked. destruct (state_of a id); [|done].
  destruct (write_instance_frame a id (with_state s)) as (Eh & _ & _).
  assert (NoDup (routed (write_instance a id (with_state s)))) as H1 by (unfold routed; by rewrite Eh).
  repeat case_match; rewrite ?routed_refresh; auto using routed_remove_NoDup, routed_add_NoDup.
Qed.

Lemma routing_inv_set_locked stale a id s :
  routing_inv stale a -> routing_inv stale (set_instance_state_locked a id s).
Proof.
  intros Hok. destruct (state_of a id) as [p|] eqn:Hp;
    [|unfold set_instance_state_locked; by rewrite Hp].
  destruct (set_locked_frame a id s) as [Ei Es].
  constructor; rewrite ?Ei, ?Es.
  - apply routed_set_locked_NoDup, Hok.
  - intros id' H. rewrite state_of_set_locked. destruct (decide (id = id')) as [<-|Hne].
    + rewrite Hp. split; [by eexists|]. intros Hin.
      assert (Hno : id ∉ routed a) by (intros Hr; by apply (inv_known _ _ Hok id Hr)).
      revert H. unfold set_instance_state_locked. rewrite Hp.
      set (a1 := write_instance a id (with_state s)).
      destruct (write_instance_frame a id (with_state s)) as (Eh & _ & Es1). fold a1 in Eh, Es1.
      assert (Er : routed a1 = routed a) by (unfold routed; by rewrite Eh).
      repeat case_match; rewrite ?routed_refresh, ?routed_remove, ?routed_add, ?Er, ?Es1; naive_solver.
    + apply (inv_known _ _ Hok). by apply routed_set_locked_other in H.
  - intros id' H Hst. rewrite state_of_set_locked. destruct (decide (id = id')) as [<-|Hne].
    + rewrite Hp. simpl. f_equal. by eapply routed_set_locked_self.
    + apply (inv_sound _ _ Hok); [|done]. by apply routed_set_locked_other in H.
  - intros id' Hm. rewrite state_of_set_locked. destruct (decide (id = id')) as [<-|Hne].
    + rewrite Hp. simpl. intros [= ->] Hn. eapply routed_set_locked_healthy; eauto.
    + intros Hs Hn. apply routed_set_locked_other; [done|]. by apply Hok.
Qed.

Lemma routing_ok_set_locked a id s : routing_ok a -> routing_ok (set_instance_state_locked a id s).
Proof. rewrite !routing_ok_inv. apply routing_inv_set_locked. Qed.

Lemma routing_inv_suppress stale a id : routing_inv stale a -> routing_inv stale (suppress_instance_routing a id).
Proof.
  intros [H1 H2 H3 H4]. unfold suppress_instance_routing. constructor; simpl.
  - by apply routed_remove_NoDup.
  - intros id' [Hr Hne]%routed_remove. destruct (H2 id' Hr). split; [done|]. set_solver.
  - intros id' [Hr Hne]%routed_remove. by apply H3.
  - intros id' Hm Hs Hn. apply routed_remove. split; [apply H4; [done|done|set_solver]|set_solver].
Qed.

Lemma routing_ok_suppress a id : routing_ok a -> routing_ok (suppress_instance_routing a id).
Proof. rewrite !routing_ok_inv. apply routing_inv_suppress. Qed.

Lemma routing_inv_enable stale a id :
  routing_inv stale a -> routing_inv stale (enable_instance_routing_locked a id).1.
Proof.
  intros [H1 H2 H3 H4]. unfold enable_instance_routing_locked.
  set (a1 := with_suppressed a (routing_suppressed a ∖ {[id]})).
  destruct (add_frame a1 id) as (Eo & Ei & Es).
  case_bool_decide as Hh; cbn [fst].
  - constructor; rewrite ?Ei, ?Es.
    + by apply routed_add_NoDup.
    + intros id' [Hr|[-> Hn]]%routed_add; rewrite state_of_add; [|by rewrite Hh; eauto].
      destruct (H2 id' Hr). split; [done|]. simpl. set_solver.
    + intros id' [Hr|[-> Hn]]%routed_add; rewrite state_of_add; [by apply H3|done].
    + intros id' Hm. rewrite state_of_add, routed_add. intros Hs Hn.
      destruct (decide (id' = id)) as [->|Hne]; [by right|]. left. apply H4; [done|done|].
      simpl in Hn. set_solver.
  - constructor; simpl; [done| |done|].
    + intros id' Hr. destruct (H2 id' Hr). split; [done|]. set_solver.
    + intros id' Hm Hs Hn. apply H4; [done|done|]. intros Hin. apply Hn.
      apply elem_of_difference. split; [done|]. intros ->%elem_of_singleton. done.
Qed.

Lemma routing_ok_enable a id : routing_ok a -> routing_ok (enable_instance_routing_locked a id).1.
Proof. rewrite !routing_ok_inv. apply routing_inv_enable. Qed.

Lemma routing_inv_enable_all stale ids a :
  routing_inv stale a ->
  routing_inv stale (fold_left (fun a id => (enable_instance_routing_locked a id).1) ids a).
Proof. revert a. induction ids as [|id ids IH]; intros a H; simpl; [done|]. by apply IH, routing_inv_enable. Qed.

Lemma routing_inv_remove stale a id : routing_inv stale a -> routing_inv stale (remove_instance a id).
Proof.
  intros [H1 H2 H3 H4]. unfold remove_instance. case_bool_decide as Hm; [|done].
  constructor; simpl.
  - by apply routed_remove_NoDup.
  - intros id' [Hr Hne]%routed_remove. destruct (H2 id' Hr). split; [done|]. set_solver.
  - intros id' [Hr Hne]%routed_remove. by apply H3.
  - intros id' Hm' Hs Hn. apply routed_remove. split; [|set_solver].
    apply H4; [set_solver|done|]. set_solver.
Qed.

Lemma routing_ok_remove a id : routing_ok a -> routing_ok (remove_instance a id).
Proof. rewrite !routing_ok_inv. apply routing_inv_remove. Qed.

Lemma routing_inv_allocate stale a id now :
  routing_inv stale a -> objs a !! id = None -> routing_inv stale (allocate_instance a id now).
Proof.
  intros [H1 H2 H3 H4] Hfresh. unfold allocate_instance.
  assert (Hst : forall id', state_of (with_instances (with_objs a
      (<[id := Instance_new (version (config a)) now]> (objs a))) ({[id]} ∪ instances a)) id' =
      if decide (id = id') then Some Starting else state_of a id').
  { intros id'. unfold state_of. simpl. case_decide as E; [subst; by rewrite lookup_insert_eq|].
    by rewrite lookup_insert_ne. }
  assert (Hno : id ∉ routed a).
  { intros Hr. destruct (H2 id Hr) as [[p Hp] _]. unfold state_of in Hp. by rewrite Hfresh in Hp. }
  constructor; simpl; [done| | |].
  - intros id' Hr. rewrite Hst. destruct (H2 id' Hr) as [Hs Hn]. split; [|done]. by case_decide.
  - intros id' Hr Hs. rewrite Hst. rewrite decide_False by (intros ->; done). by apply H3.
  - intros id' Hm. rewrite Hst. case_decide; [done|]. apply H4. set_solver.
Qed.

Lemma routing_ok_allocate a id now :
  routing_ok a -> objs a !! id = None -> routing_ok (allocate_instance a id now).
Proof. rewrite !routing_ok_inv. apply routing_inv_allocate. Qed.

(** A kill leaves the instance stopped, or with its state unchanged. *)
Lemma kill_state env i : inst_state (kill env i).1 = Stopped \/ inst_state (kill env i).1 = inst_state i.
Proof. unfold kill. repeat case_match; simpl; auto. Qed.

Lemma kill_Ok env i i' : kill env i = (i', Ok tt) -> inst_state i' = Stopped /\ process i' = false /\ upstream i' = None.
Proof. unfold kill. repeat case_match; by intros [= <-]. Qed.

Lemma kill_instance_write a id env : (kill_instance a id env).1 = write_instance a id (fun i => (kill env i).1).
Proof. unfold kill_instance, write_instance. destruct (objs a !! id); [|done]. by destruct (kill env _). Qed.

Lemma routing_ok_kill a id env :
  routing_ok a -> id ∉ routed a -> routing_ok (kill_instance a id env).1.
Proof.
  intros Hok Hn. rewrite kill_instance_write. apply routing_ok_write; [done|]. intros i.
  destruct (kill_state env i) as [E|E]; rewrite E; auto.
Qed.

(** ** Every interleaving of the operations on an app *)

(** Writes through a handle that do not touch the state. *)
Definition keeps_state (f : Instance -> Instance) : Prop := forall i, inst_state (f i) = inst_state i.

(** One operation of some thread on the app, with the instances whose state it writes
    through a handle, without the list: [kill], of any instance at any time, and the
    readiness signal of a process that was started.  A new instance has a fresh id. *)
Inductive app_op (a : App) : gset str -> App -> Prop :=
| op_allocate id now : objs a !! id = None -> app_op a ∅ (allocate_instance a id now)
| op_set_state id s : app_op a ∅ (set_instance_state a id s)
| op_health_state id s : app_op a ∅ (set_instance_health_state a id s).1
| op_suppress id : app_op a ∅ (suppress_instance_routing a id)
| op_enable id : app_op a ∅ (enable_instance_routing a id).1
| op_rollout ids : app_op a ∅ (enable_rollout_routing a ids).1
| op_remove id : app_op a ∅ (remove_instance a id)
| op_write id f : keeps_state f -> app_op a ∅ (write_instance a id f)
| op_ready id : app_op a {[id]} (write_instance a id (with_state Ready))
| op_kill id env : app_op a {[id]} (kill_instance a id env).1
| op_config c : app_op a ∅ (update_config a c)
| op_app_state s : app_op a ∅ (set_app_state a s)
| op_error e : app_op a ∅ (set_last_error a e).

Lemma routing_inv_op stale a raw a' :
  routing_inv stale a -> app_op a raw a' -> routing_inv (stale ∪ raw) a'.
Proof.
  intros Hok H.
  assert (Hw : forall id f, (forall i, inst_state (f i) = inst_state i \/ inst_state (f i) <> Healthy) ->
    routing_inv (stale ∪ {[id]}) (write_instance a id f)).
  { intros id f Hf. apply routing_inv_write; [eapply routing_inv_mono; [done|set_solver]|].
    intros i. destruct (Hf i); [by left|]. right. split; [done|set_solver]. }
  destruct H; try (rewrite union_empty_r_L).
  - by apply routing_inv_allocate.
  - by apply routing_inv_set_locked.
  - unfold set_instance_health_state. destruct (state_of a id) as [[]|]; try done;
      by apply routing_inv_set_locked.
  - by apply routing_inv_suppress.
  - by apply routing_inv_enable.
  - unfold enable_rollout_routing. destruct (find_first _ ids); [done|]. by apply routing_inv_enable_all.
  - by apply routing_inv_remove.
  - apply routing_inv_write; [done|]. by left.
  - apply Hw. intros i. right. by rewrite inst_state_with_state.
  - rewrite kill_instance_write. apply Hw. intros i. destruct (kill_state env i) as [E|E]; rewrite E; auto.
  - by destruct Hok.
  - by destruct Hok.
  - by destruct Hok.
Qed.

(** A state of the app with the listed instances that were written without the list
    while listed, and have been listed ever since. *)
Inductive app_step : gset str * App -> gset str * App -> Prop :=
| app_step_op stale a raw a' :
    app_op a raw a' -> app_step (stale, a) ((stale ∪ raw) ∩ list_to_set (routed a'), a').

Definition App_reachable (c : AppConfig) (stale : gset str) (a : App) : Prop :=
  rtc app_step (∅, App_new c) (stale, a).

Lemma App_reachable_inv c stale a : App_reachable c stale a -> routing_inv stale a.
Proof.
  unfold App_reachable. change (routing_inv stale a) with (routing_inv (stale, a).1 (stale, a).2).
  generalize (stale, a). apply (rtc_ind_r (R := app_step) (fun p => routing_inv p.1 p.2) (∅, App_new c)).
  - constructor; [constructor|intros id []%elem_of_nil|intros id []%elem_of_nil|intros id H; set_solver].
  - intros p p' _ Hop Hok. destruct Hop as [st b raw b' Hop]. simpl in *.
    eapply routing_inv_mono; [by eapply routing_inv_op|]. intros id Hr Hs.
    apply elem_of_intersection. by rewrite elem_of_list_to_set.
Qed.

Lemma App_reachable_ok c a : App_reachable c ∅ a -> routing_ok a.
Proof. intros H. by apply routing_ok_inv, (App_reachable_inv c). Qed.

Lemma App_reachable_listed c stale a id : App_reachable c stale a -> id ∈ stale -> id ∈ routed a.
Proof.
  intros H. unfold App_reachable in H. apply rtc_inv_r in H as [H|([st b] & _ & H)].
  - injection H as <- _. set_solver.
  - inversion H; subst. rewrite elem_of_intersection, elem_of_list_to_set. by intros [_ ?].
Qed.

Lemma backend_of_list a k :
  (0 <= k)%Z ->
  match healthy_backend_for_request a k with
  | Some h => h ∈ healthy_instances a
  | None => routed a = []
  end.
Proof.
  intros Hk. unfold healthy_backend_for_request, routed.
  destruct (healthy_instances a) as [|h l] eqn:E; [done|]. rewrite <- E.
  destruct (healthy_instances a !! _) as [x|] eqn:Hx; [by eapply list_elem_of_lookup_2|].
  apply lookup_ge_None in Hx. exfalso.
  pose proof (Z.mod_pos_bound k (Z.of_nat (length (healthy_instances a)))) as Hb.
  rewrite E in *. simpl in *. lia.
Qed.

(** C10: the load balancer's list under every interleaving of health transitions,
    rollouts, removals, readiness signals and kills, where a kill may hit a listed
    instance at any time (as the eviction of an idle one does).  No instance is listed
    twice, none is listed that a rollout withholds, and every registered instance that
    is healthy and not withheld is listed.  A listed instance is healthy, except one
    whose state was written through a handle while it was listed (killed, and not yet
    taken off the list): so the list is exact whenever there is none such, a kill
    followed by the removal of the instance takes it off the list, and a request finds
    no backend exactly when nothing is listed. *)
Theorem routing_list_is_exact c stale a :
  App_reachable c stale a ->
  NoDup (routed a)
  /\ (forall id, id ∈ routed a -> id ∉ routing_suppressed a
        /\ (state_of a id = Some Healthy \/ id ∈ stale))
  /\ (forall id, id ∈ instances a -> state_of a id = Some Healthy ->
        id ∉ routing_suppressed a -> id ∈ routed a)
  /\ (stale = ∅ -> forall id, id ∈ instances a ->
        id ∈ routed a <-> state_of a id = Some Healthy /\ id ∉ routing_suppressed a)
  /\ (forall id, id ∈ stale -> id ∈ routed a)
  /\ (forall id env, id ∈ instances a -> id ∉ routed (remove_instance (kill_instance a id env).1 id))
  /\ (forall k, (0 <= k)%Z ->
        match healthy_backend_for_request a k with
        | Some h => h ∈ healthy_instances a
        | None => routed a = []
        end).
Proof.
  intros Hr. pose proof (App_reachable_inv c stale a Hr) as [H1 H2 H3 H4]. split_and!.
  - done.
  - intros id Hid. split; [by apply H2|]. destruct (decide (id ∈ stale)); [by right|left; by apply H3].
  - done.
  - intros -> id Hm. split; [|naive_solver]. intros Hid. split; [apply H3; set_solver|by apply H2].
  - intros id. by eapply App_reachable_listed.
  - intros id env Hm. rewrite kill_instance_write. unfold remove_instance.
    destruct (write_instance_frame a id (fun i => (kill env i).1)) as (_ & -> & _).
    rewrite bool_decide_eq_true_2 by done. rewrite routed_remove. naive_solver.
  - apply backend_of_list.
Qed.

(** ** Round robin *)

Lemma get_backends_lookup n : forall k a i,
  (0 <= k)%Z -> (k + Z.of_nat n <= 18446744073709551616)%Z -> (i < n)%nat ->
  get_backends n k a !! i = Some (healthy_backend_for_request a (k + Z.of_nat i)).
Proof.
  induction n as [|n IH]; intros k a i Hk Hn Hi; [lia|]. simpl.
  destruct i as [|i]; simpl; [by rewrite Z.add_0_r|].
  destruct n as [|n]; [lia|].
  unfold u64_wrapping_add. rewrite Z.mod_small by lia. rewrite IH by lia. do 2 f_equal. lia.
Qed.

Lemma length_get_backends n k a : length (get_backends n k a) = n.
Proof. revert k. induction n as [|n IH]; intros k; simpl; [done|]. by rewrite IH. Qed.

(** Round robin is fair: any [n] consecutive requests of an app with [n] routed
    instances go to each of them exactly once (for a counter that does not wrap in
    between). *)
Lemma round_robin_is_fair a k n :
  length (healthy_instances a) = n -> (0 <= k)%Z -> (k + Z.of_nat n <= 18446744073709551616)%Z ->
  get_backends n k a ≡ₚ Some <$> healthy_instances a.
Proof.
  intros Hlen Hk Hn. set (l := healthy_instances a) in *.
  assert (get_backends n k a = Some <$> rotate (Z.to_nat k) l) as ->.
  { apply list_eq. intros i. destruct (decide (i < n)%nat) as [Hi|Hi].
    - rewrite get_backends_lookup by done. rewrite list_lookup_fmap, lookup_rotate_r by lia.
      unfold healthy_backend_for_request, rotate_nat_add. fold l.
      destruct l as [|h l'] eqn:El; [simpl in Hlen; lia|]. rewrite Hlen, Z2Nat.id by lia.
      destruct ((h :: l') !! Z.to_nat ((k + Z.of_nat i) mod Z.of_nat n)) as [x|] eqn:Hx; [done|].
      apply lookup_ge_None in Hx. pose proof (Z.mod_pos_bound (k + Z.of_nat i) (Z.of_nat n)). lia.
    - rewrite !(proj2 (lookup_ge_None _ _)); [done| |].
      + rewrite length_fmap, length_rotate. lia.
      + rewrite length_get_backends. lia. }
  f_equiv. unfold rotate. rewrite Permutation_app_comm. by rewrite take_drop.
Qed.

(** ** Two healthy instances, one of them withheld *)

Definition demo_config : AppConfig :=
  mkAppConfig (bs "web") (bs "production") (bs "v1") 1 4 (bs "/status") [] 30000 300000.

Definition demo_pool : App :=
  let a := allocate_instance (allocate_instance (App_new demo_config) (bs "i1") 0) (bs "i2") 0 in
  let a := set_instance_state (set_instance_state a (bs "i1") Healthy) (bs "i2") Healthy in a.

Definition demo_withheld : App := suppress_instance_routing demo_pool (bs "i2").

(** The idle eviction of a listed instance, between its kill and its removal. *)
Definition demo_killed : App :=
  (kill_instance demo_withheld (bs "i1") (mkKillEnv (Ok tt) (Ok tt) (Ok tt) (Ok tt))).1.

Lemma app_step_at c stale a raw a' stale' :
  App_reachable c stale a -> app_op a raw a' -> stale' = (stale ∪ raw) ∩ list_to_set (routed a') ->
  App_reachable c stale' a'.
Proof. intros Hr Hop ->. eapply rtc_r; [exact Hr|by constructor]. Qed.

Lemma demo_pool_reachable : App_reachable demo_config ∅ demo_pool.
Proof.
  eapply (app_step_at _ ∅); [|apply op_set_state|vm_compute; reflexivity].
  eapply (app_step_at _ ∅); [|apply op_set_state|vm_compute; reflexivity].
  eapply (app_step_at _ ∅); [|apply (op_allocate _ (bs "i2") 0); vm_compute; reflexivity|vm_compute; reflexivity].
  eapply (app_step_at _ ∅); [|apply (op_allocate _ (bs "i1") 0); vm_compute; reflexivity|vm_compute; reflexivity].
  apply rtc_refl.
Qed.

Lemma demo_withheld_reachable : App_reachable demo_config ∅ demo_withheld.
Proof. eapply (app_step_at _ ∅); [apply demo_pool_reachable|apply op_suppress|vm_compute; reflexivity]. Qed.

Lemma demo_killed_reachable : App_reachable demo_config {[bs "i1"]} demo_killed.
Proof. eapply (app_step_at _ ∅); [apply demo_withheld_reachable|apply op_kill|vm_compute; reflexivity]. Qed.

Lemma routing_list_is_exact_witness :
  (routed demo_withheld = [bs "i1"]
   /\ (bs "i1" ∈ routed demo_withheld
       <-> state_of demo_withheld (bs "i1") = Some Healthy /\ bs "i1" ∉ routing_suppressed demo_withheld))
  /\ (state_of demo_killed (bs "i1") = Some Stopped /\ bs "i1" ∈ routed demo_killed).
Proof.
  destruct (routing_list_is_exact demo_config ∅ demo_withheld demo_withheld_reachable)
    as (_ & _ & _ & H & _).
  destruct (routing_list_is_exact demo_config {[bs "i1"]} demo_killed demo_killed_reachable)
    as (_ & _ & _ & _ & H' & _).
  split; [split; [vm_compute; reflexivity|apply H; [reflexivity|]]|split; [vm_compute; reflexivity|]].
  - apply (bool_decide_unpack _). vm_compute. exact I.
  - apply H'. set_solver.
Defined.

Lemma round_robin_is_fair_witness :
  get_backends 2 7 demo_pool ≡ₚ Some <$> healthy_instances demo_pool
  /\ routed demo_pool = [bs "i1"; bs "i2"].
Proof.
  split; [|vm_compute; reflexivity].
  apply (round_robin_is_fair demo_pool 7 2); [vm_compute; reflexivity|lia|lia].
Defined.
