(* ===== verification/Health.v ===== *)
(** * Health checks and idle eviction
    (tako-server/src/instances/health.rs, scaling/idle.rs, runtime_events.rs)

    [check_instance] is one probe of one instance: the failure counter, the
    thresholds and the resulting transition and event; it is [start_check] and
    [finish_check], split where the code waits for the process poll and the probe,
    so that anything may happen to the app in between.  [idle_scan] is one pass
    of the idle monitor and [handle_idle_instance] the handler of its events,
    split at the point where it waits for the process to exit. *)

From S2P Require Import Prelude RustStr Instances.

Record HealthConfig := mkHealthConfig {
  unhealthy_threshold : Z;
  dead_threshold : Z;
}.

Definition HealthConfig_default : HealthConfig := mkHealthConfig 2 3.

Inductive HealthEvent :=
| EvHealthy (app id : str)
| EvUnhealthy (app id : str)
| EvDead (app id : str)
| EvRecovered (app id : str).

Definition app_name (a : App) : str := deployment_id (config a).

Definition failure_key (a : App) (id : str) : str := app_name a ++ ":"%char :: id.

(** The state after a failed probe, from the failure count. *)
Definition state_after_failure (cfg : HealthConfig) (suppressed : bool) (failures : Z)
    (current : InstanceState) : InstanceState :=
  if suppressed then Unhealthy
  else if (dead_threshold cfg <=? failures)%Z then Stopped
  else if (unhealthy_threshold cfg <=? failures)%Z then Unhealthy
  else current.

(** A check up to its first await: the state it saw, or [None] when it skips the
    instance. *)
Definition start_check (a : App) (id : str) : option InstanceState :=
  match state_of a id with
  | None | Some Starting | Some Draining | Some Stopped => None
  | Some current => Some current
  end.

(** The rest of the check, on the app as it is then: [alive] is what [try_wait] said of
    the process, [probe_ok] the outcome of the HTTP probe, [current] the state seen at
    the start. [failures] are the consecutive failures by key. *)
Definition finish_check (cfg : HealthConfig) (now_ms : Z) (alive probe_ok : bool)
    (failures : gmap str Z) (key : str) (current : InstanceState) (a : App) (id : str)
    : gmap str Z * App * option HealthEvent :=
  let name := app_name a in
  if negb alive then
    let '(a', changed) := set_instance_health_state a id Stopped in
    (delete key failures, a', if changed then Some (EvDead name id) else None)
  else if probe_ok then
    let a1 := write_instance a id (record_heartbeat now_ms) in
    if state_eqb current Healthy then (delete key failures, a1, None)
    else
      let '(a2, changed) := set_instance_health_state a1 id Healthy in
      (delete key failures, a2,
       if changed then
         Some (if state_eqb current Unhealthy then EvRecovered name id else EvHealthy name id)
       else None)
  else
    let count := (default 0 (failures !! key) + 1)%Z in
    let failures' := <[key := count]> failures in
    let new_state := state_after_failure cfg (is_instance_routing_suppressed a id) count current in
    if state_eqb new_state current then (failures', a, None)
    else
      let '(a', changed) := set_instance_health_state a id new_state in
      (failures', a',
       if changed then
         match new_state with
         | Unhealthy => Some (EvUnhealthy name id)
         | Stopped => Some (EvDead name id)
         | _ => None
         end
       else None).

(** A check during which nothing else happens to the app. *)
Definition check_instance (cfg : HealthConfig) (now_ms : Z) (alive probe_ok : bool)
    (failures : gmap str Z) (a : App) (id : str) : gmap str Z * App * option HealthEvent :=
  match start_check a id with
  | None => (failures, a, None)
  | Some current => finish_check cfg now_ms alive probe_ok failures (failure_key a id) current a id
  end.

(** [n] failed probes in a row. *)
Fixpoint fail_probes (cfg : HealthConfig) (n : nat) (now_ms : Z) (failures : gmap str Z) (a : App)
    (id : str) : gmap str Z * App :=
  match n with
  | O => (failures, a)
  | S n' =>
      let '(failures', a', _) := check_instance cfg now_ms true false failures a id in
      fail_probes cfg n' now_ms failures' a' id
  end.

(** ** Idle eviction *)

Inductive IdleEvent := InstanceIdle (app id : str) | AppIdleEvent (app : str).

(** The members of an app, in the unspecified order of the map. *)
Class InstanceIter := {
  get_instances : App -> list str;
  get_instances_perm a : get_instances a ≡ₚ elements (instances a);
}.

#[global] Program Instance instance_iter_default : InstanceIter | 100 :=
  {| get_instances a := elements (instances a) |}.
Next Obligation. done. Qed.

Section Idle.
Context `{InstanceIter}.

Definition is_healthy (a : App) (id : str) : bool := bool_decide (state_of a id = Some Healthy).

(** [Starting | Ready | Healthy]. *)
Definition is_running (a : App) (id : str) : bool :=
  match state_of a id with Some Starting | Some Ready | Some Healthy => true | _ => false end.

Definition healthy_count (a : App) : nat := length (retain (is_healthy a) (get_instances a)).

Definition idle_of (now_ms : Z) (a : App) (id : str) : Z :=
  match objs a !! id with Some i => idle_time now_ms i | None => 0 end.

(** Sort by idle time, most idle first. *)
Definition idler_leb (now_ms : Z) (a : App) (x y : str) : bool :=
  (idle_of now_ms a y <=? idle_of now_ms a x)%Z.

Definition idle_scan (now_ms : Z) (a : App) : list IdleEvent :=
  let idle := retain (fun id => is_healthy a id && (idle_timeout_ms (config a) <? idle_of now_ms a id)%Z)
                (get_instances a) in
  let can_stop := (healthy_count a - Z.to_nat (min_instances (config a)))%nat in
  (InstanceIdle (app_name a) <$> take can_stop (sort_by (idler_leb now_ms a) idle))
  ++ (if (length (retain (is_running a) (get_instances a)) =? 0)%nat
         && (min_instances (config a) =? 0)%Z
      then [AppIdleEvent (app_name a)] else []).

(** [handle_idle_event] for [InstanceIdle], up to the await of [kill]: the
    re-check that allows the eviction. *)
Definition may_evict (now_ms : Z) (a : App) (id : str) : bool :=
  match get_instance a id with
  | None => false
  | Some i =>
      negb ((Z.of_nat (healthy_count a) <=? min_instances (config a))%Z
            || negb (state_eqb (inst_state i) Healthy)
            || negb (Instances.in_flight i =? 0)%Z
            || (idle_time now_ms i <=? idle_timeout_ms (config a))%Z)
  end.

(** The rest of the handler, after [kill] returned: the instance is removed, and an
    app with nothing running and no minimum becomes idle ([true]: the cold-start
    state is reset). *)
Definition finish_evict (a : App) (id : str) : App * bool :=
  let a1 := remove_instance a id in
  if (length (retain (is_running a1) (get_instances a1)) =? 0)%nat && (min_instances (config a1) =? 0)%Z
  then (set_app_state a1 AppIdle, true) else (a1, false).

Definition handle_idle_instance (now_ms : Z) (env : KillEnv) (a : App) (id : str) : App * bool :=
  if may_evict now_ms a id then finish_evict (kill_instance a id env).1 id else (a, false).

(** [handle_idle_event] for [AppIdle]. *)
Definition handle_app_idle (a : App) : App * bool :=
  if negb (min_instances (config a) =? 0)%Z || any (is_running a) (get_instances a) then (a, false)
  else (set_app_state a AppIdle, true).
End Idle.

(** ** Escalation *)

Lemma config_set_locked a id s : config (set_instance_state_locked a id s) = config a.
Proof.
  assert (config (write_instance a id (with_state s)) = config a) as E
    by (unfold write_instance; by case_match).
  unfold set_instance_state_locked. repeat case_match; try done.
  unfold add_healthy_instance. by repeat case_match.
Qed.

(** The state of an instance after [n] consecutive failures, starting healthy. *)
Definition escalated (cfg : HealthConfig) (n : Z) : InstanceState :=
  if (n <? unhealthy_threshold cfg)%Z then Healthy
  else if (n <? dead_threshold cfg)%Z then Unhealthy else Stopped.

Lemma state_after_failure_escalated cfg c :
  (1 <= unhealthy_threshold cfg <= dead_threshold cfg)%Z -> (0 <= c < dead_threshold cfg)%Z ->
  state_after_failure cfg false (c + 1) (escalated cfg c) = escalated cfg (c + 1).
Proof.
  intros Hu Hc. unfold state_after_failure, escalated.
  destruct (dead_threshold cfg <=? c + 1)%Z eqn:E1, (unhealthy_threshold cfg <=? c + 1)%Z eqn:E2,
    (c + 1 <? unhealthy_threshold cfg)%Z eqn:E3, (c + 1 <? dead_threshold cfg)%Z eqn:E4,
    (c <? unhealthy_threshold cfg)%Z eqn:E5; bool_to_prop; try done; lia.
Qed.

(** The counter, state and routing after [c] failures of [id]. *)
Record failing (cfg : HealthConfig) (a : App) (id : str) (failures : gmap str Z) (c : Z) : Prop := {
  failing_ok : routing_ok a;
  failing_unsuppressed : id ∉ routing_suppressed a;
  failing_member : id ∈ instances a;
  failing_state : state_of a id = Some (escalated cfg c);
  failing_count : (c < dead_threshold cfg)%Z -> default 0%Z (failures !! failure_key a id) = c;
}.

Lemma failing_step cfg now failures a id c :
  (1 <= unhealthy_threshold cfg <= dead_threshold cfg)%Z -> (0 <= c)%Z -> failing cfg a id failures c ->
  let '(failures', a', _) := check_instance cfg now true false failures a id in
  failing cfg a' id failures' (c + 1).
Proof.
  intros Hu Hc [Hok Hsup Hm Hst Hcount]. unfold check_instance.
  destruct (decide (c < dead_threshold cfg)%Z) as [Hlt|Hge].
  - assert (Hnd : escalated cfg c = Healthy \/ escalated cfg c = Unhealthy).
    { unfold escalated. rewrite (proj2 (Z.ltb_lt c (dead_threshold cfg)) Hlt). by case_match; auto. }
    assert (start_check a id = Some (escalated cfg c)) as ->.
    { unfold start_check. rewrite Hst. by destruct Hnd as [-> | ->]. }
    unfold finish_check. simpl. rewrite (Hcount Hlt).
    assert (is_instance_routing_suppressed a id = false) as -> by (by apply bool_decide_eq_false).
    rewrite state_after_failure_escalated by lia.
    assert (Hset : set_instance_health_state a id (escalated cfg (c + 1))
                   = (set_instance_state_locked a id (escalated cfg (c + 1)), true)).
    { unfold set_instance_health_state. rewrite Hst. by destruct Hnd as [-> | ->]. }
    destruct (state_eqb (escalated cfg (c + 1)) (escalated cfg c)) eqn:He.
    + apply state_eqb_true in He.
      constructor; try done; [by rewrite He|]. intros _. by rewrite lookup_insert_eq.
    + rewrite Hset. destruct (set_locked_frame a id (escalated cfg (c + 1))) as [Ei Es].
      constructor; rewrite ?Ei, ?Es; try done.
      * by apply routing_ok_set_locked.
      * rewrite state_of_set_locked, decide_True, Hst by done. done.
      * intros _. unfold failure_key, app_name. rewrite config_set_locked. by rewrite lookup_insert_eq.
  - assert (forall n, (c <= n)%Z -> escalated cfg n = Stopped) as Hdead.
    { intros n Hn. unfold escalated.
      rewrite (proj2 (Z.ltb_ge n (unhealthy_threshold cfg))) by lia.
      by rewrite (proj2 (Z.ltb_ge n (dead_threshold cfg))) by lia. }
    rewrite Hdead in * by lia. unfold start_check. rewrite Hst.
    constructor; try done; [by rewrite Hdead by lia|lia].
Qed.

Lemma failing_probes cfg now id n : forall failures a c,
  (1 <= unhealthy_threshold cfg <= dead_threshold cfg)%Z -> (0 <= c)%Z -> failing cfg a id failures c ->
  failing cfg (fail_probes cfg n now failures a id).2 id (fail_probes cfg n now failures a id).1
    (c + Z.of_nat n).
Proof.
  induction n as [|n IH]; intros failures a c Hu Hc Hf; cbn [fail_probes fst snd]; [by rewrite Z.add_0_r|].
  pose proof (failing_step cfg now failures a id c Hu Hc Hf) as Hs.
  destruct (check_instance _ _ _ _ _ _ _) as [[failures' a'] ev].
  replace (c + Z.of_nat (S n))%Z with (c + 1 + Z.of_nat n)%Z by lia. apply IH; [done|lia|done].
Qed.

(** Consecutive failed probes escalate a serving instance deterministically: it
    stays healthy and routed below the unhealthy threshold, is unhealthy and out of
    routing from there, and is stopped for good from the dead threshold on. *)
Lemma failed_probes_escalate cfg now failures a id n :
  (1 <= unhealthy_threshold cfg <= dead_threshold cfg)%Z -> routing_ok a ->
  id ∈ instances a -> id ∉ routing_suppressed a -> state_of a id = Some Healthy ->
  failures !! failure_key a id = None ->
  let a' := (fail_probes cfg n now failures a id).2 in
  state_of a' id = Some (escalated cfg (Z.of_nat n))
  /\ (id ∈ routed a' <-> (Z.of_nat n < unhealthy_threshold cfg)%Z)
  /\ routing_ok a'.
Proof.
  intros Hu Hok Hm Hsup Hst Hf. cbv zeta.
  assert (escalated cfg 0 = Healthy) as H0
    by (unfold escalated; by rewrite (proj2 (Z.ltb_lt 0 (unhealthy_threshold cfg))) by lia).
  assert (failing cfg a id failures 0) as Hf0.
  { constructor; try done; [by rewrite H0|]. intros _. by rewrite Hf. }
  destruct (failing_probes cfg now id n failures a 0 Hu (Z.le_refl 0) Hf0) as [Hok' Hsup' Hm' Hst' _].
  rewrite Z.add_0_l in Hst'. split; [done|]. split; [|done]. split.
  - intros Hr. destruct (routed_sound _ Hok' id Hr) as [Hs _]. rewrite Hs in Hst'.
    injection Hst' as E. unfold escalated in E.
    destruct (Z.of_nat n <? unhealthy_threshold cfg)%Z eqn:Hlt; bool_to_prop; [done|].
    by destruct (Z.of_nat n <? dead_threshold cfg)%Z.
  - intros Hlt. apply (routed_complete _ Hok'); [done| |done]. rewrite Hst'. unfold escalated.
    by rewrite (proj2 (Z.ltb_lt _ _) Hlt).
Qed.

(** ** A check and everything that happens while it waits *)

Definition withdrawn (a : App) (id : str) : Prop :=
  state_of a id = Some Draining \/ state_of a id = Some Stopped.

Lemma health_state_withdrawn a id s : withdrawn a id -> set_instance_health_state a id s = (a, false).
Proof. intros [H|H]; unfold set_instance_health_state; by rewrite H. Qed.

Lemma health_state_set a id s p :
  state_of a id = Some p -> p <> Draining -> p <> Stopped ->
  set_instance_health_state a id s = (set_instance_state_locked a id s, true).
Proof. intros H H1 H2. unfold set_instance_health_state. rewrite H. by destruct p. Qed.

Lemma state_of_heartbeat a id now id' :
  state_of (write_instance a id (record_heartbeat now)) id' = state_of a id'.
Proof.
  rewrite state_of_write. case_decide; [|done]. unfold state_of. by destruct (objs a !! id').
Qed.

Lemma health_state_frame stale b id s :
  (forall id', id' <> id -> state_of (set_instance_health_state b id s).1 id' = state_of b id')
  /\ (routing_inv stale b -> routing_inv stale (set_instance_health_state b id s).1).
Proof.
  unfold set_instance_health_state. destruct (state_of b id) as [[]|]; try done;
    (split; [intros id' Hne; cbn [fst]; by rewrite state_of_set_locked, decide_False by done
            |apply routing_inv_set_locked]).
Qed.

(** Other instances keep their state and the list its invariant. *)
Lemma finish_check_frame cfg now alive ok failures key current stale b id :
  let '(_, b', _) := finish_check cfg now alive ok failures key current b id in
  (forall id', id' <> id -> state_of b' id' = state_of b id')
  /\ (routing_inv stale b -> routing_inv stale b').
Proof.
  assert (Hb : routing_inv stale b -> routing_inv stale (write_instance b id (record_heartbeat now))).
  { intros Hok. apply routing_inv_write; [done|]. by left. }
  pose proof (state_of_heartbeat b id now) as Hh. unfold finish_check.
  destruct alive; simpl; [destruct ok; simpl|];
    repeat match goal with
    | |- context [set_instance_health_state ?c id ?s] =>
        destruct (health_state_frame stale c id s) as [? ?]; destruct (set_instance_health_state c id s)
    | |- context [if state_eqb ?x ?y then _ else _] => destruct (state_eqb x y)
    end; simpl in *; (split; [intros id' Hne; first [by eauto | by rewrite <- Hh; eauto]|auto]).
Qed.

(** An instance that was drained or stopped while the check waited stays so. *)
Lemma finish_check_withdrawn cfg now alive ok failures key current b id :
  withdrawn b id ->
  let '(_, b', event) := finish_check cfg now alive ok failures key current b id in
  state_of b' id = state_of b id /\ routed b' = routed b /\ event = None.
Proof.
  intros Hw. pose proof (state_of_heartbeat b id now id) as Hh.
  assert (Hw' : withdrawn (write_instance b id (record_heartbeat now)) id) by (unfold withdrawn; by rewrite Hh).
  assert (Hr : routed (write_instance b id (record_heartbeat now)) = routed b).
  { unfold routed. by destruct (write_instance_frame b id (record_heartbeat now)) as (-> & _). }
  unfold finish_check. rewrite !health_state_withdrawn by done.
  destruct alive; simpl; [destruct ok; simpl|]; repeat case_match; simplify_eq/=; done.
Qed.

(** Otherwise a dead process stops the instance, and a successful probe makes one that
    was not seen healthy healthy. *)
Lemma finish_check_live cfg now alive ok failures key current b id p :
  state_of b id = Some p -> p <> Draining -> p <> Stopped ->
  let '(failures', b', event) := finish_check cfg now alive ok failures key current b id in
  (alive = false -> state_of b' id = Some Stopped /\ event = Some (EvDead (app_name b) id)
     /\ failures' !! key = None)
  /\ (alive = true -> ok = true -> failures' !! key = None
      /\ (current = Healthy -> state_of b' id = Some p /\ event = None)
      /\ (current <> Healthy -> state_of b' id = Some Healthy
          /\ event = Some (if state_eqb current Unhealthy then EvRecovered (app_name b) id
                           else EvHealthy (app_name b) id)))
  /\ (alive = true -> ok = false -> failures' !! key = Some (default 0 (failures !! key) + 1)%Z
      /\ state_of b' id = Some (let s := state_after_failure cfg (is_instance_routing_suppressed b id)
                                  (default 0 (failures !! key) + 1)%Z current in
                                if state_eqb s current then p else s)).
Proof.
  intros Hp H1 H2. pose proof (state_of_heartbeat b id now id) as Hh.
  assert (Hset : forall c s, state_of c id = Some p -> state_of (set_instance_state_locked c id s) id = Some s).
  { intros c s Hc. by rewrite state_of_set_locked, decide_True, Hc. }
  unfold finish_check. destruct alive; simpl; [destruct ok; simpl|].
  - destruct (state_eqb current Healthy) eqn:E.
    + apply state_eqb_true in E as ->. rewrite Hh. split_and!; try done. intros _ _.
      split_and!; [by rewrite lookup_delete_eq|by intros _|done].
    + apply bool_decide_eq_false in E. erewrite health_state_set by (rewrite ?Hh; done).
      split_and!; try done. intros _ _.
      split_and!; [by rewrite lookup_delete_eq|done|]. intros _. split; [|done]. apply Hset. by rewrite Hh.
  - set (s := state_after_failure _ _ _ _). destruct (state_eqb s current) eqn:E.
    + split_and!; try done. intros _ _. by rewrite lookup_insert_eq.
    + erewrite health_state_set by done. split_and!; try done. intros _ _.
      rewrite lookup_insert_eq. split; [done|]. by apply Hset.
  - erewrite health_state_set by done. split_and!; try done. intros _.
    split_and!; [by apply Hset|done|by rewrite lookup_delete_eq].
Qed.

(** C11: health checks.  Consecutive failed probes escalate a serving instance: it stays
    healthy and routed below the unhealthy threshold, is unhealthy and out of routing from
    there, and is stopped for good from the dead threshold on.  A check skips an instance
    that is starting, draining or stopped.  While a check waits for the process and the
    probe anything may happen to the app (its state [b] at the end is arbitrary): an
    instance that was drained or stopped meanwhile is not revived, its routing does not
    change and no event is raised, whatever the process poll and the probe say; any other
    one is stopped when its process has exited, and healthy after a successful probe if it
    was not seen healthy at the start, with the matching event; a failed probe adds one to
    its count and sets the state the count calls for.  No check touches another instance
    or breaks the routing list. *)
Theorem health_checks_spec cfg now failures a id :
  (1 <= unhealthy_threshold cfg <= dead_threshold cfg)%Z -> routing_ok a ->
  (forall n, id ∈ instances a -> id ∉ routing_suppressed a -> state_of a id = Some Healthy ->
     failures !! failure_key a id = None ->
     let a' := (fail_probes cfg n now failures a id).2 in
     state_of a' id = Some (escalated cfg (Z.of_nat n))
     /\ (id ∈ routed a' <-> (Z.of_nat n < unhealthy_threshold cfg)%Z)
     /\ routing_ok a')
  /\ (start_check a id = None <->
       state_of a id = None \/ state_of a id = Some Starting \/ withdrawn a id)
  /\ forall alive ok key current stale b,
     let '(failures', b', event) := finish_check cfg now alive ok failures key current b id in
     (withdrawn b id -> state_of b' id = state_of b id /\ routed b' = routed b /\ event = None)
     /\ (forall p, state_of b id = Some p -> p <> Draining -> p <> Stopped ->
          (alive = false -> state_of b' id = Some Stopped /\ event = Some (EvDead (app_name b) id)
             /\ failures' !! key = None)
          /\ (alive = true -> ok = true -> failures' !! key = None
              /\ (current = Healthy -> state_of b' id = Some p /\ event = None)
              /\ (current <> Healthy -> state_of b' id = Some Healthy
                  /\ event = Some (if state_eqb current Unhealthy then EvRecovered (app_name b) id
                                   else EvHealthy (app_name b) id)))
          /\ (alive = true -> ok = false -> failures' !! key = Some (default 0 (failures !! key) + 1)%Z
              /\ state_of b' id = Some (let s := state_after_failure cfg (is_instance_routing_suppressed b id)
                                          (default 0 (failures !! key) + 1)%Z current in
                                        if state_eqb s current then p else s)))
     /\ (forall id', id' <> id -> state_of b' id' = state_of b id')
     /\ (routing_inv stale b -> routing_inv stale b').
Proof.
  intros Hu Hok. split; [intros n; by apply failed_probes_escalate|]. split.
  { unfold start_check, withdrawn. destruct (state_of a id) as [[]|]; naive_solver. }
  intros alive ok key current stale b.
  pose proof (finish_check_withdrawn cfg now alive ok failures key current b id) as H1.
  pose proof (finish_check_live cfg now alive ok failures key current b id) as H2.
  pose proof (finish_check_frame cfg now alive ok failures key current stale b id) as H3.
  destruct (finish_check _ _ _ _ _ _ _ _ _) as [[failures' b'] event]. auto.
Qed.

(** ** Idle eviction *)
Section IdleProps.
Context `{II : InstanceIter}.

Lemma idler_leb_total now a x y : idler_leb now a x y = true \/ idler_leb now a y x = true.
Proof. unfold idler_leb. rewrite !Z.leb_le. lia. Qed.

Lemma idler_leb_trans now a x y z :
  idler_leb now a x y = true -> idler_leb now a y z = true -> idler_leb now a x z = true.
Proof. unfold idler_leb. rewrite !Z.leb_le. lia. Qed.

Lemma get_instances_NoDup a : NoDup (get_instances a).
Proof. rewrite get_instances_perm. apply NoDup_elements. Qed.

Lemma elem_of_get_instances a id : id ∈ get_instances a <-> id ∈ instances a.
Proof. by rewrite get_instances_perm, elem_of_elements. Qed.

(** The ids of the eviction events of a scan. *)
Definition evictions (events : list IdleEvent) : list str :=
  omap (fun e => match e with InstanceIdle _ id => Some id | AppIdleEvent _ => None end) events.

Lemma evictions_scan now a :
  evictions (idle_scan now a) =
  take (healthy_count a - Z.to_nat (min_instances (config a)))
    (sort_by (idler_leb now a)
      (retain (fun id => is_healthy a id && (idle_timeout_ms (config a) <? idle_of now a id)%Z)
         (get_instances a))).
Proof.
  unfold evictions, idle_scan. rewrite omap_app.
  assert (forall l, omap (fun e => match e with InstanceIdle _ id => Some id | AppIdleEvent _ => None end)
            (InstanceIdle (app_name a) <$> l) = l) as ->.
  { intros l. induction l as [|x l IH]; simpl; [done|]. f_equal. exact IH. }
  rewrite <- (app_nil_r (take _ _)) at 2. f_equal. by case_match.
Qed.

(** A pass of the idle monitor asks to stop only healthy instances that have been
    idle for longer than the timeout, each at most once, the most idle first, and so
    few that the healthy instances left are still at least the configured minimum. *)
Lemma idle_scan_respects_minimum now a :
  let ids := evictions (idle_scan now a) in
  NoDup ids
  /\ (forall id, id ∈ ids -> id ∈ instances a /\ state_of a id = Some Healthy
        /\ (idle_timeout_ms (config a) < idle_of now a id)%Z)
  /\ StronglySorted (fun x y => (idle_of now a y <= idle_of now a x)%Z) ids
  /\ (ids <> [] -> (min_instances (config a) <= Z.of_nat (healthy_count a - length ids))%Z).
Proof.
  cbv zeta. rewrite evictions_scan.
  set (l := retain _ (get_instances a)). set (n := (_ - _)%nat).
  assert (Hsub : take n (sort_by (idler_leb now a) l) ⊆+ l).
  { rewrite <- (sort_by_perm (idler_leb now a) l) at 2. apply sublist_submseteq, sublist_take. }
  split; [|split; [|split]].
  - assert (NoDup (sort_by (idler_leb now a) l)) as Hnd.
    { rewrite sort_by_perm. unfold l. rewrite retain_filter.
      apply NoDup_ListNoDup, List.NoDup_filter, NoDup_ListNoDup, get_instances_NoDup. }
    eapply sublist_NoDup; [exact Hnd|apply sublist_take].
  - intros id Hid. eapply elem_of_submseteq in Hid; [|exact Hsub].
    apply elem_of_retain in Hid as [Hp Hin]. apply andb_true_iff in Hp as [Hh Hi].
    rewrite elem_of_get_instances in Hin. unfold is_healthy in Hh. bool_to_prop. done.
  - eapply StronglySorted_take_impl;
      [|apply sort_by_sorted; [apply idler_leb_total|apply idler_leb_trans]].
    intros x y. apply Z.leb_le.
  - intros Hne. assert (length (take n (sort_by (idler_leb now a) l)) <= n)%nat as Hlen
      by (rewrite length_take; lia).
    destruct n as [|n'] eqn:En; [by rewrite take_0 in Hne|]. unfold n in En. lia.
Qed.

Lemma may_evict_spec now a id :
  may_evict now a id = true <->
  exists i, id ∈ instances a /\ objs a !! id = Some i /\ inst_state i = Healthy
    /\ Instances.in_flight i = 0%Z /\ (idle_timeout_ms (config a) < idle_time now i)%Z
    /\ (min_instances (config a) < Z.of_nat (healthy_count a))%Z.
Proof.
  unfold may_evict, get_instance. case_bool_decide as Hm; [|naive_solver].
  destruct (objs a !! id) as [i|]; [|naive_solver].
  rewrite negb_true_iff, !orb_false_iff, !negb_false_iff, state_eqb_true, Z.eqb_eq, !Z.leb_gt.
  naive_solver.
Qed.

Lemma members_split a id :
  id ∈ instances a -> get_instances a ≡ₚ id :: elements (instances a ∖ {[id]}).
Proof.
  intros Hm. rewrite get_instances_perm. rewrite (union_difference_L {[id]} (instances a)) at 1 by set_solver.
  by rewrite elements_union_singleton by set_solver.
Qed.

Lemma healthy_count_ext a a' :
  instances a = instances a' -> (forall id, state_of a id = state_of a' id) ->
  healthy_count a = healthy_count a'.
Proof.
  intros Hi Hst. unfold healthy_count. rewrite !get_instances_perm, Hi.
  induction (elements (instances a')) as [|x l IH]; simpl; [done|].
  assert (is_healthy a x = is_healthy a' x) as -> by (unfold is_healthy; by rewrite Hst).
  destruct (is_healthy a' x); simpl; [by rewrite IH|done].
Qed.

(** Evicting one healthy member leaves one healthy member less. *)
Lemma healthy_count_evicted a a' id :
  id ∈ instances a -> state_of a id = Some Healthy -> instances a' = instances a ∖ {[id]} ->
  (forall id', id' <> id -> state_of a' id' = state_of a id') ->
  healthy_count a = S (healthy_count a').
Proof.
  intros Hm Hs Hi Hst. unfold healthy_count. rewrite (members_split a id Hm), get_instances_perm, Hi.
  simpl. unfold is_healthy at 1. rewrite Hs. rewrite bool_decide_eq_true_2 by done. simpl. do 2 f_equal.
  assert (forall l, id ∉ l -> retain (is_healthy a) l = retain (is_healthy a') l) as Hext.
  { induction l as [|x l IH]; simpl; intros Hn; [done|].
    assert (is_healthy a' x = is_healthy a x) as -> by (unfold is_healthy; by rewrite Hst by set_solver).
    by rewrite IH by set_solver. }
  apply Hext. rewrite elem_of_elements. set_solver.
Qed.

Lemma state_of_kill_other a id env id' :
  id' <> id -> state_of (kill_instance a id env).1 id' = state_of a id'.
Proof. intros Hne. rewrite kill_instance_write, state_of_write. by rewrite decide_False by congruence. Qed.

Lemma kill_instance_frame a id env :
  instances (kill_instance a id env).1 = instances a /\ config (kill_instance a id env).1 = config a
  /\ routed (kill_instance a id env).1 = routed a.
Proof.
  rewrite kill_instance_write. destruct (write_instance_frame a id (fun i => (kill env i).1)) as (E1 & E2 & _).
  unfold routed. rewrite E1, E2. split; [done|]. split; [|done]. unfold write_instance. by case_match.
Qed.

(** The handler of an idle event evicts only a healthy instance that serves no
    request, has been idle for longer than the timeout and is not needed for the
    configured minimum; it then leaves the registry and the routing list whatever
    the outcome of the kill, the other instances keep their state, and at least the
    minimum of healthy instances is left.  Otherwise nothing changes.  The app is
    declared idle only when nothing runs and the minimum is zero. *)
Lemma idle_eviction_is_safe now env a id :
  let '(a', reset) := handle_idle_instance now env a id in
  (may_evict now a id = false -> a' = a /\ reset = false)
  /\ (may_evict now a id = true ->
      (exists i, objs a !! id = Some i /\ inst_state i = Healthy /\ Instances.in_flight i = 0%Z
         /\ (idle_timeout_ms (config a) < idle_time now i)%Z)
      /\ id ∉ instances a' /\ id ∉ routed a'
      /\ (forall id', id' <> id -> state_of a' id' = state_of a id')
      /\ (min_instances (config a) <= Z.of_nat (healthy_count a'))%Z
      /\ (reset = true -> min_instances (config a) = 0%Z /\ healthy_count a' = 0)).
Proof.
  unfold handle_idle_instance. destruct (may_evict now a id) eqn:He; [|done].
  apply may_evict_spec in He as (i & Hm & Hi & Hst & Hf & Hidle & Hmin).
  destruct (kill_instance_frame a id env) as (Ei & Ec & Er).
  pose proof (state_of_kill_other a id env) as Ho.
  set (k := (kill_instance a id env).1) in *. unfold finish_evict.
  assert (Ha1 : remove_instance k id = remove_healthy_instance (with_suppressed
     (with_instances k (instances k ∖ {[id]})) (routing_suppressed k ∖ {[id]})) id)
    by (unfold remove_instance; by rewrite bool_decide_eq_true_2 by (by rewrite Ei)).
  rewrite Ha1. set (a1 := remove_healthy_instance _ id).
  assert (Hcount : healthy_count a = S (healthy_count a1)).
  { apply (healthy_count_evicted a a1 id); [done| |by simpl; rewrite Ei|done].
    unfold state_of. by rewrite Hi; simpl; rewrite Hst. }
  assert (Hnr : id ∉ routed a1) by (unfold a1; rewrite routed_remove; naive_solver).
  assert (Hni : id ∉ instances a1) by (simpl; set_solver).
  destruct ((length (retain (is_running a1) (get_instances a1)) =? 0)%nat
            && (min_instances (config a1) =? 0)%Z) eqn:Hz; (split; [done|]); intros _;
    (split; [by exists i|]); (split; [done|]); (split; [done|]); (split; [exact Ho|]).
  - apply andb_true_iff in Hz as [Hz Hmin0]. apply Nat.eqb_eq in Hz. apply Z.eqb_eq in Hmin0.
    change (config a1) with (config k) in Hmin0. rewrite Ec in Hmin0.
    rewrite (healthy_count_ext (set_app_state a1 AppIdle) a1) by done.
    split; [lia|]. intros _. split; [done|].
    unfold healthy_count. apply length_zero_iff_nil in Hz.
    destruct (retain (is_healthy a1) (get_instances a1)) as [|x l] eqn:Hl; [done|].
    assert (x ∈ retain (is_healthy a1) (get_instances a1)) as Hx by (rewrite Hl; left).
    apply elem_of_retain in Hx as [Hx1 Hx2].
    assert (x ∈ retain (is_running a1) (get_instances a1)) as Hx3.
    { apply elem_of_retain. split; [|done]. unfold is_healthy in Hx1. bool_to_prop.
      unfold is_running. by rewrite Hx1. }
    rewrite Hz in Hx3. by apply elem_of_nil in Hx3.
  - split; [lia|done].
Qed.

(** Idle eviction is safe.  A pass of the idle monitor asks to stop only healthy
    instances that have been idle for longer than the timeout, each at most once, the most
    idle first, and leaves at least the configured minimum.  The handler of such an event
    checks again: it evicts only a healthy instance that serves no request, is idle and is
    not needed for the minimum; the instance then leaves the registry and the routing list
    whatever the outcome of the kill, the others keep their state, and the minimum of
    healthy instances is left.  Otherwise nothing changes.  The app is declared idle only
    when nothing runs and the minimum is zero. *)
Lemma idle_scaling_is_safe now env a :
  (let ids := evictions (idle_scan now a) in
   NoDup ids
   /\ (forall id, id ∈ ids -> id ∈ instances a /\ state_of a id = Some Healthy
        /\ (idle_timeout_ms (config a) < idle_of now a id)%Z)
   /\ StronglySorted (fun x y => (idle_of now a y <= idle_of now a x)%Z) ids
   /\ (ids <> [] -> (min_instances (config a) <= Z.of_nat (healthy_count a - length ids))%Z))
  /\ forall id,
   let '(a', reset) := handle_idle_instance now env a id in
   (may_evict now a id = false -> a' = a /\ reset = false)
   /\ (may_evict now a id = true ->
      (exists i, objs a !! id = Some i /\ inst_state i = Healthy /\ Instances.in_flight i = 0%Z
         /\ (idle_timeout_ms (config a) < idle_time now i)%Z)
      /\ id ∉ instances a' /\ id ∉ routed a'
      /\ (forall id', id' <> id -> state_of a' id' = state_of a id')
      /\ (min_instances (config a) <= Z.of_nat (healthy_count a'))%Z
      /\ (reset = true -> min_instances (config a) = 0%Z /\ healthy_count a' = 0)).
Proof. split; [apply idle_scan_respects_minimum|intros id; apply idle_eviction_is_safe]. Qed.

(** The idle handler stops an instance without draining it first: it is killed
    while still in the routing list, so that until the removal that follows the
    load balancer can select an instance whose process is gone. *)
Lemma idle_eviction_kills_a_routed_instance now env a id :
  routing_ok a -> id ∉ routing_suppressed a -> may_evict now a id = true ->
  let '(a', res) := kill_instance a id env in
  id ∈ routed a' /\ (res = Ok tt -> state_of a' id = Some Stopped).
Proof.
  intros Hok Hs (i & Hm & Hi & Hst & _)%may_evict_spec.
  destruct (kill_instance_frame a id env) as (_ & _ & Er). unfold kill_instance in *. rewrite Hi in *.
  destruct (kill env i) as [i' res] eqn:Hk. cbn [fst] in Er. split.
  - rewrite Er. apply (routed_complete a Hok); [done| |done]. unfold state_of. by rewrite Hi; simpl; rewrite Hst.
  - intros ->. unfold state_of. simpl. rewrite lookup_insert_eq. simpl. f_equal.
    by destruct (kill_Ok env i i' Hk).
Qed.
End IdleProps.

(** ** The two instances of [demo_pool] *)

Lemma demo_pool_ok : routing_ok demo_pool.
Proof. exact (App_reachable_ok demo_config demo_pool demo_pool_reachable). Qed.

(** A probe of an unhealthy instance that succeeds after the instance began to drain. *)
Definition demo_draining : App :=
  set_instance_state (set_instance_state demo_pool (bs "i1") Unhealthy) (bs "i1") Draining.

Lemma health_checks_spec_witness :
  (state_of (fail_probes HealthConfig_default 2 50 ∅ demo_pool (bs "i1")).2 (bs "i1") = Some Unhealthy
   /\ routed (fail_probes HealthConfig_default 2 50 ∅ demo_pool (bs "i1")).2 = [bs "i2"])
  /\ state_of (finish_check HealthConfig_default 50 true true ∅ (bs "k") Unhealthy demo_draining (bs "i1")).1.2
       (bs "i1") = Some Draining.
Proof.
  destruct (health_checks_spec HealthConfig_default 50 ∅ demo_pool (bs "i1")) as (H1 & _ & H2);
    [simpl; lia|exact demo_pool_ok|]. split; [split; [|vm_compute; reflexivity]|].
  - refine (proj1 (H1 2 _ _ _ _)).
    + apply (bool_decide_unpack _). vm_compute. exact I.
    + apply (bool_decide_unpack _). vm_compute. exact I.
    + vm_compute. reflexivity.
    + reflexivity.
  - specialize (H2 true true (bs "k") Unhealthy ∅ demo_draining).
    destruct (finish_check _ _ _ _ _ _ _ _ _) as [[failures' b'] event]. destruct H2 as [H2 _].
    destruct H2 as [H2 _]; [left; vm_compute; reflexivity|]. cbn [fst snd]. rewrite H2. vm_compute. reflexivity.
Defined.

Lemma idle_eviction_kills_a_routed_instance_witness :
  let '(a', res) := kill_instance demo_pool (bs "i1") (mkKillEnv (Ok tt) (Ok tt) (Ok tt) (Ok tt)) in
  bs "i1" ∈ routed a' /\ (res = Ok tt -> state_of a' (bs "i1") = Some Stopped).
Proof.
  apply (idle_eviction_kills_a_routed_instance 1000000);
    [exact demo_pool_ok|apply (bool_decide_unpack _); vm_compute; exact I|vm_compute; reflexivity].
Defined.
