(* ===== verification/Rolling.v ===== *)
(** * Rolling updates (tako-server/src/instances/rolling.rs, spawner/mod.rs)

    An update starts the new instances withheld from routing, waits until they are
    healthy and stable, cuts over, and drains the old ones; a failure before the
    cutover removes the new ones.  Other threads run at every [await]: a [World]
    threads the app through the update, [tick] is an await at which the
    environment acts ([interfere]) and which records the state other threads
    see ([w_seen]). *)

From S2P Require Import Prelude RustStr Instances.

Inductive InstanceError :=
| AppNotFound (app : str)
| SpawnError (e : str)
| StopError (e : str)
| StartupTimeout
| StartupTimeoutWithDetail (detail : str)
| HealthCheckFailed (detail : str).

(** How the start of a process ends: the child cannot be spawned, the readiness
    pipe reports a port, reports a failure, or stays silent past the timeout. *)
Inductive SpawnOutcome :=
| ChildFailed (e : str)
| ReadyOn (port : Z)
| NotReady (e : InstanceError)
| TimedOut (detail : str).

(** Durations are counted in polls. *)
Record RollingUpdateConfig := mkRollingUpdateConfig {
  health_polls : nat;      (** polls of [wait_for_healthy] before [health_timeout] *)
  stability_polls : nat;   (** sleeps within [health_stability_window]; 0: no window *)
  drain_polls : nat;       (** polls before [drain_timeout] *)
  batch_size : nat;
}.

Record RollingUpdateResult := mkRollingUpdateResult {
  success : bool;
  new_count : nat;
  old_count : nat;
  update_error : option InstanceError;
}.

Definition target_new_instances_for_build (requested_instances existing_instances : Z) : Z :=
  Z.max requested_instances 1.

Record World := mkWorld {
  w_app : App;
  w_step : nat;
  w_seen : list App;
}.

(** What the update cannot control. *)
Record Env := mkEnv {
  interfere : nat -> App -> App;      (** other threads, at the n-th await *)
  fresh_id : nat -> str;              (** the id of the n-th allocation *)
  now_at : nat -> Z;
  spawn_outcome : str -> SpawnOutcome;
  kill_outcome : str -> KillEnv;
}.

Section Update.
Context (E : Env) (cfg : RollingUpdateConfig).

Definition tick (w : World) : World :=
  mkWorld (interfere E (w_step w) (w_app w)) (S (w_step w)) (w_app w :: w_seen w).

Definition on_app (f : App -> App) (w : World) : World :=
  mkWorld (f (w_app w)) (w_step w) (w_seen w).

(** [instance.kill().await]. *)
Definition kill_await (id : str) (w : World) : World :=
  tick (on_app (fun a => (kill_instance a id (kill_outcome E id)).1) (tick w)).

(** [Spawner::spawn] for a native launch. *)
Definition spawn (id : str) (w : World) : World * result unit InstanceError :=
  let c := config (w_app w) in
  let w := on_app (fun a => write_instance a id (set_health_probe (health_check_host c) (health_check_path c))) w in
  match spawn_outcome E id with
  | ChildFailed e => (w, Err (SpawnError e))
  | outcome =>
      let w := on_app (fun a => set_instance_state (write_instance a id set_process) id Starting) w in
      let w := tick (tick w) in
      match outcome with
      | ReadyOn port =>
          let w := on_app (fun a => write_instance (write_instance a id (set_port port)) id (with_state Ready)) w in
          (tick (on_app (fun a => set_instance_state a id Healthy) w), Ok tt)
      | NotReady e =>
          (kill_await id (on_app (fun a => set_instance_state a id Unhealthy) w), Err e)
      | TimedOut detail =>
          (kill_await id (tick (on_app (fun a => set_instance_state a id Unhealthy) w)),
           Err (StartupTimeoutWithDetail detail))
      | ChildFailed e => (w, Err (SpawnError e))
      end
  end.

Fixpoint wait_for_healthy (polls : nat) (id : str) (w : World) : World * result unit InstanceError :=
  match polls with
  | O => (w, Err StartupTimeout)
  | S polls' =>
      let w := tick w in
      match state_of (w_app w) id with
      | Some Healthy => (w, Ok tt)
      | Some Stopped | Some Unhealthy =>
          (w, Err (HealthCheckFailed (bs "Instance became unhealthy during startup")))
      | _ => wait_for_healthy polls' id w
      end
  end.

Definition start_and_wait_healthy (id : str) (w : World) : World * result unit InstanceError :=
  let '(w, r) := spawn id w in
  match r with
  | Err e => (w, Err e)
  | Ok tt => wait_for_healthy (health_polls cfg) id w
  end.

Definition state_name (s : InstanceState) : str :=
  match s with
  | Starting => bs "starting" | Ready => bs "ready" | Healthy => bs "healthy"
  | Unhealthy => bs "unhealthy" | Draining => bs "draining" | Stopped => bs "stopped"
  end.

(** The first instance that is not healthy, with the error it gives. *)
Fixpoint check_stable (a : App) (ids : list str) : result unit InstanceError :=
  match ids with
  | [] => Ok tt
  | id :: rest =>
      match state_of a id with
      | Some Healthy => check_stable a rest
      | Some Stopped | Some Unhealthy =>
          Err (HealthCheckFailed (bs "Instance became "
                 ++ state_name (default Stopped (state_of a id)) ++ bs " during rollout stability check"))
      | s => Err (HealthCheckFailed (bs "Instance left healthy state during rollout stability check: "
                   ++ state_name (default Stopped s)))
      end
  end.

Fixpoint stability_loop (polls : nat) (ids : list str) (w : World) : World * result unit InstanceError :=
  match check_stable (w_app w) ids with
  | Err e => (w, Err e)
  | Ok tt =>
      match polls with
      | O => (w, Ok tt)
      | S polls' => stability_loop polls' ids (tick w)
      end
  end.

Definition wait_for_stable_health (ids : list str) (w : World) : World * result unit InstanceError :=
  match ids, stability_polls cfg with
  | [], _ | _, O => (w, Ok tt)
  | _, polls => stability_loop polls ids w
  end.

Fixpoint drain_loop (polls : nat) (id : str) (w : World) : World :=
  match polls with
  | O => w
  | S polls' =>
      match objs (w_app w) !! id with
      | Some i => if (0 <? in_flight i)%Z then drain_loop polls' id (tick w) else w
      | None => w
      end
  end.

Definition drain_and_stop (id : str) (w : World) : World :=
  let w := on_app (fun a => set_instance_state a id Draining) w in
  let w := drain_loop (drain_polls cfg) id w in
  on_app (fun a => remove_instance a id) (kill_await id w).

Fixpoint remove_new_instances (ids : list str) (w : World) : World :=
  match ids with
  | [] => w
  | id :: rest => remove_new_instances rest (on_app (fun a => remove_instance a id) (kill_await id w))
  end.

(** The inner loop: start [n] instances, the [k]-th allocation first.  [started] are
    the new instances so far (in order); an error carries the failed one too. *)
Fixpoint start_batch (n k : nat) (started : list str) (w : World)
    : World * result (list str) (InstanceError * list str) :=
  match n with
  | O => (w, Ok started)
  | S n' =>
      let id := fresh_id E k in
      let w := on_app (fun a => suppress_instance_routing (allocate_instance a id (now_at E k)) id) w in
      let '(w, r) := start_and_wait_healthy id w in
      match r with
      | Ok tt => start_batch n' (S k) (started ++ [id]) w
      | Err e => (w, Err (e, started ++ [id]))
      end
  end.

(** [error: Some(e.to_string())]: the error is kept instead of its text (the text of
    [HealthCheckFailed] is its detail after [Health check failed: ]). *)
Definition failed (e : InstanceError) : RollingUpdateResult := mkRollingUpdateResult false 0 0 (Some e).

(** The loop over the batches, from [batch_start]. *)
Fixpoint run_batches (fuel batch_start target_count : nat) (started : list str) (w : World)
    : World * result (list str) (InstanceError * list str) :=
  match fuel with
  | O => (w, Ok started)
  | S fuel' =>
      if (target_count <=? batch_start)%nat then (w, Ok started)
      else
        let batch_end := Nat.min (batch_start + batch_size cfg) target_count in
        let '(w, r) := start_batch (batch_end - batch_start) batch_start started w in
        match r with
        | Err e => (w, Err e)
        | Ok started' =>
            let '(w, s) := wait_for_stable_health (drop (length started) started') w in
            match s with
            | Err e => (w, Err (e, started'))
            | Ok tt => run_batches fuel' (batch_start + batch_size cfg) target_count started' w
            end
        end
  end.

Definition rollout (old_instances : list str) (new_config : AppConfig) (target_count : nat) (w : World)
    : World * RollingUpdateResult :=
  let w := on_app (fun a => update_config a new_config) w in
  let '(w, r) := run_batches target_count 0 target_count [] w in
  match r with
  | Err (e, started) => (remove_new_instances started w, failed e)
  | Ok started =>
      let '(a, cut) := enable_rollout_routing (w_app w) started in
      let w := on_app (fun _ => a) w in
      match cut with
      | Err (id, s) =>
          (remove_new_instances started w,
           failed (HealthCheckFailed (bs "Instance became "
                     ++ state_name (default Stopped s) ++ bs " before rollout cutover")))
      | Ok tt =>
          let w := fold_left (fun w id => drain_and_stop id w) old_instances w in
          (w, mkRollingUpdateResult true (length started) (length old_instances) None)
      end
  end.
End Update.

(** ** The environment: health transitions and request accounting *)

Inductive health_op (a : App) : App -> Prop :=
| health_transition id s : health_op a (set_instance_health_state a id s).1
| health_account id f : keeps_state f -> health_op a (write_instance a id f).

Definition terminal_state (s : InstanceState) : Prop := s = Draining \/ s = Stopped.

Section Invariant.
(** The new instances whose kill may fail: a rollback removes them all the same, and
    they may then be in any state. *)
Context (F : str -> Prop).

(** The state of the app during an update that started from [a0]: [S] are the new
    instances that were allocated, [U] those already cut over, [R] the instances the
    update removed, and [K] instances that serve throughout. *)
Record inv (a0 : App) (S U R K : gset str) (a : App) : Prop := {
  i_ok : routing_ok a;
  i_inst : instances a = (instances a0 ∪ S) ∖ R;
  i_sup : forall id, id ∈ routing_suppressed a <->
    (id ∈ routing_suppressed a0 \/ id ∈ S) /\ id ∉ U /\ id ∉ R;
  i_objs : forall id, is_Some (objs a !! id) <-> is_Some (objs a0 !! id) \/ id ∈ S;
  i_removed : forall id, id ∈ R -> exists s, state_of a id = Some s /\ (terminal_state s \/ F id);
  i_keep : forall id, id ∈ K ->
    state_of a id = Some Healthy /\ id ∈ instances a /\ id ∉ routing_suppressed a;
}.

Lemma state_of_Some_objs a id s : state_of a id = Some s -> is_Some (objs a !! id).
Proof. unfold state_of. destruct (objs a !! id); [eauto|done]. Qed.

Lemma keep_not_removed a0 S U R K a id : inv a0 S U R K a -> id ∈ K -> id ∉ R.
Proof.
  intros H Hk Hr. destruct (i_keep _ _ _ _ _ _ H id Hk) as (_ & Hm & _).
  rewrite (i_inst _ _ _ _ _ _ H) in Hm. set_solver.
Qed.

Lemma removed_not_routed a0 S U R K a id : inv a0 S U R K a -> id ∈ R -> ~ F id -> id ∉ routed a.
Proof.
  intros H Hr HF Hin. destruct (routed_sound a (i_ok _ _ _ _ _ _ H) id Hin) as [Hs _].
  destruct (i_removed _ _ _ _ _ _ H id Hr) as (s & Hs' & [Ht|?]); [|done]. rewrite Hs in Hs'.
  injection Hs' as <-. by destruct Ht.
Qed.

(** A new instance that was neither cut over nor removed is not routed. *)
Lemma withheld_not_routed a0 S U R K a id :
  inv a0 S U R K a -> id ∈ S -> id ∉ U -> id ∉ R -> id ∉ routed a.
Proof.
  intros H Hs Hu Hr Hin. destruct (routed_sound a (i_ok _ _ _ _ _ _ H) id Hin) as [_ Hn]. apply Hn.
  apply (i_sup _ _ _ _ _ _ H). auto.
Qed.

(** ** Each operation keeps the invariant *)

Lemma dom_write a id f id' : is_Some (objs (write_instance a id f) !! id') <-> is_Some (objs a !! id').
Proof.
  unfold write_instance. destruct (objs a !! id) as [i|] eqn:Hi; [|done]. simpl.
  destruct (decide (id = id')) as [<-|Hne]; [|by rewrite lookup_insert_ne].
  rewrite lookup_insert_eq, Hi. split; eauto.
Qed.

Lemma dom_set_locked a id s id' :
  is_Some (objs (set_instance_state_locked a id s) !! id') <-> is_Some (objs a !! id').
Proof.
  assert (forall b, is_Some (state_of b id') <-> is_Some (objs b !! id')) as H.
  { intros b. unfold state_of. apply fmap_is_Some. }
  rewrite <- !H, state_of_set_locked. case_decide; [apply fmap_is_Some|done].
Qed.

Lemma inv_write a0 S U R K a id f :
  inv a0 S U R K a -> id ∉ K \/ keeps_state f ->
  (keeps_state f \/ (id ∉ R /\ id ∉ routed a /\ forall i, inst_state (f i) <> Healthy)) ->
  inv a0 S U R K (write_instance a id f).
Proof.
  intros H Hk Hf. destruct (write_instance_frame a id f) as (Eh & Ei & Es).
  assert (Er : routed (write_instance a id f) = routed a) by (unfold routed; by rewrite Eh).
  assert (Hst : forall id', keeps_state f \/ id' <> id -> state_of (write_instance a id f) id' = state_of a id').
  { intros id' Hc. rewrite state_of_write. case_decide as E; [subst id'|done].
    destruct Hc as [Hc|]; [|done]. unfold state_of. destruct (objs a !! id); [|done]. simpl. by rewrite Hc. }
  constructor; rewrite ?Er, ?Ei, ?Es; try apply H.
  - apply routing_ok_write; [apply H|]. intros i. destruct Hf as [Hf|(_ & ? & ?)]; [left; apply Hf|right; auto].
  - intros id'. rewrite dom_write. apply H.
  - intros id' Hr. rewrite Hst; [by apply H|]. destruct Hf as [?|(Hn & _)]; [by left|right]. by intros ->.
  - intros id' Hkk. rewrite Hst; [by apply H|]. destruct Hk as [Hk|?]; [right|by left]. by intros ->.
Qed.

Lemma inv_set_state a0 S U R K a id s :
  inv a0 S U R K a -> id ∉ K \/ s = Healthy -> id ∉ R \/ terminal_state s \/ F id ->
  inv a0 S U R K (set_instance_state a id s).
Proof.
  intros H Hk Hr. unfold set_instance_state. destruct (set_locked_frame a id s) as [Ei Es].
  constructor; rewrite ?Ei, ?Es; try apply H.
  - apply routing_ok_set_locked, H.
  - intros id'. rewrite dom_set_locked. apply H.
  - intros id' Hr'. rewrite state_of_set_locked. destruct (i_removed _ _ _ _ _ _ H id' Hr') as (s' & Hs' & Ht).
    case_decide as E; [subst id'|eauto]. rewrite Hs'. simpl. exists s. destruct Hr; [done|auto].
  - intros id' Hk'. destruct (i_keep _ _ _ _ _ _ H id' Hk') as (Hs' & Hm & Hn).
    split; [|done]. rewrite state_of_set_locked. case_decide as E; [subst id'|done].
    rewrite Hs'. by destruct Hk as [?| ->].
Qed.

Lemma inv_kill a0 S U R K a id env :
  inv a0 S U R K a -> id ∉ routed a -> inv a0 S U R K (kill_instance a id env).1.
Proof.
  intros H Hn. rewrite kill_instance_write. set (f := fun i => (kill env i).1).
  destruct (write_instance_frame a id f) as (Eh & Ei & Es).
  assert (Er : routed (write_instance a id f) = routed a) by (unfold routed; by rewrite Eh).
  constructor; rewrite ?Er, ?Ei, ?Es; try apply H.
  - unfold f. rewrite <- kill_instance_write. apply routing_ok_kill; [apply H|done].
  - intros id'. rewrite dom_write. apply H.
  - intros id' Hr. destruct (i_removed _ _ _ _ _ _ H id' Hr) as (s & Hs & Ht). rewrite state_of_write.
    case_decide as E; [subst id'|eauto]. unfold state_of in Hs. destruct (objs a !! id) as [i|]; [|done].
    simpl in *. injection Hs as <-. destruct (kill_state env i) as [E|E]; unfold f; rewrite E; [|eauto].
    exists Stopped. split; [done|]. left. by right.
  - intros id' Hk. destruct (i_keep _ _ _ _ _ _ H id' Hk) as (Hs & Hm & Hsup). split; [|done].
    rewrite state_of_write. case_decide as E; [subst id'|done]. destruct Hn.
    by apply (routed_complete a (i_ok _ _ _ _ _ _ H)).
Qed.

Lemma inv_allocate a0 S U R K a id now :
  inv a0 S U R K a -> objs a !! id = None -> id ∉ U ->
  inv a0 ({[id]} ∪ S) U R K (suppress_instance_routing (allocate_instance a id now) id).
Proof.
  intros H Hfresh Hu.
  assert (Hnr : id ∉ R).
  { intros Hr. destruct (i_removed _ _ _ _ _ _ H id Hr) as (s & Hs & _). unfold state_of in Hs.
    by rewrite Hfresh in Hs. }
  assert (Hne : forall id', is_Some (objs a !! id') -> id' <> id).
  { intros id' [i Hi] ->. congruence. }
  assert (Ho : forall id', is_Some (objs (suppress_instance_routing (allocate_instance a id now) id) !! id')
            <-> id' = id \/ is_Some (objs a !! id')).
  { intros id'. simpl. destruct (decide (id' = id)) as [->|Hn]; [rewrite lookup_insert_eq; naive_solver|].
    rewrite lookup_insert_ne by done. naive_solver. }
  assert (Hst : forall id', is_Some (objs a !! id') ->
     state_of (suppress_instance_routing (allocate_instance a id now) id) id' = state_of a id').
  { intros id' Hid'. unfold state_of. simpl. by rewrite lookup_insert_ne by (apply not_eq_sym, Hne, Hid'). }
  constructor.
  - apply routing_ok_suppress, routing_ok_allocate; [apply H|done].
  - simpl. rewrite (i_inst _ _ _ _ _ _ H). set_solver.
  - intros id'. simpl. rewrite elem_of_union, (i_sup _ _ _ _ _ _ H). set_solver.
  - intros id'. rewrite Ho, (i_objs _ _ _ _ _ _ H). set_solver.
  - intros id' Hr. destruct (i_removed _ _ _ _ _ _ H id' Hr) as (s & Hs & Ht).
    exists s. rewrite Hst; [done|]. by eapply state_of_Some_objs.
  - intros id' Hk. destruct (i_keep _ _ _ _ _ _ H id' Hk) as (Hs & Hm & Hn).
    pose proof (state_of_Some_objs _ _ _ Hs) as Hi.
    rewrite Hst by done. split; [done|]. simpl. specialize (Hne id' Hi). set_solver.
Qed.

Lemma inv_remove a0 S U R K a id s :
  inv a0 S U R K a -> id ∈ instances a -> id ∉ K -> state_of a id = Some s -> terminal_state s \/ F id ->
  inv a0 S U ({[id]} ∪ R) K (remove_instance a id).
Proof.
  intros H Hm Hk Hs Ht.
  pose proof (routing_ok_remove a id (i_ok _ _ _ _ _ _ H)) as Hok.
  unfold remove_instance in *. rewrite bool_decide_eq_true_2 in * by done.
  constructor; [exact Hok| | |apply H| |].
  - simpl. rewrite (i_inst _ _ _ _ _ _ H). set_solver.
  - intros id'. simpl. rewrite elem_of_difference, (i_sup _ _ _ _ _ _ H). set_solver.
  - intros id' [->%elem_of_singleton|Hr]%elem_of_union; [by exists s|]. by apply H.
  - intros id' Hk'. destruct (i_keep _ _ _ _ _ _ H id' Hk') as (? & ? & ?). split; [done|]. simpl.
    assert (id' <> id) by (by intros ->). set_solver.
Qed.

Lemma inv_enable a0 S U R K a id :
  inv a0 S U R K a -> id ∈ S -> id ∉ R -> state_of a id = Some Healthy ->
  inv a0 S ({[id]} ∪ U) R K (enable_instance_routing_locked a id).1.
Proof.
  intros H Hs Hr Hst. pose proof (routing_ok_enable a id (i_ok _ _ _ _ _ _ H)) as Hok.
  unfold enable_instance_routing_locked in *.
  change (state_of (with_suppressed a ?x) id) with (state_of a id) in *.
  rewrite bool_decide_eq_true_2 in * by done. cbn [fst] in *.
  destruct (add_frame (with_suppressed a (routing_suppressed a ∖ {[id]})) id) as (Eo & Ei & Es).
  constructor; rewrite ?Eo, ?Ei, ?Es; [exact Hok|apply H| |apply H| |].
  - intros id'. simpl. rewrite elem_of_difference, (i_sup _ _ _ _ _ _ H). set_solver.
  - intros id' Hid'. rewrite state_of_add. by apply H.
  - intros id' Hk. rewrite state_of_add. destruct (i_keep _ _ _ _ _ _ H id' Hk) as (? & ? & ?).
    split; [done|]. split; [done|]. simpl. set_solver.
Qed.

Lemma state_of_enable a id id' : state_of (enable_instance_routing_locked a id).1 id' = state_of a id'.
Proof. unfold enable_instance_routing_locked. case_bool_decide; cbn [fst]; by rewrite ?state_of_add. Qed.

Lemma inv_enable_all a0 S R K ids : forall U a,
  inv a0 S U R K a -> (forall id, id ∈ ids -> id ∈ S /\ id ∉ R /\ state_of a id = Some Healthy) ->
  inv a0 S (list_to_set ids ∪ U) R K (fold_left (fun a id => (enable_instance_routing_locked a id).1) ids a)
  /\ forall id, state_of (fold_left (fun a id => (enable_instance_routing_locked a id).1) ids a) id = state_of a id.
Proof.
  induction ids as [|id ids IH]; intros U a H Hids; simpl; [by rewrite (left_id_L ∅ (∪) U)|].
  destruct (Hids id) as (Hs & Hr & Hst); [left|].
  destruct (IH ({[id]} ∪ U) (enable_instance_routing_locked a id).1) as [H1 H2].
  - by apply inv_enable.
  - intros id' Hid'. rewrite state_of_enable. apply Hids. by right.
  - split; [|intros id'; by rewrite H2, state_of_enable].
    replace ({[id]} ∪ list_to_set ids ∪ U) with (list_to_set ids ∪ ({[id]} ∪ U) : gset str) by set_solver. done.
Qed.

Lemma inv_weaken a0 S U R K K' a : inv a0 S U R K a -> K' ⊆ K -> inv a0 S U R K' a.
Proof. intros [? ? ? ? ? ?] Hk. constructor; auto. Qed.

(** The environment keeps the invariant; a calm one keeps serving instances healthy. *)
Definition calm (f : App -> App) : Prop :=
  forall a id, state_of a id = Some Healthy -> state_of (f a) id = Some Healthy.

Lemma inv_health_op a0 S U R a a' : inv a0 S U R ∅ a -> health_op a a' -> inv a0 S U R ∅ a'.
Proof.
  intros H Hop. destruct Hop as [id s|id f Hf].
  - unfold set_instance_health_state.
    assert (forall st, state_of a id = Some st -> ~ terminal_state st ->
              inv a0 S U R ∅ (set_instance_state_locked a id s)) as Hset.
    { intros st Hst Ht. apply inv_set_state; [done|left; apply not_elem_of_empty|].
      destruct (decide (id ∈ R)) as [Hr|Hr]; [|by left].
      destruct (i_removed _ _ _ _ _ _ H id Hr) as (s' & Hs' & [?|?]); [|by right; right].
      rewrite Hst in Hs'. by injection Hs' as <-. }
    destruct (state_of a id) as [[]|]; cbn [fst]; try done; (eapply Hset; [done|by intros [|]]).
  - apply inv_write; [done|by right|by left].
Qed.

Lemma inv_interfere a0 S U R K (f : App -> App) a :
  (forall b, rtc health_op b (f b)) -> (K = ∅ \/ calm f) -> inv a0 S U R K a -> inv a0 S U R K (f a).
Proof.
  intros Hrtc Hcalm H.
  assert (H0 : inv a0 S U R ∅ (f a)).
  { specialize (Hrtc a). assert (inv a0 S U R ∅ a) as Ha by (by eapply inv_weaken; [done|apply empty_subseteq]).
    revert Ha. clear H. induction Hrtc as [|b c d Hop Hrtc IH]; [done|].
    intros Hb. apply IH. by eapply inv_health_op. }
  destruct Hcalm as [->|Hcalm]; [done|]. destruct H0 as [? Hi Hsup ? ? _]. constructor; try done.
  intros id Hk. destruct (i_keep _ _ _ _ _ _ H id Hk) as (Hs & Hm & Hn). split; [by apply Hcalm|].
  rewrite Hi, Hsup. rewrite (i_inst _ _ _ _ _ _ H) in Hm. rewrite (i_sup _ _ _ _ _ _ H) in Hn. done.
Qed.

Lemma keep_routed a0 S U R K a id : inv a0 S U R K a -> id ∈ K -> id ∈ routed a.
Proof.
  intros H Hk. destruct (i_keep _ _ _ _ _ _ H id Hk) as (? & ? & ?).
  by apply (routed_complete a (i_ok _ _ _ _ _ _ H)).
Qed.

End Invariant.

(** ** New ids *)
Section NewIds.
Context (E : Env).
Hypothesis ids_inj : forall j k, fresh_id E j = fresh_id E k -> j = k.

(** The first [n] new instances. *)
Definition news (n : nat) : list str := fresh_id E <$> seq 0 n.

Lemma news_S n : news (S n) = news n ++ [fresh_id E n].
Proof. unfold news. rewrite seq_S, fmap_app. done. Qed.

Lemma elem_of_news n id : id ∈ news n <-> exists k, (k < n)%nat /\ id = fresh_id E k.
Proof.
  unfold news. rewrite list_elem_of_fmap. split.
  - intros (k & -> & Hk%elem_of_seq). exists k. split; [lia|done].
  - intros (k & Hk & ->). exists k. split; [done|]. apply elem_of_seq. lia.
Qed.

Lemma news_fresh n : fresh_id E n ∉ news n.
Proof. rewrite elem_of_news. intros (k & Hk & ->%ids_inj). lia. Qed.

Lemma NoDup_news n : NoDup (news n).
Proof.
  induction n as [|n IH]; [constructor|]. rewrite news_S. apply NoDup_app. split; [done|].
  split; [|apply NoDup_singleton]. intros x Hx ->%list_elem_of_singleton. by apply (news_fresh n).
Qed.

Definition newset (n : nat) : gset str := list_to_set (news n).

Lemma newset_S n : newset (S n) = {[fresh_id E n]} ∪ newset n.
Proof. unfold newset. rewrite news_S, list_to_set_app_L. simpl.
  rewrite (right_id_L ∅ (∪)). apply union_comm_L. Qed.
End NewIds.

(** The new instances of an update whose kill may fail. *)
Definition stuck (E : Env) (id : str) : Prop :=
  (exists k, id = fresh_id E k) /\ exists i, (kill (kill_outcome E id) i).2 <> Ok tt.

(** ** The update under interference *)
Section Safety.
Context (E : Env) (cfg : RollingUpdateConfig) (a0 : App) (serving : bool).
Hypothesis env_health : forall k a, rtc health_op a (interfere E k a).
Hypothesis env_calm : serving = true -> forall k, calm (interfere E k).
Hypothesis ids_fresh : forall k, objs a0 !! fresh_id E k = None.
Hypothesis ids_inj : forall j k, fresh_id E j = fresh_id E k -> j = k.

(** What other threads see at an await. *)
Definition seen_ok (a : App) : Prop := routing_ok a /\ (serving = true -> routed a <> []).
Definition no_new (a : App) : Prop := forall k, fresh_id E k ∈ routed a ->
  fresh_id E k ∉ instances a /\ stuck E (fresh_id E k).

Record winv (S U R K : gset str) (w : World) : Prop := {
  w_inv : inv (stuck E) a0 S U R K (w_app w);
  w_keep : if serving then K <> ∅ else K = ∅;
  w_all : Forall seen_ok (w_seen w);
  w_quiet : U = ∅ -> Forall no_new (w_seen w);
}.

Lemma inv_no_new S R K a : inv (stuck E) a0 S ∅ R K a -> no_new a.
Proof.
  intros H k Hr. destruct (decide (fresh_id E k ∈ R)) as [HR|HR].
  - split; [rewrite (i_inst _ _ _ _ _ _ _ H); set_solver|].
    destruct (routed_sound a (i_ok _ _ _ _ _ _ _ H) _ Hr) as [Hst _].
    destruct (i_removed _ _ _ _ _ _ _ H _ HR) as (s & Hs & [Ht|?]); [|done].
    rewrite Hst in Hs. injection Hs as <-. by destruct Ht.
  - exfalso. destruct (decide (fresh_id E k ∈ S)) as [Hs|Hs].
    + by eapply withheld_not_routed; [exact H|exact Hs|apply not_elem_of_empty|exact HR|].
    + destruct (routed_sound a (i_ok _ _ _ _ _ _ _ H) _ Hr) as [Hst _].
      apply state_of_Some_objs, (i_objs _ _ _ _ _ _ _ H) in Hst as [[i Hi]|?]; [|done].
      by rewrite ids_fresh in Hi.
Qed.

Lemma winv_seen_ok S U R K w : winv S U R K w -> seen_ok (w_app w).
Proof.
  intros [H Hk _ _]. split; [apply H|]. intros Es Hr. rewrite Es in Hk.
  apply set_choose_L in Hk as [id Hid]. pose proof (keep_routed _ _ _ _ _ _ _ _ H Hid) as Hin.
  rewrite Hr in Hin. by apply elem_of_nil in Hin.
Qed.

Lemma winv_on S U R K S' K' w f :
  winv S U R K w -> (inv (stuck E) a0 S U R K (w_app w) -> inv (stuck E) a0 S' U R K' (f (w_app w))) ->
  (if serving then K' <> ∅ else K' = ∅) -> winv S' U R K' (on_app f w).
Proof. intros [H Hk Ha Hq] Hf Hk'. constructor; simpl; auto. Qed.

Lemma winv_tick S U R K w : winv S U R K w -> winv S U R K (tick E w).
Proof.
  intros Hw. pose proof (winv_seen_ok _ _ _ _ _ Hw) as Hs. destruct Hw as [H Hk Ha Hq].
  constructor; simpl; [|done|by constructor|].
  - apply inv_interfere; [done| |done]. destruct serving eqn:Es; [right; by apply env_calm|by left].
  - intros ->. constructor; [by eapply inv_no_new|by apply Hq].
Qed.

Lemma new_not_kept S R K a id : inv (stuck E) a0 S ∅ R K a -> id ∈ S -> id ∉ R -> id ∉ K.
Proof.
  intros H Hs Hr Hk. destruct (i_keep _ _ _ _ _ _ _ H id Hk) as (_ & _ & Hn). apply Hn.
  apply (i_sup _ _ _ _ _ _ _ H). set_solver.
Qed.

(** A terminal state is stable under interference. *)
Lemma terminal_stable k a id s :
  state_of a id = Some s -> terminal_state s -> state_of (interfere E k a) id = Some s.
Proof.
  intros Hs Ht. specialize (env_health k a). revert Hs.
  induction env_health as [|b c d Hop _ IH]; intros Hs; [done|]. apply IH. clear IH.
  destruct Hop as [id' s'|id' f Hf].
  - unfold set_instance_health_state. destruct (decide (id' = id)) as [->|Hne].
    + rewrite Hs. by destruct Ht as [-> | ->].
    + destruct (state_of b id') as [[]|]; cbn [fst]; try done;
        by rewrite state_of_set_locked, decide_False by done.
  - rewrite state_of_write. case_decide as Hi; [subst id'|done]. unfold state_of in Hs.
    destruct (objs b !! id) as [i|]; [|done]. simpl in *. by rewrite Hf.
Qed.

Lemma tick_dom k a id : is_Some (objs a !! id) -> is_Some (objs (interfere E k a) !! id).
Proof.
  induction (env_health k a) as [|b c d Hop _ IH]; [done|]. intros Hb. apply IH. clear IH.
  destruct Hop as [id' s|id' f _]; [|by rewrite dom_write].
  unfold set_instance_health_state. destruct (state_of b id') as [[]|]; cbn [fst]; try done;
    by rewrite dom_set_locked.
Qed.

(** Killing an instance that is withheld or already terminal: a terminal one stays so,
    and a new one is terminal afterwards unless its kill may fail. *)
Lemma kill_await_spec S U R K w id :
  winv S U R K w ->
  (id ∈ S /\ U = ∅ /\ id ∉ R) \/ (exists s, state_of (w_app w) id = Some s /\ terminal_state s) ->
  winv S U R K (kill_await E id w)
  /\ ((exists s, state_of (w_app w) id = Some s /\ terminal_state s) ->
      exists s, state_of (w_app (kill_await E id w)) id = Some s /\ terminal_state s)
  /\ (forall k, id = fresh_id E k -> is_Some (objs (w_app w) !! id) ->
      exists s, state_of (w_app (kill_await E id w)) id = Some s /\ (terminal_state s \/ stuck E id)).
Proof.
  intros Hw Hid. pose proof (winv_tick _ _ _ _ _ Hw) as Ht.
  assert (Hst : forall s, state_of (w_app w) id = Some s -> terminal_state s ->
                state_of (w_app (tick E w)) id = Some s) by (intros; by apply terminal_stable).
  assert (Hn : id ∉ routed (w_app (tick E w))).
  { destruct Hid as [(Hs & -> & Hr)|(s & Hs & Hts)].
    - eapply withheld_not_routed; [apply Ht|done|apply not_elem_of_empty|done].
    - intros Hr. destruct (routed_sound _ (i_ok _ _ _ _ _ _ _ (w_inv _ _ _ _ _ Ht)) id Hr) as [Hh _].
      rewrite (Hst s) in Hh by done. injection Hh as ->. by destruct Hts. }
  set (b := (kill_instance (w_app (tick E w)) id (kill_outcome E id)).1).
  assert (Hb : state_of b id = inst_state ∘ (fun i => (kill (kill_outcome E id) i).1) <$> objs (w_app (tick E w)) !! id).
  { unfold b. by rewrite kill_instance_write, state_of_write, decide_True. }
  split; [|split].
  - apply winv_tick. eapply winv_on; [exact Ht| |apply Hw]. intros H. by apply inv_kill.
  - intros (s & Hs & Hts). specialize (Hst s Hs Hts). unfold state_of in Hst.
    destruct (objs _ !! id) as [i|]; [|done]. simpl in Hst, Hb. injection Hst as Hst.
    destruct (kill_state (kill_outcome E id) i) as [Ek|Ek]; rewrite Ek in Hb.
    + exists Stopped. split; [apply terminal_stable; [done|by right]|by right].
    + exists s. rewrite Hst in Hb. split; [by apply terminal_stable|done].
  - intros k Hk Hi. destruct (tick_dom (w_step w) (w_app w) id Hi) as [i Hi']. change (interfere E _ _) with (w_app (tick E w)) in Hi'.
    rewrite Hi' in Hb. simpl in Hb. destruct (kill (kill_outcome E id) i) as [i' [[]|e]] eqn:Ek; simpl in Hb.
    + destruct (kill_Ok _ _ _ Ek) as (E' & _). rewrite E' in Hb. exists Stopped.
      split; [apply terminal_stable; [done|by right]|left; by right].
    + assert (is_Some (objs (w_app (kill_await E id w)) !! id)) as [j Hj].
      { apply (tick_dom (w_step (tick E w)) b id). eapply state_of_Some_objs. exact Hb. }
      exists (inst_state j). split; [unfold state_of; by rewrite Hj|]. right. split; [by exists k|].
      exists i. by rewrite Ek.
Qed.

(** ** Starting new instances *)

Lemma winv_new_state S R K w id s :
  winv S ∅ R K w -> id ∈ S -> id ∉ R ->
  winv S ∅ R K (on_app (fun a => set_instance_state a id s) w).
Proof.
  intros Hw Hs Hr. eapply winv_on; [exact Hw| |apply Hw]. intros H.
  apply inv_set_state; [done|left; by eapply new_not_kept|by left].
Qed.

Lemma winv_new_write S R K w id f :
  winv S ∅ R K w -> id ∈ S -> id ∉ R -> keeps_state f \/ (forall i, inst_state (f i) <> Healthy) ->
  winv S ∅ R K (on_app (fun a => write_instance a id f) w).
Proof.
  intros Hw Hs Hr Hf. eapply winv_on; [exact Hw| |apply Hw]. intros H.
  apply inv_write; [done|left; by eapply new_not_kept|]. destruct Hf as [Hf|Hf]; [by left|right].
  split; [done|]. split; [|done]. eapply withheld_not_routed; [done|done|apply not_elem_of_empty|done].
Qed.

Lemma winv_spawn S R K w id :
  winv S ∅ R K w -> id ∈ S -> id ∉ R -> winv S ∅ R K (spawn E id w).1.
Proof.
  intros Hw Hs Hr. unfold spawn.
  set (w1 := on_app (fun a => write_instance a id (set_health_probe _ _)) w).
  assert (H1 : winv S ∅ R K w1) by (apply winv_new_write; try done; by left).
  set (w2 := tick E (tick E (on_app (fun a => set_instance_state (write_instance a id set_process) id Starting) w1))).
  assert (H2 : winv S ∅ R K w2).
  { apply winv_tick, winv_tick.
    change (winv S ∅ R K (on_app (fun a => set_instance_state a id Starting)
              (on_app (fun a => write_instance a id set_process) w1))).
    apply winv_new_state; [|done|done]. apply winv_new_write; try done. by left. }
  assert (Hk : forall w', winv S ∅ R K w' -> winv S ∅ R K (kill_await E id w'))
    by (intros w' Hw'; apply kill_await_spec; [done|left; by split_and!]).
  destruct (spawn_outcome E id) as [e|port|e|detail]; cbn [fst]; [done| | |].
  - apply winv_tick, winv_new_state; [|done|done].
    change (winv S ∅ R K (on_app (fun a => write_instance a id (with_state Ready))
              (on_app (fun a => write_instance a id (set_port port)) w2))).
    apply winv_new_write; [|done|done|right; intros i; by rewrite inst_state_with_state].
    apply winv_new_write; try done. by left.
  - apply Hk, winv_new_state; done.
  - apply Hk, winv_tick, winv_new_state; done.
Qed.

Lemma winv_wait S U R K id polls : forall w,
  winv S U R K w -> winv S U R K (wait_for_healthy E polls id w).1.
Proof.
  induction polls as [|n IH]; intros w Hw; cbn [wait_for_healthy]; [done|].
  pose proof (winv_tick _ _ _ _ _ Hw) as Ht. destruct (state_of _ id) as [[]|]; auto.
Qed.

Lemma winv_start S R K w id :
  winv S ∅ R K w -> id ∈ S -> id ∉ R -> winv S ∅ R K (start_and_wait_healthy E cfg id w).1.
Proof.
  intros Hw Hs Hr. unfold start_and_wait_healthy. pose proof (winv_spawn _ _ _ _ _ Hw Hs Hr) as Hsp.
  destruct (spawn E id w) as [w' [[]|e]]; [by apply winv_wait|done].
Qed.

Lemma winv_stability S U R K ids polls : forall w,
  winv S U R K w -> winv S U R K (stability_loop E polls ids w).1.
Proof.
  induction polls as [|n IH]; intros w Hw; cbn [stability_loop];
    destruct (check_stable (w_app w) ids) as [[]|e]; try done. by apply IH, winv_tick.
Qed.

Lemma winv_stable S U R K ids w :
  winv S U R K w -> winv S U R K (wait_for_stable_health E cfg ids w).1.
Proof.
  intros Hw. unfold wait_for_stable_health. destruct ids; [done|].
  destruct (stability_polls cfg); [done|]. by apply winv_stability.
Qed.

Lemma start_batch_spec K n : forall k w w' r,
  winv (newset E k) ∅ ∅ K w -> start_batch E cfg n k (news E k) w = (w', r) ->
  match r with
  | Ok started => started = news E (k + n) /\ winv (newset E (k + n)) ∅ ∅ K w'
  | Err (_, started) => exists m, started = news E m /\ winv (newset E m) ∅ ∅ K w'
  end.
Proof.
  induction n as [|n IH]; intros k w w' r Hw; cbn [start_batch].
  - intros [= <- <-]. by rewrite Nat.add_0_r.
  - set (id := fresh_id E k).
    assert (Hw1 : winv (newset E (S k)) ∅ ∅ K (on_app (fun a => suppress_instance_routing
                     (allocate_instance a id (now_at E k)) id) w)).
    { eapply winv_on; [exact Hw| |apply Hw]. intros H. rewrite newset_S. apply inv_allocate;
        [done| |apply not_elem_of_empty].
      destruct (objs (w_app w) !! id) as [i|] eqn:Hi; [|done].
      destruct (proj1 (i_objs _ _ _ _ _ _ _ H id)) as [[j Hj]|Hin]; [by rewrite Hi; eauto| |].
      - unfold id in Hj. by rewrite ids_fresh in Hj.
      - unfold newset in Hin. rewrite elem_of_list_to_set in Hin. by apply (news_fresh E ids_inj) in Hin. }
    assert (id ∈ newset E (S k)) as Hid by (rewrite newset_S; set_solver).
    pose proof (winv_start _ _ _ _ _ Hw1 Hid (not_elem_of_empty _)) as Hst.
    destruct (start_and_wait_healthy _ _ _ _) as [w2 [[]|e]]; cbn [fst] in Hst; rewrite <- news_S.
    + intros Hb. replace (k + S n)%nat with (S k + n)%nat by lia. by apply (IH (S k) w2 w' r).
    + intros [= <- <-]. by exists (S k).
Qed.

Lemma run_batches_spec K target fuel : forall start w w' r,
  (1 <= batch_size cfg)%nat -> (target - start <= fuel)%nat -> (start <= target)%nat ->
  winv (newset E start) ∅ ∅ K w ->
  run_batches E cfg fuel start target (news E start) w = (w', r) ->
  match r with
  | Ok started => started = news E target /\ winv (newset E target) ∅ ∅ K w'
  | Err (_, started) => exists m, started = news E m /\ winv (newset E m) ∅ ∅ K w'
  end.
Proof.
  induction fuel as [|fuel IH]; intros start w w' r Hb Hf Hle Hw; cbn [run_batches].
  - intros [= <- <-]. by replace target with start by lia.
  - destruct (target <=? start)%nat eqn:Et; bool_to_prop.
    { intros [= <- <-]. by replace target with start by lia. }
    set (bend := Nat.min (start + batch_size cfg) target).
    assert (start + (bend - start) = bend)%nat as Hbe by lia.
    destruct (start_batch _ _ _ _ _ _) as [w1 r1] eqn:Es.
    pose proof (start_batch_spec K _ _ _ _ _ Hw Es) as Hs.
    destruct r1 as [started|[e started]]; [|by intros [= <- <-]].
    rewrite Hbe in Hs. destruct Hs as [-> Hw1].
    pose proof (winv_stable _ _ _ _ (drop (length (news E start)) (news E bend)) _ Hw1) as Hst.
    destruct (wait_for_stable_health _ _ _ _) as [w2 [[]|e]]; cbn [fst] in Hst.
    + destruct (decide (start + batch_size cfg <= target)%nat) as [Hin|Hout].
      * replace bend with (start + batch_size cfg)%nat in Hst |- * by lia. by apply IH; lia || done.
      * replace bend with target in Hst |- * by lia. destruct fuel as [|fuel]; cbn [run_batches];
          [by intros [= <- <-]|]. rewrite (proj2 (Nat.leb_le _ _)) by lia. by intros [= <- <-].
    + intros [= <- <-]. by exists bend.
Qed.

(** ** Rollback *)

Lemma remove_new_spec S K ids : forall R w,
  NoDup ids -> (forall id, id ∈ ids -> id ∈ S /\ id ∉ R /\ exists k, id = fresh_id E k) -> winv S ∅ R K w ->
  winv S ∅ (list_to_set ids ∪ R) K (remove_new_instances E ids w).
Proof.
  induction ids as [|id ids IH]; intros R w Hnd Hids Hw; cbn [remove_new_instances].
  - by rewrite (left_id_L ∅ (∪) R : list_to_set [] ∪ R = R).
  - inversion Hnd as [|? ? Hni Hnd']; subst. destruct (Hids id) as (Hs & Hr & k & Hk); [left|].
    destruct (kill_await_spec S ∅ R K w id Hw) as (Hw1 & _ & Hterm); [left; by split_and!|].
    destruct (Hterm k Hk) as (s & Hst & Hts).
    { apply (i_objs _ _ _ _ _ _ _ (w_inv _ _ _ _ _ Hw)). by right. }
    assert (Hw2 : winv S ∅ ({[id]} ∪ R) K (on_app (fun a => remove_instance a id) (kill_await E id w))).
    { destruct Hw1 as [H1 Hkk Ha Hq]. constructor; [|done|done|done]. cbn [on_app w_app].
      eapply inv_remove; [exact H1| |by eapply new_not_kept|exact Hst|exact Hts].
      rewrite (i_inst _ _ _ _ _ _ _ H1). set_solver. }
    replace (list_to_set (id :: ids) ∪ R) with (list_to_set ids ∪ ({[id]} ∪ R) : gset str) by set_solver.
    apply IH; [done| |done]. intros id' Hid'. destruct (Hids id') as (? & ? & ?); [by right|].
    split; [done|]. split; [set_solver|done].
Qed.

(** ** Draining the old instances *)

Lemma drain_loop_spec S U R K id polls : forall w s,
  winv S U R K w -> state_of (w_app w) id = Some s -> terminal_state s ->
  winv S U R K (drain_loop E polls id w) /\ state_of (w_app (drain_loop E polls id w)) id = Some s.
Proof.
  induction polls as [|n IH]; intros w s Hw Hs Ht; cbn [drain_loop]; [done|].
  destruct (objs (w_app w) !! id) as [i|]; [|done]. destruct (0 <? in_flight i)%Z; [|done].
  apply IH; [by apply winv_tick|by apply terminal_stable|done].
Qed.

Lemma drain_and_stop_spec S U R K w id :
  winv S U R K w -> id ∈ instances (w_app w) -> is_Some (objs (w_app w) !! id) -> id ∉ K -> id ∉ R ->
  winv S U ({[id]} ∪ R) K (drain_and_stop E cfg id w).
Proof.
  intros Hw Hm Hi Hk Hr. unfold drain_and_stop.
  set (w1 := on_app (fun a => set_instance_state a id Draining) w).
  assert (Hw1 : winv S U R K w1).
  { eapply winv_on; [exact Hw| |apply Hw]. intros H. apply inv_set_state; [done|by left|by left]. }
  assert (Hs1 : state_of (w_app w1) id = Some Draining).
  { simpl. unfold set_instance_state. rewrite state_of_set_locked, decide_True by done.
    unfold state_of. destruct Hi as [i ->]. done. }
  destruct (drain_loop_spec S U R K id (drain_polls cfg) w1 Draining Hw1 Hs1 (or_introl eq_refl)) as [Hw2 Hs2].
  set (w2 := drain_loop E (drain_polls cfg) id w1) in *.
  destruct (kill_await_spec S U R K w2 id Hw2) as (Hw3 & Hterm & _); [right; exists Draining; split; [done|by left]|].
  destruct Hterm as (s & Hs & Ht); [exists Draining; split; [done|by left]|].
  destruct Hw3 as [H3 Hk3 Ha3 Hq3]. constructor; [|done|done|done]. cbn [on_app w_app].
  eapply inv_remove; [exact H3| |done|exact Hs|by left].
  rewrite (i_inst _ _ _ _ _ _ _ H3). rewrite (i_inst _ _ _ _ _ _ _ (w_inv _ _ _ _ _ Hw)) in Hm. done.
Qed.

Lemma drain_all_spec S U K ids : forall R w,
  (forall id, id ∈ ids -> id ∈ instances a0 /\ is_Some (objs a0 !! id) /\ id ∉ K /\ id ∉ R) ->
  NoDup ids -> winv S U R K w ->
  winv S U (list_to_set ids ∪ R) K (fold_left (fun w id => drain_and_stop E cfg id w) ids w).
Proof.
  induction ids as [|id ids IH]; intros R w Hids Hnd Hw; cbn [fold_left].
  - by rewrite (left_id_L ∅ (∪) R : list_to_set [] ∪ R = R).
  - inversion Hnd as [|? ? Hni Hnd']; subst. destruct (Hids id) as (Hm & Ho & Hk & Hr); [left|].
    replace (list_to_set (id :: ids) ∪ R) with (list_to_set ids ∪ ({[id]} ∪ R) : gset str) by set_solver.
    apply IH; [|done|].
    + intros id' Hid'. destruct (Hids id') as (? & ? & ? & ?); [by right|].
      split; [done|]. split; [done|]. split; [done|]. set_solver.
    + pose proof (w_inv _ _ _ _ _ Hw) as H. apply drain_and_stop_spec; [done| | |done|done].
      * rewrite (i_inst _ _ _ _ _ _ _ H). set_solver.
      * apply (i_objs _ _ _ _ _ _ _ H). by left.
Qed.

(** ** The whole update *)

Lemma winv_start_update c K :
  routing_ok a0 -> (forall id, id ∈ K -> state_of a0 id = Some Healthy /\ id ∈ instances a0
                                       /\ id ∉ routing_suppressed a0) ->
  (if serving then K <> ∅ else K = ∅) ->
  winv ∅ ∅ ∅ K (on_app (fun a => update_config a c) (mkWorld a0 0 [])).
Proof.
  intros Hok HK Hk. constructor; [|done|constructor|constructor]. constructor; simpl.
  - by destruct Hok.
  - set_solver.
  - set_solver.
  - intros id. set_solver.
  - set_solver.
  - intros id Hid. by apply HK.
Qed.

Lemma cutover_spec K target w a :
  winv (newset E target) ∅ ∅ K w -> enable_rollout_routing (w_app w) (news E target) = (a, Ok tt) ->
  (serving = true -> (1 <= target)%nat) ->
  winv (newset E target) (newset E target) ∅ (if serving then newset E target else ∅) (on_app (fun _ => a) w).
Proof.
  intros [H Hk Ha Hq] Hcut Htarget. unfold enable_rollout_routing in Hcut.
  destruct (find_first _ (news E target)) eqn:Hf; [done|]. injection Hcut as <-.
  rewrite find_first_None in Hf.
  assert (Hall : forall id, id ∈ news E target ->
            id ∈ newset E target /\ id ∉ (∅ : gset str) /\ state_of (w_app w) id = Some Healthy).
  { intros id Hid. specialize (Hf id Hid). apply negb_false_iff, bool_decide_eq_true in Hf.
    split; [by apply elem_of_list_to_set|]. split; [apply not_elem_of_empty|done]. }
  assert (H0 : inv (stuck E) a0 (newset E target) ∅ ∅ ∅ (w_app w)) by (eapply inv_weaken; [done|apply empty_subseteq]).
  destruct (inv_enable_all (stuck E) a0 (newset E target) ∅ ∅ (news E target) ∅ (w_app w) H0 Hall) as [H1 H2].
  fold (newset E target) in H1. rewrite (right_id_L ∅ (∪)) in H1.
  constructor; simpl; [| |done|].
  - destruct serving; [|done]. destruct H1 as [Hok Hi Hsup Ho Hr _]. constructor; try done.
    intros id Hid. rewrite H2, Hi, Hsup. split; [|set_solver].
    unfold newset in Hid. rewrite elem_of_list_to_set in Hid. by apply Hall.
  - destruct serving; [|done]. specialize (Htarget eq_refl). destruct target as [|n]; [lia|].
    rewrite newset_S. set_solver.
  - intros Hempty. apply Hq. done.
Qed.

Lemma rollout_spec c K old target w' res :
  (1 <= batch_size cfg)%nat -> (serving = true -> (1 <= target)%nat) ->
  routing_ok a0 -> (forall id, id ∈ instances a0 -> is_Some (objs a0 !! id)) ->
  old ≡ₚ elements (instances a0) ->
  (forall id, id ∈ K -> state_of a0 id = Some Healthy /\ id ∈ instances a0
                        /\ id ∉ routing_suppressed a0) ->
  (if serving then K <> ∅ else K = ∅) ->
  rollout E cfg old c target (mkWorld a0 0 []) = (w', res) ->
  if success res
  then res = mkRollingUpdateResult true target (length old) None
       /\ exists K', winv (newset E target) (newset E target) (instances a0) K' w'
  else (new_count res = 0 /\ old_count res = 0)%nat
       /\ exists n, winv (newset E n) ∅ (newset E n) K w'.
Proof.
  intros Hb Htarget Hok Hmem Hold HK Hk. unfold rollout.
  pose proof (winv_start_update c K Hok HK Hk) as Hw0.
  destruct (run_batches _ _ _ _ _ _ _) as [w1 r] eqn:Hrun.
  pose proof (run_batches_spec K target target 0 _ _ _ Hb (Nat.le_sub_l _ _) (Nat.le_0_l _) Hw0 Hrun) as Hr.
  assert (Hback : forall n w, winv (newset E n) ∅ ∅ K w ->
            exists m, winv (newset E m) ∅ (newset E m) K (remove_new_instances E (news E n) w)).
  { intros n w Hw. exists n.
    pose proof (remove_new_spec (newset E n) K (news E n) ∅ w (NoDup_news E ids_inj n)) as Hrm.
    fold (newset E n) in Hrm. rewrite (right_id_L ∅ (∪)) in Hrm. apply Hrm; [|done].
    intros id Hid. split; [by apply elem_of_list_to_set|split; [apply not_elem_of_empty|]].
    apply elem_of_news in Hid as (k & _ & ->). by exists k. }
  destruct r as [started|[e started]].
  - destruct Hr as [-> Hw1]. destruct (enable_rollout_routing _ _) as [a cut] eqn:Hcut.
    destruct cut as [[]|[id s]].
    + intros [= <- <-]. cbn [success]. split; [unfold news; by rewrite length_fmap, length_seq|].
      pose proof (cutover_spec K target w1 a Hw1 Hcut Htarget) as Hw2.
      eexists. apply (drain_all_spec _ _ _ old ∅) in Hw2; [| |by rewrite Hold; apply NoDup_elements].
      * replace (list_to_set old ∪ ∅) with (instances a0) in Hw2; [exact Hw2|].
        rewrite (right_id_L ∅ (∪)). apply set_eq. intros id. rewrite elem_of_list_to_set, Hold. by rewrite elem_of_elements.
      * intros id Hid. rewrite Hold, elem_of_elements in Hid. split; [done|]. split; [by apply Hmem|].
        split; [|apply not_elem_of_empty]. destruct serving; [|apply not_elem_of_empty].
        unfold newset. rewrite elem_of_list_to_set, elem_of_news. intros (k & _ & ->).
        destruct (Hmem _ Hid) as [i Hi]. by rewrite ids_fresh in Hi.
    + intros [= <- <-]. split; [done|]. apply Hback.
      assert (a = w_app w1) as ->.
      { unfold enable_rollout_routing in Hcut. destruct (find_first _ _); by injection Hcut. }
      by destruct w1.
  - destruct Hr as (m & -> & Hw1). intros [= <- <-]. split; [done|]. by apply Hback.
Qed.
End Safety.

(** ** The members of an app are allocated *)

Definition allocated (a : App) : Prop := forall id, id ∈ instances a -> is_Some (objs a !! id).

Lemma allocated_enable_all ids : forall a,
  allocated a -> allocated (fold_left (fun a id => (enable_instance_routing_locked a id).1) ids a).
Proof.
  induction ids as [|id ids IH]; intros a H; simpl; [done|]. apply IH. intros id' Hid'.
  unfold enable_instance_routing_locked in *.
  case_bool_decide; cbn [fst] in *; [|by apply H].
  destruct (add_frame (with_suppressed a (routing_suppressed a ∖ {[id]})) id) as (Eo & Ei & _).
  rewrite Eo. rewrite Ei in Hid'. by apply H.
Qed.

Lemma allocated_set_locked a id s : allocated a -> allocated (set_instance_state_locked a id s).
Proof.
  intros H id'. destruct (set_locked_frame a id s) as [-> _]. rewrite dom_set_locked. apply H.
Qed.

Lemma allocated_write a id f : allocated a -> allocated (write_instance a id f).
Proof.
  intros H id'. destruct (write_instance_frame a id f) as (_ & -> & _). rewrite dom_write. apply H.
Qed.

Lemma allocated_op a raw a' : allocated a -> app_op a raw a' -> allocated a'.
Proof.
  intros H Hop. destruct Hop; try done; auto using allocated_set_locked, allocated_write.
  - intros id'. simpl. destruct (decide (id' = id)) as [->|Hne]; [rewrite lookup_insert_eq; eauto|].
    rewrite lookup_insert_ne by done. intros Hin. apply H. set_solver.
  - unfold set_instance_health_state.
    destruct (state_of a id) as [[]|]; cbn [fst]; auto using allocated_set_locked.
  - apply (allocated_enable_all [id] a H).
  - unfold enable_rollout_routing. destruct (find_first _ _); [done|]. by apply allocated_enable_all.
  - unfold remove_instance. case_bool_decide; [|done]. intros id'. simpl. intros Hin. apply H. set_solver.
  - rewrite kill_instance_write. by apply allocated_write.
Qed.

Lemma members_allocated c stale a : App_reachable c stale a -> allocated a.
Proof.
  unfold App_reachable. change (allocated a) with (allocated (stale, a).2). generalize (stale, a).
  apply (rtc_ind_r (R := app_step) (fun p => allocated p.2) (∅, App_new c)).
  - intros id Hid. simpl in Hid. set_solver.
  - intros p p' _ Hop H. destruct Hop as [st x raw x' Hop]. simpl in *. by eapply allocated_op.
Qed.

(** ** Claims *)

(** The hypotheses of an update: what other threads do meanwhile is health transitions
    and request accounting (eviction, deploys and stops take the app's deploy lock, which
    an update holds; the replacement of a dead native instance, which does not, is not
    part of this environment), and allocated ids are new and distinct.  Kills may fail. *)
Record env_ok (E : Env) (a0 : App) : Prop := {
  env_health : forall k a, rtc health_op a (interfere E k a);
  env_fresh : forall k, objs a0 !! fresh_id E k = None;
  env_inj : forall j k, fresh_id E j = fresh_id E k -> j = k;
}.

(** A rolling update replaces all or nothing, whatever health transitions other
    threads make meanwhile. *)
Lemma rolling_update_is_atomic E cfg c a0 old new_config target w' res :
  App_reachable c ∅ a0 -> env_ok E a0 -> (1 <= batch_size cfg)%nat ->
  old ≡ₚ elements (instances a0) ->
  rollout E cfg old new_config target (mkWorld a0 0 []) = (w', res) ->
  Forall routing_ok (w_app w' :: w_seen w')
  /\ (success res = false ->
        instances (w_app w') = instances a0 /\ (new_count res = 0 /\ old_count res = 0)%nat
        /\ Forall (no_new E) (w_app w' :: w_seen w'))
  /\ (success res = true ->
        instances (w_app w') = newset E target /\ size (newset E target) = target
        /\ new_count res = target /\ old_count res = length old
        /\ forall id, id ∈ instances a0 -> id ∉ routed (w_app w')).
Proof.
  intros Hr [Hh Hf Hi] Hb Hold Hroll.
  pose proof (App_reachable_ok c a0 Hr) as Hok. pose proof (members_allocated c ∅ a0 Hr) as Hmem.
  assert (Hsz : forall n, size (newset E n) = n).
  { intros n. unfold newset. rewrite size_list_to_set by (by apply (NoDup_news E Hi)).
    unfold news. by rewrite length_fmap, length_seq. }
  assert (Hdisj : forall n, newset E n ## instances a0).
  { intros n id. unfold newset. rewrite elem_of_list_to_set, elem_of_news. intros (k & _ & ->) Hin.
    destruct (Hmem _ Hin) as [i Hi']. by rewrite Hf in Hi'. }
  assert (Hfalse : false = true -> forall k, calm (interfere E k)) by done.
  pose proof (rollout_spec E cfg a0 false Hh Hfalse Hf Hi new_config ∅ old target w' res Hb)
    as Hspec.
  specialize (Hspec ltac:(done) Hok Hmem Hold ltac:(set_solver) eq_refl Hroll).
  assert (Hseen : forall S U R K, winv E a0 false S U R K w' -> Forall routing_ok (w_app w' :: w_seen w')).
  { intros S U R K [H _ Ha _]. constructor; [apply H|]. eapply Forall_impl; [exact Ha|]. by intros a [? _]. }
  destruct (success res).
  - destruct Hspec as [-> (K' & Hw)]. split; [by eapply Hseen|]. split; [done|]. intros _.
    pose proof (w_inv _ _ _ _ _ _ _ _ Hw) as H.
    split; [|split; [apply Hsz|split; [done|split; [done|]]]].
    + rewrite (i_inst _ _ _ _ _ _ _ H). specialize (Hdisj target). set_solver.
    + intros id Hid. eapply removed_not_routed; [exact H|exact Hid|]. intros [[k ->] _].
      destruct (Hmem _ Hid) as [i Hi']. by rewrite Hf in Hi'.
  - destruct Hspec as [Hcount (n & Hw)]. split; [by eapply Hseen|]. split; [|done]. intros _.
    destruct Hw as [H _ _ Hq]. split; [|split; [done|]].
    + rewrite (i_inst _ _ _ _ _ _ _ H). specialize (Hdisj n). set_solver.
    + constructor; [by eapply inv_no_new|by apply Hq].
Qed.

(** A rolling update has no downtime: when the app serves before the update and
    the health of serving instances does not fail meanwhile, then at every await of
    the update, and when it ends, successful or rolled back, the load balancer
    still has an instance to route to. *)
Lemma rolling_update_has_no_downtime E cfg c a0 old new_config target w' res id0 :
  App_reachable c ∅ a0 -> env_ok E a0 -> (forall k, calm (interfere E k)) ->
  (1 <= batch_size cfg)%nat -> (1 <= target)%nat ->
  old ≡ₚ elements (instances a0) -> id0 ∈ instances a0 -> id0 ∈ routed a0 ->
  rollout E cfg old new_config target (mkWorld a0 0 []) = (w', res) ->
  Forall (fun a => forall k, (0 <= k)%Z -> is_Some (healthy_backend_for_request a k)) (w_app w' :: w_seen w').
Proof.
  intros Hr [Hh Hf Hi] Hcalm Hb Ht Hold Hid Hrouted Hroll.
  pose proof (App_reachable_ok c a0 Hr) as Hok. pose proof (members_allocated c ∅ a0 Hr) as Hmem.
  pose proof (rollout_spec E cfg a0 true Hh (fun _ => Hcalm) Hf Hi new_config {[id0]} old target w' res
                Hb (fun _ => Ht) Hok Hmem Hold) as Hspec.
  destruct (routed_sound a0 Hok id0 Hrouted) as [Hs Hn].
  assert (exists S U R K, winv E a0 true S U R K w') as (S & U & R & K & Hw).
  { specialize (Hspec ltac:(intros id ->%elem_of_singleton; done) ltac:(set_solver) Hroll).
    destruct (success res); [destruct Hspec as [_ (K' & Hw)]|destruct Hspec as [_ (n & Hw)]]; eauto. }
  assert (Hserve : forall a, seen_ok true a ->
            forall k, (0 <= k)%Z -> is_Some (healthy_backend_for_request a k)).
  { intros a [_ Hne] k Hk. specialize (Hne eq_refl). unfold routed in Hne. unfold healthy_backend_for_request.
    destruct (healthy_instances a) as [|h l]; [done|]. apply lookup_lt_is_Some_2.
    pose proof (Z.mod_pos_bound k (Z.of_nat (length (h :: l)))). simpl in *. lia. }
  constructor; [apply Hserve; by eapply winv_seen_ok|].
  eapply Forall_impl; [apply Hw|exact Hserve].
Qed.


(** ** Replacing the two instances of [demo_pool] *)

Definition demo_env : Env :=
  mkEnv (fun _ a => a) (fun k => replicate (S k) "n"%char) (fun _ => 0%Z) (fun _ => ReadyOn 3000)
    (fun _ => mkKillEnv (Ok tt) (Ok tt) (Ok tt) (Ok tt)).

Definition demo_rolling : RollingUpdateConfig := mkRollingUpdateConfig 3 2 2 1.

Definition demo_rollout : World * RollingUpdateResult :=
  rollout demo_env demo_rolling (elements (instances demo_pool)) demo_config 2 (mkWorld demo_pool 0 []).

(** The same update where no kill succeeds. *)
Definition demo_env_stuck : Env :=
  mkEnv (fun _ a => a) (fun k => replicate (S k) "n"%char) (fun _ => 0%Z)
    (fun id => if str_eqb id (bs "n") then ReadyOn 3000 else ChildFailed (bs "no memory"))
    (fun _ => mkKillEnv (Ok tt) (Ok tt) (Err (bs "busy")) (Ok tt)).

Lemma demo_ids_fresh k : objs demo_pool !! replicate (S k) "n"%char = None.
Proof.
  apply eq_None_not_Some. unfold demo_pool, set_instance_state. rewrite !dom_set_locked.
  unfold allocate_instance. cbn [objs with_instances with_objs].
  rewrite !lookup_insert_ne by (cbn; congruence). intros [? H]. discriminate H.
Qed.

Lemma demo_ids_inj j k : replicate (S j) "n"%char = replicate (S k) "n"%char -> j = k.
Proof. intros H. apply (f_equal length) in H. simpl in H. rewrite !length_replicate in H. lia. Qed.

Lemma demo_env_ok : env_ok demo_env demo_pool.
Proof. split; [intros k a; apply rtc_refl|exact demo_ids_fresh|exact demo_ids_inj]. Qed.

Lemma demo_env_stuck_ok : env_ok demo_env_stuck demo_pool.
Proof. split; [intros k a; apply rtc_refl|exact demo_ids_fresh|exact demo_ids_inj]. Qed.

(** An update whose second start fails, and whose rollback cannot kill. *)
Definition demo_failed : World * RollingUpdateResult :=
  rollout demo_env_stuck demo_rolling (elements (instances demo_pool)) demo_config 2 (mkWorld demo_pool 0 []).

