(* ===== verification/RequestDrain.v ===== *)
(** * Request admission and drain (tako-server/src/request_drain.rs)

    The registry of requests in progress: bounded admission, shutdown of the
    transports of long-lived requests when a drain begins, of all requests when it
    is forced, and re-opening once every request has ended.  Each entry counts the
    calls of [Transport::shutdown] it made. *)

From S2P Require Import Prelude.

Definition MAX_ACTIVE_REQUESTS : Z := 65536.

Inductive Admission := Open | DrainingAdmission.

#[global] Instance Admission_eq_dec : EqDecision Admission.
Proof. solve_decision. Defined.

Record Entry := mkEntry {
  transport : bool;              (** a socket was registered *)
  long_lived : bool;
  shutdown_requested : bool;
  shutdown_calls : nat;
}.

(** [Entry::shutdown]: the entry, and whether a shutdown was requested now. *)
Definition entry_shutdown (e : Entry) : Entry * bool :=
  if shutdown_requested e then (e, false)
  else if transport e
       then (mkEntry (transport e) (long_lived e) true (S (shutdown_calls e)), true)
       else (e, false).

Record State := mkState {
  admission : Admission;
  next_id : Z;
  active : gmap Z Entry;
}.

Definition RequestDrain_default : State := mkState Open 0 ∅.

(** [RequestDrain::register]: the state and the id of the guard. *)
Definition register (socket : bool) (s : State) : State * option Z :=
  if bool_decide (admission s = DrainingAdmission) || (MAX_ACTIVE_REQUESTS <=? Z.of_nat (size (active s)))%Z
  then (s, None)
  else if (next_id s =? u64_max)%Z then (s, None)   (** [checked_add] *)
  else
    let id := (next_id s + 1)%Z in
    (mkState (admission s) id (<[id := mkEntry socket false false 0]> (active s)), Some id).

Definition active_count (s : State) : nat := size (active s).

Definition begin_drain (s : State) : State :=
  mkState DrainingAdmission (next_id s)
    ((fun e => if long_lived e then (entry_shutdown e).1 else e) <$> active s).

Definition force_drain (s : State) : State * nat :=
  (mkState DrainingAdmission (next_id s) ((fun e => (entry_shutdown e).1) <$> active s),
   size (filter (fun '(_, e) => (entry_shutdown e).2 = true) (active s))).

Definition resume (s : State) : State * bool :=
  if (size (active s) =? 0)%nat then (mkState Open (next_id s) (active s), true) else (s, false).

(** [RequestGuard::mark_long_lived] and the drop of the guard. *)
Definition mark_long_lived (id : Z) (s : State) : State :=
  match active s !! id with
  | Some e =>
      let e1 := mkEntry (transport e) true (shutdown_requested e) (shutdown_calls e) in
      let e2 := if bool_decide (admission s = DrainingAdmission) then (entry_shutdown e1).1 else e1 in
      mkState (admission s) (next_id s) (<[id := e2]> (active s))
  | None => s
  end.

Definition guard_drop (id : Z) (s : State) : State :=
  mkState (admission s) (next_id s) (delete id (active s)).

(** ** Interleavings: the registry and the guards alive *)

Inductive drain_step : State * gset Z -> State * gset Z -> Prop :=
| step_register socket s g s' id :
    register socket s = (s', Some id) -> drain_step (s, g) (s', {[id]} ∪ g)
| step_refused socket s g s' : register socket s = (s', None) -> drain_step (s, g) (s', g)
| step_mark id s g : id ∈ g -> drain_step (s, g) (mark_long_lived id s, g)
| step_drop id s g : id ∈ g -> drain_step (s, g) (guard_drop id s, g ∖ {[id]})
| step_begin s g : drain_step (s, g) (begin_drain s, g)
| step_force s g : drain_step (s, g) ((force_drain s).1, g)
| step_resume s g : drain_step (s, g) ((resume s).1, g).

Definition drain_reachable : State * gset Z -> Prop := rtc drain_step (RequestDrain_default, ∅).

(** An entry's transport is shut down at most once, and only when requested. *)
Record entry_ok (e : Entry) : Prop := {
  calls_exact : shutdown_calls e = if shutdown_requested e then 1 else 0;
  requested_transport : shutdown_requested e = true -> transport e = true;
}.

Record drain_inv (s : State) (g : gset Z) : Prop := {
  guards_exact : dom (active s) = g;
  ids_used : forall id, id ∈ g -> (id <= next_id s)%Z;
  bounded : (Z.of_nat (size (active s)) <= MAX_ACTIVE_REQUESTS)%Z;
  entries_ok : forall id e, active s !! id = Some e -> entry_ok e;
  drained_long_lived : admission s = DrainingAdmission -> forall id e,
    active s !! id = Some e -> long_lived e = true -> transport e = true -> shutdown_requested e = true;
  next_range : (0 <= next_id s <= u64_max)%Z;
}.

Lemma entry_shutdown_ok e : entry_ok e -> entry_ok (entry_shutdown e).1.
Proof.
  intros [H1 H2]. unfold entry_shutdown. destruct (shutdown_requested e) eqn:Hr; [constructor; simpl; rewrite ?Hr; auto|].
  destruct (transport e) eqn:Ht; constructor; simpl; rewrite ?Hr, ?H1; auto; congruence.
Qed.

Lemma entry_shutdown_frame e :
  transport (entry_shutdown e).1 = transport e /\ long_lived (entry_shutdown e).1 = long_lived e
  /\ (transport e = true -> shutdown_requested (entry_shutdown e).1 = true).
Proof. unfold entry_shutdown. destruct (shutdown_requested e) eqn:Hr, (transport e) eqn:Ht; simpl; rewrite ?Hr, ?Ht; auto.
Qed.

Lemma register_Some socket s s' id :
  register socket s = (s', Some id) ->
  admission s = Open /\ (Z.of_nat (size (active s)) < MAX_ACTIVE_REQUESTS)%Z /\ id = (next_id s + 1)%Z
  /\ next_id s <> u64_max
  /\ s' = mkState Open id (<[id := mkEntry socket false false 0]> (active s)).
Proof.
  unfold register. case_bool_decide as Ha; simpl; [done|].
  destruct (MAX_ACTIVE_REQUESTS <=? Z.of_nat (size (active s)))%Z eqn:Hm; [done|]. bool_to_prop.
  destruct (next_id s =? u64_max)%Z eqn:Hn; [done|]. bool_to_prop. intros [= <- <-].
  destruct (admission s); [|done]. auto.
Qed.

Lemma register_None socket s s' : register socket s = (s', None) -> s' = s.
Proof. unfold register. repeat case_match; by intros [= <-]. Qed.

(** Mapping over the entries keeps the keys. *)
Lemma drain_inv_fmap s g f :
  drain_inv s g -> (forall e, entry_ok e -> entry_ok (f e)) ->
  (forall e, transport (f e) = transport e /\ long_lived (f e) = long_lived e
     /\ (long_lived e = true -> transport e = true -> shutdown_requested (f e) = true)) ->
  drain_inv (mkState DrainingAdmission (next_id s) (f <$> active s)) g.
Proof.
  intros [H1 H2 H3 H4 H5 H6] Hf Hl. constructor; simpl.
  - by rewrite dom_fmap_L.
  - done.
  - by rewrite map_size_fmap.
  - intros id e. rewrite lookup_fmap_Some. intros (e0 & <- & He). apply Hf. by eapply H4.
  - intros _ id e. rewrite lookup_fmap_Some. intros (e0 & <- & He).
    destruct (Hl e0) as (-> & -> & Hs). exact Hs.
  - done.
Qed.

Lemma drain_inv_step x y :
  drain_inv x.1 x.2 -> drain_step x y -> drain_inv y.1 y.2.
Proof.
  intros Hi Hs. destruct Hs as [socket s g s' id Hr|socket s g s' Hr|id s g Hg|id s g Hg|s g|s g|s g];
    simpl in *.
  - apply register_Some in Hr as (Ha & Hsz & -> & Hn & ->). destruct Hi as [H1 H2 H3 H4 H5 H6].
    assert (Hfresh : active s !! (next_id s + 1)%Z = None).
    { apply not_elem_of_dom. rewrite H1. intros Hin. specialize (H2 _ Hin). lia. }
    constructor; simpl; try done.
    + rewrite dom_insert_L. by rewrite H1.
    + intros id [->%elem_of_singleton|Hid]%elem_of_union; [lia|]. specialize (H2 _ Hid). lia.
    + rewrite map_size_insert_None by done. lia.
    + intros id e. rewrite lookup_insert_Some. intros [[_ <-]|[_ He]]; [by constructor|by eapply H4].
    + unfold u64_max in *. lia.
  - apply register_None in Hr as ->. done.
  - destruct Hi as [H1 H2 H3 H4 H5 H6]. unfold mark_long_lived.
    destruct (active s !! id) as [e|] eqn:He; [|by constructor].
    set (e1 := mkEntry (transport e) true (shutdown_requested e) (shutdown_calls e)).
    assert (Hok1 : entry_ok e1) by (destruct (H4 id e He) as [? ?]; by constructor).
    destruct (entry_shutdown_frame e1) as (Ht & Hl & Hreq).
    constructor; simpl; try done.
    + rewrite dom_insert_L, H1. set_solver.
    + rewrite map_size_insert_Some by eauto. done.
    + intros id' e'. rewrite lookup_insert_Some. intros [[_ <-]|[_ He']]; [|by eapply H4].
      case_bool_decide; [by apply entry_shutdown_ok|done].
    + intros Ha id' e'. rewrite lookup_insert_Some. intros [[_ <-]|[_ He']]; [|by eapply H5].
      rewrite bool_decide_eq_true_2 by done. rewrite Ht. auto.
  - destruct Hi as [H1 H2 H3 H4 H5 H6]. constructor; simpl; try done.
    + by rewrite dom_delete_L, H1.
    + intros id' Hid'. apply H2. set_solver.
    + pose proof (map_subseteq_size _ _ (delete_subseteq (active s) id)). lia.
    + intros id' e [_ He]%lookup_delete_Some. by eapply H4.
    + intros Ha id' e [_ He]%lookup_delete_Some. by eapply H5.
  - apply drain_inv_fmap; [done| |].
    + intros e He. destruct (long_lived e); [by apply entry_shutdown_ok|done].
    + intros e. destruct (entry_shutdown_frame e) as (H1 & H2 & H3).
      destruct (long_lived e) eqn:El; [auto|done].
  - apply drain_inv_fmap; [done|apply entry_shutdown_ok|].
    intros e. destruct (entry_shutdown_frame e) as (H1 & H2 & H3). auto.
  - unfold resume. destruct (size (active s) =? 0)%nat eqn:Hz; [|done]. destruct Hi. by constructor.
Qed.

Lemma drain_reachable_inv x : drain_reachable x -> drain_inv x.1 x.2.
Proof.
  unfold drain_reachable. revert x.
  apply (rtc_ind_r (R := drain_step) (fun x => drain_inv x.1 x.2) (RequestDrain_default, ∅)).
  - constructor; simpl; [apply dom_empty_L|set_solver|unfold MAX_ACTIVE_REQUESTS; rewrite map_size_empty; lia| | |unfold u64_max; lia];
      intros; by rewrite lookup_empty in *.
  - intros x y _ Hs Hi. by eapply drain_inv_step.
Qed.

(** Under every interleaving of admissions, classifications, completions,
    drains and resumes the accounting is exact: the registered requests are exactly
    the guards alive, at most 65536; no transport is shut down twice; once a drain
    has begun every long-lived request with a socket has been shut down, also one
    classified later; and admission re-opens exactly when no request is left. *)
Lemma drain_accounting_is_exact s g :
  drain_reachable (s, g) ->
  dom (active s) = g /\ active_count s = size g /\ (Z.of_nat (size g) <= 65536)%Z
  /\ (forall id e, active s !! id = Some e -> (shutdown_calls e <= 1)%nat)
  /\ (admission s = DrainingAdmission -> forall id e, active s !! id = Some e ->
        long_lived e = true -> transport e = true -> shutdown_calls e = 1)
  /\ ((resume s).2 = true <-> g = ∅).
Proof.
  intros Hr%drain_reachable_inv. simpl in Hr. destruct Hr as [H1 H2 H3 H4 H5 H6].
  assert (Hsz : size (active s) = size g) by (by rewrite <- H1, size_dom).
  split; [done|]. split; [done|]. split; [rewrite <- Hsz; exact H3|]. split.
  - intros id e He. destruct (H4 id e He) as [-> _]. destruct (shutdown_requested e); lia.
  - split.
    + intros Ha id e He Hl Ht. destruct (H4 id e He) as [-> _]. by rewrite (H5 Ha id e).
    + unfold resume. rewrite Hsz. destruct (size g =? 0)%nat eqn:Hz; bool_to_prop; simpl.
      * split; [|done]. intros _. by apply size_empty_inv, leibniz_equiv in Hz.
      * split; [done|]. intros ->. by rewrite size_empty in Hz.
Qed.

(** ** A drain only shrinks *)

(** Steps other than a successful resume. *)
Definition keeps_draining (x y : State * gset Z) : Prop :=
  drain_step x y /\ (admission x.1 = DrainingAdmission -> admission y.1 = DrainingAdmission).

Lemma draining_step x y :
  admission x.1 = DrainingAdmission -> keeps_draining x y ->
  y.2 ⊆ x.2 /\ admission y.1 = DrainingAdmission.
Proof.
  intros Ha [Hs Hk]. specialize (Hk Ha). split; [|done].
  destruct Hs; simpl in *; try set_solver.
  apply register_Some in H as (Ho & _). congruence.
Qed.

(** After a drain has begun and until admission re-opens, no interleaving admits
    a request: the guards alive are among those alive when it began, and a forced
    drain at any later point has shut down every remaining transport. *)
Lemma drain_admits_nothing s g x :
  rtc keeps_draining (begin_drain s, g) x ->
  x.2 ⊆ g
  /\ (forall socket, (register socket x.1).2 = None)
  /\ (forall id e, active (force_drain x.1).1 !! id = Some e -> transport e = true ->
        shutdown_requested e = true).
Proof.
  intros Hr.
  assert (x.2 ⊆ g /\ admission x.1 = DrainingAdmission) as [Hsub Ha].
  { revert x Hr. apply (rtc_ind_r (R := keeps_draining)
      (fun x => x.2 ⊆ g /\ admission x.1 = DrainingAdmission) (begin_drain s, g)); [done|].
    intros x y _ Hs [Hsub Ha]. destruct (draining_step x y Ha Hs) as [H1 H2]. set_solver. }
  split; [done|]. split.
  - intros socket. unfold register. by rewrite bool_decide_eq_true_2.
  - intros id e. simpl. rewrite lookup_fmap_Some. intros (e0 & <- & _).
    destruct (entry_shutdown_frame e0) as (-> & _ & H). exact H.
Qed.

(** C15: drains are exact.  Under every interleaving of admissions, classifications,
    completions, drains and resumes the registered requests are exactly the guards alive,
    at most 65536; no transport is shut down twice; once a drain has begun every long-lived
    request with a socket has been shut down, also one classified later; and admission
    re-opens exactly when no request is left.  From the start of a drain until then nothing
    is admitted, and a forced drain has shut down every remaining transport. *)
Theorem drain_is_exact s g :
  drain_reachable (s, g) ->
  (dom (active s) = g /\ active_count s = size g /\ (Z.of_nat (size g) <= 65536)%Z
   /\ (forall id e, active s !! id = Some e -> (shutdown_calls e <= 1)%nat)
   /\ (admission s = DrainingAdmission -> forall id e, active s !! id = Some e ->
        long_lived e = true -> transport e = true -> shutdown_calls e = 1)
   /\ ((resume s).2 = true <-> g = ∅))
  /\ forall x, rtc keeps_draining (begin_drain s, g) x ->
       x.2 ⊆ g
       /\ (forall socket, (register socket x.1).2 = None)
       /\ (forall id e, active (force_drain x.1).1 !! id = Some e -> transport e = true ->
             shutdown_requested e = true).
Proof. intros Hr. split; [by apply drain_accounting_is_exact|]. intros x. apply drain_admits_nothing. Qed.

(** ** A WebSocket that is classified after the drain began *)

Definition demo_drain : State :=
  mark_long_lived 1 (begin_drain (register true RequestDrain_default).1).

Lemma drain_is_exact_witness :
  active_count demo_drain = 1 /\ (shutdown_calls <$> active demo_drain !! 1%Z) = Some 1
  /\ (register true (begin_drain demo_drain)).2 = None.
Proof.
  assert (Hr : drain_reachable (demo_drain, {[1%Z]} ∪ ∅)).
  { eapply rtc_l; [apply (step_register true); reflexivity|].
    eapply rtc_l; [apply step_begin|]. apply rtc_once. apply step_mark. set_solver. }
  destruct (drain_is_exact demo_drain ({[1%Z]} ∪ ∅) Hr) as ((_ & Hc & _) & Hd).
  split; [rewrite Hc; vm_compute; reflexivity|]. split; [vm_compute; reflexivity|].
  destruct (Hd (begin_drain demo_drain, {[1%Z]} ∪ ∅) (rtc_refl _ _)) as (_ & Hn & _). exact (Hn true).
Defined.
