(* ===== verification/Limits.v ===== *)
(** * Per-IP request limit (tako-server/src/proxy/limits.rs)

    The tracker's counters are atomics in a concurrent map.  The sequential
    definitions follow the code; the step relation [limit_step] runs the same
    atomic actions of any number of threads in any order.  An over-limit thread
    holds its map entry between its increment and its decrement, so that the
    removal of an entry, which needs the entry exclusively, waits for it. *)

From S2P Require Import Prelude RustStr Net.

Definition DEFAULT_MAX_REQUESTS_PER_IP : Z := 2048.

Definition parse_request_limit (value : str) : option Z :=
  match parse_u32 (trim value) with
  | Some limit => if (0 <? limit)%Z then Some limit else None
  | None => None
  end.

Definition max_requests_per_ip_from_env (raw : option str) : Z :=
  match raw with
  | None => DEFAULT_MAX_REQUESTS_PER_IP
  | Some raw => default DEFAULT_MAX_REQUESTS_PER_IP (parse_request_limit raw)
  end.

Record IpRequestTracker := mkIpRequestTracker {
  connections : gmap IpAddr Z;
  max_requests_per_ip : Z;
}.

Definition with_limit (max : Z) : IpRequestTracker := mkIpRequestTracker ∅ max.

Definition set_counter (t : IpRequestTracker) (ip : IpAddr) (v : Z) : IpRequestTracker :=
  mkIpRequestTracker (<[ip := v]> (connections t)) (max_requests_per_ip t).

(** [counter.fetch_add(1)] with the entry created at zero: the previous value. *)
Definition fetch_add (t : IpRequestTracker) (ip : IpAddr) : IpRequestTracker * Z :=
  let prev := default 0%Z (connections t !! ip) in
  (set_counter t ip (u32_wrapping_add prev 1), prev).

(** [counter.fetch_sub(1)] of an entry in the map. *)
Definition fetch_sub (t : IpRequestTracker) (ip : IpAddr) : IpRequestTracker * option Z :=
  match connections t !! ip with
  | Some current => (set_counter t ip (u32_wrapping_sub current 1), Some current)
  | None => (t, None)
  end.

(** [remove_if(&ip, |_, v| v == 0)]. *)
Definition remove_if_zero (t : IpRequestTracker) (ip : IpAddr) : IpRequestTracker :=
  if bool_decide (connections t !! ip = Some 0%Z)
  then mkIpRequestTracker (delete ip (connections t)) (max_requests_per_ip t) else t.

Definition try_acquire (t : IpRequestTracker) (ip : IpAddr) : IpRequestTracker * bool :=
  let '(t1, prev) := fetch_add t ip in
  if (max_requests_per_ip t <=? prev)%Z then ((fetch_sub t1 ip).1, false) else (t1, true).

Definition release (t : IpRequestTracker) (ip : IpAddr) : IpRequestTracker :=
  let '(t1, current) := fetch_sub t ip in
  if bool_decide (current = Some 1%Z) then remove_if_zero t1 ip else t1.

(** ** Threads *)

(** Per address: the requests admitted, the threads between an over-limit increment
    and its decrement, and the threads about to remove an emptied entry. *)
Record Threads := mkThreads {
  tracker : IpRequestTracker;
  admitted : IpAddr -> nat;
  backing_off : IpAddr -> nat;
  removing : IpAddr -> nat;
}.

Definition bump (f : IpAddr -> nat) (ip : IpAddr) (g : nat -> nat) : IpAddr -> nat :=
  fun x => if decide (x = ip) then g (f x) else f x.

Definition threads_start (max : Z) : Threads :=
  mkThreads (with_limit max) (fun _ => 0) (fun _ => 0) (fun _ => 0).

(** Fewer than 2^32 threads act on one address at a time. *)
Inductive limit_step (s : Threads) : Threads -> Prop :=
| acquire_admitted ip t' prev :
    (Z.of_nat (admitted s ip + backing_off s ip) < u32_max)%Z ->
    fetch_add (tracker s) ip = (t', prev) -> (prev < max_requests_per_ip (tracker s))%Z ->
    limit_step s (mkThreads t' (bump (admitted s) ip S) (backing_off s) (removing s))
| acquire_over ip t' prev :
    (Z.of_nat (admitted s ip + backing_off s ip) < u32_max)%Z ->
    fetch_add (tracker s) ip = (t', prev) -> (max_requests_per_ip (tracker s) <= prev)%Z ->
    limit_step s (mkThreads t' (admitted s) (bump (backing_off s) ip S) (removing s))
| acquire_back_off ip :
    (0 < backing_off s ip)%nat ->
    limit_step s (mkThreads (fetch_sub (tracker s) ip).1 (admitted s) (bump (backing_off s) ip pred) (removing s))
| release_sub ip t' current :
    (0 < admitted s ip)%nat -> fetch_sub (tracker s) ip = (t', current) ->
    limit_step s (mkThreads t' (bump (admitted s) ip pred) (backing_off s)
                    (if bool_decide (current = Some 1%Z) then bump (removing s) ip S else removing s))
| release_remove ip :
    (0 < removing s ip)%nat -> backing_off s ip = 0 ->
    limit_step s (mkThreads (remove_if_zero (tracker s) ip) (admitted s) (backing_off s)
                    (bump (removing s) ip pred)).

(** The counter is exact, and within the limit for the admitted requests. *)
Record limit_inv (max : Z) (s : Threads) : Prop := {
  inv_limit : max_requests_per_ip (tracker s) = max;
  inv_count : forall ip, default 0%Z (connections (tracker s) !! ip)
                = Z.of_nat (admitted s ip + backing_off s ip);
  inv_admitted : forall ip, (Z.of_nat (admitted s ip) <= max)%Z;
  inv_threads : forall ip, (Z.of_nat (admitted s ip + backing_off s ip) <= u32_max)%Z;
}.

Lemma bump_eq f ip g : bump f ip g ip = g (f ip).
Proof. unfold bump. by rewrite decide_True. Qed.
Lemma bump_ne f ip g x : x <> ip -> bump f ip g x = f x.
Proof. intros. unfold bump. by rewrite decide_False. Qed.

Lemma counter_set t ip v x :
  default 0%Z (connections (set_counter t ip v) !! x)
  = if decide (x = ip) then v else default 0%Z (connections t !! x).
Proof.
  simpl. case_decide; [subst; by rewrite lookup_insert_eq|]. by rewrite lookup_insert_ne.
Qed.

Lemma counter_fetch_sub t ip n x :
  default 0%Z (connections t !! ip) = Z.of_nat (S n) -> (Z.of_nat (S n) <= u32_max)%Z ->
  default 0%Z (connections (fetch_sub t ip).1 !! x)
  = if decide (x = ip) then Z.of_nat n else default 0%Z (connections t !! x).
Proof.
  intros Hc Hr. unfold fetch_sub. destruct (connections t !! ip) as [c|] eqn:Hl; [|simpl in Hc; lia].
  simpl in Hc. subst c. cbn [fst]. rewrite counter_set. case_decide; [|done].
  unfold u32_wrapping_sub, u32_max in *. rewrite Z.mod_small; lia.
Qed.

Lemma limit_fetch_sub t ip : max_requests_per_ip (fetch_sub t ip).1 = max_requests_per_ip t.
Proof. unfold fetch_sub. by case_match. Qed.

Lemma limit_inv_step max s s' : limit_inv max s -> limit_step s s' -> limit_inv max s'.
Proof.
  intros [Hl Hc Ha Ht] Hs.
  destruct Hs as [ip t' prev Hn Hf Hp|ip t' prev Hn Hf Hp|ip Hb|ip t' current Hn Hf|ip Hr Hb].
  - injection Hf as <- <-. rewrite Hc in Hp. constructor; simpl; [done| | |]; intros x;
      (destruct (decide (x = ip)) as [->|Hne]; rewrite ?bump_eq, ?bump_ne by done); auto.
    + rewrite lookup_insert_eq. simpl. rewrite Hc. unfold u32_wrapping_add, u32_max in *.
      rewrite Z.mod_small; lia.
    + rewrite lookup_insert_ne by done. auto.
    + lia.
    + lia.
  - injection Hf as <- <-. constructor; simpl; [done| |done|]; intros x;
      (destruct (decide (x = ip)) as [->|Hne]; rewrite ?bump_eq, ?bump_ne by done); auto.
    + rewrite lookup_insert_eq. simpl. rewrite Hc. unfold u32_wrapping_add, u32_max in *.
      rewrite Z.mod_small; lia.
    + rewrite lookup_insert_ne by done. auto.
    + lia.
  - pose proof (counter_fetch_sub (tracker s) ip (admitted s ip + pred (backing_off s ip))) as Hcs.
    assert (S (admitted s ip + pred (backing_off s ip)) = admitted s ip + backing_off s ip)%nat as E by lia.
    rewrite E in Hcs. constructor; simpl; [by rewrite limit_fetch_sub| |done|]; intros x;
      (destruct (decide (x = ip)) as [->|Hne]; rewrite ?bump_eq, ?bump_ne by done); auto.
    + rewrite Hcs by auto. by rewrite decide_True.
    + rewrite Hcs by auto. by rewrite decide_False.
    + specialize (Ht ip). lia.
  - pose proof (counter_fetch_sub (tracker s) ip (pred (admitted s ip) + backing_off s ip)) as Hcs.
    assert (S (pred (admitted s ip) + backing_off s ip) = admitted s ip + backing_off s ip)%nat as E by lia.
    rewrite E, Hf in Hcs. cbn [fst] in Hcs.
    assert (t' = (fetch_sub (tracker s) ip).1) as Et by (by rewrite Hf).
    constructor; simpl; [rewrite Et; by rewrite limit_fetch_sub| | |]; intros x;
      (destruct (decide (x = ip)) as [->|Hne]; rewrite ?bump_eq, ?bump_ne by done); auto.
    + rewrite Hcs by auto. by rewrite decide_True.
    + rewrite Hcs by auto. by rewrite decide_False.
    + specialize (Ha ip). lia.
    + specialize (Ht ip). lia.
  - assert (forall x, default 0%Z (connections (remove_if_zero (tracker s) ip) !! x)
                      = default 0%Z (connections (tracker s) !! x)) as Hrm.
    { intros x. unfold remove_if_zero. case_bool_decide as Hz; [|done]. simpl.
      destruct (decide (x = ip)) as [->|Hne]; [by rewrite lookup_delete_eq, Hz|by rewrite lookup_delete_ne]. }
    constructor; simpl; [unfold remove_if_zero; by case_bool_decide|intros x; by rewrite Hrm|done|done].
Qed.

Definition limit_reachable (max : Z) : Threads -> Prop := rtc limit_step (threads_start max).

Lemma limit_reachable_inv max s : (0 <= max)%Z -> limit_reachable max s -> limit_inv max s.
Proof.
  intros Hm. unfold limit_reachable. revert s.
  apply (rtc_ind_r (R := limit_step) (limit_inv max) (threads_start max)).
  - constructor; simpl; [done|intros ip; by rewrite lookup_empty|intros; lia|intros; unfold u32_max; lia].
  - intros s s' _ Hs Hi. by eapply limit_inv_step.
Qed.

(** Whatever the interleaving of acquires and releases of any number of threads,
    at most the configured number of requests of one address are admitted at a time,
    and its counter is exactly the admitted requests plus the rejected ones still
    backing off, so a release never frees a slot it does not hold and the removal of
    an entry never loses a count. *)
Lemma ip_limit_holds max s ip :
  (0 <= max)%Z -> limit_reachable max s ->
  (Z.of_nat (admitted s ip) <= max)%Z
  /\ default 0%Z (connections (tracker s) !! ip) = Z.of_nat (admitted s ip + backing_off s ip).
Proof.
  intros Hm Hr. destruct (limit_reachable_inv max s Hm Hr) as [_ Hc Ha _]. split; [apply Ha|apply Hc].
Qed.

(** ** A limit of one and two threads *)

Definition demo_ip : IpAddr := V4 [203; 0; 113; 9]%Z.

Definition demo_threads1 : Threads :=
  mkThreads (fetch_add (with_limit 1) demo_ip).1 (bump (fun _ => 0) demo_ip S) (fun _ => 0) (fun _ => 0).

Lemma ip_limit_holds_witness :
  limit_reachable 1 demo_threads1 /\ (Z.of_nat (admitted demo_threads1 demo_ip) <= 1)%Z.
Proof.
  assert (Hr : limit_reachable 1 demo_threads1).
  { apply rtc_once. eapply (acquire_admitted (threads_start 1) demo_ip _ 0);
      [vm_compute; reflexivity|reflexivity|vm_compute; reflexivity]. }
  split; [exact Hr|]. apply (ip_limit_holds 1 demo_threads1 demo_ip); [lia|exact Hr].
Defined.

(** A rejected request that backs off after the last admitted one was released leaves
    an entry with count zero in the map that no thread is going to remove. *)
Theorem zero_entry_can_stay :
  exists s, limit_reachable 1 s /\ connections (tracker s) !! demo_ip = Some 0%Z
    /\ admitted s demo_ip = 0 /\ backing_off s demo_ip = 0 /\ removing s demo_ip = 0.
Proof.
  eexists. split; [|split; [|split; [|split]]].
  - eapply rtc_l; [eapply (acquire_admitted (threads_start 1) demo_ip _ 0);
                   [vm_compute; reflexivity|reflexivity|vm_compute; reflexivity]|].
    eapply rtc_l; [eapply (acquire_over _ demo_ip _ 1);
                   [vm_compute; reflexivity|vm_compute; reflexivity|vm_compute; discriminate]|].
    eapply rtc_l; [eapply (release_sub _ demo_ip _ (Some 2%Z)); [vm_compute; lia|vm_compute; reflexivity]|].
    apply rtc_once. apply (acquire_back_off _ demo_ip). vm_compute. lia.
  - vm_compute. reflexivity.
  - vm_compute. reflexivity.
  - vm_compute. reflexivity.
  - vm_compute. reflexivity.
Qed.
