(* ===== verification/ProxyProtocol.v ===== *)
(** * The PROXY protocol header (tako-server/src/proxy/proxy_protocol.rs)

    Versions 1 (text) and 2 (binary).  The reader is the bytes the peer sends until
    it closes; every read returns the rest of them, so that the theorems can say
    exactly how much of the connection the header parser consumes. *)

From S2P Require Import Prelude RustStr Net.

Definition SocketAddr : Type := IpAddr * Z.

(** [ProxyProtocolResult], [ProxyProtocolError]. *)
Definition ProxyProtocolResult : Type := option SocketAddr.
Definition ProxyProtocolError : Type := str.

Definition V1_PREFIX : str := bs "PROXY ".
Definition V1_MAX_LEN : nat := 108.
Definition CRLF : str := [of_byte 13; of_byte 10].
Definition V2_SIGNATURE : str :=
  CRLF ++ CRLF ++ [of_byte 0] ++ CRLF ++ bs "QUIT" ++ [of_byte 10].

(** [read_exact]: the end of the stream is the only I/O error. *)
Definition read_exact (n : nat) (s : str) : option (str * str) :=
  if (length s <? n)%nat then None else Some (take n s, drop n s).

Definition early_eof : str := bs "early eof".

(** [str::trim_end_matches] of a string. *)
Fixpoint trim_end_str (fuel : nat) (p s : str) : str :=
  match fuel with
  | O => s
  | S fuel' => match strip_suffix p s with Some s' => trim_end_str fuel' p s' | None => s end
  end.

Definition next_field (parts : list str) (what : str) : result (str * list str) ProxyProtocolError :=
  match parts with
  | [] => Err (bs "missing PROXY v1 " ++ what)
  | p :: rest => Ok (p, rest)
  end.

Definition parse_proxy_v1_line (line : str) : result ProxyProtocolResult ProxyProtocolError :=
  match split_whitespace line with
  | p :: parts =>
      if negb (str_eqb p (bs "PROXY")) then Err (bs "missing PROXY v1 prefix")
      else
        let? (protocol, parts) := next_field parts (bs "protocol") in
        if str_eqb protocol (bs "UNKNOWN") then Ok None
        else
          let? (source_ip, parts) := next_field parts (bs "source address") in
          let? (_, parts) := next_field parts (bs "destination address") in
          let? (source_port, parts) := next_field parts (bs "source port") in
          let? (_, parts) := next_field parts (bs "destination port") in
          match parts with
          | _ :: _ => Err (bs "too many PROXY v1 fields")
          | [] =>
              let? ip := ok_or (parse_ip source_ip) (bs "invalid PROXY v1 source address") in
              let tcp4 := str_eqb protocol (bs "TCP4") in
              let tcp6 := str_eqb protocol (bs "TCP6") in
              let? _ := match ip with
                        | V4 _ => if tcp4 then Ok tt
                                  else if tcp6
                                  then Err (bs "PROXY v1 address family does not match source address")
                                  else Err (bs "unsupported PROXY v1 protocol")
                        | V6 _ => if tcp6 then Ok tt
                                  else if tcp4
                                  then Err (bs "PROXY v1 address family does not match source address")
                                  else Err (bs "unsupported PROXY v1 protocol")
                        end in
              let? port := ok_or (parse_u16 source_port) (bs "invalid PROXY v1 source port") in
              Ok (Some (ip, port))
          end
  | [] => Err (bs "missing PROXY v1 prefix")
  end.

(** The loop of [read_proxy_v1_header]; the line never exceeds [V1_MAX_LEN], which is
    enough fuel. *)
Fixpoint read_v1_line (fuel : nat) (line s : str) : result str ProxyProtocolError * str :=
  if ends_with line CRLF then (Ok line, s)
  else match fuel with
       | O => (Err (bs "PROXY v1 header is too long"), s)
       | S fuel' =>
           if (V1_MAX_LEN <=? length line)%nat then (Err (bs "PROXY v1 header is too long"), s)
           else match read_exact 1 s with
                | Some (byte, s') => read_v1_line fuel' (line ++ byte) s'
                | None => (Err (bs "incomplete PROXY v1 header: " ++ early_eof), [])
                end
       end.

Definition read_proxy_v1_header (line s : str) : result ProxyProtocolResult ProxyProtocolError * str :=
  let '(r, s') := read_v1_line V1_MAX_LEN line s in
  match r with
  | Err e => (Err e, s')
  | Ok line =>
      if utf8_valid line then (parse_proxy_v1_line (trim_end_str (length line) CRLF line), s')
      else (Err (bs "PROXY v1 header is not UTF-8"), s')
  end.

(** [Ipv6Addr::from([u8; 16])]: the groups. *)
Fixpoint groups_of_bytes (n : nat) (l : str) : list Z :=
  match n with
  | O => []
  | S n' => from_be (take 2 l) :: groups_of_bytes n' (drop 2 l)
  end.

Definition parse_proxy_v2_payload (family_transport : Z) (payload : str)
    : result ProxyProtocolResult ProxyProtocolError :=
  let family := Z.land family_transport 240 in
  let transport := Z.land family_transport 15 in
  if (family =? 0)%Z then Ok None
  else if negb (transport =? 1)%Z then Err (bs "unsupported PROXY v2 transport protocol")
  else if (family =? 16)%Z then
    if (length payload <? 12)%nat then Err (bs "short PROXY v2 IPv4 payload")
    else Ok (Some (V4 [byte_at payload 0; byte_at payload 1; byte_at payload 2; byte_at payload 3],
                   from_be (take 2 (drop 8 payload))))
  else if (family =? 32)%Z then
    if (length payload <? 36)%nat then Err (bs "short PROXY v2 IPv6 payload")
    else Ok (Some (V6 (groups_of_bytes 8 (take 16 payload)), from_be (take 2 (drop 32 payload))))
  else Err (bs "unsupported PROXY v2 address family").

Definition read_proxy_v2_header (s : str) : result ProxyProtocolResult ProxyProtocolError * str :=
  match read_exact 4 s with
  | None => (Err (bs "incomplete PROXY v2 header: " ++ early_eof), [])
  | Some (header, s1) =>
      let version_command := byte_at header 0 in
      if negb (Z.land version_command 240 =? 32)%Z then (Err (bs "unsupported PROXY v2 version"), s1)
      else
        let command := Z.land version_command 15 in
        let payload_len := Z.to_nat (from_be (drop 2 header)) in
        match read_exact payload_len s1 with
        | None => (Err (bs "incomplete PROXY v2 payload: " ++ early_eof), [])
        | Some (payload, s2) =>
            if (command =? 0)%Z then (Ok None, s2)
            else if (command =? 1)%Z then (parse_proxy_v2_payload (byte_at header 1) payload, s2)
            else (Err (bs "unsupported PROXY v2 command"), s2)
        end
  end.

Definition read_proxy_protocol_header (s : str) : result ProxyProtocolResult ProxyProtocolError * str :=
  match read_exact 12 s with
  | None => (Err (bs "missing PROXY header: " ++ early_eof), [])
  | Some (prefix, s') =>
      if str_eqb prefix V2_SIGNATURE then read_proxy_v2_header s'
      else if negb (starts_with prefix V1_PREFIX) then (Err (bs "missing PROXY header"), s')
      else read_proxy_v1_header prefix s'
  end.

Example v1_demo :
  read_proxy_protocol_header (bs "PROXY TCP4 203.0.113.9 10.0.0.1 51234 443" ++ CRLF ++ bs "GET /")
  = (Ok (Some (V4 [203; 0; 113; 9]%Z, 51234%Z)), bs "GET /").
Proof. vm_compute. reflexivity. Qed.

(** ** What a version 2 proxy sends *)

Definition wf_ip (ip : IpAddr) : Prop :=
  match ip with
  | V4 o => length o = 4 /\ Forall (fun x => 0 <= x < 256)%Z o
  | V6 g => length g = 8 /\ Forall (fun x => 0 <= x < 65536)%Z g
  end.

Definition same_family (a b : IpAddr) : Prop :=
  match a, b with V4 _, V4 _ | V6 _, V6 _ => True | _, _ => False end.

Definition ip_bytes (ip : IpAddr) : str :=
  match ip with V4 o => of_byte <$> o | V6 g => concat (to_be 2 <$> g) end.

Definition ip_family (ip : IpAddr) : Z := match ip with V4 _ => 17 | V6 _ => 33 end.

(** Source and destination address, source and destination port, extensions. *)
Definition v2_payload (src dst : SocketAddr) (tlvs : str) : str :=
  ip_bytes src.1 ++ ip_bytes dst.1 ++ to_be 2 src.2 ++ to_be 2 dst.2 ++ tlvs.

Definition encode_v2 (src dst : SocketAddr) (tlvs : str) : str :=
  let payload := v2_payload src dst tlvs in
  V2_SIGNATURE ++ [of_byte 33; of_byte (ip_family src.1)]
    ++ to_be 2 (Z.of_nat (length payload)) ++ payload.

(** ** Reading *)

Lemma read_exact_app n a b : length a = n -> read_exact n (a ++ b) = Some (a, b).
Proof.
  intros <-. unfold read_exact. rewrite length_app.
  destruct (Nat.ltb_spec (length a + length b) (length a)); [lia|].
  by rewrite take_app_length, drop_app_length.
Qed.

Lemma read_exact_Some n s a b : read_exact n s = Some (a, b) -> s = a ++ b /\ length a = n.
Proof.
  unfold read_exact. destruct (Nat.ltb_spec (length s) n); [done|]. intros [= <- <-].
  rewrite take_drop, length_take. split; [done|lia].
Qed.

(** A read that succeeds does not look past the bytes it returns. *)
Lemma read_exact_extend n s a b b' :
  read_exact n s = Some (a, b) -> read_exact n (a ++ b') = Some (a, b').
Proof. intros [_ H]%read_exact_Some. by apply read_exact_app. Qed.

Lemma byte_of_of_byte_list o :
  Forall (fun x => 0 <= x < 256)%Z o -> byte_of <$> (of_byte <$> o) = o.
Proof. induction 1 as [|x o Hx _ IH]; [done|]. csimpl. rewrite byte_of_of_byte, IH by lia. done. Qed.

Lemma groups_of_bytes_spec n g :
  length g = n -> Forall (fun x => 0 <= x < 65536)%Z g ->
  groups_of_bytes n (concat (to_be 2 <$> g)) = g.
Proof.
  intros <-. induction 1 as [|x g Hx _ IH]; [done|].
  change (length (x :: g)) with (S (length g)).
  change (concat (to_be 2 <$> x :: g)) with (to_be 2 x ++ concat (to_be 2 <$> g)).
  cbn [groups_of_bytes].
  rewrite take_app_exact, drop_app_exact, IH by apply length_to_be.
  rewrite from_to_be; [done|]. change (256 ^ Z.of_nat 2)%Z with 65536%Z. lia.
Qed.

Lemma length_ip_bytes ip : wf_ip ip -> length (ip_bytes ip) = match ip with V4 _ => 4 | V6 _ => 16 end.
Proof.
  destruct ip as [o|g]; intros [Hl _]; cbn [ip_bytes]; [by rewrite length_fmap|].
  change 16 with (2 * 8). rewrite <- Hl. clear Hl. induction g as [|x g IH]; [done|].
  change (concat (to_be 2 <$> x :: g)) with (to_be 2 x ++ concat (to_be 2 <$> g)).
  rewrite length_app, IH, length_to_be. simpl. lia.
Qed.

Lemma parse_v2_payload_spec src dst tlvs :
  wf_ip src.1 -> wf_ip dst.1 -> same_family src.1 dst.1 -> (0 <= src.2 < 65536)%Z ->
  parse_proxy_v2_payload (ip_family src.1) (v2_payload src dst tlvs) = Ok (Some src).
Proof.
  destruct src as [sip sp], dst as [dip dp]. cbn [fst snd]. intros Hs Hd Hf Hp.
  pose proof (length_ip_bytes _ Hs) as Ls. pose proof (length_ip_bytes _ Hd) as Ld.
  assert (HL : length (ip_bytes sip ++ ip_bytes dip) = match sip with V4 _ => 8 | V6 _ => 32 end).
  { rewrite length_app, Ls, Ld. by destruct sip, dip. }
  assert (HP : from_be (take 2 (drop (match sip with V4 _ => 8 | V6 _ => 32 end) (v2_payload (sip, sp) (dip, dp) tlvs))) = sp).
  { unfold v2_payload. cbn [fst snd]. rewrite (app_assoc (ip_bytes sip)), (drop_app_exact _ _ _ HL).
    rewrite take_app_exact by apply length_to_be. apply from_to_be.
    change (256 ^ Z.of_nat 2)%Z with 65536%Z. lia. }
  assert (HT : (match sip with V4 _ => 12 | V6 _ => 36 end <= length (v2_payload (sip, sp) (dip, dp) tlvs))%nat).
  { unfold v2_payload. cbn [fst snd]. rewrite (app_assoc (ip_bytes sip)), !length_app, !length_to_be.
    rewrite length_app in HL. destruct sip; lia. }
  destruct sip as [o|g]; unfold parse_proxy_v2_payload; cbn [ip_family].
  - change (Z.land 17 240) with 16%Z. change (Z.land 17 15) with 1%Z. cbn [Z.eqb negb Pos.eqb].
    destruct (Nat.ltb_spec (length (v2_payload (V4 o, sp) (dip, dp) tlvs)) 12); [lia|].
    rewrite HP. do 3 f_equal. f_equal. destruct Hs as [Hl Ho].
    do 4 (destruct o as [|? o]; [done|]). destruct o; [|done].
    apply byte_of_of_byte_list in Ho. cbn in Ho. injection Ho as H0 H1 H2 H3.
    unfold byte_at, v2_payload. cbn. by rewrite H0, H1, H2, H3.
  - change (Z.land 33 240) with 32%Z. change (Z.land 33 15) with 1%Z. cbn [Z.eqb negb Pos.eqb].
    destruct (Nat.ltb_spec (length (v2_payload (V6 g, sp) (dip, dp) tlvs)) 36); [lia|].
    rewrite HP. do 3 f_equal. f_equal. unfold v2_payload. cbn [fst snd].
    rewrite take_app_exact by done. destruct Hs as [Hl Hg]. by apply groups_of_bytes_spec.
Qed.

(** A version 2 header round-trips: for well-formed addresses of one family and
    any extensions that fit in the 16-bit length, reading what a proxy sends returns
    exactly the client's address and port, and leaves on the connection exactly the
    bytes that follow the header. *)
Lemma v2_header_round_trip src dst tlvs rest :
  wf_ip src.1 -> wf_ip dst.1 -> same_family src.1 dst.1 -> (0 <= src.2 < 65536)%Z ->
  (Z.of_nat (length (v2_payload src dst tlvs)) < 65536)%Z ->
  read_proxy_protocol_header (encode_v2 src dst tlvs ++ rest) = (Ok (Some src), rest).
Proof.
  intros Hs Hd Hf Hp Hlen. unfold read_proxy_protocol_header, encode_v2.
  rewrite <- app_assoc, read_exact_app by done.
  unfold str_eqb. rewrite bool_decide_eq_true_2 by done.
  unfold read_proxy_v2_header. rewrite <- !app_assoc.
  set (len := to_be 2 (Z.of_nat (length (v2_payload src dst tlvs)))).
  rewrite (app_assoc [_; _]), read_exact_app
    by (rewrite length_app; unfold len; by rewrite length_to_be).
  rewrite !byte_at_app by (simpl; lia).
  change (byte_at [of_byte 33; of_byte (ip_family src.1)] 0) with 33%Z.
  change (Z.land 33 240 =? 32)%Z with true. change (Z.land 33 15) with 1%Z. cbn [negb].
  rewrite drop_app_exact by done. unfold len. rewrite from_to_be, Nat2Z.id
    by (change (256 ^ Z.of_nat 2)%Z with 65536%Z; lia).
  rewrite read_exact_app by done. cbn [Z.eqb Pos.eqb]. f_equal.
  assert (byte_at [of_byte 33; of_byte (ip_family src.1)] 1 = ip_family src.1) as ->
    by (by destruct src as [[] ?]).
  by apply parse_v2_payload_spec.
Qed.

(** ** How much of the connection the header takes *)

(** The line loop stops at the first CRLF, within the limit. *)
Definition first_line (line u : str) : Prop :=
  ends_with (line ++ u) CRLF = true
  /\ forall n, (n < length u)%nat -> ends_with (line ++ take n u) CRLF = false.

Lemma read_v1_line_spec fuel line s r rest :
  read_v1_line fuel line s = (r, rest) -> (length line <= V1_MAX_LEN)%nat ->
  exists u, s = u ++ rest /\ (length (line ++ u) <= V1_MAX_LEN)%nat
    /\ forall l, r = Ok l -> l = line ++ u /\ first_line line u
         /\ forall rest', read_v1_line fuel line (u ++ rest') = (Ok l, rest').
Proof.
  revert line s. induction fuel as [|fuel IH]; intros line s; cbn [read_v1_line].
  - destruct (ends_with line CRLF) eqn:He; intros [= <- <-] Hl; exists []; rewrite app_nil_r;
      (split_and!; [done..|]); [|done].
    intros l [= <-]. split_and!; [done| |done]. split; [by rewrite app_nil_r|simpl; lia].
  - destruct (ends_with line CRLF) eqn:He; [|destruct (Nat.leb_spec V1_MAX_LEN (length line))].
    + intros [= <- <-] Hl. exists []. rewrite app_nil_r. split_and!; [done..|].
      intros l [= <-]. split_and!; [done| |done]. split; [by rewrite app_nil_r|simpl; lia].
    + intros [= <- <-] Hl. exists []. rewrite app_nil_r. done.
    + destruct (read_exact 1 s) as [[b s']|] eqn:Hr.
      * intros E Hl. apply read_exact_Some in Hr as [-> Hb].
        destruct (IH _ _ E) as (u & -> & Hu & Hok); [rewrite length_app; lia|].
        destruct b as [|b [|]]; [done| |done].
        exists (b :: u). replace (line ++ b :: u) with ((line ++ [b]) ++ u) by (by rewrite <- app_assoc).
        split_and!; [done|done|]. intros l ->. destruct (Hok l eq_refl) as (-> & [Hf1 Hf2] & Hext).
        split_and!; [done| |].
        -- split; [by rewrite <- app_assoc in Hf1|]. intros [|n] Hn; [by rewrite take_0, app_nil_r|].
           simpl in Hn. specialize (Hf2 n ltac:(lia)). by rewrite <- app_assoc in Hf2.
        -- intros rest'. simpl. rewrite take_0, drop_0. apply Hext.
      * intros [= <- <-] Hl. exists s. rewrite app_nil_r, length_app.
        unfold read_exact in Hr. destruct (Nat.ltb_spec (length s) 1); [|done].
        split_and!; [done|lia|done].
Qed.

(** The words of an accepted version 1 line. *)
Definition v1_words (line : str) (addr : ProxyProtocolResult) : Prop :=
  match addr with
  | None => exists words, split_whitespace line = bs "PROXY" :: bs "UNKNOWN" :: words
  | Some (ip, port) =>
      exists sip dip sport dport,
        split_whitespace line
          = [bs "PROXY"; match ip with V4 _ => bs "TCP4" | V6 _ => bs "TCP6" end; sip; dip; sport; dport]
        /\ parse_ip sip = Some ip /\ parse_u16 sport = Some port
  end.

Lemma parse_proxy_v1_line_spec line addr :
  parse_proxy_v1_line line = Ok addr -> v1_words line addr.
Proof.
  unfold parse_proxy_v1_line, next_field, ok_or, str_eqb. intros E. unfold v1_words.
  destruct (split_whitespace line) as [|p parts]; [done|].
  case_bool_decide; [subst p; cbn [negb] in E|done].
  destruct parts as [|protocol parts]; [done|]. case_bool_decide; [simplify_eq; by eexists|].
  do 4 (destruct parts as [|? parts]; [done|]). destruct parts; [|done].
  break_all; do 4 eexists; split_and!; done.
Qed.

(** What a header that was read consists of. *)
Definition v2_shape (used : str) : Prop :=
  starts_with used V2_SIGNATURE = true
  /\ Z.of_nat (length used) = (16 + from_be (take 2 (drop 14 used)))%Z.

Definition v1_shape (used : str) (addr : ProxyProtocolResult) : Prop :=
  starts_with used V1_PREFIX = true
  /\ first_line (take 12 used) (drop 12 used)
  /\ utf8_valid used = true
  /\ v1_words (trim_end_str (length used) CRLF used) addr.


Lemma v1_header_framing prefix s' :
  length prefix = 12 -> prefix <> V2_SIGNATURE -> starts_with prefix V1_PREFIX = true ->
  let '(r, rest) := read_proxy_v1_header prefix s' in
  exists used, prefix ++ s' = used ++ rest
    /\ (Z.of_nat (length used) <= if starts_with (prefix ++ s') V2_SIGNATURE then 16 + 65535 else 108)%Z
    /\ forall addr, r = Ok addr ->
         (forall rest', read_proxy_protocol_header (used ++ rest') = (Ok addr, rest'))
         /\ (v2_shape used \/ v1_shape used addr).
Proof.
  intros Hlen Hne H1. unfold read_proxy_v1_header.
  destruct (read_v1_line V1_MAX_LEN prefix s') as [r rest] eqn:E.
  destruct (read_v1_line_spec _ _ _ _ _ E) as (u & -> & Hu & Hok); [rewrite Hlen; unfold V1_MAX_LEN; lia|].
  assert (Hbound : forall b : bool, (Z.of_nat (length (prefix ++ u)) <= if b then 16 + 65535 else 108)%Z).
  { unfold V1_MAX_LEN in Hu. intros []; lia. }
  destruct r as [line|e].
  2:{ exists (prefix ++ u). rewrite <- app_assoc. split_and!; [done|apply Hbound|done]. }
  destruct (Hok line eq_refl) as (-> & Hfirst & Hext). clear Hok.
  destruct (utf8_valid (prefix ++ u)) eqn:Hutf; exists (prefix ++ u); rewrite <- app_assoc;
    (split_and!; [done|apply Hbound|]); [|done].
  intros addr Haddr. split.
  - intros rest'. unfold read_proxy_protocol_header. rewrite <- app_assoc, read_exact_app by done.
    unfold str_eqb. rewrite bool_decide_eq_false_2 by done. rewrite H1. cbn [negb].
    unfold read_proxy_v1_header. rewrite Hext, Hutf. by rewrite Haddr.
  - right. apply starts_with_iff in H1 as [q ->]. split_and!.
    + apply starts_with_iff. exists (q ++ u). by rewrite app_assoc.
    + by rewrite take_app_exact, drop_app_exact.
    + done.
    + by apply parse_proxy_v1_line_spec.
Qed.

Lemma v2_header_framing s' :
  let '(r, rest) := read_proxy_v2_header s' in
  exists used, V2_SIGNATURE ++ s' = used ++ rest
    /\ (Z.of_nat (length used) <= if starts_with (V2_SIGNATURE ++ s') V2_SIGNATURE then 16 + 65535 else 108)%Z
    /\ forall addr, r = Ok addr ->
         (forall rest', read_proxy_protocol_header (used ++ rest') = (Ok addr, rest'))
         /\ (v2_shape used \/ v1_shape used addr).
Proof.
  assert (starts_with (V2_SIGNATURE ++ s') V2_SIGNATURE = true) as -> by (apply starts_with_iff; by eexists).
  unfold read_proxy_v2_header at 1. destruct (read_exact 4 s') as [[header s1]|] eqn:Hh.
  2:{ exists (V2_SIGNATURE ++ s'). rewrite app_nil_r. split_and!; [done| |done]. unfold read_exact in Hh.
      destruct (Nat.ltb_spec (length s') 4); [|done]. rewrite length_app.
      change (length V2_SIGNATURE) with 12. lia. }
  pose proof (read_exact_Some _ _ _ _ Hh) as [-> Hlen].
  destruct (negb _) eqn:Hver.
  { exists (V2_SIGNATURE ++ header). rewrite <- app_assoc. split_and!; [done| |done].
    rewrite length_app, Hlen. change (length V2_SIGNATURE) with 12. lia. }
  pose proof (from_be_range (drop 2 header)) as Hr. rewrite length_drop, Hlen in Hr.
  change (256 ^ Z.of_nat (4 - 2))%Z with 65536%Z in Hr.
  destruct (read_exact _ s1) as [[payload s2]|] eqn:Hpl.
  2:{ exists (V2_SIGNATURE ++ header ++ s1). rewrite app_nil_r. split_and!; [done| |done].
      unfold read_exact in Hpl. destruct (Nat.ltb_spec (length s1) (Z.to_nat (from_be (drop 2 header)))); [|done].
      rewrite !length_app, Hlen. change (length V2_SIGNATURE) with 12. lia. }
  pose proof (read_exact_Some _ _ _ _ Hpl) as [-> Hplen].
  set (out := if (Z.land (byte_at header 0) 15 =? 0)%Z then _ else _).
  assert (Hout : out = (out.1, s2)) by (unfold out; by repeat case_match).
  rewrite Hout. exists (V2_SIGNATURE ++ header ++ payload). rewrite <- !app_assoc.
  split_and!; [done|rewrite !length_app, Hlen, Hplen; change (length V2_SIGNATURE) with 12; lia|].
  intros addr Haddr. split.
  - intros rest'. unfold read_proxy_protocol_header. rewrite <- !app_assoc, read_exact_app by done.
    unfold str_eqb. rewrite bool_decide_eq_true_2 by done. unfold read_proxy_v2_header.
    rewrite read_exact_app by done. rewrite Hver, (read_exact_app _ payload) by done.
    unfold out in Haddr. repeat case_match; simplify_eq/=; by rewrite ?Haddr.
  - left. split; [apply starts_with_iff; by eexists|].
    rewrite !length_app, Hlen, Hplen. change (length V2_SIGNATURE) with 12.
    change 14 with (12 + 2). rewrite <- drop_drop, (drop_app_exact 12) by done.
    rewrite drop_app_le, take_app_exact by (rewrite ?length_drop; lia). lia.
Qed.

(** What the parser consumes, and what an accepted header looks like. *)
Lemma header_framing s :
  let '(r, rest) := read_proxy_protocol_header s in
  exists used, s = used ++ rest
    /\ (Z.of_nat (length used) <= if starts_with s V2_SIGNATURE then 16 + 65535 else 108)%Z
    /\ forall addr, r = Ok addr ->
         (forall rest', read_proxy_protocol_header (used ++ rest') = (Ok addr, rest'))
         /\ (v2_shape used \/ v1_shape used addr).
Proof.
  unfold read_proxy_protocol_header at 1. destruct (read_exact 12 s) as [[prefix s']|] eqn:Hp.
  2:{ exists s. rewrite app_nil_r. split_and!; [done| |done]. unfold read_exact in Hp.
      destruct (Nat.ltb_spec (length s) 12); [|done]. destruct (starts_with _ _); lia. }
  pose proof (read_exact_Some _ _ _ _ Hp) as [-> Hlen].
  unfold str_eqb. case_bool_decide as Hv2; [subst prefix; apply v2_header_framing|].
  destruct (starts_with prefix V1_PREFIX) eqn:H1; cbn [negb].
  - by apply v1_header_framing.
  - exists prefix. split_and!; [done| |done]. rewrite Hlen. by destruct (starts_with (prefix ++ _) _).
Qed.

(** C16: the header parser takes exactly the header, and reads it right.  Whatever the peer
    sends, what is consumed is a prefix of it, of at most 108 bytes unless it is a version
    2 header and at most 16 + 65535 then.  When a header is accepted the result depends on
    those bytes only (replacing what follows changes nothing and is left untouched), and
    they are either a version 2 signature and header with as many payload bytes as it
    announces, or a version 1 line: it starts with [PROXY ], ends at the first CRLF after
    its first twelve bytes, is UTF-8, and consists of [PROXY UNKNOWN] or of six words whose
    protocol is TCP4 exactly for an IPv4 source and TCP6 exactly for an IPv6 source.
    Conversely a version 2 header round-trips: for well-formed addresses of one family and
    any extensions that fit in the 16-bit length, reading what a proxy sends returns
    exactly the client's address and port, and leaves exactly the bytes that follow. *)
Theorem proxy_header_spec s :
  (let '(r, rest) := read_proxy_protocol_header s in
   exists used, s = used ++ rest
    /\ (Z.of_nat (length used) <= if starts_with s V2_SIGNATURE then 16 + 65535 else 108)%Z
    /\ forall addr, r = Ok addr ->
         (forall rest', read_proxy_protocol_header (used ++ rest') = (Ok addr, rest'))
         /\ (v2_shape used \/ v1_shape used addr))
  /\ (forall src dst tlvs rest,
       wf_ip src.1 -> wf_ip dst.1 -> same_family src.1 dst.1 -> (0 <= src.2 < 65536)%Z ->
       (Z.of_nat (length (v2_payload src dst tlvs)) < 65536)%Z ->
       s = encode_v2 src dst tlvs ++ rest -> read_proxy_protocol_header s = (Ok (Some src), rest)).
Proof.
  split; [apply header_framing|]. intros src dst tlvs rest Hs Hd Hf Hp Hl ->.
  by apply v2_header_round_trip.
Qed.

Lemma proxy_header_spec_witness :
  read_proxy_protocol_header
    (encode_v2 (V4 [203; 0; 113; 9]%Z, 51234%Z) (V4 [10; 0; 0; 1]%Z, 443%Z) (bs "ext") ++ bs "GET /")
  = (Ok (Some (V4 [203; 0; 113; 9]%Z, 51234%Z)), bs "GET /").
Proof.
  refine (proj2 (proxy_header_spec _) _ (V4 [10; 0; 0; 1]%Z, 443%Z) (bs "ext") (bs "GET /") _ _ _ _ _ eq_refl);
    cbn [fst snd]; [| |exact I|lia|vm_compute; reflexivity];
    (split; [reflexivity|repeat constructor; lia]).
Defined.
