(* ===== verification/ImageSource.v ===== *)
(** * Image sources (tako-images/src/source.rs)

    Which paths and URLs the image optimizer may fetch: the syntax of a source, the
    address ranges that are refused, and the patterns of a configuration.  The [url]
    crate is a parameter. *)

From S2P Require Import Prelude RustStr Net Sql.

(** [ImageError] (lib.rs). *)
Inductive ImageError :=
| InvalidUrl | InvalidSource | InvalidWidth | InvalidHeight | InvalidResize | InvalidQuality
| InvalidBrowserCacheMaxAge | InvalidSignature | Expired | SourceTooLarge | UnsupportedFormat
| ImageTooLarge | TransformFailed | TransformQueueFull.

#[global] Instance ImageError_eq_dec : EqDecision ImageError.
Proof. solve_decision. Defined.

Definition IMAGE_BASE_PATH : str := bs "/_tako/image/v1".
Definition PUBLIC_IMAGE_BASE_PATH : str := bs "/_tako/image".

Inductive ImageSource := LocalPath (path : str) | RemoteUrl (url : str).

#[global] Instance ImageSource_eq_dec : EqDecision ImageSource.
Proof. solve_decision. Defined.

Definition source_as_str (s : ImageSource) : str := match s with LocalPath p | RemoteUrl p => p end.

(** ** The [url] crate *)

Inductive UrlHost := HostDomain (domain : str) | HostIpv4 (octets : list Z) | HostIpv6 (groups : list Z).

Record Url := mkUrl {
  url_scheme : str;
  url_username : str;
  url_password : option str;
  url_host : option UrlHost;
  url_host_str : option str;
  url_path : str;
  url_fragment : option str;
}.

Class UrlApi := { url_parse : str -> option Url }.

(** ** Addresses *)

(** The predicates of [std::net::Ipv4Addr] and the shared address space. *)
Definition ipv4_is_private_or_local (ip : list Z) : bool :=
  match ip with
  | [a; b; c; d] =>
      ((a =? 10) || ((a =? 172) && (16 <=? b) && (b <=? 31)) || ((a =? 192) && (b =? 168))
       || (a =? 127)
       || ((a =? 169) && (b =? 254))
       || ((224 <=? a) && (a <=? 239))
       || ((a =? 255) && (b =? 255) && (c =? 255) && (d =? 255))
       || ((a =? 0) && (b =? 0) && (c =? 0) && (d =? 0))
       || ((a =? 100) && (Z.land b 192 =? 64)))%Z
  | _ => false
  end.

(** [Ipv6Addr::to_ipv4_mapped]. *)
Definition to_ipv4_mapped (groups : list Z) : option (list Z) :=
  match groups with
  | [a; b; c; d; e; f; ab; cd] =>
      if bool_decide ([a; b; c; d; e; f] = [0; 0; 0; 0; 0; 65535]%Z)
      then Some [Z.shiftr ab 8; Z.land ab 255; Z.shiftr cd 8; Z.land cd 255] else None
  | _ => None
  end.

Definition ipv6_is_private_or_local (ip : list Z) : bool :=
  match to_ipv4_mapped ip with
  | Some mapped => ipv4_is_private_or_local mapped
  | None =>
      let first := default 0%Z (head ip) in
      bool_decide (ip = [0; 0; 0; 0; 0; 0; 0; 1]%Z)
      || bool_decide (ip = [0; 0; 0; 0; 0; 0; 0; 0]%Z)
      || (Z.land first 65280 =? 65280)%Z
      || (Z.land first 65024 =? 64512)%Z
      || (Z.land first 65472 =? 65152)%Z
  end.

Definition ip_is_private_or_local (ip : IpAddr) : bool :=
  match ip with V4 o => ipv4_is_private_or_local o | V6 g => ipv6_is_private_or_local g end.

Definition domain_is_private_or_local (domain : str) : bool :=
  let domain := to_ascii_lowercase (trim_end_matches "."%char domain) in
  bool_decide (domain = [])
  || negb (contains_char domain "."%char)
  || str_eqb domain (bs "localhost")
  || ends_with domain (bs ".localhost")
  || str_eqb domain (bs "local")
  || ends_with domain (bs ".local")
  || match parse_ip domain with Some ip => ip_is_private_or_local ip | None => false end.

Definition host_is_private_or_local (host : UrlHost) : bool :=
  match host with
  | HostDomain d => domain_is_private_or_local d
  | HostIpv4 o => ipv4_is_private_or_local o
  | HostIpv6 g => ipv6_is_private_or_local g
  end.

(** ** Sources *)

Definition MAX_SOURCE_CHARS : nat := 2048.

Definition path_has_dot_segments (path : str) : bool :=
  any (fun segment => str_eqb segment (bs ".") || str_eqb segment (bs "..")) (split "/"%char path).

Section Source.
Context {U : UrlApi}.

Definition parse_source (source : str) : result ImageSource ImageError :=
  if bool_decide (source = [])
     || (MAX_SOURCE_CHARS <? length source)%nat
     || contains_char source (of_byte 0)
     || contains_char source (of_byte 13)
     || contains_char source (of_byte 10)
     || contains_char source "#"%char
     || path_has_dot_segments source
  then Err InvalidSource
  else if starts_with source (bs "/") then
    if starts_with source (bs "//")
       || starts_with source IMAGE_BASE_PATH
       || starts_with source PUBLIC_IMAGE_BASE_PATH
    then Err InvalidSource
    else Ok (LocalPath source)
  else
    let? url := ok_or (url_parse source) InvalidSource in
    if negb (str_eqb (url_scheme url) (bs "http") || str_eqb (url_scheme url) (bs "https"))
    then Err InvalidSource
    else if negb (bool_decide (url_username url = [])) || bool_decide (is_Some (url_password url))
            || bool_decide (is_Some (url_fragment url))
    then Err InvalidSource
    else
      let? host := ok_or (url_host url) InvalidSource in
      if host_is_private_or_local host then Err InvalidSource else Ok (RemoteUrl source).

(** ** Patterns *)

Definition split_path_segments (path : str) : list str :=
  retain (fun segment => negb (bool_decide (segment = []))) (split "/"%char (trim_start_matches "/"%char path)).

Fixpoint path_segments_match (pattern path : list str) : bool :=
  match pattern with
  | [] => bool_decide (path = [])
  | segment :: rest =>
      if str_eqb segment (bs "**") then
        match rest with
        | [] => true
        | _ => any (fun index => path_segments_match rest (drop index path)) (seq 0 (S (length path)))
        end
      else if str_eqb segment (bs "*") then
        negb (bool_decide (path = [])) && path_segments_match rest (drop 1 path)
      else
        match path with
        | [] => false
        | first :: path' => str_eqb segment first && path_segments_match rest path'
        end
  end.

Definition path_pattern_matches (pattern path : str) : bool :=
  if str_eqb pattern (bs "/**") then starts_with path (bs "/")
  else path_segments_match (split_path_segments pattern) (split_path_segments path).

Definition host_pattern_matches (pattern host : str) : bool :=
  let pattern := to_ascii_lowercase (trim_end_matches "."%char pattern) in
  let host := to_ascii_lowercase (trim_end_matches "."%char host) in
  match strip_prefix (bs "*.") pattern with
  | Some suffix => ends_with host ("."%char :: suffix) && negb (str_eqb host suffix)
  | None => str_eqb pattern host
  end.

Definition normalize_remote_pattern (pattern : str) : str :=
  if contains_str pattern (bs "://") then pattern else bs "https://" ++ pattern.

Definition remote_pattern_matches (pattern source : str) : bool :=
  match url_parse (normalize_remote_pattern pattern), url_parse source with
  | Some pattern_url, Some source_url =>
      if contains_str pattern (bs "://") && negb (str_eqb (url_scheme pattern_url) (url_scheme source_url))
      then false
      else if negb (str_eqb (url_scheme source_url) (bs "http") || str_eqb (url_scheme source_url) (bs "https"))
      then false
      else
        match url_host_str pattern_url, url_host_str source_url with
        | Some pattern_host, Some source_host =>
            if negb (host_pattern_matches pattern_host source_host) then false
            else path_pattern_matches (url_path pattern_url) (url_path source_url)
        | _, _ => false
        end
  | _, _ => false
  end.

Definition validate_remote_pattern (pattern : str) : result unit ImageError :=
  let? parsed := ok_or (url_parse (normalize_remote_pattern pattern)) InvalidSource in
  if negb (str_eqb (url_scheme parsed) (bs "http")) && negb (str_eqb (url_scheme parsed) (bs "https"))
  then Err InvalidSource
  else if negb (bool_decide (url_username parsed = [])) || bool_decide (is_Some (url_password parsed))
          || bool_decide (is_Some (url_fragment parsed))
  then Err InvalidSource
  else
    let? host := ok_or (url_host_str parsed) InvalidSource in
    if bool_decide (host = []) || (contains_char host "*"%char && negb (starts_with host (bs "*.")))
    then Err InvalidSource else Ok tt.

Fixpoint validate_pattern_list (patterns : list str) (local : bool) : result unit ImageError :=
  match patterns with
  | [] => Ok tt
  | pattern :: patterns' =>
      if negb (str_eqb (trim pattern) pattern) || bool_decide (pattern = []) then Err InvalidSource
      else
        let? _ :=
          if local then
            if negb (starts_with pattern (bs "/")) || starts_with pattern (bs "//")
               || contains_char pattern "?"%char
            then Err InvalidSource else Ok tt
          else validate_remote_pattern pattern in
        validate_pattern_list patterns' local
  end.

(** The patterns of a configuration ([local_patterns] and [remote_patterns]). *)
Definition validate_public_source_allowed (source : ImageSource) (local_patterns : option (list str))
    (remote_patterns : list str) : result unit ImageError :=
  match source with
  | LocalPath path =>
      if any (fun pattern => path_pattern_matches pattern path) (default [bs "/**"] local_patterns)
      then Ok tt else Err InvalidSignature
  | RemoteUrl url =>
      if any (fun pattern => remote_pattern_matches pattern url) remote_patterns
      then Ok tt else Err InvalidSignature
  end.
End Source.

(** ** What is refused, as ranges of addresses *)

(** An address as a number. *)
Definition ip_number (ip : IpAddr) : Z :=
  match ip with
  | V4 o => fold_left (fun acc x => acc * 256 + x)%Z o 0%Z
  | V6 g => fold_left (fun acc x => acc * 65536 + x)%Z g 0%Z
  end.

Definition ip_wf (ip : IpAddr) : Prop :=
  match ip with
  | V4 o => length o = 4 /\ Forall (fun x => 0 <= x <= 255)%Z o
  | V6 g => length g = 8 /\ Forall (fun x => 0 <= x <= 65535)%Z g
  end.

Definition v4_range (lo hi : list Z) : Z * Z := (ip_number (V4 lo), ip_number (V4 hi)).
Definition v6_range (lo hi : list Z) : Z * Z := (ip_number (V6 lo), ip_number (V6 hi)).

(** Private (RFC 1918), loopback, link-local, multicast, broadcast, unspecified and
    shared (RFC 6598). *)
Definition v4_refused : list (Z * Z) :=
  [v4_range [10; 0; 0; 0] [10; 255; 255; 255]; v4_range [172; 16; 0; 0] [172; 31; 255; 255];
   v4_range [192; 168; 0; 0] [192; 168; 255; 255]; v4_range [127; 0; 0; 0] [127; 255; 255; 255];
   v4_range [169; 254; 0; 0] [169; 254; 255; 255]; v4_range [224; 0; 0; 0] [239; 255; 255; 255];
   v4_range [255; 255; 255; 255] [255; 255; 255; 255]; v4_range [0; 0; 0; 0] [0; 0; 0; 0];
   v4_range [100; 64; 0; 0] [100; 127; 255; 255]]%Z.

(** Loopback, unspecified, multicast, unique-local and link-local, and the refused IPv4
    ranges mapped to ::ffff:0:0/96. *)
Definition v6_refused : list (Z * Z) :=
  ([v6_range [0; 0; 0; 0; 0; 0; 0; 1] [0; 0; 0; 0; 0; 0; 0; 1];
    v6_range [0; 0; 0; 0; 0; 0; 0; 0] [0; 0; 0; 0; 0; 0; 0; 0];
    v6_range [65280; 0; 0; 0; 0; 0; 0; 0] [65535; 65535; 65535; 65535; 65535; 65535; 65535; 65535];
    v6_range [64512; 0; 0; 0; 0; 0; 0; 0] [65023; 65535; 65535; 65535; 65535; 65535; 65535; 65535];
    v6_range [65152; 0; 0; 0; 0; 0; 0; 0] [65215; 65535; 65535; 65535; 65535; 65535; 65535; 65535]]
   ++ ((fun '(lo, hi) => (281470681743360 + lo, 281470681743360 + hi)) <$> v4_refused))%Z.

Definition in_ranges (n : Z) (ranges : list (Z * Z)) : bool :=
  any (fun '(lo, hi) => (lo <=? n)%Z && (n <=? hi)%Z) ranges.

(** Masks of the first octet or group, by exhaustion. *)
Definition below (n : nat) : list Z := Z.of_nat <$> seq 0 n.

Lemma elem_of_below n x : (0 <= x < Z.of_nat n)%Z -> x ∈ below n.
Proof. intros H. apply list_elem_of_fmap. exists (Z.to_nat x). rewrite elem_of_seq. lia. Qed.

Lemma mask_by_exhaustion (n : nat) (p : Z -> bool) x :
  (0 <= x < Z.of_nat n)%Z -> forallb p (below n) = true -> p x = true.
Proof. intros H. rewrite forallb_forall. intros Hp. apply Hp, list_elem_of_In, elem_of_below, H. Qed.

Lemma mask_shared b : (0 <= b <= 255)%Z -> (Z.land b 192 =? 64)%Z = ((64 <=? b) && (b <=? 127))%Z.
Proof.
  intros H. apply eqb_prop. apply (mask_by_exhaustion 256
    (fun b => eqb (Z.land b 192 =? 64)%Z ((64 <=? b) && (b <=? 127))%Z)); [lia|]. vm_compute. reflexivity.
Qed.

(** The group [g] under a mask of its high bits. *)
Lemma land_high_bits k g : (0 <= k <= 16)%Z -> (0 <= g < 65536)%Z -> Z.land g (65536 - 2 ^ k) = (g / 2 ^ k * 2 ^ k)%Z.
Proof.
  intros Hk Hg. rewrite <- Z.shiftr_div_pow2, <- Z.shiftl_mul_pow2 by lia.
  replace (65536 - 2 ^ k)%Z with (Z.shiftl (Z.ones (16 - k)) k).
  2:{ rewrite Z.shiftl_mul_pow2, Z.ones_equiv by lia. change 65536%Z with (2 ^ 16)%Z.
      replace (2 ^ 16)%Z with (2 ^ (16 - k) * 2 ^ k)%Z by (rewrite <- Z.pow_add_r by lia; f_equal; lia). lia. }
  apply Z.bits_inj'. intros i Hi. rewrite Z.land_spec, !Z.shiftl_spec by lia.
  destruct (Z.ltb_spec i k) as [Hlt|Hge].
  - rewrite !(Z.testbit_neg_r _ (i - k)) by lia. apply andb_false_r.
  - rewrite Z.shiftr_spec by lia. replace (i - k + k)%Z with i by lia.
    destruct (Z.ltb_spec i 16) as [Hi2|Hi2].
    + rewrite Z.ones_spec_low by lia. apply andb_true_r.
    + rewrite Z.ones_spec_high by lia. rewrite andb_false_r. symmetry.
      destruct (Z.eq_dec g 0%Z) as [->|]; [apply Z.bits_0|]. apply Z.bits_above_log2; [lia|].
      apply Z.log2_lt_pow2; [lia|]. assert (2 ^ 16 <= 2 ^ i)%Z by (apply Z.pow_le_mono_r; lia). lia.
Qed.

Lemma v4_refused_spec o :
  ip_wf (V4 o) -> ipv4_is_private_or_local o = in_ranges (ip_number (V4 o)) v4_refused.
Proof.
  intros [Hl Hf]. destruct o as [|a [|b [|c [|d []]]]]; try done.
  rewrite !Forall_cons in Hf. destruct Hf as (Ha & Hb & Hc & Hd & _).
  unfold ipv4_is_private_or_local, in_ranges, v4_refused, v4_range, any. cbn [existsb ip_number fold_left].
  rewrite mask_shared, orb_false_r, <- !orb_assoc by done. set (n := (_ + d)%Z).
  repeat (f_equal; [unfold n; lia|]). unfold n. lia.
Qed.

Lemma any_app {A} (p : A -> bool) l k : any p (l ++ k) = any p l || any p k.
Proof. apply existsb_app. Qed.

Lemma any_false_below n :
  ~ (281470681743360 <= n <= 281474976710655)%Z ->
  any (fun '(lo, hi) => (lo <=? n)%Z && (n <=? hi)%Z)
    ((fun '(lo, hi) => (281470681743360 + lo, 281470681743360 + hi)%Z) <$> v4_refused) = false.
Proof. intros Hn. apply not_true_iff_false. unfold any. cbn. intros H. lia. Qed.

(** Numbers in base 65536. *)
Lemma groups_inj g k p q :
  length g = length k -> Forall (fun x => 0 <= x <= 65535)%Z g -> Forall (fun x => 0 <= x <= 65535)%Z k ->
  fold_left (fun acc x => acc * 65536 + x)%Z g p = fold_left (fun acc x => acc * 65536 + x)%Z k q -> g = k /\ p = q.
Proof.
  revert k p q. induction g as [|x g IH]; intros [|y k] p q Hl Fg Fk E; try done. cbn [fold_left] in E.
  inversion Fg; inversion Fk; subst. apply IH in E as [-> E]; [|simpl in Hl; lia|done|done].
  assert (p = q /\ x = y) as [-> ->] by lia. done.
Qed.

(** A range of one address. *)
Lemma range_one g k :
  ip_wf (V6 g) -> ip_wf (V6 k) ->
  bool_decide (g = k) = (let '(lo, hi) := v6_range k k in (lo <=? ip_number (V6 g))%Z && (ip_number (V6 g) <=? hi)%Z).
Proof.
  intros [Hg Fg] [Hk Fk]. unfold v6_range. destruct (bool_decide (g = k)) eqn:E.
  - apply bool_decide_eq_true in E as ->. lia.
  - apply bool_decide_eq_false in E. symmetry. apply not_true_iff_false. intros H. apply E.
    assert (Hn : ip_number (V6 g) = ip_number (V6 k)) by lia. clear H E.
    apply (groups_inj g k 0 0) in Hn; [|congruence|done|done]. apply Hn.
Qed.

Lemma v6_refused_spec g :
  ip_wf (V6 g) -> ipv6_is_private_or_local g = in_ranges (ip_number (V6 g)) v6_refused.
Proof.
  intros [Hl Hf]. destruct g as [|a [|b [|c [|d [|e [|f [|x [|y []]]]]]]]]; try done.
  rewrite !Forall_cons in Hf. destruct Hf as (Ha & Hb & Hc & Hd & He & Hff & Hx & Hy & _).
  unfold ipv6_is_private_or_local, to_ipv4_mapped. case_bool_decide as Hm.
  - simplify_eq. rewrite v4_refused_spec.
    + replace (ip_number (V4 [Z.shiftr x 8; Z.land x 255; Z.shiftr y 8; Z.land y 255]))
        with (x * 65536 + y)%Z.
      * unfold in_ranges, v6_refused, v6_range, v4_refused, v4_range, any.
        cbn [existsb ip_number fold_left fmap list_fmap app]. lia.
      * change 255%Z with (Z.ones 8). rewrite !Z.shiftr_div_pow2, !Z.land_ones by lia.
        cbn [ip_number fold_left]. pose proof (Z.div_mod x (2 ^ 8)). pose proof (Z.div_mod y (2 ^ 8)). lia.
    + change 255%Z with (Z.ones 8). rewrite !Z.shiftr_div_pow2, !Z.land_ones by lia.
      split; [done|]. pose proof (Z.mod_pos_bound x (2 ^ 8)). pose proof (Z.mod_pos_bound y (2 ^ 8)).
      pose proof (Z.div_mod x (2 ^ 8)). pose proof (Z.div_mod y (2 ^ 8)).
      repeat constructor; lia.
  - cbv zeta. cbn [head default from_option id].
    pose proof (land_high_bits 8 a ltac:(lia) ltac:(lia)) as M1. change (65536 - 2 ^ 8)%Z with 65280%Z in M1.
    pose proof (land_high_bits 9 a ltac:(lia) ltac:(lia)) as M2. change (65536 - 2 ^ 9)%Z with 65024%Z in M2.
    pose proof (land_high_bits 6 a ltac:(lia) ltac:(lia)) as M3. change (65536 - 2 ^ 6)%Z with 65472%Z in M3.
    rewrite M1, M2, M3. clear M1 M2 M3.
    assert (Hout : ~ (281470681743360 <= ip_number (V6 [a; b; c; d; e; f; x; y]) <= 281474976710655)%Z).
    { cbn [ip_number fold_left]. intros Hn. apply Hm.
      apply (groups_inj _ _ 0 0); [done|rewrite !Forall_cons; split_and!; try lia; constructor|
        rewrite !Forall_cons; split_and!; try lia; constructor|].
      cbn [fold_left].
      revert Hn. generalize ((((((0 * 65536 + a) * 65536 + b) * 65536 + c) * 65536 + d) * 65536 + e) * 65536 + f)%Z.
      lia. }
    unfold in_ranges, v6_refused. rewrite any_app, any_false_below by done. rewrite orb_false_r.
    unfold any. cbn [existsb]. rewrite orb_false_r, <- !orb_assoc. f_equal; [|f_equal; [|f_equal; [|f_equal]]].
    + apply range_one; (split; [done|]); rewrite !Forall_cons; split_and!; try lia; constructor.
    + apply range_one; (split; [done|]); rewrite !Forall_cons; split_and!; try lia; constructor.
    + unfold v6_range. cbn [ip_number fold_left]. pose proof (Z.div_mod a (2 ^ 8)). pose proof (Z.mod_pos_bound a (2 ^ 8)). lia.
    + unfold v6_range. cbn [ip_number fold_left]. pose proof (Z.div_mod a (2 ^ 9)). pose proof (Z.mod_pos_bound a (2 ^ 9)). lia.
    + unfold v6_range. cbn [ip_number fold_left]. pose proof (Z.div_mod a (2 ^ 6)). pose proof (Z.mod_pos_bound a (2 ^ 6)). lia.
Qed.

(** ** What a pattern matches *)

(** Segments against a pattern: [**] stands for any number of segments, [*] for one. *)
Inductive glob : list str -> list str -> Prop :=
| glob_nil : glob [] []
| glob_deep skipped rest path : glob rest path -> glob (bs "**" :: rest) (skipped ++ path)
| glob_one segment rest path : glob rest path -> glob (bs "*" :: rest) (segment :: path)
| glob_literal segment rest path :
    segment <> bs "**" -> segment <> bs "*" -> glob rest path -> glob (segment :: rest) (segment :: path).

Lemma glob_deep_inv rest path :
  glob (bs "**" :: rest) path -> exists i, (i <= length path)%nat /\ glob rest (drop i path).
Proof.
  inversion 1 as [|skipped ? path' Hg| |segment ? ? H1 H2]; subst; [|done].
  exists (length skipped). rewrite drop_app_length, length_app. split; [lia|done].
Qed.

Lemma path_segments_match_glob pattern path : path_segments_match pattern path = true <-> glob pattern path.
Proof.
  revert path. induction pattern as [|segment rest IH]; intros path; cbn [path_segments_match].
  { rewrite bool_decide_eq_true. split; [intros ->; constructor|by inversion 1]. }
  unfold str_eqb. case_bool_decide as Hdeep; [subst|case_bool_decide as Hone; [subst|]].
  - assert (Hany : any (fun i => path_segments_match rest (drop i path)) (seq 0 (S (length path))) = true
      <-> glob (bs "**" :: rest) path).
    { rewrite any_true. split.
      - intros (i & _ & Hm%IH). rewrite <- (take_drop i path). by constructor.
      - intros (i & Hi & Hg)%glob_deep_inv. exists i. rewrite elem_of_seq. split; [lia|]. by apply IH. }
    destruct rest; [|done]. split; [|done]. intros _. rewrite <- (app_nil_r path). repeat constructor.
  - rewrite andb_true_iff, negb_true_iff, bool_decide_eq_false. destruct path as [|x path].
    + split; [by intros [? _]|by inversion 1].
    + cbn [drop]. rewrite drop_0, IH. split; [intros [_ ?]; by constructor|].
      inversion 1; subst; done.
  - destruct path as [|x path]; [split; [done|by inversion 1]|].
    rewrite andb_true_iff, bool_decide_eq_true, IH. split.
    + intros [-> ?]. by constructor.
    + inversion 1; subst; done.
Qed.

(** ** Accepted sources *)

(** What [parse_source] promises of a local path and of a remote URL. *)
Definition safe_local (path : str) : Prop :=
  (exists rest, path = "/"%char :: rest /\ head rest <> Some "/"%char)
  /\ starts_with path PUBLIC_IMAGE_BASE_PATH = false.

Definition safe_remote {U : UrlApi} (text : str) : Prop :=
  exists url host, url_parse text = Some url /\ url_host url = Some host
    /\ (url_scheme url = bs "http" \/ url_scheme url = bs "https")
    /\ url_username url = [] /\ url_password url = None /\ url_fragment url = None
    /\ match host with
       | HostDomain d => domain_is_private_or_local d = false
       | HostIpv4 o => ip_wf (V4 o) -> in_ranges (ip_number (V4 o)) v4_refused = false
       | HostIpv6 g => ip_wf (V6 g) -> in_ranges (ip_number (V6 g)) v6_refused = false
       end.

Lemma starts_with_slash s : starts_with s (bs "/") = true -> exists rest, s = "/"%char :: rest.
Proof. by intros [r ->]%starts_with_iff; exists r. Qed.

(** What every accepted source satisfies. *)
Definition source_safe {U : UrlApi} (src : ImageSource) : Prop :=
  let text := source_as_str src in
  (0 < length text <= MAX_SOURCE_CHARS)%nat
  /\ (forall c, c ∈ [of_byte 0; of_byte 10; of_byte 13; "#"%char] -> c ∉ text)
  /\ (forall segment, segment ∈ split "/"%char text -> segment <> bs "." /\ segment <> bs "..")
  /\ match src with LocalPath path => safe_local path | RemoteUrl url => safe_remote url end.

Lemma parse_source_Ok {U : UrlApi} text src :
  parse_source text = Ok src ->
  source_as_str src = text /\ (0 < length text <= MAX_SOURCE_CHARS)%nat
  /\ (forall c, c ∈ [of_byte 0; of_byte 10; of_byte 13; "#"%char] -> c ∉ text)
  /\ (forall segment, segment ∈ split "/"%char text -> segment <> bs "." /\ segment <> bs "..")
  /\ match src with LocalPath path => safe_local path | RemoteUrl url => safe_remote url end.
Proof.
  unfold parse_source. destruct (_ || path_has_dot_segments text) eqn:E; [done|].
  rewrite !orb_false_iff in E. destruct E as ((((((E1 & E2) & E3) & E4) & E5) & E6) & E7).
  apply bool_decide_eq_false in E1. apply Nat.ltb_ge in E2. apply contains_char_false in E3, E4, E5, E6.
  assert (Hlen : (0 < length text <= MAX_SOURCE_CHARS)%nat)
    by (split; [destruct text; [done|simpl; lia]|done]).
  assert (Hch : forall c, c ∈ [of_byte 0; of_byte 10; of_byte 13; "#"%char] -> c ∉ text).
  { intros c. rewrite !elem_of_cons. intros [->|[->|[->|[->|Hc]]]]; try done. by apply elem_of_nil in Hc. }
  assert (Hseg : forall segment, segment ∈ split "/"%char text -> segment <> bs "." /\ segment <> bs "..").
  { intros segment Hs. unfold path_has_dot_segments in E7. rewrite any_false in E7.
    specialize (E7 segment Hs). unfold str_eqb in E7. rewrite orb_false_iff, !bool_decide_eq_false in E7. done. }
  destruct (starts_with text (bs "/")) eqn:Es.
  - destruct (_ || starts_with text PUBLIC_IMAGE_BASE_PATH) eqn:Eb; [done|]. intros [= <-].
    apply orb_false_iff in Eb as [Eb Ep]. apply orb_false_iff in Eb as [Eb _]. do 4 (split; [done|]).
    split; [|done]. apply starts_with_slash in Es as [rest ->]. exists rest. split; [done|].
    intros Hh. destruct rest as [|x rest]; [done|]. injection Hh as ->.
    assert (Hs : starts_with ("/"%char :: "/"%char :: rest) (bs "//") = true)
      by (apply starts_with_iff; by exists rest). congruence.
  - destruct (url_parse text) as [url|] eqn:Eu; [|done]. cbn [ok_or].
    destruct (negb (str_eqb _ _ || _)) eqn:Esch; [done|].
    destruct (_ || bool_decide (is_Some (url_fragment url))) eqn:Ecred; [done|].
    destruct (url_host url) as [host|] eqn:Eh; [|done]. cbn [ok_or].
    destruct (host_is_private_or_local host) eqn:Ep; [done|].
    intros [= <-]. do 4 (split; [done|]). exists url, host.
    rewrite !orb_false_iff in Ecred. destruct Ecred as [[Eun Epw] Efr].
    apply negb_false_iff, bool_decide_eq_true in Eun. apply bool_decide_eq_false in Epw, Efr.
    apply negb_false_iff, orb_true_iff in Esch. unfold str_eqb in Esch. rewrite !bool_decide_eq_true in Esch.
    split_and!; try done; [by apply eq_None_not_Some|by apply eq_None_not_Some|].
    destruct host; simpl in Ep; [done| |]; intros Hwf; [by rewrite <- v4_refused_spec|by rewrite <- v6_refused_spec].
Qed.

Lemma parse_source_safe {U : UrlApi} text src : parse_source text = Ok src -> source_safe src.
Proof. intros H. unfold source_safe. destruct (parse_source_Ok _ _ H) as (-> & ?). done. Qed.
