(* ===== verification/Images.v ===== *)
(** * Image requests (tako-images/src/lib.rs)

    Signed image paths, which an app hands out for any source it likes, and public image
    requests, which anyone may make within the app's configuration.  The serde codec of the
    payload, base64, HMAC, the URL parser and form decoding are parameters. *)

From S2P Require Import Prelude RustStr Net Sql Codec ImageSource.

(** [std::time::Duration]. *)
Record Duration := mkDuration { as_secs : Z; subsec_nanos : Z }.

#[global] Instance Duration_eq_dec : EqDecision Duration.
Proof. solve_decision. Defined.

Definition from_secs (s : Z) : Duration := mkDuration s 0.

Definition DEFAULT_PRIVATE_BROWSER_CACHE_MAX_AGE : Duration := from_secs 604800.
Definition MAX_PRIVATE_BROWSER_CACHE_MAX_AGE : Duration := from_secs 31536000.
Definition PUBLIC_CACHE_CONTROL : str := bs "public, max-age=31536000, immutable".
Definition PRIVATE_CACHE_CONTROL : str := bs "private, max-age=604800".

Definition ALLOWED_DIMENSIONS : list Z :=
  [16; 32; 48; 64; 96; 128; 256; 320; 384; 640; 750; 828; 960; 1080; 1200; 1920; 2048; 3840]%Z.
Definition DEFAULT_WIDTH : Z := 1200.
Definition DEFAULT_QUALITY : Z := 75.

Inductive ImageVisibility := Public | Private.
Inductive OutputFormat := Avif | Webp.
Inductive ImageFit := Cover | Contain.
Inductive ImageCrop := Center | Smart.

#[global] Instance ImageVisibility_eq_dec : EqDecision ImageVisibility.
Proof. solve_decision. Defined.
#[global] Instance OutputFormat_eq_dec : EqDecision OutputFormat.
Proof. solve_decision. Defined.
#[global] Instance ImageFit_eq_dec : EqDecision ImageFit.
Proof. solve_decision. Defined.
#[global] Instance ImageCrop_eq_dec : EqDecision ImageCrop.
Proof. solve_decision. Defined.

Record ImageUrlOptions := mkOptions {
  opt_source : str;
  opt_format : OutputFormat;
  opt_width : option Z;
  opt_height : option Z;
  opt_fit : option ImageFit;
  opt_crop : option ImageCrop;
  opt_quality : Z;
  opt_visibility : ImageVisibility;
  opt_expires_at : option Z;
  opt_max_age : option Duration;
}.

Record VerifiedImageRequest := mkRequest {
  req_source : ImageSource;
  req_format : OutputFormat;
  req_vary_accept : bool;
  req_width : Z;
  req_height : option Z;
  req_fit : option ImageFit;
  req_crop : option ImageCrop;
  req_quality : Z;
  req_visibility : ImageVisibility;
  req_expires_at : option Z;
  req_max_age : option Duration;
}.

Record ImagesConfig := mkImagesConfig {
  local_patterns : option (list str);
  remote_patterns : list str;
  sizes : list Z;
  qualities : list Z;
  formats : list OutputFormat;
}.

Definition ImagesConfig_default : ImagesConfig :=
  mkImagesConfig None [] [320; 640; 960; 1200; 1920]%Z [75]%Z [Webp].

Record NormalizedResize := mkResize {
  rs_width : Z;
  rs_height : option Z;
  rs_fit : option ImageFit;
  rs_crop : option ImageCrop;
}.

Record ImagePayload := mkImagePayload {
  pl_public : option bool;
  pl_format : option str;
  pl_width : option Z;
  pl_height : option Z;
  pl_fit : option str;
  pl_crop : option str;
  pl_quality : option Z;
  pl_max_age_secs : option Z;
  pl_expires_at : option Z;
  pl_source : str;
}.

Record ParsedPath := mkParsedPath {
  pp_encoded_payload : str;
  pp_source : str;
  pp_format : OutputFormat;
  pp_width : Z;
  pp_height : option Z;
  pp_fit : option ImageFit;
  pp_crop : option ImageCrop;
  pp_quality : Z;
  pp_visibility : ImageVisibility;
  pp_expires_at : option Z;
  pp_max_age : option Duration;
  pp_signature : str;
}.

Record PublicQuery := mkPublicQuery {
  q_source : str;
  q_width : str;
  q_quality : option str;
  q_format : option str;
}.

(** ** Other crates *)

(** serde_json on payloads. *)
Class PayloadJson := {
  payload_to_vec : ImagePayload -> option str;
  payload_from_slice : str -> option ImagePayload;
}.

Class PayloadLaws (P : PayloadJson) := {
  payload_read_back p t : payload_to_vec p = Some t -> payload_from_slice t = Some p;
  payload_not_empty p t : payload_to_vec p = Some t -> t <> [];
}.

(** The tag of HMAC-SHA-256 is not empty. *)
Class HmacLaws (M : HmacApi) := { hmac_length k m : length (hmac_sha256 k m) = 32 }.

(** [url::form_urlencoded::parse]. *)
Class FormApi := { form_parse : str -> list (str * str) }.

(** ** Names of the variants *)

Definition parse_payload_override (value : str) : result OutputFormat ImageError :=
  if str_eqb value (bs "avif") then Ok Avif else Err UnsupportedFormat.

Definition content_type (f : OutputFormat) : str :=
  match f with Avif => bs "image/avif" | Webp => bs "image/webp" end.

Definition format_payload_value (f : OutputFormat) : str := match f with Avif => bs "avif" | Webp => bs "webp" end.

Definition parse_fit (value : str) : result ImageFit ImageError :=
  if str_eqb value (bs "cover") then Ok Cover
  else if str_eqb value (bs "contain") then Ok Contain else Err InvalidResize.

Definition fit_payload_value (f : ImageFit) : str := match f with Cover => bs "cover" | Contain => bs "contain" end.

Definition parse_crop (value : str) : result ImageCrop ImageError :=
  if str_eqb value (bs "center") then Ok Center
  else if str_eqb value (bs "smart") then Ok Smart else Err InvalidResize.

Definition crop_payload_value (c : ImageCrop) : str := match c with Center => bs "center" | Smart => bs "smart" end.

(** ** Validation *)

Definition contains_Z (l : list Z) (x : Z) : bool := any (Z.eqb x) l.

Definition validate_width (width : Z) : result unit ImageError :=
  if contains_Z ALLOWED_DIMENSIONS width then Ok tt else Err InvalidWidth.

Definition validate_height (height : Z) : result unit ImageError :=
  if contains_Z ALLOWED_DIMENSIONS height then Ok tt else Err InvalidHeight.

Definition validate_quality (quality : Z) : result unit ImageError :=
  if ((1 <=? quality) && (quality <=? 100))%Z then Ok tt else Err InvalidQuality.

Definition validate_private_browser_cache_max_age (max_age : Duration) : result unit ImageError :=
  if ((as_secs max_age =? 0) && (subsec_nanos max_age =? 0)
      || (as_secs MAX_PRIVATE_BROWSER_CACHE_MAX_AGE <? as_secs max_age)
      || negb (subsec_nanos max_age =? 0))%Z
  then Err InvalidBrowserCacheMaxAge else Ok tt.

Definition browser_cache_duration_from_payload_seconds (seconds : Z) : result Duration ImageError :=
  let? _ := validate_private_browser_cache_max_age (from_secs seconds) in Ok (from_secs seconds).

Definition normalize_resize (width height : option Z) (fit : option ImageFit) (crop : option ImageCrop)
    : result NormalizedResize ImageError :=
  let? width :=
    match width with
    | Some width => let? _ := validate_width width in Ok width
    | None => if bool_decide (is_Some height) then Err InvalidResize else Ok DEFAULT_WIDTH
    end in
  match height with
  | None =>
      if bool_decide (is_Some fit) || bool_decide (is_Some crop) then Err InvalidResize
      else Ok (mkResize width None None None)
  | Some height =>
      let? _ := validate_height height in
      let fit := default Cover fit in
      let? crop :=
        match fit with
        | Cover => Ok (Some (default Center crop))
        | Contain => if bool_decide (is_Some crop) then Err InvalidResize else Ok None
        end in
      Ok (mkResize width (Some height) (Some fit) crop)
  end.

(** [zip], [^] and [|=]. *)
Definition constant_time_eq (left right : str) : bool :=
  if negb (length left =? length right)%nat then false
  else
    (fold_left (fun diff '(a, b) => Z.lor diff (Z.lxor (byte_of a) (byte_of b))) (zip left right) 0 =? 0)%Z.

Section Images.
Context {U : UrlApi} {B : Base64Api} {M : HmacApi} {P : PayloadJson} {F : FormApi}.

Definition validate_config (c : ImagesConfig) : result unit ImageError :=
  let? _ := validate_pattern_list (default [bs "/**"] (local_patterns c)) true in
  let? _ := validate_pattern_list (remote_patterns c) false in
  if bool_decide (sizes c = []) || contains_Z (sizes c) 0 then Err InvalidWidth
  else if bool_decide (qualities c = []) || any (fun q => negb ((1 <=? q) && (q <=? 100))%Z) (qualities c)
  then Err InvalidQuality
  else if bool_decide (formats c = []) then Err UnsupportedFormat
  else Ok tt.

Definition encode_payload (payload : ImagePayload) : result str ImageError :=
  let? bytes := ok_or (payload_to_vec payload) InvalidUrl in Ok (b64_encode bytes).

Definition decode_payload (encoded_payload : str) : result ImagePayload ImageError :=
  let? bytes := ok_or (b64_decode encoded_payload) InvalidUrl in
  ok_or (payload_from_slice bytes) InvalidUrl.

(** HMAC takes a key of any length. *)
Definition signature (secret encoded_payload : str) : result str ImageError :=
  if bool_decide (secret = []) then Err InvalidSignature
  else Ok (b64_encode (hmac_sha256 secret (bs "v1" ++ of_byte 10 :: encoded_payload))).

(** ** Signed paths *)

(** The payload [sign_image_path] writes: what is the default is left out. *)
Definition payload_of (options : ImageUrlOptions) (resize : NormalizedResize) (source : ImageSource)
    (expires_at : option Z) (max_age : option Duration) : ImagePayload :=
  mkImagePayload
    (if decide (opt_visibility options = Public) then Some true else None)
    (if decide (opt_format options <> Webp) then Some (format_payload_value (opt_format options)) else None)
    (if negb (rs_width resize =? DEFAULT_WIDTH)%Z || bool_decide (is_Some (rs_height resize))
     then Some (rs_width resize) else None)
    (rs_height resize)
    (match rs_fit resize with
     | Some fit => if decide (fit <> Cover) then Some (fit_payload_value fit) else None
     | None => None end)
    (match rs_crop resize with
     | Some crop => if decide (crop <> Center) then Some (crop_payload_value crop) else None
     | None => None end)
    (if negb (opt_quality options =? DEFAULT_QUALITY)%Z then Some (opt_quality options) else None)
    (match max_age with
     | Some a => if decide (a <> DEFAULT_PRIVATE_BROWSER_CACHE_MAX_AGE) then Some (as_secs a) else None
     | None => None end)
    expires_at
    (source_as_str source).

(** The lifetime of a signed path by its visibility. *)
Definition lifetime_of (options : ImageUrlOptions) : result (option Z * option Duration) ImageError :=
  match opt_visibility options with
  | Public =>
      if bool_decide (is_Some (opt_expires_at options)) then Err InvalidUrl
      else if bool_decide (is_Some (opt_max_age options)) then Err InvalidBrowserCacheMaxAge
      else Ok (None, None)
  | Private =>
      let max_age := default DEFAULT_PRIVATE_BROWSER_CACHE_MAX_AGE (opt_max_age options) in
      let? _ := validate_private_browser_cache_max_age max_age in
      let? expires := ok_or (opt_expires_at options) InvalidUrl in
      Ok (Some expires, Some max_age)
  end.

Definition sign_image_path (secret : str) (options : ImageUrlOptions) : result str ImageError :=
  let? _ := validate_quality (opt_quality options) in
  let? resize := normalize_resize (opt_width options) (opt_height options) (opt_fit options) (opt_crop options) in
  let? source := parse_source (opt_source options) in
  let? (expires_at, max_age) := lifetime_of options in
  let? encoded_payload := encode_payload (payload_of options resize source expires_at max_age) in
  let? tag := signature secret encoded_payload in
  Ok (IMAGE_BASE_PATH ++ "/"%char :: encoded_payload ++ "."%char :: tag).

(** The lifetime a payload states. *)
Definition payload_lifetime (payload : ImagePayload) (visibility : ImageVisibility)
    : result (option Z * option Duration) ImageError :=
  match visibility with
  | Public =>
      if bool_decide (is_Some (pl_expires_at payload)) then Err InvalidUrl
      else if bool_decide (is_Some (pl_max_age_secs payload)) then Err InvalidBrowserCacheMaxAge
      else Ok (None, None)
  | Private =>
      let? max_age := browser_cache_duration_from_payload_seconds
        (default (as_secs DEFAULT_PRIVATE_BROWSER_CACHE_MAX_AGE) (pl_max_age_secs payload)) in
      let? expires := ok_or (pl_expires_at payload) InvalidUrl in
      Ok (Some expires, Some max_age)
  end.

Definition parse_path (path : str) : result ParsedPath ImageError :=
  let? token := ok_or (match strip_prefix IMAGE_BASE_PATH path with
                       | Some rest => strip_prefix (bs "/") rest
                       | None => None end) InvalidUrl in
  if bool_decide (token = []) || contains_char token "/"%char then Err InvalidUrl
  else
    let? (encoded_payload, tag) := ok_or (split_once "."%char token) InvalidUrl in
    if bool_decide (encoded_payload = []) || bool_decide (tag = []) || contains_char tag "."%char
    then Err InvalidSignature
    else
      let? payload := decode_payload encoded_payload in
      let? visibility := match pl_public payload with
                         | None => Ok Private
                         | Some true => Ok Public
                         | Some false => Err InvalidUrl
                         end in
      let? (expires_at, max_age) := payload_lifetime payload visibility in
      let? format := transpose (parse_payload_override <$> pl_format payload) in
      let? fit := transpose (parse_fit <$> pl_fit payload) in
      let? crop := transpose (parse_crop <$> pl_crop payload) in
      let? resize := normalize_resize (pl_width payload) (pl_height payload) fit crop in
      Ok (mkParsedPath encoded_payload (pl_source payload) (default Webp format) (rs_width resize)
            (rs_height resize) (rs_fit resize) (rs_crop resize) (default DEFAULT_QUALITY (pl_quality payload))
            visibility expires_at max_age tag).

Definition verify_image_path (secret path : str) (now_unix_secs : Z) : result VerifiedImageRequest ImageError :=
  let? parts := parse_path path in
  let? _ := validate_width (pp_width parts) in
  let? _ := match pp_height parts with Some height => validate_height height | None => Ok tt end in
  let? _ := validate_quality (pp_quality parts) in
  let? expected := signature secret (pp_encoded_payload parts) in
  if negb (constant_time_eq expected (pp_signature parts)) then Err InvalidSignature
  else if match pp_expires_at parts with Some e => (e <? now_unix_secs)%Z | None => false end then Err Expired
  else
    let? source := parse_source (pp_source parts) in
    Ok (mkRequest source (pp_format parts) false (pp_width parts) (pp_height parts) (pp_fit parts)
          (pp_crop parts) (pp_quality parts) (pp_visibility parts) (pp_expires_at parts) (pp_max_age parts)).

(** ** Public requests *)

(** The loop over the pairs of the query. *)
Fixpoint query_loop (pairs : list (str * str)) (source width quality format : option str)
    : result (option str * option str * option str * option str) ImageError :=
  match pairs with
  | [] => Ok (source, width, quality, format)
  | (key, value) :: pairs' =>
      if str_eqb key (bs "src") && bool_decide (source = None) then query_loop pairs' (Some value) width quality format
      else if str_eqb key (bs "w") && bool_decide (width = None) then query_loop pairs' source (Some value) quality format
      else if str_eqb key (bs "q") && bool_decide (quality = None) then query_loop pairs' source width (Some value) format
      else if str_eqb key (bs "f") && bool_decide (format = None) then query_loop pairs' source width quality (Some value)
      else Err InvalidUrl
  end.

Definition parse_public_query (query : str) : result PublicQuery ImageError :=
  let? (sw, qf) := match query_loop (form_parse query) None None None None with
                   | Ok (s, w, q, f) => Ok ((s, w), (q, f))
                   | Err e => Err e end in
  let? source := ok_or sw.1 InvalidSource in
  let? width := ok_or sw.2 InvalidWidth in
  Ok (mkPublicQuery source width qf.1 qf.2).

Definition strict (value : str) : bool :=
  negb (bool_decide (value = []) || ((1 <? length value)%nat && starts_with value (bs "0"))).

Definition parse_strict_u32 (value : str) : option Z := if strict value then parse_u32 value else None.
Definition parse_strict_u8 (value : str) : option Z := if strict value then parse_u8 value else None.

Definition parse_public_width (value : str) (config : ImagesConfig) : result Z ImageError :=
  let? width := ok_or (parse_strict_u32 value) InvalidWidth in
  if contains_Z (sizes config) width then Ok width else Err InvalidWidth.

Definition parse_public_quality (value : str) (config : ImagesConfig) : result Z ImageError :=
  let? quality := ok_or (parse_strict_u8 value) InvalidQuality in
  if contains_Z (qualities config) quality then Ok quality else Err InvalidQuality.

Definition parse_public_format (value : str) (config : ImagesConfig) : result OutputFormat ImageError :=
  let? format := if str_eqb value (bs "avif") then Ok Avif
                 else if str_eqb value (bs "webp") then Ok Webp else Err UnsupportedFormat in
  if any (fun f => bool_decide (f = format)) (formats config) then Ok format else Err UnsupportedFormat.

Definition accept_contains (accept media_type : str) : bool :=
  any (fun part => eq_ignore_ascii_case (trim part) media_type)
    (omap (fun part => head (split ";"%char part)) (split ","%char accept)).

Definition negotiate_public_format (accept : option str) (config : ImagesConfig) : result OutputFormat ImageError :=
  match match accept with
        | Some accept => find_first (fun f => accept_contains accept (content_type f)) (formats config)
        | None => None
        end with
  | Some f => Ok f
  | None => ok_or (head (formats config)) UnsupportedFormat
  end.

Definition verify_public_image_request (path : str) (query accept : option str) (config : ImagesConfig)
    : result VerifiedImageRequest ImageError :=
  if negb (str_eqb path PUBLIC_IMAGE_BASE_PATH) then Err InvalidUrl
  else
    let? _ := validate_config config in
    let? query := ok_or query InvalidUrl in
    let? params := parse_public_query query in
    let? source := parse_source (q_source params) in
    let? _ := validate_public_source_allowed source (local_patterns config) (remote_patterns config) in
    let? width := parse_public_width (q_width params) config in
    let? quality := match q_quality params with
                    | Some value => parse_public_quality value config
                    | None => Ok DEFAULT_QUALITY end in
    let? format := match q_format params with
                   | Some value => parse_public_format value config
                   | None => negotiate_public_format accept config end in
    Ok (mkRequest source format (bool_decide (q_format params = None)) width None None None quality Public None None).

Definition cache_control (visibility : ImageVisibility) (max_age : option Duration) : str :=
  match visibility with
  | Public => PUBLIC_CACHE_CONTROL
  | Private =>
      let max_age := default DEFAULT_PRIVATE_BROWSER_CACHE_MAX_AGE max_age in
      if decide (max_age = DEFAULT_PRIVATE_BROWSER_CACHE_MAX_AGE) then PRIVATE_CACHE_CONTROL
      else bs "private, max-age=" ++ show_Z (as_secs max_age)
  end.
End Images.
