(* ===== verification/ImageProps.v ===== *)
(** * Image requests: what a verified request is

    A path that [sign_image_path] wrote verifies to the request it was written for, until it
    expires; a path that verifies carries the tag of its payload; a public request stays
    within the app's configuration; and no source lies in a refused range. *)

From S2P Require Import Prelude RustStr Net Sql Codec ImageSource Images.

(** ** The comparison of tags *)

Lemma lor_fold_0 (l : list (ascii * ascii)) d :
  (0 <= d)%Z ->
  (0 <= fold_left (fun diff '(a, b) => Z.lor diff (Z.lxor (byte_of a) (byte_of b))) l d)%Z
  /\ (fold_left (fun diff '(a, b) => Z.lor diff (Z.lxor (byte_of a) (byte_of b))) l d = 0%Z
      <-> d = 0%Z /\ Forall (fun '(a, b) => a = b) l).
Proof.
  revert d. induction l as [|[a b] l IH]; intros d Hd; cbn [fold_left].
  - split; [done|]. split; [intros ->; by split|by intros [-> _]].
  - assert (Hx : (0 <= Z.lxor (byte_of a) (byte_of b))%Z).
    { apply Z.lxor_nonneg. pose proof (byte_of_range a). pose proof (byte_of_range b). lia. }
    destruct (IH (Z.lor d (Z.lxor (byte_of a) (byte_of b)))) as [H1 H2]; [by apply Z.lor_nonneg|].
    split; [done|]. rewrite H2, Z.lor_eq_0_iff, Z.lxor_eq_0_iff, Forall_cons. split.
    + intros [[? ?%byte_of_inj] ?]. done.
    + intros (? & -> & ?). done.
Qed.

Lemma constant_time_eq_spec l r : constant_time_eq l r = bool_decide (l = r).
Proof.
  unfold constant_time_eq. destruct (Nat.eqb_spec (length l) (length r)) as [Hl|Hl]; cbn [negb].
  2:{ symmetry. apply bool_decide_eq_false. by intros ->. }
  apply eq_true_iff_eq. rewrite Z.eqb_eq, bool_decide_eq_true.
  rewrite (proj2 (lor_fold_0 (zip l r) 0 ltac:(lia))). split.
  - intros [_ Hf]. revert r Hl Hf. induction l as [|a l IH]; intros [|b r] Hl Hf; try done.
    cbn [zip zip_with] in Hf. apply Forall_cons in Hf as [-> Hf]. f_equal. apply IH; [simpl in Hl; lia|done].
  - intros ->. split; [done|]. clear. induction r as [|b r IH]; [constructor|]. by constructor.
Qed.

(** ** Resizing *)

Lemma contains_Z_iff l x : contains_Z l x = true <-> x ∈ l.
Proof. unfold contains_Z. rewrite any_true. setoid_rewrite Z.eqb_eq. naive_solver. Qed.

Lemma validate_width_Ok w u : validate_width w = Ok u -> w ∈ ALLOWED_DIMENSIONS.
Proof. unfold validate_width. destruct (contains_Z _ w) eqn:E; [|done]. intros _. by apply contains_Z_iff. Qed.

Lemma validate_height_Ok h u : validate_height h = Ok u -> h ∈ ALLOWED_DIMENSIONS.
Proof. unfold validate_height. destruct (contains_Z _ h) eqn:E; [|done]. intros _. by apply contains_Z_iff. Qed.

Lemma validate_width_elem w : w ∈ ALLOWED_DIMENSIONS -> validate_width w = Ok tt.
Proof. intros H%contains_Z_iff. unfold validate_width. by rewrite H. Qed.

Lemma validate_height_elem h : h ∈ ALLOWED_DIMENSIONS -> validate_height h = Ok tt.
Proof. intros H%contains_Z_iff. unfold validate_height. by rewrite H. Qed.

(** The sizes there are. *)
Definition resize_ok (r : NormalizedResize) : Prop :=
  rs_width r ∈ ALLOWED_DIMENSIONS
  /\ match rs_height r with
     | None => rs_fit r = None /\ rs_crop r = None
     | Some h => h ∈ ALLOWED_DIMENSIONS
                 /\ (rs_fit r = Some Cover /\ is_Some (rs_crop r) \/ rs_fit r = Some Contain /\ rs_crop r = None)
     end.

Lemma normalize_resize_Ok w h f c r : normalize_resize w h f c = Ok r -> resize_ok r.
Proof.
  unfold normalize_resize. intros Hr.
  assert (Hw : exists width, width ∈ ALLOWED_DIMENSIONS /\ (match h with
    | None => if bool_decide (is_Some f) || bool_decide (is_Some c) then Err InvalidResize
        else Ok (mkResize width None None None)
    | Some height => let? _ := validate_height height in
        let fit := default Cover f in
        let? crop := match fit with
          | Cover => Ok (Some (default Center c))
          | Contain => if bool_decide (is_Some c) then Err InvalidResize else Ok None end in
        Ok (mkResize width (Some height) (Some fit) crop) end) = Ok r).
  { destruct w as [w|].
    - destruct (validate_width w) eqn:E; [|done]. exists w. split; [by eapply validate_width_Ok|done].
    - destruct (bool_decide (is_Some h)); [done|]. exists DEFAULT_WIDTH. split; [|done].
      by apply contains_Z_iff. }
  clear Hr. destruct Hw as (width & Hw & Hr). destruct h as [h|].
  - destruct (validate_height h) eqn:Eh; [|done]. apply validate_height_Ok in Eh. cbv zeta in Hr.
    destruct (default Cover f); [|destruct (bool_decide (is_Some c)); [done|]]; injection Hr as <-;
      (split; [done|]); simpl; eauto.
  - destruct (_ || _); [done|]. injection Hr as <-. by split.
Qed.

(** What is read back from a payload is what was normalized. *)
Lemma normalize_resize_payload r :
  resize_ok r ->
  let fit := match rs_fit r with Some fit => if decide (fit <> Cover) then Some fit else None | None => None end in
  let crop := match rs_crop r with Some crop => if decide (crop <> Center) then Some crop else None | None => None end in
  normalize_resize
    (if negb (rs_width r =? DEFAULT_WIDTH)%Z || bool_decide (is_Some (rs_height r)) then Some (rs_width r) else None)
    (rs_height r) fit crop = Ok r.
Proof.
  intros [Hw Hh]. destruct r as [w h f c]. cbn [rs_width rs_height rs_fit rs_crop] in *. cbv zeta.
  destruct h as [h|].
  - rewrite bool_decide_eq_true_2, orb_true_r by eauto. destruct Hh as [Hh Hf].
    unfold normalize_resize. rewrite (validate_width_elem _ Hw), (validate_height_elem _ Hh).
    destruct Hf as [[-> [[] ->]]|[-> ->]]; reflexivity.
  - destruct Hh as [-> ->]. rewrite bool_decide_eq_false_2, orb_false_r by (by intros []).
    unfold normalize_resize. destruct (Z.eqb_spec w DEFAULT_WIDTH) as [->|]; cbn [negb]; [reflexivity|].
    by rewrite (validate_width_elem _ Hw).
Qed.

Lemma format_reads_back f :
  transpose (parse_payload_override <$>
    (if decide (f <> Webp) then Some (format_payload_value f) else None))
  = Ok (if decide (f <> Webp) then Some f else None).
Proof. by destruct f. Qed.

Lemma fit_reads_back (o : option ImageFit) :
  transpose (parse_fit <$> match o with
    | Some fit => if decide (fit <> Cover) then Some (fit_payload_value fit) else None | None => None end)
  = Ok (match o with Some fit => if decide (fit <> Cover) then Some fit else None | None => None end).
Proof. by destruct o as [[]|]. Qed.

Lemma crop_reads_back (o : option ImageCrop) :
  transpose (parse_crop <$> match o with
    | Some crop => if decide (crop <> Center) then Some (crop_payload_value crop) else None | None => None end)
  = Ok (match o with Some crop => if decide (crop <> Center) then Some crop else None | None => None end).
Proof. by destruct o as [[]|]. Qed.

Lemma max_age_Ok a u :
  validate_private_browser_cache_max_age a = Ok u -> a = from_secs (as_secs a) /\ (as_secs a <= 31536000)%Z /\ as_secs a <> 0%Z.
Proof.
  unfold validate_private_browser_cache_max_age. destruct (_ || _) eqn:E; [done|]. intros _.
  destruct a as [s n]. cbn [as_secs subsec_nanos MAX_PRIVATE_BROWSER_CACHE_MAX_AGE from_secs] in *.
  assert (n = 0%Z) as -> by lia. split; [done|]. lia.
Qed.

(** The lifetime that the options of a signed path state. *)
Definition max_age_of (o : ImageUrlOptions) : option Duration :=
  match opt_visibility o with
  | Public => None
  | Private => Some (default DEFAULT_PRIVATE_BROWSER_CACHE_MAX_AGE (opt_max_age o))
  end.

Lemma lifetime_of_Ok o e a : lifetime_of o = Ok (e, a) -> e = opt_expires_at o /\ a = max_age_of o.
Proof.
  unfold lifetime_of, max_age_of. destruct (opt_visibility o).
  - destruct (opt_expires_at o); simpl; [done|]. destruct (opt_max_age o); simpl; [done|]. by intros [= <- <-].
  - destruct (validate_private_browser_cache_max_age _); [|done]. destruct (opt_expires_at o); [|done].
    by intros [= <- <-].
Qed.

Lemma lifetime_reads_back o r src e a :
  lifetime_of o = Ok (e, a) -> payload_lifetime (payload_of o r src e a) (opt_visibility o) = Ok (e, a).
Proof.
  unfold lifetime_of, payload_lifetime, payload_of. cbn [pl_expires_at pl_max_age_secs].
  destruct (opt_visibility o).
  - destruct (opt_expires_at o); simpl; [done|]. destruct (opt_max_age o); simpl; [done|]. by intros [= <- <-].
  - set (m := default DEFAULT_PRIVATE_BROWSER_CACHE_MAX_AGE (opt_max_age o)).
    destruct (validate_private_browser_cache_max_age m) as [u|] eqn:Em; [|done].
    destruct (opt_expires_at o) as [ex|]; [|done]. cbn [ok_or]. intros [= <- <-].
    destruct (max_age_Ok m u Em) as (Hm & _ & _). unfold browser_cache_duration_from_payload_seconds.
    destruct (decide (m <> DEFAULT_PRIVATE_BROWSER_CACHE_MAX_AGE)) as [Hn|Hn]; cbn [default from_option id].
    + rewrite <- Hm, Em. reflexivity.
    + assert (m = DEFAULT_PRIVATE_BROWSER_CACHE_MAX_AGE) as -> by (by apply dec_stable). reflexivity.
Qed.

Section Props.
Context {U : UrlApi} {B : Base64Api} {M : HmacApi} {P : PayloadJson} {F : FormApi}.
Context {BL : Base64Laws B} {ML : HmacLaws M} {PL : PayloadLaws P}.

(** The text of a signed path takes apart again. *)
Lemma token_fields (a b : str) :
  (let path := IMAGE_BASE_PATH ++ "/"%char :: b64_encode a ++ "."%char :: b64_encode b in
   match strip_prefix IMAGE_BASE_PATH path with Some rest => strip_prefix (bs "/") rest | None => None end)
  = Some (b64_encode a ++ "."%char :: b64_encode b)
  /\ contains_char (b64_encode a ++ "."%char :: b64_encode b) "/"%char = false
  /\ split_once "."%char (b64_encode a ++ "."%char :: b64_encode b) = Some (b64_encode a, b64_encode b)
  /\ contains_char (b64_encode b) "."%char = false.
Proof.
  assert (Hs : forall s c, url_safe c = false -> c ∉ b64_encode s) by (intros; by apply b64_no_sep).
  split_and!.
  - cbv zeta. rewrite strip_prefix_app. apply (strip_prefix_app (bs "/")).
  - apply contains_char_false. rewrite elem_of_app, elem_of_cons. intros [Hx|[Hx|Hx]]; [|done|];
      by apply Hs in Hx.
  - apply split_once_Some. split; [done|]. by apply Hs.
  - apply contains_char_false. by apply Hs.
Qed.

Lemma parse_signed o src r e a t s :
  payload_to_vec (payload_of o r src e a) = Some t -> resize_ok r -> lifetime_of o = Ok (e, a) -> s <> [] ->
  parse_path (IMAGE_BASE_PATH ++ "/"%char :: b64_encode t ++ "."%char :: b64_encode s)
  = Ok (mkParsedPath (b64_encode t) (source_as_str src) (opt_format o) (rs_width r) (rs_height r) (rs_fit r)
          (rs_crop r) (opt_quality o) (opt_visibility o) e a (b64_encode s)).
Proof.
  intros Ht Hr Hl Hs. destruct (token_fields t s) as (H1 & H2 & H3 & H4).
  unfold parse_path. cbv zeta in H1. rewrite H1. cbn [ok_or]. rewrite H2, H3. cbn [ok_or]. rewrite H4.
  rewrite (bool_decide_eq_false_2 (_ ++ _ = [])) by (by destruct (b64_encode t)). cbn [orb].
  rewrite (bool_decide_eq_false_2 (b64_encode t = []))
    by (intros Et%b64_encode_nil; by apply payload_not_empty in Ht).
  rewrite (bool_decide_eq_false_2 (b64_encode s = [])) by (by intros Es%b64_encode_nil). cbn [orb].
  unfold decode_payload. rewrite b64_decode_encode. cbn [ok_or].
  rewrite (payload_read_back _ _ Ht). cbn [ok_or].
  pose proof (lifetime_reads_back o r src e a Hl) as HL.
  pose proof (normalize_resize_payload r Hr) as HR. cbv zeta in HR.
  revert HL. set (p := payload_of o r src e a). intros HL.
  assert (Ev : (match pl_public p with None => Ok Private | Some true => Ok Public | Some false => Err InvalidUrl end
    : result ImageVisibility ImageError) = Ok (opt_visibility o)) by (unfold p; simpl; by destruct (opt_visibility o)).
  rewrite Ev. cbv beta iota. rewrite HL. cbv beta iota.
  change (pl_format p) with (if decide (opt_format o <> Webp) then Some (format_payload_value (opt_format o)) else None).
  rewrite format_reads_back. cbv beta iota.
  change (pl_fit p) with (match rs_fit r with
    | Some fit => if decide (fit <> Cover) then Some (fit_payload_value fit) else None | None => None end).
  rewrite fit_reads_back. cbv beta iota.
  change (pl_crop p) with (match rs_crop r with
    | Some crop => if decide (crop <> Center) then Some (crop_payload_value crop) else None | None => None end).
  rewrite crop_reads_back. cbv beta iota.
  change (normalize_resize (pl_width p) (pl_height p)) with
    (normalize_resize (if negb (rs_width r =? DEFAULT_WIDTH)%Z || bool_decide (is_Some (rs_height r))
       then Some (rs_width r) else None) (rs_height r)).
  rewrite HR. cbv beta iota. f_equal. f_equal.
  - by destruct (opt_format o).
  - unfold p. simpl. destruct (Z.eqb_spec (opt_quality o) DEFAULT_QUALITY) as [->|]; done.
Qed.

(** A signed image path round-trips: with the secret it was signed with it verifies to
    the source, format, normalized size, quality, visibility and lifetime it was signed for
    at every time up to its expiry, and is refused as expired after it. *)
Lemma signed_image_round_trip secret options path :
  sign_image_path secret options = Ok path ->
  exists source resize,
    parse_source (opt_source options) = Ok source
    /\ normalize_resize (opt_width options) (opt_height options) (opt_fit options) (opt_crop options) = Ok resize
    /\ forall now, verify_image_path secret path now =
         if match opt_expires_at options with Some e => (e <? now)%Z | None => false end then Err Expired
         else Ok (mkRequest source (opt_format options) false (rs_width resize) (rs_height resize) (rs_fit resize)
                    (rs_crop resize) (opt_quality options) (opt_visibility options) (opt_expires_at options)
                    (max_age_of options)).
Proof.
  unfold sign_image_path. destruct (validate_quality (opt_quality options)) as [u|] eqn:Eq; [|done].
  destruct (normalize_resize _ _ _ _) as [resize|] eqn:Er; [|done].
  destruct (parse_source (opt_source options)) as [source|] eqn:Es; [|done].
  destruct (lifetime_of options) as [[e a]|] eqn:El; [|done].
  unfold encode_payload. destruct (payload_to_vec _) as [t|] eqn:Et; [|done]. cbn [ok_or].
  unfold signature at 1. case_bool_decide as Hsec; [done|]. intros Hpath.
  assert (path = IMAGE_BASE_PATH ++ "/"%char :: b64_encode t ++ "."%char
    :: b64_encode (hmac_sha256 secret (bs "v1" ++ of_byte 10 :: b64_encode t))) as -> by congruence. clear Hpath.
  exists source, resize. split; [done|]. split; [done|]. intros now.
  pose proof (normalize_resize_Ok _ _ _ _ _ Er) as Hr. unfold verify_image_path.
  rewrite (parse_signed options source resize e a t) by
    (try done; intros Eh; pose proof (hmac_length secret (bs "v1" ++ of_byte 10 :: b64_encode t)) as Hh; by rewrite Eh in Hh).
  cbn [pp_width pp_height pp_quality pp_encoded_payload pp_signature pp_expires_at pp_source pp_format pp_fit pp_crop
    pp_visibility pp_max_age].
  rewrite (validate_width_elem _ (proj1 Hr)).
  assert (match rs_height resize with Some height => validate_height height | None => Ok tt end = Ok tt) as ->.
  { destruct Hr as [_ Hr]. destruct (rs_height resize); [|done]. apply validate_height_elem, Hr. }
  rewrite Eq. unfold signature. rewrite bool_decide_eq_false_2 by done. rewrite constant_time_eq_spec, bool_decide_eq_true_2 by done.
  cbn [negb]. destruct (lifetime_of_Ok _ _ _ El) as [-> ->].
  destruct (parse_source_Ok _ _ Es) as [-> _]. rewrite Es. done.
Qed.

(** Every request that [verify_image_path] returns is well formed and authentic: the
    path carries the tag of its payload under the secret, which is not empty; the size is
    one of the allowed ones with a consistent fit and crop, the quality is in 1..100; a
    private request has an expiry that has not passed and a cache age of at most a year, a
    public one has neither; and the source is safe to fetch: no control character, fragment
    or dot segment, a local path that is not an image path, or a remote HTTP URL without
    credentials outside the private, loopback, link-local, multicast, unspecified and shared
    address ranges, also when written as an IPv4-mapped IPv6 address. *)
Lemma verified_image_is_authentic secret path now r :
  verify_image_path secret path now = Ok r ->
  (exists payload, secret <> []
     /\ path = IMAGE_BASE_PATH ++ "/"%char :: payload ++ "."%char
               :: b64_encode (hmac_sha256 secret (bs "v1" ++ of_byte 10 :: payload)))
  /\ resize_ok (mkResize (req_width r) (req_height r) (req_fit r) (req_crop r))
  /\ (1 <= req_quality r <= 100)%Z
  /\ match req_visibility r with
     | Public => req_expires_at r = None /\ req_max_age r = None
     | Private => exists e s, req_expires_at r = Some e /\ (now <= e)%Z
                    /\ req_max_age r = Some (from_secs s) /\ s <> 0%Z /\ (s <= 31536000)%Z
     end
  /\ source_safe (req_source r).
Proof.
  unfold verify_image_path. destruct (parse_path path) as [parts|] eqn:Ep; [|done].
  destruct (validate_width _) eqn:Ew; [|done]. 
  destruct (match pp_height parts with Some height => validate_height height | None => Ok tt end); [|done].
  destruct (validate_quality _) eqn:Eq; [|done]. unfold signature. case_bool_decide as Hsec; [done|].
  rewrite constant_time_eq_spec. case_bool_decide as Hsig; cbn [negb]; [|done].
  destruct (match pp_expires_at parts with Some e => (e <? now)%Z | None => false end) eqn:Ex; [done|].
  destruct (parse_source (pp_source parts)) as [src|] eqn:Es; [|done]. intros [= <-].
  cbn [req_width req_height req_fit req_crop req_quality req_visibility req_expires_at req_max_age req_source].
  revert Ep. unfold parse_path.
  destruct (strip_prefix IMAGE_BASE_PATH path) as [rest|] eqn:E1; [|done].
  destruct (strip_prefix (bs "/") rest) as [token|] eqn:E2; [|done]. cbn [ok_or].
  destruct (_ || contains_char token _); [done|]. destruct (split_once "."%char token) as [[enc tag]|] eqn:E3; [|done].
  cbn [ok_or]. destruct (_ || contains_char tag _); [done|]. destruct (decode_payload enc) as [payload|]; [|done].
  destruct (match pl_public payload with None => Ok Private | Some true => Ok Public | Some false => Err InvalidUrl end)
    as [vis|]; [|done].
  destruct (payload_lifetime payload vis) as [[ex0 age0]|] eqn:El; [|done].
  destruct (transpose (parse_payload_override <$> _)) as [f|]; [|done].
  destruct (transpose (parse_fit <$> _)) as [fit|]; [|done].
  destruct (transpose (parse_crop <$> _)) as [crop|]; [|done].
  destruct (normalize_resize _ _ _ _) as [rs|] eqn:Er; [|done]. intros [= <-].
  cbn [pp_encoded_payload pp_signature pp_width pp_height pp_fit pp_crop pp_quality pp_visibility pp_expires_at
    pp_max_age pp_source] in *.
  apply strip_prefix_Some in E1, E2. apply split_once_Some in E3 as [E3 _].
  split_and!.
  - exists enc. split; [done|]. by rewrite E1, E2, E3, <- Hsig.
  - apply normalize_resize_Ok in Er. by destruct rs.
  - unfold validate_quality in Eq. destruct (_ && _) eqn:Eb in Eq; [|done]. lia.
  - unfold validate_quality in Eq. destruct (_ && _) eqn:Eb in Eq; [|done]. lia.
  - unfold payload_lifetime in El. destruct vis.
    + destruct (pl_expires_at payload); simpl in El; [done|]. destruct (pl_max_age_secs payload); simpl in El; [done|].
      by injection El as <- <-.
    + unfold browser_cache_duration_from_payload_seconds in El.
      destruct (validate_private_browser_cache_max_age _) eqn:Ea in El; [|done].
      destruct (pl_expires_at payload) as [ex1|]; [|done]. cbn [ok_or] in El. injection El as <- <-.
      apply max_age_Ok in Ea as (_ & Ha & Hz). eexists _, _. split; [done|]. split; [lia|]. split; [done|]. done.
  - by eapply parse_source_safe.
Qed.

(** ** Public requests *)

Lemma path_pattern_matches_glob pattern path :
  path_pattern_matches pattern path = true -> glob (split_path_segments pattern) (split_path_segments path).
Proof.
  unfold path_pattern_matches, str_eqb. case_bool_decide as Hp; [|apply path_segments_match_glob].
  subst. intros _. change (split_path_segments (bs "/**")) with [bs "**"].
  rewrite <- (app_nil_r (split_path_segments path)). repeat constructor.
Qed.

(** The sources that the patterns of a configuration allow. *)
Definition source_allowed (c : ImagesConfig) (source : ImageSource) : Prop :=
  match source with
  | LocalPath path =>
      exists pattern, pattern ∈ default [bs "/**"] (local_patterns c)
        /\ glob (split_path_segments pattern) (split_path_segments path)
  | RemoteUrl text =>
      exists pattern p u p_host u_host, pattern ∈ remote_patterns c
        /\ url_parse (normalize_remote_pattern pattern) = Some p /\ url_parse text = Some u
        /\ url_host_str p = Some p_host /\ url_host_str u = Some u_host
        /\ host_pattern_matches p_host u_host = true
        /\ glob (split_path_segments (url_path p)) (split_path_segments (url_path u))
  end.

Lemma validate_public_source_allowed_Ok c source u :
  validate_public_source_allowed source (local_patterns c) (remote_patterns c) = Ok u -> source_allowed c source.
Proof.
  unfold validate_public_source_allowed, source_allowed. destruct source as [path|text].
  - destruct (any _ _) eqn:E; [|done]. intros _. apply any_true in E as (pattern & Hp & Hm).
    exists pattern. split; [done|]. by apply path_pattern_matches_glob.
  - destruct (any _ _) eqn:E; [|done]. intros _. apply any_true in E as (pattern & Hp & Hm).
    unfold remote_pattern_matches in Hm. destruct (url_parse (normalize_remote_pattern pattern)) as [pu|] eqn:E1; [|done].
    destruct (url_parse text) as [su|] eqn:E2; [|done]. destruct (_ && _); [done|]. destruct (negb _); [done|].
    destruct (url_host_str pu) as [ph|] eqn:E3; [|done]. destruct (url_host_str su) as [sh|] eqn:E4; [|done].
    destruct (host_pattern_matches ph sh) eqn:E5; [|done]. exists pattern, pu, su, ph, sh. split_and!; try done.
    by apply path_pattern_matches_glob.
Qed.

Lemma validate_config_Ok c u :
  validate_config c = Ok u -> 0%Z ∉ sizes c /\ (forall q, q ∈ qualities c -> (1 <= q <= 100)%Z).
Proof.
  unfold validate_config. destruct (validate_pattern_list _ true); [|done].
  destruct (validate_pattern_list _ false); [|done]. destruct (_ || _) eqn:E1; [done|].
  apply orb_false_iff in E1 as [_ E1]. destruct (_ || _) eqn:E2; [done|]. apply orb_false_iff in E2 as [_ E2].
  intros _. split; [intros Hz%contains_Z_iff; congruence|]. intros q Hq. rewrite any_false in E2.
  specialize (E2 q Hq). lia.
Qed.

Lemma parse_public_format_Ok v c f : parse_public_format v c = Ok f -> f ∈ formats c.
Proof.
  unfold parse_public_format. destruct (if str_eqb v (bs "avif") then _ else _) as [g|]; [|done].
  destruct (any _ _) eqn:E; [|done]. intros [= <-]. apply any_true in E as (x & Hx & Ex).
  apply bool_decide_eq_true in Ex. by subst.
Qed.

Lemma negotiate_public_format_Ok a c f : negotiate_public_format a c = Ok f -> f ∈ formats c.
Proof.
  unfold negotiate_public_format.
  destruct (match a with Some accept => _ | None => None end) as [g|] eqn:E.
  - intros [= <-]. destruct a as [a|]; [|done]. by apply find_first_Some in E as [_ ?].
  - destruct (formats c) as [|g l]; [done|]. intros [= <-]. left.
Qed.

(** A public image request that is accepted stays within the app's configuration: it is
    made on the public path, its width is a configured positive one, its quality is
    configured or the default 75, its format is configured, its source is safe to fetch and
    matches a pattern of the configuration segment by segment and host by host, and it is
    never private. *)
Lemma public_image_is_configured path query accept config r :
  verify_public_image_request path query accept config = Ok r ->
  path = PUBLIC_IMAGE_BASE_PATH
  /\ req_width r ∈ sizes config /\ req_width r <> 0%Z
  /\ (req_quality r ∈ qualities config \/ req_quality r = DEFAULT_QUALITY) /\ (1 <= req_quality r <= 100)%Z
  /\ req_format r ∈ formats config
  /\ source_allowed config (req_source r)
  /\ source_safe (req_source r)
  /\ req_visibility r = Public /\ req_height r = None /\ req_expires_at r = None.
Proof.
  unfold verify_public_image_request, str_eqb. case_bool_decide as Hp; cbn [negb]; [|done].
  destruct (validate_config config) as [u|] eqn:Ec; [|done]. apply validate_config_Ok in Ec as [Hz Hq].
  destruct query as [query|]; [|done]. cbn [ok_or]. destruct (parse_public_query query) as [params|]; [|done].
  destruct (parse_source (q_source params)) as [source|] eqn:Es; [|done].
  destruct (validate_public_source_allowed source _ _) as [u1|] eqn:Ea; [|done].
  apply validate_public_source_allowed_Ok in Ea.
  destruct (parse_public_width (q_width params) config) as [width|] eqn:Ew; [|done].
  assert (Hw : width ∈ sizes config).
  { revert Ew. unfold parse_public_width. destruct (parse_strict_u32 _) as [w|]; [|done]. cbn [ok_or].
    destruct (contains_Z _ w) eqn:Ew; [|done]. intros [= <-]. by apply contains_Z_iff. }
  destruct (match q_quality params with Some value => parse_public_quality value config | None => Ok DEFAULT_QUALITY end)
    as [quality|] eqn:Eq; [|done].
  assert (Hqu : quality ∈ qualities config \/ quality = DEFAULT_QUALITY).
  { destruct (q_quality params) as [v|]; [|right; congruence]. left. revert Eq. unfold parse_public_quality.
    destruct (parse_strict_u8 v) as [q|]; [|done]. cbn [ok_or].
    destruct (contains_Z _ q) eqn:Eq; [|done]. intros [= <-]. by apply contains_Z_iff. }
  destruct (match q_format params with Some value => parse_public_format value config
    | None => negotiate_public_format accept config end) as [format|] eqn:Ef; [|done].
  assert (Hf : format ∈ formats config).
  { destruct (q_format params); [by eapply parse_public_format_Ok|by eapply negotiate_public_format_Ok]. }
  intros [= <-]. cbn. apply parse_source_safe in Es.
  split_and!; try done; [by intros ->| |]; (destruct Hqu as [Hin| ->]; [apply Hq in Hin; lia|done]).
Qed.

(** C23: an image request that is accepted is authentic or configured, and safe.  A signed one
    carries the tag of its payload under the secret, which is not empty; the size is one of
    the allowed ones with a consistent fit and crop, the quality is in 1..100; a private
    request has an expiry that has not passed and a cache age of at most a year, a public one
    has neither.  A public one is made on the public path, its width is a configured positive
    one, its quality is configured or the default 75, its format is configured, its source
    matches a pattern of the configuration segment by segment and host by host, and it is
    never private.  In both cases the source is safe to fetch: no control character, fragment
    or dot segment, a local path that is not an image path, or a remote HTTP URL without
    credentials outside the private, loopback, link-local, multicast, unspecified and shared
    address ranges, also when written as an IPv4-mapped IPv6 address. *)
Theorem accepted_images_are_safe r :
  (forall secret path now, verify_image_path secret path now = Ok r ->
     (exists payload, secret <> []
        /\ path = IMAGE_BASE_PATH ++ "/"%char :: payload ++ "."%char
                  :: b64_encode (hmac_sha256 secret (bs "v1" ++ of_byte 10 :: payload)))
     /\ resize_ok (mkResize (req_width r) (req_height r) (req_fit r) (req_crop r))
     /\ (1 <= req_quality r <= 100)%Z
     /\ match req_visibility r with
        | Public => req_expires_at r = None /\ req_max_age r = None
        | Private => exists e s, req_expires_at r = Some e /\ (now <= e)%Z
                       /\ req_max_age r = Some (from_secs s) /\ s <> 0%Z /\ (s <= 31536000)%Z
        end
     /\ source_safe (req_source r))
  /\ (forall path query accept config, verify_public_image_request path query accept config = Ok r ->
     path = PUBLIC_IMAGE_BASE_PATH
     /\ req_width r ∈ sizes config /\ req_width r <> 0%Z
     /\ (req_quality r ∈ qualities config \/ req_quality r = DEFAULT_QUALITY) /\ (1 <= req_quality r <= 100)%Z
     /\ req_format r ∈ formats config
     /\ source_allowed config (req_source r)
     /\ source_safe (req_source r)
     /\ req_visibility r = Public /\ req_height r = None /\ req_expires_at r = None).
Proof.
  split.
  - intros secret path now. apply verified_image_is_authentic.
  - intros path query accept config. apply public_image_is_configured.
Qed.

End Props.

(** ** Instances *)

(** Payloads as fields between commas; strings in [hex_encode], numbers in decimal. *)
Definition write_field {A} (f : A -> str) (o : option A) : str :=
  match o with None => bs "-" | Some a => "+"%char :: f a end.

Definition read_field {A} (g : str -> option A) (s : str) : option (option A) :=
  match s with
  | c :: t => if bool_decide (c = "+"%char) then Some <$> g t else Some None
  | [] => None
  end.

Definition number_ok (o : option Z) : bool := match o with Some z => (0 <=? z)%Z && (z <=? i64_max)%Z | None => true end.

Definition write_bool (b : bool) : str := if b then bs "1" else bs "0".
Definition read_bool (s : str) : option bool := Some (str_eqb s (bs "1")).

Definition comma_payload : PayloadJson := {|
  payload_to_vec p :=
    if forallb number_ok [pl_width p; pl_height p; pl_quality p; pl_max_age_secs p; pl_expires_at p] then
      Some (write_field write_bool (pl_public p) ++ ","%char :: write_field hex_encode (pl_format p) ++ ","%char
        :: write_field show_Z (pl_width p) ++ ","%char :: write_field show_Z (pl_height p) ++ ","%char
        :: write_field hex_encode (pl_fit p) ++ ","%char :: write_field hex_encode (pl_crop p) ++ ","%char
        :: write_field show_Z (pl_quality p) ++ ","%char :: write_field show_Z (pl_max_age_secs p) ++ ","%char
        :: write_field show_Z (pl_expires_at p) ++ ","%char :: hex_encode (pl_source p))
    else None;
  payload_from_slice t :=
    match split ","%char t with
    | [a; b; c; d; e; f; g; h; i; j] =>
        match read_field read_bool a, read_field hex_decode b, read_field parse_i64 c, read_field parse_i64 d,
              read_field hex_decode e, read_field hex_decode f, read_field parse_i64 g, read_field parse_i64 h,
              read_field parse_i64 i, hex_decode j with
        | Some a, Some b, Some c, Some d, Some e, Some f, Some g, Some h, Some i, Some j =>
            Some (mkImagePayload a b c d e f g h i j)
        | _, _, _, _, _, _, _, _, _, _ => None
        end
    | _ => None
    end |}.

Lemma read_write_field {A} (f : A -> str) g o :
  (forall a, o = Some a -> g (f a) = Some a) -> read_field g (write_field f o) = Some o.
Proof. destruct o as [a|]; intros Hg; [|done]. simpl. by rewrite (Hg a eq_refl). Qed.

Lemma write_field_no_comma {A} (f : A -> str) o :
  (forall a, o = Some a -> ","%char ∉ f a) -> ","%char ∉ write_field f o.
Proof.
  destruct o as [a|]; intros Hf; simpl; rewrite elem_of_cons.
  - intros [?|?]; [done|]. by apply (Hf a).
  - intros [?|?%elem_of_nil]; done.
Qed.

Lemma hex_no_comma s : ","%char ∉ hex_encode s.
Proof. exact (@b64_no_sep hex_base64 hex_base64_laws s ","%char eq_refl). Qed.

Lemma number_field o :
  number_ok o = true -> ","%char ∉ write_field show_Z o /\ read_field parse_i64 (write_field show_Z o) = Some o.
Proof.
  intros Hn. split.
  - apply write_field_no_comma. intros z -> Hc. simpl in Hn. apply show_Z_digits in Hc; [done|lia].
  - apply read_write_field. intros z ->. simpl in Hn. apply parse_i64_show. lia.
Qed.

Lemma text_field o :
  ","%char ∉ write_field hex_encode o /\ read_field hex_decode (write_field hex_encode o) = Some o.
Proof.
  split; [apply write_field_no_comma; intros; apply hex_no_comma|].
  apply read_write_field. intros a _. apply (@b64_decode_encode hex_base64 hex_base64_laws).
Qed.

Lemma comma_payload_laws : PayloadLaws comma_payload.
Proof.
  split; intros [a b c d e f g h i j] t; cbn [payload_to_vec comma_payload pl_public pl_format pl_width pl_height pl_fit
    pl_crop pl_quality pl_max_age_secs pl_expires_at pl_source forallb];
    destruct (_ && _) eqn:En; try done; intros Ht;
    assert (t = write_field write_bool a ++ ","%char :: write_field hex_encode b ++ ","%char
        :: write_field show_Z c ++ ","%char :: write_field show_Z d ++ ","%char
        :: write_field hex_encode e ++ ","%char :: write_field hex_encode f ++ ","%char
        :: write_field show_Z g ++ ","%char :: write_field show_Z h ++ ","%char
        :: write_field show_Z i ++ ","%char :: hex_encode j) as -> by congruence.
  - rewrite !andb_true_iff in En. destruct En as (Hc & Hd & Hg & Hh & Hi & _).
    apply number_field in Hc as [Nc Rc], Hd as [Nd Rd], Hg as [Ng Rg], Hh as [Nh Rh], Hi as [Ni Ri].
    destruct (text_field b) as [Nb Rb], (text_field e) as [Ne Re], (text_field f) as [Nf Rf].
    assert (Na : ","%char ∉ write_field write_bool a) by (by apply write_field_no_comma; intros [] _; apply contains_char_false).
    assert (Ra : read_field read_bool (write_field write_bool a) = Some a) by (by destruct a as [[]|]).
    cbn [payload_from_slice comma_payload]. rewrite !split_app by done.
    rewrite split_no_sep by apply hex_no_comma.
    rewrite Ra, Rb, Rc, Rd, Re, Rf, Rg, Rh, Ri.
    pose proof (@b64_decode_encode hex_base64 hex_base64_laws j) as Rj. cbn [b64_decode b64_encode hex_base64] in Rj.
    by rewrite Rj.
  - by destruct a.
Qed.

Definition demo_hmac : HmacApi := {| hmac_sha256 k m := take 32 (rev m ++ k ++ replicate 32 "0"%char) |}.

Lemma demo_hmac_laws : HmacLaws demo_hmac.
Proof. split. intros k m. cbn [hmac_sha256 demo_hmac]. rewrite length_take, !length_app, length_replicate. lia. Qed.

(** URLs of the form [https://host/path]. *)
Definition demo_url : UrlApi := {| url_parse s :=
  match strip_prefix (bs "https://") s with
  | Some rest =>
      match split_once "/"%char rest with
      | Some (host, path) => Some (mkUrl (bs "https") [] None (Some (HostDomain host)) (Some host) ("/"%char :: path) None)
      | None => None
      end
  | None => None
  end |}.

Definition demo_form : FormApi := {| form_parse s :=
  (fun part => match split_once "="%char part with Some kv => kv | None => (part, []) end) <$> split "&"%char s |}.

#[local] Existing Instance hex_base64.
#[local] Existing Instance hex_base64_laws.
#[local] Existing Instance comma_payload.
#[local] Existing Instance comma_payload_laws.
#[local] Existing Instance demo_hmac.
#[local] Existing Instance demo_hmac_laws.
#[local] Existing Instance demo_url.
#[local] Existing Instance demo_form.

Definition demo_options : ImageUrlOptions :=
  mkOptions (bs "/a.png") Avif (Some 640%Z) (Some 320%Z) None (Some Smart) 80 Private (Some 2000%Z) None.

Definition demo_path : str := match sign_image_path (bs "key") demo_options with Ok p => p | Err _ => [] end.

Lemma demo_signed : sign_image_path (bs "key") demo_options = Ok demo_path.
Proof. vm_compute. reflexivity. Qed.

Definition demo_request : VerifiedImageRequest :=
  mkRequest (LocalPath (bs "/a.png")) Avif false 640 (Some 320%Z) (Some Cover) (Some Smart) 80 Private (Some 2000%Z)
    (Some (from_secs 604800)).

Lemma signed_image_round_trip_witness :
  verify_image_path (bs "key") demo_path 1999 = Ok demo_request
  /\ verify_image_path (bs "key") demo_path 2001 = Err Expired.
Proof.
  destruct (signed_image_round_trip (bs "key") demo_options demo_path demo_signed) as (source & resize & Hs & Hr & Hv).
  rewrite !Hv. vm_compute in Hs. injection Hs as <-. vm_compute in Hr. injection Hr as <-.
  split; vm_compute; reflexivity.
Defined.

Lemma demo_verified : verify_image_path (bs "key") demo_path 1999 = Ok demo_request.
Proof. vm_compute. reflexivity. Qed.

Definition demo_images : ImagesConfig :=
  mkImagesConfig (Some [bs "/img/**"]) [bs "*.example.com/a/*"] [320; 640]%Z [60]%Z [Webp; Avif].

Lemma accepted_images_are_safe_witness :
  (exists payload, bs "key" <> []
    /\ demo_path = IMAGE_BASE_PATH ++ "/"%char :: payload ++ "."%char
                 :: b64_encode (hmac_sha256 (bs "key") (bs "v1" ++ of_byte 10 :: payload)))
  /\ source_allowed demo_images (RemoteUrl (bs "https://cdn.example.com/a/b.png")).
Proof.
  split.
  - exact (proj1 (proj1 (accepted_images_are_safe demo_request) (bs "key") demo_path 1999%Z demo_verified)).
  - destruct (proj2 (accepted_images_are_safe
      (mkRequest (RemoteUrl (bs "https://cdn.example.com/a/b.png")) Avif true 640 None None None 75 Public None None))
      PUBLIC_IMAGE_BASE_PATH (Some (bs "src=https://cdn.example.com/a/b.png&w=640")) (Some (bs "image/avif, */*")) demo_images)
      as (_ & _ & _ & _ & _ & _ & Hs & _); [vm_compute; reflexivity|exact Hs].
Defined.
