(* ===== verification/Request.v ===== *)
(** * Requests at the proxy (tako-server/src/proxy/request.rs, config.rs, cloudflare_ips.rs)

    Whose address and scheme a request has when it came through other proxies, what is
    cached for whom, and which paths are looked up as static files.  The HTTP header map
    and the IP network type are other crates: parameters. *)

From S2P Require Import Prelude RustStr Net Sql Routing ImageSource.

(** ** Parameters *)

(** [ipnet::IpNet]. *)
Class IpNetApi := {
  IpNet : Type;
  net_parse : str -> option IpNet;
  net_contains : IpNet -> IpAddr -> bool;
}.

(** [RequestHeader]: the authority of the URI, and [HeaderMap::get] with [to_str]. *)
Record RequestHeader := mkRequestHeader {
  uri_authority : option str;
  header_get : str -> option str;
}.

(** ** Configuration (config.rs) *)

Inductive TrustedClientIpHeader := CfConnectingIp | Forwarded | XForwardedFor.

#[global] Instance TrustedClientIpHeader_eq_dec : EqDecision TrustedClientIpHeader.
Proof. solve_decision. Defined.

Definition header_as_str (h : TrustedClientIpHeader) : str :=
  match h with
  | CfConnectingIp => bs "cf-connecting-ip"
  | Forwarded => bs "forwarded"
  | XForwardedFor => bs "x-forwarded-for"
  end.

Definition header_from_str (value : str) : result TrustedClientIpHeader str :=
  let value := to_ascii_lowercase (trim value) in
  if str_eqb value (bs "cf-connecting-ip") then Ok CfConnectingIp
  else if str_eqb value (bs "forwarded") then Ok Forwarded
  else if str_eqb value (bs "x-forwarded-for") then Ok XForwardedFor
  else Err (bs "Unsupported trusted client IP header '" ++ value ++ bs "'").

(** [Iterator::collect] into a result. *)
Fixpoint collect_results {A X E} (f : A -> result X E) (l : list A) : result (list X) E :=
  match l with
  | [] => Ok []
  | a :: l' => let? x := f a in let? xs := collect_results f l' in Ok (x :: xs)
  end.

Definition DQUOTE : ascii := of_byte 34.

Section Request.
Context {N : IpNetApi}.

Record TrustedProxyConfig := mkTrustedProxy {
  proxy_protocol : bool;
  trusted_cidrs : list IpNet;
  client_ip_headers : list TrustedClientIpHeader;
}.

(** The text of the parse error of a network is left out of the message. *)
Definition trusted_from_raw (proxy_protocol : bool) (cidrs headers : list str) : result TrustedProxyConfig str :=
  let? cidrs := collect_results (fun cidr =>
    ok_or (net_parse cidr) (bs "Invalid trusted proxy CIDR '" ++ cidr ++ bs "'")) cidrs in
  let? headers := collect_results header_from_str headers in
  if (proxy_protocol || negb (bool_decide (headers = []))) && match cidrs with [] => true | _ => false end
  then Err (bs "trusted_proxy.trusted_cidrs is required when trusting proxy source IP metadata")
  else Ok (mkTrustedProxy proxy_protocol cidrs headers).

Definition trusts_proxy_ip (c : TrustedProxyConfig) (ip : IpAddr) : bool :=
  any (fun cidr => net_contains cidr ip) (trusted_cidrs c).

(** ** Cloudflare (cloudflare_ips.rs) *)

Definition CloudflareIpRanges : Type := list IpNet.

Definition is_non_public_ipv4 (ip : list Z) : bool :=
  match ip with
  | [a; b; c; d] =>
      ((a =? 127)
       || ((a =? 10) || ((a =? 172) && (16 <=? b) && (b <=? 31)) || ((a =? 192) && (b =? 168)))
       || ((a =? 169) && (b =? 254))
       || ((a =? 0) && (b =? 0) && (c =? 0) && (d =? 0))
       || ((a =? 255) && (b =? 255) && (c =? 255) && (d =? 255)))%Z
  | _ => false
  end.

Definition is_non_public_ipv6 (ip : list Z) : bool :=
  let first := default 0%Z (head ip) in
  bool_decide (ip = [0; 0; 0; 0; 0; 0; 0; 1]%Z)
  || bool_decide (ip = [0; 0; 0; 0; 0; 0; 0; 0]%Z)
  || (Z.land first 65024 =? 64512)%Z
  || (Z.land first 65472 =? 65152)%Z.

Definition is_obviously_not_cloudflare_ip (ip : IpAddr) : bool :=
  match ip with V4 o => is_non_public_ipv4 o | V6 g => is_non_public_ipv6 g end.

Definition cloudflare_contains (ranges : CloudflareIpRanges) (ip : IpAddr) : bool :=
  if is_obviously_not_cloudflare_ip ip then false else any (fun cidr => net_contains cidr ip) ranges.

Definition replace_cidrs (cidrs : list IpNet) (ranges : CloudflareIpRanges) : CloudflareIpRanges * result unit str :=
  match cidrs with
  | [] => (ranges, Err (bs "Cloudflare IP ranges cannot be empty"))
  | _ => (cidrs, Ok tt)
  end.

(** ** The scheme of a request *)

Definition should_redirect_http_request (is_effective_https redirect_http_to_https : bool) : bool :=
  redirect_http_to_https && negb is_effective_https.

Definition strip_host_port (host : str) : str :=
  match find_char "]"%char host with
  | Some end_ =>
      if starts_with host (bs "[") then take (S end_) host
      else match rsplit_once ":"%char host with
           | Some (name, port) => if negb (contains_char name ":"%char) && all is_ascii_digit port then name else host
           | None => host
           end
  | None =>
      match rsplit_once ":"%char host with
      | Some (name, port) => if negb (contains_char name ":"%char) && all is_ascii_digit port then name else host
      | None => host
      end
  end.

Definition https_redirect_host (host : str) (https_port : Z) : str :=
  let host_without_port := strip_host_port host in
  if (https_port =? 443)%Z then host_without_port
  else host_without_port ++ ":"%char :: show_Z https_port.

Definition x_forwarded_proto_is_https (value : str) : bool :=
  match split ","%char value with
  | proto :: _ => eq_ignore_ascii_case (trim proto) (bs "https")
  | [] => false
  end.

(** Key and value of a parameter of a Forwarded header. *)
Definition forwarded_param (param : str) : str * str :=
  let '(key, rest) := splitn2 "="%char param in
  (trim key, trim_matches DQUOTE (match rest with Some v => trim v | None => [] end)).

Definition forwarded_header_proto_is_https (value : str) : bool :=
  any (fun entry => any (fun param =>
      let '(key, parsed) := forwarded_param param in
      eq_ignore_ascii_case key (bs "proto") && eq_ignore_ascii_case parsed (bs "https"))
    (split ";"%char entry)) (split ","%char value).

Definition forwarded_header_has_proto (value : str) : bool :=
  any (fun entry => any (fun param =>
      let '(key, parsed) := forwarded_param param in
      eq_ignore_ascii_case key (bs "proto") && negb (bool_decide (parsed = [])))
    (split ";"%char entry)) (split ","%char value).

Definition is_some_and (p : str -> bool) (o : option str) : bool := match o with Some v => p v | None => false end.

Definition is_request_forwarded_https (x_forwarded_proto forwarded : option str) : bool :=
  is_some_and x_forwarded_proto_is_https x_forwarded_proto
  || is_some_and forwarded_header_proto_is_https forwarded.

Definition has_nonempty_header_value (value : option str) : bool :=
  is_some_and (fun raw => negb (bool_decide (trim raw = []))) value.

Definition has_forwarded_proto (x_forwarded_proto forwarded : option str) : bool :=
  has_nonempty_header_value x_forwarded_proto || is_some_and forwarded_header_has_proto forwarded.

(** [is_private_local_hostname] (release.rs). *)
Definition is_private_local_hostname (domain : str) : bool :=
  let first := match split ":"%char domain with h :: _ => h | [] => domain end in
  let host := to_ascii_lowercase (trim_end_matches "."%char (trim first)) in
  if bool_decide (host = []) then false
  else if str_eqb host (bs "localhost") || ends_with host (bs ".localhost") then true
  else if negb (contains_char host "."%char) then true
  else ends_with host (bs ".local") || ends_with host (bs ".test") || ends_with host (bs ".invalid")
       || ends_with host (bs ".example") || ends_with host (bs ".home.arpa").

Definition should_assume_forwarded_private_request_https (hostname : str)
    (x_forwarded_for x_forwarded_proto forwarded : option str) : bool :=
  is_private_local_hostname hostname && has_nonempty_header_value x_forwarded_for
  && negb (has_forwarded_proto x_forwarded_proto forwarded).

Definition ip_is_loopback (ip : IpAddr) : bool :=
  match ip with
  | V4 (a :: _) => (a =? 127)%Z
  | V4 [] => false
  | V6 g => bool_decide (g = [0; 0; 0; 0; 0; 0; 0; 1]%Z)
  end.

Record ForwardedHeaderTrust := mkForwardedTrust {
  trust_peer_ip : option IpAddr;
  trust_cloudflare : CloudflareIpRanges;
  trust_proxy : TrustedProxyConfig;
}.

Definition peer_trusts_forwarded_https (t : ForwardedHeaderTrust) : bool :=
  match trust_peer_ip t with
  | None => false
  | Some peer_ip =>
      ip_is_loopback peer_ip || cloudflare_contains (trust_cloudflare t) peer_ip
      || trusts_proxy_ip (trust_proxy t) peer_ip
  end.

Definition is_effective_request_https (transport_https : bool) (hostname : str)
    (x_forwarded_for x_forwarded_proto forwarded : option str) (t : ForwardedHeaderTrust) : bool :=
  if transport_https then true
  else if negb (peer_trusts_forwarded_https t) then false
  else is_request_forwarded_https x_forwarded_proto forwarded
       || should_assume_forwarded_private_request_https hostname x_forwarded_for x_forwarded_proto forwarded.

(** ** The client's address *)

Definition parse_header_ip (value : str) : option IpAddr := parse_ip (trim value).

Definition parse_forwarded_for_value (value : str) : option IpAddr :=
  match strip_prefix (bs "[") value with
  | Some rest => match split_once "]"%char rest with Some (ip, _) => parse_ip ip | None => None end
  | None =>
      match parse_ip value with
      | Some ip => Some ip
      | None =>
          match rsplit_once ":"%char value with
          | None => None
          | Some (host, port) =>
              if contains_char host ":"%char || negb (all is_ascii_digit port) then None else parse_ip host
          end
      end
  end.

Fixpoint find_map {A X} (f : A -> option X) (l : list A) : option X :=
  match l with
  | [] => None
  | a :: l' => match f a with Some x => Some x | None => find_map f l' end
  end.

Definition parse_forwarded_for (value : str) : option IpAddr :=
  match split ","%char value with
  | [] => None
  | first_entry :: _ =>
      match find_map (fun param =>
              match split_once "="%char param with
              | Some (key, v) =>
                  if eq_ignore_ascii_case (trim key) (bs "for") then Some (trim_matches DQUOTE (trim v)) else None
              | None => None
              end) (split ";"%char first_entry) with
      | Some raw_for => parse_forwarded_for_value raw_for
      | None => None
      end
  end.

Definition client_ip_from_header (request : RequestHeader) (header : TrustedClientIpHeader) : option IpAddr :=
  match header_get request (header_as_str header) with
  | None => None
  | Some value =>
      match header with
      | CfConnectingIp => parse_header_ip value
      | Forwarded => parse_forwarded_for value
      | XForwardedFor => match split ","%char value with first :: _ => parse_header_ip first | [] => None end
      end
  end.

Definition client_ip_from_trusted_headers (request : RequestHeader) (peer_ip : IpAddr) (c : TrustedProxyConfig)
    : option IpAddr :=
  if bool_decide (client_ip_headers c = []) || negb (trusts_proxy_ip c peer_ip) then None
  else find_map (client_ip_from_header request) (client_ip_headers c).

Definition client_ip_from_trusted_proxy_source_headers (request : RequestHeader) (peer_ip : IpAddr)
    (c : TrustedProxyConfig) : option IpAddr :=
  if negb (ip_is_loopback peer_ip) && negb (trusts_proxy_ip c peer_ip) then None
  else if bool_decide (client_ip_headers c = [])
  then find_map (client_ip_from_header request) [XForwardedFor; Forwarded]
  else find_map (client_ip_from_header request) (client_ip_headers c).

Definition client_ip_from_cloudflare_proxy (request : RequestHeader) (peer_ip : IpAddr) (ranges : CloudflareIpRanges)
    : option IpAddr :=
  if negb (cloudflare_contains ranges peer_ip) then None else client_ip_from_header request CfConnectingIp.

Inductive ClientIpResolution := Accepted (ip : IpAddr) | RejectCloudflareProxy | RejectTrustedProxy.

Definition client_ip_for_source_ip_mode (request : RequestHeader) (peer_ip : IpAddr) (mode : SourceIpMode)
    (ranges : CloudflareIpRanges) (c : TrustedProxyConfig) : ClientIpResolution :=
  match mode with
  | Auto =>
      Accepted (match client_ip_from_cloudflare_proxy request peer_ip ranges with
                | Some ip => ip
                | None => default peer_ip (client_ip_from_trusted_headers request peer_ip c)
                end)
  | Direct => Accepted peer_ip
  | CloudflareProxy =>
      match client_ip_from_cloudflare_proxy request peer_ip ranges with
      | Some ip => Accepted ip
      | None => RejectCloudflareProxy
      end
  | TrustedProxy =>
      match client_ip_from_trusted_proxy_source_headers request peer_ip c with
      | Some ip => Accepted ip
      | None => RejectTrustedProxy
      end
  end.

(** ** Hosts, cache keys, static paths *)

Definition request_host (req : RequestHeader) : str :=
  match uri_authority req with
  | Some a => a
  | None => default [] (header_get req (bs "host"))
  end.

Definition production_error_body (status : Z) : str :=
  if (status =? 500)%Z then bs "Internal Server Error"
  else if (status =? 502)%Z then bs "Bad Gateway"
  else if (status =? 503)%Z then bs "Service Unavailable"
  else if (status =? 504)%Z then bs "Gateway Timeout"
  else bs "Internal Server Error".

(** The primary key of [build_proxy_cache_key]. *)
Definition build_proxy_cache_key (host uri : str) : str :=
  let host := to_ascii_lowercase (trim host) in
  to_be 8 (Z.of_nat (length host)) ++ host ++ uri.

(** ** Lookups *)

Definition path_looks_like_static_asset (path : str) : bool :=
  let final_segment := match rsplit_once "/"%char path with Some (_, segment) => segment | None => path end in
  contains_char final_segment "."%char && negb (ends_with final_segment (bs ".")).

Definition strip_route_prefix_for_static_lookup (request_path route_path : str) : option str :=
  let prefix := match strip_suffix (bs "/*") route_path with
                | Some p => p
                | None => match strip_suffix (bs "*") route_path with Some p => p | None => route_path end
                end in
  if str_eqb request_path prefix then Some (bs "/")
  else
    match strip_prefix prefix request_path with
    | None => None
    | Some stripped =>
        if bool_decide (stripped = []) then Some (bs "/")
        else if starts_with stripped (bs "/") then Some stripped
        else Some ("/"%char :: stripped)
    end.

Definition static_lookup_paths (request_path : str) (matched_route_path : option str) : list str :=
  request_path ::
  match matched_route_path with
  | Some route_path =>
      match strip_route_prefix_for_static_lookup request_path route_path with
      | Some stripped => if bool_decide (stripped <> request_path) then [stripped] else []
      | None => []
      end
  | None => []
  end.

Definition path_uses_tako_handler (path : str) : bool :=
  path_looks_like_static_asset path || str_eqb path PUBLIC_IMAGE_BASE_PATH
  || starts_with path (bs "/_tako/channels/") || starts_with path (bs "/_tako/stores/").

(** ** Theorems *)

Lemma find_map_Some {A X} (f : A -> option X) l x : find_map f l = Some x -> exists a, a ∈ l /\ f a = Some x.
Proof.
  induction l as [|a l IH]; simpl; [done|]. destruct (f a) as [y|] eqn:E.
  - intros [= <-]. exists a. split; [left|done].
  - intros (b & Hb & Hf)%IH. exists b. split; [by right|done].
Qed.

(** The headers a peer may set. *)
Definition may_set_address (ranges : CloudflareIpRanges) (c : TrustedProxyConfig) (mode : SourceIpMode) (peer : IpAddr)
    (h : TrustedClientIpHeader) : Prop :=
  (cloudflare_contains ranges peer = true /\ h = CfConnectingIp /\ (mode = Auto \/ mode = CloudflareProxy))
  \/ (trusts_proxy_ip c peer = true /\ h ∈ client_ip_headers c /\ (mode = Auto \/ mode = TrustedProxy))
  \/ (trusts_proxy_ip c peer || ip_is_loopback peer = true /\ mode = TrustedProxy
      /\ h ∈ match client_ip_headers c with [] => [XForwardedFor; Forwarded] | hs => hs end).

(** C13: only a trusted peer can state another address.  Whatever the headers, the address a
    request is attributed to is the peer's own, or it was read from a header that the
    configuration allows this peer to set in the app's mode.  A peer that is not loopback,
    Cloudflare or in a trusted network changes nothing by its headers: its requests are
    attributed to it, or refused where the app requires a proxy, and count as HTTPS exactly
    when the transport is. *)
Theorem untrusted_peer_cannot_spoof ranges c peer :
  (forall request mode ip, client_ip_for_source_ip_mode request peer mode ranges c = Accepted ip ->
     ip = peer \/ exists h, may_set_address ranges c mode peer h /\ client_ip_from_header request h = Some ip)
  /\ (ip_is_loopback peer = false -> cloudflare_contains ranges peer = false -> trusts_proxy_ip c peer = false ->
      (forall request mode, client_ip_for_source_ip_mode request peer mode ranges c =
         match mode with Auto | Direct => Accepted peer | CloudflareProxy => RejectCloudflareProxy
                       | TrustedProxy => RejectTrustedProxy end)
      /\ forall transport hostname xff xfp fwd,
           is_effective_request_https transport hostname xff xfp fwd (mkForwardedTrust (Some peer) ranges c) = transport).
Proof.
  split.
  - intros request mode ip. unfold client_ip_for_source_ip_mode, may_set_address.
    assert (Hcf : forall x, client_ip_from_cloudflare_proxy request peer ranges = Some x ->
      cloudflare_contains ranges peer = true /\ client_ip_from_header request CfConnectingIp = Some x).
    { intros x. unfold client_ip_from_cloudflare_proxy. by destruct (cloudflare_contains ranges peer). }
    destruct mode.
    + intros [= <-]. destruct (client_ip_from_cloudflare_proxy request peer ranges) as [x|].
      { destruct (Hcf x eq_refl). right. exists CfConnectingIp. auto 10. }
      unfold client_ip_from_trusted_headers. destruct (bool_decide (client_ip_headers c = [])); [by left|].
      destruct (trusts_proxy_ip c peer) eqn:Et; [|by left]. cbn [orb negb].
      destruct (find_map _ _) as [x|] eqn:Ef; [|by left]. apply find_map_Some in Ef as (h & Hh & Hx).
      right. exists h. auto 10.
    + intros [= <-]. by left.
    + destruct (client_ip_from_cloudflare_proxy request peer ranges) as [x|]; [|done]. intros [= <-].
      destruct (Hcf x eq_refl). right. exists CfConnectingIp. auto 10.
    + unfold client_ip_from_trusted_proxy_source_headers.
      destruct (negb _ && negb _) eqn:Et; [done|].
      assert (Ht : trusts_proxy_ip c peer || ip_is_loopback peer = true)
        by (destruct (ip_is_loopback peer), (trusts_proxy_ip c peer); done).
      case_bool_decide as Hh; (destruct (find_map _ _) as [x|] eqn:Ef; [|done]); intros [= <-];
        apply find_map_Some in Ef as (h & Hin & Hx); right; exists h; (split; [|done]); right; right.
      * by rewrite Hh.
      * by destruct (client_ip_headers c).
  - intros Hl Hc Ht. split.
    + intros request mode. unfold client_ip_for_source_ip_mode, client_ip_from_cloudflare_proxy,
        client_ip_from_trusted_headers, client_ip_from_trusted_proxy_source_headers.
      rewrite Hl, Hc, Ht. cbn [negb orb andb]. rewrite orb_true_r. by destruct mode.
    + intros transport hostname xff xfp fwd. unfold is_effective_request_https, peer_trusts_forwarded_https.
      cbn [trust_peer_ip trust_cloudflare trust_proxy]. rewrite Hl, Hc, Ht. by destruct transport.
Qed.
End Request.

Lemma to_be_app_inj n a b (x y : str) :
  (0 <= a < 256 ^ Z.of_nat n)%Z -> (0 <= b < 256 ^ Z.of_nat n)%Z -> to_be n a ++ x = to_be n b ++ y -> a = b /\ x = y.
Proof.
  intros Ha Hb E. apply app_inj_1 in E as [E ->]; [|by rewrite !length_to_be]. split; [|done].
  by rewrite <- (from_to_be n a), <- (from_to_be n b), E.
Qed.

(** The response cache never answers one host or one URI with the response of another:
    two requests share a cache key exactly when their hosts agree up to white space around
    them and ASCII case, and their URIs are equal. *)
Lemma cache_key_separates_hosts host uri host' uri' :
  (Z.of_nat (length host) < 2 ^ 64)%Z -> (Z.of_nat (length host') < 2 ^ 64)%Z ->
  build_proxy_cache_key host uri = build_proxy_cache_key host' uri'
  <-> to_ascii_lowercase (trim host) = to_ascii_lowercase (trim host') /\ uri = uri'.
Proof.
  intros H H'. unfold build_proxy_cache_key. split; [|by intros [-> ->]].
  pose proof (trim_length host). pose proof (trim_length host').
  intros E. apply to_be_app_inj in E as [El E]; [|rewrite to_ascii_lowercase_length; simpl; lia..].
  apply app_inj_1 in E; [done|lia].
Qed.

(** ** Examples *)

(** Networks of one address. *)
Definition host_net : IpNetApi := {|
  IpNet := IpAddr;
  net_parse := parse_ip;
  net_contains net ip := bool_decide (net = ip) |}.

#[local] Existing Instance host_net.

Definition demo_proxy : IpAddr := V4 [192; 0; 2; 1]%Z.
Definition demo_trust : TrustedProxyConfig := mkTrustedProxy false [demo_proxy] [Forwarded; XForwardedFor].
Definition demo_request_header : RequestHeader :=
  mkRequestHeader None (fun name =>
    if str_eqb name (bs "x-forwarded-for") then Some (bs " 203.0.113.9 , 192.0.2.1")
    else if str_eqb name (bs "forwarded") then Some (bs "proto=https;For=[2001:db8::1]:8080, for=10.0.0.1")
    else None).

Example trusted_forwarded :
  client_ip_for_source_ip_mode demo_request_header demo_proxy Auto [] demo_trust
  = Accepted (V6 [8193; 3512; 0; 0; 0; 0; 0; 1]%Z).
Proof. vm_compute. reflexivity. Qed.

Lemma untrusted_peer_cannot_spoof_witness :
  client_ip_for_source_ip_mode demo_request_header (V4 [198; 51; 100; 7]%Z) TrustedProxy [] demo_trust = RejectTrustedProxy
  /\ is_effective_request_https false (bs "app.test") (Some (bs "1.2.3.4")) (Some (bs "https")) None
       (mkForwardedTrust (Some (V4 [198; 51; 100; 7]%Z)) [] demo_trust) = false.
Proof.
  destruct (untrusted_peer_cannot_spoof [] demo_trust (V4 [198; 51; 100; 7]%Z)) as [_ Hu].
  destruct Hu as [H1 H2]; [reflexivity..|]. split; [exact (H1 demo_request_header TrustedProxy)|apply H2].
Defined.

Lemma cache_key_separates_hosts_witness :
  build_proxy_cache_key (bs "A.example") (bs "/x") = build_proxy_cache_key (bs " a.EXAMPLE") (bs "/x")
  /\ build_proxy_cache_key (bs "a.example") (bs "/x") <> build_proxy_cache_key (bs "a.example/") (bs "x").
Proof.
  split.
  - apply (cache_key_separates_hosts (bs "A.example") (bs "/x") (bs " a.EXAMPLE") (bs "/x"));
      [vm_compute; reflexivity..|split; vm_compute; reflexivity].
  - intros [_ E]%cache_key_separates_hosts; [discriminate E|vm_compute; reflexivity..].
Defined.
