(* ===== verification/StaticFiles.v ===== *)
(** * Static files (tako-server/src/proxy/static_files.rs)

    Which file a request path names below an app's public directory.  Opening a name in an
    open directory without following links ([openat] with [O_NOFOLLOW]), file metadata, the
    working directory and percent-decoding are parameters; [std::path] is modelled. *)

From S2P Require Import Prelude RustStr Net Sql ImageSource.

(** ** [std::path] *)

Inductive Component := RootDir | CurDir | ParentDir | Normal (name : str).

Definition segment_component (segment : str) : option Component :=
  if bool_decide (segment = []) || str_eqb segment (bs ".") then None
  else if str_eqb segment (bs "..") then Some ParentDir
  else Some (Normal segment).

(** [Path::components]: repeated slashes and dots are dropped, but for a leading dot. *)
Definition components (path : str) : list Component :=
  let segments := split "/"%char path in
  (if starts_with path (bs "/") then [RootDir]
   else match segments with first :: _ => if str_eqb first (bs ".") then [CurDir] else [] | [] => [] end)
  ++ omap segment_component segments.

(** [Path::join]. *)
Definition join (root path : str) : str :=
  if starts_with path (bs "/") then path
  else if bool_decide (root = []) || ends_with root (bs "/") then root ++ path
  else root ++ "/"%char :: path.

(** [Path::extension]: after the last dot of the file name, if a name precedes it. *)
Definition extension (path : str) : option str :=
  match last (components path) with
  | Some (Normal name) =>
      match rsplit_once "."%char name with
      | Some (stem, ext) => if bool_decide (stem = []) then None else Some ext
      | None => None
      end
  | _ => None
  end.

(** ** Parameters *)

Inductive IoError := ELOOP | ENOENT | ENOTDIR | IoOther (message : str).

Class FsApi := {
  Handle : Type;
  root_handle : result Handle IoError;
  openat : Handle -> str -> result Handle IoError;
  absolute : str -> result str IoError;
  is_dir : Handle -> bool;
  is_file : Handle -> bool;
  file_len : Handle -> Z;
  modified_secs : Handle -> Z;
}.

(** [percent_encoding::percent_decode_str]. *)
Class PercentApi := { percent_decode : str -> str }.

(** ** The server *)

Inductive StaticFileError :=
| NotFound (path : str) | PathTraversal (path : str) | Io (e : IoError) | InvalidPath (message : str).

Record StaticConfig := mkStaticConfig {
  enabled : bool;
  public_dir : str;
  cache_max_age : Z;
  serve_index : bool;
}.

Definition StaticConfig_default : StaticConfig := mkStaticConfig true (bs "public") 3600 true.

Definition default_mime_types : list (str * str) :=
  (fun '(a, b) => (bs a, bs b)) <$>
  [("html", "text/html; charset=utf-8"); ("htm", "text/html; charset=utf-8"); ("css", "text/css; charset=utf-8");
   ("js", "application/javascript; charset=utf-8"); ("mjs", "application/javascript"); ("json", "application/json");
   ("txt", "text/plain; charset=utf-8"); ("xml", "application/xml"); ("csv", "text/csv");
   ("png", "image/png"); ("jpg", "image/jpeg"); ("jpeg", "image/jpeg"); ("gif", "image/gif");
   ("svg", "image/svg+xml"); ("ico", "image/x-icon"); ("webp", "image/webp"); ("avif", "image/avif");
   ("woff", "font/woff"); ("woff2", "font/woff2"); ("ttf", "font/ttf"); ("eot", "application/vnd.ms-fontobject");
   ("otf", "font/otf"); ("mp4", "video/mp4"); ("webm", "video/webm"); ("mp3", "audio/mpeg"); ("wav", "audio/wav");
   ("ogg", "audio/ogg"); ("pdf", "application/pdf"); ("map", "application/json");
   ("webmanifest", "application/manifest+json")]%string.

Definition get_mime_type (ext : str) : str :=
  match find_first (fun '(k, _) => str_eqb k ext) default_mime_types with
  | Some (_, v) => v
  | None => bs "application/octet-stream"
  end.

Section Static.
Context {F : FsApi} {P : PercentApi}.

Record AppStaticServer := mkStaticServer { static_root : str; static_config : StaticConfig }.

Record StaticFile := mkStaticFile {
  sf_handle : Handle;
  sf_path : str;
  sf_content_type : str;
  sf_size : Z;
  sf_etag : str;
  sf_cache_control : str;
}.

Definition new_static (app_root : str) (c : StaticConfig) : AppStaticServer :=
  mkStaticServer (join app_root (public_dir c)) c.

(** [decode_utf8] and the checks behind it. *)
Definition normalize_path (path : str) : result str StaticFileError :=
  let decoded := percent_decode (trim_start_matches "/"%char path) in
  if negb (utf8_valid decoded) then Err (InvalidPath (bs "invalid UTF-8 in path"))
  else if contains_char decoded (of_byte 0) then Err (InvalidPath (bs "null byte in path"))
  else if contains_str decoded (bs "..") then Err (PathTraversal decoded)
  else Ok decoded.

Definition map_open_error (e : IoError) (path : str) : StaticFileError :=
  match e with
  | ELOOP => PathTraversal path
  | ENOENT | ENOTDIR => NotFound path
  | IoOther _ => Io e
  end.

(** The loop of [open_relative]; a name with a NUL is an error of [CString::new]. *)
Fixpoint open_components (h : Handle) (cs : list Component) : result Handle IoError :=
  match cs with
  | [] => Ok h
  | Normal name :: cs' =>
      if contains_char name (of_byte 0) then Err (IoOther (bs "nul byte found in provided data"))
      else let? h' := openat h name in open_components h' cs'
  | _ :: _ => Err (IoOther (bs "invalid static path"))
  end.

Definition open_relative (root : Handle) (path : str) : result Handle IoError := open_components root (components path).

(** [strip_prefix] drops the root. *)
Definition open_without_symlinks (path : str) : result Handle IoError :=
  let? abs := absolute path in
  let? h := root_handle in
  open_components h (drop 1 (components abs)).

Definition generate_etag (size modified : Z) : str :=
  of_byte 34 :: show_Z size ++ "-"%char :: show_Z modified ++ [of_byte 34].

(** [to_lowercase] of the extension: no key of the table has a letter that another than an
    ASCII one lowers to. *)
Definition resolve (s : AppStaticServer) (request_path : str) : result StaticFile StaticFileError :=
  let? clean_path := normalize_path request_path in
  let? root := map_err (fun e => map_open_error e request_path) (open_without_symlinks (static_root s)) in
  let? h := map_err (fun e => map_open_error e request_path) (open_relative root clean_path) in
  let target_path := join (static_root s) clean_path in
  let? (h, target_path) :=
    if is_dir h && serve_index (static_config s) then
      let? h' := map_err (fun e => map_open_error e request_path) (open_relative h (bs "index.html")) in
      Ok (h', join target_path (bs "index.html"))
    else Ok (h, target_path) in
  if negb (is_file h) then Err (NotFound request_path)
  else
    let ext := to_ascii_lowercase (default [] (extension target_path)) in
    Ok (mkStaticFile h target_path (get_mime_type ext) (file_len h) (generate_etag (file_len h) (modified_secs h))
          (bs "public, max-age=" ++ show_Z (cache_max_age (static_config s)))).

Definition is_available (s : AppStaticServer) (root_is_dir : str -> bool) : bool :=
  enabled (static_config s) && root_is_dir (static_root s).

(** ** What is served lies below the root *)

(** Opening one name after the other, without links. *)
Fixpoint walk (h : Handle) (names : list str) : result Handle IoError :=
  match names with
  | [] => Ok h
  | name :: names' => let? h' := openat h name in walk h' names'
  end.

(** A name that stays in its directory. *)
Definition plain_name (name : str) : Prop :=
  name <> [] /\ name <> bs "." /\ name <> bs ".." /\ "/"%char ∉ name /\ of_byte 0 ∉ name.

Lemma walk_app h names names' :
  walk h (names ++ names') = match walk h names with Ok h' => walk h' names' | Err e => Err e end.
Proof. revert h. induction names as [|n names IH]; intros h; simpl; [done|]. destruct (openat h n); [apply IH|done]. Qed.

Lemma open_components_walk h cs h' :
  open_components h cs = Ok h' ->
  exists names, cs = Normal <$> names /\ walk h names = Ok h' /\ Forall (fun n => of_byte 0 ∉ n) names.
Proof.
  revert h. induction cs as [|c cs IH]; intros h; simpl.
  { intros [= <-]. exists []. split_and!; [done|done|constructor]. }
  destruct c as [| | |name]; try done. destruct (contains_char name (of_byte 0)) eqn:E; [done|].
  apply contains_char_false in E. destruct (openat h name) as [h1|] eqn:Eo; [|done].
  intros (names & -> & Hw & Hf)%IH. exists (name :: names). simpl. rewrite Eo. split_and!; [done|done|by constructor].
Qed.

Lemma split_no_sep_in c s x : x ∈ split c s -> c ∉ x.
Proof.
  revert x. induction s as [|d s IH]; intros x; simpl.
  - rewrite list_elem_of_singleton. intros ->. by apply not_elem_of_nil.
  - case_bool_decide as Hd.
    + rewrite elem_of_cons. intros [->|Hx]; [by apply not_elem_of_nil|by apply IH].
    + destruct (split c s) as [|h t]; rewrite !elem_of_cons.
      * intros [->|Hx]; [|by apply elem_of_nil in Hx]. rewrite list_elem_of_singleton. done.
      * intros [->|Hx]; [|apply IH; by right]. rewrite elem_of_cons. intros [?|?]; [done|].
        eapply IH; [left|done].
Qed.

Lemma components_plain path names :
  components path = Normal <$> names -> Forall (fun n => of_byte 0 ∉ n) names -> Forall plain_name names.
Proof.
  unfold components. set (lead := if starts_with path (bs "/") then _ else _). intros E Hz.
  assert (Hs : forall n, n ∈ names -> Normal n ∈ omap segment_component (split "/"%char path)).
  { intros n Hn. assert (Hin : Normal n ∈ lead ++ omap segment_component (split "/"%char path))
      by (rewrite E; by apply list_elem_of_fmap_2).
    apply elem_of_app in Hin as [Hin|Hin]; [|done]. exfalso. unfold lead in Hin.
    destruct (starts_with path (bs "/")); [by apply list_elem_of_singleton in Hin|].
    destruct (split "/"%char path) as [|first l]; [by apply elem_of_nil in Hin|].
    destruct (str_eqb first (bs ".")); [by apply list_elem_of_singleton in Hin|by apply elem_of_nil in Hin]. }
  rewrite Forall_forall in *. intros n Hn. specialize (Hs n Hn). apply list_elem_of_omap in Hs as (seg & Hseg & Es).
  unfold segment_component in Es. destruct (_ || _) eqn:E1; [done|]. apply orb_false_iff in E1 as [E1 E2].
  destruct (str_eqb seg (bs "..")) eqn:E3; [done|]. injection Es as ->.
  apply bool_decide_eq_false in E1. unfold str_eqb in E2, E3. apply bool_decide_eq_false in E2, E3.
  split_and!; try done; [by eapply split_no_sep_in|by apply Hz].
Qed.

(** C14: a static file is never served from outside the app's public directory.  What
    [resolve] returns was opened from the root of the app by one name after the other, each
    without following a link, and no name is empty, a dot or two dots or contains a slash or
    a NUL, however the request path was written or encoded; it is a regular file, and the
    names are those of the decoded path, with index.html for a directory. *)
Theorem static_file_is_inside_root s request_path f :
  resolve s request_path = Ok f ->
  exists root names rest,
    open_without_symlinks (static_root s) = Ok root
    /\ components (percent_decode (trim_start_matches "/"%char request_path)) = Normal <$> names
    /\ (rest = [] \/ rest = [bs "index.html"] /\ serve_index (static_config s) = true)
    /\ Forall plain_name (names ++ rest)
    /\ walk root (names ++ rest) = Ok (sf_handle f)
    /\ is_file (sf_handle f) = true.
Proof.
  unfold resolve. destruct (normalize_path request_path) as [clean|] eqn:En; [|done].
  destruct (open_without_symlinks (static_root s)) as [root|]; [|done]. cbn [map_err].
  destruct (open_relative root clean) as [h|] eqn:Eo; [|done]. cbn [map_err].
  apply open_components_walk in Eo as (names & Ec & Hw & Hz).
  assert (clean = percent_decode (trim_start_matches "/"%char request_path)) as ->.
  { unfold normalize_path in En. destruct (negb _); [done|]. destruct (contains_char _ _); [done|].
    destruct (contains_str _ _); [done|]. by injection En. }
  pose proof (components_plain _ _ Ec Hz) as Hp.
  destruct (is_dir h && serve_index (static_config s)) eqn:Ed.
  - apply andb_true_iff in Ed as [_ Es]. destruct (open_relative h (bs "index.html")) as [h'|] eqn:Ei; [|done].
    cbn [map_err]. destruct (is_file h') eqn:Ef; [|done]. intros [= <-]. cbn [sf_handle].
    apply open_components_walk in Ei as (names' & Ec' & Hw' & Hz').
    assert (names' = [bs "index.html"]) as ->.
    { vm_compute in Ec'. destruct names' as [|n [|]]; try done. injection Ec' as <-. done. }
    exists root, names, [bs "index.html"]. split_and!; try done; [by right| |by rewrite walk_app, Hw].
    apply Forall_app. split; [done|]. by eapply components_plain.
  - destruct (is_file h) eqn:Ef; [|done]. intros [= <-]. cbn [sf_handle].
    exists root, names, []. rewrite app_nil_r. split_and!; try done. by left.
Qed.

(** Two dots anywhere in the decoded path are refused before anything is opened. *)
Lemma encoded_traversal_is_refused s request_path :
  let decoded := percent_decode (trim_start_matches "/"%char request_path) in
  utf8_valid decoded = true -> contains_char decoded (of_byte 0) = false -> contains_str decoded (bs "..") = true ->
  resolve s request_path = Err (PathTraversal decoded).
Proof. cbv zeta. intros H1 H2 H3. unfold resolve, normalize_path. by rewrite H1, H2, H3. Qed.
End Static.

(** ** A file system with one link *)

Definition demo_dirs : list (list str) :=
  [[]; [bs "app"]; [bs "app"; bs "public"]; [bs "app"; bs "public"; bs "docs"]].
Definition demo_files : list (list str) :=
  [[bs "app"; bs "secret"]; [bs "app"; bs "public"; bs "a b.css"]; [bs "app"; bs "public"; bs "docs"; bs "index.html"]].
Definition demo_links : list (list str) := [[bs "app"; bs "public"; bs "out"]].

Definition demo_fs : FsApi := {|
  Handle := list str;
  root_handle := Ok [];
  openat h name :=
    if bool_decide (h ∈ demo_dirs) then
      if bool_decide (h ++ [name] ∈ demo_links) then Err ELOOP
      else if bool_decide (h ++ [name] ∈ demo_dirs ++ demo_files) then Ok (h ++ [name]) else Err ENOENT
    else Err ENOTDIR;
  absolute := Ok;
  is_dir h := bool_decide (h ∈ demo_dirs);
  is_file h := bool_decide (h ∈ demo_files);
  file_len _ := 3%Z;
  modified_secs _ := 1000%Z |}.

(** [%20] only. *)
Fixpoint decode_spaces (s : str) : str :=
  match s with
  | "%"%char :: "2"%char :: "0"%char :: s' => " "%char :: decode_spaces s'
  | c :: s' => c :: decode_spaces s'
  | [] => []
  end.
Definition demo_percent : PercentApi := {| percent_decode := decode_spaces |}.

#[local] Existing Instance demo_fs.
#[local] Existing Instance demo_percent.

Definition demo_static : AppStaticServer := new_static (bs "/app") StaticConfig_default.
Definition demo_css : StaticFile :=
  mkStaticFile [bs "app"; bs "public"; bs "a b.css"] (bs "/app/public/a b.css") (bs "text/css; charset=utf-8") 3
    (of_byte 34 :: bs "3-1000" ++ [of_byte 34]) (bs "public, max-age=3600").

Example link_is_refused : resolve demo_static (bs "/out") = Err (PathTraversal (bs "/out")).
Proof. vm_compute. reflexivity. Qed.

Example directory_serves_index : sf_handle <$> match resolve demo_static (bs "/docs/") with Ok f => Some f | Err _ => None end
  = Some [bs "app"; bs "public"; bs "docs"; bs "index.html"].
Proof. vm_compute. reflexivity. Qed.

Lemma static_file_is_inside_root_witness :
  exists root names rest, open_without_symlinks (bs "/app/public") = Ok root
    /\ Forall plain_name (names ++ rest) /\ walk root (names ++ rest) = Ok (sf_handle demo_css).
Proof.
  destruct (static_file_is_inside_root demo_static (bs "//a%20b.css") demo_css)
    as (root & names & rest & H1 & _ & _ & H2 & H3 & _); [vm_compute; reflexivity|].
  exists root, names, rest. split; [exact H1|]. split; [exact H2|exact H3].
Defined.
