(* ===== verification/Cursor.v ===== *)
(** * Replay cursors (tako-channels/src/cursor.rs, types.rs)

    A cursor is a position in the replay log of a channel; those of the SQLite store
    carry the epoch of the log and a digest of the channel name.  Clients get and return
    cursors as text. *)

From S2P Require Import Prelude RustStr Net Codec.

(** [ChannelError] (types.rs). *)
Inductive ChannelError :=
| InvalidPath
| Unsupported
| Unauthorized
| Forbidden
| NotDefined
| StaleCursor
| BadRequest (message : str)
| AuthUnavailable
| Storage (message : str).

#[global] Instance ChannelError_eq_dec : EqDecision ChannelError.
Proof. solve_decision. Defined.

(** Its [Display]. *)
Definition channel_error_text (e : ChannelError) : str :=
  match e with
  | InvalidPath => bs "invalid channel path"
  | Unsupported => bs "unsupported channel operation"
  | Unauthorized => bs "unauthorized"
  | Forbidden => bs "forbidden"
  | NotDefined => bs "channel not defined"
  | StaleCursor => bs "requested channel cursor is outside the replay window"
  | BadRequest m => bs "bad request: " ++ m
  | AuthUnavailable => bs "channel auth unavailable"
  | Storage m => bs "storage error: " ++ m
  end.

(** [scope] is the epoch and the stream digest, 16 bytes each. *)
Record ReplayCursor := mkReplayCursor { scope : option (str * str); position : Z }.

#[global] Instance ReplayCursor_eq_dec : EqDecision ReplayCursor.
Proof. solve_decision. Defined.

Section Cursor.
Context {B : Base64Api} {H : Sha256Api}.

(** [ReplayCursor::sqlite], [ReplayCursor::postgres], [pg_position]. *)
Definition cursor_sqlite (epoch channel : str) (position : Z) : ReplayCursor :=
  mkReplayCursor (Some (epoch, take 16 (sha256 channel))) position.

Definition cursor_postgres (position : Z) : ReplayCursor := mkReplayCursor None position.

Definition pg_position (c : ReplayCursor) : result Z ChannelError :=
  match scope c with Some _ => Err StaleCursor | None => Ok (position c) end.

(** [Display]. *)
Definition cursor_to_string (c : ReplayCursor) : str :=
  match scope c with
  | Some (epoch, stream) =>
      bs "s1." ++ b64_encode epoch ++ "."%char :: b64_encode stream ++ "."%char :: show_Z (position c)
  | None => show_Z (position c)
  end.

Definition invalid_cursor : ChannelError := BadRequest (bs "invalid replay cursor").

(** One base64 part of sixteen bytes, and the parts left. *)
Definition cursor_component (parts : list str) : result (str * list str) ChannelError :=
  match parts with
  | [] => Err invalid_cursor
  | p :: rest =>
      match b64_decode p with
      | Some b => if (length b =? 16)%nat then Ok (b, rest) else Err invalid_cursor
      | None => Err invalid_cursor
      end
  end.

(** [FromStr]. *)
Definition cursor_from_str (value : str) : result ReplayCursor ChannelError :=
  match strip_prefix (bs "s1.") value with
  | Some v =>
      let? (epoch, parts) := cursor_component (split "."%char v) in
      let? (stream, parts) := cursor_component parts in
      match parts with
      | [] => Err invalid_cursor
      | p :: rest =>
          match parse_i64 p with
          | None => Err invalid_cursor
          | Some pos =>
              if (pos <? 0)%Z || bool_decide (rest <> []) then Err invalid_cursor
              else Ok (mkReplayCursor (Some (epoch, stream)) pos)
          end
      end
  | None =>
      match parse_i64 value with
      | None => Err invalid_cursor
      | Some pos => if (pos <? 0)%Z then Err invalid_cursor else Ok (cursor_postgres pos)
      end
  end.

(** The cursors there are. *)
Definition cursor_wf (c : ReplayCursor) : Prop :=
  (0 <= position c <= i64_max)%Z
  /\ match scope c with Some (e, s) => length e = 16 /\ length s = 16 | None => True end.

Context {BL : Base64Laws B}.

Lemma show_Z_no_prefix n : (0 <= n)%Z -> strip_prefix (bs "s1.") (show_Z n) = None.
Proof.
  intros Hn. destruct (strip_prefix (bs "s1.") (show_Z n)) as [r|] eqn:E; [|done].
  apply strip_prefix_Some in E. assert (Hs : "s"%char ∈ show_Z n) by (rewrite E; left).
  apply show_Z_digits in Hs; [done|lia].
Qed.

Lemma cursor_component_encode s rest :
  length s = 16 -> cursor_component (b64_encode s :: rest) = Ok (s, rest).
Proof. intros Hs. unfold cursor_component. by rewrite b64_decode_encode, Hs. Qed.

Lemma split_fields a b n :
  (0 <= n)%Z ->
  split "."%char (b64_encode a ++ "."%char :: b64_encode b ++ "."%char :: show_Z n)
  = [b64_encode a; b64_encode b; show_Z n].
Proof.
  intros Hn. rewrite !split_app by (by apply b64_no_sep). rewrite split_no_sep; [done|].
  intros Hd. by apply show_Z_digits in Hd.
Qed.

Lemma cursor_component_Ok parts b rest : cursor_component parts = Ok (b, rest) -> length b = 16.
Proof.
  unfold cursor_component. destruct parts as [|p ps]; [done|]. destruct (b64_decode p) as [x|]; [|done].
  destruct (Nat.eqb_spec (length x) 16); [|done]. by intros [= <- <-].
Qed.

Lemma cursor_text_reads_back c : cursor_wf c -> cursor_from_str (cursor_to_string c) = Ok c.
Proof.
  destruct c as [[[e s]|] p]; intros [Hp Hl]; simpl in *; unfold cursor_from_str, cursor_to_string; simpl.
  - destruct Hl as [He Hs]. rewrite split_fields by lia.
    rewrite cursor_component_encode by done. cbv beta iota. rewrite cursor_component_encode by done.
    cbv beta iota. rewrite parse_i64_show by done.
    replace (p <? 0)%Z with false by lia. by rewrite bool_decide_eq_false_2 by auto.
  - pose proof (show_Z_no_prefix p ltac:(lia)) as Hn. simpl in Hn. rewrite Hn.
    rewrite parse_i64_show by done. by replace (p <? 0)%Z with false by lia.
Qed.

(** Cursors round-trip: the text of every cursor reads back as that cursor, and
    every text that is accepted denotes a cursor with a position in the range of the
    database and sixteen-byte epoch and digest. *)
Lemma cursor_round_trip :
  (forall c, cursor_wf c -> cursor_from_str (cursor_to_string c) = Ok c)
  /\ (forall s c, cursor_from_str s = Ok c -> cursor_wf c).
Proof.
  split.
  - apply cursor_text_reads_back.
  - intros s c. unfold cursor_from_str. destruct (strip_prefix (bs "s1.") s) as [v|].
    + destruct (cursor_component (split _ v)) as [[e parts]|] eqn:E1; [|done].
      destruct (cursor_component parts) as [[st parts']|] eqn:E2; [|done].
      apply cursor_component_Ok in E1, E2. destruct parts' as [|q rest]; [done|].
      destruct (parse_i64 q) as [n|] eqn:En; [|done]. apply parse_i64_range in En.
      destruct (Z.ltb_spec n 0); [done|]. case_bool_decide; [done|]. intros [= <-]. split; [simpl; lia|done].
    + destruct (parse_i64 s) as [n|] eqn:En; [|done]. apply parse_i64_range in En.
      destruct (Z.ltb_spec n 0); [done|]. intros [= <-]. split; [simpl; lia|done].
Qed.
End Cursor.

Lemma cursor_round_trip_witness :
  @cursor_from_str hex_base64 (@cursor_to_string hex_base64
    (mkReplayCursor (Some (replicate 16 "e"%char, replicate 16 "d"%char)) 42))
  = Ok (mkReplayCursor (Some (replicate 16 "e"%char, replicate 16 "d"%char)) 42).
Proof.
  apply (@cursor_round_trip hex_base64 hex_base64_laws). split; [vm_compute; by split|]. by split.
Defined.
