(* ===== verification/ChannelDb.v ===== *)
(** * The SQLite channel store (tako-channels/src/store/sqlite.rs, store/presence.rs, mesh.rs)

    Durable messages of channels with their replay window: the tables as a record, the
    triggers as functions the statements call, and one definition per operation.  An
    operation is a transaction: it returns the new database and its result, and an error
    leaves the database as it was.  The clock, random epochs and the serde codecs are
    arguments.  Statements without ORDER BY return their rows in the order of
    [hash_iter]: any order. *)

From S2P Require Import Prelude RustStr Net Codec Sql Cursor.

(** ** Limits *)

Record SqliteReplayLimits := mkLimits {
  max_messages_per_stream : Z;
  max_bytes_per_stream : Z;
  max_messages : Z;
  max_bytes : Z;
  max_age_ms : Z;
}.

Definition SqliteReplayLimits_default : SqliteReplayLimits :=
  mkLimits 10000 (16 * 1024 * 1024) 100000 (64 * 1024 * 1024) (24 * 60 * 60 * 1000).

Definition limits_ok (l : SqliteReplayLimits) : bool :=
  negb (any (fun v => (v =? 0)%Z || (i64_max <? v)%Z)
          [max_messages_per_stream l; max_bytes_per_stream l; max_messages l; max_bytes l]
        || (i64_max <? max_age_ms l)%Z).

(** [SqliteReplayLimits::validate]. *)
Definition validate (l : SqliteReplayLimits) : result SqliteReplayLimits ChannelError :=
  if limits_ok l then Ok l
  else Err (BadRequest (bs "replay count/byte limits must be positive SQLite integers")).

(** ** Tables *)

Record MessageRow := mkMessageRow {
  msg_id : Z;
  msg_channel : str;
  msg_type : str;
  msg_data : str;
  msg_created : Z;
}.

#[global] Instance MessageRow_eq_dec : EqDecision MessageRow.
Proof. solve_decision. Defined.

Record MetaRow := mkMetaRow {
  replay_window_ms : Z;
  inactivity_ttl_ms : Z;
  keepalive_interval_ms : Z;
  max_connection_lifetime_ms : Z;
  last_activity : Z;
  latest_message_id : Z;
  message_count : Z;
  message_bytes : Z;
}.

(** [channel_messages] is kept in rowid order; [autoincrement] is the largest id it ever
    had.  [channel_store_state] has one row: the epoch, the limits and the counters. *)
Record ChannelDb := mkChannelDb {
  messages : list MessageRow;
  autoincrement : Z;
  message_events : gmap Z str;
  metadata : gmap str MetaRow;
  replay_floor : gmap str Z;
  remote_origins : gmap str Z;
  event_sequence : Z;
  store_epoch : str;
  replay_state : str;
  limits : SqliteReplayLimits;
  store_count : Z;
  store_bytes : Z;
  presence_rows : gmap (str * str) (str * Z);
}.

Definition set_messages (db : ChannelDb) (v : list MessageRow) : ChannelDb :=
  mkChannelDb v (autoincrement db) (message_events db) (metadata db) (replay_floor db)
    (remote_origins db) (event_sequence db) (store_epoch db) (replay_state db) (limits db)
    (store_count db) (store_bytes db) (presence_rows db).
Definition set_events (db : ChannelDb) (v : gmap Z str) : ChannelDb :=
  mkChannelDb (messages db) (autoincrement db) v (metadata db) (replay_floor db)
    (remote_origins db) (event_sequence db) (store_epoch db) (replay_state db) (limits db)
    (store_count db) (store_bytes db) (presence_rows db).
Definition set_metadata (db : ChannelDb) (v : gmap str MetaRow) : ChannelDb :=
  mkChannelDb (messages db) (autoincrement db) (message_events db) v (replay_floor db)
    (remote_origins db) (event_sequence db) (store_epoch db) (replay_state db) (limits db)
    (store_count db) (store_bytes db) (presence_rows db).
Definition set_floor (db : ChannelDb) (v : gmap str Z) : ChannelDb :=
  mkChannelDb (messages db) (autoincrement db) (message_events db) (metadata db) v
    (remote_origins db) (event_sequence db) (store_epoch db) (replay_state db) (limits db)
    (store_count db) (store_bytes db) (presence_rows db).
Definition set_origins (db : ChannelDb) (v : gmap str Z) : ChannelDb :=
  mkChannelDb (messages db) (autoincrement db) (message_events db) (metadata db) (replay_floor db)
    v (event_sequence db) (store_epoch db) (replay_state db) (limits db)
    (store_count db) (store_bytes db) (presence_rows db).
Definition set_sequence (db : ChannelDb) (v : Z) : ChannelDb :=
  mkChannelDb (messages db) (autoincrement db) (message_events db) (metadata db) (replay_floor db)
    (remote_origins db) v (store_epoch db) (replay_state db) (limits db)
    (store_count db) (store_bytes db) (presence_rows db).
Definition set_replay_state (db : ChannelDb) (v : str) : ChannelDb :=
  mkChannelDb (messages db) (autoincrement db) (message_events db) (metadata db) (replay_floor db)
    (remote_origins db) (event_sequence db) (store_epoch db) v (limits db)
    (store_count db) (store_bytes db) (presence_rows db).
Definition set_limits (db : ChannelDb) (v : SqliteReplayLimits) : ChannelDb :=
  mkChannelDb (messages db) (autoincrement db) (message_events db) (metadata db) (replay_floor db)
    (remote_origins db) (event_sequence db) (store_epoch db) (replay_state db) v
    (store_count db) (store_bytes db) (presence_rows db).
Definition set_counters (db : ChannelDb) (count bytes : Z) : ChannelDb :=
  mkChannelDb (messages db) (autoincrement db) (message_events db) (metadata db) (replay_floor db)
    (remote_origins db) (event_sequence db) (store_epoch db) (replay_state db) (limits db)
    count bytes (presence_rows db).
Definition set_presence (db : ChannelDb) (v : gmap (str * str) (str * Z)) : ChannelDb :=
  mkChannelDb (messages db) (autoincrement db) (message_events db) (metadata db) (replay_floor db)
    (remote_origins db) (event_sequence db) (store_epoch db) (replay_state db) (limits db)
    (store_count db) (store_bytes db) v.

(** [length(CAST(channel AS BLOB)) + ..]. *)
Definition row_bytes (r : MessageRow) : Z :=
  Z.of_nat (length (msg_channel r) + length (msg_type r) + length (msg_data r)).

Definition in_channel (channel : str) (r : MessageRow) : bool := str_eqb (msg_channel r) channel.

(** ** Triggers *)

Definition add_to_meta (d : Z) (r : MessageRow) (m : MetaRow) : MetaRow :=
  mkMetaRow (replay_window_ms m) (inactivity_ttl_ms m) (keepalive_interval_ms m)
    (max_connection_lifetime_ms m) (last_activity m) (latest_message_id m)
    (message_count m + d) (message_bytes m + d * row_bytes r).

(** [channel_message_counted] ([d] = 1) and [channel_message_uncounted] ([d] = -1). *)
Definition count_message (d : Z) (r : MessageRow) (db : ChannelDb) : ChannelDb :=
  set_metadata (set_counters db (store_count db + d) (store_bytes db + d * row_bytes r))
    (alter (add_to_meta d r) (msg_channel r) (metadata db)).

(** [channel_event_deleted], [channel_replay_deleted] and [channel_message_uncounted]. *)
Definition message_deleted (db : ChannelDb) (r : MessageRow) : ChannelDb :=
  let db := set_events db (delete (msg_id r) (message_events db)) in
  let floor := match replay_floor db !! msg_channel r with
               | Some f => Z.max f (msg_id r)
               | None => msg_id r
               end in
  count_message (-1) r (set_floor db (<[msg_channel r := floor]> (replay_floor db))).

(** [DELETE FROM channel_messages WHERE p]: the database and the rows deleted. *)
Definition delete_messages (p : MessageRow -> bool) (db : ChannelDb) : ChannelDb * nat :=
  let gone := sql_select p (messages db) in
  (fold_left message_deleted gone (set_messages db (sql_delete p (messages db))), length gone).

(** [DELETE .. WHERE id IN (SELECT id .. WHERE p ORDER BY id LIMIT n)]. *)
Definition delete_oldest (p : MessageRow -> bool) (n : Z) (db : ChannelDb) : ChannelDb * nat :=
  let ids := msg_id <$> sql_select_by msg_id (Z.to_nat n) p (messages db) in
  delete_messages (fun r => bool_decide (msg_id r ∈ ids)) db.

(** ** Budgets: every round but the last deletes a row, so one round more than there are
    rows is enough fuel. *)

Fixpoint enforce_stream_loop (fuel : nat) (l : SqliteReplayLimits) (channel : str) (db : ChannelDb)
    (deleted : nat) : ChannelDb * nat :=
  match fuel with
  | O => (db, deleted)
  | S fuel' =>
      match metadata db !! channel with
      | None => (db, deleted)
      | Some m =>
          let excess := (message_count m - max_messages_per_stream l)%Z in
          if (excess <=? 0)%Z && (message_bytes m <=? max_bytes_per_stream l)%Z then (db, deleted)
          else
            let '(db', removed) := delete_oldest (in_channel channel) (Z.max excess 1) db in
            if (removed =? 0)%nat then (db', deleted)
            else enforce_stream_loop fuel' l channel db' (deleted + removed)
      end
  end.

Definition enforce_stream_budget (l : SqliteReplayLimits) (channel : str) (db : ChannelDb) : ChannelDb * nat :=
  enforce_stream_loop (S (length (messages db))) l channel db 0.

Fixpoint enforce_store_loop (fuel : nat) (l : SqliteReplayLimits) (db : ChannelDb) (deleted : nat)
    : ChannelDb * nat :=
  match fuel with
  | O => (db, deleted)
  | S fuel' =>
      let excess := (store_count db - max_messages l)%Z in
      if (excess <=? 0)%Z && (store_bytes db <=? max_bytes l)%Z then (db, deleted)
      else
        let '(db', removed) := delete_oldest (fun _ => true) (Z.max excess 1) db in
        if (removed =? 0)%nat then (db', deleted)
        else enforce_store_loop fuel' l db' (deleted + removed)
  end.

Definition enforce_store_budget (l : SqliteReplayLimits) (db : ChannelDb) : ChannelDb * nat :=
  enforce_store_loop (S (length (messages db))) l db 0.

(** ** Age *)

Inductive AgeCutoff := Everything | Before (created : Z).

Definition age_cutoff (l : SqliteReplayLimits) (lifecycle : option (Z * Z * Z)) (now : Z)
    : option AgeCutoff :=
  let cutoff := if (0 <? max_age_ms l)%Z then Some (now - max_age_ms l)%Z else None in
  match lifecycle with
  | None => Before <$> cutoff
  | Some (window_ms, ttl_ms, last_activity) =>
      if (0 <? ttl_ms)%Z && (last_activity <? now - ttl_ms)%Z then Some Everything
      else
        Before <$> (if (0 <? window_ms)%Z then
                      let window := (now - window_ms)%Z in
                      Some (match cutoff with Some c => Z.max c window | None => window end)
                    else cutoff)
  end.

Definition lifecycle_of (m : MetaRow) : Z * Z * Z :=
  (replay_window_ms m, inactivity_ttl_ms m, last_activity m).

Definition stream_lifecycle (db : ChannelDb) (channel : str) : option (Z * Z * Z) :=
  lifecycle_of <$> metadata db !! channel.

(** The rows of a stream past the cutoff. *)
Definition expired (channel : str) (cutoff : option AgeCutoff) (r : MessageRow) : bool :=
  in_channel channel r
  && match cutoff with
     | None => false
     | Some Everything => true
     | Some (Before created) => (msg_created r <? created)%Z
     end.

(** [COALESCE(MAX(id), 0)]. *)
Definition max_id (rows : list MessageRow) : Z := fold_right (fun r acc => Z.max (msg_id r) acc) 0%Z rows.

Definition expired_floor (db : ChannelDb) (l : SqliteReplayLimits) (channel : str) (now : Z) : Z :=
  max_id (sql_select (expired channel (age_cutoff l (stream_lifecycle db channel) now)) (messages db)).

(** ** Events and messages (mesh.rs, types.rs) *)

Record ChannelEventId := mkEventId { origin : str; sequence : Z }.

#[global] Instance ChannelEventId_eq_dec : EqDecision ChannelEventId.
Proof. solve_decision. Defined.

(** serde_json on event ids. *)
Class EventIdJson := {
  event_id_to_string : ChannelEventId -> option str;
  event_id_from_str : str -> option ChannelEventId;
}.

Class EventIdLaws (E : EventIdJson) := {
  event_id_read_back i t : event_id_to_string i = Some t -> event_id_from_str t = Some i;
}.

Section Store.
Context `{J : JsonApi} `{E : EventIdJson} {B : Base64Api} {H : Sha256Api} `{!HashIter str MetaRow}.

Record ChannelPublishPayload := mkPayload { pay_type : str; pay_data : Json }.

Record ChannelEvent := mkEvent {
  ev_id : ChannelEventId;
  ev_channel : str;
  ev_payload : ChannelPublishPayload;
  ev_ephemeral : bool;
}.

Record ChannelMessage := mkMessage {
  m_id : str;
  m_event_id : option ChannelEventId;
  m_channel : str;
  m_type : str;
  m_data : Json;
}.

Definition prune_age (l : SqliteReplayLimits) (now : Z) (db : ChannelDb) : ChannelDb * nat :=
  fold_left (fun '(db, deleted) '(channel, m) =>
      let '(db', n) := delete_messages (expired channel (age_cutoff l (Some (lifecycle_of m)) now)) db in
      (db', deleted + n))
    (retain (fun '(_, m) => (0 <? message_count m)%Z) (hash_iter (metadata db)))
    (db, 0).

Definition over_budget (l : SqliteReplayLimits) (m : MetaRow) : bool :=
  (max_messages_per_stream l <? message_count m)%Z || (max_bytes_per_stream l <? message_bytes m)%Z.

Definition prune_replay (l : SqliteReplayLimits) (now : Z) (db : ChannelDb) : ChannelDb * nat :=
  let '(db, deleted) := prune_age l now db in
  let '(db, deleted) :=
    fold_left (fun '(db, deleted) '(channel, _) =>
        let '(db', n) := enforce_stream_budget l channel db in (db', deleted + n))
      (retain (fun '(_, m) => over_budget l m) (hash_iter (metadata db)))
      (db, deleted) in
  let '(db, n) := enforce_store_budget l db in
  (db, deleted + n).

(** The columns of [channel_store_state] and [channel_replay_state]. *)
Definition load_limits (db : ChannelDb) : result SqliteReplayLimits ChannelError := validate (limits db).

Definition replay_epoch (db : ChannelDb) : result str ChannelError :=
  if (length (replay_state db) =? 16)%nat then Ok (replay_state db)
  else Err (Storage (bs "invalid replay epoch")).

Definition rotate_replay_epoch (fresh : str) (db : ChannelDb) : ChannelDb := set_replay_state db fresh.

Definition stream_head (db : ChannelDb) (channel : str) : Z :=
  match metadata db !! channel with Some m => latest_message_id m | None => 0 end.

(** The upsert of [append_event]. *)
Definition touch_meta (now : Z) (m : option MetaRow) : MetaRow :=
  match m with
  | Some m => mkMetaRow (replay_window_ms m) (inactivity_ttl_ms m) (keepalive_interval_ms m)
                (max_connection_lifetime_ms m) now (latest_message_id m) (message_count m) (message_bytes m)
  | None => mkMetaRow 600000 0 25000 7200000 now 0 0 0
  end.

Definition set_latest (id : Z) (m : MetaRow) : MetaRow :=
  mkMetaRow (replay_window_ms m) (inactivity_ttl_ms m) (keepalive_interval_ms m)
    (max_connection_lifetime_ms m) (last_activity m) id (message_count m) (message_bytes m).

(** [INSERT INTO channel_messages] with its trigger: AUTOINCREMENT fails when the largest
    id was used. *)
Definition insert_message (r : MessageRow) (db : ChannelDb) : ChannelDb :=
  count_message 1 r
    (mkChannelDb (messages db ++ [r]) (msg_id r) (message_events db) (metadata db) (replay_floor db)
       (remote_origins db) (event_sequence db) (store_epoch db) (replay_state db) (limits db)
       (store_count db) (store_bytes db) (presence_rows db)).

(** The rows [append_event] writes before it enforces the budgets. *)
Definition append_row (now : Z) (r : MessageRow) (event_json : str) (db : ChannelDb) : ChannelDb :=
  let channel := msg_channel r in
  let db := set_metadata db (<[channel := touch_meta now (metadata db !! channel)]> (metadata db)) in
  let db := insert_message r db in
  let db := set_events db (<[msg_id r := event_json]> (message_events db)) in
  set_metadata db (alter (set_latest (msg_id r)) channel (metadata db)).

Definition append_event (now : Z) (epoch : str) (event : ChannelEvent) (db : ChannelDb)
    : result (ChannelDb * ChannelMessage) ChannelError :=
  let channel := ev_channel event in
  let message id := mkMessage id (Some (ev_id event)) channel (pay_type (ev_payload event))
                      (pay_data (ev_payload event)) in
  if ev_ephemeral event then Ok (db, message [])
  else
    match json_to_string (pay_data (ev_payload event)) with
    | None => Err (Storage (bs "serialize"))
    | Some data_json =>
        let? l := load_limits db in
        let bytes := Z.of_nat (length channel + length (pay_type (ev_payload event)) + length data_json) in
        if ((max_bytes l <? bytes) || (max_bytes_per_stream l <? bytes))%Z
        then Err (BadRequest (bs "message exceeds SQLite replay byte budget"))
        else if (autoincrement db =? i64_max)%Z then Err (Storage (bs "database or disk is full"))
        else
          let id := (autoincrement db + 1)%Z in
          match event_id_to_string (ev_id event) with
          | None => Err (Storage (bs "serialize"))
          | Some event_json =>
              let row := mkMessageRow id channel (pay_type (ev_payload event)) data_json now in
              let db := append_row now row event_json db in
              let db := (enforce_stream_budget l channel db).1 in
              let db := (enforce_store_budget l db).1 in
              Ok (db, message (cursor_to_string (cursor_sqlite epoch channel id)))
          end
    end.

(** ** Operations.  [self_epoch] is the epoch read when the handle was opened. *)

Definition publish (now : Z) (self_epoch : str) (channel : str) (payload : ChannelPublishPayload)
    (ephemeral : bool) (db : ChannelDb) : ChannelDb * result (ChannelMessage * ChannelEvent) ChannelError :=
  if (i64_max <=? event_sequence db)%Z then (db, Err (Storage (bs "Query returned no rows")))
  else
    let sequence := (event_sequence db + 1)%Z in
    let event := mkEvent (mkEventId (b64_encode self_epoch) sequence) channel payload ephemeral in
    match replay_epoch db with
    | Err e => (db, Err e)
    | Ok epoch =>
        match append_event now epoch event (set_sequence db sequence) with
        | Ok (db', message) => (db', Ok (message, event))
        | Err e => (db, Err e)
        end
    end.

Definition valid_event_id (i : ChannelEventId) : bool :=
  negb ((sequence i =? 0)%Z || (i64_max <? sequence i)%Z || bool_decide (origin i = [])
        || (128 <? length (origin i))%nat || negb (all url_safe (origin i))).

(** [ingest_remote]: the database, whether [signal_gap] was called (before the commit),
    and the result. *)
Definition ingest_remote (now : Z) (fresh self_epoch : str) (event : ChannelEvent) (db : ChannelDb)
    : ChannelDb * bool * result (option ChannelMessage) ChannelError :=
  if negb (valid_event_id (ev_id event))
  then (db, false, Err (BadRequest (bs "invalid channel event identity")))
  else if str_eqb (origin (ev_id event)) (b64_encode self_epoch) then (db, false, Ok None)
  else
    let previous := default 0%Z (remote_origins db !! origin (ev_id event)) in
    let seq := sequence (ev_id event) in
    if (seq <=? previous)%Z then (db, false, Ok None)
    else
      let gap := (previous + 1 <? seq)%Z in
      let db' := if gap then rotate_replay_epoch fresh db else db in
      match replay_epoch db' with
      | Err e => (db, false, Err e)
      | Ok epoch =>
          match append_event now epoch event db' with
          | Err e => (db, false, Err e)
          | Ok (db'', message) =>
              (set_origins db'' (<[origin (ev_id event) := seq]> (remote_origins db'')), gap,
               Ok (Some message))
          end
      end.

Definition validate_cursor (db : ChannelDb) (epoch channel : str) (cursor : ReplayCursor)
    : result unit ChannelError :=
  if negb (bool_decide (scope cursor = scope (cursor_sqlite epoch channel 0))) then Err StaleCursor
  else
    let floor := default 0%Z (replay_floor db !! channel) in
    if ((position cursor <? floor) || (stream_head db channel <? position cursor))%Z
    then Err StaleCursor else Ok tt.

(** The check that [read_after] and [replay_cursor] share. *)
Definition admit_cursor (db : ChannelDb) (epoch channel : str) (floor : Z) (cursor : ReplayCursor)
    : result unit ChannelError :=
  let? _ := validate_cursor db epoch channel cursor in
  if (position cursor <? floor)%Z then Err StaleCursor else Ok tt.

(** A row as a message ([channel_message_from_row] and the closure of [read_after]). *)
Definition row_message (db : ChannelDb) (epoch channel : str) (r : MessageRow)
    : result ChannelMessage ChannelError :=
  match json_from_str (msg_data r) with
  | None => Err (Storage (bs "deserialize"))
  | Some data =>
      let id := cursor_to_string (cursor_sqlite epoch channel (msg_id r)) in
      match message_events db !! msg_id r with
      | None => Ok (mkMessage id None (msg_channel r) (msg_type r) data)
      | Some json =>
          match event_id_from_str json with
          | None => Err (Storage (bs "deserialize"))
          | Some i => Ok (mkMessage id (Some i) (msg_channel r) (msg_type r) data)
          end
      end
  end.

Fixpoint collect {A X} (f : A -> result X ChannelError) (l : list A) : result (list X) ChannelError :=
  match l with
  | [] => Ok []
  | a :: l' => let? x := f a in let? xs := collect f l' in Ok (x :: xs)
  end.

(** [READ_AFTER_SQL]. *)
Definition read_after_rows (db : ChannelDb) (channel : str) (after : Z) (limit : Z) : list MessageRow :=
  sql_select_by msg_id (Z.to_nat limit) (fun r => in_channel channel r && (after <? msg_id r)%Z) (messages db).

Definition read_after (now : Z) (channel : str) (after : option ReplayCursor) (limit : Z) (db : ChannelDb)
    : result (list ChannelMessage) ChannelError :=
  let? l := load_limits db in
  let floor := expired_floor db l channel now in
  let? epoch := replay_epoch db in
  let? _ := match after with
            | Some cursor => admit_cursor db epoch channel floor cursor
            | None => Ok tt
            end in
  let from := Z.max (match after with Some c => position c | None => 0 end) floor in
  collect (row_message db epoch channel) (read_after_rows db channel from limit).

Definition replay_cursor (now : Z) (channel : str) (requested : option ReplayCursor) (db : ChannelDb)
    : result (option ReplayCursor) ChannelError :=
  let? l := load_limits db in
  let floor := expired_floor db l channel now in
  let? epoch := replay_epoch db in
  match requested with
  | Some cursor => let? _ := admit_cursor db epoch channel floor cursor in Ok (Some cursor)
  | None => Ok (Some (cursor_sqlite epoch channel (stream_head db channel)))
  end.

Definition invalidate_replay (fresh : str) (db : ChannelDb) : ChannelDb := rotate_replay_epoch fresh db.

(** [as i64] of a u64. *)
Definition as_i64 (z : Z) : Z := if (z <=? i64_max)%Z then z else (z - 18446744073709551616)%Z.

Record ChannelAuthResponse := mkAuth {
  auth_replay_window_ms : Z;
  auth_inactivity_ttl_ms : Z;
  auth_keepalive_interval_ms : Z;
  auth_max_connection_lifetime_ms : Z;
}.

Definition sync_channel (now : Z) (channel : str) (auth : ChannelAuthResponse) (db : ChannelDb) : ChannelDb :=
  let '(latest, count, bytes) :=
    match metadata db !! channel with
    | Some m => (latest_message_id m, message_count m, message_bytes m)
    | None => (0, 0, 0)%Z
    end in
  set_metadata db (<[channel := mkMetaRow (as_i64 (auth_replay_window_ms auth))
      (as_i64 (auth_inactivity_ttl_ms auth)) (as_i64 (auth_keepalive_interval_ms auth))
      (as_i64 (auth_max_connection_lifetime_ms auth)) now latest count bytes]> (metadata db)).

Definition latest_ids (channels : list str) (db : ChannelDb) : list (str * Z) :=
  (fun '(c, m) => (c, latest_message_id m))
    <$> retain (fun '(c, m) => any (str_eqb c) channels && (0 <? latest_message_id m)%Z) (hash_iter (metadata db)).

Definition prune (now : Z) (db : ChannelDb) : ChannelDb * result unit ChannelError :=
  let db' := set_presence db (filter (fun '(_, (_, expires_at)) => (now < expires_at)%Z) (presence_rows db)) in
  match load_limits db' with
  | Err e => (db, Err e)
  | Ok l => ((prune_replay l now db').1, Ok tt)
  end.

(** [init_connection] on a new file, and on an existing one: the heads and the counters
    are recomputed from the table, new limits are stored, and the log is pruned. *)
Definition new_db (epoch : str) : ChannelDb :=
  mkChannelDb [] 0 ∅ ∅ ∅ ∅ 0 epoch epoch SqliteReplayLimits_default 0 0 ∅.

Definition sum_bytes (rows : list MessageRow) : Z := fold_right (fun r acc => row_bytes r + acc)%Z 0%Z rows.

Definition recount (db : ChannelDb) : ChannelDb :=
  let db := set_metadata db (map_imap (fun channel m =>
      let rows := sql_select (in_channel channel) (messages db) in
      Some (mkMetaRow (replay_window_ms m) (inactivity_ttl_ms m) (keepalive_interval_ms m)
        (max_connection_lifetime_ms m) (last_activity m) (Z.max (latest_message_id m) (max_id rows))
        (Z.of_nat (length rows)) (sum_bytes rows))) (metadata db)) in
  set_counters db (Z.of_nat (length (messages db))) (sum_bytes (messages db)).

Definition reopen (now : Z) (new_limits : option SqliteReplayLimits) (db : ChannelDb)
    : ChannelDb * result str ChannelError :=
  match transpose (validate <$> new_limits) with
  | Err e => (db, Err e)
  | Ok new_limits =>
      let db' := recount db in
      let db' := match new_limits with Some l => set_limits db' l | None => db' end in
      match load_limits db' with
      | Err e => (db, Err e)
      | Ok l =>
          let db' := (prune_replay l now db').1 in
          if (length (store_epoch db') =? 16)%nat then (db', Ok (store_epoch db'))
          else (db, Err (Storage (bs "invalid channel epoch")))
      end
  end.

(** ** Presence (store/presence.rs) *)

Definition LEASE_MS : Z := 45000.

(** [data_len] is the length of the member's serialized data, [encoded] the member. *)
Definition update_presence (now : Z) (channel connection_id encoded : str) (data_len : Z) (db : ChannelDb)
    : ChannelDb * result unit ChannelError :=
  if (16384 <? data_len)%Z then (db, Err (BadRequest (bs "Presence data must be at most 16 KiB")))
  else (set_presence db (<[(channel, connection_id) := (encoded, now + LEASE_MS)%Z]> (presence_rows db)), Ok tt).

Definition remove_presence (channel connection_id : str) (db : ChannelDb) : ChannelDb :=
  set_presence db (delete (channel, connection_id) (presence_rows db)).
End Store.
