(* ===== verification/ChannelInv.v ===== *)
(** * The channel store: its abstract log and its invariant

    The abstract state of the store is the log of everything ever committed, in order.
    [chan_wf] relates the tables to it: the rows kept are entries of the log, an entry
    that is gone lies at or below the replay floor of its channel, and the counters that
    the triggers maintain are exact.  Every operation preserves it. *)

From S2P Require Import Prelude RustStr Net Codec Sql Cursor ChannelDb.

(** ** Counting rows *)

Definition rows_in (channel : str) (l : list MessageRow) : list MessageRow := retain (in_channel channel) l.
Definition count_in (channel : str) (l : list MessageRow) : Z := Z.of_nat (length (rows_in channel l)).
Definition bytes_in (channel : str) (l : list MessageRow) : Z := sum_bytes (rows_in channel l).

Lemma row_bytes_nonneg r : (0 <= row_bytes r)%Z.
Proof. unfold row_bytes. lia. Qed.

Lemma sum_bytes_nonneg l : (0 <= sum_bytes l)%Z.
Proof. induction l as [|r l IH]; simpl; [lia|]. pose proof (row_bytes_nonneg r). lia. Qed.

Lemma sum_bytes_split p l : sum_bytes l = (sum_bytes (retain p l) + sum_bytes (sql_delete p l))%Z.
Proof. unfold sql_delete. induction l as [|r l IH]; simpl; [done|]. destruct (p r); simpl; lia. Qed.

Lemma length_split {A} (p : A -> bool) l : length l = (length (retain p l) + length (sql_delete p l))%nat.
Proof. unfold sql_delete. induction l as [|r l IH]; simpl; [done|]. destruct (p r); simpl; lia. Qed.

Lemma retain_retain {A} (p q : A -> bool) l : retain p (retain q l) = retain q (retain p l).
Proof.
  induction l as [|r l IH]; simpl; [done|].
  destruct (p r) eqn:Hp, (q r) eqn:Hq; simpl; rewrite ?Hp, ?Hq; congruence.
Qed.

Lemma count_in_split c p l :
  count_in c l = (count_in c (sql_select p l) + count_in c (sql_delete p l))%Z.
Proof.
  unfold count_in, rows_in, sql_select, sql_delete. rewrite !(retain_retain (in_channel c)).
  rewrite (length_split p (retain (in_channel c) l)). unfold sql_delete. lia.
Qed.

Lemma bytes_in_split c p l :
  bytes_in c l = (bytes_in c (sql_select p l) + bytes_in c (sql_delete p l))%Z.
Proof.
  unfold bytes_in, rows_in, sql_select, sql_delete. rewrite !(retain_retain (in_channel c)).
  rewrite (sum_bytes_split p (retain (in_channel c) l)). unfold sql_delete. lia.
Qed.

Lemma in_channel_iff c r : in_channel c r = true <-> msg_channel r = c.
Proof. unfold in_channel, str_eqb. by rewrite bool_decide_eq_true. Qed.

Lemma elem_of_rows_in c l r : r ∈ rows_in c l <-> msg_channel r = c /\ r ∈ l.
Proof. unfold rows_in. by rewrite elem_of_retain, in_channel_iff. Qed.

(** ** What the delete triggers do *)

Definition meta_minus (k b : Z) (m : MetaRow) : MetaRow :=
  mkMetaRow (replay_window_ms m) (inactivity_ttl_ms m) (keepalive_interval_ms m)
    (max_connection_lifetime_ms m) (last_activity m) (latest_message_id m)
    (message_count m - k) (message_bytes m - b).

Definition floor_of (db : ChannelDb) (c : str) : Z := default 0%Z (replay_floor db !! c).

Record deleted_rows (gone : list MessageRow) (db db' : ChannelDb) : Prop := {
  dr_messages : messages db' = messages db;
  dr_auto : autoincrement db' = autoincrement db;
  dr_origins : remote_origins db' = remote_origins db;
  dr_sequence : event_sequence db' = event_sequence db;
  dr_epoch : store_epoch db' = store_epoch db;
  dr_replay : replay_state db' = replay_state db;
  dr_limits : limits db' = limits db;
  dr_presence : presence_rows db' = presence_rows db;
  dr_events i : message_events db' !! i =
    if bool_decide (i ∈ msg_id <$> gone) then None else message_events db !! i;
  dr_meta c : metadata db' !! c = meta_minus (count_in c gone) (bytes_in c gone) <$> metadata db !! c;
  dr_count : store_count db' = (store_count db - Z.of_nat (length gone))%Z;
  dr_bytes : store_bytes db' = (store_bytes db - sum_bytes gone)%Z;
  dr_floor_mono c f : replay_floor db !! c = Some f -> exists f', replay_floor db' !! c = Some f' /\ (f <= f')%Z;
  dr_floor_gone r : r ∈ gone -> exists f', replay_floor db' !! msg_channel r = Some f' /\ (msg_id r <= f')%Z;
  dr_floor_from c f' : replay_floor db' !! c = Some f' ->
    replay_floor db !! c = Some f' \/ exists r, r ∈ gone /\ msg_channel r = c /\ msg_id r = f';
}.

Lemma meta_minus_zero m : meta_minus 0 0 m = m.
Proof. destruct m. unfold meta_minus. simpl. f_equal; lia. Qed.

Lemma meta_minus_minus k b k' b' m : meta_minus k b (meta_minus k' b' m) = meta_minus (k' + k) (b' + b) m.
Proof. unfold meta_minus. simpl. f_equal; lia. Qed.

Lemma message_deleted_one db r : deleted_rows [r] db (message_deleted db r).
Proof.
  split; try done; simpl.
  - intros i. case_bool_decide as Hi.
    + apply list_elem_of_singleton in Hi as ->. by rewrite lookup_delete_eq.
    + rewrite lookup_delete_ne; [done|]. intros <-. apply Hi. left.
  - intros c. destruct (decide (c = msg_channel r)) as [->|Hne].
    + rewrite lookup_alter_eq. unfold count_in, bytes_in, rows_in. simpl.
      rewrite (proj2 (in_channel_iff _ r) eq_refl). simpl. apply option_fmap_ext. intros m.
      unfold add_to_meta, meta_minus. f_equal; lia.
    + rewrite lookup_alter_ne by done. unfold count_in, bytes_in, rows_in. simpl.
      destruct (in_channel c r) eqn:E; [apply in_channel_iff in E; congruence|]. simpl.
      destruct (metadata db !! c); simpl; [by rewrite meta_minus_zero|done].
  - lia.
  - intros c f Hf. destruct (decide (c = msg_channel r)) as [->|Hne].
    + rewrite lookup_insert_eq, Hf. eexists. split; [done|lia].
    + rewrite lookup_insert_ne by done. exists f. split; [done|lia].
  - intros q ->%list_elem_of_singleton. rewrite lookup_insert_eq. eexists. split; [done|].
    destruct (replay_floor db !! _); lia.
  - intros c f'. destruct (decide (c = msg_channel r)) as [->|Hne].
    + rewrite lookup_insert_eq. intros [= <-]. destruct (replay_floor db !! msg_channel r) as [f|].
      * destruct (Z.max_spec f (msg_id r)) as [[_ ->]|[_ ->]]; [right; exists r; split; [left|done]|by left].
      * right. exists r. split; [left|done].
    + rewrite lookup_insert_ne by done. by left.
Qed.

Lemma deleted_rows_trans g1 g2 db1 db2 db3 :
  deleted_rows g1 db1 db2 -> deleted_rows g2 db2 db3 -> deleted_rows (g1 ++ g2) db1 db3.
Proof.
  intros H1 H2. destruct H1, H2. split; try congruence.
  - intros i. rewrite dr_events1, dr_events0, fmap_app.
    repeat case_bool_decide; try done; set_solver.
  - intros c. rewrite dr_meta1, dr_meta0. unfold count_in, bytes_in, rows_in.
    destruct (metadata db1 !! c) as [m|]; simpl; [|done]. rewrite meta_minus_minus. do 2 f_equal.
    + rewrite !retain_filter, List.filter_app, length_app. lia.
    + rewrite !retain_filter, List.filter_app.
      induction (List.filter (in_channel c) g1) as [|r l IH]; simpl; lia.
  - rewrite length_app. lia.
  - rewrite dr_bytes1, dr_bytes0. clear. induction g1 as [|r l IH]; simpl in *; lia.
  - intros c f Hf. destruct (dr_floor_mono0 c f Hf) as (f1 & Hf1 & ?).
    destruct (dr_floor_mono1 c f1 Hf1) as (f2 & Hf2 & ?). exists f2. split; [done|lia].
  - intros r [Hr|Hr]%elem_of_app; [|eauto]. destruct (dr_floor_gone0 r Hr) as (f1 & Hf1 & ?).
    destruct (dr_floor_mono1 _ f1 Hf1) as (f2 & Hf2 & ?). exists f2. split; [done|lia].
  - intros c f' Hf'. destruct (dr_floor_from1 c f' Hf') as [Hf|(r & Hr & ?)].
    + destruct (dr_floor_from0 c f' Hf) as [?|(r & Hr & ?)]; [by left|].
      right. exists r. rewrite elem_of_app. auto.
    + right. exists r. rewrite elem_of_app. auto.
Qed.

Lemma deleted_rows_refl db : deleted_rows [] db db.
Proof.
  split; intros; try done; unfold count_in, bytes_in; simpl; try lia.
  - destruct (metadata db !! c); simpl; [by rewrite meta_minus_zero|done].
  - eexists. split; [done|lia].
  - by apply elem_of_nil in H.
  - by left.
Qed.

Lemma fold_deleted gone db : deleted_rows gone db (fold_left message_deleted gone db).
Proof.
  revert db. induction gone as [|r gone IH]; intros db; simpl; [apply deleted_rows_refl|].
  apply (deleted_rows_trans [r] gone db (message_deleted db r)); [apply message_deleted_one|apply IH].
Qed.

(** ** Deleting rows *)

Definition by_id (a b : MessageRow) : Prop := (msg_id a < msg_id b)%Z.

Lemma delete_messages_deleted p db :
  deleted_rows (sql_select p (messages db)) (set_messages db (sql_delete p (messages db)))
    (delete_messages p db).1.
Proof. apply fold_deleted. Qed.

Lemma delete_messages_rows p db : messages (delete_messages p db).1 = sql_delete p (messages db).
Proof. by destruct (delete_messages_deleted p db). Qed.

Lemma sort_by_sorted_id {A} (leb : A -> A -> bool) l :
  StronglySorted (fun a b => leb a b = true) l -> sort_by leb l = l.
Proof.
  induction 1 as [|x l Hl IH Hx]; simpl; [done|]. rewrite IH.
  destruct l as [|y l]; simpl; [done|]. rewrite List.Forall_forall in Hx. by rewrite (Hx y) by (by left).
Qed.

Lemma retain_sublist {A} (p : A -> bool) (l : list A) : retain p l `sublist_of` l.
Proof. induction l as [|x l IH]; simpl; [constructor|]. destruct (p x); by constructor. Qed.

Lemma StronglySorted_retain {A} (R : A -> A -> Prop) p l :
  StronglySorted R l -> StronglySorted R (retain p l).
Proof.
  induction 1 as [|x l Hl IH Hx]; simpl; [constructor|]. destruct (p x); [|done].
  constructor; [done|]. rewrite List.Forall_forall in *. intros y Hy. apply Hx.
  rewrite <- list_elem_of_In in *. by apply elem_of_retain in Hy as [_ ?].
Qed.

Lemma by_id_NoDup l : StronglySorted by_id l -> NoDup (msg_id <$> l).
Proof.
  induction 1 as [|x l Hl IH Hx]; simpl; [constructor|]. constructor; [|done].
  intros (y & E & Hy)%list_elem_of_fmap. rewrite List.Forall_forall in Hx.
  specialize (Hx y (proj1 (list_elem_of_In _ _) Hy)). unfold by_id in Hx. lia.
Qed.

(** [ORDER BY id] of rows in id order. *)
Lemma select_by_id n p l :
  StronglySorted by_id l -> sql_select_by msg_id n p l = take n (retain p l).
Proof.
  intros Hs. unfold sql_select_by, sql_select. rewrite sort_by_sorted_id; [done|].
  apply (StronglySorted_retain _ p) in Hs. revert Hs. generalize (retain p l) as t.
  induction 1 as [|x t Ht IH Hx]; constructor; [done|].
  eapply List.Forall_impl; [|exact Hx]. intros y Hy. unfold order_leb, by_id in *. lia.
Qed.

Lemma retain_all {A} (q : A -> bool) l : (forall r, r ∈ l -> q r = true) -> retain q l = l.
Proof.
  induction l as [|r l IH]; intros Hq; simpl; [done|]. rewrite (Hq r) by left.
  rewrite IH; [done|]. intros; apply Hq; by right.
Qed.

Lemma retain_none {A} (q : A -> bool) l : (forall r, r ∈ l -> q r = false) -> retain q l = [].
Proof.
  induction l as [|r l IH]; intros Hq; simpl; [done|]. rewrite (Hq r) by left.
  apply IH. intros; apply Hq; by right.
Qed.

Lemma retain_app {A} (q : A -> bool) l k : retain q (l ++ k) = retain q l ++ retain q k.
Proof. by rewrite !retain_filter, List.filter_app. Qed.

Lemma retain_take_drop {A} (q : A -> bool) n l :
  (forall r, r ∈ take n l -> q r = true) -> (forall r, r ∈ drop n l -> q r = false) ->
  retain q l = take n l /\ retain (fun r => negb (q r)) l = drop n l.
Proof.
  intros Ht Hd. rewrite <- (take_drop n l) at 1 3. rewrite !retain_app.
  rewrite (retain_all q (take n l)), (retain_none q (drop n l)) by done.
  rewrite (retain_none _ (take n l)), (retain_all _ (drop n l)); [by rewrite app_nil_r|..];
    intros r Hr; [by rewrite Hd|by rewrite Ht].
Qed.

(** The ids of a prefix pick out exactly that prefix. *)
Lemma retain_prefix_ids n (l : list MessageRow) :
  NoDup (msg_id <$> l) ->
  retain (fun r => bool_decide (msg_id r ∈ msg_id <$> take n l)) l = take n l
  /\ retain (fun r => negb (bool_decide (msg_id r ∈ msg_id <$> take n l))) l = drop n l.
Proof.
  intros Hn. apply (retain_take_drop (fun r => bool_decide (msg_id r ∈ msg_id <$> take n l))).
  - intros r Hr. apply bool_decide_eq_true. apply list_elem_of_fmap. eauto.
  - intros r Hr. apply bool_decide_eq_false. intros Hin.
    rewrite <- (take_drop n l), fmap_app in Hn. apply NoDup_app in Hn as (_ & Hd & _).
    apply (Hd _ Hin). apply list_elem_of_fmap. eauto.
Qed.

Lemma retain_and {A} (p q : A -> bool) l : retain q (retain p l) = retain (fun x => p x && q x) l.
Proof. induction l as [|x l IH]; simpl; [done|]. destruct (p x) eqn:Hp; simpl; rewrite IH; done. Qed.

(** Deleting the [n] oldest of the rows that satisfy [p]. *)
Lemma delete_oldest_spec p n db :
  StronglySorted by_id (messages db) ->
  let '(db', removed) := delete_oldest p n db in
  removed = Nat.min (Z.to_nat n) (length (retain p (messages db)))
  /\ retain p (messages db') = drop (Z.to_nat n) (retain p (messages db))
  /\ (forall r, r ∈ messages db' <-> r ∈ messages db /\ r ∉ take (Z.to_nat n) (retain p (messages db)))
  /\ (length (messages db) = removed + length (messages db'))%nat.
Proof.
  intros Hs. unfold delete_oldest. rewrite select_by_id by done.
  set (t := take (Z.to_nat n) (retain p (messages db))).
  set (q := fun r => bool_decide (msg_id r ∈ msg_id <$> t)).
  destruct (delete_messages q db) as [db' removed] eqn:E.
  assert (Em : messages db' = sql_delete q (messages db)).
  { pose proof (delete_messages_rows q db) as Hm. by rewrite E in Hm. }
  assert (Er : removed = length (retain q (messages db))) by (unfold delete_messages in E; by injection E).
  assert (Hn : NoDup (msg_id <$> retain p (messages db))) by (by apply by_id_NoDup, StronglySorted_retain).
  destruct (retain_prefix_ids (Z.to_nat n) _ Hn) as [H1 H2]. fold t q in H1, H2.
  assert (Hq : forall r, r ∈ messages db -> q r = true <-> r ∈ t).
  { intros r Hr. unfold q. rewrite bool_decide_eq_true, list_elem_of_fmap. split; [|eauto].
    intros (r' & Eid & Hr'). assert (r' ∈ messages db).
    { unfold t in Hr'. apply elem_of_take in Hr' as (i & Hi & _). apply list_elem_of_lookup_2 in Hi.
      by apply elem_of_retain in Hi as [_ ?]. }
    by rewrite (NoDup_key_eq msg_id _ r r' (by_id_NoDup _ Hs) Hr H Eid). }
  assert (Hsel : retain q (messages db) = t).
  { rewrite <- H1, retain_and. apply retain_ext. intros r Hr. destruct (q r) eqn:Hqr; [|by rewrite andb_false_r].
    rewrite andb_true_r. symmetry. apply Hq in Hqr; [|done]. unfold t in Hqr.
    apply elem_of_take in Hqr as (i & Hi & _). apply list_elem_of_lookup_2 in Hi.
    by apply elem_of_retain in Hi as [? _]. }
  split_and!.
  - rewrite Er, Hsel. unfold t. by rewrite length_take.
  - rewrite Em. unfold sql_delete. rewrite retain_retain. exact H2.
  - intros r. rewrite Em, elem_of_sql_delete. split.
    + intros [Hr0 Hr1]. split; [done|]. intros Hr2. apply Hq in Hr2; [congruence|done].
    + intros [Hr0 Hr1]. split; [|done]. apply not_true_iff_false. intros Hr2. by apply Hr1, Hq.
  - rewrite Em, Er. apply length_split.
Qed.

(** ** The invariant of the tables *)

Definition limits_pos (l : SqliteReplayLimits) : Prop :=
  (0 < max_messages_per_stream l)%Z /\ (0 < max_bytes_per_stream l)%Z
  /\ (0 < max_messages l)%Z /\ (0 < max_bytes l)%Z.

Record db_ok (db : ChannelDb) : Prop := {
  ok_sorted : StronglySorted by_id (messages db);
  ok_ids r : r ∈ messages db -> (0 < msg_id r <= autoincrement db)%Z;
  ok_auto : (0 <= autoincrement db <= i64_max)%Z;
  ok_meta c m : metadata db !! c = Some m ->
    message_count m = count_in c (messages db) /\ message_bytes m = bytes_in c (messages db)
    /\ (0 <= latest_message_id m <= autoincrement db)%Z;
  ok_has_meta r : r ∈ messages db -> (msg_id r <= stream_head db (msg_channel r))%Z;
  ok_count : store_count db = Z.of_nat (length (messages db));
  ok_bytes : store_bytes db = sum_bytes (messages db);
  ok_floor c f : replay_floor db !! c = Some f -> (0 <= f <= stream_head db c)%Z;
}.

Lemma stream_head_pos_meta db c : (0 < stream_head db c)%Z -> is_Some (metadata db !! c).
Proof. unfold stream_head. destruct (metadata db !! c); [by eexists|lia]. Qed.

Lemma message_has_meta db r : db_ok db -> r ∈ messages db -> is_Some (metadata db !! msg_channel r).
Proof.
  intros Hok Hr. apply stream_head_pos_meta. pose proof (ok_has_meta db Hok r Hr).
  pose proof (ok_ids db Hok r Hr). lia.
Qed.

Lemma rows_in_no_meta db c : db_ok db -> metadata db !! c = None -> rows_in c (messages db) = [].
Proof.
  intros Hok Hm. apply retain_none. intros q Hq. apply not_true_iff_false. intros Eq%in_channel_iff.
  destruct (message_has_meta db q Hok Hq) as [m Hm2]. rewrite Eq in Hm2. congruence.
Qed.

Lemma stream_head_range db c : db_ok db -> (0 <= stream_head db c <= autoincrement db)%Z.
Proof.
  intros Hok. unfold stream_head. destruct (metadata db !! c) as [m|] eqn:E.
  - by destruct (ok_meta db Hok c m E) as (_ & _ & ?).
  - destruct (ok_auto db Hok). lia.
Qed.

Lemma deleted_head gone db db' c : deleted_rows gone db db' -> stream_head db' c = stream_head db c.
Proof. intros D. unfold stream_head. rewrite (dr_meta _ _ _ D). by destruct (metadata db !! c). Qed.

Lemma delete_messages_ok p db : db_ok db -> db_ok (delete_messages p db).1.
Proof.
  intros Hok. pose proof (delete_messages_deleted p db) as D.
  assert (Hh : forall c, stream_head (delete_messages p db).1 c = stream_head db c)
    by (intros c; by rewrite (deleted_head _ _ _ c D)).
  set (db' := (delete_messages p db).1) in *. destruct D. simpl in *.
  split; rewrite ?dr_messages0, ?dr_auto0; simpl.
  - apply StronglySorted_retain, Hok.
  - intros r [_ Hr]%elem_of_sql_delete. by apply ok_ids.
  - apply Hok.
  - intros c m. rewrite dr_meta0. destruct (metadata db !! c) as [m0|] eqn:E; [|done]. intros [= <-]. simpl.
    destruct (ok_meta db Hok c m0 E) as (-> & -> & Hl). split_and!; [| |lia..].
    + rewrite (count_in_split c p). lia.
    + rewrite (bytes_in_split c p). lia.
  - intros r [_ Hr]%elem_of_sql_delete. rewrite Hh. by apply ok_has_meta.
  - rewrite dr_count0, (ok_count db Hok), (length_split p (messages db)). unfold sql_select. lia.
  - rewrite dr_bytes0, (ok_bytes db Hok), (sum_bytes_split p (messages db)). unfold sql_select. lia.
  - intros c f Hf. rewrite Hh. destruct (dr_floor_from0 c f Hf) as [Hf0|(r & Hr & <- & <-)]; [by apply ok_floor|].
    apply elem_of_sql_select in Hr as [_ Hr]. pose proof (ok_has_meta db Hok r Hr).
    pose proof (ok_ids db Hok r Hr). lia.
Qed.

Lemma delete_oldest_ok p n db : db_ok db -> db_ok (delete_oldest p n db).1.
Proof. apply delete_messages_ok. Qed.

(** ** Termination of the budget loops and what they leave *)

Definition in_stream_budget (l : SqliteReplayLimits) (channel : str) (db : ChannelDb) : Prop :=
  forall m, metadata db !! channel = Some m ->
    (message_count m <= max_messages_per_stream l)%Z /\ (message_bytes m <= max_bytes_per_stream l)%Z.

Definition in_store_budget (l : SqliteReplayLimits) (db : ChannelDb) : Prop :=
  (store_count db <= max_messages l)%Z /\ (store_bytes db <= max_bytes l)%Z.

(** A round that finds the stream over budget deletes a row. *)
Lemma over_stream_budget_removes l channel db m :
  db_ok db -> limits_pos l -> metadata db !! channel = Some m ->
  ((message_count m - max_messages_per_stream l <=? 0)%Z && (message_bytes m <=? max_bytes_per_stream l)%Z) = false ->
  (0 < (delete_oldest (in_channel channel) (Z.max (message_count m - max_messages_per_stream l) 1) db).2)%nat.
Proof.
  intros Hok (Hl1 & Hl2 & _) Hm Hover. destruct (ok_meta db Hok channel m Hm) as (Hc & Hb & _).
  pose proof (delete_oldest_spec (in_channel channel) (Z.max (message_count m - max_messages_per_stream l) 1) db
    (ok_sorted db Hok)) as D.
  destruct (delete_oldest _ _ db) as [db' removed]. destruct D as (-> & _). simpl.
  assert (length (retain (in_channel channel) (messages db)) <> 0).
  { intros E. apply length_zero_iff_nil in E. unfold count_in, bytes_in, rows_in in Hc, Hb.
    rewrite E in Hc, Hb. simpl in Hc, Hb. lia. }
  lia.
Qed.

Lemma over_store_budget_removes l db :
  db_ok db -> limits_pos l ->
  ((store_count db - max_messages l <=? 0)%Z && (store_bytes db <=? max_bytes l)%Z) = false ->
  (0 < (delete_oldest (fun _ => true) (Z.max (store_count db - max_messages l) 1) db).2)%nat.
Proof.
  intros Hok (_ & _ & Hl1 & Hl2) Hover. pose proof (ok_count db Hok) as Hc. pose proof (ok_bytes db Hok) as Hb.
  pose proof (delete_oldest_spec (fun _ => true) (Z.max (store_count db - max_messages l) 1) db
    (ok_sorted db Hok)) as D.
  destruct (delete_oldest _ _ db) as [db' removed]. destruct D as (-> & _). simpl.
  rewrite retain_all by done. assert (length (messages db) <> 0).
  { intros E. apply length_zero_iff_nil in E. rewrite E in Hc, Hb. simpl in Hc, Hb. lia. }
  lia.
Qed.

Lemma delete_oldest_shrinks p n db :
  db_ok db -> (length (messages db) = (delete_oldest p n db).2 + length (messages (delete_oldest p n db).1))%nat.
Proof.
  intros Hok. pose proof (delete_oldest_spec p n db (ok_sorted db Hok)) as D.
  destruct (delete_oldest p n db) as [db' removed]. by destruct D as (_ & _ & _ & D).
Qed.

Lemma enforce_stream_loop_spec l channel fuel db deleted :
  db_ok db -> limits_pos l -> (length (messages db) < fuel)%nat ->
  let out := enforce_stream_loop fuel l channel db deleted in
  db_ok out.1 /\ in_stream_budget l channel out.1
  /\ (length (messages db) + deleted = length (messages out.1) + out.2)%nat
  /\ forall fuel', (length (messages db) < fuel')%nat -> enforce_stream_loop fuel' l channel db deleted = out.
Proof.
  intros Hok Hl. revert db deleted Hok. induction fuel as [|fuel IH]; intros db deleted Hok Hf; [lia|].
  cbn [enforce_stream_loop]. destruct (metadata db !! channel) as [m|] eqn:Hm.
  2:{ split_and!; [done| |done|]; [intros m Hm'; simpl in Hm'; congruence|].
      intros [|fuel'] Hf'; [lia|]. cbn [enforce_stream_loop]. by rewrite Hm. }
  destruct (_ && _) eqn:Hover.
  { split_and!; [done| |done|].
    - intros m' Hm'. simpl in Hm'. rewrite Hm in Hm'. injection Hm' as <-. lia.
    - intros [|fuel'] Hf'; [lia|]. cbn [enforce_stream_loop]. by rewrite Hm, Hover. }
  pose proof (over_stream_budget_removes l channel db m Hok Hl Hm Hover) as Hrem.
  pose proof (delete_oldest_ok (in_channel channel) (Z.max (message_count m - max_messages_per_stream l) 1) db Hok) as Hok'.
  pose proof (delete_oldest_shrinks (in_channel channel) (Z.max (message_count m - max_messages_per_stream l) 1) db Hok) as Hlen.
  destruct (delete_oldest _ _ db) as [db' removed] eqn:D. cbn [fst snd] in *.
  destruct (Nat.eqb_spec removed 0); [lia|].
  destruct (IH db' (deleted + removed) Hok') as (H1 & H2 & H3 & H4); [lia|].
  split_and!; [done|done|lia|]. intros [|fuel'] Hf'; [lia|]. cbn [enforce_stream_loop]. rewrite Hm, Hover, D.
  destruct (Nat.eqb_spec removed 0); [lia|]. apply H4. lia.
Qed.

Lemma enforce_store_loop_spec l fuel db deleted :
  db_ok db -> limits_pos l -> (length (messages db) < fuel)%nat ->
  let out := enforce_store_loop fuel l db deleted in
  db_ok out.1 /\ in_store_budget l out.1
  /\ (length (messages db) + deleted = length (messages out.1) + out.2)%nat
  /\ forall fuel', (length (messages db) < fuel')%nat -> enforce_store_loop fuel' l db deleted = out.
Proof.
  intros Hok Hl. revert db deleted Hok. induction fuel as [|fuel IH]; intros db deleted Hok Hf; [lia|].
  cbn [enforce_store_loop]. destruct (_ && _) eqn:Hover.
  { split_and!; [done|unfold in_store_budget; simpl; lia|done|].
    intros [|fuel'] Hf'; [lia|]. cbn [enforce_store_loop]. by rewrite Hover. }
  pose proof (over_store_budget_removes l db Hok Hl Hover) as Hrem.
  pose proof (delete_oldest_ok (fun _ => true) (Z.max (store_count db - max_messages l) 1) db Hok) as Hok'.
  pose proof (delete_oldest_shrinks (fun _ => true) (Z.max (store_count db - max_messages l) 1) db Hok) as Hlen.
  destruct (delete_oldest _ _ db) as [db' removed] eqn:D. cbn [fst snd] in *.
  destruct (Nat.eqb_spec removed 0); [lia|].
  destruct (IH db' (deleted + removed) Hok') as (H1 & H2 & H3 & H4); [lia|].
  split_and!; [done|done|lia|]. intros [|fuel'] Hf'; [lia|]. cbn [enforce_store_loop]. rewrite Hover, D.
  destruct (Nat.eqb_spec removed 0); [lia|]. apply H4. lia.
Qed.

(** ** Pruning

    All that a delete may change, for a reader of the log. *)
Record pruned (db db' : ChannelDb) : Prop := {
  pr_messages : messages db' `sublist_of` messages db;
  pr_gone r : r ∈ messages db -> r ∈ messages db' \/ (msg_id r <= floor_of db' (msg_channel r))%Z;
  pr_floor c : (floor_of db c <= floor_of db' c)%Z;
  pr_floor_from c f : replay_floor db' !! c = Some f -> replay_floor db !! c = Some f
    \/ exists r, r ∈ messages db /\ r ∉ messages db' /\ msg_channel r = c /\ msg_id r = f;
  pr_events r : r ∈ messages db' -> message_events db' !! msg_id r = message_events db !! msg_id r;
  pr_head c : stream_head db' c = stream_head db c;
  pr_auto : autoincrement db' = autoincrement db;
  pr_origins : remote_origins db' = remote_origins db;
  pr_sequence : event_sequence db' = event_sequence db;
  pr_epoch : store_epoch db' = store_epoch db;
  pr_replay : replay_state db' = replay_state db;
  pr_limits : limits db' = limits db;
}.

(** A step that only prunes, and keeps the tables consistent. *)
Definition prunes (db db' : ChannelDb) : Prop := db_ok db' /\ pruned db db'.

Lemma pruned_refl db : pruned db db.
Proof. split; auto; try done; intros; lia. Qed.

Lemma pruned_trans db1 db2 db3 : pruned db1 db2 -> pruned db2 db3 -> pruned db1 db3.
Proof.
  intros H1 H2. split; try (destruct H1, H2; congruence).
  - etrans; [apply H2|apply H1].
  - intros r Hr. destruct (pr_gone _ _ H1 r Hr) as [Hr2|Hf]; [by apply (pr_gone _ _ H2)|].
    right. pose proof (pr_floor _ _ H2 (msg_channel r)). lia.
  - intros c. pose proof (pr_floor _ _ H1 c). pose proof (pr_floor _ _ H2 c). lia.
  - intros c f Hf. destruct (pr_floor_from _ _ H2 c f Hf) as [Hf2|(r & Hr & Hr3 & Hc)].
    + destruct (pr_floor_from _ _ H1 c f Hf2) as [?|(r & Hr & Hr2 & Hc)]; [by left|].
      right. exists r. split_and!; try done; try apply Hc. intros Hr3. apply Hr2.
      eapply elem_of_submseteq; [exact Hr3|]. apply sublist_submseteq, H2.
    + right. exists r. split_and!; try done; try apply Hc.
      eapply elem_of_submseteq; [exact Hr|]. apply sublist_submseteq, H1.
  - intros r Hr. rewrite (pr_events _ _ H2) by done. apply (pr_events _ _ H1).
    eapply elem_of_submseteq; [exact Hr|]. apply sublist_submseteq, H2.
Qed.

Lemma prunes_trans db1 db2 db3 : prunes db1 db2 -> prunes db2 db3 -> prunes db1 db3.
Proof. intros [_ H1] [? H2]. split; [done|]. by eapply pruned_trans. Qed.

Lemma pruned_sub db db' r : pruned db db' -> r ∈ messages db' -> r ∈ messages db.
Proof. intros H Hr. eapply elem_of_submseteq; [exact Hr|]. apply sublist_submseteq, H. Qed.

Lemma floor_of_Some db c f : replay_floor db !! c = Some f -> floor_of db c = f.
Proof. intros E. unfold floor_of. by rewrite E. Qed.

Lemma delete_messages_prunes p db : db_ok db -> prunes db (delete_messages p db).1.
Proof.
  intros Hok. split; [by apply delete_messages_ok|].
  pose proof (delete_messages_deleted p db) as D.
  assert (Hh : forall c, stream_head (delete_messages p db).1 c = stream_head db c)
    by (intros c; by rewrite (deleted_head _ _ _ c D)).
  pose proof (delete_messages_rows p db) as Hm.
  set (db' := (delete_messages p db).1) in *.
  split; try done; try (by destruct D).
  - rewrite Hm. apply retain_sublist.
  - intros r Hr. rewrite Hm. destruct (p r) eqn:Hp.
    + right. destruct (dr_floor_gone _ _ _ D r) as (f & Hf & ?); [by apply elem_of_sql_select|].
      by rewrite (floor_of_Some _ _ _ Hf).
    + left. by apply elem_of_sql_delete.
  - intros c. unfold floor_of at 1. destruct (replay_floor db !! c) as [f|] eqn:Hf; simpl.
    + destruct (dr_floor_mono _ _ _ D c f Hf) as (f' & Hf' & ?). by rewrite (floor_of_Some _ _ _ Hf').
    + unfold floor_of. destruct (replay_floor db' !! c) as [f|] eqn:Hf'; simpl; [|lia].
      destruct (dr_floor_from _ _ _ D c f Hf') as [Hf2|(r & Hr & _ & <-)]; [simpl in Hf2; congruence|].
      apply elem_of_sql_select in Hr as [_ Hr]. pose proof (ok_ids db Hok r Hr). lia.
  - intros c f Hf. destruct (dr_floor_from _ _ _ D c f Hf) as [Hf2|(r & (Hp & Hr)%elem_of_sql_select & Hc)]; [by left|].
    right. exists r. split_and!; try done; try apply Hc. rewrite Hm, elem_of_sql_delete. intros [? _]. congruence.
  - intros r Hr. rewrite Hm in Hr. apply elem_of_sql_delete in Hr as [Hp Hr].
    rewrite (dr_events _ _ _ D). simpl. rewrite bool_decide_eq_false_2; [done|].
    intros (q & Eq & (Hq & Hq')%elem_of_sql_select)%list_elem_of_fmap.
    rewrite (NoDup_key_eq msg_id _ r q (by_id_NoDup _ (ok_sorted db Hok)) Hr Hq' Eq) in Hp. congruence.
Qed.

Lemma delete_oldest_prunes p n db : db_ok db -> prunes db (delete_oldest p n db).1.
Proof. apply delete_messages_prunes. Qed.

Lemma prunes_refl db : db_ok db -> prunes db db.
Proof. intros. split; [done|apply pruned_refl]. Qed.

Lemma enforce_stream_prunes l channel fuel db deleted :
  db_ok db -> prunes db (enforce_stream_loop fuel l channel db deleted).1.
Proof.
  revert db deleted. induction fuel as [|fuel IH]; intros db deleted Hok; [by apply prunes_refl|].
  cbn [enforce_stream_loop]. destruct (metadata db !! channel) as [m|]; [|by apply prunes_refl].
  destruct (_ && _); [by apply prunes_refl|].
  pose proof (delete_oldest_prunes (in_channel channel) (Z.max (message_count m - max_messages_per_stream l) 1) db Hok) as Hp.
  destruct (delete_oldest _ _ db) as [db' removed]. cbn [fst] in Hp.
  destruct (removed =? 0)%nat; [done|]. eapply prunes_trans; [exact Hp|]. apply IH, Hp.
Qed.

Lemma enforce_store_prunes l fuel db deleted :
  db_ok db -> prunes db (enforce_store_loop fuel l db deleted).1.
Proof.
  revert db deleted. induction fuel as [|fuel IH]; intros db deleted Hok; [by apply prunes_refl|].
  cbn [enforce_store_loop]. destruct (_ && _); [by apply prunes_refl|].
  pose proof (delete_oldest_prunes (fun _ => true) (Z.max (store_count db - max_messages l) 1) db Hok) as Hp.
  destruct (delete_oldest _ _ db) as [db' removed]. cbn [fst] in Hp.
  destruct (removed =? 0)%nat; [done|]. eapply prunes_trans; [exact Hp|]. apply IH, Hp.
Qed.

(** ** Budgets are kept by pruning *)

Lemma sublist_rows_le c l k :
  l `sublist_of` k -> (count_in c l <= count_in c k)%Z /\ (bytes_in c l <= bytes_in c k)%Z.
Proof.
  unfold count_in, bytes_in, rows_in. induction 1 as [|x l k Hl IH|x l k Hl IH]; simpl; [lia| |];
    destruct (in_channel c x); simpl; pose proof (row_bytes_nonneg x); lia.
Qed.

Lemma sublist_sum_le l k : l `sublist_of` k -> (sum_bytes l <= sum_bytes k)%Z.
Proof. induction 1 as [|x l k Hl IH|x l k Hl IH]; simpl; [lia| |]; pose proof (row_bytes_nonneg x); lia. Qed.

Lemma in_stream_budget_prunes l c db db' :
  db_ok db -> limits_pos l -> prunes db db' -> in_stream_budget l c db -> in_stream_budget l c db'.
Proof.
  intros Hok (Hl1 & Hl2 & _) [Hok' Hp] Hb m' Hm'. destruct (ok_meta _ Hok' c m' Hm') as (E1' & E2' & _).
  pose proof (sublist_rows_le c _ _ (pr_messages _ _ Hp)). destruct (metadata db !! c) as [m|] eqn:Hm.
  - destruct (ok_meta _ Hok c m Hm) as (E1 & E2 & _), (Hb m Hm). lia.
  - unfold count_in, bytes_in in *. rewrite (rows_in_no_meta db c Hok Hm) in *. simpl in *. lia.
Qed.

Lemma in_store_budget_prunes l db db' :
  db_ok db -> prunes db db' -> in_store_budget l db -> in_store_budget l db'.
Proof.
  intros Hok [Hok' Hp] [Hc Hb]. unfold in_store_budget.
  rewrite (ok_count _ Hok), (ok_bytes _ Hok) in *. rewrite (ok_count _ Hok'), (ok_bytes _ Hok').
  pose proof (sublist_sum_le _ _ (pr_messages _ _ Hp)).
  pose proof (sublist_length _ _ (pr_messages _ _ Hp)). lia.
Qed.

Lemma enforce_stream_budget_spec l channel db :
  db_ok db -> limits_pos l ->
  prunes db (enforce_stream_budget l channel db).1
  /\ in_stream_budget l channel (enforce_stream_budget l channel db).1.
Proof.
  intros Hok Hl. split; [by apply enforce_stream_prunes|].
  by apply enforce_stream_loop_spec; [| |lia].
Qed.

Lemma enforce_store_budget_spec l db :
  db_ok db -> limits_pos l ->
  prunes db (enforce_store_budget l db).1 /\ in_store_budget l (enforce_store_budget l db).1.
Proof.
  intros Hok Hl. split; [by apply enforce_store_prunes|]. by apply enforce_store_loop_spec; [| |lia].
Qed.

(** ** The newest row survives *)

Definition newest (r : MessageRow) (db : ChannelDb) : Prop :=
  r ∈ messages db /\ forall q, q ∈ messages db -> (msg_id q <= msg_id r)%Z.

Lemma newest_not_taken r n (l : list MessageRow) :
  StronglySorted by_id l -> r ∈ l -> (forall q, q ∈ l -> (msg_id q <= msg_id r)%Z) ->
  (n < length l)%nat -> r ∉ take n l.
Proof.
  intros Hs Hr Hmax Hn Ht. destruct (drop n l) as [|y k] eqn:Ed.
  { apply (f_equal length) in Ed. rewrite length_drop in Ed. simpl in Ed. lia. }
  rewrite <- (take_drop n l), Ed in Hs.
  assert (Hy : y ∈ l) by (rewrite <- (take_drop n l), Ed, elem_of_app; right; left).
  pose proof (StronglySorted_app_1_elem_of _ _ _ r y Hs Ht ltac:(left)) as Hlt.
  specialize (Hmax y Hy). unfold by_id in Hlt. lia.
Qed.

Lemma delete_oldest_newest p n db r :
  db_ok db -> newest r db -> p r = true -> (Z.to_nat n < length (retain p (messages db)))%nat ->
  newest r (delete_oldest p n db).1.
Proof.
  intros Hok [Hr Hmax] Hp Hn. pose proof (delete_oldest_spec p n db (ok_sorted db Hok)) as D.
  destruct (delete_oldest p n db) as [db' removed]. destruct D as (_ & _ & Hin & _). cbn [fst]. split.
  - apply Hin. split; [done|]. apply newest_not_taken; [apply StronglySorted_retain, Hok| | |done].
    + by apply elem_of_retain.
    + intros q [_ Hq]%elem_of_retain. auto.
  - intros q [Hq _]%Hin. auto.
Qed.

(** Rows within a byte budget that only the newest fits are the newest alone. *)
Lemma over_bytes_many r (l : list MessageRow) b :
  r ∈ l -> (row_bytes r <= b)%Z -> (b < sum_bytes l)%Z -> (1 < length l)%nat.
Proof.
  intros Hr Hb Hl. destruct l as [|x [|y l]]; [by apply elem_of_nil in Hr| |simpl; lia].
  apply list_elem_of_singleton in Hr as <-. simpl in Hl. lia.
Qed.

Lemma enforce_stream_newest l fuel db deleted r :
  db_ok db -> limits_pos l -> newest r db -> (row_bytes r <= max_bytes_per_stream l)%Z ->
  newest r (enforce_stream_loop fuel l (msg_channel r) db deleted).1.
Proof.
  intros Hok Hl Hn Hb. revert db deleted Hok Hn.
  induction fuel as [|fuel IH]; intros db deleted Hok Hn; [done|].
  cbn [enforce_stream_loop]. destruct (metadata db !! msg_channel r) as [m|] eqn:Em; [|done].
  destruct (_ && _) eqn:Ho; [done|]. destruct (ok_meta db Hok _ m Em) as (Ec & Eb & _).
  set (n := Z.max (message_count m - max_messages_per_stream l) 1).
  pose proof (delete_oldest_ok (in_channel (msg_channel r)) n db Hok) as Hok'.
  assert (Hn' : newest r (delete_oldest (in_channel (msg_channel r)) n db).1).
  { assert (Hr : r ∈ rows_in (msg_channel r) (messages db)) by (apply elem_of_rows_in; split; [done|apply Hn]).
    apply delete_oldest_newest; [done|done|by apply in_channel_iff|].
    unfold count_in, bytes_in, rows_in in *. destruct Hl as (? & ? & _).
    destruct (Z.leb_spec (message_count m - max_messages_per_stream l) 0); [|lia].
    pose proof (over_bytes_many r _ _ Hr Hb). lia. }
  destruct (delete_oldest _ _ db) as [db' removed]. cbn [fst] in *.
  destruct (removed =? 0)%nat; [done|]. by apply IH.
Qed.

Lemma enforce_store_newest l fuel db deleted r :
  db_ok db -> limits_pos l -> newest r db -> (row_bytes r <= max_bytes l)%Z ->
  newest r (enforce_store_loop fuel l db deleted).1.
Proof.
  intros Hok Hl Hn Hb. revert db deleted Hok Hn.
  induction fuel as [|fuel IH]; intros db deleted Hok Hn; [done|].
  cbn [enforce_store_loop]. destruct (_ && _) eqn:Ho; [done|].
  pose proof (ok_count db Hok) as Ec. pose proof (ok_bytes db Hok) as Eb.
  set (n := Z.max (store_count db - max_messages l) 1).
  pose proof (delete_oldest_ok (fun _ => true) n db Hok) as Hok'.
  assert (Hn' : newest r (delete_oldest (fun _ => true) n db).1).
  { apply delete_oldest_newest; [done|done|done|]. rewrite retain_all by done. destruct Hl as (_ & _ & ? & ?).
    destruct (Z.leb_spec (store_count db - max_messages l) 0); [|lia].
    pose proof (over_bytes_many r _ _ (proj1 Hn) Hb). lia. }
  destruct (delete_oldest _ _ db) as [db' removed]. cbn [fst] in *.
  destruct (removed =? 0)%nat; [done|]. by apply IH.
Qed.
