(* ===== verification/ChannelLog.v ===== *)
(** * The channel store: the log of commits

    The abstract state of the store is the log of everything it committed, in order, with
    no pruning.  [store_ok] relates the tables to it, and every operation preserves the
    relation: the rows kept are entries of the log, an entry that is gone lies at or below
    the replay floor of its channel, the counters of the triggers are exact and within the
    limits, and the events of an origin are committed in the order of their sequence. *)

From S2P Require Import Prelude RustStr Net Codec Sql Cursor ChannelDb ChannelInv.

Section Log.
Context `{J : JsonApi} `{E : EventIdJson} {B : Base64Api} {H : Sha256Api} `{!HashIter str MetaRow}.

(** ** Pruning the whole store *)

Lemma fold_prunes {X} (f : ChannelDb -> X -> ChannelDb * nat) (xs : list X) db n :
  (forall db x, db_ok db -> prunes db (f db x).1) -> db_ok db ->
  prunes db (fold_left (fun '(db, n) x => let '(db', k) := f db x in (db', (n + k)%nat)) xs (db, n)).1.
Proof.
  intros Hf. revert db n. induction xs as [|x xs IH]; intros db n Hok; simpl; [by apply prunes_refl|].
  pose proof (Hf db x Hok) as Hp. destruct (f db x) as [db' k]. cbn [fst] in Hp.
  eapply prunes_trans; [exact Hp|]. apply IH, Hp.
Qed.

Lemma fold_left_pair {X} (f : ChannelDb -> str -> X -> ChannelDb * nat) (xs : list (str * X)) acc :
  fold_left (fun '(db, n) '(c, x) => let '(db', k) := f db c x in (db', (n + k)%nat)) xs acc
  = fold_left (fun '(db, n) cx => let '(db', k) := f db cx.1 cx.2 in (db', (n + k)%nat)) xs acc.
Proof. revert acc. induction xs as [|[c x] xs IH]; intros [db n]; simpl; [done|]. apply IH. Qed.

Lemma prune_age_prunes l now db : db_ok db -> prunes db (prune_age l now db).1.
Proof.
  intros Hok. unfold prune_age.
  rewrite (fold_left_pair (fun db c m => delete_messages (expired c (age_cutoff l (Some (lifecycle_of m)) now)) db)).
  apply fold_prunes; [|done]. intros db0 x Hok0. by apply delete_messages_prunes.
Qed.

(** Enforcing the budget of every stream of a list. *)
Lemma enforce_streams l (xs : list (str * MetaRow)) db n :
  db_ok db -> limits_pos l ->
  let out := (fold_left (fun '(db, n) '(c, _) =>
    let '(db', k) := enforce_stream_budget l c db in (db', (n + k)%nat)) xs (db, n)).1 in
  prunes db out /\ forall c, c ∈ xs.*1 \/ in_stream_budget l c db -> in_stream_budget l c out.
Proof.
  intros Hok Hl. rewrite (fold_left_pair (fun db c _ => enforce_stream_budget l c db)).
  revert db n Hok. induction xs as [|[c0 m0] xs IH]; intros db n Hok; simpl.
  { split; [by apply prunes_refl|]. by intros c [?%elem_of_nil|]. }
  destruct (enforce_stream_budget_spec l c0 db Hok Hl) as [Hp Hb].
  destruct (enforce_stream_budget l c0 db) as [db' k]. cbn [fst] in Hp, Hb.
  destruct (IH db' (n + k)%nat (proj1 Hp)) as [Hp2 Hb2]. split; [by eapply prunes_trans|].
  intros c Hc. apply Hb2. destruct Hc as [[->|Hc]%elem_of_cons|Hc]; [by right|by left|].
  right. by eapply in_stream_budget_prunes.
Qed.

Definition in_budget (l : SqliteReplayLimits) (db : ChannelDb) : Prop :=
  in_store_budget l db /\ forall c, in_stream_budget l c db.

Lemma in_budget_prunes l db db' : db_ok db -> limits_pos l -> prunes db db' -> in_budget l db -> in_budget l db'.
Proof.
  intros Hok Hl Hp [H1 H2]. split; [by eapply in_store_budget_prunes|].
  intros c. by eapply in_stream_budget_prunes.
Qed.

Lemma prune_replay_spec l now db :
  db_ok db -> limits_pos l ->
  prunes db (prune_replay l now db).1 /\ in_budget l (prune_replay l now db).1.
Proof.
  intros Hok Hl. unfold prune_replay. pose proof (prune_age_prunes l now db Hok) as H1.
  destruct (prune_age l now db) as [db1 n1]. cbn [fst] in H1.
  pose proof (enforce_streams l (retain (fun '(_, m) => over_budget l m) (hash_iter (metadata db1))) db1 n1
    (proj1 H1) Hl) as H2. cbv zeta in H2.
  destruct (fold_left _ _ (db1, n1)) as [db2 n2]. cbn [fst] in H2. destruct H2 as [H2 H2b].
  destruct (enforce_store_budget_spec l db2 (proj1 H2) Hl) as [H3 H3b].
  destruct (enforce_store_budget l db2) as [db3 n3]. cbn [fst] in *.
  split; [eapply prunes_trans; [exact H1|by eapply prunes_trans]|]. split; [done|].
  intros c. eapply in_stream_budget_prunes; [exact (proj1 H2)|done|exact H3|]. apply H2b.
  destruct (metadata db1 !! c) as [m|] eqn:Em.
  - destruct (over_budget l m) eqn:Eo.
    + left. apply list_elem_of_fmap. exists (c, m). split; [done|]. apply elem_of_retain.
      split; [done|]. by rewrite hash_iter_perm, elem_of_map_to_list.
    + right. intros m' Hm'. rewrite Em in Hm'. injection Hm' as <-. unfold over_budget in Eo. lia.
  - right. intros m' Hm'. congruence.
Qed.

(** Opening a consistent database leaves its counters alone. *)
Lemma max_id_le rows b : (0 <= b)%Z -> (forall r, r ∈ rows -> (msg_id r <= b)%Z) -> (max_id rows <= b)%Z.
Proof.
  intros Hb. induction rows as [|r rows IH]; simpl; intros Hr; [done|].
  pose proof (Hr r ltac:(left)). assert (max_id rows <= b)%Z by (apply IH; intros; apply Hr; by right). lia.
Qed.

Lemma max_id_ge rows r : r ∈ rows -> (msg_id r <= max_id rows)%Z.
Proof. induction 1 as [x l|x y l Hl IH]; simpl; lia. Qed.

Lemma max_id_nonneg rows : (0 <= max_id rows)%Z.
Proof. induction rows as [|r rows IH]; simpl; lia. Qed.

Lemma recount_id db : db_ok db -> recount db = db.
Proof.
  intros Hok. assert (Em : metadata (recount db) = metadata db).
  { apply map_eq. intros c. unfold recount. cbn [metadata set_counters set_metadata].
    rewrite map_lookup_imap. destruct (metadata db !! c) as [m|] eqn:Em; [|done]. simpl.
    destruct (ok_meta db Hok c m Em) as (Ec & Eb & Hl). unfold sql_select.
    unfold count_in, bytes_in, rows_in in Ec, Eb. rewrite <- Ec, <- Eb.
    rewrite Z.max_l; [by destruct m|]. apply max_id_le; [lia|].
    intros r (Hc%in_channel_iff & Hr)%elem_of_retain. pose proof (ok_has_meta db Hok r Hr) as Hh.
    unfold stream_head in Hh. by rewrite Hc, Em in Hh. }
  transitivity (set_counters (set_metadata db (metadata (recount db)))
    (Z.of_nat (length (messages db))) (sum_bytes (messages db))); [done|].
  rewrite Em, <- (ok_count db Hok), <- (ok_bytes db Hok). by destruct db.
Qed.

(** ** Appending a row *)

Lemma rows_in_app c l k : rows_in c (l ++ k) = rows_in c l ++ rows_in c k.
Proof. apply retain_app. Qed.

Lemma sum_bytes_app l k : sum_bytes (l ++ k) = (sum_bytes l + sum_bytes k)%Z.
Proof. induction l as [|r l IH]; simpl; [done|]. lia. Qed.

Lemma StronglySorted_snoc {A} (R : A -> A -> Prop) l x :
  StronglySorted R l -> (forall y, y ∈ l -> R y x) -> StronglySorted R (l ++ [x]).
Proof.
  induction 1 as [|y l Hl IH Hy]; intros Hx; simpl; [by repeat constructor|].
  constructor; [apply IH; intros; apply Hx; by right|].
  apply Forall_app. split; [done|]. constructor; [apply Hx; left|constructor].
Qed.

Lemma append_row_meta now r j db c :
  metadata (append_row now r j db) !! c =
  if decide (c = msg_channel r)
  then Some (set_latest (msg_id r) (add_to_meta 1 r (touch_meta now (metadata db !! c))))
  else metadata db !! c.
Proof.
  unfold append_row, insert_message, count_message. simpl. destruct (decide (c = msg_channel r)) as [->|Hne].
  - by rewrite !lookup_alter_eq, lookup_insert_eq.
  - by rewrite !lookup_alter_ne, lookup_insert_ne by done.
Qed.

Lemma append_row_head now r j db c :
  stream_head (append_row now r j db) c = if decide (c = msg_channel r) then msg_id r else stream_head db c.
Proof. unfold stream_head. rewrite append_row_meta. by destruct (decide _). Qed.

Lemma append_row_ok now r j db :
  db_ok db -> msg_id r = (autoincrement db + 1)%Z -> (autoincrement db < i64_max)%Z ->
  db_ok (append_row now r j db).
Proof.
  intros Hok Hid Hmax. pose proof (ok_auto db Hok) as Ha.
  assert (Hin : forall q, q ∈ messages db ++ [r] -> q ∈ messages db \/ q = r).
  { intros q [?|?%list_elem_of_singleton]%elem_of_app; auto. }
  split; change (messages (append_row now r j db)) with (messages db ++ [r]);
    change (autoincrement (append_row now r j db)) with (msg_id r).
  - apply StronglySorted_snoc; [apply Hok|]. intros q Hq. unfold by_id. pose proof (ok_ids db Hok q Hq). lia.
  - intros q [Hq| ->]%Hin; [|lia]. pose proof (ok_ids db Hok q Hq). lia.
  - lia.
  - intros c m. rewrite append_row_meta. unfold count_in, bytes_in. rewrite rows_in_app, sum_bytes_app, length_app.
    destruct (decide (c = msg_channel r)) as [->|Hne].
    + intros [= <-]. unfold rows_in at 2 4. simpl. rewrite (proj2 (in_channel_iff _ r) eq_refl). simpl.
      destruct (metadata db !! msg_channel r) as [m|] eqn:Em; simpl.
      * destruct (ok_meta db Hok _ m Em) as (-> & -> & _). unfold count_in, bytes_in. lia.
      * rewrite (rows_in_no_meta db _ Hok Em). simpl. lia.
    + intros Em. unfold rows_in at 2 4. simpl. destruct (in_channel c r) eqn:Ec; [by apply in_channel_iff in Ec|].
      destruct (ok_meta db Hok _ m Em) as (-> & -> & ?). unfold count_in, bytes_in. simpl. lia.
  - intros q Hq. rewrite append_row_head. destruct (Hin q Hq) as [Hq'| ->].
    + destruct (decide _) as [Ec|]; [pose proof (ok_ids db Hok q Hq'); lia|by apply ok_has_meta].
    + by destruct (decide _).
  - cbn -[Z.add]. rewrite (ok_count db Hok), length_app. simpl. lia.
  - cbn -[Z.add]. rewrite (ok_bytes db Hok), sum_bytes_app. simpl. lia.
  - intros c f Hf. rewrite append_row_head. pose proof (ok_floor db Hok c f Hf).
    pose proof (stream_head_range db c Hok). destruct (decide _); lia.
Qed.

(** ** The log *)

Record Committed := mkCommitted { c_row : MessageRow; c_event : ChannelEventId; c_data : Json }.

(** What a successful append of [event] adds to the log. *)
Definition committed (now : Z) (event : ChannelEvent) (db : ChannelDb) : list Committed :=
  if ev_ephemeral event then []
  else
    match json_to_string (pay_data (ev_payload event)) with
    | None => []
    | Some t =>
        [mkCommitted (mkMessageRow (autoincrement db + 1) (ev_channel event) (pay_type (ev_payload event)) t now)
           (ev_id event) (pay_data (ev_payload event))]
    end.

(** The last position of a channel in the log. *)
Definition log_head (c : str) (log : list Committed) : Z := max_id (rows_in c (c_row <$> log)).

Record log_ok (log : list Committed) (db : ChannelDb) : Prop := {
  lg_sorted : StronglySorted by_id (c_row <$> log);
  lg_ids e : e ∈ log -> (0 < msg_id (c_row e) <= stream_head db (msg_channel (c_row e)))%Z;
  lg_json e : e ∈ log -> json_to_string (c_data e) = Some (msg_data (c_row e));
  lg_rows r : r ∈ messages db -> exists e j, e ∈ log /\ c_row e = r
    /\ event_id_to_string (c_event e) = Some j /\ message_events db !! msg_id r = Some j;
  lg_kept e : e ∈ log -> c_row e ∈ messages db \/ (msg_id (c_row e) <= floor_of db (msg_channel (c_row e)))%Z;
  lg_head c : stream_head db c = log_head c log;
  lg_floor c f : replay_floor db !! c = Some f ->
    exists e, e ∈ log /\ c_row e ∉ messages db /\ msg_channel (c_row e) = c /\ msg_id (c_row e) = f;
}.

Lemma log_ok_pruned log db db' : log_ok log db -> pruned db db' -> log_ok log db'.
Proof.
  intros L P. split.
  - apply L.
  - intros e He. rewrite (pr_head _ _ P). by apply L.
  - apply L.
  - intros r Hr. destruct (lg_rows _ _ L r (pruned_sub _ _ _ P Hr)) as (e & j & ? & ? & ? & ?).
    exists e, j. by rewrite (pr_events _ _ P).
  - intros e He. destruct (lg_kept _ _ L e He) as [Hk|Hf]; [by apply (pr_gone _ _ P)|].
    right. pose proof (pr_floor _ _ P (msg_channel (c_row e))). lia.
  - intros c. rewrite (pr_head _ _ P). apply L.
  - intros c f Hf. destruct (pr_floor_from _ _ P c f Hf) as [Hf2|(r & Hr & Hr' & Hc)].
    + destruct (lg_floor _ _ L c f Hf2) as (e & He & Hn & Hc). exists e. split_and!; try done; try apply Hc.
      intros Hk. by apply Hn, (pruned_sub _ _ _ P).
    + destruct (lg_rows _ _ L r Hr) as (e & _ & He & <- & _). by exists e.
Qed.

Lemma max_id_app l k : max_id (l ++ k) = Z.max (max_id l) (max_id k).
Proof. induction l as [|r l IH]; simpl; [pose proof (max_id_nonneg k); lia|]. lia. Qed.

Lemma log_head_app c log k : log_head c (log ++ k) = Z.max (log_head c log) (log_head c k).
Proof. unfold log_head. by rewrite fmap_app, rows_in_app, max_id_app. Qed.

Lemma append_row_log log now e j db :
  db_ok db -> log_ok log db -> msg_id (c_row e) = (autoincrement db + 1)%Z ->
  json_to_string (c_data e) = Some (msg_data (c_row e)) -> event_id_to_string (c_event e) = Some j ->
  log_ok (log ++ [e]) (append_row now (c_row e) j db).
Proof.
  intros Hok L Hid Hd Hj. pose proof (ok_auto db Hok).
  assert (Hin : forall x, x ∈ log ++ [e] -> x ∈ log \/ x = e).
  { intros q [?|?%list_elem_of_singleton]%elem_of_app; auto. }
  assert (Hle : forall x, x ∈ log -> (msg_id (c_row x) <= autoincrement db)%Z).
  { intros x Hx. pose proof (lg_ids _ _ L x Hx).
    pose proof (stream_head_range db (msg_channel (c_row x)) Hok). lia. }
  split.
  - rewrite fmap_app. apply StronglySorted_snoc; [apply L|].
    intros r (x & -> & Hx)%list_elem_of_fmap. unfold by_id. specialize (Hle x Hx). lia.
  - intros x Hx. rewrite append_row_head. destruct (Hin x Hx) as [Hx'| ->].
    + pose proof (lg_ids _ _ L x Hx'). specialize (Hle x Hx'). destruct (decide _); lia.
    + destruct (decide _); [lia|done].
  - intros x Hx. destruct (Hin x Hx) as [Hx'| ->]; [by apply L|done].
  - intros r [Hr|Hr%list_elem_of_singleton]%elem_of_app.
    + destruct (lg_rows _ _ L r Hr) as (x & i & Hx & Er & Ei & Em). exists x, i.
      split_and!; [rewrite elem_of_app; auto|done|done|]. simpl.
      rewrite lookup_insert_ne; [done|]. intros Hne. specialize (Hle x Hx). subst r. lia.
    + exists e, j. subst r. split_and!; [rewrite elem_of_app, list_elem_of_singleton; auto|done|done|].
      simpl. by rewrite lookup_insert_eq.
  - intros x Hx. change (messages (append_row now (c_row e) j db)) with (messages db ++ [c_row e]).
    rewrite elem_of_app, list_elem_of_singleton. destruct (Hin x Hx) as [Hx'| ->]; [|auto].
    destruct (lg_kept _ _ L x Hx') as [?|?]; auto.
  - intros c. rewrite append_row_head, log_head_app, <- (lg_head _ _ L c).
    pose proof (stream_head_range db c Hok). unfold log_head, rows_in. simpl.
    destruct (decide _) as [Ec|Ec].
    + rewrite (proj2 (in_channel_iff c (c_row e)) (eq_sym Ec)). simpl. lia.
    + destruct (in_channel c (c_row e)) eqn:Eb; [by apply in_channel_iff in Eb|]. simpl. lia.
  - intros c f Hf. destruct (lg_floor _ _ L c f Hf) as (x & Hx & Hn & Hc). exists x.
    split_and!; try apply Hc; [rewrite elem_of_app; auto|].
    intros [?|Hxe%list_elem_of_singleton]%elem_of_app; [done|]. specialize (Hle x Hx). rewrite Hxe in Hle. lia.
Qed.

(** The state beside the log. *)
Definition same_state (db db' : ChannelDb) : Prop :=
  remote_origins db' = remote_origins db /\ event_sequence db' = event_sequence db
  /\ store_epoch db' = store_epoch db /\ replay_state db' = replay_state db /\ limits db' = limits db.

Lemma pruned_same_state db db' : pruned db db' -> same_state db db'.
Proof. by intros []. Qed.

Lemma validate_pos l l' : validate l = Ok l' -> l' = l /\ limits_ok l = true.
Proof. unfold validate. destruct (limits_ok l); [by intros [= <-]|done]. Qed.

(** The row that [append_event] wrote, after both budgets. *)
Definition appended (now : Z) (r : MessageRow) (j : str) (db : ChannelDb) : ChannelDb :=
  let db1 := (enforce_stream_budget (limits db) (msg_channel r) (append_row now r j db)).1 in
  (enforce_store_budget (limits db) db1).1.

Lemma append_event_Ok now epoch event db db' m :
  append_event now epoch event db = Ok (db', m) ->
  (ev_ephemeral event = true /\ db' = db /\ committed now event db = [])
  \/ exists e j, committed now event db = [e] /\ event_id_to_string (ev_id event) = Some j
     /\ json_to_string (c_data e) = Some (msg_data (c_row e)) /\ c_event e = ev_id event
     /\ msg_channel (c_row e) = ev_channel event
     /\ msg_id (c_row e) = (autoincrement db + 1)%Z /\ (autoincrement db <> i64_max)%Z
     /\ (row_bytes (c_row e) <= max_bytes (limits db))%Z
     /\ (row_bytes (c_row e) <= max_bytes_per_stream (limits db))%Z
     /\ db' = appended now (c_row e) j db.
Proof.
  unfold append_event, committed. destruct (ev_ephemeral event); [intros [= <- <-]; by left|].
  destruct (json_to_string _) as [t|] eqn:Et; [|done]. unfold load_limits.
  destruct (validate (limits db)) as [l|] eqn:Ev; [|done]. apply validate_pos in Ev as [-> _].
  destruct (_ || _) eqn:Eb; [done|]. destruct (Z.eqb_spec (autoincrement db) i64_max); [done|].
  destruct (event_id_to_string _) as [j|] eqn:Ej; [|done]. intros [= <- <-]. right.
  eexists _, j. split; [done|]. cbn [c_row c_event c_data msg_data msg_channel msg_id].
  split; [reflexivity|]. split; [exact Et|]. split; [reflexivity|]. split; [reflexivity|].
  split; [reflexivity|]. split; [assumption|].
  split; [unfold row_bytes; cbn [msg_channel msg_type msg_data]; lia|].
  split; [unfold row_bytes; cbn [msg_channel msg_type msg_data]; lia|]. 
  unfold appended. cbn [msg_channel]. reflexivity.
Qed.

Lemma appended_spec log now e j db :
  db_ok db -> log_ok log db -> limits_pos (limits db) -> in_budget (limits db) db ->
  msg_id (c_row e) = (autoincrement db + 1)%Z -> autoincrement db <> i64_max ->
  json_to_string (c_data e) = Some (msg_data (c_row e)) -> event_id_to_string (c_event e) = Some j ->
  let db' := appended now (c_row e) j db in
  db_ok db' /\ log_ok (log ++ [e]) db' /\ in_budget (limits db) db' /\ same_state db db'.
Proof.
  intros Hok L Hl [_ Hb] Hid Hmax Hd Hj. pose proof (ok_auto db Hok).
  pose proof (append_row_ok now (c_row e) j db Hok Hid ltac:(lia)) as Hok1.
  pose proof (append_row_log log now e j db Hok L Hid Hd Hj) as L1.
  unfold appended. set (db1 := append_row now (c_row e) j db) in *.
  destruct (enforce_stream_budget_spec (limits db) (msg_channel (c_row e)) db1 Hok1 Hl) as [P2 B2].
  set (db2 := (enforce_stream_budget _ _ db1).1) in *.
  destruct (enforce_store_budget_spec (limits db) db2 (proj1 P2) Hl) as [P3 B3].
  pose proof (prunes_trans _ _ _ P2 P3) as [Hok3 P]. split_and!; [done|by eapply log_ok_pruned| |].
  - split; [done|]. intros c. eapply in_stream_budget_prunes; [apply P2|done|exact P3|].
    destruct (decide (c = msg_channel (c_row e))) as [->|Hne]; [done|].
    eapply in_stream_budget_prunes; [exact Hok1|done|exact P2|]. intros m. unfold db1. rewrite append_row_meta.
    destruct (decide _); [done|]. apply Hb.
  - apply pruned_same_state in P. exact P.
Qed.

(** The row just published is kept. *)
Lemma appended_newest now r j db :
  db_ok db -> limits_pos (limits db) -> msg_id r = (autoincrement db + 1)%Z -> autoincrement db <> i64_max ->
  (row_bytes r <= max_bytes (limits db))%Z -> (row_bytes r <= max_bytes_per_stream (limits db))%Z ->
  newest r (appended now r j db).
Proof.
  intros Hok Hl Hid Hmax Hb1 Hb2. pose proof (ok_auto db Hok). unfold appended.
  pose proof (append_row_ok now r j db Hok Hid ltac:(lia)) as Hok1.
  apply enforce_store_newest; [|done| |done].
  { by apply enforce_stream_budget_spec. }
  apply enforce_stream_newest; [done|done| |done].
  change (newest r (append_row now r j db)) with
    (r ∈ messages db ++ [r] /\ forall q, q ∈ messages db ++ [r] -> (msg_id q <= msg_id r)%Z).
  split; [rewrite elem_of_app, list_elem_of_singleton; auto|].
  intros q [Hq|Hq%list_elem_of_singleton]%elem_of_app; [|by subst].
  pose proof (ok_ids db Hok q Hq). lia.
Qed.

(** ** The state of the store *)

Record tables_ok (log : list Committed) (db : ChannelDb) : Prop := {
  tb_db : db_ok db;
  tb_log : log_ok log db;
  tb_limits : limits_ok (limits db) = true;
  tb_pos : limits_pos (limits db);
  tb_budget : in_budget (limits db) db;
}.

(** The last sequence number seen of an origin. *)
Definition high_water (db : ChannelDb) (o : str) : Z :=
  if decide (o = b64_encode (store_epoch db)) then event_sequence db
  else default 0%Z (remote_origins db !! o).

(** Events of one origin come in the order of their numbers. *)
Definition event_order (a b : ChannelEventId) : Prop := origin a = origin b -> (sequence a < sequence b)%Z.

Record store_ok (log : list Committed) (db : ChannelDb) : Prop := {
  so_tables : tables_ok log db;
  so_replay : length (replay_state db) = 16;
  so_epoch : length (store_epoch db) = 16;
  so_sequence : (0 <= event_sequence db <= i64_max)%Z;
  so_order : StronglySorted event_order (c_event <$> log);
  so_high e : e ∈ log -> (sequence (c_event e) <= high_water db (origin (c_event e)))%Z;
}.

Lemma tables_ok_prunes log db db' : tables_ok log db -> prunes db db' -> tables_ok log db'.
Proof.
  intros [] [Hok P]. split; rewrite ?(pr_limits _ _ P); try done; [by eapply log_ok_pruned|].
  by apply (in_budget_prunes _ db).
Qed.

Lemma high_water_ext db db' o :
  remote_origins db' = remote_origins db -> event_sequence db' = event_sequence db ->
  store_epoch db' = store_epoch db -> high_water db' o = high_water db o.
Proof. unfold high_water. by intros -> -> ->. Qed.

Lemma store_ok_prunes log db db' : store_ok log db -> prunes db db' -> store_ok log db'.
Proof.
  intros [] Hp. pose proof (tables_ok_prunes _ _ _ so_tables0 Hp). destruct Hp as [_ P].
  split; rewrite ?(pr_replay _ _ P), ?(pr_epoch _ _ P), ?(pr_sequence _ _ P); try done.
  intros e He. rewrite (high_water_ext db) by apply P. auto.
Qed.

(** The tables do not depend on the rest of the state. *)
Ltac tables_frame :=
  intros [[] [] ? ? [[] Hb]]; split; [split|split|..|split; [split|]]; simpl; eauto.

Lemma tables_set_sequence log db v : tables_ok log db -> tables_ok log (set_sequence db v).
Proof. tables_frame. Qed.

Lemma tables_set_replay log db v : tables_ok log db -> tables_ok log (set_replay_state db v).
Proof. tables_frame. Qed.

Lemma tables_set_origins log db v : tables_ok log db -> tables_ok log (set_origins db v).
Proof. tables_frame. Qed.

Lemma tables_set_presence log db v : tables_ok log db -> tables_ok log (set_presence db v).
Proof. tables_frame. Qed.

Lemma append_event_tables log now epoch event db db' m :
  tables_ok log db -> append_event now epoch event db = Ok (db', m) ->
  tables_ok (log ++ committed now event db) db' /\ same_state db db'
  /\ forall e, e ∈ committed now event db -> c_event e = ev_id event /\ newest (c_row e) db'.
Proof.
  intros [Hok L Hlo Hl Hb] Ha.
  destruct (append_event_Ok _ _ _ _ _ _ Ha) as [(_ & -> & ->)|(e & j & -> & Ej & Ed & Ee & _ & Hid & Hmax & Hb1 & Hb2 & ->)].
  - rewrite app_nil_r. split_and!; try done. by intros e ?%elem_of_nil.
  - destruct (appended_spec log now e j db) as (Hok' & L' & Hb' & S); try done; [by rewrite Ee|].
    assert (El : limits (appended now (c_row e) j db) = limits db) by apply S.
    split_and!; [split; by rewrite ?El|done|].
    intros e' ->%list_elem_of_singleton. split; [done|]. by apply appended_newest.
Qed.

Lemma StronglySorted_app_small {A} (R : A -> A -> Prop) l k x :
  StronglySorted R l -> (forall y, y ∈ l -> R y x) -> k = [] \/ k = [x] -> StronglySorted R (l ++ k).
Proof. intros Hl Hx [->| ->]; [by rewrite app_nil_r|by apply StronglySorted_snoc]. Qed.

Lemma committed_events now event db :
  c_event <$> committed now event db = [] \/ c_event <$> committed now event db = [ev_id event].
Proof. unfold committed. destruct (ev_ephemeral event); [auto|]. destruct (json_to_string _); auto. Qed.
End Log.
