(* ===== verification/ChannelProps.v ===== *)
(** * The channel store: runs of operations and reads

    A run is any sequence of the operations of the store.  Its ghost log is what the
    successful publishes and accepted remote events committed.  Every operation preserves
    [store_ok], and a read with a cursor is a read of the log. *)

From S2P Require Import Prelude RustStr Net Codec Sql Cursor ChannelDb ChannelInv ChannelLog.

Section Runs.
Context `{J : JsonApi} `{E : EventIdJson} {B : Base64Api} {H : Sha256Api} `{!HashIter str MetaRow}.

Inductive StoreOp :=
| OpPublish (now : Z) (channel : str) (payload : ChannelPublishPayload) (ephemeral : bool)
| OpIngest (now : Z) (fresh : str) (event : ChannelEvent)
| OpPrune (now : Z)
| OpReopen (now : Z) (new_limits : option SqliteReplayLimits)
| OpSync (now : Z) (channel : str) (auth : ChannelAuthResponse)
| OpInvalidate (fresh : str)
| OpUpdatePresence (now : Z) (channel connection_id encoded : str) (data_len : Z)
| OpRemovePresence (channel connection_id : str).

(** An operation with what it commits.  The handle's epoch is the one in the database:
    no operation rewrites it. *)
Definition run_op (op : StoreOp) (db : ChannelDb) : ChannelDb * list Committed :=
  match op with
  | OpPublish now channel payload ephemeral =>
      match publish now (store_epoch db) channel payload ephemeral db with
      | (db', Ok (_, event)) => (db', committed now event db)
      | (db', Err _) => (db', [])
      end
  | OpIngest now fresh event =>
      match ingest_remote now fresh (store_epoch db) event db with
      | (db', _, Ok (Some _)) => (db', committed now event db)
      | (db', _, _) => (db', [])
      end
  | OpPrune now => ((prune now db).1, [])
  | OpReopen now new_limits => ((reopen now new_limits db).1, [])
  | OpSync now channel auth => (sync_channel now channel auth db, [])
  | OpInvalidate fresh => (invalidate_replay fresh db, [])
  | OpUpdatePresence now channel connection_id encoded data_len =>
      ((update_presence now channel connection_id encoded data_len db).1, [])
  | OpRemovePresence channel connection_id => (remove_presence channel connection_id db, [])
  end.

(** Random epochs are sixteen bytes, limits are u64. *)
Definition op_ok (op : StoreOp) : Prop :=
  match op with
  | OpIngest _ fresh _ | OpInvalidate fresh => length fresh = 16
  | OpReopen _ (Some l) =>
      (0 <= max_messages_per_stream l /\ 0 <= max_bytes_per_stream l /\ 0 <= max_messages l
       /\ 0 <= max_bytes l /\ 0 <= max_age_ms l)%Z
  | _ => True
  end.

Inductive store_step : list Committed * ChannelDb -> list Committed * ChannelDb -> Prop :=
| store_step_op op log db :
    op_ok op -> store_step (log, db) (log ++ (run_op op db).2, (run_op op db).1).

Definition store_reachable (epoch : str) : list Committed * ChannelDb -> Prop :=
  rtc store_step ([], new_db epoch).

(** ** Every operation preserves the invariant *)

Lemma event_snoc log db i k :
  store_ok log db -> (high_water db (origin i) < sequence i)%Z -> c_event <$> k = [] \/ c_event <$> k = [i] ->
  StronglySorted event_order (c_event <$> log ++ k).
Proof.
  intros S Hi Hk. rewrite fmap_app. apply (StronglySorted_app_small _ _ _ i); [apply S| |done].
  intros y (e & -> & He)%list_elem_of_fmap Eo. pose proof (so_high _ _ S e He). rewrite Eo in *. lia.
Qed.

Lemma set_event_sequence_high db v o :
  (event_sequence db <= v)%Z -> (high_water db o <= high_water (set_sequence db v) o)%Z.
Proof. intros Hv. unfold high_water. simpl. destruct (decide _); lia. Qed.

Lemma publish_ok log now channel payload ephemeral db :
  store_ok log db ->
  store_ok (log ++ (run_op (OpPublish now channel payload ephemeral) db).2)
    (run_op (OpPublish now channel payload ephemeral) db).1.
Proof.
  intros S. cbn [run_op]. unfold publish. assert (S0 : store_ok (log ++ []) db) by (by rewrite app_nil_r).
  destruct (Z.leb_spec i64_max (event_sequence db)) as [?|Hs]; [done|].
  destruct (replay_epoch db) as [ep|]; [|done].
  set (seq := (event_sequence db + 1)%Z). set (i := mkEventId (b64_encode (store_epoch db)) seq).
  set (event := mkEvent i channel payload ephemeral).
  destruct (append_event now ep event (set_sequence db seq)) as [[db' m]|] eqn:Ea; [|done]. cbn [fst snd].
  destruct (append_event_tables log _ _ _ _ _ _ (tables_set_sequence _ _ _ (so_tables _ _ S)) Ea)
    as (T & (E1 & E2 & E3 & E4 & E5) & Hc).
  change (committed now event (set_sequence db seq)) with (committed now event db) in *.
  assert (Hhw : forall o, high_water db' o = high_water (set_sequence db seq) o) by (intros; by apply high_water_ext).
  split; rewrite ?E3, ?E4, ?E2; [done|apply S|apply S| | |].
  - pose proof (so_sequence _ _ S). unfold seq. simpl. lia.
  - apply (event_snoc _ db i); [done| |apply committed_events].
    unfold high_water. rewrite decide_True by done. simpl. lia.
  - intros e [He|He]%elem_of_app; rewrite Hhw.
    + pose proof (so_high _ _ S e He).
      pose proof (set_event_sequence_high db seq (origin (c_event e)) ltac:(unfold seq; lia)). lia.
    + destruct (Hc e He) as [-> _]. unfold high_water. simpl. rewrite decide_True by done. lia.
Qed.

Lemma high_water_remote db db' o v x :
  o <> b64_encode (store_epoch db) -> remote_origins db' = <[o := v]> (remote_origins db) ->
  event_sequence db' = event_sequence db -> store_epoch db' = store_epoch db ->
  high_water db' x = if decide (x = o) then v else high_water db x.
Proof.
  intros Ho E1 E2 E3. unfold high_water. rewrite E1, E2, E3. destruct (decide (x = o)) as [->|Hx].
  - by rewrite decide_False, lookup_insert_eq by done.
  - by rewrite lookup_insert_ne by done.
Qed.

Lemma ingest_ok log now fresh event db :
  store_ok log db -> length fresh = 16 ->
  store_ok (log ++ (run_op (OpIngest now fresh event) db).2) (run_op (OpIngest now fresh event) db).1.
Proof.
  intros S Hf. cbn [run_op]. unfold ingest_remote. assert (S0 : store_ok (log ++ []) db) by (by rewrite app_nil_r).
  destruct (valid_event_id (ev_id event)); simpl negb; cbv iota; [|done].
  unfold str_eqb. case_bool_decide as Ho; [done|].
  set (prev := default 0%Z _). destruct (Z.leb_spec (sequence (ev_id event)) prev) as [?|Hs]; [done|].
  set (db0 := if (prev + 1 <? sequence (ev_id event))%Z then rotate_replay_epoch fresh db else db).
  assert (T0 : tables_ok log db0).
  { unfold db0. destruct (_ <? _)%Z; [apply tables_set_replay|]; apply S. }
  assert (R0 : length (replay_state db0) = 16) by (unfold db0; destruct (_ <? _)%Z; [done|apply S]).
  assert (F0 : remote_origins db0 = remote_origins db /\ event_sequence db0 = event_sequence db
    /\ store_epoch db0 = store_epoch db /\ autoincrement db0 = autoincrement db)
    by (unfold db0; by destruct (_ <? _)%Z).
  destruct (replay_epoch db0) as [ep|]; [|done].
  destruct (append_event now ep event db0) as [[db' m]|] eqn:Ea; [|done]. cbn [fst snd].
  destruct (append_event_tables log _ _ _ _ _ _ T0 Ea) as (T & (E1 & E2 & E3 & E4 & E5) & Hc).
  assert (Ec : committed now event db0 = committed now event db)
    by (unfold committed; by rewrite (proj2 (proj2 (proj2 F0)))).
  rewrite Ec in T, Hc. destruct F0 as (F1 & F2 & F3 & _).
  set (db'' := set_origins db' _).
  assert (Hhw : forall x, high_water db'' x =
    if decide (x = origin (ev_id event)) then sequence (ev_id event) else high_water db x).
  { intros x. apply high_water_remote; [done| | |]; simpl; congruence. }
  assert (Hprev : high_water db (origin (ev_id event)) = prev) by (unfold high_water; by rewrite decide_False).
  split; simpl; rewrite ?E3, ?E4, ?E2, ?F2, ?F3; [by apply tables_set_origins|done|apply S|apply S| |].
  - apply (event_snoc _ db (ev_id event)); [done|by rewrite Hprev|apply committed_events].
  - intros e [He|He]%elem_of_app; fold db''; rewrite Hhw.
    + pose proof (so_high _ _ S e He). destruct (decide _) as [Eo|]; [rewrite Eo in *; lia|done].
    + destruct (Hc e He) as [-> _]. rewrite decide_True by done. lia.
Qed.

Lemma store_ok_tables log db db' :
  store_ok log db -> tables_ok log db' -> remote_origins db' = remote_origins db ->
  event_sequence db' = event_sequence db -> store_epoch db' = store_epoch db ->
  length (replay_state db') = 16 -> store_ok log db'.
Proof.
  intros S T E1 E2 E3 E4. split; rewrite ?E2, ?E3; try done; [apply S..|].
  intros e He. rewrite (high_water_ext db) by done. by apply S.
Qed.

Lemma store_ok_presence log db v : store_ok log db -> store_ok log (set_presence db v).
Proof. intros S. apply (store_ok_tables _ db); try done; [apply tables_set_presence|]; apply S. Qed.

Lemma store_ok_rotate log db fresh : store_ok log db -> length fresh = 16 -> store_ok log (rotate_replay_epoch fresh db).
Proof. intros S Hf. apply (store_ok_tables _ db); try done. apply tables_set_replay, S. Qed.

Lemma prune_ok log now db : store_ok log db -> store_ok log (prune now db).1.
Proof.
  intros S. unfold prune. set (db' := set_presence db _).
  assert (S' : store_ok log db') by (by apply store_ok_presence).
  destruct (load_limits db') as [l|] eqn:El; [|done]. apply validate_pos in El as [-> _].
  apply (store_ok_prunes _ db'); [done|]. by apply prune_replay_spec; apply S'.
Qed.

Lemma limits_ok_pos l :
  limits_ok l = true ->
  (0 <= max_messages_per_stream l /\ 0 <= max_bytes_per_stream l /\ 0 <= max_messages l /\ 0 <= max_bytes l)%Z ->
  limits_pos l.
Proof. unfold limits_ok, limits_pos, any. simpl. lia. Qed.

(** New limits: the tables, once pruned to them. *)
Lemma tables_new_limits log db l now :
  tables_ok log db -> limits_ok l = true -> limits_pos l ->
  tables_ok log (prune_replay l now (set_limits db l)).1.
Proof.
  intros [Hok L _ _ _] Hlo Hl.
  assert (Hok' : db_ok (set_limits db l)) by (destruct Hok; split; done).
  assert (L' : log_ok log (set_limits db l)) by (destruct L; split; done).
  destruct (prune_replay_spec l now _ Hok' Hl) as [[Hok2 P] Hb].
  assert (El : limits (prune_replay l now (set_limits db l)).1 = l) by apply P.
  split; rewrite ?El; try done. by eapply log_ok_pruned.
Qed.

Lemma reopen_ok log now new_limits db :
  store_ok log db -> op_ok (OpReopen now new_limits) -> store_ok log (reopen now new_limits db).1.
Proof.
  intros S Ho. unfold reopen. rewrite (recount_id db) by apply S.
  destruct new_limits as [l|]; simpl.
  - unfold load_limits. simpl. destruct (validate l) as [l'|] eqn:El; [|done].
    apply validate_pos in El as [-> Hlo].
    destruct (validate (limits (set_limits db l))) as [l'|] eqn:El'; [|done].
    apply validate_pos in El' as [-> _]. simpl limits. destruct (_ =? 16)%nat; [|done]. cbn [fst].
    assert (Hl : limits_pos l) by (apply limits_ok_pos; [done|simpl in Ho; lia]).
    pose proof (tables_new_limits log db l now (so_tables _ _ S) Hlo Hl) as T.
    assert (Hok' : db_ok (set_limits db l)) by (destruct (tb_db _ _ (so_tables _ _ S)); split; done).
    destruct (prune_replay_spec l now _ Hok' Hl) as [[_ P] _].
    apply (store_ok_tables _ db); try done; try apply P. rewrite (pr_replay _ _ P). apply S.
  - destruct (load_limits db) as [l|] eqn:El; [|done]. apply validate_pos in El as [-> _].
    destruct (_ =? 16)%nat; [|done]. apply (store_ok_prunes _ db); [done|].
    by apply prune_replay_spec; apply S.
Qed.

(** [sync_channel] only touches the settings of a stream. *)
Lemma sync_channel_prunes now channel auth db : db_ok db -> prunes db (sync_channel now channel auth db).
Proof.
  intros Hok. set (db' := sync_channel now channel auth db).
  assert (Hm : forall c m', metadata db' !! c = Some m' ->
    c = channel /\ (match metadata db !! channel with
      | Some m => latest_message_id m' = latest_message_id m /\ message_count m' = message_count m
                  /\ message_bytes m' = message_bytes m
      | None => latest_message_id m' = 0%Z /\ message_count m' = 0%Z /\ message_bytes m' = 0%Z end)
    \/ metadata db !! c = Some m').
  { intros c m'. unfold db', sync_channel. destruct (metadata db !! channel); simpl;
      (destruct (decide (c = channel)) as [->|Hc];
        [rewrite lookup_insert_eq; intros [= <-]; auto|rewrite lookup_insert_ne by done; auto]). }
  assert (Hh : forall c, stream_head db' c = stream_head db c).
  { intros c. unfold stream_head, db', sync_channel. destruct (decide (c = channel)) as [->|Hc].
    - by destruct (metadata db !! channel); simpl; rewrite lookup_insert_eq.
    - by destruct (metadata db !! channel); simpl; rewrite lookup_insert_ne. }
  assert (Et : messages db' = messages db /\ autoincrement db' = autoincrement db /\ store_count db' = store_count db
    /\ store_bytes db' = store_bytes db /\ replay_floor db' = replay_floor db /\ message_events db' = message_events db).
  { unfold db', sync_channel. by destruct (metadata db !! channel). }
  destruct Et as (E1 & E2 & E3 & E4 & E5 & E6).
  assert (Hok' : db_ok db').
  { split; rewrite ?E1, ?E2, ?E3, ?E4, ?E5; try apply Hok.
    - intros c m' Hc. destruct (Hm c m' Hc) as [[-> Hm']|Hm']; [|by apply ok_meta].
      destruct (metadata db !! channel) as [m|] eqn:Em; destruct Hm' as (-> & -> & ->); [by apply ok_meta|].
      pose proof (ok_auto db Hok). unfold count_in, bytes_in.
      rewrite (rows_in_no_meta db channel Hok Em). simpl. lia.
    - intros r Hr. rewrite Hh. by apply ok_has_meta.
    - intros c f Hf. rewrite Hh. by apply ok_floor. }
  split; [done|]. split; try done; unfold floor_of; rewrite ?E1, ?E5, ?E6; try done; auto;
    unfold db', sync_channel; by destruct (metadata db !! channel).
Qed.

Lemma new_db_ok epoch : length epoch = 16 -> store_ok [] (new_db epoch).
Proof.
  intros He. assert (Hn : forall r : MessageRow, r ∉ ([] : list MessageRow)) by (intros r; apply not_elem_of_nil).
  split; [split; [| |done|done|]|done|done|done|constructor|by intros e ?%elem_of_nil].
  - split; simpl; try done; try (by intros r ?%Hn); try constructor.
  - split; simpl; try done; try (by intros e ?%elem_of_nil). constructor.
  - split; [done|]. intros c m. simpl. by rewrite lookup_empty.
Qed.

Lemma store_step_ok log db log' db' :
  store_ok log db -> store_step (log, db) (log', db') -> store_ok log' db'.
Proof.
  intros S Hs. inversion Hs as [op ? ? Ho]; subst. destruct op.
  - by apply publish_ok.
  - by apply ingest_ok.
  - cbn [run_op fst snd]. rewrite app_nil_r. by apply prune_ok.
  - cbn [run_op fst snd]. rewrite app_nil_r. by apply reopen_ok.
  - cbn [run_op fst snd]. rewrite app_nil_r. eapply store_ok_prunes; [done|]. apply sync_channel_prunes, S.
  - cbn [run_op fst snd]. rewrite app_nil_r. by apply store_ok_rotate.
  - cbn [run_op fst snd]. rewrite app_nil_r. unfold update_presence.
    destruct (_ <? _)%Z; [done|by apply store_ok_presence].
  - cbn [run_op fst snd]. rewrite app_nil_r. by apply store_ok_presence.
Qed.

Lemma store_steps_ok st st' : store_ok st.1 st.2 -> rtc store_step st st' -> store_ok st'.1 st'.2.
Proof.
  intros S Hr. revert S. induction Hr as [|[l d] [l2 d2] st' Hs Hr IH]; [done|].
  intros S. apply IH. by eapply store_step_ok.
Qed.

(** ** Reading *)

(** An entry of the log as a reader sees it. *)
Definition entry_message (epoch channel : str) (e : Committed) : ChannelMessage :=
  mkMessage (cursor_to_string (cursor_sqlite epoch channel (msg_id (c_row e)))) (Some (c_event e))
    channel (msg_type (c_row e)) (c_data e).

(** The entries of a channel after a position. *)
Definition log_after (channel : str) (after : Z) (log : list Committed) : list Committed :=
  retain (fun e => in_channel channel (c_row e) && (after <? msg_id (c_row e))%Z) log.

(** Entries that are kept and not past the age limits. *)
Definition replayable (db : ChannelDb) (now : Z) (channel : str) (e : Committed) : bool :=
  bool_decide (c_row e ∈ messages db)
  && negb (expired channel (age_cutoff (limits db) (stream_lifecycle db channel) now) (c_row e)).

Lemma by_id_ext l k :
  StronglySorted by_id l -> StronglySorted by_id k -> (forall r, r ∈ l <-> r ∈ k) -> l = k.
Proof.
  intros Hl. revert k. induction Hl as [|x l Hl IH Hx]; intros k Hk He.
  { destruct k as [|y k]; [done|]. exfalso. by eapply not_elem_of_nil, (He y); left. }
  destruct Hk as [|y k Hk Hy]; [exfalso; by eapply not_elem_of_nil, (He x); left|].
  rewrite Forall_forall in Hx, Hy. unfold by_id in Hx, Hy.
  assert (x = y) as <-.
  { pose proof (proj1 (He x) ltac:(left)) as [->|Hin]%elem_of_cons; [done|].
    pose proof (proj2 (He y) ltac:(left)) as [->|Hin']%elem_of_cons; [done|].
    specialize (Hx _ Hin'). specialize (Hy _ Hin). lia. }
  f_equal. apply IH; [done|]. intros r. specialize (He r). rewrite !elem_of_cons in He. split; intros Hr.
  - destruct (proj1 He (or_intror Hr)) as [->|?]; [|done]. specialize (Hx _ Hr). lia.
  - destruct (proj2 He (or_intror Hr)) as [->|?]; [|done]. specialize (Hy _ Hr). lia.
Qed.

Lemma retain_fmap {X Y} (f : X -> Y) (p : Y -> bool) l : retain p (f <$> l) = f <$> retain (fun x => p (f x)) l.
Proof. induction l as [|x l IH]; simpl; [done|]. destruct (p (f x)); [simpl; f_equal|]; apply IH. Qed.

Lemma collect_fmap {X Y Z} (f : Y -> result Z ChannelError) (h : X -> Y) (g : X -> Z) l :
  (forall x, x ∈ l -> f (h x) = Ok (g x)) -> collect f (h <$> l) = Ok (g <$> l).
Proof.
  induction l as [|x l IH]; intros Hf; [done|]. rewrite !fmap_cons. cbn [collect]. rewrite (Hf x) by left.
  rewrite IH; [done|]. intros; apply Hf; by right.
Qed.

Context {JL : JsonLaws J} {EL : EventIdLaws E}.

Section Read.
Context (log : list Committed) (db : ChannelDb) (S : store_ok log db).

Lemma log_row_inj e e' : e ∈ log -> e' ∈ log -> c_row e = c_row e' -> e = e'.
Proof.
  intros He He' Er. apply (NoDup_key_eq c_row log); [|done..].
  pose proof (by_id_NoDup _ (lg_sorted _ _ (tb_log _ _ (so_tables _ _ S)))) as Hn. by apply NoDup_fmap_1 in Hn.
Qed.

Lemma row_message_entry epoch channel e :
  e ∈ log -> c_row e ∈ messages db -> msg_channel (c_row e) = channel ->
  row_message db epoch channel (c_row e) = Ok (entry_message epoch channel e).
Proof.
  intros He Hk Hc. pose proof (tb_log _ _ (so_tables _ _ S)) as L.
  destruct (lg_rows _ _ L _ Hk) as (e' & j & He' & Er & Ej & Em).
  apply (log_row_inj e') in Er as ->; [|done..].
  unfold row_message. rewrite (json_read_back _ _ (lg_json _ _ L e He)), Em, (event_id_read_back _ _ Ej).
  unfold entry_message. by rewrite Hc.
Qed.

(** The rows after a position are the entries of the log after it, if these are kept. *)
Lemma rows_after channel after :
  (forall e, e ∈ log_after channel after log -> c_row e ∈ messages db) ->
  retain (fun r => in_channel channel r && (after <? msg_id r)%Z) (messages db)
  = c_row <$> log_after channel after log.
Proof.
  intros Hk. pose proof (so_tables _ _ S) as [Hok L _ _ _]. unfold log_after.
  rewrite <- (retain_fmap c_row (fun r => in_channel channel r && (after <? msg_id r)%Z)).
  apply by_id_ext; [apply StronglySorted_retain, Hok|apply StronglySorted_retain, L|].
  intros r. rewrite !elem_of_retain. split; intros [Hp Hr]; (split; [done|]).
  - destruct (lg_rows _ _ L r Hr) as (e & _ & He & <- & _). by apply list_elem_of_fmap_2.
  - apply list_elem_of_fmap in Hr as (e & -> & He). apply Hk. by apply elem_of_retain.
Qed.

Lemma elem_of_log_after channel after e :
  e ∈ log_after channel after log <-> msg_channel (c_row e) = channel /\ (after < msg_id (c_row e))%Z /\ e ∈ log.
Proof. unfold log_after. rewrite elem_of_retain, andb_true_iff, in_channel_iff, Z.ltb_lt. tauto. Qed.

(** The checks on the position, in terms of the log. *)
Lemma positions_ok now channel after :
  (0 <= after)%Z ->
  (floor_of db channel <= after)%Z /\ (expired_floor db (limits db) channel now <= after)%Z
  <-> all (replayable db now channel) (log_after channel after log) = true.
Proof.
  intros Ha. pose proof (so_tables _ _ S) as [Hok L _ _ _]. unfold all. rewrite forallb_forall.
  unfold replayable, expired_floor. set (old := expired channel _). split.
  - intros [Hf Ho] e He. apply list_elem_of_In, elem_of_log_after in He as (Hc & Hid & He).
    destruct (lg_kept _ _ L e He) as [Hk|Hk]; [|rewrite Hc in Hk; lia].
    rewrite bool_decide_eq_true_2 by done. simpl. apply negb_true_iff, not_true_iff_false. intros Hold.
    pose proof (max_id_ge (sql_select old (messages db)) (c_row e)
      (proj2 (elem_of_sql_select _ _ _) (conj Hold Hk))). lia.
  - intros Hall. split.
    + unfold floor_of. destruct (replay_floor db !! channel) as [f|] eqn:Ef; simpl; [|lia].
      destruct (lg_floor _ _ L channel f Ef) as (e & He & Hn & Hc & <-).
      destruct (Z.le_gt_cases (msg_id (c_row e)) after) as [?|Hgt]; [done|].
      specialize (Hall e (proj1 (list_elem_of_In _ _) (proj2 (elem_of_log_after _ _ _) (conj Hc (conj Hgt He))))).
      apply andb_true_iff in Hall as [Hk _]. by apply bool_decide_eq_true in Hk.
    + apply max_id_le; [done|]. intros r (Hold & Hr)%elem_of_sql_select.
      destruct (lg_rows _ _ L r Hr) as (e & _ & He & <- & _).
      destruct (Z.le_gt_cases (msg_id (c_row e)) after) as [?|Hgt]; [done|].
      assert (Hc : msg_channel (c_row e) = channel)
        by (unfold old, expired in Hold; apply andb_true_iff in Hold as [? _]; by apply in_channel_iff).
      specialize (Hall e (proj1 (list_elem_of_In _ _) (proj2 (elem_of_log_after _ _ _) (conj Hc (conj Hgt He))))).
      apply andb_true_iff in Hall as [_ Hall]. by rewrite Hold in Hall.
Qed.

Lemma load_limits_ok : load_limits db = Ok (limits db).
Proof. unfold load_limits, validate. by rewrite (tb_limits _ _ (so_tables _ _ S)). Qed.

Lemma replay_epoch_ok : replay_epoch db = Ok (replay_state db).
Proof. unfold replay_epoch. by rewrite (so_replay _ _ S). Qed.

(** When a cursor may be resumed. *)
Definition admitted (now : Z) (channel : str) (cursor : ReplayCursor) : bool :=
  bool_decide (scope cursor = scope (cursor_sqlite (replay_state db) channel 0))
  && (position cursor <=? log_head channel log)%Z
  && all (replayable db now channel) (log_after channel (position cursor) log).

Lemma admit_cursor_spec now channel cursor :
  (0 <= position cursor)%Z ->
  admit_cursor db (replay_state db) channel (expired_floor db (limits db) channel now) cursor
  = if admitted now channel cursor then Ok tt else Err StaleCursor.
Proof.
  intros Hp. pose proof (positions_ok now channel (position cursor) Hp) as Hpos.
  unfold admit_cursor, validate_cursor, admitted. case_bool_decide as Hsc; cbn [negb andb]; [|done].
  rewrite <- (lg_head _ _ (tb_log _ _ (so_tables _ _ S))). fold (floor_of db channel).
  destruct (all _ _); [destruct (proj2 Hpos eq_refl) as [H1 H2]|].
  - rewrite andb_true_r. replace (position cursor <? floor_of db channel)%Z with false by lia. cbn [orb].
    rewrite Z.ltb_antisym. destruct (_ <=? _)%Z; cbn [negb]; [|done].
    by replace (position cursor <? expired_floor db (limits db) channel now)%Z with false by lia.
  - rewrite andb_false_r. destruct (_ || _) eqn:Eo; [done|].
    destruct (Z.ltb_spec (position cursor) (expired_floor db (limits db) channel now)); [done|].
    apply orb_false_iff in Eo as [Eo _]. assert (false = true) by (apply Hpos; lia). done.
Qed.

Lemma read_after_spec now channel cursor limit :
  (0 <= position cursor)%Z ->
  read_after now channel (Some cursor) limit db =
  if admitted now channel cursor
  then Ok (entry_message (replay_state db) channel
             <$> take (Z.to_nat limit) (log_after channel (position cursor) log))
  else Err StaleCursor.
Proof.
  intros Hp. unfold read_after. rewrite load_limits_ok, replay_epoch_ok. cbv beta iota.
  rewrite admit_cursor_spec by done. destruct (admitted now channel cursor) eqn:Ea; [|done]. cbv beta iota.
  unfold admitted in Ea. apply andb_true_iff in Ea as [_ Ea].
  destruct (proj2 (positions_ok now channel (position cursor) Hp) Ea) as [_ Hex].
  rewrite Z.max_l by done. unfold read_after_rows.
  assert (Hk : forall e, e ∈ log_after channel (position cursor) log -> c_row e ∈ messages db).
  { intros e He. unfold all in Ea. rewrite forallb_forall in Ea.
    specialize (Ea e (proj1 (list_elem_of_In _ _) He)). apply andb_true_iff in Ea as [Ek _].
    by apply bool_decide_eq_true in Ek. }
  rewrite select_by_id by apply S. rewrite rows_after, <- fmap_take by done.
  assert (Hin : forall e, e ∈ take (Z.to_nat limit) (log_after channel (position cursor) log) ->
      e ∈ log_after channel (position cursor) log).
    { intros e He. eapply elem_of_submseteq; [exact He|]. apply sublist_submseteq, sublist_take. }
    apply collect_fmap. intros e He%Hin. pose proof (Hk e He).
    apply elem_of_log_after in He as (Hc & _ & He). by apply row_message_entry.
Qed.
End Read.
End Runs.
