(* ===== verification/ChannelReplay.v ===== *)
(** * The channel store: what clients get

    A client follows a channel by reading after the last message it got, while the store
    publishes, ingests events of other servers, prunes, reopens and rotates its epoch.
    The theorems of the store: the counters are exact and within the limits, what was just
    published is kept, a read refines a read of the log, a follower gets every message
    once and in order or learns that its cursor is stale, and the events of an origin are
    committed once and in order. *)

From S2P Require Import Prelude RustStr Net Codec Sql Cursor ChannelDb ChannelInv ChannelLog ChannelProps.

Section Replay.
Context `{J : JsonApi} `{E : EventIdJson} {B : Base64Api} {H : Sha256Api} `{!HashIter str MetaRow}.

(** ** Following a channel *)

(** A client resumes at the id of the last message it got. *)
Definition next_cursor (c : ReplayCursor) (got : list ChannelMessage) : ReplayCursor :=
  match last got with
  | None => c
  | Some m => match cursor_from_str (m_id m) with Ok c' => c' | Err _ => c end
  end.

Record Following := mkFollowing {
  fo_log : list Committed;
  fo_db : ChannelDb;
  fo_cursor : ReplayCursor;
  fo_got : list ChannelMessage;
}.

(** The store runs, and the client reads whenever it likes. *)
Inductive follow_step (channel : str) : Following -> Following -> Prop :=
| follow_store log db log' db' c got :
    store_step (log, db) (log', db') ->
    follow_step channel (mkFollowing log db c got) (mkFollowing log' db' c got)
| follow_read log db c got now limit ms :
    read_after now channel (Some c) limit db = Ok ms ->
    follow_step channel (mkFollowing log db c got) (mkFollowing log db (next_cursor c ms) (got ++ ms)).

Definition up_to (channel : str) (p : Z) (log : list Committed) : list Committed :=
  retain (fun e => in_channel channel (c_row e) && (msg_id (c_row e) <=? p)%Z) log.

Definition entry_order (a b : Committed) : Prop := by_id (c_row a) (c_row b).

Lemma entry_order_fmap l : StronglySorted by_id (c_row <$> l) -> StronglySorted entry_order l.
Proof.
  induction l as [|e l IH]; intros Hs; [constructor|]. rewrite fmap_cons in Hs. inversion Hs as [|? ? Hl He]; subst.
  constructor; [auto|]. by rewrite Forall_fmap in He.
Qed.

Lemma entries_split p l :
  StronglySorted entry_order l ->
  l = retain (fun e => (msg_id (c_row e) <=? p)%Z) l ++ retain (fun e => (p <? msg_id (c_row e))%Z) l.
Proof.
  induction 1 as [|e l Hl IH He]; simpl; [done|]. rewrite Forall_forall in He.
  destruct (Z.leb_spec (msg_id (c_row e)) p) as [Hp|Hp].
  - replace (p <? msg_id (c_row e))%Z with false by lia. simpl. by f_equal.
  - replace (p <? msg_id (c_row e))%Z with true by lia.
    assert (Hgt : forall x, x ∈ l -> (p < msg_id (c_row x))%Z)
      by (intros x Hx; specialize (He x Hx); unfold entry_order, by_id in He; lia).
    rewrite (retain_none _ l), retain_all; [done|..]; intros x Hx; specialize (Hgt x Hx); lia.
Qed.

(** Reading a batch moves the mark past exactly that batch. *)
Lemma up_to_advance channel p n log :
  StronglySorted by_id (c_row <$> log) ->
  let batch := take n (log_after channel p log) in
  up_to channel (match last batch with Some e => msg_id (c_row e) | None => p end) log
  = up_to channel p log ++ batch.
Proof.
  intros Hs. cbv zeta. apply entry_order_fmap, (StronglySorted_retain _ (fun e => in_channel channel (c_row e))) in Hs.
  unfold up_to, log_after. rewrite <- !(retain_and (fun e => in_channel channel (c_row e))).
  set (l := retain _ log) in *. pose proof (entries_split p l Hs) as El.
  set (L := retain (fun e => (p <? msg_id (c_row e))%Z) l) in *.
  set (U := retain (fun e => (msg_id (c_row e) <=? p)%Z) l) in *.
  set (p' := match last (take n L) with Some e => msg_id (c_row e) | None => p end).
  rewrite El at 1. rewrite <- (take_drop n L) at 1. rewrite !retain_app.
  assert (HL' : forall e, e ∈ L -> (p < msg_id (c_row e))%Z)
    by (intros e [? _]%elem_of_retain; lia).
  assert (HsL : StronglySorted entry_order L) by (by apply StronglySorted_retain).
  rewrite <- (take_drop n L) in HsL.
  assert (Hp' : (p <= p')%Z /\ (forall e, e ∈ take n L -> (msg_id (c_row e) <= p')%Z)
    /\ forall e, e ∈ drop n L -> (p' < msg_id (c_row e))%Z).
  { assert (Hd : forall e, e ∈ drop n L -> (p < msg_id (c_row e))%Z)
      by (intros e He; apply HL'; rewrite <- (take_drop n L), elem_of_app; by right).
    unfold p'. destruct (last (take n L)) as [e|] eqn:Ee.
    - apply last_Some in Ee as [t Et].
      assert (He : e ∈ take n L) by (rewrite Et, elem_of_app; right; left).
      assert (HpL : (p < msg_id (c_row e))%Z)
        by (apply HL'; rewrite <- (take_drop n L), elem_of_app; by left).
      split_and!; [lia| |].
      + intros x Hx. rewrite Et in Hx. apply elem_of_app in Hx as [Hx| ->%list_elem_of_singleton]; [|done].
        apply StronglySorted_app_1_l in HsL. rewrite Et in HsL.
        pose proof (StronglySorted_app_1_elem_of _ _ _ x e HsL Hx ltac:(left)) as Hlt.
        unfold entry_order, by_id in Hlt. lia.
      + intros x Hx. exact (StronglySorted_app_1_elem_of _ _ _ e x HsL He Hx).
    - apply last_None in Ee. rewrite Ee. split_and!; [lia|by intros e ?%elem_of_nil|done]. }
  destruct Hp' as (Hp1 & Hp2 & Hp3).
  rewrite (retain_all _ U), (retain_all _ (take n L)), (retain_none _ (drop n L)); [by rewrite app_nil_r|..];
    intros e He; [specialize (Hp3 e He)|specialize (Hp2 e He)|apply elem_of_retain in He as [? _]]; lia.
Qed.

(** ** What a follower has *)

Context {JL : JsonLaws J} {EL : EventIdLaws E} {BL : Base64Laws B} {HL : Sha256Laws H}.

Lemma max_id_lt rows b : (0 < b)%Z -> (forall r, r ∈ rows -> (msg_id r < b)%Z) -> (max_id rows < b)%Z.
Proof.
  intros Hb. induction rows as [|r rows IH]; simpl; intros Hr; [done|].
  pose proof (Hr r ltac:(left)). assert (max_id rows < b)%Z by (apply IH; intros; apply Hr; by right). lia.
Qed.

(** What is appended comes after everything there was. *)
Lemma appended_after log k db c e : store_ok (log ++ k) db -> e ∈ k -> (log_head c log < msg_id (c_row e))%Z.
Proof.
  intros S He. pose proof (tb_log _ _ (so_tables _ _ S)) as L. apply max_id_lt.
  - apply (lg_ids _ _ L). rewrite elem_of_app. auto.
  - intros r (_ & Hr)%elem_of_rows_in. pose proof (lg_sorted _ _ L) as Hs. rewrite fmap_app in Hs.
    apply (StronglySorted_app_1_elem_of _ _ _ r (c_row e) Hs Hr). by apply list_elem_of_fmap_2.
Qed.

Lemma log_head_ge c log e : e ∈ log -> msg_channel (c_row e) = c -> (msg_id (c_row e) <= log_head c log)%Z.
Proof. intros He Hc. apply max_id_ge, elem_of_rows_in. split; [done|]. by apply list_elem_of_fmap_2. Qed.

Lemma log_head_nonneg c log : (0 <= log_head c log)%Z.
Proof. apply max_id_nonneg. Qed.

Lemma entry_cursor epoch channel log db e :
  store_ok log db -> length epoch = 16 -> e ∈ log ->
  cursor_from_str (m_id (entry_message epoch channel e)) = Ok (cursor_sqlite epoch channel (msg_id (c_row e))).
Proof.
  intros S He Hin. apply cursor_text_reads_back. pose proof (so_tables _ _ S) as [Hok L _ _ _].
  pose proof (lg_ids _ _ L e Hin). pose proof (stream_head_range db (msg_channel (c_row e)) Hok).
  pose proof (ok_auto db Hok). split; simpl; [lia|]. split; [done|]. by rewrite length_take, sha256_length.
Qed.

Lemma next_cursor_entries epoch channel log db es p :
  store_ok log db -> length epoch = 16 -> (forall e, e ∈ es -> e ∈ log) ->
  next_cursor (cursor_sqlite epoch channel p) (entry_message epoch channel <$> es)
  = cursor_sqlite epoch channel (match last es with Some e => msg_id (c_row e) | None => p end).
Proof.
  intros S He Hes. unfold next_cursor. rewrite fmap_last. destruct (last es) as [e|] eqn:El; [|done]. simpl fmap.
  cbv iota. rewrite (entry_cursor _ _ log db); [done..|]. apply Hes.
  apply last_Some in El as [t ->]. rewrite elem_of_app. right. left.
Qed.

Lemma log_after_newer channel log0 newer p :
  (log_head channel log0 <= p)%Z -> log_after channel p (log0 ++ newer) = log_after channel p newer.
Proof.
  intros Hp. unfold log_after. rewrite retain_app, (retain_none _ log0); [done|].
  intros e He. destruct (in_channel channel (c_row e)) eqn:Ec; [|done]. apply in_channel_iff in Ec.
  pose proof (log_head_ge channel log0 e He Ec). simpl. lia.
Qed.

Lemma sorted_newer log0 log db newer : store_ok log db -> log = log0 ++ newer -> StronglySorted by_id (c_row <$> newer).
Proof.
  intros S ->. pose proof (lg_sorted _ _ (tb_log _ _ (so_tables _ _ S))) as Hs. rewrite fmap_app in Hs.
  by apply StronglySorted_app_1_r in Hs.
Qed.

Section Follower.
Context (channel epoch : str) (log0 : list Committed) (Hep : length epoch = 16).

Record follow_inv (f : Following) : Prop := {
  fi_store : store_ok (fo_log f) (fo_db f);
  fi_newer : exists newer p, fo_log f = log0 ++ newer
    /\ fo_cursor f = cursor_sqlite epoch channel p
    /\ (log_head channel log0 <= p <= log_head channel (fo_log f))%Z
    /\ fo_got f = entry_message epoch channel <$> up_to channel p newer;
}.

Lemma follow_step_inv f f' : follow_inv f -> follow_step channel f f' -> follow_inv f'.
Proof.
  intros [S (newer & p & El & Ec & Hp & Eg)] Hf. destruct Hf as [log db log' db' c got Hs|log db c got now limit ms Hr];
    cbn [fo_log fo_db fo_cursor fo_got] in *.
  - pose proof (store_step_ok _ _ _ _ S Hs) as S'. inversion Hs as [op ? ? Ho]; subst. split; [done|]. simpl.
    set (k := (run_op op db).2) in *. exists (newer ++ k), p. rewrite app_assoc. split_and!; [done|done|lia| |].
    + rewrite log_head_app. lia.
    + f_equal. unfold up_to. rewrite retain_app, (retain_none _ k); [by rewrite app_nil_r|].
      intros e He. pose proof (appended_after _ _ _ channel e S' He). lia.
  - split; [done|]. subst c log. cbn [fo_log fo_db fo_cursor fo_got].
    pose proof (log_head_nonneg channel log0).
    rewrite (read_after_spec _ _ S) in Hr by (simpl; lia).
    destruct (admitted _ _ _ _ _) eqn:Ea; [|done]. injection Hr as <-.
    unfold admitted in Ea. apply andb_true_iff in Ea as [Ea _]. apply andb_true_iff in Ea as [Ea _].
    apply bool_decide_eq_true in Ea. injection Ea as Ea. rewrite <- Ea.
    simpl position. rewrite log_after_newer by lia.
    set (batch := take _ _). exists newer, (match last batch with Some e => msg_id (c_row e) | None => p end).
    assert (Hb : forall e, e ∈ batch -> e ∈ newer /\ msg_channel (c_row e) = channel /\ (p < msg_id (c_row e))%Z).
    { intros e He. assert (Hl : e ∈ log_after channel p newer)
        by (eapply elem_of_submseteq; [exact He|]; apply sublist_submseteq, sublist_take).
      apply elem_of_log_after in Hl. tauto. }
    split_and!; [done| | | |].
    + apply (next_cursor_entries _ _ _ _ _ _ S Hep). intros e He. rewrite elem_of_app. right. by apply Hb.
    + destruct (last batch) as [e|] eqn:Ee; [|lia]. apply last_Some in Ee as [t Et].
      destruct (Hb e) as (_ & _ & ?); [|lia]. rewrite Et, elem_of_app. right. left.
    + destruct (last batch) as [e|] eqn:Ee; [|lia]. apply last_Some in Ee as [t Et].
      destruct (Hb e) as (Hn & Hc & _); [rewrite Et, elem_of_app; right; left|].
      apply log_head_ge; [|done]. rewrite elem_of_app. by right.
    + rewrite Eg, <- fmap_app. f_equal. symmetry. apply up_to_advance. by eapply sorted_newer.
Qed.

Lemma follow_steps_inv f f' : follow_inv f -> rtc (follow_step channel) f f' -> follow_inv f'.
Proof. intros Hi Hr. revert Hi. induction Hr as [|f1 f2 f3 Hs Hr IH]; [done|]. intros Hi. by eapply IH, follow_step_inv. Qed.
End Follower.

Lemma reachable_ok epoch log db : length epoch = 16 -> store_reachable epoch (log, db) -> store_ok log db.
Proof. intros He Hr. exact (store_steps_ok ([], new_db epoch) (log, db) (new_db_ok epoch He) Hr). Qed.

(** A client that does not read while the store runs. *)
Lemma follow_stores channel log db log' db' c got :
  rtc store_step (log, db) (log', db') ->
  rtc (follow_step channel) (mkFollowing log db c got) (mkFollowing log' db' c got).
Proof.
  intros Hr. change (rtc (follow_step channel) ((fun st => mkFollowing st.1 st.2 c got) (log, db))
    ((fun st => mkFollowing st.1 st.2 c got) (log', db'))).
  revert Hr. generalize (log, db) (log', db'). induction 1 as [|[l1 d1] [l2 d2] st' Hs Hr IH]; [constructor|].
  eapply rtc_l; [by apply follow_store|exact IH].
Qed.

(** A client that reads once, after the store ran. *)
Lemma follow_read_once channel log db log' db' c now limit ms :
  rtc store_step (log, db) (log', db') -> read_after now channel (Some c) limit db' = Ok ms ->
  rtc (follow_step channel) (mkFollowing log db c []) (mkFollowing log' db' (next_cursor c ms) ms).
Proof.
  intros Hr Hread. eapply rtc_r; [by apply follow_stores|].
  exact (follow_read channel log' db' c [] now limit ms Hread).
Qed.

(** ** The theorems *)

(** C21: in every run of the store the counters that the triggers maintain are exact, the
    per-stream and the whole-store budgets hold, a stream's head is the last position of
    the channel in the log of commits, and the rows are entries of that log in order. *)
Theorem channel_store_invariant epoch log db :
  length epoch = 16 -> store_reachable epoch (log, db) ->
  (forall c m, metadata db !! c = Some m ->
     message_count m = Z.of_nat (length (rows_in c (messages db)))
     /\ message_bytes m = sum_bytes (rows_in c (messages db))
     /\ latest_message_id m = log_head c log
     /\ (message_count m <= max_messages_per_stream (limits db))%Z
     /\ (message_bytes m <= max_bytes_per_stream (limits db))%Z)
  /\ store_count db = Z.of_nat (length (messages db)) /\ (store_count db <= max_messages (limits db))%Z
  /\ store_bytes db = sum_bytes (messages db) /\ (store_bytes db <= max_bytes (limits db))%Z
  /\ StronglySorted by_id (messages db) /\ StronglySorted by_id (c_row <$> log)
  /\ (forall r, r ∈ messages db -> r ∈ c_row <$> log).
Proof.
  intros He Hr. pose proof (reachable_ok _ _ _ He Hr) as S. pose proof (so_tables _ _ S) as [Hok L _ _ [[Hb1 Hb2] Hb]].
  split_and!; try apply Hok; try apply L; try done.
  - intros c m Hm. destruct (ok_meta db Hok c m Hm) as (Hc & Hby & _). pose proof (lg_head _ _ L c) as Hh.
    unfold stream_head in Hh. rewrite Hm in Hh. destruct (Hb c m Hm). done.
  - intros r Hrow. destruct (lg_rows _ _ L r Hrow) as (e & _ & He' & <- & _). by apply list_elem_of_fmap_2.
Qed.

(** The loops that enforce the budgets end: on a consistent database, one round more
    than there are rows is enough, more rounds change nothing, and the stream and the
    store are then within their limits. *)
Lemma budget_loops_terminate l channel db :
  db_ok db -> limits_pos l ->
  in_stream_budget l channel (enforce_stream_budget l channel db).1
  /\ in_store_budget l (enforce_store_budget l db).1
  /\ forall fuel, (length (messages db) < fuel)%nat ->
       enforce_stream_loop fuel l channel db 0 = enforce_stream_budget l channel db
       /\ enforce_store_loop fuel l db 0 = enforce_store_budget l db.
Proof.
  intros Hok Hl.
  destruct (enforce_stream_loop_spec l channel (S (length (messages db))) db 0 Hok Hl ltac:(lia)) as (_ & H1 & _ & H2).
  destruct (enforce_store_loop_spec l (S (length (messages db))) db 0 Hok Hl ltac:(lia)) as (_ & H3 & _ & H4).
  split_and!; [done|done|]. intros fuel Hf. split; auto.
Qed.

(** A durable message that [publish] accepted is in the table when it returns, however
    full the store was; the message carries the id from which a client resumes after it,
    and its event is the next one of this server. *)
Lemma publish_kept epoch log db now channel payload db' m ev :
  length epoch = 16 -> store_reachable epoch (log, db) ->
  publish now (store_epoch db) channel payload false db = (db', Ok (m, ev)) ->
  exists e, committed now ev db = [e] /\ c_row e ∈ messages db'
    /\ m = entry_message (replay_state db) channel e
    /\ cursor_from_str (m_id m) = Ok (cursor_sqlite (replay_state db) channel (autoincrement db + 1))
    /\ ev_id ev = mkEventId (b64_encode (store_epoch db)) (event_sequence db + 1)
    /\ ev_channel ev = channel /\ ev_payload ev = payload.
Proof.
  intros He Hr Hp. pose proof (reachable_ok _ _ _ He Hr) as S.
  pose proof (publish_ok log now channel payload false db S) as S'. cbn [run_op] in S'. rewrite Hp in S'.
  cbn [fst snd] in S'. revert Hp. unfold publish. destruct (i64_max <=? event_sequence db)%Z; [done|].
  rewrite (replay_epoch_ok _ _ S). set (i := mkEventId _ _).
  destruct (append_event _ _ _ _) as [[db1 m1]|] eqn:Ea; [|done]. intros [= -> -> <-].
  pose proof (append_event_tables log _ _ _ _ _ _ (tables_set_sequence _ _ _ (so_tables _ _ S)) Ea) as (_ & _ & Hn).
  assert (Em : exists e, committed now (mkEvent i channel payload false) db = [e]
    /\ m = entry_message (replay_state db) channel e /\ msg_id (c_row e) = (autoincrement db + 1)%Z).
  { revert Ea. unfold append_event, committed. cbn [ev_ephemeral ev_payload].
    destruct (json_to_string _) as [t|]; [|done]. destruct (load_limits _); [|done].
    destruct (_ || _); [done|]. destruct (_ =? _)%Z; [done|]. destruct (event_id_to_string _); [|done].
    intros [= _ <-]. eexists. split; [reflexivity|]. split; reflexivity. }
  destruct Em as (e & Ee & -> & Eid). exists e.
  change (committed now (mkEvent i channel payload false) (set_sequence db (event_sequence db + 1)))
    with (committed now (mkEvent i channel payload false) db) in Hn. rewrite Ee in *.
  split_and!; try done.
  - apply (Hn e). left.
  - rewrite (entry_cursor _ _ _ _ _ S'); [by rewrite Eid|apply S|]. rewrite elem_of_app. right. left.
Qed.

(** C19: reading with a cursor is reading the log of commits.  The cursor is refused exactly
    when it is of another epoch or channel, lies past the channel's last commit, or some
    commit after it is no longer kept or too old; otherwise the read returns the first
    [limit] commits of the channel after it, in order and with no gap. *)
Theorem read_after_refines_log epoch log db now channel cursor limit :
  length epoch = 16 -> store_reachable epoch (log, db) -> (0 <= position cursor)%Z ->
  read_after now channel (Some cursor) limit db =
  if bool_decide (scope cursor = scope (cursor_sqlite (replay_state db) channel 0))
     && (position cursor <=? log_head channel log)%Z
     && all (replayable db now channel) (log_after channel (position cursor) log)
  then Ok (entry_message (replay_state db) channel
             <$> take (Z.to_nat limit) (log_after channel (position cursor) log))
  else Err StaleCursor.
Proof. intros He Hr Hp. apply (read_after_spec log db); [|done]. by eapply reachable_ok. Qed.

(** C20: a client that subscribes to a channel, and from then on reads at any times and in
    batches of any size while the store runs, has got exactly the messages committed to
    the channel since it subscribed, up to its cursor, each once and in order; when a read
    returns nothing it has got all of them. *)
Theorem follower_gets_log epoch log0 db0 now0 channel c0 log db c got :
  length epoch = 16 -> store_reachable epoch (log0, db0) ->
  replay_cursor now0 channel None db0 = Ok (Some c0) ->
  rtc (follow_step channel) (mkFollowing log0 db0 c0 []) (mkFollowing log db c got) ->
  exists newer, log = log0 ++ newer
    /\ got = entry_message (replay_state db0) channel
               <$> retain (fun e => in_channel channel (c_row e) && (msg_id (c_row e) <=? position c)%Z) newer
    /\ forall now limit, (0 < limit)%Z -> read_after now channel (Some c) limit db = Ok [] ->
         got = entry_message (replay_state db0) channel <$> retain (fun e => in_channel channel (c_row e)) newer.
Proof.
  intros He Hr Hc0 Hf. pose proof (reachable_ok _ _ _ He Hr) as S0.
  unfold replay_cursor in Hc0. rewrite (load_limits_ok _ _ S0), (replay_epoch_ok _ _ S0) in Hc0. injection Hc0 as <-.
  rewrite (lg_head _ _ (tb_log _ _ (so_tables _ _ S0))) in Hf.
  pose proof (log_head_nonneg channel log0) as Hnn.
  assert (I0 : follow_inv channel (replay_state db0) log0
    (mkFollowing log0 db0 (cursor_sqlite (replay_state db0) channel (log_head channel log0)) [])).
  { split; [done|]. exists [], (log_head channel log0). rewrite app_nil_r. split_and!; [done|done|lia|simpl;lia|done]. }
  destruct (follow_steps_inv _ _ _ (so_replay _ _ S0) _ _ I0 Hf) as [S (newer & p & El & Ec & Hp & Eg)].
  cbn [fo_log fo_db fo_cursor fo_got] in *. exists newer. subst c log. split_and!; [done|done|].
  intros now limit Hl Hread. rewrite (read_after_spec _ _ S) in Hread by (simpl; lia).
  destruct (admitted _ _ _ _ _); [|done]. injection Hread as Hread. apply fmap_nil_inv in Hread.
  simpl position in Hread. rewrite (log_after_newer _ _ newer p) in Hread by lia.
  rewrite Eg. f_equal. unfold up_to. apply retain_ext. intros e He'.
  destruct (in_channel channel (c_row e)) eqn:Ec; [|done]. cbn [andb].
  apply Z.leb_le. apply Z.nlt_ge. intros Hgt.
  assert (Hin : e ∈ log_after channel p newer) by (apply elem_of_log_after; by apply in_channel_iff in Ec).
  destruct (log_after channel p newer) as [|x l]; [by apply elem_of_nil in Hin|].
  destruct (Z.to_nat limit) eqn:En; [lia|done].
Qed.

(** In every run, each event is committed at most once, and the events of one server
    are committed in the order of their sequence numbers, whether they were published here
    or received from another server, in any order and with any repetitions. *)
Lemma events_once_in_order epoch log db :
  length epoch = 16 -> store_reachable epoch (log, db) ->
  NoDup (c_event <$> log)
  /\ forall i j a b, (i < j)%nat -> log !! i = Some a -> log !! j = Some b ->
       origin (c_event a) = origin (c_event b) -> (sequence (c_event a) < sequence (c_event b))%Z.
Proof.
  intros He Hr. pose proof (so_order _ _ (reachable_ok _ _ _ He Hr)) as Ho. split.
  - induction Ho as [|x l Hl IH Hx]; [constructor|]. constructor; [|done].
    intros Hin. rewrite Forall_forall in Hx. specialize (Hx x Hin eq_refl). lia.
  - intros i j a b Hij Ha Hb. rewrite <- (take_drop j log), fmap_app in Ho.
    apply (StronglySorted_app_1_elem_of _ _ _ _ _ Ho).
    + apply list_elem_of_fmap_2, (list_elem_of_lookup_2 _ i). by rewrite lookup_take_lt.
    + apply list_elem_of_fmap_2, (list_elem_of_lookup_2 _ 0). by rewrite lookup_drop, Nat.add_0_r.
Qed.

(** A remote event that skips sequence numbers rotates the replay epoch and signals a
    gap: no cursor that was valid before is accepted by a later read, on any channel, so a
    client cannot resume across the missing events unaware. *)
Lemma gap_makes_cursors_stale epoch log db now fresh event db' gap m :
  length epoch = 16 -> store_reachable epoch (log, db) -> length fresh = 16 -> fresh <> replay_state db ->
  ingest_remote now fresh (store_epoch db) event db = (db', gap, Ok (Some m)) ->
  (default 0 (remote_origins db !! origin (ev_id event)) + 1 < sequence (ev_id event))%Z ->
  gap = true
  /\ forall now' channel channel' p limit, (0 <= p)%Z ->
       read_after now' channel (Some (cursor_sqlite (replay_state db) channel' p)) limit db' = Err StaleCursor.
Proof.
  intros He Hr Hf Hne Hi Hgap. pose proof (reachable_ok _ _ _ He Hr) as S.
  pose proof (ingest_ok log now fresh event db S Hf) as S'. cbn [run_op] in S'. rewrite Hi in S'. cbn [fst snd] in S'.
  revert Hi. unfold ingest_remote. destruct (negb _); [done|]. destruct (str_eqb _ _); [done|].
  destruct (_ <=? _)%Z; [done|].
  replace (default 0 (remote_origins db !! origin (ev_id event)) + 1 <? sequence (ev_id event))%Z with true by lia.
  destruct (replay_epoch _); [|done]. destruct (append_event _ _ _ _) as [[db1 m1]|] eqn:Ea; [|done].
  intros [= <- <- <-]. split; [done|]. intros now' channel channel' p limit Hp.
  assert (Er : replay_state db1 = fresh).
  { destruct (append_event_tables log _ _ _ _ _ _ (tables_set_replay _ _ fresh (so_tables _ _ S)) Ea)
      as (_ & (_ & _ & _ & Er & _) & _). exact Er. }
  rewrite (read_after_spec _ _ S') by (simpl; lia). unfold admitted.
  rewrite bool_decide_eq_false_2; [done|]. simpl. rewrite Er. congruence.
Qed.

(** C22: remote events are safe to repeat, reorder and lose.  In every run each event is
    committed at most once, and the events of one server in the order of their sequence
    numbers, whether published here or received.  An event that skips sequence numbers
    rotates the replay epoch and signals a gap: no cursor that was valid before is accepted
    by a later read, on any channel, so no client resumes across missing events unaware. *)
Theorem remote_events_are_safe epoch log db :
  length epoch = 16 -> store_reachable epoch (log, db) ->
  NoDup (c_event <$> log)
  /\ (forall i j a b, (i < j)%nat -> log !! i = Some a -> log !! j = Some b ->
       origin (c_event a) = origin (c_event b) -> (sequence (c_event a) < sequence (c_event b))%Z)
  /\ forall now fresh event db' gap m,
       length fresh = 16 -> fresh <> replay_state db ->
       ingest_remote now fresh (store_epoch db) event db = (db', gap, Ok (Some m)) ->
       (default 0 (remote_origins db !! origin (ev_id event)) + 1 < sequence (ev_id event))%Z ->
       gap = true
       /\ forall now' channel channel' p limit, (0 <= p)%Z ->
            read_after now' channel (Some (cursor_sqlite (replay_state db) channel' p)) limit db' = Err StaleCursor.
Proof.
  intros He Hr. destruct (events_once_in_order _ _ _ He Hr) as [H1 H2]. split_and!; [done|done|].
  intros now fresh event db' gap m. by apply (gap_makes_cursors_stale epoch log).
Qed.
End Replay.

(** ** A concrete run *)

(** Event ids as [sequence,origin]. *)
Definition demo_event_json : EventIdJson := {|
  event_id_to_string i :=
    if ((0 <=? sequence i) && (sequence i <=? i64_max))%Z
    then Some (show_Z (sequence i) ++ ","%char :: origin i) else None;
  event_id_from_str t :=
    match split_once ","%char t with
    | Some (n, o) => mkEventId o <$> parse_i64 n
    | None => None
    end |}.

Lemma demo_event_json_laws : EventIdLaws demo_event_json.
Proof.
  split. intros [o n] t. simpl. destruct (_ && _) eqn:En; [|done]. intros [= <-].
  assert (split_once ","%char (show_Z n ++ ","%char :: o) = Some (show_Z n, o)) as ->.
  { apply split_once_Some. split; [done|]. intros Hd%show_Z_digits; [done|lia]. }
  by rewrite parse_i64_show by lia.
Qed.

#[local] Existing Instance text_json.
#[local] Existing Instance text_json_laws.
#[local] Existing Instance demo_event_json.
#[local] Existing Instance demo_event_json_laws.
#[local] Existing Instance hex_base64.
#[local] Existing Instance hex_base64_laws.
#[local] Existing Instance demo_sha256.
#[local] Existing Instance demo_sha256_laws.

Fixpoint run_ops (ops : list StoreOp) (st : list Committed * ChannelDb) : list Committed * ChannelDb :=
  match ops with
  | [] => st
  | op :: ops' => run_ops ops' (st.1 ++ (run_op op st.2).2, (run_op op st.2).1)
  end.

Lemma run_ops_steps ops st : Forall op_ok ops -> rtc store_step st (run_ops ops st).
Proof.
  intros Ho. revert st. induction Ho as [|op ops Hop Ho IH]; intros [log db]; [constructor|].
  eapply rtc_l; [by apply (store_step_op op)|apply IH].
Qed.

Definition demo_epoch : str := replicate 16 "e"%char.
Definition demo_fresh : str := replicate 16 "f"%char.
Definition demo_payload (data : string) : ChannelPublishPayload := mkPayload (bs "msg") (bs data).
Definition demo_ops : list StoreOp :=
  [OpPublish 1000 (bs "room") (demo_payload "1") false;
   OpIngest 1001 demo_fresh (mkEvent (mkEventId (bs "peer") 1) (bs "room") (demo_payload "2") false);
   OpPrune 1002].
Definition demo_state : list Committed * ChannelDb := run_ops demo_ops ([], new_db demo_epoch).

Lemma demo_reachable : store_reachable demo_epoch (demo_state.1, demo_state.2).
Proof.
  rewrite <- surjective_pairing. apply run_ops_steps.
  repeat constructor.
Qed.

Lemma channel_store_invariant_witness :
  length (messages demo_state.2) = 2 /\ store_count demo_state.2 = Z.of_nat (length (messages demo_state.2)).
Proof.
  split; [vm_compute; reflexivity|].
  apply (channel_store_invariant demo_epoch demo_state.1 demo_state.2); [reflexivity|apply demo_reachable].
Defined.

(** Limits that keep one of the two rows. *)
Definition demo_limits : SqliteReplayLimits := mkLimits 1 100 1 100 0.

Lemma budget_loops_terminate_witness :
  length (messages (enforce_stream_budget demo_limits (bs "room") demo_state.2).1) = 1
  /\ in_store_budget demo_limits (enforce_store_budget demo_limits demo_state.2).1.
Proof.
  split; [vm_compute; reflexivity|].
  apply (budget_loops_terminate demo_limits (bs "room") demo_state.2).
  - exact (tb_db _ _ (so_tables _ _ (reachable_ok demo_epoch _ _ eq_refl demo_reachable))).
  - unfold limits_pos. simpl. lia.
Defined.

Definition demo_publish : ChannelDb * result (ChannelMessage * ChannelEvent) ChannelError :=
  publish 1003 (store_epoch demo_state.2) (bs "room") (demo_payload "3") false demo_state.2.

Definition demo_event : ChannelEvent :=
  mkEvent (mkEventId (b64_encode demo_epoch) 2) (bs "room") (demo_payload "3") false.

Lemma publish_kept_witness :
  exists e, committed 1003 demo_event demo_state.2 = [e] /\ c_row e ∈ messages demo_publish.1.
Proof.
  destruct (publish_kept demo_epoch demo_state.1 demo_state.2 1003 (bs "room") (demo_payload "3") demo_publish.1
    (mkMessage (cursor_to_string (cursor_sqlite demo_epoch (bs "room") 3)) (Some (ev_id demo_event))
       (bs "room") (bs "msg") (bs "3" : @Json text_json)) demo_event)
    as (e & H1 & H2 & _); [reflexivity|apply demo_reachable|vm_compute; reflexivity|].
  exists e. split; [exact H1|exact H2].
Defined.

Lemma read_after_refines_log_witness :
  m_data <$> match read_after 1003 (bs "room") (Some (cursor_sqlite demo_epoch (bs "room") 1)) 10 demo_state.2 with
             | Ok ms => ms | Err _ => [] end = [bs "2"].
Proof.
  rewrite (read_after_refines_log demo_epoch demo_state.1 demo_state.2);
    [vm_compute; reflexivity|reflexivity|apply demo_reachable|simpl; lia].
Defined.

Definition demo_cursor : ReplayCursor := cursor_sqlite demo_epoch (bs "room") 0.
Definition demo_got : list ChannelMessage :=
  match read_after 1003 (bs "room") (Some demo_cursor) 10 demo_state.2 with Ok ms => ms | Err _ => [] end.

Lemma demo_read : read_after 1003 (bs "room") (Some demo_cursor) 10 demo_state.2 = Ok demo_got.
Proof. vm_compute. reflexivity. Qed.

Lemma demo_reread :
  read_after 1004 (bs "room") (Some (next_cursor demo_cursor demo_got)) 5 demo_state.2 = Ok [].
Proof. vm_compute. reflexivity. Qed.

Lemma follower_gets_log_witness :
  exists newer, demo_state.1 = [] ++ newer
    /\ demo_got = entry_message demo_epoch (bs "room") <$> retain (fun e => in_channel (bs "room") (c_row e)) newer.
Proof.
  destruct (follower_gets_log demo_epoch [] (new_db demo_epoch) 0 (bs "room") demo_cursor demo_state.1 demo_state.2
    (next_cursor demo_cursor demo_got) demo_got) as (newer & E1 & _ & E2);
    [reflexivity|constructor|vm_compute; reflexivity|exact (follow_read_once _ _ _ _ _ _ _ _ _ demo_reachable demo_read)|].
  exists newer. split; [exact E1|]. exact (E2 1004%Z 5%Z eq_refl demo_reread).
Defined.

Definition demo_gap_event : ChannelEvent :=
  mkEvent (mkEventId (bs "peer") 4) (bs "room") (demo_payload "5") false.
Definition demo_gap : ChannelDb :=
  (ingest_remote 1005 demo_fresh (store_epoch demo_state.2) demo_gap_event demo_state.2).1.1.

Lemma remote_events_are_safe_witness :
  length demo_state.1 = 2 /\ NoDup (c_event <$> demo_state.1)
  /\ read_after 1006 (bs "room") (Some (cursor_sqlite (replay_state demo_state.2) (bs "room") 1)) 10 demo_gap
     = Err StaleCursor.
Proof.
  destruct (remote_events_are_safe demo_epoch demo_state.1 demo_state.2 eq_refl demo_reachable) as (Hn & _ & Hg).
  split; [vm_compute; reflexivity|]. split; [exact Hn|].
  destruct (Hg 1005%Z demo_fresh demo_gap_event demo_gap true
    (mkMessage (cursor_to_string (cursor_sqlite demo_fresh (bs "room") 3)) (Some (ev_id demo_gap_event))
       (bs "room") (bs "msg") (bs "5" : @Json text_json))) as [_ Hs];
    [reflexivity|vm_compute; discriminate|vm_compute; reflexivity|vm_compute; reflexivity|].
  apply Hs. lia.
Defined.
