(* ===== verification/WebSocket.v ===== *)
(** * WebSocket framing of channels (tako-channels/src/websocket.rs, websocket/serve.rs)

    The incremental frame reader, the frame writers, and the loop with which a served
    channel socket consumes the chunks that arrive.  A buffer is the list of its bytes.
    [usize] is 64 bits wide. *)

From S2P Require Import Prelude RustStr Net Codec Cursor.

Definition MAX_WEBSOCKET_FRAME_PAYLOAD_BYTES : Z := 134217728.

Record WebSocketFrame := { opcode : Z; payload : str }.

#[global] Instance WebSocketFrame_eq_dec : EqDecision WebSocketFrame.
Proof. solve_decision. Defined.

Definition blen (s : str) : Z := Z.of_nat (length s).

(** The payload bytes combined with the four mask bytes, in turn. *)
Definition apply_mask (mask payload : str) : str :=
  imap (fun i b => of_byte (Z.lxor (byte_of b) (byte_at mask (i mod 4)))) payload.

Definition extend (buffer chunk : str) : str := buffer ++ chunk.

(** The extended length: [None] when its bytes have not arrived, else the payload length
    and the offset behind it. *)
Definition extended_len (buffer : str) (len7 : Z) : option (Z * nat) :=
  if (len7 =? 126)%Z then
    if (length buffer <? 2 + 2)%nat then None else Some (from_be (slice buffer 2 2), 4)
  else if (len7 =? 127)%Z then
    if (length buffer <? 2 + 8)%nat then None else Some (from_be (slice buffer 2 8), 10)
  else Some (len7, 2).

Definition too_large : ChannelError := BadRequest (bs "websocket frame too large").

(** [WebSocketFrameReader::next_frame]: the result and the buffer left. *)
Definition next_frame (buffer : str) : result (option WebSocketFrame) ChannelError * str :=
  if (length buffer <? 2)%nat then (Ok None, buffer)
  else
    let first := byte_at buffer 0 in
    let second := byte_at buffer 1 in
    let fin := negb (Z.land first 128 =? 0)%Z in
    let opcode := Z.land first 15 in
    if negb fin then (Err (BadRequest (bs "fragmented websocket frames are not supported")), buffer)
    else
      let masked := negb (Z.land second 128 =? 0)%Z in
      match extended_len buffer (Z.land second 127) with
      | None => (Ok None, buffer)
      | Some (payload_len, offset) =>
          if ((8 <=? opcode) && (opcode <=? 10) && (125 <? payload_len))%Z
          then (Err (BadRequest (bs "invalid websocket control frame")), buffer)
          else if (MAX_WEBSOCKET_FRAME_PAYLOAD_BYTES <? payload_len)%Z then (Err too_large, buffer)
          else if masked && (length buffer <? offset + 4)%nat then (Ok None, buffer)
          else
            let mask := if masked then Some (slice buffer offset 4) else None in
            let offset := if masked then (offset + 4)%nat else offset in
            if (u64_max <? payload_len)%Z then (Err too_large, buffer)
            else
              let total_len := (Z.of_nat offset + payload_len)%Z in
              if (u64_max <? total_len)%Z then (Err too_large, buffer)
              else if (blen buffer <? total_len)%Z then (Ok None, buffer)
              else
                let payload := slice buffer offset (Z.to_nat payload_len) in
                let payload := match mask with Some m => apply_mask m payload | None => payload end in
                (Ok (Some {| opcode := opcode; payload := payload |}), drop (Z.to_nat total_len) buffer)
      end.

(** [websocket_frame] and the frames the server sends. *)
Definition websocket_frame (opcode : Z) (payload : str) : str :=
  of_byte (Z.lor 128 (Z.land opcode 15))
  :: (if (blen payload <? 126)%Z then [of_byte (blen payload)]
      else if (blen payload <=? u16_max)%Z then of_byte 126 :: to_be 2 (blen payload)
      else of_byte 127 :: to_be 8 (blen payload))
  ++ payload.

Definition websocket_text_frame (text : str) : str := websocket_frame 1 text.
Definition websocket_ping_frame (payload : str) : str := websocket_frame 9 payload.
Definition websocket_pong_frame (payload : str) : str := websocket_frame 10 payload.
Definition websocket_close_frame (code : Z) (reason : str) : str :=
  websocket_frame 8 (to_be 2 code ++ reason).

(** ** Serving a socket

    What follows the frame reader: the authentication test, the publish parser, the
    presence session and the channel writer are parameters.  [out] is what was written
    to the client. *)
Section Serve.
Context {W P : Type}.
Variable is_websocket_auth_payload : str -> bool.
Variable parse_publish_payload : str -> result P str.
Variable publish : W -> P -> W * result unit str.
(** [presence.update], present only on presence channels. *)
Variable presence_update : option (W -> str -> W * result unit str).

Inductive Outcome := Continue | Closed | Failed (e : str).

Definition close_with (w : W) (out : list str) (code : Z) (reason : str) : W * list str * Outcome :=
  (w, out ++ [websocket_close_frame code reason], Closed).

Definition serve_frame (w : W) (out : list str) (f : WebSocketFrame) : W * list str * Outcome :=
  if (opcode f =? 1)%Z then
    if is_websocket_auth_payload (payload f) then (w, out, Continue)
    else
      match presence_update with
      | Some update =>
          match update w (payload f) with
          | (w', Err _) => close_with w' out 4400 (bs "invalid presence update")
          | (w', Ok tt) => (w', out, Continue)
          end
      | None =>
          match parse_publish_payload (payload f) with
          | Err e => (w, out, Failed (bs "Invalid websocket publish payload: " ++ e))
          | Ok p =>
              match publish w p with
              | (w', Ok tt) => (w', out, Continue)
              | (w', Err e) => (w', out, Failed (bs "Failed to append websocket channel payload: " ++ e))
              end
          end
      end
  else if (opcode f =? 8)%Z then close_with w out 1000 (bs "closing")
  else if (opcode f =? 9)%Z then (w, out ++ [websocket_pong_frame (payload f)], Continue)
  else if (opcode f =? 10)%Z then (w, out, Continue)
  else close_with w out 1003 (bs "unsupported frame").

Record Conn := { conn_world : W; conn_out : list str; conn_buffer : str; conn_outcome : Outcome }.

Definition invalid_frame (e : ChannelError) : str :=
  bs "Invalid websocket frame: " ++ channel_error_text e.

(** [while let Some(frame) = reader.next_frame()? { .. }]: a frame takes at least two
    bytes, so the length of the buffer is enough fuel. *)
Fixpoint frames_loop (fuel : nat) (w : W) (out : list str) (buffer : str) : Conn :=
  match next_frame buffer with
  | (Ok (Some f), buffer') =>
      match fuel with
      | O => {| conn_world := w; conn_out := out; conn_buffer := buffer; conn_outcome := Continue |}
      | S fuel' =>
          match serve_frame w out f with
          | (w', out', Continue) => frames_loop fuel' w' out' buffer'
          | (w', out', o) => {| conn_world := w'; conn_out := out'; conn_buffer := buffer'; conn_outcome := o |}
          end
      end
  | (Ok None, buffer') => {| conn_world := w; conn_out := out; conn_buffer := buffer'; conn_outcome := Continue |}
  | (Err e, buffer') =>
      {| conn_world := w; conn_out := out; conn_buffer := buffer'; conn_outcome := Failed (invalid_frame e) |}
  end.

(** A chunk that arrives while the connection is served. *)
Definition read_chunk (c : Conn) (chunk : str) : Conn :=
  match conn_outcome c with
  | Continue =>
      let buffer := extend (conn_buffer c) chunk in
      frames_loop (length buffer) (conn_world c) (conn_out c) buffer
  | _ => c
  end.

Definition connect (w : W) : Conn :=
  {| conn_world := w; conn_out := []; conn_buffer := []; conn_outcome := Continue |}.
End Serve.

Example masked_hello :
  next_frame (of_byte <$> [129; 133; 55; 250; 33; 61; 127; 159; 77; 81; 88]%Z)
  = (Ok (Some {| opcode := 1; payload := bs "Hello" |}), []).
Proof. vm_compute. reflexivity. Qed.

(** ** The reader on longer buffers *)

Lemma extended_len_extend b x l r :
  (2 <= length b)%nat -> extended_len b l = Some r -> extended_len (b ++ x) l = Some r.
Proof.
  unfold extended_len. rewrite length_app. intros Hb.
  repeat case_match; bool_to_prop; try done; try lia; by rewrite slice_app by lia.
Qed.

Lemma extended_len_range b l r off :
  (0 <= l)%Z -> extended_len b l = Some (r, off) -> (0 <= r)%Z /\ (2 <= off <= length b \/ off = 2)%nat.
Proof.
  unfold extended_len. intros Hl E. repeat case_match; bool_to_prop; simplify_eq/=;
    (split; [try apply from_be_range; done|lia]).
Qed.

(** A frame, or an error, found in a buffer is found in every longer one. *)
Lemma next_frame_extend b x :
  match next_frame b with
  | (Ok None, b') => b' = b
  | (Err e, b') => next_frame (b ++ x) = (Err e, b ++ x)
  | (Ok (Some f), b') => (length b' < length b)%nat /\ next_frame (b ++ x) = (Ok (Some f), b' ++ x)
  end.
Proof.
  unfold next_frame. destruct (Nat.ltb_spec (length b) 2) as [|Hlen]; [done|].
  rewrite length_app. destruct (Nat.ltb_spec (length b + length x) 2); [lia|].
  rewrite !byte_at_app by lia. destruct (negb (negb _)); [done|].
  destruct (extended_len b _) as [[plen off]|] eqn:Hext; [|done].
  pose proof (extended_len_extend _ x _ _ Hlen Hext) as ->.
  apply extended_len_range in Hext as [Hp Hoff]; [|by apply Z.land_nonneg; right].
  destruct (_ && (125 <? plen)%Z); [done|]. destruct (_ <? plen)%Z eqn:Hmax; [done|].
  set (masked := negb (Z.land _ 128 =? 0)%Z).
  set (off' := if masked then off + 4 else off).
  destruct (masked && (length b <? off + 4)%nat) eqn:Hm; [done|].
  assert (masked && (length b + length x <? off + 4)%nat = false) as ->.
  { destruct masked; [simpl in *; lia|done]. }
  destruct (u64_max <? plen)%Z; [done|]. destruct (u64_max <? Z.of_nat off' + plen)%Z; [done|].
  unfold blen. rewrite length_app.
  destruct (Z.ltb_spec (Z.of_nat (length b)) (Z.of_nat off' + plen)); [done|].
  destruct (Z.ltb_spec (Z.of_nat (length b + length x)) (Z.of_nat off' + plen)); [lia|].
  assert (2 <= off')%nat by (unfold off'; destruct masked; lia).
  split; [rewrite length_drop; lia|].
  rewrite (slice_app b x off') by lia. rewrite drop_app_le by lia.
  destruct masked; [|done]. rewrite slice_app; [done|simpl in Hm; lia].
Qed.

(** ** Chunks *)

Section Chunks.
Context {W P : Type}.
Variable is_auth : str -> bool.
Variable parse : str -> result P str.
Variable publish : W -> P -> W * result unit str.
Variable presence : option (W -> str -> W * result unit str).

Let loop := frames_loop is_auth parse publish presence.
Let read := read_chunk is_auth parse publish presence.

(** Connections that a peer cannot tell apart: the bytes left in the buffer of a
    connection that is over do not matter. *)
Definition conn_equiv (c d : Conn (W := W)) : Prop :=
  conn_world c = conn_world d /\ conn_out c = conn_out d /\ conn_outcome c = conn_outcome d
  /\ (conn_outcome c = Continue -> conn_buffer c = conn_buffer d).

#[global] Instance conn_equiv_equivalence : Equivalence conn_equiv.
Proof.
  split.
  - by intros c.
  - intros c d (? & ? & ? & H). split_and!; [done..|]. intros Hd. symmetry. apply H. congruence.
  - intros c d e (? & ? & ? & H) (? & ? & ? & H'). split_and!; [congruence..|].
    intros Hc. rewrite H by done. apply H'. congruence.
Qed.

#[global] Instance read_chunk_proper : Proper (conn_equiv ==> (=) ==> conn_equiv) read.
Proof.
  intros c d Heq chunk _ <-. pose proof Heq as (Hw & Ho & Hout & Hb).
  unfold read, read_chunk. rewrite <- Hout.
  destruct (conn_outcome c) eqn:E; [|done..]. by rewrite Hw, Ho, (Hb eq_refl).
Qed.

(** The fuel does not matter once it covers the buffer. *)
Lemma frames_loop_fuel n m w out b :
  (length b <= n)%nat -> (length b <= m)%nat -> loop n w out b = loop m w out b.
Proof.
  revert m w out b. induction n as [|n IH]; intros m w out b Hn Hm.
  - destruct b; [|simpl in Hn; lia]. by destruct m.
  - pose proof (next_frame_extend b []) as Hnf. unfold loop. destruct m as [|m].
    { destruct b; [done|simpl in Hm; lia]. }
    cbn [frames_loop]. destruct (next_frame b) as [[[f|]|e] b']; [|done..].
    destruct (serve_frame _ _ _ _ w out f) as [[w' out'] []]; [|done..]. apply IH; lia.
Qed.

(** Going on with more bytes after a buffer is exhausted is starting with all of them. *)
Lemma frames_loop_app n w out b x :
  (length (b ++ x) <= n)%nat ->
  conn_equiv (loop n w out (b ++ x)) (read (loop n w out b) x).
Proof.
  revert w out b. induction n as [|n IH]; intros w out b Hn.
  { destruct b, x; by try (simpl in Hn; lia). }
  pose proof (next_frame_extend b x) as Hnf. unfold read, loop, read_chunk. cbn [frames_loop].
  destruct (next_frame b) as [[[f|]|e] b'] eqn:E.
  - destruct Hnf as [Hlt ->]. destruct (serve_frame _ _ _ _ w out f) as [[w' out'] []]; [|done..].
    apply IH. rewrite length_app in *. lia.
  - subst b'. cbn [conn_outcome conn_buffer conn_world conn_out]. unfold extend.
    change (conn_equiv (loop (S n) w out (b ++ x)) (loop (length (b ++ x)) w out (b ++ x))).
    by rewrite (frames_loop_fuel (S n) (length (b ++ x))).
  - by rewrite Hnf.
Qed.

Lemma read_chunk_split c a b : conn_equiv (read c (a ++ b)) (read (read c a) b).
Proof.
  unfold read at 1 3, read_chunk. destruct (conn_outcome c) eqn:E.
  2,3: unfold read, read_chunk; by rewrite E.
  unfold extend. rewrite app_assoc.
  etrans; [by apply frames_loop_app|].
  rewrite (frames_loop_fuel _ (length (conn_buffer c ++ a))); [done|rewrite !length_app; lia|done].
Qed.

(** The service of a socket does not depend on how the bytes are cut into chunks:
    for every handler of the frames, reading any sequence of chunks has the effects, the
    output and the outcome of reading the concatenation at once, and leaves the same
    partial frame in the buffer while the connection is open. *)
Lemma chunking_is_irrelevant w chunks :
  conn_equiv (fold_left (read_chunk is_auth parse publish presence) chunks (connect w))
             (read_chunk is_auth parse publish presence (connect w) (concat chunks)).
Proof.
  fold read. induction chunks as [|chunk chunks IH] using rev_ind; [done|].
  rewrite fold_left_app, concat_app. cbn [fold_left concat]. rewrite app_nil_r, IH.
  symmetry. apply read_chunk_split.
Qed.
End Chunks.

(** ** Frames of a client *)

(** The wire format of RFC 6455: final frame, opcode, the shortest length, optionally a
    mask and the masked payload. *)
Definition encode_frame (mask : option str) (op : Z) (p : str) : str :=
  let bit := match mask with Some _ => 128%Z | None => 0%Z end in
  of_byte (128 + op)
  :: (if (blen p <? 126)%Z then [of_byte (bit + blen p)]
      else if (blen p <? 65536)%Z then of_byte (bit + 126) :: to_be 2 (blen p)
      else of_byte (bit + 127) :: to_be 8 (blen p))
  ++ match mask with Some m => m ++ apply_mask m p | None => p end.

Definition valid_frame (op : Z) (p : str) : Prop :=
  (0 <= op < 16)%Z /\ (blen p <= MAX_WEBSOCKET_FRAME_PAYLOAD_BYTES)%Z
  /\ ((8 <= op <= 10)%Z -> (blen p <= 125)%Z).

Lemma lxor_byte a b : (0 <= a <= 255)%Z -> (0 <= b <= 255)%Z -> (0 <= Z.lxor a b <= 255)%Z.
Proof.
  intros Ha Hb. enough (0 <= Z.lxor a b < 2 ^ 8)%Z by lia.
  apply (proj2 (Z.bounded_iff_bits_nonneg' 8 (Z.lxor a b) ltac:(lia) ltac:(apply Z.lxor_nonneg; lia))).
  intros l Hl. rewrite Z.lxor_spec.
  pose proof (proj1 (Z.bounded_iff_bits_nonneg 8 a ltac:(lia) ltac:(lia)) ltac:(lia) l Hl) as ->.
  by pose proof (proj1 (Z.bounded_iff_bits_nonneg 8 b ltac:(lia) ltac:(lia)) ltac:(lia) l Hl) as ->.
Qed.

Lemma apply_mask_involutive m p : apply_mask m (apply_mask m p) = p.
Proof.
  apply list_eq. intros i. unfold apply_mask. rewrite !list_lookup_imap.
  destruct (p !! i) as [c|]; [simpl|done].
  assert (H : forall k, (0 <= byte_at m k <= 255)%Z).
  { intros k. unfold byte_at. destruct (m !! k); simpl; [apply byte_of_range|lia]. }
  f_equal. rewrite byte_of_of_byte, Z.lxor_assoc, Z.lxor_nilpotent, Z.lxor_0_r; [apply of_byte_byte_of|].
  apply lxor_byte; [apply byte_of_range|apply H].
Qed.

(** The bit fields of the two header bytes, by enumeration. *)
Lemma first_byte_fields op :
  (0 <= op < 16)%Z ->
  Z.land (128 + op) 15 = op /\ (Z.land (128 + op) 128 =? 0)%Z = false /\ Z.lor 128 (Z.land op 15) = (128 + op)%Z.
Proof.
  intros H. assert (Hall : forallb (fun op => (Z.land (128 + op) 15 =? op)%Z
    && negb (Z.land (128 + op) 128 =? 0)%Z && (Z.lor 128 (Z.land op 15) =? 128 + op)%Z) (seqZ 0 16) = true)
    by (vm_compute; reflexivity).
  rewrite List.forallb_forall in Hall. specialize (Hall op).
  rewrite <- list_elem_of_In, elem_of_seqZ in Hall. specialize (Hall ltac:(lia)). bool_to_prop. split_and!; lia.
Qed.

Lemma second_byte_fields (m : bool) l :
  (0 <= l < 128)%Z ->
  Z.land ((if m then 128 else 0) + l) 127 = l
  /\ negb (Z.land ((if m then 128 else 0) + l) 128 =? 0)%Z = m.
Proof.
  intros H. assert (Hall : forallb (fun l => forallb (fun m : bool =>
      (Z.land ((if m then 128 else 0) + l) 127 =? l)%Z
      && Bool.eqb (negb (Z.land ((if m then 128 else 0) + l) 128 =? 0)%Z) m) [true; false]) (seqZ 0 128) = true)
    by (vm_compute; reflexivity).
  rewrite List.forallb_forall in Hall. specialize (Hall l).
  rewrite <- list_elem_of_In, elem_of_seqZ in Hall. specialize (Hall ltac:(lia)).
  rewrite List.forallb_forall in Hall. specialize (Hall m ltac:(destruct m; simpl; tauto)).
  apply andb_true_iff in Hall as [H1 H2]. apply Z.eqb_eq in H1. by apply eqb_prop in H2.
Qed.

(** The length fields: the seven-bit length and its extension. *)
Definition len_fields (n : Z) : Z * str :=
  if (n <? 126)%Z then (n, []) else if (n <? 65536)%Z then (126%Z, to_be 2 n) else (127%Z, to_be 8 n).

Lemma extended_len_fields a b n t :
  (0 <= n < 2 ^ 64)%Z ->
  extended_len (a :: b :: (len_fields n).2 ++ t) (len_fields n).1 = Some (n, (2 + length (len_fields n).2)%nat).
Proof.
  intros Hn. unfold len_fields. destruct (Z.ltb_spec n 126); [|destruct (Z.ltb_spec n 65536)];
    unfold extended_len; cbn [fst snd].
  - destruct (Z.eqb_spec n 126); [lia|]. destruct (Z.eqb_spec n 127); [lia|]. done.
  - change (126 =? 126)%Z with true. cbn [length]. rewrite length_app, length_to_be.
    destruct (Nat.ltb_spec (S (S (2 + length t))) (2 + 2)); [lia|]. unfold slice. cbn [drop]. rewrite drop_0.
    rewrite take_app_exact, from_to_be by (apply length_to_be || (change (256 ^ Z.of_nat 2)%Z with 65536%Z; lia)).
    done.
  - change (127 =? 126)%Z with false. change (127 =? 127)%Z with true. cbn [length]. rewrite length_app, length_to_be.
    destruct (Nat.ltb_spec (S (S (8 + length t))) (2 + 8)); [lia|]. unfold slice. cbn [drop]. rewrite drop_0.
    rewrite take_app_exact, from_to_be by (apply length_to_be || (change (256 ^ Z.of_nat 8)%Z with (2 ^ 64)%Z; lia)).
    done.
Qed.

Lemma encode_frame_fields mask op p :
  encode_frame mask op p =
    of_byte (128 + op)
    :: of_byte ((if (match mask with Some _ => true | None => false end : bool) then 128 else 0) + (len_fields (blen p)).1)
    :: (len_fields (blen p)).2 ++ match mask with Some m => m ++ apply_mask m p | None => p end.
Proof. unfold encode_frame, len_fields. destruct mask; repeat case_match; try done; lia. Qed.

Lemma length_apply_mask m p : length (apply_mask m p) = length p.
Proof. apply length_imap. Qed.

Lemma slice_middle a b c : slice (a ++ b ++ c) (length a) (length b) = b.
Proof. unfold slice. by rewrite drop_app_length, take_app_length. Qed.

Lemma next_frame_encode mask op p rest :
  valid_frame op p -> (forall m, mask = Some m -> length m = 4) ->
  next_frame (encode_frame mask op p ++ rest) = (Ok (Some {| opcode := op; payload := p |}), rest).
Proof.
  intros (Hop & Hlen & Hctl) Hm. destruct (first_byte_fields op Hop) as (F1 & F2 & _).
  rewrite encode_frame_fields. set (n := blen p). set (masked := match mask with Some _ => true | None => false end).
  set (body := match mask with Some m => m ++ apply_mask m p | None => p end).
  assert (Hn : (0 <= n < 2 ^ 64)%Z) by (unfold n, blen in *; unfold MAX_WEBSOCKET_FRAME_PAYLOAD_BYTES in Hlen; lia).
  assert (H7 : (0 <= (len_fields n).1 < 128)%Z) by (unfold len_fields; repeat case_match; bool_to_prop; simpl; lia).
  destruct (second_byte_fields masked _ H7) as (S1 & S2).
  cbn [app]. rewrite <- app_assoc. set (ext := (len_fields n).2).
  set (b0 := of_byte (128 + op)). set (b1 := of_byte _).
  assert (B0 : byte_at (b0 :: b1 :: ext ++ body ++ rest) 0 = (128 + op)%Z)
    by (unfold byte_at; cbn; apply byte_of_of_byte; lia).
  assert (B1 : byte_at (b0 :: b1 :: ext ++ body ++ rest) 1 = ((if masked then 128 else 0) + (len_fields n).1)%Z)
    by (unfold byte_at; cbn; apply byte_of_of_byte; destruct masked; lia).
  pose proof (extended_len_fields b0 b1 n (body ++ rest) Hn) as Hext. fold ext in Hext.
  unfold next_frame. rewrite B0, B1, F1, F2, S1, S2, Hext. cbn [negb].
  set (off := 2 + length ext). set (buf := b0 :: b1 :: ext ++ body ++ rest).
  assert (Hbody : length body = (if masked then 4 else 0) + length p).
  { unfold body, masked. destruct mask as [m|]; [|done]. rewrite length_app, length_apply_mask, (Hm m); done. }
  assert (Hbuf : length buf = off + length body + length rest).
  { unfold buf, off. cbn [length]. rewrite !length_app. lia. }
  replace (length buf <? 2)%nat with false by lia.
  replace ((8 <=? op)%Z && (op <=? 10)%Z && (125 <? n)%Z) with false by lia.
  replace (MAX_WEBSOCKET_FRAME_PAYLOAD_BYTES <? n)%Z with false by lia.
  replace (masked && (length buf <? off + 4)%nat) with false by (destruct masked; lia).
  replace (u64_max <? n)%Z with false by (unfold u64_max; lia).
  set (off' := if masked then off + 4 else off).
  assert (Hoff : (Z.of_nat off' + n)%Z = Z.of_nat (off + length body)) by (unfold off', n, blen; destruct masked; lia).
  rewrite Hoff. assert (off <= 10) by (unfold off, ext, len_fields; repeat case_match; cbn [snd]; rewrite ?length_to_be; simpl; lia).
  replace (u64_max <? Z.of_nat (off + length body))%Z with false
    by (unfold u64_max, MAX_WEBSOCKET_FRAME_PAYLOAD_BYTES, blen in *; destruct masked; lia).
  replace (blen buf <? Z.of_nat (off + length body))%Z with false by (unfold blen; lia).
  assert (Hsplit : buf = ((b0 :: b1 :: ext) ++ body) ++ rest) by (unfold buf; cbn [app]; by rewrite <- app_assoc).
  rewrite Nat2Z.id. f_equal.
  2:{ rewrite Hsplit. apply drop_app_exact. by rewrite length_app. }
  do 3 f_equal. unfold n, blen. rewrite Nat2Z.id. subst off' body masked. destruct mask as [m|].
  - specialize (Hm m eq_refl). rewrite <- Hm.
    assert (Hs : buf = (b0 :: b1 :: ext) ++ m ++ (apply_mask m p ++ rest)) by (unfold buf; by rewrite <- app_assoc).
    assert (Hs' : buf = ((b0 :: b1 :: ext) ++ m) ++ apply_mask m p ++ rest) by (by rewrite Hs, app_assoc).
    rewrite Hs at 1. rewrite (slice_middle (b0 :: b1 :: ext)), Hs'.
    rewrite <- (length_apply_mask m p). change off with (length (b0 :: b1 :: ext)).
    rewrite <- length_app, slice_middle. apply apply_mask_involutive.
  - apply (slice_middle (b0 :: b1 :: ext)).
Qed.

(** Frames round-trip.  For every opcode and every payload within the limits of the
    protocol, the reader finds in a masked client frame, and in the unmasked frame the
    server writes, exactly that opcode and payload, and leaves the bytes behind the frame
    in the buffer. *)
Lemma frame_round_trip mask op p rest :
  valid_frame op p -> (forall m, mask = Some m -> length m = 4) ->
  next_frame (encode_frame mask op p ++ rest) = (Ok (Some {| opcode := op; payload := p |}), rest)
  /\ next_frame (websocket_frame op p ++ rest) = (Ok (Some {| opcode := op; payload := p |}), rest).
Proof.
  intros Hv Hm. assert (websocket_frame op p = encode_frame None op p) as ->.
  { unfold websocket_frame, encode_frame, u16_max. destruct Hv as [Hop _].
    destruct (first_byte_fields op Hop) as (_ & _ & ->). repeat case_match; bool_to_prop; try done; lia. }
  by split; apply next_frame_encode.
Qed.

(** C17: the frame reader is right and does not depend on packets.  For every opcode and
    every payload within the limits of the protocol, the reader finds in a masked client
    frame, and in the unmasked frame the server writes, exactly that opcode and payload,
    and leaves the bytes behind the frame in the buffer.  And for every handler of the
    frames, reading any sequence of chunks has the effects, the output and the outcome of
    reading their concatenation at once, and leaves the same partial frame in the buffer
    while the connection is open. *)
Theorem frames_survive_transport {W P} is_auth (parse : str -> result P str)
    (publish : W -> P -> W * result unit str) presence mask op p :
  (valid_frame op p -> (forall m, mask = Some m -> length m = 4) -> forall rest,
     next_frame (encode_frame mask op p ++ rest) = (Ok (Some {| opcode := op; payload := p |}), rest)
     /\ next_frame (websocket_frame op p ++ rest) = (Ok (Some {| opcode := op; payload := p |}), rest))
  /\ (forall w chunks,
     conn_equiv (fold_left (read_chunk is_auth parse publish presence) chunks (connect w))
                (read_chunk is_auth parse publish presence (connect w) (concat chunks))).
Proof.
  split; [intros Hv Hm rest; by apply frame_round_trip|intros w chunks; apply chunking_is_irrelevant].
Qed.

Lemma frames_survive_transport_witness :
  next_frame (encode_frame (Some (bs "mask")) 1 (bs "hello") ++ bs "next")
    = (Ok (Some {| opcode := 1; payload := bs "hello" |}), bs "next").
Proof.
  refine (proj1 (proj1 (frames_survive_transport (W := unit) (P := unit) (fun _ => false) (fun _ => Err [])
    (fun w _ => (w, Ok tt)) None (Some (bs "mask")) 1%Z (bs "hello")) _ _ (bs "next")));
    [|by intros m [= <-]].
  split; [lia|]. split; [vm_compute; discriminate|lia].
Defined.
