(* ===== verification/ColdStart.v ===== *)
(** * Cold starts (tako-server/src/scaling/cold_start.rs)

    The manager that elects one request to start a scaled-down app and queues the others.
    A semaphore and a broadcast channel are heap objects that outlive the entry that
    created them (the queued requests hold them), so the model has a heap of each, and the
    source's [Arc] and sender are their addresses.  The mutex makes every method one step;
    a queued request is a waiter between the step that enrols it and the one in which its
    future completes or is dropped.  Metrics are not modelled. *)

From S2P Require Import Prelude RustStr.

Record ColdStartConfig := mkColdStartConfig { startup_timeout : Z; max_queued_requests : Z }.

(** [Duration] in milliseconds. *)
Definition ColdStartConfig_default : ColdStartConfig := mkColdStartConfig 30000 1000.

Inductive ColdStartState := Idle | Starting | Ready | Failed.

#[global] Instance ColdStartState_eq_dec : EqDecision ColdStartState.
Proof. solve_decision. Defined.

Inductive WaitForReadyOutcome := WReady | WFailed | WTimeout | WQueueFull.

Record AppColdStart := mkAppColdStart {
  state : ColdStartState;
  started_at : option Z;
  ready_tx : option nat;
  queue_slots : nat;
}.

(** [broadcast::channel(1)] as it is used: the sender sends at most once and is dropped
    then; a sender dropped before that closes the channel. *)
Inductive Channel := Pending | Sent (v : bool) | SenderDropped.

#[global] Instance Channel_eq_dec : EqDecision Channel.
Proof. solve_decision. Defined.

Record ColdStartManager := mkManager {
  config : ColdStartConfig;
  apps : gmap str AppColdStart;
  semaphores : gmap nat Z;
  channels : gmap nat Channel;
  next_addr : nat;
}.

Definition new (config : ColdStartConfig) : ColdStartManager := mkManager config ∅ ∅ ∅ 0.

Definition with_apps (m : ColdStartManager) (apps' : gmap str AppColdStart) : ColdStartManager :=
  mkManager (config m) apps' (semaphores m) (channels m) (next_addr m).

Definition is_cold_starting (m : ColdStartManager) (app : str) : bool :=
  match apps m !! app with Some cs => bool_decide (state cs = Starting) | None => false end.

(** [AppColdStart::new]: an empty semaphore. *)
Definition or_insert_new (m : ColdStartManager) (app : str) : ColdStartManager * AppColdStart :=
  match apps m !! app with
  | Some cs => (m, cs)
  | None =>
      let cs := mkAppColdStart Idle None None (next_addr m) in
      (mkManager (config m) (<[app := cs]> (apps m)) (<[next_addr m := 0%Z]> (semaphores m))
         (channels m) (S (next_addr m)), cs)
  end.

(** [begin]: whether the caller is the leader. *)
Definition begin (m : ColdStartManager) (app : str) (now : Z) : ColdStartManager * bool :=
  let '(m, cs) := or_insert_new m app in
  match state cs with
  | Idle | Failed =>
      let a := next_addr m in
      (mkManager (config m)
         (<[app := mkAppColdStart Starting (Some now) (Some a) a]> (apps m))
         (<[a := max_queued_requests (config m)]> (semaphores m))
         (<[a := Pending]> (channels m)) (S a), true)
  | Starting | Ready => (m, false)
  end.

(** A queued request: its receiver and the semaphore its permit belongs to. *)
Record QueuedRequest := mkQueuedRequest { waiter_app : str; rx : option nat; permit : nat }.

Definition permits (m : ColdStartManager) (s : nat) : Z := default 0%Z (semaphores m !! s).

Definition set_permits (m : ColdStartManager) (s : nat) (v : Z) : ColdStartManager :=
  mkManager (config m) (apps m) (<[s := v]> (semaphores m)) (channels m) (next_addr m).

(** [wait_for_ready_outcome] up to its await: an outcome at once, or a waiter. *)
Definition enrol (m : ColdStartManager) (app : str)
    : ColdStartManager * (WaitForReadyOutcome + QueuedRequest) :=
  match apps m !! app with
  | Some cs =>
      match state cs with
      | Ready => (m, inl WReady)
      | Starting =>
          if (0 <? permits m (queue_slots cs))%Z then
            (set_permits m (queue_slots cs) (permits m (queue_slots cs) - 1),
             inr (mkQueuedRequest app (ready_tx cs) (queue_slots cs)))
          else (m, inl WQueueFull)
      | Idle | Failed => (m, inl WFailed)
      end
  | None => (m, inl WFailed)
  end.

(** What the receiver of a waiter yields: [None] while it must wait. *)
Definition received (m : ColdStartManager) (w : QueuedRequest) : option WaitForReadyOutcome :=
  match rx w with
  | None => Some WFailed
  | Some c =>
      match channels m !! c with
      | Some (Sent true) => Some WReady
      | Some (Sent false) | Some SenderDropped | None => Some WFailed
      | Some Pending => None
      end
  end.

(** The permit is dropped when the future completes or is dropped. *)
Definition drop_permit (m : ColdStartManager) (w : QueuedRequest) : ColdStartManager :=
  set_permits m (permit w) (permits m (permit w) + 1).

Definition close (m : ColdStartManager) (tx : option nat) (ch : Channel) : ColdStartManager :=
  match tx with
  | Some c => mkManager (config m) (apps m) (semaphores m) (<[c := ch]> (channels m)) (next_addr m)
  | None => m
  end.

Definition mark (m : ColdStartManager) (app : str) (s : ColdStartState) (v : bool) : ColdStartManager :=
  match apps m !! app with
  | Some cs =>
      close (with_apps m (<[app := mkAppColdStart s (started_at cs) None (queue_slots cs)]> (apps m)))
        (ready_tx cs) (Sent v)
  | None => m
  end.

Definition mark_ready (m : ColdStartManager) (app : str) : ColdStartManager := mark m app Ready true.
Definition mark_failed (m : ColdStartManager) (app : str) : ColdStartManager := mark m app Failed false.

(** [reset]: the removed entry drops its sender. *)
Definition reset (m : ColdStartManager) (app : str) : ColdStartManager :=
  close (with_apps m (delete app (apps m)))
    (match apps m !! app with Some cs => ready_tx cs | None => None end) SenderDropped.

Definition elapsed (m : ColdStartManager) (app : str) (now : Z) : option Z :=
  match apps m !! app with
  | Some cs => match started_at cs with Some t => Some (now - t)%Z | None => None end
  | None => None
  end.

(** ** The manager with its queued requests, under every interleaving *)

Record Sys := mkSys { mgr : ColdStartManager; waiters : gmap nat QueuedRequest }.

Inductive cold_step (s : Sys) : Sys -> Prop :=
| step_begin app now : cold_step s (mkSys (begin (mgr s) app now).1 (waiters s))
| step_enrol app k m' w :
    waiters s !! k = None -> enrol (mgr s) app = (m', inr w) ->
    cold_step s (mkSys m' (<[k := w]> (waiters s)))
(** The receiver yields, the timeout fires or the request is cancelled. *)
| step_done k w :
    waiters s !! k = Some w -> cold_step s (mkSys (drop_permit (mgr s) w) (delete k (waiters s)))
| step_ready app : cold_step s (mkSys (mark_ready (mgr s) app) (waiters s))
| step_failed app : cold_step s (mkSys (mark_failed (mgr s) app) (waiters s))
| step_reset app : cold_step s (mkSys (reset (mgr s) app) (waiters s)).

Definition cold_reachable (cfg : ColdStartConfig) : Sys -> Prop := rtc cold_step (mkSys (new cfg) ∅).

(** The waiters whose permit belongs to a semaphore. *)
Definition holders (ws : gmap nat QueuedRequest) (s : nat) : nat :=
  size (filter (fun kw => permit kw.2 = s) ws).

Record cold_inv (cfg : ColdStartConfig) (s : Sys) : Prop := {
  ci_config : config (mgr s) = cfg;
  (** addresses are allocated in order *)
  ci_chan_addr c ch : channels (mgr s) !! c = Some ch -> (c < next_addr (mgr s))%nat;
  ci_slot_addr app e : apps (mgr s) !! app = Some e -> (queue_slots e < next_addr (mgr s))%nat;
  ci_wait_addr k w : waiters s !! k = Some w -> (permit w < next_addr (mgr s))%nat;
  (** a start that runs has its own pending channel *)
  ci_starting app e : apps (mgr s) !! app = Some e -> state e = Starting -> is_Some (ready_tx e);
  ci_pending app e c : apps (mgr s) !! app = Some e -> ready_tx e = Some c ->
    state e = Starting /\ channels (mgr s) !! c = Some Pending;
  ci_owner a b e f c : apps (mgr s) !! a = Some e -> apps (mgr s) !! b = Some f ->
    ready_tx e = Some c -> ready_tx f = Some c -> a = b;
  (** a waiter that must wait waits for the current start of its app *)
  ci_waiter k w : waiters s !! k = Some w -> exists c, rx w = Some c
    /\ is_Some (channels (mgr s) !! c)
    /\ (channels (mgr s) !! c = Some Pending ->
        exists e, apps (mgr s) !! waiter_app w = Some e /\ ready_tx e = Some c
                  /\ permit w = queue_slots e);
  (** permits are neither lost nor created *)
  ci_permits app e : apps (mgr s) !! app = Some e -> state e = Starting ->
    (permits (mgr s) (queue_slots e) + Z.of_nat (holders (waiters s) (queue_slots e)))%Z
      = max_queued_requests cfg;
  ci_nonneg x : (0 <= permits (mgr s) x)%Z;
}.

Lemma holders_insert ws k w s :
  ws !! k = None ->
  holders (<[k := w]> ws) s = (holders ws s + if bool_decide (permit w = s) then 1 else 0)%nat.
Proof.
  intros Hk. unfold holders. case_bool_decide as Hs.
  - rewrite map_filter_insert_True by done. rewrite map_size_insert_None; [lia|].
    apply map_lookup_filter_None. by left.
  - rewrite map_filter_insert_False by done. rewrite delete_id by done. lia.
Qed.

Lemma holders_delete ws k w s :
  ws !! k = Some w ->
  holders ws s = (holders (delete k ws) s + if bool_decide (permit w = s) then 1 else 0)%nat.
Proof.
  intros Hk. rewrite <- (insert_delete_id ws k w Hk) at 1. apply holders_insert, lookup_delete_eq.
Qed.

Lemma holders_fresh ws s :
  (forall k w, ws !! k = Some w -> (permit w < s)%nat) -> holders ws s = 0.
Proof.
  intros H. unfold holders. apply map_size_empty_iff, map_empty_filter_2.
  intros k w Hk Hp. specialize (H k w Hk). simpl in Hp. lia.
Qed.

Lemma permits_set m s v x : permits (set_permits m s v) x = if bool_decide (x = s) then v else permits m x.
Proof.
  unfold permits, set_permits. simpl. case_bool_decide; subst; [by rewrite lookup_insert_eq|].
  by rewrite lookup_insert_ne.
Qed.

Lemma cold_inv_new cfg : (0 <= max_queued_requests cfg)%Z -> cold_inv cfg (mkSys (new cfg) ∅).
Proof. intros H. by split; simpl; try set_solver. Qed.

Lemma or_insert_new_inv cfg m ws app :
  cold_inv cfg (mkSys m ws) ->
  let '(m', cs) := or_insert_new m app in
  cold_inv cfg (mkSys m' ws) /\ apps m' !! app = Some cs /\ (apps m !! app = None -> state cs = Idle)
  /\ (apps m !! app <> None -> m' = m).
Proof.
  intros H. unfold or_insert_new. destruct (apps m !! app) as [cs|] eqn:E; [done|].
  split_and!; [|by simpl; rewrite lookup_insert_eq|done|done].
  destruct H. split; simpl in *.
  - done.
  - intros c ch Hc. specialize (ci_chan_addr0 _ _ Hc). lia.
  - intros a e [[<- <-]|[? He]]%lookup_insert_Some; [simpl; lia|]. specialize (ci_slot_addr0 _ _ He). lia.
  - intros k w Hk. specialize (ci_wait_addr0 _ _ Hk). lia.
  - intros a e [[<- <-]|[? He]]%lookup_insert_Some; [done|eauto].
  - intros a e c [[<- <-]|[? He]]%lookup_insert_Some; [done|eauto].
  - intros a b e f c [[<- <-]|[? He]]%lookup_insert_Some; [done|].
    intros [[<- <-]|[? Hf]]%lookup_insert_Some; [done|eauto].
  - intros k w Hk. destruct (ci_waiter0 k w Hk) as (c & Hc & Hs & Hp). exists c. split_and!; [done..|].
    intros HP. destruct (Hp HP) as (e & He & Ht & Hq). exists e. split; [|done].
    rewrite lookup_insert_ne; [done|congruence].
  - intros a e [[<- <-]|[? He]]%lookup_insert_Some Hst; [done|].
    specialize (ci_slot_addr0 _ _ He). unfold permits in *. simpl in *.
    rewrite lookup_insert_ne by lia. eauto.
  - intros x. unfold permits in *. simpl. destruct (decide (x = next_addr m)) as [->|];
      [by rewrite lookup_insert_eq|]. rewrite lookup_insert_ne by done. apply ci_nonneg0.
Qed.

(** A successful election. *)
Lemma begin_leader_inv cfg m ws app cs now :
  (0 <= max_queued_requests cfg)%Z ->
  cold_inv cfg (mkSys m ws) -> apps m !! app = Some cs -> ready_tx cs = None ->
  cold_inv cfg (mkSys (mkManager (config m)
         (<[app := mkAppColdStart Starting (Some now) (Some (next_addr m)) (next_addr m)]> (apps m))
         (<[next_addr m := max_queued_requests (config m)]> (semaphores m))
         (<[next_addr m := Pending]> (channels m)) (S (next_addr m))) ws).
Proof.
  intros Hmax H Hcs Htx. destruct H; simpl in *. subst cfg.
  assert (Hfresh : channels m !! next_addr m = None).
  { destruct (channels m !! next_addr m) as [ch|] eqn:E; [|done]. specialize (ci_chan_addr0 _ _ E). lia. }
  assert (Hown : forall a e, apps m !! a = Some e -> ready_tx e <> Some (next_addr m)).
  { intros a e He Ht. destruct (ci_pending0 a e _ He Ht) as [_ Hc]. congruence. }
  split; simpl; unfold permits in *; simpl in *.
  - done.
  - intros c ch [[<- <-]|[? Hc]]%lookup_insert_Some; [lia|]. specialize (ci_chan_addr0 _ _ Hc). lia.
  - intros a e [[<- <-]|[? He]]%lookup_insert_Some; [simpl; lia|]. specialize (ci_slot_addr0 _ _ He). lia.
  - intros k w Hk. specialize (ci_wait_addr0 _ _ Hk). lia.
  - intros a e [[<- <-]|[? He]]%lookup_insert_Some; [by eexists|eauto].
  - intros a e c [[<- <-]|[? He]]%lookup_insert_Some Ht; simpl in *; simplify_eq;
      [by rewrite lookup_insert_eq|].
    rewrite lookup_insert_ne by (intros <-; by eapply Hown). eauto.
  - intros a b e f c [[<- <-]|[? He]]%lookup_insert_Some [[<- <-]|[? Hf]]%lookup_insert_Some He' Hf';
      simpl in *; simplify_eq; [done| | |eauto]; exfalso; by eapply Hown.
  - intros k w Hk. destruct (ci_waiter0 k w Hk) as (c & Hc & Hs & Hp). exists c.
    assert (c <> next_addr m) by (intros ->; rewrite Hfresh in Hs; by destruct Hs).
    rewrite lookup_insert_ne by done. split_and!; [done..|].
    intros HP. destruct (Hp HP) as (e & He & Ht & Hq). exists e. split; [|done].
    rewrite lookup_insert_ne; [done|]. congruence.
  - intros a e [[<- <-]|[? He]]%lookup_insert_Some Hst; simpl.
    + rewrite lookup_insert_eq, holders_fresh by done. simpl. lia.
    + specialize (ci_slot_addr0 _ _ He). rewrite lookup_insert_ne by lia. eauto.
  - intros x. destruct (decide (x = next_addr m)) as [->|]; [by rewrite lookup_insert_eq|].
    rewrite lookup_insert_ne by done. apply ci_nonneg0.
Qed.

Lemma begin_inv cfg m ws app now :
  (0 <= max_queued_requests cfg)%Z ->
  cold_inv cfg (mkSys m ws) -> cold_inv cfg (mkSys (begin m app now).1 ws).
Proof.
  intros Hmax H. unfold begin. pose proof (or_insert_new_inv cfg m ws app H) as Hnew.
  destruct (or_insert_new m app) as [m' cs]. destruct Hnew as (H' & Hcs & _).
  assert (Htx : state cs <> Starting -> ready_tx cs = None).
  { intros Hs. destruct (ready_tx cs) as [c|] eqn:E; [|done].
    by destruct (ci_pending cfg _ H' app cs c Hcs E). }
  destruct (state cs) eqn:E; simpl; try done; eapply begin_leader_inv; eauto.
Qed.

Lemma enrol_inv cfg m ws app k m' w :
  cold_inv cfg (mkSys m ws) -> ws !! k = None -> enrol m app = (m', inr w) ->
  cold_inv cfg (mkSys m' (<[k := w]> ws)).
Proof.
  intros H Hk E. unfold enrol in E. destruct (apps m !! app) as [cs|] eqn:Hcs; [|done].
  destruct (state cs) eqn:Hst; try done. destruct (Z.ltb_spec 0 (permits m (queue_slots cs))); [|done].
  simplify_eq. destruct (ci_starting cfg _ H app cs Hcs Hst) as [c Hc].
  destruct (ci_pending cfg _ H app cs c Hcs Hc) as [_ Hpend]. destruct H. split; try done; simpl in *.
  - intros k' w' [[<- <-]|[? Hw]]%lookup_insert_Some; simpl; eauto.
  - intros k' w' [[<- <-]|[? Hw]]%lookup_insert_Some; simpl; [|eauto]. exists c. split_and!; eauto.
  - intros a e He Hs. rewrite permits_set, holders_insert by done. cbn [permit].
    specialize (ci_permits0 a e He Hs). repeat case_bool_decide; simplify_eq; try congruence; try lia.
    replace (queue_slots cs) with (queue_slots e) in * by congruence. lia.
  - intros x. rewrite permits_set. specialize (ci_nonneg0 x). case_bool_decide; subst; lia.
Qed.

Lemma drop_permit_inv cfg m ws k w :
  cold_inv cfg (mkSys m ws) -> ws !! k = Some w ->
  cold_inv cfg (mkSys (drop_permit m w) (delete k ws)).
Proof.
  intros H Hk. destruct H. split; try done; simpl in *.
  - intros k' w' [? Hw]%lookup_delete_Some. eauto.
  - intros k' w' [? Hw]%lookup_delete_Some. eauto.
  - intros a e He Hs. specialize (ci_permits0 a e He Hs). unfold drop_permit. rewrite permits_set.
    rewrite (holders_delete ws k w) in ci_permits0 by done.
    repeat case_bool_decide; simplify_eq; try congruence; try lia.
    replace (permit w) with (queue_slots e) in * by congruence. lia.
  - intros x. unfold drop_permit. rewrite permits_set. pose proof (ci_nonneg0 x).
    pose proof (ci_nonneg0 (permit w)). case_bool_decide; lia.
Qed.

(** The end of a start, by [mark_ready], [mark_failed] or [reset]: the entry is replaced by
    one without a sender, or removed, and its channel gets [ch]. *)
Definition entry_over (next : nat) (o : option AppColdStart) : Prop :=
  forall e, o = Some e -> state e <> Starting /\ ready_tx e = None /\ (queue_slots e < next)%nat.

Definition tx_of (o : option AppColdStart) : option nat :=
  match o with Some e => ready_tx e | None => None end.

Definition end_start (m : ColdStartManager) (app : str) (o : option AppColdStart) (ch : Channel) :=
  close (with_apps m (partial_alter (fun _ => o) app (apps m))) (tx_of (apps m !! app)) ch.

Lemma mark_end_start m app s v :
  mark m app s v =
    match apps m !! app with
    | Some cs => end_start m app (Some (mkAppColdStart s (started_at cs) None (queue_slots cs))) (Sent v)
    | None => m
    end.
Proof. unfold mark, end_start. by destruct (apps m !! app). Qed.

Lemma reset_end_start m app : reset m app = end_start m app None SenderDropped.
Proof. unfold reset, end_start. by destruct (apps m !! app). Qed.

Lemma end_start_channels m app o ch c :
  channels (end_start m app o ch) !! c =
    if bool_decide (tx_of (apps m !! app) = Some c) then Some ch else channels m !! c.
Proof.
  unfold end_start. destruct (tx_of (apps m !! app)) as [x|]; simpl; [|done].
  case_bool_decide; simplify_eq; [by rewrite lookup_insert_eq|]. rewrite lookup_insert_ne; [done|congruence].
Qed.

Lemma end_start_apps m app o ch : apps (end_start m app o ch) = partial_alter (fun _ => o) app (apps m).
Proof. unfold end_start. by destruct (tx_of (apps m !! app)). Qed.

Lemma lookup_end_start_apps m app o ch a e :
  apps (end_start m app o ch) !! a = Some e -> (a = app /\ o = Some e) \/ (a <> app /\ apps m !! a = Some e).
Proof.
  rewrite end_start_apps. destruct (decide (a = app)) as [->|Hne].
  - rewrite lookup_partial_alter_eq. auto.
  - rewrite lookup_partial_alter_ne by congruence. auto.
Qed.

Lemma end_start_fields m app o ch :
  config (end_start m app o ch) = config m /\ semaphores (end_start m app o ch) = semaphores m
  /\ next_addr (end_start m app o ch) = next_addr m.
Proof. unfold end_start. by destruct (tx_of (apps m !! app)). Qed.

Lemma end_start_inv cfg m ws app o ch :
  cold_inv cfg (mkSys m ws) -> entry_over (next_addr m) o -> ch <> Pending ->
  cold_inv cfg (mkSys (end_start m app o ch) ws).
Proof.
  intros H Ho Hch. destruct (end_start_fields m app o ch) as (Fc & Fs & Fn).
  assert (Htx : forall a e c, apps m !! a = Some e -> ready_tx e = Some c ->
                tx_of (apps m !! app) = Some c -> a = app).
  { intros a e c He Hc Ht. destruct (apps m !! app) as [f|] eqn:Hf; [|done].
    by eapply (ci_owner cfg _ H a app e f c). }
  destruct H; split; simpl in *; unfold permits in *; rewrite ?Fc, ?Fs, ?Fn in *; try done.
  - intros c x. rewrite end_start_channels. case_bool_decide as Hc; [|eauto]. intros _.
    destruct (apps m !! app) as [e|] eqn:He; [|done].
    destruct (ci_pending0 app e c He Hc) as [_ Hp]. eauto.
  - intros a e [[-> ->]|[? He]]%lookup_end_start_apps; [by apply Ho|eauto].
  - intros a e [[-> ->]|[? He]]%lookup_end_start_apps; [|eauto]. by destruct (Ho e eq_refl).
  - intros a e c [[-> ->]|[? He]]%lookup_end_start_apps Hc.
    { destruct (Ho e eq_refl) as (_ & Hn & _). congruence. }
    rewrite end_start_channels. case_bool_decide as Hb; [|eauto].
    exfalso. eauto.
  - intros a b e f c [[-> ->]|[? He]]%lookup_end_start_apps.
    { destruct (Ho e eq_refl) as (_ & Hn & _). congruence. }
    intros [[-> ->]|[? Hf]]%lookup_end_start_apps; [|eauto].
    destruct (Ho f eq_refl) as (_ & Hn & _). congruence.
  - intros k w Hk. destruct (ci_waiter0 k w Hk) as (c & Hc & Hs & Hp). exists c.
    rewrite end_start_channels. case_bool_decide as Hb.
    { split_and!; [done|by eexists|congruence]. }
    split_and!; [done..|]. intros HP. destruct (Hp HP) as (e & He & Ht & Hq). exists e. split; [|done].
    rewrite end_start_apps, lookup_partial_alter_ne; [done|]. intros ->. rewrite He in Hb. done.
  - intros a e [[-> ->]|[? He]]%lookup_end_start_apps Hs; [|eauto]. by destruct (Ho e eq_refl).
Qed.

Lemma mark_inv cfg m ws app s v :
  cold_inv cfg (mkSys m ws) -> s <> Starting -> cold_inv cfg (mkSys (mark m app s v) ws).
Proof.
  intros H Hs. rewrite mark_end_start. destruct (apps m !! app) as [cs|] eqn:E; [|done].
  apply end_start_inv; [done| |done]. intros e [= <-]. split_and!; [done|done|].
  apply (ci_slot_addr cfg _ H app cs E).
Qed.

Lemma cold_step_inv cfg s s' :
  (0 <= max_queued_requests cfg)%Z -> cold_inv cfg s -> cold_step s s' -> cold_inv cfg s'.
Proof.
  intros Hmax H Hstep. destruct s as [m ws]. destruct Hstep; simpl in *.
  - by apply begin_inv.
  - by eapply enrol_inv.
  - by eapply drop_permit_inv.
  - by apply mark_inv.
  - by apply mark_inv.
  - rewrite reset_end_start. by apply end_start_inv.
Qed.

Lemma cold_reachable_inv cfg s :
  (0 <= max_queued_requests cfg)%Z -> cold_reachable cfg s -> cold_inv cfg s.
Proof.
  intros Hmax H. revert s H. apply (rtc_ind_r (R := cold_step)); [by apply cold_inv_new|].
  intros x y _ Hstep Hinv. by eapply cold_step_inv.
Qed.

(** ** The contract *)

(** A step that is not [mark_failed] or [reset] of the app. *)
Definition start_goes_on (app : str) (s s' : Sys) : Prop :=
  cold_step s s' /\ s' <> mkSys (mark_failed (mgr s) app) (waiters s)
  /\ s' <> mkSys (reset (mgr s) app) (waiters s).

Definition started (app : str) (s : Sys) : Prop :=
  exists cs, apps (mgr s) !! app = Some cs /\ (state cs = Starting \/ state cs = Ready).

Lemma begin_started m app now : (begin m app now).2 = false <->
  exists cs, apps m !! app = Some cs /\ (state cs = Starting \/ state cs = Ready).
Proof.
  unfold begin, or_insert_new. destruct (apps m !! app) as [cs|]; [|simpl; naive_solver].
  destruct (state cs) eqn:E; simpl; naive_solver congruence.
Qed.

Lemma begin_other m app b now : b <> app -> apps (begin m b now).1 !! app = apps m !! app.
Proof.
  intros Hne. unfold begin, or_insert_new. destruct (apps m !! b) as [cs|].
  - destruct (state cs); simpl; try done; by rewrite lookup_insert_ne.
  - simpl. by rewrite !lookup_insert_ne.
Qed.

Lemma mark_other m app b s v : b <> app -> apps (mark m b s v) !! app = apps m !! app.
Proof.
  intros Hne. rewrite mark_end_start. destruct (apps m !! b); [|done].
  by rewrite end_start_apps, lookup_partial_alter_ne.
Qed.

Lemma begin_started_id m app now : (begin m app now).2 = false -> (begin m app now).1 = m.
Proof.
  unfold begin, or_insert_new. destruct (apps m !! app) as [cs|]; [|done]. by destruct (state cs).
Qed.

Lemma started_goes_on app s s' : started app s -> start_goes_on app s s' -> started app s'.
Proof.
  intros Hs (Hstep & Hf & Hr). pose proof Hs as (cs & Hcs & Hst). destruct Hstep as [b now|b k m' w Hk He|k w Hk|b|b|b].
  - destruct (decide (b = app)) as [->|Hne].
    + unfold started. simpl. rewrite begin_started_id; [done|]. by apply begin_started.
    + exists cs. simpl. by rewrite begin_other.
  - exists cs. unfold enrol in He. by repeat case_match; simplify_eq.
  - by exists cs.
  - destruct (decide (b = app)) as [->|Hne]; [|exists cs; cbn [mgr]; unfold mark_ready, mark_failed; by rewrite mark_other].
    unfold started, mark_ready. simpl. rewrite mark_end_start, Hcs, end_start_apps, lookup_partial_alter_eq.
    eexists. split; [done|]. by right.
  - destruct (decide (b = app)) as [->|Hne]; [done|exists cs; cbn [mgr]; unfold mark_ready, mark_failed; by rewrite mark_other].
  - destruct (decide (b = app)) as [->|Hne]; [done|exists cs; simpl].
    by rewrite reset_end_start, end_start_apps, lookup_partial_alter_ne.
Qed.

Lemma begin_is_started m app now : exists cs,
  apps (begin m app now).1 !! app = Some cs /\ (state cs = Starting \/ state cs = Ready).
Proof.
  destruct ((begin m app now).2) eqn:E.
  - unfold begin in *. destruct (or_insert_new m app) as [m' cs]. destruct (state cs); simpl in *; try done;
      rewrite lookup_insert_eq; eauto.
  - rewrite begin_started_id by done. by apply begin_started in E.
Qed.

(** One leader per start.  Whatever the other requests and apps do, after a [begin]
    for an app no later [begin] for it elects a leader, until the start is marked as failed
    or reset; and after that the next [begin] does. *)
Lemma one_leader_per_start app now s s' :
  rtc (start_goes_on app) (mkSys (begin (mgr s) app now).1 (waiters s)) s' ->
  (forall now', (begin (mgr s') app now').2 = false)
  /\ (forall now', (begin (mark_failed (mgr s') app) app now').2 = true)
  /\ (forall now', (begin (reset (mgr s') app) app now').2 = true).
Proof.
  intros H. assert (Hs : started app s').
  { revert s' H. apply (rtc_ind_r (R := start_goes_on app)); [apply begin_is_started|].
    intros x y _ Hxy Hx. by eapply started_goes_on. }
  split_and!; intros now'; [by apply begin_started|..]; apply not_false_iff_true; rewrite begin_started;
    intros (cs & Hcs & Hst).
  - unfold mark_failed in Hcs. rewrite mark_end_start in Hcs. destruct Hs as (cs0 & Hcs0 & _). rewrite Hcs0 in Hcs.
    apply lookup_end_start_apps in Hcs as [[_ [= <-]]|[? _]]; [|done]. by destruct Hst.
  - rewrite reset_end_start in Hcs. by apply lookup_end_start_apps in Hcs as [[_ ?]|[? _]].
Qed.

(** The requests of an app that wait. *)
Definition blocked (s : Sys) (app : str) : gmap nat QueuedRequest :=
  filter (fun kw => waiter_app kw.2 = app /\ received (mgr s) kw.2 = None) (waiters s).

Lemma blocked_waiter cfg s k w :
  cold_inv cfg s -> waiters s !! k = Some w -> received (mgr s) w = None ->
  exists cs c, apps (mgr s) !! waiter_app w = Some cs /\ state cs = Starting
    /\ rx w = Some c /\ ready_tx cs = Some c /\ permit w = queue_slots cs.
Proof.
  intros H Hk Hr. destruct (ci_waiter cfg s H k w Hk) as (c & Hc & _ & Hp).
  unfold received in Hr. rewrite Hc in Hr.
  destruct (channels (mgr s) !! c) as [[|[]|]|] eqn:Hch; try done.
  destruct (Hp eq_refl) as (cs & Hcs & Htx & Hq). exists cs, c. split_and!; try done.
  by destruct (ci_pending cfg s H _ cs c Hcs Htx).
Qed.

Lemma blocked_holders cfg s app cs :
  cold_inv cfg s -> apps (mgr s) !! app = Some cs ->
  (size (blocked s app) <= holders (waiters s) (queue_slots cs))%nat.
Proof.
  intros H Hcs. apply map_subseteq_size, map_subseteq_spec. intros k w.
  unfold blocked. rewrite !map_lookup_filter_Some. cbn [fst snd]. intros (Hk & Happ & Hr).
  destruct (blocked_waiter cfg s k w H Hk Hr) as (cs' & c & Hcs' & _ & _ & _ & Hq). split; [done|]. congruence.
Qed.

(** The queue of a start is bounded and never refuses a request too early.  In every
    reachable state in which an app is starting, at most [max_queued_requests] of its
    requests wait; a further request is refused exactly when all the permits of this start
    are taken, and otherwise is enrolled and waits. *)
Lemma queue_is_bounded cfg s app cs :
  (0 <= max_queued_requests cfg)%Z -> cold_reachable cfg s ->
  apps (mgr s) !! app = Some cs -> state cs = Starting ->
  (Z.of_nat (size (blocked s app)) <= Z.of_nat (holders (waiters s) (queue_slots cs)) <= max_queued_requests cfg)%Z
  /\ match enrol (mgr s) app with
     | (m', inl o) => o = WQueueFull /\ m' = mgr s
                      /\ Z.of_nat (holders (waiters s) (queue_slots cs)) = max_queued_requests cfg
     | (m', inr w) => (Z.of_nat (holders (waiters s) (queue_slots cs)) < max_queued_requests cfg)%Z
                      /\ waiter_app w = app /\ received m' w = None
     end.
Proof.
  intros Hmax Hreach Hcs Hst. pose proof (cold_reachable_inv cfg s Hmax Hreach) as H.
  pose proof (blocked_holders cfg s app cs H Hcs). pose proof (ci_permits cfg s H app cs Hcs Hst).
  pose proof (ci_nonneg cfg s H (queue_slots cs)). split; [lia|].
  unfold enrol. rewrite Hcs, Hst. destruct (Z.ltb_spec 0 (permits (mgr s) (queue_slots cs))).
  - split_and!; [lia|done|]. destruct (ci_starting cfg s H app cs Hcs Hst) as [c Hc].
    destruct (ci_pending cfg s H app cs c Hcs Hc) as [_ Hp]. unfold received. simpl. by rewrite Hc, Hp.
  - split_and!; [done..|lia].
Qed.

(** A start has one leader and a bounded queue.  Whatever the other requests and apps
    do, after a [begin] for an app no later [begin] for it elects a leader until the start
    is marked as failed or reset, and after that the next one does.  In every reachable
    state in which an app is starting, at most [max_queued_requests] of its requests wait;
    a further request is refused exactly when all the permits of this start are taken, and
    otherwise is enrolled and waits. *)
Lemma start_is_exclusive_and_bounded cfg s app :
  (0 <= max_queued_requests cfg)%Z -> cold_reachable cfg s ->
  (forall now s', rtc (start_goes_on app) (mkSys (begin (mgr s) app now).1 (waiters s)) s' ->
     (forall now', (begin (mgr s') app now').2 = false)
     /\ (forall now', (begin (mark_failed (mgr s') app) app now').2 = true)
     /\ (forall now', (begin (reset (mgr s') app) app now').2 = true))
  /\ forall cs, apps (mgr s) !! app = Some cs -> state cs = Starting ->
     (Z.of_nat (size (blocked s app)) <= Z.of_nat (holders (waiters s) (queue_slots cs)) <= max_queued_requests cfg)%Z
     /\ match enrol (mgr s) app with
        | (m', inl o) => o = WQueueFull /\ m' = mgr s
                         /\ Z.of_nat (holders (waiters s) (queue_slots cs)) = max_queued_requests cfg
        | (m', inr w) => (Z.of_nat (holders (waiters s) (queue_slots cs)) < max_queued_requests cfg)%Z
                         /\ waiter_app w = app /\ received m' w = None
        end.
Proof.
  intros Hmax Hr. split; [intros now s'; apply one_leader_per_start|]. intros cs. by apply queue_is_bounded.
Qed.

(** A step changes no channel that has been used or closed. *)
Lemma channels_stable cfg s s' c ch :
  cold_inv cfg s -> cold_step s s' -> channels (mgr s) !! c = Some ch -> ch <> Pending ->
  channels (mgr s') !! c = Some ch.
Proof.
  intros H Hstep Hc Hch. destruct s as [m ws]. simpl in *.
  assert (Hfin : forall app o x, channels (end_start m app o x) !! c = Some ch).
  { intros app o x. rewrite end_start_channels. case_bool_decide as Hb; [|done].
    destruct (apps m !! app) as [e|] eqn:He; [|done].
    destruct (ci_pending cfg _ H app e c He Hb) as [_ Hp]. simpl in Hp. congruence. }
  assert (Hmark : forall app x v, channels (mark m app x v) !! c = Some ch).
  { intros app x v. rewrite mark_end_start. by destruct (apps m !! app). }
  destruct Hstep as [b now|b k m' w Hk He|k w Hk|b|b|b]; simpl in *.
  - pose proof (ci_chan_addr cfg _ H c ch Hc) as Hlt. simpl in Hlt.
    unfold begin, or_insert_new. destruct (apps m !! b) as [cs|]; simpl.
    + destruct (state cs); simpl; try done; rewrite lookup_insert_ne; [done|lia|done|lia].
    + rewrite lookup_insert_ne; [done|lia].
  - unfold enrol in He. by repeat case_match; simplify_eq.
  - done.
  - apply Hmark.
  - apply Hmark.
  - rewrite reset_end_start. apply Hfin.
Qed.

(** No wake-up is lost.  In every reachable state a queued request that still waits
    belongs to the start of its app that runs now, so that [mark_ready] answers it with
    Ready and [mark_failed] and [reset] with Failed; and an answer, once there, stays
    until the request takes it, also when the app is started again in the meantime. *)
Lemma waiters_are_answered cfg s k w :
  (0 <= max_queued_requests cfg)%Z -> cold_reachable cfg s -> waiters s !! k = Some w ->
  match received (mgr s) w with
  | None =>
      is_cold_starting (mgr s) (waiter_app w) = true
      /\ received (mark_ready (mgr s) (waiter_app w)) w = Some WReady
      /\ received (mark_failed (mgr s) (waiter_app w)) w = Some WFailed
      /\ received (reset (mgr s) (waiter_app w)) w = Some WFailed
  | Some o => forall s', rtc cold_step s s' -> received (mgr s') w = Some o
  end.
Proof.
  intros Hmax Hreach Hk. pose proof (cold_reachable_inv cfg s Hmax Hreach) as H.
  destruct (received (mgr s) w) as [o|] eqn:Hr.
  - destruct (ci_waiter cfg s H k w Hk) as (c & Hc & [ch Hch] & _).
    assert (Hnp : ch <> Pending) by (intros ->; unfold received in Hr; by rewrite Hc, Hch in Hr).
    intros s' Hs'. assert (Hfinal : cold_inv cfg s' /\ channels (mgr s') !! c = Some ch).
    { revert s' Hs'. apply (rtc_ind_r (R := cold_step)); [done|]. intros x y _ Hxy [Hx Hcx].
      split; [by eapply cold_step_inv|by eapply channels_stable]. }
    destruct Hfinal as [_ Hcs']. unfold received in *. rewrite Hc, Hch in Hr. by rewrite Hc, Hcs'.
  - destruct (blocked_waiter cfg s k w H Hk Hr) as (cs & c & Hcs & Hst & Hrx & Htx & _).
    unfold is_cold_starting, mark_ready, mark_failed. rewrite reset_end_start, !mark_end_start, Hcs.
    unfold received. rewrite Hrx, !end_start_channels, Hcs. simpl. rewrite Htx, !bool_decide_eq_true_2 by done.
    done.
Qed.

(** C18: a start has one leader, a bounded queue, and loses no wake-up.  Whatever the other
    requests and apps do, after a [begin] for an app no later [begin] for it elects a leader
    until the start is marked as failed or reset, and after that the next one does.  In every
    reachable state in which an app is starting, at most [max_queued_requests] of its
    requests wait; a further request is refused exactly when all the permits of this start
    are taken, and otherwise is enrolled and waits.  A queued request that still waits
    belongs to the start of its app that runs now, so that [mark_ready] answers it with Ready
    and [mark_failed] and [reset] with Failed; and an answer, once there, stays until the
    request takes it, also when the app is started again in the meantime. *)
Theorem cold_start_spec cfg s app :
  (0 <= max_queued_requests cfg)%Z -> cold_reachable cfg s ->
  (forall now s', rtc (start_goes_on app) (mkSys (begin (mgr s) app now).1 (waiters s)) s' ->
     (forall now', (begin (mgr s') app now').2 = false)
     /\ (forall now', (begin (mark_failed (mgr s') app) app now').2 = true)
     /\ (forall now', (begin (reset (mgr s') app) app now').2 = true))
  /\ (forall cs, apps (mgr s) !! app = Some cs -> state cs = Starting ->
     (Z.of_nat (size (blocked s app)) <= Z.of_nat (holders (waiters s) (queue_slots cs)) <= max_queued_requests cfg)%Z
     /\ match enrol (mgr s) app with
        | (m', inl o) => o = WQueueFull /\ m' = mgr s
                         /\ Z.of_nat (holders (waiters s) (queue_slots cs)) = max_queued_requests cfg
        | (m', inr w) => (Z.of_nat (holders (waiters s) (queue_slots cs)) < max_queued_requests cfg)%Z
                         /\ waiter_app w = app /\ received m' w = None
        end)
  /\ (forall k w, waiters s !! k = Some w ->
     match received (mgr s) w with
     | None =>
         is_cold_starting (mgr s) (waiter_app w) = true
         /\ received (mark_ready (mgr s) (waiter_app w)) w = Some WReady
         /\ received (mark_failed (mgr s) (waiter_app w)) w = Some WFailed
         /\ received (reset (mgr s) (waiter_app w)) w = Some WFailed
     | Some o => forall s', rtc cold_step s s' -> received (mgr s') w = Some o
     end).
Proof.
  intros Hmax Hr. destruct (start_is_exclusive_and_bounded cfg s app Hmax Hr) as [H1 H2].
  split; [exact H1|]. split; [exact H2|]. intros k w. exact (waiters_are_answered cfg s k w Hmax Hr).
Qed.

Definition demo_cfg : ColdStartConfig := mkColdStartConfig 30000 1.
Definition demo_app : str := bs "web".
Definition demo_sys1 : Sys := mkSys (begin (new demo_cfg) demo_app 0).1 ∅.
Definition demo_waiter : QueuedRequest := mkQueuedRequest demo_app (Some 1%nat) 1%nat.
Definition demo_sys2 : Sys := mkSys (enrol (mgr demo_sys1) demo_app).1 {[ 7%nat := demo_waiter ]}.

Lemma demo_sys2_reachable : cold_reachable demo_cfg demo_sys2.
Proof.
  apply (rtc_l _ _ demo_sys1); [apply (step_begin (mkSys (new demo_cfg) ∅))|].
  apply rtc_once. eapply (step_enrol demo_sys1 demo_app 7); [done|vm_compute; reflexivity].
Qed.

Lemma cold_start_spec_witness :
  (begin (mgr demo_sys2) demo_app 5).2 = false /\ (enrol (mgr demo_sys2) demo_app).2 = inl WQueueFull
  /\ Z.of_nat (holders (waiters demo_sys2) 1) = max_queued_requests demo_cfg
  /\ received (mark_ready (mgr demo_sys2) demo_app) demo_waiter = Some WReady.
Proof.
  destruct (cold_start_spec demo_cfg demo_sys2 demo_app ltac:(discriminate) demo_sys2_reachable) as (_ & H2 & H3).
  split; [vm_compute; reflexivity|]. split; [vm_compute; reflexivity|]. split.
  - exact (proj2 (proj2 (proj2 (H2 (mkAppColdStart Starting (Some 0%Z) (Some 1%nat) 1) ltac:(vm_compute; reflexivity) eq_refl)))).
  - exact (proj1 (proj2 (H3 7%nat demo_waiter ltac:(vm_compute; reflexivity)))).
Defined.
