(* ===== verification/Enrollment.v ===== *)
(** * Identities and enrollment of the server network (tako-network)

    Identifiers and keys (types.rs, error.rs), the request a device signs to join
    (enrollment.rs, keys.rs) and the challenge by which the server checks that the device
    holds the WireGuard key it asks for (challenge.rs).  SSH keys, X25519, SHA-256 and HMAC
    are other crates: classes of functions, and classes of the laws that are relied on. *)

From S2P Require Import Prelude RustStr Net Codec.

(** ** Errors (error.rs) *)

(** What other crates put in their errors is left out. *)
Inductive NetError :=
| Invalid (field reason : str)
| Conflict (what : str)
| NotEffective (device : str)
| PermissionDenied (reason : str)
| UnknownRevocation
| ProfileMismatch
| UnsafeKeyFile
| UnsupportedPlatform
| NetIo
| SshFailed
| CryptoFailed
| JsonFailed.

#[global] Instance NetError_eq_dec : EqDecision NetError.
Proof. solve_decision. Defined.

Definition invalid {A} (field reason : string) : result A NetError := Err (Invalid (bs field) (bs reason)).

Definition ssh {A} (o : option A) : result A NetError := ok_or o SshFailed.
Definition crypto {A} (o : option A) : result A NetError := ok_or o CryptoFailed.

(** ** Other crates *)

(** ssh_key: keys, signatures in the SSHSIG format. *)
Class SshApi := {
  SshKey : Type;
  SshSig : Type;
  SshPrivate : Type;
  from_openssh : str -> option SshKey;
  key_to_openssh : SshKey -> option str;
  key_to_bytes : SshKey -> option str;
  key_is_ed25519 : SshKey -> bool;
  key_comment : SshKey -> str;
  (** The curve point is valid, and is not weak. *)
  key_point : SshKey -> option bool;
  key_verify : SshKey -> str -> str -> SshSig -> bool;
  sig_from_pem : str -> option SshSig;
  sig_to_pem : SshSig -> option str;
  sig_is_sha256 : SshSig -> bool;
  (** The public key of a private one, with an empty comment. *)
  ssh_public : SshPrivate -> SshKey;
  ssh_sign : SshPrivate -> str -> str -> option SshSig;
}.

(** openssl: X25519. *)
Class X25519Api := {
  XPrivate : Type;
  x_private : str -> option XPrivate;
  x_public_ok : str -> bool;
  x_raw_public : XPrivate -> option str;
  x_set_peer : XPrivate -> str -> bool;
  x_derive : XPrivate -> str -> option str;
}.

(** ** Identifiers (types.rs) *)

Definition hex_digit (z : Z) : ascii := if (z <? 10)%Z then of_byte (48 + z) else of_byte (87 + z).

(** [hex::encode], and [decode_to_slice] of text that was checked to be lower-case hex. *)
Definition hex (s : str) : str :=
  concat ((fun c => [hex_digit (byte_of c / 16); hex_digit (byte_of c mod 16)]) <$> s).

Definition is_lower_hex (c : ascii) : bool := is_ascii_digit c || between 97 102 c.
Definition is_ascii_hexdigit (c : ascii) : bool := is_lower_hex c || between 65 70 c.

Definition hex_value (c : ascii) : Z := if is_ascii_digit c then byte_of c - 48 else byte_of c - 87.

Fixpoint unhex (s : str) : str :=
  match s with
  | a :: b :: s' => of_byte (hex_value a * 16 + hex_value b) :: unhex s'
  | _ => []
  end.

Definition id_from_str (name : string) (size : nat) (value : str) : result str NetError :=
  if negb (length value =? size * 2)%nat || negb (all is_lower_hex value)
  then invalid name "expected fixed-length lowercase hex"
  else Ok (unhex value).

Definition is_ascii_lowercase (c : ascii) : bool := between 97 122 c.

Definition segment (s : str) : bool :=
  match s with
  | [] => false
  | c :: _ =>
      (length s <=? 63)%nat && is_ascii_lowercase c
      && all (fun b => is_ascii_lowercase b || is_ascii_digit b || bool_decide (b = "-"%char) || bool_decide (b = "_"%char)) s
  end.

Definition device_name_ok (s : str) : bool :=
  match s with
  | [] => false
  | c :: _ =>
      (length s <=? 63)%nat && is_ascii_alphanumeric c
      && all (fun b => is_ascii_alphanumeric b || contains_char (bs "._-") b) s
  end.

Definition ssh_user_ok (s : str) : bool := segment s && (length s <=? 32)%nat.

Definition app_env_ok (s : str) : bool :=
  match split_once "/"%char s with Some (app, env) => segment app && segment env | None => false end.

Definition text_from_str (name : string) (ok : str -> bool) (value : str) : result str NetError :=
  if negb (ok value) then invalid name "invalid canonical value" else Ok value.

Inductive DeviceKind := LaptopKind | ServerKind.

#[global] Instance DeviceKind_eq_dec : EqDecision DeviceKind.
Proof. solve_decision. Defined.

Definition tag (k : DeviceKind) : Z := match k with LaptopKind => 0 | ServerKind => 1 end.

Section Keys.
Context {S : SshApi} {X : X25519Api} {H : Sha256Api} {M : HmacApi} {B : Base64Api}.

(** The address of a key in a network: [fd], 5 bytes of the network, 10 of the host. *)
Definition address (network key : str) : str :=
  let network_hash := sha256 (bs "tako-network-prefix-v1" ++ of_byte 0 :: network) in
  let host_hash := sha256 (bs "tako-network-host-v1" ++ of_byte 0 :: network ++ key) in
  of_byte 253 :: take 5 network_hash ++ take 10 host_hash.

(** [SshPublicKey::parsed] with [to_bytes]. *)
Definition ssh_bytes (key : str) : result str NetError :=
  let? k := ssh (from_openssh key) in ssh (key_to_bytes k).

Definition ssh_fingerprint (key : str) : result str NetError :=
  let? b := ssh_bytes key in Ok (sha256 b).

Definition ssh_key_from_str (value : str) : result str NetError :=
  if (128 <? length value)%nat then invalid "SSH public key" "key too long"
  else
    let? key := ssh (from_openssh value) in
    if negb (key_is_ed25519 key) || negb (bool_decide (key_comment key = []))
    then invalid "SSH public key" "expected canonical comment-free Ed25519 key"
    else
      let? text := ssh (key_to_openssh key) in
      if bool_decide (text <> value) then invalid "SSH public key" "expected canonical comment-free Ed25519 key"
      else
        match key_point key with
        | None => invalid "SSH public key" "invalid Ed25519 point"
        | Some false => invalid "SSH public key" "weak Ed25519 point"
        | Some true => Ok value
        end.

(** The prime 2^255 - 19 is compared with the little-endian bytes from their last one. *)
Definition wg_key_from_bytes (bytes : str) : result str NetError :=
  if negb (from_be (rev bytes) <? 2 ^ 255 - 19)%Z then invalid "WG public key" "noncanonical X25519 coordinate"
  else if negb (x_public_ok bytes) then Err CryptoFailed
  else
    let? probe := crypto (x_private (replicate 32 (of_byte 66))) in
    if negb (x_set_peer probe bytes) then invalid "WG public key" "invalid X25519 point"
    else
      match x_derive probe bytes with
      | None => invalid "WG public key" "low-order X25519 point"
      | Some shared =>
          if all (fun b => (byte_of b =? 0)%Z) shared then invalid "WG public key" "low-order X25519 point"
          else Ok bytes
      end.

Definition wg_key_from_str (value : str) : result str NetError :=
  if negb (length value =? 44)%nat then invalid "WG public key" "expected 32-byte padded base64"
  else
    match b64_decode value with
    | None => invalid "WG public key" "invalid base64"
    | Some bytes =>
        if bool_decide (b64_encode bytes <> value) then invalid "WG public key" "noncanonical base64"
        else if negb (length bytes =? 32)%nat then invalid "WG public key" "expected 32 bytes"
        else wg_key_from_bytes bytes
    end.

Definition wg_fingerprint (key : str) : str := sha256 key.

Definition device_id_from_keys (network : str) (kind : DeviceKind) (ssh_key wg : str) : result str NetError :=
  let? wire := ssh_bytes ssh_key in
  Ok (sha256 (bs "tako-device-v1" ++ of_byte 0 :: network ++ of_byte (tag kind) :: wire ++ wg)).

(** ** Enrollment requests (enrollment.rs) *)

Definition ENROLLMENT_VERSION : Z := 1.
Definition ENROLLMENT_NAMESPACE : str := bs "tako-network-enrollment-v1".

Record EnrollmentRequest := mkEnrollment {
  er_version : Z;
  er_network_id : option str;
  er_kind : DeviceKind;
  er_request_id : str;
  er_device_id : option str;
  er_name : str;
  er_wg_public_key : str;
  er_ssh_public_key : str;
  er_expires_at : option Z;
  er_proof : str;
}.

#[global] Instance EnrollmentRequest_eq_dec : EqDecision EnrollmentRequest.
Proof. solve_decision. Defined.

Definition append_field (field : str) : str := to_be 4 (as_u32 (Z.of_nat (length field))) ++ field.

Definition optional_bytes (o : option str) : str :=
  match o with Some b => of_byte 1 :: b | None => [of_byte 0] end.

Definition canonical_bytes (r : EnrollmentRequest) : result str NetError :=
  let? wire := ssh_bytes (er_ssh_public_key r) in
  Ok (bs "tako-network-enrollment" ++ of_byte 0 :: to_be 4 (er_version r)
      ++ optional_bytes (er_network_id r)
      ++ of_byte (tag (er_kind r)) :: er_request_id r
      ++ optional_bytes (er_device_id r)
      ++ optional_bytes (to_be 8 <$> er_expires_at r)
      ++ append_field (er_name r) ++ er_wg_public_key r ++ append_field wire).

Definition device_id_for (r : EnrollmentRequest) (network : str) : result str NetError :=
  if match er_network_id r with Some target => bool_decide (target <> network) | None => false end
  then invalid "network ID" "request targets a different network"
  else device_id_from_keys network (er_kind r) (er_ssh_public_key r) (er_wg_public_key r).

(** The guard of the first arm: [device_id_for] may itself fail. *)
Definition ids_match (r : EnrollmentRequest) : result bool NetError :=
  match er_network_id r, er_device_id r with
  | Some network, Some id => let? own := device_id_for r network in Ok (bool_decide (id = own))
  | None, None => Ok true
  | _, _ => Ok false
  end.

Definition enrollment_verify (r : EnrollmentRequest) : result unit NetError :=
  if negb (er_version r =? ENROLLMENT_VERSION)%Z then invalid "enrollment version" "unsupported version"
  else
    let? same := ids_match r in
    if negb same then invalid "device ID" "does not match target network, kind, and keys"
    else if (2048 <? length (er_proof r))%nat then invalid "enrollment proof" "signature too large"
    else
      let? signature := ssh (sig_from_pem (er_proof r)) in
      if negb (sig_is_sha256 signature) then invalid "enrollment proof" "expected canonical SHA-256 SSHSIG"
      else
        let? pem := ssh (sig_to_pem signature) in
        if bool_decide (pem <> er_proof r) then invalid "enrollment proof" "expected canonical SHA-256 SSHSIG"
        else
          let? key := ssh (from_openssh (er_ssh_public_key r)) in
          let? bytes := canonical_bytes r in
          if key_verify key ENROLLMENT_NAMESPACE bytes signature then Ok tt else Err SshFailed.

(** ** Keys of a device (keys.rs) *)

Record LocalDeviceKeys := mkKeys { keys_wg : XPrivate; keys_ssh : SshPrivate }.

Definition wg_public_key (k : LocalDeviceKeys) : result str NetError :=
  let? raw := crypto (x_raw_public (keys_wg k)) in
  if negb (length raw =? 32)%nat then invalid "WG public key" "expected 32 bytes"
  else wg_key_from_bytes raw.

Definition ssh_public_key (k : LocalDeviceKeys) : result str NetError :=
  let? text := ssh (key_to_openssh (ssh_public (keys_ssh k))) in ssh_key_from_str text.

Definition keys_device_id (k : LocalDeviceKeys) (network : str) (kind : DeviceKind) : result str NetError :=
  let? s := ssh_public_key k in
  let? w := wg_public_key k in
  device_id_from_keys network kind s w.

(** [request_id] is what [RequestId::random] draws. *)
Definition enrollment_request_expiring (k : LocalDeviceKeys) (network : option str) (kind : DeviceKind)
    (name : str) (expires_at : option Z) (request_id : str) : result EnrollmentRequest NetError :=
  let? device := transpose ((fun n => keys_device_id k n kind) <$> network) in
  let? w := wg_public_key k in
  let? s := ssh_public_key k in
  let unsigned proof := mkEnrollment ENROLLMENT_VERSION network kind request_id device name w s expires_at proof in
  let? bytes := canonical_bytes (unsigned []) in
  let? signature := ssh (ssh_sign (keys_ssh k) ENROLLMENT_NAMESPACE bytes) in
  let? pem := ssh (sig_to_pem signature) in
  Ok (unsigned pem).

(** ** The WireGuard challenge (challenge.rs) *)

Record WgChallenge := mkChallenge {
  ch_network_id : str;
  ch_device_id : str;
  ch_request_digest : str;
  ch_nonce : str;
  ch_ephemeral : str;
  ch_expires_at : Z;
}.

Record PendingWgChallenge := mkPendingChallenge {
  pc_challenge : WgChallenge;
  pc_private : XPrivate;
  pc_request : EnrollmentRequest;
}.

Record VerifiedEnrollment := mkVerified {
  ve_request : EnrollmentRequest;
  ve_network_id : str;
  ve_device_id : str;
}.

Definition expired_at (e : option Z) (now : Z) : bool := match e with Some t => (t <=? now)%Z | None => false end.

(** [private] and [nonce] are what the generators draw. *)
Definition challenge_begin (r : EnrollmentRequest) (network : str) (now expires_at : Z)
    (private : option XPrivate) (nonce : str) : result (WgChallenge * PendingWgChallenge) NetError :=
  let? _ := enrollment_verify r in
  if (expires_at <=? now)%Z || (300 <? u64_saturating_sub expires_at now)%Z || expired_at (er_expires_at r) now
  then invalid "challenge expiry" "must be live and at most 300 seconds"
  else
    let? private := crypto private in
    let? device := device_id_for r network in
    let? bytes := canonical_bytes r in
    let? raw := crypto (x_raw_public private) in
    if negb (length raw =? 32)%nat then invalid "challenge" "invalid public key size"
    else
      let? ephemeral := wg_key_from_bytes raw in
      let challenge := mkChallenge network device (sha256 bytes) nonce ephemeral expires_at in
      Ok (challenge, mkPendingChallenge challenge private r).

Definition challenge_transcript (c : WgChallenge) : str :=
  bs "tako-wg-possession-v1" ++ of_byte 0 :: ch_network_id c ++ ch_device_id c ++ ch_request_digest c
  ++ ch_nonce c ++ ch_ephemeral c ++ to_be 8 (ch_expires_at c).

(** The hex text of the code is parsed back into the same 32 bytes. *)
Definition response (private : XPrivate) (public transcript : str) : result str NetError :=
  if negb (x_public_ok public) || negb (x_set_peer private public) then Err CryptoFailed
  else
    let? shared := crypto (x_derive private public) in
    id_from_str "KeyFingerprint" 32 (hex (hmac_sha256 shared transcript)).

Definition answer_challenge (k : LocalDeviceKeys) (c : WgChallenge) (r : EnrollmentRequest) (now : Z)
    : result str NetError :=
  let refused := invalid "WG challenge" "expired or does not bind this request and device" in
  let? _ := enrollment_verify r in
  if (ch_expires_at c <=? now)%Z || expired_at (er_expires_at r) now then refused
  else
    let? w := wg_public_key k in
    if bool_decide (er_wg_public_key r <> w) then refused
    else
      let? s := ssh_public_key k in
      if bool_decide (er_ssh_public_key r <> s) then refused
      else
        let? device := device_id_for r (ch_network_id c) in
        if bool_decide (ch_device_id c <> device) then refused
        else
          let? bytes := canonical_bytes r in
          if bool_decide (ch_request_digest c <> sha256 bytes) then refused
          else response (keys_wg k) (ch_ephemeral c) (challenge_transcript c).

Definition challenge_verify (p : PendingWgChallenge) (proof : str) (now : Z) : result VerifiedEnrollment NetError :=
  if (ch_expires_at (pc_challenge p) <=? now)%Z || expired_at (er_expires_at (pc_request p)) now
  then invalid "WG challenge" "expired"
  else
    let? expected := response (pc_private p) (er_wg_public_key (pc_request p)) (challenge_transcript (pc_challenge p)) in
    if bool_decide (expected <> proof) then invalid "WG proof" "private-key possession not demonstrated"
    else Ok (mkVerified (pc_request p) (ch_network_id (pc_challenge p)) (ch_device_id (pc_challenge p))).

(** ** What a signature covers *)

Definition is_u64 (z : Z) : Prop := (0 <= z < 256 ^ Z.of_nat 8)%Z.

(** The sizes that the types of the fields have. *)
Record wf_request (r : EnrollmentRequest) : Prop := {
  wf_version : (0 <= er_version r < 256 ^ Z.of_nat 4)%Z;
  wf_network n : er_network_id r = Some n -> length n = 16;
  wf_request_id : length (er_request_id r) = 16;
  wf_device d : er_device_id r = Some d -> length d = 32;
  wf_expiry e : er_expires_at r = Some e -> is_u64 e;
  wf_name : device_name_ok (er_name r) = true;
  wf_wg : length (er_wg_public_key r) = 32;
}.

Lemma Ok_inj {A E} (a b : A) : @Ok A E a = Ok b -> a = b.
Proof. congruence. Qed.

Lemma cons_inj {A} (a b : A) x y : a :: x = b :: y -> a = b /\ x = y.
Proof. by intros [= -> ->]. Qed.

Lemma tag_inj k k' : of_byte (tag k) = of_byte (tag k') -> k = k'.
Proof. by destruct k, k'. Qed.

Lemma optional_bytes_inj n (o o' : option str) x y :
  (forall b, o = Some b -> length b = n) -> (forall b, o' = Some b -> length b = n) ->
  optional_bytes o ++ x = optional_bytes o' ++ y -> o = o' /\ x = y.
Proof.
  intros Ho Ho'. destruct o as [b|], o' as [b'|]; cbn [optional_bytes app]; intros E.
  - apply cons_inj in E as [_ E]. apply app_inj_1 in E as [-> ->]; [done|]. rewrite (Ho b), (Ho' b'); done.
  - discriminate (f_equal (fun l => byte_of <$> head l) E).
  - discriminate (f_equal (fun l => byte_of <$> head l) E).
  - by apply cons_inj in E as [_ ->].
Qed.

Lemma append_field_inj a b x y :
  (Z.of_nat (length a) < 4294967296)%Z -> (Z.of_nat (length b) < 4294967296)%Z ->
  append_field a ++ x = append_field b ++ y -> a = b /\ x = y.
Proof.
  intros Ha Hb. unfold append_field, as_u32. rewrite !Z.mod_small, <- !app_assoc by lia. intros E.
  apply app_inj_1 in E as [El E]; [|by rewrite !length_to_be].
  assert (length a = length b) as Hl.
  { apply Nat2Z.inj. rewrite <- (from_to_be 4 (Z.of_nat (length a))), <- (from_to_be 4 (Z.of_nat (length b)))
      by (change (256 ^ Z.of_nat 4)%Z with 4294967296%Z; lia). by rewrite El. }
  by apply app_inj_1 in E.
Qed.

Lemma device_name_length s : device_name_ok s = true -> (length s <= 63)%nat.
Proof. unfold device_name_ok. destruct s as [|c s]; [done|]. intros E. bool_to_prop. done. Qed.

(** Requests with equal bytes agree on every field but the proof, and on the SSH key. *)
Lemma canonical_bytes_inj r r' b :
  wf_request r -> wf_request r' -> canonical_bytes r = Ok b -> canonical_bytes r' = Ok b ->
  er_version r = er_version r' /\ er_network_id r = er_network_id r' /\ er_kind r = er_kind r'
  /\ er_request_id r = er_request_id r' /\ er_device_id r = er_device_id r' /\ er_name r = er_name r'
  /\ er_wg_public_key r = er_wg_public_key r' /\ er_expires_at r = er_expires_at r'
  /\ exists w w', ssh_bytes (er_ssh_public_key r) = Ok w /\ ssh_bytes (er_ssh_public_key r') = Ok w'
       /\ append_field w = append_field w'.
Proof.
  intros W W'. unfold canonical_bytes. destruct (ssh_bytes (er_ssh_public_key r)) as [w|]; [|done].
  destruct (ssh_bytes (er_ssh_public_key r')) as [w'|]; [|done]. intros E E'.
  assert (E2 := eq_trans E (eq_sym E')). clear E E'. apply Ok_inj in E2 as E.
  apply app_inv_head, cons_inj in E as [_ E].
  apply app_inj_1 in E as [Ev E]; [|by rewrite !length_to_be].
  apply (f_equal from_be) in Ev. rewrite !from_to_be in Ev by (by apply wf_version).
  apply (optional_bytes_inj 16) in E as [En E]; [|apply W|apply W'].
  apply cons_inj in E as [Ek E]. apply tag_inj in Ek.
  apply app_inj_1 in E as [Er E]; [|by rewrite !wf_request_id].
  apply (optional_bytes_inj 32) in E as [Ed E]; [|apply W|apply W'].
  apply (optional_bytes_inj 8) in E as [Ex E];
    [|intros b' (z & _ & ->)%fmap_Some_1; apply length_to_be..].
  apply append_field_inj in E as [Enm E];
    [|pose proof (device_name_length _ (wf_name _ W)); lia|pose proof (device_name_length _ (wf_name _ W')); lia].
  apply app_inj_1 in E as [Ew E]; [|by rewrite !wf_wg].
  assert (er_expires_at r = er_expires_at r') as Hx.
  { pose proof (wf_expiry _ W) as H1. pose proof (wf_expiry _ W') as H2.
    destruct (er_expires_at r), (er_expires_at r'); try done. apply (inj Some) in Ex.
    f_equal. rewrite <- (from_to_be 8 z), <- (from_to_be 8 z0) by (first [by apply H1|by apply H2]). by rewrite Ex. }
  do 8 (split; [done|]). by exists w, w'.
Qed.
End Keys.

(** ** Laws of the other crates *)

Class SshLaws (S : SshApi) := {
  openssh_read_back p t : key_to_openssh (ssh_public p) = Some t -> from_openssh t = Some (ssh_public p);
  key_bytes_bounded k w : key_to_bytes k = Some w -> (Z.of_nat (length w) < 4294967296)%Z;
  sign_verifies p ns m g : ssh_sign p ns m = Some g -> sig_is_sha256 g = true /\ key_verify (ssh_public p) ns m g = true;
  pem_read_back p ns m g t : ssh_sign p ns m = Some g -> sig_to_pem g = Some t ->
    sig_from_pem t = Some g /\ (length t <= 2048)%nat;
}.

Class X25519Laws (X : X25519Api) := {
  derive_commutes a b pa pb : x_raw_public a = Some pa -> x_raw_public b = Some pb -> x_derive a pb = x_derive b pa;
  set_peer_ok a pb : x_public_ok pb = true -> x_set_peer a pb = true;
  (** Only points of low order have no shared secret, and then for every key. *)
  derive_total a b p s : x_derive a p = Some s -> any (fun c => negb (byte_of c =? 0)%Z) s = true ->
    exists s', x_derive b p = Some s';
}.

Class HmacLaws (M : HmacApi) := { hmac_length k m : length (hmac_sha256 k m) = 32 }.

Section Honest.
Context {S : SshApi} {X : X25519Api} {H : Sha256Api} {M : HmacApi}.
Context {SL : SshLaws S} {XL : X25519Laws X} {ML : HmacLaws M}.

Lemma hex_digit_lower z : (0 <= z <= 15)%Z -> is_lower_hex (hex_digit z) = true /\ hex_value (hex_digit z) = z.
Proof.
  intros Hz. assert (Hall : Forall (fun z => is_lower_hex (hex_digit z) = true /\ hex_value (hex_digit z) = z) (seqZ 0 16))
    by (change (seqZ 0 16) with [0; 1; 2; 3; 4; 5; 6; 7; 8; 9; 10; 11; 12; 13; 14; 15]%Z;
        repeat constructor).
  rewrite Forall_forall in Hall. apply Hall, elem_of_seqZ. lia.
Qed.

Lemma hex_cons c s : hex (c :: s) = hex_digit (byte_of c / 16) :: hex_digit (byte_of c mod 16) :: hex s.
Proof. done. Qed.

Lemma unhex_hex s : unhex (hex s) = s.
Proof.
  induction s as [|c s IH]; [done|]. rewrite hex_cons. cbn [unhex]. pose proof (nibble_range c) as [H1 H2].
  destruct (hex_digit_lower _ H1) as [_ ->], (hex_digit_lower _ H2) as [_ ->]. rewrite IH. f_equal.
  rewrite <- (of_byte_byte_of c) at 3. f_equal. pose proof (Z.div_mod (byte_of c) 16). lia.
Qed.

Lemma hex_lower s : all is_lower_hex (hex s) = true.
Proof.
  induction s as [|c s IH]; [done|]. rewrite hex_cons. unfold all in *. cbn [forallb].
  pose proof (nibble_range c) as [H1 H2]. destruct (hex_digit_lower _ H1) as [-> _], (hex_digit_lower _ H2) as [-> _].
  by rewrite IH.
Qed.

Lemma hex_length s : length (hex s) = length s * 2.
Proof. induction s as [|c s IH]; [done|]. rewrite hex_cons. simpl. lia. Qed.

(** Identifiers read back from their text. *)
Lemma id_round_trip name n s : length s = n -> id_from_str name n (hex s) = Ok s.
Proof.
  intros <-. unfold id_from_str. rewrite hex_length, hex_lower, Nat.eqb_refl, unhex_hex. done.
Qed.

Lemma wg_key_from_bytes_Ok raw w :
  wg_key_from_bytes raw = Ok w -> w = raw /\ x_public_ok raw = true /\ forall a, exists s, x_derive a raw = Some s.
Proof.
  unfold wg_key_from_bytes. destruct (negb (_ <? _)%Z); [done|]. destruct (x_public_ok raw) eqn:Eo; [|done].
  cbn [negb]. destruct (x_private _) as [probe|]; [|done]. cbn [crypto ok_or].
  destruct (x_set_peer probe raw); [|done]. cbn [negb]. destruct (x_derive probe raw) as [s|] eqn:Ed; [|done].
  destruct (all _ s) eqn:Ez; [done|]. intros [= <-]. do 2 (split; [done|]). intros a.
  eapply derive_total; [done|]. revert Ez. unfold all, any. clear.
  induction s as [|c s IH]; [done|]. cbn [forallb existsb]. by destruct (byte_of c =? 0)%Z.
Qed.

Lemma response_commutes a b pa pb t :
  x_raw_public a = Some pa -> x_raw_public b = Some pb -> wg_key_from_bytes pa = Ok pa -> wg_key_from_bytes pb = Ok pb ->
  exists proof, response a pb t = Ok proof /\ response b pa t = Ok proof.
Proof.
  intros Ha Hb (_ & Oa & Da)%wg_key_from_bytes_Ok (_ & Ob & Db)%wg_key_from_bytes_Ok.
  unfold response. rewrite Oa, Ob, !set_peer_ok by done. cbn [negb orb].
  rewrite (derive_commutes b a pb pa) by done. destruct (Db a) as [s Hs]. rewrite Hs. cbn [crypto ok_or].
  rewrite id_round_trip by apply hmac_length. eauto.
Qed.

Lemma wg_public_key_Ok k w :
  wg_public_key k = Ok w -> x_raw_public (keys_wg k) = Some w /\ wg_key_from_bytes w = Ok w.
Proof.
  unfold wg_public_key. destruct (x_raw_public _) as [raw|]; [|done]. cbn [crypto ok_or].
  destruct (negb _); [done|]. intros Hw. pose proof Hw as (-> & _)%wg_key_from_bytes_Ok. done.
Qed.

Lemma ssh_public_key_Ok k t : ssh_public_key k = Ok t -> from_openssh t = Some (ssh_public (keys_ssh k)).
Proof.
  unfold ssh_public_key. destruct (key_to_openssh _) as [text|] eqn:E; [|done]. cbn [ssh ok_or].
  unfold ssh_key_from_str. intros Ht. assert (t = text) as -> by (revert Ht; repeat (case_match; try done); congruence).
  by apply openssh_read_back.
Qed.

(** The request a device writes is its own and verifies. *)
Lemma honest_request k network kind name expires_at rid r :
  enrollment_request_expiring k network kind name expires_at rid = Ok r ->
  wg_public_key k = Ok (er_wg_public_key r) /\ ssh_public_key k = Ok (er_ssh_public_key r)
  /\ er_kind r = kind /\ er_network_id r = network /\ er_expires_at r = expires_at
  /\ enrollment_verify r = Ok tt.
Proof.
  unfold enrollment_request_expiring. destruct (transpose _) as [device|] eqn:Ed; [|done].
  destruct (wg_public_key k) as [w|] eqn:Ew; [|done]. destruct (ssh_public_key k) as [s|] eqn:Es; [|done].
  cbv zeta. destruct (canonical_bytes _) as [bytes|] eqn:Eb; [|done].
  destruct (ssh_sign _ _ _) as [g|] eqn:Eg; [|done]. cbn [ssh ok_or].
  destruct (sig_to_pem g) as [pem|] eqn:Ep; [|done]. intros [= <-].
  cbn [er_wg_public_key er_ssh_public_key er_kind er_network_id er_expires_at]. do 5 (split; [done|]).
  destruct (pem_read_back _ _ _ _ _ Eg Ep) as [Hpem Hlen], (sign_verifies _ _ _ _ Eg) as [Hsha Hv].
  unfold enrollment_verify. cbn [er_version er_proof er_ssh_public_key Z.eqb negb].
  assert (ids_match (mkEnrollment ENROLLMENT_VERSION network kind rid device name w s expires_at pem) = Ok true) as ->.
  { unfold ids_match, device_id_for. cbn [er_network_id er_device_id er_kind er_ssh_public_key er_wg_public_key].
    destruct network as [n|]; cbn [fmap option_fmap option_map transpose] in Ed; [|by injection Ed as <-].
    unfold keys_device_id in Ed. rewrite Es, Ew in Ed. destruct (device_id_from_keys n kind s w) as [d|]; [|done].
    injection Ed as <-. rewrite bool_decide_eq_false_2 by tauto. by rewrite bool_decide_eq_true_2. }
  cbn [negb]. destruct (Nat.ltb_spec 2048 (length pem)); [lia|].
  rewrite Hpem. cbn [ssh ok_or]. rewrite Hsha, Ep. cbn [negb ssh ok_or].
  rewrite bool_decide_eq_false_2 by tauto. rewrite (ssh_public_key_Ok k s) by done. cbn [ssh ok_or].
  change (canonical_bytes (mkEnrollment _ _ _ _ _ _ _ _ _ pem)) with
    (canonical_bytes (mkEnrollment ENROLLMENT_VERSION network kind rid device name w s expires_at [])).
  by rewrite Eb, Hv.
Qed.

(** What the server holds after [begin] is bound to the request. *)
Lemma challenge_begin_Ok r network now e private nonce c p :
  challenge_begin r network now e private nonce = Ok (c, p) ->
  exists bytes, pc_challenge p = c /\ pc_request p = r /\ ch_network_id c = network
    /\ device_id_for r network = Ok (ch_device_id c) /\ canonical_bytes r = Ok bytes
    /\ ch_request_digest c = sha256 bytes /\ ch_nonce c = nonce /\ ch_expires_at c = e
    /\ (now < e)%Z /\ (e <= now + 300)%Z /\ expired_at (er_expires_at r) now = false
    /\ x_raw_public (pc_private p) = Some (ch_ephemeral c) /\ wg_key_from_bytes (ch_ephemeral c) = Ok (ch_ephemeral c).
Proof.
  unfold challenge_begin. destruct (enrollment_verify r); [|done]. destruct (_ || _) eqn:Et; [done|].
  destruct private as [q|]; [|done]. cbn [crypto ok_or].
  destruct (device_id_for r network) as [d|] eqn:Ed; [|done]. destruct (canonical_bytes r) as [bytes|] eqn:Eb; [|done].
  destruct (x_raw_public q) as [raw|] eqn:Er; [|done]. cbn [crypto ok_or].
  destruct (negb (length raw =? 32)%nat); [done|].
  destruct (wg_key_from_bytes raw) as [w|] eqn:Ew; [|done]. intros [= <- <-].
  pose proof Ew as (-> & _)%wg_key_from_bytes_Ok. exists bytes. bool_to_prop. unfold u64_saturating_sub in *.
  do 8 (split; [done|]). split; [lia|]. split; [lia|]. done.
Qed.

(** C31: joining the network works for an honest device and is bound to what it signed.  The
    request a device writes verifies.  When a server that holds it begins a challenge, the
    device's answer is accepted until the challenge or the request expires, and the
    enrollment that results is for this request, this network and the device id of these
    keys; a challenge lives at most 300 seconds, and after it nothing is accepted, whatever
    the answer.  And the signature covers every field: a request with the same signed bytes
    agrees with it on all of them. *)
Theorem enrollment_round_trip k target kind name expires_at rid r :
  enrollment_request_expiring k target kind name expires_at rid = Ok r ->
  enrollment_verify r = Ok tt
  /\ (forall network now e private nonce c p,
       challenge_begin r network now e private nonce = Ok (c, p) ->
       (e <= now + 300)%Z
       /\ forall t,
         if (e <=? t)%Z || expired_at expires_at t
         then forall proof v, challenge_verify p proof t <> Ok v
         else exists proof device,
           answer_challenge k c r t = Ok proof
           /\ device_id_from_keys network kind (er_ssh_public_key r) (er_wg_public_key r) = Ok device
           /\ challenge_verify p proof t = Ok (mkVerified r network device))
  /\ (forall r' b, wf_request r -> wf_request r' -> canonical_bytes r = Ok b -> canonical_bytes r' = Ok b ->
       exists ssh_key proof, ssh_bytes ssh_key = ssh_bytes (er_ssh_public_key r)
         /\ r' = mkEnrollment (er_version r) (er_network_id r) (er_kind r) (er_request_id r) (er_device_id r)
                    (er_name r) (er_wg_public_key r) ssh_key (er_expires_at r) proof).
Proof.
  intros Hr. apply honest_request in Hr as (Hw & Hs & Hk & Hn & Hx & Hv). split; [done|]. split.
  - intros network now e private nonce c p
      (bytes & Hp & Hpr & Hcn & Hd & Hb & Hdig & Hno & He & Hlt & Hle & _ & Hraw & Heph)%challenge_begin_Ok.
    split; [done|]. intros t. unfold challenge_verify. rewrite Hp, Hpr, Hcn, He, Hx.
    destruct ((e <=? t)%Z || expired_at expires_at t) eqn:Et; [done|].
    destruct (wg_public_key_Ok k _ Hw) as [Hwr Hwk].
    destruct (response_commutes (keys_wg k) (pc_private p) _ _ (challenge_transcript c) Hwr Hraw Hwk Heph)
      as (proof & Ha & Hver).
    exists proof, (ch_device_id c). rewrite Hver, bool_decide_eq_false_2 by tauto. split.
    + unfold answer_challenge. rewrite Hv, He, Hx, Et, Hw, Hs, Hcn, Hd, Hb, Hdig.
      by rewrite !bool_decide_eq_false_2 by tauto.
    + split; [|done]. unfold device_id_for in Hd. rewrite Hk in Hd.
      by destruct (match er_network_id r with Some _ => _ | None => _ end).
  - intros r' b W W' Hb Hb'.
    destruct (canonical_bytes_inj r r' b W W' Hb Hb') as (E1 & E2 & E3 & E4 & E5 & E6 & E7 & E8 & w & w' & Hs1 & Hs2 & E9).
    exists (er_ssh_public_key r'), (er_proof r'). split; [|by destruct r'; cbn in *; subst].
    rewrite Hs1, Hs2. f_equal.
    assert (Hlen : forall key z, ssh_bytes key = Ok z -> (Z.of_nat (length z) < 4294967296)%Z).
    { intros key z. unfold ssh_bytes. destruct (from_openssh key) as [q|]; [|done]. cbn [ssh ok_or].
      destruct (key_to_bytes q) as [y|] eqn:Eq; [|done]. intros [= <-]. by eapply key_bytes_bounded. }
    apply (append_field_inj w' w [] []); [by eapply Hlen..|]. by rewrite E9.
Qed.
End Honest.

(** ** An instance *)

(** Keys are names, a signature is a digest of the key, the name space and the message. *)
Definition demo_ssh : SshApi := {|
  SshKey := str; SshSig := str; SshPrivate := str;
  from_openssh s := strip_prefix (bs "ssh-ed25519 ") s; key_to_openssh k := Some (bs "ssh-ed25519 " ++ k);
  key_to_bytes k := Some (take 32 k); key_is_ed25519 _ := true; key_comment _ := []; key_point _ := Some true;
  key_verify k ns m g := bool_decide (g = take 64 (k ++ ns ++ m));
  sig_from_pem t := Some t; sig_to_pem g := Some (take 64 g); sig_is_sha256 _ := true;
  ssh_public p := p; ssh_sign p ns m := Some (take 64 (p ++ ns ++ m)) |}.

Lemma demo_ssh_laws : SshLaws demo_ssh.
Proof.
  split; cbn [key_to_openssh ssh_public from_openssh key_to_bytes ssh_sign sig_is_sha256 key_verify sig_to_pem sig_from_pem demo_ssh].
  - intros p t Ht. apply (inj Some) in Ht as <-. apply strip_prefix_app.
  - intros k w [= <-]. rewrite length_take. lia.
  - intros p ns m g [= <-]. by rewrite bool_decide_eq_true_2.
  - intros p ns m g t [= <-] [= <-]. rewrite take_take. split; [done|]. rewrite length_take. lia.
Qed.

Definition demo_x25519 : X25519Api := {|
  XPrivate := Z; x_private s := Some (from_be s); x_public_ok _ := true; x_raw_public a := Some (to_be 32 a);
  x_set_peer _ _ := true; x_derive a pb := Some (to_be 33 (from_be (to_be 32 a) + from_be pb + 1)) |}.

Lemma demo_x25519_laws : X25519Laws demo_x25519.
Proof.
  split; cbn [x_raw_public x_derive x_public_ok x_set_peer demo_x25519].
  - intros a b pa pb Ha Hb. apply (inj Some) in Ha as <-. apply (inj Some) in Hb as <-.
    generalize (from_be (to_be 32 a)), (from_be (to_be 32 b)). intros x y. by rewrite (Z.add_comm x).
  - done.
  - eauto.
Qed.

Definition demo_mac : HmacApi := {| hmac_sha256 k m := take 32 (k ++ m ++ replicate 32 "0"%char) |}.

Lemma demo_mac_laws : HmacLaws demo_mac.
Proof. split. intros k m. cbn [hmac_sha256 demo_mac]. rewrite length_take, !length_app, length_replicate. lia. Qed.

#[local] Existing Instances demo_ssh demo_x25519 demo_sha256 demo_mac demo_ssh_laws demo_x25519_laws demo_mac_laws.

Definition demo_keys : LocalDeviceKeys := mkKeys (7%Z : @XPrivate demo_x25519) (bs "laptop" : @SshPrivate demo_ssh).
Definition demo_network : str := bs "network-00000001".
Definition demo_enrollment : EnrollmentRequest :=
  match enrollment_request_expiring demo_keys (Some demo_network) LaptopKind (bs "laptop") (Some 1000%Z) (bs "request-00000001") with
  | Ok r => r
  | Err _ => mkEnrollment 0 None LaptopKind [] None [] [] [] None []
  end.

Lemma demo_enrollment_eq :
  enrollment_request_expiring demo_keys (Some demo_network) LaptopKind (bs "laptop") (Some 1000%Z) (bs "request-00000001")
  = Ok demo_enrollment.
Proof. vm_compute. reflexivity. Qed.

Lemma enrollment_round_trip_witness : enrollment_verify demo_enrollment = Ok tt.
Proof. exact (proj1 (enrollment_round_trip _ _ _ _ _ _ _ demo_enrollment_eq)). Defined.
