(* ===== verification/Registry.v ===== *)
(** * The registry of the server network (tako-network/src/registry.rs)

    Members, the permissions they delegate, revocations and the acknowledgements of
    servers.  The registry is a replicated, append-only set of records; who is a member
    now is computed from it by following approvals from the roots.  Certificates (openssl)
    are a parameter. *)

From S2P Require Import Prelude RustStr Net Codec Sql Enrollment.

(** openssl: X.509. *)
Class X509Api := {
  Cert : Type;
  cert_from_pem : str -> option Cert;
  cert_to_pem : Cert -> option str;
  cert_spki_der : Cert -> option str;
}.

Record Permissions := mkPermissions {
  network_admin : bool;
  server_admin : bool;
  ssh_user : option str;
  deployments : gset str;
}.

#[global] Instance Permissions_eq_dec : EqDecision Permissions.
Proof. solve_decision. Defined.

Definition permissions_validate (p : Permissions) : result unit NetError :=
  if match ssh_user p with Some u => str_eqb u (bs "tako") || str_eqb u (bs "root") | None => false end
     && negb (network_admin p && server_admin p)
  then Err (PermissionDenied (bs "SSH access to tako or root requires both network_admin and server_admin"))
  else if (1024 <? size (deployments p))%nat then invalid "deployment permissions" "too many scopes"
  else Ok tt.

Definition can_deploy (p : Permissions) (scope : str) : bool := bool_decide (scope ∈ deployments p).

Definition can_delegate (p child : Permissions) : bool :=
  network_admin p
  && (negb (server_admin child) || server_admin p)
  && (bool_decide (ssh_user child = None) || server_admin p || bool_decide (ssh_user child = ssh_user p))
  && (server_admin p || bool_decide (deployments child ⊆ deployments p)).

(** [std::net::SocketAddr]; flow and scope are those of a V6 address, zero for V4. *)
Record Endpoint := mkEndpoint { ep_ip : IpAddr; ep_port : Z; ep_flowinfo : Z; ep_scope_id : Z }.

#[global] Instance Endpoint_eq_dec : EqDecision Endpoint.
Proof. solve_decision. Defined.

(** [IpAddr::to_canonical]. *)
Definition to_canonical (ip : IpAddr) : IpAddr :=
  match ip with
  | V6 [0; 0; 0; 0; 0; 65535; hi; lo]%Z => V4 [hi / 256; hi mod 256; lo / 256; lo mod 256]%Z
  | _ => ip
  end.

Definition not_unicast (ip : IpAddr) : bool :=
  match ip with
  | V4 o =>
      let a := default 0%Z (head o) in
      bool_decide (o = [0; 0; 0; 0]%Z) || (a =? 127)%Z || ((224 <=? a)%Z && (a <=? 239)%Z)
      || bool_decide (o = [255; 255; 255; 255]%Z)
  | V6 g =>
      bool_decide (g = [0; 0; 0; 0; 0; 0; 0; 0]%Z) || bool_decide (g = [0; 0; 0; 0; 0; 0; 0; 1]%Z)
      || (Z.land (default 0%Z (head g)) 65280 =? 65280)%Z
  end.

Record ServerInfo := mkServerInfo {
  wireguard_endpoint : Endpoint;
  ssh_host_key : str;
  ssh_port : Z;
  https_certificate_pem : option str;
  corrosion_ca_certificate_pem : option str;
  https_spki_sha256 : option str;
  https_port : Z;
}.

#[global] Instance ServerInfo_eq_dec : EqDecision ServerInfo.
Proof. solve_decision. Defined.

Inductive MemberKind := Laptop | Server (info : ServerInfo).

#[global] Instance MemberKind_eq_dec : EqDecision MemberKind.
Proof. solve_decision. Defined.

Definition device_kind (k : MemberKind) : DeviceKind :=
  match k with Laptop => LaptopKind | Server _ => ServerKind end.

Definition is_server (k : MemberKind) : bool := match k with Laptop => false | Server _ => true end.

Record Member := mkMember {
  network_id : str;
  device_id : str;
  request : EnrollmentRequest;
  kind : MemberKind;
  permissions : Permissions;
  approved_by : option str;
  independent_admin : bool;
  wg_verified : bool;
  created_at : Z;
  expires_at : option Z;
}.

#[global] Instance Member_eq_dec : EqDecision Member.
Proof. solve_decision. Defined.

Definition live (m : Member) (now : Z) : bool :=
  (created_at m <=? now)%Z && match expires_at m with Some e => (now <? e)%Z | None => true end.

Definition delegated_by (m parent : Member) : bool :=
  (created_at parent <=? created_at m)%Z
  && can_delegate (permissions parent) (permissions m)
  && (negb (is_server (kind m)) || server_admin (permissions parent))
  && match expires_at parent, expires_at m with
     | Some p, Some c => (c <=? p)%Z
     | Some _, None => false
     | None, _ => true
     end.

Record Approval := mkApproval {
  ap_kind : MemberKind;
  ap_permissions : Permissions;
  ap_approved_by : option str;
  ap_independent_admin : bool;
  ap_created_at : Z;
  ap_expires_at : option Z;
}.

Record Revocation := mkRevocation {
  rev_id : str;
  target : str;
  rev_wg_fingerprint : str;
  rev_ssh_fingerprint : str;
  captured_servers : gset str;
  rev_by : str;
  rev_created_at : Z;
}.

#[global] Instance Revocation_eq_dec : EqDecision Revocation.
Proof. solve_decision. Defined.

Record Ack := mkAck { ack_revocation : str; ack_server : str; ack_boot : str }.

Record NetworkDescriptor := mkNetwork { net_id : str; initial_admin : str }.

Record RegistrySnapshot := mkSnapshot {
  network : NetworkDescriptor;
  members : list Member;
  revocations : list Revocation;
  acks : list Ack;
}.

(** [str::replace] of CRLF by LF. *)
Fixpoint replace_crlf (s : str) : str :=
  match s with
  | [] => []
  | c :: s' =>
      match s' with
      | d :: s'' => if (byte_of c =? 13)%Z && (byte_of d =? 10)%Z then d :: replace_crlf s'' else c :: replace_crlf s'
      | [] => [c]
      end
  end.

Section Registry.
Context {S : SshApi} {H : Sha256Api} {C : X509Api}.

Definition MAX_CERTIFICATE_PEM_BYTES : nat := 16 * 1024.

Definition parse_certificate (pem : str) (field : string) : result Cert NetError :=
  if match pem with [] => true | _ => false end || (MAX_CERTIFICATE_PEM_BYTES <? length pem)%nat
  then invalid field "expected at most 16 KiB of certificate PEM"
  else
    match cert_from_pem pem with
    | None => invalid field "invalid X.509 certificate PEM"
    | Some certificate =>
        let? canonical := crypto (cert_to_pem certificate) in
        if negb (utf8_valid canonical) then invalid field "invalid certificate encoding"
        else if bool_decide (trim (replace_crlf pem) <> trim canonical)
        then invalid field "expected one certificate with no extra PEM blocks or data"
        else Ok certificate
    end.

Definition https_spki_fingerprint (i : ServerInfo) : result (option str) NetError :=
  transpose ((fun pem =>
    let? certificate := parse_certificate pem "HTTPS certificate" in
    let? der := crypto (cert_spki_der certificate) in
    Ok (sha256 der)) <$> https_certificate_pem i).

Definition server_info_validate (i : ServerInfo) : result unit NetError :=
  let e := wireguard_endpoint i in
  if not_unicast (to_canonical (ep_ip e))
     || match ep_ip e with V6 _ => negb (ep_scope_id e =? 0)%Z || negb (ep_flowinfo e =? 0)%Z | V4 _ => false end
     || (ep_port e =? 0)%Z || (ssh_port i =? 0)%Z || (https_port i =? 0)%Z
  then invalid "server endpoint" "expected a unicast endpoint and nonzero ports"
  else
    let? derived_spki := https_spki_fingerprint i in
    if match https_spki_sha256 i with Some pin => bool_decide (Some pin <> derived_spki) | None => false end
    then invalid "HTTPS SPKI" "must match the supplied certificate"
    else
      match corrosion_ca_certificate_pem i with
      | Some pem => let? _ := parse_certificate pem "Corrosion CA certificate" in Ok tt
      | None => Ok tt
      end.

Definition expires_by (e : option Z) (t : Z) : bool := match e with Some x => (x <=? t)%Z | None => false end.

Definition member_validate (m : Member) : result unit NetError :=
  let? _ := permissions_validate (permissions m) in
  let? _ := enrollment_verify (request m) in
  let? own := device_id_for (request m) (network_id m) in
  if bool_decide (device_id m <> own) || bool_decide (device_kind (kind m) <> er_kind (request m))
  then invalid "member" "network, kind, or ID does not match enrollment"
  else if expires_by (expires_at m) (created_at m) || expires_by (er_expires_at (request m)) (created_at m)
  then invalid "member expiry" "approval must precede request and membership expiry"
  else if independent_admin m && negb (network_admin (permissions m) && server_admin (permissions m))
  then invalid "independent admin" "requires both administrator capabilities"
  else if bool_decide (approved_by m = Some (device_id m)) || (independent_admin m && bool_decide (approved_by m <> None))
  then invalid "approval authority" "independent roots require local-operator admission; devices cannot approve themselves"
  else match kind m with Server server => server_info_validate server | Laptop => Ok tt end.

(** ** The snapshot *)

Definition denied (s : RegistrySnapshot) (m : Member) : result bool NetError :=
  let wg := wg_fingerprint (er_wg_public_key (request m)) in
  let? ssh := ssh_fingerprint (er_ssh_public_key (request m)) in
  Ok (any (fun d => bool_decide (target d = device_id m) || bool_decide (rev_wg_fingerprint d = wg)
                    || bool_decide (rev_ssh_fingerprint d = ssh)) (revocations s)).

(** The maps that [validate] fills: members, WireGuard keys, SSH keys, addresses. *)
Record Seen := mkSeen {
  seen_members : gmap str Member;
  seen_wg : gmap str str;
  seen_ssh : gmap str str;
  seen_addresses : gmap str str;
}.

Definition bound_elsewhere (m : gmap str str) (key id : str) : bool :=
  match m !! key with Some other => bool_decide (other <> id) | None => false end.

Fixpoint validate_members (s : RegistrySnapshot) (seen : Seen) (ms : list Member) : result unit NetError :=
  match ms with
  | [] => Ok tt
  | m :: ms' =>
      let? _ := member_validate m in
      if bool_decide (network_id m <> net_id (network s)) then invalid "member network" "different network"
      else if negb (wg_verified m) then validate_members s seen ms'
      else if match seen_members seen !! device_id m with Some p => bool_decide (p <> m) | None => false end
      then Err (Conflict (bs "member"))
      else
        let members' := <[device_id m := m]> (seen_members seen) in
        let? d := denied s m in
        if d then validate_members s (mkSeen members' (seen_wg seen) (seen_ssh seen) (seen_addresses seen)) ms'
        else
          let wg := er_wg_public_key (request m) in
          let ssh := er_ssh_public_key (request m) in
          let addr := address (net_id (network s)) wg in
          if bound_elsewhere (seen_wg seen) wg (device_id m) || bound_elsewhere (seen_ssh seen) ssh (device_id m)
          then Err (Conflict (bs "public key binding"))
          else if bound_elsewhere (seen_addresses seen) addr (device_id m) then Err (Conflict (bs "IPv6 address"))
          else
            validate_members s
              (mkSeen members' (<[wg := device_id m]> (seen_wg seen)) (<[ssh := device_id m]> (seen_ssh seen))
                 (<[addr := device_id m]> (seen_addresses seen))) ms'
  end.

Fixpoint validate_revocations (seen : gmap str Revocation) (rs : list Revocation) : result unit NetError :=
  match rs with
  | [] => Ok tt
  | r :: rs' =>
      if match seen !! rev_id r with Some p => bool_decide (p <> r) | None => false end
      then Err (Conflict (bs "revocation"))
      else validate_revocations (<[rev_id r := r]> seen) rs'
  end.

Definition registry_validate (s : RegistrySnapshot) : result unit NetError :=
  let? _ := validate_members s (mkSeen ∅ ∅ ∅ ∅) (members s) in
  validate_revocations ∅ (revocations s).

Fixpoint pending_members (s : RegistrySnapshot) (now : Z) (ms : list Member) (pending : gmap str Member)
    : result (gmap str Member) NetError :=
  match ms with
  | [] => Ok pending
  | m :: ms' =>
      if wg_verified m && live m now then
        let? d := denied s m in
        pending_members s now ms' (if d then pending else <[device_id m := m]> pending)
      else pending_members s now ms' pending
  end.

(** Whether a pending member can be admitted next to [effective]. *)
Definition is_ready (s : RegistrySnapshot) (effective : gmap str Member) (m : Member) : bool :=
  match approved_by m with
  | None => independent_admin m
            || (bool_decide (device_id m = initial_admin (network s)) && network_admin (permissions m))
  | Some parent => match effective !! parent with Some p => delegated_by m p | None => false end
  end.

(** The loop; [fuel] bounds its rounds, each of which but the last admits a member. *)
Fixpoint effective_loop (s : RegistrySnapshot) (fuel : nat) (pending effective : gmap str Member) : gmap str Member :=
  match fuel with
  | O => effective
  | Datatypes.S n =>
      let ready := filter (fun kv => is_ready s effective kv.2 = true) pending in
      if bool_decide (ready = ∅) then effective
      else effective_loop s n (pending ∖ ready) (ready ∪ effective)
  end.

Definition effective_members (s : RegistrySnapshot) (now : Z) : result (gmap str Member) NetError :=
  let? _ := registry_validate s in
  let? pending := pending_members s now (members s) ∅ in
  Ok (effective_loop s (Datatypes.S (size pending)) pending ∅).

Definition permissions_of (s : RegistrySnapshot) (device : str) (now : Z) : result Permissions NetError :=
  let? e := effective_members s now in
  match e !! device with Some m => Ok (permissions m) | None => Err (NotEffective device) end.

Definition can_admin (s : RegistrySnapshot) (device : str) (now : Z) : result bool NetError :=
  let? e := effective_members s now in
  Ok (match e !! device with Some m => network_admin (permissions m) | None => false end).

(** The loop over the members already there: [Some] is its early return. *)
Fixpoint binding_conflict (m : Member) (ms : list Member) : option (result Member NetError) :=
  match ms with
  | [] => None
  | x :: ms' =>
      if negb (wg_verified x) then binding_conflict m ms'
      else if bool_decide (device_id x = device_id m)
      then Some (if bool_decide (x = m) then Ok x else Err (Conflict (bs "member")))
      else if bool_decide (er_wg_public_key (request x) = er_wg_public_key (request m))
              || bool_decide (er_ssh_public_key (request x) = er_ssh_public_key (request m))
      then Some (Err (Conflict (bs "public key binding")))
      else if bool_decide (address (network_id x) (er_wg_public_key (request x))
                           = address (network_id m) (er_wg_public_key (request m)))
      then Some (Err (Conflict (bs "IPv6 address")))
      else binding_conflict m ms'
  end.

Definition approve_with_authority (s : RegistrySnapshot) (v : VerifiedEnrollment) (a : Approval) (local_operator : bool)
    : result Member NetError :=
  let? effective := effective_members s (ap_created_at a) in
  let m := mkMember (ve_network_id v) (ve_device_id v) (ve_request v) (ap_kind a) (ap_permissions a)
             (ap_approved_by a) (ap_independent_admin a) true (ap_created_at a) (ap_expires_at a) in
  let? _ := member_validate m in
  if bool_decide (network_id m <> net_id (network s)) then invalid "approval network" "different network"
  else
    let? d := denied s m in
    if d then Err (PermissionDenied (bs "revocation overrides approval"))
    else if independent_admin m && negb local_operator
    then Err (PermissionDenied (bs "device grants cannot create independent roots"))
    else
      let? _ :=
        match approved_by m with
        | None =>
            if local_operator && independent_admin m then Ok tt
            else if bool_decide (device_id m <> initial_admin (network s)) || negb (network_admin (permissions m))
                    || match members s with [] => false | _ => true end
            then Err (PermissionDenied (bs "only the descriptor's initial admin can bootstrap an empty registry"))
            else Ok tt
        | Some by_ =>
            match effective !! by_ with
            | None => Err (NotEffective by_)
            | Some parent =>
                if negb (delegated_by m parent)
                then Err (PermissionDenied (bs "approval exceeds delegated authority or expiry"))
                else Ok tt
            end
        end in
      match binding_conflict m (members s) with
      | Some r => r
      | None => Ok m
      end.

Definition approve (s : RegistrySnapshot) (v : VerifiedEnrollment) (a : Approval) : result Member NetError :=
  approve_with_authority s v a false.

Definition approve_independent_admin (s : RegistrySnapshot) (v : VerifiedEnrollment) (a : Approval)
    : result Member NetError :=
  if negb (ap_independent_admin a) || bool_decide (ap_approved_by a <> None)
  then Err (PermissionDenied (bs "independent approval requires explicit local-operator authority"))
  else approve_with_authority s v a true.

Definition server_ids (s : RegistrySnapshot) : gset str :=
  list_to_set (device_id <$> retain (fun m => wg_verified m && is_server (kind m)) (members s)).

Definition plan_revocation (s : RegistrySnapshot) (id by_ target : str) (now : Z) : result Revocation NetError :=
  let? p := permissions_of s by_ now in
  if negb (network_admin p) then Err (PermissionDenied (bs "revocation requires network administration"))
  else
    match find_first (fun m => wg_verified m && bool_decide (device_id m = target)) (members s) with
    | None => Err (NotEffective target)
    | Some m =>
        if is_server (kind m) && negb (server_admin p)
        then Err (PermissionDenied (bs "server revocation requires server administration"))
        else
          let? ssh := ssh_fingerprint (er_ssh_public_key (request m)) in
          let r := mkRevocation id target (wg_fingerprint (er_wg_public_key (request m))) ssh (server_ids s) by_ now in
          if any (fun prev => bool_decide (rev_id prev = rev_id r) && bool_decide (prev <> r)) (revocations s)
          then Err (Conflict (bs "revocation"))
          else Ok r
    end.

Record RevocationProgress := mkProgress { applied_servers : gset str; pending_servers : gset str }.

Definition has_applied (s : RegistrySnapshot) (id : str) (current_boots : gmap str str) (server : str) : bool :=
  match current_boots !! server with
  | Some boot => any (fun a => bool_decide (ack_revocation a = id) && bool_decide (ack_server a = server)
                               && bool_decide (ack_boot a = boot)) (acks s)
  | None => false
  end.

Definition revocation_progress (s : RegistrySnapshot) (id : str) (current_boots : gmap str str)
    : result RevocationProgress NetError :=
  let? _ := registry_validate s in
  match find_first (fun r => bool_decide (rev_id r = id)) (revocations s) with
  | None => Err UnknownRevocation
  | Some r =>
      let required := captured_servers r ∪ server_ids s in
      Ok (mkProgress (filter (fun x => has_applied s id current_boots x = true) required)
                     (filter (fun x => has_applied s id current_boots x = false) required))
  end.
End Registry.
