(* ===== verification/RegistryProps.v ===== *)
(** * What the registry of the server network guarantees

    Validity of a registry as a property of its records, membership as a derivation from
    the roots, and what approvals and revocations do to it. *)

From S2P Require Import Prelude RustStr Net Codec Sql Enrollment Registry.

Section Props.
Context {S : SshApi} {H : Sha256Api} {C : X509Api}.
Implicit Types (s : RegistrySnapshot) (m p : Member) (now : Z).

(** ** Validity *)

Definition wg_of m : str := er_wg_public_key (request m).
Definition ssh_of m : str := er_ssh_public_key (request m).
Definition address_of s m : str := address (net_id (network s)) (wg_of m).

Definition undenied s m : Prop := wg_verified m = true /\ denied s m = Ok false.

Definition same_binding s m m' : Prop :=
  wg_of m = wg_of m' \/ ssh_of m = ssh_of m' \/ address_of s m = address_of s m'.

(** A record is valid by itself, and verified records agree where they must. *)
Definition valid_member s m : Prop :=
  member_validate m = Ok tt /\ network_id m = net_id (network s) /\ (wg_verified m = true -> is_ok (denied s m) = true).

Definition compatible s m m' : Prop :=
  (wg_verified m = true -> wg_verified m' = true -> device_id m = device_id m' -> m = m')
  /\ (undenied s m -> undenied s m' -> same_binding s m m' -> device_id m = device_id m').

Definition valid_members s (l : list Member) : Prop :=
  Forall (valid_member s) l /\ forall m m', m ∈ l -> m' ∈ l -> compatible s m m'.

(** What the maps of [validate] hold after the records [l]. *)
Definition holds_members (l : list Member) (seen : gmap str Member) : Prop :=
  forall id m, seen !! id = Some m <-> m ∈ l /\ wg_verified m = true /\ device_id m = id.

Definition holds_keys s (f : Member -> str) (l : list Member) (seen : gmap str str) : Prop :=
  forall k id, seen !! k = Some id <-> exists m, m ∈ l /\ undenied s m /\ f m = k /\ device_id m = id.

Definition represents s (l : list Member) (seen : Seen) : Prop :=
  holds_members l (seen_members seen) /\ holds_keys s wg_of l (seen_wg seen)
  /\ holds_keys s ssh_of l (seen_ssh seen) /\ holds_keys s (address_of s) l (seen_addresses seen).

Lemma compatible_sym s m m' : compatible s m m' -> compatible s m' m.
Proof.
  intros [H1 H2]. split; [intros ? ? E; symmetry; by apply H1|].
  intros ? ? E. symmetry. apply H2; [done..|]. destruct E as [E|[E|E]]; unfold same_binding; auto.
Qed.

Lemma compatible_refl s m : compatible s m m.
Proof. by split. Qed.

Lemma valid_members_snoc s l m :
  valid_members s (l ++ [m]) <-> valid_members s l /\ valid_member s m /\ forall x, x ∈ l -> compatible s x m.
Proof.
  unfold valid_members. rewrite Forall_app, Forall_singleton. split.
  - intros [[Hl Hm] Hc]. split_and!; [done| |done|]; intros; apply Hc; set_solver.
  - intros ([Hl Hc] & Hm & Hx). split; [done|]. intros a b Ha Hb.
    rewrite elem_of_app, list_elem_of_singleton in Ha, Hb. destruct Ha as [Ha| ->], Hb as [Hb| ->]; auto using compatible_refl.
    by apply compatible_sym, Hx.
Qed.

Lemma holds_members_insert l m seen :
  holds_members l seen -> wg_verified m = true ->
  (forall x, x ∈ l -> wg_verified x = true -> device_id x = device_id m -> x = m) ->
  holds_members (l ++ [m]) (<[device_id m := m]> seen).
Proof.
  intros Hh Hv Hu id x. rewrite elem_of_app, list_elem_of_singleton, lookup_insert_Some, (Hh id x). split.
  - intros [[<- <-]|[? (? & ? & ?)]]; auto.
  - intros ([Hx| ->] & Hxv & <-); [|auto]. destruct (decide (device_id m = device_id x)) as [E|]; [|auto].
    left. split; [done|]. symmetry. by apply Hu.
Qed.

Lemma holds_members_skip l m seen : holds_members l seen -> wg_verified m = false -> holds_members (l ++ [m]) seen.
Proof.
  intros Hh Hv id x. rewrite (Hh id x), elem_of_app, list_elem_of_singleton. split; [by intros (? & ? & ?); auto|].
  intros ([?| ->] & ? & ?); [auto|congruence].
Qed.

Lemma holds_keys_skip s f l m seen : holds_keys s f l seen -> ~ undenied s m -> holds_keys s f (l ++ [m]) seen.
Proof.
  intros Hh Hv k id. rewrite (Hh k id). setoid_rewrite elem_of_app. setoid_rewrite list_elem_of_singleton. split.
  - intros (x & ? & ?). eauto.
  - intros (x & [?| ->] & ? & ?); [eauto|done].
Qed.

Lemma holds_keys_insert s f l m seen :
  holds_keys s f l seen -> undenied s m -> bound_elsewhere seen (f m) (device_id m) = false ->
  holds_keys s f (l ++ [m]) (<[f m := device_id m]> seen).
Proof.
  intros Hh Hv Hb k id. rewrite lookup_insert_Some, (Hh k id).
  setoid_rewrite elem_of_app. setoid_rewrite list_elem_of_singleton. split.
  - intros [[<- <-]|[_ (x & ? & ?)]]; eauto 10.
  - intros (x & [Hx| ->] & Hu & <- & <-); [|by left].
    destruct (decide (f m = f x)) as [E|]; [|right; eauto 10]. left. split; [done|].
    unfold bound_elsewhere in Hb. rewrite E, (proj2 (Hh (f x) (device_id x))) in Hb by eauto.
    apply bool_decide_eq_false in Hb. destruct (decide (device_id x = device_id m)); [done|tauto].
Qed.

Lemma bound_elsewhere_false s f l m seen :
  holds_keys s f l seen ->
  bound_elsewhere seen (f m) (device_id m) = false <->
  forall x, x ∈ l -> undenied s x -> f x = f m -> device_id x = device_id m.
Proof.
  intros Hh. unfold bound_elsewhere. destruct (seen !! f m) as [other|] eqn:E.
  - apply (Hh (f m) other) in E as (y & Hy & Hu & Hf & <-). rewrite bool_decide_eq_false. split.
    + intros Hd x Hx Hxu Hxf. destruct (decide (device_id y = device_id m)) as [Eq|]; [|tauto].
      assert (H1 : seen !! f m = Some (device_id x)) by (apply Hh; eauto 10).
      assert (H2 : seen !! f m = Some (device_id y)) by (apply Hh; eauto 10). congruence.
    + intros Hx Hn. apply Hn. by apply Hx.
  - split; [|done]. intros _ x Hx Hu Hf. assert (H1 : seen !! f m = Some (device_id x)) by (apply Hh; eauto 10). congruence.
Qed.

Lemma compatible_skip s x m : wg_verified m = false -> compatible s x m.
Proof. intros Hv. split; [congruence|]. intros _ [? _]. congruence. Qed.

Lemma compatible_denied s x m :
  denied s m = Ok true -> compatible s x m <-> (wg_verified x = true -> wg_verified m = true -> device_id x = device_id m -> x = m).
Proof. intros Hd. split; [by intros []|]. intros Hx. split; [done|]. intros _ [_ ?]. congruence. Qed.

Definition seen_elsewhere (seen : gmap str Member) m : bool :=
  match seen !! device_id m with Some p => bool_decide (p <> m) | None => false end.

Lemma seen_elsewhere_false s l m seen :
  holds_members l seen -> valid_members s l ->
  seen_elsewhere seen m = false <-> forall x, x ∈ l -> wg_verified x = true -> device_id x = device_id m -> x = m.
Proof.
  intros Hm Hl. unfold seen_elsewhere. destruct (seen !! device_id m) as [p|] eqn:Ep.
  - rewrite bool_decide_eq_false. apply Hm in Ep as (Hpl & Hpv & Hpd). split.
    + intros Hd x Hx Hxv Hxd. destruct (decide (p = m)) as [<-|]; [|tauto].
      apply (proj2 Hl x p); [done..|congruence].
    + intros Hx Hn. apply Hn. by apply Hx.
  - split; [|done]. intros _ x Hx Hxv Hxd. assert (seen !! device_id m = Some x) by (by apply Hm). congruence.
Qed.

(** One step of the loop of [validate] checks what validity asks of one more record. *)
Lemma validate_members_iff s l seen ms :
  represents s l seen -> valid_members s l ->
  validate_members s seen ms = Ok tt <-> valid_members s (l ++ ms).
Proof.
  revert l seen. induction ms as [|m ms IH]; intros l seen Hr Hl; cbn [validate_members].
  { by rewrite app_nil_r. }
  replace (l ++ m :: ms) with ((l ++ [m]) ++ ms) by (by rewrite <- app_assoc).
  assert (Hsnoc : valid_members s ((l ++ [m]) ++ ms) -> valid_members s (l ++ [m])).
  { intros [Hf Hc]. split; [by apply Forall_app in Hf as [? _]|]. intros; apply Hc; set_solver. }
  assert (Hno : forall (e : NetError), ~ valid_members s (l ++ [m]) ->
    Err e = Ok tt <-> valid_members s ((l ++ [m]) ++ ms)) by (intros e Hn; split; [done|tauto]).
  setoid_rewrite valid_members_snoc in Hno. destruct Hr as (Hm & Hw & Hs & Ha).
  destruct (member_validate m) as [[]|e] eqn:Ev; [|apply Hno; intros (_ & (E & _) & _); congruence].
  case_bool_decide as En; [apply Hno; intros (_ & (_ & ? & _) & _); done|].
  destruct (wg_verified m) eqn:Evf; cbn [negb].
  2:{ apply IH; [split_and!; [by apply holds_members_skip|apply holds_keys_skip; [done|by intros [? _]; congruence]..]|].
      apply valid_members_snoc. split_and!; [done| |intros; by apply compatible_skip].
      split_and!; [done|tauto|congruence]. }
  pose proof (seen_elsewhere_false s l m _ Hm Hl) as Huniq. unfold seen_elsewhere in Huniq.
  destruct (match seen_members seen !! device_id m with Some p => bool_decide (p <> m) | None => false end).
  { apply Hno. intros (_ & _ & Hc). enough (true = false) by done. apply Huniq. intros x Hx ? ?. by apply (Hc x Hx). }
  destruct Huniq as [Huniq _]. specialize (Huniq eq_refl).
  destruct (denied s m) as [d|e] eqn:Ed; [|apply Hno; intros (_ & (_ & _ & Hd) & _); rewrite Ed in Hd; by specialize (Hd Evf)].
  assert (Hvm : valid_member s m) by (split_and!; [done|tauto|by rewrite Ed]).
  destruct d.
  { apply IH.
    - split_and!; cbn [seen_members seen_wg seen_ssh seen_addresses];
        [by apply holds_members_insert|apply holds_keys_skip; [done|by intros [_ ?]; congruence]..].
    - apply valid_members_snoc. split_and!; [done..|]. intros x Hx. apply compatible_denied; auto. }
  assert (Hum : undenied s m) by done. fold (wg_of m) (ssh_of m) (address_of s m).
  pose proof (bound_elsewhere_false s wg_of l m _ Hw) as Bw.
  pose proof (bound_elsewhere_false s ssh_of l m _ Hs) as Bs.
  pose proof (bound_elsewhere_false s (address_of s) l m _ Ha) as Ba.
  destruct (bound_elsewhere (seen_wg seen) _ _) eqn:E1; cbn [orb].
  { apply Hno. intros (_ & _ & Hc). enough (true = false) by done. apply Bw. intros x Hx ? ?. apply (Hc x Hx); unfold same_binding; auto. }
  destruct (bound_elsewhere (seen_ssh seen) _ _) eqn:E2.
  { apply Hno. intros (_ & _ & Hc). enough (true = false) by done. apply Bs. intros x Hx ? ?. apply (Hc x Hx); unfold same_binding; auto. }
  destruct (bound_elsewhere (seen_addresses seen) _ _) eqn:E3.
  { apply Hno. intros (_ & _ & Hc). enough (true = false) by done. apply Ba. intros x Hx ? ?. apply (Hc x Hx); unfold same_binding; auto. }
  apply IH.
  - split_and!; cbn [seen_members seen_wg seen_ssh seen_addresses];
      [by apply holds_members_insert|by apply holds_keys_insert..].
  - apply valid_members_snoc. split_and!; [done..|]. intros x Hx. split; [auto|].
    intros Hux _ [E|[E|E]]; [by apply Bw|by apply Bs|by apply Ba].
Qed.

Definition valid_revocations (l : list Revocation) : Prop :=
  forall r r', r ∈ l -> r' ∈ l -> rev_id r = rev_id r' -> r = r'.

Definition valid_registry s : Prop := valid_members s (members s) /\ valid_revocations (revocations s).

Lemma validate_revocations_iff (l : list Revocation) (seen : gmap str Revocation) (rs : list Revocation) :
  (forall id r, seen !! id = Some r <-> r ∈ l /\ rev_id r = id) -> valid_revocations l ->
  validate_revocations seen rs = Ok tt <-> valid_revocations (l ++ rs).
Proof.
  revert l seen. induction rs as [|r rs IH]; intros l seen Hs Hl; cbn [validate_revocations].
  { by rewrite app_nil_r. }
  assert (Hsame : match seen !! rev_id r with Some p => bool_decide (p <> r) | None => false end = false
    <-> forall x, x ∈ l -> rev_id x = rev_id r -> x = r).
  { destruct (seen !! rev_id r) as [p|] eqn:E.
    - apply Hs in E as [Hp Hid]. rewrite bool_decide_eq_false. split.
      + intros Hd x Hx Hxd. destruct (decide (p = r)) as [<-|]; [|tauto]. apply Hl; [done..|congruence].
      + intros Hx Hn. apply Hn. by apply Hx.
    - split; [|done]. intros _ x Hx Hxd. assert (seen !! rev_id r = Some x) by (by apply Hs). congruence. }
  destruct (match seen !! rev_id r with Some p => bool_decide (p <> r) | None => false end).
  { split; [done|]. intros Hv. enough (true = false) by done. apply Hsame. intros x Hx. apply Hv; set_solver. }
  destruct Hsame as [Hsame _]. specialize (Hsame eq_refl).
  replace (l ++ r :: rs) with ((l ++ [r]) ++ rs) by (by rewrite <- app_assoc). apply IH.
  - intros id x. rewrite lookup_insert_Some, (Hs id x), elem_of_app, list_elem_of_singleton. split.
    + intros [[<- <-]|[? []]]; auto.
    + intros [[Hx| ->] <-]; [|auto]. destruct (decide (rev_id r = rev_id x)); [|auto].
      left. split; [done|]. symmetry. by apply Hsame.
  - intros a b Ha Hb. rewrite elem_of_app, list_elem_of_singleton in Ha, Hb.
    destruct Ha as [Ha| ->], Hb as [Hb| ->]; [by apply Hl|by apply Hsame|intros; symmetry; by apply Hsame|done].
Qed.

(** [validate] accepts exactly the valid registries. *)
Lemma registry_validate_iff s : registry_validate s = Ok tt <-> valid_registry s.
Proof.
  unfold registry_validate, valid_registry.
  assert (Hrep : represents s [] (mkSeen ∅ ∅ ∅ ∅)).
  { split_and!; cbn [seen_members seen_wg seen_ssh seen_addresses]; [intros id m; rewrite lookup_empty; set_solver|
      intros k id; rewrite lookup_empty; split; [done|intros (m & ?%elem_of_nil & _); done]..]. }
  assert (Hnil : valid_members s []) by (split; [done|set_solver]).
  rewrite <- (validate_members_iff s [] _ (members s) Hrep Hnil).
  rewrite <- (validate_revocations_iff [] ∅ (revocations s)); [|intros id r; rewrite lookup_empty; set_solver|intros ??; set_solver].
  destruct (validate_members _ _ _) as [[]|]; [tauto|]. split; [done|by intros []].
Qed.

(** ** Membership *)

(** A record that can count at [now]. *)
Definition candidate s (now : Z) m : Prop := m ∈ members s /\ undenied s m /\ live m now = true.

Definition is_root s m : Prop :=
  approved_by m = None
  /\ (independent_admin m = true \/ device_id m = initial_admin (network s) /\ network_admin (permissions m) = true).

(** Membership derives from a root by delegations. *)
Inductive authorized s (now : Z) : Member -> Prop :=
| authorized_root m : candidate s now m -> is_root s m -> authorized s now m
| authorized_delegated m p :
    candidate s now m -> approved_by m = Some (device_id p) -> delegated_by m p = true -> authorized s now p ->
    authorized s now m.

Lemma authorized_candidate s now m : authorized s now m -> candidate s now m.
Proof. by destruct 1. Qed.

Lemma candidate_unique s now m m' :
  valid_registry s -> candidate s now m -> candidate s now m' -> device_id m = device_id m' -> m = m'.
Proof. intros [[_ Hc] _] (Hm & [Hv _] & _) (Hm' & [Hv' _] & _). by apply (Hc m m'). Qed.

(** The pending map is the candidates by id. *)
Lemma pending_members_spec s now ms pending :
  valid_registry s -> ms ⊆ members s ->
  (forall id m, pending !! id = Some m -> candidate s now m /\ device_id m = id) ->
  exists pend', pending_members s now ms pending = Ok pend'
    /\ forall id m, pend' !! id = Some m <-> (m ∈ ms /\ candidate s now m /\ device_id m = id) \/ pending !! id = Some m.
Proof.
  intros Hv. revert pending. induction ms as [|x ms IH]; intros pending Hsub Hpend; cbn [pending_members].
  { exists pending. split; [done|]. intros id m. split; [auto|]. intros [[?%elem_of_nil _]|?]; done. }
  assert (Hx : x ∈ members s) by (apply Hsub; left). assert (Hms : ms ⊆ members s) by (intros y Hy; apply Hsub; by right).
  assert (Hskip : ~ candidate s now x -> exists pend', pending_members s now ms pending = Ok pend'
    /\ forall id m, pend' !! id = Some m <->
         (m ∈ x :: ms /\ candidate s now m /\ device_id m = id) \/ pending !! id = Some m).
  { intros Hnc. destruct (IH pending Hms Hpend) as (pend' & Hp & Hl). exists pend'. split; [done|]. intros id m.
    rewrite (Hl id m), elem_of_cons. split; intros [(Hm & ? & ?)|?]; auto. destruct Hm as [-> |?]; [done|auto]. }
  destruct (wg_verified x) eqn:Exv; cbn [andb]; [|apply Hskip; intros (_ & [? _] & _); congruence].
  destruct (live x now) eqn:Exl; [|apply Hskip; intros (_ & _ & ?); congruence].
  destruct (denied s x) as [d|e] eqn:Exd.
  2:{ destruct Hv as [[Hf _] _]. rewrite Forall_forall in Hf. destruct (Hf x Hx) as (_ & _ & Hd).
      rewrite Exd in Hd. by specialize (Hd Exv). }
  destruct d; [apply Hskip; intros (_ & [_ ?] & _); congruence|].
  assert (Hc : candidate s now x) by done.
  assert (Hins : forall id m, <[device_id x := x]> pending !! id = Some m <-> (m = x /\ device_id x = id) \/ pending !! id = Some m).
  { intros id m. rewrite lookup_insert_Some. split; [intros [[<- <-]|[? ?]]; auto|]. intros [[-> <-]|E]; [auto|].
    destruct (decide (device_id x = id)) as [<-|]; [|auto]. left. split; [done|].
    destruct (Hpend _ _ E). eapply candidate_unique; [done..|congruence]. }
  destruct (IH (<[device_id x := x]> pending) Hms) as (pend' & Hp & Hl).
  { intros id m [[-> <-]|E]%Hins; [done|by apply Hpend]. }
  exists pend'. split; [done|]. intros id m. rewrite (Hl id m), elem_of_cons, (Hins id m). split.
  - intros [(? & ? & ?)|[[-> <-]|?]]; auto.
  - intros [([-> |?] & ? & ?)|?]; auto.
Qed.

(** What the loop keeps: admitted and pending records are the candidates [all], and those
    admitted are authorized. *)
Definition loop_invariant s now (all pending effective : gmap str Member) : Prop :=
  pending ##ₘ effective /\ pending ∪ effective = all
  /\ forall id m, effective !! id = Some m -> authorized s now m /\ device_id m = id.

Definition candidate_map s now (all : gmap str Member) : Prop :=
  forall id m, all !! id = Some m <-> candidate s now m /\ device_id m = id.

Lemma is_ready_authorized s now effective m :
  candidate s now m -> (forall id p, effective !! id = Some p -> authorized s now p /\ device_id p = id) ->
  is_ready s effective m = true -> authorized s now m.
Proof.
  intros Hc He. unfold is_ready. destruct (approved_by m) as [parent|] eqn:Ea.
  - destruct (effective !! parent) as [p|] eqn:Ep; [|done]. apply He in Ep as [Hp <-]. intros Hd.
    by eapply authorized_delegated.
  - intros Hr. apply authorized_root; [done|]. split; [done|]. apply orb_true_iff in Hr as [?|Hr]; [by left|].
    bool_to_prop. by right.
Qed.

Lemma loop_invariant_round s now all pending effective ready :
  candidate_map s now all -> loop_invariant s now all pending effective ->
  ready = filter (fun kv => is_ready s effective kv.2 = true) pending ->
  loop_invariant s now all (pending ∖ ready) (ready ∪ effective).
Proof.
  intros Hall (Hdis & Hun & Hauth) ->. set (ready := filter _ pending).
  assert (Hsub : ready ⊆ pending) by apply map_filter_subseteq. split_and!.
  - apply map_disjoint_union_r. split; [apply map_disjoint_difference_l1; reflexivity|].
    eapply map_disjoint_weaken_l; [done|apply map_subseteq_difference_l; reflexivity].
  - rewrite map_union_assoc, (map_union_comm (pending ∖ ready)), map_difference_union; [done..|].
    apply map_disjoint_difference_l1. reflexivity.
  - intros id m [Hm|[_ Hm]]%lookup_union_Some_raw; [|by apply Hauth].
    apply map_lookup_filter_Some in Hm as [Hm Hr]. cbn [snd] in Hr.
    assert (Hc : all !! id = Some m) by (rewrite <- Hun; by apply lookup_union_Some_l).
    apply Hall in Hc as [Hc <-]. split; [|done]. by eapply is_ready_authorized.
Qed.

Lemma size_filter_pos {A} (P : str * A -> Prop) `{forall x, Decision (P x)} (mp : gmap str A) :
  filter P mp <> ∅ -> (size (mp ∖ filter P mp) < size mp)%nat.
Proof.
  intros Hne. pose proof (map_filter_subseteq P mp) as Hsub.
  assert (Hdis : filter P mp ##ₘ mp ∖ filter P mp) by (symmetry; by apply map_disjoint_difference_l1).
  pose proof (map_size_disj_union _ _ Hdis) as E. rewrite map_difference_union in E by done.
  apply map_size_non_empty_iff in Hne. lia.
Qed.

(** The loop ends with exactly the authorized candidates. *)
Lemma effective_loop_spec s now all fuel pending effective :
  candidate_map s now all -> loop_invariant s now all pending effective -> (size pending < fuel)%nat ->
  forall id m, effective_loop s fuel pending effective !! id = Some m <-> authorized s now m /\ device_id m = id.
Proof.
  intros Hall. revert pending effective. induction fuel as [|fuel IH]; intros pending effective Hinv Hf; [lia|].
  cbn [effective_loop]. set (ready := filter _ pending). case_bool_decide as He.
  - destruct Hinv as (Hdis & Hun & Hauth). intros id m. split; [by apply Hauth|]. intros [Ha <-].
    induction Ha as [m Hc Hroot|m p Hc Hby Hdel Hp IHp].
    all: assert (Hm : all !! device_id m = Some m) by (by apply Hall);
      rewrite <- Hun in Hm; apply lookup_union_Some_raw in Hm as [Hm|[_ ?]]; [exfalso|done];
      enough (ready !! device_id m = Some m) as E by (rewrite He, lookup_empty in E; done);
      apply map_lookup_filter_Some; split; [done|]; cbn [snd]; unfold is_ready.
    + destruct Hroot as [-> [-> |[-> ->]]]; [done|]. rewrite bool_decide_eq_true_2 by done. by rewrite orb_true_r.
    + by rewrite Hby, IHp.
  - apply IH; [by apply loop_invariant_round|]. pose proof (size_filter_pos _ _ He) as Hsz. fold ready in Hsz. lia.
Qed.

(** Membership is computed on every valid registry. *)
Lemma effective_members_spec s now :
  valid_registry s ->
  exists e, effective_members s now = Ok e
    /\ forall id m, e !! id = Some m <-> authorized s now m /\ device_id m = id.
Proof.
  intros Hv. unfold effective_members. rewrite (proj2 (registry_validate_iff s) Hv).
  destruct (pending_members_spec s now (members s) ∅ Hv) as (p & -> & Hp); [done|intros id m; by rewrite lookup_empty|].
  eexists. split; [done|]. apply (effective_loop_spec s now p).
  - intros id m. rewrite (Hp id m), lookup_empty. split; [intros [(_ & ?)|?]; done|].
    intros [Hc <-]. left. split_and!; [apply Hc|done..].
  - split_and!; [apply map_disjoint_empty_r|apply map_union_empty|intros id m; by rewrite lookup_empty].
  - lia.
Qed.

(** C24: membership is the derivation from the roots.  On every registry [effective_members]
    fails exactly as validation does, or returns exactly the records that are verified,
    live and not revoked and that a chain of delegations connects to a root, each by its
    id.  The loop has reached its end by then: more rounds give the same map. *)
Theorem membership_is_derivation s now :
  match registry_validate s with
  | Err e => effective_members s now = Err e
  | Ok _ => exists e pending, effective_members s now = Ok e
      /\ pending_members s now (members s) ∅ = Ok pending
      /\ (forall id m, e !! id = Some m <-> authorized s now m /\ device_id m = id)
      /\ forall more, effective_loop s (Datatypes.S (size pending) + more) pending ∅ = e
  end.
Proof.
  destruct (registry_validate s) as [[]|e] eqn:Ev; [|unfold effective_members; by rewrite Ev].
  pose proof (proj1 (registry_validate_iff s) Ev) as Hv.
  destruct (effective_members_spec s now Hv) as (e & He & Hl).
  destruct (pending_members_spec s now (members s) ∅ Hv) as (p & Hp & Hpl); [done|intros id m; by rewrite lookup_empty|].
  exists e, p. do 2 (split; [done|]). split; [done|]. intros more. apply map_eq. intros id. apply option_eq. intros m.
  rewrite (Hl id m). apply (effective_loop_spec s now p); [|split_and!|lia].
  - intros id' m'. rewrite (Hpl id' m'), lookup_empty. split; [intros [(_ & ?)|?]; done|].
    intros [Hc <-]. left. split_and!; [apply Hc|done..].
  - apply map_disjoint_empty_r.
  - apply map_union_empty.
  - intros id' m'. by rewrite lookup_empty.
Qed.

(** ** Delegation *)

Lemma effective_inv s now e :
  effective_members s now = Ok e ->
  valid_registry s /\ forall id m, e !! id = Some m <-> authorized s now m /\ device_id m = id.
Proof.
  intros He. assert (Hv : valid_registry s).
  { apply registry_validate_iff. unfold effective_members in He. by destruct (registry_validate s) as [[]|]. }
  split; [done|]. destruct (effective_members_spec s now Hv) as (e' & He' & Hl).
  assert (e' = e) as -> by congruence. done.
Qed.

Lemma candidate_valid s now m : valid_registry s -> candidate s now m -> member_validate m = Ok tt.
Proof. intros [[Hf _] _] (Hm & _). rewrite Forall_forall in Hf. by apply Hf. Qed.

(** What [validate] asks of a member that the theorems use. *)
Lemma member_validate_Ok m :
  member_validate m = Ok tt ->
  permissions_validate (permissions m) = Ok tt
  /\ (independent_admin m = true -> network_admin (permissions m) = true /\ server_admin (permissions m) = true)
  /\ expires_by (expires_at m) (created_at m) = false.
Proof.
  unfold member_validate. destruct (permissions_validate _) as [[]|]; [|done]. destruct (enrollment_verify _); [|done].
  destruct (device_id_for _ _); [|done]. destruct (bool_decide _ || _); [done|].
  destruct (expires_by (expires_at m) _) eqn:Ee; [done|]. destruct (expires_by (er_expires_at _) _); [done|].
  cbn [orb]. destruct (independent_admin m), (network_admin _), (server_admin _); done || (intros; split_and!; done).
Qed.

Definition expires_within (r m : Member) : Prop :=
  match expires_at r, expires_at m with
  | Some a, Some b => (b <= a)%Z
  | Some _, None => False
  | None, _ => True
  end.

(** What [m] may do, [r] could grant. *)
Definition within (r m : Member) : Prop :=
  expires_within r m
  /\ (server_admin (permissions r) = true
      \/ server_admin (permissions m) = false
         /\ (ssh_user (permissions m) = None \/ ssh_user (permissions m) = ssh_user (permissions r))
         /\ deployments (permissions m) ⊆ deployments (permissions r)
         /\ (m = r \/ is_server (kind m) = false)).

Lemma delegated_within m p :
  delegated_by m p = true -> network_admin (permissions p) = true /\ within p m.
Proof.
  unfold delegated_by, can_delegate, within, expires_within. intros Hd. bool_to_prop.
  destruct (expires_at p), (expires_at m), (server_admin (permissions p)); cbn [orb] in *; bool_to_prop;
    (split; [done|]); (split; [done||lia|]); auto; right.
  all: destruct (server_admin (permissions m)), (is_server (kind m)); try done; split_and!; auto.
  all: match goal with E : _ || false || _ = true |- _ =>
    rewrite orb_false_r in E; apply orb_true_iff in E as [E|E]; bool_to_prop; auto end.
Qed.

Lemma within_trans r p m : within r p -> within p m -> within r m.
Proof.
  unfold within, expires_within. intros [He Hr] [He' Hp]. split.
  { destruct (expires_at r), (expires_at p), (expires_at m); try done. lia. }
  destruct Hr as [Hr|(Hs & Hu & Hd & Hk)]; [by left|]. destruct Hp as [Hp|(Hs' & Hu' & Hd' & Hk')]; [congruence|].
  right. split_and!; [done| |set_solver|].
  - destruct Hu' as [->|E]; [by left|]. destruct Hu as [E'|E']; rewrite E, E'; auto.
  - destruct Hk' as [->|?]; auto.
Qed.

Lemma authorized_within s now m :
  valid_registry s -> authorized s now m ->
  exists r, authorized s now r /\ is_root s r /\ network_admin (permissions r) = true /\ (m = r \/ within r m).
Proof.
  intros Hv. induction 1 as [m Hc Hr|m p Hc Hby Hd Hp (r & Hra & Hrr & Hrn & IH)].
  - exists m. split; [by apply authorized_root|]. do 1 (split; [done|]). split; [|by left].
    destruct Hr as [_ [Hi|[_ Hn]]]; [|done]. by apply (member_validate_Ok m (candidate_valid _ _ _ Hv Hc)).
  - exists r. do 3 (split; [done|]). right. apply delegated_within in Hd as [_ Hw].
    destruct IH as [->|IH]; [done|]. by eapply within_trans.
Qed.

(** Delegation never escalates.  Every effective member is verified, live and not
    revoked, and goes back to an effective root that is a network administrator: it lives
    no longer than the root, and unless the root is a server administrator it is no server
    administrator and no server itself, logs in as nobody or as the root's own SSH user, and
    deploys only what the root deploys.  Nobody logs in as tako or root without being both
    network and server administrator. *)
Lemma delegation_never_escalates s now e id m :
  effective_members s now = Ok e -> e !! id = Some m ->
  wg_verified m = true /\ live m now = true /\ denied s m = Ok false
  /\ (exists r, e !! device_id r = Some r /\ is_root s r /\ network_admin (permissions r) = true
        /\ (m = r \/ within r m))
  /\ (forall u, ssh_user (permissions m) = Some u -> u = bs "tako" \/ u = bs "root" ->
       network_admin (permissions m) = true /\ server_admin (permissions m) = true).
Proof.
  intros (Hv & Hl)%effective_inv Hm. apply Hl in Hm as [Ha <-]. pose proof (authorized_candidate _ _ _ Ha) as Hc.
  pose proof Hc as (_ & [? ?] & ?). do 3 (split; [done|]). split.
  - destruct (authorized_within s now m Hv Ha) as (r & Hr & ?). exists r. split; [by apply Hl|done].
  - intros u Hu Hr. pose proof (proj1 (member_validate_Ok m (candidate_valid _ _ _ Hv Hc))) as Hp.
    unfold permissions_validate in Hp. rewrite Hu in Hp. unfold str_eqb in Hp.
    assert (bool_decide (u = bs "tako") || bool_decide (u = bs "root") = true) as E.
    { apply orb_true_iff. rewrite !bool_decide_eq_true. done. }
    rewrite E in Hp. by destruct (network_admin _), (server_admin _).
Qed.

(** ** Approvals *)

Definition with_member s m : RegistrySnapshot :=
  mkSnapshot (network s) (members s ++ [m]) (revocations s) (acks s).

Lemma binding_conflict_None m ms x :
  binding_conflict m ms = None -> x ∈ ms -> wg_verified x = true ->
  device_id x <> device_id m /\ wg_of x <> wg_of m /\ ssh_of x <> ssh_of m
  /\ address (network_id x) (wg_of x) <> address (network_id m) (wg_of m).
Proof.
  unfold wg_of, ssh_of. induction ms as [|y ms IH]; cbn [binding_conflict]; [by intros _ ?%elem_of_nil|].
  intros Hb Hx Hv. destruct (wg_verified y) eqn:Ey; cbn [negb] in Hb.
  2:{ apply IH; [done| |done]. apply elem_of_cons in Hx as [->|?]; [congruence|done]. }
  destruct (bool_decide (device_id y = device_id m)) eqn:E1; [done|].
  destruct (bool_decide _ || bool_decide _) eqn:E2; [done|].
  destruct (bool_decide (address _ _ = _)) eqn:E3; [done|]. bool_to_prop.
  apply elem_of_cons in Hx as [->|?]; [done|by apply IH].
Qed.

Lemma binding_conflict_Ok m ms x : binding_conflict m ms = Some (Ok x) -> x = m /\ m ∈ ms.
Proof.
  induction ms as [|y ms IH]; cbn [binding_conflict]; [done|]. intros Hb.
  repeat case_match; simplify_eq; bool_to_prop; subst; try (split; [done|left]);
    destruct IH as [-> ?]; try done; (split; [done|by right]).
Qed.

Lemma denied_with_member s m x : denied (with_member s m) x = denied s x.
Proof. done. Qed.

Lemma with_member_valid s m :
  valid_registry s -> valid_member s m -> (forall x, x ∈ members s -> compatible s x m) -> valid_registry (with_member s m).
Proof. intros [Hm Hr] Hv Hc. split; [|done]. by apply (valid_members_snoc s (members s) m). Qed.

Lemma with_member_authorized s m now x : authorized s now x -> authorized (with_member s m) now x.
Proof.
  assert (Hc : forall y, candidate s now y -> candidate (with_member s m) now y).
  { intros y (Hy & ? & ?). split; [|done]. apply elem_of_app. by left. }
  induction 1 as [y Hy Hr|y p Hy Hby Hd _ IH]; [by apply authorized_root; [apply Hc|]|].
  eapply authorized_delegated; [by apply Hc|done..].
Qed.

(** What an approval checks. *)
Lemma approve_Ok s v a local m :
  approve_with_authority s v a local = Ok m ->
  exists e, effective_members s (ap_created_at a) = Ok e
    /\ m = mkMember (ve_network_id v) (ve_device_id v) (ve_request v) (ap_kind a) (ap_permissions a)
             (ap_approved_by a) (ap_independent_admin a) true (ap_created_at a) (ap_expires_at a)
    /\ member_validate m = Ok tt /\ network_id m = net_id (network s) /\ denied s m = Ok false
    /\ is_ready s e m = true /\ (independent_admin m = true -> local = true)
    /\ (binding_conflict m (members s) = None \/ m ∈ members s).
Proof.
  unfold approve_with_authority. destruct (effective_members _ _) as [e|]; [|done].
  set (m' := mkMember _ _ _ _ _ _ _ _ _ _). destruct (member_validate m') as [[]|] eqn:Ev; [|done].
  case_bool_decide as En; [done|]. destruct (denied s m') as [[]|] eqn:Ed; [done| |done].
  destruct (independent_admin m' && negb local) eqn:Ei; [done|].
  destruct (match approved_by m' with None => _ | Some _ => _ end) as [u|] eqn:Ea; [|done]. intros Hb.
  assert (m = m' /\ (binding_conflict m' (members s) = None \/ m' ∈ members s)) as [-> Hbind].
  { destruct (binding_conflict m' (members s)) as [[x|]|] eqn:Eb; [|done|].
    - injection Hb as <-. apply binding_conflict_Ok in Eb as [-> ?]. auto.
    - injection Hb as <-. auto. }
  exists e. do 2 (split; [done|]). split; [done|].
  split; [destruct (decide (network_id m' = net_id (network s))); tauto|]. split; [done|].
  split; [|split; [by destruct (independent_admin m'), local|done]].
  unfold is_ready. destruct (approved_by m') as [parent|] eqn:Eby.
  - destruct (e !! parent) as [p|]; [|done]. by destruct (delegated_by m' p).
  - destruct (independent_admin m'); [done|]. rewrite andb_false_r in Ea. cbn [orb].
    destruct (_ || _) eqn:Ec in Ea; [done|]. apply orb_false_iff in Ec as [Ec _]. apply orb_false_iff in Ec as [E1 E2].
    apply bool_decide_eq_false in E1. apply negb_false_iff in E2. rewrite E2, andb_true_r. apply bool_decide_eq_true.
    destruct (decide (device_id m' = initial_admin (network s))); tauto.
Qed.

(** An approval takes effect and disturbs nobody.  When a server approves a verified
    enrollment, the registry with the new record is valid, the new member is effective from
    that moment on, with the permissions that were approved, and everyone who was effective
    at any time still is.  It was approved by an effective member that may delegate this
    much, or bootstraps the descriptor's initial administrator, or is an independent
    administrator that a local operator admitted. *)
Lemma approval_takes_effect s v a local m :
  approve_with_authority s v a local = Ok m ->
  permissions m = ap_permissions a /\ device_id m = ve_device_id v
  /\ exists e e', effective_members s (ap_created_at a) = Ok e
    /\ effective_members (with_member s m) (ap_created_at a) = Ok e'
    /\ e' !! device_id m = Some m
    /\ (forall now x, authorized s now x -> authorized (with_member s m) now x)
    /\ match approved_by m with
       | Some parent => exists p, e !! parent = Some p /\ delegated_by m p = true
       | None => (independent_admin m = true /\ local = true)
                 \/ (device_id m = initial_admin (network s) /\ network_admin (permissions m) = true)
       end.
Proof.
  intros (e & He & Em & Hv & Hn & Hd & Hr & Hl & Hb)%approve_Ok. rewrite Em. do 2 (split; [done|]). rewrite <- Em.
  pose proof (effective_inv _ _ _ He) as [Hvs Hel].
  assert (Hmv : wg_verified m = true) by (by rewrite Em).
  assert (Hvalid : valid_registry (with_member s m)).
  { apply with_member_valid; [done|split_and!; [done..|by rewrite Hd]|]. intros x Hx. destruct Hb as [Hb|Hin].
    - split; intros Hxv; [|destruct Hxv as [Hxv _]]; pose proof (binding_conflict_None m _ x Hb Hx Hxv) as (B1 & B2 & B3 & B4); [done|].
      intros _ [?|[?|E]]; [done..|]. exfalso. apply B4. rewrite Hn.
      assert (network_id x = net_id (network s)) as ->; [|done].
      destruct Hvs as [[Hf _] _]. rewrite Forall_forall in Hf. by apply Hf.
    - by apply (proj2 (proj1 Hvs)). }
  destruct (effective_members_spec (with_member s m) (ap_created_at a) Hvalid) as (e' & He' & Hl').
  exists e, e'. do 2 (split; [done|]).
  assert (Hc : candidate (with_member s m) (ap_created_at a) m).
  { split; [apply elem_of_app; right; left|]. split; [done|].
    pose proof (proj2 (proj2 (member_validate_Ok m Hv))) as Hexp.
    unfold live. rewrite Em in Hexp |- *. cbn [created_at expires_at] in *. rewrite Z.leb_refl.
    unfold expires_by in Hexp. destruct (ap_expires_at a); [|done]. cbn [andb]. lia. }
  split; [|split; [intros now x; apply with_member_authorized|]].
  - apply Hl'. split; [|done]. eapply (is_ready_authorized (with_member s m) _ e); [done| |done].
    intros id p [Hp <-]%Hel. split; [by apply with_member_authorized|done].
  - unfold is_ready in Hr. destruct (approved_by m) as [parent|].
    + destruct (e !! parent) as [p|]; [|done]. eauto.
    + apply orb_true_iff in Hr as [?|Hr]; [left; auto|]. bool_to_prop. by right.
Qed.

(** ** Revocations *)

Definition with_revocation s (r : Revocation) : RegistrySnapshot :=
  mkSnapshot (network s) (members s) (revocations s ++ [r]) (acks s).

(** A revocation hits a device and every device with one of its keys. *)
Definition hits (r : Revocation) m : Prop :=
  target r = device_id m \/ rev_wg_fingerprint r = wg_fingerprint (wg_of m)
  \/ Ok (rev_ssh_fingerprint r) = ssh_fingerprint (ssh_of m).

(** Who approved a member, at the time [now]. *)
Definition approver s now m p : Prop := approved_by m = Some (device_id p) /\ authorized s now p.

Lemma denied_with_revocation s r m d :
  denied s m = Ok d -> exists d', denied (with_revocation s r) m = Ok d' /\ (d' = false <-> d = false /\ ~ hits r m).
Proof.
  unfold denied, hits. fold (wg_of m) (ssh_of m). destruct (ssh_fingerprint (ssh_of m)) as [f|]; [|done]. intros [= <-].
  eexists. split; [done|]. unfold any. cbn [revocations with_revocation]. rewrite existsb_app, orb_false_iff.
  apply and_iff_compat_l. cbn [existsb]. rewrite orb_false_r, !orb_false_iff, !bool_decide_eq_false.
  split; [|intros Hn; split_and!; intros E; apply Hn; auto; right; right; congruence].
  intros [[? ?] Hf] [?|[?|E]]; [done..|]. injection E as E. done.
Qed.

Lemma undenied_with_revocation s r m :
  is_ok (denied s m) = true -> undenied (with_revocation s r) m <-> undenied s m /\ ~ hits r m.
Proof.
  unfold undenied. destruct (denied s m) as [d|] eqn:Ed; [|done]. intros _.
  destruct (denied_with_revocation s r m d Ed) as (d' & -> & Hd). split.
  - intros [? [= ->]]. destruct (proj1 Hd eq_refl) as [-> ?]. done.
  - intros [[? [= ->]] ?]. split; [done|]. f_equal. by apply Hd.
Qed.

Lemma with_revocation_valid s r :
  valid_registry s -> (forall x, x ∈ revocations s -> rev_id x = rev_id r -> x = r) -> valid_registry (with_revocation s r).
Proof.
  intros [[Hf Hc] Hr] Hu. rewrite Forall_forall in Hf.
  assert (Hok : forall m, m ∈ members s -> wg_verified m = true -> is_ok (denied s m) = true)
    by (intros m Hm; apply (Hf m Hm)).
  split; [split|].
  - apply Forall_forall. intros m Hm. destruct (Hf m Hm) as (? & ? & Hd). split_and!; [done..|].
    intros Hv. specialize (Hd Hv). destruct (denied s m) as [d|] eqn:Ed; [|done].
    by destruct (denied_with_revocation s r m d Ed) as (d' & -> & _).
  - intros m m' Hm Hm'. destruct (Hc m m' Hm Hm') as [H1 H2]. split; [done|]. intros Hu1 Hu2. apply H2.
    + apply (undenied_with_revocation s r m); [apply Hok; [done|apply Hu1]|done].
    + apply (undenied_with_revocation s r m'); [apply Hok; [done|apply Hu2]|done].
  - intros a b Ha Hb. cbn [revocations with_revocation] in Ha, Hb. rewrite elem_of_app, list_elem_of_singleton in Ha, Hb.
    destruct Ha as [Ha| ->], Hb as [Hb| ->]; [by apply Hr|by apply Hu|intros; symmetry; by apply Hu|done].
Qed.

Lemma candidate_with_revocation s r now m :
  valid_registry s -> candidate (with_revocation s r) now m <-> candidate s now m /\ ~ hits r m.
Proof.
  intros [[Hf _] _]. rewrite Forall_forall in Hf. unfold candidate. cbn [members with_revocation]. split.
  - intros (Hm & Hu & Hl). apply undenied_with_revocation in Hu as [Hu Hn]; [done|]. apply (Hf m Hm). apply Hu.
  - intros ((Hm & Hu & Hl) & Hn). split_and!; [done| |done]. apply undenied_with_revocation; [|done].
    apply (Hf m Hm). apply Hu.
Qed.

(** A revocation removes exactly those whose chain of approvals it hits. *)
Lemma authorized_with_revocation s r now m :
  valid_registry s ->
  authorized (with_revocation s r) now m
  <-> authorized s now m /\ forall p, rtc (approver s now) m p -> ~ hits r p.
Proof.
  intros Hv. split.
  - induction 1 as [m Hc Hr|m p Hc Hby Hd Hp [IHa IHh]].
    + apply (candidate_with_revocation s r now m Hv) in Hc as [Hc Hn]. split; [by apply authorized_root|].
      intros p Hp. inversion Hp as [|x y z [Hxy _]]; subst; [done|]. destruct Hr as [Hr _]. congruence.
    + apply (candidate_with_revocation s r now m Hv) in Hc as [Hc Hn]. split; [by eapply authorized_delegated|].
      intros q Hq. inversion Hq as [|x y z [Hxy Hya] Hyz]; subst; [done|].
      assert (y = p) as ->; [|by apply IHh].
      apply (candidate_unique s now); [done|by apply authorized_candidate..|congruence].
  - intros [Ha Hh]. induction Ha as [m Hc Hr|m p Hc Hby Hd Hp IH].
    + apply authorized_root; [|done]. apply candidate_with_revocation; [done|]. split; [done|]. by apply Hh.
    + eapply authorized_delegated; [|done..|].
      * apply candidate_with_revocation; [done|]. split; [done|]. by apply Hh.
      * apply IH. intros q Hq. apply Hh. by eapply rtc_l.
Qed.

Lemma plan_revocation_Ok s id by_ tgt now r :
  plan_revocation s id by_ tgt now = Ok r ->
  valid_registry s /\ rev_id r = id /\ target r = tgt /\ captured_servers r = server_ids s
  /\ (exists a m, authorized s now a /\ device_id a = by_ /\ network_admin (permissions a) = true
       /\ m ∈ members s /\ device_id m = tgt /\ wg_verified m = true /\ hits r m
       /\ (is_server (kind m) = true -> server_admin (permissions a) = true))
  /\ (forall x, x ∈ revocations s -> rev_id x = rev_id r -> x = r).
Proof.
  unfold plan_revocation, permissions_of. destruct (effective_members s now) as [e|] eqn:He; [|done].
  destruct (effective_inv _ _ _ He) as [Hv Hl]. destruct (e !! by_) as [a|] eqn:Ea; [|done]. apply Hl in Ea as [Ha <-].
  destruct (network_admin (permissions a)) eqn:En; [|done]. cbn [negb].
  destruct (find_first _ (members s)) as [m|] eqn:Em; [|done]. apply find_first_Some in Em as [Hmt Hm].
  bool_to_prop. destruct (is_server (kind m) && negb (server_admin (permissions a))) eqn:Es; [done|].
  destruct (ssh_fingerprint _) as [f|] eqn:Ef; [|done]. cbv zeta. destruct (any _ (revocations s)) eqn:Eany; [done|].
  intros E. assert (E' : r = mkRevocation id tgt (wg_fingerprint (er_wg_public_key (request m))) f (server_ids s) (device_id a) now)
    by congruence.
  clear E. split; [done|]. do 3 (split; [by rewrite E'|]). split.
  - exists a, m. do 6 (split; [done|]). split; [left; by rewrite E'|]. intros Hk. rewrite Hk in Es. by destruct (server_admin _).
  - intros x Hx Hid. rewrite any_false in Eany. specialize (Eany x Hx). cbn beta in Eany. revert Eany. rewrite <- E' in *. intros Eany.
    rewrite bool_decide_eq_true_2 in Eany by done.
    cbn [andb] in Eany. apply bool_decide_eq_false in Eany. destruct (decide (x = r)); tauto.
Qed.

Lemma revocation_progress_spec s r boots :
  valid_registry s -> r ∈ revocations s ->
  exists prog, revocation_progress s (rev_id r) boots = Ok prog
    /\ forall x, (x ∈ applied_servers prog <-> x ∈ captured_servers r ∪ server_ids s /\ has_applied s (rev_id r) boots x = true)
            /\ (x ∈ pending_servers prog <-> x ∈ captured_servers r ∪ server_ids s /\ has_applied s (rev_id r) boots x = false).
Proof.
  intros Hv Hr. unfold revocation_progress. rewrite (proj2 (registry_validate_iff s) Hv).
  destruct (find_first _ (revocations s)) as [r'|] eqn:Ef.
  - apply find_first_Some in Ef as [Hid Hin]. bool_to_prop. assert (r' = r) as -> by (by apply (proj2 Hv)).
    eexists. split; [done|]. intros x. cbn [applied_servers pending_servers]. rewrite !elem_of_filter. tauto.
  - apply (proj1 (find_first_None _ _)) with (x := r) in Ef; [|done]. by rewrite bool_decide_eq_true_2 in Ef.
Qed.

Lemma has_applied_iff s (id : str) (boots : gmap str str) (x : str) :
  has_applied s id boots x = true <-> exists b, boots !! x = Some b /\ exists a, a ∈ acks s
    /\ ack_revocation a = id /\ ack_server a = x /\ ack_boot a = b.
Proof.
  unfold has_applied. destruct (boots !! x) as [b|]; [|split; [done|by intros (? & ? & _)]].
  rewrite any_true. split.
  - intros (a & Ha & Hb). bool_to_prop. eauto 10.
  - intros (b' & [= <-] & a & Ha & E1 & E2 & E3). exists a. split; [done|]. by rewrite !bool_decide_eq_true_2.
Qed.

(** A revocation takes effect at once and cuts everything below it.  Only an effective
    network administrator plans one, and only a server administrator one of a server.  The
    registry with it is valid; at every time the members are exactly those that were
    members before and whose chain of approvals meets no device that the revocation hits:
    neither the device itself, nor another device with one of its keys.  Its progress is
    exact: the servers that were known when it was planned or are known now are split into
    those that acknowledged it since their current boot and the others. *)
Lemma revocation_cuts_chain s id by_ tgt now r :
  plan_revocation s id by_ tgt now = Ok r ->
  (exists a m, authorized s now a /\ device_id a = by_ /\ network_admin (permissions a) = true
     /\ m ∈ members s /\ device_id m = tgt /\ (is_server (kind m) = true -> server_admin (permissions a) = true))
  /\ registry_validate (with_revocation s r) = Ok tt
  /\ (forall t m, authorized (with_revocation s r) t m
        <-> authorized s t m /\ forall p, rtc (approver s t) m p -> ~ hits r p)
  /\ (forall t e, effective_members (with_revocation s r) t = Ok e -> e !! tgt = None)
  /\ (forall boots, exists prog, revocation_progress (with_revocation s r) id boots = Ok prog
        /\ forall x, x ∈ server_ids s ->
             x ∉ applied_servers prog ∩ pending_servers prog /\ x ∈ applied_servers prog ∪ pending_servers prog
             /\ (x ∈ applied_servers prog <-> exists b, boots !! x = Some b /\ exists a, a ∈ acks s
                   /\ ack_revocation a = id /\ ack_server a = x /\ ack_boot a = b)).
Proof.
  intros (Hv & Hid & Ht & Hcap & (a & m & Ha & Hby & Hn & Hm & Hd & _ & _ & Hk) & Hu)%plan_revocation_Ok.
  pose proof (with_revocation_valid s r Hv Hu) as Hv'. split; [exists a, m; auto 10|].
  split; [by apply registry_validate_iff|]. split; [intros t x; by apply authorized_with_revocation|]. split.
  - intros t e (_ & Hl)%effective_inv. destruct (e !! tgt) as [x|] eqn:Ex; [|done].
    apply Hl in Ex as [Hx Hxd]. apply (authorized_with_revocation s r t x Hv) in Hx as [_ Hx].
    exfalso. apply (Hx x); [done|]. left. congruence.
  - intros boots. rewrite <- Hid. destruct (revocation_progress_spec (with_revocation s r) r boots Hv') as (prog & Hp & Hx).
    { apply elem_of_app. right. left. }
    exists prog. split; [done|]. intros x Hs. destruct (Hx x) as [H1 H2].
    assert (Hreq : x ∈ captured_servers r ∪ server_ids (with_revocation s r)) by set_solver.
    rewrite <- (has_applied_iff (with_revocation s r) (rev_id r) boots x).
    rewrite elem_of_intersection, elem_of_union, H1, H2.
    destruct (has_applied (with_revocation s r) (rev_id r) boots x); split_and!; (tauto || (intros [[_ ?] [_ ?]]; done) || auto).
Qed.

(** C25: delegation never escalates, and a revocation cuts everything below it.  Every effective
    member is verified, live and not revoked, and goes back to an effective root that is a
    network administrator: it lives no longer than the root, and unless the root is a server
    administrator it is no server administrator and no server itself, logs in as nobody or as
    the root's own SSH user, and deploys only what the root deploys.  Only an effective network
    administrator plans a revocation, and only a server administrator one of a server; with it,
    at every time, the members are exactly those that were members before and whose chain of
    approvals meets no device that it hits, by its id or by one of its keys; and its progress
    splits the servers exactly by their acknowledgement since their current boot. *)
Theorem delegation_and_revocation s :
  (forall now e id m,
     effective_members s now = Ok e -> e !! id = Some m ->
     wg_verified m = true /\ live m now = true /\ denied s m = Ok false
     /\ (exists r, e !! device_id r = Some r /\ is_root s r /\ network_admin (permissions r) = true
           /\ (m = r \/ within r m))
     /\ (forall u, ssh_user (permissions m) = Some u -> u = bs "tako" \/ u = bs "root" ->
          network_admin (permissions m) = true /\ server_admin (permissions m) = true))
  /\ (forall id by_ tgt now r,
     plan_revocation s id by_ tgt now = Ok r ->
     (exists a m, authorized s now a /\ device_id a = by_ /\ network_admin (permissions a) = true
        /\ m ∈ members s /\ device_id m = tgt /\ (is_server (kind m) = true -> server_admin (permissions a) = true))
     /\ registry_validate (with_revocation s r) = Ok tt
     /\ (forall t m, authorized (with_revocation s r) t m
           <-> authorized s t m /\ forall p, rtc (approver s t) m p -> ~ hits r p)
     /\ (forall t e, effective_members (with_revocation s r) t = Ok e -> e !! tgt = None)
     /\ (forall boots, exists prog, revocation_progress (with_revocation s r) id boots = Ok prog
           /\ forall x, x ∈ server_ids s ->
                x ∉ applied_servers prog ∩ pending_servers prog /\ x ∈ applied_servers prog ∪ pending_servers prog
                /\ (x ∈ applied_servers prog <-> exists b, boots !! x = Some b /\ exists a, a ∈ acks s
                      /\ ack_revocation a = id /\ ack_server a = x /\ ack_boot a = b))).
Proof.
  split.
  - intros now e id m. apply delegation_never_escalates.
  - intros id by_ tgt now r. apply revocation_cuts_chain.
Qed.
End Props.

(** ** An instance: a network of an administrator, a laptop and a server *)

Definition demo_x509 : X509Api := {|
  Cert := str; cert_from_pem := Some; cert_to_pem := Some; cert_spki_der := Some |}.

(** The last 32 bytes. *)
Definition tail_sha256 : Sha256Api := {| sha256 s := rev (take 32 (rev s ++ replicate 32 "0"%char)) |}.

#[local] Existing Instances demo_ssh demo_x25519 tail_sha256 demo_x509.

Definition demo_device (n : Z) (k : DeviceKind) (name : str) : option VerifiedEnrollment :=
  let keys := mkKeys ((n * 2 ^ 248)%Z : @XPrivate demo_x25519) (name : @SshPrivate demo_ssh) in
  match enrollment_request_expiring keys (Some demo_network) k name None (bs "request-00000001") with
  | Ok r => match er_device_id r with Some d => Some (mkVerified r demo_network d) | None => None end
  | Err _ => None
  end.

Definition no_request : VerifiedEnrollment :=
  mkVerified (mkEnrollment 0 None LaptopKind [] None [] [] [] None []) [] [].
Definition admin_device : VerifiedEnrollment := default no_request (demo_device 1 LaptopKind (bs "admin")).
Definition laptop_device : VerifiedEnrollment := default no_request (demo_device 2 LaptopKind (bs "laptop")).

Definition demo_descriptor : NetworkDescriptor := mkNetwork demo_network (ve_device_id admin_device).
Definition empty_registry : RegistrySnapshot := mkSnapshot demo_descriptor [] [] [].
Definition admin_approval : Approval := mkApproval Laptop (mkPermissions true false None {[bs "shop/production"]}) None false 10 (Some 1000%Z).
Definition laptop_approval : Approval :=
  mkApproval Laptop (mkPermissions false false None {[bs "shop/production"]}) (Some (ve_device_id admin_device)) false 20 (Some 500%Z).

Definition member_of (v : VerifiedEnrollment) (a : Approval) : Member :=
  mkMember (ve_network_id v) (ve_device_id v) (ve_request v) (ap_kind a) (ap_permissions a) (ap_approved_by a)
    (ap_independent_admin a) true (ap_created_at a) (ap_expires_at a).

Definition demo_admin : Member := member_of admin_device admin_approval.
Definition demo_laptop : Member := member_of laptop_device laptop_approval.
Definition demo_registry : RegistrySnapshot := with_member (with_member empty_registry demo_admin) demo_laptop.

Lemma approval_takes_effect_witness :
  exists e', effective_members (with_member (with_member empty_registry demo_admin) demo_laptop) (ap_created_at laptop_approval) = Ok e'
    /\ e' !! device_id demo_laptop = Some demo_laptop.
Proof.
  assert (E : approve_with_authority (with_member empty_registry demo_admin) laptop_device laptop_approval false = Ok demo_laptop)
    by (vm_compute; reflexivity).
  destruct (approval_takes_effect _ _ _ _ _ E) as (_ & _ & e & e' & _ & He & Hm & _). exact (ex_intro _ e' (conj He Hm)).
Defined.

Lemma demo_laptop_effective :
  match effective_members demo_registry 30 with Ok e => e !! device_id demo_laptop | Err _ => None end = Some demo_laptop.
Proof. vm_compute. reflexivity. Qed.

Definition demo_revocation : Revocation :=
  match plan_revocation demo_registry (bs "revocation-00001") (ve_device_id admin_device) (ve_device_id laptop_device) 30 with
  | Ok r => r
  | Err _ => mkRevocation [] [] [] [] ∅ [] 0
  end.

Lemma delegation_and_revocation_witness :
  (exists e r, effective_members demo_registry 30 = Ok e /\ e !! device_id r = Some r /\ network_admin (permissions r) = true)
  /\ registry_validate (with_revocation demo_registry demo_revocation) = Ok tt.
Proof.
  destruct (delegation_and_revocation demo_registry) as [Hdelegation Hrevocation]. split.
  - pose proof demo_laptop_effective as E2. destruct (effective_members demo_registry 30) as [e|] eqn:E1; [|discriminate E2].
    destruct (Hdelegation _ _ _ _ E1 E2) as (_ & _ & _ & (r & H1 & _ & H2 & _) & _).
    exact (ex_intro _ e (ex_intro _ r (conj eq_refl (conj H1 H2)))).
  - assert (E : plan_revocation demo_registry (bs "revocation-00001") (ve_device_id admin_device) (ve_device_id laptop_device) 30
                = Ok demo_revocation) by (vm_compute; reflexivity).
    exact (proj1 (proj2 (Hrevocation _ _ _ _ _ E))).
Defined.
