(* ===== verification/NetServices.v ===== *)
(** * Services and profiles of the server network (tako-network/src/services.rs, profile.rs)

    Leases by which servers announce the apps they run, the host names of services, and the
    checks of a profile that a device imports.  JSON is a parameter. *)

From S2P Require Import Prelude RustStr Net Codec Sql Enrollment Registry RegistryProps.

Definition SERVICE_NAMESPACE : str := bs "tako-native-services-v1".
Definition MAX_LEASE_SECONDS : Z := 30.
Definition MAX_SERVICES : nat := 256.
Definition MAX_LEASE_BYTES : nat := 64 * 1024.

Record ServiceLease := mkLease {
  lease_network_id : str;
  lease_server_id : str;
  issued_at : Z;
  lease_expires_at : Z;
  lease_apps : list str;
  lease_signature : str;
}.

(** serde_json on a lease and on its signed fields. *)
Class LeaseJson := {
  lease_from_json : str -> option ServiceLease;
  transcript_json : str * str * str * Z * Z * list str -> option str;
}.

(** [windows(2)]: some pair of neighbours is not increasing. *)
Fixpoint unsorted (l : list str) : bool :=
  match l with
  | a :: ((b :: _) as l') => str_leb b a || unsorted l'
  | _ => false
  end.

Definition lease_validate (l : ServiceLease) : result unit NetError :=
  if (MAX_SERVICES <? length (lease_apps l))%nat
     || unsorted (lease_apps l)
     || (2048 <? length (lease_signature l))%nat
     || (lease_expires_at l <=? issued_at l)%Z
     || (MAX_LEASE_SECONDS <? lease_expires_at l - issued_at l)%Z
  then invalid "service lease" "invalid lifetime, ordering, or size"
  else Ok tt.

Section Services.
Context {S : SshApi} {X : X25519Api} {H : Sha256Api} {C : X509Api} {J : LeaseJson}.

Definition lease_transcript (l : ServiceLease) : result str NetError :=
  ok_or (transcript_json (SERVICE_NAMESPACE, lease_network_id l, lease_server_id l, issued_at l, lease_expires_at l, lease_apps l))
    JsonFailed.

(** A [BTreeSet] iterates in order. *)
Definition lease_sign (k : LocalDeviceKeys) (network_id : str) (apps : gset str) (now : Z) : result ServiceLease NetError :=
  let? server_id := keys_device_id k network_id ServerKind in
  if (u64_max <? now + MAX_LEASE_SECONDS)%Z then invalid "service lease" "clock overflow"
  else
    let unsigned signature :=
      mkLease network_id server_id now (now + MAX_LEASE_SECONDS) (sort_by str_leb (elements apps)) signature in
    let? _ := lease_validate (unsigned []) in
    let? bytes := lease_transcript (unsigned []) in
    let? g := ssh (ssh_sign (keys_ssh k) SERVICE_NAMESPACE bytes) in
    let? pem := ssh (sig_to_pem g) in
    Ok (unsigned pem).

Definition lease_from_slice (bytes : str) : result ServiceLease NetError :=
  if (MAX_LEASE_BYTES <? length bytes)%nat then invalid "service lease" "too large"
  else
    let? lease := ok_or (lease_from_json bytes) JsonFailed in
    let? _ := lease_validate lease in
    Ok lease.

Definition verify_member (l : ServiceLease) (network : str) (m : Member) (now : Z) : result str NetError :=
  let? _ := lease_validate l in
  if bool_decide (lease_network_id l <> network) || bool_decide (network_id m <> network)
     || bool_decide (device_id m <> lease_server_id l) || negb (is_server (kind m))
     || negb (server_admin (permissions m)) || (now <? issued_at l)%Z || (lease_expires_at l <=? now)%Z
  then invalid "service lease" "wrong network, publisher, or time"
  else
    let? signature := ssh (sig_from_pem (lease_signature l)) in
    if negb (sig_is_sha256 signature) then invalid "service lease" "noncanonical signature"
    else
      let? pem := ssh (sig_to_pem signature) in
      if bool_decide (pem <> lease_signature l) then invalid "service lease" "noncanonical signature"
      else
        let? key := ssh (from_openssh (er_ssh_public_key (request m))) in
        let? bytes := lease_transcript l in
        if key_verify key SERVICE_NAMESPACE bytes signature
        then Ok (address network (er_wg_public_key (request m)))
        else Err SshFailed.

Definition lease_verify (l : ServiceLease) (registry : RegistrySnapshot) (now : Z) : result str NetError :=
  let? effective := effective_members registry now in
  match effective !! lease_server_id l with
  | None => Err (NotEffective (lease_server_id l))
  | Some m => verify_member l (net_id (network registry)) m now
  end.

(** ** Profiles (profile.rs) *)

Record NetworkPublicProfile := mkProfile {
  pr_request : EnrollmentRequest;
  pr_trusted_servers : gmap str ServerInfo;
  pr_snapshot : RegistrySnapshot;
}.

Record PendingApprovalProfile := mkPendingProfile {
  pp_request : EnrollmentRequest;
  pp_pending_id : str;
  pp_issuer : str;
  pp_expires_at : Z;
  pp_trusted_servers : gmap str ServerInfo;
  pp_snapshot : RegistrySnapshot;
}.

Definition validate_device_request (r : EnrollmentRequest) (k : LocalDeviceKeys) : result unit NetError :=
  let? _ := enrollment_verify r in
  let? s := ssh_public_key k in
  if bool_decide (er_ssh_public_key r <> s) then Err ProfileMismatch
  else
    let? w := wg_public_key k in
    if bool_decide (er_wg_public_key r <> w) then Err ProfileMismatch else Ok tt.

Definition server_pins (members : gmap str Member) : gmap str ServerInfo :=
  omap (fun m => match kind m with Server server => Some server | Laptop => None end) members.

Definition profile_validate_for (p : NetworkPublicProfile) (k : LocalDeviceKeys) (now : Z) : result unit NetError :=
  let? _ := validate_device_request (pr_request p) k in
  let? id := device_id_for (pr_request p) (net_id (network (pr_snapshot p))) in
  let? effective := effective_members (pr_snapshot p) now in
  match effective !! id with
  | None => Err ProfileMismatch
  | Some own =>
      if bool_decide (request own <> pr_request p) then Err ProfileMismatch
      else
        let servers := server_pins effective in
        if bool_decide (servers = ∅) || bool_decide (servers <> pr_trusted_servers p) then Err ProfileMismatch else Ok tt
  end.

Definition validate_connection_for (p : PendingApprovalProfile) (k : LocalDeviceKeys) (now : Z) : result unit NetError :=
  let? _ := validate_device_request (pp_request p) k in
  let? _ := device_id_for (pp_request p) (net_id (network (pp_snapshot p))) in
  let? effective := effective_members (pp_snapshot p) now in
  let servers := server_pins effective in
  if bool_decide (servers <> pp_trusted_servers p)
     || match servers !! pp_issuer p with
        | Some server => match https_certificate_pem server with Some _ => false | None => true end
        | None => true
        end
  then Err ProfileMismatch
  else Ok tt.

Definition pending_validate_for (p : PendingApprovalProfile) (k : LocalDeviceKeys) (now : Z) : result unit NetError :=
  if (pp_expires_at p <=? now)%Z || expired_at (er_expires_at (pp_request p)) now
  then invalid "pending approval" "expired"
  else validate_connection_for p k now.
End Services.

(** ** Host names of services *)

Definition service_hostname (app network : str) : str :=
  match split_once "/"%char app with
  | Some (name, env) => name ++ "."%char :: env ++ "."%char :: hex network ++ bs ".tako.internal"
  | None => []
  end.

Inductive ServiceHost := PublicHost | ReservedHost | AppHost (app : str).

#[global] Instance ServiceHost_eq_dec : EqDecision ServiceHost.
Proof. solve_decision. Defined.

(** [u8::is_ascii_whitespace]. *)
Definition is_ascii_whitespace (c : ascii) : bool :=
  let b := byte_of c in ((b =? 32) || (b =? 9) || (b =? 10) || (b =? 12) || (b =? 13))%Z.

Definition internal_host (authority : str) : str :=
  let host := match split_once ":"%char authority with Some (h, _) => h | None => authority end in
  to_ascii_lowercase (trim_end_matches "."%char (trim host)).

Definition classify_host (authority network : str) : ServiceHost :=
  let host := internal_host authority in
  if negb (str_eqb host (bs "tako.internal")) && negb (ends_with host (bs ".tako.internal")) then PublicHost
  else if (254 <? length authority)%nat
          || any is_ascii_whitespace authority
          || match split_once ":"%char authority with
             | Some (_, port) =>
                 match port with [] => true | _ => false end
                 || negb (all is_ascii_digit port)
                 || match parse_u16 port with Some _ => false | None => true end
             | None => false
             end
  then ReservedHost
  else
    match strip_suffix ("."%char :: hex network ++ bs ".tako.internal") host with
    | None => ReservedHost
    | Some labels =>
        match split_once "."%char labels with
        | None => ReservedHost
        | Some (app, env) =>
            match text_from_str "AppEnv" app_env_ok (app ++ "/"%char :: env) with
            | Ok scope => AppHost scope
            | Err _ => ReservedHost
            end
        end
    end.

Example classify_demo :
  (classify_host (bs "shop.production.000102030405060708090a0b0c0d0e0f.tako.internal:8443")
     (of_byte <$> [0;1;2;3;4;5;6;7;8;9;10;11;12;13;14;15]%Z),
   classify_host (bs "x.tako.internal") [], classify_host (bs "tako.internal.example.com") [])
  = (AppHost (bs "shop/production"), ReservedHost, PublicHost).
Proof. vm_compute. reflexivity. Qed.

(** ** Visible ASCII text is its own trimmed, lower-case form *)

Definition host_char (c : ascii) : bool :=
  is_ascii_lowercase c || is_ascii_digit c || bool_decide (c = "-"%char) || bool_decide (c = "_"%char) || bool_decide (c = "."%char).

Lemma host_char_byte c : host_char c = true -> (45 <= byte_of c <= 57 \/ byte_of c = 95 \/ 97 <= byte_of c <= 122)%Z.
Proof.
  unfold host_char, is_ascii_lowercase, is_ascii_digit, between. intros E.
  repeat (apply orb_true_iff in E as [E|E]); bool_to_prop; subst; try lia.
  - change (byte_of "-"%char) with 45%Z. lia.
  - change (byte_of "_"%char) with 95%Z. lia.
  - change (byte_of "."%char) with 46%Z. lia.
Qed.

Lemma host_char_strip c r : host_char c = true -> ws_strip (c :: r) = None /\ ws_strip_rev (c :: r) = None.
Proof.
  intros Hb%host_char_byte. unfold ws_strip, ws_strip_rev. rewrite fmap_cons. set (b := byte_of c) in *. clearbody b.
  assert (((9 <=? b) && (b <=? 13) || (b =? 32))%Z = false) as -> by lia.
  split; repeat (case_match; try done; try (exfalso; lia)).
Qed.

Lemma host_char_other c :
  host_char c = true ->
  to_ascii_lowercase_char c = c /\ is_ascii_whitespace c = false /\ c <> ":"%char /\ c <> "/"%char.
Proof.
  intros Hc. assert (c <> "/"%char) as Hslash by (intros ->; discriminate Hc). pose proof (host_char_byte c Hc) as Hb.
  unfold to_ascii_lowercase_char, is_ascii_whitespace.
  replace ((65 <=? byte_of c) && (byte_of c <=? 90))%Z with false by lia.
  split; [done|]. split; [lia|]. split; [|done]. intros ->. change (byte_of ":"%char) with 58%Z in Hb. lia.
Qed.

Lemma strip_while_None step fuel s : step s = None -> strip_while step fuel s = s.
Proof. destruct fuel; simpl; [done|]. by intros ->. Qed.

Lemma trim_host s : Forall (fun c => host_char c = true) s -> trim s = s.
Proof.
  intros Hs. unfold trim, trim_end, trim_start.
  assert (strip_while ws_strip (length s) s = s) as ->.
  { apply strip_while_None. destruct Hs as [|c s Hc _]; [done|]. by apply host_char_strip. }
  rewrite strip_while_None, rev_involutive; [done|].
  rewrite <- (reverse_Permutation s) in Hs. rewrite rev_alt. change (rev_append s []) with (reverse s).
  destruct Hs as [|c r Hc _]; [done|]. by apply host_char_strip.
Qed.

Lemma lowercase_host s : Forall (fun c => host_char c = true) s -> to_ascii_lowercase s = s.
Proof.
  induction 1 as [|c s Hc _ IH]; [done|]. unfold to_ascii_lowercase in *. rewrite fmap_cons, IH. f_equal.
  by apply host_char_other.
Qed.

Lemma trim_end_matches_last c s d : c <> d -> trim_end_matches c (s ++ [d]) = s ++ [d].
Proof.
  intros Hd. unfold trim_end_matches. rewrite rev_app_distr. cbn [rev app trim_start_matches].
  rewrite bool_decide_eq_false_2 by done. by rewrite <- (rev_involutive (s ++ [d])), rev_app_distr.
Qed.

Lemma segment_chars s : segment s = true ->
  Forall (fun c => host_char c = true /\ c <> "."%char /\ c <> "/"%char) s /\ (length s <= 63)%nat.
Proof.
  unfold segment. destruct s as [|c0 s0]; [done|]. intros E. bool_to_prop. split; [|done].
  apply Forall_forall. intros c Hc. unfold all in *.
  match goal with E : forallb _ _ = true |- _ => rewrite forallb_forall in E; specialize (E c (proj1 (list_elem_of_In _ _) Hc)); revert E end.
  unfold host_char. intros E. split; [by rewrite E|]. split; intros ->; discriminate E.
Qed.

Lemma hex_chars s : Forall (fun c => host_char c = true) (hex s).
Proof.
  apply Forall_forall. intros c Hc. pose proof (hex_lower s) as Hl. unfold all in Hl. rewrite forallb_forall in Hl.
  specialize (Hl c (proj1 (list_elem_of_In _ _) Hc)). unfold is_lower_hex in Hl. unfold host_char, is_ascii_lowercase.
  apply orb_true_iff in Hl as [->|Hl]; [by rewrite orb_true_r|]. unfold between in *.
  assert ((97 <=? byte_of c) && (byte_of c <=? 122) = true)%Z as -> by lia. done.
Qed.

Lemma app_env_inv app :
  app_env_ok app = true -> exists name env, app = name ++ "/"%char :: env /\ split_once "/"%char app = Some (name, env)
    /\ segment name = true /\ segment env = true.
Proof.
  unfold app_env_ok. destruct (split_once "/"%char app) as [[name env]|] eqn:E; [|done]. intros Hs. bool_to_prop.
  exists name, env. split; [|done]. by apply split_once_Some in E as [-> _].
Qed.

Lemma sole_separator {A} (c : A) a b a' b' :
  a ++ c :: b = a' ++ c :: b' -> c ∉ a' -> c ∉ b' -> a = a' /\ b = b'.
Proof.
  revert a'. induction a as [|d a IH]; intros [|d' a'] E Ha Hb; simplify_eq/=; [done|set_solver|set_solver|].
  destruct (IH a') as [-> ->]; set_solver.
Qed.

Lemma app_env_split name env :
  app_env_ok (name ++ "/"%char :: env) = true -> split_once "/"%char (name ++ "/"%char :: env) = Some (name, env).
Proof.
  intros (n & e & E & -> & [Hn _]%segment_chars & [He _]%segment_chars)%app_env_inv. rewrite Forall_forall in Hn, He.
  destruct (sole_separator "/"%char name env n e E) as [-> ->]; [by intros (_ & _ & ?)%Hn|by intros (_ & _ & ?)%He|done].
Qed.

(** The name of a service is made of host characters, is short, and ends in a letter. *)
Lemma service_hostname_shape name env network :
  segment name = true -> segment env = true -> length network = 16 ->
  let h := name ++ "."%char :: env ++ "."%char :: hex network ++ bs ".tako.internal" in
  Forall (fun c => host_char c = true) h /\ (length h <= 254)%nat /\ internal_host h = h
  /\ split_once ":"%char h = None /\ any is_ascii_whitespace h = false.
Proof.
  intros [Hn Ln]%segment_chars [He Le]%segment_chars Hw h.
  assert (Hall : Forall (fun c => host_char c = true) h).
  { unfold h. rewrite Forall_app. split; [eapply Forall_impl; [exact Hn|by intros c (? & _)]|]. constructor; [done|].
    rewrite Forall_app. split; [eapply Forall_impl; [exact He|by intros c (? & _)]|]. constructor; [done|].
    rewrite Forall_app. split; [apply hex_chars|]. repeat constructor. }
  assert (Hsplit : split_once ":"%char h = None).
  { apply split_once_None. intros Hin. rewrite Forall_forall in Hall. apply Hall, host_char_other in Hin as (_ & _ & ? & _). done. }
  split; [done|]. split.
  { unfold h. rewrite !length_app. cbn [length]. rewrite !length_app. cbn [length]. rewrite length_app, hex_length, Hw. cbn. lia. }
  split; [|split; [done|]].
  - unfold internal_host. rewrite Hsplit, trim_host by done.
    assert (exists t, h = t ++ ["l"%char]) as (t & Ht).
    { exists (name ++ "."%char :: env ++ "."%char :: hex network ++ bs ".tako.interna"). unfold h.
      rewrite <- !app_assoc. cbn [app]. rewrite <- !app_assoc. cbn [app]. by rewrite <- app_assoc. }
    rewrite Ht at 1. rewrite trim_end_matches_last by done. rewrite <- Ht. by apply lowercase_host.
  - apply any_false. intros c Hc. rewrite Forall_forall in Hall. by apply Hall, host_char_other in Hc as (_ & ? & _).
Qed.

Lemma ends_with_app a b : ends_with (a ++ b) b = true.
Proof. apply ends_with_iff. by exists a. Qed.

(** The names of services are reserved and round-trip.  The host name of an app in a
    network is classified as that app; and a host is classified as
    an app only when its lower-case form, without port and final dots, is the host name of
    that app in this network.  Everything else below tako.internal is reserved, so no
    public route can capture it. *)
Lemma service_hosts_round_trip scope network :
  (app_env_ok scope = true -> length network = 16 ->
     classify_host (service_hostname scope network) network = AppHost scope)
  /\ (forall authority, classify_host authority network = AppHost scope ->
       internal_host authority = service_hostname scope network /\ app_env_ok scope = true)
  /\ (forall authority, classify_host authority network = PublicHost <->
       internal_host authority <> bs "tako.internal" /\ forall p, internal_host authority <> p ++ bs ".tako.internal").
Proof.
  split; [|split].
  - intros Ha Hw. pose proof Ha as (name & env & Happ & Hs & Hn & He)%app_env_inv. unfold service_hostname. rewrite Hs.
    destruct (service_hostname_shape name env network Hn He Hw) as (_ & Hlen & Hin & Hsp & Hws).
    set (h := name ++ "."%char :: env ++ "."%char :: hex network ++ bs ".tako.internal") in *.
    assert (Hh : h = (name ++ "."%char :: env) ++ "."%char :: hex network ++ bs ".tako.internal")
      by (unfold h; by rewrite <- app_assoc).
    unfold classify_host. rewrite Hin, Hsp, Hws.
    assert (ends_with h (bs ".tako.internal") = true) as ->.
    { replace h with ((name ++ "."%char :: env ++ "."%char :: hex network) ++ bs ".tako.internal"); [apply ends_with_app|].
      unfold h. rewrite <- app_assoc. cbn [app]. by rewrite <- app_assoc. }
    rewrite andb_false_r. destruct (Nat.ltb_spec 254 (length h)); [lia|]. cbn [orb].
    rewrite Hh, strip_suffix_app.
    rewrite (proj2 (split_once_Some "."%char (name ++ "."%char :: env) name env)).
    + unfold text_from_str. rewrite <- Happ, Ha. done.
    + split; [done|]. intros Hin'. apply segment_chars in Hn as [Hn _]. rewrite Forall_forall in Hn.
      apply Hn in Hin' as (_ & ? & _). done.
  - intros authority. unfold classify_host. destruct (negb _ && negb _); [done|].
    destruct (_ || _); [done|]. destruct (strip_suffix _ _) as [labels|] eqn:El; [|done].
    destruct (split_once "."%char labels) as [[name env]|] eqn:Es; [|done]. unfold text_from_str.
    destruct (app_env_ok (name ++ "/"%char :: env)) eqn:Ea; [|done]. cbn [negb]. intros E.
    assert (scope = name ++ "/"%char :: env) as -> by congruence. split; [|done].
    apply strip_suffix_Some in El. apply split_once_Some in Es as [-> _]. unfold service_hostname.
    rewrite (app_env_split name env Ea).
    rewrite El, <- app_assoc. done.
  - intros authority. unfold classify_host, str_eqb. split.
    + destruct (bool_decide _) eqn:E1; cbn [negb andb].
      { destruct (_ || _); [done|]. repeat case_match; done. }
      destruct (ends_with _ _) eqn:E2; cbn [negb]; [destruct (_ || _); [done|]; repeat case_match; done|].
      intros _. bool_to_prop. split; [done|]. intros p Hp. rewrite Hp, ends_with_app in E2. done.
    + intros [H1 H2]. rewrite bool_decide_eq_false_2 by done.
      destruct (ends_with _ _) eqn:E2; [|done]. apply ends_with_iff in E2 as [p Hp]. by apply H2 in Hp.
Qed.

Lemma service_hosts_round_trip_witness :
  classify_host (service_hostname (bs "shop/production") demo_network) demo_network = AppHost (bs "shop/production").
Proof. apply (service_hosts_round_trip (bs "shop/production") demo_network); reflexivity. Defined.

(** ** Leases *)

Section Leases.
Context {S : SshApi} {X : X25519Api} {H : Sha256Api} {C : X509Api} {J : LeaseJson}.
Context {SL : SshLaws S} {XL : X25519Laws X}.

(** A lease is accepted exactly while it lives, and only from the server that signed it.
    What a server signs is accepted from its member record from the second it was issued
    until 30 seconds later and refused at any other time; the result is the address of the
    server's WireGuard key.  And a lease that a registry accepts names an effective member
    that is a server with server administration, whose SSH key verifies the signature over
    every field, at a time within its life of at most 30 seconds. *)
Lemma lease_is_authentic k network_id apps now l :
  lease_sign k network_id apps now = Ok l ->
  (forall m t, Registry.network_id m = network_id -> device_id m = lease_server_id l -> is_server (kind m) = true ->
     server_admin (permissions m) = true -> ssh_public_key k = Ok (er_ssh_public_key (request m)) ->
     verify_member l network_id m t =
       if (now <=? t)%Z && (t <? now + 30)%Z then Ok (address network_id (er_wg_public_key (request m)))
       else invalid "service lease" "wrong network, publisher, or time")
  /\ (forall l' registry t addr, lease_verify l' registry t = Ok addr ->
       exists e m key g bytes,
         effective_members registry t = Ok e /\ e !! lease_server_id l' = Some m
         /\ is_server (kind m) = true /\ server_admin (permissions m) = true
         /\ addr = address (net_id (network registry)) (er_wg_public_key (request m))
         /\ from_openssh (er_ssh_public_key (request m)) = Some key /\ sig_from_pem (lease_signature l') = Some g
         /\ lease_transcript l' = Ok bytes /\ key_verify key SERVICE_NAMESPACE bytes g = true
         /\ (issued_at l' <= t < lease_expires_at l')%Z /\ (lease_expires_at l' <= issued_at l' + 30)%Z).
Proof.
  intros Hl. split.
  - unfold lease_sign in Hl. destruct (keys_device_id k network_id ServerKind) as [id|]; [|done].
    destruct (_ <? _)%Z; [done|]. cbv zeta in Hl. destruct (lease_validate _) as [[]|] eqn:Ev in Hl; [|done].
    destruct (lease_transcript _) as [bytes|] eqn:Eb in Hl; [|done].
    destruct (ssh_sign _ _ _) as [g|] eqn:Eg in Hl; [|done]. cbn [ssh ok_or] in Hl.
    destruct (sig_to_pem g) as [pem|] eqn:Ep in Hl; [|done]. apply Ok_inj in Hl. subst l.
    destruct (pem_read_back _ _ _ _ _ Eg Ep) as [Hpem Hlen], (sign_verifies _ _ _ _ Eg) as [Hsha Hv].
    intros m t Hn Hd Hk Ha Hs. cbn [lease_server_id] in Hd. unfold verify_member.
    assert (lease_validate (mkLease network_id id now (now + MAX_LEASE_SECONDS) (sort_by str_leb (elements apps)) pem) = Ok tt) as ->.
    { unfold lease_validate in Ev |- *. cbn [lease_apps lease_signature issued_at lease_expires_at length] in *.
      destruct (Nat.ltb_spec 2048 (length pem)); [lia|]. change (2048 <? 0)%nat with false in Ev. exact Ev. }
    cbn [lease_network_id lease_server_id issued_at lease_expires_at lease_signature].
    rewrite !bool_decide_eq_false_2, Hk, Ha by tauto. cbn [orb negb].
    change MAX_LEASE_SECONDS with 30%Z.
    assert ((t <? now)%Z || (now + 30 <=? t)%Z = negb ((now <=? t)%Z && (t <? now + 30)%Z)) as -> by lia.
    destruct ((now <=? t)%Z && (t <? now + 30)%Z); [|done]. cbn [negb].
    rewrite Hpem. cbn [ssh ok_or]. rewrite Hsha, Ep. cbn [negb ssh ok_or]. rewrite bool_decide_eq_false_2 by tauto.
    rewrite (ssh_public_key_Ok k _ Hs). cbn [ssh ok_or].
    change (lease_transcript (mkLease _ _ _ _ _ pem)) with
      (lease_transcript (mkLease network_id id now (now + MAX_LEASE_SECONDS) (sort_by str_leb (elements apps)) [])).
    by rewrite Eb, Hv.
  - clear Hl. intros l' registry t addr. unfold lease_verify. destruct (effective_members registry t) as [e|]; [|done].
    destruct (e !! lease_server_id l') as [m|] eqn:Em; [|done]. unfold verify_member.
    destruct (lease_validate l') as [[]|] eqn:Ev; [|done]. destruct (_ || _) eqn:Ec; [done|].
    destruct (sig_from_pem _) as [g|] eqn:Eg; [|done]. cbn [ssh ok_or]. destruct (sig_is_sha256 g); [|done]. cbn [negb].
    destruct (sig_to_pem g) as [pem|]; [|done]. cbn [ssh ok_or]. destruct (bool_decide (pem <> _)); [done|].
    destruct (from_openssh _) as [key|] eqn:Ek; [|done]. cbn [ssh ok_or].
    destruct (lease_transcript l') as [bytes|] eqn:Eb; [|done]. destruct (key_verify _ _ _ _) eqn:Ekv; [|done]. intros E.
    apply Ok_inj in E as <-. exists e, m, key, g, bytes. unfold lease_validate in Ev. destruct (_ || _) eqn:Ec2 in Ev; [done|].
    change MAX_LEASE_SECONDS with 30%Z in Ec2. bool_to_prop. do 9 (split; [done|]). lia.
Qed.
End Leases.

#[local] Existing Instances demo_ssh demo_x25519 tail_sha256 demo_x509 demo_ssh_laws demo_x25519_laws.

Definition demo_json : LeaseJson := {|
  lease_from_json _ := None;
  transcript_json '(ns, net, id, a, b, apps) := Some (ns ++ net ++ id ++ show_Z a ++ show_Z b ++ concat apps) |}.

#[local] Existing Instance demo_json.

Definition server_keys : LocalDeviceKeys := mkKeys ((3 * 2 ^ 248)%Z : @XPrivate demo_x25519) (bs "server" : @SshPrivate demo_ssh).
Definition server_device : VerifiedEnrollment := default no_request (demo_device 3 ServerKind (bs "server")).
Definition demo_server_info : ServerInfo :=
  mkServerInfo (mkEndpoint (V4 [192; 0; 2; 1]%Z) 51820 0 0) (bs "key") 22 None None None 443.
Definition demo_server : Member :=
  member_of server_device (mkApproval (Server demo_server_info) (mkPermissions true true None ∅) None true 0 None).
Definition demo_lease : ServiceLease :=
  match lease_sign server_keys demo_network {[bs "shop/production"]} 100 with Ok l => l | Err _ => mkLease [] [] 0 0 [] [] end.

Lemma demo_lease_eq : lease_sign server_keys demo_network {[bs "shop/production"]} 100 = Ok demo_lease.
Proof. vm_compute. reflexivity. Qed.

Lemma demo_server_ids :
  device_id demo_server = lease_server_id demo_lease /\ ssh_public_key server_keys = Ok (er_ssh_public_key (request demo_server)).
Proof. split; vm_compute; reflexivity. Qed.

Lemma lease_is_authentic_witness :
  verify_member demo_lease demo_network demo_server 129
  = if (100 <=? 129)%Z && (129 <? 100 + 30)%Z then Ok (address demo_network (er_wg_public_key (request demo_server)))
    else invalid "service lease" "wrong network, publisher, or time".
Proof.
  refine (proj1 (lease_is_authentic _ _ _ _ _ demo_lease_eq) demo_server 129%Z _ (proj1 demo_server_ids) _ _ (proj2 demo_server_ids));
    vm_compute; reflexivity.
Defined.
