(* ===== verification/NetRuntime.v ===== *)
(** * The authorization runtime of the server network (tako-network/src/runtime.rs, api.rs)

    Signed requests of devices, the local database that keeps clock, nonces, observed
    records and pending approvals, and the operations on the replicated registry.  The
    registry store is the trait [RegistryStore] of the source: a class.  Each operation is a
    function of the runtime that returns the new one and a result.  JSON is a parameter;
    errors of SQLite itself are not modelled. *)

From S2P Require Import Prelude RustStr Net Codec Sql Enrollment Registry NetServices.

(** ** Messages (api.rs) *)

Inductive RuntimeError :=
| Domain (e : NetError)
| RtInvalid (what : str)
| Authentication
| Denied
| Replay
| Capacity (what : str)
| RtConflict (what : str)
| PendingUnavailable
| ChallengeUnavailable
| Transport
| Corrosion (what : str)
| RtJson.

#[global] Instance RuntimeError_eq_dec : EqDecision RuntimeError.
Proof. solve_decision. Defined.

Definition MAX_RPC_BYTES : Z := 128 * 1024.
Definition MAX_SIGNATURE_BYTES : nat := 2048.
Definition RPC_NAMESPACE : str := bs "tako-network-rpc-v1".

Inductive ManagementAction :=
| ActRpc (scope : option str) (sha256 : str)
| ActReleaseArtifact (scope : option str) (sha256 : str)
| ActLogs (scope : option str) (sha256 : str).

Definition action_scope (a : ManagementAction) : option str :=
  match a with ActRpc s _ | ActReleaseArtifact s _ | ActLogs s _ => s end.

Definition action_sha256 (a : ManagementAction) : str :=
  match a with ActRpc _ h | ActReleaseArtifact _ h | ActLogs _ h => h end.

Definition action_validate (a : ManagementAction) : result unit RuntimeError :=
  if negb (length (action_sha256 a) =? 64)%nat || negb (all is_lower_hex (action_sha256 a))
  then Err (RtInvalid (bs "management commitment"))
  else
    match a, action_scope a with
    | ActReleaseArtifact _ _, None | ActLogs _ _, None => Err (RtInvalid (bs "management scope"))
    | _, _ => Ok tt
    end.

Record ApproveRequest := mkApproveRequest {
  gr_pending_id : str;
  gr_request : EnrollmentRequest;
  gr_kind : MemberKind;
  gr_permissions : Permissions;
  gr_expires_at : Z;
  gr_member_expires_at : option Z;
}.

#[global] Instance ApproveRequest_eq_dec : EqDecision ApproveRequest.
Proof. solve_decision. Defined.

Inductive RpcRequest :=
| Authorize (action : ManagementAction)
| Approve (grant : ApproveRequest)
| Begin (pending_id : str)
| Complete (pending_id challenge_id proof : str)
| Snapshot
| Revoke (id target : str).

Definition rpc_path (r : RpcRequest) : str :=
  match r with
  | Authorize _ => bs "/v1/network/authorize"
  | Approve _ => bs "/v1/network/approve"
  | Begin _ => bs "/v1/network/begin"
  | Complete _ _ _ => bs "/v1/network/complete"
  | Snapshot => bs "/v1/network/snapshot"
  | Revoke _ _ => bs "/v1/network/revoke"
  end.

Record SignedRequest := mkSigned {
  sr_network_id : str;
  sr_server_id : str;
  sr_signer : str;
  sr_timestamp : Z;
  sr_nonce : str;
  sr_request : RpcRequest;
  sr_signature : str;
}.

Inductive RpcResponse :=
| Authorized (signer : str) (permissions : Permissions) (action : ManagementAction)
| Pending (profile : PendingApprovalProfile)
| Challenge (challenge_id : str) (challenge : WgChallenge)
| Active (profile : NetworkPublicProfile)
| SnapshotOf (snapshot : RegistrySnapshot)
| Revoked (revocation : Revocation).

Record Entitlement := mkEntitlement {
  en_grant : ApproveRequest;
  en_approver : str;
  en_candidate : option Member;
}.

(** serde_json on these types; sizes are those of the written text. *)
Class RuntimeJson := {
  request_json : RpcRequest -> option str;
  signed_size : SignedRequest -> option Z;
  signed_parse : str -> option SignedRequest;
  member_json : Member -> option str;
  member_parse : str -> option Member;
  revocation_json : Revocation -> option str;
  revocation_parse : str -> option Revocation;
  entitlement_json : Entitlement -> option str;
  entitlement_parse : str -> option Entitlement;
  snapshot_size : RegistrySnapshot -> option Z;
  ack_size : Ack -> option Z;
}.

(** What is written is read back. *)
Class RuntimeJsonLaws (J : RuntimeJson) := {
  member_read_back m t : member_json m = Some t -> member_parse t = Some m;
  revocation_read_back r t : revocation_json r = Some t -> revocation_parse t = Some r;
}.

Definition json {A} (o : option A) : result A RuntimeError := ok_or o RtJson.
Definition domain {A} (r : result A NetError) : result A RuntimeError := map_err Domain r.

(** ** The registry store (corrosion.rs): the trait *)

Class RegistryStore := {
  Store : Type;
  store_snapshot : Store -> Store * result RegistrySnapshot RuntimeError;
  append_member : Store -> Member -> Store * result unit RuntimeError;
  append_revocation : Store -> Revocation -> Store * result unit RuntimeError;
  append_ack : Store -> Ack -> Store * result unit RuntimeError;
}.

Definition MAX_REGISTRY_ROWS : nat := 10000.
Definition MAX_REGISTRY_BYTES : Z := 16 * 1024 * 1024.
Definition MAX_RECORD_BYTES : Z := 128 * 1024.

(** ** Limits and configuration *)

Record RuntimeLimits := mkLimits {
  max_pending : nat;
  max_challenges : nat;
  max_replays : nat;
  auth_window_seconds : Z;
  challenge_seconds : Z;
  entitlement_seconds : Z;
}.

Definition RuntimeLimits_default : RuntimeLimits := mkLimits 1024 256 20000 120 120 (7 * 86400).

Definition limits_validate (l : RuntimeLimits) : result unit RuntimeError :=
  if (max_pending l =? 0)%nat || (10000 <? max_pending l)%nat
     || (max_challenges l =? 0)%nat || (4096 <? max_challenges l)%nat
     || (max_replays l =? 0)%nat || (Z.to_nat 100000 <? max_replays l)%nat
     || (auth_window_seconds l =? 0)%Z || (300 <? auth_window_seconds l)%Z
     || (challenge_seconds l =? 0)%Z || (300 <? challenge_seconds l)%Z
     || (entitlement_seconds l =? 0)%Z || (30 * 86400 <? entitlement_seconds l)%Z
  then Err (RtInvalid (bs "runtime limits"))
  else Ok tt.

#[global] Instance NetworkDescriptor_eq_dec : EqDecision NetworkDescriptor.
Proof. solve_decision. Defined.

Record RuntimeConfig := mkConfig {
  cfg_network : NetworkDescriptor;
  cfg_server_id : str;
  cfg_boot_id : str;
  cfg_limits : RuntimeLimits;
}.

(** ** The local database *)

Record Nonce := mkNonce { nonce_signer : str; nonce_value : str; nonce_expires : Z }.
Record Observed := mkObserved { obs_kind : str; obs_id : str; obs_payload : str }.
Record PendingRow := mkPendingRow { pend_id : str; pend_expires : Z; pend_payload : str }.

(** [runtime_identity]: network, server, last time, window. *)
Record Identity := mkIdentity { idt_network : NetworkDescriptor; idt_server : str; idt_last_time : Z; idt_window : Z }.

Record RuntimeDb := mkDb {
  db_identity : option Identity;
  db_nonces : list Nonce;
  db_revocation_nonces : list Nonce;
  db_observed : list Observed;
  db_failed : bool;
  db_pending : list PendingRow;
}.

Definition empty_db : RuntimeDb := mkDb None [] [] [] false [].

Section Runtime.
Context {S : SshApi} {X : X25519Api} {H : Sha256Api} {M : HmacApi} {C : X509Api} {J : RuntimeJson} {R : RegistryStore}.

(** *** Signatures of requests *)

Definition check_size (s : SignedRequest) : result unit RuntimeError :=
  if (MAX_SIGNATURE_BYTES <? length (sr_signature s))%nat then Err (Capacity (bs "RPC bytes"))
  else
    let? n := json (signed_size s) in
    if (MAX_RPC_BYTES <? n)%Z then Err (Capacity (bs "RPC bytes")) else Ok tt.

Definition rpc_transcript (s : SignedRequest) : result str RuntimeError :=
  let? body := json (request_json (sr_request s)) in
  if (MAX_RPC_BYTES <? Z.of_nat (length body))%Z then Err (Capacity (bs "RPC body"))
  else
    Ok (bs "tako-network-native-rpc-v1" ++ of_byte 0 :: sr_network_id s ++ sr_server_id s ++ sr_signer s
        ++ append_field (bs "POST") ++ append_field (rpc_path (sr_request s))
        ++ to_be 8 (sr_timestamp s) ++ sr_nonce s ++ sha256 body).

Definition signed_verify (s : SignedRequest) (key : str) : result unit RuntimeError :=
  let? _ := check_size s in
  match sig_from_pem (sr_signature s) with
  | None => Err Authentication
  | Some g =>
      if negb (sig_is_sha256 g) then Err Authentication
      else
        match sig_to_pem g with
        | None => Err Authentication
        | Some pem =>
            if bool_decide (pem <> sr_signature s) then Err Authentication
            else
              let? k := domain (ssh (from_openssh key)) in
              let? bytes := rpc_transcript s in
              if key_verify k RPC_NAMESPACE bytes g then Ok tt else Err Authentication
        end
  end.

(** [nonce] is the random request identifier. *)
Definition signed_sign (k : LocalDeviceKeys) (network_id server_id : str) (signer_kind : DeviceKind) (timestamp : Z)
    (request : RpcRequest) (nonce : str) : result SignedRequest RuntimeError :=
  let? signer := domain (keys_device_id k network_id signer_kind) in
  let unsigned signature := mkSigned network_id server_id signer timestamp nonce request signature in
  let? bytes := rpc_transcript (unsigned []) in
  let? g := domain (ssh (ssh_sign (keys_ssh k) RPC_NAMESPACE bytes)) in
  let? pem := domain (ssh (sig_to_pem g)) in
  let? _ := check_size (unsigned pem) in
  Ok (unsigned pem).

Definition signed_from_slice (bytes : str) : result SignedRequest RuntimeError :=
  if (MAX_RPC_BYTES <? Z.of_nat (length bytes))%Z then Err (Capacity (bs "RPC bytes"))
  else
    let? request := json (signed_parse bytes) in
    let? _ := check_size request in
    Ok request.

(** *** The runtime and its monad *)

Record ChallengeState := mkChallengeState {
  cs_pending_id : str;
  cs_expires_at : Z;
  cs_proof : PendingWgChallenge;
}.

Record Runtime := mkRuntime {
  rt_store : Store;
  rt_db : RuntimeDb;
  rt_challenges : gmap str ChallengeState;
}.

Definition Rt (A : Type) : Type := Runtime -> Runtime * result A RuntimeError.

Definition ret {A} (a : A) : Rt A := fun rt => (rt, Ok a).
Definition throw {A} (e : RuntimeError) : Rt A := fun rt => (rt, Err e).
Definition of_result {A} (r : result A RuntimeError) : Rt A := fun rt => (rt, r).
Definition bind {A B} (m : Rt A) (k : A -> Rt B) : Rt B := fun rt =>
  match m rt with
  | (rt', Ok a) => k a rt'
  | (rt', Err e) => (rt', Err e)
  end.
End Runtime.

Declare Scope runtime_scope.
Delimit Scope runtime_scope with rt.
Notation "'let*' x := m 'in' k" := (bind m (fun x => k))
  (at level 10, x pattern, m at level 100, k at level 200, format "'let*'  x  :=  m  'in' '//' k") : runtime_scope.
Open Scope runtime_scope.

Section Operations.
Context {S : SshApi} {X : X25519Api} {H : Sha256Api} {M : HmacApi} {C : X509Api} {J : RuntimeJson} {R : RegistryStore}.
Variables (keys : LocalDeviceKeys) (config : RuntimeConfig).

Definition get_db : Rt RuntimeDb := fun rt => (rt, Ok (rt_db rt)).
Definition put_db (db : RuntimeDb) : Rt unit := fun rt => (mkRuntime (rt_store rt) db (rt_challenges rt), Ok tt).
Definition get_challenges : Rt (gmap str ChallengeState) := fun rt => (rt, Ok (rt_challenges rt)).
Definition put_challenges (c : gmap str ChallengeState) : Rt unit := fun rt => (mkRuntime (rt_store rt) (rt_db rt) c, Ok tt).
Definition call_store {A} (f : Store -> Store * result A RuntimeError) : Rt A := fun rt =>
  let '(s, r) := f (rt_store rt) in (mkRuntime s (rt_db rt) (rt_challenges rt), r).

Definition sql_time (t : Z) : result Z RuntimeError :=
  if (i64_max <? t)%Z then Err (RtInvalid (bs "timestamp exceeds SQLite integer range")) else Ok t.

(** *** Snapshots *)

Definition bounded_json_size (s : RegistrySnapshot) : result Z RuntimeError :=
  let? n := json (snapshot_size s) in
  if (MAX_REGISTRY_BYTES <? n)%Z then Err (Capacity (bs "registry bytes")) else Ok n.

(** Acknowledgements are kept while rows and bytes last. *)
Fixpoint bound_acks (rows : nat) (bytes : Z) (kept acks : list Ack) : result (list Ack) RuntimeError :=
  match acks with
  | [] => Ok kept
  | ack :: acks' =>
      if (MAX_REGISTRY_ROWS <=? rows + length kept)%nat then Ok kept
      else
        let? n := json (ack_size ack) in
        let size := (n + match kept with [] => 0 | _ => 1 end)%Z in
        if (bytes + size <=? MAX_REGISTRY_BYTES)%Z then bound_acks rows (bytes + size) (kept ++ [ack]) acks'
        else bound_acks rows bytes kept acks'
  end.

Definition bound_projection (s : RegistrySnapshot) : result RegistrySnapshot RuntimeError :=
  let bare := mkSnapshot (network s) (members s) (revocations s) [] in
  let rows := length (members s) + length (revocations s) + 1 in
  if (MAX_REGISTRY_ROWS <? rows)%nat then Err (Capacity (bs "registry projection"))
  else
    let? bytes := bounded_json_size bare in
    let? kept := bound_acks rows bytes [] (acks s) in
    Ok (mkSnapshot (network s) (members s) (revocations s) kept).

Definition validate_snapshot (s : RegistrySnapshot) : result unit RuntimeError :=
  if bool_decide (network s <> cfg_network config) then Err (RtConflict (bs "network descriptor"))
  else if (MAX_REGISTRY_ROWS <? length (members s) + length (revocations s) + length (acks s) + 1)%nat
  then Err (Capacity (bs "registry snapshot"))
  else
    let? _ := bounded_json_size s in
    domain (registry_validate s).

(** One record of a snapshot against the table: it must be what was seen before. *)
Definition same_record (kind id : str) (o : Observed) : bool := str_eqb (obs_kind o) kind && str_eqb (obs_id o) id.

Definition observe_record (kind id payload : str) (t : list Observed) : result (list Observed) RuntimeError :=
  match find_first (same_record kind id) t with
  | Some old => if bool_decide (obs_payload old <> payload) then Err (RtConflict (bs "observed registry record")) else Ok t
  | None => Ok (sql_insert_or_ignore (same_record kind id) (mkObserved kind id payload) t)
  end.

Fixpoint observe_members (ms : list Member) (t : list Observed) : result (list Observed) RuntimeError :=
  match ms with
  | [] => Ok t
  | m :: ms' =>
      let? payload := json (member_json m) in
      let? t' := observe_record (bs "member") (hex (device_id m)) payload t in
      observe_members ms' t'
  end.

Fixpoint observe_revocations (rs : list Revocation) (t : list Observed) : result (list Observed) RuntimeError :=
  match rs with
  | [] => Ok t
  | r :: rs' =>
      let? payload := json (revocation_json r) in
      let? t' := observe_record (bs "revocation") (hex (rev_id r)) payload t in
      observe_revocations rs' t'
  end.

(** [ORDER BY kind, id]. *)
Definition observed_leb (a b : Observed) : bool :=
  if str_eqb (obs_kind a) (obs_kind b) then str_leb (obs_id a) (obs_id b) else str_leb (obs_kind a) (obs_kind b).

Fixpoint read_observed (bytes : Z) (count : nat) (ms : list Member) (rs : list Revocation) (t : list Observed)
    : result (list Member * list Revocation) RuntimeError :=
  match t with
  | [] => Ok (ms, rs)
  | o :: t' =>
      let bytes := (bytes + Z.of_nat (length (obs_payload o)))%Z in
      let count := Datatypes.S count in
      if (MAX_REGISTRY_BYTES <? bytes)%Z || (MAX_REGISTRY_ROWS <? count)%nat then Err (Capacity (bs "observed registry"))
      else if str_eqb (obs_kind o) (bs "member") then
        let? m := json (member_parse (obs_payload o)) in read_observed bytes count (ms ++ [m]) rs t'
      else if str_eqb (obs_kind o) (bs "revocation") then
        let? r := json (revocation_parse (obs_payload o)) in read_observed bytes count ms (rs ++ [r]) t'
      else Err (RtInvalid (bs "observed registry kind"))
  end.

Definition set_observed (db : RuntimeDb) (t : list Observed) : RuntimeDb :=
  mkDb (db_identity db) (db_nonces db) (db_revocation_nonces db) t (db_failed db) (db_pending db).

(** The transaction: the new table is written only when everything succeeds. *)
Definition observe_tx (t : list Observed) (s : RegistrySnapshot) : result (list Observed * RegistrySnapshot) RuntimeError :=
  let? s := bound_projection s in
  let? _ := validate_snapshot s in
  let? t := observe_members (members s) t in
  let? t := observe_revocations (revocations s) t in
  let? (ms, rs) := read_observed 0 0 [] [] (sort_by observed_leb t) in
  let? s := bound_projection (mkSnapshot (network s) ms rs (acks s)) in
  let? _ := validate_snapshot s in
  Ok (t, s).

Definition observe (s : RegistrySnapshot) : Rt RegistrySnapshot :=
  let* db := get_db in
  let* (t, s) := of_result (observe_tx (db_observed db) s) in
  let* _ := put_db (set_observed db t) in
  ret s.

Inductive RegistryOperation := SnapshotOp | MutationOp.

Definition set_failed (db : RuntimeDb) : RuntimeDb :=
  mkDb (db_identity db) (db_nonces db) (db_revocation_nonces db) (db_observed db) true (db_pending db).

(** Whether a failed operation latches the failure. *)
Definition latches {A} (op : RegistryOperation) (r : result A RuntimeError) : bool :=
  match r with
  | Err (Capacity reason) =>
      match op with
      | SnapshotOp => true
      | MutationOp => negb (str_eqb reason (bs "registry admissions")) && negb (str_eqb reason (bs "registry record"))
      end
  | _ => false
  end.

Definition with_registry {A} (op : RegistryOperation) (action : Rt A) : Rt A := fun rt =>
  if db_failed (rt_db rt) then (rt, Err (Capacity (bs "registry requires local recovery")))
  else
    let '(rt', r) := action rt in
    (if latches op r then mkRuntime (rt_store rt') (set_failed (rt_db rt')) (rt_challenges rt') else rt', r).

Definition snapshot : Rt RegistrySnapshot :=
  with_registry SnapshotOp (let* s := call_store store_snapshot in observe s).

(** *** Clock and nonces *)

Definition set_identity (db : RuntimeDb) (i : Identity) : RuntimeDb :=
  mkDb (Some i) (db_nonces db) (db_revocation_nonces db) (db_observed db) (db_failed db) (db_pending db).

Definition advance_clock (now : Z) : Rt unit :=
  let* now := of_result (sql_time now) in
  let* db := get_db in
  match db_identity db with
  | Some i =>
      if (0 <=? idt_last_time i)%Z && (idt_last_time i <=? now)%Z
      then put_db (set_identity db (mkIdentity (idt_network i) (idt_server i) now (idt_window i)))
      else throw (RtInvalid (bs "server clock moved backwards"))
  | None => throw (RtInvalid (bs "server clock moved backwards"))
  end.

Definition is_nonce (signer nonce : str) (n : Nonce) : bool := str_eqb (nonce_signer n) signer && str_eqb (nonce_value n) nonce.

Definition is_revoke (r : RpcRequest) : bool := match r with Revoke _ _ => true | _ => false end.

(** The transaction of [consume_nonce]; identifiers are stored as their hex text. *)
Definition consume_nonce_tx (signed : SignedRequest) (now : Z) (db : RuntimeDb) : result RuntimeDb RuntimeError :=
  let? now := sql_time now in
  let consumed := sql_delete (fun n => (nonce_expires n <? now)%Z) (db_nonces db) in
  let revoking := sql_delete (fun n => (nonce_expires n <? now)%Z) (db_revocation_nonces db) in
  let signer := hex (sr_signer signed) in
  let nonce := hex (sr_nonce signed) in
  if any (is_nonce signer nonce) consumed || any (is_nonce signer nonce) revoking then Err Replay
  else
    let emergency := is_revoke (sr_request signed) in
    let table := if emergency then revoking else consumed in
    let principal := sql_count (fun n => str_eqb (nonce_signer n) signer) table in
    if (max_replays (cfg_limits config) <=? length table)%nat
       || ((max_replays (cfg_limits config) + 15) / 16 <=? principal)%nat
    then Err (Capacity (bs "replays"))
    else
      let? expires := sql_time (sr_timestamp signed + auth_window_seconds (cfg_limits config)) in
      let row := mkNonce signer nonce expires in
      Ok (mkDb (db_identity db) (if emergency then consumed else consumed ++ [row])
            (if emergency then revoking ++ [row] else revoking) (db_observed db) (db_failed db)
            (sql_delete (fun p => (pend_expires p <=? now)%Z) (db_pending db))).

Definition consume_nonce (signed : SignedRequest) (now : Z) : Rt unit :=
  let* db := get_db in
  let* db := of_result (consume_nonce_tx signed now db) in
  put_db db.

(** *** Pending approvals *)

Definition pending (id : str) (now : Z) : Rt Entitlement :=
  let* now := of_result (sql_time now) in
  let* db := get_db in
  match find_first (fun p => str_eqb (pend_id p) (hex id) && (now <? pend_expires p)%Z) (db_pending db) with
  | None => throw PendingUnavailable
  | Some p =>
      if (MAX_RECORD_BYTES * 2 <? Z.of_nat (length (pend_payload p)))%Z then throw (Capacity (bs "pending record"))
      else of_result (json (entitlement_parse (pend_payload p)))
  end.

Definition save_pending (e : Entitlement) : Rt unit :=
  let* payload := of_result (json (entitlement_json e)) in
  if (MAX_RECORD_BYTES * 2 <? Z.of_nat (length payload))%Z then throw (Capacity (bs "pending record"))
  else
    let* expires := of_result (sql_time (gr_expires_at (en_grant e))) in
    let* db := get_db in
    let id := hex (gr_pending_id (en_grant e)) in
    put_db (mkDb (db_identity db) (db_nonces db) (db_revocation_nonces db) (db_observed db) (db_failed db)
      (sql_upsert (fun p => str_eqb (pend_id p) id) (mkPendingRow id expires payload)
         (fun p => mkPendingRow (pend_id p) (pend_expires p) payload) (db_pending db))).

(** What an approver may grant, checked again before every use of the grant. *)
Definition check_grant (e : Entitlement) (s : RegistrySnapshot) (now : Z) : result unit RuntimeError :=
  let grant := en_grant e in
  let? _ := domain (enrollment_verify (gr_request grant)) in
  let? _ := domain (permissions_validate (gr_permissions grant)) in
  let? id := domain (device_id_for (gr_request grant) (net_id (cfg_network config))) in
  if bool_decide (device_kind (gr_kind grant) <> er_kind (gr_request grant)) || bool_decide (id = en_approver e)
  then Err (RtInvalid (bs "grant kind or self-approval"))
  else if (gr_expires_at grant <=? now)%Z || (i64_max <? gr_expires_at grant)%Z
          || match er_expires_at (gr_request grant) with
             | Some x => (x <=? now)%Z || (x <? gr_expires_at grant)%Z
             | None => false
             end
          || expires_by (gr_member_expires_at grant) now
  then Err PendingUnavailable
  else
    let? _ := match gr_kind grant with Server info => domain (server_info_validate info) | Laptop => Ok tt end in
    let? effective := domain (effective_members s now) in
    match effective !! en_approver e with
    | None => Err Denied
    | Some parent =>
        let rights := permissions parent in
        let wanted := gr_permissions grant in
        if negb (network_admin rights)
           || (server_admin wanted && negb (server_admin rights))
           || (is_server (gr_kind grant) && negb (server_admin rights))
           || (bool_decide (ssh_user wanted <> None) && negb (server_admin rights)
               && bool_decide (ssh_user wanted <> ssh_user rights))
           || (negb (server_admin rights) && negb (bool_decide (deployments wanted ⊆ deployments rights)))
           || match expires_at parent with
              | Some x => match gr_member_expires_at grant with Some child => (x <? child)%Z | None => true end
              | None => false
              end
        then Err Denied
        else
          let wg := wg_fingerprint (er_wg_public_key (gr_request grant)) in
          let? ssh := domain (ssh_fingerprint (er_ssh_public_key (gr_request grant))) in
          if any (fun r => bool_decide (target r = id) || bool_decide (rev_wg_fingerprint r = wg)
                           || bool_decide (rev_ssh_fingerprint r = ssh)) (revocations s)
          then Err Denied
          else Ok tt
    end.

Definition pins (s : RegistrySnapshot) (now : Z) : result (gmap str ServerInfo) RuntimeError :=
  let? effective := domain (effective_members s now) in Ok (server_pins effective).

Definition active_profile (e : Entitlement) (s : RegistrySnapshot) (now : Z) : result (option NetworkPublicProfile) RuntimeError :=
  match en_candidate e with
  | None => Ok None
  | Some candidate =>
      match find_first (fun m => bool_decide (device_id m = device_id candidate)) (members s) with
      | None => Ok None
      | Some existing =>
          if bool_decide (existing <> candidate) then Err (RtConflict (bs "activated member"))
          else
            let? effective := domain (effective_members s now) in
            match effective !! device_id candidate with
            | None => Err Denied
            | Some _ =>
                let? servers := pins s now in
                Ok (Some (mkProfile (gr_request (en_grant e)) servers s))
            end
      end
  end.

Definition require_server (s : RegistrySnapshot) (now : Z) : result unit RuntimeError :=
  let? effective := domain (effective_members s now) in
  if match effective !! cfg_server_id config with
     | Some m => is_server (kind m) && server_admin (permissions m)
     | None => false
     end
  then Ok tt else Err Denied.

Definition approve_pending (grant : ApproveRequest) (approver : str) (s : RegistrySnapshot) (now : Z) : Rt RpcResponse :=
  let e := mkEntitlement grant approver None in
  let* _ := of_result (check_grant e s now) in
  if (entitlement_seconds (cfg_limits config) <? gr_expires_at grant - now)%Z
  then throw (RtInvalid (bs "entitlement exceeds maximum lifetime"))
  else
    let* servers := of_result (pins s now) in
    if match servers !! cfg_server_id config with
       | Some i => match https_certificate_pem i with Some _ => false | None => true end
       | None => true
       end
    then throw (RtInvalid (bs "issuer requires a public HTTPS certificate"))
    else
      let* db := get_db in
      let* _ :=
        match find_first (fun p => str_eqb (pend_id p) (hex (gr_pending_id grant))) (db_pending db) with
        | Some p =>
            let* previous := of_result (json (entitlement_parse (pend_payload p))) in
            if bool_decide (en_grant previous <> grant) || bool_decide (en_approver previous <> approver)
            then throw (RtConflict (bs "pending ID"))
            else ret tt
        | None =>
            if (max_pending (cfg_limits config) <=? length (db_pending db))%nat then throw (Capacity (bs "pending entitlements"))
            else save_pending e
        end in
      ret (Pending (mkPendingProfile (gr_request grant) (gr_pending_id grant) (cfg_server_id config) (gr_expires_at grant) servers s)).

(** What the random generators draw for a request. *)
Record Draws := mkDraws { draw_private : option XPrivate; draw_nonce : str; draw_challenge_id : str }.

Definition begin_challenge (pending_id : str) (e : Entitlement) (s : RegistrySnapshot) (now : Z) (draws : Draws) : Rt RpcResponse :=
  let* _ := of_result (check_grant e s now) in
  let* active := of_result (active_profile e s now) in
  match active with
  | Some profile => ret (Active profile)
  | None =>
      let* cs := get_challenges in
      let cs := filter (fun kv => cs_pending_id kv.2 <> pending_id) cs in
      let* _ := put_challenges cs in
      if (max_challenges (cfg_limits config) <=? size cs)%nat then throw (Capacity (bs "WG challenges"))
      else
        let expires := Z.min (now + challenge_seconds (cfg_limits config)) (gr_expires_at (en_grant e)) in
        let* (challenge, proof) := of_result (domain
          (challenge_begin (gr_request (en_grant e)) (net_id (cfg_network config)) now expires (draw_private draws) (draw_nonce draws))) in
        let* _ := put_challenges (<[draw_challenge_id draws := mkChallengeState pending_id expires proof]> cs) in
        ret (Challenge (draw_challenge_id draws) challenge)
  end.

(** The approval of a verified enrollment: the journaled one when there is one. *)
Definition candidate_of (e : Entitlement) (v : VerifiedEnrollment) (s : RegistrySnapshot) (now : Z) : result Member RuntimeError :=
  match en_candidate e with
  | Some c =>
      let? approved := domain (approve s v (mkApproval (kind c) (permissions c) (approved_by c) false (created_at c) (expires_at c))) in
      if bool_decide (approved <> c) then Err (RtConflict (bs "activation journal")) else Ok c
  | None =>
      domain (approve s v (mkApproval (gr_kind (en_grant e)) (gr_permissions (en_grant e)) (Some (en_approver e)) false now
                             (gr_member_expires_at (en_grant e))))
  end.

Definition complete_challenge (pending_id challenge_id proof : str) (e : Entitlement) (s : RegistrySnapshot) (now : Z) : Rt RpcResponse :=
  let* _ := of_result (check_grant e s now) in
  let* active := of_result (active_profile e s now) in
  match active with
  | Some profile => ret (Active profile)
  | None =>
      let* cs := get_challenges in
      match cs !! challenge_id with
      | None => throw ChallengeUnavailable
      | Some state =>
          if bool_decide (cs_pending_id state <> pending_id) then throw ChallengeUnavailable
          else
            let* _ := put_challenges (delete challenge_id cs) in
            let* v := of_result (domain (challenge_verify (cs_proof state) proof now)) in
            let* candidate := of_result (candidate_of e v s now) in
            let e := mkEntitlement (en_grant e) (en_approver e) (Some candidate) in
            let* _ := save_pending e in
            let* _ := with_registry MutationOp (call_store (fun st => append_member st candidate)) in
            let* updated := snapshot in
            let* _ := of_result (require_server updated now) in
            let* _ := of_result (check_grant e updated now) in
            let* profile := of_result (active_profile e updated now) in
            match profile with
            | Some profile => ret (Active profile)
            | None => throw (Corrosion (bs "admission absent after write"))
            end
      end
  end.

(** *** Requests *)

Definition republish_revocation (id : str) : Rt Revocation :=
  with_registry MutationOp
    (let* db := get_db in
     match find_first (same_record (bs "revocation") (hex id)) (db_observed db) with
     | None => throw (RtInvalid (bs "revocation is not recorded"))
     | Some o =>
         if (MAX_REGISTRY_BYTES <? Z.of_nat (length (obs_payload o)))%Z then throw (Capacity (bs "observed registry"))
         else
           let* r := of_result (json (revocation_parse (obs_payload o))) in
           if bool_decide (rev_id r <> id) then throw (RtConflict (bs "recorded revocation ID"))
           else
             let* _ := call_store (fun st => append_revocation st r) in
             ret r
     end).

(** A signer that revoked before may publish the same revocation again, without being an
    effective member any more. *)
Definition may_republish (signed : SignedRequest) (tgt : str) (s : RegistrySnapshot) (previous : Revocation) : result unit RuntimeError :=
  if bool_decide (rev_by previous <> sr_signer signed) || bool_decide (target previous <> tgt)
  then Err (RtConflict (bs "revocation ID"))
  else
    match find_first (fun m => bool_decide (device_id m = sr_signer signed)) (members s) with
    | None => Err Denied
    | Some m =>
        let? _ := signed_verify signed (er_ssh_public_key (request m)) in
        if negb (wg_verified m) || negb (network_admin (permissions m))
           || (any (fun x => bool_decide (device_id x = tgt) && is_server (kind x)) (members s)
               && negb (server_admin (permissions m)))
        then Err Denied
        else Ok tt
    end.

(** Who signed: the applicant of a pending approval, or an effective member. *)
Definition authenticate (signed : SignedRequest) (s : RegistrySnapshot) (now : Z) : Rt (option Entitlement) :=
  match sr_request signed with
  | Begin pending_id | Complete pending_id _ _ =>
      let* e := pending pending_id now in
      let* id := of_result (domain (device_id_for (gr_request (en_grant e)) (net_id (cfg_network config)))) in
      if bool_decide (id <> sr_signer signed) then throw Authentication
      else
        let* _ := of_result (signed_verify signed (er_ssh_public_key (gr_request (en_grant e)))) in
        ret (Some e)
  | _ =>
      let* effective := of_result (domain (effective_members s now)) in
      match effective !! sr_signer signed with
      | None => throw Denied
      | Some m =>
          let* _ := of_result (signed_verify signed (er_ssh_public_key (request m))) in
          if match sr_request signed with Approve _ | Revoke _ _ => true | _ => false end
             && negb (network_admin (permissions m))
          then throw Denied
          else ret None
      end
  end.

Definition dispatch (signed : SignedRequest) (e : option Entitlement) (s : RegistrySnapshot) (now : Z) (draws : Draws)
    : Rt RpcResponse :=
  match sr_request signed with
  | Authorize action =>
      let* _ := of_result (action_validate action) in
      let* p := of_result (domain (permissions_of s (sr_signer signed) now)) in
      ret (Authorized (sr_signer signed) p action)
  | Snapshot => ret (SnapshotOf s)
  | Approve grant => approve_pending grant (sr_signer signed) s now
  | Begin pending_id =>
      let* e := of_result (ok_or e PendingUnavailable) in begin_challenge pending_id e s now draws
  | Complete pending_id challenge_id proof =>
      let* e := of_result (ok_or e PendingUnavailable) in complete_challenge pending_id challenge_id proof e s now
  | Revoke id tgt =>
      let* r := of_result (domain (plan_revocation s id (sr_signer signed) tgt now)) in
      let observed := mkSnapshot (network s) (members s)
        (if bool_decide (r ∈ revocations s) then revocations s else revocations s ++ [r]) (acks s) in
      let* _ := with_registry MutationOp (let* _ := observe observed in call_store (fun st => append_revocation st r)) in
      ret (Revoked r)
  end.

(** The checks before anything is read. *)
Definition addressed (signed : SignedRequest) (method path : str) (now : Z) : bool :=
  negb (bool_decide (sr_network_id signed <> net_id (cfg_network config))
        || bool_decide (sr_server_id signed <> cfg_server_id config)
        || bool_decide (method <> bs "POST")
        || bool_decide (path <> rpc_path (sr_request signed))
        || (i64_max - 600 <? now)%Z
        || (auth_window_seconds (cfg_limits config) <? Z.abs (sr_timestamp signed - now))%Z).

Definition recorded_revocation (signed : SignedRequest) (s : RegistrySnapshot) : option (str * Revocation) :=
  match sr_request signed with
  | Revoke id tgt => (fun r => (tgt, r)) <$> find_first (fun r => bool_decide (rev_id r = id)) (revocations s)
  | _ => None
  end.

Definition handle (signed : SignedRequest) (method path : str) (now : Z) (draws : Draws) : Rt RpcResponse :=
  let* _ := of_result (check_size signed) in
  if negb (addressed signed method path now) then throw Authentication
  else
    let* _ := advance_clock now in
    let* s := snapshot in
    match recorded_revocation signed s with
    | Some (tgt, previous) =>
        let* _ := of_result (may_republish signed tgt s previous) in
        let* _ := consume_nonce signed now in
        let* r := republish_revocation (rev_id previous) in
        ret (Revoked r)
    | None =>
        let* _ := of_result (require_server s now) in
        let* e := authenticate signed s now in
        let* _ := consume_nonce signed now in
        let* cs := get_challenges in
        let* _ := put_challenges (filter (fun kv => (now < cs_expires_at kv.2)%Z) cs) in
        dispatch signed e s now draws
    end.

(** *** Reconciliation of the host *)

(** [allowed_ip] is the one address of the member; the private key is left out. *)
Record HostPeer := mkPeer {
  peer_device_id : str;
  peer_public_key : str;
  peer_allowed_ip : str;
  peer_endpoint : option Endpoint;
  peer_permissions : Permissions;
}.

Record SshAuthorization := mkSshAuth { auth_device_id : str; auth_user : str; auth_public_key : str }.

Record HostDesiredState := mkHost {
  host_address : str;
  host_peers : list HostPeer;
  host_ssh : list SshAuthorization;
  host_snapshot : RegistrySnapshot;
}.

Definition peer_of (m : Member) : HostPeer :=
  mkPeer (device_id m) (er_wg_public_key (request m)) (address (network_id m) (er_wg_public_key (request m)))
    (match kind m with Laptop => None | Server info => Some (wireguard_endpoint info) end) (permissions m).

Definition ssh_of_member (m : Member) : option SshAuthorization :=
  (fun user => mkSshAuth (device_id m) user (er_ssh_public_key (request m))) <$> ssh_user (permissions m).

(** A [BTreeMap] iterates in the order of its keys. *)
Definition in_order (e : gmap str Member) : list Member :=
  snd <$> sort_by (fun a b => str_leb a.1 b.1) (map_to_list e).

Definition desired_host_state (now : Z) : Rt HostDesiredState :=
  let* _ := advance_clock now in
  let* s := snapshot in
  let serving := is_ok (require_server s now) in
  let* effective := of_result (domain (effective_members s now)) in
  let peers := retain (fun m => serving && negb (bool_decide (device_id m = cfg_server_id config))) (in_order effective) in
  let* w := of_result (domain (wg_public_key keys)) in
  ret (mkHost (address (net_id (cfg_network config)) w) (peer_of <$> peers) (omap ssh_of_member peers) s).

Fixpoint ack_all (rs : list Revocation) : Rt unit :=
  match rs with
  | [] => ret tt
  | r :: rs' =>
      let* _ := with_registry MutationOp
        (call_store (fun st => append_ack st (mkAck (rev_id r) (cfg_server_id config) (cfg_boot_id config)))) in
      ack_all rs'
  end.

Definition acknowledge_applied (applied : RegistrySnapshot) : Rt unit :=
  let* _ := of_result (validate_snapshot applied) in
  let* current := snapshot in
  if any (fun r => negb (bool_decide (r ∈ revocations current))) (revocations applied)
  then throw (RtConflict (bs "applied revocation"))
  else ack_all (revocations applied).

(** *** Opening *)

(** [INSERT OR IGNORE] of the identity, and the comparison with what is stored. *)
Definition open_identity (db : RuntimeDb) : result RuntimeDb RuntimeError :=
  let? window := sql_time (auth_window_seconds (cfg_limits config)) in
  let i := default (mkIdentity (cfg_network config) (cfg_server_id config) 0 window) (db_identity db) in
  let db := set_identity db i in
  if bool_decide (idt_network i <> cfg_network config) || bool_decide (idt_server i <> cfg_server_id config)
     || bool_decide (idt_window i <> window)
  then Err (RtConflict (bs "local runtime identity"))
  else Ok db.

(** On an error the database keeps what was written before it.  Files and locks are left out. *)
Definition open_runtime (store : Store) (db : RuntimeDb) : Runtime * result unit RuntimeError :=
  let closed := mkRuntime store db ∅ in
  match
    let? _ := limits_validate (cfg_limits config) in
    let? id := domain (keys_device_id keys (net_id (cfg_network config)) ServerKind) in
    if bool_decide (id <> cfg_server_id config) then Err (RtInvalid (bs "server keys do not match config"))
    else open_identity db
  with
  | Err e => (closed, Err e)
  | Ok db => (let* _ := snapshot in ret tt) (mkRuntime store db ∅)
  end.
End Operations.
