(* ===== verification/NetRuntimeProps.v ===== *)
(** * What the authorization runtime guarantees

    Requests are answered once, observed records are never forgotten, and every answer was
    asked for by someone entitled to it: for every sequence of requests, restarts and
    changes of the replicated store. *)

From S2P Require Import Prelude RustStr Net Codec Sql Enrollment Registry RegistryProps NetServices NetRuntime.

Section Preserve.
Context {S : SshApi} {X : X25519Api} {H : Sha256Api} {M : HmacApi} {C : X509Api} {J : RuntimeJson} {R : RegistryStore}.
Variables (keys : LocalDeviceKeys).
Implicit Types (config cfg : RuntimeConfig) (rt : Runtime) (db : RuntimeDb).

(** ** Properties of the database that operations preserve *)

Definition preserves (P : RuntimeDb -> Prop) {A} (m : Rt A) : Prop := forall rt, P (rt_db rt) -> P (rt_db (m rt).1).

(** What a property must stand to be preserved by everything that happens at [now]. *)
Record closed config (now : Z) (P : RuntimeDb -> Prop) : Prop := {
  closed_failed db : P db -> P (set_failed db);
  closed_observe db s t s' : P db -> observe_tx config (db_observed db) s = Ok (t, s') -> P (set_observed db t);
  closed_pending db l : P db ->
    P (mkDb (db_identity db) (db_nonces db) (db_revocation_nonces db) (db_observed db) (db_failed db) l);
  closed_consume db signed db' : P db -> consume_nonce_tx config signed now db = Ok db' -> P db';
}.

Lemma preserves_bind P {A B} (m : Rt A) (k : A -> Rt B) :
  preserves P m -> (forall a, preserves P (k a)) -> preserves P (bind m k).
Proof.
  intros Hm Hk rt HP. unfold bind. specialize (Hm rt HP). destruct (m rt) as [rt' [a|e]]; [by apply Hk|done].
Qed.

Lemma preserves_ret P {A} (a : A) : preserves P (ret a).
Proof. by intros rt. Qed.
Lemma preserves_fail P {A} e : preserves P (A := A) (throw e).
Proof. by intros rt. Qed.
Lemma preserves_of_result P {A} (r : result A RuntimeError) : preserves P (of_result r).
Proof. by intros rt. Qed.
Lemma preserves_get_db P : preserves P get_db.
Proof. by intros rt. Qed.
Lemma preserves_get_challenges P : preserves P get_challenges.
Proof. by intros rt. Qed.
Lemma preserves_put_challenges P c : preserves P (put_challenges c).
Proof. by intros rt. Qed.
Lemma preserves_call_store P {A} (f : Store -> Store * result A RuntimeError) : preserves P (call_store f).
Proof. intros rt. unfold call_store. by destruct (f (rt_store rt)). Qed.

Lemma preserves_if P {A} (b : bool) (m m' : Rt A) : preserves P m -> preserves P m' -> preserves P (if b then m else m').
Proof. by destruct b. Qed.

(** Reading the database, then writing it. *)
Lemma preserves_update P {A} (k : RuntimeDb -> Rt A) :
  (forall rt, P (rt_db rt) -> P (rt_db (k (rt_db rt) rt).1)) -> preserves P (bind get_db k).
Proof. intros Hk rt HP. by apply Hk. Qed.

Section Closed.
Context (config : RuntimeConfig) (now : Z) (P : RuntimeDb -> Prop) (HC : closed config now P).

Lemma preserves_with_registry {A} op (m : Rt A) : preserves P m -> preserves P (with_registry op m).
Proof using HC.
  intros Hm rt HP. unfold with_registry. destruct (db_failed (rt_db rt)); [done|]. specialize (Hm rt HP).
  destruct (m rt) as [rt' r]. destruct (latches op r); [|done]. by apply (closed_failed _ _ _ HC).
Qed.

Lemma preserves_observe s : preserves P (observe config s).
Proof using HC.
  apply preserves_update. intros rt HP. unfold bind, of_result. cbn [fst].
  destruct (observe_tx config (db_observed (rt_db rt)) s) as [[t s']|] eqn:E; [|done]. by eapply (closed_observe _ _ _ HC).
Qed.

Lemma preserves_snapshot : preserves P (snapshot config).
Proof using HC.
  apply preserves_with_registry, preserves_bind; [apply preserves_call_store|apply preserves_observe].
Qed.

Lemma preserves_consume signed : preserves P (consume_nonce config signed now).
Proof using HC.
  apply preserves_update. intros rt HP. unfold bind, of_result.
  destruct (consume_nonce_tx config signed now (rt_db rt)) as [db'|] eqn:E; [|done]. by eapply (closed_consume _ _ _ HC).
Qed.

Lemma preserves_save_pending e : preserves P (save_pending e).
Proof using HC.
  unfold save_pending. apply preserves_bind; [apply preserves_of_result|]. intros payload. apply preserves_if; [apply preserves_fail|].
  apply preserves_bind; [apply preserves_of_result|]. intros expires. apply preserves_update.
  intros rt HP. by apply (closed_pending _ _ _ HC).
Qed.

Ltac preserve :=
  repeat first
    [ apply preserves_ret | apply preserves_fail | apply preserves_of_result | apply preserves_get_db
    | apply preserves_get_challenges | apply preserves_put_challenges | apply preserves_call_store
    | apply preserves_snapshot | apply preserves_observe | apply preserves_consume | apply preserves_save_pending
    | apply preserves_with_registry | apply preserves_if
    | apply preserves_bind; [|intros ?]
    | progress cbv zeta
    | match goal with |- preserves _ (match ?x with _ => _ end) => destruct x end
    | match goal with |- preserves _ (match ?x with _ => _ end _) => destruct x end ].

Lemma preserves_pending id t : preserves P (pending id t).
Proof using HC. unfold pending. preserve. Qed.

Lemma preserves_republish id : preserves P (republish_revocation id).
Proof using HC. unfold republish_revocation. preserve. Qed.

Lemma preserves_dispatch signed e s t draws : preserves P (dispatch config signed e s t draws).
Proof using HC.
  unfold dispatch, approve_pending, begin_challenge, complete_challenge. preserve.
Qed.

Lemma preserves_authenticate signed s t : preserves P (authenticate config signed s t).
Proof using HC. unfold authenticate. preserve; apply preserves_pending. Qed.

Lemma preserves_ack_all rs : preserves P (ack_all config rs).
Proof using HC. induction rs as [|r rs IH]; cbn [ack_all]; preserve. exact IH. Qed.

Lemma preserves_acknowledge applied : preserves P (acknowledge_applied config applied).
Proof using HC. unfold acknowledge_applied. preserve. apply preserves_ack_all. Qed.

(** What [handle] does after it has moved the clock. *)
Definition handle_rest (signed : SignedRequest) (draws : Draws) : Rt RpcResponse :=
  let* s := snapshot config in
  match recorded_revocation signed s with
  | Some (tgt, previous) =>
      let* _ := of_result (may_republish signed tgt s previous) in
      let* _ := consume_nonce config signed now in
      let* r := republish_revocation (rev_id previous) in
      ret (Revoked r)
  | None =>
      let* _ := of_result (require_server config s now) in
      let* e := authenticate config signed s now in
      let* _ := consume_nonce config signed now in
      let* cs := get_challenges in
      let* _ := put_challenges (filter (fun kv => (now < cs_expires_at kv.2)%Z) cs) in
      dispatch config signed e s now draws
  end.

Lemma preserves_handle_rest signed draws : preserves P (handle_rest signed draws).
Proof using HC.
  unfold handle_rest. preserve; auto using preserves_republish, preserves_authenticate, preserves_dispatch.
Qed.
End Closed.

Lemma handle_split config signed method path now draws :
  handle config signed method path now draws =
    let* _ := of_result (check_size signed) in
    if negb (addressed config signed method path now) then throw Authentication
    else let* _ := advance_clock now in handle_rest config now signed draws.
Proof. done. Qed.

(** ** Runs of the runtime *)

(** Requests, reconciliations, changes of the store by others, and restarts, which keep the
    database and may change the configuration. *)
Inductive rt_step : RuntimeConfig * Runtime -> RuntimeConfig * Runtime -> Prop :=
| step_handle cfg rt signed method path now draws :
    rt_step (cfg, rt) (cfg, (handle cfg signed method path now draws rt).1)
| step_desired cfg rt now : rt_step (cfg, rt) (cfg, (desired_host_state keys cfg now rt).1)
| step_snapshot cfg rt : rt_step (cfg, rt) (cfg, (snapshot cfg rt).1)
| step_acknowledge cfg rt applied : rt_step (cfg, rt) (cfg, (acknowledge_applied cfg applied rt).1)
| step_republish cfg rt id : rt_step (cfg, rt) (cfg, (republish_revocation id rt).1)
| step_store cfg rt store : rt_step (cfg, rt) (cfg, mkRuntime store (rt_db rt) (rt_challenges rt))
| step_open cfg rt cfg' store :
    (open_runtime keys cfg' store (rt_db rt)).2 = Ok tt ->
    rt_step (cfg, rt) (cfg', (open_runtime keys cfg' store (rt_db rt)).1)
| step_open_failed cfg rt cfg' store e :
    (open_runtime keys cfg' store (rt_db rt)).2 = Err e ->
    rt_step (cfg, rt) (cfg, (open_runtime keys cfg' store (rt_db rt)).1).

Definition rt_reachable (st : RuntimeConfig * Runtime) : Prop :=
  exists cfg store rt, open_runtime keys cfg store empty_db = (rt, Ok tt) /\ rtc rt_step (cfg, rt) st.

(** The database after the clock was moved. *)
Lemma advance_clock_cases now rt :
  advance_clock now rt = (rt, Err (RtInvalid (bs "timestamp exceeds SQLite integer range")))
  \/ advance_clock now rt = (rt, Err (RtInvalid (bs "server clock moved backwards")))
  \/ exists i, db_identity (rt_db rt) = Some i /\ (idt_last_time i <= now)%Z /\ (now <= i64_max)%Z
      /\ advance_clock now rt =
         (mkRuntime (rt_store rt)
            (set_identity (rt_db rt) (mkIdentity (idt_network i) (idt_server i) now (idt_window i))) (rt_challenges rt), Ok tt).
Proof.
  unfold advance_clock, bind, of_result, sql_time. destruct (Z.ltb_spec i64_max now); [by left|]. cbn.
  destruct (db_identity (rt_db rt)) as [i|] eqn:Ei; [|by right; left].
  destruct ((0 <=? idt_last_time i)%Z && (idt_last_time i <=? now)%Z) eqn:Et; [|by right; left].
  right. right. exists i. bool_to_prop. split; [done|]. split; [lia|]. split; [lia|]. done.
Qed.

Lemma set_identity_same db i : db_identity db = Some i -> set_identity db i = db.
Proof. destruct db as [i0 n r o f p]. cbn [db_identity]. by intros ->. Qed.

(** Opening pins the window of the configuration to the one of the database. *)
Lemma open_identity_Ok config db db' :
  open_identity config db = Ok db' ->
  exists i, db' = set_identity db i /\ idt_window i = auth_window_seconds (cfg_limits config)
    /\ match db_identity db with Some i0 => i = i0 | None => idt_last_time i = 0%Z end.
Proof.
  unfold open_identity, sql_time. destruct (_ <? _)%Z; [done|]. cbv zeta.
  set (i := default _ (db_identity db)). intros E.
  destruct (bool_decide (idt_window i <> _)) eqn:Ew; [by rewrite orb_true_r in E|]. rewrite orb_false_r in E.
  destruct (_ || _); [done|]. exists i. split; [by apply Ok_inj in E|]. split.
  - apply bool_decide_eq_false in Ew. by apply dec_stable.
  - subst i. by destruct (db_identity db).
Qed.

(** ** Observed records *)

Lemma observe_record_grows kind id payload t t' o :
  observe_record kind id payload t = Ok t' -> o ∈ t -> o ∈ t'.
Proof.
  unfold observe_record. destruct (find_first _ t) as [old|].
  - destruct (bool_decide _); [done|]. by intros [= <-].
  - intros [= <-] Ho. unfold sql_insert_or_ignore. destruct (any _ t); [done|]. apply elem_of_app. by left.
Qed.

Lemma observe_members_grows ms t t' o : observe_members ms t = Ok t' -> o ∈ t -> o ∈ t'.
Proof.
  revert t. induction ms as [|m ms IH]; intros t; cbn [observe_members]; [by intros [= <-]|].
  destruct (json _) as [payload|]; [|done]. destruct (observe_record _ _ _ _) as [t1|] eqn:E; [|done].
  intros Hm Ho. eapply IH; [done|]. by eapply observe_record_grows.
Qed.

Lemma observe_revocations_grows rs t t' o : observe_revocations rs t = Ok t' -> o ∈ t -> o ∈ t'.
Proof.
  revert t. induction rs as [|r rs IH]; intros t; cbn [observe_revocations]; [by intros [= <-]|].
  destruct (json _) as [payload|]; [|done]. destruct (observe_record _ _ _ _) as [t1|] eqn:E; [|done].
  intros Hm Ho. eapply IH; [done|]. by eapply observe_record_grows.
Qed.

(** What is read from the table are exactly its records. *)
Definition records_of {A} (kind : string) (parse : str -> option A) (t : list Observed) (x : A) : Prop :=
  exists o, o ∈ t /\ obs_kind o = bs kind /\ parse (obs_payload o) = Some x.

Lemma records_of_cons {A} kind (parse : str -> option A) o t x :
  records_of kind parse (o :: t) x <-> (obs_kind o = bs kind /\ parse (obs_payload o) = Some x) \/ records_of kind parse t x.
Proof.
  unfold records_of. setoid_rewrite elem_of_cons. split.
  - intros (o' & [->|?] & ?); [by left|right; by exists o'].
  - intros [?|(o' & ? & ?)]; [exists o; auto|exists o'; auto].
Qed.

Lemma records_of_perm {A} kind (parse : str -> option A) t t' x :
  t ≡ₚ t' -> records_of kind parse t x <-> records_of kind parse t' x.
Proof. intros Hp. unfold records_of. by setoid_rewrite Hp. Qed.

Lemma kinds_differ (k : str) : k = bs "member" -> k = bs "revocation" -> False.
Proof. intros ->. discriminate. Qed.

Lemma read_observed_spec bytes count ms rs t ms' rs' :
  read_observed bytes count ms rs t = Ok (ms', rs') ->
  (forall m, m ∈ ms' <-> m ∈ ms \/ records_of "member" member_parse t m)
  /\ (forall r, r ∈ rs' <-> r ∈ rs \/ records_of "revocation" revocation_parse t r).
Proof.
  revert bytes count ms rs. induction t as [|o t IH]; intros bytes count ms rs; cbn [read_observed].
  { intros E. apply Ok_inj in E. injection E as <- <-. split; intros x; (split; [auto|]); intros [?|(? & ?%elem_of_nil & _)]; done. }
  destruct (_ || _); [done|]. unfold str_eqb. case_bool_decide as Hk; [|case_bool_decide as Hk'; [|done]].
  - destruct (member_parse (obs_payload o)) as [m0|] eqn:Ep; [|done]. cbn [json ok_or].
    intros [Hm Hr]%IH. split; intros x; rewrite ?(Hm x), ?(Hr x), records_of_cons.
    + rewrite elem_of_app, list_elem_of_singleton, Ep. split; [intros [[?| ->]|?]; auto|].
      intros [?|[[_ [= ->]]|?]]; auto.
    + split; [intros [?|?]; auto|]. intros [?|[[Ho _]|?]]; auto. by destruct (kinds_differ _ Hk Ho).
  - destruct (revocation_parse (obs_payload o)) as [r0|] eqn:Ep; [|done]. cbn [json ok_or].
    intros [Hm Hr]%IH. split; intros x; rewrite ?(Hm x), ?(Hr x), records_of_cons.
    + split; [intros [?|?]; auto|]. intros [?|[[Ho _]|?]]; auto. by destruct (kinds_differ _ Ho Hk').
    + rewrite elem_of_app, list_elem_of_singleton, Ep. split; [intros [[?| ->]|?]; auto|].
      intros [?|[[_ [= ->]]|?]]; auto.
Qed.

Lemma bound_projection_records s s' :
  bound_projection s = Ok s' -> network s' = network s /\ members s' = members s /\ revocations s' = revocations s.
Proof.
  unfold bound_projection. destruct (_ <? _)%nat; [done|]. destruct (bounded_json_size _); [|done].
  destruct (bound_acks _ _ _ _); [|done]. by intros [= <-].
Qed.

Lemma observe_tx_Ok config t s t' s' :
  observe_tx config t s = Ok (t', s') ->
  (forall o, o ∈ t -> o ∈ t')
  /\ (forall m, m ∈ members s' <-> records_of "member" member_parse t' m)
  /\ (forall r, r ∈ revocations s' <-> records_of "revocation" revocation_parse t' r)
  /\ network s' = cfg_network config /\ registry_validate s' = Ok tt.
Proof.
  unfold observe_tx. destruct (bound_projection s) as [s1|]; [|done]. destruct (validate_snapshot config s1); [|done].
  destruct (observe_members _ t) as [t1|] eqn:E1; [|done]. destruct (observe_revocations _ t1) as [t2|] eqn:E2; [|done].
  destruct (read_observed _ _ _ _ _) as [[ms rs]|] eqn:E3; [|done].
  destruct (bound_projection _) as [s2|] eqn:E4; [|done]. destruct (validate_snapshot config s2) as [[]|] eqn:E5; [|done].
  intros E. apply Ok_inj in E. injection E as <- <-.
  apply bound_projection_records in E4 as (_ & Em & Er). cbn [members revocations] in Em, Er.
  apply read_observed_spec in E3 as [Hm Hr]. pose proof (sort_by_perm observed_leb t2) as Hp. rewrite Em, Er. split_and!.
  - intros o Ho. exact (observe_revocations_grows _ _ _ _ E2 (observe_members_grows _ _ _ _ E1 Ho)).
  - intros m. rewrite (Hm m), (records_of_perm _ _ _ _ _ Hp), elem_of_nil. tauto.
  - intros r. rewrite (Hr r), (records_of_perm _ _ _ _ _ Hp), elem_of_nil. tauto.
  - revert E5. unfold validate_snapshot. case_bool_decide as En; [done|]. by intros _.
  - revert E5. unfold validate_snapshot. destruct (bool_decide _); [done|]. destruct (_ <? _)%nat; [done|].
    destruct (bounded_json_size _); [|done]. by destruct (registry_validate s2) as [[]|].
Qed.

(** ** Properties that every run keeps *)

(** [I] holds between the steps and [P now] within a step that has set the clock to [now]. *)
Record stable (I : RuntimeDb -> Prop) (P : Z -> RuntimeDb -> Prop) : Prop := {
  stable_enter db i now : I db -> db_identity db = Some i -> (idt_last_time i <= now)%Z ->
    P now (set_identity db (mkIdentity (idt_network i) (idt_server i) now (idt_window i)));
  stable_leave db now : P now db -> I db;
  stable_here db : I db -> exists now, P now db;
  stable_closed cfg now : closed cfg now (P now);
  stable_open cfg db db' : I db -> open_identity cfg db = Ok db' -> I db';
}.

Section Stable.
Context (I : RuntimeDb -> Prop) (P : Z -> RuntimeDb -> Prop) (HI : stable I P).

Lemma stable_timed {A} now (m : Rt A) :
  (preserves (P now) m) -> preserves I (let* _ := advance_clock now in m).
Proof using HI.
  intros Hm rt HI0. unfold bind.
  destruct (advance_clock_cases now rt) as [->|[->|(i & Hi & Hle & _ & ->)]]; [done..|].
  apply (stable_leave _ _ HI _ now), Hm. by apply (stable_enter _ _ HI).
Qed.

(** Steps that do not read the clock happen at some time. *)
Lemma stable_untimed {A} (m : Rt A) : (forall now, preserves (P now) m) -> preserves I m.
Proof using HI.
  intros Hm rt HI0. destruct (stable_here _ _ HI _ HI0) as [now HP]. by apply (stable_leave _ _ HI _ now), Hm.
Qed.

Lemma stable_handle cfg signed method path now draws : preserves I (handle cfg signed method path now draws).
Proof using HI.
  rewrite handle_split. apply preserves_bind; [apply preserves_of_result|]. intros _.
  apply preserves_if; [apply preserves_fail|]. apply stable_timed, preserves_handle_rest, (stable_closed _ _ HI).
Qed.

Lemma stable_desired cfg now : preserves I (desired_host_state keys cfg now).
Proof using HI.
  unfold desired_host_state. apply stable_timed. apply preserves_bind; [apply (preserves_snapshot cfg now), (stable_closed _ _ HI)|].
  intros s. cbv zeta. apply preserves_bind; [apply preserves_of_result|]. intros e.
  apply preserves_bind; [apply preserves_of_result|]. intros w. apply preserves_ret.
Qed.

Lemma stable_snapshot cfg : preserves I (snapshot cfg).
Proof using HI. apply stable_untimed. intros now. apply (preserves_snapshot cfg now), (stable_closed _ _ HI). Qed.

Lemma stable_open_runtime cfg store db :
  I db -> I (rt_db (open_runtime keys cfg store db).1).
Proof using HI.
  intros HI0. unfold open_runtime. destruct (limits_validate _) as [[]|]; [|done].
  destruct (domain _) as [id|]; [|done]. destruct (bool_decide _); [done|].
  destruct (open_identity cfg db) as [db'|] eqn:E; [|done].
  apply (preserves_bind I (snapshot cfg)); [apply stable_snapshot|intros _; apply preserves_ret|].
  cbn [rt_db]. exact (stable_open _ _ HI _ _ _ HI0 E).
Qed.

Lemma stable_step st st' : rt_step st st' -> I (rt_db st.2) -> I (rt_db st'.2).
Proof using HI.
  destruct 1 as [cfg rt signed method path now draws|cfg rt now|cfg rt|cfg rt applied|cfg rt id|cfg rt store
    |cfg rt cfg' store _|cfg rt cfg' store e _]; cbn [snd].
  - apply stable_handle.
  - apply stable_desired.
  - apply stable_snapshot.
  - apply stable_untimed. intros now. apply (preserves_acknowledge cfg now), (stable_closed _ _ HI).
  - apply stable_untimed. intros now. apply (preserves_republish cfg now), (stable_closed _ _ HI).
  - done.
  - apply stable_open_runtime.
  - apply stable_open_runtime.
Qed.

Lemma stable_run st st' : rtc rt_step st st' -> I (rt_db st.2) -> I (rt_db st'.2).
Proof using HI. induction 1; [done|]. eauto using stable_step. Qed.
End Stable.

(** ** Nonces *)

Definition tables db : list Nonce := db_nonces db ++ db_revocation_nonces db.

Definition row_of cfg (signed : SignedRequest) : Nonce :=
  mkNonce (hex (sr_signer signed)) (hex (sr_nonce signed)) (sr_timestamp signed + auth_window_seconds (cfg_limits cfg)).

Lemma sql_delete_expired now (l : list Nonce) n :
  n ∈ sql_delete (fun n => (nonce_expires n <? now)%Z) l <-> n ∈ l /\ (now <= nonce_expires n)%Z.
Proof. rewrite elem_of_sql_delete, Z.ltb_ge. tauto. Qed.

(** What a consumed nonce leaves in the database. *)
Lemma consume_nonce_tx_Ok cfg signed now db db' :
  consume_nonce_tx cfg signed now db = Ok db' ->
  db_identity db' = db_identity db /\ db_observed db' = db_observed db
  /\ (forall n, n ∈ tables db -> (now <= nonce_expires n)%Z ->
       n ∈ tables db' /\ is_nonce (hex (sr_signer signed)) (hex (sr_nonce signed)) n = false)
  /\ row_of cfg signed ∈ tables db'.
Proof.
  unfold consume_nonce_tx, sql_time. destruct (i64_max <? now)%Z; [done|]. cbv zeta.
  set (consumed := sql_delete _ (db_nonces db)). set (revoking := sql_delete _ (db_revocation_nonces db)).
  destruct (any _ consumed || any _ revoking) eqn:Ef; [done|]. destruct ((max_replays _ <=? _)%nat || _); [done|]. destruct (i64_max <? _)%Z; [done|].
  intros E. apply Ok_inj in E as <-. cbn [db_identity db_observed]. unfold tables. cbn [db_nonces db_revocation_nonces].
  split; [done|]. split; [done|]. split.
  - intros n Hn Hx. assert (Hin : n ∈ consumed \/ n ∈ revoking).
    { apply elem_of_app in Hn as [Hn|Hn]; [left|right]; by apply sql_delete_expired. }
    split; [destruct (is_revoke _); rewrite !elem_of_app; tauto|].
    apply orb_false_iff in Ef as [Ec Er]. rewrite any_false in Ec, Er. destruct Hin; auto.
  - unfold row_of. destruct (is_revoke _); rewrite !elem_of_app, list_elem_of_singleton; tauto.
Qed.

(** The window is pinned to the one the database was created with. *)
Definition window_is (w : Z) db : Prop := exists i, db_identity db = Some i /\ idt_window i = w.

(** A nonce is still recorded, or no time at which it could be used is left. *)
Definition spent (n : Nonce) db : Prop :=
  exists i, db_identity db = Some i /\ (n ∈ tables db \/ (nonce_expires n < idt_last_time i)%Z).

Definition spent_at (n : Nonce) (now : Z) db : Prop :=
  exists i, db_identity db = Some i /\ idt_last_time i = now /\ (n ∈ tables db \/ (nonce_expires n < idt_last_time i)%Z).

Lemma window_stable w : stable (window_is w) (fun _ => window_is w).
Proof.
  split.
  - intros db i now (j & Hj & <-) Hi _. rewrite Hi in Hj. injection Hj as <-. by eexists.
  - done.
  - intros db ?. by exists 0%Z.
  - intros cfg now. split; [done|done|done|]. intros db signed db' (i & Hi & Hw) (E & _)%consume_nonce_tx_Ok.
    exists i. by rewrite E.
  - intros cfg db db' (i & Hi & Hw) (j & -> & _ & Hj)%open_identity_Ok. rewrite Hi in Hj. subst j. by exists i.
Qed.

Lemma spent_stable n : stable (spent n) (spent_at n).
Proof.
  split.
  - intros db i now (j & Hj & Hn) Hi Hle. rewrite Hi in Hj. injection Hj as <-. eexists. split; [done|]. split; [done|].
    destruct Hn as [Hn|Hn]; [by left|right; cbn [idt_last_time]; lia].
  - intros db now (i & ? & _ & ?). by exists i.
  - intros db (i & ? & ?). exists (idt_last_time i). by exists i.
  - intros cfg now. split; [done|done|done|]. intros db signed db' (i & Hi & Hle & Hn) (E & _ & Hk & _)%consume_nonce_tx_Ok.
    exists i. rewrite E. split; [done|]. split; [done|]. destruct Hn as [Hn|Hn]; [|by right].
    destruct (Z.le_gt_cases now (nonce_expires n)); [left; by apply Hk|right; lia].
  - intros cfg db db' (i & Hi & Hn) (j & -> & _ & Hj)%open_identity_Ok. rewrite Hi in Hj. subst j. by exists i.
Qed.

Lemma observed_stable o : stable (fun db => o ∈ db_observed db) (fun _ db => o ∈ db_observed db).
Proof.
  split; [done|done|by exists 0%Z| |].
  - intros cfg now. split; [done| |done|].
    + intros db s t s' Ho (Hg & _)%observe_tx_Ok. by apply Hg.
    + intros db signed db' Ho (_ & E & _)%consume_nonce_tx_Ok. by rewrite E.
  - intros cfg db db' Ho (j & -> & _)%open_identity_Ok. done.
Qed.

(** The configuration of a running server agrees with its database. *)
Definition pinned (st : RuntimeConfig * Runtime) : Prop :=
  window_is (auth_window_seconds (cfg_limits st.1)) (rt_db st.2).

Lemma open_pinned cfg store db : (open_runtime keys cfg store db).2 = Ok tt -> pinned (cfg, (open_runtime keys cfg store db).1).
Proof.
  unfold open_runtime. destruct (limits_validate _) as [[]|]; [|done].
  destruct (domain _) as [id|]; [|done]. destruct (bool_decide _); [done|].
  destruct (open_identity cfg db) as [db'|] eqn:E; [|done]. intros _. unfold pinned. cbn [fst snd].
  apply (preserves_bind _ (snapshot cfg)); [apply (stable_snapshot _ _ (window_stable _))|intros _; apply preserves_ret|].
  cbn [rt_db]. apply open_identity_Ok in E as (i & -> & Hw & _). by exists i.
Qed.

Lemma pinned_step st st' : rt_step st st' -> pinned st -> pinned st'.
Proof.
  intros Hs Hp. pose proof (stable_step _ _ (window_stable (auth_window_seconds (cfg_limits st.1))) _ _ Hs Hp) as Hw.
  destruct Hs; try exact Hw. by apply open_pinned.
Qed.

Lemma pinned_run st st' : rtc rt_step st st' -> pinned st -> pinned st'.
Proof. induction 1; eauto using pinned_step. Qed.

Lemma reachable_pinned st : rt_reachable st -> pinned st.
Proof.
  intros (cfg & store & rt & Ho & Hrun). apply (pinned_run _ _ Hrun).
  pose proof (open_pinned cfg store empty_db) as Hp. rewrite Ho in Hp. by apply Hp.
Qed.

(** ** What an answer implies *)

Lemma bind_Ok {A B} (m : Rt A) (k : A -> Rt B) rt rt' b :
  bind m k rt = (rt', Ok b) -> exists rt0 a, m rt = (rt0, Ok a) /\ k a rt0 = (rt', Ok b).
Proof. unfold bind. destruct (m rt) as [rt0 [a|e]]; [by eauto|done]. Qed.

Lemma of_result_Ok {A} (r : result A RuntimeError) rt rt' a : of_result r rt = (rt', Ok a) -> rt' = rt /\ r = Ok a.
Proof. unfold of_result. intros E. injection E. auto. Qed.

Lemma handle_Ok cfg signed method path now draws rt rt' resp :
  handle cfg signed method path now draws rt = (rt', Ok resp) ->
  addressed cfg signed method path now = true
  /\ exists rt0 rt1 s, advance_clock now rt = (rt0, Ok tt) /\ snapshot cfg rt0 = (rt1, Ok s)
     /\ match recorded_revocation signed s with
        | Some (tgt, previous) => may_republish signed tgt s previous = Ok tt
            /\ exists rt2 r, consume_nonce cfg signed now rt1 = (rt2, Ok tt)
               /\ republish_revocation (rev_id previous) rt2 = (rt', Ok r) /\ resp = Revoked r
        | None => require_server cfg s now = Ok tt
            /\ exists rt2 rt3 e cs, authenticate cfg signed s now rt1 = (rt2, Ok e)
               /\ consume_nonce cfg signed now rt2 = (rt3, Ok tt)
               /\ dispatch cfg signed e s now draws (mkRuntime (rt_store rt3) (rt_db rt3) cs) = (rt', Ok resp)
        end.
Proof.
  unfold handle. intros (? & [] & [-> _]%of_result_Ok & E)%bind_Ok.
  destruct (addressed _ _ _ _ _); [|done]. cbn [negb] in E. split; [done|].
  apply bind_Ok in E as (rt0 & [] & Hc & E). apply bind_Ok in E as (rt1 & s & Hs & E).
  exists rt0, rt1, s. split; [done|]. split; [done|]. destruct (recorded_revocation signed s) as [[tgt previous]|].
  - apply bind_Ok in E as (? & [] & [-> Hm]%of_result_Ok & E). split; [done|].
    apply bind_Ok in E as (rt2 & [] & Hn & E). apply bind_Ok in E as (rt3 & r & Hr & E).
    exists rt2, r. injection E as -> <-. done.
  - apply bind_Ok in E as (? & [] & [-> Hm]%of_result_Ok & E). split; [done|].
    apply bind_Ok in E as (rt2 & e & Ha & E). apply bind_Ok in E as (rt3 & [] & Hn & E).
    exists rt2, rt3, e. eexists. split; [done|]. split; [done|]. exact E.
Qed.

Lemma consume_nonce_Ok cfg signed now rt rt' :
  consume_nonce cfg signed now rt = (rt', Ok tt) -> consume_nonce_tx cfg signed now (rt_db rt) = Ok (rt_db rt').
Proof.
  unfold consume_nonce, bind, get_db, of_result. destruct (consume_nonce_tx _ _ _ _) as [db'|]; [|done].
  unfold put_db. intros E. injection E as <-. done.
Qed.

Lemma preserves_Ok P {A} (m : Rt A) rt rt' r : preserves P m -> m rt = (rt', r) -> P (rt_db rt) -> P (rt_db rt').
Proof. intros Hm E HP. specialize (Hm rt HP). by rewrite E in Hm. Qed.

(** Whoever was answered has spent the nonce. *)
Lemma answered_is_spent cfg signed method path now draws rt rt' resp :
  handle cfg signed method path now draws rt = (rt', Ok resp) -> spent (row_of cfg signed) (rt_db rt').
Proof.
  intros (_ & rt0 & rt1 & s & Hc & Hs & Hrest)%handle_Ok.
  pose (Q := fun db => exists i, db_identity db = Some i /\ idt_last_time i = now).
  assert (HQ : closed cfg now Q).
  { split; [done|done|done|]. intros db sg db' (i & Hi & Ht) (E & _)%consume_nonce_tx_Ok. exists i. by rewrite E. }
  assert (Hclosed := stable_closed _ _ (spent_stable (row_of cfg signed)) cfg now).
  assert (HQ0 : Q (rt_db rt0)).
  { destruct (advance_clock_cases now rt) as [E|[E|(i & Hi & _ & _ & E)]]; rewrite E in Hc; [done..|].
    injection Hc as <-. by eexists. }
  assert (Hconsumed : forall a b, Q (rt_db a) -> consume_nonce cfg signed now a = (b, Ok tt) -> spent_at (row_of cfg signed) now (rt_db b)).
  { intros a b (i & Hi & Ht) (E & _ & _ & Hr)%consume_nonce_Ok%consume_nonce_tx_Ok. exists i. rewrite E. auto. }
  assert (HQ1 := preserves_Ok _ _ _ _ _ (preserves_snapshot cfg now Q HQ) Hs HQ0).
  apply (stable_leave _ _ (spent_stable _) _ now). destruct (recorded_revocation signed s) as [[tgt previous]|].
  - destruct Hrest as (_ & rt2 & r & Hn & Hr & _).
    exact (preserves_Ok _ _ _ _ _ (preserves_republish cfg now _ Hclosed _) Hr (Hconsumed _ _ HQ1 Hn)).
  - destruct Hrest as (_ & rt2 & rt3 & e & cs & Ha & Hn & Hd).
    assert (HQ2 := preserves_Ok _ _ _ _ _ (preserves_authenticate cfg now Q HQ signed s now) Ha HQ1).
    refine (preserves_Ok _ _ _ _ _ (preserves_dispatch cfg now _ Hclosed _ _ _ _ _) Hd _). cbn [rt_db].
    exact (Hconsumed _ _ HQ2 Hn).
Qed.

(** A request with a spent nonce is refused. *)
Lemma spent_is_refused cfg signed signed' method path now draws rt :
  spent (row_of cfg signed) (rt_db rt) ->
  sr_signer signed' = sr_signer signed -> sr_nonce signed' = sr_nonce signed -> (sr_timestamp signed' <= sr_timestamp signed)%Z ->
  is_ok (handle cfg signed' method path now draws rt).2 = false.
Proof.
  intros Hsp Es En Et. destruct (handle _ _ _ _ _ _ rt) as [rt' [resp|e]] eqn:E; [exfalso|done].
  apply handle_Ok in E as (Ha & rt0 & rt1 & s & Hc & Hs & Hrest).
  assert (Hwin : (now <= nonce_expires (row_of cfg signed))%Z).
  { unfold addressed in Ha. bool_to_prop. cbn [row_of nonce_expires]. lia. }
  assert (Hclosed := stable_closed _ _ (spent_stable (row_of cfg signed)) cfg now).
  assert (H0 : spent_at (row_of cfg signed) now (rt_db rt0)).
  { destruct (advance_clock_cases now rt) as [E|[E|(i & Hi & Hle & _ & E)]]; rewrite E in Hc; [done..|].
    injection Hc as <-. by apply (stable_enter _ _ (spent_stable _)). }
  assert (H1 := preserves_Ok _ _ _ _ _ (preserves_snapshot cfg now _ Hclosed) Hs H0).
  assert (Hno : forall a b, spent_at (row_of cfg signed) now (rt_db a) -> consume_nonce cfg signed' now a = (b, Ok tt) -> False).
  { intros a b (i & _ & Ht & Hin) (_ & _ & Hk & _)%consume_nonce_Ok%consume_nonce_tx_Ok. destruct Hin as [Hin|]; [|lia].
    destruct (Hk _ Hin Hwin) as [_ Hn]. unfold is_nonce in Hn. cbn [row_of nonce_signer nonce_value] in Hn.
    unfold str_eqb in Hn. rewrite Es, En, !bool_decide_true in Hn by done. done. }
  destruct (recorded_revocation signed' s) as [[tgt previous]|].
  - destruct Hrest as (_ & rt2 & r & Hn & _). exact (Hno _ _ H1 Hn).
  - destruct Hrest as (_ & rt2 & rt3 & e & cs & Hau & Hn & _).
    exact (Hno _ _ (preserves_Ok _ _ _ _ _ (preserves_authenticate cfg now _ Hclosed signed' s now) Hau H1) Hn).
Qed.

(** Whatever happens after an answer, its nonce is refused. *)
Lemma never_answered_again cfg rt signed method path now draws rt1 resp cfg2 rt2 signed' method' path' now' draws' :
  rt_reachable (cfg, rt) ->
  handle cfg signed method path now draws rt = (rt1, Ok resp) ->
  rtc rt_step (cfg, rt1) (cfg2, rt2) ->
  sr_signer signed' = sr_signer signed -> sr_nonce signed' = sr_nonce signed -> (sr_timestamp signed' <= sr_timestamp signed)%Z ->
  is_ok (handle cfg2 signed' method' path' now' draws' rt2).2 = false.
Proof.
  intros Hr Hh Hrun. assert (Hp1 : pinned (cfg, rt1)).
  { apply (pinned_step (cfg, rt)); [|by apply reachable_pinned]. replace rt1 with (handle cfg signed method path now draws rt).1 by (by rewrite Hh).
    apply step_handle. }
  assert (Hw := pinned_run _ _ Hrun Hp1).
  assert (Hw' := stable_run _ _ (window_stable _) _ _ Hrun Hp1).
  apply spent_is_refused. replace (row_of cfg2 signed) with (row_of cfg signed).
  - exact (stable_run _ _ (spent_stable _) _ _ Hrun (answered_is_spent _ _ _ _ _ _ _ _ _ Hh)).
  - destruct Hw as (i & Hi & Ei), Hw' as (j & Hj & Ej). cbn [fst snd] in *. unfold row_of. do 2 f_equal. congruence.
Qed.

(** C26: once a request was answered, no request with its signer and nonce and with no later
    time is ever answered again, whatever happens in between: other requests,
    reconciliations, changes of the store, restarts with other configurations. *)
Theorem request_answered_once cfg rt signed method path now draws rt1 resp cfg2 rt2 signed' method' path' now' draws' :
  rt_reachable (cfg, rt) ->
  handle cfg signed method path now draws rt = (rt1, Ok resp) ->
  rtc rt_step (cfg, rt1) (cfg2, rt2) ->
  sr_signer signed' = sr_signer signed -> sr_nonce signed' = sr_nonce signed -> (sr_timestamp signed' <= sr_timestamp signed)%Z ->
  is_ok (handle cfg2 signed' method' path' now' draws' rt2).2 = false.
Proof. apply never_answered_again. Qed.

(** ** Snapshots and the state of the host *)

(** [t] holds the record of [r]. *)
Definition recorded db (r : Revocation) : Prop := records_of "revocation" revocation_parse (db_observed db) r.

Lemma snapshot_Ok cfg rt rt' s :
  snapshot cfg rt = (rt', Ok s) ->
  (forall m, m ∈ members s <-> records_of "member" member_parse (db_observed (rt_db rt')) m)
  /\ (forall r, r ∈ revocations s <-> recorded (rt_db rt') r)
  /\ network s = cfg_network cfg /\ valid_registry s
  /\ (forall o, o ∈ db_observed (rt_db rt) -> o ∈ db_observed (rt_db rt')) /\ db_pending (rt_db rt') = db_pending (rt_db rt).
Proof.
  unfold snapshot, with_registry. destruct (db_failed (rt_db rt)); [done|].
  unfold bind at 1, call_store. destruct (store_snapshot (rt_store rt)) as [st [s0|e]]; [|by destruct (latches _ _)].
  unfold observe, bind, get_db, of_result, put_db, ret. cbn [rt_db].
  destruct (observe_tx cfg (db_observed (rt_db rt)) s0) as [[t s']|e] eqn:E; [|by destruct (latches _ _)].
  cbn [latches]. intros E'. injection E' as <- <-. cbn [rt_db set_observed db_observed].
  apply observe_tx_Ok in E as (Hg & Hm & Hr & Hn & Hv). split_and!; [done..|by apply registry_validate_iff|done|done].
Qed.

Lemma authorized_unrevoked s now m r : valid_registry s -> authorized s now m -> r ∈ revocations s -> ~ hits r m.
Proof.
  intros Hv (_ & [_ Hd] & _)%authorized_candidate Hr Hh. unfold denied in Hd.
  destruct (ssh_fingerprint _) as [f|] eqn:Ef; [|done]. apply Ok_inj in Hd. rewrite any_false in Hd.
  specialize (Hd r Hr). cbn beta in Hd. apply orb_false_iff in Hd as [[H1 H2]%orb_false_iff H3].
  apply bool_decide_eq_false in H1, H2, H3. unfold hits, ssh_of in Hh. rewrite Ef in Hh.
  destruct Hh as [?|[?|E]]; [done..|]. injection E as E. done.
Qed.

(** The server has its own admission to serve with. *)
Definition serves cfg s now : Prop :=
  exists m, authorized s now m /\ device_id m = cfg_server_id cfg /\ is_server (kind m) = true /\ server_admin (permissions m) = true.

Lemma require_server_iff cfg s now : valid_registry s -> require_server cfg s now = Ok tt <-> serves cfg s now.
Proof.
  intros Hv. unfold require_server, serves. destruct (effective_members_spec s now Hv) as (e & -> & He). cbn [domain map_err].
  destruct (e !! cfg_server_id cfg) as [m|] eqn:Em.
  - destruct (is_server (kind m) && server_admin (permissions m)) eqn:Eb.
    + split; [|done]. intros _. apply He in Em as [Ha Hd]. bool_to_prop. by exists m.
    + split; [done|]. intros (m' & Ha & Hd & Hk & Hp). assert (Em' : e !! cfg_server_id cfg = Some m') by (by apply He).
      rewrite Em in Em'. injection Em' as ->. by rewrite Hk, Hp in Eb.
  - split; [done|]. intros (m' & Ha & Hd & _). assert (Em' : e !! cfg_server_id cfg = Some m') by (by apply He). congruence.
Qed.

Lemma require_server_serving cfg s now : is_ok (require_server cfg s now) = true <-> require_server cfg s now = Ok tt.
Proof. by destruct (require_server cfg s now) as [[]|]. Qed.

Lemma elem_of_in_order (e : gmap str Member) m : m ∈ in_order e <-> exists id, e !! id = Some m.
Proof.
  unfold in_order. rewrite list_elem_of_fmap. setoid_rewrite sort_by_perm. split.
  - intros ([id x] & -> & H0). exists id. by apply elem_of_map_to_list.
  - intros [id Hi]. exists (id, m). split; [done|]. by apply elem_of_map_to_list.
Qed.

Lemma desired_host_state_Ok cfg now rt rt' h :
  desired_host_state keys cfg now rt = (rt', Ok h) ->
  exists rt0, advance_clock now rt = (rt0, Ok tt) /\ snapshot cfg rt0 = (rt', Ok (host_snapshot h))
    /\ exists ms, host_peers h = peer_of <$> ms /\ host_ssh h = omap ssh_of_member ms
       /\ forall m, m ∈ ms <-> serves cfg (host_snapshot h) now /\ authorized (host_snapshot h) now m /\ device_id m <> cfg_server_id cfg.
Proof.
  unfold desired_host_state. intros (rt0 & [] & Hc & E)%bind_Ok. apply bind_Ok in E as (rt1 & s & Hs & E). cbv zeta in E.
  apply bind_Ok in E as (? & e & [-> He]%of_result_Ok & E). apply bind_Ok in E as (? & w & [-> Hw]%of_result_Ok & E).
  injection E as <- <-. cbn [host_snapshot host_peers host_ssh]. exists rt0. split; [done|]. split; [done|].
  eexists. split; [done|]. split; [done|]. intros m.
  assert (Hv : valid_registry s) by apply (snapshot_Ok _ _ _ _ Hs).
  destruct (effective_members s now) as [e'|] eqn:Ee; [|done]. cbn [domain map_err] in He. apply Ok_inj in He as <-.
  apply effective_inv in Ee as [_ Hl].
  rewrite elem_of_retain, elem_of_in_order, andb_true_iff, negb_true_iff, bool_decide_eq_false.
  rewrite <- (require_server_iff cfg s now Hv), require_server_serving. setoid_rewrite Hl. split.
  - intros ((? & ?) & id & ? & ?). done.
  - intros (? & ? & ?). split; [done|]. by exists (device_id m).
Qed.

Lemma recorded_run r st st' : rtc rt_step st st' -> recorded (rt_db st.2) r -> recorded (rt_db st'.2) r.
Proof.
  intros Hrun (o & Ho & Hk). exists o. split; [|done]. exact (stable_run _ _ (observed_stable o) _ _ Hrun Ho).
Qed.

(** What is observed is in the table afterwards. *)
Lemma observe_record_has kind id payload t t' :
  observe_record kind id payload t = Ok t' -> exists o, o ∈ t' /\ obs_kind o = kind /\ obs_payload o = payload.
Proof.
  unfold observe_record. destruct (find_first _ t) as [old|] eqn:Ef.
  - case_bool_decide; [done|]. intros E. apply Ok_inj in E as <-. apply find_first_Some in Ef as [Hs Hin].
    exists old. unfold same_record in Hs. bool_to_prop. unfold str_eqb in *. bool_to_prop. done.
  - intros E. apply Ok_inj in E as <-. exists (mkObserved kind id payload). split; [|done].
    unfold sql_insert_or_ignore. destruct (any _ t) eqn:Ea; [|apply elem_of_app; right; left].
    apply any_true in Ea as (o & Ho & Hs). by rewrite (proj1 (find_first_None _ _) Ef o Ho) in Hs.
Qed.

Lemma observe_revocations_has `{!RuntimeJsonLaws J} rs t t' r :
  observe_revocations rs t = Ok t' -> r ∈ rs -> records_of "revocation" revocation_parse t' r.
Proof.
  revert t. induction rs as [|x rs IH]; intros t E Hr; [by apply elem_of_nil in Hr|]. cbn [observe_revocations] in E.
  destruct (revocation_json x) as [payload|] eqn:Ej; [|done]. cbn [json ok_or] in E.
  destruct (observe_record _ _ _ t) as [t1|] eqn:E1; [|done].
  apply elem_of_cons in Hr as [->|Hr]; [|by apply (IH t1)].
  destruct (observe_record_has _ _ _ _ _ E1) as (o & Ho & Hk & Hp). exists o.
  split; [by apply (observe_revocations_grows rs t1)|]. split; [done|]. rewrite Hp. by apply revocation_read_back.
Qed.

Lemma observe_Ok `{!RuntimeJsonLaws J} cfg s rt rt' s' r :
  observe cfg s rt = (rt', Ok s') -> r ∈ revocations s -> recorded (rt_db rt') r.
Proof.
  unfold observe, bind, get_db, of_result, put_db, ret, observe_tx.
  destruct (bound_projection s) as [s1|] eqn:E0; [|done]. destruct (validate_snapshot cfg s1); [|done].
  destruct (observe_members _ _) as [t1|] eqn:E1; [|done]. destruct (observe_revocations _ t1) as [t2|] eqn:E2; [|done].
  destruct (read_observed _ _ _ _ _) as [[ms rs]|]; [|done].
  destruct (bound_projection (mkSnapshot _ _ _ _)) as [s2|]; [|done]. destruct (validate_snapshot cfg s2); [|done].
  intros E Hr. injection E as <- _. unfold recorded. cbn [rt_db set_observed db_observed].
  apply bound_projection_records in E0 as (_ & _ & Er). rewrite <- Er in Hr. exact (observe_revocations_has _ _ _ _ E2 Hr).
Qed.

Lemma with_registry_Ok {A} op (m : Rt A) rt rt' a : with_registry op m rt = (rt', Ok a) -> m rt = (rt', Ok a).
Proof.
  unfold with_registry. destruct (db_failed _); [done|]. destruct (m rt) as [rt0 r0]. intros E. injection E as <- ->. done.
Qed.

Lemma call_store_Ok {A} (f : Store -> Store * result A RuntimeError) rt rt' a : call_store f rt = (rt', Ok a) -> rt_db rt' = rt_db rt.
Proof. unfold call_store. destruct (f (rt_store rt)) as [st r0]. intros E. injection E as <- _. done. Qed.

Lemma republish_Ok id rt rt' r : republish_revocation id rt = (rt', Ok r) -> recorded (rt_db rt') r.
Proof.
  unfold republish_revocation. intros E%with_registry_Ok. unfold bind at 1, get_db in E.
  destruct (find_first _ (db_observed (rt_db rt))) as [o|] eqn:Ef; [|done]. destruct (_ <? _)%Z; [done|].
  apply bind_Ok in E as (? & r0 & [-> Hj]%of_result_Ok & E). destruct (bool_decide _); [done|].
  apply bind_Ok in E as (rt1 & [] & Hc & E). injection E as <- <-. apply call_store_Ok in Hc.
  apply find_first_Some in Ef as [Hs Hin]. exists o. rewrite Hc. unfold same_record in Hs. apply andb_true_iff in Hs as [Hk _].
  apply bool_decide_eq_true in Hk. split; [done|]. split; [done|].
  destruct (revocation_parse _) as [r1|]; [|done]. cbn [json ok_or] in Hj. apply Ok_inj in Hj. by f_equal.
Qed.

(** Every answer of an action is of a kind. *)
Definition answers {A} (Q : A -> Prop) (m : Rt A) : Prop := forall rt rt' a, m rt = (rt', Ok a) -> Q a.

Lemma answers_bind {A B} Q (m : Rt A) (k : A -> Rt B) : (forall a, answers Q (k a)) -> answers Q (bind m k).
Proof. intros Hk rt rt' b (rt0 & a & _ & E)%bind_Ok. exact (Hk _ _ _ _ E). Qed.

Lemma answers_ret {A} (Q : A -> Prop) a : Q a -> answers Q (ret a).
Proof. intros HQ rt rt' b E. by injection E as _ <-. Qed.

Lemma answers_fail {A} (Q : A -> Prop) e : answers Q (throw e).
Proof. intros rt rt' b E. done. Qed.

Ltac answer :=
  repeat first
    [ apply answers_fail | apply answers_ret | apply answers_bind; intros ? | progress cbv zeta
    | match goal with |- answers _ (match ?x with _ => _ end) => destruct x end
    | match goal with |- answers _ (match ?x with _ => _ end _) => destruct x end ].

Definition not_revoked (a : RpcResponse) : Prop := match a with Revoked _ => False | _ => True end.

Lemma dispatch_Revoked `{!RuntimeJsonLaws J} cfg signed e s now draws rt rt' r :
  dispatch cfg signed e s now draws rt = (rt', Ok (Revoked r)) -> recorded (rt_db rt') r.
Proof.
  assert (Hother : is_revoke (sr_request signed) = false -> answers not_revoked (dispatch cfg signed e s now draws)).
  { unfold dispatch, approve_pending, begin_challenge, complete_challenge. destruct (sr_request signed); intros Hr; [answer; exact I..|done]. }
  intros E. destruct (is_revoke (sr_request signed)) eqn:Er; [clear Hother|by destruct (Hother eq_refl _ _ _ E)].
  unfold dispatch in E. destruct (sr_request signed) as [| | | | |id tgt]; try done.
  apply bind_Ok in E as (? & r0 & [-> Hp]%of_result_Ok & E). cbv zeta in E.
  apply bind_Ok in E as (rt1 & [] & Hm%with_registry_Ok & E). injection E as <- <-.
  apply bind_Ok in Hm as (rt2 & s' & Ho & Hc%call_store_Ok). rewrite Hc. apply (observe_Ok _ _ _ _ _ _ Ho).
  cbn [revocations]. case_bool_decide; [done|]. apply elem_of_app. right. left.
Qed.

Lemma handle_Revoked `{!RuntimeJsonLaws J} cfg signed method path now draws rt rt' r :
  handle cfg signed method path now draws rt = (rt', Ok (Revoked r)) -> recorded (rt_db rt') r.
Proof.
  intros (_ & rt0 & rt1 & s & _ & _ & Hrest)%handle_Ok. destruct (recorded_revocation signed s) as [[tgt previous]|].
  - destruct Hrest as (_ & rt2 & r' & _ & Hr & E). injection E as ->. exact (republish_Ok _ _ _ _ Hr).
  - destruct Hrest as (_ & rt2 & rt3 & e & cs & _ & _ & Hd). exact (dispatch_Revoked _ _ _ _ _ _ _ _ _ Hd).
Qed.

(** C27: a revocation is final on this server.  Once it has answered a revocation, or seen it
    in a snapshot, then whatever happens later (requests, restarts, a store that forgets or
    changes its records): every later snapshot holds the revocation and is valid, no device
    that it hits is a member in it at any time, and no later state of the host has a peer or
    an SSH key of such a device. *)
Theorem revocation_is_final `{!RuntimeJsonLaws J} cfg rt rt1 r cfg2 rt2 :
  (exists signed method path now draws, handle cfg signed method path now draws rt = (rt1, Ok (Revoked r)))
  \/ (exists s, snapshot cfg rt = (rt1, Ok s) /\ r ∈ revocations s) ->
  rtc rt_step (cfg, rt1) (cfg2, rt2) ->
  (forall rt3 s, snapshot cfg2 rt2 = (rt3, Ok s) ->
     valid_registry s /\ r ∈ revocations s /\ forall now m, authorized s now m -> ~ hits r m)
  /\ (forall now rt3 h, desired_host_state keys cfg2 now rt2 = (rt3, Ok h) ->
       (forall p, p ∈ host_peers h -> peer_device_id p <> target r /\ wg_fingerprint (peer_public_key p) <> rev_wg_fingerprint r)
       /\ forall a, a ∈ host_ssh h ->
            auth_device_id a <> target r /\ ssh_fingerprint (auth_public_key a) <> Ok (rev_ssh_fingerprint r)).
Proof.
  intros Hr Hrun. assert (Hrec : recorded (rt_db rt2) r).
  { apply (recorded_run r _ _ Hrun). cbn [snd]. destruct Hr as [(? & ? & ? & ? & ? & Hh)|(s & Hs & Hin)].
    - exact (handle_Revoked _ _ _ _ _ _ _ _ _ Hh).
    - by apply (snapshot_Ok _ _ _ _ Hs). }
  assert (Hsnap : forall rt0 rt3 s, rt_db rt0 = rt_db rt2 \/ recorded (rt_db rt0) r -> snapshot cfg2 rt0 = (rt3, Ok s) ->
    valid_registry s /\ r ∈ revocations s /\ forall now m, authorized s now m -> ~ hits r m).
  { intros rt0 rt3 s H0 (_ & Hrv & _ & Hv & Hg & _)%snapshot_Ok. split; [done|].
    assert (Hin : r ∈ revocations s).
    { apply Hrv. assert (H0' : recorded (rt_db rt0) r) by (destruct H0 as [->|]; done). destruct H0' as (o & Ho & Hk). exists o. auto. }
    split; [done|]. intros now m Ha. by apply (authorized_unrevoked s now). }
  split; [intros rt3 s; apply Hsnap; auto|]. intros now rt3 h (rt0 & Hc & Hs & ms & -> & -> & Hms)%desired_host_state_Ok.
  assert (H0 : recorded (rt_db rt0) r).
  { destruct (advance_clock_cases now rt2) as [E|[E|(i & _ & _ & _ & E)]]; rewrite E in Hc; [done..|]. by injection Hc as <-. }
  destruct (Hsnap _ _ _ (or_intror H0) Hs) as (_ & _ & Hno). split.
  - intros p (m & -> & (_ & Ha & _)%Hms)%list_elem_of_fmap. specialize (Hno _ _ Ha). cbn [peer_of peer_device_id peer_public_key].
    split; intros E; apply Hno; [by left|right; by left].
  - intros a (m & (_ & Ha & _)%Hms & Es)%list_elem_of_omap. specialize (Hno _ _ Ha). unfold ssh_of_member in Es.
    destruct (ssh_user _); [|done]. injection Es as <-. cbn [auth_device_id auth_public_key].
    split; intros E; apply Hno; [by left|right; by right].
Qed.

(** The host is configured exactly as the members are.  The peers are the effective
    members other than this server, if this server is one with server administration, and
    nobody otherwise; the SSH keys are those of the peers with an SSH user.  No two peers
    share a key or an address, so that no device receives the traffic of another. *)
Lemma host_state_is_membership cfg now rt rt' h :
  desired_host_state keys cfg now rt = (rt', Ok h) ->
  network (host_snapshot h) = cfg_network cfg
  /\ (forall p, p ∈ host_peers h <->
        serves cfg (host_snapshot h) now
        /\ exists m, authorized (host_snapshot h) now m /\ device_id m <> cfg_server_id cfg /\ p = peer_of m)
  /\ (forall a, a ∈ host_ssh h <->
        serves cfg (host_snapshot h) now
        /\ exists m, authorized (host_snapshot h) now m /\ device_id m <> cfg_server_id cfg /\ ssh_of_member m = Some a)
  /\ (forall p p', p ∈ host_peers h -> p' ∈ host_peers h ->
        peer_device_id p = peer_device_id p' \/ peer_public_key p = peer_public_key p' \/ peer_allowed_ip p = peer_allowed_ip p' ->
        p = p').
Proof.
  intros (rt0 & Hc & Hs & ms & -> & -> & Hms)%desired_host_state_Ok. set (s := host_snapshot h) in *.
  apply snapshot_Ok in Hs as (_ & _ & Hn & Hv & _). split; [done|]. split; [|split].
  - intros p. rewrite list_elem_of_fmap. setoid_rewrite Hms. split; [intros (m & -> & ? & ? & ?); eauto 10|].
    intros (? & m & ? & ? & ->). eauto 10.
  - intros a. rewrite list_elem_of_omap. setoid_rewrite Hms. split; [intros (m & (? & ? & ?) & ?); eauto 10|].
    intros (? & m & ? & ? & ?). eauto 10.
  - intros p p' (m & -> & (_ & Hm & _)%Hms)%list_elem_of_fmap (m' & -> & (_ & Hm' & _)%Hms)%list_elem_of_fmap Hsame.
    apply authorized_candidate in Hm, Hm'. f_equal. apply (candidate_unique s now); [done..|].
    destruct Hsame as [E|Hsame]; [done|]. destruct (proj1 Hv) as [Hf Hcomp]. rewrite Forall_forall in Hf.
    destruct (Hcomp m m') as [_ Hb]; [apply Hm|apply Hm'|]. apply Hb; [apply Hm|apply Hm'|].
    destruct Hsame as [E|E]; [by left|]. right. right. unfold address_of, wg_of.
    destruct (Hf m) as (_ & E1 & _); [apply Hm|]. destruct (Hf m') as (_ & E2 & _); [apply Hm'|].
    rewrite <- E1 at 1. rewrite <- E2. exact E.
Qed.

(** ** Who is answered *)

(** The request was signed with the SSH key of the effective member that it names. *)
Definition signed_by (signed : SignedRequest) s (now : Z) (m : Member) : Prop :=
  authorized s now m /\ device_id m = sr_signer signed /\ signed_verify signed (ssh_of m) = Ok tt.

(** The applicant of a pending approval that has not expired. *)
Definition signed_by_applicant cfg db (signed : SignedRequest) (id : str) (now : Z) (e : Entitlement) : Prop :=
  (exists p, p ∈ db_pending db /\ pend_id p = hex id /\ (now < pend_expires p)%Z /\ entitlement_parse (pend_payload p) = Some e)
  /\ device_id_for (gr_request (en_grant e)) (net_id (cfg_network cfg)) = Ok (sr_signer signed)
  /\ signed_verify signed (er_ssh_public_key (gr_request (en_grant e))) = Ok tt.

(** The administrator that has revoked the same device with the same identifier before. *)
Definition signed_by_revoker (signed : SignedRequest) s (id tgt : str) (m : Member) : Prop :=
  m ∈ members s /\ device_id m = sr_signer signed /\ signed_verify signed (ssh_of m) = Ok tt
  /\ wg_verified m = true /\ network_admin (permissions m) = true
  /\ exists previous, previous ∈ revocations s /\ rev_id previous = id /\ rev_by previous = sr_signer signed /\ target previous = tgt.

(** What a device signs verifies under its own key. *)
Lemma signed_sign_verifies `{!SshLaws S} k network server device_kind t (req : RpcRequest) nonce signed key :
  signed_sign k network server device_kind t req nonce = Ok signed -> ssh_public_key k = Ok key -> signed_verify signed key = Ok tt.
Proof.
  unfold signed_sign. destruct (domain (keys_device_id _ _ _)) as [signer|]; [|done]. cbv zeta.
  destruct (rpc_transcript _) as [bytes|] eqn:Et; [|done]. destruct (ssh_sign _ _ _) as [g|] eqn:Eg; [|done]. cbn [ssh ok_or domain map_err].
  destruct (sig_to_pem g) as [pem|] eqn:Ep; [|done]. cbn [ssh ok_or domain map_err]. destruct (check_size _) as [[]|] eqn:Ec; [|done].
  intros E Hk. apply Ok_inj in E as <-. unfold signed_verify. rewrite Ec. cbn [sr_signature].
  destruct (pem_read_back _ _ _ _ _ Eg Ep) as [-> _], (sign_verifies _ _ _ _ Eg) as [-> Hv]. cbn [negb]. rewrite Ep.
  rewrite bool_decide_eq_false_2 by tauto. rewrite (ssh_public_key_Ok k _ Hk). cbn [ssh ok_or domain map_err].
  change (rpc_transcript (mkSigned network server signer t nonce req pem)) with (rpc_transcript (mkSigned network server signer t nonce req [])).
  by rewrite Et, Hv.
Qed.

Lemma may_republish_Ok signed id tgt s previous :
  sr_request signed = Revoke id tgt -> previous ∈ revocations s -> rev_id previous = id ->
  may_republish signed tgt s previous = Ok tt -> exists m, signed_by_revoker signed s id tgt m.
Proof.
  intros Hr Hp Hid. unfold may_republish. destruct (_ || _) eqn:Eo; [done|].
  destruct (find_first _ (members s)) as [m|] eqn:Ef; [|done]. apply find_first_Some in Ef as [Hd Hm].
  destruct (signed_verify _ _) as [[]|] eqn:Ev; [|done].
  destruct (wg_verified m) eqn:Ew; [|done]. destruct (network_admin (permissions m)) eqn:En; [|done]. intros _.
  apply orb_false_iff in Eo as [E1 E2]. apply bool_decide_eq_false in E1, E2. apply bool_decide_eq_true in Hd.
  exists m. split_and!; try done. exists previous. split_and!; try done; by apply dec_stable.
Qed.

Lemma pending_Ok id now rt rt' e :
  pending id now rt = (rt', Ok e) ->
  exists p, p ∈ db_pending (rt_db rt) /\ pend_id p = hex id /\ (now < pend_expires p)%Z /\ entitlement_parse (pend_payload p) = Some e.
Proof.
  unfold pending. intros (? & t & [-> Ht]%of_result_Ok & E)%bind_Ok. unfold bind, get_db in E.
  unfold sql_time in Ht. destruct (_ <? _)%Z; [done|]. apply Ok_inj in Ht as <-.
  destruct (find_first _ _) as [p|] eqn:Ef; [|done]. apply find_first_Some in Ef as [Hp Hin]. apply andb_true_iff in Hp as [Hi Ht].
  destruct (MAX_RECORD_BYTES * 2 <? _)%Z; [done|]. apply of_result_Ok in E as [_ E]. apply bool_decide_eq_true in Hi. exists p.
  split_and!; [done|done|lia|]. destruct (entitlement_parse _) as [e'|]; [|done]. apply Ok_inj in E. by f_equal.
Qed.

Lemma authenticate_Ok cfg signed s now rt rt' e :
  valid_registry s -> authenticate cfg signed s now rt = (rt', Ok e) ->
  match sr_request signed with
  | Begin id | Complete id _ _ => exists x, e = Some x /\ signed_by_applicant cfg (rt_db rt) signed id now x
  | r => exists m, signed_by signed s now m
           /\ (match r with Approve _ | Revoke _ _ => true | _ => false end = true -> network_admin (permissions m) = true)
  end.
Proof.
  intros Hv. unfold authenticate.
  assert (Happ : forall id, (let* x := pending id now in
      let* own := of_result (domain (device_id_for (gr_request (en_grant x)) (net_id (cfg_network cfg)))) in
      if bool_decide (own <> sr_signer signed) then throw Authentication
      else let* _ := of_result (signed_verify signed (er_ssh_public_key (gr_request (en_grant x)))) in ret (Some x)) rt = (rt', Ok e) ->
    exists x, e = Some x /\ signed_by_applicant cfg (rt_db rt) signed id now x).
  { intros id (rt1 & x & Hp%pending_Ok & E)%bind_Ok. apply bind_Ok in E as (? & own & [-> Ho]%of_result_Ok & E).
    case_bool_decide as Hne; [done|]. apply bind_Ok in E as (? & [] & [-> Hs]%of_result_Ok & E). injection E as _ <-.
    exists x. split; [done|]. split; [done|]. split; [|done].
    destruct (device_id_for _ _) as [d|]; [|done]. apply Ok_inj in Ho. f_equal. congruence. }
  assert (Hmem : forall b : bool, (let* effective := of_result (domain (effective_members s now)) in
      match effective !! sr_signer signed with
      | None => throw Denied
      | Some m => let* _ := of_result (signed_verify signed (er_ssh_public_key (request m))) in
          if b && negb (network_admin (permissions m)) then throw Denied else ret (@None Entitlement)
      end) rt = (rt', Ok e) ->
    exists m, signed_by signed s now m /\ (b = true -> network_admin (permissions m) = true)).
  { intros b (? & ef & [-> He]%of_result_Ok & E)%bind_Ok. destruct (effective_members s now) as [ef'|] eqn:Ee; [|done].
    apply Ok_inj in He as <-. apply effective_inv in Ee as [_ Hl].
    destruct (ef' !! sr_signer signed) as [m|] eqn:Em; [|done]. apply Hl in Em as [Ha Hd].
    apply bind_Ok in E as (? & [] & [-> Hs]%of_result_Ok & E). exists m. split; [done|]. intros ->.
    by destruct (network_admin (permissions m)). }
  destruct (sr_request signed); first [apply Happ | apply Hmem].
Qed.

Lemma addressed_iff cfg signed method path now :
  addressed cfg signed method path now = true ->
  sr_network_id signed = net_id (cfg_network cfg) /\ sr_server_id signed = cfg_server_id cfg /\ method = bs "POST"
  /\ path = rpc_path (sr_request signed) /\ (Z.abs (sr_timestamp signed - now) <= auth_window_seconds (cfg_limits cfg))%Z.
Proof.
  unfold addressed. rewrite negb_true_iff, !orb_false_iff, !bool_decide_eq_false. intros (((((H1 & H2) & H3) & H4) & _) & H5).
  apply dec_stable in H1, H2, H3, H4. split_and!; [done..|lia].
Qed.

(** What is checked on the way to each answer. *)
Lemma dispatch_Ok cfg signed e s now draws rt rt' resp :
  valid_registry s -> dispatch cfg signed e s now draws rt = (rt', Ok resp) ->
  match sr_request signed with
  | Authorize action => action_validate action = Ok tt
      /\ exists m, authorized s now m /\ device_id m = sr_signer signed /\ resp = Authorized (sr_signer signed) (permissions m) action
  | Approve grant => check_grant cfg (mkEntitlement grant (sr_signer signed) None) s now = Ok tt
  | Begin _ | Complete _ _ _ => exists x, e = Some x /\ check_grant cfg x s now = Ok tt
  | Snapshot => resp = SnapshotOf s
  | Revoke id tgt => exists r, resp = Revoked r /\ plan_revocation s id (sr_signer signed) tgt now = Ok r
  end.
Proof.
  intros Hv. unfold dispatch. destruct (sr_request signed) as [action|grant|id|id cid proof| |id tgt]; intros E.
  - apply bind_Ok in E as (? & [] & [-> Ha]%of_result_Ok & E). apply bind_Ok in E as (? & q & [-> Hp]%of_result_Ok & E).
    split; [done|]. injection E as _ <-. unfold permissions_of in Hp.
    destruct (effective_members s now) as [ef|] eqn:Ee; [|done]. apply effective_inv in Ee as [_ Hl].
    destruct (ef !! sr_signer signed) as [m|] eqn:Em; [|done]. apply Hl in Em as [Hm Hd]. apply Ok_inj in Hp as <-. by exists m.
  - unfold approve_pending in E. cbv zeta in E. by apply bind_Ok in E as (? & [] & [-> Hc]%of_result_Ok & _).
  - apply bind_Ok in E as (? & x & [-> Hx]%of_result_Ok & E). destruct e as [x'|]; [|done]. apply Ok_inj in Hx as <-.
    exists x'. split; [done|]. by apply bind_Ok in E as (? & [] & [_ Hc]%of_result_Ok & _).
  - apply bind_Ok in E as (? & x & [-> Hx]%of_result_Ok & E). destruct e as [x'|]; [|done]. apply Ok_inj in Hx as <-.
    exists x'. split; [done|]. by apply bind_Ok in E as (? & [] & [_ Hc]%of_result_Ok & _).
  - by injection E as _ <-.
  - apply bind_Ok in E as (? & r & [-> Hp]%of_result_Ok & E). cbv zeta in E. apply bind_Ok in E as (? & [] & _ & E).
    injection E as _ <-. exists r. split; [done|]. destruct (plan_revocation _ _ _ _ _) as [r'|]; [|done].
    apply Ok_inj in Hp. by f_equal.
Qed.

(** What an answer implies, request by request. *)
Lemma answer_is_authorized cfg signed method path now draws rt rt' resp :
  handle cfg signed method path now draws rt = (rt', Ok resp) ->
  (sr_network_id signed = net_id (cfg_network cfg) /\ sr_server_id signed = cfg_server_id cfg /\ method = bs "POST"
   /\ path = rpc_path (sr_request signed) /\ (Z.abs (sr_timestamp signed - now) <= auth_window_seconds (cfg_limits cfg))%Z)
  /\ exists s, valid_registry s /\ network s = cfg_network cfg
     /\ match sr_request signed with
        | Authorize action => serves cfg s now
            /\ exists m, signed_by signed s now m /\ resp = Authorized (device_id m) (permissions m) action
        | Snapshot => serves cfg s now /\ (exists m, signed_by signed s now m) /\ resp = SnapshotOf s
        | Approve grant => serves cfg s now
            /\ (exists m, signed_by signed s now m /\ network_admin (permissions m) = true)
            /\ check_grant cfg (mkEntitlement grant (sr_signer signed) None) s now = Ok tt
        | Begin id | Complete id _ _ => serves cfg s now
            /\ exists e, signed_by_applicant cfg (rt_db rt) signed id now e /\ check_grant cfg e s now = Ok tt
        | Revoke id tgt =>
            (serves cfg s now /\ (exists m, signed_by signed s now m /\ network_admin (permissions m) = true)
             /\ exists r, resp = Revoked r /\ plan_revocation s id (sr_signer signed) tgt now = Ok r)
            \/ exists m, signed_by_revoker signed s id tgt m
        end.
Proof.
  intros (Ha%addressed_iff & rt0 & rt1 & s & Hc & Hs & Hrest)%handle_Ok. split; [done|].
  apply snapshot_Ok in Hs as (_ & _ & Hn & Hv & _ & Hpend). exists s. split; [done|]. split; [done|].
  assert (Hp0 : db_pending (rt_db rt1) = db_pending (rt_db rt)).
  { rewrite Hpend. destruct (advance_clock_cases now rt) as [E|[E|(i & _ & _ & _ & E)]]; rewrite E in Hc; [done..|]. by injection Hc as <-. }
  destruct (recorded_revocation signed s) as [[tgt previous]|] eqn:Er.
  - destruct Hrest as (Hm & _). unfold recorded_revocation in Er. destruct (sr_request signed) as [| | | | |id tgt'] eqn:Eq; try done.
    destruct (find_first _ (revocations s)) as [q|] eqn:Ef; [|done]. injection Er as -> ->.
    apply find_first_Some in Ef as [Hid Hin]. apply bool_decide_eq_true in Hid. right. by eapply may_republish_Ok.
  - destruct Hrest as (Hserve & rt2 & rt3 & e & cs & Hau & _ & Hd). apply (require_server_iff cfg s now Hv) in Hserve.
    apply dispatch_Ok in Hd; [|done]. apply authenticate_Ok in Hau; [|done]. unfold signed_by_applicant in *. rewrite Hp0 in Hau.
    destruct (sr_request signed).
    + destruct Hau as (m & Hsig & _), Hd as (_ & m' & Ha' & Hd' & ->). split; [done|]. exists m. split; [done|].
      destruct Hsig as (Hm & Hdev & _). rewrite Hdev. do 2 f_equal.
      apply (candidate_unique s now); [done|by apply authorized_candidate..|congruence].
    + destruct Hau as (m & Hsig & Hadm). split; [done|]. split; [|done]. exists m. auto.
    + destruct Hau as (x & -> & Hx), Hd as (x' & [= <-] & Hg). eauto.
    + destruct Hau as (x & -> & Hx), Hd as (x' & [= <-] & Hg). eauto.
    + destruct Hau as (m & Hsig & _). eauto.
    + destruct Hau as (m & Hsig & Hadm). left. split; [done|]. split; [|done]. exists m. auto.
Qed.

(** The answer to an authorization. *)
Lemma answered_by_member cfg signed method path now draws rt rt' resp action :
  sr_request signed = Authorize action -> handle cfg signed method path now draws rt = (rt', Ok resp) ->
  (sr_network_id signed = net_id (cfg_network cfg) /\ sr_server_id signed = cfg_server_id cfg /\ method = bs "POST"
   /\ path = rpc_path (sr_request signed) /\ (Z.abs (sr_timestamp signed - now) <= auth_window_seconds (cfg_limits cfg))%Z)
  /\ exists s, valid_registry s /\ network s = cfg_network cfg
     /\ exists m, signed_by signed s now m /\ resp = Authorized (device_id m) (permissions m) action.
Proof.
  intros Hr Hh. apply answer_is_authorized in Hh as (Ha & s & Hv & Hn & Hm). rewrite Hr in Hm. split; [done|].
  exists s. split; [done|]. split; [done|]. apply Hm.
Qed.

(** C28: every answer was asked for by somebody entitled to it.  The request names this
    network, this server and its own path, and its time is within the window; and in the
    valid snapshot that the server then read: a grant is answered to an effective network
    administrator that may grant this much; a challenge or an admission to the applicant of
    an approval that is pending and may still be granted; the rest to an effective member,
    a revocation to an administrator, or again to the one that made it.  In each case the
    request carries a signature that verifies under the SSH key of that device, and the
    server itself is admitted with server administration, except to repeat a revocation.
    An authorization is answered with exactly the permissions of the member. *)
Theorem answers_are_authorized cfg signed method path now draws rt rt' resp :
  handle cfg signed method path now draws rt = (rt', Ok resp) ->
  (sr_network_id signed = net_id (cfg_network cfg) /\ sr_server_id signed = cfg_server_id cfg /\ method = bs "POST"
   /\ path = rpc_path (sr_request signed) /\ (Z.abs (sr_timestamp signed - now) <= auth_window_seconds (cfg_limits cfg))%Z)
  /\ exists s, valid_registry s /\ network s = cfg_network cfg
     /\ match sr_request signed with
        | Authorize action => serves cfg s now
            /\ exists m, signed_by signed s now m /\ resp = Authorized (device_id m) (permissions m) action
        | Snapshot => serves cfg s now /\ (exists m, signed_by signed s now m) /\ resp = SnapshotOf s
        | Approve grant => serves cfg s now
            /\ (exists m, signed_by signed s now m /\ network_admin (permissions m) = true)
            /\ check_grant cfg (mkEntitlement grant (sr_signer signed) None) s now = Ok tt
        | Begin id | Complete id _ _ => serves cfg s now
            /\ exists e, signed_by_applicant cfg (rt_db rt) signed id now e /\ check_grant cfg e s now = Ok tt
        | Revoke id tgt =>
            (serves cfg s now /\ (exists m, signed_by signed s now m /\ network_admin (permissions m) = true)
             /\ exists r, resp = Revoked r /\ plan_revocation s id (sr_signer signed) tgt now = Ok r)
            \/ exists m, signed_by_revoker signed s id tgt m
        end.
Proof. apply answer_is_authorized. Qed.
End Preserve.

(** ** An instance: the administrator revokes the laptop at the server *)

#[local] Existing Instances demo_ssh demo_x25519 tail_sha256 demo_mac demo_x509.

Definition runtime_registry : RegistrySnapshot := with_member demo_registry demo_server.

Definition runtime_revocation : Revocation :=
  match plan_revocation runtime_registry (bs "revocation-00001") (ve_device_id admin_device) (ve_device_id laptop_device) 100 with
  | Ok r => r
  | Err _ => mkRevocation [] [] [] [] ∅ [] 0
  end.

(** Texts are the names of the records. *)
Definition member_names : list (str * Member) :=
  [(bs "admin", demo_admin); (bs "laptop", demo_laptop); (bs "server", demo_server)].

Definition named {A} `{EqDecision A} (names : list (str * A)) (a : A) : option str :=
  fst <$> find_first (fun nx => bool_decide (nx.2 = a)) names.
Definition by_name {A} (names : list (str * A)) (n : str) : option A :=
  snd <$> find_first (fun nx => bool_decide (nx.1 = n)) names.

Lemma by_name_named {A} `{EqDecision A} (names : list (str * A)) a n :
  NoDup (fst <$> names) -> named names a = Some n -> by_name names n = Some a.
Proof.
  unfold named, by_name. induction names as [|[k x] names IH]; [done|]. cbn [find_first fst snd]. rewrite fmap_cons, NoDup_cons.
  intros [Hk Hn]. case_bool_decide as E.
  - intros [= <-]. cbn [fst]. rewrite bool_decide_eq_true_2 by done. cbn. by f_equal.
  - intros Ha. rewrite bool_decide_eq_false_2; [by apply IH|]. intros ->. apply Hk. apply list_elem_of_fmap.
    destruct (find_first _ names) as [nx|] eqn:Ef; [|done]. injection Ha as <-. apply find_first_Some in Ef as [_ ?]. by exists nx.
Qed.

Definition runtime_json : RuntimeJson := {|
  request_json r := Some (match r with Revoke id tgt => id ++ tgt | _ => [] end);
  signed_size s := Some (Z.of_nat (length (sr_signature s)));
  signed_parse _ := None;
  member_json := named member_names;
  member_parse := by_name member_names;
  revocation_json := named [(bs "revocation", runtime_revocation)];
  revocation_parse := by_name [(bs "revocation", runtime_revocation)];
  entitlement_json _ := None;
  entitlement_parse _ := None;
  snapshot_size s := Some (Z.of_nat (length (members s)));
  ack_size _ := Some 1%Z |}.

Lemma runtime_json_laws : RuntimeJsonLaws runtime_json.
Proof.
  split; intros x t; apply by_name_named.
  - apply (bool_decide_unpack _). vm_compute. exact I.
  - apply NoDup_singleton.
Qed.

(** A store that loses every revocation. *)
Definition lossy_store : RegistryStore := {|
  Store := RegistrySnapshot;
  store_snapshot s := (s, Ok s);
  append_member s m := (with_member s m, Ok tt);
  append_revocation s r := (s, Ok tt);
  append_ack s a := (s, Ok tt) |}.

#[local] Existing Instances runtime_json runtime_json_laws lossy_store.

Definition runtime_config : RuntimeConfig := mkConfig demo_descriptor (ve_device_id server_device) (bs "boot") RuntimeLimits_default.

Lemma pair_eq {A B} (p : A * B) b : p.2 = b -> p = (p.1, b).
Proof. intros <-. apply surjective_pairing. Qed.

Lemma opened_Ok : (open_runtime server_keys runtime_config (runtime_registry : @Store lossy_store) empty_db).2 = Ok tt.
Proof. vm_compute. reflexivity. Qed.

Definition opened : Runtime := (open_runtime server_keys runtime_config (runtime_registry : @Store lossy_store) empty_db).1.

Definition unsigned : SignedRequest :=
  mkSigned demo_network (ve_device_id server_device) (ve_device_id admin_device) 90 (bs "nonce-0000000001")
    (Revoke (bs "revocation-00001") (ve_device_id laptop_device)) [].

Definition revoke_laptop : SignedRequest :=
  match rpc_transcript unsigned with
  | Ok bytes => mkSigned (sr_network_id unsigned) (sr_server_id unsigned) (sr_signer unsigned) (sr_timestamp unsigned) (sr_nonce unsigned)
                  (sr_request unsigned) (take 64 (bs "admin" ++ RPC_NAMESPACE ++ bytes))
  | Err _ => unsigned
  end.

Definition no_draws : Draws := mkDraws None [] [].

Lemma answered_Ok :
  (handle runtime_config revoke_laptop (bs "POST") (bs "/v1/network/revoke") 100 no_draws opened).2 = Ok (Revoked runtime_revocation).
Proof. vm_compute. reflexivity. Qed.

Definition answered : Runtime :=
  (handle runtime_config revoke_laptop (bs "POST") (bs "/v1/network/revoke") 100 no_draws opened).1.

Lemma answered_eq :
  handle runtime_config revoke_laptop (bs "POST") (bs "/v1/network/revoke") 100 no_draws opened
  = (answered, Ok (Revoked runtime_revocation)).
Proof. exact (pair_eq _ _ answered_Ok). Qed.

Lemma reopened_Ok : (open_runtime server_keys runtime_config (runtime_registry : @Store lossy_store) (rt_db answered)).2 = Ok tt.
Proof. vm_compute. reflexivity. Qed.

Definition reopened : Runtime :=
  (open_runtime server_keys runtime_config (runtime_registry : @Store lossy_store) (rt_db answered)).1.

Lemma opened_reachable : rt_reachable server_keys (runtime_config, opened).
Proof.
  exists runtime_config, (runtime_registry : @Store lossy_store), opened. split; [|apply rtc_refl]. exact (pair_eq _ _ opened_Ok).
Qed.

Lemma reopened_run : rtc (rt_step server_keys) (runtime_config, answered) (runtime_config, reopened).
Proof.
  apply rtc_once. unfold reopened.
  exact (step_open server_keys runtime_config answered runtime_config (runtime_registry : @Store lossy_store) reopened_Ok).
Qed.

Lemma request_answered_once_witness :
  is_ok (handle runtime_config revoke_laptop (bs "POST") (bs "/v1/network/revoke") 110 no_draws reopened).2 = false.
Proof.
  exact (request_answered_once server_keys _ _ _ _ _ _ _ _ _ _ _ revoke_laptop (bs "POST") (bs "/v1/network/revoke") 110%Z no_draws
    opened_reachable answered_eq reopened_run eq_refl eq_refl (Z.le_refl _)).
Defined.

Definition ok_or_default {A} (d : A) (r : result A RuntimeError) : A := match r with Ok a => a | Err _ => d end.

Lemma is_ok_eq {A} (m : Rt A) rt d : is_ok (m rt).2 = true -> m rt = ((m rt).1, Ok (ok_or_default d (m rt).2)).
Proof. destruct (m rt) as [rt' [a|e]]; done. Qed.

Definition later_snapshot : RegistrySnapshot := ok_or_default runtime_registry (snapshot runtime_config reopened).2.

Lemma later_snapshot_Ok : is_ok (snapshot runtime_config reopened).2 = true.
Proof. vm_compute. reflexivity. Qed.

Lemma later_snapshot_eq :
  snapshot runtime_config reopened = ((snapshot runtime_config reopened).1, Ok later_snapshot).
Proof. exact (is_ok_eq (snapshot runtime_config) reopened runtime_registry later_snapshot_Ok). Qed.

Lemma revocation_is_final_witness :
  valid_registry later_snapshot /\ runtime_revocation ∈ revocations later_snapshot.
Proof.
  destruct (revocation_is_final server_keys runtime_config opened answered runtime_revocation runtime_config reopened) as [Hs _].
  - left. exact (ex_intro _ _ (ex_intro _ _ (ex_intro _ _ (ex_intro _ _ (ex_intro _ _ answered_eq))))).
  - exact reopened_run.
  - destruct (Hs _ _ later_snapshot_eq) as (H1 & H2 & _). exact (conj H1 H2).
Defined.

Definition no_host : HostDesiredState := mkHost [] [] [] runtime_registry.
Definition later_host : HostDesiredState := ok_or_default no_host (desired_host_state server_keys runtime_config 120 reopened).2.

Lemma later_host_Ok : is_ok (desired_host_state server_keys runtime_config 120 reopened).2 = true.
Proof. vm_compute. reflexivity. Qed.

Lemma later_host_eq :
  desired_host_state server_keys runtime_config 120 reopened
  = ((desired_host_state server_keys runtime_config 120 reopened).1, Ok later_host).
Proof. exact (is_ok_eq (desired_host_state server_keys runtime_config 120) reopened no_host later_host_Ok). Qed.

(** The laptop is no peer any more; the administrator still is. *)
Example later_peers : peer_device_id <$> host_peers later_host = [ve_device_id admin_device].
Proof. vm_compute. reflexivity. Qed.

Lemma host_state_is_membership_witness : network (host_snapshot later_host) = cfg_network runtime_config.
Proof. exact (proj1 (host_state_is_membership server_keys _ _ _ _ _ later_host_eq)). Defined.

Lemma answers_are_authorized_witness :
  sr_network_id revoke_laptop = net_id (cfg_network runtime_config) /\ sr_server_id revoke_laptop = cfg_server_id runtime_config.
Proof.
  destruct (answers_are_authorized _ _ _ _ _ _ _ _ _ answered_eq) as [(H1 & H2 & _) _]. exact (conj H1 H2).
Defined.
