(* ===== verification/Protocol.v ===== *)
(** * The management protocol (tako-core/src/protocol.rs, storage.rs; checks of tako-server/src/release.rs)

    The commands of the management socket with their fields, deployment identifiers, the
    signed texts of requests, the hash of an app's secrets, and the checks on app names,
    release versions and routes that deployments pass. *)

From S2P Require Import Prelude RustStr Net Codec Sql Enrollment RunsDb Routing StaticFiles Instances.

(** ** Bindings *)

Inductive StorageProvider := LocalStorage | S3Storage.

Record StorageBinding := mkStorage {
  st_provider : StorageProvider;
  st_bucket : option str;
  st_endpoint : option str;
  st_region : option str;
  st_access_key_id : option str;
  st_secret_access_key : option str;
  st_force_path_style : bool;
  st_public_base_url : option str;
  st_path : option str;
  st_signing_key : option str;
}.

Inductive SslProvider := LetsEncrypt | Cloudflare.

Record SslBinding := mkSsl { ssl_provider : SslProvider; cloudflare_api_token : option str }.

Definition SslBinding_default : SslBinding := mkSsl LetsEncrypt None.

Record BackupKeyBinding := mkBackupKey { bk_id : str; bk_key_base64 : str }.

Record BackupBinding := mkBackup {
  bb_storage : StorageBinding;
  bb_keys : list BackupKeyBinding;
  bb_retention_days : Z;
}.

#[global] Instance StorageProvider_eq_dec : EqDecision StorageProvider.
Proof. solve_decision. Defined.
#[global] Instance StorageBinding_eq_dec : EqDecision StorageBinding.
Proof. solve_decision. Defined.
#[global] Instance SslProvider_eq_dec : EqDecision SslProvider.
Proof. solve_decision. Defined.
#[global] Instance SslBinding_eq_dec : EqDecision SslBinding.
Proof. solve_decision. Defined.
#[global] Instance BackupKeyBinding_eq_dec : EqDecision BackupKeyBinding.
Proof. solve_decision. Defined.
#[global] Instance BackupBinding_eq_dec : EqDecision BackupBinding.
Proof. solve_decision. Defined.

(** ** Commands *)

Inductive ServerCommand `{JsonApi} :=
| Hello (protocol_version : Z)
| PrepareRelease (app path : str) (secrets : gmap str str) (force : bool)
| PrepareReleaseUpload (app version : str)
| PrepareDeploy (app version path : str) (routes : list str) (ssl : SslBinding) (force : bool)
| CleanupPreparedDeploy (app version : str)
| CleanupRelease (app version : str)
| FinalizeRelease (app version : str)
| CheckDeploySpace (min_free_bytes : Z)
| RunRelease (app version path command_line : str) (vars secrets : gmap str str) (force : bool)
| Deploy (app version path : str) (routes : list str) (source_ip : SourceIpMode) (secrets : option (gmap str str))
    (runtime_credentials : option (gmap str str)) (storages : option (gmap str StorageBinding)) (ssl : SslBinding)
    (backup : option BackupBinding) (force : bool)
| BackupNow (app : str) (backup : option BackupBinding)
| ListBackups (app : str)
| BackupStatus (app : str)
| BackupDownloadUrl (app backup_id : str)
| RestoreBackup (app backup_id : str)
| Scale (app : str) (instances : option Z) (service : option str) (reset : bool)
| Stop (app : str)
| Delete (app : str)
| Status (app : str)
| List
| ListReleases (app : str)
| Rollback (app version : str)
| Routes
| UpdateSecrets (app : str) (secrets : gmap str str)
| GetSecretsHash (app : str)
| ServerInfoCommand
| DrainServer (timeout_seconds : Z)
| ResumeServer
| EnterUpgrading (owner : str)
| ExitUpgrading (owner : str)
| InjectChallengeToken (token key_authorization : str)
| EnqueueRun (app name : str) (payload : Json) (opts : EnqueueOpts)
| RegisterSchedules (app : str) (schedules : list ScheduleSpec)
| ClaimRun (app worker_id : str) (names : list str) (lease_ms : Z)
| HeartbeatRun (app id worker_id : str) (lease_ms : Z)
| SaveStep (app id worker_id step_name : str) (step_result : Json)
| CompleteRun (app id worker_id : str)
| CancelRun (app id worker_id : str) (reason : option str)
| FailRun (app id worker_id error : str) (next_run_at_ms : option Z) (finalize : bool)
| DeferRun (app id worker_id : str) (wake_at_ms : option Z)
| WaitForEvent (app id worker_id step_name event_name : str) (timeout_at_ms : option Z)
| Signal (app event_name : str) (payload : Json)
| ChannelPublish (app channel : str) (payload : Json).

(** ** Deployment identifiers ([split_deployment_app_id] is in [Instances]) *)

(** [str::replace] of the separator. *)
Definition deployment_app_id_filename (app_id : str) : str :=
  concat ((fun c => if bool_decide (c = "/"%char) then bs "%2F" else [c]) <$> app_id).

(** ** Texts that are signed *)

Definition MANAGEMENT_AUTH_NAMESPACE : str := bs "tako-management-rpc-v0".
Definition newline : ascii := of_byte 10.

Definition management_auth_message (timestamp nonce body : str) : str :=
  MANAGEMENT_AUTH_NAMESPACE ++ newline :: timestamp ++ newline :: nonce ++ newline :: body.

Definition release_artifact_upload_auth_body (app version : str) (size_bytes : Z) (sha256_hex : str) : str :=
  bs "release_artifact_upload" ++ newline :: app ++ newline :: version ++ newline :: show_Z size_bytes ++ newline :: sha256_hex.

Definition logs_request_auth_body (app : str) (previous_offset current_offset : Z) (since : option Z) (max_bytes : Z) : str :=
  bs "logs" ++ newline :: app ++ newline :: show_Z previous_offset ++ newline :: show_Z current_offset
  ++ newline :: default [] (show_Z <$> since) ++ newline :: show_Z max_bytes.

(** ** The hash of secrets *)

(** [u64::to_le_bytes]. *)
Definition to_le (n : nat) (z : Z) : str := rev (to_be n z).

(** The fields of a [BTreeMap], in the order of its keys, each with its length. *)
Definition secret_bytes (kv : str * str) : str :=
  to_le 8 (Z.of_nat (length kv.1)) ++ kv.1 ++ to_le 8 (Z.of_nat (length kv.2)) ++ kv.2.

Definition sorted_entries (m : gmap str str) : list (str * str) := sort_by (fun a b => str_leb a.1 b.1) (map_to_list m).

Definition compute_secrets_hash `{Sha256Api} (secrets : gmap str str) : str :=
  hex (sha256 (concat (secret_bytes <$> sorted_entries secrets))).

(** ** Names, versions and routes (release.rs) *)

Definition validate_app_name_segment (app_name : str) : result unit str :=
  if bool_decide (app_name = []) then Err (bs "Invalid app name: must not be empty")
  else if (63 <? length app_name)%nat then Err (bs "Invalid app name: must be 63 characters or fewer")
  else if negb (match app_name with c :: _ => is_ascii_lowercase c | [] => false end)
  then Err (bs "Invalid app name: must start with a lowercase letter")
  else if ends_with app_name (bs "-") then Err (bs "Invalid app name: must not end with '-'")
  else if negb (all (fun c => is_ascii_lowercase c || is_ascii_digit c || bool_decide (c = "-"%char)) app_name)
  then Err (bs "Invalid app name: only lowercase letters, digits, and '-' are allowed")
  else Ok tt.

Definition validate_app_name (app_name : str) : result unit str :=
  match split_deployment_app_id app_name with
  | Some (app, env) => let? _ := validate_app_name_segment app in validate_app_name_segment env
  | None => validate_app_name_segment app_name
  end.

Definition requested_deployment_identity (app_id : str) : str * str :=
  default (app_id, bs "production") (split_deployment_app_id app_id).

Definition validate_release_version (version : str) : result unit str :=
  if bool_decide (version = []) then Err (bs "Invalid release version: must not be empty")
  else if (128 <? length version)%nat then Err (bs "Invalid release version: must be 128 characters or fewer")
  else if str_eqb version (bs ".") || str_eqb version (bs "..")
  then Err (bs "Invalid release version: '.' and '..' are not allowed")
  else if contains_char version "/"%char || contains_char version "\"%char
  then Err (bs "Invalid release version: path separators are not allowed")
  else if negb (all (fun c => is_ascii_alphanumeric c || bool_decide (c = "-"%char) || bool_decide (c = "_"%char)
                              || bool_decide (c = "."%char)) version)
  then Err (bs "Invalid release version: only letters, digits, '.', '_' and '-' are allowed")
  else Ok tt.

Definition is_normal (c : Component) : bool := match c with Normal _ => true | _ => false end.

Definition is_safe_cert_host (host : str) : bool :=
  negb (bool_decide (trim host = [])) && all is_normal (components (trim host)).

(** The loop over the routes: the first bad host. *)
Fixpoint validate_route_hosts (routes : list str) : result unit str :=
  match routes with
  | [] => Ok tt
  | route :: routes' =>
      let host := default route (head (split "/"%char route)) in
      if negb (is_safe_cert_host host) then Err (bs "Deploy rejected: invalid route host '" ++ host ++ bs "'")
      else validate_route_hosts routes'
  end.

Definition validate_deploy_routes (routes : list str) : result unit str :=
  if bool_decide (routes = []) then Err (bs "Deploy rejected: app must define at least one route")
  else if any (fun r => bool_decide (trim r = [])) routes then Err (bs "Deploy rejected: routes must be non-empty values")
  else validate_route_hosts routes.

(** ** The hashed text determines the secrets *)

Definition fits (kv : str * str) : Prop :=
  (Z.of_nat (length kv.1) < 2 ^ 64)%Z /\ (Z.of_nat (length kv.2) < 2 ^ 64)%Z.

Lemma to_le_field_inj a b x y :
  (Z.of_nat (length a) < 2 ^ 64)%Z -> (Z.of_nat (length b) < 2 ^ 64)%Z ->
  to_le 8 (Z.of_nat (length a)) ++ a ++ x = to_le 8 (Z.of_nat (length b)) ++ b ++ y -> a = b /\ x = y.
Proof.
  intros Ha Hb E. apply app_inj_1 in E as [El E]; [|unfold to_le; by rewrite !length_rev, !length_to_be].
  unfold to_le in El. apply (f_equal (fun l => from_be (rev l))) in El. rewrite !rev_involutive in El.
  rewrite !from_to_be in El by (change (256 ^ Z.of_nat 8)%Z with (2 ^ 64)%Z; lia).
  apply app_inj_1 in E; [done|lia].
Qed.

Lemma secret_bytes_inj kv kv' x y :
  fits kv -> fits kv' -> secret_bytes kv ++ x = secret_bytes kv' ++ y -> kv = kv' /\ x = y.
Proof.
  destruct kv as [k v], kv' as [k' v']. intros [Hk Hv] [Hk' Hv']. unfold secret_bytes. cbn [fst snd] in *. rewrite <- !app_assoc.
  intros E. apply to_le_field_inj in E as [-> E]; [|done..]. apply to_le_field_inj in E as [-> ->]; done.
Qed.

Lemma secrets_concat_inj l l' :
  Forall fits l -> Forall fits l' -> concat (secret_bytes <$> l) = concat (secret_bytes <$> l') -> l = l'.
Proof.
  assert (Hne : forall kv (t : str), secret_bytes kv ++ t <> []).
  { intros kv t E. apply (f_equal length) in E. unfold secret_bytes, to_le in E. rewrite !length_app, length_rev, length_to_be in E. cbn in E. lia. }
  intros Hl. revert l'. induction Hl as [|kv l Hkv Hl IH]; intros l' [|kv' l'' Hkv' Hl']; cbn [fmap list_fmap concat].
  - done.
  - intros E. by apply eq_sym, Hne in E.
  - intros E. by apply Hne in E.
  - intros E. apply secret_bytes_inj in E as [-> E]; [|done..]. f_equal. by apply IH.
Qed.

(** Two maps of secrets with the same hashed text are the same. *)
Lemma secrets_text_inj (m m' : gmap str str) :
  map_Forall (fun k v => fits (k, v)) m -> map_Forall (fun k v => fits (k, v)) m' ->
  concat (secret_bytes <$> sorted_entries m) = concat (secret_bytes <$> sorted_entries m') -> m = m'.
Proof.
  assert (Hf : forall n : gmap str str, map_Forall (fun k v => fits (k, v)) n -> Forall fits (sorted_entries n)).
  { intros n Hn. apply Forall_forall. intros [k v]. unfold sorted_entries. rewrite sort_by_perm, elem_of_map_to_list. apply Hn. }
  intros Hm Hm' E. apply secrets_concat_inj in E; [|by apply Hf..].
  apply map_to_list_inj. rewrite <- (sort_by_perm (fun a b => str_leb a.1 b.1) (map_to_list m)).
  rewrite <- (sort_by_perm (fun a b => str_leb a.1 b.1) (map_to_list m')). fold (sorted_entries m) (sorted_entries m'). by rewrite E.
Qed.
