(* ===== verification/ManagementPolicy.v ===== *)
(** * Who may manage what (tako-server/src/native_management_policy.rs)

    The authorization of commands of the public management surface, after the caller was
    authenticated: the class of each command, scopes, managed directories, and what a
    deployer that is no server administrator must leave as it was provisioned.  The file
    system is a parameter. *)

From S2P Require Import Prelude RustStr Net Codec Sql Enrollment Registry RunsDb Routing StaticFiles Instances Protocol.

(** What [symlink_metadata] finds: a directory that is no link, anything else, nothing, or
    another error. *)
Inductive PathEntry := EntryDir | EntryOther | EntryMissing | EntryFailed.

Class ManagedFs := {
  canonicalize : str -> option str;
  path_is_dir : str -> bool;
  symlink_metadata : str -> PathEntry;
}.

(** The canonical form of a path is absolute. *)
Class ManagedFsLaws (F : ManagedFs) := {
  canonical_absolute path resolved : canonicalize path = Some resolved -> starts_with resolved (bs "/") = true;
}.

(** ** Paths: [Path] compares components *)

#[global] Instance Component_eq_dec : EqDecision Component.
Proof. solve_decision. Defined.

Fixpoint strip_components (base cs : list Component) : option (list Component) :=
  match base, cs with
  | [], _ => Some cs
  | b :: base', c :: cs' => if bool_decide (b = c) then strip_components base' cs' else None
  | _ :: _, [] => None
  end.

Definition path_strip_prefix (path base : str) : option (list Component) := strip_components (components base) (components path).
Definition path_starts_with (path base : str) : bool := match path_strip_prefix path base with Some _ => true | None => false end.
Definition path_eq (a b : str) : bool := bool_decide (components a = components b).
Definition is_absolute (path : str) : bool := starts_with path (bs "/").

(** ** Classes of commands *)

Inductive CommandClass :=
| AuthenticatedProbe
| DeploymentPreflight
| ServerAdmin
| InternalWorker
| Application (app : str).

Section Policy.
Context `{J : JsonApi} {F : ManagedFs}.

Definition classify (command : ServerCommand) : CommandClass :=
  match command with
  | Hello _ | ServerInfoCommand => AuthenticatedProbe
  | CheckDeploySpace _ => DeploymentPreflight
  | List | Routes | DrainServer _ | ResumeServer | EnterUpgrading _ | ExitUpgrading _ | InjectChallengeToken _ _ => ServerAdmin
  | RegisterSchedules _ _ | ClaimRun _ _ _ _ | HeartbeatRun _ _ _ _ | SaveStep _ _ _ _ _ | CompleteRun _ _ _
  | CancelRun _ _ _ _ | FailRun _ _ _ _ _ _ | DeferRun _ _ _ _ | WaitForEvent _ _ _ _ _ _ | ChannelPublish _ _ _ => InternalWorker
  | PrepareRelease app _ _ _ | PrepareReleaseUpload app _ | PrepareDeploy app _ _ _ _ _ | CleanupPreparedDeploy app _
  | CleanupRelease app _ | FinalizeRelease app _ | RunRelease app _ _ _ _ _ _ | Deploy app _ _ _ _ _ _ _ _ _ _
  | BackupNow app _ | ListBackups app | BackupStatus app | BackupDownloadUrl app _ | RestoreBackup app _
  | Scale app _ _ _ | Stop app | Delete app | Status app | ListReleases app | Rollback app _
  | UpdateSecrets app _ | GetSecretsHash app | EnqueueRun app _ _ _ | Signal app _ _ => Application app
  end.

(** ** The trusted state *)

Record ProvisionedApp := mkProvisioned {
  pv_scope : str;
  pv_routes : list str;
  pv_ssl : SslBinding;
  pv_runtime_credentials : gmap str str;
  pv_storages : gmap str StorageBinding;
  pv_backup : option BackupBinding;
}.

Record PolicyContext := mkContext { data_dir : str; ctx_app : option ProvisionedApp }.

(** ** Denials *)

Definition Denial : Type := str.

Definition PERMISSIONS_INVALID : Denial := bs "Authenticated management permissions are invalid.".
Definition SCOPE_REQUIRED : Denial := bs "An explicit app/environment scope is required.".
Definition SCOPE_MISMATCH : Denial := bs "Command app must exactly match the app/environment scope.".
Definition SCOPE_INVALID : Denial := bs "App/environment scope is not a valid managed deployment name.".
Definition SCOPE_DENIED : Denial := bs "Deployment permission is required for this app/environment.".
Definition PATH_DENIED : Denial :=
  bs "Release path must be an existing directory within this app/environment's managed releases, without traversal or symlink redirection.".
Definition MANAGED_PATH_DENIED : Denial :=
  bs "Managed app/environment directories must not redirect through symlinks or non-directory entries.".
Definition VERSION_DENIED : Denial := bs "Release version must be a valid single managed path segment.".
Definition STATE_REQUIRED : Denial := bs "Trusted provisioned state for this app/environment is required.".
Definition ROUTES_DENIED : Denial :=
  bs "Scoped deployment must preserve the provisioned routes; a server administrator must provision route changes.".
Definition SSL_DENIED : Denial :=
  bs "Scoped deployment must preserve provisioned SSL credentials and provider; unresolved staged credentials are not allowed.".
Definition BACKUP_DENIED : Denial := bs "Scoped deployment must preserve the provisioned backup target and keys.".
Definition CREDENTIALS_DENIED : Denial := bs "Scoped deployment cannot change server-held runtime credentials.".
Definition STORAGES_DENIED : Denial :=
  bs "Scoped deployment cannot change provisioned storage paths, endpoints, or credentials.".
Definition LOCAL_STORAGE_DENIED : Denial :=
  bs "Local storage must use a relative path inside this app/environment's data directory, without traversal or symlink redirection.".
Definition INTERNAL_DENIED : Denial := bs "Internal worker commands are not allowed on public management.".
Definition ADMIN_REQUIRED : Denial := bs "This command requires server administrator permission.".
Definition NOT_AN_APP_OPERATION : Denial := bs "Command is not an application management operation.".

Definition deny {A E} (d : Denial) (r : result A E) : result A Denial := map_err (fun _ => d) r.

(** ** Managed directories *)

Fixpoint managed_walk (path : str) (relative : list Component) : result unit Denial :=
  match relative with
  | [] => Ok tt
  | Normal segment :: relative' =>
      let path := join path segment in
      match symlink_metadata path with
      | EntryDir | EntryMissing => managed_walk path relative'
      | EntryOther | EntryFailed => Err MANAGED_PATH_DENIED
      end
  | _ :: _ => Err MANAGED_PATH_DENIED
  end.

Definition validate_managed_directories (data : str) (relative : list Component) : result unit Denial :=
  let? base := ok_or (canonicalize data) MANAGED_PATH_DENIED in
  managed_walk base relative.

(** [release::validate_release_path_for_app]; its messages are dropped by every caller here. *)
Definition validate_release_path_for_app (data app_name path : str) : result str str :=
  let? release_path := ok_or (canonicalize path) (bs "Invalid release path") in
  if negb (path_is_dir release_path) then Err (bs "Invalid release path: must be an existing directory")
  else
    let expected_root := join (join (join data (bs "apps")) app_name) (bs "releases") in
    let expected_root := default expected_root (canonicalize expected_root) in
    if negb (path_starts_with release_path expected_root) then Err (bs "Invalid release path: must stay under the releases")
    else Ok release_path.

Definition validate_release_path (data scope path : str) : result unit Denial :=
  if negb (is_absolute path) || any (fun c => match c with ParentDir | CurDir => true | _ => false end) (components path)
  then Err PATH_DENIED
  else
    let? resolved := deny PATH_DENIED (validate_release_path_for_app data scope path) in
    let? canonical_data := ok_or (canonicalize data) PATH_DENIED in
    let root := join (join (join canonical_data (bs "apps")) scope) (bs "releases") in
    if path_eq resolved root || negb (path_starts_with resolved root) then Err PATH_DENIED
    else
      let stripped := match path_strip_prefix path data with Some r => Some r | None => path_strip_prefix path canonical_data end in
      let? relative := ok_or stripped PATH_DENIED in
      deny PATH_DENIED (validate_managed_directories data relative).

Definition validate_version_path (data releases version : str) : result unit Denial :=
  let? _ := deny VERSION_DENIED (validate_release_version version) in
  validate_managed_directories data (components (join releases version)).

(** ** What a deployer must preserve *)

Definition provisioned_app (context : PolicyContext) (scope : str) : result ProvisionedApp Denial :=
  match ctx_app context with
  | Some app => if bool_decide (pv_scope app = scope) then Ok app else Err STATE_REQUIRED
  | None => Err STATE_REQUIRED
  end.

Definition preserve_routes (app : ProvisionedApp) (requested : list str) : result unit Denial :=
  let existing : gset str := list_to_set (pv_routes app) in
  let requested_set : gset str := list_to_set requested in
  if bool_decide (existing = ∅) || bool_decide (existing <> requested_set) || negb (length requested =? size requested_set)%nat
  then Err ROUTES_DENIED
  else deny ROUTES_DENIED (validate_deploy_routes requested).

Definition preserve_ssl (app : ProvisionedApp) (requested : SslBinding) : result unit Denial :=
  if bool_decide (requested <> pv_ssl app) then Err SSL_DENIED
  else
    let needs_token := bool_decide (ssl_provider requested = Cloudflare) || any (fun r => starts_with r (bs "*.")) (pv_routes app) in
    if needs_token && match cloudflare_api_token requested with Some t => bool_decide (trim t = []) | None => true end
    then Err SSL_DENIED
    else Ok tt.

Definition storage_ok (data scope : str) (binding : StorageBinding) : bool :=
  match st_provider binding with
  | S3Storage => true
  | LocalStorage =>
      match st_path binding with
      | None => false
      | Some path =>
          negb (bool_decide (path = []) || is_absolute path || contains_char path "\"%char
                || any (fun part => bool_decide (part = []) || str_eqb part (bs ".") || str_eqb part (bs "..")) (split "/"%char path))
          && is_ok (validate_managed_directories data
                      (components (join (join (join (bs "apps") scope) (bs "data/app")) path)))
      end
  end.

(** Every failure is the same denial, so that the order of a [HashMap] does not matter. *)
Definition validate_local_storages (data scope : str) (storages : gmap str StorageBinding) : result unit Denial :=
  if all (fun kv => storage_ok data scope kv.2) (map_to_list storages) then Ok tt else Err LOCAL_STORAGE_DENIED.

(** ** Authorization *)

Definition authorize_app (p : Permissions) (scope app : str) : result unit Denial :=
  let? _ := deny PERMISSIONS_INVALID (permissions_validate p) in
  if bool_decide (app <> scope) then Err SCOPE_MISMATCH
  else
    let? _ := deny SCOPE_INVALID (validate_app_name scope) in
    if negb (server_admin p) && negb (can_deploy p scope) then Err SCOPE_DENIED else Ok tt.

(** The second match: what each application command touches besides its app. *)
Definition authorize_effects (p : Permissions) (scope : str) (command : ServerCommand) (context : PolicyContext)
    : result unit Denial :=
  let data := data_dir context in
  let releases := join (join (bs "apps") scope) (bs "releases") in
  match command with
  | PrepareRelease _ path _ _ => validate_release_path data scope path
  | PrepareDeploy _ version path routes ssl _ =>
      let? _ := validate_version_path data releases version in
      let? _ := validate_release_path data scope path in
      if server_admin p then Ok tt
      else
        let? provisioned := provisioned_app context scope in
        let? _ := preserve_routes provisioned routes in
        preserve_ssl provisioned ssl
  | Deploy _ version path routes _ _ runtime_credentials storages ssl backup _ =>
      let? _ := validate_version_path data releases version in
      let? _ := validate_release_path data scope path in
      if server_admin p then Ok tt
      else
        let? provisioned := provisioned_app context scope in
        let? _ := preserve_routes provisioned routes in
        let? _ := preserve_ssl provisioned ssl in
        if match runtime_credentials with Some v => bool_decide (v <> pv_runtime_credentials provisioned) | None => false end
        then Err CREDENTIALS_DENIED
        else if match storages with Some v => bool_decide (v <> pv_storages provisioned) | None => false end
        then Err STORAGES_DENIED
        else
          let? _ := validate_local_storages data scope (pv_storages provisioned) in
          if bool_decide (backup <> pv_backup provisioned) then Err BACKUP_DENIED else Ok tt
  | RunRelease _ version path _ _ _ _ =>
      let? _ := validate_version_path data releases version in
      validate_release_path data scope path
  | PrepareReleaseUpload _ version | CleanupPreparedDeploy _ version | CleanupRelease _ version | FinalizeRelease _ version =>
      validate_version_path data releases version
  | Rollback _ version =>
      let? _ := validate_version_path data releases version in
      let path := join (join data releases) version in
      if negb (utf8_valid path) then Err PATH_DENIED
      else
        let? _ := validate_release_path data scope path in
        if server_admin p then Ok tt
        else
          let? provisioned := provisioned_app context scope in
          let? _ := preserve_routes provisioned (pv_routes provisioned) in
          let? _ := preserve_ssl provisioned (pv_ssl provisioned) in
          validate_local_storages data scope (pv_storages provisioned)
  | BackupNow _ backup =>
      match backup with
      | Some b =>
          if server_admin p then Ok tt
          else
            let? provisioned := provisioned_app context scope in
            if bool_decide (Some b <> pv_backup provisioned) then Err BACKUP_DENIED else Ok tt
      | None => Ok tt
      end
  | ListBackups _ | BackupStatus _ | BackupDownloadUrl _ _ | RestoreBackup _ _ | Scale _ _ _ _ | Stop _ | Delete _ | Status _
  | ListReleases _ | UpdateSecrets _ _ | GetSecretsHash _ | EnqueueRun _ _ _ _ | Signal _ _ _ => Ok tt
  | Hello _ | ServerInfoCommand | DrainServer _ | ResumeServer | CheckDeploySpace _ | List | Routes | EnterUpgrading _
  | ExitUpgrading _ | InjectChallengeToken _ _ | RegisterSchedules _ _ | ClaimRun _ _ _ _ | HeartbeatRun _ _ _ _
  | SaveStep _ _ _ _ _ | CompleteRun _ _ _ | CancelRun _ _ _ _ | FailRun _ _ _ _ _ _ | DeferRun _ _ _ _
  | WaitForEvent _ _ _ _ _ _ | ChannelPublish _ _ _ => Err NOT_AN_APP_OPERATION
  end.

Definition authorize_command (p : Permissions) (scope : option str) (command : ServerCommand) (context : PolicyContext)
    : result unit Denial :=
  let? _ := deny PERMISSIONS_INVALID (permissions_validate p) in
  match classify command with
  | InternalWorker => Err INTERNAL_DENIED
  | AuthenticatedProbe => Ok tt
  | ServerAdmin => if server_admin p then Ok tt else Err ADMIN_REQUIRED
  | DeploymentPreflight =>
      if server_admin p then Ok tt
      else
        let? scope := ok_or scope SCOPE_REQUIRED in
        authorize_app p scope scope
  | Application app =>
      let? scope := ok_or scope SCOPE_REQUIRED in
      let? _ := authorize_app p scope app in
      let data := data_dir context in
      let app_root := join (bs "apps") scope in
      let? _ := validate_managed_directories data (components (join app_root (bs "releases"))) in
      let? _ := validate_managed_directories data (components (join app_root (bs "data/app"))) in
      let? _ := validate_managed_directories data (components (join app_root (bs "data/tako"))) in
      authorize_effects p scope command context
  end.
End Policy.
