(* ===== verification/ManagementProps.v ===== *)
(** * Which management commands are authorized

    The decision of the policy, command by command, against a specification of its own: the
    rights of the caller, the managed paths of a deployment, that they are its own, and what a
    deployer has to request as a server administrator provisioned it.  The policy reads the
    file system once, before the command runs: what is said of directories holds then. *)

From S2P Require Import Prelude RustStr Net Codec Sql Enrollment Registry RunsDb Routing.
From S2P Require Import StaticFiles Instances RegistryProps NetServices Protocol ManagementPolicy.

(** ** Components of joined paths *)

Definition names_of (path : str) : list Component := omap segment_component (split "/"%char path).

Lemma split_nonempty c s : split c s <> [].
Proof. destruct s as [|d s]; cbn [split]; [done|]. case_bool_decide; [done|]. by destruct (split c s). Qed.

Lemma split_app_sep c a b : split c (a ++ c :: b) = split c a ++ split c b.
Proof.
  induction a as [|d a IH]; cbn [app split]; [by rewrite bool_decide_eq_true_2|].
  case_bool_decide; rewrite IH; [done|]. destruct (split c a) as [|w ws] eqn:E; [by apply split_nonempty in E|done].
Qed.

Lemma ends_with_slash s : ends_with s (bs "/") = true -> exists r, s = r ++ ["/"%char].
Proof.
  unfold ends_with, strip_suffix. destruct (strip_prefix _ (rev s)) as [t|] eqn:E; [|done]. intros _.
  change (rev (bs "/")) with ["/"%char] in E. destruct (rev s) as [|c r] eqn:Er; [done|]. cbn [strip_prefix] in E.
  case_bool_decide as Hc; [|done]. exists (rev r). rewrite <- (rev_involutive s), Er, <- Hc. done.
Qed.

Lemma starts_with_root s : starts_with s (bs "/") = true <-> exists r, s = "/"%char :: r.
Proof.
  unfold starts_with. change (bs "/") with ["/"%char]. destruct s as [|c s]; cbn [strip_prefix]; [split; [done|by intros [? ?]]|].
  case_bool_decide as Hc; [subst; split; [eauto|done]|]. split; [done|]. intros [r E]. congruence.
Qed.

(** Joining a relative path appends its names. *)
Lemma components_join base rel :
  base <> [] -> starts_with rel (bs "/") = false -> components (join base rel) = components base ++ names_of rel.
Proof.
  intros Hb Hr. unfold join. rewrite Hr. rewrite (bool_decide_eq_false_2 _ Hb). cbn [orb].
  assert (Hsplit : exists r, (base = r ++ ["/"%char] /\ ends_with base (bs "/") = true \/ base = r /\ ends_with base (bs "/") = false)).
  { destruct (ends_with base (bs "/")) eqn:E; [apply ends_with_slash in E as [r ->]; eauto|eauto]. }
  assert (Hsw : forall t, starts_with (base ++ t) (bs "/") = starts_with base (bs "/")).
  { intros t. destruct base as [|c base]; [done|]. apply eq_bool_prop_intro. rewrite !Is_true_true, !starts_with_root.
    split; intros [u E]; injection E as -> E; eauto. }
  unfold components, names_of.
  destruct Hsplit as [r [[-> E]|[-> E]]]; rewrite E.
  - rewrite <- app_assoc. change (["/"%char] ++ rel) with ("/"%char :: rel). rewrite !split_app_sep, !omap_app.
    replace (starts_with (r ++ "/"%char :: rel) (bs "/")) with (starts_with (r ++ ["/"%char]) (bs "/"))
      by (rewrite <- (Hsw rel), <- app_assoc; done).
    change (split "/"%char []) with [@nil ascii]. cbn [omap list_omap]. change (segment_component []) with (@None Component).
    cbn iota. rewrite app_nil_r, <- app_assoc. f_equal.
    destruct (starts_with _ _); [done|]. by destruct (split "/"%char r) eqn:Es; [apply split_nonempty in Es|].
  - rewrite Hsw, split_app_sep, omap_app, app_assoc. f_equal. f_equal.
    destruct (starts_with _ _); [done|]. by destruct (split "/"%char r) eqn:Es; [apply split_nonempty in Es|].
Qed.

(** The names of a deployment: its app and its environment. *)
Lemma scope_names scope :
  app_env_ok scope = true ->
  exists n e, scope = n ++ "/"%char :: e /\ n <> [] /\ e <> [] /\ "/"%char ∉ n /\ "/"%char ∉ e
    /\ names_of scope = [Normal n; Normal e] /\ starts_with scope (bs "/") = false.
Proof.
  intros (n & e & -> & _ & Hn & He)%app_env_inv. exists n, e. split; [done|].
  assert (Hseg : forall s, segment s = true -> s <> [] /\ "/"%char ∉ s /\ segment_component s = Some (Normal s)).
  { intros s Hs. pose proof (segment_chars s Hs) as [Hc _]. rewrite Forall_forall in Hc.
    assert (s <> []) by (by intros ->). assert ("."%char ∉ s) as Hd by (by intros (_ & ? & _)%Hc).
    split; [done|]. split; [by intros (_ & _ & ?)%Hc|]. unfold segment_component, str_eqb.
    rewrite !bool_decide_eq_false_2; [done|intros ->; apply Hd; left|intros ->; apply Hd; left|done]. }
  destruct (Hseg n Hn) as (Hn0 & Hns & En), (Hseg e He) as (He0 & Hes & Ee).
  split_and!; try done.
  - unfold names_of. rewrite split_app_sep, !split_no_sep by done. cbn [app omap list_omap]. by rewrite En, Ee.
  - destruct n as [|c n]; [done|]. apply not_true_iff_false. rewrite starts_with_root. intros [r E]. injection E as -> _. apply Hns. left.
Qed.

(** [apps/<app>/<environment>] followed by [rest]. *)
Definition app_path (scope : str) (rest : list Component) : list Component := Normal (bs "apps") :: names_of scope ++ rest.

Lemma join_nonempty base rel : base <> [] -> join base rel <> [].
Proof.
  unfold join. destruct (starts_with rel (bs "/")) eqn:E; [apply starts_with_root in E as [r ->]; done|].
  destruct base; [done|]. by destruct (_ || _).
Qed.

Lemma components_app_path scope rel :
  app_env_ok scope = true -> starts_with rel (bs "/") = false ->
  components (join (join (bs "apps") scope) rel) = app_path scope (names_of rel).
Proof.
  intros (n & e & _ & _ & _ & _ & _ & _ & Hs)%scope_names Hr.
  rewrite components_join, components_join by (done || by apply join_nonempty). rewrite <- app_assoc. done.
Qed.

Lemma components_release_root base scope :
  base <> [] -> app_env_ok scope = true ->
  components (join (join (join base (bs "apps")) scope) (bs "releases")) = components base ++ app_path scope [Normal (bs "releases")].
Proof.
  intros Hb (n & e & _ & _ & _ & _ & _ & _ & Hs)%scope_names.
  rewrite !components_join by (done || by repeat apply join_nonempty). rewrite <- !app_assoc. done.
Qed.

Lemma strip_components_Some base cs rest : strip_components base cs = Some rest <-> cs = base ++ rest.
Proof.
  revert cs. induction base as [|b base IH]; intros cs; cbn [strip_components app]; [split; congruence|].
  destruct cs as [|c cs]; [done|]. case_bool_decide as E; [|split; [done|congruence]]. subst. rewrite IH. split; congruence.
Qed.

(** Two deployments have no path in common. *)
Lemma app_paths_disjoint (cs : list Component) a b ra rb :
  app_env_ok a = true -> app_env_ok b = true -> cs ++ app_path a ra = cs ++ app_path b rb -> a = b.
Proof.
  intros (n & e & -> & _ & _ & _ & _ & Ea & _)%scope_names (n' & e' & -> & _ & _ & _ & _ & Eb & _)%scope_names E.
  apply app_inv_head in E. unfold app_path in E. rewrite Ea, Eb in E. cbn [app] in E.
  apply cons_inj in E as [_ E]. apply cons_inj in E as [E1 E]. apply cons_inj in E as [E2 _]. congruence.
Qed.

#[local] Instance Normal_inj : Inj (=) (=) Normal.
Proof. by intros a b [= ->]. Qed.

Section Confined.
Context `{J : JsonApi} {F : ManagedFs} {FL : ManagedFsLaws F}.
Implicit Types (data path scope : str) (p : Permissions) (ctx : PolicyContext).

(** ** Managed directories *)

Definition push_all (base : str) (names : list str) : str := foldl join base names.

(** Every directory on the way is a directory and no link, or is not there. *)
Definition managed data (names : list str) : Prop :=
  exists base, canonicalize data = Some base
    /\ forall pre, pre <> [] -> pre `prefix_of` names ->
         symlink_metadata (push_all base pre) = EntryDir \/ symlink_metadata (push_all base pre) = EntryMissing.

Lemma managed_walk_iff base cs :
  managed_walk base cs = Ok tt <->
  exists names, cs = Normal <$> names
    /\ forall pre, pre <> [] -> pre `prefix_of` names ->
         symlink_metadata (push_all base pre) = EntryDir \/ symlink_metadata (push_all base pre) = EntryMissing.
Proof.
  revert base. induction cs as [|c cs IH]; intros base; cbn [managed_walk].
  { split; [|done]. intros _. exists []. split; [done|]. intros pre Hne Hp. apply prefix_nil_inv in Hp. done. }
  destruct c as [| | |segment]; try (split; [done|intros ([|? ?] & E & _); discriminate E]).
  cbv zeta. split.
  - intros E. assert (Hm : symlink_metadata (join base segment) = EntryDir \/ symlink_metadata (join base segment) = EntryMissing)
      by (destruct (symlink_metadata _); auto; discriminate E).
    assert (E' : managed_walk (join base segment) cs = Ok tt) by (destruct Hm as [Hm|Hm]; by rewrite Hm in E).
    apply IH in E' as (names & -> & Hn). exists (segment :: names). split; [done|]. intros [|x pre] Hne Hp; [done|].
    apply prefix_cons_inv_1 in Hp as Hx; subst x. apply prefix_cons_inv_2 in Hp. destruct pre as [|y pre]; [done|]. by apply (Hn (y :: pre)).
  - intros ([|x names] & E & Hn); [done|]. rewrite fmap_cons in E. apply cons_inj in E as [E1 ->]. injection E1 as ->.
    assert (Hw : managed_walk (join base x) (Normal <$> names) = Ok tt).
    { apply IH. exists names. split; [done|]. intros pre Hne Hp. apply (Hn (x :: pre)); [done|]. by apply prefix_cons. }
    destruct (Hn [x]) as [E|E]; [done|by apply prefix_cons, prefix_nil| |]; cbn [push_all foldl] in E; by rewrite E.
Qed.

Lemma managed_iff data cs :
  validate_managed_directories data cs = Ok tt <-> exists names, cs = Normal <$> names /\ managed data names.
Proof.
  unfold validate_managed_directories, managed. destruct (canonicalize data) as [base|]; cbn [ok_or].
  - rewrite managed_walk_iff. split; [intros (names & -> & H); eauto 10|]. intros (names & -> & b & [= <-] & H). eauto.
  - split; [done|]. intros (? & _ & ? & ? & _). done.
Qed.

(** The names below the directory of a deployment. *)
Definition app_names scope (rest : list str) : list str := bs "apps" :: split "/"%char scope ++ rest.

Lemma app_path_of_names scope rest : app_env_ok scope = true -> app_path scope (Normal <$> rest) = Normal <$> app_names scope rest.
Proof.
  intros (n & e & -> & _ & _ & Hn & He & Es & _)%scope_names. unfold app_path, app_names. rewrite Es.
  by rewrite split_app_sep, !split_no_sep by done.
Qed.

Lemma managed_names data scope rest :
  app_env_ok scope = true -> validate_managed_directories data (app_path scope (Normal <$> rest)) = Ok tt <-> managed data (app_names scope rest).
Proof.
  intros Hs. rewrite app_path_of_names, managed_iff by done. split; [|eauto]. intros (names & E & Hm).
  apply (inj (fmap Normal)) in E. by subst names.
Qed.

Lemma managed_app data scope rel (rest : list str) :
  app_env_ok scope = true -> starts_with rel (bs "/") = false -> names_of rel = Normal <$> rest ->
  validate_managed_directories data (components (join (join (bs "apps") scope) rel)) = Ok tt <-> managed data (app_names scope rest).
Proof. intros Hs Hr Hn. rewrite components_app_path, Hn by done. by apply managed_names. Qed.

(** ** Versions and release paths *)

Lemma release_version_plain version :
  validate_release_version version = Ok tt ->
  version <> [] /\ "/"%char ∉ version /\ names_of version = [Normal version] /\ starts_with version (bs "/") = false.
Proof.
  unfold validate_release_version. case_bool_decide as Hne; [done|]. destruct (_ <? _)%nat; [done|].
  destruct (str_eqb version (bs ".") || str_eqb version (bs "..")) eqn:Ed; [done|].
  destruct (contains_char version "/"%char || _) eqn:Es; [done|]. intros _.
  apply orb_false_iff in Ed as [E1 E2], Es as [Es _]. apply contains_char_false in Es. split; [done|]. split; [done|]. split.
  - unfold names_of, segment_component. rewrite split_no_sep by done. cbn [omap list_omap].
    rewrite (bool_decide_eq_false_2 _ Hne), E1, E2. done.
  - apply not_true_iff_false. rewrite starts_with_root. intros [r ->]. apply Es. left.
Qed.

(** A version names a directory below the releases. *)
Definition version_allowed data scope (version : str) : Prop :=
  validate_release_version version = Ok tt /\ managed data (app_names scope [bs "releases"; version]).

Lemma version_path_iff data scope version :
  app_env_ok scope = true ->
  validate_version_path data (join (join (bs "apps") scope) (bs "releases")) version = Ok tt <-> version_allowed data scope version.
Proof.
  intros Hs. unfold validate_version_path, version_allowed. destruct (validate_release_version version) as [[]|] eqn:Ev; [|by split; [|intros [? _]]].
  cbn [deny map_err]. destruct (release_version_plain _ Ev) as (_ & _ & Hn & Hr).
  rewrite components_join, components_app_path, Hn by (done || by repeat apply join_nonempty).
  rewrite <- managed_names by done. unfold app_path. rewrite <- app_comm_cons, <- app_assoc.
  split; [by intros ?|by intros [_ ?]].
Qed.

Definition below (path root : str) : Prop := exists rest, components path = components root ++ rest.

(** A path resolves to a directory strictly below the releases of its own deployment, which
    is below no other one, and its spelling, absolute and without dots, goes through
    directories that are no links. *)
Definition inside_releases data scope path : Prop :=
  is_absolute path = true /\ ParentDir ∉ components path /\ CurDir ∉ components path
  /\ exists base resolved rest names, canonicalize data = Some base /\ canonicalize path = Some resolved
    /\ path_is_dir resolved = true /\ rest <> []
    /\ components resolved = components base ++ app_path scope (Normal (bs "releases") :: rest)
    /\ (forall other more, app_env_ok other = true -> components resolved = components base ++ app_path other more -> other = scope)
    /\ (let root := join (join (join data (bs "apps")) scope) (bs "releases") in below resolved (default root (canonicalize root)))
    /\ (path_strip_prefix path data = Some (Normal <$> names)
        \/ path_strip_prefix path data = None /\ path_strip_prefix path base = Some (Normal <$> names))
    /\ managed data names.

Lemma path_starts_with_iff path base : path_starts_with path base = true <-> below path base.
Proof.
  unfold path_starts_with, path_strip_prefix, below. destruct (strip_components _ _) as [rest|] eqn:E.
  - apply strip_components_Some in E. split; [eauto|done].
  - split; [done|]. intros [rest H%strip_components_Some]. congruence.
Qed.

Lemma dots_iff path :
  any (fun c => match c with ParentDir | CurDir => true | _ => false end) (components path) = false
  <-> ParentDir ∉ components path /\ CurDir ∉ components path.
Proof.
  rewrite any_false. split.
  - intros Hc. split; intros Hin; by apply Hc in Hin.
  - intros [Hp Hc] c Hin. by destruct c.
Qed.

Lemma release_path_Ok data scope path :
  app_env_ok scope = true -> validate_release_path data scope path = Ok tt -> inside_releases data scope path.
Proof.
  intros Hs. unfold validate_release_path. destruct (_ || _) eqn:Hdots; [done|]. apply orb_false_iff in Hdots as [Habs Hdots].
  apply negb_false_iff in Habs. apply dots_iff in Hdots as [Hpar Hcur].
  unfold validate_release_path_for_app. destruct (canonicalize path) as [resolved|] eqn:Ep; [|done]. cbn [ok_or].
  destruct (path_is_dir resolved) eqn:Ed; [|done]. cbn [negb]. cbv zeta.
  destruct (path_starts_with resolved (default _ _)) eqn:Eroot; [|done]. cbn [negb deny map_err]. apply path_starts_with_iff in Eroot.
  destruct (canonicalize data) as [base|] eqn:Eb; [|done]. cbn [ok_or].
  assert (Hb : base <> []). { intros ->. apply canonical_absolute in Eb. done. }
  destruct (path_eq resolved _) eqn:Eq; [done|]. cbn [orb].
  destruct (path_starts_with resolved (join _ _)) eqn:Esw; [|done]. cbn [negb].
  intros E. apply path_starts_with_iff in Esw as [rest Er]. unfold path_eq in Eq.
  rewrite components_release_root in Er, Eq by done. apply bool_decide_eq_false in Eq.
  set (stripped := match path_strip_prefix path data with Some r => Some r | None => path_strip_prefix path base end) in E.
  destruct stripped as [rel|] eqn:Est; [|done]. cbn [ok_or] in E.
  destruct (validate_managed_directories data rel) as [[]|] eqn:Em; [|done]. apply managed_iff in Em as (names & -> & Hm).
  split_and!; [done..|]. exists base, resolved, rest, names.
  assert (Hc : components resolved = components base ++ app_path scope (Normal (bs "releases") :: rest)).
  { rewrite Er. unfold app_path. rewrite <- !app_assoc, <- app_comm_cons, <- app_assoc. done. }
  split_and!; [done..| |done| |done| |done].
  - intros ->. apply Eq. rewrite Er. by rewrite app_nil_r.
  - intros other more Ho E'. rewrite Hc in E'. symmetry. exact (app_paths_disjoint _ _ _ _ _ Hs Ho E').
  - unfold stripped in Est. destruct (path_strip_prefix path data); auto.
Qed.

Lemma release_path_iff data scope path :
  app_env_ok scope = true -> validate_release_path data scope path = Ok tt <-> inside_releases data scope path.
Proof.
  intros Hs. split; [by apply release_path_Ok|].
  intros (Habs & Hpar & Hcur & base & resolved & rest & names & Eb & Ep & Ed & Hne & Hc & _ & Hroot & Hstrip & Hm). cbv zeta in Hroot.
  assert (Hb : base <> []). { intros ->. apply canonical_absolute in Eb. done. }
  assert (Hc' : components resolved = (components base ++ app_path scope [Normal (bs "releases")]) ++ rest).
  { rewrite Hc. unfold app_path. rewrite <- !app_assoc, <- app_comm_cons, <- app_assoc. done. }
  unfold validate_release_path, validate_release_path_for_app. rewrite Habs, (proj2 (dots_iff path)) by done. cbn [negb orb].
  rewrite Ep, Eb. cbn [ok_or]. rewrite Ed. cbn [negb]. cbv zeta. rewrite (proj2 (path_starts_with_iff _ _) Hroot). cbn [negb deny map_err].
  assert (path_starts_with resolved (join (join (join base (bs "apps")) scope) (bs "releases")) = true) as ->.
  { apply path_starts_with_iff. exists rest. by rewrite components_release_root. }
  assert (path_eq resolved (join (join (join base (bs "apps")) scope) (bs "releases")) = false) as ->.
  { apply bool_decide_eq_false. rewrite components_release_root, Hc' by done. intros E.
    apply (f_equal length) in E. rewrite length_app in E. destruct rest; [done|]. cbn in E. lia. }
  cbn [negb orb]. assert (Hv : validate_managed_directories data (Normal <$> names) = Ok tt) by (apply managed_iff; eauto).
  destruct Hstrip as [->|[-> ->]]; cbn [ok_or]; by rewrite Hv.
Qed.

(** ** What is provisioned *)

Definition provisioned ctx scope (app : ProvisionedApp) : Prop := ctx_app ctx = Some app /\ pv_scope app = scope.

Lemma provisioned_app_iff ctx scope app : provisioned_app ctx scope = Ok app <-> provisioned ctx scope app.
Proof.
  unfold provisioned_app, provisioned. destruct (ctx_app ctx) as [a|] eqn:E; [|by split; [|intros [? _]]].
  case_bool_decide as Hs; split; [by intros [= <-]|by intros [[= <-] _]|done|by intros [[= <-] ?]].
Qed.

(** The same routes, each once, and valid ones. *)
Definition same_routes (app : ProvisionedApp) (routes : list str) : Prop :=
  routes <> [] /\ NoDup routes /\ (forall r, r ∈ routes <-> r ∈ pv_routes app) /\ validate_deploy_routes routes = Ok tt.

Lemma NoDup_size (l : list str) : length l = size (list_to_set l : gset str) -> NoDup l.
Proof.
  intros E. destruct (decide (NoDup l)) as [|Hd]; [done|]. exfalso.
  assert (Hle : forall l' : list str, (size (list_to_set l' : gset str) <= length l')%nat).
  { induction l' as [|x l' IH]; cbn [list_to_set length]; [by rewrite size_empty|]. rewrite size_union_alt, size_singleton.
    assert (size ((list_to_set l' : gset str) ∖ {[x]}) <= size (list_to_set l' : gset str))%nat by (apply subseteq_size; set_solver). lia. }
  apply Hd. clear Hd. revert E. induction l as [|x l IH]; intros E; [constructor|]. cbn [list_to_set length] in E.
  destruct (decide (x ∈ l)) as [Hx|Hx].
  - exfalso. assert (Es : {[x]} ∪ list_to_set l = (list_to_set l : gset str)) by set_solver. rewrite Es in E. specialize (Hle l). lia.
  - constructor; [done|]. apply IH. rewrite size_union in E by set_solver. rewrite size_singleton in E. lia.
Qed.

Lemma deny_Ok {A E} d (x : result A E) a : deny d x = Ok a <-> x = Ok a.
Proof. destruct x; cbn; split; congruence. Qed.

Lemma preserve_routes_iff app routes : preserve_routes app routes = Ok tt <-> same_routes app routes.
Proof.
  unfold preserve_routes, same_routes. cbv zeta. split.
  - case_bool_decide as He; [done|]. case_bool_decide as Hs; [done|]. cbn [orb].
    destruct (Nat.eqb_spec (length routes) (size (list_to_set routes : gset str))) as [El|]; [|done]. cbn [negb]. intros Hv%deny_Ok.
    split_and!; [intros ->; apply He; by rewrite Hs|by apply NoDup_size| |done].
    intros r. rewrite <- !(elem_of_list_to_set (C := gset str)). by rewrite Hs.
  - intros (Hne & Hnd & Hsame & Hv).
    assert (Hs : (list_to_set (pv_routes app) : gset str) = list_to_set routes) by (apply leibniz_equiv; intros r; rewrite !elem_of_list_to_set; by rewrite Hsame).
    rewrite Hs. rewrite (bool_decide_eq_false_2 (_ <> _)) by naive_solver. rewrite (size_list_to_set _ Hnd), Nat.eqb_refl. cbn [negb].
    rewrite bool_decide_eq_false_2; [by apply deny_Ok|]. destruct routes as [|x routes]; [done|]. intros E.
    assert (x ∈ (list_to_set (x :: routes) : gset str)) by (apply elem_of_list_to_set; left). rewrite E in *. set_solver.
Qed.

(** The same certificate settings, and a token where one is needed: for Cloudflare and for
    wildcard routes. *)
Definition same_ssl (app : ProvisionedApp) (ssl : SslBinding) : Prop :=
  ssl = pv_ssl app
  /\ (ssl_provider ssl = Cloudflare \/ (exists r, r ∈ pv_routes app /\ starts_with r (bs "*.") = true) ->
       exists token, cloudflare_api_token ssl = Some token /\ trim token <> []).

Lemma preserve_ssl_iff app ssl : preserve_ssl app ssl = Ok tt <-> same_ssl app ssl.
Proof.
  unfold preserve_ssl, same_ssl. cbv zeta.
  assert (Hneeds : bool_decide (ssl_provider ssl = Cloudflare) || any (fun r => starts_with r (bs "*.")) (pv_routes app) = true
    <-> ssl_provider ssl = Cloudflare \/ exists r, r ∈ pv_routes app /\ starts_with r (bs "*.") = true).
  { rewrite orb_true_iff, bool_decide_eq_true, any_true. done. }
  assert (Htoken : match cloudflare_api_token ssl with Some t => bool_decide (trim t = []) | None => true end = false
    <-> exists token, cloudflare_api_token ssl = Some token /\ trim token <> []).
  { destruct (cloudflare_api_token ssl) as [t|]; [rewrite bool_decide_eq_false|split; [done|by intros (? & ? & _)]].
    split; [eauto|by intros (? & [= <-] & ?)]. }
  destruct (bool_decide (ssl <> pv_ssl app)) eqn:Hne; [apply bool_decide_eq_true in Hne; split; [done|by intros [? _]]|].
  apply bool_decide_eq_false, dec_stable in Hne.
  destruct (_ || _) eqn:En; cbn [andb].
  - destruct (match cloudflare_api_token ssl with Some _ => _ | None => _ end) eqn:Et.
    + split; [done|]. intros [_ Ht]. apply proj1 in Hneeds. apply Htoken in Ht; [done|by apply Hneeds].
    + split; [|done]. intros _. split; [done|]. intros _. by apply Htoken.
  - split; [|done]. intros _. split; [done|]. intros Hn. apply Hneeds in Hn. done.
Qed.

(** Local storage is a plain relative path below the app's own data directory, with no link on
    the way. *)
Definition plain_relative (path : str) : Prop :=
  path <> [] /\ is_absolute path = false /\ contains_char path "\"%char = false
  /\ forall part, part ∈ split "/"%char path -> part <> [] /\ part <> bs "." /\ part <> bs "..".

Definition local_storages_inside data scope (storages : gmap str StorageBinding) : Prop :=
  forall k b, storages !! k = Some b -> st_provider b = LocalStorage ->
    exists path, st_path b = Some path /\ plain_relative path
      /\ managed data (app_names scope (bs "data" :: bs "app" :: split "/"%char path)).

Lemma plain_relative_iff path :
  bool_decide (path = []) || is_absolute path || contains_char path "\"%char
    || any (fun part => bool_decide (part = []) || str_eqb part (bs ".") || str_eqb part (bs "..")) (split "/"%char path) = false
  <-> plain_relative path.
Proof.
  unfold plain_relative. rewrite !orb_false_iff, bool_decide_eq_false, any_false. split.
  - intros [[[Hne Ha] Hc] Hp]. split_and!; [done..|]. intros part Hin. specialize (Hp part Hin). cbn beta in Hp.
    rewrite !orb_false_iff, bool_decide_eq_false in Hp. unfold str_eqb in Hp. rewrite !bool_decide_eq_false in Hp. tauto.
  - intros (Hne & Ha & Hc & Hp). split_and!; [done..|]. intros part Hin. specialize (Hp part Hin). cbn beta.
    rewrite !orb_false_iff, bool_decide_eq_false. unfold str_eqb. rewrite !bool_decide_eq_false. tauto.
Qed.

Lemma plain_names path : plain_relative path -> names_of path = Normal <$> split "/"%char path.
Proof.
  intros (_ & _ & _ & Hparts). unfold names_of. induction (split "/"%char path) as [|x l IH]; [done|].
  cbn [omap list_omap]. rewrite fmap_cons. destruct (Hparts x) as (H1 & H2 & H3); [left|].
  unfold segment_component at 1, str_eqb. rewrite !bool_decide_eq_false_2 by done. cbn [orb]. f_equal. apply IH. intros y Hy. apply Hparts. by right.
Qed.

Lemma storage_ok_iff data scope b :
  app_env_ok scope = true ->
  storage_ok data scope b = true <->
  (st_provider b = LocalStorage -> exists path, st_path b = Some path /\ plain_relative path
     /\ managed data (app_names scope (bs "data" :: bs "app" :: split "/"%char path))).
Proof.
  intros Hs. unfold storage_ok. destruct (st_provider b); [|by split]. destruct (st_path b) as [path|]; [|split; [done|intros H; by destruct (H eq_refl) as (? & ? & _)]].
  rewrite andb_true_iff, negb_true_iff, plain_relative_iff.
  assert (Hdir : plain_relative path ->
    is_ok (validate_managed_directories data (components (join (join (join (bs "apps") scope) (bs "data/app")) path))) = true
    <-> managed data (app_names scope (bs "data" :: bs "app" :: split "/"%char path))).
  { intros Hp. rewrite components_join, components_app_path by (done || (by repeat apply join_nonempty) || apply Hp).
    rewrite (plain_names _ Hp), <- managed_names by done. unfold app_path. rewrite <- app_comm_cons, <- app_assoc.
    change (names_of (bs "data/app") ++ (Normal <$> split "/"%char path)) with (Normal <$> (bs "data" :: bs "app" :: split "/"%char path)).
    destruct (validate_managed_directories _ _) as [[]|]; cbn; split; congruence. }
  split.
  - intros [Hp Hm] _. exists path. split_and!; [done..|by apply Hdir].
  - intros H. destruct (H eq_refl) as (? & [= <-] & Hp & Hm). split; [done|by apply Hdir].
Qed.

Lemma local_storages_iff data scope storages :
  app_env_ok scope = true -> validate_local_storages data scope storages = Ok tt <-> local_storages_inside data scope storages.
Proof.
  intros Hs. unfold validate_local_storages, local_storages_inside.
  assert (Hall : all (fun kv => storage_ok data scope kv.2) (map_to_list storages) = true <->
    forall k b, storages !! k = Some b -> storage_ok data scope b = true).
  { unfold all. rewrite forallb_forall. split.
    - intros H k b Hk. apply (H (k, b)), list_elem_of_In. by apply elem_of_map_to_list.
    - intros H [k b] Hin%list_elem_of_In%elem_of_map_to_list. by eapply H. }
  destruct (all _ _).
  - split; [|done]. intros _ k b Hk. apply storage_ok_iff; [done|]. by apply (proj1 Hall eq_refl k).
  - split; [done|]. intros H. exfalso. enough (false = true) by done. apply Hall. intros k b Hk. apply storage_ok_iff; [done|]. by apply (H k).
Qed.

(** ** Commands *)

(** What is required of the contents of an application command.  A deployer, who is no server
    administrator, has to request the provisioned routes, certificate settings, credentials,
    storages and backup target, where a command carries them; the secrets of the app, its
    number of instances, the source of the client's address and the command that is run for
    a release are its own to choose. *)
Definition command_allowed p ctx scope (cmd : ServerCommand) : Prop :=
  let data := data_dir ctx in
  match cmd with
  | PrepareRelease _ path _ _ => inside_releases data scope path
  | PrepareReleaseUpload _ version | CleanupPreparedDeploy _ version | CleanupRelease _ version | FinalizeRelease _ version =>
      version_allowed data scope version
  | RunRelease _ version path _ _ _ _ => version_allowed data scope version /\ inside_releases data scope path
  | PrepareDeploy _ version path routes ssl _ =>
      version_allowed data scope version /\ inside_releases data scope path
      /\ (server_admin p = true \/ exists app, provisioned ctx scope app /\ same_routes app routes /\ same_ssl app ssl)
  | Deploy _ version path routes _source_ip _secrets credentials storages ssl backup _ =>
      version_allowed data scope version /\ inside_releases data scope path
      /\ (server_admin p = true
          \/ exists app, provisioned ctx scope app /\ same_routes app routes /\ same_ssl app ssl
               /\ (credentials = None \/ credentials = Some (pv_runtime_credentials app))
               /\ (storages = None \/ storages = Some (pv_storages app))
               /\ local_storages_inside data scope (pv_storages app) /\ backup = pv_backup app)
  | Rollback _ version =>
      let path := join (join data (join (join (bs "apps") scope) (bs "releases"))) version in
      version_allowed data scope version /\ utf8_valid path = true /\ inside_releases data scope path
      /\ (server_admin p = true
          \/ exists app, provisioned ctx scope app /\ same_routes app (pv_routes app) /\ same_ssl app (pv_ssl app)
               /\ local_storages_inside data scope (pv_storages app))
  | BackupNow _ (Some backup) => server_admin p = true \/ exists app, provisioned ctx scope app /\ pv_backup app = Some backup
  | BackupNow _ None | ListBackups _ | BackupStatus _ | BackupDownloadUrl _ _ | RestoreBackup _ _ | Scale _ _ _ _ | Stop _ | Delete _
  | Status _ | ListReleases _ | UpdateSecrets _ _ | GetSecretsHash _ | EnqueueRun _ _ _ _ | Signal _ _ _ => True
  | _ => False
  end.

Lemma let_iff {A E} (r : result unit E) (k : result A E) (a : A) (P Q : Prop) :
  (r = Ok tt <-> P) -> (k = Ok a <-> Q) -> (let? _ := r in k) = Ok a <-> P /\ Q.
Proof. intros HP HQ. rewrite <- HP, <- HQ. destruct r as [[]|]; [tauto|]. split; [done|]. by intros [? _]. Qed.

Lemma admin_iff {E} p (k : result unit E) (Q : Prop) :
  (k = Ok tt <-> Q) -> (if server_admin p then Ok tt else k) = Ok tt <-> server_admin p = true \/ Q.
Proof. intros HQ. destruct (server_admin p); [tauto|]. rewrite HQ. split; [tauto|]. by intros [?|?]. Qed.

Lemma provisioned_iff ctx scope (k : ProvisionedApp -> result unit Denial) (Q : ProvisionedApp -> Prop) :
  (forall app, k app = Ok tt <-> Q app) ->
  (let? app := provisioned_app ctx scope in k app) = Ok tt <-> exists app, provisioned ctx scope app /\ Q app.
Proof.
  intros HQ. setoid_rewrite <- HQ. setoid_rewrite <- provisioned_app_iff. destruct (provisioned_app ctx scope) as [app|].
  - split; [eauto|]. by intros (? & [= <-] & ?).
  - split; [done|]. by intros (? & ? & _).
Qed.

Lemma unless_iff {E} (b : bool) (e : E) (k : result unit E) (P Q : Prop) :
  (b = false <-> P) -> (k = Ok tt <-> Q) -> (if b then Err e else k) = Ok tt <-> P /\ Q.
Proof. intros HP HQ. rewrite <- HP, <- HQ. destruct b; [split; [done|by intros [? _]]|tauto]. Qed.

Lemma optional_kept {A} `{EqDecision A} (o : option A) (a : A) :
  match o with Some v => bool_decide (v <> a) | None => false end = false <-> o = None \/ o = Some a.
Proof.
  destruct o as [v|]; [|tauto]. rewrite bool_decide_eq_false. split; [intros Hv; right; f_equal; by apply dec_stable|]. intros [?|[= ->]]; [done|]. tauto.
Qed.

Lemma kept {A} `{EqDecision A} (x y : A) : bool_decide (x <> y) = false <-> x = y.
Proof. rewrite bool_decide_eq_false. split; [apply dec_stable|tauto]. Qed.

Lemma authorize_effects_iff p scope cmd ctx :
  app_env_ok scope = true -> authorize_effects p scope cmd ctx = Ok tt <-> command_allowed p ctx scope cmd.
Proof.
  intros Hs. pose proof (fun v => version_path_iff (data_dir ctx) scope v Hs) as Hv. pose proof (fun path => release_path_iff (data_dir ctx) scope path Hs) as Hp.
  pose proof (fun l => local_storages_iff (data_dir ctx) scope l Hs) as Hl.
  unfold authorize_effects, command_allowed. cbv zeta. destruct cmd; try done; try apply Hv; try apply Hp.
  - apply let_iff; [apply Hv|]. apply let_iff; [apply Hp|]. apply admin_iff, provisioned_iff. intros a. apply let_iff; [apply preserve_routes_iff|apply preserve_ssl_iff].
  - apply let_iff; [apply Hv|apply Hp].
  - apply let_iff; [apply Hv|]. apply let_iff; [apply Hp|]. apply admin_iff, provisioned_iff. intros a.
    apply let_iff; [apply preserve_routes_iff|]. apply let_iff; [apply preserve_ssl_iff|]. apply unless_iff; [apply optional_kept|].
    apply unless_iff; [apply optional_kept|]. apply let_iff; [apply Hl|]. case_bool_decide as Eb; by split.
  - destruct backup as [b|]; [|done]. apply admin_iff, provisioned_iff. intros a. case_bool_decide as Eb; split; intros E; by (done || destruct Eb).
  - apply let_iff; [apply Hv|]. apply unless_iff; [apply negb_false_iff|]. apply let_iff; [apply Hp|]. apply admin_iff, provisioned_iff. intros a.
    apply let_iff; [apply preserve_routes_iff|]. apply let_iff; [apply preserve_ssl_iff|apply Hl].
Qed.

Lemma authorize_app_iff p scope app :
  permissions_validate p = Ok tt ->
  authorize_app p scope app = Ok tt <-> app = scope /\ validate_app_name scope = Ok tt /\ (server_admin p = true \/ can_deploy p scope = true).
Proof.
  intros Hval. unfold authorize_app. rewrite Hval. cbn [deny map_err]. apply unless_iff; [apply kept|].
  apply let_iff; [apply deny_Ok|]. destruct (server_admin p), (can_deploy p scope); cbn; split; auto; try done. by intros [?|?].
Qed.

Lemma authorize_app_Ok p scope app :
  authorize_app p scope app = Ok tt ->
  app = scope /\ validate_app_name scope = Ok tt /\ (server_admin p = true \/ can_deploy p scope = true).
Proof.
  intros Ea. apply authorize_app_iff; [|done]. unfold authorize_app in Ea. by destruct (permissions_validate p) as [[]|].
Qed.

End Confined.

(** ** An instance: a deployer deploys its own app *)

Definition plain_fs : ManagedFs := {|
  canonicalize p := if starts_with p (bs "/") then Some p else None;
  path_is_dir _ := true;
  symlink_metadata _ := EntryDir |}.

Lemma plain_fs_laws : ManagedFsLaws plain_fs.
Proof. split. intros p r. cbn [canonicalize plain_fs]. destruct (starts_with p (bs "/")) eqn:E; [|done]. by intros [= <-]. Qed.

#[local] Existing Instances text_json plain_fs plain_fs_laws.

Definition deployer : Permissions := mkPermissions false false None {[bs "shop/production"]}.

Definition shop_storages : gmap str StorageBinding :=
  {[bs "uploads" := mkStorage LocalStorage None None None None None false None (Some (bs "files/public")) None]}.

Definition shop_context : PolicyContext :=
  mkContext (bs "/data")
    (Some (mkProvisioned (bs "shop/production") [bs "shop.example.com"; bs "example.com/shop"] SslBinding_default ∅ shop_storages None)).

Definition shop_deploy : ServerCommand :=
  Deploy (bs "shop/production") (bs "v1") (bs "/data/apps/shop/production/releases/v1") [bs "example.com/shop"; bs "shop.example.com"]
    Auto None None None SslBinding_default None false.

(** The same, with other routes; and the end of the app. *)
Definition shop_deploy_elsewhere : ServerCommand :=
  Deploy (bs "shop/production") (bs "v1") (bs "/data/apps/shop/production/releases/v1") [bs "other.example.com"]
    Auto None None None SslBinding_default None false.

Lemma shop_scope_ok : forall s, Some (bs "shop/production") = Some s -> app_env_ok s = true.
Proof. intros s E. injection E as <-. vm_compute. reflexivity. Qed.

Lemma shop_deploy_Ok : authorize_command deployer (Some (bs "shop/production")) shop_deploy shop_context = Ok tt.
Proof. vm_compute. reflexivity. Qed.

