(* ===== verification/Management.v ===== *)
(** * The management transport (tako-server/src/native_management.rs, upload.rs)

    An HTTP request on the native management surface, from its headers to the command that
    is run, the log that is read or the archive that is received.  As in the source, the
    authority that answers the signed authorization is an argument; it carries its own
    state.  Reading the provisioned state, JSON and base64 are parameters; what an accepted
    operation then does is the outcome. *)

From S2P Require Import Prelude RustStr Net Codec Sql Enrollment Registry NetServices NetRuntime.
From S2P Require Import RunsDb Routing StaticFiles Instances Protocol ManagementPolicy.

(** ** HTTP *)

(** The body as it arrives. *)
Inductive Body :=
| BodyEnd
| BodyData (data : str) (rest : Body)
| BodyBroken       (** an error, or a frame that is no data *)
| BodyStalled.     (** nothing more before the deadline *)

(** Header names are in lower case. *)
Record HttpRequest := mkHttp {
  http_method : str;
  http_path : str;
  http_query : option str;
  http_headers : list (str * str);
  http_body : Body;
}.

Definition AUTH_HEADER : str := bs "x-tako-network-authorization".
Definition MAX_AUTH_HEADER : nat := Z.to_nat (16 * 1024).
Definition MAX_RPC_BODY : Z := 1024 * 1024.
Definition MAX_LOG_BYTES : Z := 1024 * 1024.
Definition MAX_ARTIFACT_BYTES : Z := 512 * 1024 * 1024.

(** [HeaderValue::to_str]: visible ASCII and tabs. *)
Definition header_text (v : str) : option str :=
  if all (fun c => ((32 <=? byte_of c) && (byte_of c <? 127) || (byte_of c =? 9))%Z) v then Some v else None.

(** A header that is there once, readable, and neither empty nor too long. *)
Definition header (headers : list (str * str)) (name : str) : option str :=
  match snd <$> retain (fun kv => str_eqb kv.1 name) headers with
  | [v] =>
      match header_text v with
      | Some value => if bool_decide (value = []) || (MAX_AUTH_HEADER <? length value)%nat then None else Some value
      | None => None
      end
  | _ => None
  end.

Fixpoint read_body_from (limit : Z) (bytes : str) (b : Body) : result str Z :=
  match b with
  | BodyEnd => Ok bytes
  | BodyData data rest =>
      if (Z.max 0 (limit - Z.of_nat (length bytes)) <? Z.of_nat (length data))%Z then Err 413%Z
      else read_body_from limit (bytes ++ data) rest
  | BodyBroken => Err 400%Z
  | BodyStalled => Err 408%Z
  end.

Definition read_body (b : Body) (limit : Z) : result str Z := read_body_from limit [] b.

(** ** Operations and outcomes *)

Record Logs := mkLogs {
  log_app : str;
  log_previous : Z;
  log_current : Z;
  log_since : option Z;
  log_max_bytes : Z;
}.

Definition logs_parse (headers : list (str * str)) : option Logs :=
  max_bytes ← header headers (bs "x-tako-log-max-bytes") ≫= parse_u64;
  if (max_bytes =? 0)%Z || (MAX_LOG_BYTES <? max_bytes)%Z then None
  else
    since ← (if any (fun kv => str_eqb kv.1 (bs "x-tako-log-since-unix-secs")) headers
             then Some <$> (header headers (bs "x-tako-log-since-unix-secs") ≫= parse_i64)
             else Some None);
    app ← header headers (bs "x-tako-app");
    previous ← header headers (bs "x-tako-log-previous-offset") ≫= parse_u64;
    current ← header headers (bs "x-tako-log-current-offset") ≫= parse_u64;
    Some (mkLogs app previous current since max_bytes).

Definition logs_auth_body (l : Logs) : str :=
  logs_request_auth_body (log_app l) (log_previous l) (log_current l) (log_since l) (log_max_bytes l).

Record UploadMetadata := mkUpload { up_app : str; up_version : str; up_size : Z; up_sha256 : str }.

Definition upload_parse (headers : list (str * str)) : result UploadMetadata str :=
  let get name := ok_or (header headers (bs name)) (bs "Invalid artifact metadata") in
  let? app := get "x-tako-app"%string in
  let? version := get "x-tako-version"%string in
  let? size_text := get "x-tako-artifact-size"%string in
  let? size := ok_or (parse_u64 size_text) (bs "Invalid artifact size") in
  let? sha := get "x-tako-artifact-sha256"%string in
  if (size =? 0)%Z || (MAX_ARTIFACT_BYTES <? size)%Z then Err (bs "Artifact size exceeds quota")
  else if negb (length sha =? 64)%nat || negb (all is_lower_hex sha) then Err (bs "Invalid artifact digest")
  else
    let? _ := map_err (fun _ => bs "Invalid artifact app") (validate_app_name app) in
    let? _ := map_err (fun _ => bs "Invalid artifact version") (validate_release_version version) in
    Ok (mkUpload app version size sha).

Definition upload_auth_body (m : UploadMetadata) : str :=
  release_artifact_upload_auth_body (up_app m) (up_version m) (up_size m) (up_sha256 m).

(** ** Parameters *)

(** base64 ([STANDARD]) and serde_json. *)
Class TransportCodec `{JsonApi} := {
  std_decode : str -> option str;
  signed_json : SignedRequest -> option str;
  command_parse : str -> option ServerCommand;
}.

Class TransportLaws `{J : JsonApi} (R : RuntimeJson) (T : TransportCodec) := {
  signed_read_back s t : signed_json s = Some t -> signed_parse t = Some s;
  (** The scope of an action is an [AppEnv]. *)
  scope_is_app_env t s action scope :
    signed_parse t = Some s -> sr_request s = Authorize action -> action_scope action = Some scope -> app_env_ok scope = true;
}.

(** The tables of the state store that the policy reads. *)
Record StoredApp := mkStored { stored_id : str; stored_routes : list str }.

Record ManagementStore := mkStore {
  store_data_dir : str;
  load_apps : result (list StoredApp) unit;
  get_ssl : str -> result (option SslBinding) unit;
  get_runtime_credentials : str -> result (gmap str str) unit;
  get_storages : str -> result (gmap str StorageBinding) unit;
  get_backup : str -> result (option BackupBinding) unit;
}.

(** A file of the log: a plain file with one name, nothing, or anything else. *)
Inductive LogFile := LogPlain | LogMissing | LogUnsafe.

(** What the agent process answers. *)
Record AgentResponse := mkAgentResponse { agent_ready : bool; agent_status : Z; agent_response : option RpcResponse }.

#[global] Instance ManagementAction_eq_dec : EqDecision ManagementAction.
Proof. solve_decision. Defined.

Section Transport.
Context {S : SshApi} {X : X25519Api} {H : Sha256Api} {R : RuntimeJson} `{J : JsonApi} {T : TransportCodec} {F : ManagedFs}.

Inductive Operation := RpcOperation (command : ServerCommand) | UploadOperation (m : UploadMetadata) | LogsOperation (l : Logs).

Inductive ManagementOutcome :=
| Refused (status : Z) (message : str)
| RunCommand (command : ServerCommand)
| RunDrain (timeout_seconds : Z)
| ReceiveArtifact (scope : str) (m : UploadMetadata)
| ReadLogs (l : Logs).

Definition agent_authority (r : option AgentResponse) : result RpcResponse Z :=
  match r with
  | None => Err 503%Z
  | Some a =>
      if negb (agent_ready a) then Err 503%Z
      else if negb (agent_status a =? 200)%Z then Err 401%Z
      else ok_or (agent_response a) 503%Z
  end.

Definition invalid_authorization : ManagementOutcome := Refused 401 (bs "Invalid management authorization").

Definition permissions_for (signed : SignedRequest) (r : result RpcResponse Z) : result Permissions ManagementOutcome :=
  match sr_request signed with
  | Authorize action =>
      match r with
      | Ok (Authorized signer p authorized) =>
          if bool_decide (signer = sr_signer signed) && bool_decide (authorized = action) then Ok p else Err invalid_authorization
      | Ok _ => Err invalid_authorization
      | Err status => Err (Refused status (bs "Management authorization unavailable or denied"))
      end
  | _ => Err invalid_authorization
  end.

Definition authorization_header (headers : list (str * str)) : option SignedRequest :=
  value ← header headers AUTH_HEADER;
  if (MAX_AUTH_HEADER <? length value)%nat then None
  else
    bytes ← std_decode value;
    match signed_from_slice bytes with Ok s => Some s | Err _ => None end.

Definition matches_commitment (action : ManagementAction) (bytes : str) : bool := str_eqb (hex (sha256 bytes)) (action_sha256 action).

(** ** The provisioned state *)

(** [PathBuf::push] from the root on; every directory must be real or absent. *)
Fixpoint confined_walk (current : str) (cs : list Component) : bool :=
  match cs with
  | [] => true
  | c :: cs' =>
      match match c with RootDir => Some (bs "/") | Normal n => Some (join current n) | _ => None end with
      | None => false
      | Some path =>
          match symlink_metadata path with
          | EntryDir | EntryMissing => confined_walk path cs'
          | EntryOther | EntryFailed => false
          end
      end
  end.

Definition confined_directory (path : str) : bool := is_absolute path && confined_walk [] (components path).

Definition confined_logs (log_file : str -> LogFile) (data app : str) : bool :=
  let directory := join (join (join data (bs "apps")) app) (bs "logs") in
  confined_directory directory
  && all (fun name => match log_file (join directory name) with LogUnsafe => false | _ => true end)
       [bs "previous.log"; bs "current.log"].

Definition state_unreadable : str := bs "Cannot read provisioned management state".

Definition read_state {A} (scope : option str) (get : str -> result A unit) : result (option A) str :=
  map_err (fun _ => state_unreadable) (transpose (get <$> scope)).

Definition policy_context (st : ManagementStore) (scope : option str) : result PolicyContext str :=
  let? stored := read_state scope (fun s =>
    let? apps := load_apps st in Ok (find_first (fun a => str_eqb (stored_id a) s) apps)) in
  let? ssl := read_state scope (get_ssl st) in
  let? credentials := read_state scope (get_runtime_credentials st) in
  let? storages := read_state scope (get_storages st) in
  let? backup := read_state scope (get_backup st) in
  Ok (mkContext (store_data_dir st)
    (match scope, stored, credentials, storages with
     | Some s, Some (Some a), Some creds, Some sts =>
         Some (mkProvisioned s (stored_routes a) (default SslBinding_default (mjoin ssl)) creds sts (mjoin backup))
     | _, _, _, _ => None
     end)).

Definition authorize_management (st : ManagementStore) (p : Permissions) (scope : option str) (command : ServerCommand)
    : result unit str :=
  let? context := policy_context st scope in
  let? _ := authorize_command p scope command context in
  match classify command with
  | Application app =>
      if confined_directory (join (join (join (store_data_dir st) (bs "apps")) app) (bs "shared/logs")) then Ok tt
      else Err (bs "Managed shared log directory must not redirect")
  | _ => Ok tt
  end.

(** ** Requests *)

(** What is asked for, after the commitment of the action was compared. *)
Definition read_operation (request : HttpRequest) (action : ManagementAction) : result Operation ManagementOutcome :=
  let path := http_path request in
  let mismatch := Refused 401 (bs "Management commitment mismatch") in
  match action with
  | ActRpc _ _ =>
      if negb (str_eqb path (bs "/v1/management/rpc")) then Err (Refused 401 (bs "Management action mismatch"))
      else
        match read_body (http_body request) MAX_RPC_BODY with
        | Err status => Err (Refused status (bs "Invalid management body"))
        | Ok bytes =>
            if negb (matches_commitment action bytes) then Err mismatch
            else
              match command_parse bytes with
              | Some command => Ok (RpcOperation command)
              | None => Err (Refused 400 (bs "Invalid management command"))
              end
        end
  | ActReleaseArtifact _ _ =>
      if negb (str_eqb path (bs "/v1/management/release-artifact")) then Err (Refused 401 (bs "Management action mismatch"))
      else
        match upload_parse (http_headers request) with
        | Err message => Err (Refused 400 message)
        | Ok m => if negb (matches_commitment action (upload_auth_body m)) then Err mismatch else Ok (UploadOperation m)
        end
  | ActLogs _ _ =>
      if negb (str_eqb path (bs "/v1/management/logs")) then Err (Refused 401 (bs "Management action mismatch"))
      else
        match logs_parse (http_headers request) with
        | None => Err (Refused 400 (bs "Invalid log metadata"))
        | Some l =>
            if negb (matches_commitment action (logs_auth_body l)) then Err mismatch
            else
              match read_body (http_body request) 0 with
              | Err status => Err (Refused status (bs "Log request body must be empty"))
              | Ok _ => Ok (LogsOperation l)
              end
        end
  end.

Section Authority.
Context {A : Type}.
Variables (authorize : str -> A -> A * result RpcResponse Z) (log_file : str -> LogFile) (st : ManagementStore).

Definition run_operation (signed : SignedRequest) (action : ManagementAction) (wire : str) (op : Operation) (a : A) : A * ManagementOutcome :=
  match op with
  | RpcOperation command =>
      let '(a, r) := authorize wire a in
      match permissions_for signed r with
      | Err refused => (a, refused)
      | Ok p =>
          match authorize_management st p (action_scope action) command with
          | Err message => (a, Refused 403 message)
          | Ok _ => (a, match command with DrainServer t => RunDrain t | _ => RunCommand command end)
          end
      end
  | UploadOperation m =>
      match action_scope action with
      | None => (a, Refused 403 (bs "Explicit scope required"))
      | Some scope =>
          let '(a, r) := authorize wire a in
          match permissions_for signed r with
          | Err refused => (a, refused)
          | Ok p =>
              if is_ok (authorize_app p scope (up_app m)) then (a, ReceiveArtifact scope m)
              else (a, Refused 403 (bs "Deployment permission denied"))
          end
      end
  | LogsOperation l =>
      match action_scope action with
      | None => (a, Refused 403 (bs "Explicit scope required"))
      | Some scope =>
          let '(a, r) := authorize wire a in
          match permissions_for signed r with
          | Err refused => (a, refused)
          | Ok p =>
              if negb (is_ok (authorize_management st p (Some scope) (Status (log_app l))))
                 || negb (confined_logs log_file (store_data_dir st) (log_app l))
              then (a, Refused 403 (bs "Log access denied"))
              else (a, ReadLogs l)
          end
      end
  end.

Definition handle_with_authority (request : HttpRequest) (a : A) : A * ManagementOutcome :=
  let unknown := (a, Refused 404 (bs "Unknown management endpoint")) in
  if negb (str_eqb (http_method request) (bs "POST")) || bool_decide (http_query request <> None) then unknown
  else if negb (any (str_eqb (http_path request))
                  [bs "/v1/management/rpc"; bs "/v1/management/release-artifact"; bs "/v1/management/logs"]) then unknown
  else
    match authorization_header (http_headers request) with
    | None => (a, invalid_authorization)
    | Some signed =>
        match sr_request signed with
        | Authorize action =>
            if negb (is_ok (action_validate action)) then (a, invalid_authorization)
            else
              match read_operation request action with
              | Err refused => (a, refused)
              | Ok op =>
                  match signed_json signed with
                  | None => (a, invalid_authorization)
                  | Some wire => run_operation signed action wire op a
                  end
              end
        | _ => (a, invalid_authorization)
        end
    end.
End Authority.
End Transport.
