(* ===== verification/ManagementTrust.v ===== *)
(** * From a signature to a command

    The management transport over the authorization runtime of the network: what is run was
    asked for by a member of the network that has the right to it, and once. *)

From S2P Require Import Prelude RustStr Net Codec Sql Enrollment Registry RegistryProps NetServices.
From S2P Require Import NetRuntime NetRuntimeProps RunsDb Routing StaticFiles Instances Protocol ManagementPolicy ManagementProps.
From S2P Require Import Management.

Section Trust.
Context {S : SshApi} {X : X25519Api} {H : Sha256Api} {M : HmacApi} {C : X509Api} {R : RuntimeJson} {RS : RegistryStore}.
Context `{J : JsonApi} {T : TransportCodec} {TL : TransportLaws R T} {F : ManagedFs} {FL : ManagedFsLaws F}.
Variable keys : LocalDeviceKeys.
Implicit Types (cfg : RuntimeConfig) (rt : Runtime) (request : HttpRequest) (signed : SignedRequest).

(** What the transport relies on: an answer of the authority is the runtime's answer to the
    request on the wire. *)
Class Authority cfg (now : Z) (authorize : str -> Runtime -> Runtime * result RpcResponse Z) : Prop := {
  authority_answers wire rt rt' resp :
    authorize wire rt = (rt', Ok resp) ->
    exists signed draws, signed_from_slice wire = Ok signed
      /\ handle cfg signed (bs "POST") (bs "/v1/network/authorize") now draws rt = (rt', Ok resp);
}.

(** The runtime is such an authority. *)
Definition runtime_authority cfg (now : Z) (draws : Draws) (wire : str) (rt : Runtime) : Runtime * result RpcResponse Z :=
  match signed_from_slice wire with
  | Ok signed =>
      let '(rt', r) := handle cfg signed (bs "POST") (bs "/v1/network/authorize") now draws rt in (rt', map_err (fun _ => 401%Z) r)
  | Err _ => (rt, Err 503%Z)
  end.

#[global] Instance runtime_is_authority cfg now draws : Authority cfg now (runtime_authority cfg now draws).
Proof.
  split. intros wire rt rt' resp. unfold runtime_authority. destruct (signed_from_slice wire) as [signed|]; [|done].
  destruct (handle _ _ _ _ _ _ rt) as [rt1 [a|e]] eqn:E; cbn [map_err]; intros Ha; [|done]. injection Ha as -> ->. eauto.
Qed.

(** ** What an accepted request implies *)

Definition refused (o : ManagementOutcome) : bool := match o with Refused _ _ => true | _ => false end.

(** The rights that a command needs. *)
Definition may_run (p : Permissions) (scope : option str) (cmd : ServerCommand) : Prop :=
  match classify cmd with
  | InternalWorker => False
  | AuthenticatedProbe => True
  | ServerAdmin => server_admin p = true
  | DeploymentPreflight => server_admin p = true \/ exists s, scope = Some s /\ can_deploy p s = true
  | Application app => scope = Some app /\ (server_admin p = true \/ can_deploy p app = true)
  end.

Lemma authorize_management_Ok st p scope cmd :
  authorize_management st p scope cmd = Ok tt -> may_run p scope cmd.
Proof.
  unfold authorize_management, may_run. destruct (policy_context st scope) as [ctx|]; [|done].
  destruct (authorize_command p scope cmd ctx) as [[]|] eqn:E; [|done]. intros _. unfold authorize_command in E.
  destruct (permissions_validate p); [|done]. cbn [deny map_err] in E. destruct (classify cmd) as [| | | |app]; try done.
  - destruct (server_admin p) eqn:Ha; [by left|]. right. destruct scope as [s|]; [|done]. cbn [ok_or] in E.
    apply authorize_app_Ok in E as (_ & _ & [?|?]); [congruence|eauto].
  - by destruct (server_admin p).
  - destruct scope as [s|]; [|done]. cbn [ok_or] in E. destruct (authorize_app p s app) as [[]|] eqn:Ea; [|done].
    apply authorize_app_Ok in Ea as (-> & _ & ?). done.
Qed.

Definition committed (action : ManagementAction) (bytes : str) : Prop := hex (sha256 bytes) = action_sha256 action.

(** What the signed action commits to, and the right to it. *)
Definition entitled (p : Permissions) (action : ManagementAction) request (o : ManagementOutcome) : Prop :=
  match o with
  | Refused _ _ => False
  | RunCommand cmd => exists bytes, read_body (http_body request) MAX_RPC_BODY = Ok bytes /\ committed action bytes
      /\ command_parse bytes = Some cmd /\ may_run p (action_scope action) cmd
  | RunDrain t => exists bytes, read_body (http_body request) MAX_RPC_BODY = Ok bytes /\ committed action bytes
      /\ command_parse bytes = Some (DrainServer t) /\ server_admin p = true
  | ReceiveArtifact scope m => action_scope action = Some scope /\ up_app m = scope /\ committed action (upload_auth_body m)
      /\ (server_admin p = true \/ can_deploy p scope = true)
  | ReadLogs l => action_scope action = Some (log_app l) /\ committed action (logs_auth_body l)
      /\ (server_admin p = true \/ can_deploy p (log_app l) = true)
  end.

Definition op_entitled (action : ManagementAction) request (op : Operation) : Prop :=
  match op with
  | RpcOperation cmd => exists bytes, read_body (http_body request) MAX_RPC_BODY = Ok bytes /\ committed action bytes /\ command_parse bytes = Some cmd
  | UploadOperation m => committed action (upload_auth_body m)
  | LogsOperation l => committed action (logs_auth_body l)
  end.

Lemma read_operation_Ok request action op : read_operation request action = Ok op -> op_entitled action request op.
Proof.
  unfold read_operation, op_entitled. destruct action as [sc h|sc h|sc h]; (destruct (negb _) eqn:Ep; [done|]); clear Ep.
  - destruct (read_body _ _) as [bytes|] eqn:Eb; [|done]. destruct (matches_commitment _ bytes) eqn:Em; [|done]. cbn [negb].
    destruct (command_parse bytes) as [cmd|] eqn:Ec; [|done]. intros E. apply Ok_inj in E as <-. exists bytes.
    apply bool_decide_eq_true in Em. done.
  - destruct (upload_parse _) as [m|]; [|done]. destruct (matches_commitment _ _) eqn:Em; [|done]. cbn [negb]. intros E. apply Ok_inj in E as <-.
    by apply bool_decide_eq_true in Em.
  - destruct (logs_parse _) as [l|]; [|done]. destruct (matches_commitment _ _) eqn:Em; [|done]. cbn [negb].
    destruct (read_body _ _); [|done]. intros E. apply Ok_inj in E as <-. by apply bool_decide_eq_true in Em.
Qed.

Lemma permissions_for_Ok signed r p :
  permissions_for signed r = Ok p -> exists action, sr_request signed = Authorize action /\ r = Ok (Authorized (sr_signer signed) p action).
Proof.
  unfold permissions_for. destruct (sr_request signed) as [action| | | | |]; try done. destruct r as [[signer q authorized| | | | |]|]; try done.
  destruct (_ && _) eqn:E; [|done]. intros Eq. apply Ok_inj in Eq as <-. apply andb_true_iff in E as [E1 E2].
  apply bool_decide_eq_true in E1, E2. subst. eauto.
Qed.

(** An operation that is run was authorized with the permissions it was checked against. *)
Lemma run_operation_runs authorize log_file st signed action wire op request rt rt' o :
  sr_request signed = Authorize action -> op_entitled action request op ->
  run_operation authorize log_file st signed action wire op rt = (rt', o) -> refused o = false ->
  exists p, authorize wire rt = (rt', Ok (Authorized (sr_signer signed) p action)) /\ entitled p action request o.
Proof.
  intros Hreq Hop. unfold run_operation.
  assert (Hp : forall r p, permissions_for signed r = Ok p -> r = Ok (Authorized (sr_signer signed) p action)).
  { intros r p (action' & E & ->)%permissions_for_Ok. congruence. }
  assert (Hbad : forall r o', permissions_for signed r = Err o' -> refused o' = true).
  { intros r o'. unfold permissions_for. rewrite Hreq. destruct r as [[signer q authorized| | | | |]|]; intros E; try (by injection E as <-).
    destruct (_ && _); [done|]. by injection E as <-. }
  destruct op as [cmd|m|l]; cbn [op_entitled] in Hop.
  - destruct (authorize wire rt) as [a r]. destruct (permissions_for signed r) as [p|o'] eqn:Ep; [|intros E; injection E as -> ->; intros Ho; by rewrite (Hbad _ _ Ep) in Ho].
    destruct (authorize_management st p _ cmd) as [[]|] eqn:Ea; intros E; injection E as -> <-; [|done]. intros _.
    exists p. rewrite (Hp _ _ Ep). split; [done|]. apply authorize_management_Ok in Ea. destruct Hop as (bytes & H1 & H2 & H3).
    destruct cmd; cbn [entitled]; exists bytes; auto.
  - destruct (action_scope action) as [scope|] eqn:Es; [|intros E; by injection E as _ <-].
    destruct (authorize wire rt) as [a r]. destruct (permissions_for signed r) as [p|o'] eqn:Ep; [|intros E; injection E as -> ->; intros Ho; by rewrite (Hbad _ _ Ep) in Ho].
    destruct (authorize_app p scope (up_app m)) as [[]|] eqn:Ea; cbn [is_ok]; intros E; injection E as -> <-; [|done]. intros _.
    exists p. rewrite (Hp _ _ Ep). split; [done|]. apply authorize_app_Ok in Ea as (Eu & _ & ?). cbn [entitled]. rewrite Es. done.
  - destruct (action_scope action) as [scope|] eqn:Es; [|intros E; by injection E as _ <-].
    destruct (authorize wire rt) as [a r]. destruct (permissions_for signed r) as [p|o'] eqn:Ep; [|intros E; injection E as -> ->; intros Ho; by rewrite (Hbad _ _ Ep) in Ho].
    destruct (authorize_management st p (Some scope) _) as [[]|] eqn:Ea; cbn [is_ok negb orb]; [|intros E; by injection E as _ <-].
    destruct (confined_logs _ _ _); cbn [negb]; intros E; injection E as -> <-; [|done]. intros _.
    exists p. rewrite (Hp _ _ Ep). split; [done|]. apply authorize_management_Ok in Ea as [Ea ?]. injection Ea as ->. cbn [entitled]. rewrite Es. done.
Qed.

Lemma accepted_request authorize log_file st request rt rt' o :
  handle_with_authority authorize log_file st request rt = (rt', o) -> refused o = false ->
  exists signed action wire p, authorization_header (http_headers request) = Some signed /\ sr_request signed = Authorize action
    /\ signed_json signed = Some wire
    /\ authorize wire rt = (rt', Ok (Authorized (sr_signer signed) p action)) /\ entitled p action request o.
Proof.
  unfold handle_with_authority. cbv zeta. destruct (_ || _); [intros E; by injection E as _ <-|].
  destruct (negb _); [intros E; by injection E as _ <-|].
  destruct (authorization_header _) as [signed|]; [|intros E; by injection E as _ <-].
  destruct (sr_request signed) as [action| | | | |] eqn:Er; try (intros E; by injection E as _ <-).
  destruct (negb _); [intros E; by injection E as _ <-|].
  destruct (read_operation request action) as [op|o'] eqn:Eo.
  - apply read_operation_Ok in Eo. destruct (signed_json signed) as [wire|] eqn:Ew; [|intros E; by injection E as _ <-].
    intros E Ho. destruct (run_operation_runs _ _ _ _ _ _ _ _ _ _ _ Er Eo E Ho) as (p & Ha & He). exists signed, action, wire, p. done.
  - intros E. injection E as _ <-. revert Eo. unfold read_operation.
    destruct action; (destruct (negb _); [intros E; by injection E as <-|]).
    + destruct (read_body _ _); [|intros E; by injection E as <-]. destruct (negb _); [intros E; by injection E as <-|].
      destruct (command_parse _); [done|]. intros E; by injection E as <-.
    + destruct (upload_parse _); [|intros E; by injection E as <-]. destruct (negb _); [intros E; by injection E as <-|done].
    + destruct (logs_parse _); [|intros E; by injection E as <-]. destruct (negb _); [intros E; by injection E as <-|].
      destruct (read_body _ _); [done|]. intros E; by injection E as <-.
Qed.

(** The wire carries the request that was read from the header. *)
Lemma wire_is_signed signed wire signed' :
  signed_json signed = Some wire -> signed_from_slice wire = Ok signed' -> signed' = signed.
Proof.
  intros Hw. unfold signed_from_slice. destruct (_ <? _)%Z; [done|]. rewrite (signed_read_back signed wire Hw). cbn [json ok_or].
  destruct (check_size signed); [|done]. intros E. by apply Ok_inj in E.
Qed.

(** C29: what the management surface does was asked for by a member of the network that has
    the right to it.  An operation that is not refused carries an authorization for this
    network, this server and this moment, signed with the key of a member that is effective
    in the valid registry that the runtime read; the action that was signed commits to the
    very bytes of the command, or to the metadata of the archive or log, and names its scope;
    and the member's current permissions allow it: server administration, or the right to
    deploy that app and environment.  The same authorization is never accepted again,
    whatever happens in between. *)
Theorem managed_operations_are_authorized cfg now authorize `{!Authority cfg now authorize} log_file st request rt rt' o :
  handle_with_authority authorize log_file st request rt = (rt', o) -> refused o = false ->
  exists signed action s m,
    authorization_header (http_headers request) = Some signed /\ sr_request signed = Authorize action
    /\ sr_network_id signed = net_id (cfg_network cfg) /\ sr_server_id signed = cfg_server_id cfg
    /\ (Z.abs (sr_timestamp signed - now) <= auth_window_seconds (cfg_limits cfg))%Z
    /\ valid_registry s /\ network s = cfg_network cfg /\ signed_by signed s now m
    /\ entitled (permissions m) action request o
    /\ (rt_reachable keys (cfg, rt) ->
         forall cfg2 rt2 now2 authorize2 (_ : Authority cfg2 now2 authorize2) log_file2 st2 request2,
           rtc (rt_step keys) (cfg, rt') (cfg2, rt2) -> authorization_header (http_headers request2) = Some signed ->
           refused (handle_with_authority authorize2 log_file2 st2 request2 rt2).2 = true).
Proof.
  intros Hh Ho. destruct (accepted_request _ _ _ _ _ _ _ Hh Ho) as (signed & action & wire & p & Hhdr & Hreq & Hw & Ha & He).
  destruct (authority_answers _ _ _ _ Ha) as (signed' & draws & Hs & Hrun). apply (wire_is_signed _ _ _ Hw) in Hs. subst signed'.
  destruct (answered_by_member _ _ _ _ _ _ _ _ _ _ Hreq Hrun) as ((Hn & Hsv & _ & _ & Ht) & s & Hv & Hnet & m & Hm & Hresp).
  assert (p = permissions m) as -> by congruence.
  exists signed, action, s, m. do 9 (split; [done|]). intros Hreach cfg2 rt2 now2 authorize2 HA2 log_file2 st2 request2 Hrtc Hhdr2.
  destruct (handle_with_authority authorize2 log_file2 st2 request2 rt2) as [rt3 o2] eqn:E2. cbn [snd].
  destruct (refused o2) eqn:Eref; [done|]. exfalso.
  destruct (accepted_request _ _ _ _ _ _ _ E2 Eref) as (signed2 & action2 & wire2 & p2 & Hhdr2' & _ & Hw2 & Ha2 & _).
  rewrite Hhdr2 in Hhdr2'. injection Hhdr2' as <-.
  destruct (authority_answers _ _ _ _ Ha2) as (signed'' & draws2 & Hs2 & Hrun2). apply (wire_is_signed _ _ _ Hw2) in Hs2. subst signed''.
  pose proof (never_answered_again keys _ _ _ _ _ _ _ _ _ _ _ signed (bs "POST") (bs "/v1/network/authorize") now2 draws2
                Hreach Hrun Hrtc eq_refl eq_refl (Z.le_refl _)) as Hno.
  rewrite Hrun2 in Hno. done.
Qed.
End Trust.

(** ** An instance: the administrator stops the shop *)

#[local] Existing Instances demo_ssh demo_x25519 tail_sha256 demo_mac demo_x509 lossy_store text_json plain_fs plain_fs_laws.

#[local] Instance RpcRequest_eq_dec : EqDecision RpcRequest.
Proof. solve_decision. Defined.
#[local] Instance SignedRequest_eq_dec : EqDecision SignedRequest.
Proof. solve_decision. Defined.

Definition stop_text : str := bs "stop".
Definition stop_action : ManagementAction := ActRpc (Some (bs "shop/production")) (hex (sha256 stop_text)).

(** The text of the request does not matter to its signature here. *)
Definition stop_unsigned : SignedRequest :=
  mkSigned demo_network (ve_device_id server_device) (ve_device_id admin_device) 90 (bs "nonce-0000000002") (Authorize stop_action) [].

Definition stop_signed : SignedRequest :=
  match @rpc_transcript tail_sha256 runtime_json stop_unsigned with
  | Ok bytes => mkSigned (sr_network_id stop_unsigned) (sr_server_id stop_unsigned) (sr_signer stop_unsigned) (sr_timestamp stop_unsigned)
                  (sr_nonce stop_unsigned) (sr_request stop_unsigned) (take 64 (bs "admin" ++ RPC_NAMESPACE ++ bytes))
  | Err _ => stop_unsigned
  end.

Definition wire_json : RuntimeJson := {|
  request_json := @request_json runtime_json;
  signed_size := @signed_size runtime_json;
  signed_parse t := if str_eqb t (bs "wire") then Some stop_signed else None;
  member_json := @member_json runtime_json;
  member_parse := @member_parse runtime_json;
  revocation_json := @revocation_json runtime_json;
  revocation_parse := @revocation_parse runtime_json;
  entitlement_json _ := None;
  entitlement_parse _ := None;
  snapshot_size := @snapshot_size runtime_json;
  ack_size := @ack_size runtime_json |}.

#[local] Existing Instance wire_json.

Definition wire_codec : TransportCodec := {|
  std_decode v := if str_eqb v (bs "d2lyZQ==") then Some (bs "wire") else None;
  signed_json s := if bool_decide (s = stop_signed) then Some (bs "wire") else None;
  command_parse t := if str_eqb t stop_text then Some (Stop (bs "shop/production")) else None |}.

#[local] Existing Instance wire_codec.

Lemma wire_laws : TransportLaws wire_json wire_codec.
Proof.
  split.
  - intros s t. cbn [signed_json signed_parse wire_codec wire_json]. case_bool_decide as E; [|done]. intros Ht. injection Ht as <-. by rewrite E.
  - intros t s action scope. cbn [signed_parse wire_json]. destruct (str_eqb t (bs "wire")); [|done]. intros Hs. apply (inj Some) in Hs as <-.
    assert (Hr : sr_request stop_signed = Authorize stop_action) by (vm_compute; reflexivity). rewrite Hr. intros Ha.
    assert (action = stop_action) as -> by congruence. intros Hscope. apply (inj Some) in Hscope as <-. vm_compute. reflexivity.
Qed.

#[local] Existing Instance wire_laws.

Definition trust_opened : Runtime := (open_runtime server_keys runtime_config (runtime_registry : @Store lossy_store) empty_db).1.

Definition stop_request : HttpRequest :=
  mkHttp (bs "POST") (bs "/v1/management/rpc") None [(AUTH_HEADER, bs "d2lyZQ==")] (BodyData (bs "st") (BodyData (bs "op") BodyEnd)).

Definition shop_store : ManagementStore :=
  mkStore (bs "/data") (Ok []) (fun _ => Ok None) (fun _ => Ok ∅) (fun _ => Ok ∅) (fun _ => Ok None).

Definition stop_authority := runtime_authority runtime_config 100 no_draws.

Lemma stop_outcome :
  (handle_with_authority stop_authority (fun _ => LogMissing) shop_store stop_request trust_opened).2 = RunCommand (Stop (bs "shop/production")).
Proof. vm_compute. reflexivity. Qed.

Lemma managed_operations_are_authorized_witness :
  exists signed action s m, authorization_header (http_headers stop_request) = Some signed /\ valid_registry s
    /\ signed_by signed s 100 m /\ entitled (permissions m) action stop_request (RunCommand (Stop (bs "shop/production"))).
Proof.
  pose proof (pair_eq _ _ stop_outcome) as Hrun.
  destruct (managed_operations_are_authorized server_keys runtime_config 100 stop_authority _ _ _ _ _ _ Hrun eq_refl)
    as (signed & action & s & m & H1 & _ & _ & _ & _ & H2 & _ & H3 & H4 & _).
  exact (ex_intro _ signed (ex_intro _ action (ex_intro _ s (ex_intro _ m (conj H1 (conj H2 (conj H3 H4))))))).
Defined.
