(* ===== verification/JsonValue.v ===== *)
(** * JSON documents (serde_json::Value)

    A document as the sources walk and change it.  Objects are [BTreeMap]s: finite maps,
    iterated in the order of their keys ([btree]).  Reading and writing text is another
    crate: a class of functions.  Indexing for writing can panic: those operations return an
    option. *)

From S2P Require Import Prelude RustStr Net.

(** [BTreeMap::iter], [keys], [values]. *)
Definition key_leb {A} (a b : str * A) : bool := str_leb a.1 b.1.
Definition btree {A} (m : gmap str A) : list (str * A) := sort_by key_leb (map_to_list m).
Definition btree_keys {A} (m : gmap str A) : list str := (btree m).*1.

(** ** Documents *)

(** [serde_json::Number]: an integer, or the bits of a float. *)
Inductive Number := Integer (z : Z) | Float (bits : Z).

Inductive Value :=
| Null
| Boolean (b : bool)
| Num (n : Number)
| Text (s : str)
| Array (items : list Value)
| Object (fields : gmap str Value).

(** [as_object], [as_array], [as_str], [as_bool], [as_u64], [as_i64]. *)
Definition as_object (v : Value) : option (gmap str Value) := match v with Object m => Some m | _ => None end.
Definition as_array (v : Value) : option (list Value) := match v with Array l => Some l | _ => None end.
Definition as_str (v : Value) : option str := match v with Text s => Some s | _ => None end.
Definition as_bool (v : Value) : option bool := match v with Boolean b => Some b | _ => None end.
Definition as_u64 (v : Value) : option Z :=
  match v with Num (Integer z) => if ((0 <=? z) && (z <=? u64_max))%Z then Some z else None | _ => None end.
Definition as_i64 (v : Value) : option Z :=
  match v with Num (Integer z) => if ((i64_min <=? z) && (z <=? i64_max))%Z then Some z else None | _ => None end.
Definition is_null (v : Value) : bool := match v with Null => true | _ => false end.

(** [into_iter().flatten()] on an optional array or object. *)
Definition items_of (v : Value) : list Value := default [] (as_array v).
Definition fields_of (v : Value) : list (str * Value) := match as_object v with Some m => btree m | None => [] end.

(** [v == "text"], [v == true]. *)
Definition is_text (v : Value) (s : str) : bool := bool_decide (as_str v = Some s).
Definition is_bool (v : Value) (b : bool) : bool := bool_decide (as_bool v = Some b).

(** [Value::get], [v["key"]] for reading, [pointer] of a path of keys. *)
Definition get (v : Value) (key : str) : option Value := match v with Object m => m !! key | _ => None end.
Definition at_key (v : Value) (key : str) : Value := default Null (get v key).

Fixpoint pointer (v : Value) (path : list str) : option Value :=
  match path with
  | [] => Some v
  | key :: path' => let! w := get v key in pointer w path'
  end.

(** [v["key"] = f(v["key"])]: a null becomes an object, a missing key is null, and anything
    but an object panics. *)
Definition index_mut (v : Value) (key : str) (f : Value -> option Value) : option Value :=
  match v with
  | Null => let! w := f Null in Some (Object {[ key := w ]})
  | Object m => let! w := f (default Null (m !! key)) in Some (Object (<[key := w]> m))
  | _ => None
  end.

Definition set_key (v : Value) (key : str) (w : Value) : option Value := index_mut v key (fun _ => Some w).

(** [as_object_mut] and a change of the fields, if it is an object. *)
Definition update_fields (v : Value) (f : gmap str Value -> gmap str Value) : Value :=
  match v with Object m => Object (f m) | _ => v end.

(** [json!({..})] of given fields, and strings. *)
Definition obj (l : list (str * Value)) : Value := Object (list_to_map l).

(** ** Text (another crate) *)
Class SerdeJson := {
  to_vec : Value -> str;
  from_slice : str -> option Value;
}.

(** ** Ordered maps *)

Lemma str_leb_total a b : str_leb a b = true \/ str_leb b a = true.
Proof.
  revert b. induction a as [|x a IH]; intros [|y b]; cbn [str_leb]; auto.
  destruct (IH b); destruct (Z.ltb_spec (byte_of x) (byte_of y)), (Z.eqb_spec (byte_of x) (byte_of y)),
    (Z.ltb_spec (byte_of y) (byte_of x)), (Z.eqb_spec (byte_of y) (byte_of x)); simpl; auto; lia.
Qed.

Lemma str_leb_trans a b c : str_leb a b = true -> str_leb b c = true -> str_leb a c = true.
Proof.
  revert b c. induction a as [|x a IH]; intros [|y b] [|z c]; cbn [str_leb]; try done.
  rewrite !orb_true_iff, !andb_true_iff, !Z.ltb_lt, !Z.eqb_eq. intros [?|[? ?]] [?|[? ?]]; [left; lia..|].
  right. split; [lia|]. by eapply IH.
Qed.

Lemma btree_perm {A} (m : gmap str A) : btree m ≡ₚ map_to_list m.
Proof. apply sort_by_perm. Qed.

Lemma elem_of_btree {A} (m : gmap str A) k v : (k, v) ∈ btree m <-> m !! k = Some v.
Proof. by rewrite btree_perm, elem_of_map_to_list. Qed.

Lemma btree_keys_NoDup {A} (m : gmap str A) : NoDup (btree_keys m).
Proof. unfold btree_keys. rewrite btree_perm. apply NoDup_fst_map_to_list. Qed.

Lemma elem_of_btree_keys {A} (m : gmap str A) k : k ∈ btree_keys m <-> is_Some (m !! k).
Proof.
  unfold btree_keys. rewrite list_elem_of_fmap. split.
  - intros ([k' v] & -> & Hin%elem_of_btree). by exists v.
  - intros [v Hv]. exists (k, v). by rewrite elem_of_btree.
Qed.

Lemma btree_sorted {A} (m : gmap str A) : StronglySorted (fun a b => str_leb a b = true) (btree_keys m).
Proof.
  unfold btree_keys. assert (H : StronglySorted (fun a b => key_leb a b = true) (btree m)).
  { apply sort_by_sorted; intros; [apply str_leb_total|by eapply str_leb_trans]. }
  induction H as [|x l Hl IH Hx]; [constructor|]. cbn [fmap list_fmap]. constructor; [done|].
  rewrite Forall_fmap. exact Hx.
Qed.

Lemma elem_of_concat {A} (x : A) ls : x ∈ concat ls <-> exists l, x ∈ l /\ l ∈ ls.
Proof. rewrite list_elem_of_In, in_concat. setoid_rewrite list_elem_of_In. naive_solver. Qed.

(** ** Reading back what was written *)

Lemma get_set_key v k w v' k' : set_key v k w = Some v' -> get v' k' = if decide (k = k') then Some w else get v k'.
Proof.
  unfold set_key, index_mut. destruct v; try done; intros [= <-]; cbn [get]; case_decide; subst;
    by rewrite ?lookup_singleton_eq, ?lookup_singleton_ne, ?lookup_insert_eq, ?lookup_insert_ne.
Qed.

Lemma as_object_get v m : as_object v = Some m -> forall k, get v k = m !! k.
Proof. destruct v; try done. by intros [= ->]. Qed.

Lemma elem_of_fields_of v k w : (k, w) ∈ fields_of v <-> get v k = Some w.
Proof.
  unfold fields_of. destruct v; cbn [as_object get]; try (split; [by intros ?%elem_of_nil|done]).
  apply elem_of_btree.
Qed.
