(* ===== verification/ComposeModel.v ===== *)
(** * Compose projects and their validation (tako-core/src/compose.rs, tako-compose/src/lib.rs, validation.rs)

    The configuration and the runtime of a Compose deployment, and the checks a project
    passes before it reaches the container engine: once on the source, once on the model
    that Compose has resolved.  The file system is a parameter. *)

From S2P Require Import Prelude RustStr Net Codec JsonValue Enrollment StaticFiles ManagementPolicy.

(** An error with its text, an error whose text is the operating system's, or a panic. *)
Inductive Failure := Error (message : str) | IoFailure | Panicked.

#[global] Instance Failure_eq_dec : EqDecision Failure.
Proof. solve_decision. Defined.

Definition err {A} (parts : list str) : result A Failure := Err (Error (concat parts)).
Definition io {A} (o : option A) : result A Failure := ok_or o IoFailure.
Definition unwrap {A} (o : option A) : result A Failure := ok_or o Panicked.
Definition required {A} (o : option A) (message : string) : result A Failure := ok_or o (Error (bs message)).

(** A [for] loop whose body can return early with an error. *)
Fixpoint for_each {A E} (f : A -> result unit E) (l : list A) : result unit E :=
  match l with
  | [] => Ok tt
  | x :: l' => let? _ := f x in for_each f l'
  end.

(** [matches!(key, "a" | "b" | ..)]. *)
Definition one_of (keys : list string) (key : str) : bool := existsb (fun k => str_eqb (bs k) key) keys.

(** ** Configuration *)

Record ComposeConfig := mkCompose {
  cc_file : str;
  cc_service : str;
  cc_port : Z;
  cc_health_path : str;
  cc_health_host : option str;
}.

(** [char::is_whitespace] or [char::is_control] of some character: white space of [RustStr],
    and U+0000-U+001F, U+007F-U+009F. *)
Definition control_at (s : str) : bool :=
  match byte_of <$> s with
  | b :: r => ((b <? 32) || (b =? 127))%Z || ((b =? 194)%Z && match r with c :: _ => ((128 <=? c) && (c <=? 159))%Z | [] => false end)
  | [] => false
  end.

Fixpoint has_space_or_control (s : str) : bool :=
  match s with
  | [] => false
  | _ :: s' => bool_decide (is_Some (ws_strip s)) || control_at s || has_space_or_control s'
  end.

Definition is_ascii (s : str) : bool := all (fun c => (byte_of c <? 128)%Z) s.

Definition validate_health_host (host : option str) : result unit Failure :=
  match host with
  | Some h =>
      if bool_decide (h = []) || negb (is_ascii h) || has_space_or_control h || contains_char h "/"%char
      then err [bs "health_host must be an HTTP host without a scheme, path, or whitespace"]
      else Ok tt
  | None => Ok tt
  end.

Definition is_parent (c : Component) : bool := match c with ParentDir => true | _ => false end.

Definition compose_validate (c : ComposeConfig) : result unit Failure :=
  let? _ := validate_health_host (cc_health_host c) in
  if bool_decide (cc_file c = []) || is_absolute (cc_file c) || any is_parent (components (cc_file c))
  then err [bs "compose.file must be relative to the app directory without '..'"]
  else if bool_decide (cc_service c = [])
          || negb (all (fun b => is_ascii_alphanumeric b || contains_char (bs "_.-") b) (cc_service c))
  then err [bs "compose.service must name a Compose service"]
  else if (cc_port c =? 0)%Z || negb (starts_with (cc_health_path c) (bs "/")) || has_space_or_control (cc_health_path c)
  then err [bs "compose requires a nonzero port and an absolute HTTP health_path without whitespace"]
  else Ok tt.

(** ** The private bridge of an app's network (native_network.rs) *)

Definition RESOURCE : str := bs "tako_native_services".

Record NativeNetwork := mkNative {
  nn_network_id : str;
  nn_name : str;
  nn_bridge : str;
  nn_gateway : list Z;
}.

(** The text is lower-case hex, so that decoding it succeeds. *)
Definition native_network_new (network_id : str) : result NativeNetwork Failure :=
  if negb (length network_id =? 32)%nat || negb (all is_lower_hex network_id)
  then err [bs "native network ID must be 32 lowercase hex characters"]
  else
    let bytes := unhex network_id in
    Ok (mkNative network_id (bs "tako-svc-" ++ take 12 network_id) (bs "tks" ++ take 12 network_id)
          [10; 64 + byte_at bytes 6 mod 32; byte_at bytes 7; 1]%Z).

Definition subnet (n : NativeNetwork) : str := show_octets (take 3 (nn_gateway n) ++ [0%Z]) ++ bs "/24".

Definition is_resource (name : str) : bool := str_eqb name RESOURCE.

(** The body of the loop of [apply]: a service joins the bridge and uses its resolver; whether
    it had no networks of its own. *)
Definition attach_service (gateway : str) (service : Value) : result (Value * bool) Failure :=
  let? definition := required (as_object service) "invalid Compose service" in
  let networks := default (obj [(bs "default", obj [])]) (definition !! bs "networks") in
  let? networks := required (as_object networks) "expected resolved Compose networks" in
  if bool_decide (is_Some (networks !! RESOURCE))
  then err [bs "Compose service references reserved native network"]
  else
    Ok (Object (<[bs "dns" := Array [Text gateway]]> (<[bs "networks" := Object (<[RESOURCE := obj []]> networks)]> definition)),
        negb (bool_decide (is_Some (definition !! bs "networks")))).

Fixpoint attach_services (gateway : str) (entries : list (str * Value)) (services : gmap str Value) (needs_default : bool)
  : result (gmap str Value * bool) Failure :=
  match entries with
  | [] => Ok (services, needs_default)
  | (name, service) :: entries' =>
      let? (service, added) := attach_service gateway service in
      attach_services gateway entries' (<[name := service]> services) (needs_default || added)
  end.

Definition native_apply (n : NativeNetwork) (model : Value) : result Value Failure :=
  match (let! v := get model (bs "networks") in get v RESOURCE) with
  | Some _ => err [bs "Compose network name tako_native_services is reserved"]
  | None =>
      let? services := required (as_object (at_key model (bs "services"))) "Compose has no services" in
      let? (services, needs_default) := attach_services (show_octets (nn_gateway n)) (btree services) services false in
      let? model := unwrap (set_key model (bs "services") (Object services)) in
      let? networks := required (as_object (default (obj []) (get model (bs "networks")))) "invalid Compose networks" in
      let networks :=
        if needs_default && negb (bool_decide (is_Some (networks !! bs "default")))
        then <[bs "default" := obj []]> networks else networks in
      let networks := <[RESOURCE := obj [(bs "external", Boolean true); (bs "name", Text (nn_name n))]]> networks in
      unwrap (set_key model (bs "networks") (Object networks))
  end.

(** ** Runtimes *)

Record ComposeRuntime := mkComposeRuntime {
  cr_project : str;
  cr_directory : str;
  cr_config : ComposeConfig;
  cr_env : gmap str str;
  cr_development : bool;
  cr_override_file : str;
  cr_source : option str;
  cr_replicas : gmap str Z;
  cr_native_network : option NativeNetwork;
}.

Definition TAKO_APP_DATA_DIR_ENV : str := bs "TAKO_DATA_DIR".
Definition OVERRIDE_FILE : str := bs ".tako-compose-override.yaml".
Definition CLIENT_ENV : list string :=
  ["PATH"; "HOME"; "DOCKER_CONFIG"; "BUILDX_CONFIG"; "HTTP_PROXY"; "HTTPS_PROXY"; "NO_PROXY"; "http_proxy";
   "https_proxy"; "no_proxy"; "SSL_CERT_FILE"; "SSL_CERT_DIR"]%string.

Definition working_directory (r : ComposeRuntime) : str := default (cr_directory r) (cr_source r).

Definition reserved_for_client (key : str) : bool :=
  starts_with key (bs "DOCKER_") || starts_with key (bs "COMPOSE_") || starts_with key (bs "BUILDX_")
  || starts_with key (bs "BUILDKIT_") || starts_with key (bs "LD_") || starts_with key (bs "DYLD_")
  || one_of CLIENT_ENV key || str_eqb key (bs "EXPERIMENTAL_BUILDKIT_SOURCE_POLICY").

(** [Path::parent]: the text before the last component, without the separators and dots
    that follow it.  Texts are reversed. *)
Fixpoint trim_separators (r : str) : str :=
  match r with
  | "/"%char :: ((_ :: _) as r') => trim_separators r'
  | "."%char :: (("/"%char :: _) as r') => trim_separators r'
  | _ => r
  end.

Fixpoint drop_name (r : str) : str :=
  match r with
  | "/"%char :: _ | [] => r
  | _ :: r' => drop_name r'
  end.

Definition parent (path : str) : option str :=
  match components path with
  | [] | [RootDir] => None
  | _ => Some (rev (trim_separators (drop_name (trim_separators (rev path)))))
  end.

(** What is at a path: a link, a directory with its names, or a file with whether it is
    executable and its contents. *)
Inductive FsEntry := FsLink | FsDir (names : list str) | FsFile (executable : bool) (contents : str) | FsFailed.

Class ComposeFs := {
  path_is_file : str -> bool;
  read_entry : str -> FsEntry;
}.

Section Runtime.
Context {H : Sha256Api} {F : ManagedFs} {G : ComposeFs} {I : HashIter str str}.

Definition digest (value : str) : str := take 24 (hex (sha256 value)).

(** [prepared.rs]: where the private inputs of a release are kept. *)
Definition app_preparations (app_data : str) : result str Failure :=
  let? base := required (let! p := parent app_data in parent p) "Invalid app data directory" in
  Ok (join base (bs "compose")).

Definition root_for (directory file data : str) : result str Failure :=
  let? private := app_preparations data in
  Ok (join private (digest (directory ++ of_byte 10 :: file))).

Definition compose_new (directory : str) (config : ComposeConfig) (env : gmap str str) : result ComposeRuntime Failure :=
  let? _ := compose_validate config in
  let? data := required (env !! TAKO_APP_DATA_DIR_ENV) "Compose requires an app data directory" in
  let project := bs "tako-" ++ digest data in
  let? root := root_for directory (cc_file config) data in
  let? _ :=
    if path_is_file (join root (bs "current.json")) then Ok tt
    else
      let? canonical := io (canonicalize (join directory (cc_file config))) in
      let? base := io (canonicalize directory) in
      if path_starts_with canonical base then Ok tt
      else err [bs "Compose file must stay inside the app directory"] in
  let? _ := for_each (fun kv => if reserved_for_client kv.1 then err [bs "'"; kv.1; bs "' is reserved for the Compose client"] else Ok tt)
              (hash_iter env) in
  Ok (mkComposeRuntime project directory config env false OVERRIDE_FILE None ∅ None).

Definition with_native_network (r : ComposeRuntime) (n : NativeNetwork) : ComposeRuntime :=
  mkComposeRuntime (cr_project r) (cr_directory r) (cr_config r) (cr_env r) (cr_development r) (cr_override_file r)
    (cr_source r) (cr_replicas r) (Some n).

Definition with_replicas (r : ComposeRuntime) (replicas : gmap str Z) : ComposeRuntime :=
  mkComposeRuntime (cr_project r) (cr_directory r) (cr_config r) (cr_env r) (cr_development r) (cr_override_file r)
    (cr_source r) replicas (cr_native_network r).

Definition compose_development (directory : str) (config : ComposeConfig) (env : gmap str str) (identity : str)
  : result ComposeRuntime Failure :=
  let env := match env !! TAKO_APP_DATA_DIR_ENV with Some _ => env | None => <[TAKO_APP_DATA_DIR_ENV := directory]> env end in
  let? r := compose_new directory config env in
  let project := bs "tako-dev-" ++ digest identity in
  Ok (mkComposeRuntime project (cr_directory r) (cr_config r) (cr_env r) true (bs ".tako/compose/" ++ project ++ bs ".yaml")
        (cr_source r) (cr_replicas r) (cr_native_network r)).
End Runtime.
