(* ===== verification/ComposeValidation.v ===== *)
(** * What a Compose project may ask of the engine (tako-compose/src/validation.rs, lib.rs)

    The allow lists and path checks of a production project, on its source and on the model
    that Compose resolved, and what a model that passes cannot do. *)

From S2P Require Import Prelude RustStr Net Codec JsonValue Enrollment StaticFiles ManagementPolicy ComposeModel.

Definition SERVICE_KEYS : list string :=
  ["image"; "build"; "pull_policy"; "command"; "entrypoint"; "environment"; "env_file"; "ports"; "expose"; "volumes";
   "tmpfs"; "networks"; "configs"; "secrets"; "depends_on"; "healthcheck"; "restart"; "stop_grace_period"; "stop_signal";
   "user"; "working_dir"; "read_only"; "init"; "tty"; "stdin_open"; "hostname"; "domainname"; "dns"; "dns_opt";
   "dns_search"; "extra_hosts"; "labels"; "annotations"; "logging"; "deploy"; "scale"; "cpus"; "cpu_count";
   "cpu_percent"; "cpu_period"; "cpu_quota"; "cpu_shares"; "cpuset"; "mem_limit"; "mem_reservation"; "mem_swappiness";
   "memswap_limit"; "pids_limit"; "shm_size"; "ulimits"; "cap_drop"; "security_opt"; "platform"; "attach";
   "oom_kill_disable"; "oom_score_adj"]%string.

Definition MODEL_KEYS : list string := ["name"; "version"; "services"; "networks"; "volumes"; "configs"; "secrets"]%string.
Definition BUILD_KEYS : list string :=
  ["context"; "dockerfile"; "dockerfile_inline"; "args"; "target"; "platforms"; "no_cache"; "pull"; "labels";
   "additional_contexts"; "secrets"; "shm_size"]%string.
Definition DEPLOY_KEYS : list string := ["replicas"; "resources"; "update_config"; "rollback_config"; "mode"]%string.
Definition NO_NEW_PRIVILEGES : list string :=
  ["no-new-privileges"; "no-new-privileges:true"; "no-new-privileges=true"]%string.

Definition extension_key (key : str) : bool := starts_with key (bs "x-").

(** [matches!(value.as_str(), Some(..))]. *)
Definition text_one_of (keys : list string) (v : Value) : bool :=
  match as_str v with Some s => one_of keys s | None => false end.

(** [as_object().is_some_and(|v| v.is_empty())]. *)
Definition is_empty_object (v : Value) : bool :=
  match as_object v with Some m => bool_decide (m = ∅) | None => false end.

(** [get(key).is_some_and(p)]. *)
Definition get_and (v : Value) (key : string) (p : Value -> bool) : bool :=
  match get v (bs key) with Some w => p w | None => false end.

(** ** Services *)

Definition check_service_key (name key : str) : result unit Failure :=
  if extension_key key then Ok tt
  else if one_of SERVICE_KEYS key then Ok tt
  else err [bs "Compose service '"; name; bs "': "; key; bs " is not supported in production"].

Definition check_security_opt (service : Value) : result unit Failure :=
  match get service (bs "security_opt") with
  | Some options =>
      if match as_array options with Some l => all (text_one_of NO_NEW_PRIVILEGES) l | None => false end
      then Ok tt else err [bs "Compose security_opt supports no-new-privileges only"]
  | None => Ok tt
  end.

Definition check_logging (service : Value) : result unit Failure :=
  match get service (bs "logging") with
  | Some logging =>
      if get_and logging "driver" (fun v => negb (text_one_of ["json-file"; "local"; "none"]%string v))
      then err [bs "Compose logging supports json-file, local, or none only"]
      else for_each (fun kv => if one_of ["max-size"; "max-file"; "compress"]%string kv.1 then Ok tt
                               else err [bs "Compose logging option '"; kv.1; bs "' is not supported"])
             (fields_of (at_key logging (bs "options")))
  | None => Ok tt
  end.

Definition check_deploy (service : Value) : result unit Failure :=
  match as_object (at_key service (bs "deploy")) with
  | Some deploy =>
      let? _ := for_each (fun kv =>
                  if str_eqb kv.1 (bs "placement") && is_empty_object kv.2 then Ok tt
                  else if one_of DEPLOY_KEYS kv.1 then Ok tt
                  else err [bs "Compose deploy."; kv.1; bs " is not supported"]) (btree deploy) in
      if get_and (Object deploy) "mode" (fun mode => negb (is_text mode (bs "replicated")))
      then err [bs "Compose deploy.mode supports replicated only"]
      else for_each (fun kind =>
             for_each (fun kv => if one_of ["cpus"; "memory"; "pids"]%string kv.1 then Ok tt
                                 else err [bs "Compose deploy.resources."; kind; bs "."; kv.1; bs " is not supported"])
               (fields_of (at_key (at_key (at_key service (bs "deploy")) (bs "resources")) kind)))
             [bs "limits"; bs "reservations"]
  | None => Ok tt
  end.

Definition check_mount_types (service : Value) : result unit Failure :=
  for_each (fun volume =>
    if get_and volume "type" (fun kind => negb (text_one_of ["bind"; "volume"; "tmpfs"]%string kind))
    then err [bs "Compose mounts support bind, volume, and tmpfs only"] else Ok tt)
    (items_of (at_key service (bs "volumes"))).

Definition validate_service (name : str) (service : Value) : result unit Failure :=
  let? fields := required (as_object service) "Compose service must be an object" in
  let? _ := for_each (check_service_key name) (btree_keys fields) in
  let? _ := check_security_opt service in
  let? _ := check_logging service in
  let? _ := check_deploy service in
  check_mount_types service.

(** ** Resources *)

Definition resource_keys (kind : string) : list string :=
  if String.eqb kind "volumes" then ["name"; "external"; "driver"; "labels"]%string
  else if String.eqb kind "networks"
  then ["name"; "external"; "driver"; "labels"; "internal"; "attachable"; "enable_ipv4"; "enable_ipv6"]%string
  else ["name"; "external"; "file"; "content"; "environment"; "labels"]%string.

Definition validate_resource (source : bool) (env : option (gmap str str)) (kind : string) (name : str) (resource : Value)
  : result unit Failure :=
  if get_and resource "external" (fun v => negb (is_bool v false))
     || (source && bool_decide (is_Some (get resource (bs "name"))))
  then err [bs "Compose "; bs kind; bs "."; name;
            bs " must be scoped to this app; external resources and custom names are not supported"]
  else
    let? _ := for_each (fun kv =>
                if negb source && String.eqb kind "networks" && str_eqb kv.1 (bs "ipam") && is_empty_object kv.2 then Ok tt
                else if negb (extension_key kv.1) && negb (one_of (resource_keys kind) kv.1)
                then err [bs "Compose "; bs kind; bs "."; name; bs "."; kv.1; bs " is not supported"]
                else Ok tt) (fields_of resource) in
    let driver := if String.eqb kind "volumes" then bs "local" else bs "bridge" in
    if (String.eqb kind "volumes" || String.eqb kind "networks")
       && get_and resource "driver" (fun v => negb (is_text v driver))
    then err [bs "Compose "; bs kind; bs " requires the "; driver; bs " driver"]
    else match as_str (at_key resource (bs "environment")), env with
         | Some key, Some env =>
             if bool_decide (is_Some (env !! key)) then Ok tt
             else err [bs "Compose resource environment must reference an app variable or secret"]
         | _, _ => Ok tt
         end.

Definition validate_resources (model : Value) (source : bool) (env : option (gmap str str)) : result unit Failure :=
  for_each (fun kind =>
    for_each (fun kv => validate_resource source env kind kv.1 kv.2) (fields_of (at_key model (bs kind))))
    ["volumes"; "networks"; "configs"; "secrets"]%string.

(** ** Paths *)

Section Paths.
Context {F : ManagedFs}.

Definition checked_path (value : Value) (base root : str) (kind : string) (source : bool) : result str Failure :=
  let? path := ok_or (as_str value) (Error (concat [bs "Compose "; bs kind; bs " requires a file path"])) in
  if source && (is_absolute path || contains_char path "$"%char || starts_with path (bs "~")
                || contains_char path "\"%char || contains_str path (bs "://"))
  then err [bs "Compose "; bs kind; bs " must be a literal relative path inside the app directory"]
  else
    let? path := ok_or (canonicalize (join base path)) (Error (concat [bs "Cannot read Compose "; bs kind])) in
    let? root := io (canonicalize root) in
    if path_starts_with path root then Ok path
    else err [bs "Compose "; bs kind; bs " must stay inside the app directory"].

Definition check_path (value : Value) (base root : str) (kind : string) (source : bool) : result unit Failure :=
  let? _ := checked_path value base root kind source in Ok tt.

Definition source_path (value : Value) (base root : str) (kind : string) : result unit Failure :=
  check_path value base root kind true.

(** [additional_contexts]: an object, or an array of [name=path]. *)
Definition additional_contexts (contexts : Value) : list Value :=
  match as_object contexts with
  | Some map => (btree map).*2
  | None => (fun v => match (let! s := as_str v in split_once "="%char s) with Some (_, path) => Text path | None => Null end)
              <$> items_of contexts
  end.

Definition validate_build (build : Value) (root : str) (source : bool) : result unit Failure :=
  let context := match build with Text _ => build | _ => default (Text (bs ".")) (get build (bs "context")) end in
  let? context := checked_path context root root "build context" source in
  if negb (path_is_dir context) then err [bs "Compose build context must be a directory"]
  else
    let? _ := for_each (fun kv => if one_of BUILD_KEYS kv.1 then Ok tt
                                  else err [bs "Compose build."; kv.1; bs " is not supported in production"]) (fields_of build) in
    let? _ :=
      match get build (bs "dockerfile") with
      | Some file => check_path file context root "Dockerfile" source
      | None =>
          match get build (bs "dockerfile_inline") with
          | None => check_path (Text (bs "Dockerfile")) context root "Dockerfile" source
          | Some _ => Ok tt
          end
      end in
    for_each (fun value =>
      if match as_str value with Some v => starts_with v (bs "service:") && negb (contains_char v "$"%char) | None => false end
      then Ok tt else check_path value root root "additional build context" source)
      (additional_contexts (at_key build (bs "additional_contexts"))).

Definition check_resource_files (model : Value) (root : str) (source : bool) : result unit Failure :=
  for_each (fun kind =>
    for_each (fun kv => match get kv.2 (bs "file") with
                        | Some file => check_path file root root "config/secret file" source
                        | None => Ok tt
                        end) (fields_of (at_key model kind)))
    [bs "configs"; bs "secrets"].

Definition validate_resource_files (model : Value) (root : str) : result unit Failure := check_resource_files model root false.

(** ** The source of a project *)

Definition check_env_files (root : str) (service : Value) : result unit Failure :=
  match get service (bs "env_file") with
  | Some files =>
      for_each (fun file => source_path (default file (get file (bs "path"))) root root "env_file")
        (match as_array files with Some l => l | None => [files] end)
  | None => Ok tt
  end.

Definition check_source_volume (root : str) (volume : Value) : result unit Failure :=
  match as_str volume with
  | Some short =>
      match split ":"%char short with
      | first :: _ :: _ =>
          if starts_with first (bs ".") || starts_with first (bs "/") || contains_char first "$"%char || contains_char first "/"%char
          then source_path (Text first) root root "bind mount" else Ok tt
      | _ => Ok tt
      end
  | None =>
      if is_text (at_key volume (bs "type")) (bs "bind")
      then source_path (at_key volume (bs "source")) root root "bind mount" else Ok tt
  end.

Definition validate_source (model : Value) (root : str) (env : gmap str str) : result unit Failure :=
  let? object := required (as_object model) "Compose must be an object" in
  let? _ := for_each (fun key => if negb (extension_key key) && negb (one_of MODEL_KEYS key)
                                 then err [bs "Compose "; key; bs " is not supported in production"] else Ok tt) (btree_keys object) in
  let? _ := validate_resources model true (Some env) in
  let? _ := check_resource_files model root true in
  let? services := required (as_object (at_key model (bs "services"))) "Compose has no services" in
  for_each (fun kv =>
    let? _ := validate_service kv.1 kv.2 in
    let? _ := match get kv.2 (bs "build") with Some build => validate_build build root true | None => Ok tt end in
    let? _ := check_env_files root kv.2 in
    for_each (check_source_volume root) (items_of (at_key kv.2 (bs "volumes")))) (btree services).

(** ** The resolved model (lib.rs) *)

Definition check_bind (development : bool) (root name : str) (volume : Value) : result unit Failure :=
  if is_text (at_key volume (bs "type")) (bs "bind") then
    let? source := required (as_str (at_key volume (bs "source"))) "Compose bind mount is missing a source" in
    let? source := io (canonicalize source) in
    if (negb development && negb (is_bool (at_key volume (bs "read_only")) true)) || negb (path_starts_with source root)
    then err [bs "Compose service '"; name;
              bs "': use named volumes for persistent data; bind mounts must be read-only files inside the app directory"]
    else Ok tt
  else Ok tt.

Definition validate_model_service (development : bool) (root name : str) (service : Value) : result unit Failure :=
  let? _ :=
    if development then Ok tt
    else
      let? _ := validate_service name service in
      match get service (bs "build") with Some build => validate_build build root false | None => Ok tt end in
  let? _ := for_each (fun key => match get service (bs key) with
                                 | Some _ => err [bs "Compose service '"; name; bs "': "; bs key; bs " is not supported by Tako"]
                                 | None => Ok tt
                                 end) ["container_name"; "network_mode"; "profiles"]%string in
  let? _ :=
    match (let! v := pointer service [bs "build"; bs "context"] in as_str v) with
    | Some context =>
        let? context := io (canonicalize context) in
        if path_starts_with context root then Ok tt
        else err [bs "Compose service '"; name; bs "' build context must stay inside the app directory"]
    | None => Ok tt
    end in
  for_each (check_bind development root name) (items_of (at_key service (bs "volumes"))).

Definition validate_model_with_mode (model : Value) (directory ingress : str) (development : bool) : result unit Failure :=
  let? services := required (as_object (at_key model (bs "services"))) "Compose has no services" in
  if negb (bool_decide (is_Some (services !! ingress)))
  then err [bs "Compose service '"; ingress; bs "' does not exist"]
  else
    let? root := io (canonicalize directory) in
    let? _ :=
      if development then Ok tt
      else let? _ := validate_resources model false None in validate_resource_files model root in
    for_each (fun kv => validate_model_service development root kv.1 kv.2) (btree services).

Definition validate_model (model : Value) (directory ingress : str) : result unit Failure :=
  validate_model_with_mode model directory ingress false.

(** [ComposeRuntime::model], after the engine has printed the resolved model. *)
Definition accept_model (r : ComposeRuntime) (model : Value) : result Value Failure :=
  let? _ := validate_model_with_mode model (working_directory r) (cc_service (cr_config r)) (cr_development r) in
  let? _ := if cr_development r then Ok tt else validate_resources model false (Some (cr_env r)) in
  Ok model.
End Paths.
