(* ===== verification/ComposePlan.v ===== *)
(** * Planning a Compose deployment (tako-compose/src/plan.rs)

    From the resolved model to the services in the order they are updated: replicas, update
    order, dependencies, the fingerprint that decides whether a container is kept, and the
    model of one container. *)

From Stdlib Require Import SpecFloat.
From S2P Require Import Prelude RustStr Net Codec JsonValue Enrollment StaticFiles ManagementPolicy Protocol.
From S2P Require Import ComposeModel ComposeValidation.

Definition SERVICE_LABEL : str := bs "sh.tako.compose.service".
Definition SLOT_LABEL : str := bs "sh.tako.compose.slot".
Definition FINGERPRINT_LABEL : str := bs "sh.tako.compose.fingerprint".
Definition RELEASE_LABEL : str := bs "sh.tako.compose.release".
Definition DEPENDENCIES_LABEL : str := bs "sh.tako.compose.dependencies".

Inductive UpdateOrder := StartFirst | StopFirst.
Inductive DependencyCondition := Started | Healthy | Completed.

#[global] Instance UpdateOrder_eq_dec : EqDecision UpdateOrder.
Proof. solve_decision. Defined.
#[global] Instance DependencyCondition_eq_dec : EqDecision DependencyCondition.
Proof. solve_decision. Defined.

Record ServicePlan := mkServicePlan {
  sp_name : str;
  sp_fingerprint : str;
  sp_replicas : Z;
  sp_order : UpdateOrder;
  (** nanoseconds *)
  sp_monitor : Z;
  sp_dependencies : gmap str DependencyCondition;
  sp_completed : bool;
}.

Record Plan := mkPlan { plan_model : Value; plan_services : list ServicePlan }.

(** ** Durations: [f64] is IEEE binary64 *)

Definition f64_add : spec_float -> spec_float -> spec_float := SFadd 53 1024.
Definition f64_mul : spec_float -> spec_float -> spec_float := SFmul 53 1024.

(** The double nearest to [m / 10^k]. *)
Definition f64_ratio (m : Z) (k : nat) : spec_float :=
  match m with
  | Zpos p => SFdiv 53 1024 (S754_finite false p 0) (S754_finite false (Z.to_pos (10 ^ Z.of_nat k)) 0)
  | _ => S754_zero false
  end.

Definition digits_value (s : str) : Z := fold_left (fun acc c => acc * 10 + (byte_of c - 48))%Z s 0%Z.

(** [str::parse::<f64>] of a text of digits and dots. *)
Definition parse_f64 (s : str) : option spec_float :=
  let '(whole, fraction) := splitn2 "."%char s in
  let fraction := default [] fraction in
  if bool_decide (whole ++ fraction = []) || negb (all is_ascii_digit (whole ++ fraction)) then None
  else Some (f64_ratio (digits_value (whole ++ fraction)) (length fraction)).

(** [Duration::from_secs_f64] in nanoseconds: to the nearest, ties to even. *)
Definition round_half_even (n d : Z) : Z :=
  let q := (n / d)%Z in
  let r := (n mod d)%Z in
  if (2 * r <? d)%Z then q
  else if (d <? 2 * r)%Z then (q + 1)%Z
  else if Z.even q then q else (q + 1)%Z.

Definition from_secs_f64 (f : spec_float) : Z :=
  match f with
  | S754_finite false m e =>
      if (0 <=? e)%Z then (Zpos m * 2 ^ e * 1000000000)%Z else round_half_even (Zpos m * 1000000000) (2 ^ (- e))
  | _ => 0%Z
  end.

Definition is_finite (f : spec_float) : bool :=
  match f with S754_zero _ | S754_finite _ _ _ => true | _ => false end.

(** Units and their factors in seconds, as decimals. *)
Definition micro_sign : str := [of_byte 194; of_byte 181].
Definition units : list (str * spec_float) :=
  [(bs "ms", f64_ratio 1 3); (bs "us", f64_ratio 1 6); (micro_sign ++ bs "s", f64_ratio 1 6); (bs "ns", f64_ratio 1 9);
   (bs "h", f64_ratio 3600 0); (bs "m", f64_ratio 60 0); (bs "s", f64_ratio 1 0)].

Definition number_char (c : ascii) : bool := is_ascii_digit c || bool_decide (c = "."%char).

Fixpoint span_number (s : str) : str * str :=
  match s with
  | c :: s' => if number_char c then let '(a, b) := span_number s' in (c :: a, b) else ([], s)
  | [] => ([], [])
  end.

(** Every round consumes a unit, so that the length of the text is enough fuel. *)
Fixpoint duration_loop (fuel : nat) (rest : str) (seconds : spec_float) : option spec_float :=
  match rest, fuel with
  | [], _ => Some seconds
  | _, O => None
  | _, S fuel' =>
      let '(number, rest) := span_number rest in
      if bool_decide (rest = []) then None
      else
        let! count := parse_f64 number in
        let! (unit, multiplier) := find_first (fun u => starts_with rest u.1) units in
        duration_loop fuel' (drop (length unit) rest) (f64_add seconds (f64_mul count multiplier))
  end.

Definition parse_duration (value : Value) : result Z Failure :=
  let? text := required (as_str value) "update_config.monitor must be a duration" in
  let? seconds := required (duration_loop (length text) text (S754_zero false)) "Invalid update monitor duration" in
  if negb (is_finite seconds) || negb (SFleb (S754_zero false) seconds && SFleb seconds (f64_ratio 120 0))
  then err [bs "update_config.monitor must be between 0s and 2m"]
  else Ok (from_secs_f64 seconds).

(** ** Services *)

Definition UNSUPPORTED_KEYS : list string :=
  ["container_name"; "network_mode"; "profiles"; "links"; "external_links"; "volumes_from"; "develop"; "post_start"; "pre_stop"]%string.

Definition plan_validate_service (name : str) (service : Value) : result unit Failure :=
  let? _ := validate_service name service in
  let? _ := for_each (fun key => match get service (bs key) with
                                 | Some _ => err [bs "Compose service '"; name; bs "': "; bs key; bs " is not supported by production service updates"]
                                 | None => Ok tt
                                 end) UNSUPPORTED_KEYS in
  let? _ := for_each (fun key => if match as_str (at_key service key) with Some s => starts_with s (bs "service:") | None => false end
                                 then err [bs "Compose service '"; name; bs "': shared service namespaces are not supported"]
                                 else Ok tt) [bs "ipc"; bs "pid"] in
  let? _ := for_each (fun kv : str * Value =>
                        if one_of ["order"; "monitor"]%string kv.1 then Ok tt
                        else err [bs "Compose service '"; name; bs "': update_config supports order and monitor only"])
              (match pointer service [bs "deploy"; bs "update_config"] with Some update => fields_of update | None => [] end) in
  let? _ := match pointer service [bs "deploy"; bs "rollback_config"] with
            | Some _ => err [bs "Compose service '"; name; bs "': rollback_config is not supported; Tako restores the previous deployment on failure"]
            | None => Ok tt
            end in
  let? _ := if match as_object (at_key service (bs "labels")) with
               | Some labels => any (fun k => starts_with k (bs "sh.tako.compose.")) (btree_keys labels)
               | None => false
               end
            then err [bs "Compose service '"; name; bs "': sh.tako.compose labels are reserved"] else Ok tt in
  for_each (fun v => if is_text (at_key v (bs "type")) (bs "volume")
                        && match as_str (at_key v (bs "source")) with Some s => bool_decide (s = []) | None => true end
                     then err [bs "Compose service '"; name; bs "': anonymous volumes cannot survive service replacement; declare a named volume"]
                     else Ok tt) (items_of (at_key service (bs "volumes"))).

(** The names of the named volumes a service can write to. *)
Definition writable_volumes_of (definition : Value) : list str :=
  omap (fun v => if is_text (at_key v (bs "type")) (bs "volume") && negb (is_bool (at_key v (bs "read_only")) true)
                 then as_str (at_key v (bs "source")) else None) (items_of (at_key definition (bs "volumes"))).

Definition dependency_condition (name : str) (options : Value) : result DependencyCondition Failure :=
  if match get options (bs "required") with Some v => is_bool v false | None => false end
     || is_bool (at_key options (bs "restart")) true
  then err [bs "Compose service '"; name; bs "': optional dependencies and depends_on.restart are not supported in production"]
  else
    let condition := default (bs "service_started") (as_str (at_key options (bs "condition"))) in
    if str_eqb condition (bs "service_started") then Ok Started
    else if str_eqb condition (bs "service_healthy") then Ok Healthy
    else if str_eqb condition (bs "service_completed_successfully") then Ok Completed
    else err [bs "Compose service '"; name; bs "': unsupported dependency condition"].

Fixpoint collect_dependencies (name : str) (entries : list (str * Value)) (deps : gmap str DependencyCondition)
  : result (gmap str DependencyCondition) Failure :=
  match entries with
  | [] => Ok deps
  | (dependency, options) :: entries' =>
      let? condition := dependency_condition name options in
      collect_dependencies name entries' (<[dependency := condition]> deps)
  end.

Definition FIVE_SECONDS : Z := 5000000000.

(** The definition without what belongs to preparation: builds, and the ports of the source. *)
Definition prepared_definition (fields : gmap str Value) : Value :=
  Object (<[bs "ports" := Array []]> (delete (bs "pull_policy") (delete (bs "build") fields))).

Definition replicas_of (r : ComposeRuntime) (name : str) (definition : Value) : Z :=
  let replicas := default 1%Z (let! v := match pointer definition [bs "deploy"; bs "replicas"] with
                                         | Some v => Some v
                                         | None => get definition (bs "scale")
                                         end in as_u64 v) in
  default replicas (cr_replicas r !! name).

Definition is_ingress (r : ComposeRuntime) (name : str) : bool := str_eqb name (cc_service (cr_config r)).

Definition update_order (r : ComposeRuntime) (name : str) (definition : Value) : result UpdateOrder Failure :=
  match (let! v := pointer definition [bs "deploy"; bs "update_config"; bs "order"] in as_str v) with
  | Some order =>
      if str_eqb order (bs "start-first") then Ok StartFirst
      else if str_eqb order (bs "stop-first") then Ok StopFirst
      else err [bs "Compose service '"; name; bs "': update order must be start-first or stop-first"]
  | None => if is_ingress r name && bool_decide (writable_volumes_of definition = []) then Ok StartFirst else Ok StopFirst
  end.

Definition monitor_of (definition : Value) : result Z Failure :=
  match pointer definition [bs "deploy"; bs "update_config"; bs "monitor"] with
  | Some value => parse_duration value
  | None => Ok FIVE_SECONDS
  end.

Definition plan_service (r : ComposeRuntime) (name : str) (definition : Value) : result (Value * ServicePlan) Failure :=
  let? _ := plan_validate_service name definition in
  let? fields := unwrap (as_object definition) in
  let definition := prepared_definition fields in
  let replicas := replicas_of r name definition in
  if (128 <? replicas)%Z || (is_ingress r name && (replicas =? 0)%Z)
  then err [bs "Compose service '"; name; bs "': HTTP ingress supports 1..128 replicas; other services support 0..128 replicas"]
  else
    let? order := update_order r name definition in
    let? monitor := monitor_of definition in
    let? dependencies := collect_dependencies name (fields_of (at_key definition (bs "depends_on"))) ∅ in
    Ok (definition, mkServicePlan name [] replicas order monitor dependencies false).

Fixpoint plan_all (r : ComposeRuntime) (entries : list (str * Value)) (definitions : gmap str Value) (plans : gmap str ServicePlan)
  : result (gmap str Value * gmap str ServicePlan) Failure :=
  match entries with
  | [] => Ok (definitions, plans)
  | (name, definition) :: entries' =>
      let? (definition, plan) := plan_service r name definition in
      plan_all r entries' (<[name := definition]> definitions) (<[name := plan]> plans)
  end.

(** ** Jobs: dependencies that have to complete *)

Definition with_completed (p : ServicePlan) : ServicePlan :=
  mkServicePlan (sp_name p) (sp_fingerprint p) (sp_replicas p) StopFirst (sp_monitor p) (sp_dependencies p) true.

(** A [BTreeSet] of names. *)
Definition btree_set (l : list str) : list str := btree_keys (list_to_map ((fun k => (k, tt)) <$> l) : gmap str unit).

Definition completed_names (plans : gmap str ServicePlan) : list str :=
  btree_set (concat ((fun kv => omap (fun d : str * DependencyCondition => if bool_decide (d.2 = Completed) then Some d.1 else None)
                                  (btree (sp_dependencies kv.2))) <$> btree plans)).

Fixpoint mark_completed (r : ComposeRuntime) (names : list str) (plans : gmap str ServicePlan) : result (gmap str ServicePlan) Failure :=
  match names with
  | [] => Ok plans
  | name :: names' =>
      match plans !! name with
      | None => err [bs "Unknown Compose dependency '"; name; bs "'"]
      | Some plan =>
          if is_ingress r name
          then err [bs "The HTTP ingress cannot be a completed dependency job"]
          else mark_completed r names' (<[name := with_completed plan]> plans)
      end
  end.

(** ** The order of updates *)

Record Visit := mkVisit { visiting : gset str; visited : gset str; ordered : list str }.

Definition dependency_error (what name : str) (post : string) : Failure := Error (concat [what; name; bs post]).

(** Every nested call adds a name of the plans to [visiting]: one more than their number is
    enough fuel, and running out of it would be a panic. *)
Fixpoint visit (plans : gmap str ServicePlan) (fuel : nat) (name : str) (st : Visit) : result Visit Failure :=
  match fuel with
  | O => Err Panicked
  | S fuel' =>
      if bool_decide (name ∈ visited st) then Ok st
      else if bool_decide (name ∈ visiting st) then Err (dependency_error (bs "Compose dependency cycle at '") name "'")
      else
        match plans !! name with
        | None => Err (dependency_error (bs "Unknown Compose dependency '") name "'")
        | Some plan =>
            let? st :=
              (fix visit_dependencies (dependencies : list str) (st : Visit) : result Visit Failure :=
                 match dependencies with
                 | [] => Ok st
                 | dependency :: dependencies' =>
                     match plans !! dependency with
                     | None => Err (dependency_error (bs "Unknown Compose dependency '") dependency "'")
                     | Some dependency_plan =>
                         if (sp_replicas dependency_plan =? 0)%Z
                         then Err (dependency_error (bs "Required Compose dependency '") dependency "' has zero replicas")
                         else
                           let? st := visit plans fuel' dependency st in
                           visit_dependencies dependencies' st
                     end
                 end) (btree_keys (sp_dependencies plan)) (mkVisit ({[name]} ∪ visiting st) (visited st) (ordered st)) in
            Ok (mkVisit (visiting st ∖ {[name]}) ({[name]} ∪ visited st) (ordered st ++ [name]))
        end
  end.

Fixpoint visit_names (plans : gmap str ServicePlan) (names : list str) (st : Visit) : result Visit Failure :=
  match names with
  | [] => Ok st
  | name :: names' =>
      let? st := visit plans (S (size plans)) name st in
      visit_names plans names' st
  end.

Definition visit_all (plans : gmap str ServicePlan) : result (list str) Failure :=
  let? st := visit_names plans (btree_keys plans) (mkVisit ∅ ∅ []) in
  Ok (ordered st).

(** [plans.remove(&name).unwrap()] for every name. *)
Fixpoint take_plans (plans : gmap str ServicePlan) (names : list str) : result (list ServicePlan) Failure :=
  match names with
  | [] => Ok []
  | name :: names' =>
      let? plan := unwrap (plans !! name) in
      let? rest := take_plans (delete name plans) names' in
      Ok (plan :: rest)
  end.

(** ** Fingerprints *)

Section Fingerprints.
Context {H : Sha256Api} {J : SerdeJson} {F : ManagedFs} {G : ComposeFs}.

(** The text of relative components. *)
Fixpoint show_path (cs : list Component) : str :=
  match cs with
  | [] => []
  | c :: cs' =>
      let name := match c with Normal n => n | ParentDir => bs ".." | CurDir => bs "." | RootDir => [] end in
      match cs' with [] => name | _ => name ++ "/"%char :: show_path cs' end
  end.

Definition relative_input (path root : str) : result str Failure :=
  let? path := io (canonicalize path) in
  let? root := io (canonicalize root) in
  match path_strip_prefix path root with
  | Some rest => Ok (show_path rest)
  | None => err [bs "Compose input must stay inside the app directory"]
  end.

(** The bytes that are digested for a file or a directory.  [PATH_MAX] bounds the depth. *)
Definition PATH_MAX : nat := 4096.

Fixpoint hash_entry (fuel : nat) (path root : str) : result str Failure :=
  match fuel with
  | O => Err IoFailure
  | S fuel' =>
      let? canonical := required (canonicalize path) "Cannot read a Compose mounted file" in
      if negb (path_starts_with canonical root) then err [bs "Compose mounted files must stay inside the app directory"]
      else
        match read_entry path with
        | FsFailed => Err IoFailure
        | FsLink => err [bs "Compose mounted files must not contain symlinks"]
        | FsDir names =>
            let names := sort_by str_leb names in
            let? contents :=
              (fix hash_entries (names : list str) : result str Failure :=
                 match names with
                 | [] => Ok []
                 | name :: names' =>
                     let? here := hash_entry fuel' (join path name) root in
                     let? rest := hash_entries names' in
                     Ok (name ++ of_byte 0 :: here ++ rest)
                 end) names in
            Ok (bs "directory" ++ to_le 8 (Z.of_nat (length names)) ++ contents)
        | FsFile executable contents =>
            Ok (bs "file" ++ of_byte (if executable then 1 else 0) :: to_le 8 (Z.of_nat (length contents)) ++ contents)
        end
  end.

Definition hash_project_file (path directory : str) : result str Failure :=
  let? path := required (canonicalize path) "Cannot read a Compose bind/config/secret file" in
  let? root := io (canonicalize directory) in
  if negb (path_starts_with path root)
  then err [bs "Compose bind/config/secret files must stay inside the app directory"]
  else
    let? bytes := hash_entry (S PATH_MAX) path root in
    Ok (hex (sha256 bytes)).

Definition referenced_resources (service : Value) (kind : string) : list str :=
  if String.eqb kind "networks" then match as_object (at_key service (bs kind)) with Some v => btree_keys v | None => [] end
  else btree_set (omap (fun v => if negb (String.eqb kind "volumes") || is_text (at_key v (bs "type")) (bs "volume")
                                 then as_str (at_key v (bs "source")) else None) (items_of (at_key service (bs kind)))).

Definition condition_text (c : DependencyCondition) : Value :=
  Text (bs (match c with Started => "started" | Healthy => "healthy" | Completed => "completed" end)).

(** A [BTreeMap] of conditions, serialized. *)
Definition dependencies_value (deps : gmap str DependencyCondition) : Value := Object (condition_text <$> deps).

Definition config_value (c : ComposeConfig) : Value :=
  obj [(bs "file", Text (cc_file c)); (bs "service", Text (cc_service c)); (bs "port", Num (Integer (cc_port c)));
       (bs "health_path", Text (cc_health_path c)); (bs "health_host", match cc_health_host c with Some h => Text h | None => Null end)].

(** The definition without what does not change its containers. *)
Definition stripped_definition (fields : gmap str Value) : gmap str Value :=
  let fields := delete (bs "scale") (delete (bs "depends_on") fields) in
  match fields !! bs "deploy" with
  | Some (Object deploy) =>
      let deploy := delete (bs "update_config") (delete (bs "replicas") deploy) in
      if bool_decide (deploy = ∅) then delete (bs "deploy") fields else <[bs "deploy" := Object deploy]> fields
  | _ => fields
  end.

(** One referenced resource, with the contents of its variable or its file. *)
Definition identify_resource (r : ComposeRuntime) (model : Value) (kind : string) (reference : str) (identity : Value)
  : result Value Failure :=
  let resource := at_key (at_key model (bs kind)) reference in
  let? identity := unwrap (index_mut identity (bs kind) (fun v => set_key v reference resource)) in
  let? identity :=
    match as_str (at_key resource (bs "environment")) with
    | Some key =>
        let? value := ok_or (cr_env r !! key)
                        (Error (concat [bs "Compose resource environment '"; key; bs "' is not an app variable or secret"])) in
        unwrap (index_mut identity (bs kind) (fun v => index_mut v reference (fun w =>
          set_key w (bs "x-tako-environment-content") (Text (hex (sha256 value))))))
    | None => Ok identity
    end in
  match as_str (at_key resource (bs "file")) with
  | Some file =>
      let? relative := relative_input file (working_directory r) in
      let? identity := unwrap (index_mut identity (bs kind) (fun v => index_mut v reference (fun w =>
                         set_key w (bs "file") (Text relative)))) in
      let? contents := hash_project_file file (working_directory r) in
      unwrap (index_mut identity (bs "files") (fun v => set_key v relative (Text contents)))
  | None => Ok identity
  end.

Fixpoint identify_references (r : ComposeRuntime) (model : Value) (references : list (string * str)) (identity : Value)
  : result Value Failure :=
  match references with
  | [] => Ok identity
  | (kind, reference) :: references' =>
      let? identity := identify_resource r model kind reference identity in
      identify_references r model references' identity
  end.

(** A bind mount is identified by its place and contents. *)
Definition identify_volume (r : ComposeRuntime) (volume : Value) : result Value Failure :=
  if is_text (at_key volume (bs "type")) (bs "bind") then
    let? path := required (as_str (at_key volume (bs "source"))) "Bind mount has no source" in
    let? relative := relative_input path (working_directory r) in
    let? contents := hash_project_file path (working_directory r) in
    let? volume := unwrap (set_key volume (bs "source") (Text relative)) in
    unwrap (set_key volume (bs "x-tako-content") (Text contents))
  else Ok volume.

Fixpoint identify_volumes (r : ComposeRuntime) (volumes : list Value) : result (list Value) Failure :=
  match volumes with
  | [] => Ok []
  | volume :: volumes' =>
      let? volume := identify_volume r volume in
      let? rest := identify_volumes r volumes' in
      Ok (volume :: rest)
  end.

Definition all_references (definition : Value) : list (string * str) :=
  concat ((fun kind => (fun reference => (kind, reference)) <$> referenced_resources definition kind)
            <$> ["networks"; "volumes"; "configs"; "secrets"]%string).

(** What the fingerprint digests.  Writing through [identity["service"]["volumes"]] leaves a
    null where there were no volumes. *)
Definition service_identity (r : ComposeRuntime) (model : Value) (plan : ServicePlan) : result Value Failure :=
  let? fields := unwrap (as_object (at_key (at_key model (bs "services")) (sp_name plan))) in
  let definition := Object (stripped_definition fields) in
  let identity := obj [(bs "service", definition); (bs "dependencies", dependencies_value (sp_dependencies plan))] in
  let? identity := identify_references r model (all_references definition) identity in
  let volumes := at_key (at_key identity (bs "service")) (bs "volumes") in
  let? volumes := match volumes with
                  | Array l => let? l := identify_volumes r l in Ok (Array l)
                  | _ => Ok volumes
                  end in
  let? identity := unwrap (index_mut identity (bs "service") (fun v => set_key v (bs "volumes") volumes)) in
  if is_ingress r (sp_name plan)
  then unwrap (set_key identity (bs "ingress") (update_fields (config_value (cr_config r)) (delete (bs "file"))))
  else Ok identity.

Definition fingerprint_of (r : ComposeRuntime) (model : Value) (plan : ServicePlan) : result str Failure :=
  let? identity := service_identity r model plan in
  Ok (hex (sha256 (to_vec identity))).

Definition with_fingerprint (p : ServicePlan) (fingerprint : str) : ServicePlan :=
  mkServicePlan (sp_name p) fingerprint (sp_replicas p) (sp_order p) (sp_monitor p) (sp_dependencies p) (sp_completed p).

Fixpoint fingerprint_all (r : ComposeRuntime) (model : Value) (entries : list (str * ServicePlan)) (plans : gmap str ServicePlan)
  : result (gmap str ServicePlan) Failure :=
  match entries with
  | [] => Ok plans
  | (name, plan) :: entries' =>
      let? fingerprint := fingerprint_of r model plan in
      fingerprint_all r model entries' (<[name := with_fingerprint plan fingerprint]> plans)
  end.

(** [Plan::new]. *)
Definition plan_new (model : Value) (r : ComposeRuntime) : result Plan Failure :=
  let? definitions := required (as_object (at_key model (bs "services"))) "Compose has no services" in
  let? (definitions, plans) := plan_all r (btree definitions) definitions ∅ in
  let? model := unwrap (set_key model (bs "services") (Object definitions)) in
  let? plans := mark_completed r (completed_names plans) plans in
  let? model := match cr_native_network r with Some network => native_apply network model | None => Ok model end in
  let? plans := fingerprint_all r model (btree plans) plans in
  let? names := visit_all plans in
  let? services := take_plans plans names in
  Ok (mkPlan model services).

(** ** The model of one container *)

Definition generation (p : ServicePlan) (slot : Z) : str :=
  sp_name p ++ "-"%char :: show_Z slot ++ "-"%char :: take 24 (sp_fingerprint p).

Definition alias_network (name : str) (network : str) (options : Value) : option Value :=
  if is_resource network then Some options
  else
    let options := if is_null options then obj [] else options in
    let aliases := default [] (as_array (at_key options (bs "aliases"))) in
    let aliases := if any (fun v => is_text v name) aliases then aliases else aliases ++ [Text name] in
    set_key options (bs "aliases") (Array aliases).

Fixpoint alias_networks (name : str) (entries : list (str * Value)) (networks : gmap str Value) : option (gmap str Value) :=
  match entries with
  | [] => Some networks
  | (network, options) :: entries' =>
      let! options := alias_network name network options in
      alias_networks name entries' (<[network := options]> networks)
  end.

Definition set_label (definition : Value) (label : str) (value : Value) : option Value :=
  index_mut definition (bs "labels") (fun labels => set_key labels label value).

(** One replica, started in the order of the plan. *)
Definition single_replica (fields : gmap str Value) : gmap str Value :=
  let fields := delete (bs "scale") (delete (bs "depends_on") fields) in
  match fields !! bs "deploy" with
  | Some (Object deploy) =>
      <[bs "deploy" := Object (<[bs "replicas" := Num (Integer 1)]> (delete (bs "update_config") deploy))]> fields
  | _ => fields
  end.

Definition with_aliases (name : str) (fields : gmap str Value) : option (gmap str Value) :=
  match fields !! bs "networks" with
  | Some (Object networks) =>
      let! networks := alias_networks name (btree networks) networks in
      Some (<[bs "networks" := Object networks]> fields)
  | _ => Some fields
  end.

Definition stamp_labels (service : ServicePlan) (slot : Z) (r : ComposeRuntime) (definition : Value) : option Value :=
  let! definition := set_label definition SERVICE_LABEL (Text (sp_name service)) in
  let! definition := set_label definition SLOT_LABEL (Text (show_Z slot)) in
  let! definition := set_label definition FINGERPRINT_LABEL (Text (sp_fingerprint service)) in
  let! definition := set_label definition RELEASE_LABEL (Text (cr_directory r)) in
  set_label definition DEPENDENCIES_LABEL (Text (to_vec (dependencies_value (sp_dependencies service)))).

(** The ingress is published on a port of the loopback address that the engine chooses. *)
Definition loopback_ports (r : ComposeRuntime) : Value :=
  Array [obj [(bs "host_ip", Text (bs "127.0.0.1")); (bs "published", Text (bs "0"));
              (bs "target", Num (Integer (cc_port (cr_config r)))); (bs "protocol", Text (bs "tcp"))]].

Definition container_model (plan : Plan) (service : ServicePlan) (slot : Z) (r : ComposeRuntime) : option Value :=
  let model := plan_model plan in
  let! fields := as_object (at_key (at_key model (bs "services")) (sp_name service)) in
  let! fields := with_aliases (sp_name service) (single_replica fields) in
  let! definition := stamp_labels service slot r (Object fields) in
  let! definition := if is_ingress r (sp_name service) then set_key definition (bs "ports") (loopback_ports r) else Some definition in
  set_key model (bs "services") (obj [(generation service slot, definition)]).
End Fingerprints.

Example minutes_and_seconds : parse_duration (Text (bs "1m30.5s")) = Ok 90500000000%Z.
Proof. vm_compute. reflexivity. Qed.
Example milliseconds : parse_duration (Text (bs "100ms")) = Ok 100000000%Z.
Proof. vm_compute. reflexivity. Qed.
Example two_minutes_at_most : parse_duration (Text (bs "2m1ns")) = err [bs "update_config.monitor must be between 0s and 2m"].
Proof. vm_compute. reflexivity. Qed.
