(* ===== verification/ComposePlanProps.v ===== *)
(** * What a Compose plan guarantees

    The order of updates is a topological order of the dependencies and exists exactly when
    there is one; a fingerprint depends on what the service's containers are made of; the
    model of a container stays within what the project was allowed. *)

From S2P Require Import Prelude RustStr Net Codec JsonValue Enrollment StaticFiles ManagementPolicy Protocol.
From S2P Require Import ComposeModel ComposeValidation ComposePlan.

(** ** Loops *)

Lemma for_each_ok {A E} (f : A -> result unit E) l : for_each f l = Ok tt <-> Forall (fun x => f x = Ok tt) l.
Proof.
  induction l as [|x l IH]; cbn [for_each]; [done|]. rewrite Forall_cons, <- IH.
  destruct (f x) as [[]|e]; [naive_solver|]. split; [done|]. by intros [??].
Qed.

(** ** The order of updates *)

Section Order.
Variable plans : gmap str ServicePlan.
Implicit Types (st : Visit) (n d : str) (l : list str).

Definition depends n d : Prop := exists p, plans !! n = Some p /\ is_Some (sp_dependencies p !! d).

(** Every dependency is a service that runs. *)
Definition dependencies_run : Prop :=
  forall n d, depends n d -> exists q, plans !! d = Some q /\ sp_replicas q <> 0%Z.

(** No cycles: names have a rank that decreases along dependencies. *)
Definition ranked (rank : str -> nat) : Prop := forall n d, depends n d -> rank d < rank n.

(** Dependencies come first. *)
Definition dependencies_first l : Prop :=
  forall i n d, l !! i = Some n -> depends n d -> exists j, j < i /\ l !! j = Some d.

Record good st : Prop := {
  good_nodup : NoDup (ordered st);
  good_visited n : n ∈ visited st <-> n ∈ ordered st;
  good_known n : n ∈ ordered st -> is_Some (plans !! n);
  good_disjoint : visited st ## visiting st;
  good_first : dependencies_first (ordered st);
  good_run n d : n ∈ ordered st -> depends n d -> exists q, plans !! d = Some q /\ sp_replicas q <> 0%Z;
}.

Lemma dependencies_first_snoc l n : dependencies_first l -> (forall d, depends n d -> d ∈ l) -> dependencies_first (l ++ [n]).
Proof.
  intros Hl Hn i m d Hi Hd. apply lookup_app_Some in Hi as [Hi|[Hlen Hi]].
  - destruct (Hl i m d Hi Hd) as (j & ? & Hj). exists j. split; [done|]. by apply lookup_app_l_Some.
  - apply list_lookup_singleton_Some in Hi as [? ->]. apply Hn, list_elem_of_lookup in Hd as [j Hj].
    exists j. split; [apply lookup_lt_Some in Hj; lia|]. by apply lookup_app_l_Some.
Qed.

Lemma good_push st n :
  good st -> n ∈ visiting st -> is_Some (plans !! n) ->
  (forall d, depends n d -> d ∈ visited st /\ exists q, plans !! d = Some q /\ sp_replicas q <> 0%Z) ->
  good (mkVisit (visiting st ∖ {[n]}) ({[n]} ∪ visited st) (ordered st ++ [n])).
Proof.
  intros G Hin Hk Hd. assert (Hnv : n ∉ visited st) by (pose proof (good_disjoint _ G); set_solver).
  split; cbn [visiting visited ordered].
  - apply NoDup_app. split; [apply (good_nodup _ G)|]. split; [|apply NoDup_singleton].
    intros x Hx ->%list_elem_of_singleton. by apply Hnv, (good_visited _ G).
  - intros m. rewrite elem_of_union, elem_of_singleton, (good_visited _ G), elem_of_app, list_elem_of_singleton. tauto.
  - intros m [Hm| ->%list_elem_of_singleton]%elem_of_app; [by apply (good_known _ G)|done].
  - pose proof (good_disjoint _ G). set_solver.
  - apply dependencies_first_snoc; [apply (good_first _ G)|]. intros d Hdep. by apply (good_visited _ G), Hd.
  - intros m d [Hm| ->%list_elem_of_singleton]%elem_of_app Hdep; [by apply (good_run _ G m)|by apply Hd].
Qed.

(** The loop over the dependencies of one service. *)
Definition visit_dependencies (fuel : nat) : list str -> Visit -> result Visit Failure :=
  fix loop dependencies current :=
  match dependencies with
  | [] => Ok current
  | dependency :: dependencies' =>
      match plans !! dependency with
      | None => Err (dependency_error (bs "Unknown Compose dependency '") dependency "'")
      | Some dependency_plan =>
          if (sp_replicas dependency_plan =? 0)%Z
          then Err (dependency_error (bs "Required Compose dependency '") dependency "' has zero replicas")
          else
            let? next := visit plans fuel dependency current in
            loop dependencies' next
      end
  end.

Lemma visit_dependencies_cons fuel d ds st :
  visit_dependencies fuel (d :: ds) st =
  match plans !! d with
  | None => Err (dependency_error (bs "Unknown Compose dependency '") d "'")
  | Some q =>
      if (sp_replicas q =? 0)%Z
      then Err (dependency_error (bs "Required Compose dependency '") d "' has zero replicas")
      else let? next := visit plans fuel d st in visit_dependencies fuel ds next
  end.
Proof. reflexivity. Qed.

Lemma visit_unfold fuel n st :
  visit plans (S fuel) n st =
  if bool_decide (n ∈ visited st) then Ok st
  else if bool_decide (n ∈ visiting st) then Err (dependency_error (bs "Compose dependency cycle at '") n "'")
  else match plans !! n with
       | None => Err (dependency_error (bs "Unknown Compose dependency '") n "'")
       | Some plan =>
           let? next := visit_dependencies fuel (btree_keys (sp_dependencies plan))
                          (mkVisit ({[n]} ∪ visiting st) (visited st) (ordered st)) in
           Ok (mkVisit (visiting next ∖ {[n]}) ({[n]} ∪ visited next) (ordered next ++ [n]))
       end.
Proof. reflexivity. Qed.

(** Room for a nested call for every name that is not being visited. *)
Definition enough (fuel : nat) st : Prop :=
  visiting st ⊆ dom plans /\ size plans < fuel + size (visiting st).

(** An error is no panic, and blames the graph. *)
Definition blames (e : Failure) (culprit : (str -> nat) -> Prop) : Prop :=
  e <> Panicked /\ (dependencies_run -> forall rank, ranked rank -> culprit rank).

Definition visit_post n st (r : result Visit Failure) : Prop :=
  match r with
  | Ok st' => good st' /\ visiting st' = visiting st /\ visited st ⊆ visited st' /\ n ∈ visited st'
  | Err e => blames e (fun rank => is_Some (plans !! n) -> exists v, v ∈ visiting st /\ rank v <= rank n)
  end.

Definition dependencies_post (ds : list str) st (r : result Visit Failure) : Prop :=
  match r with
  | Ok st' => good st' /\ visiting st' = visiting st /\ visited st ⊆ visited st'
              /\ forall d, d ∈ ds -> d ∈ visited st' /\ exists q, plans !! d = Some q /\ sp_replicas q <> 0%Z
  | Err e => blames e (fun rank => (forall d, d ∈ ds -> exists q, plans !! d = Some q /\ sp_replicas q <> 0%Z) ->
                                   exists v d, v ∈ visiting st /\ d ∈ ds /\ rank v <= rank d)
  end.

Lemma visit_dependencies_spec fuel ds st :
  (forall n st, good st -> enough fuel st -> visit_post n st (visit plans fuel n st)) ->
  good st -> enough fuel st -> dependencies_post ds st (visit_dependencies fuel ds st).
Proof.
  intros IH. revert st. induction ds as [|d ds IHds]; intros st G Hf; [|rewrite visit_dependencies_cons].
  { split_and!; [done..|]. by intros d ?%elem_of_nil. }
  destruct (plans !! d) as [q|] eqn:Hq.
  2: { split; [done|]. intros _ rank _ Hall. destruct (Hall d) as (q & Hq' & _); [left|congruence]. }
  destruct (Z.eqb_spec (sp_replicas q) 0).
  { split; [done|]. intros _ rank _ Hall. destruct (Hall d) as (q' & Hq' & ?); [left|congruence]. }
  pose proof (IH d st G Hf) as Hv. destruct (visit plans fuel d st) as [st1|e]; cbn [visit_post] in Hv.
  - destruct Hv as (G1 & Hvis & Hsub & Hd). assert (Hf1 : enough fuel st1) by (unfold enough; by rewrite Hvis).
    specialize (IHds st1 G1 Hf1). destruct (visit_dependencies fuel ds st1) as [st2|e]; cbn [dependencies_post] in *.
    + destruct IHds as (G2 & Hvis2 & Hsub2 & Hds). split_and!; [done|congruence|set_solver|].
      intros x [->|Hx]%elem_of_cons; [split; [set_solver|by exists q]|by apply Hds].
    + destruct IHds as [Hne Hb]. split; [done|]. intros Hrun rank Hrank Hall.
      destruct (Hb Hrun rank Hrank) as (v & x & Hv & Hx & ?); [intros x Hx; apply Hall; by right|].
      exists v, x. rewrite <- Hvis. split_and!; [done|by right|done].
  - destruct Hv as [Hne Hb]. split; [done|]. intros Hrun rank Hrank _.
    destruct (Hb Hrun rank Hrank) as (v & Hv & ?); [by exists q|]. exists v, d. split_and!; [done|left|done].
Qed.

Lemma enough_push fuel n st : enough (S fuel) st -> n ∉ visiting st -> is_Some (plans !! n) ->
  enough fuel (mkVisit ({[n]} ∪ visiting st) (visited st) (ordered st)).
Proof.
  intros [Hsub Hf] Hn Hk%elem_of_dom. split; cbn [visiting]; [set_solver|].
  rewrite size_union by set_solver. rewrite size_singleton. lia.
Qed.

Lemma visit_spec fuel n st : good st -> enough fuel st -> visit_post n st (visit plans fuel n st).
Proof.
  revert n st. induction fuel as [|fuel IH]; intros n st G Hf.
  { exfalso. destruct Hf as [Hsub Hf]. apply subseteq_size in Hsub. rewrite size_dom in Hsub. lia. }
  rewrite visit_unfold. case_bool_decide as Hv; [split_and!; done|].
  case_bool_decide as Hing. { split; [done|]. intros _ rank _ _. by exists n. }
  destruct (plans !! n) as [p|] eqn:Hp; [|split; [done|]; intros _ rank _; rewrite Hp; by intros [? [=]]].
  set (st0 := mkVisit _ _ _). assert (G0 : good st0).
  { destruct G. split; try done. cbn. set_solver. }
  pose proof (enough_push _ _ _ Hf Hing (ex_intro _ p Hp)) as Hf0.
  pose proof (visit_dependencies_spec fuel (btree_keys (sp_dependencies p)) st0 IH G0 Hf0) as Hd.
  assert (Hdep : forall d, depends n d <-> d ∈ btree_keys (sp_dependencies p)).
  { intros d. rewrite elem_of_btree_keys. split; [intros (p' & Hp' & ?); congruence|]. intros ?. by exists p. }
  destruct (visit_dependencies _ _ _) as [st1|e]; cbn [dependencies_post visit_post visited visiting ordered] in *.
  - destruct Hd as (G1 & Hvis & Hsub & Hds). split_and!; [|rewrite Hvis; set_solver|set_solver|set_solver].
    apply good_push; [done|rewrite Hvis; set_solver|by exists p|]. intros d Hd. by apply Hds, Hdep.
  - destruct Hd as [Hne Hb]. split; [done|]. intros Hrun rank Hrank _.
    destruct (Hb Hrun rank Hrank) as (v & d & Hv' & Hd & Hle); [intros d Hd; by apply (Hrun n), Hdep|].
    apply Hdep, Hrank in Hd. cbn in Hv'. apply elem_of_union in Hv' as [->%elem_of_singleton|Hv']; [lia|].
    exists v. split; [done|lia].
Qed.

Lemma visit_names_spec names st :
  good st -> visiting st = ∅ -> (forall n, n ∈ names -> is_Some (plans !! n)) ->
  match visit_names plans names st with
  | Ok st' => good st' /\ visited st ⊆ visited st' /\ forall n, n ∈ names -> n ∈ visited st'
  | Err e => blames e (fun _ => False)
  end.
Proof.
  revert st. induction names as [|n names IH]; intros st G Hvis Hk; cbn [visit_names]; [split_and!; set_solver|].
  assert (Hf : enough (S (size plans)) st) by (unfold enough; rewrite Hvis; split; [set_solver|lia]).
  pose proof (visit_spec _ n st G Hf) as Hv. destruct (visit plans (S (size plans)) n st) as [st1|e]; cbn [visit_post] in Hv.
  - destruct Hv as (G1 & Hvis1 & Hsub & Hn). specialize (IH st1 G1 ltac:(congruence) ltac:(intros; apply Hk; by right)).
    destruct (visit_names plans names st1) as [st2|e]; [|done]. destruct IH as (G2 & Hsub2 & Hns).
    split_and!; [done|set_solver|]. intros x [->|Hx]%elem_of_cons; [set_solver|by apply Hns].
  - destruct Hv as [Hne Hb]. split; [done|]. intros Hrun rank Hrank.
    destruct (Hb Hrun rank Hrank) as (v & Hv & _); [apply Hk; left|]. rewrite Hvis in Hv. set_solver.
Qed.

Lemma good_start : good (mkVisit ∅ ∅ []).
Proof. split; cbn; try set_solver; [constructor|]. intros i n d Hi. by rewrite lookup_nil in Hi. Qed.

(** An order is a permutation of the services with dependencies first. *)
Lemma visit_all_sound l :
  visit_all plans = Ok l -> l ≡ₚ btree_keys plans /\ dependencies_first l /\ dependencies_run.
Proof.
  unfold visit_all. pose proof (visit_names_spec (btree_keys plans) _ good_start eq_refl) as Hv.
  specialize (Hv ltac:(intros n; apply elem_of_btree_keys)). destruct (visit_names _ _ _) as [st|e]; [|done].
  intros [= <-]. destruct Hv as (G & _ & Hall).
  assert (Hp : forall n, n ∈ ordered st <-> n ∈ btree_keys plans).
  { intros n. rewrite elem_of_btree_keys. split; [apply (good_known _ G)|].
    intros Hn. by apply (good_visited _ G), Hall, elem_of_btree_keys. }
  split_and!; [|apply (good_first _ G)|].
  - apply NoDup_Permutation; [apply (good_nodup _ G)|apply btree_keys_NoDup|done].
  - intros n d Hd. apply (good_run _ G n); [|done]. apply Hp, elem_of_btree_keys. destruct Hd as (p & Hp' & _). by exists p.
Qed.

Lemma visit_all_complete : dependencies_run -> (exists rank, ranked rank) -> exists l, visit_all plans = Ok l.
Proof.
  intros Hrun [rank Hrank]. unfold visit_all.
  pose proof (visit_names_spec (btree_keys plans) _ good_start eq_refl) as Hv.
  specialize (Hv ltac:(intros n; apply elem_of_btree_keys)). destruct (visit_names _ _ _) as [st|e]; [by eexists|].
  destruct Hv as [_ Hb]. by destruct (Hb Hrun rank).
Qed.

Lemma visit_all_no_panic : visit_all plans <> Err Panicked.
Proof.
  unfold visit_all. pose proof (visit_names_spec (btree_keys plans) _ good_start eq_refl) as Hv.
  specialize (Hv ltac:(intros n; apply elem_of_btree_keys)). destruct (visit_names _ _ _) as [st|e]; [done|].
  intros [= ->]. by destruct Hv.
Qed.

(** The position in an order is a rank. *)
Lemma first_ranked l : NoDup l -> (forall n, is_Some (plans !! n) -> n ∈ l) -> dependencies_first l -> exists rank, ranked rank.
Proof.
  intros Hnd Hall Hl. exists (fun n => default 0 (fst <$> list_find (n =.) l)). intros n d Hd.
  assert (Hpos : forall m i, l !! i = Some m -> list_find (m =.) l = Some (i, m)).
  { intros m i Hi. apply list_find_Some. split_and!; [done|done|]. intros j y Hj Hlt ->.
    pose proof (NoDup_lookup _ _ _ _ Hnd Hi Hj). lia. }
  destruct Hd as (p & Hp & Hd). destruct (list_elem_of_lookup_1 l n) as [i Hi]; [apply Hall; by exists p|].
  destruct (Hl i n d Hi) as (j & Hlt & Hj); [by exists p|]. by rewrite (Hpos _ _ Hi), (Hpos _ _ Hj).
Qed.
End Order.

(** ** The stages of a plan *)

Lemma take_plans_spec plans names :
  NoDup names -> (forall n, n ∈ names -> is_Some (plans !! n)) ->
  exists l, take_plans plans names = Ok l /\ Forall2 (fun n p => plans !! n = Some p) names l.
Proof.
  intros Hnd. revert plans. induction Hnd as [|n names Hn Hnd IH]; intros plans Hk; cbn [take_plans]; [by exists []|].
  destruct (Hk n) as [p Hp]; [left|]. rewrite Hp. cbn [unwrap ok_or].
  destruct (IH (delete n plans)) as (l & -> & Hl).
  { intros m Hm. rewrite lookup_delete_ne by (intros ->; done). apply Hk. by right. }
  exists (p :: l). split; [done|]. constructor; [done|]. eapply Forall2_impl; [done|]. cbn. intros m q Hm.
  by apply lookup_delete_Some in Hm as [_ ?].
Qed.

(** What one service's plan satisfies. *)
Record planned (r : ComposeRuntime) (name : str) (p : ServicePlan) : Prop := {
  planned_name : sp_name p = name;
  planned_replicas : (sp_replicas p <= 128)%Z;
  planned_ingress : name = cc_service (cr_config r) -> sp_replicas p <> 0%Z;
}.

Lemma is_ingress_spec r name : is_ingress r name = true <-> name = cc_service (cr_config r).
Proof. unfold is_ingress, str_eqb. by rewrite bool_decide_eq_true. Qed.

(** A service that passes is an object, and its plan is as the source computes it. *)
Lemma plan_service_ok r name d d' p :
  plan_service r name d = Ok (d', p) ->
  plan_validate_service name d = Ok tt /\ planned r name p /\ sp_completed p = false
  /\ exists fields, d = Object fields /\ d' = prepared_definition fields.
Proof.
  unfold plan_service. destruct (plan_validate_service name d) as [[]|]; [|done]. destruct (as_object d) as [fields|] eqn:Hd; [|done].
  cbn [unwrap ok_or]. destruct ((128 <? replicas_of r name (prepared_definition fields))%Z || _) eqn:Hrep; [done|].
  destruct (update_order r name _) as [order|]; [|done]. destruct (monitor_of _) as [monitor|]; [|done].
  destruct (collect_dependencies _ _ _) as [deps|]; [|done]. intros [= <- <-].
  apply orb_false_iff in Hrep as [Hmax Hzero]. split_and!; [done| |done|].
  - split; cbn [sp_name sp_replicas]; [done|lia|]. intros Hn%is_ingress_spec. rewrite Hn in Hzero. by apply Z.eqb_neq.
  - exists fields. destruct d; try done. by injection Hd as ->.
Qed.

Lemma plan_all_spec r entries defs plans defs' plans' :
  plan_all r entries defs plans = Ok (defs', plans') -> NoDup entries.*1 ->
  forall n, (n ∉ entries.*1 -> defs' !! n = defs !! n /\ plans' !! n = plans !! n)
            /\ forall d, (n, d) ∈ entries -> exists d' p, plan_service r n d = Ok (d', p) /\ defs' !! n = Some d' /\ plans' !! n = Some p.
Proof.
  revert defs plans. induction entries as [|[m v] entries IH]; intros defs plans; cbn [plan_all].
  { intros [= <- <-] _ n. split; [done|]. by intros d ?%elem_of_nil. }
  destruct (plan_service r m v) as [[d1 p1]|] eqn:Hp; [|done]. cbn [fmap list_fmap fst]. intros Hall [Hm Hnd]%NoDup_cons n.
  destruct (IH _ _ Hall Hnd n) as [Hout Hin]. split.
  - intros [Hne Hn]%not_elem_of_cons. destruct (Hout Hn) as [-> ->]. by rewrite !lookup_insert_ne.
  - intros d [[= -> ->]|Hd]%elem_of_cons; [|by apply Hin]. exists d1, p1. destruct (Hout Hm) as [-> ->].
    by rewrite !lookup_insert_eq.
Qed.

Lemma mark_completed_spec r names plans plans' :
  mark_completed r names plans = Ok plans' ->
  (forall n, n ∈ names -> is_Some (plans !! n) /\ n <> cc_service (cr_config r))
  /\ forall n, plans' !! n = (if bool_decide (n ∈ names) then with_completed else id) <$> plans !! n.
Proof.
  revert plans. induction names as [|m names IH]; intros plans; cbn [mark_completed].
  { intros [= ->]. split; [by intros n ?%elem_of_nil|]. intros n. by destruct (plans' !! n). }
  destruct (plans !! m) as [p|] eqn:Hm; [|done]. destruct (is_ingress r m) eqn:He; [done|].
  rewrite <- not_true_iff_false, is_ingress_spec in He. intros [Hk Hl]%IH. split.
  - intros n [->|Hn]%elem_of_cons; [split; [by exists p|done]|]. destruct (Hk n Hn) as [Hs ?]. split; [|done].
    destruct (decide (n = m)) as [->|]; [by exists p|]. by rewrite lookup_insert_ne in Hs.
  - intros n. rewrite Hl. destruct (decide (n = m)) as [->|Hne].
    + rewrite lookup_insert_eq, Hm. cbn. rewrite (bool_decide_eq_true_2 (m ∈ m :: names)) by left.
      by case_bool_decide.
    + rewrite lookup_insert_ne by done. f_equal. rewrite (bool_decide_ext _ (n ∈ m :: names)); [done|].
      rewrite elem_of_cons. naive_solver.
Qed.

Lemma elem_of_btree_set l k : k ∈ btree_set l <-> k ∈ l.
Proof.
  unfold btree_set. rewrite elem_of_btree_keys, <- elem_of_dom, dom_list_to_map_L, elem_of_list_to_set, <- list_fmap_compose.
  rewrite list_elem_of_fmap. split; [by intros (y & -> & ?)|]. intros. by exists k.
Qed.

Lemma elem_of_completed_names plans d :
  d ∈ completed_names plans <-> exists n p, plans !! n = Some p /\ sp_dependencies p !! d = Some Completed.
Proof.
  unfold completed_names. rewrite elem_of_btree_set, elem_of_concat. setoid_rewrite list_elem_of_fmap. split.
  - intros (l & Hd & [n p] & -> & Hp%elem_of_btree). exists n, p. split; [done|]. cbn [snd] in Hd.
    apply list_elem_of_omap in Hd as ([k c] & Hk%elem_of_btree & Hc). cbn [fst snd] in Hc.
    case_bool_decide; [|done]. congruence.
  - intros (n & p & Hp & Hd). eexists. split; [|exists (n, p); split; [reflexivity|by apply elem_of_btree]]. cbn [snd].
    apply list_elem_of_omap. exists (d, Completed). by rewrite elem_of_btree.
Qed.

Section Stages.
Context {H : Sha256Api} {J : SerdeJson} {F : ManagedFs} {G : ComposeFs}.
Implicit Types (r : ComposeRuntime) (model : Value) (n : str) (p s : ServicePlan).

Lemma fingerprint_all_spec r model entries plans plans' :
  fingerprint_all r model entries plans = Ok plans' -> NoDup entries.*1 ->
  forall n, (n ∉ entries.*1 -> plans' !! n = plans !! n)
            /\ forall p, (n, p) ∈ entries -> exists f, fingerprint_of r model p = Ok f /\ plans' !! n = Some (with_fingerprint p f).
Proof.
  revert plans. induction entries as [|[m q] entries IH]; intros plans; cbn [fingerprint_all].
  { intros [= <-] _ n. split; [done|]. by intros p ?%elem_of_nil. }
  destruct (fingerprint_of r model q) as [f|] eqn:Hf; [|done]. cbn [fmap list_fmap fst]. intros Hall [Hm Hnd]%NoDup_cons n.
  destruct (IH _ Hall Hnd n) as [Hout Hin]. split.
  - intros [Hne Hn]%not_elem_of_cons. rewrite (Hout Hn). by rewrite !lookup_insert_ne.
  - intros p [[= -> ->]|Hp]%elem_of_cons; [|by apply Hin]. exists f. rewrite (Hout Hm). by rewrite !lookup_insert_eq.
Qed.

(** The stages of [plan_new], in order. *)
Lemma plan_new_stages model r (p : Plan) :
  plan_new model r = Ok p ->
  exists services definitions plans0 model1 plans1 model2 plans names,
    as_object (at_key model (bs "services")) = Some services
    /\ plan_all r (btree services) services ∅ = Ok (definitions, plans0)
    /\ set_key model (bs "services") (Object definitions) = Some model1
    /\ mark_completed r (completed_names plans0) plans0 = Ok plans1
    /\ match cr_native_network r with Some network => native_apply network model1 | None => Ok model1 end = Ok model2
    /\ fingerprint_all r model2 (btree plans1) plans1 = Ok plans
    /\ visit_all plans = Ok names
    /\ take_plans plans names = Ok (plan_services p)
    /\ plan_model p = model2.
Proof.
  unfold plan_new. destruct (as_object _) as [services|] eqn:Hs; [|done]. cbn [required ok_or].
  destruct (plan_all _ _ _ _) as [[definitions plans0]|] eqn:H0; [|done].
  destruct (set_key _ _ _) as [model1|] eqn:H1; [|done]. cbn [unwrap ok_or].
  destruct (mark_completed _ _ _) as [plans1|] eqn:H2; [|done].
  destruct (match cr_native_network r with Some _ => _ | None => _ end) as [model2|] eqn:H3; [|done].
  destruct (fingerprint_all _ _ _ _) as [plans|] eqn:H4; [|done].
  destruct (visit_all plans) as [names|] eqn:H5; [|done]. destruct (take_plans plans names) as [l|] eqn:H6; [|done].
  intros [= <-]. by exists services, definitions, plans0, model1, plans1, model2, plans, names.
Qed.

(** Where the plan of a service comes from. *)
Definition stage_plan r (services definitions : gmap str Value) (plans0 : gmap str ServicePlan) model2 n p : Prop :=
  exists d d' p0 f,
    services !! n = Some d /\ plan_service r n d = Ok (d', p0) /\ definitions !! n = Some d' /\ plans0 !! n = Some p0
    /\ fingerprint_of r model2 p = Ok f
    /\ p = with_fingerprint (if bool_decide (n ∈ completed_names plans0) then with_completed p0 else p0) f.

Lemma fingerprint_of_ext r model p q :
  sp_name p = sp_name q -> sp_dependencies p = sp_dependencies q -> fingerprint_of r model p = fingerprint_of r model q.
Proof. intros Hn Hd. unfold fingerprint_of, service_identity. by rewrite Hn, Hd. Qed.

Lemma stages_lookup r services definitions plans0 plans1 plans model2 n :
  plan_all r (btree services) services ∅ = Ok (definitions, plans0) ->
  mark_completed r (completed_names plans0) plans0 = Ok plans1 ->
  fingerprint_all r model2 (btree plans1) plans1 = Ok plans ->
  match plans !! n with
  | Some p => stage_plan r services definitions plans0 model2 n p
  | None => services !! n = None
  end.
Proof.
  intros H0 H1 H2. pose proof (plan_all_spec _ _ _ _ _ _ H0 (btree_keys_NoDup services) n) as [Hout Hin].
  apply mark_completed_spec in H1 as [_ H1]. specialize (H1 n).
  pose proof (fingerprint_all_spec _ _ _ _ _ H2 (btree_keys_NoDup plans1) n) as [Fout Fin].
  destruct (services !! n) as [d|] eqn:Hd.
  - destruct (Hin d) as (d' & p0 & Hp & Hd' & Hp0); [by apply elem_of_btree|]. rewrite Hp0 in H1.
    destruct (Fin ((if bool_decide (n ∈ completed_names plans0) then with_completed else id) p0)) as (f & Hf & Hl);
      [by apply elem_of_btree|]. rewrite Hl. exists d, d', p0, f. split_and!; [done..| |].
    + rewrite <- Hf. by apply fingerprint_of_ext; case_bool_decide.
    + by case_bool_decide.
  - assert (Hp0 : plans0 !! n = None).
    { destruct Hout as [_ ->]; [|done]. change (n ∉ btree_keys services). rewrite elem_of_btree_keys, Hd. by intros [? [=]]. }
    assert (plans1 !! n = None) as Hp1 by (by rewrite H1, Hp0). destruct (plans !! n) as [p|] eqn:Hp; [|done].
    assert (Hn : n ∉ btree_keys plans1) by (rewrite elem_of_btree_keys, Hp1; by intros [? [=]]).
    specialize (Fout Hn). congruence.
Qed.

Lemma stage_plan_facts r services definitions plans0 model2 n p :
  stage_plan r services definitions plans0 model2 n p ->
  planned r n p /\ (sp_completed p = true <-> n ∈ completed_names plans0)
  /\ (sp_completed p = true -> sp_order p = StopFirst)
  /\ exists p0, plans0 !! n = Some p0 /\ sp_dependencies p = sp_dependencies p0.
Proof.
  intros (d & d' & p0 & f & _ & Hp & _ & Hp0 & _ & ->). apply plan_service_ok in Hp as (_ & [] & Hc & _).
  case_bool_decide; (split_and!; [split; done|cbn; try tauto|cbn; try done; congruence|by exists p0]).
  rewrite Hc. split; [done|tauto].
Qed.

(** The plan lists the last stage in the order of [visit_all]. *)
Lemma plan_new_spec model r (p : Plan) :
  plan_new model r = Ok p ->
  exists services definitions plans0 plans names,
    as_object (at_key model (bs "services")) = Some services
    /\ plan_all r (btree services) services ∅ = Ok (definitions, plans0)
    /\ (forall n, n ∈ completed_names plans0 -> n <> cc_service (cr_config r))
    /\ visit_all plans = Ok names
    /\ (forall n, is_Some (plans !! n) <-> is_Some (services !! n))
    /\ Forall2 (fun n s => plans !! n = Some s /\ sp_name s = n /\ stage_plan r services definitions plans0 (plan_model p) n s)
         names (plan_services p)
    /\ exists model1, set_key model (bs "services") (Object definitions) = Some model1
         /\ match cr_native_network r with Some network => native_apply network model1 | None => Ok model1 end = Ok (plan_model p).
Proof.
  intros (services & definitions & plans0 & model1 & plans1 & model2 & plans & names & Hs & H0 & H1 & H2 & H3 & H4 & H5 & H6 & Hm)%plan_new_stages.
  destruct (visit_all_sound _ _ H5) as (Hperm & _ & _).
  assert (Hst : forall n, match plans !! n with Some s => stage_plan r services definitions plans0 model2 n s | None => services !! n = None end)
    by (intros n; by eapply stages_lookup).
  destruct (take_plans_spec plans names) as (l & Hl & Hall).
  { rewrite Hperm. apply btree_keys_NoDup. }
  { intros n Hn. rewrite Hperm in Hn. by apply elem_of_btree_keys. }
  rewrite H6 in Hl. injection Hl as <-. exists services, definitions, plans0, plans, names. split_and!; [done|done| |done| | |].
  - intros n Hn. apply mark_completed_spec in H2 as [H2 _]. by apply H2.
  - intros n. specialize (Hst n). destruct (plans !! n) as [s|]; [|by rewrite Hst].
    destruct Hst as (d & ? & ? & ? & Hd & _). rewrite Hd. split; by eexists.
  - eapply Forall2_impl; [done|]. cbn. intros n s Hn. specialize (Hst n). rewrite Hn in Hst. rewrite Hm.
    split_and!; [done| |done]. by destruct (stage_plan_facts _ _ _ _ _ _ _ Hst) as [[] _].
  - exists model1. by rewrite Hm.
Qed.

(** Dependencies of a planned service are planned before it. *)
Lemma plan_dependencies_first model r (p : Plan) i s d c :
  plan_new model r = Ok p -> plan_services p !! i = Some s -> sp_dependencies s !! d = Some c ->
  exists j q, j < i /\ plan_services p !! j = Some q /\ sp_name q = d /\ sp_replicas q <> 0%Z /\ (c = Completed -> sp_completed q = true).
Proof.
  intros (services & definitions & plans0 & plans & names & _ & _ & _ & H5 & _ & Hall & _)%plan_new_spec Hi Hd.
  destruct (visit_all_sound _ _ H5) as (_ & Hfirst & Hrun).
  destruct (Forall2_lookup_r _ _ _ _ _ Hall Hi) as (n & Hn & Hp & Hname & Hst).
  assert (Hdep : depends plans n d) by (exists s; split; [done|by exists c]).
  destruct (Hfirst i n d Hn Hdep) as (j & Hlt & Hj). destruct (Forall2_lookup_l _ _ _ _ _ Hall Hj) as (q & Hq & Hpq & Hnq & Hsq).
  exists j, q. split_and!; [done|done|done| |].
  - destruct (Hrun n d Hdep) as (q' & Hq' & ?). congruence.
  - intros ->. destruct (stage_plan_facts _ _ _ _ _ _ _ Hsq) as (_ & [_ Hc] & _). apply Hc, elem_of_completed_names.
    destruct (stage_plan_facts _ _ _ _ _ _ _ Hst) as (_ & _ & _ & p0 & Hp0 & Heq). exists n, p0. by rewrite <- Heq.
Qed.

Lemma plan_names model r (p : Plan) :
  plan_new model r = Ok p -> exists services, as_object (at_key model (bs "services")) = Some services
    /\ sp_name <$> plan_services p ≡ₚ btree_keys services.
Proof.
  intros (services & definitions & plans0 & plans & names & Hs & _ & _ & H5 & Hdom & Hall & _)%plan_new_spec.
  exists services. split; [done|]. destruct (visit_all_sound _ _ H5) as (Hperm & _ & _).
  assert (sp_name <$> plan_services p = names) as ->.
  { clear -Hall. induction Hall as [|n s ns ss (_ & Hn & _) _ IH]; [done|]. by rewrite fmap_cons, IH, Hn. }
  rewrite Hperm. apply NoDup_Permutation; [apply btree_keys_NoDup..|]. intros n. rewrite !elem_of_btree_keys. apply Hdom.
Qed.

Lemma plan_service_bounds model r (p : Plan) s :
  plan_new model r = Ok p -> s ∈ plan_services p ->
  (sp_replicas s <= 128)%Z /\ (sp_completed s = true -> sp_order s = StopFirst)
  /\ (sp_name s = cc_service (cr_config r) -> sp_replicas s <> 0%Z /\ sp_completed s = false).
Proof.
  intros (services & definitions & plans0 & plans & names & _ & _ & Hing & _ & _ & Hall & _)%plan_new_spec [i Hi]%list_elem_of_lookup.
  destruct (Forall2_lookup_r _ _ _ _ _ Hall Hi) as (n & Hn & Hp & Hname & Hst).
  destruct (stage_plan_facts _ _ _ _ _ _ _ Hst) as ([_ Hmax Hzero] & Hc & Hstop & _). split_and!; [done|done|].
  intros Heq. rewrite Hname in Heq. split; [by apply Hzero|]. apply not_true_is_false. intros Hcomp%Hc%Hing. done.
Qed.
End Stages.

(** ** Planning does not panic *)

Definition no_panic {A} (x : result A Failure) : Prop := x <> Err Panicked.

Lemma no_panic_bind {A B} (x : result A Failure) (k : A -> result B Failure) :
  no_panic x -> (forall a, x = Ok a -> no_panic (k a)) -> no_panic (let? a := x in k a).
Proof. destruct x as [a|e]; [intros _ Hk; by apply Hk|]. intros Hx _ [= ->]. by apply Hx. Qed.

Lemma no_panic_for_each {A} (f : A -> result unit Failure) l : (forall x, no_panic (f x)) -> no_panic (for_each f l).
Proof. intros Hf. induction l as [|x l IH]; cbn [for_each]; [done|]. apply no_panic_bind; [apply Hf|by intros _ _]. Qed.

Lemma no_panic_ok {A} (a : A) : no_panic (Ok a).
Proof. done. Qed.
Lemma no_panic_err {A} parts : no_panic (err parts : result A Failure).
Proof. done. Qed.
Lemma no_panic_io {A} (o : option A) : no_panic (io o).
Proof. by destruct o. Qed.
Lemma no_panic_required {A} (o : option A) m : no_panic (required o m).
Proof. by destruct o. Qed.
Lemma no_panic_ok_or {A} (o : option A) m : no_panic (ok_or o (Error m)).
Proof. by destruct o. Qed.
Lemma no_panic_unwrap {A} (o : option A) : is_Some o -> no_panic (unwrap o).
Proof. by intros [a ->]. Qed.

Create HintDb panics.
#[export] Hint Resolve no_panic_ok no_panic_err no_panic_io no_panic_required no_panic_ok_or : panics.

(** Through the binds, tests and loops of a checker. *)
Ltac no_panics :=
  repeat first
    [ solve [auto with panics nocore]
    | apply no_panic_bind; [|intros ? ?]
    | apply no_panic_for_each; intros ?
    | match goal with
      | |- no_panic (if ?b then _ else _) => destruct b
      | |- no_panic (match ?o with _ => _ end) => destruct o eqn:?
      | |- no_panic ((fun _ => _) _) => cbn beta
      | |- no_panic (let _ := _ in _) => cbn zeta
      end ].

Lemma validate_service_np name d : no_panic (validate_service name d).
Proof. unfold validate_service, check_service_key, check_security_opt, check_logging, check_deploy, check_mount_types. no_panics. Qed.
#[export] Hint Resolve validate_service_np : panics.

Lemma plan_validate_service_np name d : no_panic (plan_validate_service name d).
Proof. unfold plan_validate_service. no_panics. Qed.
#[export] Hint Resolve plan_validate_service_np : panics.

Lemma validate_service_object name d : validate_service name d = Ok tt -> is_Some (as_object d).
Proof. unfold validate_service. by destruct (as_object d). Qed.

Lemma plan_validate_service_ok name d : plan_validate_service name d = Ok tt -> validate_service name d = Ok tt.
Proof. unfold plan_validate_service. by destruct (validate_service name d) as [[]|]. Qed.

Lemma collect_dependencies_np name entries deps : no_panic (collect_dependencies name entries deps).
Proof.
  revert deps. induction entries as [|[d o] entries IH]; intros deps; cbn [collect_dependencies]; [done|].
  apply no_panic_bind; [unfold dependency_condition; no_panics|]. intros. apply IH.
Qed.
#[export] Hint Resolve collect_dependencies_np : panics.

Lemma plan_service_np r name d : no_panic (plan_service r name d).
Proof.
  unfold plan_service. apply no_panic_bind; [auto with panics|]. intros [] Hv.
  apply no_panic_bind; [by apply no_panic_unwrap, (validate_service_object name), plan_validate_service_ok|]. intros fields _.
  unfold update_order, monitor_of, parse_duration. no_panics.
Qed.

Lemma plan_all_np r entries defs plans : no_panic (plan_all r entries defs plans).
Proof.
  revert defs plans. induction entries as [|[n d] entries IH]; intros defs plans; cbn [plan_all]; [done|].
  pose proof (plan_service_np r n d) as Hn. destruct (plan_service r n d) as [[d' p]|e]; [apply IH|]. intros [= ->]. by apply Hn.
Qed.

Lemma mark_completed_np r names plans : no_panic (mark_completed r names plans).
Proof. revert plans. induction names as [|n names IH]; intros plans; cbn [mark_completed]; no_panics; apply IH. Qed.

(** ** The private network in the model *)

Lemma at_key_object v k x : as_object (at_key v k) = Some x -> exists m, v = Object m /\ m !! k = Some (Object x).
Proof.
  unfold at_key. destruct v as [| | | | |m]; cbn [get]; try done. destruct (m !! k) as [w|] eqn:Hk; [|done]. cbn [default].
  destruct w; try done. intros [= ->]. by exists m.
Qed.

Lemma at_key_insert k v m : at_key (Object (<[k := v]> m)) k = v.
Proof. unfold at_key. cbn [get]. by rewrite lookup_insert_eq. Qed.

Lemma at_key_insert_ne k k' v m : k <> k' -> at_key (Object (<[k := v]> m)) k' = at_key (Object m) k'.
Proof. intros. unfold at_key. cbn [get]. by rewrite lookup_insert_ne. Qed.

Definition with_default (needs_default : bool) (networks : gmap str Value) : gmap str Value :=
  if needs_default && negb (bool_decide (is_Some (networks !! bs "default"))) then <[bs "default" := obj []]> networks else networks.

Definition bridge_network (n : NativeNetwork) : Value := obj [(bs "external", Boolean true); (bs "name", Text (nn_name n))].

Lemma native_apply_spec n m services model' :
  m !! bs "services" = Some (Object services) -> native_apply n (Object m) = Ok model' ->
  exists services' nd networks,
    attach_services (show_octets (nn_gateway n)) (btree services) services false = Ok (services', nd)
    /\ default (obj []) (m !! bs "networks") = Object networks
    /\ networks !! RESOURCE = None
    /\ model' = Object (<[bs "networks" := Object (<[RESOURCE := bridge_network n]> (with_default nd networks))]>
                          (<[bs "services" := Object services']> m)).
Proof.
  intros Hs. unfold native_apply.
  destruct (let! v := get (Object m) (bs "networks") in get v RESOURCE) as [w|] eqn:Hr; [done|].
  unfold at_key. cbn [get] in *. rewrite Hs. cbn [default id as_object required ok_or].
  destruct (attach_services _ _ _ _) as [[services' nd]|] eqn:Ha; [|done]. cbn [unwrap set_key index_mut ok_or get].
  assert (Hne : bs "services" <> bs "networks") by (vm_compute; discriminate). rewrite lookup_insert_ne by done.
  destruct (as_object (default (obj []) (m !! bs "networks"))) as [networks|] eqn:Hn; [|done]. cbn [required ok_or].
  intros [= <-]. exists services', nd, networks. split_and!; [done| | |done].
  - destruct (default (obj []) (m !! bs "networks")); try done. by injection Hn as ->.
  - destruct (m !! bs "networks") as [w|]; cbn [default id] in Hn, Hr; [|by injection Hn as <-].
    destruct w; try done. by injection Hn as ->.
Qed.

Lemma native_apply_np n m : no_panic (native_apply n (Object m)).
Proof.
  unfold native_apply. destruct (let! v := get (Object m) (bs "networks") in get v RESOURCE); [done|].
  apply no_panic_bind; [auto with panics|]. intros services _.
  assert (Ha : forall g entries s nd, no_panic (attach_services g entries s nd)).
  { intros g entries. induction entries as [|[k v] entries IH]; intros s nd; cbn [attach_services]; [done|].
    apply no_panic_bind; [unfold attach_service; no_panics|]. intros [s' b] _. apply IH. }
  specialize (Ha (show_octets (nn_gateway n)) (btree services) services false).
  destruct (attach_services _ _ _ _) as [[services' nd]|e]; [|intros [= ->]; by apply Ha]. cbn [set_key index_mut unwrap ok_or]. no_panics.
Qed.

Lemma attach_services_spec g entries s nd s' nd' :
  attach_services g entries s nd = Ok (s', nd') -> NoDup entries.*1 ->
  forall n, (n ∉ entries.*1 -> s' !! n = s !! n)
            /\ forall v, (n, v) ∈ entries -> exists v' b, attach_service g v = Ok (v', b) /\ s' !! n = Some v'.
Proof.
  revert s nd. induction entries as [|[m v] entries IH]; intros s nd; cbn [attach_services].
  { intros [= <- <-] _ n. split; [done|]. by intros v ?%elem_of_nil. }
  destruct (attach_service g v) as [[v1 b]|] eqn:Hv; [|done]. cbn [fmap list_fmap fst]. intros Hall [Hm Hnd]%NoDup_cons n.
  destruct (IH _ _ Hall Hnd n) as [Hout Hin]. split.
  - intros [Hne Hn]%not_elem_of_cons. rewrite (Hout Hn). by rewrite lookup_insert_ne.
  - intros w [[= -> ->]|Hw]%elem_of_cons; [|by apply Hin]. exists v1, b. rewrite (Hout Hm). by rewrite lookup_insert_eq.
Qed.

(** What a service's definition becomes. *)
Definition attached (r : ComposeRuntime) (d d' : Value) : Prop :=
  match cr_native_network r with
  | Some n => exists b, attach_service (show_octets (nn_gateway n)) d = Ok (d', b)
  | None => d' = d
  end.

(** The services of the planned model are the prepared definitions, attached. *)
Lemma planned_definition r m definitions model2 name d :
  (if cr_native_network r is Some n then native_apply n (Object (<[bs "services" := Object definitions]> m))
   else Ok (Object (<[bs "services" := Object definitions]> m))) = Ok model2 ->
  definitions !! name = Some d ->
  exists d', get (at_key model2 (bs "services")) name = Some d' /\ attached r d d'.
Proof.
  intros H2 Hd. unfold attached. destruct (cr_native_network r) as [n|].
  - apply native_apply_spec with (services := definitions) in H2 as (services' & nd & networks & Ha & _ & _ & ->); [|by rewrite lookup_insert_eq].
    destruct (attach_services_spec _ _ _ _ _ _ Ha (btree_keys_NoDup definitions) name) as [_ Hin].
    destruct (Hin d) as (d' & b & Hb & Hl); [by apply elem_of_btree|].
    exists d'. rewrite at_key_insert_ne by (vm_compute; discriminate). rewrite at_key_insert. split; [done|by exists b].
  - injection H2 as <-. exists d. by rewrite at_key_insert.
Qed.

(** ** Identities can be written *)

Definition settable (v : Value) : Prop := match v with Null | Object _ => True | _ => False end.

Definition resource_slots : list str := [bs "networks"; bs "volumes"; bs "configs"; bs "secrets"; bs "files"].
Definition slots (m : gmap str Value) : Prop := forall k v, k ∈ resource_slots -> m !! k = Some v -> settable v.

Lemma slots_insert m k x : slots m -> slots (<[k := Object x]> m).
Proof.
  intros Hm k' v Hk. destruct (decide (k = k')) as [->|]; [rewrite lookup_insert_eq; by intros [= <-]|].
  rewrite lookup_insert_ne by done. by apply Hm.
Qed.

Lemma set_key_settable v k w : settable v -> exists m, set_key v k w = Some (Object m) /\ m !! k = Some w.
Proof.
  unfold set_key, index_mut. destruct v; try done; intros _; eexists; (split; [done|]);
    [apply lookup_singleton_eq|apply lookup_insert_eq].
Qed.

Lemma index_set m k k' w : slots m -> k ∈ resource_slots ->
  exists x, index_mut (Object m) k (fun v => set_key v k' w) = Some (Object (<[k := Object x]> m)) /\ x !! k' = Some w.
Proof.
  intros Hm Hk. cbn [index_mut]. destruct (set_key_settable (default Null (m !! k)) k' w) as (x & -> & Hx).
  - destruct (m !! k) as [v|] eqn:Hv; [|done]. by apply (Hm k).
  - by exists x.
Qed.

Lemma index_index_set m k x k' y k2 w : m !! k = Some (Object x) -> x !! k' = Some (Object y) ->
  index_mut (Object m) k (fun v => index_mut v k' (fun u => set_key u k2 w))
  = Some (Object (<[k := Object (<[k' := Object (<[k2 := w]> y)]> x)]> m)).
Proof. intros Hm Hx. cbn [index_mut]. rewrite Hm. cbn [default id index_mut]. rewrite Hx. done. Qed.

Lemma at_key_str_object v k s : as_str (at_key v k) = Some s -> exists m, v = Object m.
Proof. unfold at_key. destruct v as [| | | | |m]; cbn [get default as_str]; try done. intros _. by exists m. Qed.

Section Identities.
Context {H : Sha256Api} {J : SerdeJson} {F : ManagedFs} {G : ComposeFs}.
Implicit Types (r : ComposeRuntime) (model : Value) (m : gmap str Value).

(** The object that results keeps its slots and the service. *)
Definition identity_post m (x : result Value Failure) : Prop :=
  match x with
  | Ok v => exists m', v = Object m' /\ slots m' /\ m' !! bs "service" = m !! bs "service"
  | Err e => e <> Panicked
  end.

Lemma hash_entry_np fuel path root : no_panic (hash_entry fuel path root).
Proof.
  revert path. induction fuel as [|fuel IH]; intros path; cbn [hash_entry]; [done|].
  apply no_panic_bind; [auto with panics|]. intros canonical _. destruct (negb _); [done|].
  destruct (read_entry path) as [|names|x c|]; [done| |done|done].
  apply no_panic_bind; [|done]. generalize (sort_by str_leb names). clear names. intros names.
  induction names as [|n names IHn]; [done|]. apply no_panic_bind; [apply IH|]. intros here _. apply no_panic_bind; [apply IHn|done].
Qed.

Hint Resolve hash_entry_np : panics.

Lemma hash_project_file_np path directory : no_panic (hash_project_file path directory).
Proof. unfold hash_project_file. no_panics. Qed.
Hint Resolve hash_project_file_np : panics.

Lemma relative_input_np path root : no_panic (relative_input path root).
Proof. unfold relative_input. no_panics. Qed.
Hint Resolve relative_input_np : panics.

Lemma identity_bind m {A} (x : result A Failure) (k : A -> result Value Failure) :
  no_panic x -> (forall a, x = Ok a -> identity_post m (k a)) -> identity_post m (let? a := x in k a).
Proof. destruct x as [a|e]; [intros _ Hk; by apply Hk|]. intros Hx _. cbn. intros ->. by apply Hx. Qed.

(** A slot is written; the service is not one of them. *)
Lemma identity_put m k x : slots m -> k ∈ resource_slots -> identity_post m (Ok (Object (<[k := Object x]> m))).
Proof.
  intros Hm Hk. exists (<[k := Object x]> m). split_and!; [done|by apply slots_insert|]. apply lookup_insert_ne.
  intros ->. revert Hk. apply (bool_decide_eq_false_1 (_ ∈ _)). vm_compute. reflexivity.
Qed.

(** Writing a field of the resource that was just put in its slot. *)
Lemma resource_field m kind reference resource x key text k2 w :
  x !! reference = Some resource -> as_str (at_key resource key) = Some text ->
  exists x' y, index_mut (Object (<[kind := Object x]> m)) kind (fun v => index_mut v reference (fun u => set_key u k2 w))
               = Some (Object (<[kind := Object x']> m)) /\ x' !! reference = Some (Object y).
Proof.
  intros Hx [y ->]%at_key_str_object. exists (<[reference := Object (<[k2 := w]> y)]> x), (<[k2 := w]> y).
  rewrite (index_index_set _ _ x _ y) by (done || by rewrite lookup_insert_eq). by rewrite insert_insert_eq, lookup_insert_eq.
Qed.

Lemma identify_file_post r m kind reference x y file :
  slots m -> bs kind ∈ resource_slots -> x !! reference = Some (Object y) ->
  identity_post m (
    let? relative := relative_input file (working_directory r) in
    let? identity := unwrap (index_mut (Object (<[bs kind := Object x]> m)) (bs kind) (fun v => index_mut v reference (fun w =>
                       set_key w (bs "file") (Text relative)))) in
    let? contents := hash_project_file file (working_directory r) in
    unwrap (index_mut identity (bs "files") (fun v => set_key v relative (Text contents)))).
Proof.
  intros Hm Hk Hx. apply identity_bind; [auto with panics|]. intros relative _.
  rewrite (index_index_set _ _ x _ y) by (done || by rewrite lookup_insert_eq). cbn [unwrap ok_or].
  apply identity_bind; [auto with panics|]. intros contents _. rewrite insert_insert_eq.
  set (x2 := <[reference := _]> x). pose proof (slots_insert m (bs kind) x2 Hm) as Hm2.
  assert (Hf : bs "files" ∈ resource_slots) by (unfold resource_slots; set_solver).
  destruct (index_set _ (bs "files") relative (Text contents) Hm2 Hf) as (z & -> & _).
  destruct (identity_put _ _ z Hm2 Hf) as (m' & [= <-] & Hs & Hser).
  destruct (identity_put m (bs kind) x2 Hm Hk) as (m2 & [= <-] & _ & Hser2).
  exists (<[bs "files" := Object z]> (<[bs kind := Object x2]> m)). split_and!; [done|done|]. by etrans.
Qed.

Lemma identify_resource_post r model kind reference m :
  slots m -> bs kind ∈ resource_slots -> identity_post m (identify_resource r model kind reference (Object m)).
Proof.
  intros Hm Hk. unfold identify_resource. set (resource := at_key (at_key model (bs kind)) reference).
  destruct (index_set m (bs kind) reference resource Hm Hk) as (x & -> & Hx). cbn [unwrap ok_or].
  destruct (as_str (at_key resource (bs "environment"))) as [key|] eqn:He.
  - destruct (cr_env r !! key) as [value|]; [|done]. cbn [ok_or].
    destruct (resource_field m (bs kind) reference resource x (bs "environment") key (bs "x-tako-environment-content")
                (Text (hex (sha256 value))) Hx He) as (x' & y & -> & Hx'). cbn [unwrap ok_or].
    destruct (as_str (at_key resource (bs "file"))) as [file|]; [by eapply identify_file_post|by apply identity_put].
  - destruct (as_str (at_key resource (bs "file"))) as [file|] eqn:Hf; [|by apply identity_put].
    destruct (at_key_str_object _ _ _ Hf) as [y Hy]. apply (identify_file_post r m kind reference x y); [done..|congruence].
Qed.

Lemma identify_references_post r model references m :
  slots m -> Forall (fun kr : string * str => bs kr.1 ∈ resource_slots) references ->
  identity_post m (identify_references r model references (Object m)).
Proof.
  intros Hm Hall. revert m Hm. induction Hall as [|[kind reference] references Hk _ IH]; intros m Hm; cbn [identify_references].
  { by exists m. }
  pose proof (identify_resource_post r model kind reference m Hm Hk) as Hr.
  destruct (identify_resource r model kind reference (Object m)) as [v|e]; [|done].
  destruct Hr as (m1 & -> & Hm1 & Hs). specialize (IH m1 Hm1). destruct (identify_references _ _ _ _) as [v|e]; [|done].
  destruct IH as (m2 & -> & Hm2 & Hs2). exists m2. split_and!; [done|done|congruence].
Qed.

Lemma all_references_kinds d : Forall (fun kr : string * str => bs kr.1 ∈ resource_slots) (all_references d).
Proof.
  apply Forall_forall. intros [kind ref] Hin. unfold all_references in Hin. apply elem_of_concat in Hin as (l & Hl & Hin).
  apply list_elem_of_fmap in Hin as (k & -> & Hk). apply list_elem_of_fmap in Hl as (x & [= -> ->] & _). cbn [fst].
  unfold resource_slots. set_solver.
Qed.

Lemma identify_volumes_np r l : no_panic (identify_volumes r l).
Proof.
  induction l as [|v l IH]; cbn [identify_volumes]; [done|]. apply no_panic_bind; [|intros; apply no_panic_bind; [done|done]].
  unfold identify_volume. destruct (is_text _ _) eqn:Ht; [|done]. apply bool_decide_eq_true, at_key_str_object in Ht as [m ->].
  apply no_panic_bind; [auto with panics|]. intros path _. apply no_panic_bind; [auto with panics|]. intros relative _.
  apply no_panic_bind; [auto with panics|]. intros contents _. done.
Qed.

Lemma slots_start d deps : slots (list_to_map [(bs "service", Object d); (bs "dependencies", dependencies_value deps)]).
Proof.
  intros k v _ Hv. apply elem_of_list_to_map_2 in Hv. rewrite !elem_of_cons, elem_of_nil in Hv.
  destruct Hv as [Hv|[Hv|[]]]; apply (f_equal snd) in Hv; cbn [snd] in Hv; by rewrite Hv.
Qed.

Lemma service_identity_np r model p :
  is_Some (as_object (at_key (at_key model (bs "services")) (sp_name p))) -> no_panic (service_identity r model p).
Proof.
  intros [fields Hf]. unfold service_identity. rewrite Hf. cbn [unwrap ok_or].
  pose proof (identify_references_post r model _ _ (slots_start (stripped_definition fields) (sp_dependencies p))
                (all_references_kinds (Object (stripped_definition fields)))) as Hp.
  unfold obj at 1. destruct (identify_references _ _ _ _) as [v|e]; [|by intros [= ->]].
  destruct Hp as (m & -> & _ & Hs). change (m !! bs "service" = Some (Object (stripped_definition fields))) in Hs.
  apply no_panic_bind.
  { generalize (at_key (at_key (Object m) (bs "service")) (bs "volumes")). intros w. destruct w; try done. apply no_panic_bind; [apply identify_volumes_np|done]. }
  intros volumes _. cbn [index_mut]. rewrite Hs. cbn [default id set_key index_mut unwrap ok_or].
  destruct (is_ingress _ _); done.
Qed.
End Identities.

(** ** Fingerprints *)

Section Planning.
Context {H : Sha256Api} {J : SerdeJson} {F : ManagedFs} {G : ComposeFs}.
Implicit Types (r : ComposeRuntime) (model : Value) (n : str) (s : ServicePlan) (p : Plan).

Lemma fingerprint_all_np r model entries plans :
  Forall (fun np : str * ServicePlan => is_Some (as_object (at_key (at_key model (bs "services")) (sp_name np.2)))) entries ->
  no_panic (fingerprint_all r model entries plans).
Proof.
  intros Hall. revert plans. induction Hall as [|[n q] entries Hq _ IH]; intros plans; cbn [fingerprint_all]; [done|].
  apply no_panic_bind; [|intros; apply IH]. unfold fingerprint_of. apply no_panic_bind; [by apply service_identity_np|done].
Qed.

Lemma attached_object r fields d' : attached r (Object fields) d' -> is_Some (as_object d').
Proof.
  unfold attached. destruct (cr_native_network r) as [n|]; [|intros ->; by eexists]. intros [b Hb]. unfold attach_service in Hb.
  cbn [required ok_or as_object] in Hb. destruct (as_object _); [|done]. cbn [required ok_or] in Hb.
  case_bool_decide; [done|]. injection Hb as <- _. by eexists.
Qed.

(** The definition of a service in the model of the plan. *)
Lemma stage_definition r m services definitions plans0 model2 n d :
  plan_all r (btree services) services ∅ = Ok (definitions, plans0) -> services !! n = Some d ->
  (if cr_native_network r is Some k then native_apply k (Object (<[bs "services" := Object definitions]> m))
   else Ok (Object (<[bs "services" := Object definitions]> m))) = Ok model2 ->
  exists fields d', d = Object fields /\ attached r (prepared_definition fields) d' /\ at_key (at_key model2 (bs "services")) n = d'.
Proof.
  intros H0 Hd H2. destruct (plan_all_spec _ _ _ _ _ _ H0 (btree_keys_NoDup services) n) as [_ Hin].
  destruct (Hin d) as (d1 & q & Hq & Hd1 & _); [by apply elem_of_btree|].
  destruct (plan_service_ok _ _ _ _ _ Hq) as (_ & _ & _ & fields & -> & ->).
  destruct (planned_definition _ _ _ _ _ _ H2 Hd1) as (d' & Hd' & Ha). exists fields, d'. unfold at_key at 1. by rewrite Hd'.
Qed.

Lemma plan_new_np model r : no_panic (plan_new model r).
Proof.
  unfold plan_new. apply no_panic_bind; [auto with panics|]. intros services Hs.
  destruct (as_object _) as [services'|] eqn:Hobj; [|done]. injection Hs as ->.
  apply at_key_object in Hobj as (m & -> & Hm). pose proof (plan_all_np r (btree services) services ∅) as Hnp.
  destruct (plan_all _ _ _ _) as [[definitions plans0]|e] eqn:H0; [|intros [= ->]; by apply Hnp]. cbn [set_key index_mut unwrap ok_or].
  apply no_panic_bind; [apply mark_completed_np|]. intros plans1 H1.
  apply no_panic_bind; [destruct (cr_native_network r); [apply native_apply_np|done]|]. intros model2 H2.
  apply no_panic_bind.
  - apply fingerprint_all_np, Forall_forall. intros [n q] Hq%elem_of_btree. cbn [snd].
    apply mark_completed_spec in H1 as [_ H1]. rewrite H1 in Hq. apply fmap_Some in Hq as (p0 & Hp0 & ->).
    pose proof (plan_all_spec _ _ _ _ _ _ H0 (btree_keys_NoDup services) n) as [Hout Hin].
    destruct (services !! n) as [d|] eqn:Hd.
    2: { destruct Hout as [_ Hno]; [|by rewrite Hno, lookup_empty in Hp0]. change (n ∉ btree_keys services). rewrite elem_of_btree_keys, Hd. by intros [? [=]]. }
    destruct (Hin d) as (d1 & q & Hq & _ & Hq0); [by apply elem_of_btree|].
    destruct (plan_service_ok _ _ _ _ _ Hq) as (_ & [Hname _ _] & _).
    assert (sp_name ((if bool_decide (n ∈ completed_names plans0) then with_completed else id) p0) = n) as ->.
    { case_bool_decide; cbn; congruence. }
    destruct (stage_definition r m services definitions plans0 model2 n d H0 Hd H2) as (fields & d' & -> & Ha & ->).
    by eapply attached_object.
  - intros plans _. apply no_panic_bind.
    + pose proof (visit_all_no_panic plans) as Hv. exact Hv.
    + intros names (Hperm & _ & _)%visit_all_sound. destruct (take_plans_spec plans names) as (l & -> & _); [| |done].
      * rewrite Hperm. apply btree_keys_NoDup.
      * intros n Hn. rewrite Hperm in Hn. by apply elem_of_btree_keys.
Qed.

Lemma service_identity_ext r model1 model2 s1 s2 :
  sp_name s1 = sp_name s2 -> sp_dependencies s1 = sp_dependencies s2 ->
  at_key (at_key model1 (bs "services")) (sp_name s1) = at_key (at_key model2 (bs "services")) (sp_name s1) ->
  (forall kind, bs kind ∈ resource_slots -> at_key model1 (bs kind) = at_key model2 (bs kind)) ->
  service_identity r model1 s1 = service_identity r model2 s2.
Proof.
  intros Hn Hdeps Hdef Hkinds. unfold service_identity. rewrite Hdef, <- Hn, <- Hdeps.
  destruct (as_object _) as [fields|]; [|done]. cbn [unwrap ok_or].
  assert (Hrefs : forall refs identity, Forall (fun kr : string * str => bs kr.1 ∈ resource_slots) refs ->
            identify_references r model1 refs identity = identify_references r model2 refs identity).
  { intros refs identity Hall. revert identity. induction Hall as [|[kind ref] refs Hk _ IH]; intros identity; [done|].
    cbn [identify_references].
    assert (identify_resource r model1 kind ref identity = identify_resource r model2 kind ref identity) as ->
      by (unfold identify_resource; by rewrite (Hkinds kind Hk)).
    destruct (identify_resource r model2 kind ref identity); [apply IH|done]. }
  by rewrite Hrefs by apply all_references_kinds.
Qed.

(** Parts of the planned model that no service has a say in. *)
Lemma planned_resources r m definitions model2 :
  (if cr_native_network r is Some k then native_apply k (Object (<[bs "services" := Object definitions]> m))
   else Ok (Object (<[bs "services" := Object definitions]> m))) = Ok model2 ->
  cr_native_network r = None \/ is_Some (get (at_key (Object m) (bs "networks")) (bs "default")) ->
  forall kind, bs kind ∈ resource_slots ->
    at_key model2 (bs kind) =
    match cr_native_network r with
    | Some k => if str_eqb (bs kind) (bs "networks")
                then update_fields (at_key (Object m) (bs "networks")) (insert RESOURCE (bridge_network k))
                else at_key (Object m) (bs kind)
    | None => at_key (Object m) (bs kind)
    end.
Proof.
  intros H2 Hdef kind Hk. assert (Hns : bs "services" <> bs kind).
  { intros Heq. rewrite <- Heq in Hk. revert Hk. apply (bool_decide_eq_false_1 (_ ∈ _)). vm_compute. reflexivity. }
  destruct (cr_native_network r) as [k|]; [|injection H2 as <-; by rewrite at_key_insert_ne].
  apply native_apply_spec with (services := definitions) in H2 as (services' & nd & networks & _ & Hnet & _ & ->); [|by rewrite lookup_insert_eq].
  destruct Hdef as [|Hdef]; [done|]. unfold str_eqb. case_bool_decide as Heq.
  - rewrite Heq, at_key_insert. unfold at_key in Hdef |- *. cbn [get] in *. rewrite lookup_insert_ne in Hnet by (vm_compute; discriminate).
    destruct (m !! bs "networks") as [v|]; [|by destruct Hdef]. cbn [default id] in *. subst v. cbn [get update_fields] in *.
    unfold with_default. rewrite (bool_decide_eq_true_2 (is_Some _)) by done. by rewrite andb_false_r.
  - rewrite at_key_insert_ne by congruence. rewrite at_key_insert_ne by done. by rewrite at_key_insert_ne by done.
Qed.

Lemma attached_det r d d1 d2 : attached r d d1 -> attached r d d2 -> d1 = d2.
Proof. unfold attached. destruct (cr_native_network r); [intros [b1 H1] [b2 H2]; congruence|congruence]. Qed.

(** Everything the fingerprint of a planned service is computed from. *)
Lemma plan_view model r p s :
  plan_new model r = Ok p -> s ∈ plan_services p ->
  fingerprint_of r (plan_model p) s = Ok (sp_fingerprint s)
  /\ exists m d d' q0 fields, model = Object m /\ get (at_key model (bs "services")) (sp_name s) = Some d
       /\ plan_service r (sp_name s) d = Ok (d', q0) /\ sp_dependencies s = sp_dependencies q0
       /\ d = Object fields /\ attached r (prepared_definition fields) (at_key (at_key (plan_model p) (bs "services")) (sp_name s))
       /\ (cr_native_network r = None \/ is_Some (get (at_key model (bs "networks")) (bs "default")) ->
          forall kind, bs kind ∈ resource_slots ->
            at_key (plan_model p) (bs kind) =
            match cr_native_network r with
            | Some k => if str_eqb (bs kind) (bs "networks")
                        then update_fields (at_key model (bs "networks")) (insert RESOURCE (bridge_network k))
                        else at_key model (bs kind)
            | None => at_key model (bs kind)
            end).
Proof.
  intros (services & definitions & plans0 & plans & names & Hs & H0 & _ & _ & _ & Hall & model1 & H1 & H2)%plan_new_spec [i Hi]%list_elem_of_lookup.
  destruct (Forall2_lookup_r _ _ _ _ _ Hall Hi) as (n & _ & _ & Hn & (d & d' & q0 & f & Hd & Hp & _ & Hq0 & Hf & Hsp)).
  rewrite <- Hn in *. split. { rewrite Hf. by rewrite Hsp. }
  apply at_key_object in Hs as (m & -> & Hm). cbn [set_key index_mut] in H1. injection H1 as <-.
  destruct (stage_definition r m services definitions plans0 (plan_model p) (sp_name s) d H0 Hd H2) as (fields & d2 & Hdf & Ha & Hd2).
  exists m, d, d', q0, fields. split_and!; [done| |done| |done|by rewrite Hd2|].
  - unfold at_key. cbn [get]. by rewrite Hm.
  - rewrite Hsp. by case_bool_decide.
  - intros Hdef. by apply (planned_resources r m definitions).
Qed.
End Planning.
