(* ===== verification/ComposeRollout.v ===== *)
(** * Rolling out a Compose deployment (tako-compose/src/engine.rs, rollout.rs)

    The container engine (docker) is another program.  What it answers to a command may
    depend on everything that happened before: an engine is a function from the history of
    commands and answers to the next answer, and the operations run against any engine.
    Each operation returns the history it leaves and its result, so that theorems can speak
    of what was asked of the engine, and in which order.

    Tasks that run concurrently ([JoinSet]) run here one after the other, in an order the
    caller gives: the tasks of [apply] only ask questions, and the answers to each are
    arbitrary; the tasks of [finish] remove different containers. *)

From S2P Require Import Prelude RustStr Net Codec JsonValue Enrollment StaticFiles ManagementPolicy Protocol.
From S2P Require Import ComposeModel ComposeValidation ComposePlan.

(** ** Commands *)

(** The docker and helper processes the source starts; [Now] reads the clock, [Sleep] waits,
    in nanoseconds. *)
Inductive DockerCommand :=
| EnsureBridge (network_id : str)
| ComposeConfigJson
| ImageInspect (platform : option str) (image : str)
| ListContainers (project : str)
| ContainerInspect (id : str)
| ContainerStop (id : str)
| ContainerStart (id : str)
| ContainerRemove (id : str)
| ComposeCreate (model : Value) (generation : str)
| ComposeStart (model : Value) (generation : str)
| Now
| Sleep (nanos : Z).

(** The process could not be run, ended (well or not) with its output, or the clock's answer. *)
Inductive Answer :=
| NotRun
| Exited (success : bool) (stdout stderr : str)
| Time (nanos : Z).

Definition Event : Type := DockerCommand * Answer.
Definition Engine : Type := list Event -> DockerCommand -> Answer.

(** A computation against an engine extends the history. *)
Definition M (A : Type) : Type := list Event -> list Event * result A Failure.

Section Engine.
Variable engine : Engine.

Definition ret {A} (a : A) : M A := fun h => (h, Ok a).
Definition stop {A} (e : Failure) : M A := fun h => (h, Err e).
Definition lift {A} (x : result A Failure) : M A := fun h => (h, x).
Definition bind {A B} (m : M A) (k : A -> M B) : M B :=
  fun h => match m h with (h', Ok a) => k a h' | (h', Err e) => (h', Err e) end.
(** The result of a computation as a value: no early return but of a panic. *)
Definition try {A} (m : M A) : M (result A Failure) :=
  fun h => match m h with (h', Err Panicked) => (h', Err Panicked) | (h', x) => (h', Ok x) end.

Definition ask (c : DockerCommand) : M Answer := fun h => let a := engine h c in (h ++ [(c, a)], Ok a).
End Engine.

Declare Scope engine_scope.
Delimit Scope engine_scope with engine.
Notation "'do' x <- m ; k" := (bind m (fun x => k)) (at level 20, x pattern, m at level 100, k at level 200, right associativity) : engine_scope.
Open Scope engine_scope.

Section Containers.
Context {H : Sha256Api} {J : SerdeJson} {F : ManagedFs} {G : ComposeFs}.
Variable engine : Engine.

(** The error text of a failed process is not modelled. *)
Definition engine_output (c : DockerCommand) : M str :=
  do a <- ask engine c;
  match a with
  | Exited true stdout _ => ret stdout
  | _ => stop IoFailure
  end.

Definition run (c : DockerCommand) : M unit := do _ <- engine_output c; ret tt.

Definition now : M Z :=
  do a <- ask engine Now;
  match a with Time t => ret t | _ => stop Panicked end.

Definition sleep (nanos : Z) : M unit := do _ <- ask engine (Sleep nanos); ret tt.

(** ** Containers (engine.rs) *)

Record ServiceContainer := mkContainer {
  c_id : str;
  c_service : str;
  c_generation : str;
  c_slot : Z;
  c_fingerprint : str;
  c_state : str;
  c_health : str;
  c_exit_code : Z;
  c_restart_count : Z;
  c_started_at : str;
  c_port : option Z;
  c_release : option str;
  c_writable_volumes : list str;
  c_dependencies : gmap str DependencyCondition;
}.

Definition running (c : ServiceContainer) : bool := str_eqb (c_state c) (bs "running").
Definition healthy (c : ServiceContainer) : bool :=
  running c && (bool_decide (c_health c = []) || str_eqb (c_health c) (bs "healthy")).
Definition completed (c : ServiceContainer) : bool := str_eqb (c_state c) (bs "exited") && (c_exit_code c =? 0)%Z.
Definition restarting (c : ServiceContainer) : bool := str_eqb (c_state c) (bs "restarting").

Definition text_or_empty (v : Value) : str := default [] (as_str v).

(** The dependencies label, as it was written by [container_model]. *)
Definition condition_named (s : str) : option DependencyCondition :=
  if str_eqb s (bs "started") then Some Started
  else if str_eqb s (bs "healthy") then Some Healthy
  else if str_eqb s (bs "completed") then Some Completed else None.

Definition condition_of (v : Value) : option DependencyCondition :=
  match v with
  | Text s => condition_named s
  | Object m => match map_to_list m with [(name, Null)] => condition_named name | _ => None end
  | _ => None
  end.

Definition parse_dependencies (text : str) : option (gmap str DependencyCondition) :=
  let! v := from_slice text in
  let! fields := as_object v in
  if all (fun kv => bool_decide (is_Some (condition_of kv.2))) (btree fields)
  then Some (omap condition_of fields) else None.

(** The port that is published on the loopback address. *)
Definition loopback_port (ports : Value) : option Z :=
  let published := concat ((fun kv => items_of kv.2) <$> fields_of ports) in
  let! p := find_first (fun p => is_text (at_key p (bs "HostIp")) (bs "127.0.0.1")) published in
  let! text := as_str (at_key p (bs "HostPort")) in
  parse_u16 text.

Definition parse_container (value : Value) : result ServiceContainer Failure :=
  let labels := at_key value (bs "labels") in
  let generation := text_or_empty (at_key labels (bs "com.docker.compose.service")) in
  let? id := required (as_str (at_key value (bs "id"))) "Container metadata has no ID" in
  let? dependencies :=
    match as_str (at_key labels DEPENDENCIES_LABEL) with
    | Some text => required (parse_dependencies text) "Invalid Compose dependency metadata"
    | None => Ok ∅
    end in
  Ok (mkContainer id (default generation (as_str (at_key labels SERVICE_LABEL))) generation
        (default 0%Z (let! v := as_str (at_key labels SLOT_LABEL) in parse_u32 v))
        (text_or_empty (at_key labels FINGERPRINT_LABEL))
        (text_or_empty (at_key value (bs "state"))) (text_or_empty (at_key value (bs "health")))
        (default 0%Z (as_i64 (at_key value (bs "exit_code")))) (default 0%Z (as_u64 (at_key value (bs "restart_count"))))
        (text_or_empty (at_key value (bs "started_at"))) (loopback_port (at_key value (bs "ports")))
        (as_str (at_key labels RELEASE_LABEL))
        (btree_set (omap (fun m => if is_text (at_key m (bs "Type")) (bs "volume") && is_bool (at_key m (bs "RW")) true
                                   then as_str (at_key m (bs "Name")) else None) (items_of (at_key value (bs "mounts")))))
        dependencies).

Definition inspect_container (id : str) : M (option ServiceContainer) :=
  do a <- ask engine (ContainerInspect id);
  match a with
  | Exited true stdout _ =>
      do value <- lift (required (from_slice stdout) "Invalid Docker container metadata");
      do container <- lift (parse_container value);
      ret (Some container)
  | Exited false _ stderr => if contains_str stderr (bs "No such") then ret None else stop IoFailure
  | _ => stop IoFailure
  end.

Fixpoint inspect_all (ids : list str) : M (list ServiceContainer) :=
  match ids with
  | [] => ret []
  | id :: ids' =>
      if negb (length id =? 64)%nat || negb (all is_ascii_hexdigit id)
      then stop (Error (bs "Docker returned an invalid container ID"))
      else
        do container <- inspect_container id;
        do rest <- inspect_all ids';
        ret (match container with Some c => c :: rest | None => rest end)
  end.

Definition container_leb (a b : ServiceContainer) : bool :=
  if bool_decide (c_service a = c_service b)
  then if (c_slot a =? c_slot b)%Z then str_leb (c_id a) (c_id b) else (c_slot a <=? c_slot b)%Z
  else str_leb (c_service a) (c_service b).

Definition project_containers (project : str) : M (list ServiceContainer) :=
  do ids <- engine_output (ListContainers project);
  do containers <- inspect_all (split_whitespace ids);
  ret (sort_by container_leb containers).

Definition containers (r : ComposeRuntime) : M (list ServiceContainer) := project_containers (cr_project r).

Definition stop_container (id : str) : M unit :=
  do container <- inspect_container id;
  match container with
  | Some c => if running c || restarting c || str_eqb (c_state c) (bs "paused") then run (ContainerStop id) else ret tt
  | None => ret tt
  end.

Definition start_container (id : str) : M unit := run (ContainerStart id).

Definition remove_container (id : str) : M unit :=
  do _ <- stop_container id;
  do container <- inspect_container id;
  match container with
  | Some _ => run (ContainerRemove id)
  | None => ret tt
  end.

(** [$] is doubled in the model that Compose reads. *)
Fixpoint escape_text (s : str) : str :=
  match s with
  | [] => []
  | c :: s' => if bool_decide (c = "$"%char) then c :: c :: escape_text s' else c :: escape_text s'
  end.

Fixpoint escape_interpolation (v : Value) : Value :=
  match v with
  | Text s => Text (escape_text s)
  | Array l => Array (escape_interpolation <$> l)
  | Object m => Object (escape_interpolation <$> m)
  | _ => v
  end.

Definition create_container (r : ComposeRuntime) (model : Value) (generation : str) : M ServiceContainer :=
  do _ <- run (ComposeCreate (escape_interpolation model) generation);
  do all <- containers r;
  match find_first (fun c => str_eqb (c_generation c) generation) all with
  | Some c => ret c
  | None => stop (Error (concat [bs "Compose did not create container '"; generation; bs "'"]))
  end.

Definition start_service (model : Value) (generation : str) : M unit :=
  run (ComposeStart (escape_interpolation model) generation).

(** [cleanup_pending_project], [remove_app_containers] and [stop] of a production runtime
    (lib.rs). *)
Fixpoint each {A} (f : A -> M unit) (l : list A) : M unit :=
  match l with
  | [] => ret tt
  | x :: l' => do _ <- f x; each f l'
  end.

Definition cleanup_pending_project (project : str) : M unit :=
  match strip_prefix (bs "tako-") project with
  | None => stop (Error (bs "Invalid Tako Compose project"))
  | Some suffix =>
      if negb (length suffix =? 24)%nat || negb (all is_ascii_hexdigit suffix)
      then stop (Error (bs "Invalid Tako Compose project"))
      else
        do all <- project_containers project;
        each (fun c => do _ <- stop_container (c_id c); run (ContainerRemove (c_id c))) all
  end.

Definition remove_app_containers (app_data : str) : M unit := cleanup_pending_project (bs "tako-" ++ digest app_data).

Definition stop_project (r : ComposeRuntime) : M unit :=
  do all <- containers r;
  each (fun c => stop_container (c_id c)) (rev all).

(** ** Readiness (rollout.rs) *)

Definition READINESS_LIMIT : Z := 120000000000.
Definition POLL_INTERVAL : Z := 200000000.

Definition service_error {A} (c : ServiceContainer) (text : string) : M A :=
  stop (Error (concat [bs "Compose service '"; c_service c; bs "' "; bs text])).

Definition elapsed_since (t : Z) : M Z := do t' <- now; ret (Z.max 0 (t' - t)).

Definition exit_error {A} (what : string) (c : ServiceContainer) : M A :=
  stop (Error (concat [bs "Compose "; bs what; bs " '"; c_service c; bs "' exited with status "; show_Z (c_exit_code c)])).

(** One observation: the container is ready, or since when it has been. *)
Definition observe_ready (condition : option DependencyCondition) (monitor started : Z) (ready_since : option Z) (current : ServiceContainer)
  : M (ServiceContainer + option Z) :=
  if bool_decide (condition = Some Completed) then
    if completed current then ret (inl current)
    else if str_eqb (c_state current) (bs "exited") then exit_error "job" current
    else ret (inr ready_since)
  else if running current && bool_decide (condition = Some Started) then ret (inl current)
  else if bool_decide (condition = Some Healthy) && running current && bool_decide (c_health current = [])
  then stop (Error (concat [bs "Compose dependency '"; c_service current; bs "' requires a healthcheck"]))
  else
    do seen <-
      (if running current && (str_eqb (c_health current) (bs "healthy") || (bool_decide (condition = None) && bool_decide (c_health current = [])))
       then
         do since <- (match ready_since with Some t => ret t | None => now end);
         do waited <- elapsed_since since;
         ret (if (monitor <=? waited)%Z then inl current else inr (Some since))
       else ret (inr None));
    match seen with
    | inl current => ret (inl current)
    | inr ready_since =>
        if str_eqb (c_state current) (bs "exited") || str_eqb (c_state current) (bs "dead") then exit_error "service" current
        else
          do waited <- elapsed_since started;
          if (monitor <=? waited)%Z && str_eqb (c_health current) (bs "unhealthy")
          then service_error current "did not become healthy"
          else
            do waited <- elapsed_since started;
            if (monitor <=? waited)%Z && restarting current then service_error current "keeps restarting"
            else ret (inr ready_since)
    end.

Fixpoint poll (fuel : nat) (container : ServiceContainer) (condition : option DependencyCondition) (monitor started : Z)
  (ready_since : option Z) : M ServiceContainer :=
  match fuel with
  | O => stop Panicked
  | S fuel' =>
      do inspected <- inspect_container (c_id container);
      match inspected with
      | None => service_error container "disappeared"
      | Some current =>
          if negb (c_restart_count current =? c_restart_count container)%Z || negb (str_eqb (c_started_at current) (c_started_at container))
          then service_error container "restarted while waiting for readiness"
          else
            do seen <- observe_ready condition monitor started ready_since current;
            match seen with
            | inl current => ret current
            | inr ready_since =>
                do t <- now;
                if (started + READINESS_LIMIT + monitor <=? t)%Z
                then service_error current "did not become stable before the readiness deadline"
                else
                  do _ <- sleep POLL_INTERVAL;
                  poll fuel' container condition monitor started ready_since
            end
      end
  end.

(** Two polls more than intervals fit before the deadline. *)
Definition poll_fuel (monitor : Z) : nat := Z.to_nat ((READINESS_LIMIT + monitor) / POLL_INTERVAL + 2).

Definition wait_ready (container : ServiceContainer) (condition : option DependencyCondition) (monitor : Z) : M ServiceContainer :=
  do started <- now;
  poll (poll_fuel monitor) container condition monitor started None.

(** ** Preparation *)

(** [prepared], given whether the private directory could be ensured and the record that
    was read from it: the directory of the attempt and the image of each service. *)
Definition prepared (r : ComposeRuntime) (ensured : bool) (record : option (str * gmap str str))
  : result (ComposeRuntime * gmap str str) Failure :=
  let? data := required (cr_env r !! TAKO_APP_DATA_DIR_ENV) "Compose requires an app data directory" in
  let? root := root_for (cr_directory r) (cc_file (cr_config r)) data in
  if path_starts_with root (cr_directory r) then err [bs "Compose private data must be outside the source directory"]
  else if negb ensured then Err IoFailure
  else
    let? (attempt, images) := io record in
    if negb (starts_with attempt (bs "prepared-"))
       || negb (all (fun c => is_ascii_alphanumeric c || bool_decide (c = "-"%char) || bool_decide (c = "_"%char)) attempt)
    then err [bs "Invalid private Compose preparation directory"]
    else Ok (mkComposeRuntime (cr_project r) (cr_directory r) (cr_config r) (cr_env r) (cr_development r) (cr_override_file r)
               (Some (join (join root attempt) (bs "source"))) (cr_replicas r) (cr_native_network r), images).

Definition ensure_bridge (n : NativeNetwork) : M unit :=
  do a <- ask engine (EnsureBridge (nn_network_id n));
  match a with
  | Exited success stdout _ =>
      do response <- lift (required (from_slice stdout) "Invalid native bridge helper response");
      match (if is_bool (at_key response (bs "ok")) false then as_str (at_key response (bs "error")) else None) with
      | Some reason => stop (Error (concat [bs "Native Compose bridge "; subnet n; bs " was refused: "; reason]))
      | None =>
          if negb success || negb (is_bool (at_key response (bs "ok")) true)
             || negb (is_text (at_key response (bs "network_id")) (nn_network_id n))
             || negb (is_text (at_key response (bs "action")) (bs "bridge"))
          then stop (Error (bs "Native Compose bridge was not acknowledged")) else ret tt
      end
  | _ => stop (Error (bs "Could not provision the native Compose bridge"))
  end.

(** [replace("$$", "$")]: what Compose escaped when it printed the model. *)
Fixpoint unescape_text (s : str) : str :=
  match s with
  | "$"%char :: "$"%char :: s' => "$"%char :: unescape_text s'
  | c :: s' => c :: unescape_text s'
  | [] => []
  end.

Definition resolved_model (r : ComposeRuntime) : M Value :=
  do output <- engine_output ComposeConfigJson;
  if negb (utf8_valid output) then stop (Error (bs "Compose config is not UTF-8"))
  else
    do model <- lift (io (from_slice (unescape_text output)));
    lift (accept_model r model).

(** ** A rollout *)

Record Rollout := mkRollout {
  ro_runtime : ComposeRuntime;
  ro_plan : Plan;
  ro_before : list ServiceContainer;
  ro_selected : list ServiceContainer;
}.

(** An image volume is covered by a mount on exactly its target. *)
Definition volume_covered (service : Value) (target : str) : bool :=
  any (fun v => match as_str (at_key v (bs "target")) with Some mount => path_eq target mount | None => false end)
      (items_of (at_key service (bs "volumes")))
  || any (fun v => match as_str v with
                   | Some mount => path_eq target (match split ":"%char mount with first :: _ => first | [] => mount end)
                   | None => false
                   end) (items_of (at_key service (bs "tmpfs"))).

(** The ID of a prepared image, whose volumes the service must mount itself. *)
Definition inspect_image (name : str) (service : Value) (image : str) : M str :=
  do output <- engine_output (ImageInspect (as_str (at_key service (bs "platform"))) image);
  do metadata <- lift (required (from_slice output) "Invalid prepared image metadata");
  do id <- lift (required (as_str (at_key metadata (bs "id"))) "Prepared image has no ID");
  do _ <- lift (for_each (fun kv => if volume_covered service kv.1 then Ok tt
                   else err [bs "Compose service '"; name; bs "': image volume '"; kv.1;
                             bs "' needs an explicit named volume or tmpfs mount to avoid losing data on replacement"])
                  (fields_of (at_key metadata (bs "volumes"))));
  ret id.

Fixpoint inspect_images (images : gmap str str) (entries : list (str * Value)) (services : gmap str Value) (ids : gmap str str)
  : M (gmap str Value * gmap str str) :=
  match entries with
  | [] => ret (services, ids)
  | (name, service) :: entries' =>
      do image <- lift (unwrap (images !! name));
      do id <- inspect_image name service image;
      do service <- lift (unwrap (set_key service (bs "image") (Text image)));
      inspect_images images entries' (<[name := service]> services) (<[name := id]> ids)
  end.

(** The IDs that containers are created from. *)
Fixpoint freeze_images (ids : list (str * str)) (model : Value) : option Value :=
  match ids with
  | [] => Some model
  | (service, id) :: ids' =>
      let! model := index_mut model (bs "services") (fun v => index_mut v service (fun d => set_key d (bs "image") (Text id))) in
      freeze_images ids' model
  end.

Definition begin_rollout (r : ComposeRuntime) (ensured : bool) (record : option (str * gmap str str)) : M Rollout :=
  if cr_development r then stop (Error (bs "Production rollout requested for a development project"))
  else
    do (runtime, images) <- lift (prepared r ensured record);
    do _ <- (match cr_native_network runtime with Some n => ensure_bridge n | None => ret tt end);
    do model <- resolved_model runtime;
    do services <- lift (required (as_object (at_key model (bs "services"))) "Compose has no services");
    if negb (bool_decide (btree_keys images = btree_keys services))
    then stop (Error (bs "Compose service definitions changed since release preparation"))
    else
      do (services, ids) <- inspect_images images (btree services) services ∅;
      do model <- lift (unwrap (set_key model (bs "services") (Object services)));
      do plan <- lift (plan_new model runtime);
      do model <- lift (unwrap (freeze_images (btree ids) (plan_model plan)));
      do before <- containers r;
      ret (mkRollout runtime (mkPlan model (plan_services plan)) before []).

Definition replicas (o : Rollout) : gmap str Z :=
  list_to_map ((fun s => (sp_name s, sp_replicas s)) <$> plan_services (ro_plan o)).

Definition ingresses (o : Rollout) : list ServiceContainer :=
  retain (fun c => is_ingress (ro_runtime o) (c_service c)) (ro_selected o).

Definition ingress (o : Rollout) : result ServiceContainer Failure :=
  required (find_first (fun c => is_ingress (ro_runtime o) (c_service c)) (ro_selected o)) "Compose rollout has no HTTP ingress container".

(** *** Applying *)

Definition disjoint_names (a b : list str) : bool := negb (any (fun x => bool_decide (x ∈ b)) a).

(** Predecessors that have to stop before the candidate starts. *)
Definition must_stop (plan : Plan) (service : ServicePlan) (slot : Z) (candidate old : ServiceContainer) : bool :=
  let same_slot := str_eqb (c_service old) (sp_name service) && (c_slot old =? slot)%Z in
  let removed_service := negb (any (fun p => str_eqb (sp_name p) (c_service old)) (plan_services plan)) in
  let shares_removed_volume := removed_service && negb (disjoint_names (c_writable_volumes candidate) (c_writable_volumes old)) in
  negb (str_eqb (c_id old) (c_id candidate)) && (same_slot || shares_removed_volume).

Definition done_job (service : ServicePlan) (c : ServiceContainer) : bool := sp_completed service && completed c.

Definition apply_slot (o : Rollout) (service : ServicePlan) (slot : Z) : M ServiceContainer :=
  do existing <- containers (ro_runtime o);
  do candidate <-
    (match find_first (fun c => str_eqb (c_service c) (sp_name service) && (c_slot c =? slot)%Z
                                && str_eqb (c_fingerprint c) (sp_fingerprint service)) existing with
     | Some c => ret c
     | None =>
         do model <- lift (unwrap (container_model (ro_plan o) service slot (ro_runtime o)));
         create_container (ro_runtime o) model (generation service slot)
     end);
  do _ <-
    (if bool_decide (sp_order service = StopFirst) && negb (healthy candidate) && negb (done_job service candidate)
     then each (fun old => if must_stop (ro_plan o) service slot candidate old then stop_container (c_id old) else ret tt) existing
     else ret tt);
  do _ <-
    (if running candidate || done_job service candidate then ret tt
     else
       do model <- lift (unwrap (container_model (ro_plan o) service slot (ro_runtime o)));
       start_service model (c_generation candidate));
  do inspected <- inspect_container (c_id candidate);
  lift (required inspected "Compose container disappeared after start").

Fixpoint apply_slots (o : Rollout) (service : ServicePlan) (slots : list Z) (selected : list ServiceContainer)
  : M (list ServiceContainer) :=
  match slots with
  | [] => ret selected
  | slot :: slots' =>
      do candidate <- apply_slot o service slot;
      apply_slots o service slots' (selected ++ [candidate])
  end.

Definition await_dependencies (service : ServicePlan) (selected : list ServiceContainer) : M unit :=
  each (fun dc : str * DependencyCondition =>
          each (fun c => do _ <- wait_ready c (Some dc.2) 0; ret tt) (retain (fun c => str_eqb (c_service c) dc.1) selected))
    (btree (sp_dependencies service)).

Fixpoint apply_services (o : Rollout) (services : list ServicePlan) (selected : list ServiceContainer) : M (list ServiceContainer) :=
  match services with
  | [] => ret selected
  | service :: services' =>
      do _ <- await_dependencies service selected;
      do selected <- apply_slots o service (seqZ 0 (sp_replicas service)) selected;
      apply_services o services' selected
  end.

(** One readiness task: the container has been healthy all along, or is monitored. *)
Definition await_selected (o : Rollout) (container : ServiceContainer) : M ServiceContainer :=
  do service <- lift (unwrap (find_first (fun s => str_eqb (sp_name s) (c_service container)) (plan_services (ro_plan o))));
  let condition := if sp_completed service then Some Completed else None in
  let was_healthy := any (fun old => str_eqb (c_id old) (c_id container) && healthy old
                                     && (c_restart_count old =? c_restart_count container)%Z
                                     && str_eqb (c_started_at old) (c_started_at container)) (ro_before o) in
  wait_ready container condition (if was_healthy then 0%Z else sp_monitor service).

Fixpoint await_all (o : Rollout) (order : list nat) (selected : list ServiceContainer) : M (list ServiceContainer) :=
  match order with
  | [] => ret selected
  | index :: order' =>
      do container <- lift (unwrap (selected !! index));
      do container <- await_selected o container;
      await_all o order' (<[index := container]> selected)
  end.

(** [schedule n] is the order in which [n] tasks end.  After an error the rollout is only
    rolled back, which does not read what was selected. *)
Definition apply (schedule : nat -> list nat) (o : Rollout) : M Rollout :=
  if negb (bool_decide (ro_selected o = [])) then stop (Error (bs "A Compose rollout can only be applied once"))
  else
    do selected <- apply_services o (plan_services (ro_plan o)) [];
    do selected <- await_all o (schedule (length selected)) selected;
    let o := mkRollout (ro_runtime o) (ro_plan o) (ro_before o) selected in
    do _ <- lift (ingress o);
    ret o.

(** *** Rolling back *)

Definition errors_of (x : result unit Failure) : list Failure := match x with Ok _ => [] | Err e => [e] end.

(** Run all, and collect the errors. *)
Fixpoint collect_errors {A} (f : A -> M unit) (l : list A) (errors : list Failure) : M (list Failure) :=
  match l with
  | [] => ret errors
  | x :: l' =>
      do outcome <- try (f x);
      collect_errors f l' (errors ++ errors_of outcome)
  end.

(** [errors.join("; ")]. *)
Fixpoint join_errors (errors : list Failure) : Failure :=
  match errors with
  | [] => Error []
  | [e] => e
  | e :: errors' =>
      match e, join_errors errors' with
      | Error a, Error b => Error (a ++ bs "; " ++ b)
      | Panicked, _ | _, Panicked => Panicked
      | _, _ => IoFailure
      end
  end.

Definition finish_errors (errors : list Failure) : M unit :=
  match errors with [] => ret tt | _ => stop (join_errors errors) end.

Definition was_up (c : ServiceContainer) : bool := running c || restarting c.

(** Containers of the attempt are removed, predecessors that were down are stopped. *)
Definition undo (o : Rollout) (c : ServiceContainer) : M unit :=
  if negb (any (fun old => str_eqb (c_id old) (c_id c)) (ro_before o)) then remove_container (c_id c)
  else if any (fun old => str_eqb (c_id old) (c_id c) && negb (was_up old)) (ro_before o) then stop_container (c_id c)
  else ret tt.

(** What a predecessor depends on is ready, as it declares. *)
Definition await_previous (o : Rollout) (old : ServiceContainer) : M unit :=
  each (fun dc : str * DependencyCondition =>
          let dependencies := retain (fun c => str_eqb (c_service c) dc.1 && (was_up c || completed c)) (ro_before o) in
          let missing := Error (concat [bs "Previous dependency '"; dc.1; bs "' disappeared during rollback"]) in
          if bool_decide (dependencies = []) then stop missing
          else each (fun dependency =>
                 do inspected <- inspect_container (c_id dependency);
                 do current <- lift (ok_or inspected missing);
                 do _ <- wait_ready current (Some dc.2) 0;
                 ret tt) dependencies) (btree (c_dependencies old)).

Definition restore_predecessor (o : Rollout) (old : ServiceContainer) : M (option ServiceContainer) :=
  do inspected <- inspect_container (c_id old);
  do current <- lift (ok_or inspected (Error (concat [bs "Previous container for '"; c_service old; bs "' disappeared during rollback"])));
  if running current then ret None
  else
    do _ <- await_previous o old;
    do _ <- start_container (c_id old);
    do inspected <- inspect_container (c_id old);
    do current <- lift (required inspected "Previous Compose container disappeared after restart");
    ret (Some current).

(** The first container that depends on none of the remaining ones, and the others. *)
Fixpoint take_ready (remaining before after : list ServiceContainer) : option (ServiceContainer * list ServiceContainer) :=
  match after with
  | [] => None
  | old :: after' =>
      if any (fun dependency => bool_decide (is_Some (c_dependencies old !! c_service dependency))) remaining
      then take_ready remaining (before ++ [old]) after'
      else Some (old, before ++ after')
  end.

(** Every round restores one: their number is enough fuel. *)
Fixpoint restore_all (o : Rollout) (fuel : nat) (remaining : list ServiceContainer) (restored : list ServiceContainer) (errors : list Failure)
  : M (list ServiceContainer * list Failure) :=
  match fuel with
  | O => ret (restored, errors)
  | S fuel' =>
      match take_ready remaining [] remaining with
      | None => ret (restored, errors ++ [Error (bs "Previous Compose dependency graph contains a cycle")])
      | Some (old, remaining) =>
          do outcome <- try (restore_predecessor o old);
          match outcome with
          | Ok (Some current) => restore_all o fuel' remaining (restored ++ [current]) errors
          | Ok None => restore_all o fuel' remaining restored errors
          | Err e => restore_all o fuel' remaining restored (errors ++ [e])
          end
      end
  end.

Definition rollback (o : Rollout) : M unit :=
  do current <- containers (ro_runtime o);
  do errors <- collect_errors (undo o) (rev current) [];
  if negb (bool_decide (errors = [])) then stop (join_errors errors)
  else
    let remaining := retain was_up (ro_before o) in
    do (restored, errors) <- restore_all o (length remaining) remaining [] [];
    do errors <- collect_errors (fun c => do _ <- wait_ready c None 1000000000; ret tt) restored errors;
    finish_errors errors.

(** *** Finishing *)

Definition finish (schedule : nat -> list nat) (o : Rollout) : M unit :=
  do current <- containers (ro_runtime o);
  let retired := retain (fun c => negb (any (fun s => str_eqb (c_id s) (c_id c)) (ro_selected o))) current in
  do errors <- collect_errors (fun c => remove_container (c_id c)) (omap (retired !!.) (schedule (length retired))) [];
  finish_errors errors.

Definition changes (o : Rollout) : list (str * UpdateOrder) :=
  (fun s => (sp_name s, sp_order s)) <$>
  retain (fun service =>
    any (fun c => str_eqb (c_service c) (sp_name service) && (sp_replicas service <=? c_slot c)%Z) (ro_before o)
    || any (fun slot => negb (any (fun c => str_eqb (c_service c) (sp_name service) && (c_slot c =? slot)%Z
                                            && str_eqb (c_fingerprint c) (sp_fingerprint service)
                                            && (healthy c || done_job service c)) (ro_before o)))
         (seqZ 0 (sp_replicas service)))
    (plan_services (ro_plan o)).
End Containers.
