(* ===== verification/ComposeRolloutProps.v ===== *)
(** * What a Compose rollout asks of the engine

    For every engine: which commands an update, its rollback and its end issue, in which
    order, and what is known of the containers by then. *)

From S2P Require Import Prelude RustStr Net Codec JsonValue Enrollment StaticFiles ManagementPolicy Protocol.
From S2P Require Import ComposeModel ComposeValidation ComposePlan ComposePlanProps ComposeRollout.

(** ** Reasoning about computations *)

(** From a history, a computation appends a trace; the trace and the result satisfy [Q]. *)
Definition spec {A} (m : M A) (h : list Event) (Q : list Event -> result A Failure -> Prop) : Prop :=
  exists t, (m h).1 = h ++ t /\ Q t (m h).2.

Section Spec.
Variable engine : Engine.

Lemma spec_ret {A} (a : A) h Q : Q [] (Ok a) -> spec (ret a) h Q.
Proof. exists []. by rewrite app_nil_r. Qed.

Lemma spec_lift {A} (x : result A Failure) h Q : Q [] x -> spec (lift x) h Q.
Proof. exists []. by rewrite app_nil_r. Qed.

Lemma spec_stop {A} e h (Q : list Event -> result A Failure -> Prop) : Q [] (Err e) -> spec (stop e) h Q.
Proof. exists []. by rewrite app_nil_r. Qed.

Lemma spec_ask c h Q : Q [(c, engine h c)] (Ok (engine h c)) -> spec (ask engine c) h Q.
Proof. by exists [(c, engine h c)]. Qed.

Lemma spec_impl {A} (m : M A) h (Q R : list Event -> result A Failure -> Prop) :
  spec m h R -> (forall t x, R t x -> Q t x) -> spec m h Q.
Proof. intros (t & Ht & HR) HQ. exists t. auto. Qed.

Lemma spec_bind {A B} (m : M A) (k : A -> M B) h R Q :
  spec m h R ->
  (forall t a, R t (Ok a) -> spec (k a) (h ++ t) (fun u x => Q (t ++ u) x)) ->
  (forall t e, R t (Err e) -> Q t (Err e)) ->
  spec (bind m k) h Q.
Proof.
  intros (t & Ht & HR) Hk He. unfold spec, bind. destruct (m h) as [h' [a|e]]; cbn [fst snd] in *; subst h'.
  - destruct (Hk t a HR) as (u & Hu & HQ). exists (t ++ u). by rewrite app_assoc.
  - exists t. auto.
Qed.

Lemma spec_and {A} (m : M A) h (Q R : list Event -> result A Failure -> Prop) :
  spec m h Q -> spec m h R -> spec m h (fun t x => Q t x /\ R t x).
Proof. intros (t & Ht & HQ) (u & Hu & HR). assert (t = u) as <- by (rewrite Ht in Hu; by apply (inj (h ++.)) in Hu). by exists t. Qed.

Lemma bind_run {A B} (m : M A) (k : A -> M B) h h1 a : m h = (h1, Ok a) -> bind m k h = k a h1.
Proof. intros Hm. unfold bind. by rewrite Hm. Qed.

Lemma spec_try {A} (m : M A) h R Q :
  spec m h R -> (forall t x, R t x -> x <> Err Panicked -> Q t (Ok x)) -> (forall t, R t (Err Panicked) -> Q t (Err Panicked)) ->
  spec (try m) h Q.
Proof.
  intros (t & Ht & HR) Hx Hp. unfold spec, try. destruct (m h) as [h' [a|e]]; cbn [fst snd] in *; subst h'; [exists t; split; [done|by apply Hx]|].
  destruct e; exists t; (split; [done|]); cbn [snd]; auto; by apply Hx.
Qed.

(** ** Justified commands: every command of a trace, given what came before it *)

Definition Rule : Type := list Event -> DockerCommand -> Prop.
Definition justified (J : Rule) (t : list Event) : Prop := forall t1 e t2, t = t1 ++ e :: t2 -> J t1 e.1.

(** A rule that more history does not break. *)
Definition stable_rule (J : Rule) : Prop := forall u v c, u ⊆ v -> J u c -> J v c.

Lemma justified_nil J : justified J [].
Proof. by intros [|] ?? ?. Qed.

Lemma justified_app J t u : justified J t -> justified (fun v c => J (t ++ v) c) u -> justified J (t ++ u).
Proof.
  intros Ht Hu t1 e t2 Heq. apply app_eq_inv in Heq as [(l & -> & Heq)|(l & -> & Heq)]; [|by apply (Hu l e t2)].
  destruct l as [|e' l].
  - specialize (Hu [] e t2). rewrite !app_nil_r in *. by apply Hu.
  - injection Heq as -> _. by eapply Ht.
Qed.

Lemma justified_impl (J K : Rule) t : (forall u c, J u c -> K u c) -> justified J t -> justified K t.
Proof. intros Himpl Ht t1 e t2 Heq. by eapply Himpl, Ht. Qed.

Lemma justified_one (J : Rule) e : J [] e.1 -> justified J [e].
Proof. intros He [|x t1] y t2 Heq; [by injection Heq as <-|]. injection Heq as _ Heq. by destruct t1. Qed.

(** A computation whose commands are justified, given the history [p] of the operation. *)
Definition does {A} (J : Rule) (m : M A) : Prop := forall h, spec m h (fun t _ => justified J t).

Lemma does_ret {A} J (a : A) : does J (ret a).
Proof. intros h. apply spec_ret, justified_nil. Qed.
Lemma does_lift {A} J (x : result A Failure) : does J (lift x).
Proof. intros h. apply spec_lift, justified_nil. Qed.
Lemma does_stop {A} J e : does J (stop e : M A).
Proof. intros h. apply spec_stop, justified_nil. Qed.
Lemma does_ask (J : Rule) c : J [] c -> does J (ask engine c).
Proof. intros HJ h. apply spec_ask, justified_one, HJ. Qed.

Lemma does_bind {A B} J (m : M A) (k : A -> M B) : stable_rule J -> does J m -> (forall a, does J (k a)) -> does J (bind m k).
Proof.
  intros Hs Hm Hk h. eapply spec_bind; [apply Hm| |done]. intros t a Ht. eapply spec_impl; [apply Hk|].
  intros u x Hu. apply justified_app; [done|]. eapply justified_impl; [|exact Hu]. intros v c. apply Hs. set_solver.
Qed.

Lemma does_try {A} J (m : M A) : does J m -> does J (try m).
Proof. intros Hm h. eapply spec_try; [apply Hm|by intros t x Ht _|by intros t Ht]. Qed.

Lemma does_impl {A} (J K : Rule) (m : M A) : (forall u c, J u c -> K u c) -> does J m -> does K m.
Proof. intros Himpl Hm h. eapply spec_impl; [apply Hm|]. intros t x Ht. by eapply justified_impl. Qed.

Lemma does_each {A} J (f : A -> M unit) l : stable_rule J -> (forall x, x ∈ l -> does J (f x)) -> does J (each f l).
Proof.
  intros Hs. induction l as [|x l IH]; intros Hf; cbn [each]; [apply does_ret|].
  apply does_bind; [done|apply Hf; left|]. intros _. apply IH. intros y Hy. apply Hf. by right.
Qed.

Lemma does_collect {A} J (f : A -> M unit) l errors : stable_rule J -> (forall x, x ∈ l -> does J (f x)) -> does J (collect_errors f l errors).
Proof.
  intros Hs. revert errors. induction l as [|x l IH]; intros errors Hf; cbn [collect_errors]; [apply does_ret|].
  apply does_bind; [done|apply does_try, Hf; left|]. intros o. apply IH. intros y Hy. apply Hf. by right.
Qed.
End Spec.

Create HintDb engine.
#[export] Hint Resolve does_ret does_lift does_stop does_try : engine.

(** Through binds and tests. *)
Ltac does_step :=
  repeat first
    [ solve [eauto with engine nocore]
    | apply does_bind; [solve [eauto with engine]| |intros ?]
    | match goal with
      | |- does _ (if ?b then _ else _) => destruct b
      | |- does _ (match ?o with _ => _ end) => destruct o
      end ].

(** ** Questions *)

Definition query (c : DockerCommand) : Prop :=
  match c with
  | ListContainers _ | ContainerInspect _ | Now | Sleep _ => True
  | _ => False
  end.

(** A stable rule that allows questions. *)
Record asks (J : Rule) : Prop := {
  asks_stable : stable_rule J;
  asks_query u c : query c -> J u c;
}.

#[export] Hint Resolve asks_stable : engine.

Definition only_query : Rule := fun _ c => query c.

Lemma asks_only_query : asks only_query.
Proof. split; [by intros u v c _|done]. Qed.
#[export] Hint Resolve asks_only_query : engine.

Lemma asks_after J t : asks J -> asks (fun u c => J (t ++ u) c).
Proof.
  intros [Hs Hq]. split; [|auto]. intros u v c Hsub. apply Hs. set_solver.
Qed.
#[export] Hint Resolve asks_after : engine.

Section Operations.
Context {H : Sha256Api} {J : SerdeJson} {F : ManagedFs} {G : ComposeFs}.
Variable engine : Engine.
Implicit Types (c old : ServiceContainer) (s : ServicePlan) (o : Rollout).

(** A container as some inspection showed it; a container that was found gone or removed. *)
Definition observed_at (t : list Event) (id : str) c : Prop :=
  exists out log v, (ContainerInspect id, Exited true out log) ∈ t /\ from_slice out = Some v /\ parse_container v = Ok c.

Definition observed (t : list Event) c : Prop := exists id, observed_at t id c.

Definition gone (t : list Event) (id : str) : Prop :=
  (exists out log, (ContainerInspect id, Exited false out log) ∈ t /\ contains_str log (bs "No such") = true)
  \/ exists out log, (ContainerRemove id, Exited true out log) ∈ t.

Lemma observed_at_mono t u id c : t ⊆ u -> observed_at t id c -> observed_at u id c.
Proof. intros Hsub (out & log & v & Hin & Hv). exists out, log, v. split; [by apply Hsub|done]. Qed.
Lemma observed_mono t u c : t ⊆ u -> observed t c -> observed u c.
Proof. intros Hsub [id Hid]. exists id. by eapply observed_at_mono. Qed.
Lemma gone_mono t u id : t ⊆ u -> gone t id -> gone u id.
Proof. intros Hsub [(out & log & Hin & Hv)|(out & log & Hin)]; [left|right]; exists out, log; auto. Qed.

(** The trace and the value of a question. *)
Definition answers {A} (m : M A) (P : list Event -> A -> Prop) : Prop :=
  forall h, spec m h (fun t x => justified only_query t /\ forall a, x = Ok a -> P t a).

Lemma answer_does {A} (m : M A) P (K : Rule) : asks K -> answers m P -> does K m.
Proof.
  intros HK Hm h. eapply spec_impl; [apply Hm|]. intros t x [Ht _]. eapply justified_impl; [|exact Ht]. intros u c Hc. by apply HK.
Qed.

Lemma answer_bind {A B} (m : M A) (k : A -> M B) P Q :
  answers m P -> (forall a t, P t a -> answers (k a) (fun u b => Q (t ++ u) b)) -> answers (bind m k) Q.
Proof.
  intros Hm Hk h. eapply spec_bind; [apply Hm| |].
  - intros t a (Ht & Ha). eapply spec_impl; [apply Hk, Ha, eq_refl|]. intros u x (Hu & Hx).
    split; [by apply justified_app|done].
  - by intros t e (Ht & _).
Qed.

Lemma answer_ret {A} (a : A) (P : list Event -> A -> Prop) : P [] a -> answers (ret a) P.
Proof. intros HP h. apply spec_ret. split; [apply justified_nil|]. by intros ? [= <-]. Qed.

Lemma answer_lift {A} (x : result A Failure) (P : list Event -> A -> Prop) : (forall a, x = Ok a -> P [] a) -> answers (lift x) P.
Proof. intros HP h. apply spec_lift. split; [apply justified_nil|done]. Qed.

Lemma answer_stop {A} e (P : list Event -> A -> Prop) : answers (stop e) P.
Proof. intros h. apply spec_stop. split; [apply justified_nil|done]. Qed.

Lemma answer_impl {A} (m : M A) P Q : answers m P -> (forall t a, P t a -> Q t a) -> answers m Q.
Proof. intros Hm HPQ h. eapply spec_impl; [apply Hm|]. intros t x (? & ?). split; auto. Qed.

Lemma answer_ask (cmd : DockerCommand) (P : list Event -> Answer -> Prop) : query cmd -> (forall a, P [(cmd, a)] a) -> answers (ask engine cmd) P.
Proof.
  intros Hc HP h. apply spec_ask. split; [by apply justified_one|]. by intros a [= <-].
Qed.

Lemma parse_container_np v : no_panic (parse_container v).
Proof. unfold parse_container. no_panics. Qed.

Lemma inspect_answer id :
  answers (inspect_container engine id) (fun t x => match x with Some c => observed_at t id c | None => gone t id end).
Proof.
  unfold inspect_container. eapply answer_bind; [by apply (answer_ask _ (fun t a => t = [(ContainerInspect id, a)]))|].
  intros a t ->. destruct a as [|[|] out log|]; try (by apply answer_stop).
  - eapply answer_bind with (P := fun u v => u = [] /\ from_slice out = Some v).
    { apply answer_lift. intros v. destruct (from_slice out) as [w|]; [|done]. by intros [= ->]. }
    intros v u (-> & Hv). eapply answer_bind with (P := fun u c => u = [] /\ parse_container v = Ok c).
    { by apply answer_lift. }
    intros c u (-> & Hc). apply answer_ret. exists out, log, v. split_and!; [|done|done]. by left.
  - destruct (contains_str log (bs "No such")) eqn:Hlog; [|by apply answer_stop]. apply answer_ret.
    left. exists out, log. split; [by left|done].
Qed.

Lemma engine_output_answer (cmd : DockerCommand) : query cmd -> answers (engine_output engine cmd) (fun _ _ => True).
Proof.
  intros Hc. unfold engine_output. eapply answer_bind; [by apply (answer_ask _ (fun _ _ => True))|].
  intros a t _. destruct a as [|[|] out log|]; [by apply answer_stop|by apply answer_ret|by apply answer_stop..].
Qed.

Lemma inspect_all_answer ids : answers (inspect_all engine ids) (fun t l => forall c, c ∈ l -> observed t c).
Proof.
  induction ids as [|id ids IH]; cbn [inspect_all]; [apply answer_ret; by intros c ?%elem_of_nil|].
  destruct (_ || _); [by apply answer_stop|]. eapply answer_bind; [apply inspect_answer|]. intros x t Hx.
  eapply answer_bind; [apply IH|]. intros l u Hl. apply answer_ret. rewrite app_nil_r.
  assert (Hall : forall c, c ∈ l -> observed (t ++ u) c) by (intros c Hc; eapply observed_mono; [|by apply Hl]; set_solver).
  destruct x as [c|]; [|done]. intros c' [->|Hc']%elem_of_cons; [|by apply Hall]. exists id. eapply observed_at_mono; [|done]. set_solver.
Qed.

Lemma containers_answer r : answers (containers engine r) (fun t l => forall c, c ∈ l -> observed t c).
Proof.
  unfold containers, project_containers. eapply answer_bind; [by apply engine_output_answer|]. intros ids t _.
  eapply answer_bind; [apply inspect_all_answer|]. intros l u Hl. apply answer_ret. rewrite app_nil_r. intros c Hc.
  rewrite sort_by_perm in Hc. eapply observed_mono; [|by apply Hl]. set_solver.
Qed.

Ltac answer_if := match goal with |- answers (if ?b then _ else _) _ => destruct b eqn:? end; [try apply answer_stop|].

Lemma now_answer : answers (now engine) (fun _ _ => True).
Proof.
  unfold now. eapply answer_bind; [by apply (answer_ask _ (fun _ _ => True))|]. intros a t _.
  destruct a; [apply answer_stop..|by apply answer_ret].
Qed.

Lemma elapsed_answer t : answers (elapsed_since engine t) (fun _ _ => True).
Proof. unfold elapsed_since. eapply answer_bind; [apply now_answer|]. intros. by apply answer_ret. Qed.

(** What a container must be for a condition; [None] is the readiness of a deployment. *)
Definition satisfies (condition : option DependencyCondition) c : Prop :=
  match condition with
  | Some Completed => completed c = true
  | Some Started => running c = true
  | Some Healthy => running c = true /\ c_health c = bs "healthy"
  | None => healthy c = true
  end.

Lemma observe_answer condition monitor started since c :
  answers (observe_ready engine condition monitor started since c) (fun _ x => match x with inl c' => c' = c /\ satisfies condition c | inr _ => True end).
Proof.
  unfold observe_ready. case_bool_decide as Hcond.
  { subst condition. destruct (completed c) eqn:Hc; [by apply answer_ret|]. answer_if. by apply answer_ret. }
  destruct (running c && bool_decide (condition = Some Started)) eqn:Hs.
  { apply andb_true_iff in Hs as [Hr ->%bool_decide_eq_true]. by apply answer_ret. }
  answer_if.
  eapply answer_bind with (P := fun _ x => match x with inl c' => c' = c /\ satisfies condition c | inr _ => True end).
  - destruct (running c && (str_eqb (c_health c) (bs "healthy") || (bool_decide (condition = None) && bool_decide (c_health c = [])))) eqn:Hr; [|by apply answer_ret].
    eapply answer_bind with (P := fun _ _ => True); [destruct since; [by apply answer_ret|apply now_answer]|]. intros t u _.
    eapply answer_bind; [apply elapsed_answer|]. intros w v _. apply answer_ret. destruct (monitor <=? w)%Z; [|done]. split; [done|].
    apply andb_true_iff in Hr as [Hr Hor]. destruct condition as [[]|]; cbn [satisfies]; try done.
    + rewrite bool_decide_eq_false_2 in Hor by done. rewrite orb_false_r in Hor. by apply bool_decide_eq_true in Hor.
    + unfold healthy. rewrite Hr. rewrite bool_decide_eq_true_2 in Hor by done. by rewrite orb_comm.
  - intros x t Hx. destruct x as [c'|since']; [by apply answer_ret|]. answer_if.
    eapply answer_bind; [apply elapsed_answer|]. intros w u _. answer_if.
    eapply answer_bind; [apply elapsed_answer|]. intros w' u' _. answer_if. by apply answer_ret.
Qed.

(** A container that was waited for satisfies the condition, and has not restarted. *)
Definition ready_as (condition : option DependencyCondition) container (t : list Event) c : Prop :=
  observed_at t (c_id container) c /\ satisfies condition c /\ c_restart_count c = c_restart_count container /\ c_started_at c = c_started_at container.

Lemma ready_as_mono condition container t u c : t ⊆ u -> ready_as condition container t c -> ready_as condition container u c.
Proof. intros Hsub [Ho ?]. split; [by eapply observed_at_mono|done]. Qed.

Lemma poll_answer fuel container condition monitor started since :
  answers (poll engine fuel container condition monitor started since) (ready_as condition container).
Proof.
  revert since. induction fuel as [|fuel IH]; intros since; cbn [poll]; [apply answer_stop|].
  eapply answer_bind; [apply inspect_answer|]. intros [c|] t Hx; [|apply answer_stop].
  destruct (_ || _) eqn:Hsame; [apply answer_stop|]. bool_to_prop. eapply answer_bind; [apply observe_answer|].
  intros [c'|since'] u Hc; [|].
  - destruct Hc as [-> Hsat]. apply answer_ret. unfold ready_as. split_and!; [|done|lia|].
    + eapply observed_at_mono; [|done]. set_solver.
    + by apply (bool_decide_eq_true_1 _).
  - eapply answer_bind; [apply now_answer|]. intros now' v _. answer_if.
    eapply answer_bind with (P := fun _ _ => True).
    { eapply answer_bind; [by apply (answer_ask _ (fun _ _ => True))|]. intros. by apply answer_ret. }
    intros _ w _. eapply answer_impl; [apply IH|]. intros y b. apply ready_as_mono. set_solver.
Qed.

Lemma wait_ready_answer container condition monitor : answers (wait_ready engine container condition monitor) (ready_as condition container).
Proof.
  unfold wait_ready. eapply answer_bind; [apply now_answer|]. intros started t _. eapply answer_impl; [apply poll_answer|].
  intros u c. apply ready_as_mono. set_solver.
Qed.

(** ** Commands *)

Lemma run_does (K : Rule) cmd : asks K -> K [] cmd -> does K (run engine cmd).
Proof.
  intros HK Hc. unfold run, engine_output. apply does_bind; [by apply asks_stable| |intros; apply does_ret].
  apply does_bind; [by apply asks_stable|by apply does_ask|]. intros [|[|] out log|]; auto with engine.
Qed.

(** A command that succeeded is in the trace with its success. *)
Lemma run_spec cmd h :
  spec (run engine cmd) h (fun t x => (forall K : Rule, K [] cmd -> justified K t) /\ forall a, x = Ok a -> exists out log, (cmd, Exited true out log) ∈ t).
Proof.
  unfold run, engine_output. eapply spec_bind with (R := fun t x => (forall K : Rule, K [] cmd -> justified K t)
      /\ forall a, x = Ok a -> exists out log, (cmd, Exited true out log) ∈ t).
  - eapply spec_bind with (R := fun t x => t = [(cmd, engine h cmd)] /\ x = Ok (engine h cmd)); [by apply spec_ask| |by intros t e [_ [=]]].
    intros t a [-> [= ->]]. destruct (engine h cmd) as [|[|] out log|] eqn:Ha.
    2: { apply spec_ret. split; [intros K HK; by apply justified_one|]. intros _ _. exists out, log. rewrite app_nil_r. by left. }
    all: apply spec_stop; (split; [intros K HK; by apply justified_one|done]).
  - intros t a [Ht Hin]. apply spec_ret. rewrite app_nil_r. split; [done|]. intros _ _. by eapply Hin.
  - by intros t e [Ht _].
Qed.

Lemma inspect_does (K : Rule) id : asks K -> does K (inspect_container engine id).
Proof. intros HK. by eapply answer_does, inspect_answer. Qed.
Lemma containers_does (K : Rule) r : asks K -> does K (containers engine r).
Proof. intros HK. by eapply answer_does, containers_answer. Qed.
Lemma wait_ready_does (K : Rule) c condition monitor : asks K -> does K (wait_ready engine c condition monitor).
Proof. intros HK. by eapply answer_does, wait_ready_answer. Qed.
Hint Resolve run_does inspect_does containers_does wait_ready_does : engine.

Lemma stop_container_does (K : Rule) id : asks K -> K [] (ContainerStop id) -> does K (stop_container engine id).
Proof.
  intros HK Hc. unfold stop_container. apply does_bind; [by apply asks_stable|auto with engine|]. intros [c|]; [|auto with engine].
  destruct (_ || _); auto with engine.
Qed.
Hint Resolve stop_container_does : engine.

Lemma remove_container_does (K : Rule) id : asks K -> K [] (ContainerStop id) -> K [] (ContainerRemove id) -> does K (remove_container engine id).
Proof.
  intros HK Hs Hr. unfold remove_container. apply does_bind; [by apply asks_stable|auto with engine|]. intros _.
  apply does_bind; [by apply asks_stable|auto with engine|]. intros [c|]; auto with engine.
Qed.

Lemma remove_container_gone id h : spec (remove_container engine id) h (fun t x => x = Ok tt -> gone t id).
Proof.
  unfold remove_container. eapply spec_bind with (R := fun _ _ => True); [|intros t _ _|done].
  { destruct (stop_container_does (fun _ _ => True) id) with (h := h) as (t & Ht & _); [by split|done|]. by exists t. }
  eapply spec_bind; [apply inspect_answer| |done]. intros u x [_ Hx]. specialize (Hx _ eq_refl). destruct x as [c|].
  - eapply spec_impl; [apply run_spec|]. intros v y [_ Hy] ->. destruct (Hy _ eq_refl) as (out & log & Hin).
    right. exists out, log. set_solver.
  - apply spec_ret. intros _. eapply gone_mono; [|exact Hx]. set_solver.
Qed.

Lemma create_container_does (K : Rule) r model g : asks K -> K [] (ComposeCreate (escape_interpolation model) g) -> does K (create_container engine r model g).
Proof.
  intros HK Hc. unfold create_container. apply does_bind; [by apply asks_stable|auto with engine|]. intros _.
  apply does_bind; [by apply asks_stable|auto with engine|]. intros l. destruct (find_first _ _); auto with engine.
Qed.

Lemma create_container_observed r model g h : spec (create_container engine r model g) h (fun t x => forall c, x = Ok c -> observed t c /\ c_generation c = g).
Proof.
  unfold create_container. eapply spec_bind with (R := fun _ _ => True); [|intros t _ _|done].
  { destruct (run_spec (ComposeCreate (escape_interpolation model) g) h) as (t & Ht & _). by exists t. }
  eapply spec_bind; [apply containers_answer| |done]. intros u l [_ Hl]. specialize (Hl _ eq_refl).
  destruct (find_first _ l) as [c|] eqn:Hf; [|by apply spec_stop]. apply find_first_Some in Hf as [Hg Hin].
  apply spec_ret. intros c' [= <-]. split; [|by apply (bool_decide_eq_true_1 _) in Hg].
  eapply observed_mono; [|by apply Hl]. set_solver.
Qed.

(** ** Applying a rollout *)

Definition planned_slot o s (slot : Z) : Prop := s ∈ plan_services (ro_plan o) /\ (0 <= slot < sp_replicas s)%Z.

(** What a candidate of a slot displaces: another container of that slot, or one of a service
    that the project has no more and that writes to a volume of the candidate. *)
Definition displaced o s (slot : Z) (candidate old : ServiceContainer) : Prop :=
  c_id old <> c_id candidate
  /\ ((c_service old = sp_name s /\ c_slot old = slot)
      \/ ((forall p, p ∈ plan_services (ro_plan o) -> sp_name p <> c_service old)
          /\ exists v, v ∈ c_writable_volumes candidate /\ v ∈ c_writable_volumes old)).

Lemma must_stop_displaced o s slot candidate old :
  must_stop (ro_plan o) s slot candidate old = true -> displaced o s slot candidate old.
Proof.
  unfold must_stop, displaced, disjoint_names, any. intros [Hid Hwhy]%andb_true_iff.
  split; [by apply negb_true_iff, (bool_decide_eq_false_1 _) in Hid|].
  apply orb_true_iff in Hwhy as [[Hs Hslot]%andb_true_iff|[Hrem Hvol]%andb_true_iff]; [left|right].
  - apply (bool_decide_eq_true_1 _) in Hs. by apply Z.eqb_eq in Hslot.
  - rewrite negb_involutive in Hvol. apply existsb_exists in Hvol as (v & Hv & Hin%(bool_decide_eq_true_1 _)). split.
    + intros p Hp Heq. apply negb_true_iff in Hrem. assert (existsb (fun p => str_eqb (sp_name p) (c_service old)) (plan_services (ro_plan o)) = true) as E;
        [|congruence]. apply existsb_exists. exists p. split; [by apply list_elem_of_In|]. by apply (bool_decide_eq_true_2 _).
    + exists v. split; [by apply list_elem_of_In|done].
Qed.

(** The container that takes a slot: the one that carries its service, slot and fingerprint,
    or the one that was created under the slot's generation. *)
Definition takes s (slot : Z) (c : ServiceContainer) : Prop :=
  (c_service c = sp_name s /\ c_slot c = slot /\ c_fingerprint c = sp_fingerprint s)
  \/ c_generation c = generation s slot.

(** What an update may ask for: containers of planned slots are created and started from the
    plan's model, a container is started under its own generation and only if it takes the
    slot and does not run, and a container is stopped only if a stop-first replacement
    displaces it that takes the slot, exists already and does not serve. *)
Definition apply_rule o : Rule := fun u cmd =>
  match cmd with
  | ComposeCreate m g => exists s slot model, planned_slot o s slot /\ container_model (ro_plan o) s slot (ro_runtime o) = Some model
                           /\ m = escape_interpolation model /\ g = generation s slot
  | ComposeStart m g => exists s slot model candidate, planned_slot o s slot /\ container_model (ro_plan o) s slot (ro_runtime o) = Some model
                          /\ m = escape_interpolation model /\ observed u candidate /\ takes s slot candidate
                          /\ g = c_generation candidate /\ running candidate = false
  | ContainerStop id => exists s slot candidate old, planned_slot o s slot /\ sp_order s = StopFirst
                          /\ observed u candidate /\ takes s slot candidate /\ healthy candidate = false /\ observed u old /\ id = c_id old
                          /\ displaced o s slot candidate old
  | _ => query cmd
  end.

Lemma apply_rule_asks o : asks (apply_rule o).
Proof.
  split.
  - intros u v cmd Hsub. destruct cmd; cbn [apply_rule]; auto.
    + intros (s & slot & candidate & old & ? & ? & ? & ? & ? & ? & ? & ?). exists s, slot, candidate, old.
      split_and!; try done; by eapply observed_mono.
    + intros (s & slot & m & candidate & ? & ? & ? & ? & ? & ? & ?). exists s, slot, m, candidate.
      split_and!; try done; by eapply observed_mono.
  - intros u cmd. by destruct cmd.
Qed.
Hint Resolve apply_rule_asks : engine.

(** After the trace [p], commands are justified by all of it, and the value by all of it. *)
Definition under {A} (K : Rule) (p : list Event) (m : M A) (h : list Event) (P : list Event -> A -> Prop) : Prop :=
  spec m h (fun t x => justified K (p ++ t) /\ forall a, x = Ok a -> P (p ++ t) a).

Lemma under_bind {A B} K p (m : M A) (k : A -> M B) h P Q :
  under K p m h P ->
  (forall t a, justified K (p ++ t) -> P (p ++ t) a -> under K (p ++ t) (k a) (h ++ t) Q) ->
  under K p (bind m k) h Q.
Proof.
  intros Hm Hk. eapply spec_bind; [exact Hm| |].
  - intros t a [Ht Ha]. eapply spec_impl; [by apply Hk, Ha|]. cbn. intros u x. by rewrite <- app_assoc.
  - by intros t e [Ht _].
Qed.

Lemma under_ret {A} K p (a : A) h P : justified K p -> P p a -> under K p (ret a) h P.
Proof. intros Hp HP. apply spec_ret. rewrite app_nil_r. split; [done|]. by intros ? [= <-]. Qed.

Lemma under_stop {A} K p e h (P : list Event -> A -> Prop) : justified K p -> under K p (stop e) h P.
Proof. intros Hp. apply spec_stop. by rewrite app_nil_r. Qed.

Lemma under_lift {A} K p (x : result A Failure) h P : justified K p -> (forall a, x = Ok a -> P p a) -> under K p (lift x) h P.
Proof. intros Hp HP. apply spec_lift. by rewrite app_nil_r. Qed.

Lemma under_does {A} (K : Rule) p (m : M A) h R P :
  justified K p -> does (fun u cmd => K (p ++ u) cmd) m -> spec m h (fun t x => forall a, x = Ok a -> R t a) ->
  (forall t a, R t a -> P (p ++ t) a) -> under K p m h P.
Proof.
  intros Hp Hd Hs HP. eapply spec_impl; [apply spec_and; [apply Hd|exact Hs]|]. cbn. intros t x [Ht Hx].
  split; [by apply justified_app|]. intros a Ha. by apply HP, Hx.
Qed.

Lemma under_answer {A} (K : Rule) p (m : M A) h R P :
  asks K -> justified K p -> answers m R -> (forall t a, R t a -> P (p ++ t) a) -> under K p m h P.
Proof.
  intros HK Hp Hm HP. eapply under_does; [done|by eapply answer_does; [apply asks_after|]| |done].
  eapply spec_impl; [apply Hm|]. by intros t x [_ Hx].
Qed.

Lemma under_any {A} (K : Rule) p (m : M A) h : justified K p -> does (fun u cmd => K (p ++ u) cmd) m -> under K p m h (fun _ _ => True).
Proof. intros Hp Hd. eapply under_does with (R := fun _ _ => True); [done|done| |done]. eapply spec_impl; [apply Hd|done]. Qed.

Lemma under_impl {A} K p (m : M A) h (P Q : list Event -> A -> Prop) : under K p m h P -> (forall t a, P (p ++ t) a -> Q (p ++ t) a) -> under K p m h Q.
Proof. intros Hm HPQ. eapply spec_impl; [exact Hm|]. intros t x [Ht Hx]. split; [done|]. intros a Ha. by apply HPQ, Hx. Qed.

Lemma apply_slot_spec o s slot p h :
  planned_slot o s slot -> justified (apply_rule o) p -> under (apply_rule o) p (apply_slot engine o s slot) h observed.
Proof.
  intros Hslot Hp. unfold apply_slot. pose proof (apply_rule_asks o) as HA.
  eapply under_bind with (P := fun t l => forall c, c ∈ l -> observed t c).
  { eapply under_answer; [done|done|apply containers_answer|]. intros t l Hl c Hc. eapply observed_mono; [|by apply Hl]. set_solver. }
  intros t0 existing J0 Hex. eapply under_bind with (P := fun t c => observed t c /\ takes s slot c /\ forall old, old ∈ existing -> observed t old).
  { destruct (find_first _ existing) as [c|] eqn:Hf.
    - apply find_first_Some in Hf as [Hm Hin]. apply under_ret; [done|]. split_and!; [by apply Hex| |done].
      left. apply andb_true_iff in Hm as [[Hs%(bool_decide_eq_true_1 _) Hsl%Z.eqb_eq]%andb_true_iff Hfp%(bool_decide_eq_true_1 _)]. done.
    - destruct (container_model _ _ _ _) as [model|] eqn:Hm; [|by apply under_stop].
      eapply under_bind with (P := fun t m => m = model /\ forall old, old ∈ existing -> observed t old).
      { apply under_lift; [done|]. by intros a [= <-]. }
      intros t1 m J1 [-> Hex1]. eapply under_does; [done| |apply create_container_observed|].
      + apply create_container_does; [by apply asks_after|]. by exists s, slot, model.
      + intros t c [Hc Hg]. split_and!; [eapply observed_mono; [|done]; set_solver|by right|]. intros old Hold. eapply observed_mono; [|by apply Hex1]. set_solver. }
  intros t1 candidate J1 (Hcand & Htakes & Hex1). eapply under_bind with (P := fun t _ => observed t candidate).
  { eapply under_impl; [apply under_any; [done|]|intros t _ _; eapply observed_mono; [|exact Hcand]; set_solver].
    destruct (bool_decide (sp_order s = StopFirst) && negb (healthy candidate) && negb (done_job s candidate)) eqn:Hstop; [|apply does_ret].
    bool_to_prop. apply does_each; [by apply asks_after|]. intros old Hold. destruct (must_stop _ _ _ _ _) eqn:Hm; [|apply does_ret].
    apply stop_container_does; [by apply asks_after|]. rewrite app_nil_r. exists s, slot, candidate, old.
    split_and!; try done; [by apply Hex1|by apply must_stop_displaced]. }
  intros t2 _ J2 Hcand2. cbn beta in Hcand2. eapply under_bind with (P := fun _ _ => True).
  { destruct (running candidate || done_job s candidate) eqn:Hrun; [by apply under_ret|].
    apply orb_false_iff in Hrun as [Hrun _]. destruct (container_model _ _ _ _) as [model|] eqn:Hm; [|by apply under_stop].
    eapply under_bind with (P := fun _ m => m = model); [apply under_lift; [done|]; by intros a [= <-]|].
    intros t3 m J3 ->. apply under_any; [done|]. apply run_does; [by apply asks_after|]. exists s, slot, model, candidate.
    split_and!; try done. eapply observed_mono; [|exact Hcand2]. set_solver. }
  intros t3 _ J3 _. eapply under_bind with (P := fun t x => forall c, x = Some c -> observed t c).
  { eapply under_answer; [done|done|apply inspect_answer|]. intros t x Hx c ->. eexists. eapply observed_at_mono; [|exact Hx]. set_solver. }
  intros t4 x J4 Hx. apply under_lift; [done|]. intros c. destruct x as [c'|]; [|done]. intros [= <-]. by apply Hx.
Qed.

Lemma apply_slots_spec o s slots selected p h :
  (forall slot, slot ∈ slots -> planned_slot o s slot) -> justified (apply_rule o) p -> (forall c, c ∈ selected -> observed p c) ->
  under (apply_rule o) p (apply_slots engine o s slots selected) h
    (fun t l => (forall c, c ∈ l -> observed t c) /\ length l = length selected + length slots).
Proof.
  revert selected p h. induction slots as [|slot slots IH]; intros selected p h Hslots Hp Hsel; cbn [apply_slots]; [apply under_ret; [done|by rewrite Nat.add_0_r]|].
  eapply under_bind; [apply apply_slot_spec; [apply Hslots; left|done]|]. intros t c Ht Hc.
  eapply under_impl; [apply IH; [intros x Hx; apply Hslots; by right|done|]|].
  - intros c' [Hc'| ->%list_elem_of_singleton]%elem_of_app; [|done].
    eapply observed_mono; [|by apply Hsel]. set_solver.
  - intros u l [Hl Hlen]. split; [done|]. rewrite Hlen, length_app. simpl. lia.
Qed.

Lemma await_dependencies_does (K : Rule) s selected : asks K -> does K (await_dependencies engine s selected).
Proof.
  intros HK. unfold await_dependencies. apply does_each; [by apply asks_stable|]. intros dc _.
  apply does_each; [by apply asks_stable|]. intros c _. apply does_bind; [by apply asks_stable|auto with engine|]. intros. apply does_ret.
Qed.

(** How many slots the services have together. *)
Definition slots_of (services : list ServicePlan) : nat :=
  sum_list ((fun s => Z.to_nat (sp_replicas s)) <$> services).

Lemma apply_services_spec o services selected p h :
  services ⊆ plan_services (ro_plan o) -> justified (apply_rule o) p -> (forall c, c ∈ selected -> observed p c) ->
  under (apply_rule o) p (apply_services engine o services selected) h
    (fun t l => (forall c, c ∈ l -> observed t c) /\ length l = length selected + slots_of services).
Proof.
  revert selected p h. induction services as [|s services IH]; intros selected p h Hsub Hp Hsel; cbn [apply_services]; [apply under_ret; [done|by rewrite Nat.add_0_r]|].
  eapply under_bind; [apply under_any; [done|]; apply await_dependencies_does, asks_after, apply_rule_asks|]. intros t _ Ht _.
  eapply under_bind; [apply apply_slots_spec; [|done|]|].
  - intros slot Hslot%elem_of_seqZ. split; [apply Hsub; left|lia].
  - intros c Hc. eapply observed_mono; [|by apply Hsel]. set_solver.
  - intros u l Hu [Hl Hlen]. eapply under_impl; [apply IH; [set_solver|done|done]|].
    intros v l' [Hl' Hlen']. split; [done|]. rewrite Hlen', Hlen, length_seqZ. unfold slots_of. simpl. rewrite Nat.add_assoc. done.
Qed.

(** A selected container is ready for the deployment: a job completed, or healthy. *)
Definition deployed o (t : list Event) c : Prop :=
  exists s container, s ∈ plan_services (ro_plan o) /\ sp_name s = c_service container
    /\ ready_as (if sp_completed s then Some Completed else None) container t c.

Lemma await_selected_answer o container : answers (await_selected engine o container) (deployed o).
Proof.
  unfold await_selected. eapply answer_bind with (P := fun _ s => s ∈ plan_services (ro_plan o) /\ sp_name s = c_service container).
  { apply answer_lift. intros s. destruct (find_first _ _) as [s'|] eqn:Hf; [|done]. intros [= ->].
    apply find_first_Some in Hf as [Hn Hin]. split; [done|]. by apply (bool_decide_eq_true_1 _) in Hn. }
  intros s t [Hin Hn]. eapply answer_impl; [apply wait_ready_answer|]. intros u c Hc. exists s, container.
  split_and!; [done|done|]. eapply ready_as_mono; [|exact Hc]. set_solver.
Qed.

Lemma deployed_mono o t u c : t ⊆ u -> deployed o t c -> deployed o u c.
Proof. intros Hsub (s & container & ? & ? & ?). exists s, container. split_and!; [done|done|by eapply ready_as_mono]. Qed.

(** Once every index was awaited, all are deployed. *)
Lemma await_all_spec (K : Rule) o order selected p h :
  asks K -> justified K p -> (forall i c, i ∉ order -> selected !! i = Some c -> deployed o p c) ->
  under K p (await_all engine o order selected) h (fun t l => length l = length selected /\ forall c, c ∈ l -> deployed o t c).
Proof.
  intros HK. revert selected p h. induction order as [|i order IH]; intros selected p h Hp Hsel; cbn [await_all].
  { apply under_ret; [done|]. split; [done|]. intros c [i Hi]%list_elem_of_lookup. apply (Hsel i); [apply not_elem_of_nil|done]. }
  eapply under_bind with (P := fun _ _ => True); [by apply under_lift|]. intros t c Ht _.
  eapply under_bind; [eapply under_answer; [done|done|apply await_selected_answer|]|].
  { intros u c' Hc'. eapply deployed_mono; [|exact Hc']. set_solver. }
  intros u c' Hu Hc'. cbn beta in Hc'. eapply under_impl; [apply IH; [done|]|].
  - intros j cj Hj Hl. destruct (decide (j = i)) as [->|Hne].
    + apply list_lookup_insert_Some in Hl as [(_ & <- & _)|[? _]]; [exact Hc'|done].
    + rewrite list_lookup_insert_ne in Hl by done. eapply deployed_mono; [|by eapply (Hsel j); [set_solver|]]. set_solver.
  - intros v l [Hlen Hl]. by rewrite length_insert in Hlen.
Qed.

Lemma apply_spec schedule o h :
  (forall n i, i < n -> i ∈ schedule n) ->
  spec (apply engine schedule o) h (fun t x => justified (apply_rule o) t
    /\ forall o', x = Ok o' -> ro_runtime o' = ro_runtime o /\ ro_plan o' = ro_plan o /\ ro_before o' = ro_before o
                               /\ (forall c, c ∈ ro_selected o' -> deployed o t c)
                               /\ length (ro_selected o') = slots_of (plan_services (ro_plan o))
                               /\ exists c, c ∈ ro_selected o' /\ c_service c = cc_service (cr_config (ro_runtime o))).
Proof.
  intros Hsched. change (under (apply_rule o) [] (apply engine schedule o) h (fun t o' => ro_runtime o' = ro_runtime o /\ ro_plan o' = ro_plan o /\ ro_before o' = ro_before o
      /\ (forall c, c ∈ ro_selected o' -> deployed o t c) /\ length (ro_selected o') = slots_of (plan_services (ro_plan o))
      /\ exists c, c ∈ ro_selected o' /\ c_service c = cc_service (cr_config (ro_runtime o)))).
  unfold apply. destruct (negb _); [apply under_stop, justified_nil|].
  eapply under_bind; [apply apply_services_spec; [done|apply justified_nil|by intros c ?%elem_of_nil]|]. intros t selected Ht [_ Hsel]. simpl in Hsel.
  eapply under_bind; [apply await_all_spec; [apply apply_rule_asks|done|]|].
  { intros i c Hi Hl. exfalso. apply lookup_lt_Some in Hl. by apply Hi, Hsched. }
  intros u l Hu [Hlen Hl]. eapply under_bind with (P := fun _ c => c ∈ l /\ c_service c = cc_service (cr_config (ro_runtime o))).
  { apply under_lift; [done|]. intros c. unfold ingress. cbn [ro_selected ro_runtime]. destruct (find_first _ l) as [c'|] eqn:Hf; [|done].
    intros [= <-]. apply find_first_Some in Hf as [Hi Hin]. split; [done|]. by apply is_ingress_spec. }
  intros v c Hv Hc. apply under_ret; [done|]. cbn [ro_runtime ro_plan ro_before ro_selected]. split_and!; [done..| |congruence|by exists c].
  intros c' Hc'. eapply deployed_mono; [|by apply Hl]. set_solver.
Qed.

(** ** Rolling back *)

Definition known o (id : str) : Prop := exists old, old ∈ ro_before o /\ c_id old = id.

(** The dependencies a predecessor declares were seen in the state it asks for. *)
Definition dependencies_ready o (u : list Event) old : Prop :=
  forall d condition, c_dependencies old !! d = Some condition ->
    (exists dep, dep ∈ ro_before o /\ c_service dep = d /\ was_up dep || completed dep = true)
    /\ forall dep, dep ∈ ro_before o -> c_service dep = d -> was_up dep || completed dep = true ->
         exists container c, observed_at u (c_id dep) container /\ ready_as (Some condition) container u c.

(** What a rollback may ask for: only containers of the attempt are removed; a predecessor is
    stopped only if it was down before, and started only if it was up, when nothing of the
    attempt is left and what it depends on is ready. *)
Definition rollback_rule o (current : list ServiceContainer) : Rule := fun u cmd =>
  match cmd with
  | ContainerRemove id => ~ known o id
  | ContainerStop id => ~ known o id \/ exists old, old ∈ ro_before o /\ c_id old = id /\ was_up old = false
  | ContainerStart id => (exists old, old ∈ ro_before o /\ c_id old = id /\ was_up old = true /\ dependencies_ready o u old)
                         /\ forall c, c ∈ current -> ~ known o (c_id c) -> gone u (c_id c)
  | _ => query cmd
  end.

Lemma dependencies_ready_mono o u v old : u ⊆ v -> dependencies_ready o u old -> dependencies_ready o v old.
Proof.
  intros Hsub Hd d condition Hc. destruct (Hd d condition Hc) as [He Ha]. split; [done|]. intros dep Hin Hs Hup.
  destruct (Ha dep Hin Hs Hup) as (container & c & Ho & Hr). exists container, c. split; [by eapply observed_at_mono|by eapply ready_as_mono].
Qed.

Lemma rollback_rule_asks o current : asks (rollback_rule o current).
Proof.
  split; [|intros u cmd; by destruct cmd]. intros u v cmd Hsub. destruct cmd; cbn [rollback_rule]; auto.
  intros [(old & ? & ? & ? & ?) Hg]. split.
  - exists old. split_and!; [done..|]. by eapply dependencies_ready_mono.
  - intros c Hc Hk. eapply gone_mono; [done|]. by apply Hg.
Qed.

Lemma any_known o id : any (fun old => str_eqb (c_id old) id) (ro_before o) = true <-> known o id.
Proof.
  unfold any, known. rewrite existsb_exists. setoid_rewrite list_elem_of_In. unfold str_eqb.
  split; intros (old & Hin & Hid); exists old; (split; [done|]); by apply (bool_decide_eq_true (_ = _)).
Qed.

(** Undoing removes what is not known. *)
Lemma undo_spec o current c p h :
  justified (rollback_rule o current) p ->
  under (rollback_rule o current) p (undo engine o c) h (fun t _ => ~ known o (c_id c) -> gone t (c_id c)).
Proof.
  intros Hp. pose proof (asks_after _ p (rollback_rule_asks o current)) as HA. unfold undo.
  destruct (any (fun old => str_eqb (c_id old) (c_id c)) (ro_before o)) eqn:Hany; cbn [negb].
  - apply any_known in Hany. eapply under_impl with (P := fun _ _ => True); [|done]. apply under_any; [done|].
    destruct (any _ _) eqn:Hdown; [|apply does_ret]. apply stop_container_does; [done|]. right.
    unfold any in Hdown. apply existsb_exists in Hdown as (old & Hin%list_elem_of_In & Hold). bool_to_prop. exists old.
    split_and!; [done|by apply (bool_decide_eq_true_1 _)|done].
  - assert (Hk : ~ known o (c_id c)) by (intros Hk%any_known; congruence).
    eapply under_does with (R := fun t _ => gone t (c_id c)); [done|by apply remove_container_does; [|left|]| |].
    + eapply spec_impl; [apply remove_container_gone|]. intros t x Hx a ->. destruct a. exact (Hx eq_refl).
    + cbn. intros t a Hg _. eapply gone_mono; [|exact Hg]. set_solver.
Qed.

(** Without errors, every step succeeded. *)
Lemma collect_spec {A} (K : Rule) (f : A -> M unit) (P : list Event -> A -> Prop) l errors p h :
  (forall t u x, t ⊆ u -> P t x -> P u x) ->
  (forall x p h, x ∈ l -> justified K p -> under K p (f x) h (fun t _ => P t x)) ->
  justified K p ->
  under K p (collect_errors f l errors) h (fun t errors' => errors' = [] -> errors = [] /\ forall x, x ∈ l -> P t x).
Proof.
  intros Hmono. revert errors p h. induction l as [|x l IH]; intros errors p h Hf Hp; cbn [collect_errors].
  { apply under_ret; [done|]. intros ->. split; [done|]. by intros x ?%elem_of_nil. }
  eapply under_bind with (P := fun t y => y = Ok tt -> P t x).
  { eapply spec_try; [apply (Hf x p h); [left|done]| |].
    - cbn. intros t y [Ht Hy] Hne. split; [done|]. intros a [= <-] ->. exact (Hy _ eq_refl).
    - cbn. intros t [Ht _]. by split. }
  intros t y Ht Hy. eapply under_impl; [apply IH; [intros z q h' Hz; apply Hf; by right|done]|].
  cbn. intros u errors' He ->. destruct (He eq_refl) as [Hnil Hall]. apply app_nil in Hnil as [-> Hnil].
  split; [done|]. intros z [->|Hz]%elem_of_cons; [|by apply Hall]. destruct y as [[]|]; [|done]. eapply Hmono; [|by apply Hy]. set_solver.
Qed.

Lemma take_ready_perm remaining before after old rest :
  take_ready remaining before after = Some (old, rest) -> before ++ after ≡ₚ old :: rest.
Proof.
  revert before. induction after as [|c after IH]; intros before; cbn [take_ready]; [done|].
  destruct (any _ _); [|intros [= <- <-]; by rewrite Permutation_middle]. intros Hr. apply IH in Hr. by rewrite <- app_assoc in Hr.
Qed.

Lemma each_spec {A} (K : Rule) (f : A -> M unit) (P : list Event -> A -> Prop) l p h :
  (forall t u x, t ⊆ u -> P t x -> P u x) ->
  (forall x p h, x ∈ l -> justified K p -> under K p (f x) h (fun t _ => P t x)) ->
  justified K p -> under K p (each f l) h (fun t _ => forall x, x ∈ l -> P t x).
Proof.
  intros Hmono. revert p h. induction l as [|x l IH]; intros p h Hf Hp; cbn [each]; [apply under_ret; [done|]; by intros x ?%elem_of_nil|].
  eapply under_bind; [apply (Hf x); [left|done]|]. intros t [] Ht Hx. cbn beta in Hx.
  eapply under_impl; [apply IH; [intros z q h' Hz; apply Hf; by right|done]|]. cbn. intros u _ Hall z [->|Hz]%elem_of_cons; [|by apply Hall].
  eapply Hmono; [|exact Hx]. set_solver.
Qed.

Definition seen_ready (condition : DependencyCondition) (t : list Event) dep : Prop :=
  exists container c, observed_at t (c_id dep) container /\ ready_as (Some condition) container t c.

Lemma seen_ready_mono condition t u dep : t ⊆ u -> seen_ready condition t dep -> seen_ready condition u dep.
Proof. intros Hsub (container & c & Ho & Hr). exists container, c. split; [by eapply observed_at_mono|by eapply ready_as_mono]. Qed.

Definition restarted (t : list Event) old : Prop := exists out log, (ContainerStart (c_id old), Exited true out log) ∈ t.

Lemma await_previous_spec o current old p h :
  justified (rollback_rule o current) p ->
  under (rollback_rule o current) p (await_previous engine o old) h (fun t _ => dependencies_ready o t old).
Proof.
  intros Hp. pose proof (rollback_rule_asks o current) as HA. unfold await_previous.
  eapply under_impl; [apply each_spec with (P := fun t (dc : str * DependencyCondition) =>
    (exists dep, dep ∈ ro_before o /\ c_service dep = dc.1 /\ was_up dep || completed dep = true)
    /\ forall dep, dep ∈ ro_before o -> c_service dep = dc.1 -> was_up dep || completed dep = true -> seen_ready dc.2 t dep); [| |done]|].
  - intros t u dc Hsub [He Ha]. split; [done|]. intros dep ? ? ?. eapply seen_ready_mono; [done|]. by apply Ha.
  - intros [d condition] q h' _ Hq. cbn [fst snd]. set (deps := retain _ _).
    assert (Hdeps : forall dep, dep ∈ deps <-> dep ∈ ro_before o /\ c_service dep = d /\ was_up dep || completed dep = true).
    { intros dep. unfold deps. rewrite elem_of_retain, andb_true_iff. unfold str_eqb. rewrite bool_decide_eq_true. naive_solver. }
    case_bool_decide as Hnil; [by apply under_stop|].
    eapply under_impl; [apply each_spec with (P := seen_ready condition); [apply seen_ready_mono| |done]|].
    + intros dep q' h'' _ Hq'. eapply under_bind with (P := fun t x => forall c, x = Some c -> observed_at t (c_id dep) c).
      { eapply under_answer; [done|done|apply inspect_answer|]. intros t x Hx' c' ->. eapply observed_at_mono; [|exact Hx']. set_solver. }
      intros t2 x J2 Hx2. destruct x as [cd|]; [|by apply under_stop].
      eapply under_bind with (P := fun t c => observed_at t (c_id dep) c); [apply under_lift; [done|]; intros c' [= <-]; by apply Hx2|].
      intros t3 cd' J3 Hcd. cbn beta in Hcd. eapply under_bind.
      { eapply under_answer; [done|done|apply wait_ready_answer|]. intros t c' Hc'. eapply ready_as_mono; [|exact Hc']. set_solver. }
      intros t4 c' J4 Hc'. cbn beta in Hc'. apply under_ret; [done|]. exists cd', c'. split; [|done]. eapply observed_at_mono; [|exact Hcd]. set_solver.
    + cbn. intros t _ Hall. split.
      * destruct deps as [|dep deps'] eqn:Hd; [done|]. exists dep. apply Hdeps. by left.
      * intros dep ? ? ?. by apply Hall, Hdeps.
  - cbn. intros t _ Hall d condition Hd. apply (Hall (d, condition)). by apply elem_of_btree.
Qed.

(** A predecessor is seen running, or was started. *)
Lemma restore_predecessor_spec o current old p h :
  old ∈ ro_before o -> was_up old = true -> (forall c, c ∈ current -> ~ known o (c_id c) -> gone p (c_id c)) ->
  justified (rollback_rule o current) p ->
  under (rollback_rule o current) p (restore_predecessor engine o old) h
    (fun t x => match x with
                | None => exists c, observed_at t (c_id old) c /\ running c = true
                | Some c => restarted t old /\ observed_at t (c_id old) c
                end).
Proof.
  intros Hold Hup Hgone Hp. pose proof (rollback_rule_asks o current) as HA. unfold restore_predecessor.
  eapply under_bind with (P := fun t x => forall c, x = Some c -> observed_at t (c_id old) c).
  { eapply under_answer; [done|done|apply inspect_answer|]. intros t x Hx c ->. eapply observed_at_mono; [|exact Hx]. set_solver. }
  intros t0 x J0 Hx. destruct x as [now'|]; [|by apply under_stop].
  eapply under_bind with (P := fun t c => observed_at t (c_id old) c); [apply under_lift; [done|]; intros c [= <-]; by apply Hx|].
  intros t1 c J1 Hc. cbn beta in Hc. destruct (running c) eqn:Hr; [apply under_ret; [done|]; by exists c|].
  eapply under_bind with (P := fun t _ => dependencies_ready o t old); [by apply await_previous_spec|].
  intros t2 _ J2 Hdep. eapply under_bind with (P := fun t _ => restarted t old).
  { eapply under_does with (R := fun t _ => restarted t old); [done| | |].
    - apply run_does; [by apply asks_after|]. rewrite app_nil_r. split; [by exists old|]. intros c' Hc' Hk. eapply gone_mono; [|by apply Hgone]. set_solver.
    - eapply spec_impl; [apply run_spec|]. intros t y [_ Hy] a ->. by eapply Hy.
    - cbn. intros t _ (out & log & Hin). exists out, log. set_solver. }
  intros t3 _ J3 Hstart. eapply under_bind with (P := fun t x => restarted t old /\ forall c, x = Some c -> observed_at t (c_id old) c).
  { eapply under_answer; [done|done|apply inspect_answer|]. intros t x Hx'. split.
    - destruct Hstart as (out & log & Hin). exists out, log. set_solver.
    - intros c' ->. eapply observed_at_mono; [|exact Hx']. set_solver. }
  intros t4 x J4 [Hs4 Hx4]. destruct x as [c4|]; [|by apply under_stop].
  eapply under_bind with (P := fun t c => restarted t old /\ observed_at t (c_id old) c); [apply under_lift; [done|]; intros c' [= <-]; auto|].
  intros t5 c5 J5 H5. by apply under_ret.
Qed.

(** A predecessor that was up is up again. *)
Definition restored_in (restored : list ServiceContainer) (t : list Event) old : Prop :=
  (exists c, observed_at t (c_id old) c /\ running c = true)
  \/ (restarted t old /\ exists c, c ∈ restored /\ observed_at t (c_id old) c).

Lemma restored_in_mono restored restored' t u old :
  restored ⊆ restored' -> t ⊆ u -> restored_in restored t old -> restored_in restored' u old.
Proof.
  intros Hr Hsub [(c & Ho & ?)|((out & log & Hs) & c & Hc & Ho)]; [left|right].
  - exists c. split; [by eapply observed_at_mono|done].
  - split; [exists out, log; auto|]. exists c. split; [auto|by eapply observed_at_mono].
Qed.

Lemma restore_all_spec o current fuel remaining restored errors p h :
  length remaining = fuel -> (forall old, old ∈ remaining -> old ∈ ro_before o /\ was_up old = true) ->
  (forall c, c ∈ current -> ~ known o (c_id c) -> gone p (c_id c)) -> justified (rollback_rule o current) p ->
  under (rollback_rule o current) p (restore_all engine o fuel remaining restored errors) h
    (fun t x => restored ⊆ x.1 /\ (x.2 = [] -> errors = [] /\ forall old, old ∈ remaining -> restored_in x.1 t old)).
Proof.
  revert remaining restored errors p h. induction fuel as [|fuel IH]; intros remaining restored errors p h Hlen Hrem Hgone Hp; cbn [restore_all].
  { apply under_ret; [done|]. apply nil_length_inv in Hlen as ->. cbn [fst snd]. split; [done|]. intros ->. split; [done|]. by intros old ?%elem_of_nil. }
  destruct (take_ready remaining [] remaining) as [[old rest]|] eqn:Ht.
  2: { apply under_ret; [done|]. split; [done|]. cbn [snd]. intros Hnil. by destruct errors. }
  apply take_ready_perm in Ht. cbn [app] in Ht. assert (Hold : old ∈ remaining) by (rewrite Ht; left).
  destruct (Hrem old Hold) as [Hin Hup].
  eapply under_bind with (P := fun t y => forall x, y = Ok x -> match x with
                | None => exists c, observed_at t (c_id old) c /\ running c = true
                | Some c => restarted t old /\ observed_at t (c_id old) c
                end).
  { eapply spec_try; [by apply (restore_predecessor_spec o current old p h)| |].
    - cbn. intros t y [Hj Hy] _. split; [done|]. by intros a [= <-].
    - cbn. intros t [Hj _]. by split. }
  intros t y Hj Hy.
  assert (Hnext : forall restored' errors', under (rollback_rule o current) (p ++ t) (restore_all engine o fuel rest restored' errors') (h ++ t)
            (fun t x => restored' ⊆ x.1 /\ (x.2 = [] -> errors' = [] /\ forall old, old ∈ rest -> restored_in x.1 t old))).
  { intros restored' errors'. apply IH; [| | |done].
    - apply Permutation_length in Ht. cbn in Ht. lia.
    - intros c Hc. apply Hrem. rewrite Ht. by right.
    - intros c Hc Hk. eapply gone_mono; [|by apply Hgone]. clear. set_solver. }
  assert (Hall : forall u x, (forall c, c ∈ rest -> restored_in x u c) -> restored_in x u old -> forall c, c ∈ remaining -> restored_in x u c).
  { intros u x Hr Ho c Hc. rewrite Ht in Hc. apply elem_of_cons in Hc as [->|Hc]; auto. }
  destruct y as [[c|]|e].
  - eapply under_impl; [apply Hnext|]. intros u x [Hsub Hx]. split; [clear -Hsub; set_solver|]. intros He. destruct (Hx He) as [-> Hr]. split; [done|].
    apply Hall; [done|]. destruct (Hy _ eq_refl) as [(out & log & Hs) Ho]. right. split; [exists out, log; clear -Hs; set_solver|].
    exists c. split; [clear -Hsub; set_solver|]. eapply observed_at_mono; [|exact Ho]. clear. set_solver.
  - eapply under_impl; [apply Hnext|]. intros u x [Hsub Hx]. split; [done|]. intros He. destruct (Hx He) as [-> Hr]. split; [done|].
    apply Hall; [done|]. destruct (Hy _ eq_refl) as (c & Ho & Hrun). left. exists c. split; [|done]. eapply observed_at_mono; [|exact Ho]. clear. set_solver.
  - eapply under_impl; [apply Hnext|]. intros u x [Hsub Hx]. split; [done|]. intros He. destruct (Hx He) as [Hnil _]. by destruct errors.
Qed.

Definition brought_back (t : list Event) old : Prop :=
  (exists c, observed_at t (c_id old) c /\ running c = true)
  \/ (restarted t old /\ exists container c, observed_at t (c_id old) container /\ ready_as None container t c).

Lemma rollback_spec o h h1 current :
  containers engine (ro_runtime o) h = (h1, Ok current) ->
  exists t, (rollback engine o h).1 = h1 ++ t /\ justified (rollback_rule o current) t
    /\ ((rollback engine o h).2 = Ok tt ->
        (forall c, c ∈ current -> ~ known o (c_id c) -> gone t (c_id c))
        /\ forall old, old ∈ ro_before o -> was_up old = true -> brought_back t old).
Proof.
  intros Hc. unfold rollback. rewrite (bind_run _ _ _ _ _ Hc). cbn beta.
  match goal with |- exists t, (?m h1).1 = _ /\ _ => assert (Hm : under (rollback_rule o current) [] m h1 (fun t _ =>
    (forall c, c ∈ current -> ~ known o (c_id c) -> gone t (c_id c)) /\ forall old, old ∈ ro_before o -> was_up old = true -> brought_back t old)) end.
  2: { destruct Hm as (t & Ht & Hj & Hx). exists t. split_and!; [done|done|]. intros Hok. by eapply Hx. }
  eapply under_bind with (P := fun t errors => errors = [] -> forall c, c ∈ current -> ~ known o (c_id c) -> gone t (c_id c)).
  { eapply under_impl; [apply collect_spec with (P := fun t c => ~ known o (c_id c) -> gone t (c_id c)); [| |apply justified_nil]|].
    - intros t u c Hsub Hg Hk. eapply gone_mono; [done|]. by apply Hg.
    - intros c p h' _ Hp. by apply undo_spec.
    - cbn. intros t errors He Hnil c Hin. apply (proj2 (He Hnil)). rewrite list_elem_of_In. apply in_rev. by rewrite rev_involutive, <- list_elem_of_In. }
  intros t errors Hj Hgone. case_bool_decide as Hnil; cbn [negb]; [|by apply under_stop]. specialize (Hgone Hnil).
  eapply under_bind; [apply restore_all_spec; [done| |done|done]|].
  { intros old. rewrite elem_of_retain. tauto. }
  intros u [restored errors2] Hj2 [_ Hres]. cbn [fst snd] in Hres.
  eapply under_bind; [apply collect_spec with (P := fun t c => exists c', ready_as None c t c'); [| |done]|].
  { intros v w c Hsub [c' Hc']. exists c'. by eapply ready_as_mono. }
  { intros c p h' _ Hp. eapply under_bind; [eapply under_answer; [apply rollback_rule_asks|done|apply wait_ready_answer|]|].
    - intros v c' Hc'. eapply ready_as_mono; [|exact Hc']. set_solver.
    - intros v c' Hv Hc'. cbn beta in Hc'. apply under_ret; [done|]. by exists c'. }
  intros v errors3 Hj3 Hfin. unfold finish_errors. destruct errors3 as [|e errors3]; [|by apply under_stop].
  destruct (Hfin eq_refl) as [-> Hready]. destruct (Hres eq_refl) as [_ Hback]. apply under_ret; [done|]. split.
  - intros c Hin Hk. eapply gone_mono; [|by apply Hgone]. set_solver.
  - intros old Hin Hup. destruct (Hback old) as [(c & Ho & Hr)|((out & log & Hs) & c & Hcr & Ho)]; [by apply elem_of_retain|left|right].
    + exists c. split; [|done]. eapply observed_at_mono; [|exact Ho]. set_solver.
    + split; [exists out, log; set_solver|]. destruct (Hready c Hcr) as [c' Hc']. exists c, c'. split; [|done].
      eapply observed_at_mono; [|exact Ho]. set_solver.
Qed.

(** ** Finishing *)

Definition selected_id o (id : str) : Prop := exists c, c ∈ ro_selected o /\ c_id c = id.

Definition finish_rule o : Rule := fun _ cmd =>
  match cmd with
  | ContainerRemove id | ContainerStop id => ~ selected_id o id
  | _ => query cmd
  end.

Lemma finish_rule_asks o : asks (finish_rule o).
Proof. split; [intros u v cmd _; by destruct cmd|]. intros u cmd. by destruct cmd. Qed.

Lemma finish_spec schedule o h h1 current :
  (forall n i, i < n -> i ∈ schedule n) -> containers engine (ro_runtime o) h = (h1, Ok current) ->
  exists t, (finish engine schedule o h).1 = h1 ++ t /\ justified (finish_rule o) t
    /\ ((finish engine schedule o h).2 = Ok tt -> forall c, c ∈ current -> ~ selected_id o (c_id c) -> gone t (c_id c)).
Proof.
  intros Hsched Hc. unfold finish. rewrite (bind_run _ _ _ _ _ Hc). cbn beta. set (retired := retain _ current).
  assert (Hret : forall c, c ∈ retired <-> c ∈ current /\ ~ selected_id o (c_id c)).
  { intros c. unfold retired. rewrite elem_of_retain, negb_true_iff. unfold selected_id, any.
    rewrite <- not_true_iff_false, existsb_exists. setoid_rewrite list_elem_of_In. unfold str_eqb. setoid_rewrite bool_decide_eq_true. tauto. }
  match goal with |- exists t, (?m h1).1 = _ /\ _ => assert (Hm : under (finish_rule o) [] m h1 (fun t _ =>
    forall c, c ∈ current -> ~ selected_id o (c_id c) -> gone t (c_id c))) end.
  2: { destruct Hm as (t & Ht & Hj & Hx). exists t. split_and!; [done|done|]. intros Hok. by eapply Hx. }
  eapply under_bind; [apply collect_spec with (P := fun t c => gone t (c_id c)); [| |apply justified_nil]|].
  - intros t u c. apply gone_mono.
  - intros c p h' Hin Hp. apply list_elem_of_omap in Hin as (i & _ & Hi). apply list_elem_of_lookup_2, Hret in Hi as [_ Hi].
    eapply under_does with (R := fun t _ => gone t (c_id c)); [done|by apply remove_container_does; [apply asks_after, finish_rule_asks|..]| |].
    + eapply spec_impl; [apply remove_container_gone|]. intros t x Hx a ->. destruct a. exact (Hx eq_refl).
    + cbn. intros t a. apply gone_mono. set_solver.
  - intros t errors Hj He. unfold finish_errors. destruct errors as [|e errors]; [|by apply under_stop]. apply under_ret; [done|].
    intros c Hin Hs. apply (proj2 (He eq_refl)). destruct (list_elem_of_lookup_1 retired c) as [i Hi]; [by apply Hret|].
    apply list_elem_of_omap. exists i. split; [|done]. apply Hsched. by apply lookup_lt_Some in Hi.
Qed.

(** ** Waiting ends *)

Fixpoint slept (t : list Event) : Z :=
  match t with
  | [] => 0
  | (Sleep d, _) :: t' => Z.max 0 d + slept t'
  | _ :: t' => slept t'
  end.

Lemma slept_nonneg t : (0 <= slept t)%Z.
Proof. induction t as [|[[] a] t IH]; cbn [slept]; lia. Qed.

Lemma slept_app t u : slept (t ++ u) = (slept t + slept u)%Z.
Proof. induction t as [|[[] a] t IH]; cbn [slept app]; lia. Qed.

(** The clock can be read, and moves on at least by what was slept. *)
Record clock : Prop := {
  clock_time h : exists t, engine h Now = Time t;
  clock_advances h1 a h2 b : engine (h1 ++ (Now, Time a) :: h2) Now = Time b -> (a + slept h2 <= b)%Z;
}.

(** No panic, whatever the trace. *)
Definition calm {A} (m : M A) : Prop := forall h, spec m h (fun _ x => x <> Err Panicked).

Lemma calm_bind {A B} (m : M A) (k : A -> M B) : calm m -> (forall a, calm (k a)) -> calm (bind m k).
Proof.
  intros Hm Hk h. eapply spec_bind; [apply Hm| |]; cbn.
  - intros t a _. eapply spec_impl; [apply Hk|done].
  - intros t e He [= ->]. by apply He.
Qed.
Lemma calm_ret {A} (a : A) : calm (ret a).
Proof. intros h. by apply spec_ret. Qed.
Lemma calm_lift {A} (x : result A Failure) : no_panic x -> calm (lift x).
Proof. intros Hx h. by apply spec_lift. Qed.
Lemma calm_stop {A} e : e <> Panicked -> calm (stop e : M A).
Proof. intros He h. apply spec_stop. congruence. Qed.
Lemma calm_ask cmd : calm (ask engine cmd).
Proof. intros h. by apply spec_ask. Qed.

Lemma calm_inspect id : calm (inspect_container engine id).
Proof.
  unfold inspect_container. apply calm_bind; [apply calm_ask|]. intros [|[|] out log|]; try by apply calm_stop.
  - apply calm_bind; [apply calm_lift, no_panic_required|]. intros v. apply calm_bind; [apply calm_lift, parse_container_np|]. intros c. apply calm_ret.
  - destruct (contains_str _ _); [apply calm_ret|by apply calm_stop].
Qed.

Section Clock.
Hypothesis Hclock : clock.

Lemma now_spec h : spec (now engine) h (fun t x => exists b, engine h Now = Time b /\ t = [(Now, Time b)] /\ x = Ok b).
Proof using Hclock.
  destruct (clock_time Hclock h) as [b Hb]. unfold now. eapply spec_bind with (R := fun t x => t = [(Now, Time b)] /\ x = Ok (Time b)).
  - apply spec_ask. by rewrite Hb.
  - intros t a [-> [= ->]]. apply spec_ret. by exists b.
  - by intros t e [_ [=]].
Qed.

Lemma calm_now : calm (now engine).
Proof using Hclock. intros h. eapply spec_impl; [apply now_spec|]. by intros t x (b & _ & _ & ->). Qed.

Lemma calm_elapsed t : calm (elapsed_since engine t).
Proof using Hclock. apply calm_bind; [apply calm_now|]. intros. apply calm_ret. Qed.

Ltac calm_if := match goal with |- calm (if ?b then _ else _) => destruct b end; [by apply calm_stop|].

Lemma calm_observe_ready condition monitor started since c : calm (observe_ready engine condition monitor started since c).
Proof using Hclock.
  unfold observe_ready. case_bool_decide.
  { destruct (completed c); [apply calm_ret|]. calm_if. apply calm_ret. }
  destruct (running c && bool_decide (condition = Some Started)); [apply calm_ret|]. calm_if. apply calm_bind.
  - match goal with |- calm (if ?b then _ else _) => destruct b end; [|apply calm_ret].
    apply calm_bind; [destruct since; [apply calm_ret|apply calm_now]|]. intros b. apply calm_bind; [apply calm_elapsed|]. intros. apply calm_ret.
  - intros [c'|since']; [apply calm_ret|]. calm_if. apply calm_bind; [apply calm_elapsed|]. intros w. calm_if.
    apply calm_bind; [apply calm_elapsed|]. intros w'. calm_if. apply calm_ret.
Qed.

(** With room for the polls that are left before the deadline. *)
Lemma poll_ends fuel k container condition monitor started since h1 h2 :
  (k * POLL_INTERVAL <= slept h2)%Z -> (READINESS_LIMIT + monitor <= (Z.of_nat fuel - 1 + k) * POLL_INTERVAL)%Z -> fuel <> 0 ->
  spec (poll engine fuel container condition monitor started since) (h1 ++ (Now, Time started) :: h2) (fun _ x => x <> Err Panicked).
Proof using Hclock.
  revert k since h2. induction fuel as [|fuel IH]; intros k since h2 Hk Hfuel Hne; [done|]. cbn [poll].
  eapply spec_bind; [apply calm_inspect| |intros t e He [= ->]; by apply He]. intros t1 x _. destruct x as [c|]; [|by apply spec_stop].
  destruct (_ || _); [by apply spec_stop|].
  eapply spec_bind; [apply calm_observe_ready| |intros t e He [= ->]; by apply He]. intros t2 x _. destruct x as [c'|since']; [by apply spec_ret|].
  eapply spec_bind; [apply now_spec| |by intros t e (b & _ & _ & [=])]. intros t3 b' (b & Hb & -> & [= ->]).
  repeat rewrite <- app_assoc in Hb. cbn [app] in Hb. apply (clock_advances Hclock) in Hb. rewrite !slept_app in Hb.
  pose proof (slept_nonneg t1). pose proof (slept_nonneg t2).
  destruct (Z.leb_spec (started + READINESS_LIMIT + monitor) b); [by apply spec_stop|].
  eapply spec_bind with (R := fun t x => exists a, t = [(Sleep POLL_INTERVAL, a)] /\ x = Ok tt); [| |by intros t e (a & _ & [=])].
  { eapply spec_bind; [by apply spec_ask with (Q := fun t x => exists a, t = [(Sleep POLL_INTERVAL, a)] /\ x = Ok a); eexists| |].
    - intros t a (a' & -> & [= ->]). apply spec_ret. by exists a'.
    - by intros t e (a & _ & [=]). }
  intros t4 [] (a & -> & _). repeat rewrite <- app_assoc. cbn [app].
  assert (1 < POLL_INTERVAL)%Z by (unfold POLL_INTERVAL; lia).
  apply (IH (k + 1)%Z).
  - rewrite !slept_app. cbn [slept app]. lia.
  - lia.
  - intros ->. nia.
Qed.

Lemma wait_ready_ends container condition monitor : (0 <= monitor)%Z -> calm (wait_ready engine container condition monitor).
Proof using Hclock.
  intros Hm h. unfold wait_ready. eapply spec_bind; [apply now_spec| |by intros t e (b & _ & _ & [=])].
  intros t b' (b & _ & -> & [= ->]). apply (poll_ends _ 0); [done| |].
  - unfold poll_fuel. assert (0 < POLL_INTERVAL)%Z by (unfold POLL_INTERVAL; lia).
    pose proof (Z.div_mod (READINESS_LIMIT + monitor) POLL_INTERVAL). pose proof (Z.mod_pos_bound (READINESS_LIMIT + monitor) POLL_INTERVAL).
    pose proof (Z.div_pos (READINESS_LIMIT + monitor) POLL_INTERVAL). unfold READINESS_LIMIT in *. nia.
  - unfold poll_fuel. pose proof (Z.div_pos (READINESS_LIMIT + monitor) POLL_INTERVAL). unfold READINESS_LIMIT, POLL_INTERVAL in *. lia.
Qed.
End Clock.

(** ** Unchanged deployments *)

Section Unchanged.
Variable o : Rollout.
Hypothesis steady : forall h, (containers engine (ro_runtime o) h).2 = Ok (ro_before o).
Hypothesis unique : forall a b, a ∈ ro_before o -> b ∈ ro_before o ->
  c_service a = c_service b -> c_slot a = c_slot b -> c_fingerprint a = c_fingerprint b -> a = b.
Hypothesis nothing_changes : changes o = [].

(** Every planned slot has a container that is as it should be. *)
Lemma unchanged_slot s slot : planned_slot o s slot ->
  exists c, find_first (fun c => str_eqb (c_service c) (sp_name s) && (c_slot c =? slot)%Z && str_eqb (c_fingerprint c) (sp_fingerprint s)) (ro_before o) = Some c
            /\ healthy c || done_job s c = true.
Proof using nothing_changes unique.
  intros [Hin Hslot]. assert (Hs : s ∉ retain (fun service =>
    any (fun c => str_eqb (c_service c) (sp_name service) && (sp_replicas service <=? c_slot c)%Z) (ro_before o)
    || any (fun slot => negb (any (fun c => str_eqb (c_service c) (sp_name service) && (c_slot c =? slot)%Z
                                            && str_eqb (c_fingerprint c) (sp_fingerprint service)
                                            && (healthy c || done_job service c)) (ro_before o)))
         (seqZ 0 (sp_replicas service))) (plan_services (ro_plan o))).
  { unfold changes in nothing_changes. apply fmap_nil_inv in nothing_changes. rewrite nothing_changes. apply not_elem_of_nil. }
  rewrite elem_of_retain in Hs. match type of Hs with ~ (?x = true /\ _) => destruct x eqn:Hx; [by destruct Hs|] end. clear Hs.
  apply orb_false_iff in Hx as [_ Hx]. unfold any in Hx. rewrite <- not_true_iff_false, existsb_exists in Hx.
  destruct (existsb (fun c => str_eqb (c_service c) (sp_name s) && (c_slot c =? slot)%Z && str_eqb (c_fingerprint c) (sp_fingerprint s)
                              && (healthy c || done_job s c)) (ro_before o)) eqn:He.
  2: { destruct Hx. exists slot. split; [apply list_elem_of_In, elem_of_seqZ; lia|]. unfold any. by rewrite He. }
  apply existsb_exists in He as (c & Hc%list_elem_of_In & Hcond). apply andb_true_iff in Hcond as [Hmatch Hok].
  destruct (find_first _ (ro_before o)) as [c'|] eqn:Hf.
  - exists c'. split; [done|]. apply find_first_Some in Hf as [Hm Hc']. assert (c' = c) as ->; [|done].
    bool_to_prop. unfold str_eqb in *. bool_to_prop. apply unique; congruence.
  - rewrite find_first_None in Hf. specialize (Hf c Hc). congruence.
Qed.

Lemma unchanged_apply_slot s slot : planned_slot o s slot -> does only_query (apply_slot engine o s slot).
Proof using nothing_changes unique steady.
  intros Hslot h. destruct (unchanged_slot s slot Hslot) as (c & Hf & Hok). unfold apply_slot.
  eapply spec_bind with (R := fun t x => justified only_query t /\ x = Ok (ro_before o)); [| |by intros t e [? [=]]].
  { destruct (containers_answer (ro_runtime o) h) as (t & Ht & Hj & _). exists t. by rewrite steady. }
  intros t ? [Ht [= ->]]. rewrite Hf. eapply spec_impl with (R := fun u _ => justified only_query u); [|intros u x Hu; by apply justified_app].
  eapply spec_bind with (R := fun u x => u = [] /\ x = Ok c); [by apply spec_ret| |by intros u e [_ [=]]]. intros u ? [-> [= ->]].
  replace (bool_decide (sp_order s = StopFirst) && negb (healthy c) && negb (done_job s c)) with false.
  2: { destruct (healthy c), (done_job s c), (bool_decide (sp_order s = StopFirst)); done. }
  eapply spec_bind with (R := fun u x => u = [] /\ x = Ok tt); [by apply spec_ret| |by intros u e [_ [=]]]. intros u ? [-> [= ->]].
  replace (running c || done_job s c) with true.
  2: { unfold healthy in Hok. by destruct (running c), (done_job s c). }
  eapply spec_bind with (R := fun u x => u = [] /\ x = Ok tt); [by apply spec_ret| |by intros u e [_ [=]]]. intros u ? [-> [= ->]].
  cbn [app]. apply (does_bind only_query); [by apply asks_only_query|auto with engine|]. intros x. apply does_lift.
Qed.

Lemma unchanged_apply schedule : does only_query (apply engine schedule o).
Proof using nothing_changes unique steady.
  pose proof asks_only_query as HA. unfold apply. destruct (negb _); [apply does_stop|]. apply does_bind; [apply HA| |intros selected; apply does_bind; [apply HA| |intros l; apply does_bind; [apply HA|apply does_lift|intros; apply does_ret]]].
  - assert (Hsub : plan_services (ro_plan o) ⊆ plan_services (ro_plan o)) by done. revert Hsub. generalize ([] : list ServiceContainer).
    generalize (plan_services (ro_plan o)) at 1 3. intros services. induction services as [|s services IH]; intros selected Hsub; cbn [apply_services]; [apply does_ret|].
    apply does_bind; [apply HA|by apply await_dependencies_does|]. intros _. apply does_bind; [apply HA| |intros l; apply IH; set_solver].
    assert (Hslots : forall slot, slot ∈ seqZ 0 (sp_replicas s) -> planned_slot o s slot) by (intros slot Hs%elem_of_seqZ; split; [apply Hsub; left|lia]).
    clear IH Hsub. revert selected. induction (seqZ 0 (sp_replicas s)) as [|slot slots IH]; intros selected; cbn [apply_slots]; [apply does_ret|].
    apply does_bind; [apply HA|apply unchanged_apply_slot, Hslots; left|]. intros c. apply IH. intros x Hx. apply Hslots. by right.
  - generalize (schedule (length selected)). intros order. revert selected. induction order as [|i order IH]; intros selected; cbn [await_all]; [apply does_ret|].
    apply does_bind; [apply HA|apply does_lift|]. intros c. apply does_bind; [apply HA| |intros; apply IH].
    by eapply answer_does, await_selected_answer.
Qed.
End Unchanged.
End Operations.
