(* ===== verification/ComposeConfinement.v ===== *)
(** * What the containers of a Compose project can be

    The model that a container is created from, from the project that Compose resolved and
    [accept_model] accepted: the fields Tako manages, and everything else as it was checked. *)

From S2P Require Import Prelude RustStr Net Codec JsonValue Enrollment StaticFiles ManagementPolicy Protocol.
From S2P Require Import ComposeModel ComposeValidation ComposePlan ComposePlanProps ComposeRollout ComposeRolloutProps.

(** ** Fields that Tako manages *)

Definition managed_keys : list string :=
  ["image"; "build"; "pull_policy"; "ports"; "networks"; "dns"; "depends_on"; "scale"; "deploy"; "labels"]%string.

Definition managed (k : str) : bool := one_of managed_keys k.

(** One definition is another with only managed fields changed. *)
Definition derived (d d' : Value) : Prop := forall k, managed k = false -> get d' k = get d k.

Lemma derived_refl d : derived d d.
Proof. done. Qed.
Lemma derived_trans a b c : derived a b -> derived b c -> derived a c.
Proof. intros Hab Hbc k Hk. by rewrite Hbc, Hab. Qed.

Lemma index_mut_spec v k f v' :
  index_mut v k f = Some v' ->
  exists w, f (at_key v k) = Some w /\ get v' k = Some w /\ forall k', k <> k' -> get v' k' = get v k'.
Proof.
  unfold index_mut, at_key. destruct v as [| | | | |m]; try done; cbn [get].
  - cbn [default]. destruct (f Null) as [w|]; [|done]. intros [= <-]. exists w. cbn [get]. split_and!; [done|apply lookup_singleton_eq|].
    intros k' Hk. by rewrite lookup_singleton_ne.
  - destruct (f (default Null (m !! k))) as [w|]; [|done]. intros [= <-]. exists w. cbn [get]. split_and!; [done|apply lookup_insert_eq|].
    intros k' Hk. by rewrite lookup_insert_ne.
Qed.

Lemma set_key_spec v k w v' : set_key v k w = Some v' -> get v' k = Some w /\ forall k', k <> k' -> get v' k' = get v k'.
Proof. intros (w' & [= <-] & Hg)%index_mut_spec. done. Qed.

Lemma one_of_elem keys k : one_of keys k = true <-> exists s, s ∈ keys /\ bs s = k.
Proof.
  unfold one_of. rewrite existsb_exists. setoid_rewrite list_elem_of_In. unfold str_eqb. by setoid_rewrite bool_decide_eq_true.
Qed.

(** Changing a managed field. *)
Lemma derived_insert (key : string) fields v :
  key ∈ managed_keys -> derived (Object fields) (Object (<[bs key := v]> fields)).
Proof.
  intros Hkey k Hk. cbn [get]. apply lookup_insert_ne. intros Heq. apply not_true_iff_false in Hk. apply Hk, one_of_elem. by exists key.
Qed.

Lemma derived_delete (key : string) fields : key ∈ managed_keys -> derived (Object fields) (Object (delete (bs key) fields)).
Proof.
  intros Hkey k Hk. cbn [get]. apply lookup_delete_ne. intros Heq. apply not_true_iff_false in Hk. apply Hk, one_of_elem. by exists key.
Qed.

Lemma derived_set (key : string) d v d' : key ∈ managed_keys -> set_key d (bs key) v = Some d' -> derived d d'.
Proof.
  intros Hkey [_ Hk]%set_key_spec k Hm. apply Hk. intros Heq. apply not_true_iff_false in Hm. apply Hm, one_of_elem. by exists key.
Qed.

Ltac managed_key := unfold managed_keys; set_solver.

Lemma derived_prepared fields : derived (Object fields) (prepared_definition fields).
Proof.
  unfold prepared_definition. eapply derived_trans; [apply (derived_delete "build"); managed_key|].
  eapply derived_trans; [apply (derived_delete "pull_policy"); managed_key|]. apply (derived_insert "ports"); managed_key.
Qed.

Lemma derived_attached r d d' : attached r d d' -> derived d d' /\ get d' (bs "ports") = get d (bs "ports").
Proof.
  unfold attached. destruct (cr_native_network r) as [n|]; [|intros ->; by split]. intros [b Hb]. unfold attach_service in Hb.
  destruct d as [| | | | |fields]; try done. cbn [required ok_or as_object] in Hb.
  destruct (as_object _) as [networks|]; [|done]. cbn [required ok_or] in Hb. case_bool_decide; [done|]. injection Hb as <- _. split.
  - eapply derived_trans; [apply (derived_insert "networks"); managed_key|]. apply (derived_insert "dns"); managed_key.
  - cbn [get]. rewrite !lookup_insert_ne by (vm_compute; discriminate). done.
Qed.

(** ** Images *)

Lemma freeze_images_spec ids model model' :
  freeze_images ids model = Some model' ->
  (forall k, k <> bs "services" -> get model' k = get model k)
  /\ forall n d, get (at_key model (bs "services")) n = Some d ->
       exists d', get (at_key model' (bs "services")) n = Some d' /\ derived d d' /\ get d' (bs "ports") = get d (bs "ports").
Proof.
  revert model. induction ids as [|[s image] ids IH]; intros model; cbn [freeze_images].
  { intros [= <-]. split; [done|]. intros n d Hd. exists d. done. }
  destruct (index_mut _ _ _) as [model1|] eqn:Hi; [|done]. intros [Hout Hin]%IH.
  apply index_mut_spec in Hi as (services & Hs & Hg & Hk). apply index_mut_spec in Hs as (d1 & Hset & Hgs & Hks). split.
  - intros k Hne. rewrite Hout by done. by apply Hk.
  - intros n d Hd. unfold at_key at 1 in Hin. rewrite Hg in Hin. cbn [default id] in Hin.
    destruct (decide (s = n)) as [->|Hne].
    + destruct (Hin n d1 Hgs) as (d' & Hd' & Hder & Hp). exists d'. unfold at_key at 1 in Hset. rewrite Hd in Hset. cbn [default id] in Hset.
      split_and!; [done| |].
      * eapply derived_trans; [|done]. eapply (derived_set "image"); [managed_key|done].
      * rewrite Hp. apply set_key_spec in Hset as [_ Hset]. apply Hset. vm_compute. discriminate.
    + apply Hin. rewrite Hks by done. exact Hd.
Qed.

(** ** The model of a container *)

Section Containers.
Context {H : Sha256Api} {J : SerdeJson} {F : ManagedFs} {G : ComposeFs}.

Lemma set_label_spec d label v d' :
  set_label d label v = Some d' ->
  get (at_key d' (bs "labels")) label = Some v
  /\ (forall l, l <> label -> get (at_key d' (bs "labels")) l = get (at_key d (bs "labels")) l)
  /\ (forall k, k <> bs "labels" -> get d' k = get d k).
Proof.
  intros (labels & [Hl Hls]%set_key_spec & Hg & Hk)%index_mut_spec. unfold at_key at 1 2. rewrite Hg. cbn [default id].
  split_and!; [done|by intros l Hne; apply Hls|]. intros k Hne. by apply Hk.
Qed.

(** What Tako writes into the definition of a container. *)
Record stamped (r : ComposeRuntime) (s : ServicePlan) (slot : Z) (d0 d : Value) : Prop := {
  stamped_derived : derived d0 d;
  stamped_ports : get d (bs "ports") = if is_ingress r (sp_name s) then Some (loopback_ports r) else get d0 (bs "ports");
  stamped_service : get (at_key d (bs "labels")) SERVICE_LABEL = Some (Text (sp_name s));
  stamped_slot : get (at_key d (bs "labels")) SLOT_LABEL = Some (Text (show_Z slot));
  stamped_fingerprint : get (at_key d (bs "labels")) FINGERPRINT_LABEL = Some (Text (sp_fingerprint s));
}.

Lemma derived_single_replica fields :
  derived (Object fields) (Object (single_replica fields)) /\ single_replica fields !! bs "ports" = fields !! bs "ports".
Proof.
  unfold single_replica. set (f := delete (bs "scale") (delete (bs "depends_on") fields)).
  assert (Hf : derived (Object fields) (Object f)).
  { eapply derived_trans; [apply (derived_delete "depends_on"); managed_key|]. apply (derived_delete "scale"); managed_key. }
  assert (Hp : f !! bs "ports" = fields !! bs "ports") by (unfold f; by rewrite !lookup_delete_ne by (vm_compute; discriminate)).
  destruct (f !! bs "deploy") as [[| | | | |deploy]|]; try done. split.
  - eapply derived_trans; [done|]. apply (derived_insert "deploy"); managed_key.
  - by rewrite lookup_insert_ne by (vm_compute; discriminate).
Qed.

Lemma derived_with_aliases name fields fields' :
  with_aliases name fields = Some fields' -> derived (Object fields) (Object fields') /\ fields' !! bs "ports" = fields !! bs "ports".
Proof.
  unfold with_aliases. destruct (fields !! bs "networks") as [[| | | | |networks]|]; try (intros [= <-]; by split).
  destruct (alias_networks _ _ _) as [networks'|]; [|done]. intros [= <-]. split; [apply (derived_insert "networks"); managed_key|].
  by rewrite lookup_insert_ne by (vm_compute; discriminate).
Qed.

Lemma derived_labels d label v d' : set_label d label v = Some d' -> derived d d' /\ get d' (bs "ports") = get d (bs "ports").
Proof.
  intros (_ & _ & Hk)%set_label_spec. split; [|apply Hk; vm_compute; discriminate]. intros k Hm. apply Hk. intros ->. revert Hm. by vm_compute.
Qed.

Lemma stamp_labels_spec s slot r d d' :
  stamp_labels s slot r d = Some d' ->
  derived d d' /\ get d' (bs "ports") = get d (bs "ports")
  /\ get (at_key d' (bs "labels")) SERVICE_LABEL = Some (Text (sp_name s))
  /\ get (at_key d' (bs "labels")) SLOT_LABEL = Some (Text (show_Z slot))
  /\ get (at_key d' (bs "labels")) FINGERPRINT_LABEL = Some (Text (sp_fingerprint s)).
Proof.
  unfold stamp_labels. destruct (set_label d _ _) as [d1|] eqn:H1; [|done]. destruct (set_label d1 _ _) as [d2|] eqn:H2; [|done].
  destruct (set_label d2 _ _) as [d3|] eqn:H3; [|done]. destruct (set_label d3 _ _) as [d4|] eqn:H4; [|done]. intros H5.
  pose proof (derived_labels _ _ _ _ H1) as [D1 P1]. pose proof (derived_labels _ _ _ _ H2) as [D2 P2].
  pose proof (derived_labels _ _ _ _ H3) as [D3 P3]. pose proof (derived_labels _ _ _ _ H4) as [D4 P4].
  pose proof (derived_labels _ _ _ _ H5) as [D5 P5].
  apply set_label_spec in H1 as (L1 & _ & _), H2 as (L2 & O2 & _), H3 as (L3 & O3 & _), H4 as (_ & O4 & _), H5 as (_ & O5 & _).
  split_and!.
  - eauto using derived_trans.
  - congruence.
  - rewrite O5, O4, O3, O2 by (vm_compute; discriminate). done.
  - rewrite O5, O4, O3 by (vm_compute; discriminate). done.
  - rewrite O5, O4 by (vm_compute; discriminate). done.
Qed.

Lemma container_model_spec plan s slot r cm :
  container_model plan s slot r = Some cm ->
  exists d, at_key cm (bs "services") = Object {[generation s slot := d]}
    /\ (forall k, k <> bs "services" -> get cm k = get (plan_model plan) k)
    /\ stamped r s slot (at_key (at_key (plan_model plan) (bs "services")) (sp_name s)) d.
Proof.
  unfold container_model. destruct (at_key (at_key (plan_model plan) (bs "services")) (sp_name s)) as [| | | | |fields]; try done. cbn [as_object].
  destruct (with_aliases _ _) as [f|] eqn:Ha; [|done]. destruct (stamp_labels _ _ _ _) as [d1|] eqn:Hl; [|done].
  destruct (derived_single_replica fields) as [D1 P1]. apply derived_with_aliases in Ha as [D2 P2].
  apply stamp_labels_spec in Hl as (D3 & P3 & L1 & L2 & L3).
  assert (D : derived (Object fields) d1) by eauto using derived_trans.
  assert (P : get d1 (bs "ports") = get (Object fields) (bs "ports")) by (cbn [get] in *; congruence).
  destruct (is_ingress r (sp_name s)) eqn:Hing.
  - destruct (set_key d1 _ _) as [d2|] eqn:Hp; [|done]. intros [Hg Hk]%set_key_spec. exists d2. unfold at_key at 1. rewrite Hg.
    pose proof (set_key_spec _ _ _ _ Hp) as [Hp1 Hp2]. assert (Hlab : at_key d2 (bs "labels") = at_key d1 (bs "labels")).
    { unfold at_key. by rewrite Hp2 by (vm_compute; discriminate). }
    split_and!; [done|by intros k ?; apply Hk|]. split; rewrite ?Hlab, ?Hing; try done.
    eapply derived_trans; [done|]. eapply (derived_set "ports"); [managed_key|done].
  - intros [Hg Hk]%set_key_spec. exists d1. unfold at_key at 1. rewrite Hg. split_and!; [done|by intros k ?; apply Hk|].
    split; rewrite ?Hing; done.
Qed.

(** ** Beginning a rollout *)

(** Beginning changes no container. *)
Definition begin_rule : Rule := fun _ cmd =>
  match cmd with
  | EnsureBridge _ | ComposeConfigJson | ImageInspect _ _ => True
  | _ => query cmd
  end.

Lemma begin_rule_asks : asks begin_rule.
Proof. split; [by intros u v cmd _|]. intros u cmd. by destruct cmd. Qed.

Variable engine : Engine.

(** Services with their images replaced. *)
Definition reimaged (services services' : gmap str Value) : Prop :=
  forall n, match services !! n with
            | Some d => exists image d', set_key d (bs "image") image = Some d' /\ services' !! n = Some d'
            | None => services' !! n = None
            end.

Lemma inspect_images_spec images entries services ids p h :
  justified begin_rule p -> NoDup entries.*1 ->
  under begin_rule p (inspect_images engine images entries services ids) h (fun _ x =>
    forall n, (n ∉ entries.*1 -> x.1 !! n = services !! n)
              /\ forall d, (n, d) ∈ entries -> exists image d', set_key d (bs "image") image = Some d' /\ x.1 !! n = Some d').
Proof.
  revert services ids p h. induction entries as [|[m v] entries IH]; intros services ids p h Hp; cbn [inspect_images fmap list_fmap fst].
  { intros _. apply under_ret; [done|]. intros n. split; [done|]. by intros d ?%elem_of_nil. }
  intros [Hm Hnd]%NoDup_cons. pose proof (asks_after _ p begin_rule_asks) as HA.
  eapply under_bind with (P := fun _ _ => True); [by apply under_lift|]. intros t image Ht _.
  eapply under_bind; [apply under_any; [done|]|].
  { unfold inspect_image, engine_output. pose proof (asks_stable _ (asks_after _ (p ++ t) begin_rule_asks)) as HS.
    apply does_bind; [done|apply does_bind; [done|by apply does_ask|]; intros [|[|] out log|]; auto with engine|]. intros out.
    apply does_bind; [done|apply does_lift|]. intros v'. apply does_bind; [done|apply does_lift|]. intros id.
    apply does_bind; [done|apply does_lift|]. intros _. apply does_ret. }
  intros u id Hu _. destruct (set_key v (bs "image") (Text image)) as [v'|] eqn:Hv; [|by apply under_stop].
  eapply under_bind with (P := fun _ x => x = v'); [apply under_lift; [done|]; by intros a [= <-]|]. intros w x Hw ->.
  eapply under_impl; [apply IH; done|]. cbn. intros y a Ha n. destruct (Ha n) as [Hout Hin]. split.
  - intros [Hne Hn]%not_elem_of_cons. rewrite (Hout Hn). by rewrite lookup_insert_ne.
  - intros d [[= -> ->]|Hd]%elem_of_cons; [|by apply Hin]. exists (Text image), v'. rewrite (Hout Hm). by rewrite lookup_insert_eq.
Qed.

(** A rollout that was begun comes from a model that was accepted. *)
Record begun (o : Rollout) (model model1 : Value) (services services' : gmap str Value) (plan : Plan) : Prop := {
  begun_production : cr_development (ro_runtime o) = false;
  begun_accepted : accept_model (ro_runtime o) model = Ok model;
  begun_services : as_object (at_key model (bs "services")) = Some services;
  begun_images : reimaged services services';
  begun_model : set_key model (bs "services") (Object services') = Some model1;
  begun_plan : plan_new model1 (ro_runtime o) = Ok plan;
  begun_frozen : exists ids, freeze_images ids (plan_model plan) = Some (plan_model (ro_plan o));
  begun_order : plan_services (ro_plan o) = plan_services plan;
}.

Lemma prepared_runtime r ensured record r' images :
  prepared r ensured record = Ok (r', images) -> cr_development r' = cr_development r.
Proof.
  unfold prepared. destruct (required _ _); [|done]. destruct (root_for _ _ _); [|done]. destruct (path_starts_with _ _); [done|].
  destruct (negb ensured); [done|]. destruct (io record) as [[attempt images']|]; [|done]. destruct (_ || _); [done|]. by intros [= <- <-].
Qed.

Lemma resolved_model_spec r p h :
  justified begin_rule p -> under begin_rule p (resolved_model engine r) h (fun _ m => accept_model r m = Ok m).
Proof.
  intros Hp. unfold resolved_model. eapply under_bind with (P := fun _ _ => True).
  { apply under_any; [done|]. unfold engine_output. apply does_bind; [apply asks_stable, asks_after, begin_rule_asks|by apply does_ask|].
    intros [|[|] out log|]; auto with engine. }
  intros t out Ht _. destruct (negb _); [by apply under_stop|]. eapply under_bind with (P := fun _ _ => True); [by apply under_lift|].
  intros u m Hu _. apply under_lift; [done|]. intros m' Hm. assert (m' = m) as ->; [|done]. unfold accept_model in Hm.
  destruct (validate_model_with_mode _ _ _ _) as [[]|]; [|done]. destruct (cr_development r); [by injection Hm|].
  destruct (validate_resources _ _ _) as [[]|]; [by injection Hm|done].
Qed.

Lemma ensure_bridge_does n p : does (fun u cmd => begin_rule (p ++ u) cmd) (ensure_bridge engine n).
Proof.
  unfold ensure_bridge. pose proof (asks_stable _ (asks_after _ p begin_rule_asks)) as HS.
  apply does_bind; [done|by apply does_ask|]. intros [|success out log|]; auto with engine.
  apply does_bind; [done|apply does_lift|]. intros response.
  match goal with |- does _ (match ?x with _ => _ end) => destruct x end; [apply does_stop|].
  match goal with |- does _ (if ?x then _ else _) => destruct x end; auto with engine.
Qed.

Lemma begin_rollout_spec r ensured record h :
  spec (begin_rollout engine r ensured record) h (fun t x => justified begin_rule t
    /\ forall o, x = Ok o -> ro_selected o = [] /\ exists model model1 services services' plan, begun o model model1 services services' plan).
Proof.
  change (under begin_rule [] (begin_rollout engine r ensured record) h (fun _ o => ro_selected o = []
    /\ exists model model1 services services' plan, begun o model model1 services services' plan)).
  unfold begin_rollout. destruct (cr_development r) eqn:Hdev; [apply under_stop, justified_nil|].
  destruct (prepared r ensured record) as [[runtime images]|e] eqn:Hprep; [|apply under_stop, justified_nil].
  eapply under_bind with (P := fun _ x => x = (runtime, images)); [apply under_lift; [apply justified_nil|]; by intros a [= <-]|].
  intros t0 [r' i'] J0 [= -> ->]. eapply under_bind with (P := fun _ _ => True).
  { apply under_any; [done|]. destruct (cr_native_network runtime) as [n|]; [apply ensure_bridge_does|apply does_ret]. }
  intros t1 [] J1 _. eapply under_bind; [by apply resolved_model_spec|]. intros t2 model J2 Hacc. cbn beta in Hacc.
  destruct (as_object (at_key model (bs "services"))) as [services|] eqn:Hs; [|by apply under_stop].
  eapply under_bind with (P := fun _ x => x = services); [apply under_lift; [done|]; by intros a [= <-]|]. intros t3 ? J3 ->.
  case_bool_decide; [|by apply under_stop]. cbn [negb].
  eapply under_bind; [apply inspect_images_spec; [done|apply btree_keys_NoDup]|]. intros t4 [services' ids] J4 Him. cbn [fst] in Him.
  destruct (set_key model (bs "services") (Object services')) as [model1|] eqn:Hset; [|by apply under_stop].
  eapply under_bind with (P := fun _ x => x = model1); [apply under_lift; [done|]; by intros a [= <-]|]. intros t5 ? J5 ->.
  destruct (plan_new model1 runtime) as [plan|e] eqn:Hplan; [|by apply under_stop].
  eapply under_bind with (P := fun _ x => x = plan); [apply under_lift; [done|]; by intros a [= <-]|]. intros t6 ? J6 ->.
  destruct (freeze_images (btree ids) (plan_model plan)) as [model2|] eqn:Hfr; [|by apply under_stop].
  eapply under_bind with (P := fun _ x => x = model2); [apply under_lift; [done|]; by intros a [= <-]|]. intros t7 ? J7 ->.
  eapply under_bind with (P := fun _ _ => True); [apply under_any; [done|]; apply containers_does, asks_after, begin_rule_asks|].
  intros t8 before J8 _. apply under_ret; [done|]. split; [done|]. exists model, model1, services, services', plan.
  split; cbn [ro_runtime ro_plan plan_model plan_services]; try done; [by rewrite (prepared_runtime _ _ _ _ _ Hprep)| |by exists (btree ids)].
  intros n. destruct (Him n) as [Hout Hin]. destruct (services !! n) as [d|] eqn:Hd.
  - apply Hin. by apply elem_of_btree.
  - rewrite Hout; [done|]. change (n ∉ btree_keys services). rewrite elem_of_btree_keys, Hd. by intros [? [=]].
Qed.

(** ** Confinement *)

(** A bind mount is read-only and its source, links resolved, is inside the project. *)
Definition confined_mount (root : str) (v : Value) : Prop :=
  is_text (at_key v (bs "type")) (bs "bind") = true ->
  is_bool (at_key v (bs "read_only")) true = true
  /\ exists source path, as_str (at_key v (bs "source")) = Some source /\ canonicalize source = Some path /\ path_starts_with path root = true.

Definition internal (resource : Value) : Prop := get_and resource "external" (fun v => negb (is_bool v false)) = false.

Record confined (r : ComposeRuntime) (root : str) (s : ServicePlan) (slot : Z) (cm : Value) (d : Value) : Prop := {
  confined_single : at_key cm (bs "services") = Object {[generation s slot := d]};
  confined_keys k v : get d k = Some v -> (extension_key k || one_of SERVICE_KEYS k) = true /\ one_of UNSUPPORTED_KEYS k = false;
  confined_security : check_security_opt d = Ok tt;
  confined_mounts v : v ∈ items_of (at_key d (bs "volumes")) -> confined_mount root v;
  confined_ports : get d (bs "ports") = Some (if is_ingress r (sp_name s) then loopback_ports r else Array []);
  confined_labels : get (at_key d (bs "labels")) SERVICE_LABEL = Some (Text (sp_name s))
                    /\ get (at_key d (bs "labels")) SLOT_LABEL = Some (Text (show_Z slot))
                    /\ get (at_key d (bs "labels")) FINGERPRINT_LABEL = Some (Text (sp_fingerprint s));
  confined_resources kind name resource :
    kind ∈ ["volumes"; "networks"; "configs"; "secrets"]%string -> get (at_key cm (bs kind)) name = Some resource ->
    internal resource \/ (kind = "networks"%string /\ name = RESOURCE /\ exists n, cr_native_network r = Some n /\ resource = bridge_network n);
}.

(** What an accepted model has passed. *)
Lemma accepted_model r model services :
  cr_development r = false -> accept_model r model = Ok model -> as_object (at_key model (bs "services")) = Some services ->
  exists root, canonicalize (working_directory r) = Some root /\ validate_resources model false None = Ok tt
    /\ forall n d, services !! n = Some d -> validate_service n d = Ok tt /\ forall v, v ∈ items_of (at_key d (bs "volumes")) -> check_bind false root n v = Ok tt.
Proof.
  intros Hdev Hacc Hs. unfold accept_model, validate_model_with_mode in Hacc. rewrite Hs, Hdev in Hacc. cbn [required ok_or] in Hacc.
  destruct (negb _); [done|]. destruct (canonicalize (working_directory r)) as [root|]; [|done]. cbn [io ok_or] in Hacc.
  destruct (validate_resources model false None) as [[]|] eqn:Hr; [|done]. destruct (validate_resource_files model root) as [[]|]; [|done].
  destruct (for_each _ (btree services)) as [[]|] eqn:Hall; [|done]. exists root. split_and!; [done|done|]. intros n d Hd.
  apply for_each_ok in Hall. rewrite Forall_forall in Hall. specialize (Hall (n, d)). rewrite elem_of_btree in Hall. specialize (Hall Hd).
  cbn [fst snd] in Hall. unfold validate_model_service in Hall. destruct (validate_service n d) as [[]|]; [|done]. split; [done|].
  destruct (match get d (bs "build") with Some _ => _ | None => _ end) as [[]|]; [|done].
  destruct (for_each _ ["container_name"; "network_mode"; "profiles"]%string) as [[]|]; [|done].
  destruct (match (let! v := pointer d [bs "build"; bs "context"] in as_str v) with Some _ => _ | None => _ end) as [[]|]; [|done].
  apply for_each_ok in Hall. by rewrite Forall_forall in Hall.
Qed.

Lemma check_bind_confined root n v : check_bind false root n v = Ok tt -> confined_mount root v.
Proof.
  unfold check_bind, confined_mount. intros Hc Ht. rewrite Ht in Hc. destruct (as_str _) as [source|]; [|done]. cbn [required ok_or] in Hc.
  destruct (canonicalize source) as [path|] eqn:Hp; [|done]. cbn [io ok_or negb andb] in Hc. destruct (_ || _) eqn:Hor; [done|].
  apply orb_false_iff in Hor as [Hro Hin]. apply negb_false_iff in Hro, Hin. split; [done|]. by exists source, path.
Qed.

Lemma validate_service_keys n d k v : validate_service n d = Ok tt -> get d k = Some v -> (extension_key k || one_of SERVICE_KEYS k) = true.
Proof.
  unfold validate_service. destruct d as [| | | | |fields]; try done. cbn [as_object required ok_or get]. intros Hv Hk.
  destruct (for_each (check_service_key n) (btree_keys fields)) as [[]|] eqn:Hall; [|done].
  apply for_each_ok in Hall. rewrite Forall_forall in Hall. specialize (Hall k). rewrite elem_of_btree_keys in Hall.
  specialize (Hall (ex_intro _ v Hk)). unfold check_service_key in Hall. destruct (extension_key k); [done|]. by destruct (one_of SERVICE_KEYS k).
Qed.

Lemma plan_validate_unsupported n d (key : string) : plan_validate_service n d = Ok tt -> key ∈ UNSUPPORTED_KEYS -> get d (bs key) = None.
Proof.
  unfold plan_validate_service. destruct (validate_service n d) as [[]|]; [|done].
  destruct (for_each _ UNSUPPORTED_KEYS) as [[]|] eqn:Hall; [|done]. intros _ Hin. apply for_each_ok in Hall. rewrite Forall_forall in Hall.
  specialize (Hall key Hin). cbn beta in Hall. by destruct (get d (bs key)).
Qed.

Lemma validate_resources_internal model kind name resource :
  validate_resources model false None = Ok tt -> kind ∈ ["volumes"; "networks"; "configs"; "secrets"]%string ->
  get (at_key model (bs kind)) name = Some resource -> internal resource.
Proof.
  unfold validate_resources. intros Hall Hk Hg. apply for_each_ok in Hall. rewrite Forall_forall in Hall. specialize (Hall kind Hk).
  apply for_each_ok in Hall. rewrite Forall_forall in Hall. specialize (Hall (name, resource)). rewrite elem_of_fields_of in Hall.
  specialize (Hall Hg). unfold validate_resource in Hall. cbn [fst snd andb] in Hall. rewrite orb_false_r in Hall. unfold internal.
  by destruct (get_and resource "external" _).
Qed.

Lemma security_derived d d' : derived d d' -> check_security_opt d = Ok tt -> check_security_opt d' = Ok tt.
Proof. intros Hd. unfold check_security_opt. by rewrite (Hd (bs "security_opt")) by (by vm_compute). Qed.

Lemma validate_service_security n d : validate_service n d = Ok tt -> check_security_opt d = Ok tt.
Proof.
  unfold validate_service. destruct (as_object d); [|done]. cbn [required ok_or]. destruct (for_each _ _) as [[]|]; [|done].
  by destruct (check_security_opt d) as [[]|].
Qed.

(** Resources of the planned model: those of the project, an empty default network, the bridge. *)
Lemma stage_resources r m definitions model2 kind name resource :
  (if cr_native_network r is Some n then native_apply n (Object (<[bs "services" := Object definitions]> m))
   else Ok (Object (<[bs "services" := Object definitions]> m))) = Ok model2 ->
  kind ∈ ["volumes"; "networks"; "configs"; "secrets"]%string -> get (at_key model2 (bs kind)) name = Some resource ->
  get (at_key (Object m) (bs kind)) name = Some resource \/ resource = obj []
  \/ (kind = "networks"%string /\ name = RESOURCE /\ exists n, cr_native_network r = Some n /\ resource = bridge_network n).
Proof.
  intros H2 Hk Hg. assert (Hns : bs "services" <> bs kind).
  { rewrite !elem_of_cons, elem_of_nil in Hk. destruct Hk as [->|[->|[->|[->|[]]]]]; vm_compute; discriminate. }
  destruct (cr_native_network r) as [n|].
  - apply native_apply_spec with (services := definitions) in H2 as (services' & nd & networks & _ & Hnet & _ & ->); [|by rewrite lookup_insert_eq].
    rewrite lookup_insert_ne in Hnet by (vm_compute; discriminate).
    destruct (decide (kind = "networks"%string)) as [->|Hne].
    + rewrite at_key_insert in Hg. cbn [get] in Hg. apply lookup_insert_Some in Hg as [[<- <-]|[_ Hg]]; [right; right; split_and!; [done..|by exists n]|].
      assert (Hfrom : get (default (obj []) (m !! bs "networks")) name = Some resource \/ resource = obj []).
      { rewrite Hnet. unfold with_default in Hg. destruct (nd && _); [|by left]. apply lookup_insert_Some in Hg as [[_ <-]|[_ Hg]]; [by right|by left]. }
      destruct Hfrom as [Hfrom| ->]; [|by right; left]. left. unfold at_key. cbn [get]. by destruct (m !! bs "networks").
    + left. rewrite at_key_insert_ne in Hg.
      2: { rewrite !elem_of_cons, elem_of_nil in Hk. destruct Hk as [->|[->|[->|[->|[]]]]]; [..|]; try (vm_compute; discriminate). done. }
      by rewrite !at_key_insert_ne in Hg.
  - injection H2 as <-. left. by rewrite at_key_insert_ne in Hg.
Qed.

Lemma at_key_get v k w : get v k = Some w -> at_key v k = w.
Proof. unfold at_key. by intros ->. Qed.

(** A container's definition in the plan, from the project's. *)
Lemma begun_definition o model model1 services services' plan s :
  begun o model model1 services services' plan -> s ∈ plan_services (ro_plan o) ->
  exists d0 d4, services !! sp_name s = Some d0
    /\ at_key (at_key (plan_model (ro_plan o)) (bs "services")) (sp_name s) = d4
    /\ derived d0 d4 /\ get d4 (bs "ports") = Some (Array [])
    /\ (forall key : string, key ∈ UNSUPPORTED_KEYS -> get d0 (bs key) = None).
Proof.
  intros [_ _ Hserv Himg Hmodel Hplan [ids Hids] Hord] Hs. rewrite Hord in Hs. clear Hord.
  pose proof (plan_names _ _ _ Hplan) as (sv & Hsv & Hperm). apply at_key_object in Hserv as (m0 & -> & Hm0).
  cbn [set_key index_mut] in Hmodel. injection Hmodel as <-. rewrite at_key_insert in Hsv. injection Hsv as <-.
  assert (Hin : is_Some (services' !! sp_name s)).
  { apply elem_of_btree_keys. rewrite <- Hperm. apply list_elem_of_fmap. by exists s. }
  destruct Hin as [d1 Hd1]. specialize (Himg (sp_name s)). destruct (services !! sp_name s) as [d0|]; [|congruence].
  destruct Himg as (image & d1' & Hset & Hd1'). assert (d1' = d1) as -> by congruence.
  apply plan_new_stages in Hplan as (sv & definitions & plans0 & model2 & plans1 & model3 & plans & names & Hsv & H0 & H1 & _ & H2 & _ & _ & _ & Hpm).
  rewrite at_key_insert in Hsv. injection Hsv as <-. cbn [set_key index_mut] in H1. injection H1 as <-. rewrite insert_insert_eq in H2.
  destruct (stage_definition (ro_runtime o) m0 services' definitions plans0 model3 (sp_name s) d1 H0 Hd1 H2) as (fields & d3 & -> & Ha & Hd3).
  pose proof (attached_object _ _ _ Ha) as [f3 Hf3]. assert (Hg3 : get (at_key model3 (bs "services")) (sp_name s) = Some d3).
  { unfold at_key at 1 in Hd3. destruct (get (at_key model3 (bs "services")) (sp_name s)) as [w|]; [by f_equal|]. cbn in Hd3. by subst d3. }
  rewrite <- Hpm in Hg3. apply freeze_images_spec in Hids as [_ Hfr]. destruct (Hfr _ _ Hg3) as (d4 & Hd4 & D4 & P4).
  apply derived_attached in Ha as [D3 P3]. exists d0, d4. split_and!; [done|by apply at_key_get| | |].
  - eapply derived_trans; [eapply (derived_set "image"); [managed_key|exact Hset]|]. eapply derived_trans; [apply derived_prepared|].
    by eapply derived_trans.
  - rewrite P4, P3. unfold prepared_definition. cbn [get]. apply lookup_insert_eq.
  - intros key Hkey. destruct (plan_all_spec _ _ _ _ _ _ H0 (btree_keys_NoDup services') (sp_name s)) as [_ Hin].
    destruct (Hin (Object fields)) as (d' & q & Hq & _); [by apply elem_of_btree|]. apply plan_service_ok in Hq as (Hv & _).
    rewrite <- (plan_validate_unsupported _ _ key Hv Hkey). apply set_key_spec in Hset as [_ Hset]. symmetry. apply Hset.
    intros Heq. revert Hkey. unfold UNSUPPORTED_KEYS. rewrite !elem_of_cons, elem_of_nil.
    intros Hkey. destruct_or! Hkey; try done; subst key; revert Heq; vm_compute; discriminate.
Qed.

Lemma managed_allowed k : managed k = true -> one_of SERVICE_KEYS k = true /\ one_of UNSUPPORTED_KEYS k = false.
Proof.
  intros (key & Hkey & <-)%one_of_elem. unfold managed_keys in Hkey. rewrite !elem_of_cons, elem_of_nil in Hkey.
  destruct_or! Hkey; try done; subst key; vm_compute; done.
Qed.

Lemma one_of_false keys k : (forall s, s ∈ keys -> bs s <> k) -> one_of keys k = false.
Proof. intros Hno. apply not_true_iff_false. intros (s & Hs & Heq)%one_of_elem. by apply (Hno s). Qed.

Lemma begun_confined o model model1 services services' plan s slot cm :
  begun o model model1 services services' plan -> s ∈ plan_services (ro_plan o) ->
  container_model (ro_plan o) s slot (ro_runtime o) = Some cm ->
  exists root d, canonicalize (working_directory (ro_runtime o)) = Some root /\ confined (ro_runtime o) root s slot cm d.
Proof.
  intros Hb Hs Hcm. destruct (accepted_model _ _ _ (begun_production _ _ _ _ _ _ Hb) (begun_accepted _ _ _ _ _ _ Hb) (begun_services _ _ _ _ _ _ Hb))
    as (root & Hroot & Hres & Hserv).
  destruct (begun_definition _ _ _ _ _ _ _ Hb Hs) as (d0 & d4 & Hd0 & Hd4 & D4 & P4 & Huns).
  destruct (Hserv _ _ Hd0) as [Hv Hbinds]. apply container_model_spec in Hcm as (d & Hsingle & Hout & [D5 P5 L1 L2 L3]).
  rewrite Hd4 in D5, P5. pose proof (derived_trans _ _ _ D4 D5) as D. exists root, d. split; [done|]. split; [done| | | | |done|].
  - intros k v Hk. destruct (managed k) eqn:Hm; [apply managed_allowed in Hm as [-> ->]; by rewrite orb_true_r|].
    rewrite (D k Hm) in Hk. split; [by eapply validate_service_keys|]. apply one_of_false. intros key Hkey <-.
    rewrite (Huns key Hkey) in Hk. done.
  - eapply security_derived; [exact D|]. by eapply validate_service_security.
  - intros v Hin. apply (check_bind_confined root (sp_name s)), Hbinds. unfold at_key in *. rewrite (D (bs "volumes")) in Hin; [done|by vm_compute].
  - rewrite P5. destruct (is_ingress _ _); [done|exact P4].
  - intros kind name resource Hkind Hg. destruct Hb as [_ _ Hsv Himg Hmodel Hplan [ids Hids] _].
    assert (Hns : bs kind <> bs "services").
    { rewrite !elem_of_cons, elem_of_nil in Hkind. destruct_or! Hkind; try done; subst kind; vm_compute; discriminate. }
    unfold at_key in Hg. rewrite (Hout _ Hns) in Hg. apply freeze_images_spec in Hids as [Hfr _]. rewrite (Hfr _ Hns) in Hg.
    apply at_key_object in Hsv as (m0 & -> & Hm0). cbn [set_key index_mut] in Hmodel. injection Hmodel as <-.
    apply plan_new_stages in Hplan as (sv & definitions & plans0 & model2 & plans1 & model3 & plans & names & _ & _ & H1 & _ & H2 & _ & _ & _ & Hpm).
    cbn [set_key index_mut] in H1. injection H1 as <-. rewrite insert_insert_eq in H2. rewrite Hpm in Hg. change (get (at_key model3 (bs kind)) name = Some resource) in Hg.
    destruct (stage_resources _ _ _ _ _ _ _ H2 Hkind Hg) as [Hold|[->|Hbr]]; [left|left|by right].
    + by eapply validate_resources_internal.
    + by vm_compute.
Qed.
End Containers.
