(* ===== verification/ComposeSpec.v ===== *)
(** * Compose deployments: what is guaranteed

    The theorems on plans, updates, rollbacks and waiting, for every container engine, and an
    engine they are evaluated on. *)

From S2P Require Import Prelude RustStr Net Codec JsonValue Enrollment StaticFiles ManagementPolicy Protocol.
From S2P Require Import ComposeModel ComposeValidation ComposePlan ComposePlanProps ComposeRollout ComposeRolloutProps ComposeConfinement.

Section Theorems.
Context {H : Sha256Api} {J : SerdeJson} {F : ManagedFs} {G : ComposeFs}.
Implicit Types (r : ComposeRuntime) (model : Value) (p : Plan) (s : ServicePlan).

(** C32: a plan lists every service of the project once, after everything it depends on;
    what it depends on runs, and a dependency that has to complete is planned as a job that
    stops before it is replaced; replicas are at most 128 and the ingress has some and is no
    job.  An order is found exactly if every dependency is a service with replicas and there
    is no cycle, and planning never panics. *)
Theorem plan_is_topological :
  (forall model r p, plan_new model r = Ok p ->
     (exists services, as_object (at_key model (bs "services")) = Some services /\ sp_name <$> plan_services p ≡ₚ btree_keys services)
     /\ (forall i s d c, plan_services p !! i = Some s -> sp_dependencies s !! d = Some c ->
           exists j q, j < i /\ plan_services p !! j = Some q /\ sp_name q = d /\ sp_replicas q <> 0%Z
                       /\ (c = Completed -> sp_completed q = true /\ sp_order q = StopFirst))
     /\ forall s, s ∈ plan_services p ->
          (sp_replicas s <= 128)%Z /\ (sp_name s = cc_service (cr_config r) -> sp_replicas s <> 0%Z /\ sp_completed s = false))
  /\ (forall plans, (exists l, visit_all plans = Ok l) <-> dependencies_run plans /\ exists rank, ranked plans rank)
  /\ (forall model r, plan_new model r <> Err Panicked).
Proof.
  split_and!.
  - intros model r p Hp. split_and!; [by eapply plan_names| |].
    + intros i s d c Hi Hd. destruct (plan_dependencies_first _ _ _ _ _ _ _ Hp Hi Hd) as (j & q & ? & Hq & ? & ? & Hc).
      exists j, q. split_and!; try done. intros Hcomp. specialize (Hc Hcomp). split; [done|].
      apply list_elem_of_lookup_2 in Hq. destruct (plan_service_bounds _ _ _ _ Hp Hq) as (_ & Hstop & _). by apply Hstop.
    + intros s Hs. destruct (plan_service_bounds _ _ _ _ Hp Hs) as (? & _ & ?). by split.
  - intros plans. split; [|intros [Hrun Hrank]; by apply visit_all_complete]. intros [l Hl].
    destruct (visit_all_sound _ _ Hl) as (Hperm & Hfirst & Hrun). split; [done|]. apply (first_ranked plans l); [| |done].
    + rewrite Hperm. apply btree_keys_NoDup.
    + intros n Hn. rewrite Hperm. by apply elem_of_btree_keys.
  - apply plan_new_np.
Qed.

(** A fingerprint stands for what a service's containers are made of.  It does not change
    when only other services of the project change; and two services with the same
    fingerprint have the same identity document (the definition without scale and update
    settings, its dependencies, the resources it refers to with their contents), but for a
    collision of SHA-256. *)
Lemma fingerprints_track_contents :
  (forall model1 model2 r p1 p2 s1 s2,
     plan_new model1 r = Ok p1 -> plan_new model2 r = Ok p2 -> s1 ∈ plan_services p1 -> s2 ∈ plan_services p2 -> sp_name s1 = sp_name s2 ->
     get (at_key model1 (bs "services")) (sp_name s1) = get (at_key model2 (bs "services")) (sp_name s1) ->
     (forall kind, kind <> bs "services" -> get model1 kind = get model2 kind) ->
     cr_native_network r = None \/ is_Some (get (at_key model1 (bs "networks")) (bs "default")) ->
     sp_fingerprint s1 = sp_fingerprint s2)
  /\ (forall model1 model2 r p1 p2 s1 s2,
     plan_new model1 r = Ok p1 -> plan_new model2 r = Ok p2 -> s1 ∈ plan_services p1 -> s2 ∈ plan_services p2 ->
     sp_fingerprint s1 = sp_fingerprint s2 ->
     exists i1 i2, service_identity r (plan_model p1) s1 = Ok i1 /\ service_identity r (plan_model p2) s2 = Ok i2
       /\ (to_vec i1 = to_vec i2 \/ exists a b, a <> b /\ sha256 a = sha256 b)).
Proof.
  split.
  - intros model1 model2 r p1 p2 s1 s2 Hp1 Hp2 Hs1 Hs2 Hn Hdef Htop Hdefault.
    destruct (plan_view _ _ _ _ Hp1 Hs1) as (Hf1 & m1 & d1 & d1' & q1 & f1 & -> & Hd1 & Hps1 & Hdep1 & Hfields1 & Ha1 & Hk1).
    destruct (plan_view _ _ _ _ Hp2 Hs2) as (Hf2 & m2 & d2 & d2' & q2 & f2 & -> & Hd2 & Hps2 & Hdep2 & Hfields2 & Ha2 & Hk2).
    rewrite <- Hn in *. rewrite Hd1, Hd2 in Hdef. injection Hdef as <-. subst d1. injection Hfields2 as <-.
    assert (Hkinds : forall kind, bs kind ∈ resource_slots -> at_key (Object m1) (bs kind) = at_key (Object m2) (bs kind)).
    { intros kind Hk. unfold at_key. rewrite Htop; [done|]. intros Heq. rewrite Heq in Hk. revert Hk. apply (bool_decide_eq_false_1 (_ ∈ _)). vm_compute. reflexivity. }
    assert (Hnet : at_key (Object m1) (bs "networks") = at_key (Object m2) (bs "networks")) by (apply Hkinds; unfold resource_slots; set_solver).
    specialize (Hk1 Hdefault). rewrite Hnet in Hdefault. specialize (Hk2 Hdefault).
    assert (Hid : service_identity r (plan_model p1) s1 = service_identity r (plan_model p2) s2).
    { apply service_identity_ext; [done|congruence|by eapply attached_det|]. intros kind Hk. rewrite Hk1, Hk2, Hnet, (Hkinds kind) by done. done. }
    unfold fingerprint_of in Hf1, Hf2. rewrite Hid in Hf1. congruence.
  - intros model1 model2 r p1 p2 s1 s2 Hp1 Hp2 Hs1 Hs2 Heq.
    destruct (plan_view _ _ _ _ Hp1 Hs1) as [Hf1 _]. destruct (plan_view _ _ _ _ Hp2 Hs2) as [Hf2 _]. unfold fingerprint_of in *.
    destruct (service_identity r (plan_model p1) s1) as [i1|]; [|done]. destruct (service_identity r (plan_model p2) s2) as [i2|]; [|done].
    exists i1, i2. split_and!; [done|done|]. assert (Hh : sha256 (to_vec i1) = sha256 (to_vec i2)).
    { assert (Hhex : hex (sha256 (to_vec i1)) = hex (sha256 (to_vec i2))) by congruence. apply (f_equal unhex) in Hhex. by rewrite !unhex_hex in Hhex. }
    destruct (decide (to_vec i1 = to_vec i2)); [by left|right]. by exists (to_vec i1), (to_vec i2).
Qed.

(** Every command of a trace is justified: so is each one that is in it. *)
Lemma justified_in (K : Rule) t e : justified K t -> e ∈ t -> exists u, K u e.1.
Proof. intros Ht (t1 & t2 & ->)%list_elem_of_split. exists t1. by eapply Ht. Qed.


(** A deployment that reports no changes is left alone.  If the engine keeps showing the
    containers it showed before, which are distinct in service, slot and fingerprint, and
    nothing of the plan differs from them, then applying the plan only asks questions. *)
Lemma unchanged_deployment_is_untouched engine o schedule h :
  (forall h, (containers engine (ro_runtime o) h).2 = Ok (ro_before o)) ->
  (forall a b, a ∈ ro_before o -> b ∈ ro_before o ->
     c_service a = c_service b -> c_slot a = c_slot b -> c_fingerprint a = c_fingerprint b -> a = b) ->
  changes o = [] ->
  exists t, (apply engine schedule o h).1 = h ++ t /\ forall e, e ∈ t -> query e.1.
Proof.
  intros Hsteady Hunique Hch. destruct (unchanged_apply engine o Hsteady Hunique Hch schedule h) as (t & Ht & Jt). exists t. split; [done|].
  intros e He. by destruct (justified_in _ _ _ Jt He).
Qed.

(** C34: a rollback and the end of an update, against every engine.  A rollback removes only
    containers that were not there before, stops a predecessor only if it was down before,
    and starts one only if it was up, after everything of the attempt is gone and what it
    depends on was seen as it declares; if it succeeds, nothing of the attempt is left and
    every predecessor that was up runs, or was restarted and seen healthy.  Finishing stops
    and removes nothing that was selected, and if it succeeds everything else is gone. *)
Theorem rollback_and_finish_are_safe engine o h h1 current schedule :
  containers engine (ro_runtime o) h = (h1, Ok current) -> (forall n i, i < n -> i ∈ schedule n) ->
  (exists t, (rollback engine o h).1 = h1 ++ t /\ justified (rollback_rule o current) t
     /\ ((rollback engine o h).2 = Ok tt ->
         (forall c, c ∈ current -> ~ known o (c_id c) -> gone t (c_id c))
         /\ forall old, old ∈ ro_before o -> was_up old = true -> brought_back t old))
  /\ (exists t, (finish engine schedule o h).1 = h1 ++ t /\ justified (finish_rule o) t
     /\ ((finish engine schedule o h).2 = Ok tt -> forall c, c ∈ current -> ~ selected_id o (c_id c) -> gone t (c_id c))).
Proof. intros Hc Hsched. split; [by apply rollback_spec|by apply finish_spec]. Qed.

(** C35: waiting for a container ends.  With a clock that moves on by what was slept, the wait
    comes to a result of its own (it never exhausts its polls), however the engine answers,
    and if that is a container, it was observed in the state that was waited for, with no
    restart since. *)
Theorem waiting_ends engine container condition monitor h :
  clock engine -> (0 <= monitor)%Z ->
  exists t, (wait_ready engine container condition monitor h).1 = h ++ t
    /\ (wait_ready engine container condition monitor h).2 <> Err Panicked
    /\ forall c, (wait_ready engine container condition monitor h).2 = Ok c -> ready_as condition container t c.
Proof.
  intros Hclock Hm. destruct (spec_and _ _ _ _ (wait_ready_ends engine Hclock container condition monitor Hm h) (wait_ready_answer engine container condition monitor h))
    as (t & Ht & Hne & _ & Hok). by exists t.
Qed.
End Theorems.

(** ** An engine *)

Fixpoint show_value (v : Value) : str :=
  match v with
  | Null => bs "null"
  | Boolean b => bs (if b then "true" else "false")
  | Num (Integer z) => show_Z z
  | Num (Float z) => bs "f" ++ show_Z z
  | Text s => bs "'" ++ s ++ bs "'"
  | Array l => bs "[" ++ concat ((fun t => t ++ bs ",") <$> (show_value <$> l)) ++ bs "]"
  | Object m => bs "{" ++ concat ((fun kv => kv.1 ++ bs ":" ++ kv.2 ++ bs ",") <$> btree (show_value <$> m)) ++ bs "}"
  end.

Definition text (s : string) : Value := Text (bs s).
Definition object (l : list (string * Value)) : Value := obj ((fun kv => (bs kv.1, kv.2)) <$> l).

(** A database with a volume, and the web service that needs it healthy. *)
Definition demo_model : Value :=
  object [("services", object [
             ("web", object [("image", text "web"); ("depends_on", object [("db", object [("condition", text "service_healthy")])]);
                             ("deploy", object [("update_config", object [("monitor", text "200ms")])])]);
             ("db", object [("image", text "postgres");
                            ("deploy", object [("update_config", object [("monitor", text "200ms")])]);
                            ("volumes", Array [object [("type", text "volume"); ("source", text "data"); ("target", text "/data")]])])]);
          ("volumes", object [("data", object [])]);
          ("networks", object [("default", object [])])]%string.

(** Texts of the engine's documents: the model, an image, a container as
    [state/id/generation/fingerprint]. *)
Definition demo_document (s : str) : option Value :=
  if str_eqb s (bs "config") then Some demo_model
  else if str_eqb s (bs "image") then Some (object [("id", text "sha256:0"); ("volumes", Null)]%string)
  else match split "/"%char s with
       | [state; id; generation; fingerprint] =>
           Some (obj [(bs "id", Text id); (bs "state", Text state); (bs "health", Text (bs "healthy"));
                      (bs "labels", obj [(bs "com.docker.compose.service", Text generation);
                                         (SERVICE_LABEL, Text (fst (splitn2 "-"%char generation)));
                                         (FINGERPRINT_LABEL, Text fingerprint)])])
       | _ => None
       end.

Definition demo_json : SerdeJson := {| to_vec := show_value; from_slice := demo_document |}.

(** Containers, as the commands so far left them. *)
Record DemoContainer := mkDemo { dc_id : str; dc_generation : str; dc_fingerprint : str; dc_state : str }.

Definition demo_set (p : DemoContainer -> bool) (state : string) (l : list DemoContainer) : list DemoContainer :=
  (fun c => if p c then mkDemo (dc_id c) (dc_generation c) (dc_fingerprint c) (bs state) else c) <$> l.

Definition demo_step (l : list DemoContainer) (e : Event) : list DemoContainer :=
  match e.1 with
  | ComposeCreate m g =>
      let fingerprint := match pointer m [bs "services"; g; bs "labels"; FINGERPRINT_LABEL] with Some v => text_or_empty v | None => [] end in
      l ++ [mkDemo (replicate 63 "0"%char ++ show_Z (Z.of_nat (length l))) g fingerprint (bs "created")]
  | ComposeStart _ g => demo_set (fun c => str_eqb (dc_generation c) g) "running" l
  | ContainerStart id => demo_set (fun c => str_eqb (dc_id c) id) "running" l
  | ContainerStop id => demo_set (fun c => str_eqb (dc_id c) id) "exited" l
  | ContainerRemove id => retain (fun c => negb (str_eqb (dc_id c) id)) l
  | _ => l
  end.

Definition demo_state (h : list Event) : list DemoContainer := fold_left demo_step h [].

(** A clock that never shows less than it has. *)
Definition demo_clock_step (t : Z) (e : Event) : Z :=
  match e with
  | (Now, Time a) => Z.max t a
  | (Sleep d, _) => t + Z.max 0 d
  | _ => t
  end.

Definition demo_engine : Engine := fun h cmd =>
  match cmd with
  | Now => Time (fold_left demo_clock_step h 0%Z)
  | ComposeConfigJson => Exited true (bs "config") []
  | ImageInspect _ _ => Exited true (bs "image") []
  | ListContainers _ => Exited true (concat ((fun c => dc_id c ++ bs " ") <$> demo_state h)) []
  | ContainerInspect id =>
      match find_first (fun c => str_eqb (dc_id c) id) (demo_state h) with
      | Some c => Exited true (dc_state c ++ "/"%char :: dc_id c ++ "/"%char :: dc_generation c ++ "/"%char :: dc_fingerprint c) []
      | None => Exited false [] (bs "No such container")
      end
  | _ => Exited true [] []
  end.

Definition demo_managed_fs : ManagedFs := {|
  canonicalize p := if starts_with p (bs "/") then Some p else None;
  path_is_dir _ := true; symlink_metadata _ := EntryDir |}.
Definition demo_compose_fs : ComposeFs := {| path_is_file _ := false; read_entry _ := FsFile false [] |}.

Definition demo_config : ComposeConfig := mkCompose (bs "compose.yaml") (bs "web") 3000 (bs "/") None.
Definition demo_env : gmap str str := {[ TAKO_APP_DATA_DIR_ENV := bs "/srv/app/data/app" ]}.

#[local] Existing Instances demo_sha256 demo_json demo_managed_fs demo_compose_fs.

Definition demo_runtime : ComposeRuntime :=
  mkComposeRuntime (bs "tako-demo") (bs "/srv/app/release") demo_config demo_env false OVERRIDE_FILE None ∅ None.
Definition demo_record : option (str * gmap str str) :=
  Some (bs "prepared-1", {[ bs "web" := bs "web:1"; bs "db" := bs "db:1" ]}).

Definition no_rollout : Rollout := mkRollout demo_runtime (mkPlan Null []) [] [].
Definition rollout_of (x : result Rollout Failure) : Rollout := match x with Ok o => o | Err _ => no_rollout end.
Definition declared_order (n : nat) : list nat := seq 0 n.

Lemma declared_order_all n i : i < n -> i ∈ declared_order n.
Proof. intros Hi. apply list_elem_of_In, in_seq. lia. Qed.

Lemma rollout_of_ok (x : list Event * result Rollout Failure) : is_ok x.2 = true -> x = (x.1, Ok (rollout_of x.2)).
Proof. by destruct x as [h [o|e]]. Qed.

(** A first deployment, and the beginning of a second one that changes nothing. *)
Definition demo_first := begin_rollout demo_engine demo_runtime true demo_record [].
Definition demo_applied := apply demo_engine declared_order (rollout_of demo_first.2) demo_first.1.
Definition demo_second := begin_rollout demo_engine demo_runtime true demo_record demo_applied.1.

Lemma demo_first_ok : demo_first = (demo_first.1, Ok (rollout_of demo_first.2)).
Proof. apply rollout_of_ok. vm_compute. reflexivity. Qed.
Lemma demo_applied_ok : is_ok demo_applied.2 = true.
Proof. vm_compute. reflexivity. Qed.
Lemma demo_second_ok : demo_second = (demo_second.1, Ok (rollout_of demo_second.2)).
Proof. apply rollout_of_ok. vm_compute. reflexivity. Qed.

(** An engine on which the containers of the first deployment stay. *)
Definition steady_engine : Engine := fun h cmd =>
  match cmd with
  | ListContainers _ | ContainerInspect _ => demo_engine demo_applied.1 cmd
  | _ => demo_engine h cmd
  end.

Lemma demo_clock : clock demo_engine.
Proof.
  split; [by eexists|]. intros h1 a h2 b [= <-]. rewrite fold_left_app. cbn [fold_left demo_clock_step].
  assert (Hle : forall h t, (t + slept h <= fold_left demo_clock_step h t)%Z).
  { intros h. induction h as [|[cmd ans] h IH]; intros t; cbn [fold_left slept]; [lia|].
    specialize (IH (demo_clock_step t (cmd, ans))). destruct cmd; cbn [demo_clock_step] in *; try lia. destruct ans; lia. }
  etrans; [|apply Hle]. lia.
Qed.

(** ** Witnesses *)

Definition plan_of (x : result Plan Failure) : Plan := match x with Ok p => p | Err _ => mkPlan Null [] end.
Definition demo_plan : Plan := plan_of (plan_new demo_model demo_runtime).

Lemma demo_plan_ok : plan_new demo_model demo_runtime = Ok demo_plan.
Proof.
  unfold demo_plan. assert (Hok : is_ok (plan_new demo_model demo_runtime) = true) by (vm_compute; reflexivity).
  by destruct (plan_new demo_model demo_runtime).
Qed.

Definition demo_service (p : Plan) (i : nat) : ServicePlan :=
  match plan_services p !! i with Some s => s | None => mkServicePlan [] [] 0 StopFirst 0 ∅ false end.

Lemma demo_service_in : demo_service demo_plan 0 ∈ plan_services demo_plan /\ plan_services demo_plan !! 1 = Some (demo_service demo_plan 1).
Proof. split; [|vm_compute; reflexivity]. apply (list_elem_of_lookup_2 _ 0). vm_compute. reflexivity. Qed.

Lemma plan_is_topological_witness :
  exists j q, j < 1 /\ plan_services demo_plan !! j = Some q /\ sp_name q = bs "db".
Proof.
  destruct (proj1 plan_is_topological demo_model demo_runtime demo_plan demo_plan_ok) as (_ & Hdep & _).
  destruct (Hdep 1 (demo_service demo_plan 1) (bs "db") Healthy (proj2 demo_service_in)) as (j & q & Hlt & Hq & Hn & _); [vm_compute; reflexivity|].
  exists j, q. split_and!; [exact Hlt|exact Hq|exact Hn].
Defined.

(** The project with another image for the web service. *)
Definition demo_model2 : Value :=
  default Null (index_mut demo_model (bs "services") (fun v => index_mut v (bs "web") (fun d => set_key d (bs "image") (text "web:2")))).
Definition demo_plan2 : Plan := plan_of (plan_new demo_model2 demo_runtime).

Lemma demo_plan2_ok : plan_new demo_model2 demo_runtime = Ok demo_plan2.
Proof.
  unfold demo_plan2. assert (Hok : is_ok (plan_new demo_model2 demo_runtime) = true) by (vm_compute; reflexivity).
  by destruct (plan_new demo_model2 demo_runtime).
Qed.

Lemma demo_model2_top kind : kind <> bs "services" -> get demo_model kind = get demo_model2 kind.
Proof.
  intros Hk. destruct (index_mut_spec demo_model (bs "services") (fun v => index_mut v (bs "web") (fun d => set_key d (bs "image") (text "web:2"))) demo_model2)
    as (w & _ & _ & Hother); [vm_compute; reflexivity|]. symmetry. by apply Hother.
Qed.

Lemma fingerprints_track_contents_witness :
  sp_fingerprint (demo_service demo_plan 0) = sp_fingerprint (demo_service demo_plan2 0).
Proof.
  apply (proj1 fingerprints_track_contents demo_model demo_model2 demo_runtime demo_plan demo_plan2); [exact demo_plan_ok|exact demo_plan2_ok|exact (proj1 demo_service_in)| | | |exact demo_model2_top|by left].
  - apply (list_elem_of_lookup_2 _ 0). vm_compute. reflexivity.
  - vm_compute. reflexivity.
  - vm_compute. reflexivity.
Defined.


Lemma unchanged_deployment_is_untouched_witness :
  exists t, (apply steady_engine declared_order (rollout_of demo_second.2) demo_second.1).1 = demo_second.1 ++ t /\ forall e, e ∈ t -> query e.1.
Proof.
  apply (unchanged_deployment_is_untouched steady_engine (rollout_of demo_second.2) declared_order demo_second.1).
  - intros h. vm_compute. reflexivity.
  - intros a b Ha Hb. revert a b Ha Hb.
    assert (Hall : Forall (fun a => Forall (fun b => c_service a = c_service b -> a = b) (ro_before (rollout_of demo_second.2))) (ro_before (rollout_of demo_second.2))).
    { vm_compute. repeat constructor; discriminate. }
    intros a b Ha Hb Hs _ _. rewrite Forall_forall in Hall. specialize (Hall a Ha). rewrite Forall_forall in Hall. exact (Hall b Hb Hs).
  - vm_compute. reflexivity.
Defined.

Definition demo_current := containers demo_engine demo_runtime demo_applied.1.

Lemma rollback_and_finish_are_safe_witness :
  exists current t, demo_current.2 = Ok current /\ length current = 2
    /\ (rollback demo_engine (rollout_of demo_first.2) demo_applied.1).1 = demo_current.1 ++ t
    /\ (forall c, c ∈ current -> ~ known (rollout_of demo_first.2) (c_id c) -> gone t (c_id c)).
Proof.
  destruct demo_current.2 as [current|] eqn:Hc; [|exfalso; revert Hc; vm_compute; discriminate].
  assert (Heq : containers demo_engine (ro_runtime (rollout_of demo_first.2)) demo_applied.1 = (demo_current.1, Ok current)).
  { rewrite <- Hc. transitivity demo_current; [vm_compute; reflexivity|apply surjective_pairing]. }
  destruct (rollback_and_finish_are_safe demo_engine (rollout_of demo_first.2) demo_applied.1 demo_current.1 current declared_order Heq declared_order_all) as [(t & Ht & _ & Hok) _].
  exists current, t. split_and!; [reflexivity| |exact Ht|].
  - assert (Hl : (match demo_current.2 with Ok l => length l | Err _ => 0 end) = 2) by (vm_compute; reflexivity). rewrite Hc in Hl. exact Hl.
  - apply Hok. vm_compute. reflexivity.
Defined.

Definition demo_container : ServiceContainer :=
  mkContainer (replicate 64 "0"%char) (bs "db") (bs "db-0") 0 [] (bs "running") (bs "healthy") 0 0 [] None None [] ∅.

Lemma waiting_ends_witness :
  (wait_ready demo_engine demo_container None 200000000 []).2 <> Err Panicked.
Proof.
  destruct (waiting_ends demo_engine demo_container None 200000000 [] demo_clock) as (t & _ & Hne & _); [lia|exact Hne].
Defined.
