(* ===== verification/PosixFs.v ===== *)
(** * A file system with several users

    Directories, files and links with their owners and permission bits, as the system calls
    that the sources make see them.  A computation [Sys] is a sequence of system calls; other
    tasks and other users act between any two of them, and any call may fail. *)

From S2P Require Import Prelude RustStr Net StaticFiles ManagementPolicy.

(** ** Nodes *)

(** A link leads to the node it was made for; only links to directories are followed. *)
Inductive Kind := KDir | KFile | KSymlink (target : nat) | KSpecial.

Record Inode := mkInode {
  i_kind : Kind;
  i_uid : Z;
  i_mode : Z;
  i_nlink : Z;
  i_mtime : Z;
  i_data : str;
}.

(** Names in directories, nodes, and the files that are open for writing, with the name they
    were created by.  Nodes are not reused. *)
Record Fs := mkFs {
  entries : gmap (nat * str) nat;
  inodes : gmap nat Inode;
  writing : gmap nat str;
}.

Definition Path : Type := list Component.

(** The directory "/". *)
Definition ROOT : nat := 0.

Definition is_kdir (k : Kind) : bool := match k with KDir => true | _ => false end.
Definition is_kfile (k : Kind) : bool := match k with KFile => true | _ => false end.
Definition is_klink (k : Kind) : bool := match k with KSymlink _ => true | _ => false end.

Definition dir_node (fs : Fs) (i : nat) : bool := match inodes fs !! i with Some n => is_kdir (i_kind n) | None => false end.

(** The directory that a name is looked up in. *)
Definition enter (fs : Fs) (i : nat) : option nat :=
  let! n := inodes fs !! i in
  match i_kind n with
  | KDir => Some i
  | KSymlink t => if dir_node fs t then Some t else None
  | _ => None
  end.

(** Relative paths are refused before they are looked up. *)
Definition walk_step (fs : Fs) (at_ : option nat) (c : Component) : option nat :=
  match c with
  | RootDir => Some ROOT
  | CurDir => let! i := at_ in enter fs i
  | ParentDir => let! i := at_ in let! d := enter fs i in entries fs !! (d, bs "..")
  | Normal name => let! i := at_ in let! d := enter fs i in entries fs !! (d, name)
  end.

Definition walk (fs : Fs) (p : Path) : option nat := fold_left (walk_step fs) p None.

(** The directory and the name that a path ends in. *)
Definition locate (fs : Fs) (p : Path) : option (nat * str) :=
  match rev p with
  | Normal name :: parent => let! i := walk fs (rev parent) in let! d := enter fs i in Some (d, name)
  | _ => None
  end.

(** [Path::parent]: absolute paths have one up to the root. *)
Definition path_parent (p : Path) : option Path :=
  match rev p with
  | RootDir :: _ | [] => None
  | _ :: parent => Some (rev parent)
  end.

Definition path_is_absolute (p : Path) : bool := match p with RootDir :: _ => true | _ => false end.

(** ** Changes of a file system *)

Definition set_nlink (n : Inode) (nlink : Z) : Inode := mkInode (i_kind n) (i_uid n) (i_mode n) nlink (i_mtime n) (i_data n).
Definition set_mode (n : Inode) (mode : Z) : Inode := mkInode (i_kind n) (i_uid n) mode (i_nlink n) (i_mtime n) (i_data n).
Definition set_data (n : Inode) (data : str) (mtime : Z) : Inode := mkInode (i_kind n) (i_uid n) (i_mode n) (i_nlink n) mtime data.

Definition relink (delta : Z) (i : nat) (m : gmap nat Inode) : gmap nat Inode :=
  alter (fun n => set_nlink n (i_nlink n + delta)) i m.

(** A new node under a new name. *)
Definition add_node (fs : Fs) (d : nat) (name : str) (i : nat) (n : Inode) : Fs :=
  mkFs (<[(d, name) := i]> (entries fs)) (<[i := n]> (inodes fs)) (writing fs).

Definition remove_name (fs : Fs) (d : nat) (name : str) (i : nat) : Fs :=
  mkFs (delete (d, name) (entries fs)) (relink (-1) i (inodes fs)) (writing fs).

(** The name moves; what had the new name loses it. *)
Definition move_name (fs : Fs) (d : nat) (name : str) (i : nat) (d' : nat) (name' : str) : Fs :=
  mkFs (<[(d', name') := i]> (delete (d, name) (entries fs)))
       (match entries fs !! (d', name') with
        | Some j => if bool_decide (j = i) then inodes fs else relink (-1) j (inodes fs)
        | None => inodes fs
        end) (writing fs).

Definition write_node (fs : Fs) (i : nat) (n : Inode) : Fs := mkFs (entries fs) (<[i := n]> (inodes fs)) (writing fs).

Definition set_writing (fs : Fs) (w : gmap nat str) : Fs := mkFs (entries fs) (inodes fs) w.

(** ** System calls *)

Inductive FsError := FsNotFound | FsExists | FsOther.

(** What the rest of the system does before a call, whether the call fails, how much a failed
    write still wrote, the clock, and the order in which a directory is read. *)
Record Env := mkEnv {
  act : nat -> Fs -> Fs;
  fails : nat -> bool;
  partial : nat -> nat;
  clock : nat -> Z;
  dir_order : nat -> list str -> list str;
}.

Definition World : Type := Fs * nat.
Definition Sys (A : Type) : Type := World -> World * A.

Definition ret {A} (a : A) : Sys A := fun w => (w, a).
Definition bind {A B} (m : Sys A) (k : A -> Sys B) : Sys B := fun w => let '(w', a) := m w in k a w'.

Declare Scope sys_scope.
Delimit Scope sys_scope with sys.
Notation "'do' x <- m ; k" := (bind m (fun x => k)) (at level 20, x pattern, m at level 100, k at level 200, right associativity) : sys_scope.
Open Scope sys_scope.

Section Calls.
Variable env : Env.
Variable euid : Z.

(** One call: the rest of the system acts first. *)
Definition sys {A} (call : nat -> Fs -> Fs * A) : Sys A :=
  fun w => let '(fs', a) := call w.2 (act env w.2 w.1) in ((fs', S w.2), a).

Definition io_call {A} (call : nat -> Fs -> Fs * result A FsError) : Sys (result A FsError) :=
  sys (fun k fs => if fails env k then (fs, Err FsOther) else call k fs).

(** [symlink_metadata], [File::metadata]. *)
Definition stat_of (fs : Fs) (at_ : option nat) : result Inode FsError :=
  match at_ with
  | Some i => match inodes fs !! i with Some n => Ok n | None => Err FsOther end
  | None => Err FsNotFound
  end.

Definition lstat (p : Path) : Sys (result Inode FsError) := io_call (fun _ fs => (fs, stat_of fs (walk fs p))).

Definition fstat (i : nat) : Sys (result Inode FsError) := io_call (fun _ fs => (fs, stat_of fs (Some i))).

(** [open] with [O_NOFOLLOW]. *)
Definition open_nofollow (p : Path) : Sys (result nat FsError) :=
  io_call (fun _ fs => (fs, match walk fs p with
    | Some i => match inodes fs !! i with
                | Some n => if is_klink (i_kind n) then Err FsOther else Ok i
                | None => Err FsOther
                end
    | None => Err FsNotFound
    end)).

(** [read_to_end]: what the file holds; nobody writes a published file. *)
Definition read_to_end (i : nat) : Sys (result str FsError) :=
  io_call (fun _ fs => (fs, let? n := stat_of fs (Some i) in Ok (i_data n))).

Definition fresh_node (fs : Fs) : nat := fresh (dom (inodes fs)).

(** A new node at a path that names nothing yet. *)
Definition make (p : Path) (n : Z -> Inode) (k : nat) (fs : Fs) : Fs * result (nat * str) FsError :=
  match locate fs p with
  | None => (fs, Err FsNotFound)
  | Some (d, name) =>
      match entries fs !! (d, name) with
      | Some _ => (fs, Err FsExists)
      | None => (add_node fs d name (fresh_node fs) (n (clock env k)), Ok (fresh_node fs, name))
      end
  end.

(** [mkdir] with mode 0700; the umask leaves the owner's bits alone. *)
Definition mkdir_private (p : Path) : Sys (result unit FsError) :=
  io_call (fun k fs => match make p (fun t => mkInode KDir euid 448 2 t []) k fs with
    | (fs', Ok _) => (fs', Ok tt)
    | (fs', Err e) => (fs', Err e)
    end).

(** [open] with [O_CREAT | O_EXCL] for writing, with mode 0600. *)
Definition create_new (p : Path) : Sys (result nat FsError) :=
  io_call (fun k fs => match make p (fun t => mkInode KFile euid 384 1 t []) k fs with
    | (fs', Ok (i, name)) => (set_writing fs' (<[i := name]> (writing fs')), Ok i)
    | (fs', Err e) => (fs', Err e)
    end).

Definition put_data (i : nat) (data : str) (k : nat) (fs : Fs) : Fs :=
  match inodes fs !! i with
  | Some n => write_node fs i (set_data n data (clock env k))
  | None => fs
  end.

(** [write_all] to a file that was just created. *)
Definition write_all (i : nat) (bytes : str) : Sys (result unit FsError) :=
  sys (fun k fs => if fails env k then (put_data i (take (partial env k) bytes) k fs, Err FsOther)
                   else (put_data i bytes k fs, Ok tt)).

Definition flush : Sys (result unit FsError) := io_call (fun _ fs => (fs, Ok tt)).

Definition close (i : nat) : Sys unit := sys (fun _ fs => (set_writing fs (delete i (writing fs)), tt)).

(** [rename] of a file. *)
Definition rename (p q : Path) : Sys (result unit FsError) :=
  io_call (fun _ fs =>
    match locate fs p, locate fs q with
    | Some (d, name), Some (d', name') =>
        match entries fs !! (d, name) with
        | None => (fs, Err FsNotFound)
        | Some i =>
            if dir_node fs i || match entries fs !! (d', name') with Some j => dir_node fs j | None => false end
            then (fs, Err FsOther) else (move_name fs d name i d' name', Ok tt)
        end
    | _, _ => (fs, Err FsNotFound)
    end).

Definition remove_file (p : Path) : Sys (result unit FsError) :=
  io_call (fun _ fs =>
    match locate fs p with
    | None => (fs, Err FsNotFound)
    | Some (d, name) =>
        match entries fs !! (d, name) with
        | None => (fs, Err FsNotFound)
        | Some i => if dir_node fs i then (fs, Err FsOther) else (remove_name fs d name i, Ok tt)
        end
    end).

(** The names in a directory. *)
Definition names_in (fs : Fs) (d : nat) : list str :=
  omap (fun e : (nat * str) * nat => if bool_decide (e.1.1 = d) then Some e.1.2 else None) (map_to_list (entries fs)).

Definition remove_dir (p : Path) : Sys (result unit FsError) :=
  io_call (fun _ fs =>
    match locate fs p with
    | None => (fs, Err FsNotFound)
    | Some (d, name) =>
        match entries fs !! (d, name) with
        | None => (fs, Err FsNotFound)
        | Some i =>
            if dir_node fs i && bool_decide (names_in fs i = []) then (remove_name fs d name i, Ok tt) else (fs, Err FsOther)
        end
    end).

Definition read_dir (p : Path) : Sys (result (list str) FsError) :=
  io_call (fun k fs => (fs,
    match walk fs p with
    | Some i => match enter fs i with Some d => Ok (dir_order env k (names_in fs d)) | None => Err FsOther end
    | None => Err FsNotFound
    end)).

(** The next entry of a directory that is being read can be read. *)
Definition next_entry : Sys bool := sys (fun k fs => (fs, negb (fails env k))).

Definition now : Sys Z := sys (fun k fs => (fs, clock env k)).
End Calls.
