(* ===== verification/ImageCache.v ===== *)
(** * The cache of transformed images (tako-server/src/proxy/service/image/cache.rs)

    Transformed images are kept on disk below a private directory in the temporary directory
    of the machine, which other users can write to.  Also the leases by which concurrent
    requests for one transformation wait for each other. *)

From S2P Require Import Prelude RustStr Net Codec Enrollment StaticFiles ManagementPolicy ImageSource Images PosixFs.

(** ** Keys *)

Record TransformOptions := mkTransform {
  to_format : OutputFormat;
  to_width : Z;
  to_height : option Z;
  to_fit : option ImageFit;
  to_crop : option ImageCrop;
  to_quality : Z;
}.

Definition CACHE_VERSION : str := bs "tako-image-transform-v1".

Definition output_format_code (f : OutputFormat) : str := match f with Avif => bs "avif" | Webp => bs "webp" end.
Definition fit_code (f : ImageFit) : str := match f with Cover => bs "cover" | Contain => bs "contain" end.
Definition crop_code (c : ImageCrop) : str := match c with Center => bs "center" | Smart => bs "smart" end.

(** A field of the hashed text: its name on a line of its own, then its bytes. *)
Definition field (name : string) : str := of_byte 10 :: bs name ++ [of_byte 10].

Definition transform_cache_text (app_name app_root source : str) (o : TransformOptions) : str :=
  CACHE_VERSION ++ field "app" ++ app_name ++ field "root" ++ app_root ++ field "source" ++ source
  ++ field "format" ++ output_format_code (to_format o) ++ field "width" ++ to_be 4 (to_width o)
  ++ field "height" ++ to_be 4 (default 0%Z (to_height o)) ++ field "fit" ++ default [] (fit_code <$> to_fit o)
  ++ field "crop" ++ default [] (crop_code <$> to_crop o) ++ field "quality" ++ to_be 1 (to_quality o).

Section Key.
Context {H : Sha256Api}.

Definition transform_cache_key (app_name app_root source : str) (o : TransformOptions) : str :=
  hex (sha256 (transform_cache_text app_name app_root source o)).
End Key.

(** ** Trust *)

Section Cache.
Variable env : Env.
Variable euid : Z.

(** A regular file of this user that nobody else can write to, under one name. *)
Definition trusted_cache_file (n : Inode) : bool :=
  is_kfile (i_kind n) && (i_uid n =? euid)%Z && (Z.land (i_mode n) 18 =? 0)%Z && (i_nlink n =? 1)%Z.

(** A directory of root or this user, in which nobody else can replace our entries. *)
Definition trusted_ancestor (n : Inode) : bool :=
  negb (negb (is_kdir (i_kind n))
        || (negb (i_uid n =? 0)%Z && negb (i_uid n =? euid)%Z)
        || (negb (Z.land (i_mode n) 18 =? 0)%Z && (Z.land (i_mode n) 512 =? 0)%Z)).

Fixpoint check_ancestors (current parts : Path) : Sys bool :=
  match parts with
  | [] => ret true
  | part :: parts' =>
      let current := current ++ [part] in
      do metadata <- lstat env current;
      match metadata with
      | Ok n => if trusted_ancestor n then check_ancestors current parts' else ret false
      | Err _ => ret false
      end
  end.

Definition is_parent_dir (c : Component) : bool := match c with ParentDir => true | _ => false end.

Definition trusted_ancestors (path : Path) : Sys bool :=
  if negb (path_is_absolute path) || any is_parent_dir path then ret false else check_ancestors [] path.

Definition private_dir (n : Inode) : bool := (i_uid n =? euid)%Z && (Z.land (i_mode n) 511 =? 448)%Z.

Definition cache_dir_is_private (path : Path) : Sys bool :=
  do trusted <- trusted_ancestors path;
  if negb trusted then ret false
  else
    do metadata <- lstat env path;
    ret (match metadata with Ok n => private_dir n | Err _ => false end).

Definition ensure_private_cache_dir (path : Path) : Sys bool :=
  match path_parent path with
  | None => ret false
  | Some parent =>
      do trusted <- trusted_ancestors parent;
      if negb trusted then ret false
      else
        do created <- mkdir_private env euid path;
        match created with
        | Ok _ | Err FsExists => cache_dir_is_private path
        | Err _ => ret false
        end
  end.

Definition cache_file_is_trusted (root path : Path) : Sys bool :=
  match path_parent path with
  | None => ret false
  | Some parent =>
      do root_private <- cache_dir_is_private root;
      if negb root_private then ret false
      else
        do parent_private <- cache_dir_is_private parent;
        if negb parent_private then ret false
        else
          do metadata <- lstat env path;
          ret (match metadata with Ok n => trusted_cache_file n | Err _ => false end)
  end.

(** ** Reading *)

Definition cache_path (root : Path) (key : str) : option Path :=
  if (length key <? 4)%nat || negb (all is_ascii_hexdigit key) then None
  else Some (root ++ [Normal (take 2 key)] ++ [Normal (drop 2 key)]).

Definition is_webp (bytes : str) : bool :=
  (12 <=? length bytes)%nat && str_eqb (take 4 bytes) (bs "RIFF") && str_eqb (take 4 (drop 8 bytes)) (bs "WEBP").

Definition is_avif (bytes : str) : bool :=
  (12 <=? length bytes)%nat && str_eqb (take 4 (drop 4 bytes)) (bs "ftyp")
  && (contains_str (drop 8 bytes) (bs "avif") || contains_str (drop 8 bytes) (bs "avis")).

Definition content_type_for_format (f : OutputFormat) : str := match f with Avif => bs "image/avif" | Webp => bs "image/webp" end.

Definition cached_content_type (bytes : str) (requested_format : OutputFormat) : str :=
  if is_webp bytes then bs "image/webp"
  else if is_avif bytes then bs "image/avif" else content_type_for_format requested_format.

Record CachedTransform := mkCached { ct_bytes : str; ct_content_type : str }.

Definition read (root : Path) (key : str) (format : OutputFormat) : Sys (option CachedTransform) :=
  match cache_path root key with
  | None => ret None
  | Some path =>
      do trusted <- cache_file_is_trusted root path;
      if negb trusted then ret None
      else
        do opened <- open_nofollow env path;
        match opened with
        | Err _ => ret None
        | Ok file =>
            do metadata <- fstat env file;
            match metadata with
            | Err _ => ret None
            | Ok n =>
                if negb (trusted_cache_file n) then ret None
                else
                  do content <- read_to_end env file;
                  ret (match content with
                       | Ok bytes => Some (mkCached bytes (cached_content_type bytes format))
                       | Err _ => None
                       end)
            end
        end
  end.

(** ** Pruning *)

Definition GIB : Z := 1073741824.
Definition TRANSFORM_CACHE_MIN_BYTES : Z := GIB.
Definition TRANSFORM_CACHE_FALLBACK_BYTES : Z := 2 * GIB.
Definition TRANSFORM_CACHE_MAX_BYTES : Z := 4 * GIB.
Definition TRANSFORM_CACHE_FILESYSTEM_FRACTION : Z := 20.
(** Times are in nanoseconds. *)
Definition TRANSFORM_CACHE_MAX_AGE : Z := 30 * 24 * 60 * 60 * 1000000000.

Record TransformCachePolicy := mkPolicy { max_bytes : Z; max_age : Z }.

Definition transform_cache_max_bytes_for_filesystem_bytes (total_bytes : Z) : Z :=
  clamp TRANSFORM_CACHE_MIN_BYTES TRANSFORM_CACHE_MAX_BYTES (total_bytes / TRANSFORM_CACHE_FILESYSTEM_FRACTION).

(** [statvfs] tells the size of the file system, or fails. *)
Definition transform_cache_max_bytes (filesystem_total_bytes : option Z) : Z :=
  match filesystem_total_bytes with
  | Some total => transform_cache_max_bytes_for_filesystem_bytes total
  | None => TRANSFORM_CACHE_FALLBACK_BYTES
  end.

Definition policy_for_root (filesystem_total_bytes : option Z) : TransformCachePolicy :=
  mkPolicy (transform_cache_max_bytes filesystem_total_bytes) TRANSFORM_CACHE_MAX_AGE.

Record CacheFile := mkCacheFile { cf_path : Path; cf_len : Z; cf_modified : Z }.

Definition cache_file (path : Path) (n : Inode) : CacheFile := mkCacheFile path (Z.of_nat (length (i_data n))) (i_mtime n).

Definition cache_file_is_expired (file : CacheFile) (now max_age : Z) : bool := (max_age <=? Z.max 0 (now - cf_modified file))%Z.

(** The names that [cache_path] makes. *)
Definition cache_name (prefix suffix : str) : bool :=
  (length prefix =? 2)%nat && negb (bool_decide (suffix = [])) && (4 <=? length prefix + length suffix)%nat
  && all is_ascii_hexdigit prefix && all is_ascii_hexdigit suffix.

Definition is_cache_file_path (root path : Path) : bool :=
  match strip_components root path with
  | Some [Normal prefix; Normal suffix] => cache_name prefix suffix
  | _ => false
  end.

(** The loops over the entries of a directory stop when reading it fails. *)
Fixpoint collect_children (root path : Path) (names : list str) (files : list CacheFile) : Sys (list CacheFile) :=
  match names with
  | [] => ret files
  | name :: names' =>
      do more <- next_entry env;
      if negb more then ret files
      else
        let child_path := path ++ [Normal name] in
        do file_type <- lstat env child_path;
        match file_type with
        | Err _ => collect_children root path names' files
        | Ok t =>
            if negb (is_kfile (i_kind t)) || is_klink (i_kind t) || negb (is_cache_file_path root child_path)
            then collect_children root path names' files
            else
              do child_metadata <- lstat env child_path;
              match child_metadata with
              | Err _ => collect_children root path names' files
              | Ok n => collect_children root path names' (if trusted_cache_file n then files ++ [cache_file child_path n] else files)
              end
        end
  end.

Fixpoint collect_dirs (root : Path) (names : list str) (files : list CacheFile) : Sys (list CacheFile) :=
  match names with
  | [] => ret files
  | name :: names' =>
      do more <- next_entry env;
      if negb more then ret files
      else
        let path := root ++ [Normal name] in
        do file_type <- lstat env path;
        match file_type with
        | Err _ => collect_dirs root names' files
        | Ok t =>
            if negb (is_kdir (i_kind t)) || is_klink (i_kind t) then collect_dirs root names' files
            else
              do private <- cache_dir_is_private path;
              if negb private then collect_dirs root names' files
              else
                do children <- read_dir env path;
                match children with
                | Err _ => collect_dirs root names' files
                | Ok children =>
                    do files <- collect_children root path children files;
                    collect_dirs root names' files
                end
        end
  end.

Definition collect_cache_files (root : Path) : Sys (list CacheFile) :=
  do private <- cache_dir_is_private root;
  if negb private then ret []
  else
    do names <- read_dir env root;
    match names with
    | Err _ => ret []
    | Ok names => collect_dirs root names []
    end.

Fixpoint remove_empty_dirs (root : Path) (names : list str) : Sys unit :=
  match names with
  | [] => ret tt
  | name :: names' =>
      do more <- next_entry env;
      if negb more then ret tt
      else
        let path := root ++ [Normal name] in
        do file_type <- lstat env path;
        match file_type with
        | Err _ => remove_empty_dirs root names'
        | Ok t =>
            if negb (is_kdir (i_kind t)) || is_klink (i_kind t) then remove_empty_dirs root names'
            else
              do private <- cache_dir_is_private path;
              if negb private then remove_empty_dirs root names'
              else
                do _ <- remove_dir env path;
                remove_empty_dirs root names'
        end
  end.

Definition remove_empty_cache_dirs (root : Path) : Sys unit :=
  do private <- cache_dir_is_private root;
  if negb private then ret tt
  else
    do names <- read_dir env root;
    match names with
    | Err _ => ret tt
    | Ok names => remove_empty_dirs root names
    end.

Definition u64_saturating_add (a b : Z) : Z := Z.min u64_max (a + b).

(** Expired files are removed, the others counted. *)
Fixpoint remove_expired (files : list CacheFile) (now max_age : Z) (retained : list CacheFile) (total_bytes : Z)
  : Sys (list CacheFile * Z) :=
  match files with
  | [] => ret (retained, total_bytes)
  | file :: files' =>
      if cache_file_is_expired file now max_age
      then do _ <- remove_file env (cf_path file); remove_expired files' now max_age retained total_bytes
      else remove_expired files' now max_age (retained ++ [file]) (u64_saturating_add total_bytes (cf_len file))
  end.

(** Files are removed, the oldest first, until the rest fits. *)
Fixpoint evict (files : list CacheFile) (total_bytes max_bytes : Z) : Sys Z :=
  match files with
  | [] => ret total_bytes
  | file :: files' =>
      if (total_bytes <=? max_bytes)%Z then ret total_bytes
      else
        do removed <- remove_file env (cf_path file);
        evict files' (match removed with Ok _ => u64_saturating_sub total_bytes (cf_len file) | Err _ => total_bytes end) max_bytes
  end.

Definition older_leb (a b : CacheFile) : bool := (cf_modified a <=? cf_modified b)%Z.

Definition prune_with_policy (root : Path) (policy : TransformCachePolicy) : Sys unit :=
  do files <- collect_cache_files root;
  do t <- now env;
  do (retained, total_bytes) <- remove_expired files t (max_age policy) [] 0;
  do _ <- (if (max_bytes policy <? total_bytes)%Z then evict (sort_by older_leb retained) total_bytes (max_bytes policy) else ret total_bytes);
  remove_empty_cache_dirs root.

(** ** Writing *)

(** [Path::with_extension] of the last name. *)
Definition name_with_extension (name ext : str) : str :=
  match rsplit_once "."%char name with
  | Some (stem, _) => (if bool_decide (stem = []) then name else stem) ++ "."%char :: ext
  | None => name ++ "."%char :: ext
  end.

Definition with_extension (path : Path) (ext : str) : Path :=
  match rev path with
  | Normal name :: parent => rev parent ++ [Normal (name_with_extension name ext)]
  | _ => path
  end.

(** The process and the value of its counter make temporary names unique. *)
Definition tmp_extension (pid tmp_id : Z) : str := bs "tmp-" ++ show_Z pid ++ "-"%char :: show_Z tmp_id.

Definition write (filesystem_total_bytes : option Z) (pid tmp_id : Z) (root : Path) (key bytes : str) : Sys unit :=
  match cache_path root key with
  | None => ret tt
  | Some path =>
      match path_parent path with
      | None => ret tt
      | Some parent =>
          do root_private <- ensure_private_cache_dir root;
          if negb root_private then ret tt
          else
            do parent_private <- ensure_private_cache_dir parent;
            if negb parent_private then ret tt
            else
              do metadata <- lstat env path;
              if match metadata with
                 | Ok n => negb (trusted_cache_file n)
                 | Err FsNotFound => false
                 | Err _ => true
                 end
              then ret tt
              else
                let tmp_path := with_extension path (tmp_extension pid tmp_id) in
                do created <- create_new env euid tmp_path;
                match created with
                | Err _ => ret tt
                | Ok file =>
                    do written <- write_all env file bytes;
                    do flushed <- (match written with Ok _ => flush env | Err e => ret (Err e) end);
                    match flushed with
                    | Err _ =>
                        do _ <- remove_file env tmp_path;
                        close env file
                    | Ok _ =>
                        do _ <- close env file;
                        do renamed <- rename env tmp_path path;
                        match renamed with
                        | Ok _ => prune_with_policy root (policy_for_root filesystem_total_bytes)
                        | Err _ => do _ <- remove_file env tmp_path; ret tt
                        end
                    end
                end
      end
  end.
End Cache.

(** ** Leases *)

(** The table of transformations in flight and, for every channel that was made, whether it
    was signalled.  An owner is the channel of its lease. *)
Record Leases := mkLeases {
  in_flight : gmap str nat;
  signalled : gmap nat bool;
}.

Definition no_leases : Leases := mkLeases ∅ ∅.

Inductive TransformLease := Owner (key : str) (entry : nat) | Waiter (entry : nat).

Definition acquire_transform_lease (key : str) (l : Leases) : Leases * TransformLease :=
  match in_flight l !! key with
  | Some entry => (l, Waiter entry)
  | None =>
      let entry := fresh (dom (signalled l)) in
      (mkLeases (<[key := entry]> (in_flight l)) (<[entry := false]> (signalled l)), Owner key entry)
  end.

(** [Drop] of an owner: its entry leaves the table if it is still the one of the key. *)
Definition drop_owner (key : str) (entry : nat) (l : Leases) : Leases :=
  mkLeases (if bool_decide (in_flight l !! key = Some entry) then delete key (in_flight l) else in_flight l)
           (<[entry := true]> (signalled l)).

(** A waiter goes on once its channel was signalled. *)
Definition waiter_ready (entry : nat) (l : Leases) : bool := default true (signalled l !! entry).
