(* ===== verification/ImageCacheProps.v ===== *)
(** * What other users and tasks can do to the image cache

    Other users of the machine ([stranger]) do what the permissions of nodes let them; tasks of
    this service ([service]) do what [write] and [prune] do.  The cache stays sound under both,
    and a directory that was checked from the root down stays where it is. *)

From S2P Require Import Prelude RustStr Net Codec Enrollment StaticFiles ManagementPolicy ImageSource Images PosixFs ImageCache.

Section Sharing.
Variable euid : Z.
(** The names on the way to the cache, and the images that belong to a key. *)
Variable names : list str.
Variable Good : str -> str -> Prop.

Definition abs (l : list str) : Path := RootDir :: (Normal <$> l).

(** ** Permissions *)

Definition ours (n : Inode) : Prop := i_uid n = 0%Z \/ i_uid n = euid.
Definition guarded (n : Inode) : Prop := ours n /\ Z.land (i_mode n) 18 = 0%Z.
Definition sticky (n : Inode) : Prop := Z.land (i_mode n) 512 <> 0%Z.

(** Who can write to a directory can remove what is in it; in a sticky directory, only what
    is his own. *)
Definition may_remove (fs : Fs) (d i : nat) : Prop :=
  exists dn, inodes fs !! d = Some dn /\ i_kind dn = KDir /\ ~ guarded dn
    /\ (ours dn -> sticky dn -> exists n, inodes fs !! i = Some n /\ ~ ours n).

(** Any other user, who does not own what root or this user owns. *)
Inductive stranger (fs : Fs) : Fs -> Prop :=
| stranger_create d dn name i n :
    inodes fs !! d = Some dn -> i_kind dn = KDir -> ~ guarded dn -> entries fs !! (d, name) = None ->
    inodes fs !! i = None -> ~ ours n -> stranger fs (add_node fs d name i n)
| stranger_link d dn name i n :
    inodes fs !! d = Some dn -> i_kind dn = KDir -> ~ guarded dn -> entries fs !! (d, name) = None ->
    inodes fs !! i = Some n -> i_kind n <> KDir ->
    stranger fs (mkFs (<[(d, name) := i]> (entries fs)) (relink 1 i (inodes fs)) (writing fs))
| stranger_unlink d name i :
    entries fs !! (d, name) = Some i -> may_remove fs d i -> stranger fs (remove_name fs d name i)
| stranger_rename d name i d' dn' name' :
    entries fs !! (d, name) = Some i -> may_remove fs d i ->
    inodes fs !! d' = Some dn' -> i_kind dn' = KDir -> ~ guarded dn' ->
    (forall j, entries fs !! (d', name') = Some j -> may_remove fs d' j) -> d' <> i ->
    stranger fs (move_name fs d name i d' name')
| stranger_write i n data t :
    inodes fs !! i = Some n -> ~ guarded n -> stranger fs (write_node fs i (set_data n data t))
| stranger_chmod i n mode :
    inodes fs !! i = Some n -> ~ ours n -> stranger fs (write_node fs i (set_mode n mode)).

(** ** The tasks of the service *)

Definition temporary (name : str) : Prop := contains_char name "."%char = true.
Definition published (name : str) : Prop := all is_ascii_hexdigit name = true.

(** [T]: the temporary names that belong to the task.  A file is published under a key it is
    good for, once it is closed. *)
Inductive service (T : str -> Prop) (fs : Fs) : Fs -> Prop :=
| service_mkdir d name i t :
    dir_node fs d = true -> entries fs !! (d, name) = None -> inodes fs !! i = None ->
    service T fs (add_node fs d name i (mkInode KDir euid 448 2 t []))
| service_create d name i t :
    dir_node fs d = true -> entries fs !! (d, name) = None -> inodes fs !! i = None -> temporary name -> T name ->
    service T fs (set_writing (add_node fs d name i (mkInode KFile euid 384 1 t [])) (<[i := name]> (writing fs)))
| service_write i n name data t :
    writing fs !! i = Some name -> T name -> inodes fs !! i = Some n -> service T fs (write_node fs i (set_data n data t))
| service_close i name :
    writing fs !! i = Some name -> T name -> service T fs (set_writing fs (delete i (writing fs)))
| service_publish r p d tmp s i n :
    walk fs (abs names) = Some r -> entries fs !! (r, p) = Some d -> entries fs !! (d, tmp) = Some i ->
    temporary tmp -> T tmp -> published s -> writing fs !! i = None -> inodes fs !! i = Some n -> i_kind n = KFile ->
    Good (p ++ s) (i_data n) -> (forall j, entries fs !! (d, s) = Some j -> dir_node fs j = false) ->
    service T fs (move_name fs d tmp i d s)
| service_remove d name i :
    entries fs !! (d, name) = Some i -> dir_node fs i = false -> published name \/ (temporary name /\ T name) ->
    service T fs (remove_name fs d name i)
| service_rmdir r name i :
    walk fs (abs names) = Some r -> entries fs !! (r, name) = Some i -> dir_node fs i = true -> names_in fs i = [] ->
    service T fs (remove_name fs r name i).

(** ** The invariant *)

Definition own_dir (n : Inode) : Prop := i_kind n = KDir /\ i_uid n = euid /\ Z.land (i_mode n) 511 = 448%Z.
Definition own_file (n : Inode) : Prop := i_kind n = KFile /\ i_uid n = euid /\ Z.land (i_mode n) 18 = 0%Z.

(** Directories have one name and do not contain themselves. *)
Record tree_inv (fs : Fs) : Prop := {
  inv_nodes : forall d name i, entries fs !! (d, name) = Some i -> is_Some (inodes fs !! d) /\ is_Some (inodes fs !! i);
  inv_writing : forall i name, writing fs !! i = Some name -> is_Some (inodes fs !! i);
  inv_tree : forall k1 k2 i, entries fs !! k1 = Some i -> entries fs !! k2 = Some i -> dir_node fs i = true -> k1 = k2;
  inv_loop : forall d name, entries fs !! (d, name) <> Some d;
}.

(** What is published in a private directory of a private directory, as [cache_path] names it,
    is closed and good for its name. *)
Definition good_files (fs : Fs) : Prop := forall r rn p d dn s i n,
  inodes fs !! r = Some rn -> own_dir rn -> entries fs !! (r, p) = Some d -> inodes fs !! d = Some dn -> own_dir dn ->
  entries fs !! (d, s) = Some i -> inodes fs !! i = Some n -> own_file n -> cache_name p s = true ->
  writing fs !! i = None /\ Good (p ++ s) (i_data n).

Definition cache_inv (fs : Fs) : Prop := tree_inv fs /\ good_files fs.

Lemma dir_node_iff fs i : dir_node fs i = true <-> exists n, inodes fs !! i = Some n /\ i_kind n = KDir.
Proof.
  unfold dir_node. destruct (inodes fs !! i) as [n|]; [|split; [done|by intros (? & ? & _)]].
  destruct (i_kind n) eqn:Hk; cbn; split; try done; try (intros (n' & [= <-] & ?); congruence). intros _. by exists n.
Qed.

(** ** What strangers leave alone *)

Record frame (fs fs' : Fs) : Prop := {
  frame_old : forall i n, inodes fs !! i = Some n -> exists n', inodes fs' !! i = Some n'
    /\ i_kind n' = i_kind n /\ i_uid n' = i_uid n /\ (ours n -> i_mode n' = i_mode n) /\ (guarded n -> i_data n' = i_data n);
  frame_new : forall i n', inodes fs' !! i = Some n' -> inodes fs !! i = None -> ~ ours n';
  frame_closed : forall d dn name, inodes fs !! d = Some dn -> guarded dn -> entries fs' !! (d, name) = entries fs !! (d, name);
  frame_sticky : forall d dn name i n, inodes fs !! d = Some dn -> ours dn -> sticky dn ->
    entries fs !! (d, name) = Some i -> inodes fs !! i = Some n -> ours n -> entries fs' !! (d, name) = Some i;
  frame_writing : writing fs' = writing fs;
}.

Lemma relink_lookup delta i j (m : gmap nat Inode) n :
  m !! j = Some n -> exists n', relink delta i m !! j = Some n'
    /\ i_kind n' = i_kind n /\ i_uid n' = i_uid n /\ i_mode n' = i_mode n /\ i_data n' = i_data n.
Proof.
  intros Hj. unfold relink. destruct (decide (i = j)) as [->|Hne].
  - rewrite lookup_alter_eq, Hj. cbn. eexists. split; [done|]. by destruct n.
  - rewrite lookup_alter_ne by done. by exists n.
Qed.

Lemma relink_None delta i j (m : gmap nat Inode) : relink delta i m !! j = None <-> m !! j = None.
Proof. unfold relink. destruct (decide (i = j)) as [->|Hne]; [rewrite lookup_alter_eq, fmap_None|rewrite lookup_alter_ne by done]; done. Qed.

Lemma may_remove_closed fs d i dn : may_remove fs d i -> inodes fs !! d = Some dn -> ~ guarded dn.
Proof. intros (dn' & Hd & _ & Hg & _) Hdn. congruence. Qed.

Lemma may_remove_sticky fs d i dn n :
  may_remove fs d i -> inodes fs !! d = Some dn -> ours dn -> sticky dn -> inodes fs !! i = Some n -> ~ ours n.
Proof. intros (dn' & Hd & _ & _ & Hs) Hdn Ho Hst Hi. rewrite Hd in Hdn. injection Hdn as ->. destruct (Hs Ho Hst) as (n' & Hn & ?). congruence. Qed.

(** The nodes of a move and of links. *)
Lemma move_nodes fs d name i d' name' j n :
  inodes fs !! j = Some n -> exists n', inodes (move_name fs d name i d' name') !! j = Some n'
    /\ i_kind n' = i_kind n /\ i_uid n' = i_uid n /\ i_mode n' = i_mode n /\ i_data n' = i_data n.
Proof.
  intros Hj. cbn [inodes move_name]. destruct (entries fs !! (d', name')) as [j'|]; [case_bool_decide|]; [by exists n|by apply relink_lookup|by exists n].
Qed.

Lemma move_nodes_None fs d name i d' name' j : inodes (move_name fs d name i d' name') !! j = None <-> inodes fs !! j = None.
Proof. cbn [inodes move_name]. destruct (entries fs !! (d', name')); [case_bool_decide|]; rewrite ?relink_None; done. Qed.

Lemma stranger_frame fs fs' : stranger fs fs' -> frame fs fs'.
Proof.
  intros [d dn name i n Hd Hk Hg He Hi Hn|d dn name i n Hd Hk Hg He Hi Hn|d name i He Hm|d name i d' dn' name' He Hm Hd Hk Hg Hj Hne|i n data t Hi Hg|i n mode Hi Ho];
    (split; cbn [entries inodes writing add_node remove_name write_node]; [| | | |done]).
  - intros j nj Hj. rewrite lookup_insert_ne by congruence. by exists nj.
  - intros j nj Hj Hnone. destruct (decide (i = j)) as [->|Hij]; [rewrite lookup_insert_eq in Hj; by injection Hj as <-|].
    rewrite lookup_insert_ne in Hj by done. congruence.
  - intros d' dn' name' Hd' Hg'. rewrite lookup_insert_ne; [done|]. intros [= -> ->]. congruence.
  - intros d' dn' name' i' n' Hd' Ho Hs He' Hi' Hn'. rewrite lookup_insert_ne; [done|]. intros [= -> ->]. congruence.
  - intros j nj Hj. destruct (relink_lookup 1 i j _ _ Hj) as (n' & ? & ? & ? & ? & ?). by exists n'.
  - intros j nj Hj Hnone. apply (relink_None 1 i) in Hnone. congruence.
  - intros d' dn' name' Hd' Hg'. rewrite lookup_insert_ne; [done|]. intros [= -> ->]. congruence.
  - intros d' dn' name' i' n' Hd' Ho Hs He' Hi' Hn'. rewrite lookup_insert_ne; [done|]. intros [= -> ->]. congruence.
  - intros j nj Hj. destruct (relink_lookup (-1) i j _ _ Hj) as (n' & ? & ? & ? & ? & ?). by exists n'.
  - intros j nj Hj Hnone. apply (relink_None (-1) i) in Hnone. congruence.
  - intros d' dn' name' Hd' Hg'. rewrite lookup_delete_ne; [done|]. intros [= -> ->]. by eapply may_remove_closed.
  - intros d' dn' name' i' n' Hd' Ho Hs He' Hi' Hn'. rewrite lookup_delete_ne; [done|]. intros [= -> ->].
    rewrite He in He'. injection He' as ->. by eapply (may_remove_sticky fs d').
  - intros j nj Hj'. destruct (move_nodes fs d name i d' name' _ _ Hj') as (n' & ? & ? & ? & ? & ?). by exists n'.
  - intros j nj Hj' Hnone. apply (move_nodes_None fs d name i d' name') in Hnone. congruence.
  - intros d2 dn2 name2 Hd2 Hg2. cbn [entries move_name]. rewrite lookup_insert_ne by (intros [= -> ->]; congruence).
    rewrite lookup_delete_ne; [done|]. intros [= -> ->]. by eapply may_remove_closed.
  - intros d2 dn2 name2 i2 n2 Hd2 Ho2 Hs2 He2 Hi2 Hn2. cbn [entries move_name]. rewrite lookup_insert_ne, lookup_delete_ne; [done| |].
    + intros [= -> ->]. rewrite He in He2. injection He2 as ->. by eapply (may_remove_sticky fs d2).
    + intros [= -> ->]. by eapply (may_remove_sticky fs d2 i2); [apply Hj|..].
  - intros j nj Hj. destruct (decide (i = j)) as [->|Hij]; [|rewrite lookup_insert_ne by done; by exists nj].
    rewrite lookup_insert_eq. rewrite Hi in Hj. injection Hj as <-. eexists. split; [done|]. by destruct n.
  - intros j nj Hj Hnone. rewrite lookup_insert_ne in Hj by congruence. congruence.
  - done.
  - done.
  - intros j nj Hj. destruct (decide (i = j)) as [->|Hij]; [|rewrite lookup_insert_ne by done; by exists nj].
    rewrite lookup_insert_eq. rewrite Hi in Hj. injection Hj as <-. eexists. split; [done|]. by destruct n.
  - intros j nj Hj Hnone. rewrite lookup_insert_ne in Hj by congruence. congruence.
  - done.
  - done.
Qed.

(** ** The tree *)

(** Changes of nodes that keep the kind of each. *)
Definition same_kinds (m m' : gmap nat Inode) : Prop := forall i, i_kind <$> m' !! i = i_kind <$> m !! i.

Lemma same_kinds_some m m' i : same_kinds m m' -> is_Some (m' !! i) <-> is_Some (m !! i).
Proof. intros Hk. specialize (Hk i). destruct (m !! i), (m' !! i); cbn in Hk; split; intros [? ?]; by eauto. Qed.

Lemma same_kinds_dir fs fs' i : same_kinds (inodes fs) (inodes fs') -> dir_node fs' i = dir_node fs i.
Proof. intros Hk. specialize (Hk i). unfold dir_node. destruct (inodes fs !! i), (inodes fs' !! i); cbn in Hk; congruence. Qed.

Lemma relink_kinds delta i m : same_kinds m (relink delta i m).
Proof.
  intros j. destruct (m !! j) as [n|] eqn:Hj; [|apply (relink_None delta i) in Hj; by rewrite Hj].
  destruct (relink_lookup delta i j m n Hj) as (n' & -> & Hk & _). cbn. by rewrite Hk.
Qed.

Lemma move_kinds fs d name i d' name' : same_kinds (inodes fs) (inodes (move_name fs d name i d' name')).
Proof. cbn [inodes move_name]. destruct (entries fs !! (d', name')); [case_bool_decide|]; try done. apply relink_kinds. Qed.

Lemma write_kinds (m : gmap nat Inode) i n n' : m !! i = Some n -> i_kind n' = i_kind n -> same_kinds m (<[i := n']> m).
Proof.
  intros Hi Hk j. destruct (decide (i = j)) as [->|Hne]; [rewrite lookup_insert_eq, Hi; cbn; by rewrite Hk|by rewrite lookup_insert_ne].
Qed.

(** Fewer names, and nodes of the same kinds. *)
Lemma tree_fewer fs fs' :
  tree_inv fs -> same_kinds (inodes fs) (inodes fs') ->
  (forall k i, entries fs' !! k = Some i -> entries fs !! k = Some i) ->
  (forall i name, writing fs' !! i = Some name -> is_Some (inodes fs !! i)) -> tree_inv fs'.
Proof.
  intros [Hn Hw Ht Hl] Hk He Hw'. split.
  - intros d name i Hi%He. destruct (Hn _ _ _ Hi). split; by eapply same_kinds_some.
  - intros i name Hi%Hw'. by eapply same_kinds_some.
  - intros k1 k2 i H1%He H2%He Hd. rewrite (same_kinds_dir fs fs') in Hd by done. by eapply Ht.
  - intros d name Hd%He. by eapply Hl.
Qed.

(** One more name, of a node that is no directory or has no other. *)
Lemma tree_name fs fs' d name i :
  tree_inv fs -> same_kinds (inodes fs) (inodes fs') -> writing fs' = writing fs ->
  entries fs' = <[(d, name) := i]> (entries fs) -> is_Some (inodes fs !! d) -> is_Some (inodes fs !! i) -> d <> i ->
  (dir_node fs i = true -> forall k, entries fs !! k <> Some i) -> tree_inv fs'.
Proof.
  intros [Hn Hw Ht Hl] Hk Hwr He Hd Hi Hdi Huniq. split; rewrite ?He, ?Hwr.
  - intros d' name' i' Hlk. destruct (decide ((d, name) = (d', name'))) as [[= <- <-]|Hne].
    + rewrite lookup_insert_eq in Hlk. injection Hlk as <-. split; by eapply same_kinds_some.
    + rewrite lookup_insert_ne in Hlk by done. destruct (Hn _ _ _ Hlk). split; by eapply same_kinds_some.
  - intros i' name' Hi'%Hw. by eapply same_kinds_some.
  - intros k1 k2 i' H1 H2 Hdir. rewrite (same_kinds_dir fs fs') in Hdir by done.
    apply lookup_insert_Some in H1 as [[<- <-]|[Hk1 H1]], H2 as [[<- E2]|[Hk2 H2]]; [done| | |by eapply Ht].
    + by destruct (Huniq Hdir k2).
    + subst. by destruct (Huniq Hdir k1).
  - intros d' name' Hlk. apply lookup_insert_Some in Hlk as [[[= <- <-] ?]|[_ Hlk]]; [done|]. by eapply Hl.
Qed.

(** A new node without a name. *)
Lemma tree_node fs fs' i n :
  tree_inv fs -> inodes fs !! i = None -> entries fs' = entries fs -> inodes fs' = <[i := n]> (inodes fs) ->
  (forall j name, writing fs' !! j = Some name -> j = i \/ is_Some (writing fs !! j)) -> tree_inv fs'.
Proof.
  intros [Hn Hw Ht Hl] Hi He Hm Hw'.
  assert (Hold : forall j, j <> i -> inodes fs' !! j = inodes fs !! j) by (intros j Hj; rewrite Hm; by apply lookup_insert_ne).
  assert (Hsome : forall j, is_Some (inodes fs !! j) -> is_Some (inodes fs' !! j)).
  { intros j Hj. rewrite Hold; [done|]. intros ->. rewrite Hi in Hj. by destruct Hj. }
  split; rewrite ?He.
  - intros d name j Hj. destruct (Hn _ _ _ Hj). split; by apply Hsome.
  - intros j name [->|[t Ht']]%Hw'; [rewrite Hm, lookup_insert_eq; by eexists|]. by eapply Hsome, Hw.
  - intros k1 k2 j H1 H2 Hdir. apply (Ht k1 k2 j H1 H2). revert Hdir. unfold dir_node. rewrite Hold; [done|].
    intros ->. destruct k1 as [d1 n1]. destruct (Hn _ _ _ H1) as [_ Hsm]. rewrite Hi in Hsm. by destruct Hsm.
  - done.
Qed.

Lemma tree_add_node fs d name i n :
  tree_inv fs -> is_Some (inodes fs !! d) -> entries fs !! (d, name) = None -> inodes fs !! i = None ->
  tree_inv (add_node fs d name i n).
Proof.
  intros Hfs Hd He Hi. assert (Hdi : d <> i) by (intros ->; rewrite Hi in Hd; by destruct Hd).
  assert (Hnode : tree_inv (mkFs (entries fs) (<[i := n]> (inodes fs)) (writing fs))).
  { eapply (tree_node fs _ i n); [done..|]. cbn. intros j t Hj. right. by eexists. }
  eapply (tree_name _ _ d name i Hnode); try done; cbn [inodes].
  - by rewrite lookup_insert_ne.
  - rewrite lookup_insert_eq. by eexists.
  - intros _ [d' name'] Hlk. destruct (inv_nodes _ Hfs _ _ _ Hlk) as [_ Hs]. rewrite Hi in Hs. by destruct Hs.
Qed.

Lemma tree_remove_name fs d name i : tree_inv fs -> tree_inv (remove_name fs d name i).
Proof.
  intros Hfs. eapply (tree_fewer fs); [done|apply relink_kinds| |exact (inv_writing _ Hfs)].
  cbn [entries remove_name]. intros k j Hk. by apply lookup_delete_Some in Hk as [_ ?].
Qed.

Lemma tree_move_name fs d name i d' name' :
  tree_inv fs -> entries fs !! (d, name) = Some i -> is_Some (inodes fs !! d') -> d' <> i -> tree_inv (move_name fs d name i d' name').
Proof.
  intros Hfs He Hd Hne. destruct (inv_nodes _ Hfs _ _ _ He) as [_ Hi].
  assert (Hdel : tree_inv (mkFs (delete (d, name) (entries fs)) (inodes fs) (writing fs))).
  { eapply (tree_fewer fs); [done..| |exact (inv_writing _ Hfs)]. cbn [entries]. intros k j Hk. by apply lookup_delete_Some in Hk as [_ ?]. }
  eapply (tree_name _ _ d' name' i Hdel); try done; [exact (move_kinds fs d name i d' name')|].
  cbn [entries]. intros Hdir k [Hk Hlk]%lookup_delete_Some. apply Hk. exact (inv_tree _ Hfs _ _ i He Hlk Hdir).
Qed.

Lemma tree_write_node fs i n n' : tree_inv fs -> inodes fs !! i = Some n -> i_kind n' = i_kind n -> tree_inv (write_node fs i n').
Proof. intros Hfs Hi Hk. eapply (tree_fewer fs); [done|by eapply write_kinds|done|exact (inv_writing _ Hfs)]. Qed.

Lemma stranger_tree fs fs' : tree_inv fs -> stranger fs fs' -> tree_inv fs'.
Proof.
  intros Hfs [d dn name i n Hd Hk Hg He Hi Hn|d dn name i n Hd Hk Hg He Hi Hn|d name i He Hm|d name i d' dn' name' He Hm Hd Hk Hg Hj Hne|i n data t Hi Hg|i n mode Hi Ho].
  - apply tree_add_node; [done|by eexists|done..].
  - eapply (tree_name fs _ d name i); [done|apply relink_kinds|done|done|by eexists|by eexists| |].
    + intros ->. congruence.
    + intros (n' & Hn' & Hk')%dir_node_iff. congruence.
  - by apply tree_remove_name.
  - apply tree_move_name; [done|done|by eexists|done].
  - by eapply tree_write_node.
  - by eapply tree_write_node.
Qed.

Lemma service_tree T fs fs' : tree_inv fs -> service T fs fs' -> tree_inv fs'.
Proof.
  intros Hfs [d name i t Hd He Hi|d name i t Hd He Hi Htmp Ht|i n name data t Hw Ht Hi|i name Hw Ht
    |r p d tmp s i n Hr Hp Hd Htmp Ht Hs Hw Hi Hk Hgood Hj|d name i He Hdir Hname|r name i Hr He Hdir Hempty].
  - apply dir_node_iff in Hd as (dn & Hd & _). apply tree_add_node; [done|by eexists|done..].
  - apply dir_node_iff in Hd as (dn & Hd & _).
    assert (Hadd : tree_inv (add_node fs d name i (mkInode KFile euid 384 1 t []))) by (apply tree_add_node; [done|by eexists|done..]).
    eapply (tree_fewer _ _ Hadd); [done|done|]. cbn [set_writing writing add_node inodes]. intros j tj [[<- <-]|[Hne Hj]]%lookup_insert_Some.
    + rewrite lookup_insert_eq. by eexists.
    + rewrite lookup_insert_ne by done. by eapply inv_writing.
  - by eapply tree_write_node.
  - eapply (tree_fewer fs); [done..|]. cbn. intros j tj [_ Hj]%lookup_delete_Some. by eapply inv_writing.
  - apply tree_move_name; [done|done|by eapply (inv_nodes _ Hfs _ _ _ Hd)|]. intros ->. by eapply (inv_loop _ Hfs).
  - by apply tree_remove_name.
  - by apply tree_remove_name.
Qed.

(** ** Published files stay good *)

Lemma own_dir_guarded n : own_dir n -> guarded n.
Proof.
  intros (_ & Hu & Hm). split; [by right|]. replace 18%Z with (Z.land 511 18) by done. by rewrite Z.land_assoc, Hm.
Qed.

Lemma own_file_guarded n : own_file n -> guarded n.
Proof. intros (_ & Hu & Hm). split; [by right|done]. Qed.

Lemma frame_back fs fs' i n' :
  frame fs fs' -> inodes fs' !! i = Some n' -> ours n' -> exists n, inodes fs !! i = Some n
    /\ i_kind n' = i_kind n /\ i_uid n' = i_uid n /\ i_mode n' = i_mode n /\ (guarded n -> i_data n' = i_data n).
Proof.
  intros Hf Hi Ho. destruct (inodes fs !! i) as [n|] eqn:Hn; [|by destruct (frame_new _ _ Hf _ _ Hi Hn)].
  destruct (frame_old _ _ Hf _ _ Hn) as (n2 & Hn2 & Hk & Hu & Hm & Hd). rewrite Hi in Hn2. injection Hn2 as <-.
  exists n. split_and!; try done. apply Hm. unfold ours in *. by rewrite <- Hu.
Qed.

Lemma frame_own_dir fs fs' i n' :
  frame fs fs' -> inodes fs' !! i = Some n' -> own_dir n' -> exists n, inodes fs !! i = Some n /\ own_dir n.
Proof.
  intros Hf Hi Hd. pose proof (own_dir_guarded _ Hd) as [Ho _]. destruct (frame_back _ _ _ _ Hf Hi Ho) as (n & Hn & Hk & Hu & Hm & _).
  exists n. split; [done|]. unfold own_dir in *. by rewrite <- Hk, <- Hu, <- Hm.
Qed.

Lemma frame_good fs fs' : frame fs fs' -> good_files fs -> good_files fs'.
Proof.
  intros Hf Hg r rn p d dn s i n Hr Hrn Hp Hd Hdn Hs Hi Hn Hname.
  destruct (frame_own_dir _ _ _ _ Hf Hr Hrn) as (rn0 & Hr0 & Hrn0), (frame_own_dir _ _ _ _ Hf Hd Hdn) as (dn0 & Hd0 & Hdn0).
  rewrite (frame_closed _ _ Hf _ _ _ Hr0 (own_dir_guarded _ Hrn0)) in Hp. rewrite (frame_closed _ _ Hf _ _ _ Hd0 (own_dir_guarded _ Hdn0)) in Hs.
  destruct (frame_back _ _ _ _ Hf Hi (proj1 (own_file_guarded _ Hn))) as (n0 & Hi0 & Hk & Hu & Hm & Hdata).
  assert (Hn0 : own_file n0) by (unfold own_file in *; by rewrite <- Hk, <- Hu, <- Hm).
  rewrite (frame_writing _ _ Hf), (Hdata (own_file_guarded _ Hn0)). by eapply (Hg r rn0 p d dn0).
Qed.

Definition same_node (n n' : Inode) : Prop :=
  i_kind n' = i_kind n /\ i_uid n' = i_uid n /\ i_mode n' = i_mode n /\ i_data n' = i_data n.

Lemma same_own_dir n n' : same_node n n' -> own_dir n' <-> own_dir n.
Proof. intros (Hk & Hu & Hm & _). unfold own_dir. by rewrite Hk, Hu, Hm. Qed.

Lemma same_own_file n n' : same_node n n' -> own_file n' <-> own_file n.
Proof. intros (Hk & Hu & Hm & _). unfold own_file. by rewrite Hk, Hu, Hm. Qed.

(** The nodes are those from before, but for links and times. *)
Definition same_nodes (m m' : gmap nat Inode) : Prop :=
  forall i n', m' !! i = Some n' -> exists n, m !! i = Some n /\ same_node n n'.

Lemma relink_same delta i m : same_nodes m (relink delta i m).
Proof.
  intros j n' Hj. destruct (m !! j) as [n|] eqn:Hm; [|apply (relink_None delta i) in Hm; congruence].
  destruct (relink_lookup delta i j m n Hm) as (n2 & Hn2 & ?). rewrite Hn2 in Hj. injection Hj as <-. by exists n.
Qed.

Lemma move_same fs d name i d' name' : same_nodes (inodes fs) (inodes (move_name fs d name i d' name')).
Proof.
  cbn [inodes move_name]. destruct (entries fs !! (d', name')); [case_bool_decide|]; try apply relink_same; intros j n' Hj; by exists n'.
Qed.

(** Every published file of the new state was published before, or is good for its name. *)
Lemma good_new fs fs' :
  good_files fs ->
  (forall i n', inodes fs' !! i = Some n' -> own_dir n' -> (exists n, inodes fs !! i = Some n /\ own_dir n) \/ forall s, entries fs' !! (i, s) = None) ->
  (forall d s i n', entries fs' !! (d, s) = Some i -> inodes fs' !! i = Some n' -> own_dir n' -> entries fs !! (d, s) = Some i \/ forall t, entries fs' !! (i, t) = None) ->
  (forall r rn p d dn s i n', inodes fs' !! r = Some rn -> own_dir rn -> entries fs' !! (r, p) = Some d -> inodes fs' !! d = Some dn -> own_dir dn ->
     entries fs' !! (d, s) = Some i -> inodes fs' !! i = Some n' -> own_file n' -> cache_name p s = true ->
     (writing fs' !! i = None /\ Good (p ++ s) (i_data n'))
     \/ (entries fs !! (d, s) = Some i /\ (writing fs !! i = None -> writing fs' !! i = None)
         /\ exists n, inodes fs !! i = Some n /\ own_file n /\ (writing fs !! i = None -> i_data n' = i_data n))) ->
  good_files fs'.
Proof.
  intros Hg Hdirs Hsub Hfile r rn p d dn s i n Hr Hrn Hp Hd Hdn Hs Hi Hn Hname.
  destruct (Hfile _ _ _ _ _ _ _ _ Hr Hrn Hp Hd Hdn Hs Hi Hn Hname) as [?|(Hs0 & Hw & n0 & Hi0 & Hn0 & Hdata)]; [done|].
  destruct (Hdirs _ _ Hr Hrn) as [(rn0 & Hr0 & Hrn0)|Hnone]; [|by rewrite Hnone in Hp].
  destruct (Hdirs _ _ Hd Hdn) as [(dn0 & Hd0 & Hdn0)|Hnone]; [|by rewrite Hnone in Hs].
  destruct (Hsub _ _ _ _ Hp Hd Hdn) as [Hp0|Hnone]; [|by rewrite Hnone in Hs].
  destruct (Hg _ _ _ _ _ _ _ _ Hr0 Hrn0 Hp0 Hd0 Hdn0 Hs0 Hi0 Hn0 Hname) as [Hw0 Hgood]. split; [by apply Hw|]. by rewrite Hdata.
Qed.

(** Fewer names and the same nodes. *)
Lemma good_fewer fs fs' :
  good_files fs -> same_nodes (inodes fs) (inodes fs') ->
  (forall k i, entries fs' !! k = Some i -> entries fs !! k = Some i) ->
  (forall i, writing fs !! i = None -> writing fs' !! i = None) -> good_files fs'.
Proof.
  intros Hg Hsame He Hw. apply (good_new fs); [done| | |].
  - intros i n' Hi Hn'. left. destruct (Hsame _ _ Hi) as (n & Hn & Hs). exists n. split; [done|]. by apply (same_own_dir n n').
  - intros d s i n' Hs _ _. left. by apply He.
  - intros r rn p d dn s i n' _ _ _ _ _ Hs Hi Hn' _. right. destruct (Hsame _ _ Hi) as (n & Hn & Hsn). split; [by apply He|]. split; [apply Hw|].
    exists n. split_and!; [done|by apply (same_own_file n n')|]. intros _. apply Hsn.
Qed.

Lemma published_not_temporary name : published name -> temporary name -> False.
Proof.
  intros Hp Ht%contains_char_iff. unfold published, all in Hp. rewrite forallb_forall in Hp. specialize (Hp "."%char (proj1 (list_elem_of_In _ _) Ht)).
  by vm_compute in Hp.
Qed.

Lemma cache_name_published p s : cache_name p s = true -> published p /\ published s.
Proof. unfold cache_name. intros [[_ Hp]%andb_true_iff Hs]%andb_true_iff. done. Qed.

(** Names of nodes that were not there. *)
Lemma no_entries fs i : tree_inv fs -> inodes fs !! i = None -> (forall k, entries fs !! k <> Some i) /\ forall s, entries fs !! (i, s) = None.
Proof.
  intros Hfs Hi. split.
  - intros [d name] Hk. destruct (inv_nodes _ Hfs _ _ _ Hk) as [_ Hs]. rewrite Hi in Hs. by destruct Hs.
  - intros s. destruct (entries fs !! (i, s)) as [j|] eqn:Hj; [|done]. destruct (inv_nodes _ Hfs _ _ _ Hj) as [Hs _]. rewrite Hi in Hs. by destruct Hs.
Qed.

(** A new node, which is an empty directory or has a temporary name. *)
Lemma good_add_node fs d name i n w :
  tree_inv fs -> good_files fs -> is_Some (inodes fs !! d) -> inodes fs !! i = None -> i_kind n = KDir \/ temporary name ->
  (forall j, j <> i -> writing fs !! j = None -> w !! j = None) -> good_files (set_writing (add_node fs d name i n) w).
Proof.
  intros Hfs Hg Hd Hi Hn Hw. destruct (no_entries _ _ Hfs Hi) as [Hto Hfrom].
  assert (Hdi : d <> i) by (intros ->; rewrite Hi in Hd; by destruct Hd).
  assert (Hempty : forall t, entries (set_writing (add_node fs d name i n) w) !! (i, t) = None).
  { intros t. cbn. rewrite lookup_insert_ne by congruence. apply Hfrom. }
  apply (good_new fs); [done| | |]; cbn [inodes entries set_writing add_node writing].
  - intros j n' Hj Hn'. destruct (decide (i = j)) as [<-|Hij]; [by right|]. rewrite lookup_insert_ne in Hj by done. left. by exists n'.
  - intros d' s j n' [[[= <- <-] <-]|[_ Hs]]%lookup_insert_Some Hj Hn'; [by right|by left].
  - intros r rn p d' dn s j n' Hr Hrn Hp Hd' Hdn [[[= <- <-] <-]|[_ Hs]]%lookup_insert_Some Hj Hn' Hname.
    + rewrite lookup_insert_eq in Hj. injection Hj as <-. destruct Hn as [Hk|Ht]; [destruct Hn'; congruence|].
      destruct (cache_name_published _ _ Hname) as [_ Hpub]. by destruct (published_not_temporary _ Hpub Ht).
    + assert (Hji : j <> i) by (intros ->; by destruct (Hto (d', s))). rewrite lookup_insert_ne in Hj by done.
      right. split; [done|]. split; [by apply Hw|]. by exists n'.
Qed.

Lemma good_write fs i n data t name :
  good_files fs -> writing fs !! i = Some name -> inodes fs !! i = Some n -> good_files (write_node fs i (set_data n data t)).
Proof.
  intros Hg Hw Hi. apply (good_new fs); [done| | |]; cbn [inodes entries write_node writing].
  - intros j n' Hj Hn'. left. destruct (decide (i = j)) as [<-|Hij]; [|rewrite lookup_insert_ne in Hj by done; by exists n'].
    rewrite lookup_insert_eq in Hj. injection Hj as <-. by exists n.
  - intros d s j n' Hs _ _. by left.
  - intros r rn p d dn s j n' _ _ _ _ _ Hs Hj Hn' _. right. split_and!; [done|done|].
    destruct (decide (i = j)) as [<-|Hij]; [|rewrite lookup_insert_ne in Hj by done; by exists n'].
    rewrite lookup_insert_eq in Hj. injection Hj as <-. exists n. split_and!; [done|done|]. congruence.
Qed.

Lemma good_publish fs r p d tmp s i n :
  tree_inv fs -> good_files fs -> entries fs !! (r, p) = Some d -> entries fs !! (d, tmp) = Some i ->
  writing fs !! i = None -> inodes fs !! i = Some n -> i_kind n = KFile -> Good (p ++ s) (i_data n) ->
  good_files (move_name fs d tmp i d s).
Proof.
  intros Hfs Hg Hp Hd Hw Hi Hk Hgood. pose proof (move_same fs d tmp i d s) as Hsame.
  assert (Hold : forall k j, entries (move_name fs d tmp i d s) !! k = Some j -> (k = (d, s) /\ j = i) \/ entries fs !! k = Some j).
  { intros k j. cbn [entries move_name]. intros [[<- <-]|[_ [_ ?]%lookup_delete_Some]]%lookup_insert_Some; by eauto. }
  assert (Hnodir : forall n', inodes (move_name fs d tmp i d s) !! i = Some n' -> own_dir n' -> False).
  { intros n' Hn' [Hk' _]. destruct (Hsame _ _ Hn') as (n0 & Hn0 & Hk0 & _). congruence. }
  apply (good_new fs); [done| | |].
  - intros j n' Hj Hn'. left. destruct (Hsame _ _ Hj) as (n0 & Hn0 & Hs). exists n0. split; [done|]. by apply (same_own_dir n0 n').
  - intros d' s' j n' [[_ ->]|He]%Hold Hj Hn'; [by destruct (Hnodir _ Hj Hn')|by left].
  - intros r' rn p' d' dn s' j n' Hr' Hrn Hp' Hd' Hdn Hs' Hj Hn' Hname. destruct (Hsame _ _ Hj) as (n0 & Hn0 & Hsn).
    destruct (Hold _ _ Hs') as [[[= -> ->] ->]|He].
    + left. cbn [writing move_name]. split; [done|]. destruct (Hold _ _ Hp') as [[[= -> ->] ->]|Hp0]; [by destruct (Hnodir _ Hd' Hdn)|].
      assert ((r', p') = (r, p)) as [= -> ->].
      { apply (inv_tree _ Hfs _ _ d Hp0 Hp). destruct (Hsame _ _ Hd') as (dn0 & Hdn0 & Hkd & _). apply dir_node_iff. exists dn0. split; [done|]. rewrite <- Hkd. apply Hdn. }
      destruct Hsn as (_ & _ & _ & ->). congruence.
    + right. split_and!; [done|done|]. exists n0. split_and!; [done|by apply (same_own_file n0 n')|]. intros _. apply Hsn.
Qed.

Lemma service_good T fs fs' : tree_inv fs -> good_files fs -> service T fs fs' -> good_files fs'.
Proof.
  intros Hfs Hg [d name i t Hd He Hi|d name i t Hd He Hi Htmp Ht|i n name data t Hw Ht Hi|i name Hw Ht
    |r p d tmp s i n Hr Hp Hd Htmp Ht Hs Hw Hi Hk Hgood Hj|d name i He Hdir Hname|r name i Hr He Hdir Hempty].
  - apply dir_node_iff in Hd as (dn & Hd & _).
    apply (good_add_node fs d name i (mkInode KDir euid 448 2 t []) (writing fs)); [done|done|by eexists|done|by left|done].
  - apply dir_node_iff in Hd as (dn & Hd & _). apply good_add_node; [done|done|by eexists|done|by right|].
    intros j Hj Hn. by rewrite lookup_insert_ne.
  - by eapply good_write.
  - apply (good_fewer fs); [done|intros j n' Hj; by exists n'|done|]. cbn. intros j Hj. by apply lookup_delete_None; right.
  - by eapply (good_publish fs r p d tmp s i n).
  - apply (good_fewer fs); [done|apply relink_same| |done]. cbn [entries remove_name]. by intros k j [_ ?]%lookup_delete_Some.
  - apply (good_fewer fs); [done|apply relink_same| |done]. cbn [entries remove_name]. by intros k j [_ ?]%lookup_delete_Some.
Qed.

(** ** Other tasks and users *)

Definition others (T : str -> Prop) (fs fs' : Fs) : Prop := stranger fs fs' \/ service T fs fs'.

Lemma others_inv T fs fs' : cache_inv fs -> others T fs fs' -> cache_inv fs'.
Proof.
  intros [Ht Hg] [Hs|Hs]; split.
  - by eapply stranger_tree.
  - by eapply frame_good; [apply stranger_frame|].
  - by eapply service_tree.
  - by eapply service_good.
Qed.

(** ** Directories that were checked from the root down *)

Definition trusted (n : Inode) : Prop := i_kind n = KDir /\ ours n /\ (Z.land (i_mode n) 18 = 0%Z \/ sticky n).

Lemma trusted_ancestor_spec n : trusted_ancestor euid n = true -> trusted n.
Proof.
  unfold trusted_ancestor, trusted, ours, sticky. intros H%negb_true_iff. apply orb_false_iff in H as [[Hk Hu]%orb_false_iff Hm].
  apply negb_false_iff in Hk. destruct (i_kind n); try done. split; [done|]. split.
  - destruct (Z.eqb_spec (i_uid n) 0); [by left|]. destruct (Z.eqb_spec (i_uid n) euid); [by right|done].
  - destruct (Z.eqb_spec (Z.land (i_mode n) 18) 0); [by left|]. destruct (Z.eqb_spec (Z.land (i_mode n) 512) 0); [done|by right].
Qed.

Inductive chain (fs : Fs) : list str -> nat -> Prop :=
| chain_root n : inodes fs !! ROOT = Some n -> trusted n -> chain fs [] ROOT
| chain_name l d name i n :
    chain fs l d -> entries fs !! (d, name) = Some i -> inodes fs !! i = Some n -> trusted n -> chain fs (l ++ [name]) i.

Lemma chain_last fs l i : chain fs l i -> exists n, inodes fs !! i = Some n /\ trusted n.
Proof. intros []; by eauto. Qed.

Lemma enter_dir fs i n : inodes fs !! i = Some n -> i_kind n = KDir -> enter fs i = Some i.
Proof. intros Hi Hk. unfold enter. rewrite Hi. cbn. by rewrite Hk. Qed.

Lemma abs_snoc l name : abs (l ++ [name]) = abs l ++ [Normal name].
Proof. unfold abs. by rewrite fmap_app. Qed.

Lemma walk_snoc fs l name : walk fs (abs (l ++ [name])) = let! i := walk fs (abs l) in let! d := enter fs i in entries fs !! (d, name).
Proof. rewrite abs_snoc. unfold walk. by rewrite fold_left_app. Qed.

Lemma walk_prefix fs l l' i : walk fs (abs (l ++ l')) = Some i -> exists j, walk fs (abs l) = Some j.
Proof.
  revert i. induction l' as [|x l' IH] using rev_ind; intros i; [rewrite app_nil_r; by eauto|].
  rewrite app_assoc, walk_snoc. destruct (walk fs (abs (l ++ l'))) as [j|] eqn:Hj; [|done]. intros _. by eapply IH.
Qed.

Lemma chain_walk fs l i : chain fs l i -> walk fs (abs l) = Some i.
Proof.
  induction 1 as [|l d name i n Hc IH He Hi Hn]; [done|]. destruct (chain_last _ _ _ Hc) as (dn & Hd & Hk & _).
  rewrite walk_snoc, IH. cbn. by rewrite (enter_dir _ _ _ Hd Hk).
Qed.

Lemma names_in_nil fs d : names_in fs d = [] <-> forall s, entries fs !! (d, s) = None.
Proof.
  unfold names_in. split.
  - intros Hnil s. destruct (entries fs !! (d, s)) as [i|] eqn:Hi; [|done]. apply elem_of_map_to_list in Hi.
    assert (Hin : s ∈ omap (fun e : (nat * str) * nat => if bool_decide (e.1.1 = d) then Some e.1.2 else None) (map_to_list (entries fs))).
    { apply list_elem_of_omap. exists ((d, s), i). split; [done|]. cbn. by rewrite bool_decide_eq_true_2. }
    rewrite Hnil in Hin. by apply not_elem_of_nil in Hin.
  - intros Hnone. destruct (omap _ _) as [|s l] eqn:Hl; [done|]. assert (Hin : s ∈ s :: l) by set_solver. rewrite <- Hl in Hin.
    apply list_elem_of_omap in Hin as ([[d' s'] i] & Hin & Hs). cbn in Hs. case_bool_decide; [|done]. simplify_eq.
    apply elem_of_map_to_list in Hin. by rewrite Hnone in Hin.
Qed.

(** Nodes keep their kind, owner and permissions. *)
Lemma service_nodes T fs fs' i n :
  service T fs fs' -> inodes fs !! i = Some n ->
  exists n', inodes fs' !! i = Some n' /\ i_kind n' = i_kind n /\ i_uid n' = i_uid n /\ i_mode n' = i_mode n.
Proof.
  intros [d name j t Hd He Hj|d name j t Hd He Hj Htmp Ht|j nj name data t Hw Ht Hj|j name Hw Ht
    |r p d tmp s j nj Hr Hp Hd Htmp Ht Hs Hw Hj Hk Hgood Ho|d name j He Hdir Hname|r name j Hr He Hdir Hempty] Hi.
  - cbn. rewrite lookup_insert_ne by congruence. by exists n.
  - cbn. rewrite lookup_insert_ne by congruence. by exists n.
  - cbn. destruct (decide (j = i)) as [->|Hne]; [|rewrite lookup_insert_ne by done; by exists n].
    rewrite lookup_insert_eq. rewrite Hi in Hj. injection Hj as <-. eexists. split; [done|]. by destruct n.
  - by exists n.
  - destruct (move_nodes fs d tmp j d s i n Hi) as (n' & ? & ? & ? & ? & _). by exists n'.
  - destruct (relink_lookup (-1) j i _ n Hi) as (n' & ? & ? & ? & ? & _). by exists n'.
  - destruct (relink_lookup (-1) j i _ n Hi) as (n' & ? & ? & ? & ? & _). by exists n'.
Qed.

(** A name of a directory stays, unless the directory is empty and in the cache. *)
Lemma service_entry T fs fs' d name i :
  tree_inv fs -> service T fs fs' -> entries fs !! (d, name) = Some i -> dir_node fs i = true ->
  entries fs' !! (d, name) = Some i \/ (walk fs (abs names) = Some d /\ forall s, entries fs !! (i, s) = None).
Proof.
  intros Hfs [d' name' j t Hd He Hj|d' name' j t Hd He Hj Htmp Ht|j nj name' data t Hw Ht Hj|j name' Hw Ht
    |r p d' tmp s j nj Hr Hp Hd Htmp Ht Hs Hw Hj Hk Hgood Ho|d' name' j He Hdir Hname|r name' j Hr He Hdir Hempty] Hi Hdn.
  - left. cbn. rewrite lookup_insert_ne; [done|]. intros [= -> ->]. congruence.
  - left. cbn. rewrite lookup_insert_ne; [done|]. intros [= -> ->]. congruence.
  - by left.
  - by left.
  - left. cbn [entries move_name]. rewrite lookup_insert_ne, lookup_delete_ne; [done| |].
    + intros [= -> ->]. apply dir_node_iff in Hdn as (n' & Hn' & Hk'). congruence.
    + intros [= -> ->]. specialize (Ho _ Hi). congruence.
  - left. cbn. rewrite lookup_delete_ne; [done|]. intros [= -> ->]. congruence.
  - cbn. destruct (decide ((r, name') = (d, name))) as [[= -> ->]|Hne]; [|left; by rewrite lookup_delete_ne].
    right. split; [done|]. rewrite Hi in He. injection He as <-. by apply names_in_nil.
Qed.

Lemma chain_frame fs fs' l i : frame fs fs' -> chain fs l i -> chain fs' l i.
Proof.
  intros Hf. assert (Hnode : forall j n, inodes fs !! j = Some n -> trusted n -> exists n', inodes fs' !! j = Some n' /\ trusted n').
  { intros j n Hj (Hk & Ho & Hm). destruct (frame_old _ _ Hf _ _ Hj) as (n' & Hn' & Hk' & Hu' & Hm' & _). exists n'. split; [done|].
    unfold trusted, ours, sticky in *. by rewrite Hk', Hu', (Hm' Ho). }
  induction 1 as [n Hn Ht|l d name i n Hc IH He Hi Hn].
  - destruct (Hnode _ _ Hn Ht) as (n' & ? & ?). by eapply chain_root.
  - destruct (Hnode _ _ Hi Hn) as (n' & ? & ?). destruct (chain_last _ _ _ Hc) as (dn & Hd & _ & Ho & [Hm|Hs]).
    + eapply chain_name; [done| |done..]. by rewrite (frame_closed _ _ Hf _ dn).
    + eapply chain_name; [done| |done..]. eapply (frame_sticky _ _ Hf d dn); try done. apply Hn.
Qed.

Lemma chain_service T fs fs' l i : tree_inv fs -> service T fs fs' -> (exists rest, names = l ++ rest) -> chain fs l i -> chain fs' l i.
Proof.
  intros Hfs Hs Hpre Hc. revert Hpre. assert (Hnode : forall j n, inodes fs !! j = Some n -> trusted n -> exists n', inodes fs' !! j = Some n' /\ trusted n').
  { intros j n Hj Ht. destruct (service_nodes _ _ _ _ _ Hs Hj) as (n' & Hn' & Hk' & Hu' & Hm'). exists n'. split; [done|].
    unfold trusted, ours, sticky in *. by rewrite Hk', Hu', Hm'. }
  induction Hc as [n Hn Ht|l d name i n Hc IH He Hi Hn]; intros [rest Hrest].
  - destruct (Hnode _ _ Hn Ht) as (n' & ? & ?). by eapply chain_root.
  - destruct (Hnode _ _ Hi Hn) as (n' & ? & ?). eapply chain_name; [|clear IH|done..].
    { apply IH. exists (name :: rest). by rewrite Hrest, <- app_assoc. }
    assert (Hdir : dir_node fs i = true) by (apply dir_node_iff; exists n; split; [done|apply Hn]).
    destruct (service_entry _ _ _ _ _ _ Hfs Hs He Hdir) as [?|[Hw Hempty]]; [done|]. exfalso.
    assert (Hci : walk fs (abs (l ++ [name])) = Some i) by (by apply chain_walk; eapply chain_name).
    destruct rest as [|x rest]; [rewrite app_nil_r in Hrest; rewrite Hrest, Hci in Hw; injection Hw as ->; by eapply (inv_loop _ Hfs)|].
    rewrite Hrest in Hw. replace ((l ++ [name]) ++ x :: rest) with (((l ++ [name]) ++ [x]) ++ rest) in Hw by by rewrite <- !app_assoc.
    apply walk_prefix in Hw as [j Hj]. rewrite walk_snoc, Hci in Hj. cbn in Hj. rewrite (enter_dir _ _ n Hi (proj1 Hn)) in Hj.
    cbn in Hj. by rewrite Hempty in Hj.
Qed.

(** ** What stays while others act *)

Definition stable (R : Fs -> Fs -> Prop) (P : Fs -> Prop) : Prop := forall fs fs', cache_inv fs -> P fs -> R fs fs' -> P fs'.

Lemma stable_and R P Q : stable R P -> stable R Q -> stable R (fun fs => P fs /\ Q fs).
Proof. intros HP HQ fs fs' Hi [? ?] HR. split; [by eapply HP|by eapply HQ]. Qed.

Lemma stable_const R (P : Prop) : stable R (fun _ => P).
Proof. by intros fs fs' _ HP _. Qed.

Lemma chain_stable T l i : (exists rest, names = l ++ rest) -> stable (others T) (fun fs => chain fs l i).
Proof.
  intros Hpre fs fs' [Ht _] Hc [Hs|Hs]; [by eapply chain_frame; [apply stranger_frame|]|by eapply chain_service].
Qed.

(** The cache is where it was found, and private. *)
Definition at_root (r : nat) (fs : Fs) : Prop := chain fs names r /\ exists rn, inodes fs !! r = Some rn /\ own_dir rn.

(** What is found under a name of the cache is a directory; it is a private one. *)
Definition holds_dir (r : nat) (p : str) (fs : Fs) : Prop := forall d, entries fs !! (r, p) = Some d -> dir_node fs d = true.
Definition holds_private (r : nat) (p : str) (fs : Fs) : Prop :=
  forall d, entries fs !! (r, p) = Some d -> exists dn, inodes fs !! d = Some dn /\ own_dir dn.

Lemma own_dir_others T fs fs' i n :
  others T fs fs' -> inodes fs !! i = Some n -> own_dir n -> exists n', inodes fs' !! i = Some n' /\ own_dir n'.
Proof.
  intros [Hs|Hs] Hi Hn.
  - destruct (frame_old _ _ (stranger_frame _ _ Hs) _ _ Hi) as (n' & Hn' & Hk & Hu & Hm & _). exists n'. split; [done|].
    unfold own_dir in *. rewrite Hk, Hu, Hm; [done|]. right. apply Hn.
  - destruct (service_nodes _ _ _ _ _ Hs Hi) as (n' & Hn' & Hk & Hu & Hm). exists n'. split; [done|]. unfold own_dir in *. by rewrite Hk, Hu, Hm.
Qed.

Lemma at_root_stable T r : stable (others T) (at_root r).
Proof.
  intros fs fs' Hi [Hc (rn & Hr & Hrn)] Ho. split; [|by eapply own_dir_others].
  eapply (chain_stable T names r); [|done..]. exists []. by rewrite app_nil_r.
Qed.

(** A name of the cache means what it meant, or a directory that was just made. *)
Lemma root_entry T r p fs fs' d :
  cache_inv fs -> at_root r fs -> published p -> others T fs fs' -> entries fs' !! (r, p) = Some d ->
  entries fs !! (r, p) = Some d \/ exists dn, inodes fs' !! d = Some dn /\ own_dir dn.
Proof.
  intros [Hfs _] [Hc (rn & Hr & Hrn)] Hp [Hs|Hs] He.
  { left. by rewrite (frame_closed _ _ (stranger_frame _ _ Hs) _ _ _ Hr (own_dir_guarded _ Hrn)) in He. }
  apply chain_walk in Hc. destruct Hs as [d' name' j t Hd Hne Hj|d' name' j t Hd Hne Hj Htmp Ht|j nj name' data t Hw Ht Hj|j name' Hw Ht
    |r' p' d' tmp s j nj Hr' Hp' Hd Htmp Ht Hs Hw Hj Hk Hgood Ho|d' name' j Hne Hdir Hname|r' name' j Hr' Hne Hdir Hempty]; cbn in He; try by left.
  - apply lookup_insert_Some in He as [[[= -> ->] ->]|[_ ?]]; [right|by left]. cbn. rewrite lookup_insert_eq. by eexists.
  - apply lookup_insert_Some in He as [[[= -> ->] ->]|[_ ?]]; [|by left]. by destruct (published_not_temporary p).
  - apply lookup_insert_Some in He as [[[= -> ->] ->]|[_ [_ ?]%lookup_delete_Some]]; [|by left].
    assert (r' = r) as -> by congruence. by destruct (inv_loop _ Hfs r p').
  - apply lookup_delete_Some in He as [_ ?]. by left.
  - apply lookup_delete_Some in He as [_ ?]. by left.
Qed.

Lemma holds_private_stable T r p : published p -> stable (others T) (fun fs => at_root r fs /\ holds_private r p fs).
Proof.
  intros Hp fs fs' Hi [Hr Hh] Ho. split; [by eapply at_root_stable|]. intros d Hd.
  destruct (root_entry _ _ _ _ _ _ Hi Hr Hp Ho Hd) as [Hd0|?]; [|done]. destruct (Hh _ Hd0) as (dn & ? & ?). by eapply own_dir_others.
Qed.

Lemma dir_node_others T fs fs' i : others T fs fs' -> dir_node fs i = true -> dir_node fs' i = true.
Proof.
  intros Ho (n & Hi & Hk)%dir_node_iff. apply dir_node_iff. destruct Ho as [Hs|Hs].
  - destruct (frame_old _ _ (stranger_frame _ _ Hs) _ _ Hi) as (n' & Hn' & Hk' & _). exists n'. split; [done|congruence].
  - destruct (service_nodes _ _ _ _ _ Hs Hi) as (n' & Hn' & Hk' & _). exists n'. split; [done|congruence].
Qed.

Lemma holds_dir_stable T r p : published p -> stable (others T) (fun fs => at_root r fs /\ holds_dir r p fs).
Proof.
  intros Hp fs fs' Hi [Hr Hh] Ho. split; [by eapply at_root_stable|]. intros d Hd.
  destruct (root_entry _ _ _ _ _ _ Hi Hr Hp Ho Hd) as [Hd0|(dn & Hdn & Hown)]; [by eapply dir_node_others, Hh|].
  apply dir_node_iff. exists dn. split; [done|apply Hown].
Qed.

(** ** Running among others *)

Section Running.
Variable env : Env.
(** What others do before a call, and what this task may do. *)
Variables R G : Fs -> Fs -> Prop.
Hypothesis R_inv : forall fs fs', cache_inv fs -> R fs fs' -> cache_inv fs'.
Hypothesis G_inv : forall fs fs', cache_inv fs -> G fs fs' -> cache_inv fs'.
Hypothesis acts : forall k fs, cache_inv fs -> rtc R fs (act env k fs).

Definition either (fs fs' : Fs) : Prop := R fs fs' \/ G fs fs'.

(** From a state with [P] the computation does only what it may and ends with [Q]. *)
Definition rg {A} (P : Fs -> Prop) (m : Sys A) (Q : A -> Fs -> Prop) : Prop :=
  forall fs k, cache_inv fs -> P fs ->
    cache_inv (m (fs, k)).1.1 /\ rtc either fs (m (fs, k)).1.1 /\ Q (m (fs, k)).2 (m (fs, k)).1.1.

Lemma others_act k fs P : stable R P -> cache_inv fs -> P fs -> cache_inv (act env k fs) /\ rtc either fs (act env k fs) /\ P (act env k fs).
Proof.
  intros HP Hi Hfs. pose proof (acts k fs Hi) as Hrtc. induction Hrtc as [|fs1 fs2 fs3 H12 _ IH]; [done|].
  destruct IH as (? & ? & ?); [by eapply R_inv|by eapply HP|]. split_and!; [done| |done]. eapply rtc_l; [by left|done].
Qed.

Lemma rg_ret {A} (P : Fs -> Prop) (a : A) (Q : A -> Fs -> Prop) : (forall fs, P fs -> Q a fs) -> rg P (ret a) Q.
Proof. intros HQ fs k Hi HP. split_and!; [done|done|by apply HQ]. Qed.

Lemma rg_bind {A B} P (m : Sys A) (k : A -> Sys B) M Q : rg P m M -> (forall a, rg (M a) (k a) Q) -> rg P (bind m k) Q.
Proof.
  intros Hm Hk fs n Hi HP. destruct (Hm fs n Hi HP) as (Hi1 & Hr1 & HM). unfold bind. destruct (m (fs, n)) as [[fs1 n1] a]. cbn in *.
  destruct (Hk a fs1 n1 Hi1 HM) as (? & ? & ?). split_and!; [done|by etransitivity|done].
Qed.

Lemma rg_weaken {A} (P P' : Fs -> Prop) (m : Sys A) (Q Q' : A -> Fs -> Prop) :
  rg P m Q -> (forall fs, P' fs -> P fs) -> (forall a fs, Q a fs -> Q' a fs) -> rg P' m Q'.
Proof. intros Hm HP HQ fs k Hi Hfs. destruct (Hm fs k Hi (HP _ Hfs)) as (? & ? & ?). split_and!; [done|done|by apply HQ]. Qed.

Lemma rg_pure {A} (φ : Prop) P (m : Sys A) Q : (φ -> rg P m Q) -> rg (fun fs => φ /\ P fs) m Q.
Proof. intros H fs k Hi [Hφ HP]. by apply H. Qed.

Lemma rg_exists {A X} (P : X -> Fs -> Prop) (m : Sys A) Q : (forall x, rg (P x) m Q) -> rg (fun fs => exists x, P x fs) m Q.
Proof. intros H fs k Hi [x HP]. by apply (H x). Qed.

Lemma rg_sys {A} P (call : nat -> Fs -> Fs * A) Q :
  stable R P ->
  (forall k fs, cache_inv fs -> P fs -> ((call k fs).1 = fs \/ G fs (call k fs).1) /\ Q (call k fs).2 (call k fs).1) ->
  rg P (sys env call) Q.
Proof.
  intros HP Hc fs k Hi Hfs. destruct (others_act k fs P HP Hi Hfs) as (Hi1 & Hr1 & HP1). unfold sys. cbn [fst snd].
  destruct (Hc k _ Hi1 HP1) as [Hg HQ]. destruct (call k (act env k fs)) as [fs2 a]. cbn in *. split_and!; [|etransitivity; [done|]|done].
  - destruct Hg as [->|Hg]; [done|by eapply G_inv].
  - destruct Hg as [->|Hg]; [done|]. apply rtc_once. by right.
Qed.

Lemma rg_io {A} P (call : nat -> Fs -> Fs * result A FsError) Q :
  stable R P -> (forall fs, P fs -> Q (Err FsOther) fs) ->
  (forall k fs, cache_inv fs -> P fs -> ((call k fs).1 = fs \/ G fs (call k fs).1) /\ Q (call k fs).2 (call k fs).1) ->
  rg P (io_call env call) Q.
Proof. intros HP He Hc. apply rg_sys; [done|]. intros k fs Hi Hfs. destruct (fails env k); [|by apply Hc]. split; [by left|by apply He]. Qed.

(** Calls that change nothing. *)
Lemma rg_lstat P p Q : stable R P -> (forall fs, P fs -> Q (Err FsOther) fs) ->
  (forall fs, cache_inv fs -> P fs -> Q (stat_of fs (walk fs p)) fs) -> rg P (lstat env p) Q.
Proof. intros HP He Hc. apply rg_io; [done|done|]. intros k fs Hi Hfs. split; [by left|by apply Hc]. Qed.
End Running.

Section Checks.
Variable env : Env.
Variable T : str -> Prop.
Variable G : Fs -> Fs -> Prop.
Hypothesis G_inv : forall fs fs', cache_inv fs -> G fs fs' -> cache_inv fs'.
Hypothesis acts : forall k fs, cache_inv fs -> rtc (others T) fs (act env k fs).

Notation "{{ P }} m {{ Q }}" := (rg (others T) G P m Q) (at level 90, m at level 99).

Let T_inv := others_inv T.

Lemma check_ancestors_app current a b w :
  check_ancestors env euid current (a ++ b) w
  = bind (check_ancestors env euid current a) (fun t => if t then check_ancestors env euid (current ++ a) b else ret false) w.
Proof.
  revert current w. induction a as [|x a IH]; intros current w; cbn [app check_ancestors]; [by rewrite app_nil_r|].
  unfold bind. destruct (lstat env (current ++ [x]) w) as [w' [n|e]]; [|done]. destruct (trusted_ancestor euid n); [|done].
  rewrite IH. unfold bind. by rewrite <- app_assoc.
Qed.

(** The checks change nothing. *)
Lemma check_ancestors_keeps P current parts : stable (others T) P -> {{ P }} check_ancestors env euid current parts {{ fun _ => P }}.
Proof.
  intros HP. revert current. induction parts as [|x parts IH]; intros current; cbn [check_ancestors]; [by apply rg_ret|].
  eapply rg_bind with (M := fun _ => P); [by apply rg_lstat|]. intros [n|e]; [|by apply rg_ret].
  destruct (trusted_ancestor euid n); [apply IH|by apply rg_ret].
Qed.

Lemma stat_ok fs at_ n : stat_of fs at_ = Ok n -> exists i, at_ = Some i /\ inodes fs !! i = Some n.
Proof. destruct at_ as [i|]; [|done]. cbn. destruct (inodes fs !! i) as [n'|] eqn:Hi; [|done]. intros [= <-]. by exists i. Qed.

Lemma check_names l rest more :
  names = l ++ rest ++ more ->
  {{ fun fs => exists i, chain fs l i }} check_ancestors env euid (abs l) (Normal <$> rest)
  {{ fun b fs => b = true -> exists i, chain fs (l ++ rest) i }}.
Proof.
  revert l. induction rest as [|x rest IH]; intros l Hn; cbn [check_ancestors fmap list_fmap].
  { apply rg_ret. intros fs Hi _. by rewrite app_nil_r. }
  apply rg_exists. intros i. rewrite <- abs_snoc.
  eapply rg_bind with (M := fun res fs => forall n, res = Ok n -> trusted n -> exists j, chain fs (l ++ [x]) j).
  - apply rg_lstat; [done|done|done|by apply chain_stable; exists (x :: rest ++ more)|done|]. intros fs Hi Hc n Hs Ht.
    apply stat_ok in Hs as (j & Hw & Hj). rewrite walk_snoc, (chain_walk _ _ _ Hc) in Hw. cbn in Hw.
    destruct (chain_last _ _ _ Hc) as (dn & Hd & Hk & _). rewrite (enter_dir _ _ _ Hd Hk) in Hw. cbn in Hw. exists j. by eapply chain_name.
  - intros [n|e]; [|by apply rg_ret]. destruct (trusted_ancestor euid n) eqn:Ht; [|by apply rg_ret].
    apply trusted_ancestor_spec in Ht. eapply rg_weaken; [apply (IH (l ++ [x])); by rewrite <- app_assoc| |].
    + intros fs Hfs. by apply (Hfs n).
    + intros b fs. by rewrite <- app_assoc.
Qed.

Lemma trusted_ancestors_names l more :
  names = l ++ more ->
  {{ fun _ => True }} trusted_ancestors env euid (abs l) {{ fun b fs => b = true -> exists i, chain fs l i }}.
Proof.
  intros Hn. unfold trusted_ancestors. destruct (_ || _); [by apply rg_ret|]. unfold abs at 1. cbn [check_ancestors].
  eapply rg_bind with (M := fun res fs => forall n, res = Ok n -> trusted n -> exists j, chain fs [] j).
  - apply rg_lstat; [done|done|done|apply stable_const|done|]. intros fs Hi _ n Hs Ht. apply stat_ok in Hs as (j & [= <-] & Hj).
    exists ROOT. by eapply chain_root.
  - intros [n|e]; [|by apply rg_ret]. destruct (trusted_ancestor euid n) eqn:Ht; [|by apply rg_ret].
    apply trusted_ancestor_spec in Ht. eapply rg_weaken; [by apply (check_names [] l more)| |done]. intros fs Hfs. by apply (Hfs n).
Qed.

Lemma private_own n : private_dir euid n = true -> i_kind n = KDir -> own_dir n.
Proof. unfold private_dir, own_dir. intros [Hu Hm]%andb_true_iff Hk. by apply Z.eqb_eq in Hu, Hm. Qed.

Lemma root_is_private :
  {{ fun _ => True }} cache_dir_is_private env euid (abs names) {{ fun b fs => b = true -> exists r, at_root r fs }}.
Proof.
  unfold cache_dir_is_private. eapply rg_bind; [by apply (trusted_ancestors_names names []); rewrite app_nil_r|].
  intros [|]; cbn [negb]; [|by apply rg_ret]. eapply rg_bind with (M := fun res fs => forall n, res = Ok n -> private_dir euid n = true -> exists r, at_root r fs).
  - eapply rg_weaken with (P := fun fs => exists r, chain fs names r); [|by auto|intros ? ? HQ; exact HQ]. apply rg_exists. intros r.
    apply rg_lstat; [done|done|done|by apply chain_stable; exists []; rewrite app_nil_r|done|].
    intros fs Hi Hc n Hs Hp. apply stat_ok in Hs as (j & Hw & Hj). rewrite (chain_walk _ _ _ Hc) in Hw. injection Hw as <-.
    destruct (chain_last _ _ _ Hc) as (rn & Hr & Hk & _). exists r. split; [done|]. exists n. split; [done|]. apply private_own; [done|congruence].
  - intros [n|e]; [|by apply rg_ret]. apply rg_ret. intros fs Hfs Hp. by apply (Hfs n).
Qed.

Lemma walk_root r fs p : at_root r fs -> walk fs (abs (names ++ [p])) = entries fs !! (r, p).
Proof.
  intros [Hc (rn & Hr & Hrn)]. rewrite walk_snoc, (chain_walk _ _ _ Hc). cbn. rewrite (enter_dir _ _ rn Hr); [done|apply Hrn].
Qed.

Lemma sub_is_private r p : published p ->
  {{ at_root r }} cache_dir_is_private env euid (abs (names ++ [p])) {{ fun b fs => at_root r fs /\ (b = true -> holds_private r p fs) }}.
Proof.
  intros Hp. unfold cache_dir_is_private. eapply rg_bind with (M := fun b fs => at_root r fs /\ (b = true -> holds_dir r p fs)).
  - unfold trusted_ancestors. destruct (_ || _); [by apply rg_ret|].
    intros fs k Hi Hfs. rewrite (abs_snoc names p), check_ancestors_app. revert fs k Hi Hfs.
    change ({{ at_root r }} do t <- check_ancestors env euid [] (abs names); (if t then check_ancestors env euid ([] ++ abs names) [Normal p] else ret false)
            {{ fun b fs => at_root r fs /\ (b = true -> holds_dir r p fs) }}).
    eapply rg_bind; [apply check_ancestors_keeps, at_root_stable|]. intros [|]; [|by apply rg_ret]. cbn [app check_ancestors]. rewrite <- abs_snoc.
    eapply rg_bind with (M := fun res fs => at_root r fs /\ forall n, res = Ok n -> trusted n -> holds_dir r p fs).
    + apply rg_lstat; [done|done|done|apply at_root_stable|done|]. intros fs Hi Hr. split; [done|]. intros n Hs Ht d Hd.
      apply stat_ok in Hs as (j & Hw & Hj). rewrite (walk_root r) in Hw by done. apply dir_node_iff. exists n. split; [congruence|apply Ht].
    + intros [n|e]; [|apply rg_ret; by intros fs [? _]]. destruct (trusted_ancestor euid n) eqn:Ht; [|apply rg_ret; by intros fs [? _]].
      apply trusted_ancestor_spec in Ht. apply rg_ret. intros fs [? Hh]. split; [done|]. intros _. by apply (Hh n).
  - intros [|]; cbn [negb]; [|apply rg_ret; by intros fs [? _]].
    eapply rg_bind with (M := fun res fs => at_root r fs /\ forall n, res = Ok n -> private_dir euid n = true -> holds_private r p fs).
    + eapply rg_weaken with (P := fun fs => at_root r fs /\ holds_dir r p fs); [|intros fs [? Hh]; by auto|intros ? ? HQ; exact HQ].
      apply rg_lstat; [done|done|done|by apply holds_dir_stable|by intros fs [? _]|].
      intros fs Hi [Hr Hh]. split; [done|]. intros n Hs Hpriv d Hd. apply stat_ok in Hs as (j & Hw & Hj). rewrite (walk_root r) in Hw by done.
      rewrite Hd in Hw. injection Hw as <-. exists n. split; [done|]. apply private_own; [done|].
      destruct (proj1 (dir_node_iff _ _) (Hh _ Hd)) as (n' & Hn' & Hk'). congruence.
    + intros [n|e]; apply rg_ret; [|by intros fs [? _]]. intros fs [? Hh]. split; [done|]. intros Hpriv. by apply (Hh n).
Qed.

(** ** Reading *)

Definition in_cache (p s : str) : Path := abs names ++ [Normal p] ++ [Normal s].

Lemma in_cache_abs p s : in_cache p s = abs ((names ++ [p]) ++ [s]).
Proof. unfold in_cache. by rewrite !abs_snoc, app_assoc. Qed.

Lemma in_cache_parent p s : path_parent (in_cache p s) = Some (abs (names ++ [p])).
Proof. rewrite in_cache_abs. unfold path_parent. rewrite abs_snoc, rev_app_distr. cbn [rev app]. by rewrite rev_involutive. Qed.

Lemma file_is_trusted p s : published p ->
  {{ fun _ => True }} cache_file_is_trusted env euid (abs names) (in_cache p s)
  {{ fun b fs => b = true -> exists r, at_root r fs /\ holds_private r p fs }}.
Proof.
  intros Hp. unfold cache_file_is_trusted. rewrite in_cache_parent. eapply rg_bind; [apply root_is_private|].
  intros [|]; cbn [negb]; [|by apply rg_ret].
  eapply rg_weaken with (P := fun fs => exists r, at_root r fs); [|by auto|intros ? ? HQ; exact HQ]. apply rg_exists. intros r.
  eapply rg_bind; [by apply sub_is_private|]. intros [|]; cbn [negb]; [|by apply rg_ret].
  eapply rg_bind with (M := fun _ fs => at_root r fs /\ holds_private r p fs).
  - eapply rg_weaken with (P := fun fs => at_root r fs /\ holds_private r p fs); [|intros fs [? Hh]; by auto|intros ? ? HQ; exact HQ].
    by apply rg_lstat; [done|done|done|apply holds_private_stable|..].
  - intros res. apply rg_ret. intros fs Hfs _. by exists r.
Qed.

(** A published file of the cache. *)
Lemma walk_cache r fs p s i :
  at_root r fs -> holds_private r p fs -> walk fs (in_cache p s) = Some i ->
  exists d dn, entries fs !! (r, p) = Some d /\ inodes fs !! d = Some dn /\ own_dir dn /\ entries fs !! (d, s) = Some i.
Proof.
  intros Hr Hh. rewrite in_cache_abs, walk_snoc, (walk_root r) by done. destruct (entries fs !! (r, p)) as [d|] eqn:Hd; [|done]. cbn.
  destruct (Hh _ Hd) as (dn & Hdn & Hown). rewrite (enter_dir _ _ dn Hdn (proj1 Hown)). cbn. intros Hs. by exists d, dn.
Qed.

(** If the file is ours it is closed and good. *)
Definition settled (key : str) (i : nat) (fs : Fs) : Prop :=
  is_Some (inodes fs !! i) /\ forall n, inodes fs !! i = Some n -> own_file n -> writing fs !! i = None /\ Good key (i_data n).

Lemma service_file fs fs' i n n' :
  service T fs fs' -> inodes fs !! i = Some n -> inodes fs' !! i = Some n' -> (forall name, writing fs !! i = Some name -> ~ T name) ->
  writing fs' !! i = writing fs !! i /\ i_data n' = i_data n.
Proof.
  intros [d name j t Hd He Hj|d name j t Hd He Hj Htmp Ht|j nj name data t Hw Ht Hj|j name Hw Ht
    |r p d tmp s j nj Hr Hp Hd Htmp Ht Hs Hw Hj Hk Hgood Ho|d name j He Hdir Hname|r name j Hr He Hdir Hempty] Hi Hi' Hwi.
  - cbn in Hi'. rewrite lookup_insert_ne in Hi' by congruence. split; [done|congruence].
  - cbn in *. rewrite lookup_insert_ne in Hi' by congruence. rewrite lookup_insert_ne by congruence. split; [done|congruence].
  - cbn in Hi'. destruct (decide (j = i)) as [->|Hne]; [by destruct (Hwi name)|]. rewrite lookup_insert_ne in Hi' by done. split; [done|congruence].
  - cbn in *. destruct (decide (j = i)) as [->|Hne]; [by destruct (Hwi name)|]. rewrite lookup_delete_ne by done. split; [done|congruence].
  - destruct (move_nodes fs d tmp j d s i n Hi) as (n2 & Hn2 & _ & _ & _ & ?). split; [done|]. congruence.
  - destruct (relink_lookup (-1) j i _ n Hi) as (n2 & Hn2 & _ & _ & _ & ?). split; [done|]. cbn in Hi'. congruence.
  - destruct (relink_lookup (-1) j i _ n Hi) as (n2 & Hn2 & _ & _ & _ & ?). split; [done|]. cbn in Hi'. congruence.
Qed.

Lemma settled_stable key i : stable (others T) (settled key i).
Proof.
  intros fs fs' _ [[n Hn] Hs] [Ho|Ho].
  - pose proof (stranger_frame _ _ Ho) as Hf. destruct (frame_old _ _ Hf _ _ Hn) as (n' & Hn' & _). split; [by eexists|].
    intros n2 Hn2 Hown. destruct (frame_back _ _ _ _ Hf Hn2 (proj1 (own_file_guarded _ Hown))) as (n0 & Hn0 & Hk & Hu & Hm & Hd).
    assert (Hown0 : own_file n0) by (unfold own_file in *; by rewrite <- Hk, <- Hu, <- Hm).
    rewrite (frame_writing _ _ Hf), (Hd (own_file_guarded _ Hown0)). by apply Hs.
  - destruct (service_nodes _ _ _ _ _ Ho Hn) as (n' & Hn' & Hk & Hu & Hm). split; [by eexists|].
    intros n2 Hn2 Hown. rewrite Hn' in Hn2. injection Hn2 as <-.
    assert (Hown0 : own_file n) by (unfold own_file in *; by rewrite <- Hk, <- Hu, <- Hm). destruct (Hs _ Hn Hown0) as [Hw Hg].
    destruct (service_file _ _ _ _ _ Ho Hn Hn') as [-> ->]; [by rewrite Hw|]. done.
Qed.

(** An own file stays one. *)
Definition is_own (i : nat) (fs : Fs) : Prop := exists n, inodes fs !! i = Some n /\ own_file n.

Lemma is_own_stable i : stable (others T) (is_own i).
Proof.
  intros fs fs' _ (n & Hn & Hown) [Ho|Ho].
  - destruct (frame_old _ _ (stranger_frame _ _ Ho) _ _ Hn) as (n' & Hn' & Hk & Hu & Hm & _). exists n'. split; [done|].
    unfold own_file in *. rewrite Hk, Hu, Hm; [done|]. right. apply Hown.
  - destruct (service_nodes _ _ _ _ _ Ho Hn) as (n' & Hn' & Hk & Hu & Hm). exists n'. split; [done|]. unfold own_file in *. by rewrite Hk, Hu, Hm.
Qed.

Lemma trusted_file_own n : trusted_cache_file euid n = true -> own_file n.
Proof.
  unfold trusted_cache_file, own_file. intros [[[Hk Hu]%andb_true_iff Hm]%andb_true_iff _]%andb_true_iff.
  apply Z.eqb_eq in Hu, Hm. by destruct (i_kind n).
Qed.

Lemma cache_path_name key path : cache_path (abs names) key = Some path ->
  exists p s, key = p ++ s /\ path = in_cache p s /\ cache_name p s = true.
Proof.
  unfold cache_path. destruct (_ || _) eqn:Hc; [done|]. intros [= <-]. apply orb_false_iff in Hc as [Hl Hh].
  apply Nat.ltb_ge in Hl. apply negb_false_iff in Hh. exists (take 2 key), (drop 2 key). split; [by rewrite take_drop|]. split; [done|].
  unfold all in *. rewrite <- (take_drop 2 key), forallb_app in Hh. apply andb_true_iff in Hh as [Hp Hs].
  unfold cache_name, all. rewrite Hp, Hs, length_take, length_drop. replace (2 `min` length key) with 2 by lia.
  rewrite bool_decide_eq_false_2; [|intros Hnil; apply (f_equal length) in Hnil; rewrite length_drop in Hnil; cbn in Hnil; lia].
  replace (4 <=? 2 + (length key - 2)) with true by (symmetry; apply Nat.leb_le; lia). done.
Qed.

(** What is read from the cache is good for the key that was asked for. *)
Lemma read_good key format :
  {{ fun _ => True }} read env euid (abs names) key format
  {{ fun res _ => forall c, res = Some c -> Good key (ct_bytes c) /\ ct_content_type c = cached_content_type (ct_bytes c) format }}.
Proof.
  unfold read. destruct (cache_path (abs names) key) as [path|] eqn:Hpath; [|by apply rg_ret].
  apply cache_path_name in Hpath as (p & s & -> & -> & Hname). destruct (cache_name_published _ _ Hname) as [Hp Hs].
  eapply rg_bind; [by apply file_is_trusted|]. intros [|]; cbn [negb]; [|by apply rg_ret].
  eapply rg_weaken with (P := fun fs => exists r, at_root r fs /\ holds_private r p fs); [|by auto|intros ? ? HQ; exact HQ]. apply rg_exists. intros r.
  eapply rg_bind with (M := fun res fs => forall i, res = Ok i -> settled (p ++ s) i fs).
  { apply rg_io; [done|done|done|by apply holds_private_stable|done|]. intros k fs [_ Hg] [Hr Hh]. cbn [fst snd]. split; [by left|].
    intros i. destruct (walk fs (in_cache p s)) as [j|] eqn:Hw; [|done]. destruct (inodes fs !! j) as [n|] eqn:Hj; [|done].
    destruct (is_klink (i_kind n)); [done|]. intros [= <-]. split; [by eexists|]. intros n' Hn' Hown.
    destruct (walk_cache _ _ _ _ _ Hr Hh Hw) as (d & dn & Hd & Hdn & Hown' & Hj'). destruct Hr as [_ (rn & Hrn & Hownr)]. by eapply (Hg r rn p d dn s j n'). }
  intros [i|e]; [|by apply rg_ret]. eapply rg_bind with (M := fun res fs => settled (p ++ s) i fs /\ forall n, res = Ok n -> own_file n -> is_own i fs).
  { eapply rg_weaken with (P := settled (p ++ s) i); [|by auto|intros ? ? HQ; exact HQ].
    apply rg_io; [done|done|done|apply settled_stable|done|]. intros k fs Hi Hset. cbn [fst snd]. split; [by left|]. split; [done|].
    intros n Hn Hown. apply stat_ok in Hn as (j & [= <-] & Hj). by exists n. }
  intros [n|e]; [|by apply rg_ret]. destruct (trusted_cache_file euid n) eqn:Ht; cbn [negb]; [|by apply rg_ret]. apply trusted_file_own in Ht.
  eapply rg_bind with (M := fun res _ => forall b, res = Ok b -> Good (p ++ s) b).
  { eapply rg_weaken with (P := fun fs => settled (p ++ s) i fs /\ is_own i fs); [|intros fs [? Ho]; split; [done|by apply (Ho n)]|intros ? ? HQ; exact HQ].
    apply rg_io; [done|done|done|apply stable_and; [apply settled_stable|apply is_own_stable]|done|]. intros k fs Hi [[_ Hset] (n' & Hn' & Hown)].
    cbn [fst snd]. split; [by left|]. intros b. cbn [stat_of]. rewrite Hn'. intros [= <-]. by apply (Hset n'). }
  intros [b|e]; apply rg_ret; [|done]. intros fs Hb c [= <-]. split; [by apply Hb|done].
Qed.

(** ** Pruning *)

Lemma read_dir_keeps P p : stable (others T) P -> {{ P }} read_dir env p {{ fun _ => P }}.
Proof. intros HP. apply rg_io; [done|done|done|done|done|]. intros k fs Hi Hfs. split; [by left|done]. Qed.

Lemma next_entry_keeps P : stable (others T) P -> {{ P }} next_entry env {{ fun _ => P }}.
Proof. intros HP. apply rg_sys; [done|done|done|done|]. intros k fs Hi Hfs. split; [by left|done]. Qed.

Lemma lstat_keeps P p : stable (others T) P -> {{ P }} lstat env p {{ fun _ => P }}.
Proof. intros HP. by apply rg_lstat. Qed.

Lemma trusted_ancestors_keeps P p : stable (others T) P -> {{ P }} trusted_ancestors env euid p {{ fun _ => P }}.
Proof. intros HP. unfold trusted_ancestors. destruct (_ || _); [by apply rg_ret|by apply check_ancestors_keeps]. Qed.

Lemma private_keeps P p : stable (others T) P -> {{ P }} cache_dir_is_private env euid p {{ fun _ => P }}.
Proof.
  intros HP. unfold cache_dir_is_private. eapply rg_bind; [by apply trusted_ancestors_keeps|]. intros [|]; cbn [negb]; [|by apply rg_ret].
  eapply rg_bind; [by apply lstat_keeps|]. intros res. by apply rg_ret.
Qed.

(** Files that are found are published ones. *)
Definition published_path (p : Path) : Prop := exists parent s, p = parent ++ [Normal s] /\ published s.

Lemma strip_components_app base cs rest : strip_components base cs = Some rest -> cs = base ++ rest.
Proof.
  revert cs. induction base as [|b base IH]; intros [|c cs]; cbn; try done; try congruence.
  case_bool_decide; [|done]. intros ->%IH. by subst.
Qed.

Lemma cache_file_path_published root p : is_cache_file_path root p = true -> published_path p.
Proof.
  unfold is_cache_file_path. destruct (strip_components root p) as [rest|] eqn:Hs; [|done]. apply strip_components_app in Hs as ->.
  destruct rest as [|[] [|[] [|]]]; try done. intros [_ Hp]%cache_name_published. exists (root ++ [Normal name]). eexists. split; [by rewrite <- app_assoc|done].
Qed.

Definition found (files : list CacheFile) : Prop := Forall (fun f => published_path (cf_path f)) files.

Lemma collect_children_found root path l files :
  {{ fun _ => found files }} collect_children env euid root path l files {{ fun res _ => found res }}.
Proof.
  revert files. induction l as [|name l IH]; intros files; cbn [collect_children]; [by apply rg_ret|].
  eapply rg_bind; [apply next_entry_keeps, stable_const|]. intros [|]; cbn [negb]; [|by apply rg_ret].
  eapply rg_bind; [apply lstat_keeps, stable_const|]. intros [t|e]; [|apply IH].
  destruct (is_cache_file_path root (path ++ [Normal name])) eqn:Hp; [|rewrite orb_true_r; apply IH].
  destruct (_ || _); [apply IH|]. eapply rg_bind; [apply lstat_keeps, stable_const|]. intros [n|e]; [|apply IH].
  eapply rg_weaken; [apply IH| |intros ? ? HQ; exact HQ]. intros fs Hf. destruct (trusted_cache_file euid n); [|done].
  apply Forall_app. split; [done|]. apply Forall_singleton. by eapply cache_file_path_published.
Qed.

Lemma collect_dirs_found root l files :
  {{ fun _ => found files }} collect_dirs env euid root l files {{ fun res _ => found res }}.
Proof.
  revert files. induction l as [|name l IH]; intros files; cbn [collect_dirs]; [by apply rg_ret|].
  eapply rg_bind; [apply next_entry_keeps, stable_const|]. intros [|]; cbn [negb]; [|by apply rg_ret].
  eapply rg_bind; [apply lstat_keeps, stable_const|]. intros [t|e]; [|apply IH]. destruct (_ || _); [apply IH|].
  eapply rg_bind; [apply private_keeps, stable_const|]. intros [|]; cbn [negb]; [|apply IH].
  eapply rg_bind; [apply read_dir_keeps, stable_const|]. intros [children|e]; [|apply IH].
  eapply rg_bind; [apply collect_children_found|]. intros files'. apply IH.
Qed.

Lemma collect_found root : {{ fun _ => True }} collect_cache_files env euid root {{ fun res _ => found res }}.
Proof.
  unfold collect_cache_files. eapply rg_bind; [apply private_keeps, stable_const|]. intros [|]; cbn [negb]; [|apply rg_ret; intros; by apply Forall_nil].
  eapply rg_bind; [apply read_dir_keeps, stable_const|]. intros [l|e]; [|apply rg_ret; intros; by apply Forall_nil].
  eapply rg_weaken; [apply collect_dirs_found|intros; by apply Forall_nil|intros ? ? HQ; exact HQ].
Qed.
End Checks.

(** ** Writing *)

Section Writing.
Variable env : Env.
(** The temporary name of this task, which no other task uses. *)
Variable tmp : str.
Hypothesis tmp_temporary : temporary tmp.

Let T (name : str) : Prop := name <> tmp.
Let G : Fs -> Fs -> Prop := service (fun name => name = tmp).

Hypothesis acts : forall k fs, cache_inv fs -> rtc (others T) fs (act env k fs).

Notation "{{ P }} m {{ Q }}" := (rg (others T) G P m Q) (at level 90, m at level 99).

Lemma own_inv fs fs' : cache_inv fs -> G fs fs' -> cache_inv fs'.
Proof. intros Hi Hg. eapply (others_inv (fun name => name = tmp)); [done|by right]. Qed.
Let G_inv := own_inv.
Let T_inv := others_inv T.

Lemma enter_node fs i d : enter fs i = Some d -> dir_node fs d = true.
Proof.
  unfold enter. destruct (inodes fs !! i) as [n|] eqn:Hi; [|done]. cbn. destruct (i_kind n) eqn:Hk; try done.
  - intros [= <-]. apply dir_node_iff. by exists n.
  - destruct (dir_node fs target) eqn:Ht; [|done]. by intros [= <-].
Qed.

Lemma locate_dir fs p d name : locate fs p = Some (d, name) -> dir_node fs d = true.
Proof.
  unfold locate. destruct (rev p) as [|[] q]; try done. destruct (walk fs (rev q)) as [i|]; [|done]. cbn.
  destruct (enter fs i) as [d'|] eqn:He; [|done]. intros [= <- <-]. by eapply enter_node.
Qed.

Lemma locate_name fs q name d name' : locate fs (q ++ [Normal name]) = Some (d, name') -> name' = name.
Proof.
  unfold locate. rewrite rev_app_distr. cbn [rev app]. destruct (walk fs _) as [i|]; [|done]. cbn. destruct (enter fs i); [|done]. congruence.
Qed.

Lemma fresh_none fs : inodes fs !! fresh_node fs = None.
Proof. apply (not_elem_of_dom (D := gset nat)). exact (is_fresh (dom (inodes fs) : gset nat)). Qed.

Lemma mkdir_does P p : stable (others T) P -> (forall fs fs', cache_inv fs -> P fs -> G fs fs' -> P fs') ->
  {{ P }} mkdir_private env euid p {{ fun _ => P }}.
Proof.
  intros HP HG. apply rg_io; [done|done|done|done|done|]. intros k fs Hi Hfs. unfold make.
  destruct (locate fs p) as [[d name]|] eqn:Hl; [|by split; [left|]]. destruct (entries fs !! (d, name)) as [j|] eqn:He; [by split; [left|]|].
  assert (Hg : G fs (add_node fs d name (fresh_node fs) (mkInode KDir euid 448 2 (clock env k) []))).
  { apply service_mkdir; [by eapply locate_dir|done|apply fresh_none]. }
  cbn [fst snd]. split; [by right|]. by eapply HG.
Qed.

(** A file is removed that is published or temporary of this task. *)
Lemma remove_does (P Q : Fs -> Prop) q name : stable (others T) P -> published name \/ name = tmp ->
  (forall fs, P fs -> Q fs) -> (forall fs fs', cache_inv fs -> P fs -> G fs fs' -> writing fs' = writing fs -> Q fs') ->
  {{ P }} remove_file env (q ++ [Normal name]) {{ fun _ => Q }}.
Proof.
  intros HP Hname HPQ HG. apply rg_io; [done|done|done|done|by auto|]. intros k fs Hi Hfs.
  destruct (locate fs (q ++ [Normal name])) as [[d name']|] eqn:Hl; [|split; [by left|by apply HPQ]].
  apply locate_name in Hl as ->. destruct (entries fs !! (d, name)) as [j|] eqn:He; [|split; [by left|by apply HPQ]].
  destruct (dir_node fs j) eqn:Hd; [split; [by left|by apply HPQ]|].
  assert (Hg : G fs (remove_name fs d name j)).
  { apply service_remove; [done|done|]. destruct Hname as [?|Heq]; [by left|right]. rewrite Heq. by split. }
  cbn [fst snd]. split; [by right|]. by eapply HG.
Qed.

Lemma remove_published p : published_path p -> {{ fun _ => True }} remove_file env p {{ fun _ _ => True }}.
Proof. intros (q & s & -> & Hs). by apply remove_does; [apply stable_const|left|..]. Qed.

Lemma remove_expired_does files t age retained total : found files -> found retained ->
  {{ fun _ => True }} remove_expired env files t age retained total {{ fun res _ => found res.1 }}.
Proof.
  revert retained total. induction files as [|f files IH]; intros retained total Hf Hr; cbn [remove_expired]; [by apply rg_ret|].
  apply Forall_cons in Hf as [Hp Hf]. destruct (cache_file_is_expired f t age).
  - eapply rg_bind; [by apply remove_published|]. intros ?. by apply IH.
  - apply IH; [done|]. apply Forall_app. split; [done|]. by apply Forall_singleton.
Qed.

Lemma evict_does files total limit : found files -> {{ fun _ => True }} evict env files total limit {{ fun _ _ => True }}.
Proof.
  revert total. induction files as [|f files IH]; intros total Hf; cbn [evict]; [by apply rg_ret|]. apply Forall_cons in Hf as [Hp Hf].
  destruct (total <=? limit)%Z; [by apply rg_ret|]. eapply rg_bind; [by apply remove_published|]. intros res. by apply IH.
Qed.

Lemma at_root_own r fs fs' : cache_inv fs -> at_root r fs -> G fs fs' -> at_root r fs'.
Proof. intros Hi Hr Hg. eapply (at_root_stable (fun name => name = tmp)); [done|done|by right]. Qed.

Lemma rmdir_does r name : {{ at_root r }} remove_dir env (abs names ++ [Normal name]) {{ fun _ => at_root r }}.
Proof.
  apply rg_io; [done|done|done|apply at_root_stable|done|]. intros k fs Hi Hr.
  assert (Hl : locate fs (abs names ++ [Normal name]) = Some (r, name)).
  { destruct Hr as [Hc (rn & Hrn & Hown)]. unfold locate. rewrite rev_app_distr. cbn [rev app]. rewrite rev_involutive, (chain_walk _ _ _ Hc). cbn.
    by rewrite (enter_dir _ _ rn Hrn (proj1 Hown)). }
  rewrite Hl. destruct (entries fs !! (r, name)) as [j|] eqn:He; [|by split; [left|]].
  destruct (dir_node fs j) eqn:Hd; cbn [andb]; [|by split; [left|]]. case_bool_decide as Hn; [|by split; [left|]].
  assert (Hg : G fs (remove_name fs r name j)). { apply service_rmdir; [by apply chain_walk, Hr|done..]. }
  cbn [fst snd]. split; [by right|]. by eapply at_root_own.
Qed.

Lemma remove_empty_dirs_does r l : {{ at_root r }} remove_empty_dirs env euid (abs names) l {{ fun _ _ => True }}.
Proof.
  induction l as [|name l IH]; cbn [remove_empty_dirs]; [by apply rg_ret|].
  eapply rg_bind; [apply next_entry_keeps; try done; apply at_root_stable|]. intros [|]; cbn [negb]; [|by apply rg_ret].
  eapply rg_bind; [apply lstat_keeps; try done; apply at_root_stable|]. intros [t|e]; [|apply IH]. destruct (_ || _); [apply IH|].
  eapply rg_bind; [apply private_keeps; try done; apply at_root_stable|]. intros [|]; cbn [negb]; [|apply IH].
  eapply rg_bind; [apply rmdir_does|]. intros ?. apply IH.
Qed.

Lemma found_sorted files : found files -> found (sort_by older_leb files).
Proof. unfold found. by rewrite sort_by_perm. Qed.

Lemma prune_does policy : {{ fun _ => True }} prune_with_policy env euid (abs names) policy {{ fun _ _ => True }}.
Proof.
  unfold prune_with_policy. eapply rg_bind; [by apply collect_found|]. intros files.
  eapply rg_bind with (M := fun _ _ => found files); [apply rg_sys; [done|done|done|apply stable_const|]; intros k fs Hi Hf; by split; [left|]|].
  intros t. eapply rg_weaken with (P := fun _ => found files /\ True); [|by auto|intros ? ? HQ; exact HQ]. apply rg_pure. intros Hf.
  eapply rg_bind; [apply remove_expired_does; [done|by apply Forall_nil]|]. intros [retained total]. cbn [fst].
  eapply rg_weaken with (P := fun _ => found retained /\ True); [|by auto|intros ? ? HQ; exact HQ]. apply rg_pure. intros Hr.
  eapply rg_bind with (M := fun _ _ => True); [destruct (_ <? _)%Z; [by apply evict_does, found_sorted|by apply rg_ret]|]. intros ?.
  unfold remove_empty_cache_dirs. eapply rg_bind; [by apply root_is_private|]. intros [|]; cbn [negb]; [|by apply rg_ret].
  eapply rg_weaken with (P := fun fs => exists r, at_root r fs); [|by auto|intros ? ? HQ; exact HQ]. apply rg_exists. intros r.
  eapply rg_bind; [apply read_dir_keeps; try done; apply at_root_stable|]. intros [l|e]; [|by apply rg_ret]. apply remove_empty_dirs_does.
Qed.

Lemma ensure_root : {{ fun _ => True }} ensure_private_cache_dir env euid (abs names) {{ fun b fs => b = true -> exists r, at_root r fs }}.
Proof.
  unfold ensure_private_cache_dir. destruct (path_parent (abs names)) as [parent|]; [|by apply rg_ret].
  eapply rg_bind; [by apply trusted_ancestors_keeps; try apply stable_const|]. intros [|]; cbn [negb]; [|by apply rg_ret].
  eapply rg_bind; [by apply mkdir_does; [apply stable_const|]|]. intros [u|[| |]]; try (by apply root_is_private); by apply rg_ret.
Qed.

Lemma ensure_sub r p : published p ->
  {{ at_root r }} ensure_private_cache_dir env euid (abs (names ++ [p])) {{ fun b fs => at_root r fs /\ (b = true -> holds_private r p fs) }}.
Proof.
  intros Hp. unfold ensure_private_cache_dir. destruct (path_parent (abs (names ++ [p]))) as [parent|]; [|by apply rg_ret].
  eapply rg_bind; [by apply trusted_ancestors_keeps; try apply at_root_stable|]. intros [|]; cbn [negb]; [|by apply rg_ret].
  eapply rg_bind; [by apply mkdir_does; [apply at_root_stable|apply at_root_own]|]. intros [u|[| |]]; try (by apply sub_is_private); by apply rg_ret.
Qed.

(** The temporary file of this task, with what it holds and whether it is open. *)
Definition has_temporary (r : nat) (p : str) (d i : nat) (data : str) (open : option str) (fs : Fs) : Prop :=
  at_root r fs /\ entries fs !! (r, p) = Some d /\ (exists dn, inodes fs !! d = Some dn /\ own_dir dn)
  /\ entries fs !! (d, tmp) = Some i /\ (exists n, inodes fs !! i = Some n /\ own_file n /\ i_data n = data) /\ writing fs !! i = open.

(** No other task touches the name. *)
Lemma service_temporary fs fs' d i :
  service T fs fs' -> entries fs !! (d, tmp) = Some i -> dir_node fs i = false -> entries fs' !! (d, tmp) = Some i.
Proof.
  intros [d' name j t Hd He Hj|d' name j t Hd He Hj Htmp Ht|j nj name data t Hw Ht Hj|j name Hw Ht
    |r p d' tmp' s j nj Hr Hp Hd Htmp Ht Hs Hw Hj Hk Hgood Ho|d' name j He Hdir Hname|r name j Hr He Hdir Hempty] Hi Hnd; cbn; try done.
  - rewrite lookup_insert_ne; [done|]. congruence.
  - rewrite lookup_insert_ne; [done|]. congruence.
  - rewrite lookup_insert_ne, lookup_delete_ne; [done| |]; intros [= -> ->]; [by apply Ht|]. by eapply published_not_temporary.
  - rewrite lookup_delete_ne; [done|]. intros [= -> ->]. destruct Hname as [?|[_ Hn]]; [by eapply published_not_temporary|by apply Hn].
  - rewrite lookup_delete_ne; [done|]. intros [= -> ->]. congruence.
Qed.

Lemma has_temporary_stable r p d i data open : (forall name, open = Some name -> name = tmp) -> stable (others T) (has_temporary r p d i data open).
Proof.
  intros Hopen fs fs' Hinv (Hr & Hd & (dn & Hdn & Hown) & Hi & (n & Hn & Hfile & Hdata) & Hw) Ho.
  assert (Hdir : exists dn', inodes fs' !! d = Some dn' /\ own_dir dn') by (by eapply own_dir_others).
  assert (Hr' : at_root r fs') by (by eapply at_root_stable). assert (Hnd : dir_node fs i = false) by (unfold dir_node; rewrite Hn; by destruct Hfile as [-> _]).
  destruct Ho as [Ho|Ho].
  - pose proof (stranger_frame _ _ Ho) as Hf. destruct Hr as [_ (rn & Hrn & Hownr)].
    destruct (frame_old _ _ Hf _ _ Hn) as (n' & Hn' & Hk & Hu & Hm & Hd'). split_and!; [done| |done| | |by rewrite (frame_writing _ _ Hf)].
    + by rewrite (frame_closed _ _ Hf _ _ _ Hrn (own_dir_guarded _ Hownr)).
    + by rewrite (frame_closed _ _ Hf _ _ _ Hdn (own_dir_guarded _ Hown)).
    + exists n'. pose proof (own_file_guarded _ Hfile) as Hg. split_and!; [done| |by rewrite Hd']. unfold own_file in *. by rewrite Hk, Hu, (Hm (proj1 Hg)).
  - destruct (service_nodes _ _ _ _ _ Ho Hn) as (n' & Hn' & Hk & Hu & Hm).
    destruct (service_file T _ _ _ _ _ Ho Hn Hn') as [Hw' Hd']; [intros name Hname; rewrite Hw in Hname; unfold T; by auto|].
    split_and!; [done| |done|by eapply service_temporary| |by rewrite Hw'].
    + destruct (service_entry _ _ _ _ _ _ (proj1 Hinv) Ho Hd) as [?|[_ Hempty]]; [|done|by rewrite Hempty in Hi].
      apply dir_node_iff. exists dn. split; [done|apply Hown].
    + exists n'. split_and!; [done| |by rewrite Hd']. unfold own_file in *. by rewrite Hk, Hu, Hm.
Qed.

Lemma locate_cache r p d dn fs name :
  at_root r fs -> entries fs !! (r, p) = Some d -> inodes fs !! d = Some dn -> own_dir dn -> locate fs (in_cache p name) = Some (d, name).
Proof.
  intros Hr Hd Hdn Hown. rewrite in_cache_abs, abs_snoc. unfold locate. rewrite rev_app_distr. cbn [rev app].
  rewrite rev_involutive, (walk_root r), Hd by done. cbn. by rewrite (enter_dir _ _ dn Hdn (proj1 Hown)).
Qed.

Lemma create_does r p : published p ->
  {{ fun fs => at_root r fs /\ holds_private r p fs }} create_new env euid (in_cache p tmp)
  {{ fun res fs => forall i, res = Ok i -> exists d, has_temporary r p d i [] (Some tmp) fs }}.
Proof.
  intros Hp. apply rg_io; [done|done|done|by apply holds_private_stable|done|]. intros k fs Hi [Hr Hh]. unfold make.
  destruct (locate fs (in_cache p tmp)) as [[d name]|] eqn:Hl; [|by split; [left|]].
  pose proof (locate_name fs (abs names ++ [Normal p]) tmp d name) as Hname. rewrite <- app_assoc in Hname. specialize (Hname Hl) as ->.
  destruct (entries fs !! (d, tmp)) as [j|] eqn:He; [by split; [left|]|]. cbn [fst snd].
  set (fs' := set_writing _ _). assert (Hg : G fs fs').
  { exact (service_create _ fs d tmp (fresh_node fs) (clock env k) (locate_dir _ _ _ _ Hl) He (fresh_none fs) tmp_temporary eq_refl). }
  split; [by right|]. intros i [= <-]. exists d.
  assert (Hd : entries fs !! (r, p) = Some d /\ exists dn, inodes fs !! d = Some dn /\ own_dir dn).
  { destruct (entries fs !! (r, p)) as [d'|] eqn:Hd'.
    - destruct (Hh _ Hd') as (dn & Hdn & Hown). rewrite (locate_cache r p d' dn) in Hl by done. injection Hl as <-. by eauto.
    - exfalso. rewrite in_cache_abs, abs_snoc in Hl. unfold locate in Hl. rewrite rev_app_distr in Hl. cbn [rev app] in Hl.
      rewrite rev_involutive, (walk_root r), Hd' in Hl by done. done. }
  destruct Hd as (Hd & dn & Hdn & Hown). assert (Hne : fresh_node fs <> d) by (intros Heq; pose proof (fresh_none fs); congruence).
  split_and!.
  - by eapply at_root_own.
  - cbn. rewrite lookup_insert_ne; [done|]. intros [= Hdr Htp]. congruence.
  - cbn. rewrite lookup_insert_ne by done. by eauto.
  - cbn. by rewrite lookup_insert_eq.
  - cbn. rewrite lookup_insert_eq. eexists. split; [done|]. by split.
  - cbn. by rewrite lookup_insert_eq.
Qed.

Lemma some_tmp name : Some tmp = Some name -> name = tmp.
Proof. congruence. Qed.

Lemma none_tmp name : None = Some name -> name = tmp.
Proof. done. Qed.

Lemma put_does r p d i data data' k fs :
  cache_inv fs -> has_temporary r p d i data (Some tmp) fs ->
  G fs (put_data env i data' k fs) /\ has_temporary r p d i data' (Some tmp) (put_data env i data' k fs).
Proof.
  intros Hinv (Hr & Hd & (dn & Hdn & Hown) & Hi & (n & Hn & Hfile & Hdata) & Hw). unfold put_data. rewrite Hn.
  assert (Hg : G fs (write_node fs i (set_data n data' (clock env k)))) by (by eapply service_write).
  assert (Hne : i <> d) by (intros ->; destruct Hown as [? _], Hfile as [? _]; congruence).
  split; [done|]. split_and!; [by eapply at_root_own|done| |done| |done]; cbn.
  - rewrite lookup_insert_ne by done. by eauto.
  - rewrite lookup_insert_eq. eexists. split; [done|]. by destruct n.
Qed.

Lemma write_all_does r p d i bytes :
  {{ has_temporary r p d i [] (Some tmp) }} write_all env i bytes
  {{ fun res fs => exists data, has_temporary r p d i data (Some tmp) fs /\ (res = Ok tt -> data = bytes) }}.
Proof.
  apply rg_sys; [done|done|done|apply has_temporary_stable, some_tmp|]. intros k fs Hi Hfs. destruct (fails env k); cbn [fst snd].
  - destruct (put_does r p d i [] (take (partial env k) bytes) k fs Hi Hfs) as [? ?]. split; [by right|]. by eexists.
  - destruct (put_does r p d i [] bytes k fs Hi Hfs) as [? ?]. split; [by right|]. by eexists.
Qed.

(** The handle is given up. *)
Definition is_open (i : nat) (fs : Fs) : Prop := writing fs !! i = Some tmp.

Lemma is_open_stable i : stable (others T) (is_open i).
Proof.
  intros fs fs' [Hfs _] Hw Ho. destruct (inv_writing _ Hfs _ _ Hw) as [n Hn]. unfold is_open in *. destruct Ho as [Ho|Ho].
  - by rewrite (frame_writing _ _ (stranger_frame _ _ Ho)).
  - destruct (service_nodes _ _ _ _ _ Ho Hn) as (n' & Hn' & _).
    destruct (service_file T _ _ _ _ _ Ho Hn Hn') as [-> _]; [|done]. intros name Hname. rewrite Hw in Hname. intros Hne. apply Hne. congruence.
Qed.

Lemma close_open i : {{ is_open i }} close env i {{ fun _ _ => True }}.
Proof.
  apply rg_sys; [done|done|done|apply is_open_stable|]. intros k fs Hi Hfs. split; [|done]. right. by eapply service_close.
Qed.

Lemma close_does r p d i data :
  {{ has_temporary r p d i data (Some tmp) }} close env i {{ fun _ => has_temporary r p d i data None }}.
Proof.
  apply rg_sys; [done|done|done|apply has_temporary_stable, some_tmp|]. intros k fs Hi (Hr & Hd & Hdn & Hti & Hn & Hw). cbn [fst snd].
  assert (Hg : G fs (set_writing fs (delete i (writing fs)))) by (by eapply service_close).
  split; [by right|]. split_and!; try done; [by eapply at_root_own|]. cbn. by rewrite lookup_delete_eq.
Qed.

Lemma rename_does r p s d i bytes : published s -> Good (p ++ s) bytes ->
  {{ has_temporary r p d i bytes None }} rename env (in_cache p tmp) (in_cache p s)
  {{ fun res fs => forall e, res = Err e -> has_temporary r p d i bytes None fs }}.
Proof.
  intros Hs Hgood. apply rg_io; [done|done|done|apply has_temporary_stable, none_tmp|done|].
  intros k fs Hi Hfs. destruct Hfs as (Hr & Hd & (dn & Hdn & Hown) & Hti & (n & Hn & Hfile & Hdata) & Hw) eqn:Hhas. clear Hhas.
  rewrite !(locate_cache r p d dn) by done. rewrite Hti. destruct (dir_node fs i || _) eqn:Hdir; cbn [fst snd]; [by split; [left|]|].
  apply orb_false_iff in Hdir as [Hni Htarget]. split; [|done]. right.
  eapply (service_publish _ fs r p d tmp s i n); try done; [by apply chain_walk, Hr|apply Hfile|by rewrite Hdata|].
  intros j Hj. by rewrite Hj in Htarget.
Qed.

Lemma remove_temporary r p d i data open : (forall name, open = Some name -> name = tmp) ->
  {{ has_temporary r p d i data open }} remove_file env (in_cache p tmp) {{ fun _ fs => writing fs !! i = open }}.
Proof.
  intros Hopen. unfold in_cache. rewrite app_assoc. apply remove_does; [by apply has_temporary_stable|by right| |].
  - intros fs Hfs. apply Hfs.
  - intros fs fs' _ Hfs _ Hw. rewrite Hw. apply Hfs.
Qed.

Lemma temporary_path p s ext : published s -> with_extension (in_cache p s) ext = in_cache p (s ++ "."%char :: ext).
Proof.
  intros Hs. unfold with_extension. rewrite in_cache_abs, abs_snoc, rev_app_distr. cbn [rev app]. rewrite rev_involutive, in_cache_abs, !abs_snoc.
  do 3 f_equal. unfold name_with_extension. destruct (rsplit_once "."%char s) as [[stem e]|] eqn:Hr; [|done].
  exfalso. apply (published_not_temporary s); [done|]. apply contains_char_iff. apply rsplit_once_Some in Hr as [-> _]. set_solver.
Qed.

(** Writing an image that is good for its key is what a task of the service may do. *)
Lemma write_does total pid tmp_id key bytes :
  (forall p s, key = p ++ s -> cache_name p s = true -> tmp = s ++ "."%char :: tmp_extension pid tmp_id) -> Good key bytes ->
  {{ fun _ => True }} write env euid total pid tmp_id (abs names) key bytes {{ fun _ _ => True }}.
Proof.
  intros Htmp Hgood. unfold write. destruct (cache_path (abs names) key) as [path|] eqn:Hpath; [|by apply rg_ret].
  apply cache_path_name in Hpath as (p & s & -> & -> & Hname). specialize (Htmp p s eq_refl Hname).
  destruct (cache_name_published _ _ Hname) as [Hp Hs]. rewrite in_cache_parent, temporary_path, <- Htmp by done.
  eapply rg_bind; [apply ensure_root|]. intros [|]; cbn [negb]; [|by apply rg_ret].
  eapply rg_weaken with (P := fun fs => exists r, at_root r fs); [|by auto|intros ? ? HQ; exact HQ]. apply rg_exists. intros r.
  eapply rg_bind; [by apply ensure_sub|]. intros [|]; cbn [negb]; [|by apply rg_ret].
  eapply rg_bind with (M := fun _ fs => at_root r fs /\ holds_private r p fs).
  { eapply rg_weaken with (P := fun fs => at_root r fs /\ holds_private r p fs); [|intros fs [? Hh]; by auto|intros ? ? HQ; exact HQ].
    apply lstat_keeps; try done. by apply holds_private_stable. }
  intros metadata. destruct (match metadata with Ok n => _ | Err e => _ end); [by apply rg_ret|].
  eapply rg_bind; [by apply create_does|]. intros [i|e]; [|by apply rg_ret].
  eapply rg_weaken with (P := fun fs => exists d, has_temporary r p d i [] (Some tmp) fs); [|by auto|intros ? ? HQ; exact HQ]. apply rg_exists. intros d.
  eapply rg_bind; [apply write_all_does|]. intros written.
  eapply rg_bind with (M := fun res fs => exists data, has_temporary r p d i data (Some tmp) fs /\ (forall u, res = Ok u -> data = bytes)).
  { apply rg_exists. intros data. destruct written as [[]|e]; [|apply rg_ret; intros fs [? _]; by exists data].
    apply rg_io; [done|done|done|apply stable_and; [apply has_temporary_stable, some_tmp|apply stable_const]|intros fs [? _]; by exists data|].
    intros k fs Hi [Hfs Hd]. split; [by left|]. exists data. split; [done|]. intros _ _. by apply Hd. }
  intros [u|e]; apply rg_exists; intros data.
  - eapply rg_weaken with (P := fun fs => data = bytes /\ has_temporary r p d i data (Some tmp) fs); [|intros fs [? Hd]; split; [by apply (Hd u)|done]|intros ? ? HQ; exact HQ].
    apply rg_pure. intros ->. eapply rg_bind; [apply close_does|]. intros ?. eapply rg_bind; [by apply rename_does|].
    intros [v|e]; [eapply rg_weaken; [apply prune_does|done|done]|].
    eapply rg_weaken with (P := has_temporary r p d i bytes None); [|intros fs Hfs; by apply (Hfs e)|intros ? ? HQ; exact HQ].
    eapply rg_bind; [apply remove_temporary, none_tmp|]. intros ?. by apply rg_ret.
  - eapply rg_weaken with (P := has_temporary r p d i data (Some tmp)); [|by intros fs [? _]|intros ? ? HQ; exact HQ].
    eapply rg_bind; [apply remove_temporary, some_tmp|]. intros ?. apply close_open.
Qed.
End Writing.
End Sharing.
