(* ===== verification/ImageCacheSpec.v ===== *)
(** * What the cache of transformed images guarantees

    Keys stand for the source and the options of a transformation; and what is read under a
    key was written for it by this service, whatever other users of the machine do to the
    temporary directory meanwhile. *)

From S2P Require Import Prelude RustStr Net Codec Enrollment StaticFiles ManagementPolicy ImageSource Images PosixFs ImageCache ImageCacheProps.

(** ** Keys *)

Definition newline : ascii := of_byte 10.

(** App names and directories are single lines; numbers have their width. *)
Record transform_ok (app_name app_root : str) (o : TransformOptions) : Prop := {
  ok_app : newline ∉ app_name;
  ok_root : newline ∉ app_root;
  ok_width : (0 <= to_width o < 2 ^ 32)%Z;
  ok_height : forall h, to_height o = Some h -> (0 < h < 2 ^ 32)%Z;
  ok_quality : (0 <= to_quality o < 256)%Z;
}.

Lemma line_inj a b x y : newline ∉ a -> newline ∉ b -> a ++ newline :: x = b ++ newline :: y -> a = b /\ x = y.
Proof.
  revert b. induction a as [|c a IH]; intros [|c' b] Ha Hb; cbn.
  - by intros [= ->].
  - intros [= <- _]. set_solver.
  - intros [= -> _]. set_solver.
  - intros [= -> H]. destruct (IH b) as [-> ->]; [set_solver|set_solver|done|done].
Qed.

Lemma to_be_inj n a b : (0 <= a < 256 ^ Z.of_nat n)%Z -> (0 <= b < 256 ^ Z.of_nat n)%Z -> to_be n a = to_be n b -> a = b.
Proof. intros Ha Hb H. apply (f_equal from_be) in H. by rewrite !from_to_be in H. Qed.

(** Text that ends in an optional code of a field. *)
Definition ends (name : string) (code : str) : str := field name ++ code.

Lemma crop_inj a b c c' :
  a ++ ends "crop" (default [] (crop_code <$> c)) = b ++ ends "crop" (default [] (crop_code <$> c')) -> a = b /\ c = c'.
Proof.
  intros H. assert (Hl : last (a ++ ends "crop" (default [] (crop_code <$> c))) = last (b ++ ends "crop" (default [] (crop_code <$> c')))) by by rewrite H.
  destruct c as [[]|], c' as [[]|]; rewrite !last_app in Hl; vm_compute in Hl; try done; by apply app_inv_tail in H.
Qed.

Lemma fit_inj a b c c' :
  a ++ ends "fit" (default [] (fit_code <$> c)) = b ++ ends "fit" (default [] (fit_code <$> c')) -> a = b /\ c = c'.
Proof.
  intros H. assert (Hl : last (a ++ ends "fit" (default [] (fit_code <$> c))) = last (b ++ ends "fit" (default [] (fit_code <$> c')))) by by rewrite H.
  destruct c as [[]|], c' as [[]|]; rewrite !last_app in Hl; vm_compute in Hl; try done; by apply app_inv_tail in H.
Qed.

Lemma fixed_inj (n : nat) (a b x y : str) : length x = n -> length y = n -> a ++ x = b ++ y -> a = b /\ x = y.
Proof. intros Hx Hy H. apply app_inj_2 in H; [done|congruence]. Qed.

(** The text that is hashed, with its last field last. *)
Lemma transform_cache_text_snoc app_name app_root source o :
  transform_cache_text app_name app_root source o
  = ((((((CACHE_VERSION ++ field "app" ++ app_name ++ field "root" ++ app_root ++ field "source" ++ source)
       ++ field "format" ++ output_format_code (to_format o)) ++ field "width" ++ to_be 4 (to_width o))
       ++ field "height" ++ to_be 4 (default 0%Z (to_height o)))
       ++ ends "fit" (default [] (fit_code <$> to_fit o))) ++ ends "crop" (default [] (crop_code <$> to_crop o))) ++ field "quality" ++ to_be 1 (to_quality o).
Proof. unfold transform_cache_text, ends. by rewrite <- !app_assoc. Qed.

Lemma field_inj (n : nat) name a b x y : length x = n -> length y = n -> a ++ field name ++ x = b ++ field name ++ y -> a = b /\ x = y.
Proof.
  intros Hx Hy. rewrite !app_assoc. intros H. apply (fixed_inj n) in H as [H ->]; [|done|done]. by apply app_inv_tail in H.
Qed.

(** The text determines what was asked for. *)
Lemma transform_cache_text_inj a r s o a' r' s' o' :
  transform_ok a r o -> transform_ok a' r' o' -> transform_cache_text a r s o = transform_cache_text a' r' s' o' ->
  a = a' /\ r = r' /\ s = s' /\ o = o'.
Proof.
  intros [Ha Hr Hw Hh Hq] [Ha' Hr' Hw' Hh' Hq']. rewrite !transform_cache_text_snoc. intros H.
  apply (field_inj 1) in H as [H Eq]; [|apply length_to_be..]. apply crop_inj in H as [H Ec]. apply fit_inj in H as [H Ef].
  apply (field_inj 4) in H as [H Eh]; [|apply length_to_be..]. apply (field_inj 4) in H as [H Ew]; [|apply length_to_be..].
  apply (field_inj 4) in H as [H Eo]; [|by destruct (to_format o)|by destruct (to_format o')].
  apply app_inv_head, app_inv_head in H. apply line_inj in H as [-> H]; [|done..]. apply app_inv_head in H.
  apply line_inj in H as [-> H]; [|done..]. apply app_inv_head in H as ->. split_and!; try done.
  apply to_be_inj in Eq; [|done..]. apply to_be_inj in Ew; [|done..].
  assert (Hd : to_height o = to_height o').
  { apply to_be_inj in Eh; [|destruct (to_height o) as [h|]; cbn; [specialize (Hh h eq_refl)|]; lia|destruct (to_height o') as [h|]; cbn; [specialize (Hh' h eq_refl)|]; lia].
    destruct (to_height o) as [h|], (to_height o') as [h'|]; cbn in Eh; [congruence| | |done]; [specialize (Hh h eq_refl)|specialize (Hh' h' eq_refl)]; lia. }
  assert (Hf : to_format o = to_format o') by (destruct (to_format o), (to_format o'); try done; by vm_compute in Eo).
  destruct o, o'; cbn in *. congruence.
Qed.

(** ** The guarantee *)

Section Authentic.
Context {H : Sha256Api}.

(** The answers of the transformation worker. *)
Variable Transformed : str -> str -> str -> TransformOptions -> str -> Prop.

Definition made_for (key bytes : str) : Prop :=
  exists app_name app_root source o, transform_ok app_name app_root o
    /\ key = transform_cache_key app_name app_root source o /\ Transformed app_name app_root source o bytes.

(** The temporary name that a task writes a key under. *)
Definition temporary_name (key : str) (pid tmp_id : Z) : str := drop 2 key ++ "."%char :: tmp_extension pid tmp_id.

Lemma temporary_name_ok key pid tmp_id p s :
  key = p ++ s -> cache_name p s = true -> temporary_name key pid tmp_id = s ++ "."%char :: tmp_extension pid tmp_id.
Proof.
  intros -> Hn. unfold cache_name in Hn. repeat (apply andb_true_iff in Hn as [Hn _]). apply Nat.eqb_eq in Hn.
  unfold temporary_name. by rewrite drop_app_length'.
Qed.

Lemma temporary_name_temporary key pid tmp_id : temporary (temporary_name key pid tmp_id).
Proof. apply contains_char_iff. unfold temporary_name. set_solver. Qed.

(** C36: nobody can poison the cache of transformed images.  Between any two system calls other
    users of the machine do whatever the permissions of files and directories let them do (the
    temporary directory is open to all), and other tasks of the service write and prune.  What
    is then read under the key of a transformation is an answer of the worker for this app,
    source and options, or SHA-256 has a collision.  And a task that writes such an answer only
    makes changes of that kind itself, and keeps the cache sound. *)
Theorem cached_images_are_authentic euid names env fs k :
  cache_inv euid made_for fs ->
  (forall app_name app_root source o c,
     transform_ok app_name app_root o ->
     (forall k fs, cache_inv euid made_for fs -> rtc (others euid names made_for (fun _ => True)) fs (act env k fs)) ->
     (read env euid (abs names) (transform_cache_key app_name app_root source o) (to_format o) (fs, k)).2 = Some c ->
     Transformed app_name app_root source o (ct_bytes c) \/ exists x y, x <> y /\ sha256 x = sha256 y)
  /\ (forall total pid tmp_id app_name app_root source o bytes,
     let key := transform_cache_key app_name app_root source o in
     let tmp := temporary_name key pid tmp_id in
     transform_ok app_name app_root o -> Transformed app_name app_root source o bytes ->
     (forall k fs, cache_inv euid made_for fs -> rtc (others euid names made_for (fun name => name <> tmp)) fs (act env k fs)) ->
     let fs' := (write env euid total pid tmp_id (abs names) key bytes (fs, k)).1.1 in
     cache_inv euid made_for fs'
     /\ rtc (fun a b => others euid names made_for (fun name => name <> tmp) a b \/ service euid names made_for (fun name => name = tmp) a b) fs fs').
Proof.
  intros Hinv. split.
  - intros a r s o c Hok Hacts Hread.
    destruct (read_good euid names made_for env _ (fun _ _ => False) ltac:(done) Hacts (transform_cache_key a r s o) (to_format o) fs k Hinv I) as (_ & _ & Hgood).
    destruct (Hgood c Hread) as [(a' & r' & s' & o' & Hok' & Hkey & Ht) _]. unfold transform_cache_key in Hkey.
    apply (f_equal unhex) in Hkey. rewrite !unhex_hex in Hkey.
    destruct (decide (transform_cache_text a r s o = transform_cache_text a' r' s' o')) as [Heq|Hne]; [left|right; by eauto].
    apply transform_cache_text_inj in Heq as (-> & -> & -> & ->); done.
  - intros total pid tmp_id a r s o bytes key tmp Hok Ht Hacts fs'.
    destruct (write_does euid names made_for env tmp (temporary_name_temporary _ _ _) Hacts total pid tmp_id key bytes) with (fs := fs) (k := k) as (? & ? & _); try done.
    + intros p s' Hk Hn. by apply (temporary_name_ok key pid tmp_id p s').
    + by exists a, r, s, o.
Qed.
End Authentic.

(** ** One transformation at a time *)

(** Tasks take leases and give up those they own. *)
Inductive lease_step : Leases * list (str * nat) -> Leases * list (str * nat) -> Prop :=
| step_owner l owners key l' entry :
    acquire_transform_lease key l = (l', Owner key entry) -> lease_step (l, owners) (l', (key, entry) :: owners)
| step_waiter l owners key entry :
    acquire_transform_lease key l = (l, Waiter entry) -> lease_step (l, owners) (l, owners)
| step_drop l before key entry after :
    lease_step (l, before ++ (key, entry) :: after) (drop_owner key entry l, before ++ after).

Record lease_inv (s : Leases * list (str * nat)) : Prop := {
  lease_table : forall key entry, in_flight s.1 !! key = Some entry <-> (key, entry) ∈ s.2;
  lease_live : forall key entry, (key, entry) ∈ s.2 -> signalled s.1 !! entry = Some false;
  lease_done : forall entry b, signalled s.1 !! entry = Some b -> b = false -> exists key, (key, entry) ∈ s.2;
  lease_entries : NoDup s.2.*2;
}.

Lemma lease_inv_step s s' : lease_step s s' -> lease_inv s -> lease_inv s'.
Proof.
  intros [l owners key l' entry Ha|l owners key entry Ha|l before key entry after] [Htab Hlive Hdone Hnd]; cbn [fst snd] in *; [| done|].
  - unfold acquire_transform_lease in Ha. destruct (in_flight l !! key) as [e|] eqn:Hk; [done|]. injection Ha as <- <-.
    set (e := fresh (dom (signalled l))). assert (Hfresh : signalled l !! e = None) by (apply (not_elem_of_dom (D := gset nat)), is_fresh).
    split; cbn [fst snd in_flight signalled].
    + intros key' entry'. rewrite lookup_insert_Some, elem_of_cons, <- Htab. split.
      * intros [[<- <-]|[? ?]]; [by left|by right].
      * intros [[= -> ->]|Hin]; [by left|right]. split; [|done]. intros ->. congruence.
    + intros key' entry' [[= -> ->]|Hin]%elem_of_cons; [by rewrite lookup_insert_eq|].
      rewrite lookup_insert_ne; [by eapply Hlive|]. intros <-. specialize (Hlive _ _ Hin). congruence.
    + intros entry' b [[<- <-]|[_ Hs]]%lookup_insert_Some Hb; [exists key; set_solver|]. destruct (Hdone _ _ Hs Hb) as [key' ?]. exists key'. set_solver.
    + cbn. constructor; [|done]. intros ([key' e'] & He & Hin)%list_elem_of_fmap. cbn in He. subst e'. specialize (Hlive _ _ Hin). congruence.
  - rewrite fmap_app in Hnd. cbn in Hnd. apply NoDup_app in Hnd as (Hb & Hba & Ha). apply NoDup_cons in Ha as [Hea Ha].
    assert (Hin : forall k' e', (k', e') ∈ before ++ after <-> (k', e') ∈ before ++ (key, entry) :: after /\ e' <> entry).
    { intros k' e'. split.
      - intros Hin. split; [set_solver|]. intros ->. apply elem_of_app in Hin as [Hin|Hin].
        + apply (list_elem_of_fmap_2 snd) in Hin. apply (Hba entry); [done|set_solver].
        + apply (list_elem_of_fmap_2 snd) in Hin. by apply Hea.
      - intros [Hin Hne]. apply elem_of_app in Hin as [?|[[= -> ->]|?]%elem_of_cons]; [set_solver|done|set_solver]. }
    split; cbn [fst snd drop_owner in_flight signalled].
    + intros key' entry'. rewrite Hin, <- Htab. assert (Hk : in_flight l !! key = Some entry) by (apply Htab; set_solver).
      rewrite bool_decide_eq_true_2 by done. rewrite lookup_delete_Some. split.
      * intros [Hne Hl]. split; [done|]. intros ->. assert (Hin' : (key', entry) ∈ before ++ after).
        { apply Htab in Hl. apply elem_of_app in Hl as [?|[[= -> ]|?]%elem_of_cons]; [set_solver|done|set_solver]. }
        by apply Hin in Hin' as [_ ?].
      * intros [Hl Hne]. split; [|done]. intros ->. congruence.
    + intros key' entry' [Hi Hne]%Hin. rewrite lookup_insert_ne by done. by eapply Hlive.
    + intros entry' b [[<- <-]|[Hne Hs]]%lookup_insert_Some Hb'; [done|]. destruct (Hdone _ _ Hs Hb') as [key' ?]. exists key'. by apply Hin.
    + rewrite fmap_app. apply NoDup_app. split_and!; [done| |done]. intros e He Hin'. apply (Hba e He). set_solver.
Qed.

(** While a transformation is owned, whoever asks for it waits for this owner; a waiter goes on
    exactly when its owner has gone, and the next one to ask then owns it. *)
Lemma one_transformation_at_a_time s :
  rtc lease_step (no_leases, []) s ->
  (forall key e e', (key, e) ∈ s.2 -> (key, e') ∈ s.2 -> e = e')
  /\ (forall key e, (key, e) ∈ s.2 -> acquire_transform_lease key s.1 = (s.1, Waiter e) /\ waiter_ready e s.1 = false)
  /\ (forall key, (forall e, (key, e) ∉ s.2) -> exists l e, acquire_transform_lease key s.1 = (l, Owner key e))
  /\ (forall e, is_Some (signalled s.1 !! e) -> waiter_ready e s.1 = true <-> forall key, (key, e) ∉ s.2).
Proof.
  intros Hr. assert (Hinv : lease_inv s).
  { assert (H0 : lease_inv (no_leases, [])). { split; cbn; [intros; split; set_solver|set_solver|set_solver|constructor]. }
    revert H0. induction Hr as [|x y z Hxy _ IH]; [done|]. intros Hx. apply IH. by eapply lease_inv_step. }
  destruct Hinv as [Htab Hlive Hdone _]. split_and!.
  - intros key e e' He%Htab He'%Htab. congruence.
  - intros key e He. unfold acquire_transform_lease, waiter_ready. rewrite (proj2 (Htab _ _) He), (Hlive _ _ He). done.
  - intros key Hno. unfold acquire_transform_lease. destruct (in_flight s.1 !! key) as [e|] eqn:Hk; [|by eauto]. apply Htab in Hk. by destruct (Hno e).
  - intros e [b Hb]. unfold waiter_ready. rewrite Hb. cbn. split.
    + intros -> key Hin. specialize (Hlive _ _ Hin). congruence.
    + intros Hno. destruct b; [done|]. destruct (Hdone _ _ Hb eq_refl) as [key Hk]. by destruct (Hno key).
Qed.

(** ** An instance: a cache below a temporary directory in which another user is at work *)

Definition demo_sha : Sha256Api := {| sha256 s := rev (take 32 (rev s ++ replicate 32 "0"%char)) |}.
#[local] Existing Instance demo_sha.

Definition demo_names : list str := [bs "tmp"; bs "cache"].

(** The root directory, and a temporary directory with mode 1777, of the system. *)
Definition demo_fs : Fs := mkFs {[ (0, bs "tmp") := 1 ]} {[ 0 := mkInode KDir 0 493 3 0 []; 1 := mkInode KDir 0 1023 2 0 [] ]} ∅.

Definition writable (n : Inode) : bool := is_kdir (i_kind n) && negb (((i_uid n =? 0) || (i_uid n =? 1000)) && (Z.land (i_mode n) 18 =? 0))%Z.

(** The other user makes files in the temporary directory whenever he can. *)
Definition meddle (k : nat) (fs : Fs) : Fs :=
  match inodes fs !! 1, entries fs !! (1, of_byte (Z.of_nat k) :: bs "mine") with
  | Some n, None => if writable n then add_node fs 1 (of_byte (Z.of_nat k) :: bs "mine") (fresh_node fs) (mkInode KFile 1001 511 1 0 (bs "poison")) else fs
  | _, _ => fs
  end.

Definition demo_env : Env := mkEnv meddle (fun _ => false) (fun _ => 0) (fun k => Z.of_nat k) (fun _ l => l).

Lemma meddle_others names Good T k fs : rtc (others 1000 names Good T) fs (act demo_env k fs).
Proof.
  cbn [act demo_env]. unfold meddle. destruct (inodes fs !! 1) as [n|] eqn:Hn; [|done]. destruct (entries fs !! _) eqn:He; [done|].
  destruct (writable n) eqn:Hw; [|done]. apply rtc_once. left. unfold writable in Hw. apply andb_true_iff in Hw as [Hk Hm].
  apply (stranger_create _ _ 1 n); [done|by destruct (i_kind n)| |done|apply fresh_none|].
  - intros [[Hu|Hu] Hland]; rewrite Hu, Hland in Hm; by vm_compute in Hm.
  - by intros [|].
Qed.

Definition demo_options : TransformOptions := mkTransform Webp 640 None None None 75.
Definition demo_image : str := bs "an image".
Definition demo_transformed : str -> str -> str -> TransformOptions -> str -> Prop := fun _ _ _ _ bytes => bytes = demo_image.
Definition demo_key : str := transform_cache_key (bs "shop") (bs "/srv/shop") (bs "source") demo_options.
Definition demo_written : World := (write demo_env 1000 None 7 1 (abs demo_names) demo_key demo_image (demo_fs, 0)).1.

Lemma demo_ok : transform_ok (bs "shop") (bs "/srv/shop") demo_options.
Proof. split; [apply (bool_decide_eq_true_1 _); vm_compute; reflexivity..|cbn; lia|done|cbn; lia]. Qed.

Lemma demo_inv : cache_inv 1000 (made_for demo_transformed) demo_fs.
Proof.
  split.
  - split; cbn [demo_fs entries inodes writing].
    + intros d name i [[= <- <-] <-]%lookup_singleton_Some. split; by eexists.
    + intros i name Hi. by rewrite lookup_empty in Hi.
    + intros k1 k2 i [<- _]%lookup_singleton_Some [<- _]%lookup_singleton_Some. done.
    + intros d name [[= <- <-] ?]%lookup_singleton_Some. done.
  - intros r rn p d dn s i n Hr (_ & Hu & _) Hp Hd (_ & Hu' & _). cbn [demo_fs inodes] in Hr.
    apply lookup_insert_Some in Hr as [[<- <-]|[_ [<- <-]%lookup_singleton_Some]]; done.
Qed.

(** What was written is read again, and is the image. *)
Lemma cached_images_are_authentic_witness : exists c,
  (read demo_env 1000 (abs demo_names) demo_key Webp (demo_written.1, demo_written.2)).2 = Some c
  /\ (demo_transformed (bs "shop") (bs "/srv/shop") (bs "source") demo_options (ct_bytes c) \/ exists x y, x <> y /\ sha256 x = sha256 y).
Proof.
  destruct (proj2 (cached_images_are_authentic demo_transformed 1000 demo_names demo_env demo_fs 0 demo_inv)
    None 7%Z 1%Z (bs "shop") (bs "/srv/shop") (bs "source") demo_options demo_image demo_ok eq_refl (fun k fs _ => meddle_others _ _ _ k fs)) as [Hinv _].
  destruct (read demo_env 1000 (abs demo_names) demo_key Webp (demo_written.1, demo_written.2)).2 as [c|] eqn:Hread; [|vm_compute in Hread; discriminate].
  exists c. split; [reflexivity|].
  apply (proj1 (cached_images_are_authentic demo_transformed 1000 demo_names demo_env demo_written.1 demo_written.2 Hinv) _ _ _ _ _ demo_ok (fun k fs _ => meddle_others _ _ _ k fs)).
  exact Hread.
Defined.
