(* ===== verification/SourceCache.v ===== *)
(** * Image sources in memory (tako-server/src/proxy/service/image/source_cache.rs)

    Sources of images are kept for a few seconds, within limits, and concurrent requests for
    one source share one load.  The tasks are a step relation: locks are held for one
    operation each, and the tasks interleave between them. *)

From S2P Require Import Prelude RustStr ImageSource ImageCache.

Record ImageSourceBytes := mkSourceBytes { sb_bytes : str; sb_content_type : option str }.

Record SourceCachePolicy := mkSourcePolicy { ttl : Z; sp_max_bytes : Z; sp_max_entries : nat }.

(** Times are in nanoseconds. *)
Definition SOURCE_CACHE_TTL : Z := 10000000000.
Definition SOURCE_CACHE_MAX_BYTES : Z := 64 * 1024 * 1024.
Definition SOURCE_CACHE_MAX_ENTRIES : nat := 256.
Definition SourceCachePolicy_default : SourceCachePolicy := mkSourcePolicy SOURCE_CACHE_TTL SOURCE_CACHE_MAX_BYTES SOURCE_CACHE_MAX_ENTRIES.

Record SourceEntry := mkSourceEntry {
  se_source : ImageSourceBytes;
  inserted_at : Z;
  last_accessed_at : Z;
  se_size : Z;
}.

Record SourceCacheState := mkSourceCache { sc_entries : gmap str SourceEntry; sc_total_bytes : Z }.

Definition source_cache_default : SourceCacheState := mkSourceCache ∅ 0.

Definition source_len (s : ImageSourceBytes) : Z := Z.of_nat (length (sb_bytes s)).

Section Operations.
Context {iter : HashIter str SourceEntry}.

Definition remove_entry (key : str) (st : SourceCacheState) : SourceCacheState :=
  match sc_entries st !! key with
  | Some entry => mkSourceCache (delete key (sc_entries st)) (u64_saturating_sub (sc_total_bytes st) (se_size entry))
  | None => st
  end.

Definition entry_expired (now ttl : Z) (entry : SourceEntry) : bool := (ttl <=? Z.max 0 (now - inserted_at entry))%Z.

Definition prune_expired (now ttl : Z) (st : SourceCacheState) : SourceCacheState :=
  let expired := omap (fun ke : str * SourceEntry => if entry_expired now ttl ke.2 then Some ke.1 else None) (hash_iter (sc_entries st)) in
  fold_left (fun st key => remove_entry key st) expired st.

Definition accessed_leb (a b : str * SourceEntry) : bool := (last_accessed_at a.2 <=? last_accessed_at b.2)%Z.

(** [min_by_key]: the first of the least. *)
Definition oldest_key (st : SourceCacheState) : option str := fst <$> head (sort_by accessed_leb (hash_iter (sc_entries st))).

Definition over_limits (policy : SourceCachePolicy) (st : SourceCacheState) : bool :=
  (sp_max_bytes policy <? sc_total_bytes st)%Z || (sp_max_entries policy <? size (sc_entries st))%nat.

(** Every round removes an entry: one round more than there are is enough. *)
Fixpoint prune_loop (fuel : nat) (policy : SourceCachePolicy) (st : SourceCacheState) : SourceCacheState :=
  match fuel with
  | O => st
  | S fuel' =>
      if over_limits policy st then
        match oldest_key st with
        | Some key => prune_loop fuel' policy (remove_entry key st)
        | None => st
        end
      else st
  end.

Definition prune_to_limits (policy : SourceCachePolicy) (st : SourceCacheState) : SourceCacheState :=
  prune_loop (S (size (sc_entries st))) policy st.

Definition source_get (key : str) (now : Z) (policy : SourceCachePolicy) (st : SourceCacheState)
  : SourceCacheState * option ImageSourceBytes :=
  let st := prune_expired now (ttl policy) st in
  match sc_entries st !! key with
  | None => (st, None)
  | Some entry =>
      (mkSourceCache (<[key := mkSourceEntry (se_source entry) (inserted_at entry) now (se_size entry)]> (sc_entries st)) (sc_total_bytes st),
       Some (se_source entry))
  end.

Definition source_insert (key : str) (source : ImageSourceBytes) (now : Z) (policy : SourceCachePolicy) (st : SourceCacheState)
  : SourceCacheState :=
  let st := prune_expired now (ttl policy) (remove_entry key st) in
  let size := source_len source in
  if (sp_max_bytes policy <? size)%Z || bool_decide (sp_max_entries policy = 0) then st
  else
    prune_to_limits policy
      (mkSourceCache (<[key := mkSourceEntry source now now size]> (sc_entries st)) (u64_saturating_add (sc_total_bytes st) size)).

(** ** [get_or_load] *)

(** The leases of sources are those of transformations. *)
Definition acquire_source_lease : str -> Leases -> Leases * TransformLease := acquire_transform_lease.
Definition drop_source_owner : str -> nat -> Leases -> Leases := drop_owner.

(** Where a task is: before its first read, before asking for the lease, with the lease before
    the second read, loading, giving the lease up with an answer, waiting, or done.  An answer
    comes with the time it was obtained. *)
Inductive SourcePhase :=
| Looking
| Acquiring
| Owned (entry : nat)
| Loading (entry : nat)
| Dropping (entry : nat) (answer : result ImageSourceBytes ImageError) (at_ : Z)
| Waiting (entry : nat)
| Answered (answer : result ImageSourceBytes ImageError) (at_ : Z).

Record Sources := mkSources {
  s_now : Z;
  s_cache : SourceCacheState;
  s_leases : Leases;
  s_tasks : gmap nat (str * SourcePhase);
  (** What was loaded, under which key and when. *)
  s_loaded : list (str * ImageSourceBytes * Z);
}.

Definition sources_start (now : Z) : Sources := mkSources now source_cache_default no_leases ∅ [].

Definition set_task (s : Sources) (i : nat) (key : str) (ph : SourcePhase) : Sources :=
  mkSources (s_now s) (s_cache s) (s_leases s) (<[i := (key, ph)]> (s_tasks s)) (s_loaded s).

Definition set_cache (s : Sources) (c : SourceCacheState) : Sources := mkSources (s_now s) c (s_leases s) (s_tasks s) (s_loaded s).
Definition set_leases (s : Sources) (l : Leases) : Sources := mkSources (s_now s) (s_cache s) l (s_tasks s) (s_loaded s).

Definition POLICY := SourceCachePolicy_default.

(** [read], under the lock of the cache. *)
Definition read_source (s : Sources) (i : nat) (key : str) (hit : ImageSourceBytes -> SourcePhase) (miss : SourcePhase) : Sources :=
  let '(cache, found) := source_get key (s_now s) POLICY (s_cache s) in
  set_task (set_cache s cache) i key (match found with Some source => hit source | None => miss end).

(** The next step of a task that needs nothing else. *)
Definition task_step (s : Sources) (i : nat) (key : str) (ph : SourcePhase) : option Sources :=
  match ph with
  | Looking => Some (read_source s i key (fun source => Answered (Ok source) (s_now s)) Acquiring)
  | Acquiring =>
      let '(leases, lease) := acquire_source_lease key (s_leases s) in
      Some (set_task (set_leases s leases) i key (match lease with Owner _ entry => Owned entry | Waiter entry => Waiting entry end))
  | Owned entry => Some (read_source s i key (fun source => Dropping entry (Ok source) (s_now s)) (Loading entry))
  | Loading _ => None
  | Dropping entry answer at_ => Some (set_task (set_leases s (drop_source_owner key entry (s_leases s))) i key (Answered answer at_))
  | Waiting entry => if waiter_ready entry (s_leases s) then Some (set_task s i key Looking) else None
  | Answered _ _ => None
  end.

(** The load ends. *)
Definition load_ends (s : Sources) (i : nat) (key : str) (entry : nat) (answer : result ImageSourceBytes ImageError) : Sources :=
  match answer with
  | Ok source =>
      set_task (mkSources (s_now s) (source_insert key source (s_now s) POLICY (s_cache s)) (s_leases s) (s_tasks s)
                  (s_loaded s ++ [(key, source, s_now s)])) i key (Dropping entry (Ok source) (s_now s))
  | Err e => set_task s i key (Dropping entry (Err e) (s_now s))
  end.

Definition phase_owns (ph : SourcePhase) : option nat :=
  match ph with Owned e | Loading e | Dropping e _ _ => Some e | _ => None end.

(** A request goes away: its future is dropped, and the lease with it. *)
Definition abandon (s : Sources) (i : nat) (key : str) (ph : SourcePhase) : Sources :=
  mkSources (s_now s) (s_cache s)
    (match phase_owns ph with Some entry => drop_source_owner key entry (s_leases s) | None => s_leases s end)
    (delete i (s_tasks s)) (s_loaded s).

Inductive sources_step : Sources -> Sources -> Prop :=
| step_time s t : (s_now s <= t)%Z -> sources_step s (mkSources t (s_cache s) (s_leases s) (s_tasks s) (s_loaded s))
| step_begin s i key : s_tasks s !! i = None -> sources_step s (set_task s i key Looking)
| step_task s i key ph s' : s_tasks s !! i = Some (key, ph) -> task_step s i key ph = Some s' -> sources_step s s'
| step_load s i key entry answer : s_tasks s !! i = Some (key, Loading entry) -> sources_step s (load_ends s i key entry answer)
| step_cancel s i key ph : s_tasks s !! i = Some (key, ph) -> sources_step s (abandon s i key ph).
End Operations.

(** ** Operations on the cache *)

Section Cache.
Context {iter : HashIter str SourceEntry}.
Implicit Types (st : SourceCacheState) (m : gmap str SourceEntry).

(** The books are right: sizes are lengths, and the total is their sum. *)
Record accounted st : Prop := {
  acc_size : forall k e, sc_entries st !! k = Some e -> se_size e = source_len (se_source e);
  acc_total : sc_total_bytes st = map_sum se_size (sc_entries st);
}.

Lemma accounted_nonneg st : accounted st -> (0 <= sc_total_bytes st)%Z.
Proof. intros [Hs ->]. apply map_sum_nonneg. intros k e He. rewrite (Hs _ _ He). unfold source_len. lia. Qed.

Lemma remove_entry_spec key st :
  accounted st ->
  accounted (remove_entry key st) /\ sc_entries (remove_entry key st) = delete key (sc_entries st)
  /\ (sc_total_bytes (remove_entry key st) <= sc_total_bytes st)%Z.
Proof.
  intros Hacc. unfold remove_entry. destruct (sc_entries st !! key) as [e|] eqn:Hk; [|by rewrite delete_id].
  cbn. assert (Hsub : accounted (mkSourceCache (delete key (sc_entries st)) (map_sum se_size (delete key (sc_entries st))))).
  { split; cbn; [|done]. intros k e' [_ He']%lookup_delete_Some. by eapply acc_size. }
  pose proof (accounted_nonneg _ Hsub) as Hpos. cbn in Hpos. pose proof (acc_size _ Hacc _ _ Hk) as Hsz. unfold source_len in Hsz.
  rewrite (acc_total _ Hacc), (map_sum_delete _ _ _ _ Hk). unfold u64_saturating_sub.
  rewrite Z.add_simpl_l, Z.max_r by lia. split_and!; [done..|lia].
Qed.

Definition remove_entries (keys : list str) st : SourceCacheState := fold_left (fun st key => remove_entry key st) keys st.

Lemma remove_entries_spec keys st :
  accounted st ->
  accounted (remove_entries keys st) /\ (sc_total_bytes (remove_entries keys st) <= sc_total_bytes st)%Z
  /\ sc_entries (remove_entries keys st) ⊆ sc_entries st
  /\ forall k e, sc_entries (remove_entries keys st) !! k = Some e <-> sc_entries st !! k = Some e /\ k ∉ keys.
Proof.
  revert st. induction keys as [|key keys IH]; intros st Hacc; cbn.
  - split_and!; [done..|]. intros k e. set_solver.
  - destruct (remove_entry_spec key st Hacc) as (Hacc' & He & Ht). destruct (IH _ Hacc') as (? & ? & Hsub & Hl). split_and!; [done|by etrans| |].
    + rewrite He in Hsub. etrans; [done|apply delete_subseteq].
    + intros k e. rewrite Hl, He, lookup_delete_Some, not_elem_of_cons. naive_solver.
Qed.

Lemma elem_of_entries m k e : (k, e) ∈ hash_iter m <-> m !! k = Some e.
Proof. by rewrite hash_iter_perm, elem_of_map_to_list. Qed.

Lemma prune_expired_spec now life st :
  accounted st ->
  accounted (prune_expired now life st) /\ (sc_total_bytes (prune_expired now life st) <= sc_total_bytes st)%Z
  /\ sc_entries (prune_expired now life st) ⊆ sc_entries st
  /\ forall k e, sc_entries (prune_expired now life st) !! k = Some e <-> sc_entries st !! k = Some e /\ entry_expired now life e = false.
Proof.
  intros Hacc. change (prune_expired now life st) with
    (remove_entries (omap (fun ke : str * SourceEntry => if entry_expired now life ke.2 then Some ke.1 else None) (hash_iter (sc_entries st))) st).
  set (keys := omap _ _). destruct (remove_entries_spec keys st Hacc) as (? & ? & ? & Hl).
  split_and!; [done..|]. intros k e. rewrite Hl. split; intros [Hk Hx]; (split; [done|]).
  - apply not_true_is_false. intros He. apply Hx, list_elem_of_omap. exists (k, e). cbn. rewrite He. by rewrite elem_of_entries.
  - intros ([k' e'] & Hin & Heq)%list_elem_of_omap. cbn in Heq. apply elem_of_entries in Hin.
    destruct (entry_expired now life e') eqn:He; [|done]. injection Heq as ->. congruence.
Qed.

Lemma oldest_key_Some st key :
  oldest_key st = Some key ->
  exists e, sc_entries st !! key = Some e
    /\ forall k' e', sc_entries st !! k' = Some e' -> (last_accessed_at e <= last_accessed_at e')%Z.
Proof.
  unfold oldest_key. pose proof (sort_by_perm accessed_leb (hash_iter (sc_entries st))) as Hp.
  pose proof (sort_by_sorted accessed_leb) as Hs. specialize (Hs ltac:(unfold accessed_leb; intros; lia) ltac:(unfold accessed_leb; intros; lia) (hash_iter (sc_entries st))).
  destruct (sort_by _ _) as [|[k e] l]; [done|]. cbn. intros [= ->]. exists e.
  assert (Hmem : forall k' e', sc_entries st !! k' = Some e' <-> (k', e') ∈ (key, e) :: l) by (intros; by rewrite Hp, elem_of_entries).
  split; [apply Hmem; set_solver|]. intros k' e' [[= -> ->]|Hin]%Hmem%elem_of_cons; [done|].
  apply StronglySorted_inv in Hs as [_ Hf]. rewrite Forall_forall in Hf. specialize (Hf _ Hin). unfold accessed_leb in Hf. cbn in Hf. lia.
Qed.

Lemma oldest_key_None st : oldest_key st = None -> sc_entries st = ∅.
Proof.
  unfold oldest_key. pose proof (sort_by_perm accessed_leb (hash_iter (sc_entries st))) as Hp.
  destruct (sort_by _ _); [|done]. intros _. apply map_empty. intros k. apply eq_None_not_Some. intros [e He].
  apply elem_of_entries in He. rewrite <- Hp in He. set_solver.
Qed.

(** What is left was used no earlier than what went. *)
Definition least_recent_went m m' : Prop :=
  forall k e k' e', m !! k = Some e -> m' !! k = None -> m' !! k' = Some e' -> (last_accessed_at e <= last_accessed_at e')%Z.

Lemma prune_loop_spec fuel policy st :
  (0 <= sp_max_bytes policy)%Z -> accounted st -> (size (sc_entries st) < fuel)%nat ->
  accounted (prune_loop fuel policy st) /\ over_limits policy (prune_loop fuel policy st) = false
  /\ sc_entries (prune_loop fuel policy st) ⊆ sc_entries st
  /\ least_recent_went (sc_entries st) (sc_entries (prune_loop fuel policy st)).
Proof.
  intros Hmax. revert st. induction fuel as [|fuel IH]; intros st Hacc Hfuel; [lia|]. cbn.
  assert (Hrefl : least_recent_went (sc_entries st) (sc_entries st)) by (intros k e k' e' ??; congruence).
  destruct (over_limits policy st) eqn:Hover; [|done].
  destruct (oldest_key st) as [key|] eqn:Hold.
  - apply oldest_key_Some in Hold as (e0 & Hk & Hmin). destruct (remove_entry_spec key st Hacc) as (Hacc' & He & _).
    destruct (IH (remove_entry key st) Hacc') as (? & ? & Hsub & Hlru).
    { rewrite He, map_size_delete, Hk. pose proof (map_size_ne_0_lookup_2 (sc_entries st) key). cbn.
      assert (size (sc_entries st) <> 0%nat) by (apply map_size_ne_0_lookup; eauto). lia. }
    rewrite He in Hsub, Hlru. split_and!; [done..|etrans; [done|apply delete_subseteq]|].
    intros k e k' e' Hin Hout Hin'. destruct (decide (k = key)) as [->|Hne].
    + assert (e = e0) as -> by congruence. apply (Hmin k'). eapply lookup_weaken; [exact Hin'|]. etrans; [done|apply delete_subseteq].
    + eapply (Hlru k e k' e'); [by rewrite lookup_delete_ne|done..].
  - apply oldest_key_None in Hold. exfalso. revert Hover. unfold over_limits. rewrite (acc_total _ Hacc), Hold.
    rewrite map_sum_empty, map_size_empty. intros Hov. bool_to_prop. lia.
Qed.

(** ** The cache between operations *)

(** [loaded] is what was loaded so far, with its key and time. *)
Record cache_ok (policy : SourceCachePolicy) (now : Z) (loaded : list (str * ImageSourceBytes * Z)) st : Prop := {
  ok_accounted : accounted st;
  ok_limits : over_limits policy st = false;
  ok_loaded : forall k e, sc_entries st !! k = Some e -> (k, se_source e, inserted_at e) ∈ loaded /\ (inserted_at e <= now)%Z;
}.

(** A source of the key was loaded no longer than its life before. *)
Definition loaded_recently (life : Z) (loaded : list (str * ImageSourceBytes * Z)) (key : str) (source : ImageSourceBytes) (at_ : Z) : Prop :=
  exists t, (key, source, t) ∈ loaded /\ (t <= at_ < t + life)%Z.

Lemma over_limits_false policy st :
  over_limits policy st = false <-> (sc_total_bytes st <= sp_max_bytes policy)%Z /\ (size (sc_entries st) <= sp_max_entries policy)%nat.
Proof. unfold over_limits. rewrite orb_false_iff, Z.ltb_ge, Nat.ltb_ge. done. Qed.

Lemma prune_expired_ok policy now loaded life st : cache_ok policy now loaded st -> cache_ok policy now loaded (prune_expired now life st).
Proof.
  intros [Hacc Hlim Hld]. destruct (prune_expired_spec now life st Hacc) as (? & ? & Hsub & _). split; [done| |].
  - rewrite over_limits_false in *. pose proof (map_subseteq_size _ _ Hsub). lia.
  - intros k e He. apply Hld. by eapply lookup_weaken.
Qed.

Lemma source_get_ok policy now loaded key st :
  cache_ok policy now loaded st ->
  cache_ok policy now loaded (source_get key now policy st).1
  /\ forall source, (source_get key now policy st).2 = Some source -> loaded_recently (ttl policy) loaded key source now.
Proof.
  intros Hok. pose proof (prune_expired_ok policy now loaded (ttl policy) st Hok) as [Hacc Hlim Hld].
  pose proof (prune_expired_spec now (ttl policy) st (ok_accounted _ _ _ _ Hok)) as (_ & _ & _ & Hl).
  unfold source_get. set (st' := prune_expired _ _ _) in *. destruct (sc_entries st' !! key) as [e|] eqn:Hk; cbn; [|split; [by split|done]].
  split.
  - split; cbn.
    + split; cbn.
      * intros k e' [[<- <-]|[_ He']]%lookup_insert_Some; cbn; by eapply acc_size.
      * rewrite <- insert_delete_eq, map_sum_insert by apply lookup_delete_eq. cbn. rewrite (acc_total _ Hacc). by apply map_sum_delete.
    + rewrite over_limits_false in *. cbn. rewrite map_size_insert, Hk. done.
    + intros k e' [[<- <-]|[_ He']]%lookup_insert_Some; cbn; by apply Hld.
  - intros source [= <-]. destruct (Hld _ _ Hk) as [Hin Hle]. exists (inserted_at e). split; [done|].
    apply Hl in Hk as [_ Hx]. unfold entry_expired in Hx. lia.
Qed.

Lemma source_insert_ok policy now loaded key source st :
  (0 <= sp_max_bytes policy)%Z -> (2 * sp_max_bytes policy <= u64_max)%Z ->
  cache_ok policy now loaded st -> cache_ok policy now (loaded ++ [(key, source, now)]) (source_insert key source now policy st).
Proof.
  intros Hmax Hwidth [Hacc Hlim Hld]. unfold source_insert.
  destruct (remove_entry_spec key st Hacc) as (Hacc1 & He1 & Ht1).
  assert (Hok1 : cache_ok policy now (loaded ++ [(key, source, now)]) (remove_entry key st)).
  { split; [done| |].
    - rewrite over_limits_false in *. pose proof (map_subseteq_size _ _ (delete_subseteq (sc_entries st) key)). rewrite He1. lia.
    - intros k e He. rewrite He1 in He. apply lookup_delete_Some in He as [_ He]. destruct (Hld _ _ He). set_solver. }
  pose proof (prune_expired_spec now (ttl policy) _ Hacc1) as (_ & _ & Hsub & _).
  pose proof (prune_expired_ok policy now _ (ttl policy) _ Hok1) as Hok2. set (st2 := prune_expired _ _ _) in *. destruct (_ || _) eqn:Hg; [done|]. clear Hok1.
  bool_to_prop. destruct Hok2 as [Hacc2 Hlim2 Hld2]. rewrite over_limits_false in Hlim2.
  assert (Hnone : sc_entries st2 !! key = None).
  { destruct (sc_entries st2 !! key) as [e|] eqn:Hk; [|done]. eapply lookup_weaken in Hk; [|exact Hsub]. rewrite He1, lookup_delete_eq in Hk. done. }
  unfold prune_to_limits. set (st3 := mkSourceCache _ _).
  assert (Hacc3 : accounted st3).
  { split; cbn.
    - intros k e [[<- <-]|[_ He]]%lookup_insert_Some; [done|by eapply acc_size].
    - rewrite map_sum_insert by done. cbn. rewrite (acc_total _ Hacc2). unfold u64_saturating_add.
      rewrite (acc_total _ Hacc2) in Hlim2. unfold source_len in *. lia. }
  destruct (prune_loop_spec (S (size (sc_entries st3))) policy st3 Hmax Hacc3 ltac:(lia)) as (? & ? & Hsub3 & _).
  split; [done..|]. intros k e He. eapply lookup_weaken in He; [|exact Hsub3].
  cbn in He. apply lookup_insert_Some in He as [[<- <-]|[_ He]]; cbn; [set_solver by lia|by apply Hld2].
Qed.
End Cache.

(** ** Leases of the tasks *)

Section TaskLeases.
Implicit Types (l : Leases) (ts : gmap nat (str * SourcePhase)).

(** Entries of the table belong to one task each, which holds an unsignalled channel; a task
    waits for an entry of the table, or was signalled. *)
Record leases_ok l ts : Prop := {
  lo_own : forall i key ph e, ts !! i = Some (key, ph) -> phase_owns ph = Some e -> in_flight l !! key = Some e /\ signalled l !! e = Some false;
  lo_table : forall key e, in_flight l !! key = Some e -> exists i ph, ts !! i = Some (key, ph) /\ phase_owns ph = Some e;
  lo_unique : forall i j ki kj phi phj e,
    ts !! i = Some (ki, phi) -> ts !! j = Some (kj, phj) -> phase_owns phi = Some e -> phase_owns phj = Some e -> i = j;
  lo_wait : forall i key e, ts !! i = Some (key, Waiting e) -> signalled l !! e = Some true \/ in_flight l !! key = Some e;
}.

Lemma leases_start : leases_ok no_leases ∅.
Proof. split; cbn; intros *; rewrite ?lookup_empty; done. Qed.

Lemma leases_leave l ts i key ph :
  ts !! i = Some (key, ph) -> phase_owns ph = None -> leases_ok l ts -> leases_ok l (delete i ts).
Proof.
  intros Hi Hno [Hown Htab Huniq Hwait]. split.
  - intros j k p e [_ Hj]%lookup_delete_Some. by eapply Hown.
  - intros k e (j & p & Hj & Hp)%Htab. exists j, p. split; [|done]. rewrite lookup_delete_ne; [done|]. intros <-. congruence.
  - intros j j' ? ? ? ? e [_ Hj]%lookup_delete_Some [_ Hj']%lookup_delete_Some. by eapply Huniq.
  - intros j k e [_ Hj]%lookup_delete_Some. by eapply Hwait.
Qed.

Lemma leases_drop l ts i key ph e :
  ts !! i = Some (key, ph) -> phase_owns ph = Some e -> leases_ok l ts -> leases_ok (drop_source_owner key e l) (delete i ts).
Proof.
  intros Hi He [Hown Htab Huniq Hwait]. destruct (Hown _ _ _ _ Hi He) as [Hfl _].
  unfold drop_source_owner, drop_owner. rewrite bool_decide_true by done. split; cbn.
  - intros j k p e' [Hne Hj]%lookup_delete_Some Hp. destruct (Hown _ _ _ _ Hj Hp) as [? ?].
    assert (e' <> e) by (intros ->; by apply Hne, (Huniq i j _ _ _ _ e Hi Hj)).
    rewrite !lookup_insert_ne, lookup_delete_ne by congruence. done.
  - intros k e' [Hne Hk]%lookup_delete_Some. destruct (Htab _ _ Hk) as (j & p & Hj & Hp). exists j, p. split; [|done].
    rewrite lookup_delete_ne; [done|]. intros <-. congruence.
  - intros j j' ? ? ? ? e' [_ Hj]%lookup_delete_Some [_ Hj']%lookup_delete_Some. by eapply Huniq.
  - intros j k e' [_ Hj]%lookup_delete_Some. destruct (decide (e' = e)) as [->|]; [left; by rewrite lookup_insert_eq|].
    rewrite lookup_insert_ne by done. destruct (Hwait _ _ _ Hj) as [?|Hk]; [by left|right]. rewrite lookup_delete_ne; [done|]. congruence.
Qed.

Lemma leases_enter l ts i key ph :
  ts !! i = None -> phase_owns ph = None -> (forall e, ph = Waiting e -> signalled l !! e = Some true \/ in_flight l !! key = Some e) ->
  leases_ok l ts -> leases_ok l (<[i := (key, ph)]> ts).
Proof.
  intros Hi Hno Hw [Hown Htab Huniq Hwait]. split.
  - intros j k p e [[<- [= <- <-]]|[_ Hj]]%lookup_insert_Some Hp; [congruence|]. by eapply Hown.
  - intros k e (j & p & Hj & Hp)%Htab. exists j, p. split; [|done]. rewrite lookup_insert_ne; [done|]. congruence.
  - intros j j' ? ? ? ? e [[<- [= <- <-]]|[_ Hj]]%lookup_insert_Some [[<- [= <- <-]]|[_ Hj']]%lookup_insert_Some ??; try congruence. by eapply Huniq.
  - intros j k e [[<- [= <- ->]]|[_ Hj]]%lookup_insert_Some; [by apply Hw|]. by eapply Hwait.
Qed.

(** A task goes on without giving up or taking a lease. *)
Lemma leases_keep l ts i key ph ph' :
  ts !! i = Some (key, ph) -> phase_owns ph' = phase_owns ph -> (forall e, ph' <> Waiting e) ->
  leases_ok l ts -> leases_ok l (<[i := (key, ph')]> ts).
Proof.
  intros Hi Hsame Hnw Hok. destruct (phase_owns ph) as [e|] eqn:He.
  - destruct Hok as [Hown Htab Huniq Hwait]. split.
    + intros j k p e' [[<- [= <- <-]]|[_ Hj]]%lookup_insert_Some Hp; [|by eapply Hown]. eapply Hown; [exact Hi|]. congruence.
    + intros k e' (j & p & Hj & Hp)%Htab. destruct (decide (j = i)) as [->|]; [|exists j, p; by rewrite lookup_insert_ne].
      exists i, ph'. rewrite lookup_insert_eq. split; congruence.
    + intros j j' ? ? ? ? e' [[<- [= <- <-]]|[_ Hj]]%lookup_insert_Some [[<- [= <- <-]]|[_ Hj']]%lookup_insert_Some Hp Hp'; [done|..].
      * eapply (Huniq i j' _ _ _ _ e'); [exact Hi|exact Hj'|congruence..].
      * eapply (Huniq j i _ _ _ _ e'); [exact Hj|exact Hi|congruence..].
      * by eapply Huniq.
    + intros j k e' [[<- [= <- ->]]|[_ Hj]]%lookup_insert_Some; [by destruct (Hnw e')|]. by eapply Hwait.
  - rewrite <- insert_delete_eq. apply leases_enter; [apply lookup_delete_eq|done|intros e ->; by destruct (Hnw e)|]. by eapply leases_leave.
Qed.

Lemma leases_acquire l ts i key ph :
  ts !! i = Some (key, ph) -> phase_owns ph = None -> leases_ok l ts ->
  leases_ok (acquire_source_lease key l).1
    (<[i := (key, match (acquire_source_lease key l).2 with Owner _ e => Owned e | Waiter e => Waiting e end)]> ts).
Proof.
  intros Hi Hno Hok. rewrite <- insert_delete_eq. apply (leases_leave _ _ _ _ _ Hi Hno) in Hok.
  assert (Hfree : delete i ts !! i = None) by apply lookup_delete_eq. generalize dependent (delete i ts). clear Hi. intros ts' Hok Hi.
  unfold acquire_source_lease, acquire_transform_lease. destruct (in_flight l !! key) as [e|] eqn:Hk; cbn.
  - apply leases_enter; [done..| |done]. intros ? [= ->]. by right.
  - set (e := fresh (dom (signalled l))). assert (Hfresh : signalled l !! e = None) by (apply (not_elem_of_dom (D := gset nat)), is_fresh).
    destruct Hok as [Hown Htab Huniq Hwait]. clearbody e. split; cbn.
    + intros j k p e' [[<- [= <- <-]]|[_ Hj]]%lookup_insert_Some Hp; [injection Hp as <-; by rewrite !lookup_insert_eq|].
      destruct (Hown _ _ _ _ Hj Hp). by rewrite !lookup_insert_ne by congruence.
    + intros k e' [[<- <-]|[_ Hk']]%lookup_insert_Some; [exists i, (Owned e); by rewrite lookup_insert_eq|].
      destruct (Htab _ _ Hk') as (j & p & Hj & Hp). exists j, p. rewrite lookup_insert_ne by congruence. done.
    + intros j j' ? ? ? ? e' [[<- [= <- <-]]|[_ Hj]]%lookup_insert_Some [[<- [= <- <-]]|[_ Hj']]%lookup_insert_Some Hp Hp'; [done|..].
      * destruct (Hown _ _ _ _ Hj' Hp') as [_ ?]. injection Hp as <-. congruence.
      * destruct (Hown _ _ _ _ Hj Hp) as [_ ?]. injection Hp' as <-. congruence.
      * by eapply Huniq.
    + intros j k e' [[<- [= <-]]|[_ Hj]]%lookup_insert_Some. destruct (Hwait _ _ _ Hj) as [?|?].
      * left. rewrite lookup_insert_ne by congruence. done.
      * right. rewrite lookup_insert_ne by congruence. done.
Qed.
End TaskLeases.

(** ** Every run of the tasks *)

Section Runs.
Context {iter : HashIter str SourceEntry}.

Definition phase_answer (ph : SourcePhase) : option (result ImageSourceBytes ImageError * Z) :=
  match ph with Dropping _ answer at_ | Answered answer at_ => Some (answer, at_) | _ => None end.

Record sources_inv (s : Sources) : Prop := {
  si_cache : cache_ok POLICY (s_now s) (s_loaded s) (s_cache s);
  si_leases : leases_ok (s_leases s) (s_tasks s);
  si_answers : forall i key ph source at_, s_tasks s !! i = Some (key, ph) -> phase_answer ph = Some (Ok source, at_) ->
    loaded_recently (ttl POLICY) (s_loaded s) key source at_;
}.

Lemma policy_bounds : (0 <= sp_max_bytes POLICY)%Z /\ (2 * sp_max_bytes POLICY <= u64_max)%Z /\ (0 < ttl POLICY)%Z.
Proof. done. Qed.

Lemma loaded_recently_mono life loaded loaded' key source at_ :
  loaded ⊆ loaded' -> loaded_recently life loaded key source at_ -> loaded_recently life loaded' key source at_.
Proof. intros Hsub (t & Hin & Ht). exists t. split; [by apply Hsub|done]. Qed.

(** A task moves to a phase whose answer, if it has one, is right. *)
Lemma answers_insert loaded loaded' (ts : gmap nat (str * SourcePhase)) i key ph :
  loaded ⊆ loaded' ->
  (forall source at_, phase_answer ph = Some (Ok source, at_) -> loaded_recently (ttl POLICY) loaded' key source at_) ->
  (forall j k p source at_, ts !! j = Some (k, p) -> phase_answer p = Some (Ok source, at_) -> loaded_recently (ttl POLICY) loaded k source at_) ->
  forall j k p source at_, <[i := (key, ph)]> ts !! j = Some (k, p) -> phase_answer p = Some (Ok source, at_) ->
    loaded_recently (ttl POLICY) loaded' k source at_.
Proof.
  intros Hsub Hnew Hold j k p source at_ [[<- [= <- <-]]|[_ Hj]]%lookup_insert_Some Hp; [by apply Hnew|].
  eapply loaded_recently_mono; [done|]. by eapply Hold.
Qed.

Lemma read_source_inv s i key ph hit miss :
  s_tasks s !! i = Some (key, ph) ->
  (forall e, miss <> Waiting e) -> phase_answer miss = None -> phase_owns miss = phase_owns ph ->
  (forall source, phase_answer (hit source) = Some (Ok source, s_now s) /\ phase_owns (hit source) = phase_owns ph) ->
  sources_inv s -> sources_inv (read_source s i key hit miss).
Proof.
  intros Hi Hnw Hna Hmo Hhit [Hc Hl Ha]. unfold read_source.
  pose proof (source_get_ok POLICY (s_now s) (s_loaded s) key (s_cache s) Hc) as [Hc' Hfound].
  destruct (source_get key (s_now s) POLICY (s_cache s)) as [cache found]. cbn in Hc', Hfound. split; cbn; [done| |].
  - eapply leases_keep; [done| | |done]; destruct found as [source|]; [apply Hhit|done|intros e Heq|done].
    destruct (Hhit source) as [Hans _]. by rewrite Heq in Hans.
  - eapply answers_insert; [done| |done]. intros source at_. destruct found as [source'|]; [|by rewrite Hna].
    rewrite (proj1 (Hhit source')). intros [= -> <-]. by apply Hfound.
Qed.

Lemma task_step_inv s i key ph s' :
  s_tasks s !! i = Some (key, ph) -> task_step s i key ph = Some s' -> sources_inv s -> sources_inv s'.
Proof.
  intros Hi Hs Hinv. destruct ph as [| |e|e|e a t|e|a t]; cbn [task_step] in Hs; try done.
  - injection Hs as <-. by eapply read_source_inv.
  - destruct Hinv as [Hc Hl Ha]. pose proof (leases_acquire _ _ _ _ _ Hi eq_refl Hl) as Hl'.
    destruct (acquire_source_lease key (s_leases s)) as [l' lease]. injection Hs as <-. split; cbn; [done|by destruct lease|].
    eapply answers_insert; [done| |done]. by destruct lease.
  - injection Hs as <-. by eapply read_source_inv.
  - injection Hs as <-. destruct Hinv as [Hc Hl Ha]. split; cbn; [done| |].
    + rewrite <- insert_delete_eq. apply leases_enter; [apply lookup_delete_eq|done..|]. by eapply leases_drop.
    + eapply answers_insert; [done| |done]. intros source at_ Hans. by apply (Ha i key _ source at_ Hi).
  - destruct (waiter_ready _ _); [|done]. injection Hs as <-. destruct Hinv as [Hc Hl Ha]. split; cbn; [done| |].
    + by eapply leases_keep.
    + by eapply answers_insert.
Qed.

Lemma load_ends_inv s i key e answer :
  s_tasks s !! i = Some (key, Loading e) -> sources_inv s -> sources_inv (load_ends s i key e answer).
Proof.
  intros Hi [Hc Hl Ha]. destruct answer as [source|err]; split; cbn; try done.
  - apply source_insert_ok; [apply policy_bounds..|done].
  - by eapply leases_keep.
  - eapply answers_insert; [| |done]; [set_solver|]. intros ? ? [= <- <-]. exists (s_now s). pose proof policy_bounds. split; [set_solver|lia].
  - by eapply leases_keep.
  - by eapply answers_insert.
Qed.

Lemma sources_step_inv s s' : sources_step s s' -> sources_inv s -> sources_inv s'.
Proof.
  intros [? t Ht|? i key Hi|? i key ph ? Hi Hs|? i key e answer Hi|? i key ph Hi] Hinv; [..|destruct Hinv as [Hc Hl Ha]].
  - destruct Hinv as [[Hacc Hlim Hld] Hl Ha]. split; cbn; [|done..]. split; [done..|]. intros k e He. destruct (Hld _ _ He). split; [done|lia].
  - destruct Hinv as [Hc Hl Ha]. split; cbn; [done|by apply leases_enter|by eapply answers_insert].
  - by eapply task_step_inv.
  - by apply load_ends_inv.
  - split; cbn; [done| |].
    + destruct (phase_owns ph) as [e|] eqn:He; [by eapply leases_drop|by eapply leases_leave].
    + intros j k p source at_ [_ Hj]%lookup_delete_Some. by apply (Ha j).
Qed.

Lemma sources_reachable now s : rtc sources_step (sources_start now) s -> sources_inv s.
Proof.
  intros Hr. assert (H0 : sources_inv (sources_start now)).
  { split; cbn; [|apply leases_start|intros *; by rewrite lookup_empty]. split; [split|done|]; cbn; [|done|]; intros *; by rewrite lookup_empty. }
  revert H0. induction Hr as [|x y z Hxy _ IH]; [done|]. intros Hx. apply IH. by eapply sources_step_inv.
Qed.

(** C37: whatever the requests for sources of images do, in whatever order their operations on the
    two locks come, whoever goes away, and whatever the loads answer: the cache holds at most 256
    sources of at most 64 MiB together, and its count of bytes is exact; a request is answered
    with a source that was loaded for its key less than ten seconds before; at most one request
    per key is loading it; and a request that waits is either ready to go on or waits for a
    request of the same key that is still there and will signal it. *)
Theorem sources_are_shared_and_fresh now s :
  rtc sources_step (sources_start now) s ->
  sc_total_bytes (s_cache s) = map_sum se_size (sc_entries (s_cache s))
  /\ (forall k e, sc_entries (s_cache s) !! k = Some e -> se_size e = source_len (se_source e))
  /\ (sc_total_bytes (s_cache s) <= SOURCE_CACHE_MAX_BYTES)%Z
  /\ (size (sc_entries (s_cache s)) <= SOURCE_CACHE_MAX_ENTRIES)%nat
  /\ (forall i key source at_, s_tasks s !! i = Some (key, Answered (Ok source) at_) ->
       exists t, (key, source, t) ∈ s_loaded s /\ (t <= at_ < t + SOURCE_CACHE_TTL)%Z)
  /\ (forall i j key e e', s_tasks s !! i = Some (key, Loading e) -> s_tasks s !! j = Some (key, Loading e') -> i = j)
  /\ (forall i key e, s_tasks s !! i = Some (key, Waiting e) ->
       is_Some (task_step s i key (Waiting e))
       \/ exists j ph, s_tasks s !! j = Some (key, ph) /\ phase_owns ph = Some e
            /\ waiter_ready e (s_leases (abandon s j key ph)) = true
            /\ forall answer at_, ph = Dropping e answer at_ ->
                 exists s', task_step s j key ph = Some s' /\ waiter_ready e (s_leases s') = true).
Proof.
  intros [Hc Hl Ha]%sources_reachable. destruct Hc as [[Hsz Htot] Hlim%over_limits_false _]. destruct Hlim as [Hb Hn]. split_and!; [done..| | |].
  - intros i key source at_ Hi. by eapply Ha.
  - intros i j key e e' Hi Hj. destruct (lo_own _ _ Hl _ _ _ _ Hi eq_refl) as [He _]. destruct (lo_own _ _ Hl _ _ _ _ Hj eq_refl) as [He' _].
    assert (e = e') as -> by congruence. by eapply (lo_unique _ _ Hl i j).
  - intros i key e Hi. destruct (lo_wait _ _ Hl _ _ _ Hi) as [Hs|Hk].
    + left. cbn. unfold waiter_ready. rewrite Hs. by eexists.
    + right. destruct (lo_table _ _ Hl _ _ Hk) as (j & ph & Hj & Hp). exists j, ph. split_and!; [done..| |].
      * cbn. rewrite Hp. unfold waiter_ready, drop_source_owner, drop_owner. cbn. by rewrite lookup_insert_eq.
      * intros answer at_ ->. eexists. split; [done|]. unfold waiter_ready, drop_source_owner, drop_owner. cbn. by rewrite lookup_insert_eq.
Qed.
End Runs.

(** Two requests for one source: the second waits for the first, is woken and finds the source. *)
Lemma sources_are_shared_and_fresh_witness :
  exists s, rtc sources_step (sources_start 0) s
    /\ s_tasks s = {[ 0%nat := (bs "a", Answered (Ok (mkSourceBytes (bs "x") None)) 3); 1%nat := (bs "a", Answered (Ok (mkSourceBytes (bs "x") None)) 3) ]}
    /\ sc_total_bytes (s_cache s) = 1%Z
    /\ (size (sc_entries (s_cache s)) <= SOURCE_CACHE_MAX_ENTRIES)%nat.
Proof.
  assert (Hr : exists s, rtc sources_step (sources_start 0) s
    /\ s_tasks s = {[ 0%nat := (bs "a", Answered (Ok (mkSourceBytes (bs "x") None)) 3%Z); 1%nat := (bs "a", Answered (Ok (mkSourceBytes (bs "x") None)) 3%Z) ]}
    /\ sc_total_bytes (s_cache s) = 1%Z).
  { eexists. split.
    - eapply rtc_l; [apply (step_begin _ 0 (bs "a")); reflexivity|].
      eapply rtc_l; [apply (step_begin _ 1 (bs "a")); reflexivity|].
      eapply rtc_l; [eapply (step_task _ 0); reflexivity|]. eapply rtc_l; [eapply (step_task _ 1); reflexivity|].
      eapply rtc_l; [eapply (step_task _ 0); reflexivity|]. eapply rtc_l; [eapply (step_task _ 1); reflexivity|].
      eapply rtc_l; [eapply (step_task _ 0); reflexivity|].
      eapply rtc_l; [eapply (step_time _ 3); done|].
      eapply rtc_l; [eapply (step_load _ 0 _ _ (Ok (mkSourceBytes (bs "x") None))); reflexivity|].
      eapply rtc_l; [eapply (step_task _ 0); reflexivity|].
      eapply rtc_l; [eapply (step_task _ 1); reflexivity|].
      eapply rtc_l; [eapply (step_task _ 1); reflexivity|]. apply rtc_refl.
    - split; reflexivity. }
  destruct Hr as (s & Hr & Ht & Hb). exists s. split_and!; [done..|].
  apply (sources_are_shared_and_fresh 0 s Hr).
Defined.
