(* ===== verification/ImageWorker.v ===== *)
(** * Workers that transform images (tako-server/src/image_worker.rs and image_worker/)

    Images are decoded and encoded in separate processes, which serve one request after
    another over a pair of pipes.  Modelled: the frames and the messages on the pipes, the
    loop of a worker, the pool of workers, the slots and the queue for them, as steps of
    tasks that interleave between operations on shared state.  What a transformation does to
    pixels ([transform_image], which calls libvips) is a parameter. *)

From S2P Require Import Prelude RustStr Net Codec ImageSource Images ImageCache.

(** ** Limits and images (tako-images/src/transform.rs) *)

Record TransformLimits := mkLimits {
  max_source_bytes : Z;
  max_image_width : Z;
  max_image_height : Z;
  max_decoded_pixels : Z;
}.

Definition TransformLimits_default : TransformLimits := mkLimits (8 * 1024 * 1024) 8000 8000 32000000.

Record TransformedImage := mkImage {
  ti_bytes : str;
  ti_content_type : str;
  ti_format : OutputFormat;
  ti_width : Z;
  ti_height : Z;
}.

(** ** Errors (errors.rs) *)

Definition image_error_code (error : ImageError) : str :=
  match error with
  | InvalidUrl => bs "invalid_url"
  | InvalidSource => bs "invalid_source"
  | InvalidWidth => bs "invalid_width"
  | InvalidHeight => bs "invalid_height"
  | InvalidResize => bs "invalid_resize"
  | InvalidQuality => bs "invalid_quality"
  | InvalidBrowserCacheMaxAge => bs "invalid_browser_cache_max_age"
  | InvalidSignature => bs "invalid_signature"
  | Expired => bs "expired"
  | SourceTooLarge => bs "source_too_large"
  | UnsupportedFormat => bs "unsupported_format"
  | ImageTooLarge => bs "image_too_large"
  | TransformFailed => bs "transform_failed"
  | TransformQueueFull => bs "transform_queue_full"
  end.

Definition image_error_from_code (code : str) : ImageError :=
  if str_eqb code (bs "invalid_url") then InvalidUrl
  else if str_eqb code (bs "invalid_source") then InvalidSource
  else if str_eqb code (bs "invalid_width") then InvalidWidth
  else if str_eqb code (bs "invalid_height") then InvalidHeight
  else if str_eqb code (bs "invalid_resize") then InvalidResize
  else if str_eqb code (bs "invalid_quality") then InvalidQuality
  else if str_eqb code (bs "invalid_browser_cache_max_age") then InvalidBrowserCacheMaxAge
  else if str_eqb code (bs "invalid_signature") then InvalidSignature
  else if str_eqb code (bs "expired") then Expired
  else if str_eqb code (bs "source_too_large") then SourceTooLarge
  else if str_eqb code (bs "unsupported_format") then UnsupportedFormat
  else if str_eqb code (bs "image_too_large") then ImageTooLarge
  else if str_eqb code (bs "transform_queue_full") then TransformQueueFull
  else TransformFailed.

(** ** Frames (framing.rs) *)

Definition IMAGE_WORKER_FRAME_MAX_BYTES : Z := 64 * 1024 * 1024.

Definition worker_frame_len (len : Z) : option Z :=
  if (IMAGE_WORKER_FRAME_MAX_BYTES <? len)%Z then None
  else if (len <=? u32_max)%Z then Some len else None.

(** What [write_worker_frame_async] and [write_worker_frame_sync] write. *)
Definition write_worker_frame (bytes : str) : option str :=
  let! len := worker_frame_len (Z.of_nat (length bytes)) in
  Some (to_be 4 len ++ bytes).

(** What a reader makes of the bytes up to the end of its pipe.  While the pipe is open, a
    reader waits for more where this says that there is no frame, or that it ended early. *)
Inductive FrameRead := NoFrame | EndedEarly | FrameTooLarge | Frame (body rest : str).

Definition read_worker_frame (input : str) : FrameRead :=
  if bool_decide (input = []) then NoFrame
  else if (length input <? 4)%nat then EndedEarly
  else
    let len := from_be (take 4 input) in
    if (IMAGE_WORKER_FRAME_MAX_BYTES <? len)%Z then FrameTooLarge
    else if (Z.of_nat (length (drop 4 input)) <? len)%Z then EndedEarly
    else Frame (take (Z.to_nat len) (drop 4 input)) (drop (Z.to_nat len) (drop 4 input)).

(** ** Messages (protocol.rs) *)

Record WorkerLimits := mkWorkerLimits {
  wl_max_source_bytes : Z;
  wl_max_image_width : Z;
  wl_max_image_height : Z;
  wl_max_decoded_pixels : Z;
}.

Definition worker_limits_from (l : TransformLimits) : WorkerLimits :=
  mkWorkerLimits (max_source_bytes l) (max_image_width l) (max_image_height l) (max_decoded_pixels l).
Definition limits_from_worker (l : WorkerLimits) : TransformLimits :=
  mkLimits (wl_max_source_bytes l) (wl_max_image_width l) (wl_max_image_height l) (wl_max_decoded_pixels l).

Record WorkerRequest := mkWorkerRequest {
  wr_source_base64 : str;
  wr_source_content_type : option str;
  wr_format : OutputFormat;
  wr_width : Z;
  wr_height : option Z;
  wr_fit : option str;
  wr_crop : option str;
  wr_quality : Z;
  wr_limits : WorkerLimits;
}.

Inductive WorkerResponse :=
| ResponseOk (bytes_base64 : str) (format : OutputFormat) (width height : Z)
| ResponseError (error : str).

(** serde_json on the two messages. *)
Class WorkerJson := {
  request_to_vec : WorkerRequest -> str;
  request_from_slice : str -> option WorkerRequest;
  response_to_vec : WorkerResponse -> str;
  response_from_slice : str -> option WorkerResponse;
}.

Class WorkerJsonLaws (J : WorkerJson) := {
  request_round_trip r : request_from_slice (request_to_vec r) = Some r;
  response_round_trip r : response_from_slice (response_to_vec r) = Some r;
}.

(** The standard alphabet of base64, with padding. *)
Class StandardBase64 := { std_encode : str -> str; std_decode : str -> option str }.
Class StandardBase64Laws (B : StandardBase64) := { std_round_trip s : std_decode (std_encode s) = Some s }.

Definition parse_fit (value : str) : result ImageFit ImageError :=
  if str_eqb value (bs "cover") then Ok Cover
  else if str_eqb value (bs "contain") then Ok Contain else Err InvalidResize.

Definition parse_crop (value : str) : result ImageCrop ImageError :=
  if str_eqb value (bs "center") then Ok Center
  else if str_eqb value (bs "smart") then Ok Smart else Err InvalidResize.

Definition worker_output_format_matches_request (format requested : OutputFormat) : bool :=
  bool_decide (format = requested) || (bool_decide (requested = Avif) && bool_decide (format = Webp)).

Definition transform_options (r : WorkerRequest) : result TransformOptions ImageError :=
  let? fit := transpose (parse_fit <$> wr_fit r) in
  let? crop := transpose (parse_crop <$> wr_crop r) in
  Ok (mkTransform (wr_format r) (wr_width r) (wr_height r) fit crop (wr_quality r)).

(** What is to be transformed, how, and within which limits. *)
Record Job := mkJob {
  j_source : str;
  j_content_type : option str;
  j_options : TransformOptions;
  j_limits : TransformLimits;
}.

Section Messages.
Context {J : WorkerJson} {B : StandardBase64}.
Variable transform_image : Job -> result TransformedImage ImageError.

Definition WorkerRequest_new (j : Job) : WorkerRequest :=
  let o := j_options j in
  mkWorkerRequest (std_encode (j_source j)) (j_content_type j) (to_format o) (to_width o) (to_height o)
    (fit_code <$> to_fit o) (crop_code <$> to_crop o) (to_quality o) (worker_limits_from (j_limits j)).

Definition handle_request_bytes (input : str) : WorkerResponse :=
  match request_from_slice input with
  | None => ResponseError (image_error_code InvalidUrl)
  | Some request =>
      match std_decode (wr_source_base64 request) with
      | None => ResponseError (image_error_code InvalidSource)
      | Some source =>
          match transform_options request with
          | Err error => ResponseError (image_error_code error)
          | Ok options =>
              match transform_image (mkJob source (wr_source_content_type request) options (limits_from_worker (wr_limits request))) with
              | Ok t => ResponseOk (std_encode (ti_bytes t)) (ti_format t) (ti_width t) (ti_height t)
              | Err error => ResponseError (image_error_code error)
              end
          end
      end
  end.

Definition decode_worker_response (output : str) (expected_format : OutputFormat) : result TransformedImage ImageError :=
  match response_from_slice output with
  | None => Err TransformFailed
  | Some (ResponseOk bytes_base64 format width height) =>
      if negb (worker_output_format_matches_request format expected_format) then Err TransformFailed
      else
        match std_decode bytes_base64 with
        | None => Err TransformFailed
        | Some bytes => Ok (mkImage bytes (content_type_for_format format) format width height)
        end
  | Some (ResponseError error) => Err (image_error_from_code error)
  end.

(** ** The loop of a worker (stdio.rs) *)

Definition respond (input : str) : str := response_to_vec (handle_request_bytes input).

(** What a worker writes to its standard output for the input it gets.  Every frame takes
    bytes of the input: its length is enough fuel. *)
Fixpoint run_stdio_loop (fuel : nat) (input : str) : str :=
  match fuel with
  | O => []
  | S fuel' =>
      match read_worker_frame input with
      | Frame body rest =>
          match write_worker_frame (respond body) with
          | Some output => output ++ run_stdio_loop fuel' rest
          | None => []
          end
      | _ => []
      end
  end.

Definition run_stdio (input : str) : str := run_stdio_loop (length input) input.
End Messages.

(** ** The pool (pool.rs, process.rs) *)

Definition IMAGE_WORKER_IDLE_TIMEOUT : Z := 5 * 60 * 1000000000.
Definition IMAGE_WORKER_MIN_CONCURRENCY : nat := 1.
Definition IMAGE_WORKER_MAX_CONCURRENCY : nat := 2.
Definition IMAGE_WORKER_QUEUE_CAPACITY : nat := 32.

Definition worker_concurrency (available_parallelism : option nat) : nat :=
  let parallelism := default IMAGE_WORKER_MIN_CONCURRENCY available_parallelism in
  if (parallelism <=? 2)%nat then IMAGE_WORKER_MIN_CONCURRENCY
  else Nat.max IMAGE_WORKER_MIN_CONCURRENCY (Nat.min IMAGE_WORKER_MAX_CONCURRENCY (parallelism / 4)).

(** A process: all that was written to its input, all that was read from its output. *)
Record ImageWorkerProcess := mkWorker { wp_written : str; wp_taken : str; idle_since : Z }.

Definition spawned (now : Z) : ImageWorkerProcess := mkWorker [] [] now.

(** [checkout_worker] pops workers until one is running; [alive] is what the processes say,
    by their place in the pool. *)
Fixpoint checkout_loop (alive : nat -> bool) (popped : list ImageWorkerProcess) : option ImageWorkerProcess * list ImageWorkerProcess :=
  match popped with
  | [] => (None, [])
  | worker :: popped' => if alive (length popped') then (Some worker, popped') else checkout_loop alive popped'
  end.

Definition checkout_worker (alive : nat -> bool) (workers : list ImageWorkerProcess) : option ImageWorkerProcess * list ImageWorkerProcess :=
  let '(worker, popped) := checkout_loop alive (rev workers) in (worker, rev popped).

(** With the worker that is stopped, if there is one too many. *)
Definition checkin_worker (concurrency : nat) (now : Z) (worker : ImageWorkerProcess) (workers : list ImageWorkerProcess)
  : list ImageWorkerProcess * option ImageWorkerProcess :=
  let worker := mkWorker (wp_written worker) (wp_taken worker) now in
  if (length workers <? concurrency)%nat then (workers ++ [worker], None) else (workers, Some worker).

Definition worker_expired (now : Z) (worker : ImageWorkerProcess) : bool :=
  (IMAGE_WORKER_IDLE_TIMEOUT <=? Z.max 0 (now - idle_since worker))%Z.

(** [Vec::swap_remove]: the last element takes the place of the removed one. *)
Definition swap_remove {A} (i : nat) (l : list A) : list A :=
  match last l with Some x => take (pred (length l)) (<[i := x]> l) | None => l end.

(** Each round passes or removes a worker: as many rounds as there are workers are enough. *)
Fixpoint reap_loop (fuel : nat) (now : Z) (index : nat) (workers expired : list ImageWorkerProcess)
  : list ImageWorkerProcess * list ImageWorkerProcess :=
  match fuel with
  | O => (workers, expired)
  | S fuel' =>
      match workers !! index with
      | None => (workers, expired)
      | Some worker =>
          if worker_expired now worker then reap_loop fuel' now index (swap_remove index workers) (expired ++ [worker])
          else reap_loop fuel' now (S index) workers expired
      end
  end.

(** The workers that stay, and those that are stopped. *)
Definition prune_idle_workers (now : Z) (workers : list ImageWorkerProcess) : list ImageWorkerProcess * list ImageWorkerProcess :=
  reap_loop (length workers) now 0 workers [].

(** ** Requests for workers *)

(** Where a task of [transform_in_worker] is.  From [Permitted] to [Leaving] it holds a permit;
    from [Spawning] to [Returning] it has a worker, or is about to. *)
Inductive Stage :=
| Starting
| Reserving (current : nat)
| Queued
| Permitted
| Spawning
| Writing (worker : ImageWorkerProcess) (rest : str)
| Reading (worker : ImageWorkerProcess) (got : str)
| Returning (worker : ImageWorkerProcess) (output : str)
| Leaving (answer : result str ImageError)
| Finished (answer : result str ImageError).

Record Pool := mkPool {
  p_now : Z;
  p_permits : nat;
  p_queue_depth : nat;
  p_workers : list ImageWorkerProcess;
  p_tasks : gmap nat (Job * Stage);
}.

(** What happens next: the clock, a new task, the next operation of a task, which may end in
    one way or another, the reaper, or the end of a task whose request went away. *)
Inductive Action :=
| Tick (t : Z)
| Begin (i : nat) (j : Job)
| Try (i : nat)
| Reserve (i : nat) (spurious : bool)
| Acquire (i : nat)
| Checkout (i : nat) (alive : nat -> bool)
| Spawn (i : nat) (ok : bool)
| WriteBytes (i : nat) (n : nat)
| ReadBytes (i : nat) (n : nat)
| Break (i : nat)
| Checkin (i : nat)
| Leave (i : nat)
| Reap
| Cancel (i : nat).

Section Tasks.
Context {J : WorkerJson} {B : StandardBase64}.
Variable transform_image : Job -> result TransformedImage ImageError.
Variable concurrency : nat.

Definition request_bytes (j : Job) : str := request_to_vec (WorkerRequest_new j).

(** A request that does not fit into a frame is not written: the worker is stopped. *)
Definition start_request (worker : ImageWorkerProcess) (j : Job) : Stage :=
  match write_worker_frame (request_bytes j) with
  | Some bytes => Writing worker bytes
  | None => Leaving (Err TransformFailed)
  end.

(** [read_exact] asks for the length first, then for the body. *)
Definition bytes_wanted (got : str) : nat :=
  if (length got <? 4)%nat then 4 - length got else 4 + Z.to_nat (from_be (take 4 got)) - length got.

Definition answer_received (worker : ImageWorkerProcess) (got : str) : Stage :=
  match read_worker_frame got with
  | Frame body _ => Returning worker body
  | FrameTooLarge => Leaving (Err TransformFailed)
  | _ => Reading worker got
  end.

Definition set_stage (s : Pool) (i : nat) (j : Job) (st : Stage) : Pool :=
  mkPool (p_now s) (p_permits s) (p_queue_depth s) (p_workers s) (<[i := (j, st)]> (p_tasks s)).
Definition set_permits (s : Pool) (n : nat) : Pool := mkPool (p_now s) n (p_queue_depth s) (p_workers s) (p_tasks s).
Definition set_queue (s : Pool) (n : nat) : Pool := mkPool (p_now s) (p_permits s) n (p_workers s) (p_tasks s).
Definition set_workers (s : Pool) (l : list ImageWorkerProcess) : Pool := mkPool (p_now s) (p_permits s) (p_queue_depth s) l (p_tasks s).

Definition holds_permit (st : Stage) : bool :=
  match st with Permitted | Spawning | Writing _ _ | Reading _ _ | Returning _ _ | Leaving _ => true | _ => false end.
Definition has_worker (st : Stage) : bool :=
  match st with Spawning | Writing _ _ | Reading _ _ | Returning _ _ => true | _ => false end.
Definition is_queued (st : Stage) : bool := match st with Queued => true | _ => false end.

(** The future is dropped: the place in the queue and the permit are given back, and the
    worker is killed. *)
Definition drop_task (s : Pool) (i : nat) (st : Stage) : Pool :=
  mkPool (p_now s) (if holds_permit st then S (p_permits s) else p_permits s)
    (if is_queued st then pred (p_queue_depth s) else p_queue_depth s) (p_workers s) (delete i (p_tasks s)).

Definition pool_act (a : Action) (s : Pool) : option Pool :=
  let at_ i k := match p_tasks s !! i with Some (j, st) => k j st | None => None end in
  match a with
  | Tick t => if (p_now s <=? t)%Z then Some (mkPool t (p_permits s) (p_queue_depth s) (p_workers s) (p_tasks s)) else None
  | Begin i j => match p_tasks s !! i with None => Some (set_stage s i j Starting) | Some _ => None end
  | Try i => at_ i (fun j st =>
      match st, p_permits s with
      | Starting, S n => Some (set_stage (set_permits s n) i j Permitted)
      | Starting, O => Some (set_stage s i j (Reserving (p_queue_depth s)))
      | _, _ => None
      end)
  | Reserve i spurious => at_ i (fun j st =>
      match st with
      | Reserving current =>
          if (IMAGE_WORKER_QUEUE_CAPACITY <=? current)%nat then Some (set_stage s i j (Finished (Err TransformQueueFull)))
          else if (p_queue_depth s =? current)%nat && negb spurious then Some (set_stage (set_queue s (current + 1)) i j Queued)
          else Some (set_stage s i j (Reserving (p_queue_depth s)))
      | _ => None
      end)
  | Acquire i => at_ i (fun j st =>
      match st, p_permits s with
      | Queued, S n => Some (set_stage (set_queue (set_permits s n) (pred (p_queue_depth s))) i j Permitted)
      | _, _ => None
      end)
  | Checkout i alive => at_ i (fun j st =>
      match st with
      | Permitted =>
          let '(worker, workers) := checkout_worker alive (p_workers s) in
          Some (set_stage (set_workers s workers) i j (match worker with Some w => start_request w j | None => Spawning end))
      | _ => None
      end)
  | Spawn i ok => at_ i (fun j st =>
      match st with
      | Spawning => Some (set_stage s i j (if ok then start_request (spawned (p_now s)) j else Leaving (Err TransformFailed)))
      | _ => None
      end)
  | WriteBytes i n => at_ i (fun j st =>
      match st with
      | Writing w rest =>
          let w' := mkWorker (wp_written w ++ take n rest) (wp_taken w) (idle_since w) in
          Some (set_stage s i j (match drop n rest with [] => Reading w' [] | rest' => Writing w' rest' end))
      | _ => None
      end)
  | ReadBytes i n => at_ i (fun j st =>
      match st with
      | Reading w got =>
          let chunk := take (Nat.min n (bytes_wanted got)) (drop (length (wp_taken w)) (run_stdio transform_image (wp_written w))) in
          Some (set_stage s i j (answer_received (mkWorker (wp_written w) (wp_taken w ++ chunk) (idle_since w)) (got ++ chunk)))
      | _ => None
      end)
  | Break i => at_ i (fun j st =>
      match st with
      | Writing _ _ | Reading _ _ => Some (set_stage s i j (Leaving (Err TransformFailed)))
      | _ => None
      end)
  | Checkin i => at_ i (fun j st =>
      match st with
      | Returning w output => Some (set_stage (set_workers s (checkin_worker concurrency (p_now s) w (p_workers s)).1) i j (Leaving (Ok output)))
      | _ => None
      end)
  | Leave i => at_ i (fun j st =>
      match st with
      | Leaving answer => Some (set_stage (set_permits s (S (p_permits s))) i j (Finished answer))
      | _ => None
      end)
  | Reap => Some (set_workers s (prune_idle_workers (p_now s) (p_workers s)).1)
  | Cancel i => at_ i (fun j st => Some (drop_task s i st))
  end.

Definition pool_start (now : Z) : Pool := mkPool now concurrency 0 [] ∅.

Definition pool_step (s s' : Pool) : Prop := exists a, pool_act a s = Some s'.

Fixpoint pool_run (actions : list Action) (s : Pool) : option Pool :=
  match actions with
  | [] => Some s
  | a :: actions' => let! s' := pool_act a s in pool_run actions' s'
  end.

(** What [transform_in_worker] returns once its task is finished. *)
Definition transform_in_worker_result (j : Job) (answer : result str ImageError) : result TransformedImage ImageError :=
  match answer with
  | Ok output => decode_worker_response output (to_format (j_options j))
  | Err error => Err error
  end.
End Tasks.
