(* ===== verification/ImageWorkerProps.v ===== *)
(** * Correctness of the image workers

    Frames are read back as they were written, the loop of a worker answers the requests in
    order, and the tasks of the pool keep the two ends of every pipe in step.  From these: an
    answer that a task gets is the answer to its own request, and the result is that of the
    transformation. *)

From S2P Require Import Prelude RustStr Net Codec ImageSource Images ImageCache ImageWorker.

(** ** Frames *)

Lemma write_worker_frame_Some x f :
  write_worker_frame x = Some f -> f = to_be 4 (Z.of_nat (length x)) ++ x /\ (Z.of_nat (length x) <= IMAGE_WORKER_FRAME_MAX_BYTES)%Z.
Proof.
  unfold write_worker_frame, worker_frame_len. destruct (_ <? _)%Z eqn:Hl; [done|]. destruct (_ <=? _)%Z; [|done]. cbn.
  intros [= <-]. split; [done|]. lia.
Qed.

Lemma frame_len_range (x : str) : (Z.of_nat (length x) <= IMAGE_WORKER_FRAME_MAX_BYTES)%Z -> (0 <= Z.of_nat (length x) < 256 ^ Z.of_nat 4)%Z.
Proof. unfold IMAGE_WORKER_FRAME_MAX_BYTES. change (256 ^ Z.of_nat 4)%Z with 4294967296%Z. lia. Qed.

Lemma read_written_frame x f rest : write_worker_frame x = Some f -> read_worker_frame (f ++ rest) = Frame x rest.
Proof.
  intros [-> Hmax]%write_worker_frame_Some. pose proof (length_to_be 4 (Z.of_nat (length x))) as H4. unfold read_worker_frame.
  rewrite bool_decide_false by (intros He; apply (f_equal length) in He; rewrite !length_app, H4 in He; cbn in He; lia).
  rewrite <- app_assoc, take_app_length', drop_app_length' by done. rewrite !length_app, H4.
  rewrite from_to_be by by apply frame_len_range.
  destruct (_ <? 4)%nat eqn:?; [lia|]. destruct (_ <? Z.of_nat _)%Z eqn:?; [lia|]. destruct (Z.of_nat (_ + _) <? _)%Z eqn:?; [lia|].
  rewrite Nat2Z.id, take_app_length, drop_app_length. done.
Qed.

(** A part of a frame is no frame, and not too large. *)
Lemma read_part_of_frame x a b :
  write_worker_frame x = Some (a ++ b) -> b <> [] -> read_worker_frame a = NoFrame \/ read_worker_frame a = EndedEarly.
Proof.
  intros [Hf Hmax]%write_worker_frame_Some Hb. pose proof (length_to_be 4 (Z.of_nat (length x))) as H4. unfold read_worker_frame.
  case_bool_decide; [by left|right]. destruct (length a <? 4)%nat eqn:Ha; [done|]. apply Nat.ltb_ge in Ha.
  assert (take 4 a = to_be 4 (Z.of_nat (length x))) as ->.
  { apply (f_equal (take 4)) in Hf. rewrite take_app_le in Hf by lia. rewrite take_app_length' in Hf by (by rewrite H4). done. }
  rewrite from_to_be by by apply frame_len_range. destruct (IMAGE_WORKER_FRAME_MAX_BYTES <? _)%Z eqn:?; [lia|].
  assert (length b <> 0) by (by destruct b). apply (f_equal length) in Hf. rewrite !length_app, H4 in Hf.
  rewrite (length_drop a 4). destruct (Z.of_nat (_ - _) <? _)%Z eqn:Hlt; [done|lia].
Qed.

Lemma read_worker_frame_shorter input body rest : read_worker_frame input = Frame body rest -> length rest < length input.
Proof.
  unfold read_worker_frame. case_bool_decide; [done|]. destruct (_ <? 4)%nat eqn:?; [done|]. destruct (_ <? _)%Z; [done|].
  destruct (_ <? _)%Z; [done|]. intros [= _ <-]. rewrite !length_drop. lia.
Qed.

(** ** The loop of a worker *)

Section Loop.
Context {J : WorkerJson} {B : StandardBase64}.
Variable transform_image : Job -> result TransformedImage ImageError.
Notation respond := (respond transform_image).
Notation run_stdio := (run_stdio transform_image).

Lemma run_stdio_loop_enough n m input :
  length input <= n -> length input <= m -> run_stdio_loop transform_image n input = run_stdio_loop transform_image m input.
Proof.
  revert m input. induction n as [|n IH]; intros m input Hn Hm.
  - assert (input = []) as -> by (destruct input; cbn in Hn; [done|lia]). by destruct m.
  - destruct m as [|m]; [assert (input = []) as -> by (destruct input; cbn in Hm; [done|lia]); done|]. cbn.
    destruct (read_worker_frame input) as [| | |body rest] eqn:Hr; [done..|]. apply read_worker_frame_shorter in Hr.
    destruct (write_worker_frame _); [|done]. by rewrite (IH m) by lia.
Qed.

Lemma run_stdio_unfold input :
  run_stdio input =
  match read_worker_frame input with
  | Frame body rest => match write_worker_frame (respond body) with Some output => output ++ run_stdio rest | None => [] end
  | _ => []
  end.
Proof.
  unfold ImageWorker.run_stdio. rewrite (run_stdio_loop_enough _ (S (length input))) by lia. cbn.
  destruct (read_worker_frame input) as [| | |body rest] eqn:Hr; [done..|]. apply read_worker_frame_shorter in Hr.
  destruct (write_worker_frame _); [|done]. by rewrite (run_stdio_loop_enough _ (length rest)) by lia.
Qed.

(** Requests that were written, and the answers that were read. *)
Inductive exchanged : str -> str -> Prop :=
| exchanged_nothing : exchanged [] []
| exchanged_more a b x f g :
    exchanged a b -> write_worker_frame x = Some f -> write_worker_frame (respond x) = Some g -> exchanged (a ++ f) (b ++ g).

Lemma run_stdio_exchanged a b rest : exchanged a b -> run_stdio (a ++ rest) = b ++ run_stdio rest.
Proof.
  intros He. revert rest. induction He as [|a b x f g He IH Hf Hg]; intros rest; [done|].
  rewrite <- !app_assoc, IH. f_equal. rewrite run_stdio_unfold, (read_written_frame x f rest Hf), Hg. done.
Qed.

Lemma run_stdio_one x f : write_worker_frame x = Some f -> run_stdio f = default [] (write_worker_frame (respond x)).
Proof.
  intros Hf. rewrite run_stdio_unfold. pose proof (read_written_frame x f [] Hf) as Hr. rewrite app_nil_r in Hr. rewrite Hr.
  destruct (write_worker_frame (respond x)); [|done]. cbn. by rewrite app_nil_r.
Qed.
End Loop.

(** ** The pool as a list *)

Lemma swap_remove_perm {A} (l : list A) i x : l !! i = Some x -> x :: swap_remove i l ≡ₚ l.
Proof.
  intros Hi. unfold swap_remove. destruct (last l) as [y|] eqn:Hl; [|apply last_None in Hl as ->; done].
  apply last_Some in Hl as [l' ->]. rewrite length_app. cbn. rewrite Nat.add_1_r. cbn.
  destruct (decide (i = length l')) as [->|Hne].
  - rewrite insert_app_r_alt, Nat.sub_diag, take_app_length by lia. rewrite lookup_app_r, Nat.sub_diag in Hi by lia. injection Hi as ->.
    rewrite (Permutation_app_comm l'). done.
  - assert (i < length l') by (apply lookup_lt_Some in Hi; rewrite length_app in Hi; cbn in Hi; lia).
    rewrite insert_app_l, take_app_length' by (rewrite ?length_insert; done). rewrite lookup_app_l in Hi by done.
    rewrite insert_take_drop by done. rewrite <- (take_drop_middle l' i x) at 3 by done. solve_Permutation.
Qed.

Lemma reap_loop_spec now fuel index workers expired :
  (forall i w, i < index -> workers !! i = Some w -> worker_expired now w = false) ->
  (forall w, w ∈ expired -> worker_expired now w = true) -> length workers <= fuel + index ->
  let r := reap_loop fuel now index workers expired in
  r.1 ++ r.2 ≡ₚ workers ++ expired /\ (forall w, w ∈ r.1 -> worker_expired now w = false) /\ (forall w, w ∈ r.2 -> worker_expired now w = true).
Proof.
  revert index workers expired. induction fuel as [|fuel IH]; intros index workers expired Hfresh Hexp Hlen; cbn.
  - split_and!; [done| |done]. intros w [i Hi]%list_elem_of_lookup. apply (Hfresh i); [|done]. apply lookup_lt_Some in Hi. lia.
  - destruct (workers !! index) as [w|] eqn:Hw.
    + destruct (worker_expired now w) eqn:He.
      * pose proof (swap_remove_perm workers index w Hw) as Hp. pose proof (Permutation_length Hp) as Hl. cbn in Hl.
        destruct (IH index (swap_remove index workers) (expired ++ [w])) as (Hp' & Hf' & He').
        { intros i w' Hi Hw'. apply (Hfresh i); [done|]. revert Hw'. unfold swap_remove. destruct (last workers); [|done].
          intros [Hlk _]%lookup_take_Some. rewrite list_lookup_insert_ne in Hlk by lia. done. }
        { set_solver. } { lia. }
        split_and!; [|done..]. rewrite Hp'. transitivity ((w :: swap_remove index workers) ++ expired); [solve_Permutation|by rewrite Hp].
      * apply IH; [|done|lia]. intros i w' Hi Hw'. destruct (decide (i = index)) as [->|]; [congruence|]. apply (Hfresh i); [lia|done].
    + split_and!; [done| |done]. intros w [i Hi]%list_elem_of_lookup. apply (Hfresh i); [|done]. apply lookup_ge_None_1 in Hw. apply lookup_lt_Some in Hi. cbn in Hi. lia.
Qed.

(** Exactly the workers that were idle for long are stopped. *)
Lemma prune_idle_workers_spec now workers :
  (prune_idle_workers now workers).1 ++ (prune_idle_workers now workers).2 ≡ₚ workers
  /\ (forall w, w ∈ (prune_idle_workers now workers).1 -> worker_expired now w = false)
  /\ (forall w, w ∈ (prune_idle_workers now workers).2 -> worker_expired now w = true).
Proof.
  destruct (reap_loop_spec now (length workers) 0 workers []) as (Hp & H1 & H2); [intros; lia|set_solver|lia|].
  split_and!; [|done..]. unfold prune_idle_workers. by rewrite Hp, app_nil_r.
Qed.

Lemma checkout_loop_spec alive l w l' :
  checkout_loop alive l = (w, l') ->
  match w with Some w => w :: l' `suffix_of` l | None => l' = [] end.
Proof.
  revert w l'. induction l as [|x l IH]; intros w l'; cbn; [by intros [= <- <-]|]. destruct (alive (length l)).
  - intros [= <- <-]. done.
  - intros Hc. specialize (IH _ _ Hc). destruct w; [|done]. by apply suffix_cons_r.
Qed.

Lemma checkout_worker_spec alive l w l' :
  checkout_worker alive l = (w, l') ->
  match w with Some w => w ∈ l /\ (forall x, x ∈ l' -> x ∈ l) /\ length l' < length l | None => l' = [] end.
Proof.
  unfold checkout_worker. destruct (checkout_loop alive (rev l)) as [w0 l0] eqn:Hc. intros [= <- <-].
  apply checkout_loop_spec in Hc. destruct w0 as [w0|]; [|by subst]. destruct Hc as [k Hk].
  assert (Hmem : forall x, x ∈ w0 :: l0 -> x ∈ l). { intros x Hx. rewrite (Permutation_rev l), Hk. set_solver. }
  apply (f_equal length) in Hk. rewrite length_rev, length_app in Hk. cbn in Hk.
  split_and!; [set_solver| |rewrite length_rev; lia]. intros x Hx. apply Hmem. rewrite <- Permutation_rev in Hx. set_solver.
Qed.

(** ** Every run of the pool *)

Section Runs.
Context {J : WorkerJson} {B : StandardBase64}.
Variable transform_image : Job -> result TransformedImage ImageError.
Variable concurrency : nat.
Notation respond := (respond transform_image).
Notation run_stdio := (run_stdio transform_image).
Notation exchanged := (exchanged transform_image).

Definition one (b : bool) : Z := if b then 1 else 0.
Definition counted (p : Stage -> bool) (t : Job * Stage) : Z := one (p t.2).

(** An answer of a worker, or one of the two failures of the pool. *)
Definition answer_ok (j : Job) (answer : result str ImageError) : Prop :=
  match answer with Ok output => output = respond (request_bytes j) | Err e => e = TransformFailed \/ e = TransformQueueFull end.

(** The worker of a task answered everything before the request of the task, which is on its
    way, or of which the answer is on its way. *)
Definition stage_ok (j : Job) (st : Stage) : Prop :=
  match st with
  | Writing w rest => exists a sent, exchanged a (wp_taken w) /\ wp_written w = a ++ sent
      /\ write_worker_frame (request_bytes j) = Some (sent ++ rest)
  | Reading w got => exists a b f, exchanged a b /\ wp_written w = a ++ f /\ wp_taken w = b ++ got
      /\ write_worker_frame (request_bytes j) = Some f /\ got `prefix_of` run_stdio f
  | Returning w output => exchanged (wp_written w) (wp_taken w) /\ output = respond (request_bytes j)
  | Leaving answer | Finished answer => answer_ok j answer
  | _ => True
  end.

Record pool_inv (s : Pool) : Prop := {
  pi_permits : (Z.of_nat (p_permits s) + map_sum (counted holds_permit) (p_tasks s) = Z.of_nat concurrency)%Z;
  pi_queue : Z.of_nat (p_queue_depth s) = map_sum (counted is_queued) (p_tasks s);
  pi_capacity : p_queue_depth s <= IMAGE_WORKER_QUEUE_CAPACITY;
  pi_workers : (Z.of_nat (length (p_workers s)) + map_sum (counted has_worker) (p_tasks s) <= Z.of_nat concurrency)%Z;
  pi_synced : forall w, w ∈ p_workers s -> exchanged (wp_written w) (wp_taken w);
  pi_tasks : forall i j st, p_tasks s !! i = Some (j, st) -> stage_ok j st;
}.

Lemma pool_inv_start now : pool_inv (pool_start concurrency now).
Proof. split; cbn; rewrite ?map_sum_empty; [lia|done|unfold IMAGE_WORKER_QUEUE_CAPACITY; lia|lia|set_solver|]. intros i j st. by rewrite lookup_empty. Qed.

(** A task moves on, and the shared state with it. *)
Lemma pool_inv_move now permits depth workers s i j st st' :
  pool_inv s -> p_tasks s !! i = Some (j, st) ->
  (Z.of_nat permits + one (holds_permit st') = Z.of_nat (p_permits s) + one (holds_permit st))%Z ->
  (Z.of_nat depth + one (is_queued st) = Z.of_nat (p_queue_depth s) + one (is_queued st'))%Z ->
  depth <= IMAGE_WORKER_QUEUE_CAPACITY ->
  (Z.of_nat (length workers) + map_sum (counted has_worker) (p_tasks s) + one (has_worker st') <= Z.of_nat concurrency + one (has_worker st))%Z ->
  (forall w, w ∈ workers -> exchanged (wp_written w) (wp_taken w)) -> stage_ok j st' ->
  pool_inv (mkPool now permits depth workers (<[i := (j, st')]> (p_tasks s))).
Proof.
  intros [Hp Hq _ Hw _ Ht] Hi Hpermits Hdepth Hcap Hworkers Hsync Hst'.
  assert (Hsum : forall p, map_sum (counted p) (<[i := (j, st')]> (p_tasks s)) = (map_sum (counted p) (p_tasks s) - one (p st) + one (p st'))%Z)
    by (intros p; exact (map_sum_update (counted p) _ _ _ (j, st') Hi)).
  split; cbn; rewrite ?Hsum; [lia|lia|done|lia|done|].
  intros i' j' st'' [[<- [= <- <-]]|[_ Hi']]%lookup_insert_Some; [done|]. by eapply Ht.
Qed.

(** Whoever has a worker has a permit. *)
Lemma workers_below_permits s i j :
  pool_inv s -> p_tasks s !! i = Some (j, Permitted) -> (map_sum (counted has_worker) (p_tasks s) + 1 <= Z.of_nat concurrency)%Z.
Proof.
  intros [Hp _ _ _ _ _] Hi. rewrite (map_sum_delete _ _ _ _ Hi) in Hp. rewrite (map_sum_delete _ _ _ _ Hi). cbn in *.
  enough (map_sum (counted has_worker) (delete i (p_tasks s)) <= map_sum (counted holds_permit) (delete i (p_tasks s)))%Z by lia.
  apply map_sum_le. intros k [j' st] _. by destruct st.
Qed.

Lemma queued_positive s i j : pool_inv s -> p_tasks s !! i = Some (j, Queued) -> 1 <= p_queue_depth s.
Proof.
  intros [_ Hq _ _ _ _] Hi. rewrite (map_sum_delete _ _ _ _ Hi) in Hq. cbn in Hq.
  enough (0 <= map_sum (counted is_queued) (delete i (p_tasks s)))%Z by lia.
  apply map_sum_nonneg. intros k [j' st] _. by destruct st.
Qed.

Lemma start_request_ok w j : exchanged (wp_written w) (wp_taken w) -> stage_ok j (start_request w j) .
Proof.
  intros He. unfold start_request. destruct (write_worker_frame _) as [f|] eqn:Hf; cbn; [|by left].
  exists (wp_written w), []. by rewrite app_nil_r.
Qed.

(** Writing a part of the request. *)
Lemma write_bytes_ok w rest n j :
  stage_ok j (Writing w rest) ->
  stage_ok j (match drop n rest with
              | [] => Reading (mkWorker (wp_written w ++ take n rest) (wp_taken w) (idle_since w)) []
              | rest' => Writing (mkWorker (wp_written w ++ take n rest) (wp_taken w) (idle_since w)) rest'
              end).
Proof.
  intros (a & sent & He & Hw & Hf). rewrite <- (take_drop n rest), app_assoc in Hf. destruct (drop n rest) as [|c rest']; cbn.
  - rewrite app_nil_r in Hf. exists a, (wp_taken w), (sent ++ take n rest). rewrite Hw, app_nil_r, app_assoc. split_and!; [done..|apply prefix_nil].
  - exists a, (sent ++ take n rest). rewrite Hw, app_assoc. done.
Qed.

(** Reading a part of the answer, or the rest of it. *)
Lemma read_bytes_ok w got n j :
  stage_ok j (Reading w got) ->
  let chunk := take (Nat.min n (bytes_wanted got)) (drop (length (wp_taken w)) (run_stdio (wp_written w))) in
  stage_ok j (answer_received (mkWorker (wp_written w) (wp_taken w ++ chunk) (idle_since w)) (got ++ chunk))
  /\ (is_Some (write_worker_frame (respond (request_bytes j))) ->
      forall answer, answer_received (mkWorker (wp_written w) (wp_taken w ++ chunk) (idle_since w)) (got ++ chunk) <> Leaving answer).
Proof.
  intros (a & b & f & He & Hw & Ht & Hf & [more Hmore]) chunk.
  assert (Hchunk : chunk `prefix_of` more).
  { unfold chunk. rewrite Hw, Ht, (run_stdio_exchanged _ a b f He), length_app, <- drop_drop, drop_app_length, Hmore, drop_app_length. by exists (drop (Nat.min n (bytes_wanted got)) more); rewrite take_drop. }
  clearbody chunk. destruct Hchunk as [rest ->]. rewrite app_assoc in Hmore. rewrite (run_stdio_one _ _ _ Hf) in Hmore.
  assert (Hgo : stage_ok j (Reading (mkWorker (wp_written w) (wp_taken w ++ chunk) (idle_since w)) (got ++ chunk))).
  { exists a, b, f. cbn. rewrite Ht, app_assoc. split_and!; [done..|]. rewrite (run_stdio_one _ _ _ Hf), Hmore. by exists rest. }
  unfold answer_received. destruct (write_worker_frame (respond (request_bytes j))) as [g|] eqn:Hg; cbn in Hmore.
  - subst g. destruct (decide (rest = [])) as [->|Hne].
    + rewrite app_nil_r in Hg. pose proof (read_written_frame _ _ [] Hg) as Hr. rewrite app_nil_r in Hr. rewrite Hr. cbn. split; [|done]. split; [|done].
      rewrite Hw, Ht, <- app_assoc. by eapply exchanged_more.
    + by destruct (read_part_of_frame _ _ _ Hg Hne) as [-> | ->].
  - symmetry in Hmore. apply app_nil in Hmore as [Hnil _]. rewrite Hnil in *. split; [done|]. by intros [? ?].
Qed.

Lemma holds_start_request w j : holds_permit (start_request w j) = true.
Proof. unfold start_request. by destruct (write_worker_frame _). Qed.
Lemma queued_start_request w j : is_queued (start_request w j) = false.
Proof. unfold start_request. by destruct (write_worker_frame _). Qed.
Lemma has_start_request w j : (one (has_worker (start_request w j)) <= 1)%Z.
Proof. by destruct (has_worker _). Qed.

Lemma answer_received_weights w got :
  holds_permit (answer_received w got) = true /\ is_queued (answer_received w got) = false /\ (one (has_worker (answer_received w got)) <= 1)%Z.
Proof. unfold answer_received. by destruct (read_worker_frame got). Qed.

Lemma pool_inv_drop s i j st : pool_inv s -> p_tasks s !! i = Some (j, st) -> pool_inv (drop_task s i st).
Proof.
  intros Hinv Hi. assert (Hdepth : is_queued st = true -> 1 <= p_queue_depth s).
  { intros Hst. destruct st; try done. by eapply queued_positive. }
  destruct Hinv as [Hp Hq Hcap Hw Hsync Htasks].
  assert (Hsum : forall p, map_sum (counted p) (p_tasks s) = (one (p st) + map_sum (counted p) (delete i (p_tasks s)))%Z)
    by (intros p; exact (map_sum_delete (counted p) _ _ _ Hi)).
  rewrite Hsum in Hp, Hq, Hw. split; cbn; [..|done|intros i' j' st' [_ Hi']%lookup_delete_Some; by eapply Htasks].
  - destruct (holds_permit st); cbn in *; lia.
  - destruct (is_queued st); cbn in *; [specialize (Hdepth eq_refl)|]; lia.
  - destruct (is_queued st); lia.
  - destruct (has_worker st); cbn in *; lia.
Qed.

(** The task of an action, and its stage. *)
Ltac at_task Ha Hi :=
  match type of Ha with
  | match ?m with Some _ => _ | None => _ end = Some _ => destruct m as [[? ?]|] eqn:Hi; [|discriminate Ha]
  end.

Lemma pool_act_inv a s s' : pool_act transform_image concurrency a s = Some s' -> pool_inv s -> pool_inv s'.
Proof.
  intros Ha Hinv. pose proof Hinv as [Hp Hq Hcap Hw Hsync Htasks].
  destruct a as [t|i j0|i|i spurious|i|i alive|i ok|i n|i n|i|i|i| |i]; cbn [pool_act] in Ha.
  - destruct (_ <=? _)%Z; [|done]. injection Ha as <-. by split.
  - destruct (p_tasks s !! i) eqn:Hi; [done|]. injection Ha as <-. split; cbn; rewrite ?map_sum_insert by done; cbn; try done.
    intros i' j' st' [[<- [= <- <-]]|[_ Hi']]%lookup_insert_Some; [done|]. by eapply Htasks.
  - at_task Ha Hi. destruct s0; try done. destruct (p_permits s) as [|n] eqn:Hn; injection Ha as <-;
      (eapply (pool_inv_move _ _ _ _ s i); [exact Hinv|exact Hi|cbn; lia..|done|done]).
  - at_task Ha Hi. destruct s0; try done. destruct (_ <=? _)%nat eqn:Hc; [|destruct (_ && _) eqn:Hd]; injection Ha as <-;
      (eapply (pool_inv_move _ _ _ _ s i); [exact Hinv|exact Hi|cbn; lia..|done|]); [by right|done|done].
  - at_task Ha Hi. destruct s0; try done. destruct (p_permits s) as [|n] eqn:Hn; [done|]. injection Ha as <-.
    pose proof (queued_positive s i j Hinv Hi). eapply (pool_inv_move _ _ _ _ s i); [exact Hinv|exact Hi|cbn; lia..|done|done].
  - at_task Ha Hi. destruct s0; try done. pose proof (workers_below_permits s i j Hinv Hi) as Hbelow.
    destruct (checkout_worker alive (p_workers s)) as [o l] eqn:Hc. injection Ha as <-. apply checkout_worker_spec in Hc. destruct o as [w|].
    + destruct Hc as (Hin & Hsub & Hlen). pose proof (has_start_request w j).
      eapply (pool_inv_move _ _ _ _ s i); [exact Hinv|exact Hi|cbn; rewrite ?holds_start_request, ?queued_start_request; cbn; lia..|by intros x ?%Hsub; apply Hsync|].
      by apply start_request_ok, Hsync.
    + subst l. eapply (pool_inv_move _ _ _ _ s i); [exact Hinv|exact Hi|cbn; lia..|set_solver|done].
  - at_task Ha Hi. destruct s0; try done. injection Ha as <-. destruct ok.
    + pose proof (has_start_request (spawned (p_now s)) j).
      eapply (pool_inv_move _ _ _ _ s i); [exact Hinv|exact Hi|cbn; rewrite ?holds_start_request, ?queued_start_request; cbn; lia..|done|]. apply start_request_ok, exchanged_nothing.
    + eapply (pool_inv_move _ _ _ _ s i); [exact Hinv|exact Hi|cbn; lia..|done|by left].
  - at_task Ha Hi. destruct s0 as [| | | | |w rest| | | |]; try done. injection Ha as <-. pose proof (write_bytes_ok w rest n j (Htasks _ _ _ Hi)) as Hok.
    eapply (pool_inv_move _ _ _ _ s i); [exact Hinv|exact Hi|destruct (drop n rest); cbn; lia..|done|done].
  - at_task Ha Hi. destruct s0 as [| | | | | |w got| | |]; try done. injection Ha as <-. destruct (read_bytes_ok w got n j (Htasks _ _ _ Hi)) as [Hok _]. cbn zeta in Hok.
    set (st' := answer_received _ _) in *. assert (Hwt : holds_permit st' = true /\ is_queued st' = false /\ (one (has_worker st') <= 1)%Z) by apply answer_received_weights.
    clearbody st'. destruct Hwt as (Hh & Hqd & Hb). eapply (pool_inv_move _ _ _ _ s i); [exact Hinv|exact Hi|cbn; rewrite ?Hh, ?Hqd; cbn; lia..|done|done].
  - at_task Ha Hi. destruct s0; try done; injection Ha as <-; (eapply (pool_inv_move _ _ _ _ s i); [exact Hinv|exact Hi|cbn; lia..|done|by left]).
  - at_task Ha Hi. destruct s0 as [| | | | | | |w output| |]; try done. injection Ha as <-. destruct (Htasks _ _ _ Hi) as [He ->].
    unfold checkin_worker. destruct (_ <? _)%nat; cbn.
    + eapply (pool_inv_move _ _ _ _ s i); [exact Hinv|exact Hi|cbn; lia..|cbn; rewrite length_app; cbn; lia| |done].
      intros x [Hx| ->%list_elem_of_singleton]%elem_of_app; [by apply Hsync|done].
    + eapply (pool_inv_move _ _ _ _ s i); [exact Hinv|exact Hi|cbn; lia..|done|done].
  - at_task Ha Hi. destruct s0; try done. injection Ha as <-. eapply (pool_inv_move _ _ _ _ s i); [exact Hinv|exact Hi|cbn; lia..|done|exact (Htasks _ _ _ Hi)].
  - injection Ha as <-. destruct (prune_idle_workers_spec (p_now s) (p_workers s)) as (Hperm & _ & _). split; cbn; try done.
    + apply Permutation_length in Hperm. rewrite length_app in Hperm. lia.
    + intros w Hin. apply Hsync. rewrite <- Hperm. set_solver.
  - at_task Ha Hi. injection Ha as <-. by eapply pool_inv_drop.
Qed.

Lemma pool_reachable now s : rtc (pool_step transform_image concurrency) (pool_start concurrency now) s -> pool_inv s.
Proof.
  intros Hr. pose proof (pool_inv_start now) as H0. revert H0. induction Hr as [|x y z [a Ha] _ IH]; [done|].
  intros Hx. apply IH. by eapply pool_act_inv.
Qed.

(** ** From the answer back to the transformation *)

Lemma image_error_code_round_trip e : image_error_from_code (image_error_code e) = e.
Proof. by destruct e. Qed.

Context {JL : WorkerJsonLaws J} {BL : StandardBase64Laws B}.

Lemma parse_fit_code o : transpose (parse_fit <$> (fit_code <$> o)) = Ok o.
Proof. by destruct o as [[]|]. Qed.
Lemma parse_crop_code o : transpose (parse_crop <$> (crop_code <$> o)) = Ok o.
Proof. by destruct o as [[]|]. Qed.

(** A worker transforms the job it was sent. *)
Lemma handle_request_of_job j :
  handle_request_bytes transform_image (request_bytes j) =
  match transform_image j with
  | Ok t => ResponseOk (std_encode (ti_bytes t)) (ti_format t) (ti_width t) (ti_height t)
  | Err e => ResponseError (image_error_code e)
  end.
Proof.
  unfold handle_request_bytes, request_bytes. rewrite request_round_trip. cbn. rewrite std_round_trip. unfold transform_options. cbn.
  rewrite parse_fit_code, parse_crop_code. cbn. destruct j as [source ct [] []]. cbn. by destruct (transform_image _).
Qed.

(** What the answer of a worker for a job is decoded to. *)
Lemma decode_answer_of_job j :
  transform_in_worker_result j (Ok (respond (request_bytes j))) =
  match transform_image j with
  | Ok t =>
      if worker_output_format_matches_request (ti_format t) (to_format (j_options j))
      then Ok (mkImage (ti_bytes t) (content_type_for_format (ti_format t)) (ti_format t) (ti_width t) (ti_height t))
      else Err TransformFailed
  | Err e => Err e
  end.
Proof.
  cbn. unfold decode_worker_response, ImageWorker.respond. rewrite response_round_trip, handle_request_of_job. destruct (transform_image j) as [t|e].
  - destruct (worker_output_format_matches_request _ _); [|done]. cbn. by rewrite std_round_trip.
  - by rewrite image_error_code_round_trip.
Qed.

(** ** A request that nothing disturbs *)

(** Both messages of a job fit into a frame. *)
Definition fits (j : Job) : Prop :=
  is_Some (write_worker_frame (request_bytes j)) /\ is_Some (write_worker_frame (respond (request_bytes j))).

(** What goes wrong for a task from outside: its worker breaks or takes too long, cannot be
    started, or the request goes away. *)
Definition disturbs (i : nat) (a : Action) : bool :=
  match a with
  | Break k | Cancel k | Spawn k false => (k =? i)%nat
  | _ => false
  end.

Definition not_failed (st : Stage) : Prop :=
  match st with
  | Leaving (Err _) => False
  | Finished (Err e) => e = TransformQueueFull
  | _ => True
  end.

Lemma start_request_not_failed w j : fits j -> not_failed (start_request w j).
Proof. intros [[f Hf] _]. unfold start_request. by rewrite Hf. Qed.

(** An action that does not disturb task [i] does not make it fail. *)
Lemma undisturbed_act a s s' i :
  pool_act transform_image concurrency a s = Some s' -> pool_inv s -> disturbs i a = false ->
  (forall j st, p_tasks s !! i = Some (j, st) -> fits j -> not_failed st) ->
  forall j st, p_tasks s' !! i = Some (j, st) -> fits j -> not_failed st.
Proof.
  intros Ha Hinv Hd Hs. pose proof (pi_tasks _ Hinv) as Htasks.
  assert (Hput : forall k j0 st0 now permits depth workers,
    Some (mkPool now permits depth workers (<[k := (j0, st0)]> (p_tasks s))) = Some s' ->
    (k = i -> fits j0 -> not_failed st0) -> forall j st, p_tasks s' !! i = Some (j, st) -> fits j -> not_failed st).
  { intros k j0 st0 now permits depth workers [= <-] Hk j st. cbn.
    intros [[-> [= <- <-]]|[_ Hi]]%lookup_insert_Some; [by apply Hk|by apply Hs]. }
  destruct a as [t|k j0|k|k spurious|k|k alive|k ok|k n|k n|k|k|k| |k]; cbn [pool_act] in Ha.
  - destruct (_ <=? _)%Z; [|done]. injection Ha as <-. exact Hs.
  - destruct (p_tasks s !! k) eqn:Hk; [done|]. by eapply Hput; [exact Ha|].
  - at_task Ha Hk. destruct s0; try done. destruct (p_permits s); by eapply Hput; [exact Ha|].
  - at_task Ha Hk. destruct s0; try done. destruct (_ <=? _)%nat; [|destruct (_ && _)]; by eapply Hput; [exact Ha|].
  - at_task Ha Hk. destruct s0; try done. destruct (p_permits s); [done|]. by eapply Hput; [exact Ha|].
  - at_task Ha Hk. destruct s0; try done. destruct (checkout_worker alive (p_workers s)) as [o l].
    eapply Hput; [exact Ha|]. intros _ Hfit. destruct o; [by apply start_request_not_failed|done].
  - at_task Ha Hk. destruct s0; try done. eapply Hput; [exact Ha|]. intros -> Hfit.
    destruct ok; [by apply start_request_not_failed|]. cbn in Hd. by rewrite Nat.eqb_refl in Hd.
  - at_task Ha Hk. destruct s0; try done. eapply Hput; [exact Ha|]. intros _ _. by destruct (drop n rest).
  - at_task Ha Hk. destruct s0 as [| | | | | |w got| | |]; try done. eapply Hput; [exact Ha|]. intros _ [_ Hfit].
    destruct (read_bytes_ok w got n j (Htasks _ _ _ Hk)) as [_ Hne]. cbn zeta in Hne. specialize (Hne Hfit).
    unfold answer_received in *. destruct (read_worker_frame _); try done. by destruct (Hne (Err TransformFailed)).
  - at_task Ha Hk. destruct s0; try done; eapply Hput; [exact Ha| |exact Ha|]; intros ->; cbn in Hd; by rewrite Nat.eqb_refl in Hd.
  - at_task Ha Hk. destruct s0; try done. by eapply Hput; [exact Ha|].
  - at_task Ha Hk. destruct s0 as [| | | | | | | |answer|]; try done. eapply Hput; [exact Ha|]. intros -> Hfit.
    specialize (Hs _ _ Hk Hfit). by destruct answer.
  - injection Ha as <-. exact Hs.
  - at_task Ha Hk. injection Ha as <-. cbn. intros j' st [_ Hi]%lookup_delete_Some. by apply Hs.
Qed.

(** So, whatever the other tasks do, the only failure of a task that nothing disturbs is a
    queue that was full when it came. *)
Lemma undisturbed_run actions i : forall s s',
  pool_run transform_image concurrency actions s = Some s' -> pool_inv s ->
  Forall (fun a => disturbs i a = false) actions ->
  (forall j st, p_tasks s !! i = Some (j, st) -> fits j -> not_failed st) ->
  pool_inv s' /\ forall j st, p_tasks s' !! i = Some (j, st) -> fits j -> not_failed st.
Proof.
  induction actions as [|a actions IH]; intros s s' Hr Hinv Hall Hs; cbn in Hr; [by injection Hr as <-|].
  inversion Hall as [|? ? Ha Hrest]; subst. destruct (pool_act _ _ a s) as [s1|] eqn:Hact; [|done]. cbn in Hr.
  apply (IH s1); [done|by eapply pool_act_inv|done|]. by eapply undisturbed_act.
Qed.

(** A task that was refused a place in the queue, or is about to be. *)
Definition refused_place (st : Stage) : Prop :=
  match st with
  | Reserving current => IMAGE_WORKER_QUEUE_CAPACITY <= current
  | Leaving (Err e) | Finished (Err e) => e = TransformQueueFull
  | _ => False
  end.

Definition away (i : nat) (s : Pool) : Prop := exists j st, p_tasks s !! i = Some (j, st) /\ refused_place st.

Lemma start_request_not_refused w j : ~ refused_place (start_request w j).
Proof. unfold start_request. destruct (write_worker_frame _); cbn; [tauto|discriminate]. Qed.

(** It saw a full queue. *)
Lemma refused_place_act a s s' i :
  pool_act transform_image concurrency a s = Some s' -> away i s' -> away i s \/ IMAGE_WORKER_QUEUE_CAPACITY <= p_queue_depth s.
Proof.
  intros Ha (j & st & Hi & Haway).
  assert (Hput : forall k j0 st0 now permits depth workers,
    Some (mkPool now permits depth workers (<[k := (j0, st0)]> (p_tasks s))) = Some s' ->
    (k = i -> refused_place st0 -> away i s \/ IMAGE_WORKER_QUEUE_CAPACITY <= p_queue_depth s) ->
    away i s \/ IMAGE_WORKER_QUEUE_CAPACITY <= p_queue_depth s).
  { intros k j0 st0 now permits depth workers [= <-] Hk. cbn in Hi.
    apply lookup_insert_Some in Hi as [[-> [= -> ->]]|[_ Hi]]; [by apply Hk|]. left. by exists j, st. }
  destruct a as [t|k j0|k|k spurious|k|k alive|k ok|k n|k n|k|k|k| |k]; cbn [pool_act] in Ha.
  - destruct (_ <=? _)%Z; [|done]. injection Ha as <-. left. by exists j, st.
  - destruct (p_tasks s !! k) eqn:Hk; [done|]. by eapply Hput; [exact Ha|].
  - at_task Ha Hk. destruct s0; try done. destruct (p_permits s); (eapply Hput; [exact Ha|]); [|done]. intros _ H. by right.
  - at_task Ha Hk. destruct s0 as [|current| | | | | | | |]; try done. destruct (_ <=? _)%nat eqn:Hc; [|destruct (_ && _)]; (eapply Hput; [exact Ha|]); [|done|intros _ H; by right].
    intros -> _. left. eexists _, _. split; [exact Hk|]. cbn. by apply Nat.leb_le.
  - at_task Ha Hk. destruct s0; try done. destruct (p_permits s); [done|]. by eapply Hput; [exact Ha|].
  - at_task Ha Hk. destruct s0; try done. destruct (checkout_worker alive (p_workers s)) as [[w|] l]; (eapply Hput; [exact Ha|]); [|done].
    by intros _ ?%start_request_not_refused.
  - at_task Ha Hk. destruct s0; try done. destruct ok; (eapply Hput; [exact Ha|]); [|done]. by intros _ ?%start_request_not_refused.
  - at_task Ha Hk. destruct s0; try done. eapply Hput; [exact Ha|]. intros _. by destruct (drop n rest).
  - at_task Ha Hk. destruct s0; try done. eapply Hput; [exact Ha|]. intros _. unfold answer_received. by destruct (read_worker_frame _).
  - at_task Ha Hk. destruct s0; try done; by eapply Hput; [exact Ha|].
  - at_task Ha Hk. destruct s0; try done. by eapply Hput; [exact Ha|].
  - at_task Ha Hk. destruct s0 as [| | | | | | | |answer|]; try done. eapply Hput; [exact Ha|]. intros -> H. left. eexists _, _. by split; [exact Hk|].
  - injection Ha as <-. left. by exists j, st.
  - at_task Ha Hk. injection Ha as <-. cbn in Hi. apply lookup_delete_Some in Hi as [_ Hi]. left. by exists j, st.
Qed.

Lemma refused_place_run actions i : forall s s',
  pool_run transform_image concurrency actions s = Some s' -> away i s' ->
  away i s \/ exists before after s1, actions = before ++ after
    /\ pool_run transform_image concurrency before s = Some s1 /\ IMAGE_WORKER_QUEUE_CAPACITY <= p_queue_depth s1.
Proof.
  induction actions as [|a actions IH]; intros s s' Hr Haway; cbn in Hr; [injection Hr as <-; by left|].
  destruct (pool_act _ _ a s) as [s1|] eqn:Ha; [|done]. cbn in Hr.
  destruct (IH _ _ Hr Haway) as [H1|(before & after & s2 & -> & Hb & Hfull)].
  - destruct (refused_place_act _ _ _ _ Ha H1) as [H0|Hfull]; [by left|]. right. by exists [], (a :: actions), s.
  - right. exists (a :: before), after, s2. cbn. by rewrite Ha.
Qed.

(** ** Progress: a task that can go on gets to its answer on its own *)

Definition own (i : nat) (a : Action) : bool :=
  match a with
  | Try k | Acquire k | Checkout k _ | Spawn k true | WriteBytes k _ | ReadBytes k _ | Checkin k | Leave k => (k =? i)%nat
  | _ => false
  end.

(** A run of the task's own operations from [s] that ends with its answer. *)
Definition arrives (i : nat) (j : Job) (s : Pool) : Prop :=
  exists actions s', Forall (fun a => own i a = true) actions
    /\ pool_run transform_image concurrency actions s = Some s'
    /\ p_tasks s' !! i = Some (j, Finished (Ok (respond (request_bytes j)))).

Lemma arrives_step a i j s s' :
  own i a = true -> pool_act transform_image concurrency a s = Some s' -> arrives i j s' -> arrives i j s.
Proof.
  intros Ho Ha (actions & s2 & Hall & Hr & Hi). exists (a :: actions), s2. cbn. rewrite Ha. split_and!; [by constructor|done..].
Qed.

Lemma at_stage s i j st : p_tasks (set_stage s i j st) !! i = Some (j, st).
Proof. cbn. apply lookup_insert_eq. Qed.

Ltac own_step act Hi :=
  eapply (arrives_step act); [cbn; apply Nat.eqb_refl|cbn [pool_act]; rewrite Hi; reflexivity|].

Lemma arrives_leaving i j s : p_tasks s !! i = Some (j, Leaving (Ok (respond (request_bytes j)))) -> arrives i j s.
Proof.
  intros Hi. own_step (Leave i) Hi. eexists [], _. split_and!; [constructor|reflexivity|apply lookup_insert_eq].
Qed.

Lemma arrives_returning i j s w output : pool_inv s -> p_tasks s !! i = Some (j, Returning w output) -> arrives i j s.
Proof.
  intros Hinv Hi. destruct (pi_tasks _ Hinv _ _ _ Hi) as [_ ->]. own_step (Checkin i) Hi.
  apply arrives_leaving. apply lookup_insert_eq.
Qed.

(** A reader that has only a part of its answer gets more with the next read. *)
Lemma next_read w got j g :
  stage_ok j (Reading w got) -> write_worker_frame (respond (request_bytes j)) = Some g -> length got < length g ->
  0 < length (take (Nat.min (bytes_wanted got) (bytes_wanted got)) (drop (length (wp_taken w)) (run_stdio (wp_written w)))).
Proof.
  intros (a & b & f & He & Hw & Ht & Hf & Hpre) Hg Hlen.
  rewrite Hw, Ht, (run_stdio_exchanged _ a b f He), length_app, <- drop_drop, drop_app_length.
  assert (Hrun : run_stdio f = g) by (by rewrite (run_stdio_one _ _ _ Hf), Hg).
  rewrite Hrun in *. destruct Hpre as [more Hmore]. rewrite Hmore, drop_app_length.
  assert (Hpos : 0 < length more) by (rewrite Hmore, length_app in Hlen; lia).
  rewrite Nat.min_id, length_take. enough (0 < bytes_wanted got) by lia. unfold bytes_wanted.
  destruct (length got <? 4)%nat eqn:H4; [apply Nat.ltb_lt in H4; lia|apply Nat.ltb_ge in H4].
  destruct (write_worker_frame_Some _ _ Hg) as [Hgx Hmax]. set (x := respond (request_bytes j)) in *.
  assert (take 4 got = to_be 4 (Z.of_nat (length x))) as ->.
  { assert (Htake : take 4 g = to_be 4 (Z.of_nat (length x))) by (rewrite Hgx; by rewrite take_app_length' by (by rewrite length_to_be)).
    rewrite <- Htake, Hmore. by rewrite take_app_le. }
  rewrite from_to_be, Nat2Z.id by by apply frame_len_range.
  assert (length g = 4 + length x) by (rewrite Hgx, length_app, length_to_be; lia). lia.
Qed.

Lemma arrives_reading i j g : write_worker_frame (respond (request_bytes j)) = Some g -> forall n s w got,
  pool_inv s -> p_tasks s !! i = Some (j, Reading w got) -> length g - length got <= n -> arrives i j s.
Proof.
  intros Hg. induction n as [n IH] using lt_wf_ind. intros s w got Hinv Hi Hn.
  pose proof (pi_tasks _ Hinv _ _ _ Hi) as Hok.
  set (m := bytes_wanted got). set (chunk := take (Nat.min m (bytes_wanted got)) (drop (length (wp_taken w)) (run_stdio (wp_written w)))).
  set (w' := mkWorker (wp_written w) (wp_taken w ++ chunk) (idle_since w)).
  assert (Hact : pool_act transform_image concurrency (ReadBytes i m) s = Some (set_stage s i j (answer_received w' (got ++ chunk)))).
  { cbn [pool_act]. by rewrite Hi. }
  eapply (arrives_step (ReadBytes i m)); [cbn; apply Nat.eqb_refl|exact Hact|].
  pose proof (pool_act_inv _ _ _ Hact Hinv) as Hinv'. pose proof (at_stage s i j (answer_received w' (got ++ chunk))) as Hi'.
  destruct (read_bytes_ok w got m j Hok) as [Hok' Hne]. cbn zeta in Hok', Hne. fold chunk w' in Hok', Hne.
  specialize (Hne (mk_is_Some _ _ Hg)). remember (answer_received w' (got ++ chunk)) as st' eqn:Hst.
  assert (Hcases : (exists body, st' = Returning w' body) \/ st' = Reading w' (got ++ chunk)).
  { subst st'. unfold answer_received in *. destruct (read_worker_frame _); eauto. by destruct (Hne (Err TransformFailed)). }
  destruct Hcases as [[body ->]| ->]; [by eapply arrives_returning|].
  destruct (decide (length got < length g)) as [Hlt|Hge].
  - assert (Hpos : 0 < length chunk) by exact (next_read w got j g Hok Hg Hlt).
    eapply (IH (length g - length (got ++ chunk))); [rewrite length_app; lia|exact Hinv'|exact Hi'|lia].
  - (* the whole answer is there: the read cannot ask for more *)
    exfalso. destruct Hok' as (a & b & f & _ & _ & _ & Hf & Hpre). rewrite (run_stdio_one _ _ _ Hf), Hg in Hpre. cbn in Hpre.
    assert (got ++ chunk = g) as Heq.
    { destruct Hpre as [rest Hrest]. assert (rest = []) as ->; [|by rewrite app_nil_r in Hrest].
      apply (f_equal length) in Hrest. rewrite !length_app in Hrest. apply length_zero_iff_nil. lia. }
    rewrite Heq in Hst. unfold answer_received in Hst. pose proof (read_written_frame _ g [] Hg) as Hr. rewrite app_nil_r in Hr.
    by rewrite Hr in Hst.
Qed.

Lemma arrives_writing i j s w rest :
  fits j -> pool_inv s -> p_tasks s !! i = Some (j, Writing w rest) -> arrives i j s.
Proof.
  intros [_ [g Hg]] Hinv Hi.
  assert (Hact : pool_act transform_image concurrency (WriteBytes i (length rest)) s =
    Some (set_stage s i j (Reading (mkWorker (wp_written w ++ rest) (wp_taken w) (idle_since w)) []))).
  { cbn [pool_act]. rewrite Hi, drop_all, firstn_all. done. }
  eapply (arrives_step (WriteBytes i (length rest))); [cbn; apply Nat.eqb_refl|exact Hact|].
  eapply arrives_reading; [exact Hg|by eapply pool_act_inv|apply at_stage|done].
Qed.

Lemma arrives_started i j s w : fits j -> pool_inv s -> p_tasks s !! i = Some (j, start_request w j) -> arrives i j s.
Proof.
  intros Hfit Hinv Hi. pose proof Hfit as [[f Hf] _]. unfold start_request in Hi. rewrite Hf in Hi. by eapply arrives_writing.
Qed.

Lemma arrives_spawning i j s : fits j -> pool_inv s -> p_tasks s !! i = Some (j, Spawning) -> arrives i j s.
Proof.
  intros Hfit Hinv Hi.
  assert (Hact : pool_act transform_image concurrency (Spawn i true) s = Some (set_stage s i j (start_request (spawned (p_now s)) j))).
  { cbn [pool_act]. by rewrite Hi. }
  eapply (arrives_step (Spawn i true)); [cbn; apply Nat.eqb_refl|exact Hact|].
  eapply arrives_started; [done|by eapply pool_act_inv|apply at_stage].
Qed.

Lemma arrives_permitted i j s : fits j -> pool_inv s -> p_tasks s !! i = Some (j, Permitted) -> arrives i j s.
Proof.
  intros Hfit Hinv Hi. destruct (checkout_worker (fun _ => true) (p_workers s)) as [o l] eqn:Hc.
  assert (Hact : pool_act transform_image concurrency (Checkout i (fun _ => true)) s =
    Some (set_stage (set_workers s l) i j (match o with Some w => start_request w j | None => Spawning end))).
  { cbn [pool_act]. by rewrite Hi, Hc. }
  eapply (arrives_step (Checkout i (fun _ => true))); [cbn; apply Nat.eqb_refl|exact Hact|].
  pose proof (pool_act_inv _ _ _ Hact Hinv) as Hinv'.
  destruct o as [w|]; [eapply arrives_started|eapply arrives_spawning]; try done; apply at_stage.
Qed.

(** A task that holds a permit, or for which one is free, and that has not failed. *)
Definition can_go (s : Pool) (st : Stage) : Prop :=
  match st with
  | Starting | Queued => 0 < p_permits s
  | Permitted | Spawning | Writing _ _ | Reading _ _ | Returning _ _ | Leaving (Ok _) => True
  | _ => False
  end.

Lemma task_arrives i j st s : fits j -> pool_inv s -> p_tasks s !! i = Some (j, st) -> can_go s st -> arrives i j s.
Proof.
  intros Hfit Hinv Hi Hgo. pose proof (pi_tasks _ Hinv _ _ _ Hi) as Hok.
  assert (Hpermit : forall a n, own i a = true -> p_permits s = S n ->
    pool_act transform_image concurrency a s = Some (set_stage (set_permits s n) i j Permitted)
    \/ pool_act transform_image concurrency a s = Some (set_stage (set_queue (set_permits s n) (pred (p_queue_depth s))) i j Permitted) ->
    arrives i j s).
  { intros a n Ho _ [Ha|Ha]; (eapply (arrives_step a); [exact Ho|exact Ha|]);
      (eapply arrives_permitted; [done|by eapply pool_act_inv|apply at_stage]). }
  destruct st as [| current| | | |w rest|w got|w output|[answer|e]|answer]; cbn in Hgo; try done.
  - destruct (p_permits s) as [|n] eqn:Hn; [lia|]. eapply (Hpermit (Try i) n); [cbn; apply Nat.eqb_refl|done|].
    left. cbn [pool_act]. by rewrite Hi, Hn.
  - destruct (p_permits s) as [|n] eqn:Hn; [lia|]. eapply (Hpermit (Acquire i) n); [cbn; apply Nat.eqb_refl|done|].
    right. cbn [pool_act]. by rewrite Hi, Hn.
  - by eapply arrives_permitted.
  - by eapply arrives_spawning.
  - by eapply arrives_writing.
  - destruct Hfit as [_ [g Hg]]. by eapply arrives_reading.
  - by eapply arrives_returning.
  - cbn in Hok. subst answer. by apply arrives_leaving.
Qed.
End Runs.
