(* ===== verification/ImageWorkerSpec.v ===== *)
(** * What the image workers promise

    The claim about [transform_in_worker], and an instance in which a request is served. *)

From S2P Require Import Prelude RustStr Net Codec ImageSource Images ImageCache ImageWorker ImageWorkerProps.

Section Spec.
Context {J : WorkerJson} {B : StandardBase64} {JL : WorkerJsonLaws J} {BL : StandardBase64Laws B}.
Variable transform_image : Job -> result TransformedImage ImageError.

(** How many tasks are in such a stage. *)
Definition how_many (p : Stage -> bool) (s : Pool) : Z := map_sum (counted p) (p_tasks s).

Lemma pool_run_steps concurrency actions s s' :
  pool_run transform_image concurrency actions s = Some s' -> rtc (pool_step transform_image concurrency) s s'.
Proof.
  revert s. induction actions as [|a actions IH]; intros s; cbn; [by intros [= <-]|].
  destruct (pool_act _ _ a s) as [s1|] eqn:Ha; [|done]. intros Hr. eapply rtc_l; [by exists a|by apply IH].
Qed.

Lemma worker_concurrency_bounds parallelism :
  IMAGE_WORKER_MIN_CONCURRENCY <= worker_concurrency parallelism <= IMAGE_WORKER_MAX_CONCURRENCY.
Proof. unfold worker_concurrency, IMAGE_WORKER_MIN_CONCURRENCY, IMAGE_WORKER_MAX_CONCURRENCY. destruct (_ <=? 2)%nat; lia. Qed.

(** What a caller gets for a job whose transformation takes place: an image in the format that
    was asked for, or WebP in place of AVIF, with its content type. *)
Definition transformation (j : Job) : result TransformedImage ImageError :=
  match transform_image j with
  | Err e => Err e
  | Ok t =>
      match ti_format t, to_format (j_options j) with
      | Webp, _ => Ok (mkImage (ti_bytes t) (bs "image/webp") Webp (ti_width t) (ti_height t))
      | Avif, Avif => Ok (mkImage (ti_bytes t) (bs "image/avif") Avif (ti_width t) (ti_height t))
      | Avif, Webp => Err TransformFailed
      end
  end.

Lemma answer_is_transformation j :
  transform_in_worker_result j (Ok (respond transform_image (request_bytes j))) = transformation j.
Proof.
  rewrite (decode_answer_of_job transform_image (JL := JL) (BL := BL)). unfold transformation. destruct (transform_image j) as [t|e]; [|done].
  unfold worker_output_format_matches_request. by destruct (ti_format t), (to_format (j_options j)).
Qed.

(** C38: a transformation in a worker process is a call of the transformation.  Tasks share the
    workers of the pool, write and read in pieces, fail, time out and are cancelled at any
    moment, and workers die and are reaped.
    (1) What a task returns is the result of transforming its own source with its own options,
    with the content type of the format, or the failure of the pool, never an image of another
    request; there are never more than two workers, idle and busy together; permits and places
    in the queue of 32 are all given back.
    (2) In every run in which task [i] is not disturbed (its worker does not break or time out
    on it, a worker it has to start does start, its request does not go away) and whose
    messages fit into frames, the task returns exactly what the transformation returns, on a
    new worker or on one that served others before, whatever the other tasks and the workers
    in the pool do; the one exception is a task that found 32 others in the queue.
    (3) In every state that can be reached, a task that holds a permit, or for which one is
    free, gets to that answer by its own operations alone. *)
Theorem worker_results_are_transformations parallelism now :
  let concurrency := worker_concurrency parallelism in
  (forall s, rtc (pool_step transform_image concurrency) (pool_start concurrency now) s ->
     (forall i j answer, p_tasks s !! i = Some (j, Finished answer) ->
        match transform_in_worker_result j answer with
        | Ok image =>
            exists t, transform_image j = Ok t
              /\ image = mkImage (ti_bytes t) (content_type_for_format (ti_format t)) (ti_format t) (ti_width t) (ti_height t)
              /\ (ti_format t = to_format (j_options j) \/ (to_format (j_options j) = Avif /\ ti_format t = Webp))
        | Err e => transform_image j = Err e \/ e = TransformFailed \/ e = TransformQueueFull
        end)
     /\ (Z.of_nat (length (p_workers s)) + how_many has_worker s <= 2)%Z
     /\ (Z.of_nat (p_permits s) + how_many holds_permit s = Z.of_nat concurrency)%Z
     /\ Z.of_nat (p_queue_depth s) = how_many is_queued s
     /\ p_queue_depth s <= IMAGE_WORKER_QUEUE_CAPACITY)
  /\ (forall actions s i j answer,
     pool_run transform_image concurrency actions (pool_start concurrency now) = Some s ->
     Forall (fun a => disturbs i a = false) actions -> fits transform_image j ->
     p_tasks s !! i = Some (j, Finished answer) ->
     transform_in_worker_result j answer = transformation j
     \/ answer = Err TransformQueueFull
        /\ exists before after s1, actions = before ++ after
             /\ pool_run transform_image concurrency before (pool_start concurrency now) = Some s1
             /\ p_queue_depth s1 = IMAGE_WORKER_QUEUE_CAPACITY)
  /\ (forall s i j st, rtc (pool_step transform_image concurrency) (pool_start concurrency now) s ->
     p_tasks s !! i = Some (j, st) -> fits transform_image j -> can_go s st ->
     exists actions s' answer, Forall (fun a => own i a = true) actions
       /\ pool_run transform_image concurrency actions s = Some s'
       /\ p_tasks s' !! i = Some (j, Finished answer)
       /\ transform_in_worker_result j answer = transformation j).
Proof.
  intros concurrency. pose proof (worker_concurrency_bounds parallelism) as Hc. fold concurrency in Hc.
  unfold IMAGE_WORKER_MIN_CONCURRENCY, IMAGE_WORKER_MAX_CONCURRENCY in Hc. split_and!.
  - intros s [Hp Hq Hcap Hw _ Ht]%pool_reachable. split_and!; [|unfold how_many; lia|done..].
    intros i j answer Hi. specialize (Ht _ _ _ Hi). cbn in Ht. destruct answer as [output|e]; cbn in Ht; [subst output|cbn; tauto].
    rewrite (decode_answer_of_job transform_image (JL := JL) (BL := BL)). destruct (transform_image j) as [t|e]; [|by left].
    destruct (worker_output_format_matches_request _ _) eqn:Hm; [|by right; left]. exists t. split_and!; [done..|].
    unfold worker_output_format_matches_request in Hm. rewrite orb_true_iff, andb_true_iff, !bool_decide_eq_true in Hm. tauto.
  - intros actions s i j answer Hr Hall Hfit Hi.
    destruct (undisturbed_run transform_image concurrency actions i _ _ Hr (pool_inv_start _ _ now) Hall) as [Hinv Hnf]; [intros ? ? H; cbn in H; by apply lookup_empty_Some in H|].
    specialize (Hnf _ _ Hi Hfit). pose proof (pi_tasks _ _ _ Hinv _ _ _ Hi) as Hok.
    destruct answer as [output|e]; cbn in Hok, Hnf; [left; subst output; by apply answer_is_transformation|right; subst e; split; [done|]].
    destruct (refused_place_run transform_image concurrency actions i _ _ Hr) as [(j' & st & H & _)|(before & after & s1 & -> & Hb & Hfull)].
    { by exists j, (Finished (Err TransformQueueFull)). }
    { cbn in H; by apply lookup_empty_Some in H. }
    exists before, after, s1. split_and!; [done..|]. pose proof (pool_reachable _ _ now s1 (pool_run_steps _ _ _ _ Hb)) as [_ _ Hcap _ _ _]. lia.
  - intros s i j st Hr Hi Hfit Hgo. apply pool_reachable in Hr.
    destruct (task_arrives transform_image concurrency i j st s Hfit Hr Hi Hgo) as (actions & s' & Hall & Hrun & Hi').
    exists actions, s', (Ok (respond transform_image (request_bytes j))). split_and!; [done..|by apply answer_is_transformation].
Qed.
End Spec.

(** ** An instance *)

(** Messages as the digits of their numbers. *)
Fixpoint bits (p : positive) : str :=
  match p with xH => [] | xO p' => "0"%char :: bits p' | xI p' => "1"%char :: bits p' end.

Fixpoint unbits (s : str) : option positive :=
  match s with
  | [] => Some xH
  | c :: s' => let! p := unbits s' in if bool_decide (c = "0"%char) then Some (xO p) else Some (xI p)
  end.

Lemma unbits_bits p : unbits (bits p) = Some p.
Proof. induction p as [p IH|p IH|]; cbn; [by rewrite IH..|done]. Qed.

#[local] Instance OutputFormat_countable : Countable OutputFormat.
Proof. refine (inj_countable' (fun f => match f with Avif => true | Webp => false end) (fun b : bool => if b then Avif else Webp) _). by intros []. Defined.

#[local] Instance WorkerRequest_eq_dec : EqDecision WorkerRequest.
Proof. unfold EqDecision. unfold Decision. repeat decide equality. Defined.
#[local] Instance WorkerResponse_eq_dec : EqDecision WorkerResponse.
Proof. unfold EqDecision. unfold Decision. repeat decide equality. Defined.

#[local] Instance WorkerRequest_countable : Countable WorkerRequest.
Proof.
  refine (inj_countable'
    (fun r => (((wr_source_base64 r, wr_source_content_type r, (wr_format r, wr_width r)), (wr_height r, wr_fit r, (wr_crop r, wr_quality r))),
               (wl_max_source_bytes (wr_limits r), wl_max_image_width (wr_limits r), (wl_max_image_height (wr_limits r), wl_max_decoded_pixels (wr_limits r)))))
    (fun '(((a, b, (c, d)), (e, f, (g, h))), (i, j, (k, l))) => mkWorkerRequest a b c d e f g h (mkWorkerLimits i j k l)) _).
  by intros [? ? ? ? ? ? ? ? []].
Defined.

#[local] Instance WorkerResponse_countable : Countable WorkerResponse.
Proof.
  refine (inj_countable'
    (fun r => match r with ResponseOk a b c d => inl (a, (b, (c, d))) | ResponseError e => inr e end)
    (fun x : str * (OutputFormat * (Z * Z)) + str => match x with inl (a, (b, (c, d))) => ResponseOk a b c d | inr e => ResponseError e end) _).
  by intros [].
Defined.

Definition demo_worker_json : WorkerJson := {|
  request_to_vec r := bits (encode r);
  request_from_slice s := let! p := unbits s in decode p;
  response_to_vec r := bits (encode r);
  response_from_slice s := let! p := unbits s in decode p;
|}.

Lemma demo_worker_json_laws : WorkerJsonLaws demo_worker_json.
Proof. split; intros r; cbn; rewrite unbits_bits; apply decode_encode. Qed.

Definition demo_base64 : StandardBase64 := {| std_encode s := s; std_decode s := Some s |}.

Lemma demo_base64_laws : StandardBase64Laws demo_base64.
Proof. by split. Qed.

Definition demo_transform (j : Job) : result TransformedImage ImageError :=
  Ok (mkImage (rev (j_source j)) (bs "image/webp") Webp (to_width (j_options j)) 1).

Definition demo_job : Job := mkJob (bs "ab") None (mkTransform Webp 16 None None None 75) TransformLimits_default.

Definition demo_job2 : Job := mkJob (bs "cde") None (mkTransform Webp 16 None None None 75) TransformLimits_default.

Definition demo_pool_run := pool_run (J := demo_worker_json) (B := demo_base64) demo_transform (worker_concurrency (Some 8)).
Definition demo_pool_start : Pool := pool_start (worker_concurrency (Some 8)) 0.

(** The first request is served by a worker that it starts, up to the byte. *)
Definition demo_first : list Action :=
  [Begin 0 demo_job; Try 0; Checkout 0 (fun _ => true); Spawn 0 true; WriteBytes 0 10; WriteBytes 0 1000; ReadBytes 0 4; ReadBytes 0 1000; Checkin 0; Leave 0].

(** The second request takes that worker, and the whole run leaves it undisturbed; from any
    state after it begins, it can be served. *)
Lemma worker_results_are_transformations_witness :
  (exists s w rest, demo_pool_run (demo_first ++ [Begin 1 demo_job2; Try 1; Checkout 1 (fun _ => true)]) demo_pool_start = Some s
     /\ p_tasks s !! 1 = Some (demo_job2, Writing w rest) /\ wp_taken w <> []
     /\ exists actions s' answer, demo_pool_run actions s = Some s' /\ p_tasks s' !! 1 = Some (demo_job2, Finished answer)
        /\ transform_in_worker_result (J := demo_worker_json) (B := demo_base64) demo_job2 answer = Ok (mkImage (bs "edc") (bs "image/webp") Webp 16 1))
  /\ (exists s answer, demo_pool_run demo_first demo_pool_start = Some s /\ p_tasks s !! 0 = Some (demo_job, Finished answer)
     /\ transform_in_worker_result (J := demo_worker_json) (B := demo_base64) demo_job answer = Ok (mkImage (bs "ba") (bs "image/webp") Webp 16 1)).
Proof.
  destruct (worker_results_are_transformations (JL := demo_worker_json_laws) (BL := demo_base64_laws) demo_transform (Some 8) 0) as (_ & Hexact & Hserved).
  assert (Hfit : forall j, j = demo_job \/ j = demo_job2 -> fits (J := demo_worker_json) (B := demo_base64) demo_transform j).
  { intros j [-> | ->]; split; eexists; vm_compute; reflexivity. }
  split.
  - destruct (demo_pool_run (demo_first ++ [Begin 1 demo_job2; Try 1; Checkout 1 (fun _ => true)]) demo_pool_start) as [s|] eqn:Hr; [|vm_compute in Hr; discriminate Hr].
    assert (Hw : exists w rest, p_tasks s !! 1 = Some (demo_job2, Writing w rest) /\ wp_taken w <> []).
    { pose proof Hr as Hr'. vm_compute in Hr'. injection Hr' as <-. eexists _, _. split; [vm_compute; reflexivity|done]. }
    destruct Hw as (w & rest & Hw & Hne). exists s, w, rest. split_and!; [done..|].
    destruct (Hserved s 1 demo_job2 (Writing w rest)) as (actions & s' & answer & _ & Hrun & Hi & Hres); [by apply pool_run_steps in Hr|exact Hw|by apply Hfit; right|exact I|].
    exists actions, s', answer. split_and!; [exact Hrun|exact Hi|exact Hres].
  - destruct (demo_pool_run demo_first demo_pool_start) as [s|] eqn:Hr; [|vm_compute in Hr; discriminate Hr].
    assert (Hi : exists answer, p_tasks s !! 0 = Some (demo_job, Finished (Ok answer))).
    { pose proof Hr as Hr'. vm_compute in Hr'. injection Hr' as <-. eexists. vm_compute. reflexivity. }
    destruct Hi as [answer Hi]. exists s, (Ok answer). split_and!; [done..|].
    destruct (Hexact demo_first s 0 demo_job (Ok answer) Hr) as [H|[H _]]; [repeat constructor|by apply Hfit; left|exact Hi|exact H|discriminate H].
Defined.
