(* ===== verification/ImageServe.v ===== *)
(** * Serving images (tako-server/src/proxy/service/image.rs)

    The handler of image requests: verification, the slot, the source (from the static files
    of the app, one of its instances, or another host), the cache of transformations, the
    worker, the response.  Everything outside the handler is a call, whose answer may depend
    on all that happened before: a world answers calls, and the handler runs in any world.
    It returns the history of calls with its answer, so that theorems can speak of what was
    asked of whom. *)

From S2P Require Import Prelude RustStr Net Codec Enrollment StaticFiles Instances Request ProxyProtocol ImageSource Images ImageCache SourceCache ImageWorker.

(** ** The HTTP client (reqwest) *)

Record HttpClient := mkClient {
  c_proxy : bool;
  c_redirects : bool;
  c_connect_timeout : Z;
  c_timeout : Z;
  (** [resolve_to_addrs]: the addresses of a host, instead of asking the resolver. *)
  c_resolved : option (str * list SocketAddr);
}.

(** Seconds. *)
Definition image_http_client_builder (resolved : option (str * list SocketAddr)) : HttpClient := mkClient false false 3 10 resolved.
Definition image_http_client : HttpClient := image_http_client_builder None.
Definition guarded_image_http_client (host : str) (addrs : list SocketAddr) : HttpClient := image_http_client_builder (Some (host, addrs)).

Record HttpResponse := mkResponse {
  r_status : Z;
  r_content_length : option Z;
  r_content_type : option str;
  (** The chunks of the body; [None] where reading fails. *)
  r_chunks : list (option str);
}.

(** [Url::port_or_known_default]. *)
Class UrlPortApi := { port_or_known_default : Url -> option Z }.

(** ** Calls *)

Inductive LookupAnswer := LookupTimeout | LookupFailed | LookupAddrs (addrs : list SocketAddr).

(** An instance and the text of its endpoint. *)
Record ServeBackend := mkBackend { b_instance : str; b_endpoint : option str }.

Inductive Call : Type -> Type :=
| Observe (result : str) : Call unit
| GetApp (name : str) : Call (option (str * ImagesConfig))
| TryAcquireSlot : Call bool
| FindSource (key : str) : Call (option ImageSourceBytes)
| InsertSource (key : str) (source : ImageSourceBytes) : Call unit
| StaticAvailable (app_root : str) : Call bool
| StaticResolve (app_root path : str) : Call (result (nat * str) StaticFileError)
| ReadFile (handle : nat) : Call (list (option str))
| ResolveBackend (app_name : str) : Call (option ServeBackend)
| RequestStarted (instance : str) : Call unit
| RequestFinished (instance : str) : Call unit
| LookupHost (host : str) (port : Z) : Call LookupAnswer
| BuildClient (client : HttpClient) : Call bool
| Send (client : HttpClient) (url : str) (host : option str) : Call (option HttpResponse)
| ReadCache (key : str) (format : OutputFormat) : Call (option CachedTransform)
| AcquireLease (key : str) : Call bool
| WaitForOwner (key : str) : Call unit
| DropLease (key : str) : Call unit
| TransformInWorker (app_name : str) (job : Job) : Call (result TransformedImage ImageError)
| WriteCache (key bytes : str) : Call unit.

Inductive Event := Happened (A : Type) (call : Call A) (answer : A).
Arguments Happened {A} call answer.

Definition World : Type := forall A, list Event -> Call A -> A.
Definition M (A : Type) : Type := list Event -> list Event * A.

Definition ret {A} (a : A) : M A := fun h => (h, a).
Definition bind {A B} (m : M A) (k : A -> M B) : M B := fun h => let '(h', a) := m h in k a h'.
(** [?]: an error returns early. *)
Definition bind_ok {A B E} (m : M (result A E)) (k : A -> M (result B E)) : M (result B E) :=
  bind m (fun x => match x with Ok a => k a | Err e => ret (Err e) end).

Declare Scope serve_scope.
Delimit Scope serve_scope with serve.
Notation "'do' x <- m ; k" := (bind m (fun x => k)) (at level 20, x pattern, m at level 100, k at level 200, right associativity) : serve_scope.
Notation "'do?' x <- m ; k" := (bind_ok m (fun x => k)) (at level 20, x pattern, m at level 100, k at level 200, right associativity) : serve_scope.
Open Scope serve_scope.

(** ** Bodies *)

Definition append_limited_body_chunk (bytes chunk : str) (max_bytes : Z) : result str ImageError :=
  let next_len := (Z.of_nat (length bytes) + Z.of_nat (length chunk))%Z in
  if (u64_max <? next_len)%Z then Err SourceTooLarge
  else if (max_bytes <? next_len)%Z then Err SourceTooLarge
  else Ok (bytes ++ chunk).

Fixpoint read_response_body_limited (chunks : list (option str)) (bytes : str) (max_bytes : Z) : result str ImageError :=
  match chunks with
  | [] => Ok bytes
  | None :: _ => Err TransformFailed
  | Some chunk :: chunks' =>
      let? bytes := append_limited_body_chunk bytes chunk max_bytes in
      read_response_body_limited chunks' bytes max_bytes
  end.

(** The reads of a file up to its end; an empty read is the end. *)
Fixpoint read_file_limited (reads : list (option str)) (bytes : str) (max_bytes : Z) : result str ImageError :=
  match reads with
  | [] => Ok bytes
  | None :: _ => Err InvalidSource
  | Some buffer :: reads' =>
      if bool_decide (buffer = []) then Ok bytes
      else if (max_bytes <? Z.of_nat (length bytes) + Z.of_nat (length buffer))%Z then Err SourceTooLarge
      else read_file_limited reads' (bytes ++ buffer) max_bytes
  end.

(** ** Responses *)

Definition IMAGE_ERROR_CACHE_CONTROL : str := bs "private, no-store".

Record ImageResponseBody := mkBody { ib_bytes : str; ib_content_type : str; ib_cacheable : bool }.

Definition from_transformed (t : TransformedImage) : ImageResponseBody := mkBody (ti_bytes t) (ti_content_type t) true.
Definition from_cached (c : CachedTransform) : ImageResponseBody := mkBody (ct_bytes c) (ct_content_type c) true.

Record Response := mkHttp { http_status : Z; http_headers : list (str * str); http_body : option str }.

(** What the handler does with a request: nothing, an answer, or it still waits for another
    request to transform the image. *)
Inductive Outcome := NotHandled | Answer (r : Response) | StillWaiting.

Definition write_image_error (status : Z) (body : str) : Outcome :=
  Answer (mkHttp status
    [(bs "Cache-Control", IMAGE_ERROR_CACHE_CONTROL); (bs "Content-Type", bs "text/plain"); (bs "Content-Length", show_Z (Z.of_nat (length body)))] (Some body)).

Definition image_error_status (error : ImageError) : Z :=
  match error with
  | InvalidUrl | InvalidSource | InvalidWidth | InvalidHeight | InvalidResize | InvalidQuality | InvalidBrowserCacheMaxAge => 400
  | InvalidSignature | Expired => 403
  | SourceTooLarge | ImageTooLarge => 413
  | UnsupportedFormat => 415
  | TransformFailed => 502
  | TransformQueueFull => 503
  end.

Definition image_error_body (status : Z) : str :=
  (if status =? 400 then bs "Bad Request"
   else if status =? 403 then bs "Forbidden"
   else if status =? 405 then bs "Method Not Allowed"
   else if status =? 413 then bs "Payload Too Large"
   else if status =? 415 then bs "Unsupported Media Type"
   else if status =? 502 then bs "Bad Gateway"
   else if status =? 503 then bs "Service Unavailable"
   else bs "Internal Server Error")%Z.

Definition is_image_content_type (content_type : str) : bool :=
  let media_type := trim (default [] (head (split ";"%char content_type))) in
  (6 <? length media_type)%nat && eq_ignore_ascii_case (take 6 media_type) (bs "image/").

Definition is_image_request_path (path : str) : bool := str_eqb path PUBLIC_IMAGE_BASE_PATH.

Section Handler.
Context {H : Sha256Api} {U : UrlApi} {P : UrlPortApi} {F : FormApi}.
Variable world : World.

Definition call {A} (c : Call A) : M A := fun h => let a := world A h c in (h ++ [Happened c a], a).

Definition image_etag (bytes content_type : str) : str :=
  of_byte 34 :: hex (sha256 (bs "tako-image-response-v1" ++ of_byte 10 :: content_type ++ of_byte 10 :: bytes)) ++ [of_byte 34].

Definition source_cache_key (app_name app_root : str) (source : ImageSource) (host : str) (matched_route_path : option str) : str :=
  hex (sha256 (bs "tako-image-source-v1" ++ field "app" ++ app_name ++ field "root" ++ app_root ++
    match source with
    | LocalPath path => field "local" ++ path ++ field "host" ++ host ++ field "route" ++ default [] matched_route_path
    | RemoteUrl url => field "remote" ++ url
    end)).

(** ** Sources *)

Definition fetch_image_source (client : HttpClient) (url : str) (host_header : option str) (limits : TransformLimits)
  : M (result ImageSourceBytes ImageError) :=
  do sent <- call (Send client url host_header);
  match sent with
  | None => ret (Err TransformFailed)
  | Some response =>
      if negb ((200 <=? r_status response) && (r_status response <? 300))%Z then ret (Err InvalidSource)
      else if match r_content_length response with Some len => (max_source_bytes limits <? len)%Z | None => false end then ret (Err SourceTooLarge)
      else
        ret (match read_response_body_limited (r_chunks response) [] (max_source_bytes limits) with
             | Ok bytes => Ok (mkSourceBytes bytes (r_content_type response))
             | Err e => Err e
             end)
  end.

Inductive RemoteFetchTarget := IpLiteral | Resolved (host : str) (addrs : list SocketAddr).

Definition validate_remote_resolved_addrs (addrs : list SocketAddr) : result unit ImageError :=
  if bool_decide (addrs = []) || any (fun addr => ip_is_private_or_local addr.1) addrs then Err InvalidSource else Ok tt.

Definition resolve_remote_addrs (host : str) (port : Z) : M (result (list SocketAddr) ImageError) :=
  do found <- call (LookupHost host port);
  ret (match found with
       | LookupTimeout => Err TransformFailed
       | LookupFailed => Err InvalidSource
       | LookupAddrs addrs => let? _ := validate_remote_resolved_addrs addrs in Ok addrs
       end).

Definition resolve_target (url : str) : M (result RemoteFetchTarget ImageError) :=
  match url_parse url with
  | None => ret (Err InvalidSource)
  | Some parsed =>
      match url_host_str parsed with
      | None => ret (Err InvalidSource)
      | Some host =>
          match parse_ip host with
          | Some _ => ret (Ok IpLiteral)
          | None =>
              match port_or_known_default parsed with
              | None => ret (Err InvalidSource)
              | Some port =>
                  do? addrs <- resolve_remote_addrs host port;
                  ret (Ok (Resolved host addrs))
              end
          end
      end
  end.

Definition fetch_remote_image_source (url : str) (limits : TransformLimits) : M (result ImageSourceBytes ImageError) :=
  do? target <- resolve_target url;
  match target with
  | IpLiteral => fetch_image_source image_http_client url None limits
  | Resolved host addrs =>
      let client := guarded_image_http_client host addrs in
      do built <- call (BuildClient client);
      if built then fetch_image_source client url None limits else ret (Err TransformFailed)
  end.

Fixpoint static_image_loop (app_root : str) (lookup_paths : list str) (limits : TransformLimits)
  : M (result (option ImageSourceBytes) ImageError) :=
  match lookup_paths with
  | [] => ret (Ok None)
  | lookup_path :: lookup_paths' =>
      do resolved <- call (StaticResolve app_root lookup_path);
      match resolved with
      | Ok (handle, content_type) =>
          do reads <- call (ReadFile handle);
          ret (match read_file_limited reads [] (max_source_bytes limits) with
               | Ok bytes => Ok (Some (mkSourceBytes bytes (Some content_type)))
               | Err e => Err e
               end)
      | Err (NotFound _) | Err (Io _) => static_image_loop app_root lookup_paths' limits
      | Err (PathTraversal _) | Err (InvalidPath _) => ret (Err InvalidSource)
      end
  end.

Definition load_static_image_source (app_root path : str) (matched_route_path : option str) (limits : TransformLimits)
  : M (result (option ImageSourceBytes) ImageError) :=
  do available <- call (StaticAvailable app_root);
  if negb available then ret (Ok None)
  else static_image_loop app_root (static_lookup_paths path matched_route_path) limits.

Definition fetch_backend_image_source (app_name path host : str) (limits : TransformLimits) : M (result ImageSourceBytes ImageError) :=
  do resolved <- call (ResolveBackend app_name);
  match resolved with
  | None => ret (Err TransformFailed)
  | Some backend =>
      match b_endpoint backend with
      | None => ret (Err TransformFailed)
      | Some endpoint =>
          let url := bs "http://" ++ endpoint ++ path in
          let host := if bool_decide (host = []) then internal_app_host_for_app_id app_name else host in
          do _ <- call (RequestStarted (b_instance backend));
          do fetched <- fetch_image_source image_http_client url (Some host) limits;
          do _ <- call (RequestFinished (b_instance backend));
          ret fetched
      end
  end.

Definition load_image_source_uncached (app_name app_root : str) (source : ImageSource) (host : str) (matched_route_path : option str)
  (limits : TransformLimits) : M (result ImageSourceBytes ImageError) :=
  match source with
  | LocalPath path =>
      do? found <- load_static_image_source app_root path matched_route_path limits;
      match found with
      | Some source => ret (Ok source)
      | None => fetch_backend_image_source app_name path host limits
      end
  | RemoteUrl url => fetch_remote_image_source url limits
  end.

(** [get_or_load] finds the source in the cache, at once or after another request loaded it,
    or loads it. *)
Definition load_image_source (app_name app_root : str) (source : ImageSource) (host : str) (matched_route_path : option str)
  (limits : TransformLimits) : M (result ImageSourceBytes ImageError) :=
  let key := source_cache_key app_name app_root source host matched_route_path in
  do found <- call (FindSource key);
  match found with
  | Some source => ret (Ok source)
  | None =>
      do? loaded <- load_image_source_uncached app_name app_root source host matched_route_path limits;
      do _ <- call (InsertSource key loaded);
      ret (Ok loaded)
  end.

(** ** Transformation *)

Definition image_response_body_from_transform_error (error : ImageError) (source : ImageSourceBytes) : result ImageResponseBody ImageError :=
  if negb (bool_decide (error = TransformFailed)) then Err error
  else
    match sb_content_type source with
    | Some content_type =>
        if is_image_content_type content_type then Ok (mkBody (sb_bytes source) content_type false) else Err TransformFailed
    | None => Err TransformFailed
    end.

Definition transform_as_owner (app_name : str) (source : ImageSourceBytes) (options : TransformOptions) (limits : TransformLimits) (cache_key : str)
  : M (result ImageResponseBody ImageError) :=
  do cached <- call (ReadCache cache_key (to_format options));
  match cached with
  | Some cached => ret (Ok (from_cached cached))
  | None =>
      do transformed <- call (TransformInWorker app_name (mkJob (sb_bytes source) (sb_content_type source) options limits));
      match transformed with
      | Ok transformed =>
          do _ <- call (WriteCache cache_key (ti_bytes transformed));
          ret (Ok (from_transformed transformed))
      | Err error => ret (image_response_body_from_transform_error error source)
      end
  end.

(** Each round waits for the request that transforms the image, and there is one whenever the
    lease is not free; after [rounds] of them the handler is still waiting. *)
Fixpoint transform_uncached_image (rounds : nat) (app_name : str) (source : ImageSourceBytes) (options : TransformOptions)
  (limits : TransformLimits) (cache_key : str) : M (option (result ImageResponseBody ImageError)) :=
  match rounds with
  | O => ret None
  | S rounds' =>
      do owner <- call (AcquireLease cache_key);
      if owner : bool then
        do body <- transform_as_owner app_name source options limits cache_key;
        do _ <- call (DropLease cache_key);
        ret (Some body)
      else
        do _ <- call (WaitForOwner cache_key);
        do cached <- call (ReadCache cache_key (to_format options));
        match cached with
        | Some cached => ret (Some (Ok (from_cached cached)))
        | None => transform_uncached_image rounds' app_name source options limits cache_key
        end
  end.

(** ** The handler *)

Record ImageRequest := mkImageRequest {
  ir_method : str;
  ir_app_name : str;
  ir_path : str;
  ir_query : option str;
  ir_accept : option str;
  ir_host : str;
  ir_matched_route_path : option str;
}.

Definition image_response (verified : VerifiedImageRequest) (is_head : bool) (body : ImageResponseBody) : Response :=
  mkHttp 200
    ([(bs "Content-Type", ib_content_type body);
      (bs "Content-Length", show_Z (Z.of_nat (length (ib_bytes body))));
      (bs "Cache-Control", if ib_cacheable body then cache_control (req_visibility verified) (req_max_age verified) else IMAGE_ERROR_CACHE_CONTROL)]
     ++ (if req_vary_accept verified then [(bs "Vary", bs "Accept")] else [])
     ++ [(bs "ETag", image_etag (ib_bytes body) (ib_content_type body))])
    (if is_head then None else Some (ib_bytes body)).

Definition fail_with (error : ImageError) : M Outcome :=
  do _ <- call (Observe (bs "error"));
  let status := image_error_status error in
  ret (write_image_error status (image_error_body status)).

Definition options_of (verified : VerifiedImageRequest) : TransformOptions :=
  mkTransform (req_format verified) (req_width verified) (req_height verified) (req_fit verified) (req_crop verified) (req_quality verified).

(** From the source on. *)
Definition respond_with_source (rounds : nat) (r : ImageRequest) (app_root : str) (verified : VerifiedImageRequest) (is_head : bool)
  (source : ImageSourceBytes) : M Outcome :=
  let options := options_of verified in
  let cache_key := transform_cache_key (ir_app_name r) app_root (sb_bytes source) options in
  do cached <- call (ReadCache cache_key (to_format options));
  match cached with
  | Some cached =>
      do _ <- call (Observe (bs "hit"));
      ret (Answer (image_response verified is_head (from_cached cached)))
  | None =>
      do transformed <- transform_uncached_image rounds (ir_app_name r) source options TransformLimits_default cache_key;
      match transformed with
      | None => ret StillWaiting
      | Some (Ok body) =>
          do _ <- call (Observe (if ib_cacheable body then bs "miss" else bs "fallback"));
          ret (Answer (image_response verified is_head body))
      | Some (Err error) => fail_with error
      end
  end.

Definition try_handle_image_request (rounds : nat) (r : ImageRequest) : M Outcome :=
  if negb (is_image_request_path (ir_path r)) then ret NotHandled
  else
    do _ <- call (Observe (bs "pending"));
    let is_head := str_eqb (ir_method r) (bs "HEAD") in
    if negb (str_eqb (ir_method r) (bs "GET")) && negb is_head then
      do _ <- call (Observe (bs "error"));
      ret (write_image_error 405 (bs "Method Not Allowed"))
    else
      do app <- call (GetApp (ir_app_name r));
      match app with
      | None =>
          do _ <- call (Observe (bs "error"));
          ret (write_image_error 404 (bs "Not Found"))
      | Some (app_root, images) =>
          match verify_public_image_request (ir_path r) (ir_query r) (ir_accept r) images with
          | Err error => fail_with error
          | Ok verified =>
              do permit <- call TryAcquireSlot;
              if negb permit then ret (write_image_error 503 (bs "Service Unavailable"))
              else
                do loaded <- load_image_source (ir_app_name r) app_root (req_source verified) (ir_host r) (ir_matched_route_path r) TransformLimits_default;
                match loaded with
                | Err error => fail_with error
                | Ok source => respond_with_source rounds r app_root verified is_head source
                end
          end
      end.
End Handler.
