(* ===== verification/ImageServeSpec.v ===== *)
(** * What the handler of image requests may do, and what it answers

    [may] says for every call when the handler may make it.  The rules of [runs] reduce a
    computation to its calls, and the lemmas follow the functions of the handler: in every
    world, every call is one that may be made, and the answer is an error that is not cached,
    or an image of the configured transformation of the source. *)

From S2P Require Import Prelude RustStr Net Codec Sql Enrollment StaticFiles Instances Request ProxyProtocol ImageSource Images ImageProps ImageCache SourceCache ImageWorker ImageServe.

(** ** The client and the URLs *)

(** What reqwest and the url crate document: a client without proxy and redirects connects to
    the address in the URL, or to the addresses it was given for its host; the host of an HTTP
    URL is an address exactly if it reads as one. *)
Class ClientApi := { contacts : HttpClient -> Url -> IpAddr -> Prop }.

Class ClientLaws (U : UrlApi) (C : ClientApi) := {
  contacts_address client url ip : c_proxy client = false -> c_redirects client = false ->
    contacts client url ip ->
    match url_host url with
    | Some (HostIpv4 o) => ip = V4 o
    | Some (HostIpv6 g) => ip = V6 g
    | Some (HostDomain d) => match c_resolved client with Some (host, addrs) => host = d -> ip ∈ addrs.*1 | None => True end
    | None => False
    end;
  url_domain text url d : url_parse text = Some url -> url_scheme url = bs "http" \/ url_scheme url = bs "https" ->
    url_host url = Some (HostDomain d) -> url_host_str url = Some d /\ parse_ip d = None;
}.

Section Spec.
Context {H : Sha256Api} {U : UrlApi} {P : UrlPortApi} {F : FormApi} {C : ClientApi} {CL : ClientLaws U C}.
Variable world : World.
Variable r : ImageRequest.

(** ** What may be done *)

Definition MAX_SOURCE : Z := max_source_bytes TransformLimits_default.

Definition has_slot (h : list Event) : Prop := Happened TryAcquireSlot true ∈ h.

(** The request was accepted under the configuration of its app. *)
Definition accepted (h : list Event) (app_root : str) (v : VerifiedImageRequest) : Prop :=
  exists images, Happened (GetApp (ir_app_name r)) (Some (app_root, images)) ∈ h
    /\ verify_public_image_request (ir_path r) (ir_query r) (ir_accept r) images = Ok v.

(** A source that this request loaded within the limit, or that was found in the cache. *)
Definition source_known (h : list Event) (source : ImageSourceBytes) : Prop :=
  (Z.of_nat (length (sb_bytes source)) <= MAX_SOURCE)%Z \/ exists key, Happened (FindSource key) (Some source) ∈ h.

Definition may_send (h : list Event) (client : HttpClient) (url : str) (host : option str) : Prop :=
  c_proxy client = false /\ c_redirects client = false
  /\ exists app_root v, accepted h app_root v
     /\ match req_source v with
        | LocalPath path =>
            exists backend endpoint, Happened (ResolveBackend (ir_app_name r)) (Some backend) ∈ h /\ b_endpoint backend = Some endpoint
              /\ client = image_http_client /\ url = bs "http://" ++ endpoint ++ path
              /\ host = Some (if bool_decide (ir_host r = []) then internal_app_host_for_app_id (ir_app_name r) else ir_host r)
        | RemoteUrl text =>
            url = text /\ host = None
            /\ forall parsed ip, url_parse text = Some parsed -> contacts client parsed ip -> ip_is_private_or_local ip = false
        end.

Definition may (h : list Event) {A} (c : Call A) : Prop :=
  match c with
  | Observe _ | GetApp _ | TryAcquireSlot => True
  | Send client url host => has_slot h /\ may_send h client url host
  | InsertSource key source => has_slot h /\ (Z.of_nat (length (sb_bytes source)) <= MAX_SOURCE)%Z
  | TransformInWorker app_name job =>
      has_slot h /\ app_name = ir_app_name r /\ j_limits job = TransformLimits_default
      /\ exists app_root v, accepted h app_root v /\ j_options job = options_of v
           /\ source_known h (mkSourceBytes (j_source job) (j_content_type job))
  | WriteCache key bytes =>
      has_slot h
      /\ exists app_root v job t, accepted h app_root v /\ j_options job = options_of v
           /\ key = transform_cache_key (ir_app_name r) app_root (j_source job) (options_of v)
           /\ Happened (TransformInWorker (ir_app_name r) job) (Ok t) ∈ h /\ bytes = ti_bytes t
  | _ => has_slot h
  end.

(** Every call of a history was one that might be made then. *)
Definition may_happen (h : list Event) (e : Event) : Prop := match e with Happened c _ => may h c end.
Definition proper (h : list Event) : Prop := forall h1 e h2, h = h1 ++ e :: h2 -> may_happen h1 e.

Lemma proper_nil : proper [].
Proof. intros h1 e h2 Heq. by destruct h1. Qed.

Lemma proper_snoc h e : proper h -> may_happen h e -> proper (h ++ [e]).
Proof.
  intros Hp Hm h1 e' h2 Heq. destruct h2 as [|x h2 _] using rev_ind.
  - by apply app_inj_tail in Heq as [-> ->].
  - rewrite app_comm_cons, app_assoc in Heq. apply app_inj_tail in Heq as [-> _]. by eapply Hp.
Qed.

(** ** Rules *)

Definition runs {A} (h : list Event) (m : M A) (Q : list Event -> A -> Prop) : Prop :=
  proper (m h).1 /\ h `prefix_of` (m h).1 /\ Q (m h).1 (m h).2.

Lemma runs_ret {A} h (a : A) (Q : list Event -> A -> Prop) : proper h -> Q h a -> runs h (ret a) Q.
Proof. intros Hp HQ. unfold runs. by split_and!. Qed.

Lemma runs_bind {A B} h (m : M A) (k : A -> M B) Q :
  runs h m (fun h' a => proper h' -> h `prefix_of` h' -> runs h' (k a) Q) -> runs h (bind m k) Q.
Proof.
  unfold runs, bind. intros (Hp & Hpre & Hk). destruct (m h) as [h' a]. cbn in *. destruct (Hk Hp Hpre) as (? & ? & ?).
  split_and!; [done|by etrans|done].
Qed.

Lemma runs_mono {A} h (m : M A) (Q Q' : list Event -> A -> Prop) :
  runs h m Q -> (forall h' a, proper h' -> h `prefix_of` h' -> Q h' a -> Q' h' a) -> runs h m Q'.
Proof. intros (? & ? & ?) Himp. split_and!; [done..|]. by apply Himp. Qed.

Lemma runs_call {A B} h (c : Call A) (k : A -> M B) Q :
  proper h -> may h c ->
  (forall a, let h' := h ++ [Happened c a] in proper h' -> h `prefix_of` h' -> Happened c a ∈ h' -> runs h' (k a) Q) ->
  runs h (bind (call world c) k) Q.
Proof.
  intros Hp Hm Hk. apply runs_bind. unfold runs, call. cbn. assert (Hp' := proper_snoc h (Happened c (world A h c)) Hp Hm).
  split_and!; [done|by apply prefix_app_r|]. intros _ Hpre. apply Hk; [done..|set_solver].
Qed.

(** An error returns early. *)
Lemma runs_bind_ok {A B E} h (m : M (result A E)) (k : A -> M (result B E)) Q :
  runs h m (fun h' x => proper h' -> h `prefix_of` h' -> match x with Ok a => runs h' (k a) Q | Err e => Q h' (Err e) end) ->
  runs h (bind_ok m k) Q.
Proof.
  intros Hm. unfold bind_ok. apply runs_bind. eapply runs_mono; [exact Hm|]. cbn. intros h' [a|e] Hp Hpre HQ _ _; [by apply HQ|].
  apply runs_ret; [done|by apply HQ].
Qed.

(** What was known stays known. *)
Lemma happened_later (e : Event) h h' : h `prefix_of` h' -> e ∈ h -> e ∈ h'.
Proof. intros [l ->] He. set_solver. Qed.

Lemma has_slot_later h h' : h `prefix_of` h' -> has_slot h -> has_slot h'.
Proof. apply happened_later. Qed.

Lemma accepted_later h h' app_root v : h `prefix_of` h' -> accepted h app_root v -> accepted h' app_root v.
Proof. intros Hpre (images & Hin & Hv). exists images. split; [by eapply happened_later|done]. Qed.

Lemma source_known_later h h' s : h `prefix_of` h' -> source_known h s -> source_known h' s.
Proof. intros Hpre [?|[key Hin]]; [by left|right]. exists key. by eapply happened_later. Qed.

(** ** Bodies *)

(** A body that comes in chunks: all of it arrives within the limit, or it grows over the
    limit, or a read fails before it does. *)
Inductive body_read (chunks : list (option str)) (failure : ImageError) : result str ImageError -> Prop :=
| body_whole parts : chunks = Some <$> parts -> (Z.of_nat (length (concat parts)) <= MAX_SOURCE)%Z -> body_read chunks failure (Ok (concat parts))
| body_large parts rest : chunks = (Some <$> parts) ++ rest -> (MAX_SOURCE < Z.of_nat (length (concat parts)))%Z -> body_read chunks failure (Err SourceTooLarge)
| body_broken parts rest : chunks = (Some <$> parts) ++ None :: rest -> (Z.of_nat (length (concat parts)) <= MAX_SOURCE)%Z -> body_read chunks failure (Err failure).

(** A file ends with its first empty read. *)
Definition file_read (reads : list (option str)) (x : result str ImageError) : Prop :=
  exists chunks rest, reads = chunks ++ rest /\ Some [] ∉ chunks /\ (rest = [] \/ head rest = Some (Some []))
    /\ body_read chunks InvalidSource x.

Lemma up_to_end (reads : list (option str)) :
  exists chunks rest, reads = chunks ++ rest /\ Some [] ∉ chunks /\ (rest = [] \/ head rest = Some (Some [])).
Proof.
  induction reads as [|x reads (chunks & rest & -> & Hin & Hrest)]; [exists [], []; split_and!; [done|apply not_elem_of_nil|by left]|].
  destruct (decide (x = Some [])) as [->|Hne]; [exists [], (Some [] :: chunks ++ rest); split_and!; [done|apply not_elem_of_nil|by right]|].
  exists (x :: chunks), rest. split_and!; [done| |done]. rewrite elem_of_cons. naive_solver.
Qed.

Lemma body_read_le chunks failure body : body_read chunks failure (Ok body) -> (Z.of_nat (length body) <= MAX_SOURCE)%Z.
Proof. by inversion 1. Qed.

(** Both readers, with what they have read before. *)
Lemma read_response_body_limited_spec chunks : forall parts,
  (Z.of_nat (length (concat parts)) <= MAX_SOURCE)%Z ->
  body_read ((Some <$> parts) ++ chunks) TransformFailed (read_response_body_limited chunks (concat parts) MAX_SOURCE).
Proof.
  induction chunks as [|[chunk|] chunks IH]; intros parts Hle; cbn [read_response_body_limited].
  - apply (body_whole _ _ parts); [by rewrite app_nil_r|done].
  - assert (Hcat : concat (parts ++ [chunk]) = concat parts ++ chunk) by (rewrite concat_app; cbn; by rewrite app_nil_r).
    assert (Hmap : (Some <$> parts) ++ Some chunk :: chunks = (Some <$> parts ++ [chunk]) ++ chunks) by (rewrite fmap_app, <- app_assoc; done).
    rewrite Hmap. unfold append_limited_body_chunk. rewrite <- Nat2Z.inj_add, <- length_app, <- Hcat.
    destruct (u64_max <? _)%Z eqn:Hu; [|destruct (MAX_SOURCE <? _)%Z eqn:Hm].
    + apply (body_large _ _ (parts ++ [chunk]) chunks); [done|]. apply Z.ltb_lt in Hu. unfold u64_max in Hu. change MAX_SOURCE with 8388608%Z. lia.
    + apply (body_large _ _ (parts ++ [chunk]) chunks); [done|]. lia.
    + cbn. apply IH. lia.
  - by apply (body_broken _ _ parts chunks).
Qed.

Lemma read_file_limited_spec reads : forall parts,
  [] ∉ parts -> (Z.of_nat (length (concat parts)) <= MAX_SOURCE)%Z ->
  file_read ((Some <$> parts) ++ reads) (read_file_limited reads (concat parts) MAX_SOURCE).
Proof.
  assert (Hin : forall parts : list str, [] ∉ parts -> Some [] ∉ Some <$> parts).
  { intros parts Hne (x & [= <-] & Hx)%list_elem_of_fmap. done. }
  induction reads as [|[buffer|] reads IH]; intros parts Hne Hle; cbn [read_file_limited].
  - exists (Some <$> parts), []. split_and!; [done|by apply Hin|by left|]. by apply (body_whole _ _ parts).
  - case_bool_decide as Hb; [subst buffer; exists (Some <$> parts), (Some [] :: reads); split_and!; [done|by apply Hin|by right|by apply (body_whole _ _ parts)]|].
    assert (Hcat : concat (parts ++ [buffer]) = concat parts ++ buffer) by (rewrite concat_app; cbn; by rewrite app_nil_r).
    assert (Hne' : [] ∉ parts ++ [buffer]) by (rewrite elem_of_app, list_elem_of_singleton; naive_solver).
    assert (Hmap : (Some <$> parts) ++ Some buffer :: reads = (Some <$> parts ++ [buffer]) ++ reads) by (rewrite fmap_app, <- app_assoc; done).
    rewrite Hmap, <- Nat2Z.inj_add, <- length_app, <- Hcat. destruct (MAX_SOURCE <? _)%Z eqn:Hm; [|apply IH; [done|lia]].
    destruct (up_to_end reads) as (chunks & rest & -> & Hchunks & Hrest). exists ((Some <$> parts ++ [buffer]) ++ chunks), rest.
    split_and!; [by rewrite app_assoc| |done|apply (body_large _ _ (parts ++ [buffer]) chunks); [done|lia]]. rewrite elem_of_app. intros [?|?]; [by eapply Hin|done].
  - destruct (up_to_end reads) as (chunks & rest & -> & Hchunks & Hrest). exists ((Some <$> parts) ++ None :: chunks), rest.
    split_and!; [by rewrite <- app_assoc| |done|by apply (body_broken _ _ parts chunks)]. rewrite elem_of_app, elem_of_cons. intros [?|[?|?]]; [by eapply Hin|done..].
Qed.

(** ** Sources *)

(** What fetching a URL comes to. *)
Inductive fetched (h : list Event) (url : str) (host : option str) : result ImageSourceBytes ImageError -> Prop :=
| fetch_no_answer client :
    Happened (Send client url host) None ∈ h -> fetched h url host (Err TransformFailed)
| fetch_status client response :
    Happened (Send client url host) (Some response) ∈ h -> ~ (200 <= r_status response < 300)%Z -> fetched h url host (Err InvalidSource)
| fetch_announced client response len :
    Happened (Send client url host) (Some response) ∈ h -> (200 <= r_status response < 300)%Z ->
    r_content_length response = Some len -> (MAX_SOURCE < len)%Z -> fetched h url host (Err SourceTooLarge)
| fetch_failed client response e :
    Happened (Send client url host) (Some response) ∈ h -> (200 <= r_status response < 300)%Z ->
    body_read (r_chunks response) TransformFailed (Err e) -> fetched h url host (Err e)
| fetch_body client response bytes :
    Happened (Send client url host) (Some response) ∈ h -> (200 <= r_status response < 300)%Z ->
    body_read (r_chunks response) TransformFailed (Ok bytes) -> fetched h url host (Ok (mkSourceBytes bytes (r_content_type response))).

(** None of these static files is there. *)
Definition missing (h : list Event) (app_root : str) (paths : list str) : Prop :=
  Forall (fun p => exists e, Happened (StaticResolve app_root p) (Err e) ∈ h /\ match e with NotFound _ | Io _ => True | _ => False end) paths.

Definition no_static_file (h : list Event) (app_root path : str) : Prop :=
  Happened (StaticAvailable app_root) false ∈ h \/ missing h app_root (static_lookup_paths path (ir_matched_route_path r)).

(** What loading a source comes to, and why: the first static file that is there, else an
    instance of the app; for a remote URL, the public address it resolves to. *)
Inductive loaded (h : list Event) (app_root : str) : ImageSource -> result ImageSourceBytes ImageError -> Prop :=
| loaded_file path before p after handle content_type reads bytes :
    static_lookup_paths path (ir_matched_route_path r) = before ++ p :: after -> missing h app_root before ->
    Happened (StaticResolve app_root p) (Ok (handle, content_type)) ∈ h -> Happened (ReadFile handle) reads ∈ h ->
    file_read reads (Ok bytes) -> loaded h app_root (LocalPath path) (Ok (mkSourceBytes bytes (Some content_type)))
| loaded_file_failed path p handle content_type reads e :
    p ∈ static_lookup_paths path (ir_matched_route_path r) ->
    Happened (StaticResolve app_root p) (Ok (handle, content_type)) ∈ h -> Happened (ReadFile handle) reads ∈ h ->
    file_read reads (Err e) -> loaded h app_root (LocalPath path) (Err e)
| loaded_bad_path path p e :
    p ∈ static_lookup_paths path (ir_matched_route_path r) -> Happened (StaticResolve app_root p) (Err e) ∈ h ->
    match e with PathTraversal _ | InvalidPath _ => True | _ => False end -> loaded h app_root (LocalPath path) (Err InvalidSource)
| loaded_no_instance path :
    no_static_file h app_root path -> Happened (ResolveBackend (ir_app_name r)) None ∈ h -> loaded h app_root (LocalPath path) (Err TransformFailed)
| loaded_no_endpoint path backend :
    no_static_file h app_root path -> Happened (ResolveBackend (ir_app_name r)) (Some backend) ∈ h -> b_endpoint backend = None ->
    loaded h app_root (LocalPath path) (Err TransformFailed)
| loaded_instance path backend endpoint x :
    no_static_file h app_root path -> Happened (ResolveBackend (ir_app_name r)) (Some backend) ∈ h -> b_endpoint backend = Some endpoint ->
    fetched h (bs "http://" ++ endpoint ++ path) (Some (if bool_decide (ir_host r = []) then internal_app_host_for_app_id (ir_app_name r) else ir_host r)) x ->
    loaded h app_root (LocalPath path) x
| loaded_no_host url :
    (forall parsed, url_parse url = Some parsed -> url_host_str parsed = None \/ port_or_known_default parsed = None) ->
    loaded h app_root (RemoteUrl url) (Err InvalidSource)
| loaded_lookup_timeout url parsed host port :
    url_parse url = Some parsed -> url_host_str parsed = Some host -> Happened (LookupHost host port) LookupTimeout ∈ h ->
    loaded h app_root (RemoteUrl url) (Err TransformFailed)
| loaded_lookup_failed url parsed host port :
    url_parse url = Some parsed -> url_host_str parsed = Some host -> Happened (LookupHost host port) LookupFailed ∈ h ->
    loaded h app_root (RemoteUrl url) (Err InvalidSource)
| loaded_not_public url parsed host port addrs :
    url_parse url = Some parsed -> url_host_str parsed = Some host -> Happened (LookupHost host port) (LookupAddrs addrs) ∈ h ->
    addrs = [] \/ Exists (fun addr => ip_is_private_or_local addr.1 = true) addrs -> loaded h app_root (RemoteUrl url) (Err InvalidSource)
| loaded_no_client url client :
    Happened (BuildClient client) false ∈ h -> loaded h app_root (RemoteUrl url) (Err TransformFailed)
| loaded_remote url x :
    fetched h url None x -> loaded h app_root (RemoteUrl url) x.

(** Found in the cache of sources, or loaded. *)
Definition obtained (h : list Event) (app_root : str) (v : VerifiedImageRequest) (source : ImageSourceBytes) : Prop :=
  Happened (FindSource (source_cache_key (ir_app_name r) app_root (req_source v) (ir_host r) (ir_matched_route_path r))) (Some source) ∈ h
  \/ loaded h app_root (req_source v) (Ok source).

Lemma fetched_later h h' url host x : h `prefix_of` h' -> fetched h url host x -> fetched h' url host x.
Proof. intros Hpre Hf. destruct Hf; econstructor; solve [eauto using happened_later]. Qed.

Lemma missing_later h h' app_root paths : h `prefix_of` h' -> missing h app_root paths -> missing h' app_root paths.
Proof. intros Hpre Hm. eapply Forall_impl; [exact Hm|]. cbn. intros p (e & Hin & He). exists e. split; [by eapply happened_later|done]. Qed.

Lemma no_static_file_later h h' app_root path : h `prefix_of` h' -> no_static_file h app_root path -> no_static_file h' app_root path.
Proof. intros Hpre [?|?]; [left; by eapply happened_later|right; by eapply missing_later]. Qed.

Lemma loaded_later h h' app_root source x : h `prefix_of` h' -> loaded h app_root source x -> loaded h' app_root source x.
Proof.
  intros Hpre Hl. destruct Hl;
    [eapply loaded_file|eapply loaded_file_failed|eapply loaded_bad_path|eapply loaded_no_instance|eapply loaded_no_endpoint|eapply loaded_instance
    |eapply loaded_no_host|eapply loaded_lookup_timeout|eapply loaded_lookup_failed|eapply loaded_not_public|eapply loaded_no_client|eapply loaded_remote];
    first [eassumption|eapply happened_later; [exact Hpre|eassumption]|eapply missing_later; [exact Hpre|eassumption]
          |eapply no_static_file_later; [exact Hpre|eassumption]|eapply fetched_later; [exact Hpre|eassumption]].
Qed.

Lemma obtained_later h h' app_root v source : h `prefix_of` h' -> obtained h app_root v source -> obtained h' app_root v source.
Proof. intros Hpre [?|?]; [left; by eapply happened_later|right; by eapply loaded_later]. Qed.

(** What is loaded is within the limit. *)
Lemma fetched_within h url host s : fetched h url host (Ok s) -> (Z.of_nat (length (sb_bytes s)) <= MAX_SOURCE)%Z.
Proof. inversion 1; subst. cbn. by eapply body_read_le. Qed.

Lemma loaded_within h app_root source s : loaded h app_root source (Ok s) -> (Z.of_nat (length (sb_bytes s)) <= MAX_SOURCE)%Z.
Proof.
  inversion 1; subst; try by eapply fetched_within. cbn.
  match goal with Hf : file_read _ _ |- _ => destruct Hf as (? & ? & _ & _ & _ & Hb) end. by eapply body_read_le.
Qed.

Lemma fetched_body h client url host response :
  Happened (Send client url host) (Some response) ∈ h -> (200 <= r_status response < 300)%Z ->
  fetched h url host (match read_response_body_limited (r_chunks response) [] (max_source_bytes TransformLimits_default) with
                      | Ok bytes => Ok (mkSourceBytes bytes (r_content_type response))
                      | Err e => Err e
                      end).
Proof.
  intros Hin Hs. pose proof (read_response_body_limited_spec (r_chunks response) [] ltac:(done)) as Hb. cbn [fmap list_fmap app concat] in Hb.
  unfold MAX_SOURCE at 1 in Hb. destruct (read_response_body_limited _ _ _); [by eapply fetch_body|by eapply fetch_failed].
Qed.

Lemma fetch_image_source_runs h client url host :
  proper h -> has_slot h -> may_send h client url host ->
  runs h (fetch_image_source world client url host TransformLimits_default) (fun h' x => fetched h' url host x).
Proof.
  intros Hp Hslot Hmay. unfold fetch_image_source. apply runs_call; [done|by split|].
  intros [response|] h' Hp' _ Hin; [|apply runs_ret; [done|]; by eapply fetch_no_answer].
  destruct ((200 <=? r_status response) && (r_status response <? 300))%Z eqn:Hs; cbn [negb].
  - assert (200 <= r_status response < 300)%Z by lia. destruct (r_content_length response) as [len|] eqn:Hlen.
    + destruct (_ <? len)%Z eqn:Hl; (apply runs_ret; [done|]); [eapply fetch_announced; [done..|]; unfold MAX_SOURCE; lia|].
      by eapply fetched_body.
    + apply runs_ret; [done|]. by eapply fetched_body.
  - apply runs_ret; [done|]. eapply fetch_status; [done|lia].
Qed.

Lemma validate_remote_resolved_addrs_Ok addrs u :
  validate_remote_resolved_addrs addrs = Ok u -> forall ip, ip ∈ addrs.*1 -> ip_is_private_or_local ip = false.
Proof.
  unfold validate_remote_resolved_addrs. destruct (_ || _) eqn:He; [done|]. intros _ ip (addr & -> & Hin)%list_elem_of_fmap.
  apply orb_false_iff in He as [_ Hany]. rewrite any_false in Hany. exact (Hany addr Hin).
Qed.

Definition target_ok (url : str) (h : list Event) (x : result RemoteFetchTarget ImageError) : Prop :=
  match x with
  | Ok IpLiteral => exists parsed host ip, url_parse url = Some parsed /\ url_host_str parsed = Some host /\ parse_ip host = Some ip
  | Ok (Resolved host addrs) =>
      exists parsed, url_parse url = Some parsed /\ url_host_str parsed = Some host /\ forall ip, ip ∈ addrs.*1 -> ip_is_private_or_local ip = false
  | Err e => forall app_root, loaded h app_root (RemoteUrl url) (Err e)
  end.

Lemma resolve_remote_addrs_runs h url parsed host port :
  proper h -> has_slot h -> url_parse url = Some parsed -> url_host_str parsed = Some host ->
  runs h (resolve_remote_addrs world host port) (fun h' x =>
    match x with
    | Ok addrs => forall ip, ip ∈ addrs.*1 -> ip_is_private_or_local ip = false
    | Err e => forall app_root, loaded h' app_root (RemoteUrl url) (Err e)
    end).
Proof.
  intros Hp Hslot Hu Hh. unfold resolve_remote_addrs. apply runs_call; [done..|]. intros found h' Hp' _ Hin. apply runs_ret; [done|].
  destruct found as [| |addrs]; [intros ?; by eapply loaded_lookup_timeout|intros ?; by eapply loaded_lookup_failed|].
  destruct (validate_remote_resolved_addrs addrs) as [u|e] eqn:Hv; cbn; [by eapply validate_remote_resolved_addrs_Ok|].
  unfold validate_remote_resolved_addrs in Hv. destruct (_ || _) eqn:Hb; [|done]. injection Hv as <-. intros app_root.
  eapply loaded_not_public; [done..|]. apply orb_true_iff in Hb as [Hb|Hb]; [left; by apply bool_decide_eq_true in Hb|right].
  apply Exists_exists. apply any_true in Hb as (addr & Ha & Hpriv). by exists addr.
Qed.

Lemma resolve_target_runs h url : proper h -> has_slot h -> runs h (resolve_target world url) (target_ok url).
Proof.
  intros Hp Hslot. unfold resolve_target. destruct (url_parse url) as [parsed|] eqn:Hu; [|apply runs_ret; [done|]; intros ?; apply loaded_no_host; congruence].
  destruct (url_host_str parsed) as [host|] eqn:Hh; [|apply runs_ret; [done|]; intros ?; apply loaded_no_host; intros ? Hx; rewrite Hu in Hx; injection Hx as <-; by left].
  destruct (parse_ip host) as [ip|] eqn:Hip; [apply runs_ret; [done|]; by exists parsed, host, ip|].
  destruct (port_or_known_default parsed) as [port|] eqn:Hport; [|apply runs_ret; [done|]; intros ?; apply loaded_no_host; intros ? Hx; rewrite Hu in Hx; injection Hx as <-; by right].
  apply runs_bind_ok. eapply runs_mono; [by eapply resolve_remote_addrs_runs|]. cbn beta. intros h' [addrs|e] Hp' _ Hx _ _; [|done].
  apply runs_ret; [done|]. by exists parsed.
Qed.

(** The host of a remote source was accepted. *)
Lemma parse_source_remote text url :
  parse_source text = Ok (RemoteUrl url) ->
  exists parsed host, url_parse url = Some parsed /\ url_host parsed = Some host /\ host_is_private_or_local host = false
    /\ (url_scheme parsed = bs "http" \/ url_scheme parsed = bs "https").
Proof.
  unfold parse_source. destruct (_ || path_has_dot_segments text); [done|]. destruct (starts_with text (bs "/")); [by destruct (_ || starts_with text PUBLIC_IMAGE_BASE_PATH)|].
  destruct (url_parse text) as [parsed|] eqn:Hu; [|done]. cbn [ok_or]. destruct (negb _) eqn:Hs; [done|]. destruct (_ || bool_decide (is_Some (url_fragment parsed))); [done|].
  destruct (url_host parsed) as [host|] eqn:Hh; [|done]. cbn [ok_or]. destruct (host_is_private_or_local host) eqn:Hl; [done|]. intros [= <-].
  exists parsed, host. split_and!; [done..|]. apply negb_false_iff, orb_true_iff in Hs. unfold str_eqb in Hs. rewrite !bool_decide_eq_true in Hs. done.
Qed.

Lemma verified_source path query accept images v :
  verify_public_image_request path query accept images = Ok v -> exists text, parse_source text = Ok (req_source v).
Proof.
  unfold verify_public_image_request. destruct (negb _); [done|]. destruct (validate_config images); [|done]. destruct query as [query|]; [|done]. cbn [ok_or].
  destruct (parse_public_query query) as [params|]; [|done]. destruct (parse_source (q_source params)) as [source|] eqn:Hs; [|done].
  destruct (validate_public_source_allowed source _ _); [|done]. destruct (parse_public_width _ _); [|done].
  destruct (match q_quality params with Some _ => _ | None => _ end); [|done]. destruct (match q_format params with Some _ => _ | None => _ end); [|done].
  intros [= <-]. by exists (q_source params).
Qed.

(** Whatever a client that was built for a target connects to is public. *)
Lemma target_is_public url target client :
  (exists text, parse_source text = Ok (RemoteUrl url)) -> target_ok url [] (Ok target) ->
  client = match target with IpLiteral => image_http_client | Resolved host addrs => guarded_image_http_client host addrs end ->
  forall parsed ip, url_parse url = Some parsed -> contacts client parsed ip -> ip_is_private_or_local ip = false.
Proof.
  intros [text (parsed & host & Hu & Hh & Hpub & Hs)%parse_source_remote] Ht Hc parsed' ip Hu' Hcon.
  assert (parsed' = parsed) as -> by congruence.
  assert (Hplain : c_proxy client = false /\ c_redirects client = false) by (subst client; by destruct target).
  pose proof (contacts_address client parsed ip (proj1 Hplain) (proj2 Hplain) Hcon) as Hip. rewrite Hh in Hip.
  destruct host as [d|o|g]; [|by subst ip..]. destruct (url_domain url parsed d Hu Hs Hh) as [Hhs Hnone].
  destruct target as [|host addrs]; cbn in Ht.
  - destruct Ht as (p & host & ip' & Hp & Hhost & Hparse). assert (p = parsed) as -> by congruence. congruence.
  - destruct Ht as (p & Hp & Hhost & Haddrs). assert (p = parsed) as -> by congruence. subst client. cbn in Hip. apply Haddrs, Hip. congruence.
Qed.

Lemma fetch_remote_image_source_runs h app_root v url :
  proper h -> has_slot h -> accepted h app_root v -> req_source v = RemoteUrl url ->
  runs h (fetch_remote_image_source world url TransformLimits_default) (fun h' x => loaded h' app_root (RemoteUrl url) x).
Proof.
  intros Hp Hslot Hacc Hsrc. unfold fetch_remote_image_source. apply runs_bind_ok. eapply runs_mono; [by apply resolve_target_runs|].
  cbn beta. intros h1 [target|e] Hp1 Hpre1 Ht _ _; [|by apply Ht].
  assert (Hsafe : exists text, parse_source text = Ok (RemoteUrl url)).
  { destruct Hacc as (images & _ & Hv). apply verified_source in Hv as [text Ht']. exists text. congruence. }
  assert (Hmay : forall h2 client, h1 `prefix_of` h2 ->
    client = match target with IpLiteral => image_http_client | Resolved host addrs => guarded_image_http_client host addrs end ->
    may_send h2 client url None).
  { intros h2 client Hpre2 Hc. split_and!; [subst client; by destruct target..|]. exists app_root, v.
    split; [eapply accepted_later; [|exact Hacc]; by etrans|]. rewrite Hsrc. split_and!; [done..|]. by eapply target_is_public. }
  assert (Hslot1 : has_slot h1) by by eapply has_slot_later. destruct target as [|host addrs].
  - eapply runs_mono; [apply fetch_image_source_runs; [done..|]; by apply Hmay|]. intros h2 x _ _ Hf. by apply loaded_remote.
  - apply runs_call; [done..|]. intros built h2 Hp2 Hpre2 Hb. destruct built; [|apply runs_ret; [done|]; by eapply loaded_no_client].
    eapply runs_mono; [apply fetch_image_source_runs; [done|by eapply has_slot_later|]; by apply Hmay|]. intros h3 x _ _ Hf. by apply loaded_remote.
Qed.

(** The static files of the app, tried in their order. *)
Definition static_ok (h : list Event) (app_root path : str) (x : result (option ImageSourceBytes) ImageError) : Prop :=
  match x with
  | Ok (Some source) => loaded h app_root (LocalPath path) (Ok source)
  | Ok None => no_static_file h app_root path
  | Err e => loaded h app_root (LocalPath path) (Err e)
  end.

Lemma static_image_loop_runs app_root path paths : forall before h,
  proper h -> has_slot h -> static_lookup_paths path (ir_matched_route_path r) = before ++ paths -> missing h app_root before ->
  runs h (static_image_loop world app_root paths TransformLimits_default) (fun h' => static_ok h' app_root path).
Proof.
  induction paths as [|p paths IH]; intros before h Hp Hslot Hpaths Hmiss; cbn [static_image_loop].
  { apply runs_ret; [done|]. right. rewrite app_nil_r in Hpaths. by rewrite Hpaths. }
  assert (Hin : p ∈ static_lookup_paths path (ir_matched_route_path r)) by (rewrite Hpaths; set_solver).
  apply runs_call; [done..|]. intros resolved h1 Hp1 Hpre1 Hr. assert (Hslot1 : has_slot h1) by by eapply has_slot_later.
  apply (missing_later _ h1) in Hmiss; [|done].
  assert (Hnext : (exists e, resolved = Err e /\ match e with NotFound _ | Io _ => True | _ => False end) ->
    runs h1 (static_image_loop world app_root paths TransformLimits_default) (fun h' => static_ok h' app_root path)).
  { intros (e & -> & He). apply (IH (before ++ [p])); [done..|by rewrite <- app_assoc|]. apply Forall_app. split; [done|]. apply Forall_singleton. by exists e. }
  destruct resolved as [[handle ct]|[| | |]]; [|by apply Hnext; eexists|by apply runs_ret; [|by eapply loaded_bad_path]|by apply Hnext; eexists|by apply runs_ret; [|by eapply loaded_bad_path]].
  apply runs_call; [done..|]. intros reads h2 Hp2 Hpre2 Hreads. apply runs_ret; [done|].
  pose proof (read_file_limited_spec reads [] (not_elem_of_nil _) ltac:(done)) as Hf. cbn [fmap list_fmap app concat] in Hf. unfold MAX_SOURCE at 1 in Hf.
  apply (happened_later _ h1 h2) in Hr; [|done].
  destruct (read_file_limited _ _ _); cbn; [|by eapply loaded_file_failed]. eapply loaded_file; [done|by eapply missing_later|done..].
Qed.

Lemma load_static_image_source_runs app_root path h :
  proper h -> has_slot h ->
  runs h (load_static_image_source world app_root path (ir_matched_route_path r) TransformLimits_default) (fun h' => static_ok h' app_root path).
Proof.
  intros Hp Hslot. unfold load_static_image_source. apply runs_call; [done..|]. intros available h1 Hp1 Hpre1 Hav.
  destruct available; cbn [negb]; [|apply runs_ret; [done|by left]].
  apply (static_image_loop_runs app_root path _ []); [done|by eapply has_slot_later|done|constructor].
Qed.

Lemma fetch_backend_image_source_runs h app_root v path :
  proper h -> has_slot h -> accepted h app_root v -> req_source v = LocalPath path -> no_static_file h app_root path ->
  runs h (fetch_backend_image_source world (ir_app_name r) path (ir_host r) TransformLimits_default) (fun h' x => loaded h' app_root (LocalPath path) x).
Proof.
  intros Hp Hslot Hacc Hsrc Hno. unfold fetch_backend_image_source. apply runs_call; [done..|]. intros resolved h1 Hp1 Hpre1 Hb.
  apply (no_static_file_later _ h1) in Hno; [|done]. destruct resolved as [backend|]; [|apply runs_ret; [done|by apply loaded_no_instance]].
  destruct (b_endpoint backend) as [endpoint|] eqn:He; [|apply runs_ret; [done|by eapply loaded_no_endpoint]]. cbn zeta.
  assert (Hslot1 : has_slot h1) by by eapply has_slot_later. apply runs_call; [done..|]. intros [] h2 Hp2 Hpre2 _.
  assert (Hslot2 : has_slot h2) by by eapply has_slot_later. apply runs_bind. eapply runs_mono.
  - apply fetch_image_source_runs; [done..|]. split_and!; [done..|]. exists app_root, v. split; [eapply accepted_later; [|exact Hacc]; by etrans|].
    rewrite Hsrc. exists backend, endpoint. split_and!; [by eapply happened_later|done..].
  - cbn beta. intros h3 x Hp3 Hpre3 Hf _ _. apply runs_call; [done|by eapply has_slot_later|]. intros [] h4 Hp4 Hpre4 _. apply runs_ret; [done|].
    assert (h1 `prefix_of` h4) by (etrans; [|exact Hpre4]; by etrans).
    eapply loaded_instance; [by eapply no_static_file_later|by eapply happened_later|exact He|eapply (fetched_later h3); [exact Hpre4|exact Hf]].
Qed.

Lemma load_image_source_uncached_runs h app_root v :
  proper h -> has_slot h -> accepted h app_root v ->
  runs h (load_image_source_uncached world (ir_app_name r) app_root (req_source v) (ir_host r) (ir_matched_route_path r) TransformLimits_default)
    (fun h' x => loaded h' app_root (req_source v) x).
Proof.
  intros Hp Hslot Hacc. unfold load_image_source_uncached. destruct (req_source v) as [path|url] eqn:Hsrc; [|by eapply fetch_remote_image_source_runs].
  apply runs_bind_ok. eapply runs_mono; [by apply load_static_image_source_runs|]. cbn beta.
  intros h1 [[source|]|e] Hp1 Hpre1 Hx _ _; [by apply runs_ret| |done].
  eapply fetch_backend_image_source_runs; [done|by eapply has_slot_later|by eapply accepted_later|done..].
Qed.

Lemma load_image_source_runs h app_root v :
  proper h -> has_slot h -> accepted h app_root v ->
  runs h (load_image_source world (ir_app_name r) app_root (req_source v) (ir_host r) (ir_matched_route_path r) TransformLimits_default)
    (fun h' x => match x with
                 | Ok s => source_known h' s /\ obtained h' app_root v s
                 | Err e => loaded h' app_root (req_source v) (Err e)
                 end).
Proof.
  intros Hp Hslot Hacc. unfold load_image_source. cbn zeta. apply runs_call; [done..|]. intros [source|] h1 Hp1 Hpre1 Hin.
  - apply runs_ret; [done|]. split; [right; by eexists|by left].
  - assert (Hslot1 : has_slot h1) by by eapply has_slot_later. apply runs_bind_ok. eapply runs_mono.
    { apply load_image_source_uncached_runs; [done..|]. by eapply accepted_later. }
    cbn beta. intros h2 [s|e] Hp2 Hpre2 Hl _ _; [|done]. pose proof (loaded_within _ _ _ _ Hl) as Hlim.
    apply runs_call; [done|split; [by eapply has_slot_later|done]|].
    intros [] h3 Hp3 Hpre3 _. apply runs_ret; [done|]. split; [by left|right; by eapply loaded_later].
Qed.

(** ** Transformation *)

(** An image for the request: from the cache, from the worker, or the source itself when the
    worker failed on it, which is not to be cached. *)
Definition body_for (h : list Event) (app_root : str) (v : VerifiedImageRequest) (source : ImageSourceBytes) (body : ImageResponseBody) : Prop :=
  let job := mkJob (sb_bytes source) (sb_content_type source) (options_of v) TransformLimits_default in
  (exists cached, Happened (ReadCache (transform_cache_key (ir_app_name r) app_root (sb_bytes source) (options_of v)) (req_format v)) (Some cached) ∈ h
     /\ body = from_cached cached)
  \/ (exists t, Happened (TransformInWorker (ir_app_name r) job) (Ok t) ∈ h /\ body = from_transformed t)
  \/ (exists content_type, Happened (TransformInWorker (ir_app_name r) job) (Err TransformFailed) ∈ h
     /\ sb_content_type source = Some content_type /\ is_image_content_type content_type = true /\ body = mkBody (sb_bytes source) content_type false).

Lemma body_for_later h h' app_root v source body : h `prefix_of` h' -> body_for h app_root v source body -> body_for h' app_root v source body.
Proof.
  intros Hpre [(c & Hc & ->)|[(t & Ht & ->)|(ct & Ht & Hct & Hi & ->)]].
  - left. exists c. split; [by eapply happened_later|done].
  - right; left. exists t. split; [by eapply happened_later|done].
  - right; right. exists ct. split_and!; [by eapply happened_later|done..].
Qed.

(** The worker fails on a source, and the source cannot stand in for its transformation. *)
Definition transform_fails (h : list Event) (v : VerifiedImageRequest) (source : ImageSourceBytes) (e : ImageError) : Prop :=
  Happened (TransformInWorker (ir_app_name r) (mkJob (sb_bytes source) (sb_content_type source) (options_of v) TransformLimits_default)) (Err e) ∈ h
  /\ (e = TransformFailed -> forall content_type, sb_content_type source = Some content_type -> is_image_content_type content_type = false).

Lemma transform_fails_later h h' v source e : h `prefix_of` h' -> transform_fails h v source e -> transform_fails h' v source e.
Proof. intros Hpre [Hin He]. split; [by eapply happened_later|done]. Qed.

Definition transformed_ok (h : list Event) (app_root : str) (v : VerifiedImageRequest) (source : ImageSourceBytes) (x : result ImageResponseBody ImageError) : Prop :=
  match x with Ok body => body_for h app_root v source body | Err e => transform_fails h v source e end.

Lemma transformed_ok_later h h' app_root v source x : h `prefix_of` h' -> transformed_ok h app_root v source x -> transformed_ok h' app_root v source x.
Proof. intros Hpre. destruct x; [by apply body_for_later|by apply transform_fails_later]. Qed.

Definition is_wait (e : Event) : bool := match e with Happened (WaitForOwner _) _ => true | _ => false end.
Definition waits (h : list Event) : nat := length (filter (fun e => is_wait e = true) h).

Lemma waits_snoc h e : waits (h ++ [e]) = (waits h + (if is_wait e then 1 else 0))%nat.
Proof. unfold waits. rewrite filter_app, length_app. cbn. case_decide as He; [by rewrite He|]. by destruct (is_wait e). Qed.

Lemma waits_later h h' : h `prefix_of` h' -> waits h <= waits h'.
Proof. intros [l ->]. unfold waits. rewrite filter_app, length_app. lia. Qed.

Section Transform.
Variables (app_root : str) (v : VerifiedImageRequest) (source : ImageSourceBytes).
Let cache_key := transform_cache_key (ir_app_name r) app_root (sb_bytes source) (options_of v).

Lemma transform_as_owner_runs h :
  proper h -> has_slot h -> accepted h app_root v -> source_known h source ->
  runs h (transform_as_owner world (ir_app_name r) source (options_of v) TransformLimits_default cache_key)
    (fun h' => transformed_ok h' app_root v source).
Proof.
  intros Hp Hslot Hacc Hknown. unfold transform_as_owner. apply runs_call; [done..|]. intros [cached|] h1 Hp1 Hpre1 Hin.
  { apply runs_ret; [done|]. left. by exists cached. }
  assert (Hslot1 : has_slot h1) by by eapply has_slot_later. assert (Hacc1 : accepted h1 app_root v) by by eapply accepted_later.
  apply runs_call; [done| |].
  { split_and!; [done..|]. exists app_root, v. split_and!; [done..|]. eapply source_known_later; [done|]. by destruct source. }
  intros [t|error] h2 Hp2 Hpre2 Ht.
  - apply runs_call; [done| |].
    { split; [by eapply has_slot_later|]. exists app_root, v. eexists _, t. split_and!; [by eapply accepted_later| | |exact Ht|]; done. }
    intros [] h3 Hp3 Hpre3 _. apply runs_ret; [done|]. right; left. exists t. split; [by eapply happened_later|done].
  - apply runs_ret; [done|]. unfold image_response_body_from_transform_error. case_bool_decide as He; cbn [negb]; [|by split]. subst error.
    destruct (sb_content_type source) as [ct|] eqn:Hct; [|split; [by rewrite Hct|by rewrite Hct]].
    destruct (is_image_content_type ct) eqn:Hi; [|split; [by rewrite Hct|rewrite Hct; by intros _ ? [= <-]]].
    right; right. exists ct. split_and!; try done. by rewrite Hct.
Qed.

Lemma transform_uncached_image_runs rounds h :
  proper h -> has_slot h -> accepted h app_root v -> source_known h source ->
  runs h (transform_uncached_image world rounds (ir_app_name r) source (options_of v) TransformLimits_default cache_key)
    (fun h' x => match x with Some x => transformed_ok h' app_root v source x | None => waits h + rounds <= waits h' end).
Proof.
  revert h. induction rounds as [|rounds IH]; intros h Hp Hslot Hacc Hknown; cbn [transform_uncached_image]; [apply runs_ret; [done|lia]|].
  apply runs_call; [done..|]. intros owner h1 Hp1 Hpre1 _.
  assert (Hslot1 : has_slot h1) by by eapply has_slot_later. assert (Hacc1 : accepted h1 app_root v) by by eapply accepted_later.
  assert (Hknown1 : source_known h1 source) by by eapply source_known_later. destruct owner.
  - apply runs_bind. eapply runs_mono; [by apply transform_as_owner_runs|]. cbn beta. intros h2 x Hp2 Hpre2 Hx _ _.
    apply runs_call; [done|by eapply has_slot_later|]. intros [] h3 Hp3 Hpre3 _. apply runs_ret; [done|]. by eapply transformed_ok_later.
  - apply runs_call; [done..|]. intros [] h2 Hp2 Hpre2 _. assert (Hslot2 : has_slot h2) by by eapply has_slot_later.
    apply runs_call; [done..|]. intros [cached|] h3 Hp3 Hpre3 Hin; [apply runs_ret; [done|]; left; by exists cached|].
    eapply runs_mono; [apply IH; [done|by eapply has_slot_later|eapply accepted_later; [|exact Hacc1]; by etrans|eapply source_known_later; [|exact Hknown1]; by etrans]|].
    cbn beta. intros h4 [x|] _ _ Hw; [done|]. unfold h3, h2, h1 in Hw. rewrite !waits_snoc in Hw. cbn in Hw. lia.
Qed.
End Transform.

(** ** The handler *)

Definition is_head : bool := str_eqb (ir_method r) (bs "HEAD").

(** What failed, in the course of a request: its verification, the loading of its source, or
    the transformation. *)
Inductive fails (h : list Event) : ImageError -> Prop :=
| fails_verification app_root images e :
    Happened (GetApp (ir_app_name r)) (Some (app_root, images)) ∈ h ->
    verify_public_image_request (ir_path r) (ir_query r) (ir_accept r) images = Err e -> fails h e
| fails_source app_root v e :
    accepted h app_root v -> has_slot h -> loaded h app_root (req_source v) (Err e) -> fails h e
| fails_transformation app_root v source e :
    accepted h app_root v -> has_slot h -> obtained h app_root v source -> transform_fails h v source e -> fails h e.

Lemma fails_later h h' e : h `prefix_of` h' -> fails h e -> fails h' e.
Proof.
  intros Hpre Hf. destruct Hf; [eapply fails_verification|eapply fails_source|eapply fails_transformation];
    eauto using happened_later, accepted_later, has_slot_later, loaded_later, obtained_later, transform_fails_later.
Qed.

(** The status and the text of a refusal, by what it is for. *)
Inductive refused (h : list Event) : Z -> str -> Prop :=
| refused_method : ir_method r <> bs "GET" -> ir_method r <> bs "HEAD" -> refused h 405 (bs "Method Not Allowed")
| refused_app : Happened (GetApp (ir_app_name r)) None ∈ h -> refused h 404 (bs "Not Found")
| refused_slot : Happened TryAcquireSlot false ∈ h -> refused h 503 (bs "Service Unavailable")
| refused_request e :
    fails h e -> e ∈ [InvalidUrl; InvalidSource; InvalidWidth; InvalidHeight; InvalidResize; InvalidQuality; InvalidBrowserCacheMaxAge] ->
    refused h 400 (bs "Bad Request")
| refused_signature e : fails h e -> e ∈ [InvalidSignature; Expired] -> refused h 403 (bs "Forbidden")
| refused_size e : fails h e -> e ∈ [SourceTooLarge; ImageTooLarge] -> refused h 413 (bs "Payload Too Large")
| refused_format : fails h UnsupportedFormat -> refused h 415 (bs "Unsupported Media Type")
| refused_failure : fails h TransformFailed -> refused h 502 (bs "Bad Gateway")
| refused_queue : fails h TransformQueueFull -> refused h 503 (bs "Service Unavailable").

(** A refusal says so, in plain text, and is not to be stored. *)
Definition refusal (status : Z) (text : str) : Response :=
  mkHttp status [(bs "Cache-Control", bs "private, no-store"); (bs "Content-Type", bs "text/plain"); (bs "Content-Length", show_Z (Z.of_nat (length text)))] (Some text).

Definition outcome_ok (rounds : nat) (h : list Event) (o : Outcome) : Prop :=
  match o with
  | NotHandled => ir_path r <> PUBLIC_IMAGE_BASE_PATH /\ h = []
  | StillWaiting => rounds <= waits h
  | Answer response =>
      (exists status text, refused h status text /\ response = refusal status text)
      \/ (exists app_root v source body, (ir_method r = bs "GET" \/ ir_method r = bs "HEAD") /\ accepted h app_root v /\ has_slot h
            /\ obtained h app_root v source /\ body_for h app_root v source body /\ response = image_response v is_head body)
  end.

Lemma error_is_refused h e : fails h e -> refused h (image_error_status e) (image_error_body (image_error_status e)).
Proof.
  intros Hf. destruct e; cbn [image_error_status].
  1-7: eapply refused_request; [exact Hf|set_solver].
  1-2: eapply refused_signature; [exact Hf|set_solver].
  - eapply refused_size; [exact Hf|set_solver].
  - by apply refused_format.
  - eapply refused_size; [exact Hf|set_solver].
  - by apply refused_failure.
  - by apply refused_queue.
Qed.

Lemma fail_with_runs rounds h error : proper h -> fails h error -> runs h (fail_with world error) (outcome_ok rounds).
Proof.
  intros Hp Hf. unfold fail_with. apply runs_call; [done..|]. intros [] h' Hp' Hpre' _. apply runs_ret; [done|]. left.
  eexists _, _. split; [apply error_is_refused; by eapply fails_later|done].
Qed.

Lemma respond_with_source_runs rounds h app_root v source :
  proper h -> has_slot h -> accepted h app_root v -> source_known h source -> obtained h app_root v source -> (ir_method r = bs "GET" \/ ir_method r = bs "HEAD") ->
  runs h (respond_with_source world rounds r app_root v is_head source) (outcome_ok rounds).
Proof.
  intros Hp Hslot Hacc Hknown Hgot Hmethod. unfold respond_with_source. cbn zeta.
  assert (Hdone : forall h1 h2 body, h `prefix_of` h1 -> h1 `prefix_of` h2 -> proper h2 -> body_for h1 app_root v source body ->
    runs h2 (ret (Answer (image_response v is_head body))) (outcome_ok rounds)).
  { intros h1 h2 body Hpre1 Hpre2 Hp2 Hb. apply runs_ret; [done|]. right. exists app_root, v, source, body. assert (h `prefix_of` h2) by by etrans.
    split_and!; [done|by eapply accepted_later|by eapply has_slot_later|by eapply obtained_later|by eapply (body_for_later h1)|done]. }
  apply runs_call; [done..|]. intros [cached|] h1 Hp1 Hpre1 Hin.
  - apply runs_call; [done..|]. intros [] h2 Hp2 Hpre2 _. apply (Hdone h1); [done..|]. left. by exists cached.
  - apply runs_bind. eapply runs_mono.
    { apply transform_uncached_image_runs; [done|by eapply has_slot_later|by eapply accepted_later|by eapply source_known_later]. }
    cbn beta. intros h2 [[body|error]|] Hp2 Hpre2 Hx _ _; assert (h `prefix_of` h2) by by etrans.
    + apply runs_call; [done..|]. intros [] h3 Hp3 Hpre3 _. apply (Hdone h2); [by etrans|done..].
    + apply fail_with_runs; [done|]. eapply fails_transformation; [by eapply accepted_later|by eapply has_slot_later|by eapply obtained_later|done].
    + apply runs_ret; [done|]. cbn. lia.
Qed.

Lemma try_handle_image_request_runs rounds : runs [] (try_handle_image_request world rounds r) (outcome_ok rounds).
Proof.
  pose proof proper_nil as Hp. unfold try_handle_image_request, is_image_request_path, str_eqb.
  case_bool_decide as Hpath; cbn [negb]; [|by apply runs_ret]. apply runs_call; [done..|]. intros [] h1 Hp1 _ _.
  destruct (negb (bool_decide (ir_method r = bs "GET")) && negb (bool_decide (ir_method r = bs "HEAD"))) eqn:Hm.
  { apply runs_call; [done..|]. intros [] h2 Hp2 _ _. apply runs_ret; [done|]. left. eexists _, _. split; [|done].
    rewrite andb_true_iff, !negb_true_iff, !bool_decide_eq_false in Hm. destruct Hm. by apply refused_method. }
  assert (Hmethod : ir_method r = bs "GET" \/ ir_method r = bs "HEAD").
  { rewrite andb_false_iff, !negb_false_iff, !bool_decide_eq_true in Hm. done. }
  apply runs_call; [done..|]. intros [[app_root images]|] h2 Hp2 _ Happ.
  - destruct (verify_public_image_request _ _ _ images) as [v|error] eqn:Hv; [|apply fail_with_runs; [done|]; by eapply fails_verification].
    assert (Hacc : accepted h2 app_root v) by by exists images. apply runs_call; [done..|]. intros permit h3 Hp3 Hpre3 Hslot. destruct permit; cbn [negb].
    + apply runs_bind. eapply runs_mono; [apply load_image_source_runs; [done..|by eapply accepted_later]|].
      cbn beta. intros h4 [source|error] Hp4 Hpre4 Hs _ _; assert (accepted h4 app_root v) by (eapply accepted_later; [|exact Hacc]; by etrans);
        assert (has_slot h4) by by eapply has_slot_later.
      * destruct Hs. by apply respond_with_source_runs.
      * apply fail_with_runs; [done|]. by eapply fails_source.
    + apply runs_ret; [done|]. left. eexists _, _. split; [by apply refused_slot|done].
  - apply runs_call; [done..|]. intros [] h3 Hp3 Hpre3 _. apply runs_ret; [done|]. left. eexists _, _.
    split; [apply refused_app; by eapply happened_later|done].
Qed.

(** C39: the handler of image requests only makes calls it may make, whatever the world answers.
    Without a slot nothing is loaded or transformed.  It sends a request only for a source that
    the configuration of the app accepts, without proxy and redirects: for a local path to an
    instance of this app, and for a remote URL so that the client connects to public addresses
    only, whatever the name resolves to, then and later.  A source over 8 MiB is neither cached
    nor transformed; a transformation is the accepted one; and what is written to the cache
    under a key is the worker's answer for the app, source and options of that key. *)
Theorem image_requests_are_contained rounds h1 e h2 :
  (try_handle_image_request world rounds r []).1 = h1 ++ e :: h2 -> may_happen h1 e.
Proof. intros Heq. destruct (try_handle_image_request_runs rounds) as (Hp & _ & _). by eapply Hp. Qed.

(** C40: what the handler answers.  A path that is not the image path is left alone, without a
    call.  A refusal ([outcome_ok], [refused]) has a cause among the answers the handler got, and
    the status and the text of that cause: 405 for a method, 404 without the app, 503 without a
    slot; else the error of the verification, of loading the source (a file or body that is too
    large or breaks off, a status, a name that does not resolve to public addresses, no instance,
    no answer) or of the worker, as 400, 403, 413, 415, 502 or 503.  It is plain text, sent also
    to a HEAD request, and not to be stored.  An image is one for an accepted GET or HEAD request
    and for the source that was obtained for it: from the cache under the key of its
    transformation, from the worker, or the source itself, of an image type, when the worker
    failed on it; its length and content type are announced, such an answer to a HEAD request
    has no body, and only the first two may be cached by others.  The handler goes on waiting
    for others only as often as it was told to. *)
Theorem image_responses_are_right rounds :
  let run := try_handle_image_request world rounds r [] in
  outcome_ok rounds run.1 run.2
  /\ (forall response, run.2 = Answer response ->
       (http_status response <> 200%Z ->
          exists text, refused run.1 (http_status response) text /\ http_body response = Some text
            /\ (bs "Cache-Control", bs "private, no-store") ∈ http_headers response
            /\ (bs "Content-Length", show_Z (Z.of_nat (length text))) ∈ http_headers response)
       /\ (http_status response = 200%Z ->
          exists app_root v source body, accepted run.1 app_root v /\ obtained run.1 app_root v source /\ body_for run.1 app_root v source body
            /\ (bs "Content-Type", ib_content_type body) ∈ http_headers response
            /\ (bs "Content-Length", show_Z (Z.of_nat (length (ib_bytes body)))) ∈ http_headers response
            /\ http_body response = (if is_head then None else Some (ib_bytes body)))
       /\ ((bs "Cache-Control", PUBLIC_CACHE_CONTROL) ∈ http_headers response ->
            exists app_root v source body, accepted run.1 app_root v /\ ib_cacheable body = true
              /\ response = image_response v is_head body
              /\ ((exists cached, Happened (ReadCache (transform_cache_key (ir_app_name r) app_root (sb_bytes source) (options_of v)) (req_format v)) (Some cached) ∈ run.1
                     /\ body = from_cached cached)
                  \/ (exists t, Happened (TransformInWorker (ir_app_name r) (mkJob (sb_bytes source) (sb_content_type source) (options_of v) TransformLimits_default)) (Ok t) ∈ run.1
                        /\ body = from_transformed t)))).
Proof.
  intros run. destruct (try_handle_image_request_runs rounds) as (_ & _ & Hok). fold run in Hok. split; [done|].
  intros response Hr. rewrite Hr in Hok. destruct Hok as [(status & text & Href & ->)|(app_root & v & source & body & _ & Hacc & _ & Hknown & Hb & ->)]; split_and!.
  - intros _. exists text. cbn. split_and!; [done..|set_solver|set_solver].
  - intros Hs. cbn in Hs. subst status. exfalso. inversion Href.
  - cbn. intros Hin. exfalso. rewrite !elem_of_cons in Hin. destruct Hin as [Hin|[Hin|[Hin|Hin]]]; [discriminate Hin..|by apply elem_of_nil in Hin].
  - done.
  - intros _. exists app_root, v, source, body. split_and!; [done..|cbn; set_solver|cbn; set_solver|done].
  - intros Hin. assert (Hcache : ib_cacheable body = true).
    { destruct (ib_cacheable body) eqn:Hc; [done|]. exfalso. cbn in Hin. rewrite Hc in Hin. rewrite !elem_of_cons, elem_of_app in Hin.
      destruct Hin as [Hin|[Hin|[Hin|[Hin|Hin]]]]; [discriminate Hin..| |]; [destruct (req_vary_accept v); [apply list_elem_of_singleton in Hin; discriminate Hin|by apply elem_of_nil in Hin]|].
      apply list_elem_of_singleton in Hin. discriminate Hin. }
    exists app_root, v, source, body. split_and!; [done..|]. destruct Hb as [?|[?|(ct & _ & _ & _ & ->)]]; [by left|by right|done].
Qed.
End Spec.

(** ** An instance *)

Definition serve_sha : Sha256Api := {| sha256 s := take 32 (rev s ++ replicate 32 "0"%char) |}.

(** URLs of the form [https://host/path], whose host is not an address. *)
Definition serve_url : UrlApi := {| url_parse s :=
  match strip_prefix (bs "https://") s with
  | Some rest =>
      match split_once "/"%char rest with
      | Some (host, path) =>
          match parse_ip host with
          | Some _ => None
          | None => Some (mkUrl (bs "https") [] None (Some (HostDomain host)) (Some host) ("/"%char :: path) None)
          end
      | None => None
      end
  | None => None
  end |}.

Definition serve_port : UrlPortApi := {| port_or_known_default _ := Some 443%Z |}.

Definition serve_client : ClientApi := {| contacts client url ip :=
  match url_host url, c_resolved client with
  | Some (HostDomain d), Some (host, addrs) => host = d /\ ip ∈ addrs.*1
  | Some (HostIpv4 o), _ => ip = V4 o
  | Some (HostIpv6 g), _ => ip = V6 g
  | _, _ => False
  end |}.

Lemma serve_client_laws : ClientLaws serve_url serve_client.
Proof.
  split.
  - intros client url ip _ _ Hc. cbn in Hc. destruct (url_host url) as [[d|o|g]|]; [|done..]. destruct (c_resolved client) as [[host addrs]|]; [|done]. tauto.
  - intros text url d Hu _ Hd. cbn [url_parse serve_url] in Hu. destruct (strip_prefix _ _) as [rest|]; [|done]. destruct (split_once _ _) as [[host path]|]; [|done].
    destruct (parse_ip host) eqn:Hip; [done|]. injection Hu as <-. injection Hd as <-. done.
Qed.

#[local] Existing Instance serve_sha.
#[local] Existing Instance serve_url.
#[local] Existing Instance serve_port.
#[local] Existing Instance serve_client.
#[local] Existing Instance serve_client_laws.
#[local] Existing Instance demo_form.

(** A world in which everything goes well. *)
Definition serve_world : World := fun A h c =>
  match c in Call A return A with
  | Observe _ => tt
  | GetApp _ => Some (bs "/app", demo_images)
  | TryAcquireSlot => true
  | FindSource _ => None
  | InsertSource _ _ => tt
  | StaticAvailable _ => false
  | StaticResolve _ _ => Err (NotFound [])
  | ReadFile _ => []
  | ResolveBackend _ => None
  | RequestStarted _ => tt
  | RequestFinished _ => tt
  | LookupHost _ _ => LookupAddrs [(V4 [93; 184; 216; 34]%Z, 443%Z)]
  | BuildClient _ => true
  | Send _ _ _ => Some (mkResponse 200 (Some 3%Z) (Some (bs "image/png")) [Some (bs "p"); Some (bs "ng")])
  | ReadCache _ _ => None
  | AcquireLease _ => true
  | WaitForOwner _ => tt
  | DropLease _ => tt
  | TransformInWorker _ _ => Ok (mkImage (bs "webp") (bs "image/webp") Webp 640 480)
  | WriteCache _ _ => tt
  end.

Definition serve_request : ImageRequest :=
  mkImageRequest (bs "GET") (bs "shop") PUBLIC_IMAGE_BASE_PATH (Some (bs "src=https://cdn.example.com/a/b.png&w=640")) None (bs "shop.test") None.

Definition serve_history : list Event := (try_handle_image_request serve_world 1 serve_request []).1.

(** The remote source is fetched from the address that was looked up. *)
Lemma image_requests_are_contained_witness :
  exists h1 h2 answer,
    (try_handle_image_request serve_world 1 serve_request []).1
    = h1 ++ Happened (Send (guarded_image_http_client (bs "cdn.example.com") [(V4 [93; 184; 216; 34]%Z, 443%Z)]) (bs "https://cdn.example.com/a/b.png") None) answer :: h2
    /\ has_slot h1.
Proof.
  set (sent := Happened (Send (guarded_image_http_client (bs "cdn.example.com") [(V4 [93; 184; 216; 34]%Z, 443%Z)]) (bs "https://cdn.example.com/a/b.png") None)
    (Some (mkResponse 200 (Some 3%Z) (Some (bs "image/png")) [Some (bs "p"); Some (bs "ng")]))).
  assert (Heq : (try_handle_image_request serve_world 1 serve_request []).1 = take 6 serve_history ++ sent :: drop 7 serve_history) by (vm_compute; reflexivity).
  exists (take 6 serve_history), (drop 7 serve_history), (Some (mkResponse 200 (Some 3%Z) (Some (bs "image/png")) [Some (bs "p"); Some (bs "ng")])).
  split; [exact Heq|]. exact (proj1 (image_requests_are_contained serve_world serve_request 1 _ sent _ Heq)).
Defined.

(** A world in which the host of the source has a private address. *)
Definition serve_world_private : World := fun A h c =>
  match c in Call A return A with
  | LookupHost _ _ => LookupAddrs [(V4 [93; 184; 216; 34]%Z, 443%Z); (V4 [10; 0; 0; 1]%Z, 443%Z)]
  | c => serve_world _ h c
  end.

Definition serve_head : ImageRequest :=
  mkImageRequest (bs "HEAD") (bs "shop") PUBLIC_IMAGE_BASE_PATH (Some (bs "src=https://cdn.example.com/a/b.png&w=640")) None (bs "shop.test") None.

(** The image comes from the worker, and a source that is not public is a bad request, with a
    text even for HEAD. *)
Lemma image_responses_are_right_witness :
  (exists response body, (try_handle_image_request serve_world 1 serve_request []).2 = Answer response
     /\ http_body response = Some (bs "webp") /\ ib_cacheable body = true)
  /\ (exists response, (try_handle_image_request serve_world_private 1 serve_head []).2 = Answer response
     /\ http_status response = 400%Z /\ http_body response = Some (bs "Bad Request")
     /\ exists e, fails serve_head (try_handle_image_request serve_world_private 1 serve_head []).1 e).
Proof.
  split.
  - destruct (image_responses_are_right serve_world serve_request 1) as [_ Hr].
    assert (Ha : exists response, (try_handle_image_request serve_world 1 serve_request []).2 = Answer response
      /\ http_body response = Some (bs "webp") /\ (bs "Cache-Control", PUBLIC_CACHE_CONTROL) ∈ http_headers response).
    { eexists. split; [vm_compute; reflexivity|]. split; [reflexivity|]. apply list_elem_of_In. vm_compute. tauto. }
    destruct Ha as (response & Ha & Hb & Hc). destruct (Hr response Ha) as (_ & _ & Hcache).
    destruct (Hcache Hc) as (app_root & v & source & body & _ & Hbody & _). exists response, body. split_and!; [exact Ha|exact Hb|exact Hbody].
  - destruct (image_responses_are_right serve_world_private serve_head 1) as [_ Hr].
    assert (Ha : exists response, (try_handle_image_request serve_world_private 1 serve_head []).2 = Answer response /\ http_status response = 400%Z).
    { eexists. split; [vm_compute; reflexivity|]. reflexivity. }
    destruct Ha as (response & Ha & Hs). destruct (Hr response Ha) as (Hno & _). rewrite Hs in Hno. destruct (Hno ltac:(discriminate)) as (text & Href & Hb & _).
    exists response. inversion Href; subst; split_and!; try done. by eexists.
Defined.
