(* ===== verification/ServerDrain.v ===== *)
(** * Draining and resuming a server, across the processes of a host
    (tako-server/src/operations/drain.rs, drain_observer.rs, state_store/drain.rs,
    runtime_events.rs, proxy/service/backend.rs, startup/native_promotion.rs)

    During an upgrade several server processes share one data directory.  A drain must stop
    every instance of every process and keep them stopped until a resume.  The processes
    coordinate through a row of the state store and two lock files; the tasks of one process
    through an atomic flag, the management lock and the spawn gate.

    Here is the code of these tasks: programs over atomic actions, one per access to shared
    memory, to the store or to a lock, so that the tasks interleave between any two of them.
    A [Choice] is what the environment decides for one action: an expired deadline, an error
    of the store, what killing a process answers.  The bodies of deployments and of the
    restore of the persisted apps are arbitrary sequences [work] of the operations on apps
    that they are made of.  A waiting loop has a number of polls as argument: a run of the
    code polls finitely often before its deadline, and the theorems are for every number. *)

From S2P Require Import Prelude RustStr Codec Protocol ColdStart Instances Health RequestDrain.

(** ** Reports *)

Definition MAX_DRAIN_SECONDS : Z := 3600.

Record DrainReport := mkDrainReport {
  completed : bool;                        (** the [status] is "drained" or "draining" by it *)
  local_completed : bool;
  other_processes_quiescent : bool;
  timed_out : bool;
  http_drained : bool;
  forced_instances : nat;
  forced_http_requests : Z;
  forced_proxy_requests : nat;
  forced_proxy_shutdown_requests : nat;
  remaining_proxy_requests : nat;
  forced_workflow_workers : nat;
  remaining_instances : nat;
  remaining_workflow_workers : nat;
  remaining_workflow_background_tasks : nat;
  errors : list str;
}.

Record DrainStatus := mkDrainStatus { workers : nat; background_tasks : nat }.

Definition is_complete (s : DrainStatus) : bool :=
  (workers s =? 0)%nat && (background_tasks s =? 0)%nat.

(** What a task answers. *)
Inductive Reply :=
| Drained (r : DrainReport)
| ManagementBusy (forced shutdown remaining : nat)   (** the drain that missed its deadline *)
| Resumed (already_running : bool)
| Refused (message : str)
| Observed (r : result unit str)
| Worked
| Backend (r : option (str * option SocketAddr))
| Forever.

(** ** The state of a host *)

(** What the environment decides for one action. *)
Inductive Choice :=
| Proceed
| Refuse
| Fail (e : str)
| Killed (env : KillEnv)
| Cut (env : KillEnv)                      (** the deadline cancels a [kill] *)
| Fresh (id : str) (now_ms : Z)
| At (now : Z)
| Counts (a b : nat)
| Outcome (o : WaitForReadyOutcome).

(** The operations on apps that deployments, stops and restores are made of.  An app object
    is an address in the heap of the process: the registry maps names to addresses. *)
Inductive AppWork :=
| WRegister (c : AppConfig)
| WUnregister (name : str)
| WAllocate (app : nat)
| WSpawn (app : nat) (id : str)
| WKill (app : nat) (id : str)
| WRemove (app : nat) (id : str)
| WConfig (app : nat) (c : AppConfig)
| WSetState (app : nat) (s : AppState).

(** The atomic actions, with what they answer. *)
Inductive act : Type -> Type :=
(** the flag, and the row of the store *)
| LoadFlag : act bool
| StoreFlag (b : bool) : act unit
| ReadRequested : act (result bool str)
| ReadDeadline : act (result Z str)
| RequestDrainUntil (deadline_unix_ms : Z) : act (result unit str)
| SetDrainRequested (b : bool) : act (result unit str)
(** the lock files: an operation lease, and an activity lease held for reading or exclusively *)
| TryOperation : act (result bool str)
| DropOperation : act unit
| TryExclusive : act (result bool str)
| DropExclusive : act unit
| AdoptActivity (clear_intent : bool) : act (result bool str)
| ActivityHeld : act bool
| TakeActivity : act unit
(** the management lock and the spawn gate *)
| LockManagement : act unit
| LockManagementUntil : act bool
| TryLockManagement : act bool
| UnlockManagement : act unit
| GateTryRead : act bool
| GateWriteUntil : act bool
| GateDrop : act unit
(** the requests in progress, the workflow engine, the clock *)
| BeginRequestDrain : act unit
| ForceRequestDrain : act nat
| ActiveCount : act nat
| ResumeRequests : act bool
| WorkflowsBegin : act unit
| WorkflowsStatus : act DrainStatus
| WorkflowsForce : act (nat * nat)
| WorkflowsShutdown : act bool
| Expired : act bool
| UnixMillis : act Z
(** the apps *)
| ListApps : act (list str)
| GetApp (name : str) : act (option nat)
| RegisterApp (c : AppConfig) : act nat
| RemoveApp (name : str) : act unit
| ReadConfig (app : nat) : act AppConfig
| UpdateConfig (app : nat) (c : AppConfig) : act unit
| HasCompose (app : nat) : act bool
| ComposeStop (app : nat) : act (option (result unit str))
| TryDeployLock (name : str) : act bool
| SetAppState (app : nat) (s : AppState) : act unit
| SetLastError (app : nat) (e : str) : act unit
| GetInstances (app : nat) : act (list str)
| HasInstance (app : nat) (id : str) : act bool
| BuildVersion (app : nat) (id : str) : act str
| Suppressed (app : nat) (id : str) : act bool
| SetInstanceState (app : nat) (id : str) (s : InstanceState) : act unit
| InFlight (app : nat) (id : str) : act Z
| KillUntil (app : nat) (id : str) : act (option (result unit str))
| Kill (app : nat) (id : str) : act (result unit str)
| DisownCompose (app : nat) (id : str) : act unit
| RemoveInstance (app : nat) (id : str) : act unit
| AllocateInstance (app : nat) : act str
| SpawnInstance (app : nat) (id : str) : act (result unit str)
| MayEvict (app : nat) (id : str) : act bool
| FinishEvict (app : nat) (id : str) : act bool
| AppIdleNow (app : nat) : act bool
| RestoreOutcome : act (result unit str)
(** cold starts and the load balancer *)
| LbRegister (name : str) (app : nat) : act unit
| LbUnregister (name : str) : act unit
| LbGetBackend (name : str) : act (option (str * option SocketAddr))
| ColdBegin (name : str) : act bool
| SpawnLeader (name : str) (app : nat) : act unit
| MarkFailed (name : str) : act unit
| ColdReset (name : str) : act unit
| WaitForReady (name : str) : act WaitForReadyOutcome.

(** Programs over the actions. *)
Inductive prog (R : Type) : Type :=
| Ret (r : R)
| Do {A : Type} (a : act A) (k : A -> prog R).
Arguments Ret {R} r.
Arguments Do {R A} a k.

Fixpoint bind {R S} (m : prog R) (f : R -> prog S) : prog S :=
  match m with
  | Ret r => f r
  | Do a k => Do a (fun x => bind (k x) f)
  end.

Notation "x <~ a ;; k" := (Do a (fun x => k)) (at level 100, a at next level, right associativity) : tako_scope.
Notation "a ;;; k" := (Do a (fun _ => k)) (at level 100, right associativity) : tako_scope.
Notation "x <- m ;; k" := (bind m (fun x => k)) (at level 100, m at next level, right associativity) : tako_scope.

Fixpoint for_each {A} (l : list A) (f : A -> prog unit) : prog unit :=
  match l with
  | [] => Ret tt
  | x :: l' => _ <- f x;; for_each l' f
  end.

(** A loop that updates a value. *)
Fixpoint fold_prog {A S} (l : list A) (f : S -> A -> prog S) (s : S) : prog S :=
  match l with
  | [] => Ret s
  | x :: l' => s' <- f s x;; fold_prog l' f s'
  end.

(** ** Gates *)

(** [ServerState::is_draining]: the store is authoritative, an error fails closed. *)
Definition is_draining : prog bool :=
  requested <~ ReadRequested;;
  match requested with
  | Ok true => StoreFlag true;;; Ret true
  | Ok false => flag <~ LoadFlag;; Ret flag
  | Err _ => Ret true
  end.

Section Commands.
Context {J : JsonApi}.

Definition blocked_while_draining (command : ServerCommand) : bool :=
  match command with
  | PrepareRelease _ _ _ _ | PrepareReleaseUpload _ _ | PrepareDeploy _ _ _ _ _ _ | FinalizeRelease _ _
  | RunRelease _ _ _ _ _ _ _ | Deploy _ _ _ _ _ _ _ _ _ _ _ | BackupNow _ _ | RestoreBackup _ _
  | Scale _ _ _ _ | Rollback _ _ | UpdateSecrets _ _ | EnqueueRun _ _ _ _ | RegisterSchedules _ _
  | ClaimRun _ _ _ _ | Signal _ _ _ => true
  | _ => false
  end.

Definition command_is_read_only (command : ServerCommand) : bool :=
  match command with
  | Hello _ | ServerInfoCommand | Status _ | List | ListReleases _ | Routes | GetSecretsHash _
  | ListBackups _ | BackupStatus _ | BackupDownloadUrl _ _ | CheckDeploySpace _ => true
  | _ => false
  end.
End Commands.

(** ** Stopping the local runtime *)

(** [filter_map(|name| get_app(name))]. *)
Definition collect_apps (names : list str) : prog (list nat) :=
  fold_prog names (fun apps name =>
    app <~ GetApp name;;
    Ret (match app with Some a => apps ++ [a] | None => apps end)) [].

(** Every app is stopped and its instances are withdrawn from routing. *)
Definition withdraw_instances (apps : list nat) : prog (list (nat * str)) :=
  fold_prog apps (fun instances app =>
    SetAppState app AppStopped;;;
    ids <~ GetInstances app;;
    _ <- for_each ids (fun id => SetInstanceState app id Draining;;; Ret tt);;
    Ret (instances ++ ((fun id => (app, id)) <$> ids))) [].

(** [instances.iter().all(|i| i.in_flight() == 0)] stops at the first busy one. *)
Fixpoint http_done (instances : list (nat * str)) : prog bool :=
  match instances with
  | [] => Ret true
  | (app, id) :: rest => n <~ InFlight app id;; if (n =? 0)%Z then http_done rest else Ret false
  end.

(** The loop that waits for requests and workflows until the deadline. *)
Fixpoint wait_for_work (polls : nat) (instances : list (nat * str)) : prog unit :=
  match polls with
  | O => Ret tt
  | S polls' =>
      let wait := expired <~ Expired;; if expired then Ret tt else wait_for_work polls' instances in
      http <- http_done instances;;
      if http then
        active <~ ActiveCount;;
        if (active =? 0)%nat then
          status <~ WorkflowsStatus;;
          if is_complete status then Ret tt else wait
        else wait
      else wait
  end.

(** The instances with requests in flight, and the number of these requests. *)
Definition count_forced (instances : list (nat * str)) : prog (nat * Z) :=
  forced <- fold_prog instances (fun (count : nat) i =>
              n <~ InFlight i.1 i.2;; Ret (if (0 <? n)%Z then S count else count)) 0;;
  requests <- fold_prog instances (fun (sum : Z) i => n <~ InFlight i.1 i.2;; Ret (sum + n)%Z) 0%Z;;
  Ret (forced, requests).

Definition push_error (timed_out_now : bool) (message : str) (r : bool * list str) : bool * list str :=
  (r.1 || timed_out_now, r.2 ++ [message]).

Definition stop_message (name id text : str) : str := name ++ bs " / " ++ id ++ bs ": " ++ text.
Definition app_message (name text : str) : str := name ++ bs ": " ++ text.

(** One withdrawn instance is killed and, if that succeeds, removed.  The pair is the
    [timed_out] flag and the errors of the report. *)
Definition stop_instance (r : bool * list str) (i : nat * str) : prog (bool * list str) :=
  killed <~ KillUntil i.1 i.2;;
  match killed with
  | Some (Ok _) => RemoveInstance i.1 i.2;;; Ret r
  | Some (Err e) =>
      c <~ ReadConfig i.1;; Ret (push_error false (stop_message (deployment_id c) i.2 e) r)
  | None =>
      c <~ ReadConfig i.1;;
      Ret (push_error true (stop_message (deployment_id c) i.2 (bs "stop deadline expired")) r)
  end.

(** One app: its Compose stack is stopped, what remains of it is counted. *)
Definition stop_app_stack (settled : bool) (r : nat * (bool * list str)) (app : nat)
    : prog (nat * (bool * list str)) :=
  compose <~ HasCompose app;;
  e <- (if settled && compose then
          stopped <~ ComposeStop app;;
          match stopped with
          | Some (Ok _) => Ret r.2
          | Some (Err e) => c <~ ReadConfig app;; Ret (push_error false (app_message (deployment_id c) e) r.2)
          | None =>
              c <~ ReadConfig app;;
              Ret (push_error true (app_message (deployment_id c) (bs "compose stop deadline expired")) r.2)
          end
        else Ret r.2);;
  ids <~ GetInstances app;;
  Ret ((r.1 + length ids)%nat, e).

(** The end of a drain: what remains decides whether it is complete, then the activity lease
    and the gate are released. *)
Definition close_report (spawns_settled : bool) (forced : nat * Z)
    (forced_proxy forced_shutdown forced_workers : nat) (r : nat * (bool * list str)) : prog DrainReport :=
  workflows <~ WorkflowsStatus;;
  remaining_proxy <~ ActiveCount;;
  let local := (r.1 =? 0)%nat && (remaining_proxy =? 0)%nat && is_complete workflows
               && bool_decide (r.2.2 = []) in
  let report := mkDrainReport local local false r.2.1
    ((forced.1 =? 0)%nat && (forced_proxy =? 0)%nat) forced.1 forced.2 forced_proxy forced_shutdown
    remaining_proxy forced_workers r.1 (workers workflows) (background_tasks workflows) r.2.2 in
  let release := (if spawns_settled then GateDrop;;; Ret report else Ret report) in
  if local then TakeActivity;;; release else release.

(** After the wait: workflow workers are told to stop; instances are stopped only when no
    spawn is under way. *)
Definition stop_runtime (spawns_settled : bool) (apps : list nat) (instances : list (nat * str))
    (forced : nat * Z) (forced_proxy forced_shutdown : nat) : prog DrainReport :=
  before_stop <~ WorkflowsStatus;;
  forced_workers <~ WorkflowsForce;;
  _ <~ ActiveCount;;
  let timed_out := (0 <? forced.1)%nat || (0 <? forced_proxy)%nat || negb (is_complete before_stop) in
  let errors := if (0 <? forced_workers.2)%nat
    then [bs "Failed to signal " ++ show_Z (Z.of_nat forced_workers.2) ++ bs " workflow workers"] else [] in
  let r := (timed_out, errors) in
  let r := if spawns_settled then r
           else push_error true (bs "instance spawns were still active at the drain deadline") r in
  r <- (if spawns_settled then fold_prog instances stop_instance r else Ret r);;
  r <- fold_prog apps (stop_app_stack spawns_settled) (0, r);;
  close_report spawns_settled forced forced_proxy forced_shutdown forced_workers.1 r.

(** [drain_runtime_with_cleanup_until]: [polls] bounds the wait for work; the gate is waited
    for until the cleanup deadline. *)
Definition drain_runtime_with_cleanup_until (polls : nat) : prog DrainReport :=
  StoreFlag true;;;
  BeginRequestDrain;;;
  spawns_settled <~ GateWriteUntil;;
  WorkflowsBegin;;;
  names <~ ListApps;;
  apps <- collect_apps names;;
  instances <- withdraw_instances apps;;
  _ <- wait_for_work polls instances;;
  forced <- count_forced instances;;
  forced_proxy <~ ActiveCount;;
  forced_shutdown <- (if (0 <? forced_proxy)%nat then n <~ ForceRequestDrain;; Ret n else Ret 0);;
  stop_runtime spawns_settled apps instances forced forced_proxy forced_shutdown.

(** [drain_runtime_until], and [retry_runtime_drain] whose deadline has passed already: it
    polls once. *)
Definition drain_runtime_until (polls : nat) : prog DrainReport := drain_runtime_with_cleanup_until polls.
Definition retry_runtime_drain : prog DrainReport := drain_runtime_with_cleanup_until 1.

(** ** The commands *)

Definition drain_busy : str := bs "Another server drain/resume is in progress; retry shortly.".

(** [u64::saturating_add], [u64::saturating_mul]. *)
Definition u64_saturating_add (a b : Z) : Z := Z.min u64_max (a + b).
Definition u64_saturating_mul (a b : Z) : Z := Z.min u64_max (a * b).

(** [prepare_server_drain]: on success the caller holds the operation lease; every early
    return drops it. *)
Definition prepare_server_drain (timeout_seconds : Z) : prog (result unit str) :=
  if (MAX_DRAIN_SECONDS <? timeout_seconds)%Z
  then Ret (Err (bs "Drain timeout must be between 0 and 3600 seconds."))
  else
    operation <~ TryOperation;;
    match operation with
    | Ok true =>
        now <~ UnixMillis;;
        persisted <~ RequestDrainUntil (u64_saturating_add now (u64_saturating_mul timeout_seconds 1000));;
        match persisted with
        | Err e => DropOperation;;; Ret (Err (bs "Could not persist server drain: " ++ e))
        | Ok _ => StoreFlag true;;; BeginRequestDrain;;; Ret (Ok tt)
        end
    | Ok false => Ret (Err drain_busy)
    | Err e => Ret (Err e)
    end.

(** The report after a test of the activity lease. *)
Definition with_quiescence (quiescent expired : bool) (more : list str) (r : DrainReport) : DrainReport :=
  mkDrainReport (completed r) (local_completed r) quiescent (timed_out r || expired) (http_drained r)
    (forced_instances r) (forced_http_requests r) (forced_proxy_requests r)
    (forced_proxy_shutdown_requests r) (remaining_proxy_requests r) (forced_workflow_workers r)
    (remaining_instances r) (remaining_workflow_workers r) (remaining_workflow_background_tasks r)
    (errors r ++ more).

(** The loop of [finish_server_drain]: no process may hold an activity lease. *)
Fixpoint await_quiescence (polls : nat) (r : DrainReport) : prog DrainReport :=
  match polls with
  | O => Ret (with_quiescence false true [] r)
  | S polls' =>
      exclusive <~ TryExclusive;;
      match exclusive with
      | Ok true => DropExclusive;;; Ret (with_quiescence true false [] r)
      | Err e => Ret (with_quiescence false false [e] r)
      | Ok false =>
          expired <~ Expired;;
          if expired then Ret (with_quiescence false true [] r) else await_quiescence polls' r
      end
  end.

Definition with_completed (b : bool) (r : DrainReport) : DrainReport :=
  mkDrainReport b (local_completed r) (other_processes_quiescent r) (timed_out r) (http_drained r)
    (forced_instances r) (forced_http_requests r) (forced_proxy_requests r)
    (forced_proxy_shutdown_requests r) (remaining_proxy_requests r) (forced_workflow_workers r)
    (remaining_instances r) (remaining_workflow_workers r) (remaining_workflow_background_tasks r)
    (errors r).

Definition finish_server_drain (polls : nat) : prog Reply :=
  report <- drain_runtime_until polls;;
  report <- (if local_completed report then await_quiescence polls report else Ret report);;
  Ret (Drained (with_completed (local_completed report && other_processes_quiescent report) report)).

(** [drain_server_before_management]: the intent is persisted before the management lock is
    taken, so that a long deployment does not delay it. *)
Definition drain_server_before_management (polls : nat) (timeout_seconds : Z) : prog Reply :=
  prepared <- prepare_server_drain timeout_seconds;;
  match prepared with
  | Err e => Ret (Refused e)
  | Ok _ =>
      locked <~ LockManagementUntil;;
      if locked then
        reply <- finish_server_drain polls;;
        UnlockManagement;;; DropOperation;;; Ret reply
      else
        forced <~ ActiveCount;;
        shutdown <~ ForceRequestDrain;;
        remaining <~ ActiveCount;;
        DropOperation;;; Ret (ManagementBusy forced shutdown remaining)
  end.

(** [drain_server]: the caller holds the management lock. *)
Definition drain_server (polls : nat) (timeout_seconds : Z) : prog Reply :=
  prepared <- prepare_server_drain timeout_seconds;;
  match prepared with
  | Err e => Ret (Refused e)
  | Ok _ => reply <- finish_server_drain polls;; DropOperation;;; Ret reply
  end.

(** ** Resuming *)

(** One operation of a deployment, a stop or a restore. *)
Definition app_work (w : AppWork) : prog unit :=
  match w with
  | WRegister c => app <~ RegisterApp c;; LbRegister (deployment_id c) app;;; Ret tt
  | WUnregister name => RemoveApp name;;; LbUnregister name;;; Ret tt
  | WAllocate app => _ <~ AllocateInstance app;; Ret tt
  | WSpawn app id => _ <~ SpawnInstance app id;; Ret tt
  | WKill app id => _ <~ Kill app id;; Ret tt
  | WRemove app id => RemoveInstance app id;;; Ret tt
  | WConfig app c => UpdateConfig app c;;; Ret tt
  | WSetState app s => SetAppState app s;;; Ret tt
  end.

(** [restore_apps_from_state_store]: any work on the apps, then its outcome. *)
Definition restore_apps (work : list AppWork) : prog (result unit str) :=
  _ <- for_each work app_work;;
  outcome <~ RestoreOutcome;; Ret outcome.

Definition forget_app (name : str) : prog unit :=
  RemoveApp name;;; LbUnregister name;;; ColdReset name;;; Ret tt.

Definition show_bool (b : bool) : str := if b then bs "true" else bs "false".

(** A restore that fails stops what it started. *)
Definition undo_restore (message : str) : prog (result unit str) :=
  cleanup <- retry_runtime_drain;;
  Ret (Err (message ++ bs "; cleanup completed: " ++ show_bool (completed cleanup))).

(** [restore_drained_runtime]: the caller holds the management lock and the operation lease. *)
Definition restore_drained_runtime (work : list AppWork) (clear_intent : bool) : prog (result unit str) :=
  activity <~ AdoptActivity clear_intent;;
  match activity with
  | Err e => Ret (Err e)
  | Ok false => Ret (Err (bs "Server remains drained; activity lease is busy"))
  | Ok true =>
      names <~ ListApps;;
      _ <- for_each names forget_app;;
      restored <- restore_apps work;;
      match restored with
      | Err e => undo_restore (bs "Server remains drained; restore failed: " ++ e)
      | Ok _ =>
          resumed <~ ResumeRequests;;
          if resumed then
            let finish := (StoreFlag false;;; Ret (Ok tt)) in
            if clear_intent then
              cleared <~ SetDrainRequested false;;
              match cleared with
              | Err e => undo_restore (bs "Server remains drained; could not persist resume: " ++ e)
              | Ok _ => finish
              end
            else finish
          else undo_restore (bs "Server remains drained; proxy requests still active")
      end
  end.

(** What [resume_server] does under the operation lease. *)
Definition resume_locked (work : list AppWork) : prog Reply :=
  draining <- is_draining;;
  if negb draining then Ret (Resumed true)
  else
    requested <~ ReadRequested;;
    match requested with
    | Err e => Ret (Refused e)
    | Ok requested =>
        cleanup <- retry_runtime_drain;;
        if negb (completed cleanup) then Ret (Refused (bs "Server remains drained; cleanup is incomplete"))
        else
          let restore :=
            restored <- restore_drained_runtime work requested;;
            Ret (match restored with Ok _ => Resumed false | Err e => Refused e end) in
          if requested then
            exclusive <~ TryExclusive;;
            match exclusive with
            | Ok true => DropExclusive;;; restore
            | Ok false =>
                Ret (Refused (bs "Server remains drained; other processes are still cleaning up. Retry resume shortly."))
            | Err e => Ret (Refused e)
            end
          else restore
    end.

(** [resume_server]: the caller holds the management lock. *)
Definition resume_server (work : list AppWork) : prog Reply :=
  operation <~ TryOperation;;
  match operation with
  | Ok true => reply <- resume_locked work;; DropOperation;;; Ret reply
  | Ok false => Ret (Refused drain_busy)
  | Err e => Ret (Refused e)
  end.

(** ** The observer *)

(** The duration until the persisted deadline, in milliseconds. *)
Definition remaining_ms (wall_deadline now : Z) : Z := Z.min (u64_saturating_sub wall_deadline now) 3600000.

(** The drain of an observed request, under the management lock. *)
Definition observe_requested (polls : nat) : prog (result unit str) :=
  active <~ ActivityHeld;;
  if active then
    deadline <~ ReadDeadline;;
    match deadline with
    | Err e => Ret (Err e)
    | Ok wall_deadline =>
        now <~ UnixMillis;;
        report <- (if (remaining_ms wall_deadline now =? 0)%Z then retry_runtime_drain
                   else drain_runtime_until polls);;
        Ret (if completed report then Ok tt else Err (bs "Local runtime cleanup remains incomplete"))
    end
  else Ret (Ok tt).

(** The resume of a drain whose request has been withdrawn by another process. *)
Definition observe_withdrawn (work : list AppWork) : prog (result unit str) :=
  operation <~ TryOperation;;
  match operation with
  | Err e => Ret (Err e)
  | Ok false => Ret (Ok tt)
  | Ok true =>
      requested <~ ReadRequested;;
      r <- match requested with
           | Err e => Ret (Err e)
           | Ok true => Ret (Ok tt)
           | Ok false =>
               cleanup <- retry_runtime_drain;;
               if completed cleanup then restore_drained_runtime work false
               else Ret (Err (bs "Local cleanup remains incomplete before resume"))
           end;;
      DropOperation;;; Ret r
  end.

(** [observe_drain_once]. *)
Definition observe_drain_once (polls : nat) (work : list AppWork) : prog (result unit str) :=
  let reconcile :=
    flag <~ LoadFlag;;
    if negb flag then Ret (Ok tt)
    else
      LockManagement;;;
      requested <~ ReadRequested;;
      r <- match requested with
           | Err e => Ret (Err e)
           | Ok true => observe_requested polls
           | Ok false => observe_withdrawn work
           end;;
      UnlockManagement;;; Ret r in
  requested <~ ReadRequested;;
  match requested with
  | Err e => Ret (Err e)
  | Ok true => StoreFlag true;;; BeginRequestDrain;;; reconcile
  | Ok false => reconcile
  end.

(** ** Management commands *)

Section Management.
Context {J : JsonApi}.

Definition allocates (w : AppWork) : bool := match w with WAllocate _ => true | _ => false end.

(** [handle_command]: the commands other than drains and resumes are any work on apps; those
    that are not blocked while draining start no instance. *)
Definition handle_command (polls : nat) (work : list AppWork) (command : ServerCommand) : prog Reply :=
  let dispatch :=
    match command with
    | DrainServer timeout_seconds => drain_server polls timeout_seconds
    | ResumeServer => resume_server work
    | _ =>
        if command_is_read_only command then Ret Worked
        else _ <- for_each (if blocked_while_draining command then work
                            else retain (fun w => negb (allocates w)) work) app_work;;
             Ret Worked
    end in
  draining <- is_draining;;
  if draining && blocked_while_draining command
  then Ret (Refused (bs "Server is drained; resume it before starting new application work."))
  else dispatch.

(** The task of [handle_rpc_command]. *)
Definition handle_rpc_command (polls : nat) (work : list AppWork) (command : ServerCommand) : prog Reply :=
  match command with
  | DrainServer timeout_seconds => drain_server_before_management polls timeout_seconds
  | _ =>
      if command_is_read_only command then handle_command polls work command
      else LockManagement;;;
           reply <- handle_command polls work command;;
           UnlockManagement;;; Ret reply
  end.
End Management.

(** ** Tasks that start instances under the spawn gate *)

(** The task of a cold start's leader: it never waits for the gate. *)
Definition cold_start_leader (name : str) (app : nat) : prog Reply :=
  spawning <~ GateTryRead;;
  if negb spawning then MarkFailed name;;; Ret Worked
  else
    draining <~ LoadFlag;;
    if draining then MarkFailed name;;; GateDrop;;; Ret Worked
    else
      SetAppState app AppRunning;;;
      id <~ AllocateInstance app;;
      spawned <~ SpawnInstance app id;;
      match spawned with
      | Ok _ => GateDrop;;; Ret Worked
      | Err e =>
          SetAppState app AppError;;;
          SetLastError app (bs "Cold start failed: " ++ e);;;
          RemoveInstance app id;;;
          MarkFailed name;;;
          GateDrop;;; Ret Worked
      end.

(** [resolve_backend]: [None] stands for its errors. *)
Definition resolve_backend (name : str) : prog Reply :=
  draining <~ LoadFlag;;
  if draining then Ret (Backend None)
  else
    backend <~ LbGetBackend name;;
    match backend with
    | Some b => Ret (Backend (Some b))
    | None =>
        found <~ GetApp name;;
        match found with
        | None => Ret (Backend None)
        | Some app =>
            c <~ ReadConfig app;;
            if negb (min_instances c =? 0)%Z then Ret (Backend None)
            else
              leader <~ ColdBegin name;;
              let wait :=
                outcome <~ WaitForReady name;;
                match outcome with
                | WReady => backend <~ LbGetBackend name;; Ret (Backend backend)
                | _ => Ret (Backend None)
                end in
              if leader then SpawnLeader name app;;; wait else wait
        end
    end.

(** Work that changes the instances of apps and not the registry. *)
Definition on_instances (w : AppWork) : bool :=
  match w with WRegister _ | WUnregister _ => false | _ => true end.

(** [Spawner::reconcile_compose]: any work on instances, then its outcome. *)
Definition reconcile_compose (work : list AppWork) : prog (result unit str) :=
  _ <- for_each (retain on_instances work) app_work;;
  outcome <~ RestoreOutcome;; Ret outcome.

(** The instances of a build. *)
Definition count_build (app : nat) (build : str) : prog Z :=
  ids <~ GetInstances app;;
  fold_prog ids (fun count id =>
    b <~ BuildVersion app id;; Ret (if str_eqb b build then u32_wrapping_add count 1 else count)) 0%Z.

(** The replacement itself, under the read side of the gate. *)
Definition replace_admitted (work : list AppWork) (app : nat) (id : str) : prog unit :=
  build <~ BuildVersion app id;;
  c <~ ReadConfig app;;
  count <- count_build app build;;
  c' <~ ReadConfig app;;
  let min_for_build := if str_eqb build (version c) then min_instances c' else 0%Z in
  if (min_for_build <? count)%Z then
    _ <~ Kill app id;; RemoveInstance app id;;; Ret tt
  else
    _ <~ Kill app id;;
    RemoveInstance app id;;;
    compose <~ HasCompose app;;
    if compose then
      reconciled <- reconcile_compose work;;
      match reconciled with
      | Err e => SetLastError app (bs "Compose recovery failed: " ++ e);;; Ret tt
      | Ok _ => Ret tt
      end
    else
      new_id <~ AllocateInstance app;;
      spawned <~ SpawnInstance app new_id;;
      match spawned with
      | Ok _ => Ret tt
      | Err _ => RemoveInstance app new_id;;; Ret tt
      end.

(** [replace_instance_if_needed]. *)
Definition replace_instance_if_needed (work : list AppWork) (name id : str) : prog unit :=
  spawning <~ GateTryRead;;
  if negb spawning then Ret tt
  else
    draining <- is_draining;;
    if draining then GateDrop;;; Ret tt
    else
      found <~ GetApp name;;
      match found with
      | None => GateDrop;;; Ret tt
      | Some app =>
          compose <~ HasCompose app;;
          owned <- (if compose then locked <~ TryDeployLock name;; Ret locked else Ret true);;
          if negb owned then GateDrop;;; Ret tt
          else
            present <~ HasInstance app id;;
            if present then _ <- replace_admitted work app id;; GateDrop;;; Ret tt
            else GateDrop;;; Ret tt
      end.

(** [handle_health_event] for [Dead]. *)
Definition handle_dead (work : list AppWork) (name id : str) : prog Reply :=
  draining <- is_draining;;
  if draining then Ret Worked
  else
    found <~ GetApp name;;
    match found with
    | None => Ret Worked
    | Some app =>
        suppressed <~ Suppressed app id;;
        if suppressed then Ret Worked
        else
          present <~ HasInstance app id;;
          if negb present then Ret Worked
          else
            MarkFailed name;;;
            SetLastError app (bs "Instance marked dead");;;
            _ <- replace_instance_if_needed work name id;;
            Ret Worked
    end.

(** The body of [handle_idle_event] under the management lock. *)
Definition idle_locked (event : IdleEvent) : prog unit :=
  draining <- is_draining;;
  if draining then Ret tt
  else
    locked <~ TryDeployLock (match event with InstanceIdle app _ | AppIdleEvent app => app end);;
    if negb locked then Ret tt
    else
      match event with
      | InstanceIdle name id =>
          found <~ GetApp name;;
          match found with
          | None => Ret tt
          | Some app =>
              evict <~ MayEvict app id;;
              if negb evict then Ret tt
              else
                _ <~ Kill app id;;
                reset <~ FinishEvict app id;;
                if reset then ColdReset name;;; Ret tt else Ret tt
          end
      | AppIdleEvent name =>
          found <~ GetApp name;;
          match found with
          | None => ColdReset name;;; Ret tt
          | Some app =>
              idle <~ AppIdleNow app;;
              if idle then ColdReset name;;; Ret tt else Ret tt
          end
      end.

Definition handle_idle_event (event : IdleEvent) : prog Reply :=
  locked <~ TryLockManagement;;
  if negb locked then Ret Worked
  else _ <- idle_locked event;; UnlockManagement;;; Ret Worked.

(** ** Startup, and the retirement of a process *)

(** The restore at startup. *)
Definition startup (work : list AppWork) : prog Reply :=
  LockManagement;;;
  draining <- is_draining;;
  if draining then UnlockManagement;;; Ret Worked
  else _ <- restore_apps work;; UnlockManagement;;; Ret Worked.

(** One instance of a process that retires; [None] when it was removed. *)
Definition retire_instance (name : str) (app : nat) (id : str) : prog (option str) :=
  SetInstanceState app id Draining;;;
  DisownCompose app id;;;
  killed <~ KillUntil app id;;
  match killed with
  | Some (Ok _) => RemoveInstance app id;;; Ret None
  | Some (Err e) => Ret (Some (bs "Local instance retirement failed: " ++ app_message name e))
  | None => Ret (Some (bs "Local instance retirement timed out: " ++ name))
  end.

(** A loop that stops at the first error. *)
Fixpoint until_error {A} (l : list A) (f : A -> prog (option str)) : prog (option str) :=
  match l with
  | [] => Ret None
  | x :: l' => e <- f x;; match e with Some m => Ret (Some m) | None => until_error l' f end
  end.

Definition retire_app (name : str) : prog (option str) :=
  found <~ GetApp name;;
  match found with
  | None => Ret None
  | Some app =>
      SetAppState app AppStopped;;;
      ids <~ GetInstances app;;
      until_error ids (retire_instance name app)
  end.

(** Requests and workflows end before the deadline. *)
Fixpoint await_local (polls : nat) : prog bool :=
  match polls with
  | O => Ret false
  | S polls' =>
      let wait := expired <~ Expired;; if expired then Ret false else await_local polls' in
      active <~ ActiveCount;;
      if (active =? 0)%nat then
        status <~ WorkflowsStatus;;
        if is_complete status then Ret true else wait
      else wait
  end.

(** [retire_local_runtime]: an error is [Some]. *)
Definition retire_local_runtime (polls : nat) : prog (option str) :=
  settled <~ GateWriteUntil;;
  if negb settled
  then Ret (Some (bs "Local instance spawns did not settle before the retirement deadline"))
  else
    WorkflowsBegin;;;
    _ <~ ForceRequestDrain;;
    forced <~ WorkflowsForce;;
    if negb (forced.2 =? 0)%nat then GateDrop;;; Ret (Some (bs "Failed to signal local workflow workers"))
    else
      names <~ ListApps;;
      failed <- until_error names retire_app;;
      match failed with
      | Some e => GateDrop;;; Ret (Some e)
      | None =>
          quiet <- await_local polls;;
          if negb quiet
          then GateDrop;;; Ret (Some (bs "Local requests or workflow workers remain after retirement deadline"))
          else
            closed <~ WorkflowsShutdown;;
            if negb closed then GateDrop;;; Ret (Some (bs "Local workflow socket shutdown timed out"))
            else TakeActivity;;; GateDrop;;; Ret None
      end.

(** [promote]: once the local runtime is gated the task keeps the management lock for ever;
    [deferred] tells whether an upgrade is in progress. *)
Definition promote (polls : nat) (deferred : bool) : prog Reply :=
  LockManagement;;;
  if deferred then UnlockManagement;;; Ret (Refused (bs "Native promotion deferred while an upgrade is active"))
  else
    StoreFlag true;;;
    BeginRequestDrain;;;
    _ <- retire_local_runtime polls;;
    Ret Forever.
