(* ===== verification/ServerDrainSem.v ===== *)
(** * The processes of a host at work

    The state that the programs of [ServerDrain] share, what each action does to it, and the
    events of a host: processes start and exit, tasks are started and interleave action by
    action, requests arrive and end, and app objects are changed by health checks, spawners
    and the requests they serve. *)

From S2P Require Import Prelude RustStr Codec Protocol ColdStart Instances Health RequestDrain ServerDrain.

(** ** State *)

Record Proc := mkProc {
  drain_requested : bool;                (** the atomic flag *)
  drain_activity : bool;                 (** whether the slot holds an activity lease *)
  management_lock : option nat;          (** the task that holds it *)
  gate_writer : option nat;
  gate_readers : gset nat;
  proxy_requests : RequestDrain.State;
  registry : gmap str nat;               (** [AppManager::apps] *)
  heap : gmap nat App;                   (** every app object, registered or not *)
  next_app : nat;
  app_lbs : gmap str (nat * Z);          (** [LoadBalancer]: the app and its counter *)
  cold_start : ColdStartManager;
  tasks : gmap nat (prog Reply);
  next_task : nat;
}.

(** A process that starts has tried the activity lease before it reads the store. *)
Inductive Process := Booting (lease : bool) | Running (P : Proc).

Record World := mkWorld {
  requested : bool;                      (** the row [server_drain] *)
  deadline_unix_ms : Z;
  operation_lease : option (nat * nat);  (** the process and the task that hold it *)
  exclusive_lease : option (nat * nat);
  procs : gmap nat Process;
  granted : gset (nat * nat);            (** the tasks that ever got the exclusive lease *)
}.

Definition holds_shared (x : Process) : bool :=
  match x with Booting lease => lease | Running P => drain_activity P end.

(** ** Updates *)

Definition with_procs (w : World) (m : gmap nat Process) : World :=
  mkWorld (requested w) (deadline_unix_ms w) (operation_lease w) (exclusive_lease w) m (granted w).
Definition with_row (w : World) (b : bool) (deadline : Z) : World :=
  mkWorld b deadline (operation_lease w) (exclusive_lease w) (procs w) (granted w).
Definition with_operation (w : World) (o : option (nat * nat)) : World :=
  mkWorld (requested w) (deadline_unix_ms w) o (exclusive_lease w) (procs w) (granted w).
Definition with_exclusive (w : World) (o : option (nat * nat)) (g : gset (nat * nat)) : World :=
  mkWorld (requested w) (deadline_unix_ms w) (operation_lease w) o (procs w) g.

Definition with_flag (P : Proc) (b : bool) : Proc :=
  mkProc b (drain_activity P) (management_lock P) (gate_writer P) (gate_readers P) (proxy_requests P)
    (registry P) (heap P) (next_app P) (app_lbs P) (cold_start P) (tasks P) (next_task P).
Definition with_activity (P : Proc) (b : bool) : Proc :=
  mkProc (drain_requested P) b (management_lock P) (gate_writer P) (gate_readers P) (proxy_requests P)
    (registry P) (heap P) (next_app P) (app_lbs P) (cold_start P) (tasks P) (next_task P).
Definition with_management (P : Proc) (o : option nat) : Proc :=
  mkProc (drain_requested P) (drain_activity P) o (gate_writer P) (gate_readers P) (proxy_requests P)
    (registry P) (heap P) (next_app P) (app_lbs P) (cold_start P) (tasks P) (next_task P).
Definition with_gate (P : Proc) (wr : option nat) (rs : gset nat) : Proc :=
  mkProc (drain_requested P) (drain_activity P) (management_lock P) wr rs (proxy_requests P)
    (registry P) (heap P) (next_app P) (app_lbs P) (cold_start P) (tasks P) (next_task P).
Definition with_requests (P : Proc) (s : RequestDrain.State) : Proc :=
  mkProc (drain_requested P) (drain_activity P) (management_lock P) (gate_writer P) (gate_readers P) s
    (registry P) (heap P) (next_app P) (app_lbs P) (cold_start P) (tasks P) (next_task P).
Definition with_apps (P : Proc) (r : gmap str nat) (h : gmap nat App) (n : nat) : Proc :=
  mkProc (drain_requested P) (drain_activity P) (management_lock P) (gate_writer P) (gate_readers P)
    (proxy_requests P) r h n (app_lbs P) (cold_start P) (tasks P) (next_task P).
Definition with_routing (P : Proc) (lbs : gmap str (nat * Z)) (c : ColdStartManager) : Proc :=
  mkProc (drain_requested P) (drain_activity P) (management_lock P) (gate_writer P) (gate_readers P)
    (proxy_requests P) (registry P) (heap P) (next_app P) lbs c (tasks P) (next_task P).
Definition with_tasks (P : Proc) (m : gmap nat (prog Reply)) (n : nat) : Proc :=
  mkProc (drain_requested P) (drain_activity P) (management_lock P) (gate_writer P) (gate_readers P)
    (proxy_requests P) (registry P) (heap P) (next_app P) (app_lbs P) (cold_start P) m n.

Definition set_app (P : Proc) (app : nat) (f : App -> App) : Proc :=
  with_apps P (registry P) (alter f app (heap P)) (next_app P).

Definition app_at (P : Proc) (app : nat) : App :=
  default (App_new (mkAppConfig [] [] [] 0 0 [] [] 0 0)) (heap P !! app).

(** ** The activity lease *)

(** [DrainLease::try_acquire] with [LOCK_NB], for the activity file: an exclusive lock is
    granted when no other descriptor has a lock, a shared one when none is exclusive; opening
    or checking the file may fail. *)
Definition try_acquire (exclusive : bool) (c : Choice) (w : World) : result bool str :=
  match c with
  | Fail e => Err e
  | _ =>
      if bool_decide (exclusive_lease w = None) then
        Ok (negb (exclusive && bool_decide (map_Exists (fun _ x => holds_shared x = true) (procs w))))
      else Ok false
  end.

(** ** The actions *)

Section Semantics.
Context `{!HashIter str nat} `{InstanceIter}.

(** What an action of task [t] does to its process, for those that touch nothing else;
    [None]: it has to wait. *)
Definition perform_local (t : nat) (c : Choice) (P : Proc) {A} (a : act A) : option (Proc * A) :=
  match a in act A return option (Proc * A) with
  | LoadFlag => Some (P, drain_requested P)
  | StoreFlag b => Some (with_flag P b, tt)
  | ActivityHeld => Some (P, drain_activity P)
  | TakeActivity => Some (with_activity P false, tt)
  | LockManagement =>
      match management_lock P with None => Some (with_management P (Some t), tt) | Some _ => None end
  | LockManagementUntil =>
      match c with
      | Refuse => Some (P, false)
      | _ => match management_lock P with
             | None => Some (with_management P (Some t), true) | Some _ => None end
      end
  | TryLockManagement =>
      match management_lock P with
      | None => Some (with_management P (Some t), true) | Some _ => Some (P, false) end
  | UnlockManagement =>
      (** a guard is dropped by the task that holds it *)
      Some (if bool_decide (management_lock P = Some t) then with_management P None else P, tt)
  | GateTryRead =>
      (** a writer that waits makes it fail, too *)
      match c, gate_writer P with
      | Refuse, _ | _, Some _ => Some (P, false)
      | _, None => Some (with_gate P None ({[t]} ∪ gate_readers P), true)
      end
  | GateWriteUntil =>
      match c, gate_writer P with
      | Refuse, _ => Some (P, false)
      | _, None => if bool_decide (gate_readers P = ∅) then Some (with_gate P (Some t) ∅, true) else None
      | _, Some _ => None
      end
  | GateDrop =>
      Some (with_gate P (if bool_decide (gate_writer P = Some t) then None else gate_writer P)
              (gate_readers P ∖ {[t]}), tt)
  | BeginRequestDrain => Some (with_requests P (begin_drain (proxy_requests P)), tt)
  | ForceRequestDrain =>
      let '(s, n) := force_drain (proxy_requests P) in Some (with_requests P s, n)
  | ActiveCount => Some (P, active_count (proxy_requests P))
  | ResumeRequests => let '(s, ok) := resume (proxy_requests P) in Some (with_requests P s, ok)
  | WorkflowsBegin => Some (P, tt)
  | WorkflowsStatus =>
      match c with Counts x y => Some (P, mkDrainStatus x y) | _ => Some (P, mkDrainStatus 0 0) end
  | WorkflowsForce => match c with Counts x y => Some (P, (x, y)) | _ => Some (P, (0, 0)) end
  | WorkflowsShutdown | Expired => match c with Refuse => Some (P, false) | _ => Some (P, true) end
  | UnixMillis => match c with At now => Some (P, Z.max 0 (Z.min u64_max now)) | _ => Some (P, 0%Z) end
  | ListApps => Some (P, (hash_iter (registry P)).*1)
  | GetApp name => Some (P, registry P !! name)
  | RegisterApp cfg =>
      let app := next_app P in
      Some (with_apps P (<[deployment_id cfg := app]> (registry P)) (<[app := App_new cfg]> (heap P))
              (S app), app)
  | RemoveApp name => Some (with_apps P (delete name (registry P)) (heap P) (next_app P), tt)
  | ReadConfig app => Some (P, Instances.config (app_at P app))
  | UpdateConfig app cfg => Some (set_app P app (fun a => update_config a cfg), tt)
  | HasCompose _ | TryDeployLock _ => match c with Refuse => Some (P, false) | _ => Some (P, true) end
  | ComposeStop _ =>
      match c with Refuse => Some (P, None) | Fail e => Some (P, Some (Err e)) | _ => Some (P, Some (Ok tt)) end
  | SetAppState app s => Some (set_app P app (fun a => set_app_state a s), tt)
  | SetLastError app e => Some (set_app P app (fun a => set_last_error a (Some e)), tt)
  | GetInstances app => Some (P, get_instances (app_at P app))
  | HasInstance app id => Some (P, bool_decide (id ∈ instances (app_at P app)))
  | BuildVersion app id =>
      Some (P, match objs (app_at P app) !! id with Some i => build_version i | None => [] end)
  | Suppressed app id => Some (P, is_instance_routing_suppressed (app_at P app) id)
  | SetInstanceState app id s => Some (set_app P app (fun a => set_instance_state a id s), tt)
  | InFlight app id =>
      Some (P, match objs (app_at P app) !! id with Some i => Instances.in_flight i | None => 0%Z end)
  | KillUntil app id =>
      match c with
      | Killed env =>
          Some (set_app P app (fun a => (kill_instance a id env).1), Some (kill_instance (app_at P app) id env).2)
      | Cut env =>
          (** cancelled where [kill] awaits: what a failing [kill] leaves *)
          match (kill_instance (app_at P app) id env).2 with
          | Err _ => Some (set_app P app (fun a => (kill_instance a id env).1), None)
          | Ok _ => None
          end
      | _ => Some (P, None)
      end
  | Kill app id =>
      match c with
      | Killed env =>
          Some (set_app P app (fun a => (kill_instance a id env).1), (kill_instance (app_at P app) id env).2)
      | _ => None
      end
  | DisownCompose app id =>
      Some (set_app P app (fun a => write_instance a id (fun i =>
              set_runtime (process i) (container i) (match compose i with Some _ => Some false | None => None end)
                (upstream i) (state_code i) i)), tt)
  | RemoveInstance app id => Some (set_app P app (fun a => remove_instance a id), tt)
  | AllocateInstance app =>
      match c with
      | Fresh id now =>
          if bool_decide (objs (app_at P app) !! id = None)
          then Some (set_app P app (fun a => allocate_instance a id now), id) else None
      | _ => None
      end
  | SpawnInstance _ _ | RestoreOutcome => match c with Fail e => Some (P, Err e) | _ => Some (P, Ok tt) end
  | MayEvict app id => match c with At now => Some (P, may_evict now (app_at P app) id) | _ => None end
  | FinishEvict app id =>
      Some (set_app P app (fun a => (finish_evict a id).1), (finish_evict (app_at P app) id).2)
  | AppIdleNow app =>
      Some (set_app P app (fun a => (handle_app_idle a).1), (handle_app_idle (app_at P app)).2)
  | LbRegister name app => Some (with_routing P (<[name := (app, 0%Z)]> (app_lbs P)) (cold_start P), tt)
  | LbUnregister name => Some (with_routing P (delete name (app_lbs P)) (cold_start P), tt)
  | LbGetBackend name =>
      match app_lbs P !! name with
      | None => Some (P, None)
      | Some (app, rr) =>
          let '(rr', b) := get_backend rr (app_at P app) in
          Some (with_routing P (<[name := (app, rr')]> (app_lbs P)) (cold_start P), b)
      end
  | ColdBegin name =>
      match c with
      | At now => let '(m, leader) := begin (cold_start P) name now in
                  Some (with_routing P (app_lbs P) m, leader)
      | _ => None
      end
  | SpawnLeader name app =>
      Some (with_tasks P (<[next_task P := cold_start_leader name app]> (tasks P)) (S (next_task P)), tt)
  | MarkFailed name => Some (with_routing P (app_lbs P) (mark_failed (cold_start P) name), tt)
  | ColdReset name => Some (with_routing P (app_lbs P) (reset (cold_start P) name), tt)
  | WaitForReady _ => match c with Outcome o => Some (P, o) | _ => None end
  | ReadRequested | ReadDeadline | RequestDrainUntil _ | SetDrainRequested _ | TryOperation
  | DropOperation | TryExclusive | DropExclusive | AdoptActivity _ => None
  end.

(** The actions on the store and the lock files. *)
Definition perform (p t : nat) (c : Choice) (w : World) (P : Proc) {A} (a : act A) : option (World * A) :=
  match a in act A return option (World * A) -> option (World * A) with
  | ReadRequested => fun _ => Some (w, match c with Fail e => Err e | _ => Ok (requested w) end)
  | ReadDeadline => fun _ => Some (w, match c with Fail e => Err e | _ => Ok (deadline_unix_ms w) end)
  | RequestDrainUntil d => fun _ =>
      if (i64_max <? d)%Z then Some (w, Err (bs "drain deadline exceeds SQLite integer range"))
      else match c with Fail e => Some (w, Err e) | _ => Some (with_row w true d, Ok tt) end
  | SetDrainRequested b => fun _ =>
      match c with Fail e => Some (w, Err e) | _ => Some (with_row w b 0, Ok tt) end
  | TryOperation => fun _ =>
      match c with
      | Fail e => Some (w, Err e)
      | _ => if bool_decide (operation_lease w = None) then Some (with_operation w (Some (p, t)), Ok true)
             else Some (w, Ok false)
      end
  | DropOperation => fun _ =>
      Some (if bool_decide (operation_lease w = Some (p, t)) then with_operation w None else w, tt)
  | TryExclusive => fun _ =>
      match try_acquire true c w with
      | Ok true => Some (with_exclusive w (Some (p, t)) ({[(p, t)]} ∪ granted w), Ok true)
      | r => Some (w, r)
      end
  | DropExclusive => fun _ =>
      Some (if bool_decide (exclusive_lease w = Some (p, t)) then with_exclusive w None (granted w) else w, tt)
  | AdoptActivity _ => fun _ =>
      match try_acquire false c w with
      | Ok true => Some (with_procs w (<[p := Running (with_activity P true)]> (procs w)), Ok true)
      | r => Some (w, r)
      end
  | _ => fun local => local
  end (match perform_local t c P a with
       | Some (P', x) => Some (with_procs w (<[p := Running P']> (procs w)), x)
       | None => None
       end).

(** ** Events *)

Context {J : JsonApi}.

Inductive Task :=
| TRequest (name : str)
| TDead (work : list AppWork) (name id : str)
| TIdle (event : IdleEvent)
| TRpc (polls : nat) (work : list AppWork) (command : ServerCommand)
| TObserve (polls : nat) (work : list AppWork)
| TStartup (work : list AppWork)
| TPromote (polls : nat) (deferred : bool).

Definition task_prog (task : Task) : prog Reply :=
  match task with
  | TRequest name => resolve_backend name
  | TDead work name id => handle_dead work name id
  | TIdle event => handle_idle_event event
  | TRpc polls work command => handle_rpc_command polls work command
  | TObserve polls work => r <- observe_drain_once polls work;; Ret (Observed r)
  | TStartup work => startup work
  | TPromote polls deferred => promote polls deferred
  end.

Inductive Event :=
| EvBoot (p : nat) (c : Choice)
| EvOpen (p : nat) (c : Choice) (cfg : ColdStartConfig)
| EvExit (p : nat)
| EvStart (p : nat) (task : Task)
| EvStep (p t : nat) (c : Choice)
| EvApp (p app : nat) (a : App)
| EvRequest (p : nat) (socket : bool)
| EvLongLived (p : nat) (id : Z)
| EvRequestDone (p : nat) (id : Z).

(** The state of a process that has just been created ([ServerState::new_with_runtime]). *)
Definition new_proc (drain activity : bool) (cfg : ColdStartConfig) : Proc :=
  mkProc drain activity None None ∅
    (if drain then begin_drain RequestDrain_default else RequestDrain_default)
    ∅ ∅ 0 ∅ (ColdStart.new cfg) ∅ 0.

Definition on_proc (w : World) (p : nat) (f : Proc -> option Proc) : option World :=
  match procs w !! p with
  | Some (Running P) =>
      match f P with Some P' => Some (with_procs w (<[p := Running P']> (procs w))) | None => None end
  | _ => None
  end.

Definition exec (ev : Event) (w : World) : option World :=
  match ev with
  | EvBoot p c =>
      match procs w !! p, try_acquire false c w with
      | None, Ok lease => Some (with_procs w (<[p := Booting lease]> (procs w)))
      | _, _ => None
      end
  | EvOpen p c cfg =>
      match procs w !! p with
      | Some (Booting lease) =>
          match c with
          | Fail _ => Some (with_procs w (delete p (procs w)))
          | _ =>
              if negb lease && negb (requested w) then Some (with_procs w (delete p (procs w)))
              else Some (with_procs w (<[p := Running (new_proc (requested w)
                          (if requested w then false else lease) cfg)]> (procs w)))
          end
      | _ => None
      end
  | EvExit p =>
      (** the kernel releases the locks of a process that exits *)
      let keep (o : option (nat * nat)) :=
        match o with Some (q, t) => if bool_decide (q = p) then None else Some (q, t) | None => None end in
      Some (mkWorld (requested w) (deadline_unix_ms w) (keep (operation_lease w)) (keep (exclusive_lease w))
              (delete p (procs w)) (granted w))
  | EvStart p task =>
      on_proc w p (fun P => Some (with_tasks P (<[next_task P := task_prog task]> (tasks P)) (S (next_task P))))
  | EvStep p t c =>
      match procs w !! p with
      | Some (Running P) =>
          match tasks P !! t with
          | Some (Do a k) =>
              match perform p t c w P a with
              | Some (w', x) =>
                  on_proc w' p (fun P' => Some (with_tasks P' (<[t := k x]> (tasks P')) (next_task P')))
              | None => None
              end
          | _ => None
          end
      | _ => None
      end
  | EvApp p app a =>
      (** anything but a new instance may happen to an app object *)
      on_proc w p (fun P => if bool_decide (instances a ⊆ instances (app_at P app))
                            then Some (set_app P app (fun _ => a)) else None)
  | EvRequest p socket => on_proc w p (fun P => Some (with_requests P (register socket (proxy_requests P)).1))
  | EvLongLived p id => on_proc w p (fun P => Some (with_requests P (mark_long_lived id (proxy_requests P))))
  | EvRequestDone p id => on_proc w p (fun P => Some (with_requests P (guard_drop id (proxy_requests P))))
  end.

Fixpoint execs (evs : list Event) (w : World) : option World :=
  match evs with
  | [] => Some w
  | ev :: evs' => match exec ev w with Some w' => execs evs' w' | None => None end
  end.

(** A host without processes, with the row as the last ones left it. *)
Definition idle_host (drained : bool) (deadline : Z) : World := mkWorld drained deadline None None ∅ ∅.

Definition reachable (w : World) : Prop :=
  exists drained deadline evs, execs evs (idle_host drained deadline) = Some w.
End Semantics.
