(* ===== verification/ServerDrainLocks.v ===== *)
(** * The lock discipline of drains

    What a task of [ServerDrain] may rely on while it holds the management lock, a side of
    the spawn gate or the operation lease: [know] is what it knows, [pre] what an action
    requires, [post] what the task knows after it, and [wt] says that a program keeps to it.
    [perform_sound] is the soundness of the rules: an action within the discipline keeps the
    invariant of its process, leaves what every other task knows true, and makes [post] true. *)

From S2P Require Import Prelude RustStr Codec Protocol ColdStart Instances Health RequestDrain ServerDrain ServerDrainSem.

Inductive gate_know := GNone | GRead | GWrite.

#[global] Instance gate_know_eq_dec : EqDecision gate_know.
Proof. solve_decision. Defined.

Record know := Know {
  k_mgmt : bool;                         (** it holds the management lock *)
  k_op : bool;                           (** it holds the operation lease *)
  k_gate : gate_know;                    (** the side of the gate it holds *)
  k_active : bool;                       (** the process has an activity lease *)
  k_flag : bool;                         (** the flag is set *)
  k_closed : bool;                       (** requests are not admitted *)
  k_idle : bool;                         (** and none is in progress *)
  k_req : option bool;                   (** the row of the store *)
  k_names : option (gset str);           (** these are all registered names *)
  k_look : gmap str (option nat);        (** what the registry maps names to *)
  k_bound : gmap nat (gset str);         (** the instances of an app are among these *)
  k_granted : bool;                      (** it has had the exclusive lease *)
}.

Definition no_know : know := Know false false GNone false false false false None None ∅ ∅ false.

Record holds (p t : nat) (K : know) (w : World) (P : Proc) : Prop := {
  h_mgmt : k_mgmt K = true -> management_lock P = Some t;
  h_op : k_op K = true -> operation_lease w = Some (p, t);
  h_read : k_gate K = GRead -> t ∈ gate_readers P;
  h_write : k_gate K = GWrite -> gate_writer P = Some t;
  h_active : k_active K = true -> drain_activity P = true;
  h_flag : k_flag K = true -> drain_requested P = true;
  h_closed : k_closed K = true -> admission (proxy_requests P) = DrainingAdmission;
  h_idle : k_idle K = true -> active (proxy_requests P) = ∅;
  h_req b : k_req K = Some b -> requested w = b;
  h_names s : k_names K = Some s -> dom (registry P) ⊆ s;
  h_look name o : k_look K !! name = Some o -> registry P !! name = o;
  h_bound a s app : k_bound K !! a = Some s -> heap P !! a = Some app -> instances app ⊆ s;
  h_granted : k_granted K = true -> (p, t) ∈ granted w;
}.

(** What is known is protected by a lock that the task holds. *)
Record wf (K : know) : Prop := {
  wf_active : k_active K = true -> k_mgmt K = true \/ k_gate K = GRead;
  wf_flag : k_flag K = true -> k_mgmt K = true;
  wf_closed : k_closed K = true -> k_mgmt K = true;
  wf_idle : k_idle K = true -> k_closed K = true;
  wf_req : k_req K <> None -> k_op K = true;
  wf_names : k_names K <> None -> k_mgmt K = true;
  wf_look : k_look K <> ∅ -> k_mgmt K = true;
  wf_bound : k_bound K <> ∅ -> k_mgmt K = true /\ k_gate K = GWrite;
}.

(** ** The rules *)

Definition know_flag (K : know) (b : bool) : know :=
  Know (k_mgmt K) (k_op K) (k_gate K) (k_active K) b (k_closed K) (k_idle K) (k_req K) (k_names K)
    (k_look K) (k_bound K) (k_granted K).
Definition know_active (K : know) (b : bool) : know :=
  Know (k_mgmt K) (k_op K) (k_gate K) b (k_flag K) (k_closed K) (k_idle K) (k_req K) (k_names K)
    (k_look K) (k_bound K) (k_granted K).
Definition know_requests (K : know) (closed idle : bool) : know :=
  Know (k_mgmt K) (k_op K) (k_gate K) (k_active K) (k_flag K) closed idle (k_req K) (k_names K)
    (k_look K) (k_bound K) (k_granted K).
Definition know_op (K : know) (b : bool) (r : option bool) : know :=
  Know (k_mgmt K) b (k_gate K) (k_active K) (k_flag K) (k_closed K) (k_idle K) r (k_names K)
    (k_look K) (k_bound K) (k_granted K).
Definition know_apps (K : know) (n : option (gset str)) (l : gmap str (option nat)) (b : gmap nat (gset str))
    : know :=
  Know (k_mgmt K) (k_op K) (k_gate K) (k_active K) (k_flag K) (k_closed K) (k_idle K) (k_req K) n l b
    (k_granted K).
Definition know_granted (K : know) : know :=
  Know (k_mgmt K) (k_op K) (k_gate K) (k_active K) (k_flag K) (k_closed K) (k_idle K) (k_req K) (k_names K)
    (k_look K) (k_bound K) true.

Definition gate_eqb (a b : gate_know) : bool := bool_decide (a = b).

Definition know_locked (K : know) : know :=
  Know true (k_op K) (k_gate K) (k_active K) (k_flag K) (k_closed K) (k_idle K) (k_req K) (k_names K)
    (k_look K) (k_bound K) (k_granted K).
Definition know_unlocked (K : know) : know :=
  Know false (k_op K) (k_gate K) (k_active K && gate_eqb (k_gate K) GRead) false false false (k_req K)
    None ∅ ∅ (k_granted K).
Definition know_gate (K : know) (g : gate_know) : know :=
  Know (k_mgmt K) (k_op K) g (k_active K) (k_flag K) (k_closed K) (k_idle K) (k_req K) (k_names K)
    (k_look K) (k_bound K) (k_granted K).
Definition know_ungated (K : know) : know :=
  Know (k_mgmt K) (k_op K) GNone (k_active K && k_mgmt K) (k_flag K) (k_closed K) (k_idle K) (k_req K)
    (k_names K) (k_look K) ∅ (k_granted K).

(** Nothing of the local runtime is left. *)
Definition knows_stopped (K : know) : Prop :=
  k_mgmt K = true /\ k_gate K = GWrite /\ k_flag K = true /\ k_idle K = true
  /\ exists names, k_names K = Some names /\ forall name, name ∈ names ->
       exists o, k_look K !! name = Some o /\ forall a, o = Some a -> k_bound K !! a = Some ∅.

Definition pre {A} (a : act A) (K : know) : Prop :=
  match a with
  | StoreFlag false => k_active K = true /\ k_mgmt K = true
  | RequestDrainUntil _ => k_op K = true
  | SetDrainRequested _ => k_op K = true /\ k_active K = true
  | TryExclusive => k_req K = Some true
  | AdoptActivity clear_intent =>
      k_op K = true /\ k_mgmt K = true /\ (clear_intent = false -> k_req K = Some false)
  | TakeActivity => knows_stopped K
  | GateTryRead | GateWriteUntil => k_gate K = GNone
  | ResumeRequests => k_active K = true /\ k_mgmt K = true
  | RegisterApp _ | RemoveApp _ => k_mgmt K = true
  | KillUntil _ _ => k_gate K = GWrite
  | AllocateInstance _ => k_active K = true
  | _ => True
  end.

(** [None]: the answer is impossible. *)
Definition post {A} (a : act A) (K : know) : A -> option know :=
  match a in act A return A -> option know with
  | LoadFlag => fun flag =>
      if flag then Some K
      else if k_mgmt K || gate_eqb (k_gate K) GRead then Some (know_active K true) else Some K
  | StoreFlag b => fun _ => Some (know_flag K (b && k_mgmt K))
  | ReadRequested => fun r =>
      match r with
      | Err _ => Some K
      | Ok b =>
          match k_req K with
          | Some b' => if Bool.eqb b b' then Some K else None
          | None => if k_op K then Some (know_op K true (Some b)) else Some K
          end
      end
  | RequestDrainUntil _ => fun r => match r with Ok _ => Some (know_op K true (Some true)) | Err _ => Some K end
  | SetDrainRequested b => fun r => match r with Ok _ => Some (know_op K true (Some b)) | Err _ => Some K end
  | TryOperation => fun r => match r with Ok true => Some (know_op K true None) | _ => Some K end
  | DropOperation => fun _ => Some (know_op K false None)
  | TryExclusive => fun r => match r with Ok true => Some (know_granted K) | _ => Some K end
  | AdoptActivity _ => fun r => match r with Ok true => Some (know_active K true) | _ => Some K end
  | TakeActivity => fun _ => Some (know_active K false)
  | LockManagement => fun _ => Some (know_locked K)
  | LockManagementUntil | TryLockManagement => fun ok : bool => Some (if ok then know_locked K else K)
  | UnlockManagement => fun _ => Some (know_unlocked K)
  | GateTryRead => fun ok : bool => Some (if ok then know_gate K GRead else K)
  | GateWriteUntil => fun ok : bool => Some (if ok then know_gate K GWrite else K)
  | GateDrop => fun _ => Some (know_ungated K)
  | BeginRequestDrain => fun _ => Some (know_requests K (k_mgmt K) (k_idle K))
  | ForceRequestDrain => fun _ => Some (know_requests K (k_mgmt K) (k_idle K))
  | ActiveCount => fun n => Some (if (n =? 0)%nat then know_requests K (k_closed K) (k_closed K) else K)
  | ResumeRequests => fun _ => Some (know_requests K false false)
  | ListApps => fun names =>
      Some (if k_mgmt K then know_apps K (Some (list_to_set names)) (k_look K) (k_bound K) else K)
  | GetApp name => fun o =>
      Some (if k_mgmt K then know_apps K (k_names K) (<[name := o]> (k_look K)) (k_bound K) else K)
  | RegisterApp _ => fun _ => Some (know_apps K None ∅ ∅)
  | RemoveApp _ => fun _ => Some (know_apps K None ∅ ∅)
  | GetInstances a => fun ids =>
      Some (if k_mgmt K && gate_eqb (k_gate K) GWrite
            then know_apps K (k_names K) (k_look K) (<[a := list_to_set ids]> (k_bound K)) else K)
  | RemoveInstance a id => fun _ =>
      Some (know_apps K (k_names K) (k_look K) (alter (fun s => s ∖ {[id]}) a (k_bound K)))
  | AllocateInstance _ => fun _ => Some (know_apps K (k_names K) (k_look K) ∅)
  | _ => fun _ => Some K
  end.

(** A program keeps to the discipline and ends with [Q]. *)
Fixpoint wt {R} (m : prog R) (K : know) (Q : R -> know -> Prop) : Prop :=
  match m with
  | Ret r => Q r K
  | Do a k => pre a K /\ forall x, match post a K x with Some K' => wt (k x) K' Q | None => True end
  end.

Lemma wt_mono {R} (m : prog R) (Q Q' : R -> know -> Prop) : forall K,
  (forall r K', Q r K' -> Q' r K') -> wt m K Q -> wt m K Q'.
Proof.
  induction m as [r|A a k IH]; intros K HQ; simpl; [by apply HQ|].
  intros [Hp Hk]. split; [done|]. intros x. specialize (Hk x). destruct (post a K x); [|done].
  by apply IH.
Qed.

Lemma wt_bind {R S} (m : prog R) (f : R -> prog S) (Q : S -> know -> Prop) : forall K,
  wt m K (fun r K' => wt (f r) K' Q) -> wt (bind m f) K Q.
Proof.
  induction m as [r|A a k IH]; intros K; simpl; [done|].
  intros [Hp Hk]. split; [done|]. intros x. specialize (Hk x). destruct (post a K x); [|done].
  by apply IH.
Qed.

(** Loops, with an invariant. *)
Lemma wt_for_each {A} (l : list A) (f : A -> prog unit) (I : know -> Prop) (Q : unit -> know -> Prop) : forall K,
  (forall x K', x ∈ l -> I K' -> wt (f x) K' (fun _ K'' => I K'')) ->
  I K -> (forall K', I K' -> Q tt K') -> wt (for_each l f) K Q.
Proof.
  induction l as [|x l IH]; intros K Hf HI HQ; simpl; [by apply HQ|].
  apply wt_bind. eapply wt_mono; [|apply Hf; [by left|done]].
  intros [] K' HI'. apply IH; [|done|done]. intros y K2 Hy. apply Hf. by right.
Qed.

(** The invariant may depend on what has been processed and on the value. *)
Lemma wt_fold {A S} (f : S -> A -> prog S) (I : list A -> S -> know -> Prop) (Q : S -> know -> Prop) (l : list A) :
  forall d s K,
  (forall d x s K', x ∈ l -> I d s K' -> wt (f s x) K' (fun s' K'' => I (d ++ [x]) s' K'')) ->
  I d s K -> (forall s K', I (d ++ l) s K' -> Q s K') -> wt (fold_prog l f s) K Q.
Proof.
  induction l as [|x l IH]; intros d s K Hf HI HQ; simpl.
  { apply HQ. by rewrite app_nil_r. }
  apply wt_bind. eapply wt_mono; [|apply Hf; [by left|done]].
  intros s' K' HI'. apply (IH (d ++ [x])); [|done|].
  - intros d' y s2 K2 Hy. apply Hf. by right.
  - intros s2 K2. rewrite <- app_assoc. apply HQ.
Qed.

(** ** The invariant of a process *)

(** No registered app has an instance. *)
Definition no_instances (P : Proc) : Prop :=
  forall name a app, registry P !! name = Some a -> heap P !! a = Some app -> instances app = ∅.

Definition stopped (P : Proc) : Prop :=
  drain_requested P = true /\ admission (proxy_requests P) = DrainingAdmission
  /\ active (proxy_requests P) = ∅ /\ no_instances P.

Record proc_ok (P : Proc) : Prop := {
  ok_stopped : drain_activity P = false -> stopped P;
  ok_gate t : gate_writer P = Some t -> gate_readers P = ∅;
}.

(** The instances of every app object are among those it had. *)
Definition heap_shrinks (P P' : Proc) : Prop :=
  forall a app', heap P' !! a = Some app' -> exists app, heap P !! a = Some app /\ instances app' ⊆ instances app.

(** What a step of the task [me] of process [p] (or of none) leaves to the others. *)
Record step_ok (p : nat) (me : option nat) (w : World) (P : Proc) (w' : World) (P' : Proc) : Prop := {
  s_mgmt u : Some u <> me -> management_lock P = Some u ->
    management_lock P' = Some u /\ registry P' = registry P
    /\ (drain_requested P = true -> drain_requested P' = true)
    /\ (drain_activity P = true -> drain_activity P' = true)
    /\ (admission (proxy_requests P) = DrainingAdmission -> admission (proxy_requests P') = DrainingAdmission
        /\ (active (proxy_requests P) = ∅ -> active (proxy_requests P') = ∅));
  s_read u : Some u <> me -> u ∈ gate_readers P ->
    u ∈ gate_readers P' /\ (drain_activity P = true -> drain_activity P' = true);
  s_write u : Some u <> me -> gate_writer P = Some u -> gate_writer P' = Some u;
  s_bound u : Some u <> me -> management_lock P = Some u -> gate_writer P = Some u -> heap_shrinks P P';
  s_op q u : (q, Some u) <> (p, me) -> operation_lease w = Some (q, u) ->
    operation_lease w' = Some (q, u) /\ requested w' = requested w;
  s_granted : granted w ⊆ granted w';
}.

(** What another task of the process knows stays true. *)
Lemma holds_step p me w P w' P' u K :
  wf K -> step_ok p me w P w' P' -> Some u <> me -> holds p u K w P -> holds p u K w' P'.
Proof.
  intros Hwf Hs Hu Hh.
  assert (Hm : k_mgmt K = true -> _) by (intros Hk; exact (s_mgmt _ _ _ _ _ _ Hs u Hu (h_mgmt _ _ _ _ _ Hh Hk))).
  assert (Ho : k_op K = true -> operation_lease w' = Some (p, u) /\ requested w' = requested w).
  { intros Hk. apply (s_op _ _ _ _ _ _ Hs p u); [congruence|by apply (h_op _ _ _ _ _ Hh)]. }
  constructor.
  - intros Hk. by apply Hm.
  - intros Hk. by apply Ho.
  - intros Hk. by apply (s_read _ _ _ _ _ _ Hs u Hu), (h_read _ _ _ _ _ Hh).
  - intros Hk. by apply (s_write _ _ _ _ _ _ Hs u Hu), (h_write _ _ _ _ _ Hh).
  - intros Hk. pose proof (h_active _ _ _ _ _ Hh Hk) as Ha.
    destruct (wf_active _ Hwf Hk) as [Hk'|Hk']; [by apply Hm|].
    by apply (s_read _ _ _ _ _ _ Hs u Hu (h_read _ _ _ _ _ Hh Hk')).
  - intros Hk. apply Hm; [by apply (wf_flag _ Hwf)|by apply (h_flag _ _ _ _ _ Hh)].
  - intros Hk. apply Hm; [by apply (wf_closed _ Hwf)|by apply (h_closed _ _ _ _ _ Hh)].
  - intros Hk. pose proof (wf_idle _ Hwf Hk) as Hc.
    apply Hm; [by apply (wf_closed _ Hwf)|by apply (h_closed _ _ _ _ _ Hh)|by apply (h_idle _ _ _ _ _ Hh)].
  - intros b Hk. rewrite <- (h_req _ _ _ _ _ Hh b Hk). apply Ho, (wf_req _ Hwf). by rewrite Hk.
  - intros s Hk. destruct Hm as (_ & -> & _); [apply (wf_names _ Hwf); by rewrite Hk|].
    by apply (h_names _ _ _ _ _ Hh).
  - intros name o Hk. destruct Hm as (_ & -> & _); [apply (wf_look _ Hwf); intros E; by rewrite E, lookup_empty in Hk|].
    by apply (h_look _ _ _ _ _ Hh).
  - intros a s app Hk Happ. destruct (wf_bound _ Hwf) as [H1 H2]; [intros E; by rewrite E, lookup_empty in Hk|].
    destruct (s_bound _ _ _ _ _ _ Hs u Hu (h_mgmt _ _ _ _ _ Hh H1) (h_write _ _ _ _ _ Hh H2) a app Happ)
      as (app0 & Happ0 & Hsub).
    pose proof (h_bound _ _ _ _ _ Hh a s app0 Hk Happ0). set_solver.
  - intros Hk. by apply (s_granted _ _ _ _ _ _ Hs), (h_granted _ _ _ _ _ Hh).
Qed.

(** What a task of another process knows stays true. *)
Lemma holds_other p me w P w' P' q u K Q :
  wf K -> step_ok p me w P w' P' -> q <> p -> holds q u K w Q -> holds q u K w' Q.
Proof.
  intros Hwf Hs Hq Hh.
  assert (Ho : k_op K = true -> operation_lease w' = Some (q, u) /\ requested w' = requested w).
  { intros Hk. apply (s_op _ _ _ _ _ _ Hs q u); [congruence|by apply (h_op _ _ _ _ _ Hh)]. }
  destruct Hh. constructor; try done.
  - intros Hk. by apply Ho.
  - intros b Hk. destruct Ho as [_ ->]; [apply (wf_req _ Hwf); by rewrite Hk|]. by apply h_req0.
  - intros Hk. by apply (s_granted _ _ _ _ _ _ Hs), h_granted0.
Qed.

(** ** Steps that change nothing a task may rely on *)

Record neutral (P P' : Proc) : Prop := {
  n_flag : drain_requested P' = drain_requested P;
  n_activity : drain_activity P' = drain_activity P;
  n_mgmt : management_lock P' = management_lock P;
  n_writer : gate_writer P' = gate_writer P;
  n_readers : gate_readers P' = gate_readers P;
  n_registry : registry P' = registry P;
  n_closed : admission (proxy_requests P) = DrainingAdmission ->
    admission (proxy_requests P') = DrainingAdmission
    /\ (active (proxy_requests P) = ∅ -> active (proxy_requests P') = ∅);
  n_heap : heap_shrinks P P';
}.

Lemma heap_shrinks_refl P : heap_shrinks P P.
Proof. intros a app Ha. by exists app. Qed.

Lemma neutral_step p me w P P' w' :
  operation_lease w' = operation_lease w -> requested w' = requested w -> granted w ⊆ granted w' ->
  neutral P P' -> step_ok p me w P w' P'.
Proof.
  intros Ho Hr Hg [H1 H2 H3 H4 H5 H6 H7 H8]. constructor; rewrite ?H1, ?H2, ?H3, ?H4, ?H5, ?H6, ?Ho, ?Hr; auto 10.
Qed.

Lemma neutral_ok P P' : neutral P P' -> proc_ok P -> proc_ok P'.
Proof.
  intros [H1 H2 H3 H4 H5 H6 H7 H8] [Hs Hg]. constructor.
  - rewrite H2. intros Ha. destruct (Hs Ha) as (Hf & Hc & Hi & Hn). destruct (H7 Hc) as [Hc' Hi'].
    repeat split; [by rewrite H1|done|auto|]. intros name a app'. rewrite H6. intros Hreg Happ.
    destruct (H8 a app' Happ) as (app & Happ0 & Hsub). specialize (Hn name a app Hreg Happ0). set_solver.
  - rewrite H4, H5. apply Hg.
Qed.

Lemma neutral_holds p t K w P P' w' :
  operation_lease w' = operation_lease w -> requested w' = requested w -> granted w ⊆ granted w' ->
  neutral P P' -> wf K -> holds p t K w P -> holds p t K w' P'.
Proof.
  intros Ho Hr Hg Hn Hwf Hh. eapply (holds_step p None w P); [done| |done|done].
  by apply neutral_step.
Qed.

Lemma set_app_shrinks P a f :
  (forall app, instances (f app) ⊆ instances app) -> heap_shrinks P (set_app P a f).
Proof.
  intros Hf a' app'. simpl. destruct (decide (a' = a)) as [->|Hne].
  - rewrite lookup_alter_eq, fmap_Some. intros (app & Happ & ->). eauto.
  - rewrite lookup_alter_ne by done. intros H. by exists app'.
Qed.

Lemma set_app_neutral P a f :
  (forall app, instances (f app) ⊆ instances app) -> neutral P (set_app P a f).
Proof. intros Hf. constructor; try done. by apply set_app_shrinks. Qed.

(** ** Soundness of the rules for the actions within a process *)

Lemma instances_remove a id : instances (remove_instance a id) = instances a ∖ {[id]}.
Proof.
  unfold remove_instance. case_bool_decide; simpl; [done|]. apply set_eq. set_solver.
Qed.

Record local_ok (p t : nat) (w : World) (P : Proc) (K' : know) (P' : Proc) : Prop := {
  l_wf : wf K';
  l_holds : holds p t K' w P';
  l_proc : proc_ok P';
  l_step : step_ok p (Some t) w P w P';
  l_activity : drain_activity P = false -> drain_activity P' = false;
}.

Section Local.
Context (p t : nat) (w : World) (P : Proc) (K : know).
Context (Hwf : wf K) (Hh : holds p t K w P) (Hok : proc_ok P).

Lemma local_neutral P' : neutral P P' -> local_ok p t w P K P'.
Proof.
  intros Hn. constructor; [done|by eapply neutral_holds|by eapply neutral_ok|by apply neutral_step|].
  by rewrite (n_activity _ _ Hn).
Qed.

Lemma neutral_refl : neutral P P.
Proof. constructor; auto using heap_shrinks_refl. Qed.

(** An action that only reads. *)
Lemma local_learn K' : wf K' -> holds p t K' w P -> local_ok p t w P K' P.
Proof. intros H1 H2. constructor; [done|done|done|by apply neutral_step, neutral_refl|done]. Qed.

Lemma local_load_flag K' : post LoadFlag K (drain_requested P) = Some K' -> local_ok p t w P K' P.
Proof.
  simpl. destruct (drain_requested P) eqn:Hf.
  { intros [= <-]. by apply local_learn. }
  destruct (k_mgmt K || gate_eqb (k_gate K) GRead) eqn:Hg; intros [= <-]; [|by apply local_learn].
  assert (Ha : drain_activity P = true).
  { destruct (drain_activity P) eqn:E; [done|]. destruct (ok_stopped _ Hok E) as [H _]. congruence. }
  apply local_learn.
  - destruct Hwf. constructor; simpl; auto. intros _.
    apply orb_true_iff in Hg as [?|?%bool_decide_eq_true]; auto.
  - destruct Hh. by constructor.
Qed.

Lemma local_store_true : local_ok p t w P (know_flag K (true && k_mgmt K)) (with_flag P true).
Proof.
  constructor.
  - destruct Hwf. by constructor.
  - destruct Hh. constructor; simpl; auto.
  - destruct Hok as [Hs Hg]. constructor; simpl; [|done]. intros Ha.
    destruct (Hs Ha) as (_ & H2 & H3 & H4). by repeat split.
  - constructor; simpl; auto 10. intros. exact (heap_shrinks_refl P).
  - done.
Qed.

Lemma local_store_false :
  k_active K = true -> k_mgmt K = true ->
  local_ok p t w P (know_flag K (false && k_mgmt K)) (with_flag P false).
Proof.
  intros Hka Hkm. pose proof (h_active _ _ _ _ _ Hh Hka) as Ha. pose proof (h_mgmt _ _ _ _ _ Hh Hkm) as Hm.
  constructor.
  - destruct Hwf. by constructor.
  - destruct Hh. by constructor; simpl; auto.
  - destruct Hok as [Hs Hg]. constructor; simpl; [congruence|done].
  - constructor; simpl; auto 10; try congruence.
  - done.
Qed.

(** The lease is released: nobody else may rely on it, and nothing is left. *)
Lemma local_take_activity : knows_stopped K -> local_ok p t w P (know_active K false) (with_activity P false).
Proof.
  intros (Hkm & Hkg & Hkf & Hki & names & Hkn & Hall).
  pose proof (h_mgmt _ _ _ _ _ Hh Hkm) as Hm. pose proof (h_write _ _ _ _ _ Hh Hkg) as Hg.
  constructor.
  - destruct Hwf. by constructor.
  - destruct Hh. by constructor.
  - constructor; simpl; [|apply Hok]. intros _. repeat split; simpl.
    + by apply (h_flag _ _ _ _ _ Hh).
    + apply (h_closed _ _ _ _ _ Hh), (wf_idle _ Hwf Hki).
    + by apply (h_idle _ _ _ _ _ Hh).
    + intros name a app Hreg Happ.
      assert (Hin : name ∈ names) by (apply (h_names _ _ _ _ _ Hh names Hkn), elem_of_dom; eauto).
      destruct (Hall name Hin) as (o & Ho & Hb). pose proof (h_look _ _ _ _ _ Hh name o Ho) as Hl.
      simpl in Hreg. rewrite Hreg in Hl. specialize (Hb a (eq_sym Hl)).
      pose proof (h_bound _ _ _ _ _ Hh a ∅ app Hb Happ). set_solver.
  - constructor; simpl; auto 10; try congruence.
    intros u Hu Hr. rewrite (ok_gate _ Hok t Hg) in Hr. set_solver.
  - done.
Qed.

Lemma local_lock : management_lock P = None -> local_ok p t w P (know_locked K) (with_management P (Some t)).
Proof.
  intros Hm. constructor.
  - destruct Hwf. constructor; simpl; auto. intros H. by destruct (wf_bound0 H).
  - destruct Hh. constructor; simpl; auto.
  - destruct Hok as [Hs Hg]. constructor; simpl; [|done]. intros Ha. by destruct (Hs Ha) as (?&?&?&?).
  - constructor; simpl; auto 10; congruence.
  - done.
Qed.

Lemma local_unlock : local_ok p t w P (know_unlocked K)
  (if bool_decide (management_lock P = Some t) then with_management P None else P).
Proof.
  assert (Hw : wf (know_unlocked K)).
  { destruct Hwf. constructor; simpl; try done.
    intros [_ Hg%bool_decide_eq_true]%andb_true_iff. by right. }
  assert (Hx : forall P', drain_activity P' = drain_activity P -> gate_readers P' = gate_readers P ->
     gate_writer P' = gate_writer P -> holds p t (know_unlocked K) w P').
  { intros P' E1 E2 E3. destruct Hh. constructor; simpl; try done; rewrite ?E1, ?E2, ?E3; auto.
    intros [H _]%andb_true_iff. auto. }
  case_bool_decide as Hm; [|by apply local_learn; [|apply Hx]]. constructor.
  - done.
  - by apply Hx.
  - destruct Hok as [Hs Hg]. constructor; simpl; [|done]. intros Ha. by destruct (Hs Ha) as (?&?&?&?).
  - constructor; simpl; auto 10; congruence.
  - done.
Qed.

Lemma local_gate_read : k_gate K = GNone -> gate_writer P = None ->
  local_ok p t w P (know_gate K GRead) (with_gate P None ({[t]} ∪ gate_readers P)).
Proof.
  intros Hkg Hg. constructor.
  - destruct Hwf. constructor; simpl; auto. intros H. destruct (wf_bound0 H). congruence.
  - destruct Hh. constructor; simpl; auto; [set_solver|done].
  - destruct Hok as [Hs _]. constructor; simpl; [|done]. intros Ha. by destruct (Hs Ha) as (?&?&?&?).
  - constructor; simpl; auto 10; try congruence; set_solver.
  - done.
Qed.

Lemma local_gate_write : k_gate K = GNone -> gate_writer P = None -> gate_readers P = ∅ ->
  local_ok p t w P (know_gate K GWrite) (with_gate P (Some t) ∅).
Proof.
  intros Hkg Hg Hr. constructor.
  - destruct Hwf. constructor; simpl; auto.
    + intros H. destruct (wf_active0 H); [by left|congruence].
    + intros H. destruct (wf_bound0 H). congruence.
  - destruct Hh. constructor; simpl; auto; done.
  - destruct Hok as [Hs _]. constructor; simpl; [|done]. intros Ha. by destruct (Hs Ha) as (?&?&?&?).
  - constructor; simpl; auto 10; try congruence; intros u _; rewrite Hr; set_solver.
  - done.
Qed.

Lemma local_gate_drop : local_ok p t w P (know_ungated K)
  (with_gate P (if bool_decide (gate_writer P = Some t) then None else gate_writer P) (gate_readers P ∖ {[t]})).
Proof.
  constructor.
  - destruct Hwf. constructor; simpl; auto; [|done]. intros [_ H]%andb_true_iff. auto.
  - destruct Hh. constructor; simpl; try done; auto. intros [H _]%andb_true_iff. auto.
  - destruct Hok as [Hs Hg]. constructor; simpl.
    + intros Ha. by destruct (Hs Ha) as (?&?&?&?).
    + intros u. case_bool_decide; [done|]. intros Hu. rewrite (Hg u Hu). set_solver.
  - constructor; simpl; auto 10.
    + intros u Hu Hr. split; [|done]. set_solver.
    + intros u Hu Hr. case_bool_decide; congruence.
    + intros. exact (heap_shrinks_refl P).
  - done.
Qed.

(** Closing the admission keeps the requests in progress. *)
Lemma local_close (s : RequestDrain.State) :
  admission s = DrainingAdmission -> (active (proxy_requests P) = ∅ -> active s = ∅) ->
  local_ok p t w P (know_requests K (k_mgmt K) (k_idle K)) (with_requests P s).
Proof.
  intros Hc Hi. constructor.
  - destruct Hwf. constructor; simpl; auto.
  - destruct Hh. constructor; simpl; auto.
  - destruct Hok as [Hs Hg]. constructor; simpl; [|done]. intros Ha.
    destruct (Hs Ha) as (? & ? & ? & ?). repeat split; simpl; auto.
  - constructor; simpl; auto 10. intros. exact (heap_shrinks_refl P).
  - done.
Qed.

Lemma local_count :
  local_ok p t w P (if (active_count (proxy_requests P) =? 0)%nat
                    then know_requests K (k_closed K) (k_closed K) else K) P.
Proof.
  destruct (active_count (proxy_requests P) =? 0)%nat eqn:Hn; [|by apply local_learn]. bool_to_prop.
  apply map_size_empty_inv in Hn. apply local_learn.
  - destruct Hwf. by constructor.
  - destruct Hh. by constructor.
Qed.

Lemma local_reopen (s : RequestDrain.State) :
  k_active K = true -> k_mgmt K = true -> local_ok p t w P (know_requests K false false) (with_requests P s).
Proof.
  intros Hka Hkm. pose proof (h_active _ _ _ _ _ Hh Hka) as Ha. pose proof (h_mgmt _ _ _ _ _ Hh Hkm) as Hm.
  constructor.
  - destruct Hwf. by constructor.
  - destruct Hh. by constructor.
  - destruct Hok as [Hs Hg]. constructor; simpl; [congruence|done].
  - constructor; simpl; auto 10; congruence.
  - done.
Qed.

(** ** The registry and the instances *)

Lemma local_names (names : list str) : dom (registry P) ⊆ list_to_set names ->
  local_ok p t w P (if k_mgmt K then know_apps K (Some (list_to_set names)) (k_look K) (k_bound K) else K) P.
Proof.
  intros Hn. destruct (k_mgmt K) eqn:Hkm; [|by apply local_learn]. apply local_learn.
  - destruct Hwf. by constructor.
  - destruct Hh. constructor; simpl; auto. by intros s [= <-].
Qed.

Lemma local_get_app name :
  local_ok p t w P (if k_mgmt K then know_apps K (k_names K) (<[name := registry P !! name]> (k_look K)) (k_bound K)
                    else K) P.
Proof.
  destruct (k_mgmt K) eqn:Hkm; [|by apply local_learn]. apply local_learn.
  - destruct Hwf. by constructor.
  - destruct Hh. constructor; simpl; auto. intros n o. rewrite lookup_insert_Some. naive_solver.
Qed.

Lemma local_registry r h n :
  k_mgmt K = true ->
  (forall name a app, r !! name = Some a -> h !! a = Some app ->
     instances app = ∅ \/ registry P !! name = Some a /\ heap P !! a = Some app) ->
  local_ok p t w P (know_apps K None ∅ ∅) (with_apps P r h n).
Proof.
  intros Hkm Hr. pose proof (h_mgmt _ _ _ _ _ Hh Hkm) as Hm. constructor.
  - destruct Hwf. by constructor.
  - destruct Hh. by constructor.
  - destruct Hok as [Hs Hg]. constructor; simpl; [|done]. intros Ha. destruct (Hs Ha) as (? & ? & ? & Hn).
    repeat split; auto. intros name a app Hreg Happ. simpl in *.
    destruct (Hr name a app Hreg Happ) as [?|[E1 E2]]; [done|by eapply Hn].
  - constructor; simpl; auto 10; congruence.
  - done.
Qed.

Lemma local_instances `{InstanceIter} a :
  local_ok p t w P (if k_mgmt K && gate_eqb (k_gate K) GWrite
    then know_apps K (k_names K) (k_look K) (<[a := list_to_set (get_instances (app_at P a))]> (k_bound K)) else K) P.
Proof.
  destruct (k_mgmt K && gate_eqb (k_gate K) GWrite) eqn:Hk; [|by apply local_learn].
  apply andb_true_iff in Hk as [Hkm Hkg%bool_decide_eq_true]. apply local_learn.
  - destruct Hwf. by constructor.
  - destruct Hh. constructor; simpl; auto. intros a' s app. rewrite lookup_insert_Some.
    intros [[<- <-]|[_ Hb]] Happ; [|by eapply h_bound0]. unfold app_at. rewrite Happ. simpl.
    intros id Hid. apply elem_of_list_to_set. rewrite (get_instances_perm app). by apply elem_of_elements.
Qed.

Lemma local_remove a id :
  local_ok p t w P (know_apps K (k_names K) (k_look K) (alter (fun s => s ∖ {[id]}) a (k_bound K)))
    (set_app P a (fun app => remove_instance app id)).
Proof.
  assert (Hn : neutral P (set_app P a (fun app => remove_instance app id)))
    by (apply set_app_neutral; intros app; rewrite instances_remove; set_solver).
  destruct (local_neutral _ Hn) as [H1 H2 H3 H4 H5]. constructor; try done.
  - destruct Hwf. constructor; simpl; auto. intros Hb. apply wf_bound0. intros E. rewrite E in Hb.
    apply Hb, alter_empty.
  - destruct H2. constructor; simpl; auto. intros a' s app. destruct (decide (a' = a)) as [->|Hne].
    + rewrite !lookup_alter_eq, !fmap_Some. intros (s0 & Hb & ->) (app0 & Happ & ->).
      pose proof (h_bound _ _ _ _ _ Hh a s0 app0 Hb Happ). rewrite instances_remove. set_solver.
    + rewrite !lookup_alter_ne by done. apply (h_bound _ _ _ _ _ Hh).
Qed.

Lemma local_allocate a id now :
  k_active K = true ->
  local_ok p t w P (know_apps K (k_names K) (k_look K) ∅) (set_app P a (fun app => allocate_instance app id now)).
Proof.
  intros Hka. pose proof (h_active _ _ _ _ _ Hh Hka) as Ha. constructor.
  - destruct Hwf. by constructor.
  - destruct Hh. by constructor.
  - destruct Hok as [Hs Hg]. constructor; simpl; [congruence|done].
  - constructor; simpl; auto 10. intros u Hu Hmu Hwu. exfalso.
    destruct (wf_active _ Hwf Hka) as [Hkm|Hkr].
    + pose proof (h_mgmt _ _ _ _ _ Hh Hkm). congruence.
    + pose proof (h_read _ _ _ _ _ Hh Hkr) as Hr. rewrite (ok_gate _ Hok u Hwu) in Hr. set_solver.
  - done.
Qed.
End Local.

(** The operations on apps that add no instance. *)
Lemma instances_kill a id env : instances (kill_instance a id env).1 = instances a.
Proof. unfold kill_instance. destruct (objs a !! id); [|done]. by destruct (kill env i). Qed.

Lemma instances_finish_evict `{InstanceIter} a id : instances (finish_evict a id).1 ⊆ instances a.
Proof. unfold finish_evict. case_match; simpl; rewrite instances_remove; set_solver. Qed.

Lemma instances_app_idle `{InstanceIter} a : instances (handle_app_idle a).1 = instances a.
Proof. unfold handle_app_idle. by case_match. Qed.

Lemma instances_set_state a id s : instances (set_instance_state a id s) = instances a.
Proof. apply set_locked_frame. Qed.

Lemma instances_write a id f : instances (write_instance a id f) = instances a.
Proof. apply write_instance_frame. Qed.

#[export] Hint Rewrite instances_kill @instances_app_idle instances_set_state instances_write : tako.
#[export] Hint Resolve instances_finish_evict : tako.

(** A change that only concerns the load balancer, the cold starts or the tasks. *)
Lemma neutral_routing P lbs c : neutral P (with_routing P lbs c).
Proof. constructor; auto. exact (heap_shrinks_refl P). Qed.

Lemma neutral_tasks P m n : neutral P (with_tasks P m n).
Proof. constructor; auto. exact (heap_shrinks_refl P). Qed.

Ltac shrinks_tac :=
  apply set_app_neutral; intros ?; first [set_solver | autorewrite with tako; set_solver | auto with tako].

Section Sound.
Context `{!HashIter str nat} `{InstanceIter}.

Lemma keys_of_registry (m : gmap str nat) : dom m ⊆ list_to_set (hash_iter m).*1.
Proof.
  intros name [a Ha]%elem_of_dom. apply elem_of_list_to_set, list_elem_of_fmap. exists (name, a).
  split; [done|]. rewrite hash_iter_perm. by apply elem_of_map_to_list.
Qed.

(** Whether the action starts the restore of a resume. *)
Definition adopts {A} (a : act A) : bool := match a with AdoptActivity clear_intent => clear_intent | _ => false end.

Definition new_tasks (P P' : Proc) : Prop :=
  tasks P' = tasks P \/ exists name app, tasks P' = <[next_task P := cold_start_leader name app]> (tasks P).

(** The actions that give no knowledge. *)
Ltac plain_tac Hn Hset :=
  repeat (case_match; simplify_eq);
  first [ by apply Hn; [apply neutral_refl|]
        | by apply Hn; [apply neutral_routing|]
        | apply Hset; intros b; simpl; first [done | autorewrite with tako; done | auto with tako] ].

Ltac rule_tac H := eexists; split; [reflexivity|]; split; [apply H; by auto|left; by repeat case_match].

Lemma perform_local_sound p t c w P K A (a : act A) P' x :
  wf K -> holds p t K w P -> proc_ok P -> pre a K -> perform_local t c P a = Some (P', x) ->
  exists K', post a K x = Some K' /\ local_ok p t w P K' P' /\ new_tasks P P'.
Proof.
  intros Hwf Hh Hok Hpre Hp.
  assert (Hn : forall P1, neutral P P1 -> tasks P1 = tasks P ->
            exists K', Some K = Some K' /\ local_ok p t w P K' P1 /\ new_tasks P P1).
  { intros P1 Hn1 Ht. exists K. split; [done|]. split; [by apply local_neutral|by left]. }
  assert (Hset : forall app f, (forall b, instances (f b) ⊆ instances b) ->
            exists K', Some K = Some K' /\ local_ok p t w P K' (set_app P app f) /\ new_tasks P (set_app P app f)).
  { intros app f Hf. apply Hn; [by apply set_app_neutral|done]. }
  destruct a; cbn [perform_local post pre] in Hp, Hpre |- *; try discriminate Hp;
    first [solve [simplify_eq; plain_tac Hn Hset] | idtac].
  - simplify_eq. destruct (post LoadFlag K (drain_requested P')) as [K'|] eqn:HK.
    + exists K'. split; [exact HK|]. split; [by apply local_load_flag with K|by left].
    + simpl in HK. repeat case_match; congruence.
  - simplify_eq. destruct b; [rule_tac local_store_true|]. destruct Hpre. rule_tac local_store_false.
  - simplify_eq. rule_tac local_take_activity.
  - destruct (management_lock P) eqn:Hm; simplify_eq. rule_tac local_lock.
  - destruct c, (management_lock P) eqn:Hm; simplify_eq; first [rule_tac local_learn | rule_tac local_lock].
  - destruct (management_lock P) eqn:Hm; simplify_eq; [rule_tac local_learn|rule_tac local_lock].
  - simplify_eq. rule_tac local_unlock.
  - destruct c, (gate_writer P) eqn:Hg; simplify_eq; first [rule_tac local_learn | rule_tac local_gate_read].
  - destruct c, (gate_writer P) eqn:Hg; simplify_eq; try rule_tac local_learn;
      case_bool_decide; simplify_eq; rule_tac local_gate_write.
  - simplify_eq. rule_tac local_gate_drop.
  - simplify_eq. eexists. split; [done|]. split; [|by left].
    apply local_close; [done|done|done|done|]. simpl. intros ->. apply fmap_empty.
  - destruct (force_drain (proxy_requests P)) as [s n] eqn:Hf. simplify_eq. eexists. split; [done|].
    split; [|by left]. unfold force_drain in Hf. simplify_eq.
    apply local_close; [done|done|done|done|]. simpl. intros ->. apply fmap_empty.
  - simplify_eq. rule_tac local_count.
  - destruct (resume (proxy_requests P)) as [s ok] eqn:Hr. simplify_eq. destruct Hpre. rule_tac local_reopen.
  - simplify_eq. eexists. split; [done|]. split; [|by left]. apply local_names; auto. apply keys_of_registry.
  - simplify_eq. rule_tac local_get_app.
  - simplify_eq. eexists. split; [done|]. split; [|by left]. apply local_registry; [done..|].
    intros name a app [[_ <-]|[_ Hr]]%lookup_insert_Some [[_ <-]|[Hne Ha]]%lookup_insert_Some; auto; done.
  - simplify_eq. eexists. split; [done|]. split; [|by left]. apply local_registry; [done..|].
    intros name' a app [_ Hr]%lookup_delete_Some Ha. auto.
  - simplify_eq. rule_tac local_instances.
  - simplify_eq. rule_tac local_remove.
  - destruct c; try discriminate. case_bool_decide; simplify_eq. rule_tac local_allocate.
  - simplify_eq. eexists. split; [done|]. split; [apply local_neutral; auto; apply neutral_tasks|right; eauto].
Qed.
(** ** Soundness of every rule *)

Record action_ok (p t : nat) (w : World) (P : Proc) (adopting : bool) (K' : know) (w' : World) (P' : Proc) : Prop := {
  a_procs : procs w' = <[p := Running P']> (procs w);
  a_wf : wf K';
  a_holds : holds p t K' w' P';
  a_proc : proc_ok P';
  a_step : step_ok p (Some t) w P w' P';
  a_tasks : new_tasks P P';
  a_quiet : adopting = false -> requested w = true -> drain_activity P = false ->
    requested w' = true /\ drain_activity P' = false;
  a_granted g : g ∈ granted w' -> g ∉ granted w ->
    requested w' = true /\ map_Forall (fun _ x => holds_shared x = false) (procs w');
}.

Lemma holds_procs p t K w P m : holds p t K w P -> holds p t K (with_procs w m) P.
Proof. intros []. by constructor. Qed.

Lemma step_procs p me w P P' m : step_ok p me w P w P' -> step_ok p me w P (with_procs w m) P'.
Proof. intros []. by constructor. Qed.

Lemma try_exclusive_alone c w :
  try_acquire true c w = Ok true -> map_Forall (fun _ x => holds_shared x = false) (procs w).
Proof.
  intros E. assert (E' : bool_decide (map_Exists (fun _ x => holds_shared x = true) (procs w)) = false).
  { unfold try_acquire in E. destruct (bool_decide (exclusive_lease w = None)); destruct c; simplify_eq;
      by apply negb_true_iff. }
  apply bool_decide_eq_false in E'. intros q y Hy. destruct (holds_shared y) eqn:Hs; [|done].
  exfalso. apply E'. by exists q, y.
Qed.

Section Action.
Context (p t : nat) (c : Choice) (w : World) (P : Proc) (K : know).
Context (Hp : procs w !! p = Some (Running P)) (Hwf : wf K) (Hh : holds p t K w P) (Hok : proc_ok P).

Lemma local_action A (a : act A) P' x :
  pre a K -> perform_local t c P a = Some (P', x) ->
  exists K', post a K x = Some K'
    /\ action_ok p t w P (adopts a) K' (with_procs w (<[p := Running P']> (procs w))) P'.
Proof.
  intros Hpre Hl.
  destruct (perform_local_sound p t c w P K A a P' x Hwf Hh Hok Hpre Hl) as (K' & HK & [H1 H2 H3 H4 H5] & Ht).
  exists K'. split; [done|]. constructor; simpl; try done.
  - by apply holds_procs.
  - by apply step_procs.
  - auto.
Qed.

(** An action on the store or on a lease changes nothing of the process. *)
Lemma world_action K' w' adopting :
  procs w' = procs w -> wf K' -> holds p t K' w' P ->
  (forall q u, (q, u) <> (p, t) -> operation_lease w = Some (q, u) ->
     operation_lease w' = Some (q, u) /\ requested w' = requested w) ->
  (requested w = true -> drain_activity P = false -> requested w' = true) ->
  granted w' = granted w ->
  action_ok p t w P adopting K' w' P.
Proof.
  intros Hprocs Hw Hx Hop Hr Hg. constructor; [|done|done|done| |by left|auto|].
  - by rewrite Hprocs, insert_id.
  - constructor; auto 10; [intros; exact (heap_shrinks_refl P)|intros q u Hne; apply Hop; congruence|by rewrite Hg].
  - rewrite Hg. done.
Qed.

Lemma unchanged_action adopting : action_ok p t w P adopting K w P.
Proof. by apply world_action. Qed.

(** An action on the row, under the operation lease. *)
Lemma row_action b d adopting :
  k_op K = true -> (requested w = true -> drain_activity P = false -> b = true) ->
  action_ok p t w P adopting (know_op K true (Some b)) (with_row w b d) P.
Proof.
  intros Hko Hb. pose proof (h_op _ _ _ _ _ Hh Hko) as Ho. apply world_action; try done; simpl.
  - destruct Hwf. by constructor.
  - destruct Hh. constructor; simpl; auto. congruence.
  - congruence.
Qed.

Lemma read_requested_action x : x = Ok (requested w) \/ (exists e, x = Err e) ->
  exists K', post ReadRequested K x = Some K' /\ action_ok p t w P false K' w P.
Proof.
  intros [->|[e ->]]; simpl; [|exists K; split; [done|apply unchanged_action]].
  destruct (k_req K) as [b|] eqn:Hk.
  - rewrite (h_req _ _ _ _ _ Hh b Hk), Bool.eqb_reflx. exists K. split; [done|apply unchanged_action].
  - destruct (k_op K) eqn:Hko; [|exists K; split; [done|apply unchanged_action]].
    eexists. split; [done|]. apply world_action; try done; simpl; auto.
    + destruct Hwf. by constructor.
    + destruct Hh. constructor; simpl; auto. by intros b [= <-].
Qed.

Lemma take_operation_action : operation_lease w = None ->
  action_ok p t w P false (know_op K true None) (with_operation w (Some (p, t))) P.
Proof.
  intros Hn. apply world_action; try done; simpl.
  - destruct Hwf. by constructor.
  - destruct Hh. by constructor.
  - congruence.
Qed.

Lemma drop_operation_action :
  action_ok p t w P false (know_op K false None)
    (if bool_decide (operation_lease w = Some (p, t)) then with_operation w None else w) P.
Proof.
  assert (Hw : wf (know_op K false None)) by (destruct Hwf; by constructor).
  case_bool_decide; apply world_action; try done; simpl; try (destruct Hh; by constructor); auto. congruence.
Qed.

Lemma drop_exclusive_action :
  action_ok p t w P false K
    (if bool_decide (exclusive_lease w = Some (p, t)) then with_exclusive w None (granted w) else w) P.
Proof.
  case_bool_decide; apply world_action; try done; auto. destruct Hh. by constructor.
Qed.

(** The exclusive lease is granted only when no process has an activity lease. *)
Lemma exclusive_action r :
  k_req K = Some true -> try_acquire true c w = r ->
  exists K', post TryExclusive K r = Some K'
    /\ action_ok p t w P false K'
         (if bool_decide (r = Ok true) then with_exclusive w (Some (p, t)) ({[(p, t)]} ∪ granted w) else w) P.
Proof.
  intros Hk Hr. case_bool_decide as E; cycle 1.
  { exists K. split; [|apply unchanged_action]. destruct r as [[]|]; done. }
  subst r. rewrite E. eexists. split; [done|]. constructor; simpl; try done.
  - by rewrite insert_id.
  - destruct Hwf. by constructor.
  - destruct Hh. constructor; simpl; auto. set_solver.
  - constructor; simpl; auto 10; [intros; exact (heap_shrinks_refl P)|set_solver].
  - by left.
  - intros g Hg Hng. split; [by apply (h_req _ _ _ _ _ Hh)|].
    apply try_exclusive_alone in E. exact E.
Qed.

(** A restore takes a shared lease: a resume, or when the drain has been withdrawn. *)
Lemma adopt_action b r :
  pre (AdoptActivity b) K -> try_acquire false c w = r ->
  exists P' K', post (AdoptActivity b) K r = Some K'
    /\ action_ok p t w P b K' (if bool_decide (r = Ok true)
         then with_procs w (<[p := Running (with_activity P true)]> (procs w)) else w) P'.
Proof.
  intros (Hko & Hkm & Hb) Hr. pose proof (h_mgmt _ _ _ _ _ Hh Hkm) as Hm. case_bool_decide as E; cycle 1.
  { exists P, K. split; [|apply unchanged_action]. destruct r as [[]|]; done. }
  subst r. rewrite E. eexists (with_activity P true), _. split; [done|]. constructor; simpl; try done.
  - destruct Hwf. constructor; simpl; auto.
  - destruct Hh. by constructor.
  - destruct Hok as [Hs Hg]. by constructor.
  - constructor; simpl; auto 10. intros. exact (heap_shrinks_refl P).
  - by left.
  - intros ->. rewrite (h_req _ _ _ _ _ Hh false) by auto. done.
Qed.

Lemma perform_sound A (a : act A) w' x :
  pre a K -> perform p t c w P a = Some (w', x) ->
  exists P' K', post a K x = Some K' /\ action_ok p t w P (adopts a) K' w' P'.
Proof.
  intros Hpre Hx.
  assert (Hlocal : forall B (b : act B) y, pre b K ->
            match perform_local t c P b with
            | Some (P', z) => Some (with_procs w (<[p := Running P']> (procs w)), z) | None => None
            end = Some (w', y) ->
            exists P' K', post b K y = Some K' /\ action_ok p t w P (adopts b) K' w' P').
  { intros B b y Hb. destruct (perform_local t c P b) as [[P' z]|] eqn:E; [|done]. intros [= <- ->].
    destruct (local_action B b P' y Hb E) as (K' & ? & ?). eauto. }
  destruct a; cbn [perform] in Hx; try (by apply Hlocal); clear Hlocal.
  - exists P. injection Hx as <- <-. apply read_requested_action. destruct c; eauto.
  - injection Hx as <- <-. exists P, K. split; [done|apply unchanged_action].
  - simpl. destruct (i64_max <? _)%Z.
    { injection Hx as <- <-. exists P, K. split; [done|apply unchanged_action]. }
    exists P. destruct c; injection Hx as <- <-;
      first [by eexists; split; [reflexivity|apply row_action]
            | exists K; split; [done|apply unchanged_action]].
  - destruct Hpre as [Hko Hka]. pose proof (h_active _ _ _ _ _ Hh Hka).
    exists P. destruct c; injection Hx as <- <-;
      first [by eexists; split; [reflexivity|apply row_action; [done|congruence]]
            | exists K; split; [done|apply unchanged_action]].
  - exists P. destruct c; try case_bool_decide; injection Hx as <- <-;
      first [by eexists; split; [reflexivity|apply take_operation_action]
            | exists K; split; [done|apply unchanged_action]].
  - injection Hx as <- <-. eexists P, _. split; [reflexivity|apply drop_operation_action].
  - destruct (exclusive_action _ Hpre eq_refl) as (K' & HK & Ha). exists P, K'.
    destruct (try_acquire true c w) as [[]|]; injection Hx as <- <-; (split; [done|]);
      by revert Ha; case_bool_decide.
  - injection Hx as <- <-. exists P, K. split; [done|apply drop_exclusive_action].
  - destruct (adopt_action clear_intent _ Hpre eq_refl) as (P' & K' & HK & Ha). exists P', K'.
    destruct (try_acquire false c w) as [[]|]; injection Hx as <- <-; (split; [done|]);
      by revert Ha; case_bool_decide.
Qed.
End Action.
End Sound.
