(* ===== verification/ServerDrainSpec.v ===== *)
(** * Drained hosts stay quiet

    The programs of [ServerDrain] keep to the lock discipline of [ServerDrainLocks], hence the
    invariant of a host under every interleaving of its processes and tasks, and what a
    completed drain promises. *)

From S2P Require Import Prelude RustStr Codec Protocol ColdStart Instances Health RequestDrain ServerDrain ServerDrainSem ServerDrainLocks.

(** ** Knowledge that a piece of code keeps *)

(** All but the requests in progress and the bounds on instances. *)
Definition keeps (K K' : know) : Prop :=
  K' = Know (k_mgmt K) (k_op K) (k_gate K) (k_active K) (k_flag K) (k_closed K) (k_idle K') (k_req K)
         (k_names K) (k_look K) (k_bound K') (k_granted K).

(** The locks, the row and the grant. *)
Definition around (K K' : know) : Prop :=
  k_mgmt K' = k_mgmt K /\ k_op K' = k_op K /\ k_gate K' = k_gate K /\ k_req K' = k_req K
  /\ k_granted K' = k_granted K.

(** The same, with the activity lease. *)
Definition around_active (K K' : know) : Prop := around K K' /\ (k_active K = true -> k_active K' = true).

Lemma keeps_refl K : keeps K K.
Proof. by destruct K. Qed.

Lemma keeps_trans K1 K2 K3 : keeps K1 K2 -> keeps K2 K3 -> keeps K1 K3.
Proof. unfold keeps. intros H1 H2. rewrite H2, H1. done. Qed.

Lemma keeps_bound K B : keeps K (know_apps K (k_names K) (k_look K) B).
Proof. done. Qed.

Lemma keeps_requests K i : keeps K (know_requests K (k_closed K) i).
Proof. done. Qed.

Lemma around_refl K : around K K.
Proof. done. Qed.

#[export] Hint Resolve keeps_refl keeps_trans keeps_bound keeps_requests around_refl : tako.

(** One action; programs are unfolded by their equations. *)
Ltac wt_do := cbn [bind wt pre post]; split; [try done|].

(** ** The pieces of a local drain *)

Lemma wt_collect_apps names K (Q : list nat -> know -> Prop) :
  k_mgmt K = true ->
  (forall apps L, (forall name, name ∈ names -> exists o, L !! name = Some o /\ forall a, o = Some a -> a ∈ apps) ->
     Q apps (know_apps K (k_names K) L (k_bound K))) ->
  wt (collect_apps names) K Q.
Proof.
  intros Hm HQ. unfold collect_apps.
  eapply (wt_fold _ (fun d apps K' => exists L, K' = know_apps K (k_names K) L (k_bound K) /\
    forall name, name ∈ d -> exists o, L !! name = Some o /\ forall a, o = Some a -> a ∈ apps)) with (d := []).
  - intros d name apps K' _ (L & -> & HL). wt_do. intros o. simpl. rewrite Hm. eexists. split; [done|].
    intros n Hn. destruct (decide (n = name)) as [->|Hne].
    + exists o. rewrite lookup_insert_eq. split; [done|]. intros a ->. set_solver.
    + destruct (HL n) as (o' & Ho & Ha); [set_solver|]. exists o'. rewrite lookup_insert_ne by done.
      split; [done|]. intros a Ea. destruct o; set_solver.
  - exists (k_look K). split; [by destruct K|]. set_solver.
  - intros apps K' (L & -> & HL). by apply HQ.
Qed.

Lemma wt_withdraw apps K (Q : list (nat * str) -> know -> Prop) :
  (forall l K', keeps K K' -> Q l K') -> wt (withdraw_instances apps) K Q.
Proof.
  intros HQ. unfold withdraw_instances. eapply (wt_fold _ (fun _ _ => keeps K)) with (d := []); [|apply keeps_refl|auto].
  intros _ app l K' _ HK. wt_do. intros _. wt_do. intros ids. apply wt_bind.
  eapply (wt_for_each _ _ (keeps K)); [|case_match; eauto using keeps_trans, keeps_bound|done].
  intros id K2 _ HK2. by wt_do.
Qed.

Lemma wt_http_done l K (Q : bool -> know -> Prop) : (forall b, Q b K) -> wt (http_done l) K Q.
Proof.
  intros HQ. induction l as [|[app id] l IH]; simpl; [done|]. split; [done|]. intros n. destruct (n =? 0)%Z; [done|apply HQ].
Qed.

Lemma wt_wait_for_work polls l : forall K (Q : unit -> know -> Prop),
  (forall K', keeps K K' -> Q tt K') -> wt (wait_for_work polls l) K Q.
Proof.
  induction polls as [|polls IH]; intros K Q HQ; simpl; [auto with tako|].
  assert (Hwait : forall K', keeps K K' -> wt (Do Expired (fun expired : bool =>
            if expired then Ret tt else wait_for_work polls l)) K' Q).
  { intros K' HK. wt_do. intros [|]; simpl; [auto|]. apply IH. eauto with tako. }
  apply wt_bind, wt_http_done. intros [|]; [|auto with tako]. wt_do. intros n. simpl.
  assert (HK : keeps K (if (n =? 0)%nat then know_requests K (k_closed K) (k_closed K) else K))
    by (case_match; auto with tako).
  destruct (n =? 0)%nat; [|by apply Hwait]. wt_do. intros st. destruct (is_complete st); [by apply HQ|by apply Hwait].
Qed.

Lemma wt_read_fold {S} (f : S -> nat * str -> Z -> S) l K (Q : S -> know -> Prop) s :
  (forall s, Q s K) -> wt (fold_prog l (fun s i => n <~ InFlight i.1 i.2;; Ret (f s i n)) s) K Q.
Proof.
  intros HQ. eapply (wt_fold _ (fun _ _ K' => K' = K)) with (d := []); [|done|].
  - intros d i s' K' _ ->. by wt_do.
  - intros s' K' ->. apply HQ.
Qed.

Lemma wt_count_forced l K (Q : nat * Z -> know -> Prop) : (forall x, Q x K) -> wt (count_forced l) K Q.
Proof.
  intros HQ. unfold count_forced. apply wt_bind.
  apply (wt_read_fold (fun count _ n => if (0 <? n)%Z then S count else count)). intros forced. apply wt_bind.
  apply (wt_read_fold (fun sum _ n => (sum + n)%Z)). intros requests. apply HQ.
Qed.

Lemma wt_stop_instances l r K (Q : bool * list str -> know -> Prop) :
  k_gate K = GWrite -> (forall r' K', keeps K K' -> Q r' K') -> wt (fold_prog l stop_instance r) K Q.
Proof.
  intros Hg HQ. eapply (wt_fold _ (fun _ _ => keeps K)) with (d := []); [|apply keeps_refl|auto].
  intros _ i r' K' _ HK. unfold stop_instance. cbn [wt pre post]. split; [by rewrite HK|].
  intros [[|]|]; wt_do; intros; simpl; eauto with tako.
Qed.

(** What the last pass over the apps establishes. *)
Definition counted (settled : bool) (K : know) (d : list nat) (r : nat * (bool * list str)) (K' : know) : Prop :=
  keeps K K' /\ (settled = false -> r.2.2 <> [])
  /\ (r.1 = 0 -> k_gate K = GWrite -> forall a, a ∈ d -> k_bound K' !! a = Some ∅).

Lemma wt_stop_stacks settled apps r K (Q : nat * (bool * list str) -> know -> Prop) :
  k_mgmt K = true -> (settled = false -> r.2 <> []) ->
  (forall r' K', counted settled K apps r' K' -> Q r' K') ->
  wt (fold_prog apps (stop_app_stack settled) (0, r)) K Q.
Proof.
  intros Hm Hr HQ. eapply (wt_fold _ (counted settled K)) with (d := []); [|split; [apply keeps_refl|]; split; [done|set_solver]|auto].
  intros d app r' K' _ (HK & He & Hb). unfold stop_app_stack. wt_do. intros compose. apply wt_bind.
  assert (Hcount : forall e K2, K2 = K' -> (settled = false -> e.2 <> []) ->
    wt (ids <~ GetInstances app;; Ret ((r'.1 + length ids)%nat, e)) K2
      (fun s' K'' => counted settled K (d ++ [app]) s' K'')).
  { intros e K2 -> He2. wt_do. intros ids. cbn [wt].
    assert (k_mgmt K' = k_mgmt K /\ k_gate K' = k_gate K) as [-> ->] by (by rewrite HK). rewrite Hm. simpl.
    destruct (gate_eqb (k_gate K) GWrite) eqn:Hg; (split; [eauto with tako|]; split; [done|]); simpl.
    - intros Hz _ a Ha. destruct ids; simpl in Hz; [|lia]. destruct (decide (a = app)) as [->|Hne].
      + by rewrite lookup_insert_eq.
      + rewrite lookup_insert_ne by done. apply Hb; [lia|by apply bool_decide_eq_true in Hg|set_solver].
    - intros _ Hg'. by apply bool_decide_eq_false in Hg. }
  destruct (settled && compose) eqn:Hsc; [|by apply Hcount].
  wt_do. intros [[|]|]; [by apply Hcount| |]; wt_do; intros c; apply Hcount; try done; simpl; intros _; by destruct (r'.2.2).
Qed.

(** ** A local drain *)

(** The knowledge with which a drain looks at the apps. *)
Definition draining_know (K : know) (settled : bool) : know :=
  Know true (k_op K) (if settled then GWrite else GNone) (k_active K) true true (k_idle K) (k_req K)
    (k_names K) (k_look K) (k_bound K) (k_granted K).

Lemma knows_stopped_counted K K1 apps L names r K' :
  K1 = know_apps (draining_know K true) (Some (list_to_set names)) L (k_bound K) ->
  (forall name, name ∈ names -> exists o, L !! name = Some o /\ forall a, o = Some a -> a ∈ apps) ->
  counted true K1 apps r K' -> r.1 = 0 -> k_idle K' = true -> knows_stopped K'.
Proof.
  intros -> HL (HK & _ & Hb) Hz Hi. specialize (Hb Hz eq_refl). rewrite HK in Hi |- *. simpl in *.
  split; [done|]. split; [done|]. split; [done|]. split; [done|]. simpl.
  exists (list_to_set names). split; [done|]. intros name Hn. apply elem_of_list_to_set in Hn.
  destruct (HL name Hn) as (o & Ho & Ha). exists o. split; [done|]. intros a Ea. auto.
Qed.

Lemma keeps_around K K1 K' : keeps K1 K' -> around K K1 -> around K K'.
Proof. intros ->. done. Qed.

Lemma wt_close_report settled forced fp fs fw r K K1 apps L names K' (Q : DrainReport -> know -> Prop) :
  k_gate K = GNone -> k_mgmt K = true ->
  K1 = know_apps (draining_know K settled) (Some (list_to_set names)) L (k_bound K) ->
  (forall name, name ∈ names -> exists o, L !! name = Some o /\ forall a, o = Some a -> a ∈ apps) ->
  counted settled K1 apps r K' ->
  (forall r K', around K K' -> other_processes_quiescent r = false -> completed r = local_completed r -> Q r K') ->
  wt (close_report settled forced fp fs fw r) K' Q.
Proof.
  intros Hg Hm HK1 HL Hc HQ. unfold close_report. wt_do. intros wf. wt_do. intros n. cbn [post wt].
  set (local := _ && _). set (report := mkDrainReport _ _ _ _ _ _ _ _ _ _ _ _ _ _ _).
  set (K3 := if (n =? 0)%nat then _ else _).
  assert (Hc3 : counted settled K1 apps r K3).
  { destruct Hc as (HK & ? & ?). unfold K3. destruct (n =? 0)%nat; [|done].
    split; [|done]. rewrite HK. done. }
  assert (Hrelease : forall K4, keeps (know_active K1 (k_active K4)) K4 ->
            wt (if settled then GateDrop;;; Ret report else Ret report) K4 Q).
  { intros K4 HK4. destruct settled.
    - wt_do. intros _. apply HQ; try done. rewrite HK4, HK1. simpl. by repeat split.
    - apply HQ; try done. rewrite HK4, HK1. simpl. by repeat split. }
  destruct local eqn:Hl; cycle 1.
  { apply Hrelease. destruct Hc3 as (HK3 & _). rewrite HK3. by rewrite HK1. }
  apply andb_true_iff in Hl as [[[Hz%Nat.eqb_eq Hn]%andb_true_iff _]%andb_true_iff He%bool_decide_eq_true].
  cbn [wt pre post].
  assert (settled = true) as -> by (destruct settled; [done|]; destruct Hc as (_ & Hc & _); by destruct (Hc eq_refl)).
  split.
  - eapply knows_stopped_counted; [done|done|exact Hc3|done|]. unfold K3. rewrite Hn. simpl.
    destruct Hc as (HK & _). by rewrite HK, HK1.
  - intros _. apply Hrelease. destruct Hc3 as (HK3 & _). rewrite HK3. by rewrite HK1.
Qed.

Lemma wt_stop_runtime settled apps l forced fp fs K K1 L names K5 (Q : DrainReport -> know -> Prop) :
  k_gate K = GNone -> k_mgmt K = true ->
  K1 = know_apps (draining_know K settled) (Some (list_to_set names)) L (k_bound K) ->
  (forall name, name ∈ names -> exists o, L !! name = Some o /\ forall a, o = Some a -> a ∈ apps) ->
  keeps K1 K5 ->
  (forall r K', around K K' -> other_processes_quiescent r = false -> completed r = local_completed r -> Q r K') ->
  wt (stop_runtime settled apps l forced fp fs) K5 Q.
Proof.
  intros Hg Hm HK1 HL HK5 HQ. unfold stop_runtime.
  wt_do. intros st. wt_do. intros fw. wt_do. intros n. cbn [post wt]. set (K6 := if (n =? 0)%nat then _ else _).
  assert (HK6 : keeps K1 K6) by (unfold K6; destruct (n =? 0)%nat; eauto using keeps_trans, keeps_requests).
  clearbody K6.
  assert (Hstacks : forall r K7, keeps K1 K7 -> (settled = false -> r.2 <> []) ->
    wt (r <- fold_prog apps (stop_app_stack settled) (0, r);; close_report settled forced fp fs fw.1 r) K7 Q).
  { intros r K7 HK7 Hr. apply wt_bind, wt_stop_stacks; [by rewrite HK7, HK1|done|].
    intros r' K8 (HK8 & He & Hb). eapply (wt_close_report _ _ _ _ _ _ K K1); try done.
    split; [eauto with tako|]. split; [done|]. rewrite HK7 in Hb. exact Hb. }
  destruct settled; apply wt_bind; simpl.
  - apply wt_stop_instances; [by rewrite HK6, HK1|]. intros r' K7 HK7. apply Hstacks; [eauto with tako|done].
  - apply Hstacks; [done|]. intros _. by case_match.
Qed.

Lemma draining_know_init K settled :
  k_mgmt K = true -> k_gate K = GNone ->
  (let K0 := know_requests (know_flag K (true && k_mgmt K)) (k_mgmt K) (k_idle K) in
   if settled : bool then know_gate K0 GWrite else K0) = draining_know K settled.
Proof.
  intros Hm Hg. unfold draining_know, know_gate, know_requests, know_flag. destruct settled; simpl; by rewrite Hm, ?Hg.
Qed.

(** A drain keeps what its caller knows of the locks and the row; it releases the activity
    lease only when nothing is left. *)
Lemma wt_drain_runtime polls K (Q : DrainReport -> know -> Prop) :
  k_mgmt K = true -> k_gate K = GNone ->
  (forall r K', around K K' -> other_processes_quiescent r = false -> completed r = local_completed r -> Q r K') ->
  wt (drain_runtime_with_cleanup_until polls) K Q.
Proof.
  intros Hm Hg HQ. unfold drain_runtime_with_cleanup_until.
  wt_do. intros _. wt_do. intros _. wt_do. intros settled. wt_do. intros _. wt_do. intros names.
  cbn [post wt]. fold (know_flag K (true && k_mgmt K)).
  change (if settled then _ else _) with
    (let K0 := know_requests (know_flag K (true && k_mgmt K)) (k_mgmt K) (k_idle K) in
     if settled then know_gate K0 GWrite else K0).
  rewrite (draining_know_init K settled Hm Hg). simpl (k_mgmt _). cbv iota.
  apply wt_bind, wt_collect_apps; [done|]. intros apps L HL. set (K1 := know_apps _ _ L _).
  assert (HK1 : K1 = know_apps (draining_know K settled) (Some (list_to_set names)) L (k_bound K)) by done.
  clearbody K1. apply wt_bind, wt_withdraw. intros l K2 HK2. apply wt_bind, wt_wait_for_work. intros K3 HK3.
  apply wt_bind, wt_count_forced. intros forced. wt_do. intros n. cbn [post wt].
  set (K4 := if (n =? 0)%nat then _ else _).
  assert (HK4 : keeps K1 K4) by (unfold K4; destruct (n =? 0)%nat; eauto using keeps_trans, keeps_requests).
  assert (Hc4 : k_closed K4 = k_mgmt K4) by (by rewrite HK4, HK1). clearbody K4.
  apply wt_bind. destruct (0 <? n)%nat; [|by eapply (wt_stop_runtime _ _ _ _ _ _ K K1)].
  wt_do. intros fs. cbn [wt]. eapply (wt_stop_runtime _ _ _ _ _ _ K K1); try done.
  rewrite <- Hc4. eauto with tako.
Qed.

(** ** Work on apps, and the tests of the gate *)

Lemma around_active_refl K : around_active K K.
Proof. done. Qed.

Lemma around_active_trans K1 K2 K3 : around_active K1 K2 -> around_active K2 K3 -> around_active K1 K3.
Proof. intros [(? & ? & ? & ? & ?) ?] [(? & ? & ? & ? & ?) ?]. repeat split; try congruence; auto. Qed.

Lemma wt_app_work x K (Q : unit -> know -> Prop) :
  (allocates x = true -> k_active K = true) -> (on_instances x = false -> k_mgmt K = true) ->
  (forall K', around_active K K' -> Q tt K') -> wt (app_work x) K Q.
Proof.
  intros Ha Hm HQ. destruct x; simpl in *; repeat (split; auto; intros); try (apply HQ; by repeat split).
Qed.

Lemma wt_work l K (Q : unit -> know -> Prop) :
  (forall x, x ∈ l -> allocates x = true -> k_active K = true) ->
  (forall x, x ∈ l -> on_instances x = false -> k_mgmt K = true) ->
  (forall K', around_active K K' -> Q tt K') -> wt (for_each l app_work) K Q.
Proof.
  intros Ha Hm HQ. eapply (wt_for_each _ _ (around_active K)); [|apply around_active_refl|done].
  intros x K' Hx HK. apply wt_app_work.
  - intros Hal. apply HK. eauto.
  - intros Ho. destruct HK as [(-> & _) _]. eauto.
  - intros K2 HK2. by eapply around_active_trans.
Qed.

(** What is known after a test of the gate: a negative answer means that the process is active. *)
Definition tested (K : know) (b : bool) (K' : know) : Prop :=
  k_mgmt K' = k_mgmt K /\ k_op K' = k_op K /\ k_gate K' = k_gate K /\ k_granted K' = k_granted K
  /\ (k_op K = false -> k_req K' = k_req K) /\ (k_active K = true -> k_active K' = true)
  /\ (b = false -> k_mgmt K = true \/ k_gate K = GRead -> k_active K' = true).

Lemma tested_false_load K :
  tested K false (if k_mgmt K || gate_eqb (k_gate K) GRead then know_active K true else K).
Proof.
  destruct (k_mgmt K || gate_eqb (k_gate K) GRead) eqn:E; repeat split; try done.
  intros _ Hk. apply orb_false_iff in E as [E1 E2%bool_decide_eq_false]. naive_solver congruence.
Qed.

(** Reading the row: under the operation lease its value stays known. *)
Definition row_read (K : know) (b : bool) (K' : know) : Prop :=
  (K' = K /\ (k_req K = Some b \/ k_op K = false)) \/ (K' = know_op K true (Some b) /\ k_op K = true).

Lemma wt_read_requested {R} (k : result bool str -> prog R) K (Q : R -> know -> Prop) :
  (forall e, wt (k (Err e)) K Q) -> (forall b K', row_read K b K' -> wt (k (Ok b)) K' Q) ->
  wt (Do ReadRequested k) K Q.
Proof.
  intros HE HO. split; [done|]. intros [b|e]; [|apply HE]. simpl. destruct (k_req K) as [b'|] eqn:Hr.
  - destruct (Bool.eqb b b') eqn:Hb; [|done]. apply Bool.eqb_prop in Hb as ->. apply HO. left. auto.
  - destruct (k_op K) eqn:Ho; apply HO; [by right|left; auto].
Qed.

Lemma row_read_locks K b K' : row_read K b K' ->
  k_mgmt K' = k_mgmt K /\ k_gate K' = k_gate K /\ k_op K' = k_op K /\ k_granted K' = k_granted K
  /\ k_active K' = k_active K /\ (k_op K = true -> k_req K' = Some b) /\ (k_op K = false -> k_req K' = k_req K).
Proof. intros [[-> [H|H]]|[-> H]]; simpl; repeat split; congruence. Qed.

Lemma wt_is_draining K (Q : bool -> know -> Prop) :
  (forall b K', tested K b K' -> Q b K') -> wt is_draining K Q.
Proof.
  intros HQ. apply wt_read_requested; [intros e; apply HQ; by repeat split|].
  intros b K1 (H1 & H2 & H3 & H4 & H5 & _ & H6)%row_read_locks. destruct b.
  - wt_do. intros _. apply HQ. repeat split; simpl; try congruence; auto.
  - wt_do. destruct (tested_false_load K1) as (E1 & E2 & E3 & E4 & E5 & E6 & E7).
    intros [|]; cbn [wt]; [apply HQ; repeat split; try congruence; auto|].
    assert (Hq : tested K false (if k_mgmt K1 || gate_eqb (k_gate K1) GRead then know_active K1 true else K1)).
    { repeat split; try congruence; [intros Ho; rewrite E5 by congruence; auto|intros; apply E6; congruence|].
      intros _. rewrite <- H1, <- H2. auto. }
    by destruct (k_mgmt K1 || gate_eqb (k_gate K1) GRead); apply HQ.
Qed.

(** ** Resuming *)

Lemma wt_undo_restore msg K (Q : result unit str -> know -> Prop) :
  k_mgmt K = true -> k_gate K = GNone -> (forall r K', around K K' -> Q r K') -> wt (undo_restore msg) K Q.
Proof. intros Hm Hg HQ. apply wt_bind, wt_drain_runtime; [done|done|]. intros r K' HK _ _. by apply HQ. Qed.

Lemma wt_restore_apps work K (Q : result unit str -> know -> Prop) :
  k_mgmt K = true -> k_active K = true -> (forall r K', around_active K K' -> Q r K') -> wt (restore_apps work) K Q.
Proof.
  intros Hm Ha HQ. apply wt_bind, wt_work; [done|done|]. intros K' HK. wt_do. intros r. by apply HQ.
Qed.

Lemma wt_restore work ci K (Q : result unit str -> know -> Prop) :
  k_mgmt K = true -> k_gate K = GNone -> k_op K = true -> (ci = false -> k_req K = Some false) ->
  (forall r K', k_granted K' = k_granted K -> Q r K') -> wt (restore_drained_runtime work ci) K Q.
Proof.
  intros Hm Hg Ho Hr HQ. unfold restore_drained_runtime. wt_do. intros [[|]|e]; cbn [wt]; [|by apply HQ..].
  wt_do. intros names. cbn [post wt]. simpl (k_mgmt _). rewrite Hm. set (K1 := know_apps _ _ _ _).
  assert (HK1 : around K K1 /\ k_active K1 = true) by done. destruct HK1 as [HK1 Ha1]. clearbody K1.
  assert (Hundo : forall msg K2, around_active K1 K2 -> wt (undo_restore msg) K2 Q).
  { intros msg K2 HK2. destruct HK1 as (E1 & E2 & E3 & E4 & E5), HK2 as [(F1 & F2 & F3 & F4 & F5) F6].
    apply wt_undo_restore; [congruence|congruence|]. intros r K3 (_ & _ & _ & _ & G5). apply HQ. congruence. }
  apply wt_bind. eapply (wt_for_each _ _ (around_active K1)); [|apply around_active_refl|].
  { intros name K2 _ HK2. cbn [forget_app wt pre post].
    assert (k_mgmt K2 = true) by (destruct HK1 as (? & _), HK2 as [(? & _) _]; congruence).
    do 3 (split; [done|]; intros ?; cbn [pre post wt]). by destruct HK2 as [(? & ? & ? & ? & ?) ?]. }
  intros K2 HK2. assert (Hm2 : k_mgmt K2 = true) by (destruct HK1 as (? & _), HK2 as [(? & _) _]; congruence).
  apply wt_bind, wt_restore_apps; [done|by apply HK2|]. intros r K3 HK3.
  assert (HK13 : around_active K1 K3) by (by eapply around_active_trans).
  destruct r as [?|e]; [|by apply Hundo].
  destruct HK1 as (E1 & E2 & E3 & E4 & E5). destruct (id HK13) as [(F1 & F2 & F3 & F4 & F5) F6].
  cbn [wt pre post]. split; [split; [by apply F6|congruence]|]. intros [|]; [|apply Hundo; by destruct HK13 as [(? & ? & ? & ? & ?) ?]].
  assert (Hfin : forall K4, k_active K4 = true -> k_mgmt K4 = true -> k_granted K4 = k_granted K ->
            wt (StoreFlag false;;; Ret (Ok tt)) K4 Q).
  { intros K4 Ha4 Hm4 Hg4. split; [done|]. intros ?. by apply HQ. }
  destruct ci; [|apply Hfin; simpl; auto; congruence].
  cbn [wt pre post]. split; [split; simpl; [congruence|by apply F6]|].
  intros [?|e]; cbn [wt]; [apply Hfin; simpl; auto; congruence|].
  apply Hundo. by destruct HK13 as [(? & ? & ? & ? & ?) ?].
Qed.

(** What an answer promises: a completed drain has had the exclusive lease. *)
Definition reply_ok (r : Reply) (K : know) : Prop :=
  match r with Drained d => completed d = true -> k_granted K = true | _ => True end.

Lemma wt_resume_locked work K (Q : Reply -> know -> Prop) :
  k_mgmt K = true -> k_gate K = GNone -> k_op K = true -> (forall r K', reply_ok r K' -> Q r K') ->
  wt (resume_locked work) K Q.
Proof.
  intros Hm Hg Ho HQ. apply wt_bind, wt_is_draining. intros b K1 (E1 & E2 & E3 & _). rewrite Hm in E1. rewrite Ho in E2.
  rewrite Hg in E3. destruct b; [|by apply HQ]. cbn [negb]. cbv iota.
  assert (Hgo : forall requested K2, k_mgmt K2 = true -> k_op K2 = true -> k_gate K2 = GNone -> k_req K2 = Some requested ->
    wt (cleanup <- retry_runtime_drain;;
        if negb (completed cleanup) then Ret (Refused (bs "Server remains drained; cleanup is incomplete"))
        else
          let restore :=
            restored <- restore_drained_runtime work requested;;
            Ret (match restored with Ok _ => Resumed false | Err e => Refused e end) in
          if requested then
            exclusive <~ TryExclusive;;
            match exclusive with
            | Ok true => DropExclusive;;; restore
            | Ok false =>
                Ret (Refused (bs "Server remains drained; other processes are still cleaning up. Retry resume shortly."))
            | Err e => Ret (Refused e)
            end
          else restore) K2 Q).
  { intros req K2 Hm2 Ho2 Hg2 Hr2. apply wt_bind, wt_drain_runtime; [done|done|].
    intros r K3 (F1 & F2 & F3 & F4 & F5) _ _. rewrite Hm2 in F1. rewrite Ho2 in F2. rewrite Hg2 in F3. rewrite Hr2 in F4.
    destruct (completed r); simpl; [|by apply HQ].
    assert (Hrestore : forall K4, k_mgmt K4 = true -> k_op K4 = true -> k_gate K4 = GNone -> k_req K4 = Some req ->
      wt (restored <- restore_drained_runtime work req;;
          Ret (match restored with Ok _ => Resumed false | Err e => Refused e end)) K4 Q).
    { intros K4 ? ? ? ?. apply wt_bind, wt_restore; try done; [by intros ->|]. intros [?|?] K5 _; by apply HQ. }
    destruct req; [|by apply Hrestore]. wt_do. intros [[|]|e]; [|by apply HQ..]. wt_do. intros _. by apply Hrestore. }
  apply wt_read_requested; [intros; by apply HQ|].
  intros req K2 (F1 & F2 & F3 & _ & _ & F6 & _)%row_read_locks. apply Hgo; try congruence. auto.
Qed.

Lemma wt_resume_server work K (Q : Reply -> know -> Prop) :
  k_mgmt K = true -> k_gate K = GNone -> (forall r K', reply_ok r K' -> Q r K') -> wt (resume_server work) K Q.
Proof.
  intros Hm Hg HQ. wt_do. intros [[|]|e]; cbn [wt]; [|by apply HQ..].
  apply wt_bind, wt_resume_locked; [done|done|done|]. intros r K' Hr. wt_do. intros _. by apply HQ.
Qed.

(** ** Draining *)

Lemma wt_prepare timeout K (Q : result unit str -> know -> Prop) :
  (forall e K', Q (Err e) K') ->
  (forall K', k_mgmt K' = k_mgmt K -> k_gate K' = k_gate K -> k_op K' = true -> k_req K' = Some true -> Q (Ok tt) K') ->
  wt (prepare_server_drain timeout) K Q.
Proof.
  intros HE HQ. unfold prepare_server_drain. case_match; [apply HE|]. wt_do. intros [[|]|e]; cbn [wt]; try apply HE.
  wt_do. intros now. wt_do. intros [?|e]; cbn [wt].
  - wt_do. intros _. wt_do. intros _. by apply HQ.
  - wt_do. intros _. apply HE.
Qed.

Lemma wt_await_quiescence polls r : forall K (Q : DrainReport -> know -> Prop),
  k_req K = Some true ->
  (forall r' K', (other_processes_quiescent r' = true -> k_granted K' = true) -> Q r' K') ->
  wt (await_quiescence polls r) K Q.
Proof.
  induction polls as [|polls IH]; intros K Q Hr HQ; simpl; [by apply HQ|]. split; [done|].
  intros [[|]|e]; cbn [wt].
  - split; [done|]. intros ?. by apply HQ.
  - split; [done|]. intros [|]; [by apply HQ|by apply IH].
  - by apply HQ.
Qed.

Lemma wt_finish_drain polls K (Q : Reply -> know -> Prop) :
  k_mgmt K = true -> k_gate K = GNone -> k_req K = Some true -> (forall r K', reply_ok r K' -> Q r K') ->
  wt (finish_server_drain polls) K Q.
Proof.
  intros Hm Hg Hr HQ. apply wt_bind, wt_drain_runtime; [done|done|]. intros r K1 (_ & _ & _ & E & _) Hother _.
  apply wt_bind. destruct (local_completed r) eqn:Hl.
  - apply wt_await_quiescence; [congruence|]. intros r' K2 Hq. apply HQ. simpl. intros [_ ?]%andb_true_iff. auto.
  - cbn [wt]. apply HQ. simpl. by rewrite Hl.
Qed.

Lemma wt_drain_before_management polls timeout K (Q : Reply -> know -> Prop) :
  k_mgmt K = false -> k_gate K = GNone -> (forall r K', reply_ok r K' -> Q r K') ->
  wt (drain_server_before_management polls timeout) K Q.
Proof.
  intros Hm Hg HQ. apply wt_bind, wt_prepare; [intros e K'; by apply HQ|]. intros K1 E1 E2 E3 E4.
  wt_do. intros [|]; cbn [post].
  - apply wt_bind, wt_finish_drain; [done|simpl; congruence|done|]. intros r K2 H2.
    wt_do. intros _. wt_do. intros _. by apply HQ.
  - do 4 (wt_do; intros ?). by apply HQ.
Qed.

Lemma wt_drain_server polls timeout K (Q : Reply -> know -> Prop) :
  k_mgmt K = true -> k_gate K = GNone -> (forall r K', reply_ok r K' -> Q r K') ->
  wt (drain_server polls timeout) K Q.
Proof.
  intros Hm Hg HQ. apply wt_bind, wt_prepare; [intros e K'; by apply HQ|]. intros K1 E1 E2 E3 E4.
  apply wt_bind, wt_finish_drain; [congruence|congruence|done|]. intros r K2 H2. wt_do. intros _. by apply HQ.
Qed.

(** ** The observer *)

Lemma wt_observe_requested polls K (Q : result unit str -> know -> Prop) :
  k_mgmt K = true -> k_gate K = GNone -> (forall r K', Q r K') -> wt (observe_requested polls) K Q.
Proof.
  intros Hm Hg HQ. wt_do. intros [|]; cbn [wt]; [|apply HQ]. wt_do. intros [d|e]; cbn [wt]; [|apply HQ].
  wt_do. intros now. apply wt_bind. case_match; apply wt_drain_runtime; try done; intros; apply HQ.
Qed.

Lemma wt_observe_withdrawn work K (Q : result unit str -> know -> Prop) :
  k_mgmt K = true -> k_gate K = GNone -> (forall r K', Q r K') -> wt (observe_withdrawn work) K Q.
Proof.
  intros Hm Hg HQ. wt_do. intros [[|]|e]; cbn [wt]; try apply HQ.
  apply wt_read_requested; [intros; wt_do; intros _; apply HQ|].
  intros [|] K0 (F1 & F2 & F3 & _ & _ & F6 & _)%row_read_locks; [wt_do; intros _; apply HQ|]. simpl in F1, F2, F3, F6.
  apply wt_bind, wt_bind, wt_drain_runtime; [congruence|congruence|]. intros r K1 (E1 & E2 & E3 & E4 & _) _ _.
  destruct (completed r).
  - apply wt_restore; try congruence; [rewrite E4; auto|]. intros r' K2 _. wt_do. intros _. apply HQ.
  - cbn [wt]. wt_do. intros _. apply HQ.
Qed.

Lemma wt_observe polls work K (Q : result unit str -> know -> Prop) :
  k_mgmt K = false -> k_gate K = GNone -> (forall r K', Q r K') -> wt (observe_drain_once polls work) K Q.
Proof.
  intros Hm Hg HQ. unfold observe_drain_once. cbv zeta. set (reconcile := Do LoadFlag _).
  assert (Hrec : forall K1, k_gate K1 = GNone -> wt reconcile K1 Q).
  { intros K1 Hg1. unfold reconcile. cbn [wt]. split; [done|]. intros [|]; cbn [post negb]; cycle 1.
    { destruct (k_mgmt K1 || gate_eqb (k_gate K1) GRead); apply HQ. }
    wt_do. intros _. cbn [post]. apply wt_read_requested; [intros; wt_do; intros _; apply HQ|].
    intros b K2 (F1 & F2 & _)%row_read_locks. simpl in F1, F2. rewrite Hg1 in F2. apply wt_bind.
    destruct b; [apply wt_observe_requested|apply wt_observe_withdrawn]; try done; intros; wt_do; intros _; apply HQ. }
  apply wt_read_requested; [intros; apply HQ|]. intros b K1 (_ & F2 & _)%row_read_locks. rewrite Hg in F2.
  destruct b; [|by apply Hrec]. wt_do. intros _. wt_do. intros _. by apply Hrec.
Qed.

(** ** Management commands *)

Section Commands.
Context {J : JsonApi}.

Lemma wt_handle_command polls work command K (Q : Reply -> know -> Prop) :
  (command_is_read_only command = false -> k_mgmt K = true) -> k_gate K = GNone ->
  (forall r K', reply_ok r K' -> Q r K') -> wt (handle_command polls work command) K Q.
Proof.
  intros Hm Hg HQ. unfold handle_command. apply wt_bind, wt_is_draining.
  intros draining K1 (E1 & _ & E3 & _ & _ & _ & E7). rewrite Hg in E3.
  destruct (draining && blocked_while_draining command) eqn:Hblocked; [by apply HQ|].
  assert (Hwork : command_is_read_only command = false ->
    wt (_ <- for_each (if blocked_while_draining command then work
                       else retain (fun w => negb (allocates w)) work) app_work;; Ret Worked) K1 Q).
  { intros Hro. apply wt_bind, wt_work; [|intros; rewrite E1; auto|intros K2 _; by apply HQ].
    destruct (blocked_while_draining command) eqn:Hb.
    - intros x _ _. destruct draining; [done|]. auto.
    - intros x [Hx _]%elem_of_retain Ha. by rewrite Ha in Hx. }
  destruct command; cbn [command_is_read_only] in *; try (by apply HQ); try (by apply Hwork).
  - apply wt_drain_server; [rewrite E1; auto|done|done].
  - apply wt_resume_server; [rewrite E1; auto|done|done].
Qed.

Lemma wt_handle_rpc polls work command : wt (handle_rpc_command polls work command) no_know reply_ok.
Proof.
  assert (Hgo : wt (if command_is_read_only command then handle_command polls work command
    else LockManagement;;; reply <- handle_command polls work command;; UnlockManagement;;; Ret reply) no_know reply_ok).
  { destruct (command_is_read_only command) eqn:Hro.
    - apply wt_handle_command; [congruence|done|done].
    - wt_do. intros _. apply wt_bind, wt_handle_command; [done|done|]. intros r K' Hr. wt_do. intros _. exact Hr. }
  unfold handle_rpc_command. destruct command; try exact Hgo. by apply wt_drain_before_management.
Qed.
End Commands.

(** ** Spawns *)

Lemma wt_cold_start_leader name app : wt (cold_start_leader name app) no_know reply_ok.
Proof.
  unfold cold_start_leader. wt_do. intros [|]; cbn [negb post]; [|wt_do; by intros _].
  wt_do. intros [|]; cbn; [repeat (split; [done|]; intros _); done|].
  split; [done|]. intros _. split; [done|]. intros id. split; [done|].
  intros [?|e]; cbn; repeat (split; [done|]; intros _); done.
Qed.

Lemma wt_resolve_backend name : wt (resolve_backend name) no_know reply_ok.
Proof.
  unfold resolve_backend. wt_do. intros [|]; [done|]. wt_do. intros [b|]; [done|]. wt_do. intros [app|]; [|done].
  wt_do. intros c. destruct (negb (min_instances c =? 0)%Z); [done|].
  assert (Hwait : wt (outcome <~ WaitForReady name;;
            match outcome with
            | WReady => backend <~ LbGetBackend name;; Ret (Backend backend)
            | _ => Ret (Backend None)
            end) no_know reply_ok).
  { wt_do. intros []; by try wt_do. }
  wt_do. intros [|]; [|exact Hwait]. wt_do. intros _. exact Hwait.
Qed.

(** The replacement keeps the side of the gate it holds. *)
Lemma wt_count_build app build K (Q : Z -> know -> Prop) :
  k_gate K = GRead -> (forall n, Q n K) -> wt (count_build app build) K Q.
Proof.
  intros Hg HQ. unfold count_build. wt_do. intros ids. cbn [post]. rewrite Hg, andb_false_r. simpl.
  eapply (wt_fold _ (fun _ _ K' => K' = K)) with (d := []); [|done|].
  - intros d i s' K' _ ->. by wt_do.
  - by intros s' K' ->.
Qed.

Lemma wt_replace_admitted work app id K (Q : unit -> know -> Prop) :
  k_gate K = GRead -> k_active K = true -> (forall K', Q tt K') -> wt (replace_admitted work app id) K Q.
Proof.
  intros Hg Ha HQ. unfold replace_admitted. wt_do. intros build. wt_do. intros c.
  apply wt_bind, wt_count_build; [done|]. intros n. wt_do. intros c'.
  destruct (_ <? n)%Z; [do 2 (wt_do; intros ?); apply HQ|].
  wt_do. intros ?. wt_do. intros ?. cbn [post]. wt_do. intros [|]; cbn [post].
  - apply wt_bind. unfold reconcile_compose. apply wt_bind, wt_work; [done| |].
    + intros y [Hx _]%elem_of_retain. congruence.
    + intros K' _. wt_do. intros [?|e]; [apply HQ|]. wt_do. intros ?. apply HQ.
  - wt_do. intros new. wt_do. intros [?|e]; [apply HQ|]. wt_do. intros ?. apply HQ.
Qed.

Lemma wt_replace work name id K (Q : unit -> know -> Prop) :
  k_gate K = GNone -> k_mgmt K = false -> (forall K', Q tt K') -> wt (replace_instance_if_needed work name id) K Q.
Proof.
  intros Hg Hm HQ. unfold replace_instance_if_needed. wt_do. intros [|]; cbn [negb post]; [|apply HQ].
  apply wt_bind, wt_is_draining. intros b K1 (E1 & _ & E3 & _ & _ & _ & E7). simpl in E1, E3, E7.
  destruct b; [wt_do; intros _; apply HQ|]. specialize (E7 eq_refl (or_intror eq_refl)).
  wt_do. intros [app|]; cbn [post]; rewrite E1, Hm; [|wt_do; intros _; apply HQ].
  wt_do. intros compose. apply wt_bind.
  assert (Hgo : wt (if negb true then GateDrop;;; Ret tt
    else present <~ HasInstance app id;;
         if present then _ <- replace_admitted work app id;; GateDrop;;; Ret tt else GateDrop;;; Ret tt) K1 Q).
  { cbn [negb]. cbv iota. wt_do. intros [|]; [|wt_do; intros _; apply HQ].
    apply wt_bind, wt_replace_admitted; [done|done|]. intros K2. wt_do. intros _. apply HQ. }
  destruct compose; [|exact Hgo]. wt_do. intros [|]; [exact Hgo|]. wt_do. intros ?. apply HQ.
Qed.

Lemma wt_handle_dead work name id : wt (handle_dead work name id) no_know reply_ok.
Proof.
  apply wt_bind, wt_is_draining. intros b K1 (E1 & _ & E3 & _). simpl in E1, E3. destruct b; [done|].
  wt_do. rewrite E1. intros [app|]; [|done]. wt_do. intros [|]; [done|]. wt_do. intros [|]; [|done].
  cbn [negb]. cbv iota. wt_do. intros _. wt_do. intros _. by apply wt_bind, wt_replace.
Qed.

(** ** Idle apps, startup and retirement *)

Lemma wt_idle_locked event K (Q : unit -> know -> Prop) : (forall K', Q tt K') -> wt (idle_locked event) K Q.
Proof.
  intros HQ. apply wt_bind, wt_is_draining. intros b K1 _. destruct b; [apply HQ|]. wt_do. intros [|]; [|apply HQ].
  cbn [negb]. cbv iota. destruct event; wt_do; intros [a0|]; cbn [post]; try apply HQ; try (wt_do; intros _; apply HQ).
  - wt_do. intros [|]; [|apply HQ]. cbn [negb]. cbv iota. wt_do. intros ?. wt_do. intros [|]; [|apply HQ].
    wt_do. intros _. apply HQ.
  - wt_do. intros [|]; [|apply HQ]. wt_do. intros _. apply HQ.
Qed.

Lemma wt_handle_idle event : wt (handle_idle_event event) no_know reply_ok.
Proof.
  unfold handle_idle_event. wt_do. intros [|]; [|done]. cbn [negb post]. cbv iota.
  apply wt_bind, wt_idle_locked. intros K'. by wt_do.
Qed.

Lemma wt_startup work : wt (startup work) no_know reply_ok.
Proof.
  unfold startup. wt_do. intros _. apply wt_bind, wt_is_draining. intros b K1 (E1 & _ & E3 & _ & _ & _ & E7).
  simpl in E1, E3, E7. destruct b; [by wt_do|]. apply wt_bind, wt_restore_apps; [done|auto|]. intros r K' _. by wt_do.
Qed.

(** An instance that retires is removed, or the retirement ends with an error. *)
Lemma wt_retire_instance name app id K (Q : option str -> know -> Prop) :
  k_gate K = GWrite -> (forall e K', keeps K K' -> Q (Some e) K') ->
  Q None (know_apps K (k_names K) (k_look K) (alter (fun s => s ∖ {[id]}) app (k_bound K))) ->
  wt (retire_instance name app id) K Q.
Proof.
  intros Hg HE HQ. unfold retire_instance. wt_do. intros _. wt_do. intros _. cbn [wt pre post]. split; [done|].
  intros [[?|e]|]; [|by apply HE, keeps_refl..]. by wt_do.
Qed.

Lemma wt_retire_ids name app ids : forall K (Q : option str -> know -> Prop),
  k_gate K = GWrite -> k_bound K !! app = Some (list_to_set ids) ->
  (forall e K', keeps K K' -> Q (Some e) K') ->
  (forall K', keeps K K' -> k_bound K' !! app = Some ∅ ->
     (forall a, k_bound K !! a = Some ∅ -> k_bound K' !! a = Some ∅) -> Q None K') ->
  wt (until_error ids (retire_instance name app)) K Q.
Proof.
  assert (Hgen : forall s K (Q : option str -> know -> Prop),
    k_gate K = GWrite -> k_bound K !! app = Some s -> s ⊆ list_to_set ids ->
    (forall e K', keeps K K' -> Q (Some e) K') ->
    (forall K', keeps K K' -> k_bound K' !! app = Some ∅ ->
       (forall a, k_bound K !! a = Some ∅ -> k_bound K' !! a = Some ∅) -> Q None K') ->
    wt (until_error ids (retire_instance name app)) K Q).
  2:{ intros K Q Hg Hb. by apply (Hgen (list_to_set ids)). }
  induction ids as [|id ids IH]; intros s K Q Hg Hb Hs HE HQ; cbn [until_error wt].
  { apply HQ; [apply keeps_refl| |done]. rewrite Hb. f_equal. apply set_eq. set_solver. }
  apply wt_bind, wt_retire_instance; [done|auto|].
  eapply (IH (s ∖ {[id]})); [done|simpl; by rewrite lookup_alter_eq, Hb|set_solver|..].
  - intros e K' HK. apply HE. eauto with tako.
  - intros K' HK Hz Hall. apply HQ; [eauto with tako|done|]. intros a Ha. apply Hall. simpl.
    destruct (decide (a = app)) as [->|Hne]; [|by rewrite lookup_alter_ne].
    rewrite lookup_alter_eq, Ha. simpl. f_equal. apply set_eq. set_solver.
Qed.

(** What is known of the apps that were retired. *)
Definition retired (names : list str) (K : know) : Prop :=
  forall name, name ∈ names -> exists o, k_look K !! name = Some o /\ forall a, o = Some a -> k_bound K !! a = Some ∅.

(** All but what is known of the apps and the requests. *)
Definition keeps_locks (K K' : know) : Prop :=
  around K K' /\ k_flag K' = k_flag K /\ k_closed K' = k_closed K /\ k_names K' = k_names K.

Lemma keeps_keeps_locks K K' : keeps K K' -> keeps_locks K K'.
Proof. intros ->. done. Qed.

Lemma wt_retire_apps names : forall d K (Q : option str -> know -> Prop),
  k_mgmt K = true -> k_gate K = GWrite -> retired d K ->
  (forall r K', keeps_locks K K' -> (r = None -> retired (d ++ names) K') -> Q r K') ->
  wt (until_error names retire_app) K Q.
Proof.
  induction names as [|name names IH]; intros d K Q Hm Hg Hd HQ; cbn [until_error wt].
  { apply HQ; [done|]. by rewrite app_nil_r. }
  apply wt_bind. unfold retire_app. wt_do. intros o. cbn [post]. rewrite Hm.
  set (K1 := know_apps _ _ _ _).
  assert (Hd1 : forall n, n ∈ d -> n <> name -> exists o', k_look K1 !! n = Some o'
            /\ forall a, o' = Some a -> k_bound K !! a = Some ∅).
  { intros n Hn Hne. destruct (Hd n Hn) as (o' & Ho & Ha). exists o'. simpl. by rewrite lookup_insert_ne. }
  assert (Hnext : forall K2, keeps K1 K2 -> (forall a, k_bound K !! a = Some ∅ -> k_bound K2 !! a = Some ∅) ->
            (forall a, o = Some a -> k_bound K2 !! a = Some ∅) ->
            wt (until_error names retire_app) K2 Q).
  { intros K2 HK2 Hall Ho. apply (IH (d ++ [name])); [by rewrite HK2|by rewrite HK2| |].
    - intros n Hn. rewrite HK2. simpl. destruct (decide (n = name)) as [->|Hne].
      + exists o. by rewrite lookup_insert_eq.
      + destruct (Hd1 n) as (o' & Ho' & Ha); [set_solver|done|]. exists o'. split; [exact Ho'|auto].
    - intros r K3 HK3 Hr. apply HQ; [|by rewrite <- app_assoc in Hr].
      destruct HK3 as [(? & ? & ? & ? & ?) (? & ? & ?)]. rewrite HK2 in *. by repeat split. }
  destruct o as [app|]; [|by apply Hnext; [apply keeps_refl|..]].
  wt_do. intros _. wt_do. intros ids. cbn [post]. simpl (k_mgmt _). simpl (k_gate _). rewrite Hm, Hg. simpl (true && _).
  cbv iota. apply wt_retire_ids; [done|simpl; by rewrite lookup_insert_eq| |].
  - intros e K2 HK2. apply HQ; [|done]. rewrite HK2. by repeat split.
  - intros K2 HK2 Hz Hall. cbn [wt]. apply Hnext; [eauto with tako| |by intros a [= <-]].
    intros a Ha. destruct (decide (a = app)) as [->|Hne]; [done|]. apply Hall. simpl. by rewrite lookup_insert_ne.
Qed.

(** Waiting for requests and workflows: afterwards no request is in progress. *)
Lemma wt_await_local polls : forall K (Q : bool -> know -> Prop),
  (forall b K', keeps K K' -> k_bound K' = k_bound K -> (b = true -> k_idle K' = k_closed K) -> Q b K') ->
  wt (await_local polls) K Q.
Proof.
  induction polls as [|polls IH]; intros K Q HQ; cbn [await_local wt]; [by apply HQ; [apply keeps_refl|..]|].
  assert (Hwait : forall K1, keeps K K1 -> k_bound K1 = k_bound K -> wt (Do Expired (fun expired : bool =>
            if expired then Ret false else await_local polls)) K1 Q).
  { intros K1 HK Hb. wt_do. intros [|]; cbn [wt]; [by apply HQ|]. apply IH. intros b K' HK' Hb' Hi.
    apply HQ; [eauto with tako|congruence|]. intros E. rewrite Hi by done. by rewrite HK. }
  wt_do. intros n. cbn [post]. destruct (n =? 0)%nat; [|by apply Hwait; [apply keeps_refl|]].
  wt_do. intros st. destruct (is_complete st); [by apply HQ|by apply Hwait].
Qed.

Lemma wt_retire_runtime polls K (Q : option str -> know -> Prop) :
  k_mgmt K = true -> k_gate K = GNone -> k_flag K = true -> (forall r K', Q r K') ->
  wt (retire_local_runtime polls) K Q.
Proof.
  intros Hm Hg Hf HQ. unfold retire_local_runtime. wt_do. intros [|]; cbn [negb post]; cbv iota; [|apply HQ].
  wt_do. intros _. wt_do. intros _. wt_do. intros forced. cbn [post].
  destruct (negb (forced.2 =? 0)%nat); [wt_do; intros _; apply HQ|].
  wt_do. intros names. cbn [post]. simpl (k_mgmt _). rewrite Hm. set (K1 := know_apps _ _ _ _).
  assert (HK1 : k_mgmt K1 = true /\ k_gate K1 = GWrite /\ k_flag K1 = true /\ k_closed K1 = true
            /\ k_names K1 = Some (list_to_set names)) by (simpl; auto).
  clearbody K1. destruct HK1 as (H1 & H2 & H3 & H4 & H5).
  apply wt_bind, (wt_retire_apps names []); [done|done|intros n []%elem_of_nil|].
  intros r K2 ((E1 & _ & E3 & _) & E5 & E6 & E7) Hr. destruct r as [e|]; [wt_do; intros _; apply HQ|].
  specialize (Hr eq_refl). apply wt_bind, wt_await_local. intros b K3 HK3 Hb Hi.
  destruct b; cbn [negb]; cbv iota; [|wt_do; intros _; apply HQ].
  wt_do. intros [|]; cbn [negb post]; cbv iota; [|wt_do; intros _; apply HQ].
  cbn [wt pre post]. split; [|intros _; wt_do; intros _; apply HQ].
  assert (Hi3 : k_idle K3 = true) by (rewrite Hi by done; congruence).
  rewrite HK3 in Hi3 |- *. repeat split; cbn; try congruence. rewrite E7, H5. eexists. split; [done|].
  intros name Hn. apply elem_of_list_to_set in Hn. destruct (Hr name Hn) as (o & Ho & Ha). exists o.
  split; [done|]. rewrite Hb. exact Ha.
Qed.

Lemma wt_promote polls deferred : wt (promote polls deferred) no_know reply_ok.
Proof.
  unfold promote. wt_do. intros _. destruct deferred; [by wt_do|]. wt_do. intros _. wt_do. intros _.
  by apply wt_bind, wt_retire_runtime.
Qed.

Lemma wt_task {J : JsonApi} (task : Task) : wt (task_prog task) no_know reply_ok.
Proof.
  destruct task; cbn [task_prog].
  - apply wt_resolve_backend.
  - apply wt_handle_dead.
  - apply wt_handle_idle.
  - apply wt_handle_rpc.
  - by apply wt_bind, wt_observe.
  - apply wt_startup.
  - apply wt_promote.
Qed.

(** ** The invariant of a host *)

Definition task_ok (p t : nat) (w : World) (P : Proc) (m : prog Reply) : Prop :=
  exists K, wf K /\ holds p t K w P /\ wt m K reply_ok.

Definition host_ok (w : World) : Prop :=
  forall p P, procs w !! p = Some (Running P) ->
    proc_ok P /\ forall t m, tasks P !! t = Some m -> task_ok p t w P m.

Lemma no_know_ok p t w P m : wt m no_know reply_ok -> task_ok p t w P m.
Proof.
  intros Hm. exists no_know. split; [by constructor|]. split; [|done].
  constructor; try done; intros *; rewrite lookup_empty; done.
Qed.

(** A step of one process keeps the tasks of all. *)
Lemma host_ok_step p me w P w' P' :
  host_ok w -> procs w !! p = Some (Running P) -> procs w' = <[p := Running P']> (procs w) ->
  proc_ok P' -> step_ok p me w P w' P' ->
  (forall t m, tasks P' !! t = Some m ->
     (tasks P !! t = Some m /\ Some t <> me) \/ wt m no_know reply_ok \/ task_ok p t w' P' m) ->
  host_ok w'.
Proof.
  intros Hw Hp Hprocs Hok Hs Ht q Q. rewrite Hprocs, lookup_insert_Some. intros [[<- [= <-]]|[Hne Hq]].
  - split; [done|]. intros t m Hm. destruct (Ht t m Hm) as [[Hold Hme]|[Hn|Hn]]; [|by apply no_know_ok|done].
    destruct (Hw p P Hp) as [_ Htasks]. destruct (Htasks t m Hold) as (K & H1 & H2 & H3).
    exists K. split; [done|]. split; [|done]. by eapply holds_step.
  - destruct (Hw q Q Hq) as [Hokq Htasks]. split; [done|]. intros t m Hm.
    destruct (Htasks t m Hm) as (K & H1 & H2 & H3). exists K. split; [done|]. split; [|done].
    by eapply holds_other.
Qed.

Section Host.
Context `{!HashIter str nat} `{InstanceIter} {J : JsonApi}.

(** A step of a task, taken apart. *)
Lemma step_event p t c w w' :
  host_ok w -> exec (EvStep p t c) w = Some w' ->
  exists P A (a : act A) k x K' w1 P1,
    procs w !! p = Some (Running P) /\ tasks P !! t = Some (Do a k)
    /\ action_ok p t w P (adopts a) K' w1 P1 /\ wt (k x) K' reply_ok
    /\ w' = with_procs w1 (<[p := Running (with_tasks P1 (<[t := k x]> (tasks P1)) (next_task P1))]> (procs w1)).
Proof.
  intros Hw. simpl. destruct (procs w !! p) as [[|P]|] eqn:Hp; try done.
  destruct (tasks P !! t) as [[r|A a k]|] eqn:Ht; try done.
  destruct (perform p t c w P a) as [[w1 x]|] eqn:Hx; [|done].
  destruct (Hw p P Hp) as [Hok Htasks]. destruct (Htasks t _ Ht) as (K & Hwf & Hh & [Hpre Hk]).
  destruct (perform_sound p t c w P K Hp Hwf Hh Hok A a w1 x Hpre Hx) as (P1 & K' & HK & Ha).
  specialize (Hk x). rewrite HK in Hk. unfold on_proc.
  rewrite (a_procs _ _ _ _ _ _ _ _ Ha) at 1. rewrite lookup_insert_eq. intros [= <-].
  by exists P, A, a, k, x, K', w1, P1.
Qed.

Lemma step_tasks p me w P w' P' m n :
  step_ok p me w P w' P' -> step_ok p me w P w' (with_tasks P' m n).
Proof. intros []. by constructor. Qed.

Lemma holds_tasks p t K w P m n : holds p t K w P -> holds p t K w (with_tasks P m n).
Proof. intros []. by constructor. Qed.

Lemma proc_ok_tasks P m n : proc_ok P -> proc_ok (with_tasks P m n).
Proof. apply neutral_ok, neutral_tasks. Qed.

Lemma host_ok_task_step p t c w w' : host_ok w -> exec (EvStep p t c) w = Some w' -> host_ok w'.
Proof.
  intros Hw Hx. destruct (step_event p t c w w' Hw Hx) as (P & A & a & k & x & K' & w1 & P1 & Hp & Ht & Ha & Hk & ->).
  destruct Ha as [H1 H2 H3 H4 H5 H6 _ _].
  eapply (host_ok_step p (Some t) w P); [done|done| | | |].
  - simpl. rewrite H1. by rewrite insert_insert_eq.
  - by apply proc_ok_tasks.
  - apply step_tasks. destruct H5. by constructor.
  - simpl. intros u m. rewrite lookup_insert_Some. intros [[<- <-]|[Hne Hu]].
    + right. right. exists K'. split; [done|]. split; [|done]. by apply holds_tasks, holds_procs.
    + destruct H6 as [E|(name & app & E)]; rewrite E in Hu; [left; split; congruence|].
      apply lookup_insert_Some in Hu as [[_ <-]|[_ Hu]]; [right; left; apply wt_cold_start_leader|left; split; congruence].
Qed.

(** A step that no task takes. *)
Lemma host_ok_env p f w w' :
  (forall P P', f P = Some P' -> neutral P P' /\ forall t m, tasks P' !! t = Some m ->
     tasks P !! t = Some m \/ wt m no_know reply_ok) ->
  host_ok w -> on_proc w p f = Some w' -> host_ok w'.
Proof.
  intros Hf Hw. unfold on_proc. destruct (procs w !! p) as [[|P]|] eqn:Hp; try done.
  destruct (f P) as [P'|] eqn:HP; [|done]. intros [= <-]. destruct (Hf P P' HP) as [Hn Ht].
  eapply (host_ok_step p None w P); [done|done|done|by eapply neutral_ok, Hw| |].
  - by apply neutral_step.
  - intros t m Hm. destruct (Ht t m Hm); auto.
Qed.

Lemma neutral_requests P s :
  (admission (proxy_requests P) = DrainingAdmission -> admission s = DrainingAdmission
    /\ (active (proxy_requests P) = ∅ -> active s = ∅)) -> neutral P (with_requests P s).
Proof. intros Hs. constructor; auto. exact (heap_shrinks_refl P). Qed.

Lemma host_ok_procs w m : host_ok w ->
  (forall p P, m !! p = Some (Running P) -> procs w !! p = Some (Running P) \/ (proc_ok P /\ tasks P = ∅)) ->
  host_ok (with_procs w m).
Proof.
  intros Hw Hm p P Hp. destruct (Hm p P Hp) as [Hold|[Hok He]]; cycle 1.
  { split; [done|]. rewrite He. intros t k. by rewrite lookup_empty. }
  destruct (Hw p P Hold) as [Hok Ht]. split; [done|]. intros t k Hk. destruct (Ht t k Hk) as (K & H1 & H2 & H3).
  exists K. split; [done|]. split; [by apply holds_procs|done].
Qed.

Lemma new_proc_ok drain lease cfg :
  (lease || drain)%bool = true -> proc_ok (new_proc drain (if drain then false else lease) cfg).
Proof.
  intros Hl. constructor; simpl; [|done]. destruct drain; [|by destruct lease]. intros _.
  repeat split. intros name a app. simpl. by rewrite lookup_empty.
Qed.

Lemma host_ok_exit p w w' : host_ok w -> exec (EvExit p) w = Some w' -> host_ok w'.
Proof.
  intros Hw [= <-] q Q. simpl. rewrite lookup_delete_Some. intros [Hne Hq].
  destruct (Hw q Q Hq) as [Hok Ht]. split; [done|]. intros t k Hk. destruct (Ht t k Hk) as (K & H1 & H2 & H3).
  exists K. split; [done|]. split; [|done]. destruct H2. constructor; simpl; auto.
  intros Ho. rewrite h_op by done. by rewrite bool_decide_eq_false_2.
Qed.

Lemma host_ok_exec ev w w' : host_ok w -> exec ev w = Some w' -> host_ok w'.
Proof.
  intros Hw Hx. destruct ev as [p c|p c cfg|p|p task|p t c|p app a|p socket|p id|p id].
  - simpl in Hx. destruct (procs w !! p) eqn:Hp; [done|]. destruct (try_acquire false c w); [|done].
    injection Hx as <-. apply host_ok_procs; [done|]. intros q Q [[_ ?]|[_ ?]]%lookup_insert_Some; [done|auto].
  - simpl in Hx. destruct (procs w !! p) as [[lease|]|] eqn:Hp; try done.
    assert (Hdel : host_ok (with_procs w (delete p (procs w))))
      by (apply host_ok_procs; [done|]; intros q Q [_ ?]%lookup_delete_Some; auto).
    assert (Hgo : match (if negb lease && negb (requested w) then Some (with_procs w (delete p (procs w)))
              else Some (with_procs w (<[p := Running (new_proc (requested w) (if requested w then false else lease) cfg)]> (procs w))))
            with Some w2 => host_ok w2 | None => True end).
    { destruct (negb lease && negb (requested w)) eqn:Hl; [done|]. apply host_ok_procs; [done|].
      intros q Q [[_ [= <-]]|[_ ?]]%lookup_insert_Some; [|auto]. right. split; [|done]. apply new_proc_ok.
      by destruct lease, (requested w). }
    destruct c; try (injection Hx as <-; exact Hdel); rewrite Hx in Hgo; exact Hgo.
  - by eapply host_ok_exit.
  - eapply host_ok_env; [|done|exact Hx]. intros P P' [= <-]. split; [apply neutral_tasks|]. simpl.
    intros t m [[_ <-]|[_ ?]]%lookup_insert_Some; [right; apply wt_task|auto].
  - by eapply host_ok_task_step.
  - eapply host_ok_env; [|done|exact Hx]. intros P P'. cbv beta. case_bool_decide as Hsub; [|done]. intros [= <-].
    split; [|auto]. constructor; try done. intros b app'. simpl. destruct (decide (b = app)) as [->|Hne].
    + rewrite lookup_alter_eq, fmap_Some. intros (app0 & E & ->). exists app0. split; [done|].
      unfold app_at in Hsub. by rewrite E in Hsub.
    + rewrite lookup_alter_ne by done. eauto.
  - eapply host_ok_env; [|done|exact Hx]. intros P P' [= <-]. split; [|auto]. apply neutral_requests.
    intros Hc. unfold register. rewrite Hc. simpl. auto.
  - eapply host_ok_env; [|done|exact Hx]. intros P P' [= <-]. split; [|auto]. apply neutral_requests.
    intros Hc. unfold mark_long_lived. destruct (active (proxy_requests P) !! id) eqn:E; [|auto]. simpl.
    split; [done|]. intros Hz. by rewrite Hz, lookup_empty in E.
  - eapply host_ok_env; [|done|exact Hx]. intros P P' [= <-]. split; [|auto]. apply neutral_requests.
    intros Hc. simpl. split; [done|]. intros ->. apply delete_empty.
Qed.

Lemma host_ok_reachable w : reachable w -> host_ok w.
Proof.
  intros (drained & deadline & evs & Hx). revert Hx.
  assert (H0 : host_ok (idle_host drained deadline)) by (intros p P; simpl; by rewrite lookup_empty).
  revert H0. generalize (idle_host drained deadline). induction evs as [|ev evs IH]; intros w0 H0; simpl; [by intros [= <-]|].
  destruct (exec ev w0) as [w1|] eqn:E; [|done]. apply IH. by eapply host_ok_exec.
Qed.
End Host.

(** ** Quiet hosts *)

(** A drain is requested, no process has an activity lease, and every process is stopped. *)
Definition quiet (w : World) : Prop :=
  requested w = true
  /\ forall p P, procs w !! p = Some (Running P) -> drain_activity P = false /\ stopped P.

Section Quiet.
Context `{!HashIter str nat} `{InstanceIter} {J : JsonApi}.

(** Whether the event is the step in which a resume starts to restore. *)
Definition resumes (ev : Event) (w : World) : bool :=
  match ev with
  | EvStep p t _ =>
      match procs w !! p with
      | Some (Running P) => match tasks P !! t with Some (Do a _) => adopts a | _ => false end
      | _ => false
      end
  | _ => false
  end.

(** No resume starts to restore during the events. *)
Fixpoint no_resume (evs : list Event) (w : World) : bool :=
  match evs with
  | [] => true
  | ev :: evs' =>
      negb (resumes ev w) && match exec ev w with Some w' => no_resume evs' w' | None => true end
  end.

Definition unleased (w : World) : Prop :=
  requested w = true /\ forall p P, procs w !! p = Some (Running P) -> drain_activity P = false.

Lemma unleased_quiet w : host_ok w -> unleased w -> quiet w.
Proof.
  intros Hw [Hr Ha]. split; [done|]. intros p P Hp. split; [by eapply Ha|].
  apply (ok_stopped P); [by eapply Hw|by eapply Ha].
Qed.

Lemma unleased_env p f w w' :
  (forall P P', f P = Some P' -> drain_activity P' = drain_activity P) ->
  unleased w -> on_proc w p f = Some w' -> unleased w'.
Proof.
  intros Hf [Hr Ha]. unfold on_proc. destruct (procs w !! p) as [[|P]|] eqn:Hp; try done.
  destruct (f P) as [P'|] eqn:HP; [|done]. intros [= <-]. split; [done|]. simpl.
  intros q Q [[<- [= <-]]|[_ Hq]]%lookup_insert_Some; [|by eapply Ha]. rewrite (Hf P P' HP). by eapply Ha.
Qed.

Lemma unleased_step p t c w w' :
  host_ok w -> resumes (EvStep p t c) w = false -> unleased w -> exec (EvStep p t c) w = Some w' -> unleased w'.
Proof.
  intros Hw Hres [Hr Hl] Hx.
  destruct (step_event p t c w w' Hw Hx) as (P & A & a & k & x & K' & w1 & P1 & Hp & Ht & Ha & Hk & ->).
  simpl in Hres. rewrite Hp, Ht in Hres.
  destruct (a_quiet _ _ _ _ _ _ _ _ Ha Hres Hr (Hl p P Hp)) as [Hr1 Hl1]. split; [done|]. simpl.
  intros q Q. rewrite (a_procs _ _ _ _ _ _ _ _ Ha), insert_insert_eq.
  intros [[<- [= <-]]|[_ Hq]]%lookup_insert_Some; [done|by eapply Hl].
Qed.

Lemma unleased_exec ev w w' :
  host_ok w -> resumes ev w = false -> unleased w -> exec ev w = Some w' -> unleased w'.
Proof.
  intros Hw Hres Hu Hx. destruct ev as [p c|p c cfg|p|p task|p t c|p app a|p socket|p id|p id];
    try (eapply unleased_env; [|exact Hu|exact Hx]; intros P P'; cbv beta; try case_bool_decide; by intros [= <-]).
  - simpl in Hx. destruct (procs w !! p) eqn:Hp; [done|]. destruct (try_acquire false c w); [|done].
    injection Hx as <-. destruct Hu as [Hr Ha]. split; [done|]. simpl.
    intros q Q [[_ ?]|[_ Hq]]%lookup_insert_Some; [done|by eapply Ha].
  - simpl in Hx. destruct (procs w !! p) as [[lease|]|] eqn:Hp; try done. destruct Hu as [Hr Ha]. rewrite Hr in Hx.
    assert (Hdel : unleased (with_procs w (delete p (procs w)))).
    { split; [done|]. simpl. intros q Q [_ Hq]%lookup_delete_Some. by eapply Ha. }
    rewrite andb_false_r in Hx. destruct c; injection Hx as <-; try exact Hdel;
      (split; [done|]; simpl; intros q Q [[_ [= <-]]|[_ Hq]]%lookup_insert_Some; [done|by eapply Ha]).
  - injection Hx as <-. destruct Hu as [Hr Ha]. split; [done|]. simpl.
    intros q Q [_ Hq]%lookup_delete_Some. by eapply Ha.
  - by eapply unleased_step.
Qed.

Lemma quiet_execs evs : forall w w',
  host_ok w -> quiet w -> no_resume evs w = true -> execs evs w = Some w' -> quiet w'.
Proof.
  induction evs as [|ev evs IH]; intros w w' Hw Hq Hn; simpl; [by intros [= <-]|].
  simpl in Hn. apply andb_true_iff in Hn as [Hres Hn]. apply negb_true_iff in Hres.
  destruct (exec ev w) as [w1|] eqn:Hx; [|done].
  assert (Hw1 : host_ok w1) by (by eapply host_ok_exec). apply IH; [done| |done].
  apply unleased_quiet; [done|]. eapply unleased_exec; [exact Hw|done| |exact Hx].
  destruct Hq as [Hr Ha]. split; [done|]. intros p P Hp. by apply (Ha p P).
Qed.

(** The exclusive lease is granted to nobody unless the host is quiet. *)
Lemma grant_is_quiet ev w w' g :
  host_ok w -> exec ev w = Some w' -> g ∈ granted w' -> g ∉ granted w -> quiet w'.
Proof.
  intros Hw Hx Hg Hng. assert (Hw' : host_ok w') by (by eapply host_ok_exec). apply unleased_quiet; [done|].
  assert (Henv : forall p f, on_proc w p f = Some w' -> granted w' = granted w).
  { intros p f. unfold on_proc. repeat case_match; try done. by intros [= <-]. }
  destruct ev as [p c|p c cfg|p|p task|p t c|p app a|p socket|p id|p id];
    try (exfalso; apply Hng; by rewrite <- (Henv _ _ Hx)).
  - exfalso. simpl in Hx. by repeat case_match; simplify_eq.
  - exfalso. simpl in Hx. by repeat case_match; simplify_eq.
  - exfalso. by injection Hx as <-.
  - destruct (step_event p t c w w' Hw Hx) as (P & A & a & k & x & K' & w1 & P1 & Hp & Ht & Ha & Hk & ->).
    destruct (a_granted _ _ _ _ _ _ _ _ Ha g Hg Hng) as [Hr Hf]. split; [done|]. simpl. intros q Q.
    rewrite lookup_insert_Some. intros [[<- [= <-]]|[_ Hq]]; simpl.
    + apply (Hf p (Running P1)). rewrite (a_procs _ _ _ _ _ _ _ _ Ha). by rewrite lookup_insert_eq.
    + exact (Hf q (Running Q) Hq).
Qed.

(** C8: drained hosts stay quiet.  Server processes of a host start, exit, serve requests,
    deploy, drain and resume, their tasks interleaved in every way and with every failure of
    the store, the lock files and the runtimes.  Then: a process that has given up its
    activity lease is stopped, that is, its flag is set, it admits no request, none is in
    progress, and no registered app has an instance; a drain answers that it is completed
    only if it was granted the exclusive lease; whenever that is granted the whole host is
    quiet, every process stopped, and it stays quiet, also when processes start, until a
    resume begins to restore; and a drain that is about to stop an instance holds the spawn
    gate alone, so no spawn is under way that the stop would orphan. *)
Theorem drained_hosts_stay_quiet w :
  reachable w ->
  (forall p P, procs w !! p = Some (Running P) -> drain_activity P = false -> stopped P)
  /\ (forall p P t r, procs w !! p = Some (Running P) -> tasks P !! t = Some (Ret (Drained r)) ->
        completed r = true -> (p, t) ∈ granted w)
  /\ (forall ev w' g, exec ev w = Some w' -> g ∈ granted w' -> g ∉ granted w -> quiet w')
  /\ (quiet w -> forall evs w', no_resume evs w = true -> execs evs w = Some w' -> quiet w')
  /\ (forall p P t app id k, procs w !! p = Some (Running P) -> tasks P !! t = Some (Do (KillUntil app id) k) ->
        gate_writer P = Some t /\ gate_readers P = ∅).
Proof.
  intros Hw%host_ok_reachable. split; [|split; [|split; [|split]]].
  - intros p P Hp. by apply ok_stopped, (Hw p P).
  - intros p P t r Hp Ht Hc. destruct (Hw p P Hp) as [_ Htasks]. destruct (Htasks t _ Ht) as (K & _ & Hh & Hr).
    apply (h_granted _ _ _ _ _ Hh). by apply Hr.
  - intros ev w' g. by apply grant_is_quiet.
  - intros Hq evs w'. by apply quiet_execs.
  - intros p P t app id k Hp Ht. destruct (Hw p P Hp) as [Hok Htasks].
    destruct (Htasks t _ Ht) as (K & _ & Hh & [Hpre _]). assert (Hg : gate_writer P = Some t) by (by apply (h_write _ _ _ _ _ Hh)).
    split; [done|]. by apply (ok_gate _ Hok t).
Qed.
End Quiet.

(** ** A host at work *)

Definition demo_kill : KillEnv := mkKillEnv (Ok tt) (Ok tt) (Ok tt) (Ok tt).

(** An environment in which everything succeeds; [id] names the next instance. *)
Definition demo_choice (id : str) {A} (a : act A) : Choice :=
  match a with
  | AllocateInstance _ => Fresh id 0
  | KillUntil _ _ | Kill _ _ => Killed demo_kill
  | HasCompose _ | Expired => Refuse
  | ColdBegin _ => At 0
  | WaitForReady _ => Outcome WTimeout
  | _ => Proceed
  end.

(** The events of one task until it ends or has to wait, at most [n]. *)
Fixpoint drive {J : JsonApi} (n : nat) (id : str) (p t : nat) (w : World) : list Event :=
  match n with
  | O => []
  | S n' =>
      match procs w !! p with
      | Some (Running P) =>
          match tasks P !! t with
          | Some (Do a _) =>
              let ev := EvStep p t (demo_choice id a) in
              match exec ev w with Some w' => ev :: drive n' id p t w' | None => [] end
          | _ => []
          end
      | _ => []
      end
  end.

(** Events that depend on where the previous ones lead. *)
Fixpoint play {J : JsonApi} (l : list (World -> list Event)) (w : World) : list Event :=
  match l with
  | [] => []
  | f :: l' => f w ++ match execs (f w) w with Some w' => play l' w' | None => [] end
  end.

Definition starts {J : JsonApi} (p : nat) (task : Task) (w : World) : list Event := [EvStart p task].
Definition boots {J : JsonApi} (p : nat) (w : World) : list Event :=
  [EvBoot p Proceed; EvOpen p Proceed ColdStartConfig_default].

Section Demo.
#[local] Instance demo_api : JsonApi := text_json.

Definition demo_app : AppConfig := mkAppConfig (bs "web") (bs "production") (bs "v1") 0 4 [] [] 1000 1000.

(** A deployment registers the app and starts an instance. *)
Definition demo_deploy : Task := TRpc 3 [WRegister demo_app; WAllocate 0] (Rollback (bs "web/production") (bs "v1")).
Definition demo_drain_task : Task := TRpc 3 [] (DrainServer 60).

Definition world_after (l : list (World -> list Event)) : World :=
  default (idle_host false 0) (execs (play l (idle_host false 0)) (idle_host false 0)).

Definition instances_of (w : World) (p app : nat) : list str :=
  match procs w !! p with
  | Some (Running P) => match heap P !! app with Some a => elements (instances a) | None => [] end
  | _ => []
  end.

Definition answer_of (w : World) (p t : nat) : option Reply :=
  match procs w !! p with
  | Some (Running P) => match tasks P !! t with Some (Ret r) => Some r | _ => None end
  | _ => None
  end.

Definition says_completed (o : option Reply) : bool :=
  match o with Some (Drained r) => completed r | _ => false end.

(** Two processes; the first deploys; the second drains the host, which has to wait for the
    observer of the first. *)
Definition demo_running : list (World -> list Event) :=
  [boots 0; boots 1; starts 0 demo_deploy; drive 100 (bs "i1") 0 0].
Definition demo_drained : list (World -> list Event) :=
  demo_running ++ [starts 1 demo_drain_task; drive 24 [] 1 0; starts 0 (TObserve 3 []); drive 100 [] 0 1; drive 100 [] 1 0].

Example demo_runs :
  instances_of (world_after demo_running) 0 0 = [bs "i1"]
  /\ says_completed (answer_of (world_after demo_drained) 1 0) = true
  /\ instances_of (world_after demo_drained) 0 0 = [].
Proof. vm_compute. auto. Qed.
Definition runs (l : list (World -> list Event)) : bool :=
  match execs (play l (idle_host false 0)) (idle_host false 0) with Some _ => true | None => false end.

Lemma world_after_reachable l : runs l = true -> reachable (world_after l).
Proof.
  unfold runs, world_after. intros Hr. exists false, 0%Z, (play l (idle_host false 0)).
  by destruct (execs (play l (idle_host false 0)) (idle_host false 0)).
Qed.

Definition all_released (w : World) : bool :=
  bool_decide (map_Forall (fun _ x => holds_shared x = false) (procs w)).

Lemma says_completed_Some w p t : says_completed (answer_of w p t) = true ->
  exists P r, procs w !! p = Some (Running P) /\ tasks P !! t = Some (Ret (Drained r)) /\ completed r = true.
Proof.
  unfold answer_of. destruct (procs w !! p) as [[|P]|]; try done. destruct (tasks P !! t) as [[r|]|] eqn:Ht; try done.
  destruct r; try done. simpl. eauto 10.
Qed.

Definition demo_late : list Event := boots 2 (world_after demo_drained).

(** After the drain of [demo_drained] a third process starts, and finds the host drained. *)
Lemma drained_hosts_stay_quiet_witness :
  (1, 0) ∈ granted (world_after demo_drained) /\ quiet (world_after demo_drained)
  /\ exists w', execs demo_late (world_after demo_drained) = Some w' /\ quiet w'.
Proof.
  assert (Hr : reachable (world_after demo_drained)) by (apply world_after_reachable; vm_compute; reflexivity).
  destruct (drained_hosts_stay_quiet _ Hr) as (H1 & H2 & _ & H4 & _).
  assert (Hrel : all_released (world_after demo_drained) = true) by (vm_compute; reflexivity).
  apply bool_decide_eq_true in Hrel.
  assert (Hq : quiet (world_after demo_drained)).
  { split; [vm_compute; reflexivity|]. intros p P Hp. pose proof (Hrel p _ Hp) as Ha. split; [exact Ha|]. by eapply H1. }
  assert (Hsays : says_completed (answer_of (world_after demo_drained) 1 0) = true) by (vm_compute; reflexivity).
  destruct (says_completed_Some _ _ _ Hsays) as (P & r & Hp & Ht & Hc).
  split; [exact (H2 1 P 0 r Hp Ht Hc)|]. split; [exact Hq|].
  destruct (execs demo_late (world_after demo_drained)) as [w'|] eqn:Hx.
  - exists w'. split; [reflexivity|]. apply (H4 Hq demo_late w'); [vm_compute; reflexivity|exact Hx].
  - exfalso. assert (E : match execs demo_late (world_after demo_drained) with Some _ => true | None => false end = true)
      by (vm_compute; reflexivity). rewrite Hx in E. discriminate E.
Defined.

(** ** Three schedules that the protocol does not exclude *)

Definition demo_resume_work : list AppWork := [WRegister demo_app; WAllocate 1].

(** No drain was ever requested.  A resume on a running server whose first read of the store
    fails (the fifth step of its task) takes the server for draining: every instance is
    stopped, requests in flight are cut, and the apps are started again. *)
Definition demo_failed_read : list (World -> list Event) :=
  demo_running ++
  [starts 0 (TRpc 3 demo_resume_work ResumeServer); drive 4 [] 0 1;
   fun _ => [EvStep 0 1 (Fail (bs "database is locked"))]; drive 100 (bs "i2") 0 1].

Lemma failed_read_restarts_apps :
  runs demo_failed_read = true /\ requested (world_after demo_failed_read) = false
  /\ instances_of (world_after demo_running) 0 0 = [bs "i1"]
  /\ instances_of (world_after demo_failed_read) 0 0 = []
  /\ instances_of (world_after demo_failed_read) 0 1 = [bs "i2"].
Proof. vm_compute. auto 10. Qed.

(** A task reads that a drain is requested and pauses before it sets the flag; a resume
    completes; then the flag is set although no drain is requested, and the next pass of the
    observer stops every instance that the resume started. *)
Definition demo_one : list (World -> list Event) :=
  [boots 0; starts 0 demo_deploy; drive 100 (bs "i1") 0 0; starts 0 demo_drain_task; drive 100 [] 0 1].
Definition demo_stale_flag : list (World -> list Event) :=
  demo_one ++
  [starts 0 (TDead [] [] []); drive 1 [] 0 2;
   starts 0 (TRpc 3 demo_resume_work ResumeServer); drive 100 (bs "i2") 0 3].
Definition demo_stale_observed : list (World -> list Event) :=
  demo_stale_flag ++ [drive 100 [] 0 2; starts 0 (TObserve 3 []); drive 100 [] 0 4].

Lemma stale_flag_stops_apps :
  runs demo_stale_observed = true
  /\ answer_of (world_after demo_stale_flag) 0 3 = Some (Resumed false)
  /\ instances_of (world_after demo_stale_flag) 0 1 = [bs "i2"]
  /\ requested (world_after demo_stale_observed) = false
  /\ instances_of (world_after demo_stale_observed) 0 1 = [].
Proof. vm_compute. auto 10. Qed.

(** The leader of a cold start keeps the app object it was started with.  If a drain and a
    resume happen before it runs, it starts an instance of an app that is no longer
    registered, and the next drain completes without stopping it. *)
Definition demo_orphan : list (World -> list Event) :=
  [boots 0; starts 0 (TRpc 3 [WRegister demo_app] (Rollback [] [])); drive 100 [] 0 0;
   starts 0 (TRequest (bs "web/production")); drive 6 [] 0 1;
   starts 0 demo_drain_task; drive 100 [] 0 3;
   starts 0 (TRpc 3 [WRegister demo_app] ResumeServer); drive 100 [] 0 4;
   drive 100 (bs "orphan") 0 2;
   starts 0 demo_drain_task; drive 100 [] 0 5].

Lemma stale_leader_orphans_instance :
  runs demo_orphan = true /\ says_completed (answer_of (world_after demo_orphan) 0 5) = true
  /\ instances_of (world_after demo_orphan) 0 0 = [bs "orphan"].
Proof. vm_compute. auto. Qed.
End Demo.
